(* ===== verification/_CoqProject ===== *)
-Q . S2P
Prelude.v
OrderedMap.v
Types.v
Overload.v
Ustring.v
DebugHandles.v
DebugInfo.v
StopCoordinator.v
StopInvariant.v
StopProofs.v
Breakpoints.v
IndentLexer.v
Mvcc.v
Value.v
GcHeap.v
GcInvariant.v
GcCollect.v
GcProofs.v
GcBarrier.v
GcBarrierProofs.v
SortedMap.v
Signals.v
Dataflow.v
DataflowSort.v
DataflowWires.v
DataflowEnds.v
DataflowIslands.v
DataflowProofs.v
DataflowEval.v
DataflowFrame.v
DataflowSettle.v
Ranges.v
Wire.v
Lists.v
ListStorage.v
ListProofs.v
Strings.v
StringProofs.v
Dicts.v
DictProofs.v
Chunk.v
Machine.v
MachineProofs.v
CallProofs.v
Scopes.v
ScopeProofs.v
CompiledCode.v
