(* ===== verification/Prelude.v ===== *)
(** * A verification library for Roxal

    Roxal is a language for robotics: a compiler in C++ ([src/compiler]) turns a program
    into bytecode that a virtual machine runs in many threads, over one object heap; the
    dataflow engine ([src/dataflow]) evaluates networks of signals beside them, in real
    time; a debugger ([src/compiler/debug]) stops and inspects all of it.  This library
    models the parts that carry the program's own logic, as executable definitions
    translated from the source, and proves what makes each of them correct.

    ** Conventions

    - A C++ call returns, throws, or leaves the language's defined behaviour: [outcome]
      below ([Ret], [Throw], [UB]).  A definition that may run out of fuel has a fourth
      answer, an [option] or [UB] as its comment says, and a theorem that its fuel is
      enough: termination is proved, never assumed.
    - Integers are [Z] at the width of the source, with [wrapU] and [wrapS] where the
      program wraps and [UB] where signed arithmetic overflows; doubles are their 64
      bits, computed on with the IEEE operations of [SpecFloat].
    - Objects are addresses (or allocation numbers) in an explicit store, so that aliasing
      is modelled; threads are interleavings of atomic steps, cut where the source takes
      or gives back its locks; every file says at which grain.
    - Names are those of the source wherever Rocq allows them.

    ** The parts

    Containers and strings.
    - [OrderedMap] (core/ordered_map.h): the insertion-ordered map of the compiler's
      member tables.  It refines an association list in first-insertion order; clients see it
      through the class [OrderedDict].
    - [Ustring] (core/ustring.h): UTF-16 strings, UTF-8 in and out, escapes, hashes and
      orders.  Decoding and encoding are inverse exactly on valid input; comparing code
      units with a fix-up is the order of code points.
    - [SortedMap]: [std::map] as an ascending list, shared by the dataflow files.

    Values and types.
    - [Value] (compiler/Value): the NaN-boxed word, boxed integers, scalar conversions and
      operators.  The encodings are disjoint and round-trip; integer operators are exact
      or throw.
    - [Wire] (writeValue, readValue in compiler/Value, ObjPrimitive's methods in Object):
      words and boxed primitives as bytes, with the numbering of a serialization context.
    - [Ranges] (ObjRange in compiler/Object): a range's length and indices over a target.
      A regular range enumerates the progression from its start to its stop.
    - [Lists] (ObjList): lists packed as octets or boxed as Values, sharing vectors with
      their clones.  [ListStorage] has the abstraction and the copy-on-write steps;
      [ListProofs] proves that neither storage nor sharing can be observed.
    - [Strings] (ObjString): string objects, their 64-bit keys and the intern table, its
      critical sections interleaved with the program's references, the reclaimer and the
      collector.  [StringProofs]: the table never leads to freed memory, probes end, and,
      without colliding keys, comparing strings is comparing contents.
    - [Dicts] (ObjDict): entries in the order of [less], keys in the order they came,
      shared with clones until written.  [DictProofs]: on keys that [less] orders
      ([KeyOrder]) a dict is an association list.
    - [Types] (core/types): the type representation, its printer and the builtin
      conversion tables, which are a strict order away from enum and nil.
    - [Overload] (compiler/OverloadResolver): candidate scores, ties, deferral.  The
      run-time answer is the unique best feasible candidate, and a static dispatch never
      picks another.

    Code and its execution.
    - [Chunk] (compiler/Chunk): operation codes, chunks, and call specifications: their
      bytes and the positions they give a callee's parameters.
    - [Machine] (VM::execute and what it calls, Thread, CallFrame): the value stack, frames,
      calls, closures with their upvalues, returns, jumps, exceptions, against the class
      [Store] of what the interpreter asks of the place its variables live in; [Stack] is
      the program's, [Cells] the specification.  [MachineProofs]: the stack with its open
      upvalues computes what cells do as long as no slot is given up under an open upvalue
      ([Guarded]); exceptions find their handlers.  [CallProofs]: arguments reach their
      parameters; call specifications read back.
    - [Scopes] (compiler/RoxalCompiler): the compiler's functions with their locals, blocks,
      upvalues, labels and jumps, and the code these write.  [ScopeProofs]: jumps land
      where the locals kept are the ones the label means; an upvalue stands for the
      innermost variable of its name.
    - [CompiledCode]: the two together.  The code [Scopes] writes for jumps and closures,
      run by [Machine] over cells: a frame that jumps is at the label with the label's
      variables, a closure holds the cells of the variables its function names.

    Lexing.
    - [IndentLexer] (compiler/RoxalIndentationLexer): INDENT/DEDENT insertion around the
      generated lexer.  It ends on any token stream, balances its blocks, loses no token,
      and follows the off-side rule.

    The heap.
    - [Mvcc] (compiler/ObjControl.h, Object.cpp): version chains and frozen snapshots.
      Taking one goes in the stages of its source, and mutators hold the copy-on-write
      lock (lists, dicts, instances) or do without it (vectors, matrices, tensors, actors:
      the [bare] steps).  Snapshots are isolated from the guarded mutations, interleaved
      at will; where an unguarded one breaks in is shown.  Their bookkeeping is exact.
    - [GcHeap], [GcInvariant], [GcCollect], [GcProofs] (compiler/Object, Value,
      SimpleMarkSweepGC): reference counts, weak references, tracing, trimming, sweeping
      and the reclaimer.  Nothing reachable is freed; what is unreachable goes.  An
      assignment is a step, or its two halves with the reclaimer between them.
    - [GcBarrier], [GcBarrierProofs] (compiler/SimpleMarkSweepGC): how a collection gets
      the world to itself, at the grain of single lock releases and atomic accesses.  No
      thread is on the heap, in a real-time section or destroying objects while another
      collects; a deferred request is never lost.
    [Mvcc] takes the heap's allocations as they are; [GcHeap] takes a Value as plain,
    strong or weak, which is what [Value]'s predicates decide; [GcBarrier] is what makes
    [GcHeap]'s collection one step.

    Debugging.
    - [DebugInfo], [DebugHandles] (compiler/debug): the chunks' tables and their binary
      form, accepted only within limits and read back exactly; handles that never name
      something else.
    - [StopCoordinator], [StopInvariant], [StopProofs] (compiler/debug/StopCoordinator and
      the threads' side of it): the all-or-nothing stop of an execution domain, and the
      protocol its host sees.
    - [Breakpoints] (ModuleDebugIndex, BreakpointManager, BreakpointRuntime): from a line
      of a source to an armed word of a chunk to a stop published through
      [StopCoordinator]; steps and their anchors, against what a step is in the history of
      the stack ([step_ends]).

    Dataflow.
    - [Signals] (dataflow/Signal, DataflowEngine::nextPeriodOnPeriodBoundary): a signal's
      samples, which implement a delay line, and the time grid.
    - [Dataflow] (dataflow/DataflowEngine, FuncNode, Signal; ObjSignal's destructor): the
      network: registration, pruning, lifting, delays, wires, pushes, ticks and the
      rebuild of its cached form.
    - [DataflowSort], [DataflowWires], [DataflowEnds], [DataflowIslands],
      [DataflowProofs]: the sort; the steps a program and the engine can take, none of
      which closes a loop within a tick; that removals, samples and ticks end; the split
      into islands; and what every rebuilt network therefore satisfies: it has an order,
      functions run after what feeds them, islands are the connected parts, and the tick
      period divides every period.
    - [DataflowEval] (DataflowEngine::tick, evaluateNetwork, evaluateIsland,
      FuncNode::conditionallyExecute): a node's inputs, its run, an island's rounds, over
      any bodies.  [DataflowFrame], [DataflowSettle]: what a sample and a run leave alone
      (with it, that the network's operations end), and that one round settles an island
      of [lawful] functions.

    ** Groups of theorems

    Safety over all interleavings: snapshot isolation and sound pending reads ([Mvcc]), no
    live object freed ([GcProofs]), no freed string read ([StringProofs]), the world stopped
    ([GcBarrierProofs]), jumps that keep their locals ([CompiledCode]), stops committed
    soundly and threads frozen ([StopProofs]), no cyclic wiring ([DataflowProofs]).
    Liveness: collections claim all garbage, latched requests are published, pending stops
    commit, armed breakpoints fire.  Round trips: UTF-8, debug tables, boxed words,
    lists, call specifications.  Refinements of an abstract specification: the ordered map,
    the delay line, the host's stop protocol, lists as plain sequences of Values, dicts as
    association lists, captured variables as cells.
    Exact answers: overload resolution, the off-side rule, execution orders, islands, the
    loop check, the tick grid, the values an evaluation leaves, ranges and slices, where
    arguments, exceptions and captured names go.  Each
    is stated with the operations of its component and, where it has hypotheses, used on a
    concrete input by the lemma of the same name ending in [_witness].

    ** Fuel

    Fuel is always a bound computed from the state, and proved enough: the lengths of
    inputs for the string loops and the lexer, the number of blocks for marking and for
    releases ([GcInvariant]), of table entries for the probes for a string, of graph nodes
    for the walks over functions, types, wires and islands (what is visited grows at every
    round), twice the registered signals and
    functions for the removals that call each other, twice the signals for a sample going
    down the wires ([DataflowEnds]).  The engine's own limit on an island's rounds is its
    hundred per function.  The search for a handler takes the number of frames, which is
    enough since each round gives one up.  [Machine.execute] alone takes any fuel: it
    counts the instructions of a program that need not end, and what is proved of it holds
    after every number of them.

    ** Not modelled

    - The interpreter's other instructions ([Machine] answers [Beyond] there): objects,
      actors, events, futures, signals, native calls and conversions run on nearly every
      object type.  The compiler's visitors, type deduction, the parser's glue and the
      syntax tree: the tree comes from a generated parser.
    - Vectors, matrices, tensors, actors and modules as object types beyond what [Mvcc]
      and [GcHeap] need.  For lists, strings and dicts: deep clones, printing, built-in
      methods, and the state an exception leaves half-way through an operation ([outcome]
      drops it).
    - In the dataflow engine: what a function's body does (the interpreter again; it is a
      parameter), bodies that suspend and the host's budgets, the engine's thread, event
      queues, drawing.
    - I/O: files, sockets, DDS, gRPC, Qt, the web host, foreign functions, the neural
      network runtime; the debug adapter's JSON; console routing.
    - Generated and vendored code: the ANTLR lexer and parser (the lexer is a parameter of
      [IndentLexer]), miniaudio, Eigen, sgcl.

    ** Plan

    Next: a whole tick over islands that share nothing, lists and dicts as [Mvcc]'s
    payloads, the opcode encoding of Chunk.cpp, the console and JSON
    readers. *)

From stdpp Require Export base option list gmap strings fin_maps.
From Stdlib Require Export ZArith Lia Sorted.

(** ** Outcomes

    A C++ call either returns, throws a standard exception, or leaves the
    behaviour of the language (a dereference past the end, a pop of an empty
    container).  The three are kept apart everywhere. *)

Inductive outcome (E A : Type) : Type :=
| Ret (a : A)
| Throw (e : E)
| UB.
Arguments Ret {E A} a.
Arguments Throw {E A} e.
Arguments UB {E A}.

Definition obind {E A B} (m : outcome E A) (k : A -> outcome E B) : outcome E B :=
  match m with
  | Ret a => k a
  | Throw e => Throw e
  | UB => UB
  end.

Declare Scope roxal_scope.
Delimit Scope roxal_scope with roxal.
Notation "'let!' x ':=' m 'in' k" := (obind m (fun x => k))
  (at level 10, x pattern, m at level 100, k at level 200) : roxal_scope.
Open Scope roxal_scope.

Create HintDb roxal.
Create Rewrite HintDb roxal.

(** ** Machine integers: a [w]-bit integer is a [Z] in its range. *)

Definition wrapU (w x : Z) : Z := x mod 2 ^ w.
Definition wrapS (w x : Z) : Z := (x + 2 ^ (w - 1)) mod 2 ^ w - 2 ^ (w - 1).

Definition inU (w x : Z) : Prop := (0 <= x < 2 ^ w)%Z.
Definition inS (w x : Z) : Prop := (- 2 ^ (w - 1) <= x < 2 ^ (w - 1))%Z.

Lemma wrapU_range w x : (0 <= w)%Z -> inU w (wrapU w x).
Proof. intros Hw. apply Z.mod_pos_bound, Z.pow_pos_nonneg; lia. Qed.

Lemma wrapU_id w x : inU w x -> wrapU w x = x.
Proof. intros Hx. by apply Z.mod_small. Qed.

Lemma wrapS_id w x : (0 < w)%Z -> inS w x -> wrapS w x = x.
Proof.
  unfold inS, wrapS. intros Hw Hx.
  assert (2 ^ w = 2 * 2 ^ (w - 1))%Z as E
    by (rewrite <- Z.pow_succ_r by lia; f_equal; lia).
  rewrite Z.mod_small by lia. lia.
Qed.

#[export] Hint Resolve wrapU_range : roxal.
#[export] Hint Rewrite wrapU_id wrapS_id using (assumption || lia) : roxal.

(** ** Positions in a list ([std::find] returns an iterator; its distance from
    [begin] is the position, [size] when absent). *)

Section find_pos.
Context {A : Type} `{EqDecision A}.

Fixpoint find_pos (x : A) (l : list A) : nat :=
  match l with
  | [] => 0
  | y :: l' => if decide (y = x) then 0 else S (find_pos x l')
  end.

(** [vec.erase(std::find(...))] when found. *)
Fixpoint erase_first (x : A) (l : list A) : list A :=
  match l with
  | [] => []
  | y :: l' => if decide (y = x) then l' else y :: erase_first x l'
  end.

Lemma find_pos_le x l : find_pos x l <= length l.
Proof. induction l; simpl; [lia|]. case_decide; lia. Qed.

Lemma find_pos_lt x l : find_pos x l < length l <-> x ∈ l.
Proof.
  induction l as [|y l IH]; simpl; [split; [lia|set_solver]|].
  rewrite elem_of_cons, <- IH. case_decide; subst; [split; [tauto|lia]|].
  split; [intros; right; lia|intros [->|]; [done|lia]].
Qed.

Lemma find_pos_lookup x l : x ∈ l -> l !! find_pos x l = Some x.
Proof.
  induction l as [|y l IH]; simpl; [set_solver|].
  rewrite elem_of_cons. intros Hx. case_decide as Hyx; [by subst|].
  apply IH. destruct Hx; congruence.
Qed.

Lemma erase_first_notin x l : x ∉ l -> erase_first x l = l.
Proof.
  induction l as [|y l IH]; simpl; [done|].
  rewrite not_elem_of_cons. intros [Hne Hni]. case_decide; [congruence|].
  by rewrite IH.
Qed.

Lemma erase_first_filter x l :
  NoDup l -> erase_first x l = filter (fun y => y <> x) l.
Proof.
  induction 1 as [|y l Hy Hl IH]; simpl; [done|].
  rewrite filter_cons. destruct (decide (y = x)) as [->|Hne].
  - rewrite decide_False by tauto. symmetry. clear IH Hl.
    induction l as [|z l IH]; [done|]. rewrite filter_cons.
    apply not_elem_of_cons in Hy as [Hxz Hy].
    rewrite decide_True by congruence. by rewrite IH.
  - rewrite decide_True by done. by rewrite IH.
Qed.
End find_pos.

(** ** Filters that keep everything or nothing *)

Section filters.
Context {A : Type} (P : A -> Prop) `{forall x, Decision (P x)}.

Lemma filter_all l : Forall P l -> filter P l = l.
Proof. induction 1 as [|x l Hx _ IH]; [done|]. by rewrite filter_cons_True, IH. Qed.

Lemma filter_none l : Forall (fun x => ~ P x) l -> filter P l = [].
Proof. induction 1 as [|x l Hx _ IH]; [done|]. by rewrite filter_cons_False, IH. Qed.

Lemma StronglySorted_filter (R : A -> A -> Prop) l :
  StronglySorted R l -> StronglySorted R (filter P l).
Proof.
  induction 1 as [|x l Hs IH Hx]; [constructor|]. rewrite filter_cons. case_decide; [|done].
  constructor; [done|]. apply Forall_forall. intros y [_ Hy]%list_elem_of_filter.
  rewrite Forall_forall in Hx. by apply Hx.
Qed.
End filters.

Lemma forallb_Forall {A} (f : A -> bool) l :
  forallb f l = true <-> Forall (fun x => f x = true) l.
Proof.
  rewrite forallb_forall, Forall_forall. split; intros H x Hx; apply H; by apply list_elem_of_In.
Qed.

(** ** Sums over a finite map *)

Definition msum {A} (f : A -> nat) (m : gmap Z A) : nat := map_fold (fun _ b n => (f b + n)%nat) 0%nat m.

Section msum.
Context {A : Type}.
Implicit Types (f g : A -> nat) (m : gmap Z A) (k : Z) (b : A).

Lemma msum_delete f m k b : m !! k = Some b -> msum f m = (f b + msum f (delete k m))%nat.
Proof.
  intros Hk. unfold msum. rewrite <- (insert_delete_id m k b Hk) at 1.
  apply (map_fold_insert_L (fun _ (b : A) n => (f b + n)%nat)); [intros; lia|by rewrite lookup_delete_eq].
Qed.

Lemma msum_insert f m k b : m !! k = None -> msum f (<[k := b]> m) = (f b + msum f m)%nat.
Proof. intros Hk. apply (map_fold_insert_L (fun _ (b : A) n => (f b + n)%nat)); [intros; lia|done]. Qed.

Lemma msum_alter f (g : A -> A) m k b :
  m !! k = Some b -> (msum f (alter g k m) + f b)%nat = (msum f m + f (g b))%nat.
Proof.
  intros Hk. rewrite (msum_delete f m k b Hk).
  rewrite (msum_delete f (alter g k m) k (g b)) by (by rewrite lookup_alter_eq, Hk).
  assert (delete k (alter g k m) = delete k m) as ->; [|lia].
  apply map_eq. intros i. destruct (decide (i = k)) as [->|Hne].
  - by rewrite !lookup_delete_eq.
  - by rewrite !lookup_delete_ne, lookup_alter_ne.
Qed.

Lemma msum_ge f m k b : m !! k = Some b -> (f b <= msum f m)%nat.
Proof. intros Hk. rewrite (msum_delete f m k b Hk). lia. Qed.

Lemma msum_nothing f m : (forall k b, m !! k = Some b -> f b = 0%nat) -> msum f m = 0%nat.
Proof.
  induction m as [|k b m Hk IH] using map_ind; intros H; [done|].
  rewrite msum_insert by done. rewrite (H k b) by (by rewrite lookup_insert_eq).
  apply IH. intros k' b' H'. apply (H k'). rewrite lookup_insert_ne; [done|]. intros <-. congruence.
Qed.

Lemma msum_pos f m : (0 < msum f m)%nat -> exists k b, m !! k = Some b /\ (0 < f b)%nat.
Proof.
  induction m as [|k b m Hk IH] using map_ind; intros H.
  { unfold msum in H. rewrite map_fold_empty in H. lia. }
  rewrite msum_insert in H by done. destruct (f b) as [|n] eqn:Ef.
  - destruct (IH ltac:(lia)) as (k' & b' & H' & Hp). exists k', b'.
    rewrite lookup_insert_ne; [done|]. intros <-. congruence.
  - exists k, b. rewrite lookup_insert_eq. split; [done|lia].
Qed.

Lemma msum_mono f m m' :
  (forall k b', m' !! k = Some b' -> exists b, m !! k = Some b /\ (f b' <= f b)%nat) ->
  (msum f m' <= msum f m)%nat.
Proof.
  revert m. induction m' as [|k b' m' Hk IH] using map_ind; intros m H.
  { unfold msum at 1. rewrite map_fold_empty. lia. }
  rewrite msum_insert by done. destruct (H k b') as (b & E & Hle); [by rewrite lookup_insert_eq|].
  rewrite (msum_delete f m k b E). enough (msum f m' <= msum f (delete k m))%nat by lia.
  apply IH. intros j b0 Hj. assert (j <> k) as Hne by (intros ->; congruence).
  destruct (H j b0) as (b1 & E1 & H1); [by rewrite lookup_insert_ne|]. exists b1.
  by rewrite lookup_delete_ne.
Qed.

Lemma msum_le f g m : (forall b, (f b <= g b)%nat) -> (msum f m <= msum g m)%nat.
Proof.
  intros H. induction m as [|k b m Hk IH] using map_ind; [done|].
  rewrite !msum_insert by done. specialize (H b). lia.
Qed.

Lemma msum_same f m m' : (forall k, f <$> m !! k = f <$> m' !! k) -> msum f m = msum f m'.
Proof.
  intros H. apply Nat.le_antisymm; apply msum_mono; intros k b E; specialize (H k); rewrite E in H.
  - destruct (m' !! k) as [b'|]; [|done]. exists b'. injection H as ->. by split.
  - destruct (m !! k) as [b'|]; [|done]. exists b'. injection H as ->. by split.
Qed.

Lemma msum_size f n m : (forall b, (f b <= n)%nat) -> (msum f m <= n * size m)%nat.
Proof.
  intros H. induction m as [|k b m Hk IH] using map_ind; [unfold msum; rewrite map_fold_empty; lia|].
  rewrite msum_insert, map_size_insert_None by done. specialize (H b). lia.
Qed.

Lemma msum_put f m k b b' : m !! k = Some b -> (msum f (<[k := b']> m) + f b = msum f m + f b')%nat.
Proof.
  intros Hk. rewrite <- (msum_alter f (fun _ => b') m k b Hk). do 2 f_equal. apply map_eq. intros i.
  destruct (decide (i = k)) as [->|Hne]; [by rewrite lookup_insert_eq, lookup_alter_eq, Hk|].
  by rewrite lookup_insert_ne, lookup_alter_ne.
Qed.

End msum.
