(* ===== verification/OrderedMap.v ===== *)
(** * OrderedMap: [src/core/ordered_map.h]

    The insertion-ordered map: a hash map [m] from keys to values beside a
    vector [order] of its keys.  Every public operation of the class template
    is a definition below; an iterator is an index into [order].  The contract
    other components rely on is the class [OrderedDict]: an association list
    without repeated keys, in first-insertion order. *)

From S2P Require Import Prelude.

(** ** The abstract contract: association lists with distinct keys *)

Section alist.
Context {K V : Type} `{EqDecision K}.

Fixpoint al_lookup (k : K) (l : list (K * V)) : option V :=
  match l with
  | [] => None
  | (k', v) :: l' => if decide (k' = k) then Some v else al_lookup k l'
  end.

(** insert keeps the first value of a key. *)
Definition al_insert (k : K) (v : V) (l : list (K * V)) : list (K * V) :=
  if decide (k ∈ l.*1) then l else l ++ [(k, v)].

(** assignment overwrites in place, or appends. *)
Definition al_set (k : K) (v : V) (l : list (K * V)) : list (K * V) :=
  if decide (k ∈ l.*1)
  then (fun p => if decide (p.1 = k) then (k, v) else p) <$> l
  else l ++ [(k, v)].

Definition al_erase (k : K) (l : list (K * V)) : list (K * V) :=
  filter (fun p => p.1 <> k) l.
End alist.

(** What a client of an insertion-ordered dictionary may assume. *)
Class OrderedDict (K V D : Type) `{EqDecision K} := {
  od_ok : D -> Prop;
  od_entries : D -> list (K * V);
  od_empty : D;
  od_insert : K -> V -> D -> D;
  od_set : K -> V -> D -> D;
  od_erase : K -> D -> D;
  od_find : K -> D -> option V;
  od_nodup d : od_ok d -> NoDup (od_entries d).*1;
  od_empty_spec : od_ok od_empty /\ od_entries od_empty = [];
  od_insert_spec k v d : od_ok d ->
    od_ok (od_insert k v d) /\ od_entries (od_insert k v d) = al_insert k v (od_entries d);
  od_set_spec k v d : od_ok d ->
    od_ok (od_set k v d) /\ od_entries (od_set k v d) = al_set k v (od_entries d);
  od_erase_spec k d : od_ok d ->
    od_ok (od_erase k d) /\ od_entries (od_erase k d) = al_erase k (od_entries d);
  od_find_spec k d : od_ok d -> od_find k d = al_lookup k (od_entries d)
}.

(** ** The class template *)

(** The exception [at] and a stale iterator raise. *)
Inductive omap_exn := out_of_range.

Section OrderedMap.
Context {K : Type} `{CK : Countable K} {V : Type}.

Record ordered_map := OMap {
  om_m : gmap K V;
  om_order : list K
}.

Definition om_empty : ordered_map := OMap ∅ [].

(** [T& operator[](key)]: [try_emplace] with the default value, then the
    reference; [om_assign] is a store through that reference. *)
Definition om_subscript (dflt : V) (k : K) (s : ordered_map) : ordered_map * V :=
  match om_m s !! k with
  | Some v => (s, v)
  | None => (OMap (<[k := dflt]> (om_m s)) (om_order s ++ [k]), dflt)
  end.

Definition om_assign (dflt : V) (k : K) (v : V) (s : ordered_map) : ordered_map :=
  let s' := (om_subscript dflt k s).1 in
  OMap (<[k := v]> (om_m s')) (om_order s').

Definition om_at (k : K) (s : ordered_map) : outcome omap_exn V :=
  match om_m s !! k with
  | Some v => Ret v
  | None => Throw out_of_range
  end.

Definition orderIndexOf (k : K) (s : ordered_map) : nat := find_pos k (om_order s).

Definition om_begin (s : ordered_map) : nat := 0.
Definition om_end (s : ordered_map) : nat := length (om_order s).

Definition iteratorAtKey (k : K) (s : ordered_map) : nat :=
  let index := orderIndexOf k s in
  if decide (length (om_order s) <= index) then om_end s else index.

(** [*it]: indexing the vector past its end is undefined, a key the hash map
    does not hold is an exception. *)
Definition om_deref (i : nat) (s : ordered_map) : outcome omap_exn (K * V) :=
  match om_order s !! i with
  | None => UB
  | Some k =>
      match om_m s !! k with
      | None => Throw out_of_range
      | Some v => Ret (k, v)
      end
  end.

(** [insert]: the new map, the iterator and whether it was inserted. *)
Definition om_insert (k : K) (v : V) (s : ordered_map) : ordered_map * (nat * bool) :=
  match om_m s !! k with
  | None =>
      let order' := om_order s ++ [k] in
      (OMap (<[k := v]> (om_m s)) order', (length order' - 1, true))
  | Some _ => (s, (iteratorAtKey k s, false))
  end.

Definition containsKey (k : K) (s : ordered_map) : bool :=
  bool_decide (is_Some (om_m s !! k)).

Definition om_lookup (k : K) (s : ordered_map) : option V := om_m s !! k.

(** [apply(f)]: [f] runs on a caller state and may throw; what it threw is
    dropped, what it did to the state before that stays. *)
Definition om_apply {S E : Type} (f : K -> V -> S -> S * option E)
    (s : ordered_map) (st : S) : S :=
  foldl (fun st k => match om_m s !! k with
                     | None => st
                     | Some v => (f k v st).1
                     end) st (om_order s).

Definition om_erase (k : K) (s : ordered_map) : ordered_map * nat :=
  match om_m s !! k with
  | None => (s, 0)
  | Some _ => (OMap (delete k (om_m s)) (erase_first k (om_order s)), 1)
  end.

(** [erase_and_apply(key, f)]: [f] runs after the entry is gone, so an
    exception of [f] leaves it erased. *)
Definition om_erase_and_apply {S E : Type} (k : K) (f : V -> S -> S * option E)
    (s : ordered_map) (st : S) : ordered_map * S * outcome E nat :=
  match om_m s !! k with
  | None => (s, st, Ret 0)
  | Some v =>
      let s' := OMap (delete k (om_m s)) (erase_first k (om_order s)) in
      match f v st with
      | (st', None) => (s', st', Ret 1)
      | (st', Some e) => (s', st', Throw e)
      end
  end.

Definition om_clear (s : ordered_map) : ordered_map := OMap ∅ [].
Definition om_size (s : ordered_map) : nat := size (om_m s).
Definition om_is_empty (s : ordered_map) : bool := bool_decide (om_m s = ∅).

Definition om_find (k : K) (s : ordered_map) : nat :=
  match om_m s !! k with
  | None => om_end s
  | Some _ =>
      let index := orderIndexOf k s in
      if decide (length (om_order s) <= index) then om_end s else index
  end.

(** [operator=(const map_type&)]: the order is the one in which the hash map
    iterates, which the language leaves open: [enum] is that iteration. *)
Definition om_assign_map (enum : gmap K V -> list (K * V)) (rhs : gmap K V) : ordered_map :=
  OMap rhs ((enum rhs).*1).

Definition om_keys (s : ordered_map) : list K := om_order s.

Definition om_entries (s : ordered_map) : list (K * V) :=
  omap (fun k => pair k <$> om_m s !! k) (om_order s).

(** [for (it = begin(); it != end(); ++it) visit( *it)]: the visited pairs.
    [fuel] bounds the number of increments; [iterate] passes the size. *)
Fixpoint iterate_from (fuel i : nat) (s : ordered_map) : outcome omap_exn (list (K * V)) :=
  if decide (i = om_end s) then Ret []
  else match fuel with
       | 0 => UB
       | S fuel' =>
           let! p := om_deref i s in
           let! rest := iterate_from fuel' (S i) s in
           Ret (p :: rest)
       end.

Definition iterate (s : ordered_map) : outcome omap_exn (list (K * V)) :=
  iterate_from (om_end s - om_begin s) (om_begin s) s.

(** The representation invariant: [order] lists each key of [m] once. *)
Definition om_wf (s : ordered_map) : Prop :=
  NoDup (om_order s) /\ forall k, k ∈ om_order s <-> is_Some (om_m s !! k).
End OrderedMap.
Arguments ordered_map K {_ _} V.

(** ** Lemmas *)

Section alist_lemmas.
Context {K V : Type} `{EqDecision K}.
Implicit Types l : list (K * V).

Lemma al_lookup_cons k k' v l :
  al_lookup k ((k', v) :: l) = if decide (k' = k) then Some v else al_lookup k l.
Proof. done. Qed.

Lemma al_set_fst k v l :
  (al_set k v l).*1 = if decide (k ∈ l.*1) then l.*1 else l.*1 ++ [k].
Proof.
  unfold al_set. case_decide; [|by rewrite fmap_app].
  rewrite <- list_fmap_compose. apply list_fmap_ext. intros ? [k' v'] _. simpl.
  case_decide; simpl; congruence.
Qed.
End alist_lemmas.

Section proofs.
Context {K : Type} `{CK : Countable K} {V : Type}.
Implicit Types (s : ordered_map K V) (k : K) (v : V).

(** Reading a map along a list of keys it holds. *)
Definition along (m : gmap K V) (ks : list K) : list (K * V) :=
  omap (fun k => pair k <$> m !! k) ks.

Lemma along_cons m k ks :
  along m (k :: ks) = match m !! k with Some v => (k, v) :: along m ks | None => along m ks end.
Proof. unfold along. simpl. by destruct (m !! k). Qed.

Lemma along_app m ks ks' : along m (ks ++ ks') = along m ks ++ along m ks'.
Proof. apply omap_app. Qed.

Lemma along_agree m m' ks :
  (forall k, k ∈ ks -> m !! k = m' !! k) -> along m ks = along m' ks.
Proof.
  induction ks as [|k ks IH]; intros Hag; [done|]. rewrite !along_cons.
  rewrite Hag by set_solver. rewrite IH by set_solver. done.
Qed.

Lemma along_fst m ks : (forall k, k ∈ ks -> is_Some (m !! k)) -> (along m ks).*1 = ks.
Proof.
  induction ks as [|k ks IH]; [done|]. intros Hin. rewrite along_cons.
  destruct (Hin k) as [v Hv]; [set_solver|]. rewrite Hv, fmap_cons. simpl.
  f_equal. apply IH. set_solver.
Qed.

Lemma along_set m k v ks :
  (forall k', k' ∈ ks -> is_Some (m !! k')) ->
  along (<[k := v]> m) ks =
  (fun p => if decide (p.1 = k) then (k, v) else p) <$> along m ks.
Proof.
  induction ks as [|k' ks IH]; [done|]. intros Hin. rewrite !along_cons.
  destruct (Hin k') as [v' Hv']; [set_solver|]. rewrite Hv', fmap_cons. simpl.
  rewrite IH by set_solver. destruct (decide (k' = k)) as [->|Hne].
  - by rewrite lookup_insert_eq.
  - by rewrite lookup_insert_ne, Hv' by done.
Qed.

Lemma al_erase_along m k ks : al_erase k (along m ks) = along m (filter (fun j => j <> k) ks).
Proof.
  unfold al_erase. induction ks as [|j ks IH]; [done|].
  rewrite along_cons, filter_cons. destruct (decide (j <> k)) as [Hj|Hj].
  - rewrite along_cons. destruct (m !! j); [|done].
    rewrite filter_cons, decide_True by done. by rewrite IH.
  - destruct (m !! j); [|done].
    rewrite filter_cons, decide_False by (simpl; tauto). by rewrite IH.
Qed.

Lemma along_erase m k ks :
  NoDup ks -> along (delete k m) (erase_first k ks) = al_erase k (along m ks).
Proof.
  intros Hnd. rewrite erase_first_filter, al_erase_along by done.
  apply along_agree. intros j [Hj _]%list_elem_of_filter. by rewrite lookup_delete_ne.
Qed.

Lemma along_lookup m k ks :
  (forall k', k' ∈ ks -> is_Some (m !! k')) ->
  al_lookup k (along m ks) = if decide (k ∈ ks) then m !! k else None.
Proof.
  induction ks as [|k' ks IH]; intros Hin; [done|]. rewrite along_cons.
  destruct (Hin k') as [v' Hv']; [set_solver|]. rewrite Hv'. simpl.
  rewrite IH by set_solver.
  repeat case_decide; subst; set_solver.
Qed.

Lemma om_entries_along s : om_entries s = along (om_m s) (om_order s).
Proof. done. Qed.

Lemma om_entries_fst s : om_wf s -> (om_entries s).*1 = om_order s.
Proof. intros [_ Hdom]. apply along_fst. intros k. apply Hdom. Qed.

Lemma wf_notin s k : om_wf s -> om_m s !! k = None -> k ∉ om_order s.
Proof. intros [_ Hdom] Hk Hin%Hdom. rewrite Hk in Hin. by destruct Hin. Qed.

Lemma wf_in s k v : om_wf s -> om_m s !! k = Some v -> k ∈ om_order s.
Proof. intros [_ Hdom] Hk. apply Hdom. by exists v. Qed.

Lemma om_wf_append s k v :
  om_wf s -> om_m s !! k = None -> om_wf (OMap (<[k := v]> (om_m s)) (om_order s ++ [k])).
Proof.
  intros Hwf Hk. pose proof (wf_notin s k Hwf Hk). destruct Hwf as [Hnd Hdom]. split; simpl.
  - apply NoDup_app. split; [done|]. split; [set_solver|apply NoDup_singleton].
  - intros k'. rewrite elem_of_app, Hdom, list_elem_of_singleton, lookup_insert_is_Some.
    destruct (decide (k = k')); subst; tauto || naive_solver.
Qed.

Lemma om_wf_overwrite s k v v' :
  om_wf s -> om_m s !! k = Some v -> om_wf (OMap (<[k := v']> (om_m s)) (om_order s)).
Proof.
  intros [Hnd Hdom] Hk. split; simpl; [done|]. intros k'.
  rewrite Hdom, lookup_insert_is_Some.
  destruct (decide (k = k')); subst; naive_solver.
Qed.

Lemma om_wf_erase s k :
  om_wf s -> om_wf (OMap (delete k (om_m s)) (erase_first k (om_order s))).
Proof.
  intros [Hnd Hdom]. split; simpl; rewrite erase_first_filter by done.
  - by apply NoDup_filter.
  - intros k'. rewrite list_elem_of_filter, Hdom, lookup_delete_is_Some. naive_solver.
Qed.

Lemma find_pos_in s k : om_wf s -> is_Some (om_m s !! k) -> orderIndexOf k s < om_end s.
Proof. intros [_ Hdom] Hk. apply find_pos_lt. by apply Hdom. Qed.

Lemma iteratorAtKey_in s k :
  om_wf s -> is_Some (om_m s !! k) -> iteratorAtKey k s = orderIndexOf k s.
Proof.
  intros Hwf Hk. pose proof (find_pos_in s k Hwf Hk) as Hlt. unfold iteratorAtKey, om_end in *.
  rewrite decide_False by lia. done.
Qed.

Lemma om_deref_key s k v :
  om_wf s -> om_m s !! k = Some v -> om_deref (orderIndexOf k s) s = Ret (k, v).
Proof.
  intros Hwf Hk. unfold om_deref, orderIndexOf.
  rewrite find_pos_lookup by eauto using wf_in. by rewrite Hk.
Qed.

Lemma iterate_from_drop s fuel i :
  om_wf s -> i <= om_end s -> om_end s - i <= fuel ->
  iterate_from fuel i s = Ret (drop i (om_entries s)).
Proof.
  intros Hwf. assert (length (om_entries s) = om_end s) as Hlen.
  { rewrite <- (length_fmap fst), om_entries_fst by done. done. }
  revert i. induction fuel as [|fuel IH]; intros i Hi Hf; simpl.
  - rewrite decide_True by lia. by rewrite drop_ge by lia.
  - case_decide as Hend; [by rewrite drop_ge by lia|].
    destruct (lookup_lt_is_Some_2 (om_entries s) i) as [[k v] Hkv]; [lia|].
    assert (om_order s !! i = Some k) as Hk.
    { rewrite <- (om_entries_fst s) by done. by rewrite list_lookup_fmap, Hkv. }
    assert (om_m s !! k = Some v) as Hv.
    { apply list_elem_of_lookup_2 in Hkv. unfold om_entries in Hkv.
      apply list_elem_of_omap in Hkv as (k' & _ & Hk').
      destruct (om_m s !! k') eqn:E; naive_solver. }
    unfold om_deref. rewrite Hk, Hv. simpl. rewrite IH by lia. simpl.
    by rewrite (drop_S (om_entries s) (k, v) i).
Qed.
End proofs.

(** ** Results *)

Section results.
Context {K : Type} `{CK : Countable K} {V : Type}.
Implicit Types (s : ordered_map K V) (k : K) (v : V).

(** Appending a fresh key appends its pair. *)
Lemma entries_append k v s :
  om_wf s -> om_m s !! k = None ->
  om_entries (OMap (<[k := v]> (om_m s)) (om_order s ++ [k])) = om_entries s ++ [(k, v)].
Proof.
  intros Hwf Hk. rewrite !om_entries_along. simpl. rewrite along_app. f_equal.
  - apply along_agree. intros j Hj. rewrite lookup_insert_ne; [done|].
    intros ->. by apply (wf_notin s j).
  - rewrite along_cons. by rewrite lookup_insert_eq.
Qed.

Lemma om_insert_refines k v s :
  om_wf s ->
  om_wf (om_insert k v s).1 /\ om_entries (om_insert k v s).1 = al_insert k v (om_entries s).
Proof.
  intros Hwf. unfold om_insert, al_insert. rewrite (om_entries_fst s) by done.
  destruct (om_m s !! k) as [v'|] eqn:Hk; simpl.
  - rewrite decide_True by eauto using wf_in. done.
  - rewrite decide_False by eauto using wf_notin.
    split; [by apply om_wf_append|by apply entries_append].
Qed.

Lemma om_assign_refines dflt k v s :
  om_wf s ->
  om_wf (om_assign dflt k v s) /\ om_entries (om_assign dflt k v s) = al_set k v (om_entries s).
Proof.
  intros Hwf. unfold om_assign, om_subscript, al_set. rewrite (om_entries_fst s) by done.
  destruct (om_m s !! k) as [v'|] eqn:Hk; simpl.
  - rewrite decide_True by eauto using wf_in. split; [by eapply om_wf_overwrite|].
    rewrite !om_entries_along. simpl. apply along_set. intros j Hj. by apply Hwf.
  - rewrite decide_False by eauto using wf_notin. rewrite insert_insert_eq.
    split; [by apply om_wf_append|by apply entries_append].
Qed.

Lemma om_erase_refines k s :
  om_wf s ->
  om_wf (om_erase k s).1 /\ om_entries (om_erase k s).1 = al_erase k (om_entries s).
Proof.
  intros Hwf. unfold om_erase. destruct (om_m s !! k) as [v|] eqn:Hk; simpl.
  - split; [by apply om_wf_erase|]. rewrite !om_entries_along. simpl.
    apply along_erase, Hwf.
  - split; [done|]. rewrite om_entries_along, al_erase_along. f_equal.
    rewrite <- erase_first_filter by apply Hwf. symmetry.
    by apply erase_first_notin, wf_notin.
Qed.

Lemma om_lookup_refines k s : om_wf s -> om_lookup k s = al_lookup k (om_entries s).
Proof.
  intros Hwf. rewrite om_entries_along, along_lookup by apply Hwf. unfold om_lookup.
  case_decide as Hin; [done|]. destruct (om_m s !! k) eqn:E; [|done].
  exfalso. eauto using wf_in.
Qed.

Lemma om_empty_wf : om_wf (om_empty : ordered_map K V).
Proof.
  split; simpl; [constructor|]. intros k. rewrite lookup_empty. split; [set_solver|by intros []].
Qed.
End results.

Lemma om_entries_nodup `{Countable K} {V} (s : ordered_map K V) :
  om_wf s -> NoDup (om_entries s).*1.
Proof. intros Hwf. rewrite om_entries_fst by done. apply Hwf. Qed.

(** The class template implements the ordered-dictionary contract. *)
#[export] Program Instance ordered_map_dict `{Countable K} {V} `{Inhabited V} :
  OrderedDict K V (ordered_map K V) := {|
    od_ok := om_wf;
    od_entries := om_entries;
    od_empty := om_empty;
    od_insert k v d := (om_insert k v d).1;
    od_set := om_assign inhabitant;
    od_erase k d := (om_erase k d).1;
    od_find := om_lookup
  |}.
Next Obligation. simpl. intros. by apply om_entries_nodup. Qed.
Next Obligation. intros. split; [apply om_empty_wf|done]. Qed.
Next Obligation. intros. by apply om_insert_refines. Qed.
Next Obligation. intros. by apply om_assign_refines. Qed.
Next Obligation. intros. by apply om_erase_refines. Qed.
Next Obligation. intros. by apply om_lookup_refines. Qed.

(** ** Programs over one map *)

Section programs.
Context {K : Type} `{CK : Countable K} {V : Type}.

(** The mutating calls a client can make; an assignment is
    [m[k] = v], an [erase_and_apply] carries the function applied. *)
Inductive om_op : Type :=
| OpInsert (k : K) (v : V)
| OpAssign (dflt : V) (k : K) (v : V)
| OpErase (k : K)
| OpEraseAndApply (k : K) (f : V -> unit -> unit * option omap_exn)
| OpClear.

Definition om_step (s : ordered_map K V) (o : om_op) : ordered_map K V :=
  match o with
  | OpInsert k v => (om_insert k v s).1
  | OpAssign d k v => om_assign d k v s
  | OpErase k => (om_erase k s).1
  | OpEraseAndApply k f => (om_erase_and_apply k f s ()).1.1
  | OpClear => om_clear s
  end.

Definition al_step (l : list (K * V)) (o : om_op) : list (K * V) :=
  match o with
  | OpInsert k v => al_insert k v l
  | OpAssign _ k v => al_set k v l
  | OpErase k | OpEraseAndApply k _ => al_erase k l
  | OpClear => []
  end.

Lemma om_step_refines s o :
  om_wf s -> om_wf (om_step s o) /\ om_entries (om_step s o) = al_step (om_entries s) o.
Proof.
  intros Hwf. destruct o as [k v|d k v|k|k f|]; simpl.
  - by apply om_insert_refines.
  - by apply om_assign_refines.
  - by apply om_erase_refines.
  - pose proof (om_erase_refines k s Hwf) as He. unfold om_erase_and_apply, om_erase in *.
    destruct (om_m s !! k); [|done]. by destruct (f v ()) as [? []].
  - split; [apply om_empty_wf|done].
Qed.

Lemma om_run_from ops s :
  om_wf s ->
  om_wf (foldl om_step s ops) /\
  om_entries (foldl om_step s ops) = foldl al_step (om_entries s) ops.
Proof.
  revert s. induction ops as [|o ops IH]; intros s Hwf; simpl; [done|].
  destruct (om_step_refines s o Hwf) as [Hwf' Hent]. rewrite <- Hent. by apply IH.
Qed.

Lemma iterate_wf (s : ordered_map K V) : om_wf s -> iterate s = Ret (om_entries s).
Proof.
  intros Hwf. unfold iterate, om_begin.
  rewrite iterate_from_drop by (done || lia). by rewrite drop_0.
Qed.

Lemma om_size_entries (s : ordered_map K V) : om_wf s -> om_size s = length (om_entries s).
Proof.
  intros Hwf. rewrite <- (length_fmap fst), om_entries_fst by done.
  destruct Hwf as [Hnd Hdom]. unfold om_size.
  rewrite <- size_dom, <- (size_list_to_set (C := gset K)) by done. f_equal.
  apply set_eq. intros k. rewrite elem_of_dom, elem_of_list_to_set. by rewrite Hdom.
Qed.

(** Any program of insertions, assignments, erasures and clears on a new
    [ordered_map] keeps the representation invariant, and the map it leaves is
    the association list the same program computes: a loop over it visits
    exactly that list in that order without a stale-iterator exception, [keys]
    and [size] agree with it, and [find]/[lookup] return its value. *)
Theorem ordered_map_refines_alist (ops : list om_op) :
  let s := foldl om_step om_empty ops in
  let l := foldl al_step [] ops in
  om_wf s /\ om_entries s = l /\ iterate s = Ret l /\
  om_keys s = l.*1 /\ NoDup l.*1 /\ om_size s = length l /\
  (forall k, om_lookup k s = al_lookup k l) /\
  (forall k v, al_lookup k l = Some v -> om_deref (om_find k s) s = Ret (k, v)) /\
  (forall k, al_lookup k l = None -> om_find k s = om_end s).
Proof.
  destruct (om_run_from ops om_empty om_empty_wf) as [Hwf Hent].
  change (om_entries om_empty) with (@nil (K * V)) in Hent.
  intros s l. fold s in Hwf, Hent. fold l in Hent. rewrite <- Hent.
  assert (forall k, om_lookup k s = al_lookup k (om_entries s)) as Hlk
    by (intros; by apply om_lookup_refines).
  split_and!; [done|done|by apply iterate_wf|symmetry; by apply om_entries_fst| | |done| |].
  - rewrite om_entries_fst by done. apply Hwf.
  - by apply om_size_entries.
  - intros k v. rewrite <- Hlk. unfold om_lookup, om_find. intros Hk. rewrite Hk.
    pose proof (find_pos_in s k Hwf ltac:(by eexists)) as Hlt. unfold om_end in Hlt.
    rewrite decide_False by lia. by apply om_deref_key.
  - intros k. rewrite <- Hlk. unfold om_lookup, om_find. intros Hk. by rewrite Hk.
Qed.

(** [insert] on a well-formed map reports whether the key was new, never
    replaces the value of a present key, and returns an iterator that
    dereferences to the stored pair. *)
Theorem insert_result (k : K) (v : V) (s : ordered_map K V) (Hwf : om_wf s) :
  let '(s', (it, inserted)) := om_insert k v s in
  inserted = negb (containsKey k s) /\
  om_deref it s' = Ret (k, default v (om_lookup k s)) /\
  (forall j, j <> k -> om_lookup j s' = om_lookup j s).
Proof.
  pose proof (om_insert_refines k v s Hwf) as [Hwf' _].
  unfold om_insert, containsKey, om_lookup in *.
  destruct (om_m s !! k) as [v'|] eqn:Hk; simpl in *.
  - split; [done|]. split; [|done].
    rewrite iteratorAtKey_in by (done || by rewrite Hk). by apply om_deref_key.
  - split; [done|]. split.
    + unfold om_deref. simpl. rewrite length_app. simpl.
      rewrite lookup_app_r by lia.
      replace (_ - _) with 0 by lia. simpl. by rewrite lookup_insert_eq.
    + intros j Hj. by rewrite lookup_insert_ne.
Qed.
End programs.
Arguments om_op K V : clear implicits.

(** [insert] of a key already stored keeps its value and points at it. *)
Lemma insert_result_witness :
  let s := foldl om_step om_empty [OpInsert 5 true; OpInsert 3 false] in
  om_wf s /\
  (om_insert 3 true s).2.2 = false /\
  om_deref (om_insert 3 true s).2.1 (om_insert 3 true s).1 = Ret (3, false) /\
  om_lookup 5 (om_insert 3 true s).1 = Some true.
Proof.
  intros s. assert (om_wf s) as Hwf by apply (om_run_from _ _ om_empty_wf).
  destruct (insert_result 3 true s Hwf) as (Hnew & Hderef & Hother).
  split; [exact Hwf|]. split; [exact Hnew|]. split; [exact Hderef|].
  exact (Hother 5 ltac:(lia)).
Defined.
