(* ===== verification/Types.v ===== *)
(** * Types: [src/core/types.h], [src/core/types.cpp]

    The compiler's representation of Roxal types, the builtin conversion
    tables, and the printer of types.  A [ptr<Type>] is an [option]: a null
    pointer is [None].  The graph a [Type] reaches is a finite tree here;
    the compiler builds types bottom-up and never ties a cycle through
    [extends] (preRegisterTypeMembers guards the declarations). *)

From S2P Require Import Prelude.
From stdpp Require Import pretty.

Module BT.
Inductive BuiltinType : Set :=
| Nil
| Bool | Byte | Number | Int | Real | Decimal
| String | Range | Enum
| List | Dict
| Vector | Matrix | Signal | Tensor
| Orient
| Func
| Object | Actor
| Type_
| Event.
End BT.
Abbreviation BuiltinType := BT.BuiltinType.

#[export] Instance BuiltinType_eq_dec : EqDecision BuiltinType.
Proof. solve_decision. Defined.

(** The enumerators in declaration order: [static_cast<size_t>]. *)
Definition all_builtins : list BuiltinType :=
  [BT.Nil; BT.Bool; BT.Byte; BT.Number; BT.Int; BT.Real; BT.Decimal; BT.String; BT.Range;
   BT.Enum; BT.List; BT.Dict; BT.Vector; BT.Matrix; BT.Signal; BT.Tensor; BT.Orient; BT.Func;
   BT.Object; BT.Actor; BT.Type_; BT.Event].

Definition builtin_index (t : BuiltinType) : nat := find_pos t all_builtins.

Definition builtinTypeToString : list string :=
  ["nil"; "bool"; "byte"; "number"; "int"; "real"; "decimal";
   "string"; "range"; "enum"; "list"; "dict"; "vector"; "matrix";
   "signal"; "tensor"; "orient"; "func"; "object"; "actor"; "type"; "event"].

(** Throws when the value is not an index of the name table. *)
Definition to_string (t : BuiltinType) : outcome string string :=
  match builtinTypeToString !! builtin_index t with
  | Some s => Ret s
  | None => Throw "to_string(BuiltinType) unhandled alternative"
  end.

Definition builtinTypeFromName (name : string) : option BuiltinType :=
  all_builtins !! find_pos name builtinTypeToString.

Definition isNilAcceptableTargetBuiltinType (t : BuiltinType) : bool :=
  match t with
  | BT.String | BT.List | BT.Dict | BT.Object | BT.Actor | BT.Signal | BT.Event | BT.Func
  | BT.Tensor => true
  | _ => false
  end.

(** The scalar types index the two conversion tables. *)
Definition conv_idx (t : BuiltinType) : option nat :=
  match t with
  | BT.Bool => Some 0
  | BT.Byte => Some 1
  | BT.Int => Some 2
  | BT.Real => Some 3
  | BT.Decimal => Some 4
  | BT.String => Some 5
  | BT.Enum => Some 6
  | _ => None
  end.

Definition nonStrictTab : list (list bool) :=
  [ (* to:    bool   byte   int    real   decimal string enum *)
   (* bool *)    [true; true; true; true; true; true; false];
   (* byte *)    [true; true; true; true; true; true; false];
   (* int *)     [true; true; true; true; true; true; false];
   (* real *)    [true; true; true; true; true; true; false];
   (* decimal *) [true; true; true; true; true; true; false];
   (* string *)  [true; true; true; true; true; true; true];
   (* enum *)    [false; false; true; false; false; true; true]].

Definition strictTab : list (list bool) :=
  [ (* bool *)    [true; true; true; true; true; true; false];
   (* byte *)    [false; true; true; true; true; true; false];
   (* int *)     [false; false; true; true; true; true; false];
   (* real *)    [false; false; false; true; false; true; false];
   (* decimal *) [false; false; false; false; true; true; false];
   (* string *)  [false; false; false; false; false; true; false];
   (* enum *)    [false; false; true; false; false; true; true]].

Definition tab_lookup (tab : list (list bool)) (i j : nat) : bool :=
  nth j (nth i tab []) false.

Definition convertibleTo (from to : BuiltinType) (strict : bool) : bool :=
  if decide (from = to) then true
  else if decide (from = BT.Nil) then isNilAcceptableTargetBuiltinType to
  else match conv_idx from, conv_idx to with
       | Some fi, Some ti => if strict then tab_lookup strictTab fi ti
                             else tab_lookup nonStrictTab fi ti
       | _, ti =>
           if decide (to = BT.Range) then negb strict
           else if decide (to = BT.List /\ from = BT.Range) then negb strict
           else if decide (to = BT.Dict /\ from = BT.Object) then negb strict
           else if decide ((from = BT.Object \/ from = BT.Actor) /\ is_Some ti) then true
           else false
       end.

Definition isAssignableFrom (target source : BuiltinType) : bool :=
  bool_decide (target = source).

Inductive Access := Public | Private.

(** ** [struct Type] and the structs nested in it *)

Inductive ty : Type := Ty {
  builtin : BuiltinType;
  isConst : bool;
  func : option func_type;
  obj : option obj_type;
  enumer : option enum_type
}
with func_type : Type := FuncType {
  isProc : bool;
  params : list (option param_type);
  returnTypes : list (option ty)
}
with param_type : Type := ParamType {
  p_name : string;
  p_nameHashCode : Z;
  p_type : option (option ty);
  p_hasDefault : bool;
  p_variadic : bool
}
with obj_type : Type := ObjectType {
  o_name : string;
  o_extends : option (option ty);
  o_implements : list (option ty);
  o_properties : list prop_type;
  o_methods : list method_info
}
with prop_type : Type := PropType {
  pr_name : string;
  pr_nameHashCode : Z;
  pr_type : option (option ty);
  pr_hasDefault : bool;
  pr_access : Access;
  pr_hasGetter : bool;
  pr_hasSetter : bool
}
with method_info : Type := MethodInfo {
  m_name : string;
  m_funcType : option func_type;
  m_modifiers : Z;
  m_access : Access
}
with enum_type : Type := EnumType {
  e_name : string;
  e_extends : option (option ty);
  e_values : list (string * Z)
}.

(** [Type(BuiltinType bt)]. *)
Definition ty_of (bt : BuiltinType) : ty := Ty bt false None None None.

Definition hasVariadic (f : func_type) : bool :=
  match last (params f) with
  | Some (Some p) => p_variadic p
  | _ => false
  end.

(** ** [Type::toString] *)

(** Items separated by [", "], the first failing one deciding the outcome. *)
Fixpoint comma_sep (l : list (outcome string string)) : outcome string string :=
  match l with
  | [] => Ret ""
  | [x] => x
  | x :: l' =>
      let! a := x in
      let! b := comma_sep l' in
      Ret (a +:+ ", " +:+ b)
  end.

(** A null type pointer inside the signature is dereferenced: undefined. *)
Fixpoint ty_toString (t : ty) : outcome string string :=
  let deref (p : option ty) := match p with Some t' => ty_toString t' | None => UB end in
  let! b := to_string (builtin t) in
  let tspec := (if isConst t then "const " else "") +:+ b in
  match builtin t with
  | BT.Func =>
      match func t with
      | Some f =>
          let tspec := if isProc f then "proc" else tspec in
          let! ps := comma_sep (map (fun op =>
            match op with
            | Some p =>
                match p_type p with
                | Some pt =>
                    let! s := deref pt in
                    Ret (p_name p +:+ " :" +:+ s +:+ (if p_hasDefault p then "=" else ""))
                | None => Ret (p_name p +:+ (if p_hasDefault p then "=" else ""))
                end
            | None => Ret "."
            end) (params f)) in
          let tspec := tspec +:+ "(" +:+ ps +:+ ")" in
          match returnTypes f with
          | [] => Ret tspec
          | [r] => let! s := deref r in Ret (tspec +:+ "→" +:+ s)
          | rs =>
              let! s := comma_sep (map deref rs) in
              Ret (tspec +:+ "→" +:+ "[" +:+ s +:+ "]")
          end
      | None => Ret (tspec +:+ "(...)")
      end
  | BT.Enum =>
      match enumer t with
      | Some e =>
          let! vs := comma_sep (map (fun kv => Ret (kv.1 +:+ "=" +:+ pretty kv.2)) (e_values e)) in
          Ret (tspec +:+ "(" +:+ vs +:+ ")")
      | None => Ret tspec
      end
  | _ => Ret tspec
  end.

(** ** Results *)

Lemma builtin_index_lt (t : BuiltinType) : builtin_index t < length builtinTypeToString.
Proof. by destruct t; vm_compute; lia. Qed.

Lemma all_builtins_complete (t : BuiltinType) : t ∈ all_builtins.
Proof. apply (bool_decide_unpack _). by destruct t. Qed.

(** Decide a statement over the enumerators by running it on each. *)
Lemma builtin_forall (P : BuiltinType -> Prop) `{forall t, Decision (P t)} :
  forallb (fun t => bool_decide (P t)) all_builtins = true -> forall t, P t.
Proof.
  intros Hall t. rewrite forallb_forall in Hall.
  apply (bool_decide_eq_true_1 (P t)), Hall. apply list_elem_of_In, all_builtins_complete.
Qed.

(** The name table and the enumerators correspond one to one: every
    builtin type prints without throwing, parsing a printed name gives the type
    back, and a name that parses is the printed name of the type found. *)
Theorem builtin_name_roundtrip (t : BuiltinType) (s : string) :
  (exists n, to_string t = Ret n /\ builtinTypeFromName n = Some t) /\
  (builtinTypeFromName s = Some t <-> to_string t = Ret s).
Proof.
  assert (exists n, to_string t = Ret n /\ builtinTypeFromName n = Some t) as Hn.
  { destruct t; vm_compute; eauto. }
  split; [done|]. destruct Hn as (n & Hto & Hfrom). split; [|intros Hs; rewrite Hs in Hto; by injection Hto as ->].
  unfold builtinTypeFromName at 1. intros Hs. clear Hto Hfrom.
  destruct (decide (s ∈ builtinTypeToString)) as [Hin|Hout].
  - repeat (apply elem_of_cons in Hin as [->|Hin]; [by vm_compute in Hs; injection Hs as <-|]).
    by apply not_elem_of_nil in Hin.
  - rewrite lookup_ge_None_2 in Hs; [done|].
    rewrite <- (find_pos_lt s) in Hout. change (length all_builtins) with 22.
    change (length builtinTypeToString) with 22 in Hout. lia.
Qed.

(** C33. The strict conversion relation is a preorder refinement of the
    non-strict one: each type converts to itself, a strict conversion is also
    allowed in non-strict context, two different builtin types are never
    strictly convertible both ways (widening loses no information by a round
    trip), and strict conversions compose unless an enum or nil is converted. *)
Theorem strict_conversion_order (a b c : BuiltinType) :
  convertibleTo a a true = true /\
  (convertibleTo a b true = true -> convertibleTo a b false = true) /\
  (convertibleTo a b true = true -> convertibleTo b a true = true -> a = b) /\
  (a <> BT.Enum -> a <> BT.Nil ->
   convertibleTo a b true = true -> convertibleTo b c true = true -> b <> BT.Enum ->
   convertibleTo a c true = true).
Proof.
  split; [by destruct a|]. split; [by destruct a, b|]. split; [by destruct a, b|].
  intros Ha Hn. revert c. refine (builtin_forall _ _).
  destruct a, b; vm_compute; done || congruence.
Qed.

(** Nothing but nil converts to a value-shaped non-scalar type in strict
    context, and nil converts exactly to the reference-identity types. *)
Lemma nil_conversion (t : BuiltinType) (strict : bool) :
  t <> BT.Nil -> convertibleTo BT.Nil t strict = isNilAcceptableTargetBuiltinType t.
Proof. by destruct t, strict. Qed.
