(* ===== verification/Overload.v ===== *)
(** * Overload: [src/compiler/OverloadResolver.h], [src/compiler/OverloadResolver.cpp]

    Overload resolution: each candidate signature is scored against the
    argument types, the best feasible score wins, ties are ambiguous, and at
    compile time an argument of unknown type defers the decision to run time.
    The resolver ranks arguments by position; [isNamed] and [nameHash] of an
    argument are carried by the code but not read by it. *)

From S2P Require Import Prelude Types.
From Stdlib Require Import Sorted.

(** ** Data *)

(** [enum class ArgRank : uint8_t], the numeric value is the rank. *)
Inductive ArgRank :=
| Exact | Subtype | StrictImplicitConv | Untyped | NonStrictImplicitConv
| UserDefinedImplicitConv | VariadicAbsorb | Incompatible.

#[export] Instance ArgRank_eq_dec : EqDecision ArgRank.
Proof. solve_decision. Defined.

Definition rank_value (r : ArgRank) : Z :=
  match r with
  | Exact => 0
  | Subtype => 1
  | StrictImplicitConv => 2
  | Untyped => 3
  | NonStrictImplicitConv => 4
  | UserDefinedImplicitConv => 5
  | VariadicAbsorb => 6
  | Incompatible => 255
  end.

Record ArgInfo := {
  ai_type : option ty;
  ai_isNamed : bool;
  ai_nameHash : Z
}.

(** The [target] value is only handed back to the caller; a candidate is its
    function type here. *)
Record Candidate := {
  c_funcType : option ty;
  c_isMethod : bool
}.

Record Score := {
  feasible : bool;
  totalRank : Z;            (* uint32_t *)
  defaultsActivated : Z     (* uint16_t *)
}.

Definition infeasible : Score := {| feasible := false; totalRank := 0; defaultsActivated := 0 |}.

Inductive ResolveKind := ResolvedUnique | Ambiguous | NoMatch | NeedsRuntime.

Record ResolveResult := {
  kind : ResolveKind;
  chosenIndex : Z;          (* uint16_t *)
  tiedIndices : list Z      (* uint16_t *)
}.

(** ** Implicit user conversions *)

(** [ast::MethodModifier::Implicit] is bit 0. *)
Definition hasImplicitModifier (modifiers : Z) : bool :=
  negb (Z.land modifiers 1 =? 0)%Z.

(** The single parameter of an [init] considered as a conversion. *)
Definition init_param_matches (f : func_type) (expectedParamObjName : string)
    (expectedParamBuiltin : BuiltinType) : bool :=
  match params f with
  | [Some p] =>
      match p_type p with
      | Some (Some t) =>
          bool_decide (builtin t = expectedParamBuiltin) &&
          (bool_decide (expectedParamObjName = "") ||
           match obj t with
           | Some o => bool_decide (o_name o = expectedParamObjName)
           | None => false
           end)
      | _ => false
      end
  | _ => false
  end.

Fixpoint hasImplicitMethod (o : obj_type) (methodName : string) (checkArity1Init : bool)
    (expectedParamObjName : string) (expectedParamBuiltin : BuiltinType) : bool :=
  existsb (fun mi =>
    bool_decide (m_name mi = methodName) &&
    hasImplicitModifier (m_modifiers mi) &&
    match m_funcType mi with
    | Some f => if checkArity1Init
                then init_param_matches f expectedParamObjName expectedParamBuiltin
                else true
    | None => false
    end) (o_methods o) ||
  match o_extends o with
  | Some (Some p) =>
      match obj p with
      | Some po => hasImplicitMethod po methodName checkArity1Init
                     expectedParamObjName expectedParamBuiltin
      | None => false
      end
  | _ => false
  end.

Definition is_objish (b : BuiltinType) : bool :=
  bool_decide (b = BT.Object \/ b = BT.Actor).

(** [type::to_string] of a builtin inside the resolver: the table covers
    every enumerator ([builtin_index_lt]), so it never throws. *)
Definition builtin_name (b : BuiltinType) : string :=
  match to_string b with Ret s => s | _ => "" end.

Definition userDefinedImplicitConvFeasible (srcType dstType : option ty) : bool :=
  match srcType, dstType with
  | Some src, Some dst =>
      let srcIsObj := is_objish (builtin src) in
      let dstIsObj := is_objish (builtin dst) in
      let srcInfoOk := negb srcIsObj || bool_decide (is_Some (obj src)) in
      let dstInfoOk := negb dstIsObj || bool_decide (is_Some (obj dst)) in
      if negb srcInfoOk || negb dstInfoOk then true
      else
        (srcIsObj &&
         match obj src with
         | Some so =>
             let convNameTarget :=
               if dstIsObj then match obj dst with Some d => o_name d | None => "" end
               else builtin_name (builtin dst) in
             hasImplicitMethod so ("operator->" +:+ convNameTarget) false "" BT.Nil
         | None => false
         end) ||
        (dstIsObj &&
         match obj dst with
         | Some d =>
             let srcObjName :=
               if srcIsObj then match obj src with Some so => o_name so | None => "" end
               else "" in
             hasImplicitMethod d "init" true srcObjName (builtin src)
         | None => false
         end)
  | _, _ => true
  end.

(** ** Subtyping by name along [extends] and [implements] *)

Fixpoint objectTypeChainContains (sub : obj_type) (targetName : string) : bool :=
  let climb (p : option ty) :=
    match p with
    | Some t => match obj t with
                | Some o => objectTypeChainContains o targetName
                | None => false
                end
    | None => false
    end in
  bool_decide (o_name sub = targetName) ||
  match o_extends sub with Some parent => climb parent | None => false end ||
  existsb climb (o_implements sub).

(** ** Ranking *)

Definition classifyArg (param : param_type) (argType : option ty) (strictMode : bool)
    (argIsAbsorbedByVariadic : bool) : ArgRank :=
  if argIsAbsorbedByVariadic then VariadicAbsorb
  else match p_type param with
  | None | Some None => Untyped
  | Some (Some paramType) =>
      match argType with
      | None => Exact
      | Some argT =>
          let pb := builtin paramType in
          let ab := builtin argT in
          match is_objish pb && is_objish ab, obj paramType, obj argT with
          | true, Some paramObj, Some argObj =>
              if decide (o_name argObj = o_name paramObj) then Exact
              else if objectTypeChainContains argObj (o_name paramObj) then Subtype
              else if userDefinedImplicitConvFeasible argType (Some paramType)
                   then UserDefinedImplicitConv
                   else Incompatible
          | _, _, _ =>
              if decide (pb = ab) then Exact
              else if convertibleTo ab pb true then StrictImplicitConv
              else if convertibleTo ab pb false && negb strictMode then NonStrictImplicitConv
              else if is_objish pb && userDefinedImplicitConvFeasible argType (Some paramType)
                   then UserDefinedImplicitConv
                   else Incompatible
          end
      end
  end.

(** The parameter scan: regular count, required count and the position of the
    variadic parameter, at which the loop stops. *)
Fixpoint scan_params (ps : list (option param_type)) (i regular required : nat)
    : nat * nat * option nat :=
  match ps with
  | [] => (regular, required, None)
  | None :: ps' => scan_params ps' (S i) (S regular) (S required)
  | Some p :: ps' =>
      if p_variadic p then (regular, required, Some i)
      else scan_params ps' (S i) (S regular) (if p_hasDefault p then required else S required)
  end.

Definition arg_rank (ps : list (option param_type)) (variadicAt : option nat)
    (strictMode : bool) (i : nat) (a : ArgInfo) : ArgRank :=
  if match variadicAt with Some v => bool_decide (v <= i) | None => false end
  then VariadicAbsorb
  else match ps !! i with
       | Some (Some p) => classifyArg p (ai_type a) strictMode false
       | _ => Incompatible
       end.

(** The per-argument loop: stops infeasible at the first incompatible one. *)
Fixpoint rank_args (ps : list (option param_type)) (variadicAt : option nat)
    (strictMode : bool) (i : nat) (args : list ArgInfo) (total : Z) : bool * Z :=
  match args with
  | [] => (true, total)
  | a :: args' =>
      match arg_rank ps variadicAt strictMode i a with
      | Incompatible => (false, total)
      | r => rank_args ps variadicAt strictMode (S i) args' (wrapU 32 (total + rank_value r))
      end
  end.

Definition count_defaults (ps : list (option param_type)) : Z :=
  foldl (fun n op => match op with
                     | Some p => if p_hasDefault p then wrapU 16 (n + 1) else n
                     | None => n
                     end) 0%Z ps.

Definition scoreOne (cand : Candidate) (args : list ArgInfo) (strictMode : bool) : Score :=
  match c_funcType cand with
  | Some t =>
      match func t with
      | Some fn =>
          let '(regularCount, requiredCount, variadicAt) := scan_params (params fn) 0 0 0 in
          let argCount := length args in
          if match variadicAt with
             | Some _ => bool_decide (argCount < requiredCount)
             | None => bool_decide (argCount < requiredCount \/ regularCount < argCount)
             end
          then infeasible
          else
            let '(ok, total) := rank_args (params fn) variadicAt strictMode 0 args 0 in
            {| feasible := ok;
               totalRank := total;
               defaultsActivated :=
                 if ok && bool_decide (variadicAt = None)
                 then count_defaults (drop argCount (params fn)) else 0 |}
      | None => infeasible
      end
  | None => infeasible
  end.

Definition isBetter (a b : Score) : bool :=
  if negb (Bool.eqb (feasible a) (feasible b)) then feasible a && negb (feasible b)
  else if negb (totalRank a =? totalRank b)%Z then (totalRank a <? totalRank b)%Z
  else if negb (defaultsActivated a =? defaultsActivated b)%Z
       then (defaultsActivated a <? defaultsActivated b)%Z
  else false.

(** ** [resolve] *)

(** One round of the search for the best feasible index. *)
Definition best_step (scores : list Score) (bestIdx : option nat) (i : nat) : option nat :=
  match scores !! i with
  | Some s =>
      if negb (feasible s) then bestIdx
      else match bestIdx with
           | None => Some i
           | Some b => match scores !! b with
                       | Some sb => if isBetter s sb then Some i else bestIdx
                       | None => bestIdx
                       end
           end
  | None => bestIdx
  end.

Definition find_best (scores : list Score) : option nat :=
  foldl (best_step scores) None (seq 0 (length scores)).

Definition is_tied (scores : list Score) (b : nat) (i : nat) : bool :=
  match scores !! i, scores !! b with
  | Some s, Some sb =>
      feasible s && (bool_decide (i = b) || negb (isBetter sb s))
  | _, _ => false
  end.

Definition tied_indices (scores : list Score) (b : nat) : list nat :=
  List.filter (is_tied scores b) (seq 0 (length scores)).

Definition cast16 (i : nat) : Z := wrapU 16 (Z.of_nat i).

Definition resolve (candidates : list Candidate) (args : list ArgInfo)
    (staticDispatchAttempt strictMode : bool) : ResolveResult :=
  match candidates with
  | [] => {| kind := NoMatch; chosenIndex := 0; tiedIndices := [] |}
  | _ =>
      let anyUnknownArg :=
        staticDispatchAttempt && existsb (fun a => bool_decide (ai_type a = None)) args in
      let scores := map (fun c => scoreOne c args strictMode) candidates in
      match find_best scores with
      | None => {| kind := NoMatch; chosenIndex := 0; tiedIndices := [] |}
      | Some b =>
          let tied := tied_indices scores b in
          if bool_decide (1 < length tied) then
            {| kind := if staticDispatchAttempt && anyUnknownArg then NeedsRuntime else Ambiguous;
               chosenIndex := 0;
               tiedIndices := cast16 <$> tied |}
          else if staticDispatchAttempt && anyUnknownArg &&
                  bool_decide (1 < length (List.filter feasible scores))
          then {| kind := NeedsRuntime; chosenIndex := cast16 b; tiedIndices := [] |}
          else {| kind := ResolvedUnique; chosenIndex := cast16 b; tiedIndices := [] |}
      end
  end.

(** ** Override compatibility *)

Definition paramTypeEqualsForOverride (a b : option param_type) : bool :=
  match a, b with
  | None, None => true
  | Some a, Some b =>
      match p_type a, p_type b with
      | None, None => true
      | Some (Some at_), Some (Some bt) =>
          bool_decide (builtin at_ = builtin bt) &&
          (if is_objish (builtin at_) then
             match obj at_, obj bt with
             | None, None => true
             | Some ao, Some bo => bool_decide (o_name ao = o_name bo)
             | _, _ => false
             end
           else true) &&
          Bool.eqb (p_variadic a) (p_variadic b)
      | _, _ => false
      end
  | _, _ => false
  end.

Definition returnTypeCovariant (abs con : list (option ty)) : bool :=
  bool_decide (length abs = length con) &&
  forallb (fun ac => match ac with
                     | (Some a, Some c) => bool_decide (builtin a = builtin c)
                     | _ => false
                     end) (zip abs con).

Definition signatureCompatibleForOverride (abstract concrete : option ty) : bool :=
  match abstract, concrete with
  | Some a, Some c =>
      match func a, func c with
      | Some af, Some cf =>
          bool_decide (length (params af) = length (params cf)) &&
          forallb (fun pq => paramTypeEqualsForOverride pq.1 pq.2)
                  (zip (params af) (params cf)) &&
          returnTypeCovariant (returnTypes af) (returnTypes cf)
      | _, _ => false
      end
  | _, _ => false
  end.

(** ** Lemmas: the score order *)

Lemma isBetter_spec a b :
  isBetter a b = true <->
  (feasible a = true /\ feasible b = false) \/
  (feasible a = feasible b /\
   (totalRank a < totalRank b \/
    totalRank a = totalRank b /\ defaultsActivated a < defaultsActivated b)%Z).
Proof.
  unfold isBetter. destruct (feasible a), (feasible b); simpl;
    try (split; [by auto|by naive_solver]).
  all: destruct (Z.eqb_spec (totalRank a) (totalRank b)) as [->|?]; simpl;
    [destruct (Z.eqb_spec (defaultsActivated a) (defaultsActivated b)) as [->|?]; simpl|];
    rewrite ?Z.ltb_lt; split; intros; try done; destruct_or?; destruct_and?; try done;
    try lia; right; split; try done; lia.
Qed.

Lemma isBetter_false a b :
  isBetter a b = false <-> ~ isBetter a b = true.
Proof. by rewrite not_true_iff_false. Qed.

Lemma isBetter_irrefl a : isBetter a a = false.
Proof. rewrite isBetter_false, isBetter_spec. intros [[? ?]|[? ?]]; [congruence|lia]. Qed.

Lemma isBetter_trans a b c : isBetter a b = true -> isBetter b c = true -> isBetter a c = true.
Proof.
  rewrite !isBetter_spec. intros [[? ?]|[? ?]] [[? ?]|[? ?]]; try (left; split; congruence).
  right. split; [congruence|lia].
Qed.

(** Not being beaten is transitive: the order is a strict weak order. *)
Lemma not_better_trans a b c :
  isBetter b a = false -> isBetter c b = false -> isBetter c a = false.
Proof.
  rewrite !isBetter_false, !isBetter_spec. intros Hba Hcb Hca.
  destruct (feasible a) eqn:?, (feasible b) eqn:?, (feasible c) eqn:?; try intuition congruence.
  all: apply Hca || idtac; intuition (try congruence); lia.
Qed.

(** ** Lemmas: the search for the best index *)

Section search.
Context (scores : list Score).

(** [i] is feasible and no feasible score beats it. *)
Definition minimal (i : nat) : Prop :=
  exists s, scores !! i = Some s /\ feasible s = true /\
  forall j s', scores !! j = Some s' -> feasible s' = true -> isBetter s' s = false.

Definition best_upto (n : nat) (best : option nat) : Prop :=
  match best with
  | None => forall j s, j < n -> scores !! j = Some s -> feasible s = false
  | Some b =>
      b < n /\ exists sb, scores !! b = Some sb /\ feasible sb = true /\
      forall j s, j < n -> scores !! j = Some s -> feasible s = true -> isBetter s sb = false
  end.

Lemma best_step_upto n best :
  best_upto n best -> best_upto (S n) (best_step scores best n).
Proof.
  unfold best_step. destruct (scores !! n) as [s|] eqn:Hn; simpl.
  - destruct (feasible s) eqn:Hf; simpl; destruct best as [b|]; simpl.
    + intros (Hb & sb & Hsb & Hfb & Hmin). rewrite Hsb. destruct (isBetter s sb) eqn:Hbet.
      * split; [lia|]. exists s. split_and!; [done..|]. intros j s' Hj Hs' Hf'.
        destruct (decide (j = n)) as [->|]; [simplify_eq; by rewrite ?isBetter_irrefl|].
        apply not_better_trans with sb; [|by apply (Hmin j); [lia|..]].
        destruct (isBetter sb s) eqn:E; [|done].
        pose proof (isBetter_trans s sb s Hbet E) as Hss. by rewrite isBetter_irrefl in Hss.
      * split; [lia|]. exists sb. split_and!; [done..|]. intros j s' Hj Hs' Hf'.
        destruct (decide (j = n)) as [->|]; [congruence|]. apply (Hmin j); [lia|done..].
    + intros Hnone. split; [lia|]. exists s. split_and!; [done..|]. intros j s' Hj Hs' Hf'.
      destruct (decide (j = n)) as [->|]; [simplify_eq; by rewrite ?isBetter_irrefl|].
      rewrite (Hnone j s') in Hf'; [done|lia|done].
    + intros (Hb & sb & Hsb & Hfb & Hmin). split; [lia|]. exists sb. split_and!; [done..|].
      intros j s' Hj Hs' Hf'. destruct (decide (j = n)) as [->|]; [congruence|].
      apply (Hmin j); [lia|done..].
    + intros Hnone j s' Hj Hs'. destruct (decide (j = n)) as [->|]; [congruence|].
      apply (Hnone j); [lia|done].
  - apply lookup_ge_None in Hn. destruct best as [b|]; simpl.
    + intros (Hb & sb & Hsb & Hfb & Hmin). split; [lia|]. exists sb. split_and!; [done..|].
      intros j s' Hj Hs' Hf'. apply lookup_lt_Some in Hs' as Hlt. apply (Hmin j); [lia|done..].
    + intros Hnone j s' Hj Hs'. apply lookup_lt_Some in Hs' as Hlt. apply (Hnone j); [lia|done].
Qed.

Lemma find_best_upto n : best_upto n (foldl (best_step scores) None (seq 0 n)).
Proof.
  induction n as [|n IH]; [simpl; intros; lia|].
  rewrite seq_S, foldl_app. simpl. by apply best_step_upto.
Qed.

Lemma find_best_None :
  find_best scores = None -> forall i s, scores !! i = Some s -> feasible s = false.
Proof.
  intros Hb i s Hs. pose proof (find_best_upto (length scores)) as H.
  fold (find_best scores) in H. rewrite Hb in H. apply (H i); [by eapply lookup_lt_Some|done].
Qed.

Lemma find_best_Some b : find_best scores = Some b -> minimal b.
Proof.
  intros Hb. pose proof (find_best_upto (length scores)) as H.
  fold (find_best scores) in H. rewrite Hb in H. destruct H as (_ & sb & Hsb & Hf & Hmin).
  exists sb. split_and!; [done..|]. intros j s' Hs'.
  apply (Hmin j); [by eapply lookup_lt_Some|done].
Qed.

Lemma tied_minimal b i : minimal b -> (i ∈ tied_indices scores b <-> minimal i).
Proof.
  intros (sb & Hsb & Hfb & Hmin). unfold tied_indices.
  rewrite list_elem_of_In, filter_In, in_seq. unfold is_tied. rewrite Hsb.
  split.
  - intros [_ Ht]. destruct (scores !! i) as [s|] eqn:Hs; [|done].
    apply andb_prop in Ht as [Hf Ht]. exists s. split_and!; [done..|]. intros j s' Hs' Hf'.
    apply orb_prop in Ht as [->%bool_decide_eq_true|Ht%negb_true_iff]; [simplify_eq; eauto|].
    eapply not_better_trans; [done|]. by eapply Hmin.
  - intros (s & Hs & Hf & Hmin'). rewrite Hs. split; [apply lookup_lt_Some in Hs; lia|].
    rewrite Hf. simpl. rewrite (Hmin' b sb) by done. apply orb_true_r.
Qed.

Lemma tied_sorted b : StronglySorted lt (tied_indices scores b).
Proof.
  unfold tied_indices. generalize (length scores) at 1. generalize 0.
  intros k n. revert k. induction n as [|n IH]; intros k; simpl; [constructor|].
  destruct (is_tied scores b k); [|apply IH]. constructor; [apply IH|].
  apply List.Forall_forall. intros j [Hj _]%filter_In. apply in_seq in Hj. lia.
Qed.

Lemma tied_best b : minimal b -> b ∈ tied_indices scores b.
Proof. intros Hb. by apply tied_minimal. Qed.
End search.

(** A sorted list of at most one element that holds [b] is [[b]]. *)
Lemma le1_singleton {A} (l : list A) (b : A) : b ∈ l -> ~ 1 < length l -> l = [b].
Proof.
  destruct l as [|x [|y l]]; simpl; [set_solver| |lia].
  by intros ->%list_elem_of_singleton _.
Qed.

Lemma cast16_id i : (Z.of_nat i < 65536)%Z -> cast16 i = Z.of_nat i.
Proof. intros Hi. apply wrapU_id. unfold inU. change (2 ^ 16)%Z with 65536%Z. lia. Qed.

(** ** Lemmas: completing unknown argument types *)

(** [args'] refines [args]: a known type is kept, an unknown one may become
    any type (or stay unknown). *)
Definition completes (args args' : list ArgInfo) : Prop :=
  Forall2 (fun a a' => ai_type a = None \/ ai_type a' = ai_type a) args args'.

Lemma classifyArg_unknown p strict abs t :
  classifyArg p None strict abs = Incompatible -> classifyArg p t strict abs = Incompatible.
Proof. unfold classifyArg. destruct abs; [done|]. by destruct (p_type p) as [[?|]|]. Qed.

Lemma arg_rank_antitone ps v strict i a a' :
  ai_type a = None \/ ai_type a' = ai_type a ->
  arg_rank ps v strict i a = Incompatible -> arg_rank ps v strict i a' = Incompatible.
Proof.
  intros Hc. unfold arg_rank. case_match; [done|].
  destruct (ps !! i) as [[p|]|]; [|done..].
  destruct Hc as [->| ->]; [apply classifyArg_unknown|done].
Qed.

Lemma rank_args_antitone ps v strict i args args' total total' :
  completes args args' ->
  (rank_args ps v strict i args' total').1 = true ->
  (rank_args ps v strict i args total).1 = true.
Proof.
  intros Hc. revert i total total'.
  induction Hc as [|a a' args args' Ha Hc IH]; intros i total total'; simpl; [done|].
  pose proof (arg_rank_antitone ps v strict i a a' Ha) as Hanti.
  destruct (arg_rank ps v strict i a); [..|by rewrite Hanti];
    destruct (arg_rank ps v strict i a'); done || apply IH.
Qed.

Lemma scoreOne_feasible_antitone c args args' strict :
  completes args args' ->
  feasible (scoreOne c args' strict) = true -> feasible (scoreOne c args strict) = true.
Proof.
  intros Hc. unfold scoreOne. destruct (c_funcType c) as [t|]; [|done].
  destruct (func t) as [fn|]; [|done].
  rewrite <- (Forall2_length _ _ _ Hc).
  destruct (scan_params (params fn) 0 0 0) as [[reg req] v]. case_match; [done|].
  pose proof (rank_args_antitone (params fn) v strict 0 args args' 0 0 Hc) as Hr.
  destruct (rank_args _ _ _ _ args' _), (rank_args _ _ _ _ args _). done.
Qed.

Lemma completes_known args args' :
  existsb (fun a => bool_decide (ai_type a = None)) args = false ->
  completes args args' -> ai_type <$> args' = ai_type <$> args.
Proof.
  intros Hk Hc. induction Hc as [|a a' args args' Ha Hc IH]; [done|].
  simpl in Hk. apply orb_false_iff in Hk as [Ha'%bool_decide_eq_false Hk].
  rewrite !fmap_cons. f_equal; [|by apply IH]. destruct Ha; [done|congruence].
Qed.

Lemma rank_args_types ps v strict i args args' total :
  ai_type <$> args' = ai_type <$> args ->
  rank_args ps v strict i args' total = rank_args ps v strict i args total.
Proof.
  revert i args' total. induction args as [|a args IH]; intros i [|a' args'] total; try done.
  rewrite !fmap_cons. intros [=Ha Hargs]. simpl. unfold arg_rank. rewrite Ha.
  fold (arg_rank ps v strict i a). destruct (arg_rank ps v strict i a); done || by apply IH.
Qed.

(** A score depends on the types of the arguments only. *)
Lemma scoreOne_types c args args' strict :
  ai_type <$> args' = ai_type <$> args -> scoreOne c args' strict = scoreOne c args strict.
Proof.
  intros Ht. assert (length args' = length args) as Hlen
    by (by rewrite <- (length_fmap ai_type args'), Ht, length_fmap).
  unfold scoreOne. rewrite Hlen. destruct (c_funcType c) as [t|]; [|done].
  destruct (func t) as [fn|]; [|done].
  destruct (scan_params (params fn) 0 0 0) as [[reg req] v]. case_match; [done|].
  by rewrite (rank_args_types _ _ _ _ args args').
Qed.

(** With at most one feasible score, a minimal index is the only feasible one. *)
Lemma filter_feasible_unique scores b sb :
  scores !! b = Some sb -> feasible sb = true -> ~ 1 < length (List.filter feasible scores) ->
  forall j s, scores !! j = Some s -> feasible s = true -> j = b.
Proof.
  intros Hsb Hfb. revert b Hsb.
  induction scores as [|s0 scores IH]; intros b Hsb Hlen j s Hs Hf; [done|].
  assert (forall i s', scores !! i = Some s' -> feasible s' = true ->
    0 < length (List.filter feasible scores)) as Hpos.
  { intros i s' Hi Hf'. destruct (List.filter feasible scores) eqn:E; simpl; [|lia].
    assert (In s' (List.filter feasible scores)) as Hin
      by (apply filter_In; split; [by apply list_elem_of_In, list_elem_of_lookup_2 with i|done]).
    by rewrite E in Hin. }
  simpl in Hlen. destruct b as [|b], j as [|j]; simpl in *; simplify_eq; try done.
  - rewrite Hfb in Hlen. simpl in Hlen. specialize (Hpos j s Hs Hf). lia.
  - rewrite Hf in Hlen. simpl in Hlen. specialize (Hpos b sb Hsb Hfb). lia.
  - f_equal. eapply IH; [done| |done..]. destruct (feasible s0); simpl in Hlen; lia.
Qed.

Definition scores_of (cands : list Candidate) (args : list ArgInfo) (strict : bool) : list Score :=
  map (fun c => scoreOne c args strict) cands.

Lemma scores_lookup cands args strict i :
  scores_of cands args strict !! i = (fun c => scoreOne c args strict) <$> cands !! i.
Proof. apply list_lookup_fmap. Qed.

(** The empty candidate set needs no case of its own. *)
Lemma resolve_eq cands args static strict :
  resolve cands args static strict =
  let anyUnknownArg := static && existsb (fun a => bool_decide (ai_type a = None)) args in
  let scores := scores_of cands args strict in
  match find_best scores with
  | None => {| kind := NoMatch; chosenIndex := 0; tiedIndices := [] |}
  | Some b =>
      let tied := tied_indices scores b in
      if bool_decide (1 < length tied) then
        {| kind := if static && anyUnknownArg then NeedsRuntime else Ambiguous;
           chosenIndex := 0; tiedIndices := cast16 <$> tied |}
      else if static && anyUnknownArg && bool_decide (1 < length (List.filter feasible scores))
      then {| kind := NeedsRuntime; chosenIndex := cast16 b; tiedIndices := [] |}
      else {| kind := ResolvedUnique; chosenIndex := cast16 b; tiedIndices := [] |}
  end.
Proof. by destruct cands. Qed.

(** The unique feasible minimum makes the resolver choose it. *)
Lemma resolve_unique cands args strict b :
  minimal (scores_of cands args strict) b ->
  (forall j, minimal (scores_of cands args strict) j -> j = b) ->
  resolve cands args false strict =
  {| kind := ResolvedUnique; chosenIndex := cast16 b; tiedIndices := [] |}.
Proof.
  intros Hb Huniq. rewrite resolve_eq. set (scores := scores_of _ _ _) in *. simpl.
  destruct (find_best scores) as [b'|] eqn:Hfb.
  - apply find_best_Some in Hfb as Hmin. assert (b' = b) as -> by auto.
    assert (tied_indices scores b = [b]) as ->; [|done].
    assert (forall i, i ∈ tied_indices scores b -> i = b) as Hall
      by (intros i Hi; by apply Huniq, (tied_minimal scores b)).
    pose proof (tied_best scores b Hb) as Hin. pose proof (tied_sorted scores b) as Hsort.
    destruct (tied_indices scores b) as [|x [|y l]] eqn:Et; [set_solver| |exfalso].
    + f_equal. apply Hall. set_solver.
    + inversion_clear Hsort as [|? ? _ Hlt]. inversion_clear Hlt as [|? ? Hxy _].
      assert (x = b) by (apply Hall; set_solver). assert (y = b) by (apply Hall; set_solver). lia.
  - destruct Hb as (s & Hs & Hf & _).
    by rewrite (find_best_None scores Hfb b s Hs) in Hf.
Qed.

(** ** Lemmas: the parent relation of object types *)

(** [p] is a direct parent of [o]: its supertype or one of its interfaces. *)
Inductive parent_of (p o : obj_type) : Prop :=
| parent_extends t : o_extends o = Some (Some t) -> obj t = Some p -> parent_of p o
| parent_implements t : Some t ∈ o_implements o -> obj t = Some p -> parent_of p o.

Definition elt_acc (ot : option ty) : Prop :=
  match ot with
  | Some (Ty _ _ _ (Some p) _) => Acc parent_of p
  | _ => True
  end.

Fixpoint parent_acc (o : obj_type) : Acc parent_of o.
Proof.
  destruct o as [n ext impl props ms].
  assert (match ext with Some ot => elt_acc ot | None => True end) as Hext
    by (destruct ext as [[[? ? ? [p|] ?]|]|]; simpl; done || apply parent_acc).
  assert (Forall elt_acc impl) as Himpl.
  { refine ((fix go (l : list (option ty)) : Forall elt_acc l :=
      match l with
      | [] => Forall_nil_2 _
      | ot :: l' => Forall_cons_2 _ ot l' _ (go l')
      end) impl).
    destruct ot as [[? ? ? [p|] ?]|]; simpl; done || apply parent_acc. }
  constructor. intros p [t He Ho|t Hi Ho]; simpl in *.
  - subst ext. destruct t; simpl in *. by subst.
  - rewrite Forall_forall in Himpl. specialize (Himpl _ Hi). destruct t; simpl in *. by subst.
Qed.

Lemma chain_unfold o n :
  objectTypeChainContains o n = true <->
  o_name o = n \/ exists p, parent_of p o /\ objectTypeChainContains p n = true.
Proof.
  destruct o as [m ext impl props ms]. simpl. rewrite !orb_true_iff, bool_decide_eq_true, existsb_exists.
  split.
  - intros [[Hn|He]|(ot & Hin & Ho)]; [by left|right..].
    + destruct ext as [[[? ? ? [p|] ?]|]|]; try done. exists p. split; [|done].
      by eapply parent_extends.
    + destruct ot as [[b c f [p|] e]|]; try done. exists p. split; [|done].
      by eapply (parent_implements _ _ (Ty b c f (Some p) e)), eq_refl; apply list_elem_of_In.
  - intros [Hn|(p & [t He Ht|t Hi Ht] & Hp)]; simpl in *; [by left; left|left; right|right].
    + subst ext. by rewrite Ht.
    + exists (Some t). split; [by apply list_elem_of_In|by rewrite Ht].
Qed.

(** ** Results *)

(** C31. At run time (every argument type known or not, no static attempt) the
    resolver's answer is exactly the set of feasible candidates no feasible
    candidate beats: [NoMatch] when none is feasible, [ResolvedUnique] with the
    index of the only minimal one, which then strictly beats every other
    feasible candidate, [Ambiguous] with the increasing list of all minimal
    ones when there are several; it never asks for run-time resolution. *)
Theorem resolve_runtime_spec (cands : list Candidate) (args : list ArgInfo) (strict : bool)
    (Hlen : (Z.of_nat (length cands) <= 65536)%Z) :
  let r := resolve cands args false strict in
  let feas i c := cands !! i = Some c /\ feasible (scoreOne c args strict) = true in
  let min i := exists c, feas i c /\
    forall j c', feas j c' -> isBetter (scoreOne c' args strict) (scoreOne c args strict) = false in
  match kind r with
  | NoMatch => forall i c, ~ feas i c
  | ResolvedUnique => exists i c, chosenIndex r = Z.of_nat i /\ feas i c /\
      forall j c', feas j c' -> j <> i ->
        isBetter (scoreOne c args strict) (scoreOne c' args strict) = true
  | Ambiguous => exists l, tiedIndices r = Z.of_nat <$> l /\ StronglySorted lt l /\
      1 < length l /\ forall i, i ∈ l <-> min i
  | NeedsRuntime => False
  end.
Proof.
  intros r feas min. set (scores := scores_of cands args strict).
  assert (forall i s, scores !! i = Some s <-> exists c, cands !! i = Some c /\ s = scoreOne c args strict)
    as Hsc.
  { intros i s. unfold scores. rewrite scores_lookup, fmap_Some. naive_solver. }
  assert (forall i, minimal scores i <-> min i) as Hmin.
  { intros i. unfold minimal, min, feas. setoid_rewrite Hsc. naive_solver. }
  unfold r. rewrite resolve_eq. fold scores. simpl.
  destruct (find_best scores) as [b|] eqn:Hb; simpl.
  2: { intros i c [Hi Hf]. pose proof (find_best_None scores Hb i) as Hn.
       rewrite (Hn _ (proj2 (Hsc i _) (ex_intro _ c (conj Hi eq_refl)))) in Hf. done. }
  apply find_best_Some in Hb as Hbm.
  pose proof (fun i => tied_minimal scores b i Hbm) as Ht.
  assert (forall i, i ∈ tied_indices scores b -> cast16 i = Z.of_nat i) as Hcast.
  { intros i Hi%Ht. apply cast16_id. destruct Hbm as (_ & _ & _). destruct Hi as (s & Hs & _).
    apply lookup_lt_Some in Hs. unfold scores, scores_of in Hs. rewrite length_map in Hs. lia. }
  case_bool_decide as Hlt; simpl.
  - exists (tied_indices scores b). split; [|split; [apply tied_sorted|split; [done|]]].
    + apply list_fmap_ext. intros k x Hx. apply Hcast. by eapply list_elem_of_lookup_2.
    + intros i. by rewrite Ht, Hmin.
  - pose proof (le1_singleton _ _ (tied_best scores b Hbm) Hlt) as Hsing.
    apply Hmin in Hbm as (c & Hc & Hall). exists b, c.
    split; [apply Hcast; rewrite Hsing; set_solver|]. split; [done|].
    intros j c' Hj Hne. apply not_false_iff_true. intros Hbet. apply Hne.
    assert (j ∈ tied_indices scores b) as Hin; [|rewrite Hsing in Hin; set_solver].
    apply Ht, Hmin. exists c'. split; [done|]. intros k ck Hk.
    eapply not_better_trans; [exact Hbet|]. by eapply Hall.
Qed.

(** C4. Static dispatch is sound: when the compiler resolves a call while some
    argument types are unknown, then whatever those types turn out to be at run
    time, run-time resolution picks the same candidate or finds no match. *)
Theorem static_dispatch_sound (cands : list Candidate) (args args' : list ArgInfo) (strict : bool)
    (Hc : completes args args')
    (Hu : kind (resolve cands args true strict) = ResolvedUnique) :
  kind (resolve cands args' false strict) = NoMatch \/
  resolve cands args' false strict = resolve cands args true strict.
Proof.
  destruct (existsb (fun a => bool_decide (ai_type a = None)) args) eqn:Hunk.
  - (* an unknown type: exactly one candidate was feasible *)
    rewrite (resolve_eq _ args), Hunk in Hu |- *. simpl in *.
    set (scores := scores_of cands args strict) in *.
    set (scores' := scores_of cands args' strict).
    destruct (find_best scores) as [b|] eqn:Hb; [|done].
    case_bool_decide as Ht; [done|]. case_bool_decide as Hf; [done|].
    apply find_best_Some in Hb as (sb & Hsb & Hfb & _).
    assert (forall j s, scores' !! j = Some s -> feasible s = true -> j = b) as Honly.
    { intros j s Hs Hfs. unfold scores' in Hs. rewrite scores_lookup in Hs.
      apply fmap_Some in Hs as (c & Hcj & ->).
      eapply (filter_feasible_unique scores); [done..| |].
      - unfold scores. rewrite scores_lookup, Hcj. done.
      - by eapply scoreOne_feasible_antitone. }
    destruct (find_best scores') as [b'|] eqn:Hb'; [right|left; rewrite resolve_eq; simpl; fold scores'; by rewrite Hb'].
    apply find_best_Some in Hb' as Hm'.
    assert (b' = b) as -> by (destruct Hm' as (s & Hs & Hfs & _); eauto).
    apply resolve_unique; [done|]. intros j (s & Hs & Hfs & _). eauto.
  - right. pose proof (completes_known args args' Hunk Hc) as Ht.
    rewrite !resolve_eq, Hunk, andb_false_r. unfold scores_of.
    rewrite (map_ext _ (fun c => scoreOne c args strict)) by (intros; by apply scoreOne_types).
    done.
Qed.

(** The subtype test climbs exactly the [extends]/[implements] ancestry: a
    type passes for a name iff a reflexive-transitive ancestor bears it. *)
Theorem chain_contains_ancestors (o : obj_type) (n : string) :
  objectTypeChainContains o n = true <-> exists p, rtc (flip parent_of) o p /\ o_name p = n.
Proof.
  induction (parent_acc o) as [o _ IH]. rewrite chain_unfold. split.
  - intros [Hn|(p & Hp & Hc)]; [by exists o|].
    apply (IH p Hp) in Hc as (q & Hq & Hn). exists q. split; [|done]. by eapply rtc_l.
  - intros (q & Hq & Hn). destruct Hq as [o|o p q Hp Hq]; [by left|].
    right. exists p. split; [done|]. apply (IH p Hp). by exists q.
Qed.

(** ** Override compatibility is a partial equivalence *)

Lemma paramTypeEquals_sym a b :
  paramTypeEqualsForOverride a b = true -> paramTypeEqualsForOverride b a = true.
Proof.
  destruct a as [a|], b as [b|]; simpl; try done.
  destruct (p_type a) as [[ta|]|], (p_type b) as [[tb|]|]; try done.
  rewrite !andb_true_iff, !bool_decide_eq_true. intros [[-> Ho] Hv].
  split_and!; [done| |by destruct (p_variadic a), (p_variadic b)].
  destruct (is_objish _); [|done]. destruct (obj ta), (obj tb); try done.
  rewrite bool_decide_eq_true in *. done.
Qed.

Lemma paramTypeEquals_trans a b c :
  paramTypeEqualsForOverride a b = true -> paramTypeEqualsForOverride b c = true ->
  paramTypeEqualsForOverride a c = true.
Proof.
  destruct a as [a|], b as [b|], c as [c|]; simpl; try done.
  destruct (p_type a) as [[ta|]|], (p_type b) as [[tb|]|], (p_type c) as [[tc|]|]; try done.
  rewrite !andb_true_iff, !bool_decide_eq_true. intros [[E Ho] Hv] [[E' Ho'] Hv'].
  rewrite E in Ho |- *. rewrite E' in Ho, Ho' |- *.
  split_and!; [done| |by destruct (p_variadic a), (p_variadic b), (p_variadic c)].
  destruct (is_objish _); [|done]. destruct (obj ta), (obj tb), (obj tc); try done.
  rewrite bool_decide_eq_true in *. congruence.
Qed.

Section zip_rel.
Context {A : Type} (f : A -> A -> bool).

(** Pointwise relatedness of two lists of equal length, as the loops test it. *)
Definition all2 (l k : list A) : bool :=
  bool_decide (length l = length k) && forallb (fun pq => f pq.1 pq.2) (zip l k).

Lemma all2_spec l k : all2 l k = true <-> Forall2 (fun x y => f x y = true) l k.
Proof.
  unfold all2. rewrite andb_true_iff, bool_decide_eq_true. split.
  - intros [Hlen Hall]. revert k Hlen Hall.
    induction l as [|x l IH]; intros [|y k] Hlen Hall; simpl in *; try done.
    apply andb_prop in Hall as [? ?]. constructor; [done|]. apply IH; [lia|done].
  - induction 1 as [|x y l k Hxy _ [Hlen Hall]]; simpl; [done|].
    split; [lia|]. by rewrite Hxy, Hall.
Qed.

Lemma all2_sym l k : (forall x y, f x y = true -> f y x = true) -> all2 l k = true -> all2 k l = true.
Proof. intros Hsym. rewrite !all2_spec. intros H. apply Forall2_flip. eapply Forall2_impl; [exact H|]. unfold flip. auto. Qed.

Lemma all2_trans l k m :
  (forall x y z, f x y = true -> f y z = true -> f x z = true) ->
  all2 l k = true -> all2 k m = true -> all2 l m = true.
Proof.
  intros Htr. rewrite !all2_spec. intros H1. revert m.
  induction H1 as [|x y l' k' Hxy _ IH]; intros m Hm; inversion Hm; subst; constructor; eauto.
Qed.
End zip_rel.

Definition ret_eq (a c : option ty) : bool :=
  match a, c with Some a, Some c => bool_decide (builtin a = builtin c) | _, _ => false end.

Lemma returnTypeCovariant_all2 abs con : returnTypeCovariant abs con = all2 ret_eq abs con.
Proof.
  unfold returnTypeCovariant, all2. f_equal.
  induction (zip abs con) as [|[x y] l IH]; simpl; [done|]. by rewrite IH; destruct x, y.
Qed.

Lemma signature_all2 a c :
  signatureCompatibleForOverride (Some a) (Some c) = true <->
  exists af cf, func a = Some af /\ func c = Some cf /\
    all2 paramTypeEqualsForOverride (params af) (params cf) = true /\
    all2 ret_eq (returnTypes af) (returnTypes cf) = true.
Proof.
  unfold signatureCompatibleForOverride. destruct (func a) as [af|], (func c) as [cf|];
    try (split; [done|naive_solver]).
  fold (all2 paramTypeEqualsForOverride (params af) (params cf)).
  rewrite returnTypeCovariant_all2, andb_true_iff. naive_solver.
Qed.

(** Override conformance is a partial equivalence: a method that may
    implement an interface method could also be implemented by it, conformance
    composes, and any conforming signature conforms to itself.  In particular
    the return type is compared in both directions, not covariantly. *)
Theorem override_partial_equivalence (a b c : option ty) :
  (signatureCompatibleForOverride a b = true -> signatureCompatibleForOverride b a = true) /\
  (signatureCompatibleForOverride a b = true -> signatureCompatibleForOverride b c = true ->
   signatureCompatibleForOverride a c = true) /\
  (signatureCompatibleForOverride a b = true -> signatureCompatibleForOverride a a = true).
Proof.
  assert (forall x y, ret_eq x y = true -> ret_eq y x = true) as Rsym.
  { intros [x|] [y|]; simpl; try done. by rewrite !bool_decide_eq_true. }
  assert (forall x y z, ret_eq x y = true -> ret_eq y z = true -> ret_eq x z = true) as Rtr.
  { intros [x|] [y|] [z|]; simpl; try done. rewrite !bool_decide_eq_true. congruence. }
  assert (forall a b, signatureCompatibleForOverride a b = true ->
    signatureCompatibleForOverride b a = true) as Sym.
  { intros [x|] [y|]; try done. rewrite !signature_all2.
    intros (af & cf & Ha & Hc & Hp & Hr). exists cf, af.
    split_and!; eauto using all2_sym, paramTypeEquals_sym. }
  assert (forall a b c, signatureCompatibleForOverride a b = true ->
    signatureCompatibleForOverride b c = true -> signatureCompatibleForOverride a c = true) as Tr.
  { intros [x|] [y|] [z|]; try done. rewrite !signature_all2.
    intros (af & cf & Ha & Hc & Hp & Hr) (bf & df & Hb & Hd & Hp' & Hr'). simplify_eq.
    exists af, df. split_and!; eauto using all2_trans, paramTypeEquals_trans. }
  split_and!; [apply Sym|apply Tr|]. intros Hab. exact (Tr _ _ _ Hab (Sym _ _ Hab)).
Qed.

(** ** Witnesses *)

(** [f(x :b1, ..., y :bn)]. *)
Definition ex_param (b : BuiltinType) : option param_type :=
  Some (ParamType "x" 0 (Some (Some (ty_of b))) false false).

Definition ex_func (bs : list BuiltinType) : Candidate :=
  {| c_funcType := Some (Ty BT.Func false (Some (FuncType false (map ex_param bs) [])) None None);
     c_isMethod := false |}.

Definition ex_arg (b : option BuiltinType) : ArgInfo :=
  {| ai_type := ty_of <$> b; ai_isNamed := false; ai_nameHash := 0 |}.

(** An int argument picks the int overload over the string one. *)
Lemma resolve_runtime_spec_witness :
  kind (resolve [ex_func [BT.Int]; ex_func [BT.String]] [ex_arg (Some BT.Int)] false true)
    = ResolvedUnique /\
  exists i c, chosenIndex (resolve [ex_func [BT.Int]; ex_func [BT.String]]
                             [ex_arg (Some BT.Int)] false true) = Z.of_nat i /\
    (([ex_func [BT.Int]; ex_func [BT.String]] !! i = Some c /\
      feasible (scoreOne c [ex_arg (Some BT.Int)] true) = true) /\
     forall j c', ([ex_func [BT.Int]; ex_func [BT.String]] !! j = Some c' /\
       feasible (scoreOne c' [ex_arg (Some BT.Int)] true) = true) -> j <> i ->
       isBetter (scoreOne c [ex_arg (Some BT.Int)] true)
                (scoreOne c' [ex_arg (Some BT.Int)] true) = true).
Proof.
  split; [reflexivity|].
  exact (resolve_runtime_spec [ex_func [BT.Int]; ex_func [BT.String]] [ex_arg (Some BT.Int)]
           true ltac:(simpl; lia)).
Defined.

(** The arity alone decides, the argument's type being unknown. *)
Lemma static_dispatch_sound_witness :
  kind (resolve [ex_func [BT.Int]; ex_func [BT.Int; BT.Int]] [ex_arg None] true true)
    = ResolvedUnique /\
  (kind (resolve [ex_func [BT.Int]; ex_func [BT.Int; BT.Int]] [ex_arg (Some BT.Byte)] false true)
     = NoMatch \/
   resolve [ex_func [BT.Int]; ex_func [BT.Int; BT.Int]] [ex_arg (Some BT.Byte)] false true =
   resolve [ex_func [BT.Int]; ex_func [BT.Int; BT.Int]] [ex_arg None] true true).
Proof.
  split; [reflexivity|].
  apply static_dispatch_sound; [|reflexivity].
  constructor; [by left|constructor].
Defined.
