(* ===== verification/Ustring.v ===== *)
(** * Ustring: the UTF-16 string abstraction (core/ustring.h)

    The built-in backend: a string is its sequence of UTF-16 code units.  The
    file models the class's operations that need no Unicode tables (case
    mapping calls a host hook and is left out), the UTF-8 decoder and encoder,
    the escape sequences of string literals, the hash and the two orders.

    The abstract specification is a list of code points: [utf16s] and [utf8s]
    spell it in code units and in bytes.  [decodeUTF8]/[encodeUTF8] convert
    between the two spellings and [compareCodePointOrder] is the lexicographic
    order of the lists. *)

From S2P Require Import Prelude.
From stdpp Require Import numbers.

Module Ustring.

Local Open Scope Z_scope.

(** ** Units, bytes and code points *)

Definition ustring := list Z.

Definition between (a x b : Z) : bool := (a <=? x) && (x <=? b).
Definition high (u : Z) : bool := between 0xd800 u 0xdbff.
Definition low (u : Z) : bool := between 0xdc00 u 0xdfff.

Definition utf16_code_unit_count (cp : Z) : Z := if 0xffff <? cp then 2 else 1.

Definition length (s : ustring) : Z := Z.of_nat (List.length s).
Definition isEmpty (s : ustring) : bool := length s =? 0.

Definition charAt (s : ustring) (index : Z) : Z :=
  if (index <? 0) || (length s <=? index) then 0 else nth (Z.to_nat index) s 0.

Definition char32At (s : ustring) (index : Z) : Z :=
  let first := charAt s index in
  if high first && (index + 1 <? length s) then
    let second := charAt s (index + 1) in
    if low second
    then 0x10000 + Z.shiftl (first - 0xd800) 10 + (second - 0xdc00)
    else first
  else first.

Definition setCharAt (s : ustring) (index unit : Z) : ustring :=
  if (index <? 0) || (length s <=? index) then s
  else <[Z.to_nat index := unit]> s.

Definition clampIndex (s : ustring) (index : Z) : Z :=
  if index <=? 0 then 0 else if length s <=? index then length s else index.

(** [int32_t] addition: signed overflow is undefined. *)
Definition add32 (x y : Z) : outcome string Z :=
  if between (- 2 ^ 31) (x + y) (2 ^ 31 - 1) then Ret (x + y) else UB.

Definition tempSubString (s : ustring) (start count : Z) : outcome string ustring :=
  let begin := clampIndex s start in
  let! limit := add32 start (if count <? 0 then 0 else count) in
  let stop := clampIndex s limit in
  Ret (take (Z.to_nat (stop - begin)) (drop (Z.to_nat begin) s)).

Definition tempSubStringBetween (s : ustring) (start limit : Z) : outcome string ustring :=
  let! count := add32 limit (- start) in
  tempSubString s start count.

(** [std::u16string::operator<]: lexicographic by unit. *)
Fixpoint units_lt (a b : ustring) : bool :=
  match a, b with
  | _, [] => false
  | [], _ :: _ => true
  | x :: a', y :: b' => if x <? y then true else if y <? x then false else units_lt a' b'
  end.

Definition compare (s : ustring) (start count : Z) (other : ustring) : outcome string Z :=
  let! part := tempSubString s start count in
  Ret (if units_lt part other then -1 else if units_lt other part then 1 else 0).

Definition startsWith (s prefix : ustring) : outcome string bool :=
  if length prefix <=? length s
  then let! c := compare s 0 (length prefix) prefix in Ret (c =? 0)
  else Ret false.

(** [std::u16string::find] from a position: the first position at which the
    needle occurs. *)
Fixpoint find_sub (needle s : ustring) (pos : nat) : option nat :=
  if decide (take (List.length needle) s = needle) then Some pos
  else match s with
       | [] => None
       | _ :: s' => find_sub needle s' (S pos)
       end.

Definition npos (r : option nat) : Z := match r with Some p => Z.of_nat p | None => -1 end.

Definition indexOf (s needle : ustring) (start : Z) : Z :=
  let start := if start <? 0 then 0 else start in
  if length s <? start then -1
  else npos (find_sub needle (drop (Z.to_nat start) s) (Z.to_nat start)).

Definition indexOf_unit (s : ustring) (needle : Z) : Z :=
  let p := find_pos needle s in
  if (p <? List.length s)%nat then Z.of_nat p else -1.

Definition lastIndexOf (s : ustring) (needle : Z) : Z :=
  let p := find_pos needle (reverse s) in
  if (p <? List.length s)%nat then length s - 1 - Z.of_nat p else -1.

(** [hash * 37u + unit] in [uint32_t], the result read as [int32_t]. *)
Definition hashCode (s : ustring) : Z :=
  match s with
  | [] => 1
  | _ => wrapS 32 (fold_left (fun hash unit => wrapU 32 (hash * 37 + unit)) s 0)
  end.

(** ** UTF-8 *)

(** The units appended for a code point. *)
Definition push_cp (cp : Z) : list Z :=
  if cp <=? 0xffff then [cp]
  else let cp := cp - 0x10000 in
       [0xd800 + Z.shiftr cp 10; 0xdc00 + Z.land cp 0x3ff].

Definition cont (b : Z) : bool := Z.land b 0xc0 =? 0x80.

(** One turn of the decoder's loop: the code point and the width consumed. *)
Definition decode1 (first : Z) (rest : list Z) : Z * nat :=
  if first <? 0x80 then (first, 1%nat)
  else if between 0xc2 first 0xdf then
    match rest with
    | b1 :: _ =>
        if cont b1
        then (Z.lor (Z.shiftl (Z.land first 0x1f) 6) (Z.land b1 0x3f), 2%nat)
        else (0xfffd, 1%nat)
    | _ => (0xfffd, 1%nat)
    end
  else if between 0xe0 first 0xef then
    match rest with
    | b1 :: b2 :: _ =>
        if cont b1 && cont b2 && negb ((first =? 0xe0) && (b1 <? 0xa0))
           && negb ((first =? 0xed) && (0xa0 <=? b1))
        then (Z.lor (Z.lor (Z.shiftl (Z.land first 0x0f) 12)
                           (Z.shiftl (Z.land b1 0x3f) 6)) (Z.land b2 0x3f), 3%nat)
        else (0xfffd, 1%nat)
    | _ => (0xfffd, 1%nat)
    end
  else if between 0xf0 first 0xf4 then
    match rest with
    | b1 :: b2 :: b3 :: _ =>
        if cont b1 && cont b2 && cont b3 && negb ((first =? 0xf0) && (b1 <? 0x90))
           && negb ((first =? 0xf4) && (0x8f <? b1))
        then (Z.lor (Z.lor (Z.lor (Z.shiftl (Z.land first 0x07) 18)
                                  (Z.shiftl (Z.land b1 0x3f) 12))
                           (Z.shiftl (Z.land b2 0x3f) 6)) (Z.land b3 0x3f), 4%nat)
        else (0xfffd, 1%nat)
    | _ => (0xfffd, 1%nat)
    end
  else (0xfffd, 1%nat).

(** [i += width]: the loop skips the bytes the previous turn consumed. *)
Fixpoint decode_loop (skip : nat) (utf8 : list Z) : ustring :=
  match utf8 with
  | [] => []
  | b :: rest =>
      match skip with
      | S k => decode_loop k rest
      | O => let '(cp, width) := decode1 b rest in
             push_cp cp ++ decode_loop (Nat.pred width) rest
      end
  end.

Definition decodeUTF8 (utf8 : list Z) : ustring := decode_loop 0 utf8.

(** [static_cast<char>] of the low byte. *)
Definition char (x : Z) : Z := wrapU 8 x.

Definition encode1 (cp : Z) : list Z :=
  if cp <=? 0x7f then [char cp]
  else if cp <=? 0x7ff then
    [char (Z.lor 0xc0 (Z.shiftr cp 6)); char (Z.lor 0x80 (Z.land cp 0x3f))]
  else if cp <=? 0xffff then
    [char (Z.lor 0xe0 (Z.shiftr cp 12));
     char (Z.lor 0x80 (Z.land (Z.shiftr cp 6) 0x3f));
     char (Z.lor 0x80 (Z.land cp 0x3f))]
  else
    [char (Z.lor 0xf0 (Z.shiftr cp 18));
     char (Z.lor 0x80 (Z.land (Z.shiftr cp 12) 0x3f));
     char (Z.lor 0x80 (Z.land (Z.shiftr cp 6) 0x3f));
     char (Z.lor 0x80 (Z.land cp 0x3f))].

Fixpoint encodeUTF8 (input : ustring) : list Z :=
  match input with
  | [] => []
  | u :: rest =>
      if high u then
        match rest with
        | v :: rest' =>
            if low v
            then encode1 (0x10000 + Z.shiftl (u - 0xd800) 10 + (v - 0xdc00)) ++ encodeUTF8 rest'
            else encode1 0xfffd ++ encodeUTF8 rest
        | [] => encode1 0xfffd
        end
      else if low u then encode1 0xfffd ++ encodeUTF8 rest
      else encode1 u ++ encodeUTF8 rest
  end.

(** ** Code point order *)

Fixpoint cmp_loop (fuel : nat) (a b : ustring) (i j : Z) : option Z :=
  if (i <? length a) && (j <? length b) then
    match fuel with
    | O => None
    | S fuel =>
        let lhs := char32At a i in
        let rhs := char32At b j in
        if lhs <? rhs then Some (-1)
        else if rhs <? lhs then Some 1
        else cmp_loop fuel a b (i + utf16_code_unit_count lhs) (j + utf16_code_unit_count rhs)
    end
  else Some (if i <? length a then 1 else if j <? length b then -1 else 0).

(** Each turn advances both indices, so the shorter length is fuel enough. *)
Definition compareCodePointOrder (a b : ustring) : option Z :=
  cmp_loop (List.length a) a b 0 0.

(** ** Escape sequences *)

Definition hexDigit (unit : Z) : Z :=
  if between 48 unit 57 then unit - 48
  else if between 97 unit 102 then unit - 97 + 10
  else if between 65 unit 70 then unit - 65 + 10
  else -1.

(** [cp = (cp << 4) | value] in [char32_t]; [None] at a non-digit. *)
Fixpoint hex_value (source : ustring) (first : Z) (digits : nat) (cp : Z) : option Z :=
  match digits with
  | O => Some cp
  | S digits =>
      let value := hexDigit (charAt source first) in
      if value <? 0 then None
      else hex_value source (first + 1) digits (Z.lor (wrapU 32 (Z.shiftl cp 4)) value)
  end.

Definition appendEscapedCodePoint (out source : ustring) (markerIndex digits : Z)
    : option ustring :=
  let first := markerIndex + 1 in
  if length source <? first + digits then None
  else
    match hex_value source first (Z.to_nat digits) 0 with
    | None => None
    | Some cp =>
        if (0x10ffff <? cp) || between 0xd800 cp 0xdfff then None
        else Some (out ++ push_cp cp)
    end.

(** The position of the brace that closes a braced escape, or the length. *)
Fixpoint find_close (fuel : nat) (s : ustring) (i : Z) : Z :=
  if (i <? length s) && negb (charAt s i =? 125) then
    match fuel with O => i | S fuel => find_close fuel s (i + 1) end
  else i.

Definition simple_escape (escape : Z) : option Z :=
  if escape =? 97 then Some 7
  else if escape =? 98 then Some 8
  else if escape =? 101 then Some 0x1b
  else if escape =? 102 then Some 12
  else if escape =? 110 then Some 10
  else if escape =? 114 then Some 13
  else if escape =? 116 then Some 9
  else if escape =? 118 then Some 11
  else if escape =? 92 then Some 92
  else if escape =? 39 then Some 39
  else if escape =? 34 then Some 34
  else None.

(** The escape whose letter is at [i]: the output and the index of its last
    unit; [None] is the malformed escape that empties the result. *)
Definition escape_at (s out : ustring) (i : Z) : option (ustring * Z) :=
  let escape := charAt s i in
  match simple_escape escape with
  | Some u => Some (out ++ [u], i)
  | None =>
      if escape =? 117 then
        option_map (fun o => (o, i + 4)) (appendEscapedCodePoint out s i 4)
      else if escape =? 85 then
        option_map (fun o => (o, i + 8)) (appendEscapedCodePoint out s i 8)
      else if escape =? 120 then
        if (i + 1 <? length s) && (charAt s (i + 1) =? 123) then
          let close := find_close (List.length s) s (i + 2) in
          let digits := close - (i + 2) in
          if (length s <=? close) || (digits <? 1) || (6 <? digits) then None
          else option_map (fun o => (o, close)) (appendEscapedCodePoint out s (i + 1) digits)
        else option_map (fun o => (o, i + 2)) (appendEscapedCodePoint out s i 2)
      else Some (out ++ [escape], i)
  end.

Fixpoint unescape_loop (fuel : nat) (s out : ustring) (i : Z) : option ustring :=
  if i <? length s then
    match fuel with
    | O => None
    | S fuel =>
        let unit := charAt s i in
        if negb (unit =? 92) then unescape_loop fuel s (out ++ [unit]) (i + 1)
        else if length s <=? i + 1 then Some []
        else match escape_at s out (i + 1) with
             | None => Some []
             | Some (out, i) => unescape_loop fuel s out (i + 1)
             end
    end
  else Some out.

Definition unescape (s : ustring) : option ustring := unescape_loop (List.length s) s [] 0.

(** ** Specification: a string is a list of code points *)

Definition scalar (cp : Z) : bool := between 0 cp 0xd7ff || between 0xe000 cp 0x10ffff.

Definition utf16 (cp : Z) : list Z :=
  if cp <? 0x10000 then [cp]
  else [0xd800 + (cp - 0x10000) / 1024; 0xdc00 + (cp - 0x10000) mod 1024].

Definition utf8 (cp : Z) : list Z :=
  if cp <? 0x80 then [cp]
  else if cp <? 0x800 then [0xc0 + cp / 64; 0x80 + cp mod 64]
  else if cp <? 0x10000 then [0xe0 + cp / 4096; 0x80 + cp / 64 mod 64; 0x80 + cp mod 64]
  else [0xf0 + cp / 262144; 0x80 + cp / 4096 mod 64; 0x80 + cp / 64 mod 64; 0x80 + cp mod 64].

Definition utf16s (cps : list Z) : ustring := flat_map utf16 cps.
Definition utf8s (cps : list Z) : list Z := flat_map utf8 cps.

Fixpoint lex (a b : list Z) : Z :=
  match a, b with
  | [], [] => 0
  | [], _ :: _ => -1
  | _ :: _, [] => 1
  | x :: a', y :: b' => if x <? y then -1 else if y <? x then 1 else lex a' b'
  end.

(** Well-formed UTF-16: every surrogate is half of a pair. *)
Fixpoint wf (s : ustring) : bool :=
  match s with
  | [] => true
  | u :: rest =>
      if high u then match rest with v :: rest' => low v && wf rest' | [] => false end
      else negb (low u) && between 0 u 0xffff && wf rest
  end.

(** A unit that is not a surrogate, and the units from an index on. *)
Definition bmp (c : Z) : Prop := high c = false /\ low c = false.
Definition rest (s : ustring) (i : Z) : ustring := drop (Z.to_nat i) s.

(** ** Bit fields *)

Lemma lor_add n a b : 0 <= n -> 0 <= b < 2 ^ n -> Z.lor (a * 2 ^ n) b = a * 2 ^ n + b.
Proof.
  intros Hn Hb. destruct (decide (b = 0)) as [->|Hb0]; [rewrite Z.lor_0_r; lia|].
  assert (Z.land (a * 2 ^ n) b = 0) as H0.
  { apply Z.bits_inj'. intros i Hi. rewrite Z.land_spec, Z.bits_0.
    destruct (decide (i < n)) as [Hlt|Hge].
    - by rewrite Z.mul_pow2_bits_low by lia.
    - rewrite (Z.bits_above_log2 b i); [apply andb_false_r|lia|].
      apply Z.log2_lt_pow2; [lia|].
      apply Z.lt_le_trans with (2 ^ n); [lia|]. apply Z.pow_le_mono_r; lia. }
  rewrite <- Z.lxor_lor by done. symmetry. by apply Z.add_nocarry_lxor.
Qed.

Lemma land_mask n x : 0 <= n -> Z.land x (2 ^ n - 1) = x mod 2 ^ n.
Proof. intros Hn. rewrite <- Z.land_ones by done. f_equal. rewrite Z.ones_equiv. lia. Qed.

Lemma land_3f x : Z.land x 0x3f = x mod 64.
Proof. apply (land_mask 6). lia. Qed.
Lemma land_1f x : Z.land x 0x1f = x mod 32.
Proof. apply (land_mask 5). lia. Qed.
Lemma land_0f x : Z.land x 0x0f = x mod 16.
Proof. apply (land_mask 4). lia. Qed.
Lemma land_07 x : Z.land x 0x07 = x mod 8.
Proof. apply (land_mask 3). lia. Qed.
Lemma land_3ff x : Z.land x 0x3ff = x mod 1024.
Proof. apply (land_mask 10). lia. Qed.

Lemma shr x n : 0 <= n -> Z.shiftr x n = x / 2 ^ n.
Proof. apply Z.shiftr_div_pow2. Qed.
Lemma shl x n : 0 <= n -> Z.shiftl x n = x * 2 ^ n.
Proof. apply Z.shiftl_mul_pow2. Qed.

(** Lead and continuation bytes: [base | field] where the field fits. *)
Lemma lor_c0 x : 0 <= x < 32 -> Z.lor 0xc0 x = 0xc0 + x.
Proof. apply (lor_add 5 6). lia. Qed.
Lemma lor_e0 x : 0 <= x < 16 -> Z.lor 0xe0 x = 0xe0 + x.
Proof. apply (lor_add 4 14). lia. Qed.
Lemma lor_f0 x : 0 <= x < 8 -> Z.lor 0xf0 x = 0xf0 + x.
Proof. apply (lor_add 3 30). lia. Qed.
Lemma lor_80 x : Z.lor 0x80 (x mod 64) = 0x80 + x mod 64.
Proof. apply (lor_add 6 2); [lia|]. apply Z.mod_pos_bound. lia. Qed.

Lemma cont_spec b : 0 <= b < 256 -> cont b = between 0x80 b 0xbf.
Proof.
  intros Hb. assert (forallb (fun b => eqb (cont b) (between 0x80 b 0xbf)) (seqZ 0 256) = true)
    as H by reflexivity.
  rewrite forallb_forall in H. specialize (H b). apply eqb_prop, H.
  apply list_elem_of_In, elem_of_seqZ. lia.
Qed.

Lemma betweenP a x b : between a x b = true <-> a <= x <= b.
Proof. unfold between. rewrite andb_true_iff, !Z.leb_le. done. Qed.
Lemma between_false a x b : between a x b = false <-> x < a \/ b < x.
Proof. unfold between. rewrite andb_false_iff, !Z.leb_gt. done. Qed.
Lemma scalarP cp : scalar cp = true <-> 0 <= cp <= 0xd7ff \/ 0xe000 <= cp <= 0x10ffff.
Proof. unfold scalar. by rewrite orb_true_iff, !betweenP. Qed.

Ltac zcases :=
  repeat match goal with
  | |- context [if ?a <? ?b then _ else _] => destruct (Z.ltb_spec a b); try lia
  | |- context [if ?a <=? ?b then _ else _] => destruct (Z.leb_spec a b); try lia
  end.

(** ** Code points, one at a time *)

Lemma push_cp_utf16 cp : 0 <= cp <= 0x10ffff -> push_cp cp = utf16 cp.
Proof.
  intros H. unfold push_cp, utf16. zcases; [done|]. by rewrite shr, land_3ff by lia.
Qed.

Lemma char_id x : 0 <= x < 256 -> char x = x.
Proof. intros H. by apply wrapU_id. Qed.

Lemma encode1_utf8 cp : 0 <= cp <= 0x10ffff -> encode1 cp = utf8 cp.
Proof.
  intros H. unfold encode1, utf8. rewrite !land_3f, !shr, !lor_80 by lia.
  change (2 ^ 6) with 64. change (2 ^ 12) with 4096. change (2 ^ 18) with 262144.
  zcases; rewrite ?lor_c0, ?lor_e0, ?lor_f0 by (Z.div_mod_to_equations; lia);
    rewrite !char_id by (Z.div_mod_to_equations; lia); done.
Qed.

Ltac dm := Z.div_mod_to_equations; lia.
Ltac conts := rewrite ?cont_spec, ?(proj2 (betweenP 0x80 _ 0xbf)) by dm.

(** The three multi-byte forms: the fields are read back and the guards
    against overlong, surrogate and out-of-range forms pass. *)
Lemma decode1_two cp r :
  0x80 <= cp < 0x800 ->
  decode1 (0xc0 + cp / 64) (0x80 + cp mod 64 :: r) = (cp, 2%nat).
Proof.
  intros H. unfold decode1. rewrite (proj2 (Z.ltb_ge _ _)), (proj2 (betweenP _ _ _)) by dm.
  conts. rewrite land_1f, land_3f, shl by lia. rewrite lor_add by dm.
  f_equal. change (2 ^ 6) with 64. dm.
Qed.

Lemma lor3 a b c : 0 <= b < 64 -> 0 <= c < 64 ->
  Z.lor (Z.lor (a * 2 ^ 12) (b * 2 ^ 6)) c = a * 4096 + b * 64 + c.
Proof.
  intros Hb Hc. rewrite (lor_add 12) by lia.
  replace (a * 2 ^ 12 + b * 2 ^ 6) with ((a * 64 + b) * 2 ^ 6) by lia.
  rewrite lor_add by lia. lia.
Qed.

Lemma lor4 a b c d : 0 <= b < 64 -> 0 <= c < 64 -> 0 <= d < 64 ->
  Z.lor (Z.lor (Z.lor (a * 2 ^ 18) (b * 2 ^ 12)) (c * 2 ^ 6)) d
  = a * 262144 + b * 4096 + c * 64 + d.
Proof.
  intros Hb Hc Hd. rewrite (lor_add 18) by lia.
  replace (a * 2 ^ 18 + b * 2 ^ 12) with ((a * 64 + b) * 2 ^ 12) by lia.
  rewrite lor3 by lia. lia.
Qed.

Lemma guard_false (c d : bool) : (c = true -> d = false) -> c && d = false.
Proof. by destruct c, d; intuition. Qed.

Lemma decode1_three cp r :
  0x800 <= cp < 0x10000 -> scalar cp = true ->
  decode1 (0xe0 + cp / 4096) (0x80 + cp / 64 mod 64 :: 0x80 + cp mod 64 :: r) = (cp, 3%nat).
Proof.
  rewrite scalarP. intros H Hs. unfold decode1. rewrite (proj2 (Z.ltb_ge _ _)) by dm.
  rewrite (proj2 (between_false 0xc2 _ _)), (proj2 (betweenP 0xe0 _ _)) by dm.
  conts. cbn [andb].
  rewrite (guard_false (_ =? 0xe0)) by (rewrite Z.eqb_eq, Z.ltb_ge; dm).
  rewrite (guard_false (_ =? 0xed)) by (rewrite Z.eqb_eq, Z.leb_gt; dm).
  cbn [negb]. rewrite land_0f, !land_3f, !shl by lia.
  rewrite lor3 by dm. f_equal. dm.
Qed.

Lemma decode1_four cp r :
  0x10000 <= cp <= 0x10ffff ->
  decode1 (0xf0 + cp / 262144)
    (0x80 + cp / 4096 mod 64 :: 0x80 + cp / 64 mod 64 :: 0x80 + cp mod 64 :: r) = (cp, 4%nat).
Proof.
  intros H. unfold decode1. rewrite (proj2 (Z.ltb_ge _ _)) by dm.
  rewrite (proj2 (between_false 0xc2 _ _)), (proj2 (between_false 0xe0 _ _)),
    (proj2 (betweenP 0xf0 _ _)) by dm.
  conts. cbn [andb].
  rewrite (guard_false (_ =? 0xf0)) by (rewrite Z.eqb_eq, Z.ltb_ge; dm).
  rewrite (guard_false (_ =? 0xf4)) by (rewrite Z.eqb_eq, Z.ltb_ge; dm).
  cbn [negb]. rewrite land_07, !land_3f, !shl by lia.
  rewrite lor4 by dm. f_equal. dm.
Qed.

(** The decoder reads back one encoded code point, whatever follows it. *)
Lemma decode1_utf8 cp :
  scalar cp = true ->
  exists (b : Z) (rest : list Z), utf8 cp = b :: rest /\ forall r : list Z, decode1 b (rest ++ r) = (cp, S (List.length rest)).
Proof.
  intros Hs. pose proof (proj1 (scalarP cp) Hs) as H. unfold utf8.
  zcases; eexists _, _; (split; [reflexivity|]); intros r; simpl app; simpl List.length.
  - unfold decode1. by rewrite (proj2 (Z.ltb_lt cp 0x80)).
  - apply decode1_two. lia.
  - apply decode1_three; [lia|done].
  - apply decode1_four. lia.
Qed.

Lemma decode_loop_skip l r : decode_loop (List.length l) (l ++ r) = decode_loop 0 r.
Proof. by induction l. Qed.

(** A decoded code point is always a scalar value: overlong forms, encoded
    surrogates and values past U+10FFFF become U+FFFD. *)
Lemma decode1_scalar b rest :
  0 <= b < 256 -> Forall (fun x => 0 <= x < 256) rest -> scalar (fst (decode1 b rest)) = true.
Proof.
  intros Hb Hr. unfold decode1.
  destruct (Z.ltb_spec b 0x80); [apply scalarP; simpl; lia|].
  destruct (between 0xc2 b 0xdf) eqn:E2.
  { apply betweenP in E2. destruct rest as [|b1 rest]; [done|]. apply Forall_cons_1 in Hr as [Hb1 _].
    rewrite cont_spec by lia. destruct (between 0x80 b1 0xbf) eqn:E1; [|done].
    apply betweenP in E1. rewrite land_1f, land_3f, shl, lor_add by dm.
    apply scalarP. cbn [fst]. change (2 ^ 6) with 64. dm. }
  destruct (between 0xe0 b 0xef) eqn:E3.
  { apply betweenP in E3. destruct rest as [|b1 [|b2 rest]]; [done..|].
    apply Forall_cons_1 in Hr as [Hb1 [Hb2 _]%Forall_cons_1].
    rewrite !cont_spec by lia. case_match eqn:E; [|done].
    rewrite !andb_true_iff, !negb_true_iff, !betweenP, !andb_false_iff, !Z.eqb_neq, Z.ltb_ge,
      Z.leb_gt in E.
    rewrite land_0f, !land_3f, !shl, lor3 by dm. apply scalarP. cbn [fst]. dm. }
  destruct (between 0xf0 b 0xf4) eqn:E4; [|done].
  apply betweenP in E4. destruct rest as [|b1 [|b2 [|b3 rest]]]; [done..|].
  apply Forall_cons_1 in Hr as [Hb1 [Hb2 [Hb3 _]%Forall_cons_1]%Forall_cons_1].
  rewrite !cont_spec by lia. case_match eqn:E; [|done].
  rewrite !andb_true_iff, !negb_true_iff, !betweenP, !andb_false_iff, !Z.eqb_neq, Z.ltb_ge,
    Z.ltb_ge in E.
  rewrite land_07, !land_3f, !shl, lor4 by dm. apply scalarP. cbn [fst]. dm.
Qed.

(** ** Whole strings *)



Lemma utf16_cases cp :
  scalar cp = true ->
  (utf16 cp = [cp] /\ high cp = false /\ low cp = false /\ 0 <= cp <= 0xffff)
  \/ exists u v, utf16 cp = [u; v] /\ high u = true /\ low v = true /\
       0x10000 + Z.shiftl (u - 0xd800) 10 + (v - 0xdc00) = cp /\ 0xffff < cp.
Proof.
  intros Hs%scalarP. unfold utf16. zcases.
  - left. unfold high, low. rewrite !between_false. split; [done|lia].
  - right. eexists _, _. split; [reflexivity|]. unfold high, low. rewrite !betweenP, shl by lia.
    split_and!; dm.
Qed.

Lemma encode_utf16 cp r :
  scalar cp = true -> encodeUTF8 (utf16 cp ++ r) = utf8 cp ++ encodeUTF8 r.
Proof.
  intros Hs. assert (0 <= cp <= 0x10ffff) as Hr by (apply scalarP in Hs; lia).
  destruct (utf16_cases cp Hs) as [(-> & Hh & Hl & _)|(u & v & -> & Hh & Hl & E & _)]; simpl.
  - by rewrite Hh, Hl, encode1_utf8.
  - by rewrite Hh, Hl, E, encode1_utf8.
Qed.

Lemma encode_utf16s cps :
  Forall (fun cp => scalar cp = true) cps -> encodeUTF8 (utf16s cps) = utf8s cps.
Proof.
  induction 1 as [|cp cps Hs _ IH]; [done|]. cbn [utf16s utf8s flat_map].
  rewrite encode_utf16 by done. f_equal. apply IH.
Qed.

Lemma decode_utf8s cps :
  Forall (fun cp => scalar cp = true) cps -> decodeUTF8 (utf8s cps) = utf16s cps.
Proof.
  unfold decodeUTF8. induction 1 as [|cp cps Hs _ IH]; [done|]. cbn [utf16s utf8s flat_map].
  destruct (decode1_utf8 cp Hs) as (b & rest & -> & Hd). simpl. rewrite Hd. simpl.
  rewrite decode_loop_skip, push_cp_utf16 by (apply scalarP in Hs; lia). f_equal. apply IH.
Qed.

(** The decoder's output is well-formed whatever the bytes. *)
Lemma decode_loop_wf s : Forall (fun b => 0 <= b < 256) s -> forall skip,
  exists cps, Forall (fun cp => scalar cp = true) cps /\ decode_loop skip s = utf16s cps.
Proof.
  induction 1 as [|b s Hb Hs IH]; intros skip; [by exists []|]. destruct skip as [|k]; simpl; [|done].
  destruct (decode1 b s) as [cp w] eqn:E. destruct (IH (Nat.pred w)) as (cps & Hc & ->).
  assert (scalar cp = true) as Hcp by (rewrite <- (decode1_scalar b s), E by done; done).
  exists (cp :: cps). split; [by constructor|]. cbn [utf16s flat_map].
  by rewrite push_cp_utf16 by (apply scalarP in Hcp; lia).
Qed.

Lemma wf_utf16 cp r : scalar cp = true -> wf (utf16 cp ++ r) = wf r.
Proof.
  intros Hs. destruct (utf16_cases cp Hs) as [(-> & Hh & Hl & H)|(u & v & -> & Hh & Hl & _)]; simpl.
  - rewrite Hh, Hl. by rewrite (proj2 (betweenP _ _ _)).
  - by rewrite Hh, Hl.
Qed.

Lemma utf16_surj u v : high u = true -> low v = true ->
  exists cp, scalar cp = true /\ utf16 cp = [u; v].
Proof.
  unfold high, low. rewrite !betweenP. intros Hu Hv.
  exists (0x10000 + (u - 0xd800) * 1024 + (v - 0xdc00)). rewrite scalarP. split; [lia|].
  unfold utf16. zcases. f_equal; [dm|f_equal; dm].
Qed.

Lemma wf_iff n s : (List.length s <= n)%nat -> wf s = true <->
  exists cps, Forall (fun cp => scalar cp = true) cps /\ s = utf16s cps.
Proof.
  intros Hn. split.
  - revert s Hn. induction n as [|n IH]; intros [|u s] Hn Hw; try (by exists []); simpl in Hn; [lia|].
    simpl in Hw. destruct (high u) eqn:Hh.
    + destruct s as [|v s]; [done|]. apply andb_true_iff in Hw as [Hl Hw].
      destruct (utf16_surj u v Hh Hl) as (cp & Hcp & E).
      destruct (IH s ltac:(simpl in Hn; lia) Hw) as (cps & Hc & ->).
      exists (cp :: cps). split; [by constructor|]. cbn [utf16s flat_map]. by rewrite E.
    + rewrite !andb_true_iff, betweenP, negb_true_iff in Hw. destruct Hw as [[Hl Hr] Hw].
      destruct (IH s ltac:(lia) Hw) as (cps & Hc & ->). exists (u :: cps).
      unfold high in Hh. unfold low in Hl. apply between_false in Hh, Hl.
      split; [constructor; [apply scalarP; lia|done]|]. cbn [utf16s flat_map]. unfold utf16.
      by destruct (Z.ltb_spec u 0x10000); [|lia].
  - intros (cps & Hc & ->). clear Hn. induction Hc as [|cp cps Hs _ IH]; [done|].
    cbn [utf16s flat_map]. by rewrite wf_utf16.
Qed.

Lemma wf_spec s : wf s = true <->
  exists cps, Forall (fun cp => scalar cp = true) cps /\ s = utf16s cps.
Proof. by apply (wf_iff (List.length s)). Qed.

(** An ill-formed string is encoded with U+FFFD for each lone surrogate. *)
Lemma encode_valid n s : (List.length s <= n)%nat -> Forall (fun u => 0 <= u <= 0xffff) s ->
  exists cps, Forall (fun cp => scalar cp = true) cps /\ encodeUTF8 s = utf8s cps.
Proof.
  revert s. induction n as [|n IH]; intros [|u s] Hn Hr; try (by exists []); simpl in Hn; [lia|].
  apply Forall_cons_1 in Hr as [Hu Hr].
  assert (forall cp r, scalar cp = true -> (List.length r <= n)%nat ->
    Forall (fun u => 0 <= u <= 0xffff) r -> exists cps,
    Forall (fun cp => scalar cp = true) cps /\ encode1 cp ++ encodeUTF8 r = utf8s cps) as Hstep.
  { intros cp r Hs Hlen Hr'. destruct (IH r Hlen Hr') as (cps & Hc & ->). exists (cp :: cps).
    split; [by constructor|]. rewrite encode1_utf8 by (apply scalarP in Hs; lia). done. }
  simpl. destruct (high u) eqn:Hh.
  - destruct s as [|v s]; [by exists [0xfffd]; split; [repeat constructor|]|].
    apply Forall_cons_1 in Hr as [Hv Hr]. simpl in Hn. destruct (low v) eqn:Hl.
    + destruct (utf16_surj u v Hh Hl) as (cp & Hcp & E).
      destruct (utf16_cases cp Hcp) as [(E' & _)|(u' & v' & E' & _ & _ & Hcp' & _)];
        rewrite E' in E; simplify_eq. apply Hstep; [done|lia|done].
    + apply (Hstep 0xfffd (v :: s)); [done|simpl; lia|by constructor].
  - destruct (low u) eqn:Hl; [apply (Hstep 0xfffd s); [done|lia|done]|].
    unfold high in Hh. unfold low in Hl. apply between_false in Hh, Hl.
    apply Hstep; [apply scalarP; lia|lia|done].
Qed.

(** C34. UTF-8 transcoding.  For every sequence of scalar values the encoder
    turns its UTF-16 spelling into its UTF-8 spelling and the decoder turns
    that back; whatever the bytes, the decoder yields a well-formed string,
    which re-encodes to the bytes exactly when they were valid UTF-8; and the
    encoder emits valid UTF-8 for any units, lone surrogates included. *)
Theorem utf8_roundtrip :
  (forall cps, forallb scalar cps = true ->
     encodeUTF8 (utf16s cps) = utf8s cps /\ decodeUTF8 (utf8s cps) = utf16s cps) /\
  (forall s, forallb (fun b => between 0 b 255) s = true ->
     wf (decodeUTF8 s) = true /\
     (encodeUTF8 (decodeUTF8 s) = s <-> exists cps, forallb scalar cps = true /\ s = utf8s cps)) /\
  (forall u, forallb (fun x => between 0 x 0xffff) u = true ->
     exists cps, forallb scalar cps = true /\ encodeUTF8 u = utf8s cps).
Proof.
  assert (Hfb := forallb_Forall scalar).
  split_and!.
  - intros cps Hc%Hfb. by rewrite encode_utf16s, decode_utf8s.
  - intros s Hs. assert (Forall (fun b => 0 <= b < 256) s) as Hb.
    { apply forallb_Forall in Hs. eapply Forall_impl; [|exact Hs]. intros x Hx%betweenP. lia. }
    destruct (decode_loop_wf s Hb 0) as (cps & Hc & E). unfold decodeUTF8. split.
    + apply wf_spec. by exists cps.
    + split.
      * intros Heq. exists cps. rewrite Hfb. split; [done|].
        by rewrite <- Heq, E, encode_utf16s.
      * intros (cps' & Hc'%Hfb & ->). fold (decodeUTF8 (utf8s cps')).
        by rewrite decode_utf8s, encode_utf16s.
  - intros u Hu. destruct (encode_valid (List.length u) u) as (cps & Hc & E); [done| |].
    + apply forallb_Forall in Hu. eapply Forall_impl; [|exact Hu]. by intros x Hx%betweenP.
    + exists cps. by rewrite Hfb.
Qed.

Lemma utf8_roundtrip_witness :
  encodeUTF8 (decodeUTF8 [0xe2; 0x82; 0xac; 0xf0; 0x9f; 0x98; 0x80])
  = [0xe2; 0x82; 0xac; 0xf0; 0x9f; 0x98; 0x80].
Proof.
  apply (proj1 (proj2 utf8_roundtrip)); [reflexivity|].
  exists [0x20ac; 0x1f600]. split; reflexivity.
Defined.

(** ** Indexing *)

Lemma length_app_Z (a b : ustring) : length (a ++ b) = length a + length b.
Proof. unfold length. rewrite length_app. lia. Qed.
Lemma length_cons u (s : ustring) : length (u :: s) = 1 + length s.
Proof. unfold length. simpl. lia. Qed.
Lemma length_nonneg (s : ustring) : 0 <= length s.
Proof. unfold length. lia. Qed.

Lemma charAt_app pre u r : charAt (pre ++ u :: r) (length pre) = u.
Proof.
  unfold charAt. pose proof (length_nonneg pre). pose proof (length_nonneg r).
  rewrite length_app_Z, length_cons.
  rewrite (proj2 (Z.ltb_ge _ _)), (proj2 (Z.leb_gt _ _)) by lia. simpl.
  unfold length. rewrite Nat2Z.id. by rewrite app_nth2, Nat.sub_diag by lia.
Qed.

Lemma charAt_app1 pre u v r : charAt (pre ++ u :: v :: r) (length pre + 1) = v.
Proof.
  replace (length pre + 1) with (length (pre ++ [u])) by (rewrite length_app_Z, length_cons; done).
  change (pre ++ u :: v :: r) with (pre ++ ([u] ++ v :: r)).
  rewrite (assoc_L app pre). apply charAt_app.
Qed.

Lemma split_at (s : ustring) i :
  0 <= i < length s -> exists pre r, s = pre ++ charAt s i :: r /\ length pre = i.
Proof.
  intros Hi. assert (Z.to_nat i < List.length s)%nat as Hlt by (unfold length in Hi; lia).
  destruct (nth_split s 0 Hlt) as (pre & r & E & Hlen). exists pre, r. unfold charAt.
  rewrite (proj2 (Z.ltb_ge _ _)), (proj2 (Z.leb_gt _ _)) by lia. simpl.
  split; [done|]. unfold length. lia.
Qed.

Lemma char32At_app pre cp r :
  scalar cp = true -> char32At (pre ++ utf16 cp ++ r) (length pre) = cp.
Proof.
  intros Hs. unfold char32At.
  destruct (utf16_cases cp Hs) as [(-> & Hh & _)|(u & v & -> & Hh & Hl & E & _)]; cbn [app].
  - by rewrite charAt_app, Hh.
  - rewrite charAt_app, charAt_app1, Hh, Hl. pose proof (length_nonneg pre).
    pose proof (length_nonneg r). rewrite length_app_Z, !length_cons.
    by rewrite (proj2 (Z.ltb_lt _ _)) by lia.
Qed.

Lemma count_length cp : scalar cp = true -> utf16_code_unit_count cp = length (utf16 cp).
Proof.
  intros Hs. unfold utf16_code_unit_count.
  destruct (utf16_cases cp Hs) as [(-> & _ & _ & H)|(u & v & -> & _ & _ & _ & H)]; zcases; done.
Qed.

Lemma count_pos cp : 1 <= utf16_code_unit_count cp.
Proof. unfold utf16_code_unit_count. zcases. Qed.

(** ** Code point order *)

Lemma cmp_loop_total fuel a b i j :
  length a - i <= Z.of_nat fuel -> cmp_loop fuel a b i j <> None.
Proof.
  revert i j. induction fuel as [|fuel IH]; intros i j Hf; simpl.
  - by rewrite (proj2 (Z.ltb_ge i _)) by lia.
  - destruct (_ && _); [|done]. zcases; try done. apply IH.
    pose proof (count_pos (char32At a i)). lia.
Qed.

Lemma cmp_loop_lex cs : Forall (fun cp => scalar cp = true) cs -> forall ds fuel pre pre',
  Forall (fun cp => scalar cp = true) ds -> (List.length (utf16s cs) <= fuel)%nat ->
  cmp_loop fuel (pre ++ utf16s cs) (pre' ++ utf16s ds) (length pre) (length pre')
  = Some (lex cs ds).
Proof.
  assert (forall pre : ustring, (length pre <? length (pre ++ [])) = false) as Hend.
  { intros pre. rewrite app_nil_r. apply Z.ltb_irrefl. }
  assert (forall pre c (r : ustring), scalar c = true ->
    (length pre <? length (pre ++ utf16 c ++ r)) = true) as Hmore.
  { intros pre c r Hs. rewrite !length_app_Z. pose proof (count_pos c).
    rewrite (count_length c Hs) in *. pose proof (length_nonneg r). apply Z.ltb_lt. lia. }
  induction 1 as [|c cs Hc Hcs IH]; intros ds fuel pre pre' Hds Hf.
  - destruct Hds as [|d ds Hd Hds]; cbn [utf16s flat_map lex].
    + destruct fuel; simpl; by rewrite !Hend.
    + destruct fuel; simpl; by rewrite Hend, (Hmore pre' d).
  - destruct Hds as [|d ds Hd Hds]; cbn [utf16s flat_map lex].
    + destruct fuel; simpl; by rewrite Hend, (Hmore pre c).
    + cbn [utf16s flat_map] in Hf. destruct fuel as [|fuel].
      { exfalso. pose proof (count_pos c) as H1. rewrite (count_length c Hc) in H1.
        rewrite length_app in Hf. unfold length in H1. lia. }
      simpl. rewrite !Hmore, !char32At_app by done. simpl.
      destruct (Z.ltb_spec c d); [done|]. destruct (Z.ltb_spec d c); [done|].
      rewrite !count_length, <- !length_app_Z, !(assoc_L app) by done.
      apply IH; [done|]. rewrite length_app in Hf.
      pose proof (count_pos c) as H1. rewrite (count_length c Hc) in H1. unfold length in H1.
      fold (utf16s cs) in Hf. lia.
Qed.

(** [compareCodePointOrder] terminates on any two strings (each turn of its
    loop advances the first index), and on well-formed strings it is the
    lexicographic order of their code points, not of their units. *)
Theorem code_point_order :
  (forall a b, exists r, compareCodePointOrder a b = Some r) /\
  (forall cs ds, forallb scalar cs = true -> forallb scalar ds = true ->
     compareCodePointOrder (utf16s cs) (utf16s ds) = Some (lex cs ds)).
Proof.
  split.
  - intros a b. destruct (compareCodePointOrder a b) as [r|] eqn:E; [by exists r|].
    exfalso. revert E. apply cmp_loop_total. unfold length. lia.
  - intros cs ds Hc%forallb_Forall Hd%forallb_Forall.
    by apply (cmp_loop_lex cs Hc ds (List.length (utf16s cs)) [] []).
Qed.

Lemma code_point_order_witness :
  compareCodePointOrder (utf16s [0x61; 0x10000]) (utf16s [0x61; 0xffff]) = Some 1 /\
  units_lt (utf16s [0x61; 0x10000]) (utf16s [0x61; 0xffff]) = true.
Proof.
  split; [|reflexivity]. apply (proj2 code_point_order [0x61; 0x10000] [0x61; 0xffff]); reflexivity.
Defined.

(** ** Well-formedness at the borders of a substring *)

Lemma wf_app_bmp n x c y : (List.length x <= n)%nat -> bmp c ->
  wf (x ++ c :: y) = wf x && wf (c :: y).
Proof.
  intros Hn [Hh Hl]. revert x Hn. induction n as [|n IH]; intros [|u x] Hn; try done;
    simpl in Hn; [lia|].
  cbn [app wf]. destruct (high u).
  - destruct x as [|v x]; [by cbn [app]; rewrite Hl|]. cbn [app]. simpl in Hn.
    rewrite IH by lia. by rewrite andb_assoc.
  - rewrite IH by lia. by rewrite andb_assoc.
Qed.

Lemma wf_app n x y : (List.length x <= n)%nat -> wf x = true -> wf (x ++ y) = wf y.
Proof.
  revert x. induction n as [|n IH]; intros [|u x] Hn Hx; try done; simpl in Hn; [lia|].
  cbn [app wf] in *. destruct (high u).
  - destruct x as [|v x]; [done|]. cbn [app]. simpl in Hn. apply andb_true_iff in Hx as [-> Hx].
    apply (IH x); [lia|done].
  - rewrite !andb_true_iff in Hx. destruct Hx as [[-> ->] Hx]. apply (IH x); [lia|done].
Qed.

Lemma wf_cons_bmp c y : bmp c -> wf (c :: y) = between 0 c 0xffff && wf y.
Proof. intros [Hh Hl]. cbn [wf]. by rewrite Hh, Hl. Qed.

Lemma bmp_small c : c < 0xd800 -> bmp c.
Proof. intros H. unfold bmp, high, low. rewrite !between_false. lia. Qed.

Lemma rest_step s i : 0 <= i < length s -> rest s i = charAt s i :: rest s (i + 1).
Proof.
  intros Hi. unfold rest, length in *. unfold charAt, length.
  rewrite (proj2 (Z.ltb_ge i 0)), (proj2 (Z.leb_gt _ _)) by lia. cbn [orb].
  replace (Z.to_nat (i + 1)) with (S (Z.to_nat i)) by lia.
  apply drop_S. destruct (nth_lookup_or_length s (Z.to_nat i) 0); [done|lia].
Qed.

Lemma charAt_out s i : length s <= i -> charAt s i = 0.
Proof.
  intros H. unfold charAt. rewrite (proj2 (Z.leb_le _ _) H). by rewrite orb_true_r.
Qed.

(** ** Escapes *)

Lemma hexDigit_bmp u : 0 <= hexDigit u -> bmp u /\ between 0 u 0xffff = true.
Proof.
  unfold hexDigit. intros H. rewrite betweenP.
  assert (0 <= u < 0xd800).
  { destruct (between 48 u 57) eqn:E1; [apply betweenP in E1; lia|].
    destruct (between 97 u 102) eqn:E2; [apply betweenP in E2; lia|].
    destruct (between 65 u 70) eqn:E3; [apply betweenP in E3; lia|lia]. }
  split; [apply bmp_small|]; lia.
Qed.

(** The digits read are not surrogates, so the text after them is well-formed. *)
Lemma hex_value_wf s n : forall first cp r,
  0 <= first -> first + Z.of_nat n <= length s -> 0 <= cp ->
  hex_value s first n cp = Some r ->
  0 <= r /\ wf (rest s first) = wf (rest s (first + Z.of_nat n)).
Proof.
  induction n as [|n IH]; intros first cp r Hf Hn Hcp.
  { intros [= <-]. split; [done|]. do 2 f_equal. lia. }
  cbn [hex_value]. destruct (Z.ltb_spec (hexDigit (charAt s first)) 0); [done|].
  intros H1. apply IH in H1 as [Hr E]; [|lia..|].
  2: { apply Z.lor_nonneg. split; [|done]. apply wrapU_range. lia. }
  split; [done|]. destruct (hexDigit_bmp (charAt s first)) as [Hb Hu]; [done|].
  rewrite rest_step, wf_cons_bmp, Hu by (done || lia). cbn [andb]. rewrite E. do 2 f_equal. lia.
Qed.

Lemma appendEscaped_wf out s marker digits out' :
  0 <= marker -> 0 <= digits -> wf out = true -> wf (rest s (marker + 1)) = true ->
  appendEscapedCodePoint out s marker digits = Some out' ->
  wf (out' ++ rest s (marker + 1 + digits)) = true /\ marker + 1 + digits <= length s.
Proof.
  unfold appendEscapedCodePoint. intros Hm Hd Ho Hw.
  destruct (Z.ltb_spec (length s) (marker + 1 + digits)); [done|].
  destruct (hex_value _ _ _ _) as [cp|] eqn:E; [|done].
  destruct (_ || _) eqn:Eg; [done|]. intros [= <-]. split; [|done].
  apply hex_value_wf in E as [Hcp E]; [|lia..]. rewrite Z2Nat.id in E by lia.
  apply orb_false_iff in Eg as [Eg1%Z.ltb_ge Eg2%between_false].
  rewrite push_cp_utf16 by lia. rewrite <- app_assoc.
  rewrite (wf_app (List.length out)) by done.
  rewrite wf_utf16 by (apply scalarP; lia). by rewrite <- E.
Qed.

Lemma find_close_spec s fuel : forall i,
  0 <= i -> length s - i <= Z.of_nat fuel ->
  i <= find_close fuel s i /\
  (find_close fuel s i < length s -> charAt s (find_close fuel s i) = 125).
Proof.
  induction fuel as [|fuel IH]; intros i Hi Hf; simpl.
  - destruct (Z.ltb_spec i (length s)); [lia|]. simpl. lia.
  - destruct (Z.ltb_spec i (length s)); simpl; [|lia].
    destruct (Z.eqb_spec (charAt s i) 125); simpl; [lia|].
    destruct (IH (i + 1)) as [H1 H2]; [lia..|]. split; [lia|done].
Qed.

Lemma simple_escape_small e u : simple_escape e = Some u -> 0 <= u < 128 /\ 0 <= e < 128.
Proof.
  unfold simple_escape. intros H.
  repeat (case_match; [rewrite ?Z.eqb_eq in *; simplify_eq; lia|]). done.
Qed.

Lemma escape_at_wf s out i out' i' :
  0 <= i < length s -> wf out = true -> wf (rest s i) = true ->
  escape_at s out i = Some (out', i') ->
  i <= i' /\ wf (out' ++ rest s (i' + 1)) = true.
Proof.
  intros Hi Ho Hw. unfold escape_at.
  assert (charAt s i < 0xd800 -> wf (rest s (i + 1)) = true) as Hnext.
  { intros Hs. rewrite rest_step, wf_cons_bmp in Hw by (done || by apply bmp_small).
    by apply andb_true_iff in Hw as [_ Hw]. }
  destruct (simple_escape (charAt s i)) as [u|] eqn:Es.
  { intros [= <- <-]. split; [lia|]. apply simple_escape_small in Es.
    rewrite <- app_assoc, (wf_app (List.length out)) by done. cbn [app].
    rewrite wf_cons_bmp, Hnext by (apply bmp_small || idtac; lia).
    by rewrite (proj2 (betweenP _ _ _)) by lia. }
  destruct (Z.eqb_spec (charAt s i) 117) as [E|_].
  { destruct (appendEscapedCodePoint _ _ _ _) as [o|] eqn:Ea; intros [= <- <-].
    apply appendEscaped_wf in Ea as [Ha _]; [|lia|lia|done|apply Hnext; lia].
    split; [lia|]. by replace (i + 4 + 1) with (i + 1 + 4) by lia. }
  destruct (Z.eqb_spec (charAt s i) 85) as [E|_].
  { destruct (appendEscapedCodePoint _ _ _ _) as [o|] eqn:Ea; intros [= <- <-].
    apply appendEscaped_wf in Ea as [Ha _]; [|lia|lia|done|apply Hnext; lia].
    split; [lia|]. by replace (i + 8 + 1) with (i + 1 + 8) by lia. }
  destruct (Z.eqb_spec (charAt s i) 120) as [E|_].
  - destruct (_ && _) eqn:Eb.
    + apply andb_true_iff in Eb as [Eb1%Z.ltb_lt Eb2%Z.eqb_eq].
      destruct (find_close_spec s (List.length s) (i + 2)) as [Hc1 Hc2]; [lia|unfold length; lia|].
      set (close := find_close _ _ _) in *.
      destruct (_ || _) eqn:Eg; [done|]. rewrite !orb_false_iff, Z.leb_gt, !Z.ltb_ge in Eg.
      destruct (appendEscapedCodePoint _ _ _ _) as [o|] eqn:Ea; intros [= <- <-].
      assert (wf (rest s (i + 1 + 1)) = true) as Hw2.
      { specialize (Hnext ltac:(lia)). rewrite rest_step, wf_cons_bmp in Hnext
          by (apply bmp_small || idtac; lia). by apply andb_true_iff in Hnext as [_ H]. }
      apply appendEscaped_wf in Ea as [Ha _]; [|lia|lia|done|done].
      split; [lia|]. replace (i + 1 + 1 + (close - (i + 2))) with close in Ha by lia.
      rewrite rest_step in Ha by lia. rewrite Hc2 in Ha by lia.
      rewrite (wf_app_bmp (List.length o)), wf_cons_bmp in Ha by (done || by apply bmp_small).
      rewrite !andb_true_iff in Ha. destruct Ha as [Ha1 [_ Ha2]].
      by rewrite (wf_app (List.length o)).
    + destruct (appendEscapedCodePoint _ _ _ _) as [o|] eqn:Ea; intros [= <- <-].
      apply appendEscaped_wf in Ea as [Ha _]; [|lia|lia|done|apply Hnext; lia].
      split; [lia|]. by replace (i + 2 + 1) with (i + 1 + 2) by lia.
  - intros [= <- <-]. split; [lia|]. rewrite <- app_assoc, (wf_app (List.length out)) by done.
    cbn [app]. by rewrite <- rest_step.
Qed.

Lemma unescape_loop_wf s fuel : forall out i,
  0 <= i -> length s - i <= Z.of_nat fuel -> wf (out ++ rest s i) = true ->
  exists o, unescape_loop fuel s out i = Some o /\ wf o = true.
Proof.
  induction fuel as [|fuel IH]; intros out i Hi Hf Hw; simpl.
  { destruct (Z.ltb_spec i (length s)); [lia|]. exists out. split; [done|].
    unfold rest in Hw. rewrite drop_ge, app_nil_r in Hw by (unfold length in *; lia). done. }
  destruct (Z.ltb_spec i (length s)) as [Hl|Hl].
  2: { exists out. split; [done|].
       unfold rest in Hw. rewrite drop_ge, app_nil_r in Hw by (unfold length in *; lia). done. }
  rewrite rest_step in Hw by lia. destruct (Z.eqb_spec (charAt s i) 92) as [E|E]; simpl.
  - destruct (Z.leb_spec (length s) (i + 1)); [by exists []|].
    rewrite (wf_app_bmp (List.length out)), wf_cons_bmp in Hw
      by (done || (rewrite E; by apply bmp_small)).
    rewrite !andb_true_iff in Hw. destruct Hw as [Ho [_ Hw]].
    destruct (escape_at s out (i + 1)) as [[out' i']|] eqn:Ee; [|by exists []].
    apply escape_at_wf in Ee as [Hi' Hw']; [|lia|done|done]. apply IH; [lia|lia|done].
  - apply IH; [lia|lia|]. by rewrite <- app_assoc.
Qed.

Lemma unescape_plain s fuel : forall out i,
  0 <= i -> length s - i <= Z.of_nat fuel -> Forall (fun u => u <> 92) s ->
  unescape_loop fuel s out i = Some (out ++ rest s i).
Proof.
  assert (forall out i, 0 <= i -> length s <= i -> out = out ++ rest s i) as Hend.
  { intros out i Hi Hl. unfold rest. rewrite drop_ge, app_nil_r by (unfold length in *; lia). done. }
  induction fuel as [|fuel IH]; intros out i Hi Hf Hs; simpl;
    destruct (Z.ltb_spec i (length s)) as [Hl|Hl]; try (f_equal; by apply Hend); [lia|].
  assert (charAt s i <> 92) as E.
  { destruct (split_at s i) as (pre & r & Es & _); [lia|]. rewrite Es in Hs.
    apply Forall_app in Hs as [_ Hs]. by apply Forall_cons_1 in Hs as [Hs _]. }
  rewrite (proj2 (Z.eqb_neq _ _) E). simpl. rewrite IH by (done || lia).
  rewrite <- app_assoc. cbn [app]. by rewrite <- rest_step.
Qed.

(** [unescape] always returns: the escapes of a well-formed literal give a
    well-formed string (an escape can neither split a surrogate pair nor
    introduce half of one), and a literal without a backslash is unchanged. *)
Theorem unescape_well_formed s :
  wf s = true ->
  (exists o, unescape s = Some o /\ wf o = true) /\
  (forallb (fun u => negb (u =? 92)) s = true -> unescape s = Some s).
Proof.
  intros Hw. split.
  - apply unescape_loop_wf; [done|unfold length; lia|done].
  - intros Hs%forallb_Forall. unfold unescape. rewrite unescape_plain; [done|done|unfold length; lia|].
    eapply Forall_impl; [|exact Hs]. intros u Hu%negb_true_iff%Z.eqb_neq. done.
Qed.

(** A literal with a tab escape, a braced escape and an escaped letter. *)
Lemma unescape_well_formed_witness :
  wf [92; 116; 92; 120; 123; 49; 70; 54; 48; 48; 125; 92; 113] = true /\
  exists o, unescape [92; 116; 92; 120; 123; 49; 70; 54; 48; 48; 125; 92; 113] = Some o /\ wf o = true.
Proof. split; [reflexivity|]. by apply unescape_well_formed. Defined.

Example unescape_demo :
  unescape [92; 116; 92; 120; 123; 49; 70; 54; 48; 48; 125; 92; 113] = Some [9; 0xd83d; 0xde00; 113]
  /\ unescape [97; 92; 120; 123; 68; 56; 48; 48; 125] = Some [].
Proof. split; reflexivity. Qed.

(** ** Substrings and search *)

Lemma clamp_id s i : 0 <= i <= length s -> clampIndex s i = i.
Proof. intros H. unfold clampIndex. zcases. Qed.

Lemma tempSubString_in s q n :
  0 <= q <= length s -> 0 <= n -> q + n < 2 ^ 31 ->
  tempSubString s q n = Ret (take (Z.to_nat n) (drop (Z.to_nat q) s)).
Proof.
  intros Hq Hn Ho. unfold tempSubString, add32. rewrite (proj2 (Z.ltb_ge n 0)) by lia.
  rewrite (proj2 (betweenP _ _ _)) by lia. cbn [obind]. f_equal. rewrite (clamp_id s q) by done.
  unfold clampIndex. zcases.
  - replace n with 0 by lia. replace (0 - q) with 0 by lia. done.
  - rewrite !take_ge; [done|rewrite length_drop; unfold length in *; lia..].
  - f_equal. lia.
Qed.

Lemma find_sub_spec needle s : forall pos,
  match find_sub needle s pos with
  | Some p => (pos <= p <= pos + List.length s)%nat /\
              take (List.length needle) (drop (p - pos) s) = needle /\
              forall q, (pos <= q < p)%nat -> take (List.length needle) (drop (q - pos) s) <> needle
  | None => forall q, (pos <= q)%nat -> take (List.length needle) (drop (q - pos) s) <> needle
  end.
Proof.
  induction s as [|u s IH]; intros pos; simpl; destruct (decide _) as [E|E].
  - rewrite Nat.sub_diag. split_and!; [lia|lia|done|intros; lia].
  - intros q Hq. by rewrite drop_nil.
  - rewrite Nat.sub_diag. split_and!; [lia|lia|done|intros; lia].
  - assert (forall q, (S pos <= q)%nat -> drop (q - pos) (u :: s) = drop (q - S pos) s) as Hd.
    { intros q Hq. by replace (q - pos)%nat with (S (q - S pos)) by lia. }
    assert (forall q, q = pos -> drop (q - pos) (u :: s) = u :: s) as H0.
    { intros q ->. by rewrite Nat.sub_diag. }
    specialize (IH (S pos)). destruct (find_sub needle s (S pos)) as [p|].
    + destruct IH as (H1 & H2 & H3). rewrite Hd by lia. split_and!; [lia|lia|done|].
      intros q Hq. destruct (decide (q = pos)) as [->|]; [by rewrite H0|].
      rewrite Hd by lia. apply H3. lia.
    + intros q Hq. destruct (decide (q = pos)) as [->|]; [by rewrite H0|].
      rewrite Hd by lia. apply IH. lia.
Qed.

(** [indexOf] returns the first position, not before [start], at which the
    substring of the needle's length is the needle, and -1 exactly when there
    is none (an empty needle is found at [start] itself, if that is inside the
    string). *)
Theorem indexOf_first s needle start :
  length s < 2 ^ 31 ->
  let p := indexOf s needle start in
  let occurs q := tempSubString s q (length needle) = Ret needle in
  let from := Z.max 0 start in
  (p = -1 /\ forall q, from <= q <= length s -> ~ occurs q) \/
  (from <= p <= length s /\ (p + length needle < 2 ^ 31 -> occurs p) /\
   forall q, from <= q < p -> ~ occurs q).
Proof.
  intros Hs p occurs from. subst p. unfold indexOf.
  replace (if start <? 0 then 0 else start) with from by (subst from; zcases).
  assert (0 <= from) as Hfrom by lia. clearbody from.
  assert (forall q, from <= q <= length s -> occurs q ->
            take (List.length needle) (drop (Z.to_nat q - Z.to_nat from) (drop (Z.to_nat from) s))
            = needle) as Hocc.
  { intros q Hq Ho. unfold occurs in Ho. rewrite drop_drop.
    replace (Z.to_nat from + (Z.to_nat q - Z.to_nat from))%nat with (Z.to_nat q) by lia.
    destruct (decide (q + length needle < 2 ^ 31)) as [Hlt|Hge].
    - rewrite tempSubString_in in Ho by (unfold length in *; lia).
      injection Ho as Ho. unfold length in Ho. by rewrite Nat2Z.id in Ho.
    - exfalso. unfold tempSubString, add32 in Ho.
      rewrite (proj2 (Z.ltb_ge _ _)) in Ho by (unfold length; lia).
      by rewrite (proj2 (between_false _ _ _)) in Ho by lia. }
  destruct (Z.ltb_spec (length s) from) as [Hlt|Hge].
  { left. split; [done|]. intros q Hq. lia. }
  pose proof (find_sub_spec needle (drop (Z.to_nat from) s) (Z.to_nat from)) as Hf.
  destruct (find_sub _ _ _) as [p|]; cbn [npos].
  - right. destruct Hf as (H1 & H2 & H3). rewrite length_drop in H1. unfold length in Hge.
    split; [unfold length; lia|]. split.
    + intros Hlt. unfold occurs. rewrite tempSubString_in by (unfold length in *; lia).
      f_equal. rewrite drop_drop in H2. rewrite Nat2Z.id. unfold length. rewrite Nat2Z.id.
      by replace (Z.to_nat from + (p - Z.to_nat from))%nat with p in H2 by lia.
    + intros q Hq Ho. apply (H3 (Z.to_nat q)); [lia|]. apply Hocc; [unfold length; lia|done].
  - left. split; [done|]. intros q Hq Ho. apply (Hf (Z.to_nat q)); [lia|]. by apply Hocc.
Qed.

Lemma indexOf_first_witness :
  length [1; 2; 1; 2; 3] < 2 ^ 31 /\ indexOf [1; 2; 1; 2; 3] [1; 2; 3] 0 = 2 /\
  ~ (forall q, 0 <= q <= 5 -> ~ tempSubString [1; 2; 1; 2; 3] q 3 = Ret [1; 2; 3]).
Proof.
  split; [reflexivity|]. split; [reflexivity|].
  destruct (indexOf_first [1; 2; 1; 2; 3] [1; 2; 3] 0) as [[H _]|(_ & H & _)];
    [reflexivity|discriminate H|].
  intros Hn. apply (Hn 2); [split; discriminate|]. apply H. reflexivity.
Defined.
End Ustring.
