(* ===== verification/DebugHandles.v ===== *)
(** * DebugHandles: the debugger's handle table (compiler/debug/DebugHandleTable)

    Small integer handles for threads, frames, scopes and variables, handed out
    while the program is stopped and dropped at every resume.  The map keeps a
    handle's [Value] alive for the collector; that tracing is not modelled, the
    value being opaque here.  The theorem is the promise the header makes: a
    handle of a previous stop can only miss, it never names something else. *)

From S2P Require Import Prelude.

Module DebugHandles.

Local Open Scope Z_scope.

Inductive DebugHandleKind := KThread | KFrame | KScope | KVariable.
Inductive DebugScopeKind := Locals | Upvalues | ModuleVars | ImportedVars.

Section table.
(** The [Value] a variable handle retains. *)
Context {Value : Type}.

Record DebugHandle := mkHandle {
  kind : DebugHandleKind;
  epoch : Z;
  threadId : Z;
  activationId : Z;
  frameIndex : Z;
  scope : DebugScopeKind;
  value : Value;
}.

Record table := mkTable {
  entries : gmap Z DebugHandle;
  nextId : Z;
  maxHandles : nat;
}.

Definition empty_table : table := mkTable ∅ 1 4096.

Definition int32_max : Z := 2 ^ 31 - 1.

Definition create (h : DebugHandle) (t : table) : table * Z :=
  if bool_decide (maxHandles t <= size (entries t))%nat then (t, 0)
  else if nextId t =? int32_max then (t, 0)
  else (mkTable (<[nextId t := h]> (entries t)) (nextId t + 1) (maxHandles t), nextId t).

Definition lookup (id currentEpoch : Z) (t : table) : option DebugHandle :=
  match entries t !! id with
  | None => None
  | Some h => if epoch h =? currentEpoch then Some h else None
  end.

Definition clearForResume (t : table) : table := mkTable ∅ (nextId t) (maxHandles t).

Definition setMaxHandles (m : nat) (t : table) : table := mkTable (entries t) (nextId t) m.

Definition table_size (t : table) : nat := size (entries t).

(** A session: the calls made on the table, oldest first. *)
Inductive op := OCreate (h : DebugHandle) | OClear | OSetMax (m : nat).

Definition run_op (t : table) (o : op) : table :=
  match o with
  | OCreate h => fst (create h t)
  | OClear => clearForResume t
  | OSetMax m => setMaxHandles m t
  end.

Definition session (os : list op) (t : table) : table := fold_left run_op os t.

(** ** Invariant *)

Record table_ok (t : table) : Prop := {
  ok_next : 0 < nextId t <= int32_max;
  ok_fresh : forall id h, entries t !! id = Some h -> 0 < id < nextId t;
}.

Lemma empty_ok : table_ok empty_table.
Proof. split; [done|]. intros id h H. by destruct (lookup_empty_Some (M := gmap Z) id h H). Qed.

Lemma run_op_ok t o : table_ok t -> table_ok (run_op t o).
Proof.
  intros [Hn Hf]. destruct o as [h| |m]; simpl; unfold create.
  - case_bool_decide; [by split|]. destruct (Z.eqb_spec (nextId t) int32_max); [by split|].
    split; simpl; [lia|]. intros id h' [[<- _]|[_ Hin]]%lookup_insert_Some; [lia|].
    apply Hf in Hin. lia.
  - split; simpl; [done|]. intros id h' []%lookup_empty_Some.
  - by split.
Qed.

Lemma session_ok os t : table_ok t -> table_ok (session os t).
Proof. revert t. induction os as [|o os IH]; [done|]. intros t Ht. by apply IH, run_op_ok. Qed.

Lemma run_op_next t o : nextId t <= nextId (run_op t o).
Proof.
  destruct o as [h| |m]; simpl; unfold create; [|lia..].
  case_bool_decide; simpl; [lia|]. case_match; simpl; lia.
Qed.

(** What a later call does to an id already handed out: a clear drops it, any
    other call leaves it. *)
Lemma run_op_entry t o id : table_ok t -> id < nextId t ->
  entries (run_op t o) !! id = match o with OClear => None | _ => entries t !! id end.
Proof.
  intros Ht Hid. destruct o as [h| |m]; simpl; unfold create; [|by rewrite lookup_empty|done].
  case_bool_decide; [done|]. case_match; [done|]. simpl. by rewrite lookup_insert_ne by lia.
Qed.

Definition is_clear (o : op) : bool := match o with OClear => true | _ => false end.

Lemma session_entry os : forall t id, table_ok t -> id < nextId t ->
  entries (session os t) !! id = if existsb is_clear os then None else entries t !! id.
Proof.
  induction os as [|o os IH]; intros t id Ht Hid; [done|]. simpl.
  rewrite IH; [|by apply run_op_ok|pose proof (run_op_next t o); lia].
  rewrite run_op_entry by done. destruct o; simpl; [done| |done]. by destruct (existsb _ _).
Qed.

(** A handle handed out at any point of a session is a positive 32-bit
    integer different from every handle alive; afterwards, whatever calls
    follow, it looks up the very entry it was created for, under the epoch it
    was created in only, until the first resume, and nothing ever after. *)
Theorem handles_never_stale os h os' cur :
  let t := session os empty_table in
  let '(t', id) := create h t in
  id <> 0 ->
  0 < id < int32_max /\ entries t !! id = None /\
  lookup id cur (session os' t') =
    if existsb is_clear os' then None
    else if epoch h =? cur then Some h else None.
Proof.
  intros t. pose proof (session_ok os _ empty_ok) as Ht. fold t in Ht.
  destruct (create h t) as [t' id] eqn:E. intros Hid.
  assert (id = nextId t /\ nextId t < int32_max /\
          t' = mkTable (<[nextId t := h]> (entries t)) (nextId t + 1) (maxHandles t))
    as (-> & Hmax & ->).
  { unfold create in E. destruct Ht as [Hn _].
    case_bool_decide; [congruence|]. destruct (Z.eqb_spec (nextId t) int32_max); [congruence|].
    injection E as <- <-. split_and!; [done|lia|done]. }
  destruct Ht as [Hn Hf]. split; [lia|]. split.
  { destruct (entries t !! nextId t) eqn:El; [|done]. apply Hf in El. lia. }
  unfold lookup. rewrite session_entry; simpl; [|split; simpl; [lia|]|lia].
  - destruct (existsb _ _); [done|]. by rewrite lookup_insert_eq.
  - intros id' h' [[<- _]|[_ H]]%lookup_insert_Some; [lia|]. apply Hf in H. lia.
Qed.
End table.

Lemma handles_never_stale_witness :
  let h := mkHandle KVariable 3 0 0 0 Locals 7 in
  let '(t', id) := create h (session [OCreate h; OClear] empty_table) in
  id = 2 /\ lookup id 3 (session [OCreate h] t') = Some h /\
  lookup id 3 (session [OClear; OCreate h] t') = None.
Proof.
  set (h := mkHandle KVariable 3 0 0 0 Locals 7).
  pose proof (handles_never_stale [OCreate h; OClear] h [OCreate h] 3 ltac:(discriminate))
    as (_ & _ & H).
  split; [reflexivity|]. split; [exact H|reflexivity].
Defined.

End DebugHandles.
