(* ===== verification/DebugInfo.v ===== *)
(** * DebugInfo: per-chunk source metadata (compiler/debug/DebugInfo)

    The statement, local and upvalue tables a chunk carries, their binary form
    in module caches and compute payloads, the look-up of the statement at a
    code offset, and the per-frame statement window the dispatch loop tests at
    each boundary (VM::debugStatementBoundary).

    Streams are byte lists; a multi-byte integer is written in memory order,
    little-endian on every target the program supports. *)

From S2P Require Import Prelude Ustring.
From stdpp Require Import numbers.

Module DebugInfo.

Local Open Scope Z_scope.
Notation ustring := Ustring.ustring.

Record DebugStmtEntry := mkStmt {
  offset : Z;
  line : Z;
  column : Z;
  kind : Z;
}.

Definition StatementStart : Z := 0.
Definition FunctionEntry : Z := 1.

Record DebugLocalVarInfo := mkLocal {
  l_name : ustring;
  slot : Z;
  startOffset : Z;
  endOffset : Z;
  flags : Z;
  typeName : ustring;
}.

Definition DebugLocalParam : Z := 1.
Definition DebugLocalCaptured : Z := 2.
Definition DebugLocalConst : Z := 4.
Definition DebugLocalTypeConst : Z := 8.
Definition DebugLocalSynthetic : Z := 16.

Record DebugUpvalueInfo := mkUpvalue {
  u_name : ustring;
  index : Z;
  isLocal : Z;
}.

Record DebugInfo := mkInfo {
  stmts : list DebugStmtEntry;
  locals : list DebugLocalVarInfo;
  upvalues : list DebugUpvalueInfo;
}.

(** ** Streams *)

(** The low [n] bytes of an unsigned integer, in memory order. *)
Fixpoint to_bytes (n : nat) (v : Z) : list Z :=
  match n with
  | O => []
  | S n => v mod 256 :: to_bytes n (v / 256)
  end.

Fixpoint of_bytes (bs : list Z) : Z :=
  match bs with
  | [] => 0
  | b :: bs => b + 256 * of_bytes bs
  end.

Definition writeU32 (v : Z) : list Z := to_bytes 4 (wrapU 32 v).
Definition writeI32 (v : Z) : list Z := to_bytes 4 (wrapU 32 v).
Definition writeU16 (v : Z) : list Z := to_bytes 2 (wrapU 16 v).
Definition writeU8 (v : Z) : list Z := to_bytes 1 (wrapU 8 v).
Definition writeUS (us : ustring) : list Z :=
  let s := Ustring.encodeUTF8 us in
  writeU32 (Z.of_nat (length s)) ++ s.

(** An input stream: the bytes left and whether it is still good.  A read past
    the end stores the bytes there are and sets the fail state; a read of a
    failed stream stores nothing. *)
Record istream := mkIn { left : list Z; good : bool }.

Definition read (n : nat) (i : istream) : list Z * istream :=
  if good i then
    if (n <=? length (left i))%nat
    then (take n (left i), mkIn (drop n (left i)) true)
    else (left i, mkIn [] false)
  else ([], i).

(** The target is zero-initialised, so missing bytes read as zero. *)
Definition readU (n : nat) (i : istream) : Z * istream :=
  let '(bs, i) := read n i in (of_bytes bs, i).

Definition readU32 (i : istream) : Z * istream := readU 4 i.
Definition readI32 (i : istream) : Z * istream :=
  let '(v, i) := readU 4 i in (wrapS 32 v, i).
Definition readU16 (i : istream) : Z * istream := readU 2 i.
Definition readU8 (i : istream) : Z * istream := readU 1 i.

Definition MaxNameBytes : Z := 2 ^ 16.

Definition readUS (i : istream) : outcome string (ustring * istream) :=
  let '(len, i) := readU32 i in
  if negb (good i) || (MaxNameBytes <? len)
  then Throw "DebugInfo: malformed string length"%string
  else
    let '(s, i) := if len =? 0 then ([], i) else read (Z.to_nat len) i in
    if negb (good i) then Throw "DebugInfo: truncated string"%string
    else Ret (Ustring.decodeUTF8 s, i).

(** ** Serialization *)

Definition write_stmt (s : DebugStmtEntry) : list Z :=
  writeU32 (offset s) ++ writeI32 (line s) ++ writeI32 (column s) ++ writeU8 (kind s).

Definition write_local (l : DebugLocalVarInfo) : list Z :=
  writeUS (l_name l) ++ writeU16 (slot l) ++ writeU32 (startOffset l) ++ writeU32 (endOffset l)
  ++ writeU8 (flags l) ++ writeUS (typeName l).

Definition write_upvalue (u : DebugUpvalueInfo) : list Z :=
  writeUS (u_name u) ++ writeU16 (index u) ++ writeU8 (isLocal u).

Definition serialize (d : DebugInfo) : list Z :=
  writeU32 (Z.of_nat (length (stmts d))) ++ flat_map write_stmt (stmts d)
  ++ writeU32 (Z.of_nat (length (locals d))) ++ flat_map write_local (locals d)
  ++ writeU32 (Z.of_nat (length (upvalues d))) ++ flat_map write_upvalue (upvalues d).

(** ** Deserialization *)

Definition maxStmts (codeSize : Z) : Z := wrapU 32 (codeSize + 16).
Definition maxLocals : Z := 512.
Definition maxUpvalues : Z := 256.
Definition knownLocalFlags : Z :=
  Z.lor (Z.lor (Z.lor (Z.lor DebugLocalParam DebugLocalCaptured) DebugLocalConst)
               DebugLocalTypeConst) DebugLocalSynthetic.

Definition stmt_bad (codeSize prevOffset : Z) (e : DebugStmtEntry) : bool :=
  (codeSize <? offset e) || (FunctionEntry <? kind e) || (line e <? 0) || (column e <? 0)
  || (offset e <? prevOffset).

Definition local_bad (codeSize : Z) (l : DebugLocalVarInfo) : bool :=
  (maxLocals <=? slot l) || (codeSize <? startOffset l) || (codeSize <? endOffset l)
  || (endOffset l <? startOffset l) || negb (Z.ldiff (flags l) knownLocalFlags =? 0).

Definition upvalue_bad (u : DebugUpvalueInfo) : bool :=
  (maxUpvalues <=? index u) || (1 <? isLocal u).

Fixpoint read_stmts (n : nat) (codeSize prevOffset : Z) (i : istream)
    : outcome string (list DebugStmtEntry * istream) :=
  match n with
  | O => Ret ([], i)
  | S n =>
      let '(off, i) := readU32 i in
      let '(line, i) := readI32 i in
      let '(col, i) := readI32 i in
      let '(kind, i) := readU8 i in
      let e := mkStmt off line col kind in
      if negb (good i) || stmt_bad codeSize prevOffset e
      then Throw "DebugInfo: malformed statement entry"%string
      else
        let! (es, i) := read_stmts n codeSize off i in
        Ret (e :: es, i)
  end.

Fixpoint read_locals (n : nat) (codeSize : Z) (i : istream)
    : outcome string (list DebugLocalVarInfo * istream) :=
  match n with
  | O => Ret ([], i)
  | S n =>
      let! (name, i) := readUS i in
      let '(slot, i) := readU16 i in
      let '(so, i) := readU32 i in
      let '(eo, i) := readU32 i in
      let '(fl, i) := readU8 i in
      let! (tn, i) := readUS i in
      let l := mkLocal name slot so eo fl tn in
      if negb (good i) || local_bad codeSize l
      then Throw "DebugInfo: malformed local entry"%string
      else
        let! (ls, i) := read_locals n codeSize i in
        Ret (l :: ls, i)
  end.

Fixpoint read_upvalues (n : nat) (i : istream)
    : outcome string (list DebugUpvalueInfo * istream) :=
  match n with
  | O => Ret ([], i)
  | S n =>
      let! (name, i) := readUS i in
      let '(idx, i) := readU16 i in
      let '(loc, i) := readU8 i in
      let u := mkUpvalue name idx loc in
      if negb (good i) || upvalue_bad u
      then Throw "DebugInfo: malformed upvalue entry"%string
      else
        let! (us, i) := read_upvalues n i in
        Ret (u :: us, i)
  end.

Definition read_count (max : Z) (what : string) (i : istream) : outcome string (nat * istream) :=
  let '(n, i) := readU32 i in
  if negb (good i) || (max <? n) then Throw what else Ret (Z.to_nat n, i).

Definition deserialize (codeSize : Z) (i : istream) : outcome string (DebugInfo * istream) :=
  let! (n, i) := read_count (maxStmts codeSize) "DebugInfo: malformed statement count" i in
  let! (ss, i) := read_stmts n codeSize 0 i in
  let! (n, i) := read_count maxLocals "DebugInfo: malformed local count" i in
  let! (ls, i) := read_locals n codeSize i in
  let! (n, i) := read_count maxUpvalues "DebugInfo: malformed upvalue count" i in
  let! (us, i) := read_upvalues n i in
  Ret (mkInfo ss ls us, i).

(** ** The statement at an offset *)

(** [std::upper_bound] on the offsets: the halving loop over [len] elements
    from [first]. *)
Fixpoint upper_bound (fuel : nat) (ss : list DebugStmtEntry) (first len : nat) (off : Z) : nat :=
  match fuel with
  | O => first
  | S fuel =>
      if (len =? 0)%nat then first
      else
        let half := Nat.div2 len in
        match ss !! (first + half)%nat with
        | Some e => if off <? offset e then upper_bound fuel ss first half off
                    else upper_bound fuel ss (first + half + 1) (len - half - 1) off
        | None => first
        end
  end.

Definition debugLocateStatement (d : DebugInfo) (off : Z) : Z :=
  let it := upper_bound (S (length (stmts d))) (stmts d) 0 (length (stmts d)) off in
  if (it =? 0)%nat then -1 else Z.of_nat it - 1.

(** The frame's cached window [dbgStmtStart, dbgStmtNext). *)
Record window := mkWindow { dbgStmtStart : Z; dbgStmtNext : Z }.

(** A fresh frame's window (CallFrame): empty, so the first test refreshes. *)
Definition fresh_window : window := mkWindow 0xffffffff 0.

(** The test at the head of debugStatementBoundary: the refreshed window and
    the statement whose first byte is at [off], if there is one. *)
Definition statement_at (d : DebugInfo) (codeSize off : Z) (w : window) : window * option Z :=
  match stmts d with
  | [] => (w, None)
  | s0 :: _ =>
      let refreshed :=
        if (off <? dbgStmtStart w) || (dbgStmtNext w <=? off) then
          let idx := debugLocateStatement d off in
          if idx <? 0 then inr (mkWindow 0xfffffffe (offset s0))
          else
            match stmts d !! Z.to_nat idx with
            | Some s =>
                inl (mkWindow (offset s)
                       match stmts d !! S (Z.to_nat idx) with
                       | Some s' => offset s'
                       | None => wrapU 32 (codeSize + 1)
                       end)
            | None => inl w
            end
        else inl w in
      match refreshed with
      | inr w => (w, None)
      | inl w =>
          if negb (off =? dbgStmtStart w) then (w, None)
          else
            let fireIdx := debugLocateStatement d off in
            if fireIdx <? 0 then (w, None)
            else match stmts d !! Z.to_nat fireIdx with
                 | Some s => if offset s =? off then (w, Some fireIdx) else (w, None)
                 | None => (w, None)
                 end
      end
  end.

(** ** Well-formed tables: what the compiler emits *)

Definition stmt_ok (codeSize prevOffset : Z) (e : DebugStmtEntry) : bool :=
  Ustring.between 0 (offset e) (2 ^ 32 - 1) && Ustring.between 0 (line e) (2 ^ 31 - 1)
  && Ustring.between 0 (column e) (2 ^ 31 - 1) && Ustring.between 0 (kind e) 255
  && negb (stmt_bad codeSize prevOffset e).

Fixpoint stmts_ok (codeSize prevOffset : Z) (ss : list DebugStmtEntry) : bool :=
  match ss with
  | [] => true
  | e :: ss => stmt_ok codeSize prevOffset e && stmts_ok codeSize (offset e) ss
  end.

Definition local_ok (codeSize : Z) (l : DebugLocalVarInfo) : bool :=
  Ustring.between 0 (slot l) (2 ^ 16 - 1) && Ustring.between 0 (startOffset l) (2 ^ 32 - 1)
  && Ustring.between 0 (endOffset l) (2 ^ 32 - 1) && Ustring.between 0 (flags l) 255
  && Ustring.wf (l_name l) && Ustring.wf (typeName l) && negb (local_bad codeSize l).

Definition upvalue_ok (u : DebugUpvalueInfo) : bool :=
  Ustring.between 0 (index u) (2 ^ 16 - 1) && Ustring.between 0 (isLocal u) 255
  && Ustring.wf (u_name u) && negb (upvalue_bad u).

Definition info_ok (codeSize : Z) (d : DebugInfo) : bool :=
  (Z.of_nat (length (stmts d)) <=? maxStmts codeSize) && stmts_ok codeSize 0 (stmts d)
  && (Z.of_nat (length (locals d)) <=? maxLocals) && forallb (local_ok codeSize) (locals d)
  && (Z.of_nat (length (upvalues d)) <=? maxUpvalues) && forallb upvalue_ok (upvalues d).

(** The names fit in what [readUS] accepts. *)
Definition short (us : ustring) : bool :=
  Z.of_nat (length (Ustring.encodeUTF8 us)) <=? MaxNameBytes.
Definition names_short (d : DebugInfo) : bool :=
  forallb (fun l => short (l_name l) && short (typeName l)) (locals d)
  && forallb (fun u => short (u_name u)) (upvalues d).

(** ** Streams *)

Lemma length_to_bytes n v : length (to_bytes n v) = n.
Proof. revert v. induction n as [|n IH]; intros v; simpl; [done|]. by rewrite IH. Qed.

Lemma of_to_bytes n : forall v, 0 <= v < 256 ^ Z.of_nat n -> of_bytes (to_bytes n v) = v.
Proof.
  induction n as [|n IH]; intros v Hv; simpl; [lia|].
  rewrite Nat2Z.inj_succ, Z.pow_succ_r in Hv by lia.
  rewrite IH; [Z.div_mod_to_equations; lia|].
  split; [apply Z.div_pos; lia|apply Z.div_lt_upper_bound; lia].
Qed.

Lemma of_bytes_range bs :
  Forall (fun b => 0 <= b < 256) bs -> 0 <= of_bytes bs < 256 ^ Z.of_nat (length bs).
Proof.
  induction 1 as [|b bs Hb _ IH]; [done|]. cbn [of_bytes length].
  rewrite Nat2Z.inj_succ, Z.pow_succ_r by lia. lia.
Qed.

Lemma read_app n bs r : length bs = n -> read n (mkIn (bs ++ r) true) = (bs, mkIn r true).
Proof.
  intros <-. unfold read. simpl. rewrite length_app. rewrite (proj2 (Nat.leb_le _ _)) by lia.
  by rewrite take_app_length, drop_app_length.
Qed.

Lemma readU_write n v r : 0 <= v < 256 ^ Z.of_nat n ->
  readU n (mkIn (to_bytes n v ++ r) true) = (v, mkIn r true).
Proof.
  intros Hv. unfold readU. rewrite read_app by apply length_to_bytes. by rewrite of_to_bytes.
Qed.

Lemma readU32_write v r : inU 32 v -> readU32 (mkIn (writeU32 v ++ r) true) = (v, mkIn r true).
Proof. intros Hv. unfold readU32, writeU32. rewrite wrapU_id by done. by apply readU_write. Qed.

Lemma readU16_write v r : inU 16 v -> readU16 (mkIn (writeU16 v ++ r) true) = (v, mkIn r true).
Proof. intros Hv. unfold readU16, writeU16. rewrite wrapU_id by done. by apply readU_write. Qed.

Lemma readU8_write v r : inU 8 v -> readU8 (mkIn (writeU8 v ++ r) true) = (v, mkIn r true).
Proof. intros Hv. unfold readU8, writeU8. rewrite wrapU_id by done. by apply readU_write. Qed.

Lemma readI32_write v r : inS 32 v -> readI32 (mkIn (writeI32 v ++ r) true) = (v, mkIn r true).
Proof.
  intros Hv. unfold readI32, writeI32.
  rewrite (readU_write 4) by (apply (wrapU_range 32); lia).
  f_equal. unfold inS in Hv. unfold wrapS, wrapU. change (2 ^ (32 - 1)) with (2 ^ 31) in *.
  change (2 ^ 32) with (2 * 2 ^ 31). Z.div_mod_to_equations; lia.
Qed.

#[local] Hint Rewrite readU32_write readU16_write readU8_write readI32_write
  using (unfold inU, inS; lia) : stream.

Lemma readUS_write us r :
  Ustring.wf us = true -> short us = true ->
  readUS (mkIn (writeUS us ++ r) true) = Ret (us, mkIn r true).
Proof.
  intros Hw Hs%Z.leb_le. apply Ustring.wf_spec in Hw as (cps & Hc & ->).
  rewrite Ustring.encode_utf16s in Hs by done. unfold MaxNameBytes in Hs.
  unfold readUS, writeUS. rewrite Ustring.encode_utf16s by done.
  rewrite <- app_assoc, readU32_write by (unfold inU; lia). cbn [good negb orb].
  rewrite (proj2 (Z.ltb_ge _ _)) by (unfold MaxNameBytes; lia).
  rewrite Nat2Z.id. rewrite read_app by done.
  destruct (Z.eqb_spec (Z.of_nat (length (Ustring.utf8s cps))) 0) as [E|E]; cbn [good negb].
  - destruct (Ustring.utf8s cps) eqn:Eu; [|simpl in E; lia]. cbn [app].
    rewrite <- (Ustring.decode_utf8s cps), Eu by done. done.
  - by rewrite Ustring.decode_utf8s.
Qed.

(** ** The round trip *)

Ltac unbool := rewrite ?andb_true_iff, ?Ustring.betweenP, ?negb_true_iff, ?orb_false_iff,
  ?Z.ltb_ge, ?Z.leb_gt in *.

Lemma read_stmts_write codeSize ss : forall prev r,
  stmts_ok codeSize prev ss = true ->
  read_stmts (length ss) codeSize prev (mkIn (flat_map write_stmt ss ++ r) true)
  = Ret (ss, mkIn r true).
Proof.
  induction ss as [|[off ln col kd] ss IH]; intros prev r Hok; [done|].
  simpl in Hok. apply andb_true_iff in Hok as [He Hok]. unfold stmt_ok in He.
  rewrite andb_true_iff, negb_true_iff in He. destruct He as [He Hbad]. unbool. simpl in He.
  cbn [length flat_map read_stmts]. unfold write_stmt. cbn [offset line column kind].
  rewrite <- !app_assoc. autorewrite with stream. cbn [good negb orb]. rewrite Hbad.
  rewrite IH by done. done.
Qed.

Lemma read_locals_write codeSize ls : forall r,
  forallb (local_ok codeSize) ls = true ->
  forallb (fun l => short (l_name l) && short (typeName l)) ls = true ->
  read_locals (length ls) codeSize (mkIn (flat_map write_local ls ++ r) true)
  = Ret (ls, mkIn r true).
Proof.
  induction ls as [|[nm sl so eo fl tn] ls IH]; intros r Hok Hs; [done|].
  cbn [forallb] in Hok, Hs. apply andb_true_iff in Hok as [He Hok], Hs as [Hs Hs'].
  unfold local_ok in He. rewrite andb_true_iff, negb_true_iff in He. destruct He as [He Hbad].
  unbool. cbn [slot startOffset endOffset flags l_name typeName] in *.
  cbn [length flat_map read_locals]. unfold write_local.
  cbn [slot startOffset endOffset flags l_name typeName]. rewrite <- !app_assoc.
  rewrite readUS_write by tauto. cbn [obind]. autorewrite with stream.
  rewrite readUS_write by tauto. cbn [obind good negb orb]. rewrite Hbad.
  rewrite IH by done. done.
Qed.

Lemma read_upvalues_write us : forall r,
  forallb upvalue_ok us = true -> forallb (fun u => short (u_name u)) us = true ->
  read_upvalues (length us) (mkIn (flat_map write_upvalue us ++ r) true)
  = Ret (us, mkIn r true).
Proof.
  induction us as [|[nm ix lc] us IH]; intros r Hok Hs; [done|].
  cbn [forallb] in Hok, Hs. apply andb_true_iff in Hok as [He Hok], Hs as [Hs Hs'].
  unfold upvalue_ok in He. rewrite andb_true_iff, negb_true_iff in He. destruct He as [He Hbad].
  unbool. cbn [index isLocal u_name] in *.
  cbn [length flat_map read_upvalues]. unfold write_upvalue. cbn [index isLocal u_name].
  rewrite <- !app_assoc. rewrite readUS_write by tauto. cbn [obind]. autorewrite with stream.
  cbn [good negb orb]. rewrite Hbad, IH by done. done.
Qed.

Lemma read_count_write max what n r :
  Z.of_nat n <= max -> max < 2 ^ 32 ->
  read_count max what (mkIn (writeU32 (Z.of_nat n) ++ r) true) = Ret (n, mkIn r true).
Proof.
  intros Hn Hm. unfold read_count. rewrite readU32_write by (unfold inU; lia).
  cbn [good negb orb]. by rewrite (proj2 (Z.ltb_ge _ _)), Nat2Z.id by lia.
Qed.

(** Reading back what was written gives the same tables and consumes
    exactly the bytes written, for every table the compiler can emit. *)
Theorem debug_info_roundtrip codeSize d r :
  info_ok codeSize d = true -> names_short d = true ->
  deserialize codeSize (mkIn (serialize d ++ r) true) = Ret (d, mkIn r true).
Proof.
  unfold info_ok, names_short. rewrite !andb_true_iff, !Z.leb_le.
  intros (((((H1 & H2) & H3) & H4) & H5) & H6) (H7 & H8).
  unfold deserialize, serialize. rewrite <- !app_assoc.
  rewrite read_count_write by (done || apply (wrapU_range 32); lia). cbn [obind].
  rewrite read_stmts_write by done. cbn [obind].
  rewrite read_count_write by (unfold maxLocals in *; lia). cbn [obind].
  rewrite read_locals_write by done. cbn [obind].
  rewrite read_count_write by (unfold maxUpvalues in *; lia). cbn [obind].
  rewrite read_upvalues_write by done. cbn [obind]. by destruct d.
Qed.

Lemma debug_info_roundtrip_witness :
  let d := mkInfo [mkStmt 0 1 0 1; mkStmt 0 1 2 0; mkStmt 7 3 2 0]
                  [mkLocal [120; 0xd83d; 0xde00] 1 0 9 3 []] [mkUpvalue [121] 0 1] in
  info_ok 9 d = true /\ deserialize 9 (mkIn (serialize d ++ [1; 2]) true) = Ret (d, mkIn [1; 2] true).
Proof. split; [reflexivity|]. apply debug_info_roundtrip; reflexivity. Defined.

(** ** What an accepted payload satisfies *)

Definition bytes (i : istream) : Prop := Forall (fun b => 0 <= b < 256) (left i).

Lemma read_bytes n i bs i' : bytes i -> read n i = (bs, i') ->
  Forall (fun b => 0 <= b < 256) bs /\ (length bs <= n)%nat /\ bytes i'.
Proof.
  unfold bytes, read. intros Hb. destruct (good i).
  - destruct (Nat.leb_spec n (length (left i))); intros [= <- <-]; simpl.
    + rewrite length_take. split_and!; [by apply Forall_take|lia|by apply Forall_drop].
    + split_and!; [done|lia|constructor].
  - intros [= <- <-]. split_and!; [constructor|simpl; lia|done].
Qed.

Lemma readU_range n i v i' : bytes i -> readU n i = (v, i') ->
  0 <= v < 256 ^ Z.of_nat n /\ bytes i'.
Proof.
  unfold readU. intros Hb. destruct (read n i) as [bs j] eqn:E. intros [= <- <-].
  apply read_bytes in E as (Hbs & Hl & Hj); [|done]. split; [|done].
  pose proof (of_bytes_range bs Hbs).
  assert (256 ^ Z.of_nat (length bs) <= 256 ^ Z.of_nat n) by (apply Z.pow_le_mono_r; lia). lia.
Qed.

Lemma readI32_range i v i' : bytes i -> readI32 i = (v, i') -> inS 32 v /\ bytes i'.
Proof.
  unfold readI32. intros Hb. destruct (readU 4 i) as [u j] eqn:E. intros [= <- <-].
  apply readU_range in E as [_ Hj]; [|done]. split; [|done].
  unfold inS, wrapS. change (2 ^ (32 - 1)) with (2 ^ 31). change (2 ^ 32) with (2 * 2 ^ 31).
  Z.div_mod_to_equations; lia.
Qed.

Lemma readUS_wf i us i' : bytes i -> readUS i = Ret (us, i') ->
  Ustring.wf us = true /\ bytes i'.
Proof.
  unfold readUS, readU32. intros Hb. destruct (readU 4 i) as [len j] eqn:E.
  apply readU_range in E as [_ Hj]; [|done].
  destruct (_ || _); [done|].
  destruct (if len =? 0 then _ else _) as [s k] eqn:Ek.
  assert (Forall (fun b => 0 <= b < 256) s /\ bytes k) as [Hs Hk].
  { destruct (len =? 0); [by simplify_eq|]. apply read_bytes in Ek as (? & _ & ?); done. }
  destruct (negb (good k)); [done|]. intros [= <- <-]. split; [|done].
  apply Ustring.wf_spec. unfold Ustring.decodeUTF8. destruct (Ustring.decode_loop_wf s Hs 0) as (cps & ? & ->). eauto.
Qed.

(** Peel the next read off a hypothesis about a reader's result. *)
Ltac peel H :=
  match type of H with
  | context [readU32 ?i] =>
      let E := fresh "E" in
      destruct (readU32 i) as [? ?] eqn:E; apply (readU_range 4) in E as [? ?]; [|done]
  | context [readU16 ?i] =>
      let E := fresh "E" in
      destruct (readU16 i) as [? ?] eqn:E; apply (readU_range 2) in E as [? ?]; [|done]
  | context [readU8 ?i] =>
      let E := fresh "E" in
      destruct (readU8 i) as [? ?] eqn:E; apply (readU_range 1) in E as [? ?]; [|done]
  | context [readI32 ?i] =>
      let E := fresh "E" in
      destruct (readI32 i) as [? ?] eqn:E; apply readI32_range in E as [? ?]; [|done]
  | context [readUS ?i] =>
      let E := fresh "E" in
      destruct (readUS i) as [[? ?]| |] eqn:E; [|done..]; apply readUS_wf in E as [? ?]; [|done];
      cbn [obind] in H
  end.

Ltac solve_ok := unfold inS in *; rewrite ?andb_true_iff, ?Ustring.betweenP, ?negb_true_iff;
  split_and?; (done || lia).

Lemma read_stmts_ok codeSize n : forall prev i ss i',
  bytes i -> read_stmts n codeSize prev i = Ret (ss, i') ->
  stmts_ok codeSize prev ss = true /\ length ss = n /\ bytes i'.
Proof.
  induction n as [|n IH]; intros prev i ss i' Hb H; cbn [read_stmts] in H; [by simplify_eq|].
  do 4 peel H. destruct (negb _ || _) eqn:Eb; [done|]. apply orb_false_iff in Eb as [_ Eb].
  destruct (read_stmts n _ _ _) as [[es j]| |] eqn:Er; [|done..]. injection H as <- <-.
  apply IH in Er as (Hes & Hlen & Hj); [|done]. cbn [stmts_ok length]. split_and!; [|by f_equal|done].
  rewrite andb_true_iff. split; [|done]. unfold stmt_ok. rewrite Eb.
  unfold stmt_bad in Eb. cbn [offset line column kind] in *. unbool. solve_ok.
Qed.

Lemma read_locals_ok codeSize n : forall i ls i',
  bytes i -> read_locals n codeSize i = Ret (ls, i') ->
  forallb (local_ok codeSize) ls = true /\ length ls = n /\ bytes i'.
Proof.
  induction n as [|n IH]; intros i ls i' Hb H; cbn [read_locals] in H; [by simplify_eq|].
  do 6 peel H. destruct (negb _ || _) eqn:Eb; [done|]. apply orb_false_iff in Eb as [_ Eb].
  destruct (read_locals n _ _) as [[es j]| |] eqn:Er; [|done..]. injection H as <- <-.
  apply IH in Er as (Hes & Hlen & Hj); [|done]. cbn [forallb length]. split_and!; [|by f_equal|done].
  rewrite andb_true_iff. split; [|done]. unfold local_ok. rewrite Eb.
  cbn [slot startOffset endOffset flags l_name typeName]. solve_ok.
Qed.

Lemma read_upvalues_ok n : forall i us i',
  bytes i -> read_upvalues n i = Ret (us, i') ->
  forallb upvalue_ok us = true /\ length us = n /\ bytes i'.
Proof.
  induction n as [|n IH]; intros i us i' Hb H; cbn [read_upvalues] in H; [by simplify_eq|].
  do 3 peel H. destruct (negb _ || _) eqn:Eb; [done|]. apply orb_false_iff in Eb as [_ Eb].
  destruct (read_upvalues n _) as [[es j]| |] eqn:Er; [|done..]. injection H as <- <-.
  apply IH in Er as (Hes & Hlen & Hj); [|done]. cbn [forallb length]. split_and!; [|by f_equal|done].
  rewrite andb_true_iff. split; [|done]. unfold upvalue_ok. rewrite Eb.
  cbn [index isLocal u_name]. solve_ok.
Qed.

Lemma read_count_ok max what i n i' :
  bytes i -> read_count max what i = Ret (n, i') -> Z.of_nat n <= max /\ bytes i'.
Proof.
  unfold read_count. intros Hb H. peel H. destruct (_ || _) eqn:Eb; [done|].
  injection H as <- <-. apply orb_false_iff in Eb as [_ Eb%Z.ltb_ge]. split; [lia|done].
Qed.

(** Whatever bytes are read, an accepted payload has tables within the
    bounds every reader relies on: counts under their limits, statements in
    code order inside the code, slots, flags, live ranges and capture indices
    in range, names well-formed.  Anything else throws. *)
Theorem deserialize_bounds codeSize i d i' :
  forallb (fun b => Ustring.between 0 b 255) (left i) = true ->
  deserialize codeSize i = Ret (d, i') -> info_ok codeSize d = true.
Proof.
  intros Hi%forallb_Forall. assert (bytes i) as Hb.
  { eapply Forall_impl; [|exact Hi]. intros b Hb%Ustring.betweenP. lia. }
  unfold deserialize. intros H.
  destruct (read_count _ _ i) as [[n1 i1]| |] eqn:E1; [|done..]. cbn [obind] in H.
  apply read_count_ok in E1 as [Hn1 Hi1]; [|done].
  destruct (read_stmts _ _ _ _) as [[ss i2]| |] eqn:E2; [|done..]. cbn [obind] in H.
  apply read_stmts_ok in E2 as (Hss & Hl1 & Hi2); [|done].
  destruct (read_count _ _ i2) as [[n3 i3]| |] eqn:E3; [|done..]. cbn [obind] in H.
  apply read_count_ok in E3 as [Hn3 Hi3]; [|done].
  destruct (read_locals _ _ _) as [[ls i4]| |] eqn:E4; [|done..]. cbn [obind] in H.
  apply read_locals_ok in E4 as (Hls & Hl3 & Hi4); [|done].
  destruct (read_count _ _ i4) as [[n5 i5]| |] eqn:E5; [|done..]. cbn [obind] in H.
  apply read_count_ok in E5 as [Hn5 Hi5]; [|done].
  destruct (read_upvalues _ _) as [[us i6]| |] eqn:E6; [|done..]. injection H as <- <-.
  apply read_upvalues_ok in E6 as (Hus & Hl5 & Hi6); [|done].
  unfold info_ok. cbn [stmts locals upvalues]. rewrite Hss, Hls, Hus.
  rewrite !(proj2 (Z.leb_le _ _)) by lia. done.
Qed.

Lemma deserialize_bounds_witness :
  exists d i', deserialize 9 (mkIn [1;0;0;0; 4;0;0;0; 2;0;0;0; 0;0;0;0; 0; 0;0;0;0; 0;0;0;0] true)
               = Ret (d, i') /\ info_ok 9 d = true.
Proof.
  eexists _, _. split; [reflexivity|].
  eapply (deserialize_bounds 9 (mkIn [1;0;0;0; 4;0;0;0; 2;0;0;0; 0;0;0;0; 0; 0;0;0;0; 0;0;0;0] true));
    reflexivity.
Defined.

(** ** The statement at an offset *)

Definition offsets_sorted (ss : list DebugStmtEntry) : Prop :=
  forall i j a b, (i <= j)%nat -> ss !! i = Some a -> ss !! j = Some b -> offset a <= offset b.

Lemma stmts_ok_prev codeSize ss : forall prev i e,
  stmts_ok codeSize prev ss = true -> ss !! i = Some e -> prev <= offset e <= codeSize.
Proof.
  induction ss as [|x ss IH]; intros prev i e; [done|]. cbn [stmts_ok].
  rewrite andb_true_iff. intros [Hx Hs]. unfold stmt_ok, stmt_bad in Hx. unbool.
  destruct i as [|i]; simpl; [intros [= <-]; lia|]. intros He.
  pose proof (IH _ _ _ Hs He). lia.
Qed.

Lemma stmts_ok_sorted codeSize ss : forall prev,
  stmts_ok codeSize prev ss = true -> offsets_sorted ss.
Proof.
  induction ss as [|x ss IH]; intros prev; [intros _ i j a b _; by rewrite lookup_nil|].
  cbn [stmts_ok]. rewrite andb_true_iff. intros [_ Hs] [|i] [|j] a b Hij; simpl; try lia.
  - intros [= <-] [= <-]. lia.
  - intros [= <-] Hb. pose proof (stmts_ok_prev _ _ _ _ _ Hs Hb). lia.
  - apply (IH _ Hs i j). lia.
Qed.

(** The halving loop splits a sorted table at [off]. *)
Lemma upper_bound_spec ss off : offsets_sorted ss -> forall fuel first len,
  (len < fuel)%nat -> (first + len <= length ss)%nat ->
  (forall i e, ss !! i = Some e -> (i < first)%nat -> offset e <= off) ->
  (forall i e, ss !! i = Some e -> (first + len <= i)%nat -> off < offset e) ->
  let r := upper_bound fuel ss first len off in
  (r <= length ss)%nat /\
  (forall i e, ss !! i = Some e -> (i < r)%nat -> offset e <= off) /\
  (forall i e, ss !! i = Some e -> (r <= i)%nat -> off < offset e).
Proof.
  intros Hs. induction fuel as [|fuel IH]; intros first len Hf Hl Hlo Hhi; cbn [upper_bound]; [lia|]; cbv zeta.
  destruct (Nat.eqb_spec len 0) as [->|Hne].
  { split_and!; [lia|done|]. intros i e He Hi. eapply Hhi; [done|lia]. }
  assert (Nat.div2 len < len)%nat as Hhalf by (apply Nat.lt_div2; lia).
  set (half := Nat.div2 len) in *. clearbody half.
  destruct (ss !! (first + half)%nat) as [e|] eqn:E.
  2: { apply lookup_ge_None in E. lia. }
  destruct (Z.ltb_spec off (offset e)).
  - apply IH; [lia|lia|done|]. intros i e' He' Hi. pose proof (Hs _ _ _ _ Hi E He'). lia.
  - apply IH; [lia|lia| |].
    + intros i e' He' Hi. assert (i <= first + half)%nat as Hi' by lia.
      pose proof (Hs _ _ _ _ Hi' He' E). lia.
    + intros i e' He' Hi. eapply Hhi; [done|lia].
Qed.

(** The last statement whose offset is at most [off], if any. *)
Definition locates (ss : list DebugStmtEntry) (off r : Z) : Prop :=
  (r = -1 /\ forall i e, ss !! i = Some e -> off < offset e) \/
  (exists n e, r = Z.of_nat n /\ ss !! n = Some e /\ offset e <= off /\
     forall i e', ss !! i = Some e' -> (n < i)%nat -> off < offset e').

Lemma locate_spec d off :
  offsets_sorted (stmts d) -> locates (stmts d) off (debugLocateStatement d off).
Proof.
  intros Hs. unfold debugLocateStatement.
  destruct (upper_bound_spec (stmts d) off Hs (S (length (stmts d))) 0 (length (stmts d)))
    as (Hr & Hlo & Hhi); [lia|lia|intros; lia| |].
  { intros i e He Hi. apply lookup_lt_Some in He. lia. }
  set (r := upper_bound _ _ _ _ _) in *. destruct (Nat.eqb_spec r 0) as [E|E].
  - left. split; [done|]. intros i e He. apply (Hhi i e He). lia.
  - right. destruct (stmts d !! (r - 1)%nat) as [e|] eqn:El.
    2: { apply lookup_ge_None in El. lia. }
    exists (r - 1)%nat, e. split_and!; [lia|done|apply (Hlo _ _ El); lia|].
    intros i e' He' Hi. apply (Hhi _ _ He'). lia.
Qed.

(** A window is right when every offset inside it has the statement at the
    window's start as its last statement. *)
Definition window_ok (ss : list DebugStmtEntry) (w : window) : Prop :=
  forall off, dbgStmtStart w <= off < dbgStmtNext w ->
  exists n e, ss !! n = Some e /\ offset e = dbgStmtStart w /\
    forall i e', ss !! i = Some e' -> (n < i)%nat -> off < offset e'.

(** The statement a boundary test must report: the last one starting exactly
    at [off]. *)
Definition starts_at (ss : list DebugStmtEntry) (off : Z) (r : option Z) : Prop :=
  match r with
  | None => forall i e, ss !! i = Some e -> offset e <> off
  | Some n => exists e, ss !! Z.to_nat n = Some e /\ 0 <= n /\ offset e = off /\
                forall i e', ss !! i = Some e' -> offset e' = off -> (i <= Z.to_nat n)%nat
  end.

Lemma locates_starts ss off r :
  offsets_sorted ss -> locates ss off r ->
  starts_at ss off
    (if r <? 0 then None
     else match ss !! Z.to_nat r with
          | Some s => if offset s =? off then Some r else None
          | None => None
          end).
Proof.
  intros Hs [[-> Hall]|(n & e & -> & En & Hle & Hafter)]; simpl.
  - intros i e He Heq. pose proof (Hall i e He). lia.
  - rewrite (proj2 (Z.ltb_ge _ _)), Nat2Z.id, En by lia.
    destruct (Z.eqb_spec (offset e) off) as [E|E]; simpl.
    + exists e. rewrite Nat2Z.id. split_and!; [done|lia|done|].
      intros i e' He' Heq. destruct (decide (n < i)%nat) as [Hlt|]; [|lia].
      pose proof (Hafter i e' He' Hlt). lia.
    + intros i e' He' Heq. destruct (decide (n < i)%nat) as [Hlt|Hge].
      * pose proof (Hafter i e' He' Hlt). lia.
      * assert (i <= n)%nat as Hi by lia. pose proof (Hs _ _ _ _ Hi He' En). lia.
Qed.

(** An offset inside a right window but not at its start begins nothing. *)
Lemma window_inside ss w off :
  offsets_sorted ss -> dbgStmtStart w <= off -> off <> dbgStmtStart w ->
  (exists n e, ss !! n = Some e /\ offset e = dbgStmtStart w /\
     forall i e', ss !! i = Some e' -> (n < i)%nat -> off < offset e') ->
  starts_at ss off None.
Proof.
  intros Hs Hle Hne (n & e & En & Ee & Hafter) i e' He' Heq.
  destruct (decide (n < i)%nat) as [Hlt|Hge].
  - pose proof (Hafter i e' He' Hlt). lia.
  - assert (i <= n)%nat as Hi by lia. pose proof (Hs _ _ _ _ Hi He' En). lia.
Qed.

Lemma refreshed_ok ss off n e codeSize :
  offsets_sorted ss -> ss !! n = Some e -> offset e <= off ->
  window_ok ss (mkWindow (offset e)
                 match ss !! S n with
                 | Some s' => offset s'
                 | None => wrapU 32 (codeSize + 1)
                 end).
Proof.
  intros Hs En Hle off' [Hlo Hhi]. simpl in *. exists n, e. split_and!; [done..|].
  intros i e' He' Hi. destruct (ss !! S n) as [s'|] eqn:Es.
  - assert (S n <= i)%nat as Hi' by lia. pose proof (Hs _ _ _ _ Hi' Es He'). lia.
  - apply lookup_ge_None in Es. apply lookup_lt_Some in He'. lia.
Qed.

Lemma statement_at_spec d codeSize off w :
  info_ok codeSize d = true -> codeSize < 0xfffffffe ->
  window_ok (stmts d) w ->
  let '(w', r) := statement_at d codeSize off w in
  window_ok (stmts d) w' /\ starts_at (stmts d) off r.
Proof.
  intros Hinfo Hcode Hw. unfold info_ok in Hinfo. rewrite !andb_true_iff in Hinfo.
  destruct Hinfo as (((((_ & Hok) & _) & _) & _) & _).
  pose proof (stmts_ok_sorted _ _ _ Hok) as Hs.
  pose proof (locate_spec d off Hs) as Hloc.
  pose proof (locates_starts _ _ _ Hs Hloc) as Hfire.
  unfold statement_at. destruct (stmts d) as [|s0 ss] eqn:Ed.
  { split; [done|]. intros i e. by rewrite lookup_nil. }
  rewrite <- Ed in *. set (idx := debugLocateStatement d off) in *. clearbody idx.
  assert (forall w', window_ok (stmts d) w' -> dbgStmtStart w' <= off ->
    (exists n e, stmts d !! n = Some e /\ offset e = dbgStmtStart w' /\
       forall i e', stmts d !! i = Some e' -> (n < i)%nat -> off < offset e') ->
    let '(w'', r) := if negb (off =? dbgStmtStart w') then (w', None)
      else if idx <? 0 then (w', None)
      else match stmts d !! Z.to_nat idx with
           | Some s => if offset s =? off then (w', Some idx) else (w', None)
           | None => (w', None)
           end in
    window_ok (stmts d) w'' /\ starts_at (stmts d) off r) as Htail.
  { intros w' Hw' Hle Hex. destruct (Z.eqb_spec off (dbgStmtStart w')) as [E|E]; simpl.
    - destruct (idx <? 0); [done|]. destruct (stmts d !! Z.to_nat idx) as [s|]; [|done].
      by destruct (offset s =? off).
    - split; [done|]. by eapply window_inside. }
  destruct ((off <? dbgStmtStart w) || (dbgStmtNext w <=? off)) eqn:Ec.
  - destruct Hloc as [[-> Hall]|(n & e & -> & En & Hle & Hafter)].
    + simpl. split; [|exact Hfire]. intros off' [H1 H2]. simpl in H1, H2.
      assert (stmts d !! 0%nat = Some s0) as H0 by (by rewrite Ed).
      pose proof (stmts_ok_prev _ _ _ _ _ Hok H0). lia.
    + destruct (Z.ltb_spec (Z.of_nat n) 0); [lia|]. rewrite !Nat2Z.id, !En in *.
      apply Htail; [by eapply refreshed_ok|done|]. exists n, e. split_and!; done.
  - apply orb_false_iff in Ec as [Hlo%Z.ltb_ge Hhi%Z.leb_gt].
    apply Htail; [done|done|]. by apply Hw.
Qed.

(** The boundary test of the dispatch loop, for code below 4 GiB: the
    cached window changes nothing.  Whatever right window a frame carries, the
    test reports the last statement that starts exactly at the offset, and
    none when no statement starts there, and leaves a right window behind. *)
Theorem boundary_test_exact d codeSize off w :
  info_ok codeSize d = true -> codeSize < 0xfffffffe ->
  window_ok (stmts d) w ->
  let '(w', r) := statement_at d codeSize off w in
  window_ok (stmts d) w' /\ starts_at (stmts d) off r.
Proof. apply statement_at_spec. Qed.

Lemma fresh_window_ok ss : window_ok ss fresh_window.
Proof. intros off. simpl. lia. Qed.

Lemma boundary_test_exact_witness :
  let d := mkInfo [mkStmt 0 1 0 1; mkStmt 0 1 2 0; mkStmt 7 3 2 0] [] [] in
  statement_at d 9 7 fresh_window = (mkWindow 7 10, Some 2) /\
  starts_at (stmts d) 8 (snd (statement_at d 9 8 (mkWindow 7 10))).
Proof.
  split; [reflexivity|].
  apply (boundary_test_exact (mkInfo [mkStmt 0 1 0 1; mkStmt 0 1 2 0; mkStmt 7 3 2 0] [] []) 9 8
           (mkWindow 7 10)); [reflexivity|reflexivity|].
  intros off [H1 H2]. simpl in H1, H2. exists 2%nat, (mkStmt 7 3 2 0).
  split; [reflexivity|]. split; [reflexivity|].
  intros [|[|[|i]]] e'; simpl; try lia. by rewrite lookup_nil.
Defined.
End DebugInfo.
