(* ===== verification/StopCoordinator.v ===== *)
(** * StopCoordinator: the debugger's stop protocol
      (compiler/debug/StopCoordinator, with its parts of ExecutionDomain,
      Thread, ThreadManager, DebugWorker and DataflowEngine::DebugGate)

    A stop of one execution domain is all-or-nothing: it forms, commits once
    every member thread has acknowledged it and the dataflow gate is quiet, and
    is released by its owners (the debugger, the embedding host) or given up.

    The state is split in two.  The [core] is what threads and coordinator
    share: the domain's epoch, gate bits and release generation, the threads'
    ownership and acknowledgement words, the registry, the dataflow gate and
    the leases of a committed stop.  The rest is the coordinator's own: owners,
    the host's hold, the staged trap, what is reported, the worker's queue.

    Every coordinator call is one step here, up to where it waits, as is every
    turn a thread takes at a stop point.  In the program [controlMutex_] covers
    only the opening of the hold ([openHoldAndWake]) and the commit pass
    ([tryCommitPass]); between a call's parts other threads run, which the
    program's re-checks provide for: here they are redundant (the commit pass's
    second look at the members, [first_unacked]).  What lies below that grain (a publication overtaking a release, a thread
    overtaken between reading the interrupt bit and the epoch) is not modelled.

    A thread's place is explicit ([location]): outside the dispatch loop, between
    taking a queued call and claiming itself for it, at the loop's top, in user
    code (an instruction or a native call), or parked on a release generation. *)

From S2P Require Import Prelude Ustring DebugHandles DebugInfo.
From stdpp Require Import numbers pretty.

Module StopCoordinator.

Local Open Scope Z_scope.

(** ** Data *)

Inductive DebugStopReason := Pause | Breakpoint | Step | Exception | HostStop.
Inductive StopOwner := Debugger | Host.
Inductive HostPauseState := PauseIdle | PausePending | PauseStopped.

#[global] Instance DebugStopReason_eq_dec : EqDecision DebugStopReason.
Proof. solve_decision. Defined.

Definition ownerBit (o : StopOwner) : Z := match o with Debugger => 1 | Host => 2 end.

(** Bits of an unsigned word: [fetch_or], [fetch_and] of the complement, test. *)
Definition set_bits (x m : Z) : Z := Z.lor x m.
Definition clear_bits (w x m : Z) : Z := Z.land x (wrapU w (Z.lnot m)).
Definition has_bits (x m : Z) : bool := negb (Z.land x m =? 0).

Definition has_owner (owners : Z) (o : StopOwner) : bool := has_bits owners (ownerBit o).
Definition add_owner (owners : Z) (o : StopOwner) : Z := set_bits owners (ownerBit o).
Definition drop_owner (owners : Z) (o : StopOwner) : Z := clear_bits 8 owners (ownerBit o).

Definition IntrRuntimeError : Z := 1.
Definition IntrExit : Z := 2.
Definition IntrDebugStop : Z := 4.
Definition IntrDebugSlowPath : Z := 8.
Definition IntrLineAbort : Z := 16.

(** ExecutionDomain: the stop state; [coordinated] is [coordinator != nullptr]. *)
Record domain := mkDomain {
  stopEpoch : Z;
  admissionClosed : bool;
  releaseGeneration : Z;
  word : Z;
  coordinated : bool;
}.

Definition new_domain : domain := mkDomain 0 false 0 0 false.

Inductive ThreadKind := Main | Init | Repl | Actor | Dataflow.
Inductive DebugOwnership := Idle | Executing | StoppedExternal.
Inductive DebugStepMode := StepNone | StepIn | StepNext | StepOut.

#[global] Instance DebugOwnership_eq_dec : EqDecision DebugOwnership.
Proof. solve_decision. Defined.
#[global] Instance DebugStepMode_eq_dec : EqDecision DebugStepMode.
Proof. solve_decision. Defined.

Record frame := mkFrame {
  activationId : Z;
  fr_chunk : Z;
  fr_off : Z;                     (* ip - chunk->code.begin() *)
  isEventHandler : bool;
  fr_window : DebugInfo.window;   (* dbgStmtStart, dbgStmtNext *)
}.

(** Where a thread is.  [AtClaim]: an actor thread has taken a call off its
    queue and is about to claim itself for it.  [AtParked gen back]: waiting for
    the release generation to leave [gen], then going on at [back]. *)
Inductive location :=
| AtHost
| AtClaim
| AtTop
| AtCode
| AtParked (gen : Z) (back : location).

(** The frames and step state of a thread: its own, or the coordinator's while
    it is stopped. *)
Record stepping := mkStepping {
  frames : list frame;            (* innermost last, like the vector *)
  nextActivationId : Z;
  debugStepMode : DebugStepMode;
  debugStepActivation : Z;
  debugStepOriginIndex : Z;
  debugSuppress : option Z * Z * Z;   (* chunk, statement, activation *)
}.

Record thread := mkThread {
  t_domain : Z;
  t_kind : ThreadKind;
  debugOwnership : DebugOwnership;
  debugAckEpoch : Z;
  debugExecNesting : Z;
  debugExcluded : bool;
  dataflowEvalDepth : Z;
  t_sections : list location;     (* where each open section was entered, innermost first *)
  at_ : location;
  t_step : stepping;
}.

(** DataflowEngine::DebugGate. *)
Record DebugGate := mkGate { closed_ : bool; active_ : Z }.

Record core := mkCore {
  stopped : bool;
  forming : bool;
  bound : Z;                      (* the domain_ this coordinator is bound to *)
  domains : gmap Z domain;
  threads : gmap Z thread;
  registry : list Z;              (* ThreadManager's index, in iteration order *)
  gate : option DebugGate;        (* the dataflow engine's, when there is one *)
  epochLeases : list Z;
}.

Record StopInfo := mkInfo {
  i_reason : DebugStopReason;
  i_thread : Z;
  i_source : list Z;
  i_line : Z;
  i_description : string;
}.

(** The host's view: the hold and whether a DebugHostControl is installed. *)
Record hold := mkHold { holdActive : bool; holdGeneration : Z; hostControl : bool }.

Record trap := mkTrap {
  asyncPending : bool;
  trapChunk : option Z;
  trapStmt : Z;
  trapThread : Z;
  trapReason : DebugStopReason;
  stagedFailure : string;
}.

(** The commands the coordinator posts to its worker. *)
Inductive command := CmdReleaseHost | CmdReleaseExit.

Record control := mkControl {
  acceptingStops : bool;
  pending : bool;
  owners : Z;
  pendingWokenEpoch : Z;
  reason_ : DebugStopReason;
  slowPathDemand : Z;
  lastStopFailureUs : Z;
  excludedThread : option Z;
  controllerPresent : option bool;  (* the predicate's answer, when installed *)
  worker : option (list command);
  workerRetired : bool;
  stopInfo : option StopInfo;
  waitingFor : string;
}.

Record DebugHoldRequest := mkRequest {
  r_session : Z;
  r_generation : Z;
  r_epoch : Z;
  r_reason : DebugStopReason;
  r_thread : Z;
}.

(** The conversation with the embedding host: what it is told through
    DebugHostControl, and its own message that it has dropped the hold. *)
Inductive notice :=
| HoldRequested (r : DebugHoldRequest)
| HoldReasserted (r : DebugHoldRequest)
| DebugStopped (session generation epoch : Z)
| ContinueRequested (session generation : Z)
| StopFailed (session generation epoch : Z) (why : string)
| StepResumed (session generation thread : Z)
| SessionEnded (session : Z) (wasStopped : bool)
| HostDropped.

Record chunk := mkChunk { ch_source : Ustring.ustring; ch_debugInfo : option DebugInfo.DebugInfo }.

(** A blocking [requestStop] between two of its polls. *)
Inductive waiter :=
| JoinPending (hadDebugger : bool) (deadline : Z)
| AwaitQuiescence (epoch deadline : Z).

Record sys := mkSys {
  s_core : core;
  s_control : control;
  s_hold : hold;
  s_trap : trap;
  s_handles : DebugHandles.table (Value := Z);
  s_chunks : gmap Z chunk;
  s_clock : Z;                   (* TimePoint::currentTime().microSecs() *)
  s_waiter : option waiter;
  s_notices : list notice;       (* newest first *)
}.

Definition sessionId_ : Z := 1.

(** ** Field updates *)

Definition set_releaseGeneration (x : Z) (d : domain) : domain :=
  mkDomain (stopEpoch d) (admissionClosed d) x (word d) (coordinated d).
Definition set_word (x : Z) (d : domain) : domain :=
  mkDomain (stopEpoch d) (admissionClosed d) (releaseGeneration d) x (coordinated d).
Definition set_coordinated (x : bool) (d : domain) : domain :=
  mkDomain (stopEpoch d) (admissionClosed d) (releaseGeneration d) (word d) x.

Definition set_ownership (x : DebugOwnership) (t : thread) : thread :=
  mkThread (t_domain t) (t_kind t) x (debugAckEpoch t) (debugExecNesting t) (debugExcluded t)
    (dataflowEvalDepth t) (t_sections t) (at_ t) (t_step t).
Definition set_ack (x : Z) (t : thread) : thread :=
  mkThread (t_domain t) (t_kind t) (debugOwnership t) x (debugExecNesting t) (debugExcluded t)
    (dataflowEvalDepth t) (t_sections t) (at_ t) (t_step t).
Definition set_nesting (x : Z) (t : thread) : thread :=
  mkThread (t_domain t) (t_kind t) (debugOwnership t) (debugAckEpoch t) x (debugExcluded t)
    (dataflowEvalDepth t) (t_sections t) (at_ t) (t_step t).
Definition set_excluded (x : bool) (t : thread) : thread :=
  mkThread (t_domain t) (t_kind t) (debugOwnership t) (debugAckEpoch t) (debugExecNesting t) x
    (dataflowEvalDepth t) (t_sections t) (at_ t) (t_step t).
Definition set_at (x : location) (t : thread) : thread :=
  mkThread (t_domain t) (t_kind t) (debugOwnership t) (debugAckEpoch t) (debugExecNesting t)
    (debugExcluded t) (dataflowEvalDepth t) (t_sections t) x (t_step t).
Definition set_step (x : stepping) (t : thread) : thread :=
  mkThread (t_domain t) (t_kind t) (debugOwnership t) (debugAckEpoch t) (debugExecNesting t)
    (debugExcluded t) (dataflowEvalDepth t) (t_sections t) (at_ t) x.

Definition set_sections (depth : Z) (x : list location) (t : thread) : thread :=
  mkThread (t_domain t) (t_kind t) (debugOwnership t) (debugAckEpoch t) (debugExecNesting t)
    (debugExcluded t) depth x (at_ t) (t_step t).

Definition set_stopped (x : bool) (c : core) : core :=
  mkCore x (forming c) (bound c) (domains c) (threads c) (registry c) (gate c) (epochLeases c).
Definition set_forming (x : bool) (c : core) : core :=
  mkCore (stopped c) x (bound c) (domains c) (threads c) (registry c) (gate c) (epochLeases c).
Definition set_bound (x : Z) (c : core) : core :=
  mkCore (stopped c) (forming c) x (domains c) (threads c) (registry c) (gate c) (epochLeases c).
Definition set_domains (x : gmap Z domain) (c : core) : core :=
  mkCore (stopped c) (forming c) (bound c) x (threads c) (registry c) (gate c) (epochLeases c).
Definition set_threads (x : gmap Z thread) (c : core) : core :=
  mkCore (stopped c) (forming c) (bound c) (domains c) x (registry c) (gate c) (epochLeases c).
Definition set_registry (x : list Z) (c : core) : core :=
  mkCore (stopped c) (forming c) (bound c) (domains c) (threads c) x (gate c) (epochLeases c).
Definition set_gate (x : option DebugGate) (c : core) : core :=
  mkCore (stopped c) (forming c) (bound c) (domains c) (threads c) (registry c) x
    (epochLeases c).
Definition set_epochLeases (x : list Z) (c : core) : core :=
  mkCore (stopped c) (forming c) (bound c) (domains c) (threads c) (registry c) (gate c) x.

Definition set_acceptingStops (x : bool) (k : control) : control :=
  mkControl x (pending k) (owners k) (pendingWokenEpoch k) (reason_ k) (slowPathDemand k)
    (lastStopFailureUs k) (excludedThread k) (controllerPresent k) (worker k) (workerRetired k)
    (stopInfo k) (waitingFor k).
Definition set_pending (x : bool) (k : control) : control :=
  mkControl (acceptingStops k) x (owners k) (pendingWokenEpoch k) (reason_ k) (slowPathDemand k)
    (lastStopFailureUs k) (excludedThread k) (controllerPresent k) (worker k) (workerRetired k)
    (stopInfo k) (waitingFor k).
Definition set_owners (x : Z) (k : control) : control :=
  mkControl (acceptingStops k) (pending k) x (pendingWokenEpoch k) (reason_ k)
    (slowPathDemand k) (lastStopFailureUs k) (excludedThread k) (controllerPresent k) (worker k)
    (workerRetired k) (stopInfo k) (waitingFor k).
Definition set_pendingWokenEpoch (x : Z) (k : control) : control :=
  mkControl (acceptingStops k) (pending k) (owners k) x (reason_ k) (slowPathDemand k)
    (lastStopFailureUs k) (excludedThread k) (controllerPresent k) (worker k) (workerRetired k)
    (stopInfo k) (waitingFor k).
Definition set_reason_ (x : DebugStopReason) (k : control) : control :=
  mkControl (acceptingStops k) (pending k) (owners k) (pendingWokenEpoch k) x (slowPathDemand k)
    (lastStopFailureUs k) (excludedThread k) (controllerPresent k) (worker k) (workerRetired k)
    (stopInfo k) (waitingFor k).
Definition set_slowPathDemand (x : Z) (k : control) : control :=
  mkControl (acceptingStops k) (pending k) (owners k) (pendingWokenEpoch k) (reason_ k) x
    (lastStopFailureUs k) (excludedThread k) (controllerPresent k) (worker k) (workerRetired k)
    (stopInfo k) (waitingFor k).
Definition set_lastStopFailureUs (x : Z) (k : control) : control :=
  mkControl (acceptingStops k) (pending k) (owners k) (pendingWokenEpoch k) (reason_ k)
    (slowPathDemand k) x (excludedThread k) (controllerPresent k) (worker k) (workerRetired k)
    (stopInfo k) (waitingFor k).
Definition set_excludedThread (x : option Z) (k : control) : control :=
  mkControl (acceptingStops k) (pending k) (owners k) (pendingWokenEpoch k) (reason_ k)
    (slowPathDemand k) (lastStopFailureUs k) x (controllerPresent k) (worker k)
    (workerRetired k) (stopInfo k) (waitingFor k).
Definition set_controllerPresent (x : option bool) (k : control) : control :=
  mkControl (acceptingStops k) (pending k) (owners k) (pendingWokenEpoch k) (reason_ k)
    (slowPathDemand k) (lastStopFailureUs k) (excludedThread k) x (worker k) (workerRetired k)
    (stopInfo k) (waitingFor k).
Definition set_worker (x : option (list command)) (k : control) : control :=
  mkControl (acceptingStops k) (pending k) (owners k) (pendingWokenEpoch k) (reason_ k)
    (slowPathDemand k) (lastStopFailureUs k) (excludedThread k) (controllerPresent k) x
    (workerRetired k) (stopInfo k) (waitingFor k).
Definition set_workerRetired (x : bool) (k : control) : control :=
  mkControl (acceptingStops k) (pending k) (owners k) (pendingWokenEpoch k) (reason_ k)
    (slowPathDemand k) (lastStopFailureUs k) (excludedThread k) (controllerPresent k) (worker k)
    x (stopInfo k) (waitingFor k).
Definition set_stopInfo (x : option StopInfo) (k : control) : control :=
  mkControl (acceptingStops k) (pending k) (owners k) (pendingWokenEpoch k) (reason_ k)
    (slowPathDemand k) (lastStopFailureUs k) (excludedThread k) (controllerPresent k) (worker k)
    (workerRetired k) x (waitingFor k).
Definition set_waitingFor (x : string) (k : control) : control :=
  mkControl (acceptingStops k) (pending k) (owners k) (pendingWokenEpoch k) (reason_ k)
    (slowPathDemand k) (lastStopFailureUs k) (excludedThread k) (controllerPresent k) (worker k)
    (workerRetired k) (stopInfo k) x.

Definition set_s_core (x : core) (s : sys) : sys :=
  mkSys x (s_control s) (s_hold s) (s_trap s) (s_handles s) (s_chunks s) (s_clock s)
    (s_waiter s) (s_notices s).
Definition set_s_control (x : control) (s : sys) : sys :=
  mkSys (s_core s) x (s_hold s) (s_trap s) (s_handles s) (s_chunks s) (s_clock s) (s_waiter s)
    (s_notices s).
Definition set_s_hold (x : hold) (s : sys) : sys :=
  mkSys (s_core s) (s_control s) x (s_trap s) (s_handles s) (s_chunks s) (s_clock s)
    (s_waiter s) (s_notices s).
Definition set_s_trap (x : trap) (s : sys) : sys :=
  mkSys (s_core s) (s_control s) (s_hold s) x (s_handles s) (s_chunks s) (s_clock s)
    (s_waiter s) (s_notices s).
Definition set_s_handles (x : DebugHandles.table (Value := Z)) (s : sys) : sys :=
  mkSys (s_core s) (s_control s) (s_hold s) (s_trap s) x (s_chunks s) (s_clock s) (s_waiter s)
    (s_notices s).
Definition set_s_chunks (x : gmap Z chunk) (s : sys) : sys :=
  mkSys (s_core s) (s_control s) (s_hold s) (s_trap s) (s_handles s) x (s_clock s) (s_waiter s)
    (s_notices s).
Definition set_s_clock (x : Z) (s : sys) : sys :=
  mkSys (s_core s) (s_control s) (s_hold s) (s_trap s) (s_handles s) (s_chunks s) x (s_waiter s)
    (s_notices s).
Definition set_s_waiter (x : option waiter) (s : sys) : sys :=
  mkSys (s_core s) (s_control s) (s_hold s) (s_trap s) (s_handles s) (s_chunks s) (s_clock s) x
    (s_notices s).
Definition set_s_notices (x : list notice) (s : sys) : sys :=
  mkSys (s_core s) (s_control s) (s_hold s) (s_trap s) (s_handles s) (s_chunks s) (s_clock s)
    (s_waiter s) x.

Definition bound_domain (c : core) : domain := default new_domain (domains c !! bound c).
Definition on_domain (f : domain -> domain) (c : core) : core :=
  set_domains (<[bound c := f (bound_domain c)]> (domains c)) c.
Definition on_thread (id : Z) (f : thread -> thread) (c : core) : core :=
  set_threads (alter f id (threads c)) c.
Definition on_gate (f : DebugGate -> DebugGate) (c : core) : core :=
  set_gate (option_map f (gate c)) c.

Definition on_core (f : core -> core) (s : sys) : sys := set_s_core (f (s_core s)) s.
Definition on_control (f : control -> control) (s : sys) : sys :=
  set_s_control (f (s_control s)) s.
Definition on_trap (f : trap -> trap) (s : sys) : sys := set_s_trap (f (s_trap s)) s.

Definition currentEpoch (s : sys) : Z := stopEpoch (bound_domain (s_core s)).
Definition interrupt (s : sys) (bit : Z) : bool := has_bits (word (bound_domain (s_core s))) bit.

(** A hook of the host, when one is installed. *)
Definition notify (n : notice) (s : sys) : sys :=
  if hostControl (s_hold s) then set_s_notices (n :: s_notices s) s else s.

Definition describeThread (id : Z) (t : thread) : string :=
  (match t_kind t with
   | Main => "main" | Init => "init" | Repl => "repl" | Actor => "actor" | Dataflow => "dataflow"
   end ++ " thread #" ++ pretty id)%string.

(** ThreadManager::snapshotLeases: the registered threads of a domain. *)
Definition member_of (c : core) (d id : Z) : bool :=
  match threads c !! id with Some t => t_domain t =? d | None => false end.
Definition snapshotLeases (c : core) (d : Z) : list Z := base.filter (member_of c d) (registry c).

(** ** Publication *)

(** What [beginStop] publishes: epoch, admission gate, interrupt bit, dataflow
    gate. *)
Definition publish_stop (c : core) : core :=
  on_gate (fun g => mkGate true (active_ g))
    (on_domain (fun d => mkDomain (wrapU 64 (stopEpoch d + 1)) true (releaseGeneration d)
                           (set_bits (word d) IntrDebugStop) (coordinated d))
       (set_forming true c)).

Definition beginStop (reason : DebugStopReason) (s : sys) : sys * bool :=
  if negb (acceptingStops (s_control s)) then (s, false)
  else if stopped (s_core s) then (s, false)
  else if forming (s_core s) then (s, false)
  else (on_core publish_stop (on_control (set_reason_ reason) s), true).

(** The hold is opened by whoever flips [holdActive_]; a stop that forms while
    it is held re-asserts the current generation.  Waking sleepers changes
    nothing here: a woken thread re-reads its state. *)
Definition openHoldAndWake (epoch : Z) (reason : DebugStopReason) (threadId : Z) (s : sys) : sys :=
  let h := s_hold s in
  if holdActive h
  then notify (HoldReasserted (mkRequest sessionId_ (holdGeneration h) epoch reason threadId)) s
  else
    let generation := wrapU 64 (holdGeneration h + 1) in
    notify (HoldRequested (mkRequest sessionId_ generation epoch reason threadId))
      (set_s_hold (mkHold true generation (hostControl h)) s).

(** [holdActive_.exchange(false)] and the continue notice of whoever saw it
    held. *)
Definition release_hold (s : sys) : sys :=
  let h := s_hold s in
  if holdActive h
  then notify (ContinueRequested sessionId_ (holdGeneration h))
         (set_s_hold (mkHold false (holdGeneration h) (hostControl h)) s)
  else s.

(** ** Demand for the slow dispatch path *)

Definition ensureWorker (s : sys) : sys :=
  on_control (fun k =>
    if workerRetired k then k
    else match worker k with None => set_worker (Some []) k | Some _ => k end) s.

Definition kMaxCommands : nat := 1024.

Definition postToWorker (cmd : command) (s : sys) : sys :=
  on_control (fun k =>
    match worker k with
    | None => k
    | Some q => if (kMaxCommands <=? List.length q)%nat then k else set_worker (Some (q ++ [cmd])) k
    end) (ensureWorker s).

Definition addSlowPathDemand (s : sys) : sys :=
  let s := ensureWorker s in
  let demand := slowPathDemand (s_control s) in
  let s := on_control (set_slowPathDemand (wrapS 32 (demand + 1))) s in
  if demand =? 0
  then on_core (on_domain (fun d => set_word (set_bits (word d) IntrDebugSlowPath) d)) s
  else s.

Definition removeSlowPathDemand (s : sys) : sys :=
  let demand := slowPathDemand (s_control s) in
  let s := on_control (set_slowPathDemand (wrapS 32 (demand - 1))) s in
  if demand =? 1
  then on_core (on_domain (fun d => set_word (clear_bits 32 (word d) IntrDebugSlowPath) d)) s
  else s.

Definition disarm (st : stepping) : stepping :=
  mkStepping (frames st) (nextActivationId st) StepNone 0 0 (debugSuppress st).

Definition cancelStepIfArmed (id : Z) (s : sys) : sys :=
  match threads (s_core s) !! id with
  | None => s
  | Some t =>
      if decide (debugStepMode (t_step t) = StepNone) then s
      else removeSlowPathDemand
             (on_core (on_thread id (fun t => set_step (disarm (t_step t)) t)) s)
  end.

Definition cancelArmedStepsInEpoch (s : sys) : sys :=
  fold_left (fun s id => cancelStepIfArmed id s) (epochLeases (s_core s)) s.

(** ** Release *)

(** The [StoppedExternal -> Idle] exchange of one registered thread. *)
Definition unstop (t : thread) : thread :=
  if decide (debugOwnership t = StoppedExternal) then set_ownership Idle t else t.

Definition release_core (c : core) : core :=
  let d := bound c in
  let c := on_gate (fun g => mkGate false (active_ g)) c in
  let c := on_domain (fun dm => mkDomain (stopEpoch dm) false (releaseGeneration dm)
                                  (clear_bits 32 (word dm) IntrDebugStop) (coordinated dm)) c in
  let c := fold_left (fun c id => on_thread id unstop c) (snapshotLeases c d) c in
  let c := on_domain (fun dm => set_releaseGeneration (wrapU 64 (releaseGeneration dm + 1)) dm) c in
  set_epochLeases [] c.

Definition releaseAll (s : sys) : sys :=
  on_core release_core (set_s_handles (DebugHandles.clearForResume (s_handles s)) s).

Definition rollback (epoch : Z) (why : string) (s : sys) : sys :=
  let s := releaseAll s in
  let s := notify (StopFailed sessionId_ (holdGeneration (s_hold s)) epoch why) s in
  let s := on_core (set_forming false) s in
  let s := on_control (set_pending false) s in
  let s := on_control (set_waitingFor ""%string) s in
  on_control (set_lastStopFailureUs (s_clock s)) s.

Definition cancelPending (releaseHold : bool) (s : sys) : sys :=
  if negb (forming (s_core s)) then s
  else
    let s := releaseAll s in
    let s := on_core (set_forming false) s in
    let s := on_control (set_pending false) s in
    let s := on_control (fun k => set_waitingFor ""%string (set_stopInfo None k)) s in
    if releaseHold then release_hold s else s.

Definition resumeNow (releaseHold : bool) (s : sys) : sys :=
  if negb (stopped (s_core s)) then s
  else
    let s := on_core (set_stopped false) s in
    let s := on_control (set_stopInfo None) s in
    let s := releaseAll s in
    if releaseHold then release_hold s else s.

(** ** Commit *)

(** [VM::thread] of the caller, the registered in-VM controller, and service
    threads are not members. *)
Definition isController (controller : option Z) (s : sys) (id : Z) (t : thread) : bool :=
  bool_decide (controller = Some id)
  || bool_decide (excludedThread (s_control s) = Some id)
  || debugExcluded t.

Definition controllerOf (controller : option Z) (s : sys) (c : core) (id : Z) : bool :=
  match threads c !! id with Some t => isController controller s id t | None => true end.

(** One turn of the acknowledgement scan. *)
Definition scan_one (isC : Z -> thread -> bool) (epoch : Z)
    (acc : core * bool * string) (id : Z) : core * bool * string :=
  let '(c, allAcked, laggard) := acc in
  match threads c !! id with
  | None => acc
  | Some t =>
      if isC id t then acc
      else if epoch <=? debugAckEpoch t then acc
      else if decide (debugOwnership t = Idle)
      then (on_thread id (fun t => set_ack epoch (set_ownership StoppedExternal t)) c,
            allAcked, laggard)
      else (c, false, describeThread id t)
  end.

(** The membership revalidation: the first member not yet acknowledged. *)
Definition first_unacked (isC : Z -> thread -> bool) (epoch : Z) (c : core) (ids : list Z)
    : option (Z * thread) :=
  match base.filter (fun id =>
          match threads c !! id with
          | Some t => negb (isC id t) && (debugAckEpoch t <? epoch)
          | None => false
          end = true) ids with
  | [] => None
  | id :: _ => option_map (pair id) (threads c !! id)
  end.

Definition smallest (ids : list Z) : Z :=
  fold_left (fun chosen id => if (chosen =? 0) || (id <? chosen) then id else chosen) ids 0.

Definition has_frames (c : core) (id : Z) : bool :=
  match threads c !! id with
  | Some t => match frames (t_step t) with [] => false | _ => true end
  | None => false
  end.

(** The frozen member a pause reports: the smallest id with frames, else the
    smallest id. *)
Definition reported_thread (c : core) : Z :=
  let chosen := smallest (base.filter (fun id => has_frames c id = true) (epochLeases c)) in
  if negb (chosen =? 0) then chosen else smallest (epochLeases c).

Definition report_pause (s : sys) : sys :=
  on_control (fun k =>
    set_stopInfo
      (match stopInfo k with
       | Some i =>
           if bool_decide (i_reason i = Pause) || bool_decide (i_reason i = HostStop)
           then Some (mkInfo (i_reason i) (reported_thread (s_core s)) (i_source i) (i_line i)
                        (i_description i))
           else Some i
       | None => None
       end)
      (set_waitingFor ""%string k)) s.

Definition commit_core (c : core) : core := set_forming false (set_stopped true c).

Definition commit (controller : option Z) (epoch : Z) (again : list Z) (s : sys) : sys :=
  let members := base.filter (fun id => controllerOf controller s (s_core s) id = false) again in
  let s := on_core (fun c => set_epochLeases (epochLeases c ++ members) c) s in
  let s := report_pause s in
  let s := cancelArmedStepsInEpoch s in
  let s := on_core commit_core s in
  let s := on_control (set_pending false) s in
  notify (DebugStopped sessionId_ (holdGeneration (s_hold s)) epoch) s.

Definition quiesced (c : core) : bool :=
  match gate c with Some g => closed_ g && (active_ g =? 0) | None => true end.

(** One acknowledgement pass; [inl laggard] when the stop cannot commit yet. *)
Definition tryCommitPass (controller : option Z) (epoch : Z) (s : sys) : sys * (string + unit) :=
  if negb (forming (s_core s)) || negb (currentEpoch s =? epoch) then (s, inl ""%string)
  else
    let isC := isController controller s in
    let leases := snapshotLeases (s_core s) (bound (s_core s)) in
    let '(c, allAcked, laggard) :=
      fold_left (scan_one isC epoch) leases (s_core s, true, ""%string) in
    let s := set_s_core c s in
    let gateQuiet := quiesced c in
    let laggard :=
      if allAcked && negb gateQuiet && bool_decide (laggard = ""%string)
      then "dataflow evaluator still active"%string else laggard in
    if negb allAcked || negb gateQuiet then (s, inl laggard)
    else
      let again := snapshotLeases c (bound c) in
      match first_unacked isC epoch c again with
      | Some (id, t) => (s, inl (describeThread id t))
      | None => (commit controller epoch again s, inr tt)
      end.

(** ** The worker's turn on a pending stop *)

Definition pause_info (reason : DebugStopReason) : StopInfo := mkInfo reason 0 [] 0 ""%string.

Definition advancePendingStop (controller : option Z) (s : sys) : sys :=
  if negb (pending (s_control s)) then s
  else if negb (forming (s_core s)) then on_control (set_pending false) s
  else if owners (s_control s) =? 0
  then cancelPending (acceptingStops (s_control s)) s
  else
    let epoch := currentEpoch s in
    let s :=
      if pendingWokenEpoch (s_control s) =? epoch then s
      else
        let s := on_control (set_stopInfo (Some (pause_info HostStop))) s in
        let s := on_control (set_pendingWokenEpoch epoch) s in
        openHoldAndWake epoch HostStop 0 s in
    match tryCommitPass controller epoch s with
    | (s, inr _) => s
    | (s, inl laggard) => on_control (set_waitingFor laggard) s
    end.

(** ** The controllers' calls *)

Definition giveUp (epoch : Z) (why : string) (waiting : string) (owner : StopOwner) (s : sys) : sys :=
  if negb (forming (s_core s)) || negb (currentEpoch s =? epoch) then s
  else
    let s := on_control (fun k => set_owners (drop_owner (owners k) owner) k) s in
    if has_owner (owners (s_control s)) Host
    then on_control (fun k => set_pending true (set_waitingFor waiting k)) s
    else rollback epoch why s.

Definition requestHostPause (s : sys) : sys * HostPauseState :=
  let s := ensureWorker s in
  let s := on_control (fun k => set_owners (add_owner (owners k) Host) k) s in
  if stopped (s_core s) then (s, PauseStopped)
  else if forming (s_core s) then (s, PausePending)
  else
    match beginStop HostStop s with
    | (s, false) => (s, PauseIdle)
    | (s, true) =>
        let epoch := currentEpoch s in
        let s := on_control (fun k => set_waitingFor ""%string
                                        (set_stopInfo (Some (pause_info HostStop)) k)) s in
        let s := on_control (fun k => set_pending true (set_pendingWokenEpoch epoch k)) s in
        (openHoldAndWake epoch HostStop 0 s, PausePending)
    end.

Definition requestDebuggerPause (s : sys) : sys * HostPauseState :=
  let s := ensureWorker s in
  if stopped (s_core s) || forming (s_core s) then
    (on_control (fun k => set_owners (add_owner (owners k) Debugger) k) s,
     if stopped (s_core s) then PauseStopped else PausePending)
  else
    match beginStop Pause s with
    | (s, false) => (s, PauseIdle)
    | (s, true) =>
        let s := on_control (fun k => set_owners (add_owner (owners k) Debugger) k) s in
        let epoch := currentEpoch s in
        let s := on_control (fun k => set_waitingFor ""%string
                                        (set_stopInfo (Some (pause_info Pause)) k)) s in
        let s := on_control (fun k => set_pending true (set_pendingWokenEpoch epoch k)) s in
        (openHoldAndWake epoch Pause 0 s, PausePending)
    end.

Definition releaseHostPause (s : sys) : sys :=
  let before := owners (s_control s) in
  let s := on_control (set_owners (drop_owner before Host)) s in
  if negb (has_owner before Host) || negb (drop_owner before Host =? 0) then s
  else postToWorker CmdReleaseHost s.

Definition releaseForExit (s : sys) : sys :=
  let s := on_control (set_acceptingStops false) s in
  let s := on_control (fun k => set_owners (drop_owner (owners k) Debugger) k) s in
  postToWorker CmdReleaseExit s.

Definition run_command (cmd : command) (s : sys) : sys :=
  match cmd with
  | CmdReleaseHost =>
      if negb (owners (s_control s) =? 0) then s
      else if stopped (s_core s) then resumeNow true s
      else if pending (s_control s) then cancelPending true s
      else s
  | CmdReleaseExit =>
      if stopped (s_core s) then resumeNow false s
      else if pending (s_control s) then cancelPending false s
      else s
  end.

Definition holdDropped (s : sys) : sys * bool :=
  if stopped (s_core s) || forming (s_core s) then (s, false)
  else (notify HostDropped
          (set_s_hold (mkHold false (holdGeneration (s_hold s)) (hostControl (s_hold s))) s), true).

Definition resumeForShutdown (s : sys) : sys :=
  let s := on_control (fun k => set_pending false (set_owners 0 k)) s in
  if stopped (s_core s) then resumeNow false s
  else if forming (s_core s) then rollback (currentEpoch s) "VM shutting down" s
  else s.

Definition resume (releaseHold : bool) (s : sys) : sys :=
  let s := on_control (fun k => set_owners (drop_owner (owners k) Debugger) k) s in
  if has_owner (owners (s_control s)) Host then s
  else if negb (stopped (s_core s)) && pending (s_control s) then cancelPending releaseHold s
  else resumeNow releaseHold s.

Definition joinStop (owner : StopOwner) (s : sys) : sys * bool :=
  if negb (stopped (s_core s)) then (s, false)
  else (on_control (fun k => set_owners (add_owner (owners k) owner) k) s, true).

Definition beginExecution (s : sys) : sys :=
  let s := on_control (set_acceptingStops true) s in
  if has_owner (owners (s_control s)) Host then
    match beginStop HostStop s with
    | (s, true) => on_control (set_pending true) s
    | (s, false) => s
    end
  else s.

Definition endExecution (s : sys) : sys :=
  let s := on_control (set_acceptingStops false) s in
  let s := on_control (fun k => set_owners (drop_owner (owners k) Debugger) k) s in
  let s := on_control (set_pending false) s in
  if stopped (s_core s) then resumeNow false s
  else if forming (s_core s) || interrupt s IntrDebugStop
  then rollback (currentEpoch s) "execution ended" s
  else s.

(** Only between stops (asserted); the program does not wait for the threads of
    the last release to have left their parks, runs assume it ([valid]). *)
Definition rebind (d : Z) (s : sys) : sys :=
  let c := s_core s in
  if d =? bound c then s
  else
    let slow := 0 <? slowPathDemand (s_control s) in
    let old := set_coordinated false (bound_domain c) in
    let old := if slow then set_word (clear_bits 32 (word old) IntrDebugSlowPath) old else old in
    let new := default new_domain (domains c !! d) in
    let new := if slow then set_word (set_bits (word new) IntrDebugSlowPath) new else new in
    let s := set_s_core (set_bound d
               (set_domains (<[d := set_coordinated true new]> (<[bound c := old]> (domains c))) c)) s in
    on_control (set_pendingWokenEpoch 0) s.

Definition notifySessionEnd (s : sys) : sys :=
  notify (SessionEnded sessionId_ (stopped (s_core s))) s.

(** ** A blocking stop request

    [requestStop] polls: it joins a pending stop, or begins one and collects
    acknowledgements.  The caller's state between polls is a [waiter]; the
    deadline is compared with the clock at each poll. *)

Record StopOutcome := mkOutcome { o_stopped : bool; o_failure : string }.

Definition timed_out (laggard : string) : string :=
  if bool_decide (laggard = ""%string) then "stop timed out"%string
  else ("stop timed out waiting for " ++ laggard)%string.

Definition requestStop (controller : option Z) (reason : DebugStopReason) (timeout : Z) (s : sys)
    : sys * (StopOutcome + waiter) :=
  match beginStop reason s with
  | (s, false) =>
      if forming (s_core s) && pending (s_control s) then
        let had := has_owner (owners (s_control s)) Debugger in
        (on_control (fun k => set_owners (add_owner (owners k) Debugger) k) s,
         inr (JoinPending had (s_clock s + timeout)))
      else (s, inl (mkOutcome false "a stop is already forming or active"))
  | (s, true) =>
      let s := on_control (fun k => set_owners (add_owner (owners k) Debugger) k) s in
      let epoch := currentEpoch s in
      let s := on_control (set_stopInfo (Some (pause_info reason))) s in
      let s := on_control (set_pendingWokenEpoch epoch) s in
      (openHoldAndWake epoch reason (default 0 controller) s,
       inr (AwaitQuiescence epoch (s_clock s + timeout)))
  end.

Definition poll (controller : option Z) (w : waiter) (s : sys) : sys * (StopOutcome + waiter) :=
  match w with
  | JoinPending had deadline =>
      let s := advancePendingStop controller s in
      if stopped (s_core s) then (s, inl (mkOutcome true ""))
      else if negb (forming (s_core s)) || (deadline <=? s_clock s) then
        let s := if had then s
                 else on_control (fun k => set_owners (drop_owner (owners k) Debugger) k) s in
        (s, inl (mkOutcome false (timed_out (waitingFor (s_control s)))))
      else (s, inr w)
  | AwaitQuiescence epoch deadline =>
      match tryCommitPass controller epoch s with
      | (s, inr _) => (s, inl (mkOutcome true ""))
      | (s, inl laggard) =>
          if negb (forming (s_core s)) then (s, inl (mkOutcome false "the stop was withdrawn"))
          else if deadline <=? s_clock s
          then let why := timed_out laggard in
               (giveUp epoch why laggard Debugger s, inl (mkOutcome false why))
          else (s, inr w)
      end
  end.

(** ** Breakpoint, step and exception stops *)

Definition stopFailureBackoff : Z := 200000.

Definition tryBeginAsyncStop (reason : DebugStopReason) (threadId : Z) (ch : option Z)
    (stmtIndex : Z) (description : string) (s : sys) : sys * bool :=
  let k := s_control s in
  if match controllerPresent k with
     | Some p => match excludedThread k with None => negb p | Some _ => false end
     | None => false
     end
  then (s, false)
  else if s_clock s - lastStopFailureUs k <? stopFailureBackoff then (s, false)
  else
    match beginStop reason s with
    | (s, false) => (s, false)
    | (s, true) =>
        let s := on_control (fun k => set_owners (add_owner (owners k) Debugger) k) s in
        (on_trap (fun t => mkTrap true ch stmtIndex threadId reason
                             (if bool_decide (description = ""%string) then stagedFailure t
                              else description)) s, true)
    end.

Definition trap_info (s : sys) : StopInfo :=
  let t := s_trap s in
  let loc :=
    match trapChunk t with
    | None => ([], 0)
    | Some ch =>
        match s_chunks s !! ch with
        | None => ([], 0)
        | Some ch =>
            (Ustring.encodeUTF8 (ch_source ch),
             match ch_debugInfo ch with
             | Some di => match DebugInfo.stmts di !! Z.to_nat (trapStmt t) with
                          | Some e => DebugInfo.line e
                          | None => 0
                          end
             | None => 0
             end)
        end
    end in
  mkInfo (trapReason t) (trapThread t) (fst loc) (snd loc)
    (if decide (trapReason t = Exception) then stagedFailure t else ""%string).

Definition completeAsyncStop (controller : option Z) (s : sys) : sys :=
  let t := s_trap s in
  if negb (asyncPending t) then s
  else
    let s := on_trap (fun t => mkTrap false (trapChunk t) (trapStmt t) (trapThread t)
                                 (trapReason t) (stagedFailure t)) s in
    let epoch := currentEpoch s in
    let s := if decide (trapReason t = Step) then removeSlowPathDemand s else s in
    let s := on_control (set_stopInfo (Some (trap_info s))) s in
    let s := if decide (trapReason t = Exception)
             then on_trap (fun t => mkTrap (asyncPending t) (trapChunk t) (trapStmt t)
                                      (trapThread t) (trapReason t) ""%string) s
             else s in
    let s := on_control (set_pendingWokenEpoch epoch) s in
    let s := openHoldAndWake epoch (trapReason t) (trapThread t) s in
    match tryCommitPass controller epoch s with
    | (s, inr _) => s
    | (s, inl laggard) =>
        if negb (forming (s_core s)) || negb (currentEpoch s =? epoch) then s
        else on_control (fun k => set_pending true (set_waitingFor laggard k)) s
    end.

(** One turn of DebugWorker::run: complete a published trap, advance a pending
    stop, then run the posted commands. *)
Definition worker_turn (s : sys) : sys :=
  match worker (s_control s) with
  | None => s
  | Some cmds =>
      let s := on_control (set_worker (Some [])) s in
      let s := completeAsyncStop None s in
      let s := advancePendingStop None s in
      fold_left (fun s cmd => run_command cmd s) cmds s
  end.

Definition shutdownWorker (s : sys) : sys :=
  on_control (fun k => set_worker None (set_workerRetired true k)) s.

Definition stoppedInfo (s : sys) : option StopInfo :=
  if stopped (s_core s) then stopInfo (s_control s) else None.

Record PauseStatus := mkStatus {
  p_host : bool; p_debugger : bool; p_stopped : bool; p_pending : bool; p_waitingFor : string
}.

Definition pauseStatus (s : sys) : PauseStatus :=
  let p := negb (stopped (s_core s)) && forming (s_core s) && pending (s_control s) in
  mkStatus (has_owner (owners (s_control s)) Host) (has_owner (owners (s_control s)) Debugger)
    (stopped (s_core s)) p (if p then waitingFor (s_control s) else ""%string).

(** ** Stepping *)

Definition last_frame (st : stepping) : option frame := last (frames st).

(** Arm a step at the innermost frame, assigning its activation id on first
    use, and suppress the statement the thread is parked exactly at. *)
Definition arm (s : sys) (mode : DebugStepMode) (st : stepping) : stepping :=
  match last_frame st with
  | None => st
  | Some fr =>
      let fresh := activationId fr =? 0 in
      let act := if fresh then nextActivationId st else activationId fr in
      let next := if fresh then wrapU 64 (nextActivationId st + 1) else nextActivationId st in
      let origin := (List.length (frames st) - 1)%nat in
      let fr := mkFrame act (fr_chunk fr) (fr_off fr) (isEventHandler fr) (fr_window fr) in
      let suppress :=
        match s_chunks s !! fr_chunk fr with
        | Some ch =>
            match ch_debugInfo ch with
            | Some di =>
                let idx := DebugInfo.debugLocateStatement di (fr_off fr) in
                match DebugInfo.stmts di !! Z.to_nat idx with
                | Some e => if (0 <=? idx) && (DebugInfo.offset e =? fr_off fr)
                            then (Some (fr_chunk fr), idx, act) else debugSuppress st
                | None => debugSuppress st
                end
            | None => debugSuppress st
            end
        | None => debugSuppress st
        end in
      mkStepping (<[origin := fr]> (frames st)) next mode act (Z.of_nat origin) suppress
  end.

Definition stepAndResume (id : Z) (mode : DebugStepMode) (s : sys) : sys * bool :=
  match threads (s_core s) !! id with
  | None => (s, false)
  | Some t =>
      if negb (stopped (s_core s)) || bool_decide (mode = StepNone)
         || bool_decide (frames (t_step t) = [])
      then (s, false)
      else if has_owner (owners (s_control s)) Host then (s, false)
      else
        let s := cancelStepIfArmed id s in
        let s := on_core (on_thread id (fun t => set_step (arm s mode (t_step t)) t)) s in
        let s := addSlowPathDemand s in
        let s := resume false s in
        let s := if negb (stopped (s_core s))
                 then notify (StepResumed sessionId_ (holdGeneration (s_hold s)) id) s else s in
        (s, true)
  end.

(** ** The threads' side *)

Definition thread_epoch (c : core) (t : thread) : domain :=
  default new_domain (domains c !! t_domain t).
Definition stop_bit (c : core) (t : thread) : bool :=
  has_bits (word (thread_epoch c t)) IntrDebugStop.

(** ThreadManager::registerThread, with the admission gate: a thread created
    while a stop forms or is in force starts acknowledged and stopped, and is
    leased (addLateEpochLease). *)
Definition addLateEpochLease (id : Z) (c : core) : core :=
  match threads c !! id with
  | Some t =>
      if debugExcluded t then c
      else if stopped c || forming c then set_epochLeases (epochLeases c ++ [id]) c else c
  | None => c
  end.

Definition new_thread (d : Z) (kind : ThreadKind) : thread :=
  mkThread d kind Idle 0 0 false 0 [] AtHost (mkStepping [] 1 StepNone 0 0 (None, 0xffffffff, 0)).

Definition registerThread (id d : Z) (kind : ThreadKind) (c : core) : core :=
  let t := new_thread d kind in
  let dm := default new_domain (domains c !! d) in
  let c :=
    if admissionClosed dm then
      let c := set_threads
                 (<[id := set_ack (stopEpoch dm) (set_ownership StoppedExternal t)]> (threads c)) c in
      if coordinated dm then addLateEpochLease id c else c
    else set_threads (<[id := t]> (threads c)) c in
  set_registry (registry c ++ [id]) c.

(** The last reference to a thread goes: its destructor unregisters it. *)
Definition unregisterThread (id : Z) (c : core) : core :=
  set_registry (base.filter (fun i => i <> id) (registry c))
    (set_threads (delete id (threads c)) c).

(** Acknowledge and park; the thread goes on at [back] after the release, or at
    once when the bit is already clear.  Epoch, bit and generation are those of
    the coordinator's domain. *)
Definition ackAndPark (back : location) (id : Z) (c : core) : core :=
  match threads c !! id with
  | None => c
  | Some t =>
      if debugExcluded t || negb (has_bits (word (bound_domain c)) IntrDebugStop)
      then on_thread id (set_at back) c
      else on_thread id (fun t => set_at (AtParked (releaseGeneration (bound_domain c)) back)
                                    (set_ack (stopEpoch (bound_domain c)) t)) c
  end.

Definition ackNoPark (id : Z) (c : core) : core :=
  on_thread id (set_ack (stopEpoch (bound_domain c))) c.

(** The wait's predicate. *)
Definition wake (id : Z) (c : core) : core :=
  match threads c !! id with
  | Some t =>
      match at_ t with
      | AtParked gen back =>
          if releaseGeneration (bound_domain c) =? gen then c else on_thread id (set_at back) c
      | _ => c
      end
  | None => c
  end.

(** The stop point of the program's own persistent loops: nothing unless the
    thread's own word has the stop bit. *)
Definition debugStopParkIfRequested (id : Z) (c : core) : core :=
  match threads c !! id with
  | None => c
  | Some t =>
      if negb (stop_bit c t) || (0 <? dataflowEvalDepth t) || debugExcluded t then c
      else ackAndPark (at_ t) id c
  end.

(** One turn of admitOrPark's loop. *)
Inductive admission := Admitted_ | Refused | Parked.

Definition admitOrPark (canPark : bool) (id : Z) (c : core) : core * admission :=
  match threads c !! id with
  | None => (c, Refused)
  | Some t =>
      if debugExcluded t then (on_thread id (set_ownership Executing) c, Admitted_)
      else if 0 <? dataflowEvalDepth t then (c, Admitted_)
      else if decide (debugOwnership t = StoppedExternal) then
        if canPark then (ackAndPark AtHost id c, Parked) else (c, Refused)
      else if admissionClosed (bound_domain c) then
        if canPark then (ackAndPark AtHost id c, Parked) else (ackNoPark id c, Refused)
      else
        match debugOwnership t with
        | Idle => (on_thread id (set_ownership Executing) c, Admitted_)
        | Executing => (c, Admitted_)
        | StoppedExternal => (c, Parked)
        end
  end.

(** Entering [VM::execute]: the fast path claims an idle thread while no stop is
    pending; an RT caller ([rt]) is refused, never parked.  A nested execution
    (an execution's native callback) skips admission. *)
Definition enter_execute (rt : bool) (id : Z) (c : core) : core :=
  match threads c !! id with
  | None => c
  | Some t =>
      let '(c, a) :=
        if debugExecNesting t =? 0 then
          if negb (stop_bit c t) && bool_decide (debugOwnership t = Idle)
          then (on_thread id (set_ownership Executing) c, Admitted_)
          else admitOrPark (negb rt) id c
        else (c, Admitted_) in
      match a with
      | Admitted_ => on_thread id (fun t => set_at AtTop (set_nesting (debugExecNesting t + 1) t)) c
      | Refused | Parked => c
      end
  end.

(** Leaving it (DebugExecScope's destructor). *)
Definition leave (t : thread) : thread :=
  let n := debugExecNesting t - 1 in
  if n =? 0 then set_at AtHost (set_ownership Idle (set_nesting n t))
  else set_at AtCode (set_nesting n t).

Definition leave_execute (id : Z) (c : core) : core := on_thread id leave c.

(** The dispatch loop's top: the cooperative stop point, else on to user code.
    [deferred]: a nested execution that must complete on an RT thread. *)
Definition loop_top (rt deferred : bool) (id : Z) (c : core) : core :=
  match threads c !! id with
  | None => c
  | Some t =>
      if stop_bit c t && (dataflowEvalDepth t =? 0) && negb deferred && negb (debugExcluded t)
      then if rt then leave_execute id (ackNoPark id c) else ackAndPark AtTop id c
      else on_thread id (set_at AtCode) c
  end.

(** An actor thread takes a queued call unless a stop holds the queue. *)
Definition pop_call (id : Z) (c : core) : core :=
  match threads c !! id with
  | None => c
  | Some t => if stop_bit c t && negb (debugExcluded t) then c else on_thread id (set_at AtClaim) c
  end.

(** ActorDispatchOwnership: it claims itself for the call it took. *)
Definition claim_dispatch (id : Z) (c : core) : core :=
  match threads c !! id with
  | None => c
  | Some t =>
      match debugOwnership t with
      | StoppedExternal => debugStopParkIfRequested id c
      | Idle | Executing =>
          on_thread id (fun t => set_at AtCode
                          (set_nesting (debugExecNesting t + 1) (set_ownership Executing t))) c
      end
  end.

(** Sections of the dataflow gate.  [work_section]: counted entry that waits
    for a closed gate to reopen unless nested or on an RT thread;
    [try_section]: rejectable entry. *)
Definition enter_gate (id : Z) (c : core) : core :=
  on_thread id (fun t => set_sections (dataflowEvalDepth t + 1) (at_ t :: t_sections t) t)
    (on_gate (fun g => mkGate (closed_ g) (active_ g + 1)) c).

Definition work_section (rt : bool) (id : Z) (c : core) : core :=
  match threads c !! id, gate c with
  | Some t, Some g =>
      if negb (closed_ g) || (0 <? dataflowEvalDepth t) || rt then enter_gate id c else c
  | _, _ => c
  end.

Definition try_section (id : Z) (c : core) : core :=
  match gate c with
  | Some g => if closed_ g then c else enter_gate id c
  | None => c
  end.

Definition leave_section (id : Z) (c : core) : core :=
  on_thread id (fun t => set_sections (dataflowEvalDepth t - 1) (tail (t_sections t)) t)
    (on_gate (fun g => mkGate (closed_ g) (active_ g - 1)) c).

(** ** Runs

    A label is one call or one turn; [valid] says when it can happen, [run] what
    it does. *)

Inductive label :=
| LRequestHostPause | LRequestDebuggerPause | LReleaseHostPause | LReleaseForExit
| LHoldDropped | LShutdown | LResume (releaseHold : bool) | LJoin (o : StopOwner)
| LBeginExecution | LEndExecution | LRebind (d : Z) | LSessionEnd
| LRequestStop (controller : option Z) (reason : DebugStopReason) (timeout : Z)
| LPoll (controller : option Z)
| LTrap (reason : DebugStopReason) (thread : Z) (ch : option Z) (stmt : Z) (description : string)
| LWorker | LShutdownWorker
| LStep (id : Z) (mode : DebugStepMode) | LCancelStep (id : Z)
| LAddDemand | LRemoveDemand
| LClock (t : Z) | LExcludedThread (o : option Z) | LControllerPresent (o : option bool)
| LHandle (h : DebugHandles.DebugHandle (Value := Z)) | LChunk (id : Z) (ch : chunk)
| LRegister (id d : Z) (kind : ThreadKind) | LUnregister (id : Z) | LMarkExcluded (id : Z)
| LPark (id : Z) | LWake (id : Z) | LEnter (rt : bool) (id : Z) | LLeave (id : Z)
| LTop (rt deferred : bool) (id : Z) | LInstr (id : Z) (frames' : list frame)
| LPop (id : Z) | LClaim (id : Z)
| LWork (rt : bool) (id : Z) | LTry (id : Z) | LLeaveSection (id : Z).

(** The thread exists and satisfies [P]. *)
Definition thread_is (s : sys) (id : Z) (P : thread -> Prop) : Prop :=
  exists t, threads (s_core s) !! id = Some t /\ P t.

(** Not parked. *)
Definition plain (l : location) : Prop := match l with AtParked _ _ => False | _ => True end.

Definition valid (l : label) (s : sys) : Prop :=
  match l with
  | LRebind d =>
      stopped (s_core s) = false /\ forming (s_core s) = false /\ s_waiter s = None /\
      (forall id t, threads (s_core s) !! id = Some t -> plain (at_ t))
  | LRequestStop _ _ _ => s_waiter s = None
  | LRegister id _ _ => 0 < id /\ threads (s_core s) !! id = None
  | LUnregister id =>
      id ∉ epochLeases (s_core s) /\
      thread_is s id (fun t => at_ t = AtHost /\ t_sections t = [])
  | LPark id => thread_is s id (fun t => at_ t = AtCode \/ at_ t = AtHost)
  | LEnter _ id => thread_is s id (fun t =>
      (at_ t = AtHost /\ debugExecNesting t = 0 /\ debugOwnership t <> Executing) \/
      (at_ t = AtCode /\ 0 < debugExecNesting t))
  | LLeave id => thread_is s id (fun t => (at_ t = AtTop \/ at_ t = AtCode) /\
                   0 < debugExecNesting t /\
                   (debugExecNesting t = 1 -> Forall (eq AtHost) (t_sections t)))
  | LTop rt deferred id =>
      thread_is s id (fun t => at_ t = AtTop /\ (rt = true -> debugExecNesting t = 1) /\
                               (deferred = true -> 1 < debugExecNesting t))
  | LInstr id _ => thread_is s id (fun t => at_ t = AtCode)
  | LPop id => thread_is s id (fun t => at_ t = AtHost /\ debugExecNesting t = 0 /\
                                        t_sections t = [])
  | LClaim id => thread_is s id (fun t => at_ t = AtClaim)
  | LWork _ id => thread_is s id (fun t => at_ t = AtCode \/
                                           (at_ t = AtHost /\ t_sections t <> []))
  | LTry id => thread_is s id (fun t => at_ t = AtHost \/ at_ t = AtCode)
  | LLeaveSection id => thread_is s id (fun t => head (t_sections t) = Some (at_ t))
  | _ => True
  end.

Definition record_waiter (w : sys * (StopOutcome + waiter)) : sys :=
  let '(s, r) := w in
  set_s_waiter (match r with inl _ => None | inr w => Some w end) s.

Definition run (l : label) (s : sys) : sys :=
  match l with
  | LRequestHostPause => fst (requestHostPause s)
  | LRequestDebuggerPause => fst (requestDebuggerPause s)
  | LReleaseHostPause => releaseHostPause s
  | LReleaseForExit => releaseForExit s
  | LHoldDropped => fst (holdDropped s)
  | LShutdown => resumeForShutdown s
  | LResume h => resume h s
  | LJoin o => fst (joinStop o s)
  | LBeginExecution => beginExecution s
  | LEndExecution => endExecution s
  | LRebind d => rebind d s
  | LSessionEnd => notifySessionEnd s
  | LRequestStop ctl reason timeout => record_waiter (requestStop ctl reason timeout s)
  | LPoll ctl => match s_waiter s with Some w => record_waiter (poll ctl w s) | None => s end
  | LTrap reason id ch stmt descr => fst (tryBeginAsyncStop reason id ch stmt descr s)
  | LWorker => worker_turn s
  | LShutdownWorker => shutdownWorker s
  | LStep id mode => fst (stepAndResume id mode s)
  | LCancelStep id => cancelStepIfArmed id s
  | LAddDemand => addSlowPathDemand s
  | LRemoveDemand => removeSlowPathDemand s
  | LClock t => set_s_clock t s
  | LExcludedThread o => on_control (set_excludedThread o) s
  | LControllerPresent o => on_control (set_controllerPresent o) s
  | LHandle h => set_s_handles (fst (DebugHandles.create h (s_handles s))) s
  | LChunk id ch => set_s_chunks (<[id := ch]> (s_chunks s)) s
  | LRegister id d kind => on_core (registerThread id d kind) s
  | LUnregister id => on_core (unregisterThread id) s
  | LMarkExcluded id => on_core (on_thread id (set_excluded true)) s
  | LPark id => on_core (debugStopParkIfRequested id) s
  | LWake id => on_core (wake id) s
  | LEnter rt id => on_core (enter_execute rt id) s
  | LLeave id => on_core (leave_execute id) s
  | LTop rt deferred id => on_core (loop_top rt deferred id) s
  | LInstr id fs =>
      on_core (on_thread id (fun t =>
        set_at AtTop (set_step (mkStepping fs (nextActivationId (t_step t))
          (debugStepMode (t_step t)) (debugStepActivation (t_step t))
          (debugStepOriginIndex (t_step t)) (debugSuppress (t_step t))) t))) s
  | LPop id => on_core (pop_call id) s
  | LClaim id => on_core (claim_dispatch id) s
  | LWork rt id => on_core (work_section rt id) s
  | LTry id => on_core (try_section id) s
  | LLeaveSection id => on_core (leave_section id) s
  end.

(** The 64-bit counters have not run out (2^64 stops of one session). *)
Definition no_wrap (s : sys) : Prop :=
  (forall d dm, domains (s_core s) !! d = Some dm ->
     stopEpoch dm < 2 ^ 64 - 1 /\ releaseGeneration dm < 2 ^ 64 - 1) /\
  holdGeneration (s_hold s) < 2 ^ 64 - 1.

Definition step (s s' : sys) : Prop :=
  exists l, no_wrap s /\ valid l s /\ s' = run l s.

Definition init_core (g : option DebugGate) : core :=
  mkCore false false 0 {[ 0 := mkDomain 0 false 0 0 true ]} ∅ [] g [].

(** A coordinator just constructed on domain 0, with or without a dataflow
    engine and an embedding host. *)
Definition init (engine host : bool) (clock : Z) : sys :=
  mkSys (init_core (if engine then Some (mkGate false 0) else None))
    (mkControl true false 0 0 Pause 0 0 None None None false None "")
    (mkHold false 0 host) (mkTrap false None 0 0 Pause "")
    DebugHandles.empty_table ∅ clock None [].

Definition reachable (engine host : bool) (clock : Z) (s : sys) : Prop :=
  rtc step (init engine host clock) s.

End StopCoordinator.
