(* ===== verification/StopInvariant.v ===== *)
(** * StopInvariant: what every state of the stop protocol satisfies

    The invariant [core_ok] of the state the coordinator shares with the program's
    threads, and its preservation: first by the moves of one thread, then by what
    the coordinator does to all of them (publication, release, the
    acknowledgement scan, the commit). *)

From S2P Require Import Prelude Ustring DebugHandles DebugInfo StopCoordinator.
From stdpp Require Import numbers pretty.

Module StopInvariant.

Import StopCoordinator.
Local Open Scope Z_scope.

(** ** Invariant of the shared state *)

Definition active (c : core) : bool := stopped c || forming c.

Definition place (l : location) : location := match l with AtParked _ back => back | _ => l end.

(** Not running user code and not about to: outside the dispatch loop, stopped
    before a claim, or parked on the current release generation ([gen]). *)
Definition quiet (gen : Z) (t : thread) : Prop :=
  match place (at_ t) with
  | AtHost => True
  | AtClaim => debugOwnership t = StoppedExternal
  | back => at_ t = AtParked gen back
  end.

(** In user code, or going there as soon as a park ends. *)
Definition dispatching (l : location) : Prop := place l = AtTop \/ place l = AtCode.

(** A thread, in a state where a stop is ([act]) or is not under way on domain
    [bd]. *)
Record thread_ok (act : bool) (bd : Z) (dms : gmap Z domain) (t : thread) : Prop := {
  tk_ack : debugAckEpoch t <= stopEpoch (default new_domain (dms !! t_domain t));
  tk_depth : dataflowEvalDepth t = Z.of_nat (List.length (t_sections t));
  tk_external : debugOwnership t = StoppedExternal -> act = true /\ t_domain t = bd;
  tk_parked : forall gen back, at_ t = AtParked gen back ->
    t_sections t = [] /\ plain back /\
    gen <= releaseGeneration (default new_domain (dms !! bd)) /\
    (gen = releaseGeneration (default new_domain (dms !! bd)) -> act = true);
  tk_owner : debugExcluded t = false -> dispatching (at_ t) ->
    debugOwnership t = Executing \/ last (t_sections t) = Some AtHost;
  tk_claim : at_ t = AtClaim -> t_sections t = [];
  tk_host : at_ t = AtHost -> Forall (eq AtHost) (t_sections t);
  tk_frozen : debugExcluded t = false -> act = true -> t_domain t = bd ->
    debugAckEpoch t = stopEpoch (default new_domain (dms !! bd)) ->
    match last (t_sections t) with
    | None => quiet (releaseGeneration (default new_domain (dms !! bd))) t
    | Some b => b = AtHost
    end;
}.

Record domain_ok (act : bool) (dm : domain) : Prop := {
  dk_epoch : 0 <= stopEpoch dm < 2 ^ 64;
  dk_gen : 0 <= releaseGeneration dm < 2 ^ 64;
  dk_closed : admissionClosed dm = act;
  dk_bit : has_bits (word dm) IntrDebugStop = act;
}.

Definition depth_of (c : core) (id : Z) : nat :=
  match threads c !! id with Some t => List.length (t_sections t) | None => 0 end.
Definition total_depth (c : core) : nat := sum_list_with (depth_of c) (registry c).

Record core_ok (c : core) : Prop := {
  ck_phase : stopped c = true -> forming c = false;
  ck_bound : is_Some (domains c !! bound c);
  ck_domains : forall d dm, domains c !! d = Some dm ->
    domain_ok (active c && (d =? bound c)) dm;
  ck_threads : forall id t, threads c !! id = Some t -> thread_ok (active c) (bound c) (domains c) t;
  ck_nodup : NoDup (registry c);
  ck_registry : forall id, id ∈ registry c <-> is_Some (threads c !! id);
  ck_gate : match gate c with
            | Some g => closed_ g = active c /\ active_ g = Z.of_nat (total_depth c)
            | None => total_depth c = 0%nat
            end;
  ck_running : active c = false -> epochLeases c = [];
  ck_leases : forall id, id ∈ epochLeases c -> exists t, threads c !! id = Some t /\
    t_domain t = bound c /\ debugAckEpoch t = stopEpoch (bound_domain c);
  ck_stopped : stopped c = true -> forall id t, id ∈ epochLeases c -> threads c !! id = Some t ->
    debugExcluded t = false -> t_sections t = [];
}.

(** ** Bits *)

Lemma stop_bit_set w : has_bits (set_bits w IntrDebugStop) IntrDebugStop = true.
Proof.
  unfold has_bits, set_bits, IntrDebugStop. rewrite Z.land_lor_distr_l.
  apply negb_true_iff, Z.eqb_neq. intros [_ H]%Z.lor_eq_0_iff. discriminate.
Qed.

Lemma stop_bit_clear w : has_bits (clear_bits 32 w IntrDebugStop) IntrDebugStop = false.
Proof.
  unfold has_bits, clear_bits, IntrDebugStop. rewrite <- Z.land_assoc.
  change (Z.land (wrapU 32 (Z.lnot 4)) 4) with 0. by rewrite Z.land_0_r.
Qed.

Lemma slow_bit_set w :
  has_bits (set_bits w IntrDebugSlowPath) IntrDebugStop = has_bits w IntrDebugStop.
Proof.
  unfold has_bits, set_bits, IntrDebugStop, IntrDebugSlowPath. rewrite Z.land_lor_distr_l.
  by rewrite Z.lor_0_r.
Qed.

Lemma slow_bit_clear w :
  has_bits (clear_bits 32 w IntrDebugSlowPath) IntrDebugStop = has_bits w IntrDebugStop.
Proof. unfold has_bits, clear_bits, IntrDebugStop, IntrDebugSlowPath. by rewrite <- Z.land_assoc. Qed.

(** ** Sums over the registry *)

Lemma sum_ext (f g : Z -> nat) l :
  (forall x, x ∈ l -> f x = g x) -> sum_list_with f l = sum_list_with g l.
Proof.
  induction l as [|x l IH]; intros H; [done|]. simpl. rewrite H by constructor.
  rewrite IH; [done|]. intros y Hy. apply H. by constructor.
Qed.

(** Changing the summand of one registered thread shifts the sum. *)
Lemma sum_shift (f g : Z -> nat) l x :
  NoDup l -> x ∈ l -> (forall y, y <> x -> f y = g y) ->
  (sum_list_with f l + g x = sum_list_with g l + f x)%nat.
Proof.
  intros Hnd Hx Hne. induction Hnd as [|y l Hy Hnd IH]; [set_solver|]. simpl.
  destruct (decide (x = y)) as [->|Hxy].
  - rewrite (sum_ext f g l); [lia|]. intros z Hz. apply Hne. set_solver.
  - apply elem_of_cons in Hx as [->|Hx]; [done|]. rewrite (Hne y) by done. specialize (IH Hx). lia.
Qed.

Lemma total_zero c id t :
  core_ok c -> threads c !! id = Some t -> total_depth c = 0%nat -> t_sections t = [].
Proof.
  intros Hc Ht H0. assert (depth_of c id = 0%nat) as Hd.
  { assert (id ∈ registry c) as Hin by (apply (ck_registry _ Hc); eauto).
    unfold total_depth in H0. clear -Hin H0. induction (registry c) as [|x l IH]; [set_solver|].
    simpl in H0. apply elem_of_cons in Hin as [->|Hin]; [lia|]. apply IH; [lia|done]. }
  unfold depth_of in Hd. rewrite Ht in Hd. by destruct (t_sections t).
Qed.

(** ** A step of one thread *)

(** What a thread may change about itself: nothing the leases rely on. *)
Record thread_step (c : core) (t t' : thread) : Prop := {
  ts_ok : thread_ok (active c) (bound c) (domains c) t';
  ts_domain : t_domain t' = t_domain t;
  ts_ack : debugAckEpoch t' = debugAckEpoch t \/
           debugAckEpoch t' = stopEpoch (default new_domain (domains c !! t_domain t));
  ts_excluded : debugExcluded t' = false -> debugExcluded t = false;
}.

Lemma on_thread_lookup id f c i :
  threads (on_thread id f c) !! i
  = if decide (i = id) then option_map f (threads c !! i) else threads c !! i.
Proof.
  unfold on_thread. cbn [threads set_threads]. case_decide as E.
  - subst. by rewrite lookup_alter_eq.
  - by rewrite lookup_alter_ne.
Qed.

Lemma on_thread_total id f c t :
  core_ok c -> threads c !! id = Some t ->
  (total_depth (on_thread id f c) + List.length (t_sections t)
   = total_depth c + List.length (t_sections (f t)))%nat.
Proof.
  intros Hc Ht. assert (id ∈ registry c) as Hin by (apply (ck_registry _ Hc); eauto).
  assert (depth_of (on_thread id f c) id = List.length (t_sections (f t))) as E1.
  { unfold depth_of. by rewrite on_thread_lookup, decide_True, Ht. }
  assert (depth_of c id = List.length (t_sections t)) as E2 by (unfold depth_of; by rewrite Ht).
  rewrite <- E1, <- E2. apply (sum_shift _ _ (registry c)); [apply (ck_nodup _ Hc)|done|].
  intros y Hy. unfold depth_of. by rewrite on_thread_lookup, decide_False.
Qed.

Lemma on_thread_missing id f c : threads c !! id = None -> on_thread id f c = c.
Proof.
  intros Ht. unfold on_thread. destruct c. unfold set_threads. cbn in *. f_equal.
  apply map_eq. intros i. destruct (decide (i = id)) as [->|].
  - by rewrite lookup_alter_eq, Ht.
  - by rewrite lookup_alter_ne.
Qed.

(** A thread that moves, entering ([k = 1]) or leaving ([k = -1]) a gate section
    or neither. *)
Lemma on_thread_gate_ok id f k c t :
  core_ok c -> threads c !! id = Some t -> thread_step c t (f t) ->
  Z.of_nat (List.length (t_sections (f t))) = Z.of_nat (List.length (t_sections t)) + k ->
  gate c <> None \/ k = 0 ->
  (stopped c = true -> id ∈ epochLeases c -> debugExcluded (f t) = false ->
   t_sections (f t) = []) ->
  core_ok (on_thread id f (on_gate (fun g => mkGate (closed_ g) (active_ g + k)) c)).
Proof.
  intros Hc Ht [Hok Hd Ha He] Hk Hg Hst.
  pose proof (on_thread_total id f c t Hc Ht) as Htot.
  assert (forall i u, threads (on_thread id f c) !! i = Some u ->
    (i = id /\ u = f t) \/ (i <> id /\ threads c !! i = Some u)) as Hl.
  { intros i u. rewrite on_thread_lookup. case_decide as E; [|tauto].
    subst. rewrite Ht. cbn. intros [= <-]. tauto. }
  destruct Hc as [H1 H2 H3 H4 H5 H6 H7 H8 H9 H10]. split.
  - exact H1.
  - exact H2.
  - exact H3.
  - intros i u [[-> ->]|[_ Hu]]%Hl; [done|by apply (H4 i)].
  - exact H5.
  - intros i. change (i ∈ registry c <-> is_Some (threads (on_thread id f c) !! i)).
    rewrite on_thread_lookup, (H6 i). case_decide as E; [|done]. subst. rewrite Ht. cbn. split; eauto.
  - clear H1 H2 H3 H4 H5 H6 H8 H9 H10 Hl Hst. revert H7 Hg.
    change (match gate c with
            | Some g => closed_ g = active c /\ active_ g = Z.of_nat (total_depth c)
            | None => total_depth c = 0%nat
            end -> gate c <> None \/ k = 0 -> match option_map (fun g => mkGate (closed_ g) (active_ g + k)) (gate c) with
            | Some g => closed_ g = active c /\
                        active_ g = Z.of_nat (total_depth (on_thread id f c))
            | None => total_depth (on_thread id f c) = 0%nat
            end).
    destruct (gate c) as [g|]; cbn [option_map closed_ active_]; intros H7 Hg; [|destruct Hg as [Hg|Hg]; [done|]; lia].
    destruct H7 as [H7 H7']. split; [done|lia].
  - exact H8.
  - intros i Hi. destruct (H9 i Hi) as (u & Hu & Hud & Hua).
    change (exists t, threads (on_thread id f c) !! i = Some t /\ t_domain t = bound c /\
              debugAckEpoch t = stopEpoch (bound_domain c)).
    rewrite on_thread_lookup. case_decide as E; [|eauto]. subst. rewrite Ht in Hu.
    injection Hu as <-. rewrite Ht. cbn. exists (f t). split; [done|]. split; [congruence|].
    destruct Ha as [->| ->]; [done|]. unfold bound_domain. by rewrite Hud.
  - intros Hs i u Hi [[-> ->]|[_ Hu]]%Hl Hex; [by apply Hst|by apply (H10 Hs i)].
Qed.

Lemma on_gate_same c : on_gate (fun g => mkGate (closed_ g) (active_ g + 0)) c = c.
Proof.
  destruct c as [st fm b d t r [[cl a]|] e]; unfold on_gate, set_gate; cbn; [|done].
  by rewrite Z.add_0_r.
Qed.

(** A thread that stays in the sections it is in. *)
Lemma on_thread_ok id f c :
  core_ok c ->
  (forall t, threads c !! id = Some t ->
     thread_step c t (f t) /\ t_sections (f t) = t_sections t) ->
  core_ok (on_thread id f c).
Proof.
  intros Hc Hf. destruct (threads c !! id) as [t|] eqn:Ht; [|by rewrite on_thread_missing].
  destruct (Hf t eq_refl) as [Hstep Hs]. rewrite <- (on_gate_same c) at 1.
  apply (on_thread_gate_ok id f 0 c t); [done|done|done|by rewrite Hs, Z.add_0_r|by right|].
  intros Hst Hi Hx. rewrite Hs. apply (ck_stopped _ Hc Hst id t Hi Ht).
  by apply (ts_excluded _ _ _ Hstep).
Qed.

(** ** Thread moves *)

(** [thread_ok] reads only where the thread is, what it owns and what it has
    acknowledged. *)
Lemma thread_ok_step act bd dms st t : thread_ok act bd dms t -> thread_ok act bd dms (set_step st t).
Proof. by intros []. Qed.

Lemma set_step_ok id f c :
  core_ok c -> core_ok (on_thread id (fun t => set_step (f t) t) c).
Proof.
  intros Hc. apply on_thread_ok; [done|]. intros t Ht. split; [|done].
  split; [|done|by left|done]. apply thread_ok_step, (ck_threads _ Hc id t Ht).
Qed.

Lemma set_excluded_ok id c : core_ok c -> core_ok (on_thread id (set_excluded true) c).
Proof.
  intros Hc. apply on_thread_ok; [done|]. intros t Ht. split; [|done].
  split; [|done|by left|done]. by destruct (ck_threads _ Hc id t Ht).
Qed.

(** A thread is frozen with respect to the stop under way when its stop bit is
    set: the bit is the domain's, and every bound domain's bit is [active]. *)
Lemma stop_bit_active c t :
  core_ok c -> stop_bit c t = active c && (t_domain t =? bound c).
Proof.
  intros Hc. unfold stop_bit, thread_epoch.
  destruct (domains c !! t_domain t) as [dm|] eqn:E; simpl.
  - apply (dk_bit _ _ (ck_domains _ Hc _ _ E)).
  - destruct (Z.eqb_spec (t_domain t) (bound c)) as [Eb|]; [|by rewrite andb_false_r].
    destruct (ck_bound _ Hc) as [dm Hdm]. congruence.
Qed.

Lemma closed_active c t :
  core_ok c -> admissionClosed (thread_epoch c t) = active c && (t_domain t =? bound c).
Proof.
  intros Hc. unfold thread_epoch.
  destruct (domains c !! t_domain t) as [dm|] eqn:E; simpl.
  - apply (dk_closed _ _ (ck_domains _ Hc _ _ E)).
  - destruct (Z.eqb_spec (t_domain t) (bound c)) as [Eb|]; [|by rewrite andb_false_r].
    destruct (ck_bound _ Hc) as [dm Hdm]. congruence.
Qed.

(** The bound domain's bit and gate are those of the stop under way. *)
Lemma bound_bit c :
  core_ok c -> has_bits (word (bound_domain c)) IntrDebugStop = active c /\
               admissionClosed (bound_domain c) = active c.
Proof.
  intros Hc. destruct (ck_bound _ Hc) as [dm Hdm]. unfold bound_domain. rewrite Hdm. cbn.
  destruct (ck_domains _ Hc _ _ Hdm) as [_ _ Dc Db]. by rewrite Dc, Db, Z.eqb_refl, andb_true_r.
Qed.

(** The moves that park or acknowledge, from a place outside every section. *)
Lemma park_ok c t back :
  core_ok c -> thread_ok (active c) (bound c) (domains c) t ->
  t_sections t = [] -> place (at_ t) = back -> plain back ->
  active c = true -> t_domain t = bound c ->
  (debugExcluded t = false -> back = AtClaim -> debugOwnership t = StoppedExternal) ->
  thread_ok (active c) (bound c) (domains c)
    (set_at (AtParked (releaseGeneration (bound_domain c)) back)
       (set_ack (stopEpoch (bound_domain c)) t)).
Proof.
  intros Hc [Ka Kd Ke Kp Ko Kc Kh Kf] Hs Hpl Hb Hact Hd Hext.
  unfold bound_domain. split; cbn [set_at set_ack t_domain debugAckEpoch debugOwnership debugExcluded
    dataflowEvalDepth t_sections at_ place]; try done.
  - rewrite Hd. lia.
  - intros gen b [= <- <-]. split_and!; [done|done|lia|done].
  - unfold dispatching in *. cbn [place]. rewrite <- Hpl. exact Ko.
  - intros Hx Ha Hd' Hack. rewrite Hs. unfold quiet. cbn [set_at set_ack at_ place debugOwnership].
    destruct back; try done. apply Hext; [done|]. congruence.
Qed.

Lemma thread_step_park c t back :
  core_ok c -> thread_ok (active c) (bound c) (domains c) t ->
  t_sections t = [] -> place (at_ t) = back -> plain back ->
  active c = true -> t_domain t = bound c ->
  (debugExcluded t = false -> back = AtClaim -> debugOwnership t = StoppedExternal) ->
  thread_step c t (set_at (AtParked (releaseGeneration (bound_domain c)) back)
                     (set_ack (stopEpoch (bound_domain c)) t)).
Proof.
  intros. split; [by apply park_ok|done| |done]. right. unfold bound_domain. cbn. congruence.
Qed.

(** A move of the place alone. *)
Lemma move_ok act bd dms t l :
  thread_ok act bd dms t ->
  plain l ->
  (debugExcluded t = false -> dispatching l ->
     debugOwnership t = Executing \/ last (t_sections t) = Some AtHost) ->
  (l = AtClaim -> t_sections t = []) ->
  (l = AtHost -> Forall (eq AtHost) (t_sections t)) ->
  (debugExcluded t = false -> act = true -> t_domain t = bd ->
     debugAckEpoch t = stopEpoch (default new_domain (dms !! bd)) ->
     t_sections t = [] -> quiet 0 (set_at l t)) ->
  thread_ok act bd dms (set_at l t).
Proof.
  intros [Ka Kd Ke Kp Ko Kc Kh Kf] Hl Howner Hclaim Hhost Hfrozen.
  split; cbn [set_at t_domain debugAckEpoch debugOwnership debugExcluded dataflowEvalDepth
    t_sections at_]; try done.
  - intros gen back ->. by destruct Hl.
  - intros Hx Ha Hd Hack. specialize (Kf Hx Ha Hd Hack).
    destruct (last (t_sections t)) eqn:El; [done|]. apply last_None in El.
    specialize (Hfrozen Hx Ha Hd Hack El). unfold quiet in *. cbn in *. by destruct l.
Qed.

(** A thread that is not frozen: no stop concerns it, or it has not
    acknowledged, or it is a service thread. *)
Lemma unfrozen_bit c t :
  core_ok c -> stop_bit c t = false -> active c = true -> t_domain t = bound c -> False.
Proof.
  intros Hc Hb Ha Hd. rewrite stop_bit_active, Ha, Hd, Z.eqb_refl in Hb by done. done.
Qed.

(** The thread's own acknowledgement, in place. *)
Lemma ackAndPark_ok c id back t :
  core_ok c -> threads c !! id = Some t ->
  t_sections t = [] -> at_ t = back -> plain back -> t_domain t = bound c ->
  (back = AtClaim -> debugOwnership t = StoppedExternal) ->
  core_ok (ackAndPark back id c).
Proof.
  intros Hc Ht Hs Hat Hpl Hd Hext. unfold ackAndPark. rewrite Ht.
  pose proof (ck_threads _ Hc id t Ht) as Hok.
  assert (place (at_ t) = back) as Hplace by (rewrite Hat; by destruct back).
  rewrite (proj1 (bound_bit c Hc)). destruct (debugExcluded t || negb (active c)) eqn:E.
  - apply on_thread_ok; [done|]. intros t' Ht'. replace t' with t by congruence. split; [|done].
    split; [|done|by left|done]. subst back. destruct t; exact Hok.
  - apply orb_false_iff in E as [_ E%negb_false_iff].
    apply on_thread_ok; [done|]. intros t' Ht'. replace t' with t by congruence. split; [|done].
    apply thread_step_park; auto.
Qed.

Lemma nesting_ok act bd dms n t : thread_ok act bd dms t -> thread_ok act bd dms (set_nesting n t).
Proof. by intros []. Qed.

Lemma ownership_ok act bd dms o t :
  thread_ok act bd dms t -> o <> StoppedExternal -> place (at_ t) = AtHost ->
  thread_ok act bd dms (set_ownership o t).
Proof.
  intros [Ka Kd Ke Kp Ko Kc Kh Kf] Ho Hpl.
  split; unfold dispatching, quiet in *; cbn in *; rewrite ?Hpl in *; try done.
  by intros _ [|].
Qed.

Lemma ack_ok c t :
  core_ok c -> thread_ok (active c) (bound c) (domains c) t ->
  t_sections t = [] -> at_ t = AtHost -> t_domain t = bound c ->
  thread_ok (active c) (bound c) (domains c) (set_ack (stopEpoch (bound_domain c)) t).
Proof.
  intros Hc [Ka Kd Ke Kp Ko Kc Kh Kf] Hs Hat Hd. unfold bound_domain.
  split; cbn [set_ack t_domain debugAckEpoch debugOwnership debugExcluded dataflowEvalDepth
    t_sections at_]; try done.
  - rewrite Hd. lia.
  - intros _ _ _ _. rewrite Hs. unfold quiet. cbn. by rewrite Hat.
Qed.

Lemma depth_zero act bd dms t :
  thread_ok act bd dms t -> (0 <? dataflowEvalDepth t) = false -> t_sections t = [].
Proof.
  intros Hok H%Z.ltb_ge. rewrite (tk_depth _ _ _ _ Hok) in H.
  destruct (t_sections t); [done|]. simpl in H. lia.
Qed.

Lemma depth_pos act bd dms t :
  thread_ok act bd dms t -> (0 <? dataflowEvalDepth t) = true -> t_sections t <> [].
Proof.
  intros Hok H%Z.ltb_lt. rewrite (tk_depth _ _ _ _ Hok) in H.
  by destruct (t_sections t).
Qed.

Lemma host_last act bd dms t :
  thread_ok act bd dms t -> at_ t = AtHost -> t_sections t <> [] ->
  last (t_sections t) = Some AtHost.
Proof.
  intros Hok Hat Hne. pose proof (tk_host _ _ _ _ Hok Hat) as Hall.
  destruct (last (t_sections t)) as [b|] eqn:E; [|by apply last_None in E].
  apply last_Some in E as [l' E]. rewrite E in Hall. apply Forall_app in Hall as [_ Hb].
  by apply Forall_cons_1 in Hb as [<- _].
Qed.

(** Once admitted, a thread starts dispatching. *)
Lemma enter_top_ok c id t :
  core_ok c -> threads c !! id = Some t ->
  (debugExcluded t = false -> debugOwnership t = Executing \/ last (t_sections t) = Some AtHost) ->
  (debugExcluded t = false -> active c = true -> t_domain t = bound c ->
     debugAckEpoch t = stopEpoch (default new_domain (domains c !! bound c)) ->
     t_sections t <> []) ->
  core_ok (on_thread id (fun t => set_at AtTop (set_nesting (debugExecNesting t + 1) t)) c).
Proof.
  intros Hc Ht Hown Hfz. apply on_thread_ok; [done|]. intros t' Ht'.
  replace t' with t by congruence. split; [|done]. split; [|done|by left|done].
  apply move_ok; [by apply nesting_ok, (ck_threads _ Hc id)|done|by intros Hx _; apply Hown|done|done|].
  intros Hx Ha Hd Hack Hs. by destruct (Hfz Hx Ha Hd Hack).
Qed.

Lemma claim_ok c id t o :
  core_ok c -> threads c !! id = Some t -> o <> StoppedExternal -> place (at_ t) = AtHost ->
  core_ok (on_thread id (set_ownership o) c) /\
  threads (on_thread id (set_ownership o) c) !! id = Some (set_ownership o t).
Proof.
  intros Hc Ht Ho Hpl. split.
  - apply on_thread_ok; [done|]. intros t' Ht'. replace t' with t by congruence. split; [|done].
    split; [|done|by left|done]. apply ownership_ok; [by apply (ck_threads _ Hc id)|done..].
  - by rewrite on_thread_lookup, decide_True, Ht.
Qed.

(** What admission leaves: a well-formed state, and if the thread is admitted, a
    thread entitled to run. *)
Lemma admitOrPark_ok canPark c id t :
  core_ok c -> threads c !! id = Some t -> at_ t = AtHost ->
  t_domain t = bound c ->
  core_ok (fst (admitOrPark canPark id c)) /\
  (snd (admitOrPark canPark id c) = Admitted_ ->
   active (fst (admitOrPark canPark id c)) = active c /\
   bound (fst (admitOrPark canPark id c)) = bound c /\
   domains (fst (admitOrPark canPark id c)) = domains c /\
   exists t', threads (fst (admitOrPark canPark id c)) !! id = Some t' /\
     (debugExcluded t' = false -> debugOwnership t' = Executing \/ last (t_sections t') = Some AtHost) /\
     (debugExcluded t' = false -> active c = true -> t_domain t' = bound c -> t_sections t' <> [])).
Proof.
  intros Hc Ht Hat Hdm. pose proof (ck_threads _ Hc id t Ht) as Hok.
  unfold admitOrPark. rewrite Ht. destruct (debugExcluded t) eqn:Hx.
  { destruct (claim_ok c id t Executing) as [H1 H2]; [done..|by rewrite Hat|]. split; [exact H1|].
    intros _. split_and!; [done..|]. exists (set_ownership Executing t). split; [exact H2|].
    cbn [set_ownership debugExcluded]. by rewrite Hx. }
  destruct (0 <? dataflowEvalDepth t) eqn:Hd.
  { split; [done|]. intros _. split_and!; [done..|]. exists t. split; [done|].
    pose proof (depth_pos _ _ _ _ Hok Hd). split; [|done]. intros _. right. by eapply host_last. }
  pose proof (depth_zero _ _ _ _ Hok Hd) as Hs.
  destruct (decide _) as [Hext|Hext].
  { destruct canPark; simpl; (split; [|done]); [|done]. by eapply ackAndPark_ok. }
  rewrite (proj2 (bound_bit c Hc)). destruct (active c) eqn:Hcl.
  { destruct canPark; simpl; (split; [|done]); [by eapply ackAndPark_ok|].
    apply on_thread_ok; [done|]. intros t' Ht'.
    replace t' with t by congruence. split; [|done].
    split; [apply ack_ok; [done|exact (ck_threads _ Hc id t Ht)|done..]|done| |done].
    right. unfold bound_domain. cbn. by rewrite Hdm. }
  destruct (debugOwnership t) eqn:Ho; [| |done]; simpl.
  - destruct (claim_ok c id t Executing) as [H1 H2]; [done..|by rewrite Hat|]. split; [exact H1|].
    intros _. split_and!; [done..|]. exists (set_ownership Executing t). split; [exact H2|].
    cbn. split; [by left|]. by intros _ [=].
  - split; [done|]. intros _. split_and!; [done..|]. exists t. split; [done|].
    rewrite Ho. split; [by left|]. by intros _ [=].
Qed.

Lemma enter_execute_ok rt c id t :
  core_ok c -> threads c !! id = Some t ->
  (at_ t = AtHost /\ debugExecNesting t = 0 /\ debugOwnership t <> Executing) \/
  (at_ t = AtCode /\ 0 < debugExecNesting t) ->
  core_ok (enter_execute rt id c).
Proof.
  intros Hc Ht Hat. pose proof (ck_threads _ Hc id t Ht) as Hok. unfold enter_execute. rewrite Ht.
  destruct Hat as [(Hat & Hn & Hne)|[Hat Hn]].
  - rewrite Hn, Z.eqb_refl.
    destruct (negb (stop_bit c t) && bool_decide (debugOwnership t = Idle)) eqn:Hfast.
    + apply andb_true_iff in Hfast as [Hb%negb_true_iff _].
      destruct (claim_ok c id t Executing) as [H1 H2]; [done..|by rewrite Hat|].
      apply (enter_top_ok _ _ _ H1 H2); cbn; [by left|].
      intros _ Ha Hd _. by destruct (unfrozen_bit c t Hc Hb Ha Hd).
    + destruct (admitOrPark_ok (negb rt) c id t Hc Ht Hat) as [H1 H2].
      { rewrite stop_bit_active in Hfast by done. destruct (debugOwnership t) eqn:Ho; [|done|].
        - rewrite andb_true_r in Hfast. apply negb_false_iff, andb_true_iff in Hfast as [_ Hd].
          by apply Z.eqb_eq.
        - by apply (tk_external _ _ _ _ Hok). }
      destruct (admitOrPark (negb rt) id c) as [c' a]. cbn [fst snd] in *.
      destruct a; [|done..]. destruct (H2 eq_refl) as (Ha & Hb & Hdm & t' & Ht' & Hown & Hfz).
      apply (enter_top_ok _ _ _ H1 Ht'); [done|]. rewrite Ha, Hb. eauto.
  - rewrite (proj2 (Z.eqb_neq _ _)) by lia. apply (enter_top_ok _ _ _ Hc Ht).
    + intros Hx. apply (tk_owner _ _ _ _ Hok Hx). rewrite Hat. by right.
    + intros Hx Ha Hd Hack Hs. pose proof (tk_frozen _ _ _ _ Hok Hx Ha Hd Hack) as Hf.
      rewrite Hs in Hf. unfold quiet in Hf. by rewrite Hat in Hf.
Qed.

Lemma wake_ok c id : core_ok c -> core_ok (wake id c).
Proof.
  intros Hc. unfold wake. destruct (threads c !! id) as [t|] eqn:Ht; [|done].
  destruct (at_ t) as [| | | |gen back] eqn:Hat; try done.
  destruct (Z.eqb_spec (releaseGeneration (bound_domain c)) gen) as [|Hne]; [done|].
  pose proof (ck_threads _ Hc id t Ht) as Hok.
  destruct (tk_parked _ _ _ _ Hok gen back Hat) as (Hs & Hpl & _).
  apply on_thread_ok; [done|]. intros t' Ht'. replace t' with t by congruence. split; [|done].
  split; [|done|by left|done]. apply move_ok; [done|done| |done| |].
  - intros Hx Hb. apply (tk_owner _ _ _ _ Hok Hx). rewrite Hat. unfold dispatching in *.
    by destruct back.
  - intros _. by rewrite Hs.
  - intros Hx Ha Hd Hack _. pose proof (tk_frozen _ _ _ _ Hok Hx Ha Hd Hack) as Hf.
    rewrite Hs in Hf. unfold quiet in *. rewrite Hat in Hf. cbn in *.
    assert (AtParked gen back <> AtParked (releaseGeneration (default new_domain (domains c !! bound c))) back)
      as Hg by (intros [= E]; by destruct Hne).
    by destruct back.
Qed.

Lemma leave_ok c id t :
  core_ok c -> threads c !! id = Some t -> at_ t = AtTop \/ at_ t = AtCode ->
  (debugExecNesting t = 1 -> Forall (eq AtHost) (t_sections t)) ->
  core_ok (leave_execute id c).
Proof.
  intros Hc Ht Hat Hrt. pose proof (ck_threads _ Hc id t Ht) as Hok.
  assert (debugExcluded t = false -> debugOwnership t = Executing \/ last (t_sections t) = Some AtHost)
    as Hown.
  { intros Hx. apply (tk_owner _ _ _ _ Hok Hx). unfold dispatching. destruct Hat as [-> | ->]; tauto. }
  apply on_thread_ok; [done|]. intros t' Ht'. replace t' with t by congruence. unfold leave.
  destruct (Z.eqb_spec (debugExecNesting t - 1) 0) as [En|En]; (split; [|done]).
  - assert (Forall (eq AtHost) (t_sections t)) as Hall by (apply Hrt; lia).
    split; [|done|by left|done]. destruct Hok as [Ka Kd Ke Kp Ko Kc Kh Kf].
    split; cbn [set_at set_ownership set_nesting t_domain debugAckEpoch debugOwnership debugExcluded
      dataflowEvalDepth t_sections at_ place]; try done; [intros _ H; by destruct H|].
    intros Hx Ha Hd Hack. specialize (Kf Hx Ha Hd Hack). by destruct (last (t_sections t)).
  - split; [|done|by left|done]. apply move_ok; [by apply nesting_ok|done| |done|done|].
    + intros Hx _. by apply Hown.
    + intros Hx Ha Hd Hack Hs. pose proof (tk_frozen _ _ _ _ Hok Hx Ha Hd Hack) as Hf.
      cbn in Hs. rewrite Hs in Hf. unfold quiet in Hf. by destruct Hat as [E|E]; rewrite E in Hf.
Qed.

(** The last acknowledgement of a slice: pause at the host. *)
Lemma pause_ok c id t :
  core_ok c -> threads c !! id = Some t -> at_ t = AtTop -> t_sections t = [] ->
  t_domain t = bound c ->
  debugExecNesting t = 1 -> core_ok (leave_execute id (ackNoPark id c)).
Proof.
  intros Hc Ht Hat Hs Hd Hn. pose proof (ck_threads _ Hc id t Ht) as Hok.
  replace (leave_execute id (ackNoPark id c))
    with (on_thread id (fun t => leave (set_ack (stopEpoch (bound_domain c)) t)) c).
  2: { unfold leave_execute, ackNoPark, on_thread, set_threads. cbn. f_equal.
       apply map_eq. intros i. destruct (decide (i = id)) as [->|];
         [by rewrite !lookup_alter_eq, Ht|by rewrite !lookup_alter_ne]. }
  apply on_thread_ok; [done|]. intros t' Ht'. replace t' with t by congruence. unfold leave.
  cbn [set_ack debugExecNesting]. rewrite Hn. simpl.
  split; [|done]. split; [|done| |done].
  2: { right. unfold bound_domain. cbn. by rewrite Hd. }
  destruct Hok as [Ka Kd Ke Kp Ko Kc Kh Kf].
  unfold bound_domain. split; unfold quiet, dispatching in *; cbn; rewrite ?Hs in *; try done.
  - rewrite Hd. lia.
  - by intros _ [|].
Qed.

(** The program's own stop point. *)
Lemma stop_bit_domain c t : core_ok c -> stop_bit c t = true -> t_domain t = bound c.
Proof.
  intros Hc Hb. rewrite stop_bit_active in Hb by done.
  apply andb_true_iff in Hb as [_ Hd]. by apply Z.eqb_eq.
Qed.

Lemma parkIfRequested_ok c id t :
  core_ok c -> threads c !! id = Some t -> plain (at_ t) ->
  (at_ t = AtClaim -> debugOwnership t = StoppedExternal) ->
  core_ok (debugStopParkIfRequested id c).
Proof.
  intros Hc Ht Hpl Hext. unfold debugStopParkIfRequested. rewrite Ht.
  destruct (negb _ || _ || _) eqn:E; [done|].
  apply orb_false_iff in E as [[Hb%negb_false_iff Hd]%orb_false_iff _].
  pose proof (ck_threads _ Hc id t Ht) as Hok.
  apply (ackAndPark_ok c id (at_ t) t); [done|done|by eapply depth_zero|done|done| |done].
  by apply stop_bit_domain.
Qed.

Lemma loop_top_ok rt deferred c id t :
  core_ok c -> threads c !! id = Some t -> at_ t = AtTop ->
  (rt = true -> debugExecNesting t = 1) -> core_ok (loop_top rt deferred id c).
Proof.
  intros Hc Ht Hat Hrt. unfold loop_top. rewrite Ht.
  pose proof (ck_threads _ Hc id t Ht) as Hok.
  destruct (stop_bit c t && (dataflowEvalDepth t =? 0) && negb deferred && negb (debugExcluded t))
    eqn:E.
  - rewrite !andb_true_iff in E. destruct E as (((Hb & Hd%Z.eqb_eq) & _) & _).
    pose proof (stop_bit_domain c t Hc Hb) as Hdm.
    assert (t_sections t = []) as Hs by (eapply depth_zero; [done|]; apply Z.ltb_ge; lia).
    destruct rt; [by eapply pause_ok; eauto|by eapply ackAndPark_ok].
  - apply on_thread_ok; [done|]. intros t' Ht'. replace t' with t by congruence. split; [|done].
    split; [|done|by left|done]. apply move_ok; [done|done| |done|done|].
    + intros Hx _. apply (tk_owner _ _ _ _ Hok Hx). rewrite Hat. by left.
    + intros Hx Ha Hd Hack Hs. pose proof (tk_frozen _ _ _ _ Hok Hx Ha Hd Hack) as Hf.
      rewrite Hs in Hf. unfold quiet in Hf. by rewrite Hat in Hf.
Qed.

Lemma pop_ok c id t :
  core_ok c -> threads c !! id = Some t -> at_ t = AtHost -> t_sections t = [] ->
  core_ok (pop_call id c).
Proof.
  intros Hc Ht Hat Hs. unfold pop_call. rewrite Ht.
  destruct (stop_bit c t && negb (debugExcluded t)) eqn:Hb; [done|].
  apply on_thread_ok; [done|]. intros t' Ht'. replace t' with t by congruence. split; [|done].
  split; [|done|by left|done].
  apply move_ok; [by apply (ck_threads _ Hc id)|done|by intros _ [|]|done|done|].
  intros Hx Ha Hd. rewrite Hx, andb_true_r in Hb. by destruct (unfrozen_bit c t Hc Hb Ha Hd).
Qed.

Lemma claim_dispatch_ok c id t :
  core_ok c -> threads c !! id = Some t -> at_ t = AtClaim ->
  core_ok (claim_dispatch id c).
Proof.
  intros Hc Ht Hat. unfold claim_dispatch. rewrite Ht.
  pose proof (ck_threads _ Hc id t Ht) as Hok. pose proof (tk_claim _ _ _ _ Hok Hat) as Hs.
  assert (debugOwnership t <> StoppedExternal ->
    core_ok (on_thread id (fun t => set_at AtCode
      (set_nesting (debugExecNesting t + 1) (set_ownership Executing t))) c)) as Hclaim.
  { intros Hne. apply on_thread_ok; [done|]. intros t' Ht'. replace t' with t by congruence.
    split; [|done]. split; [|done|by left|done]. destruct Hok as [Ka Kd Ke Kp Ko Kc Kh Kf].
    split; cbn [set_at set_ownership set_nesting t_domain debugAckEpoch debugOwnership debugExcluded
      dataflowEvalDepth t_sections at_ place]; try done; [by left|].
    intros Hx Ha Hd Hack. specialize (Kf Hx Ha Hd Hack). rewrite Hs in *. unfold quiet in Kf.
    by rewrite Hat in Kf. }
  destruct (debugOwnership t) eqn:Ho; [by apply Hclaim..|].
  eapply parkIfRequested_ok; [done|done|by rewrite Hat|done].
Qed.

(** ** Gate sections *)

Lemma enter_gate_ok c id t g :
  core_ok c -> threads c !! id = Some t -> gate c = Some g ->
  at_ t = AtCode \/ at_ t = AtHost ->
  (stopped c = true -> id ∈ epochLeases c -> debugExcluded t = false -> False) ->
  core_ok (enter_gate id c).
Proof.
  intros Hc Ht Hg Hat Hst. unfold enter_gate.
  apply (on_thread_gate_ok id _ 1 c t); [done|done| |cbn; lia|left; congruence|].
  2: { intros Hs Hi Hx. by destruct (Hst Hs Hi Hx). }
  pose proof (ck_threads _ Hc id t Ht) as Hok. split; [|done|by left|done].
  destruct Hok as [Ka Kd Ke Kp Ko Kc Kh Kf].
  assert (forall b, last (at_ t :: t_sections t) = Some b ->
    (t_sections t = [] /\ b = at_ t) \/ last (t_sections t) = Some b) as Hlast.
  { intros b. destruct (t_sections t) as [|x l]; cbn; [|by right]. intros [= <-]. by left. }
  split; cbn [set_sections t_domain debugAckEpoch debugOwnership debugExcluded dataflowEvalDepth
    t_sections at_]; try done.
  - cbn [List.length]. lia.
  - intros gen back E. by destruct Hat as [E'|E']; rewrite E' in E.
  - intros Hx Hdis. destruct (Ko Hx Hdis) as [|Hl]; [by left|]. right.
    destruct (t_sections t); [done|]. exact Hl.
  - intros E. by destruct Hat as [E'|E']; rewrite E' in E.
  - intros E. rewrite E. constructor; [done|by apply Kh].
  - intros Hx Ha Hd Hack. specialize (Kf Hx Ha Hd Hack).
    destruct (last (at_ t :: t_sections t)) as [b|] eqn:El; [|by apply last_None in El].
    destruct (Hlast b eq_refl) as [[Hs ->]|Hl]; [|by rewrite Hl in Kf].
    rewrite Hs in Kf. unfold quiet in Kf. destruct Hat as [E|E]; [|done]. by rewrite E in Kf.
Qed.

Lemma leave_section_ok c id t :
  core_ok c -> threads c !! id = Some t -> head (t_sections t) = Some (at_ t) ->
  core_ok (leave_section id c).
Proof.
  intros Hc Ht Hh. unfold leave_section.
  destruct (t_sections t) as [|x l] eqn:Hs; [done|]. injection Hh as ->.
  apply (on_thread_gate_ok id _ (-1) c t); [done|done| |cbn; rewrite Hs; cbn; lia| |].
  - pose proof (ck_threads _ Hc id t Ht) as Hok. split; [|done|by left|done].
    destruct Hok as [Ka Kd Ke Kp Ko Kc Kh Kf].
    split; cbn [set_sections t_domain debugAckEpoch debugOwnership debugExcluded dataflowEvalDepth
      t_sections at_]; try done; rewrite Hs in *; cbn [tail].
    + cbn [List.length] in Kd. lia.
    + intros gen back E. destruct (Kp gen back E) as [? _]. done.
    + intros Hx Hdis. destruct (Ko Hx Hdis) as [|Hl]; [by left|]. right.
      destruct l as [|y l]; [|exact Hl]. cbn in Hl. injection Hl as Hl.
      unfold dispatching in Hdis. rewrite Hl in Hdis. by destruct Hdis.
    + intros E. by specialize (Kc E).
    + intros E. by apply Forall_cons_1 in Kh as [_ ?].
    + intros Hx Ha Hd Hack. specialize (Kf Hx Ha Hd Hack). destruct l as [|y l]; [|exact Kf].
      cbn in Kf. unfold quiet. cbn. by rewrite Kf.
  - destruct (gate c) eqn:Hg; [by left|]. exfalso. pose proof (ck_gate _ Hc) as H. rewrite Hg in H.
    pose proof (total_zero c id t Hc Ht H). congruence.
  - intros Hst Hi Hx. cbn. pose proof (ck_stopped _ Hc Hst id t Hi Ht Hx). congruence.
Qed.

(** A leased thread is frozen. *)
Lemma leased_frozen c id t :
  core_ok c -> id ∈ epochLeases c -> threads c !! id = Some t -> debugExcluded t = false ->
  t_sections t = [] -> quiet (releaseGeneration (bound_domain c)) t.
Proof.
  intros Hc Hi Ht Hx Hs. destruct (ck_leases _ Hc id Hi) as (u & Hu & Hd & Hack).
  replace u with t in * by congruence.
  assert (active c = true) as Ha.
  { destruct (active c) eqn:E; [done|]. rewrite (ck_running _ Hc E) in Hi. set_solver. }
  pose proof (tk_frozen _ _ _ _ (ck_threads _ Hc id t Ht) Hx Ha Hd Hack) as Hf.
  by rewrite Hs in Hf.
Qed.

Lemma work_section_ok rt c id t :
  core_ok c -> threads c !! id = Some t ->
  at_ t = AtCode \/ (at_ t = AtHost /\ t_sections t <> []) -> core_ok (work_section rt id c).
Proof.
  intros Hc Ht Hat. unfold work_section. rewrite Ht. destruct (gate c) as [g|] eqn:Hg; [|done].
  destruct (_ || _); [|done]. eapply enter_gate_ok; [done|done|done|tauto|].
  intros Hst Hi Hx. pose proof (ck_stopped _ Hc Hst id t Hi Ht Hx) as Hs.
  pose proof (leased_frozen c id t Hc Hi Ht Hx Hs) as Hq. unfold quiet in Hq.
  destruct Hat as [E|[_ Hne]]; [by rewrite E in Hq|done].
Qed.

Lemma try_section_ok c id t :
  core_ok c -> threads c !! id = Some t -> at_ t = AtHost \/ at_ t = AtCode ->
  core_ok (try_section id c).
Proof.
  intros Hc Ht Hat. unfold try_section. destruct (gate c) as [g|] eqn:Hg; [|done].
  destruct (closed_ g) eqn:Hcl; [done|]. eapply enter_gate_ok; [done|done|done|tauto|].
  intros Hst. pose proof (ck_gate _ Hc) as H. rewrite Hg in H. destruct H as [H _].
  unfold active in H. rewrite Hst in H. simpl in H. congruence.
Qed.

(** ** Publication and release *)

Lemma bound_domain_some c dm : domains c !! bound c = Some dm -> bound_domain c = dm.
Proof. unfold bound_domain. by intros ->. Qed.

Lemma publish_ok c :
  core_ok c -> active c = false -> stopEpoch (bound_domain c) < 2 ^ 64 - 1 ->
  core_ok (publish_stop c).
Proof.
  intros Hc Ha Hw. destruct (ck_bound _ Hc) as [dm Hdm].
  pose proof (bound_domain_some c dm Hdm) as Hbd. rewrite Hbd in Hw.
  pose proof (ck_domains _ Hc _ _ Hdm) as [De Dg Dc Db].
  assert (wrapU 64 (stopEpoch dm + 1) = stopEpoch dm + 1) as Hwrap
    by (apply wrapU_id; unfold inU; lia).
  assert (stopped c = false) as Hst by (unfold active in Ha; by destruct (stopped c)).
  assert (active (publish_stop c) = true) as Ha' by (unfold active; cbn; by rewrite Hst).
  assert (forall d, default new_domain (domains (publish_stop c) !! d)
    = if decide (d = bound c)
      then mkDomain (stopEpoch dm + 1) true (releaseGeneration dm)
             (set_bits (word dm) IntrDebugStop) (coordinated dm)
      else default new_domain (domains c !! d)) as Hdom.
  { intros d. unfold publish_stop, on_domain, on_gate. cbn [domains set_domains set_gate set_forming bound].
    change (bound_domain (set_forming true c)) with (bound_domain c). rewrite Hbd, Hwrap.
    case_decide as E; [subst; by rewrite lookup_insert_eq|by rewrite lookup_insert_ne]. }
  split.
  - intros Hs. change (stopped c = true) in Hs. congruence.
  - change (is_Some (domains (publish_stop c) !! bound c)). unfold publish_stop. cbn.
    rewrite lookup_insert_eq. eauto.
  - intros d dm' Hd. rewrite Ha'. change (bound (publish_stop c)) with (bound c).
    pose proof (Hdom d) as E. rewrite Hd in E. cbn in E. case_decide as Eb; subst.
    + rewrite Z.eqb_refl. split; cbn; [lia|lia|done|apply stop_bit_set].
    + rewrite (proj2 (Z.eqb_neq _ _)), andb_false_r by done.
      destruct (domains c !! d) as [dm'|] eqn:Ed; cbn.
      * pose proof (ck_domains _ Hc d dm' Ed) as H.
        rewrite (proj2 (Z.eqb_neq _ _)), andb_false_r in H by done. done.
      * split; cbn; done || lia.
  - intros id t Ht. rewrite Ha'. change (threads c !! id = Some t) in Ht.
    destruct (ck_threads _ Hc id t Ht) as [Ka Kd Ke Kp Ko Kc Kh Kf]. rewrite Ha in *.
    assert (stopEpoch (default new_domain (domains (publish_stop c) !! t_domain t))
            = stopEpoch (default new_domain (domains c !! t_domain t))
              + (if decide (t_domain t = bound c) then 1 else 0)) as He.
    { rewrite Hdom. case_decide as E; [rewrite E, Hdm; done|lia]. }
    assert (releaseGeneration (default new_domain (domains (publish_stop c) !! bound c))
            = releaseGeneration (default new_domain (domains c !! bound c))) as Hg.
    { by rewrite Hdom, decide_True, Hdm. }
    split; try done.
    + rewrite He. case_decide; lia.
    + intros Hext. by destruct (Ke Hext).
    + intros gen back Hat. destruct (Kp gen back Hat) as (H1 & H2 & H3 & H4).
      change (bound (publish_stop c)) with (bound c). rewrite Hg. by split_and!.
    + change (bound (publish_stop c)) with (bound c). intros _ _ Hd Hack. exfalso.
      rewrite Hdom, decide_True in Hack by done. cbn in Hack. rewrite Hd, Hdm in Ka. cbn in Ka. lia.
  - exact (ck_nodup _ Hc).
  - exact (ck_registry _ Hc).
  - pose proof (ck_gate _ Hc) as H. rewrite Ha'.
    change (gate (publish_stop c)) with (option_map (fun g => mkGate true (active_ g)) (gate c)).
    change (total_depth (publish_stop c)) with (total_depth c).
    destruct (gate c) as [g|]; cbn; [|done]. destruct H as [_ H]. split; [done|exact H].
  - by rewrite Ha'.
  - intros id Hi. change (id ∈ epochLeases c) in Hi. rewrite (ck_running _ Hc Ha) in Hi. set_solver.
  - intros Hs. change (stopped c = true) in Hs. congruence.
Qed.

(** The release, in closed form. *)
Lemma fold_unstop ids m (id : Z) :
  fold_left (fun (m : gmap Z thread) id => alter unstop id m) ids m !! id
  = if decide (id ∈ ids) then option_map unstop (m !! id) else m !! id.
Proof.
  assert (forall t, unstop (unstop t) = unstop t) as Hidem.
  { intros t. unfold unstop. by destruct (decide (debugOwnership t = StoppedExternal));
      simpl; repeat case_decide. }
  revert m. induction ids as [|x ids IH]; intros m; cbn [fold_left]; [by case_decide; [set_solver|]|].
  rewrite IH. destruct (decide (id = x)) as [->|Hne].
  - rewrite lookup_alter_eq. rewrite (decide_True (P := x ∈ x :: ids)) by set_solver.
    case_decide; [|done]. destruct (m !! x); [|done]. cbn. by rewrite Hidem.
  - rewrite lookup_alter_ne by done. destruct (decide (id ∈ ids)).
    + by rewrite decide_True by set_solver.
    + by rewrite decide_False by set_solver.
Qed.

Definition released (dm : domain) : domain :=
  mkDomain (stopEpoch dm) false (wrapU 64 (releaseGeneration dm + 1))
    (clear_bits 32 (word dm) IntrDebugStop) (coordinated dm).

Lemma fold_on_thread f ids c :
  fold_left (fun c id => on_thread id f c) ids c
  = set_threads (fold_left (fun m id => alter f id m) ids (threads c)) c.
Proof.
  revert c. induction ids as [|x ids IH]; intros c; [by destruct c|]. simpl. by rewrite IH.
Qed.

Lemma release_core_eq c :
  release_core c =
  mkCore (stopped c) (forming c) (bound c)
    (<[bound c := released (bound_domain c)]> (domains c))
    (fold_left (fun m id => alter unstop id m) (snapshotLeases c (bound c)) (threads c))
    (registry c) (option_map (fun g => mkGate false (active_ g)) (gate c)) [].
Proof.
  unfold release_core. rewrite fold_on_thread. unfold on_domain, on_gate. cbn.
  rewrite insert_insert_eq. unfold bound_domain. cbn. rewrite lookup_insert_eq. cbn. done.
Qed.

(** Every thread of the bound domain is released; the others own nothing to
    release. *)
Lemma release_threads c id :
  core_ok c -> threads (release_core c) !! id = option_map unstop (threads c !! id).
Proof.
  intros Hc. rewrite release_core_eq. cbn [threads]. rewrite fold_unstop.
  case_decide as Hin; [done|]. destruct (threads c !! id) as [t|] eqn:Ht; [|done]. cbn. f_equal.
  unfold unstop. case_decide as Hext; [|done]. exfalso. apply Hin.
  unfold snapshotLeases. apply list_elem_of_filter. split; [|apply (ck_registry _ Hc); eauto].
  unfold member_of. rewrite Ht.
  destruct (tk_external _ _ _ _ (ck_threads _ Hc id t Ht) Hext) as [_ Hd]. by rewrite Hd, Z.eqb_refl.
Qed.

(** No stop is under way afterwards, whatever there was before. *)
Definition idle_core (c : core) : core := set_forming false (set_stopped false c).

Lemma release_ok c :
  core_ok c -> releaseGeneration (bound_domain c) < 2 ^ 64 - 1 ->
  core_ok (idle_core (release_core c)).
Proof.
  intros Hc Hw. destruct (ck_bound _ Hc) as [dm Hdm].
  pose proof (bound_domain_some c dm Hdm) as Hbd. rewrite Hbd in Hw.
  pose proof (ck_domains _ Hc _ _ Hdm) as [De Dg Dc Db].
  assert (wrapU 64 (releaseGeneration dm + 1) = releaseGeneration dm + 1) as Hwrap
    by (apply wrapU_id; unfold inU; lia).
  pose proof (release_threads c) as Hth. rewrite release_core_eq in *. rewrite Hbd in *.
  cbn [threads] in Hth. set (th := fold_left _ _ _) in *. clearbody th.
  assert (forall d, default new_domain (<[bound c := released dm]> (domains c) !! d)
    = if decide (d = bound c) then released dm else default new_domain (domains c !! d)) as Hdom.
  { intros d. case_decide as E; [subst; by rewrite lookup_insert_eq|by rewrite lookup_insert_ne]. }
  assert (forall id t', th !! id = Some t' -> exists t, threads c !! id = Some t /\ t' = unstop t) as Hinv.
  { intros id t' H. rewrite Hth in H by done. destruct (threads c !! id) as [t|]; [|done].
    injection H as <-. eauto. }
  assert (forall t, t_sections (unstop t) = t_sections t) as Hsec
    by (intros t; unfold unstop; by case_decide).
  split; unfold idle_core; cbn [stopped forming bound domains threads registry gate epochLeases
    set_forming set_stopped]; try done.
  - rewrite lookup_insert_eq. eauto.
  - intros d dm' [[<- <-]|[Hne Hd]]%lookup_insert_Some.
    + unfold released. rewrite Hwrap. split; cbn; [lia|lia|done|apply stop_bit_clear].
    + pose proof (ck_domains _ Hc d dm' Hd) as H.
      rewrite (proj2 (Z.eqb_neq d (bound c))), andb_false_r in H by done. done.
  - intros id t' Ht'. destruct (Hinv _ _ Ht') as (t & Ht & ->).
    destruct (ck_threads _ Hc id t Ht) as [Ka Kd Ke Kp Ko Kc Kh Kf].
    assert (t_domain (unstop t) = t_domain t /\ debugAckEpoch (unstop t) = debugAckEpoch t /\
      debugOwnership (unstop t) <> StoppedExternal /\
      (debugOwnership t = Executing -> debugOwnership (unstop t) = Executing) /\
      debugExcluded (unstop t) = debugExcluded t /\ dataflowEvalDepth (unstop t) = dataflowEvalDepth t /\
      at_ (unstop t) = at_ t) as (E1 & E2 & E3 & E4 & E5 & E6 & E7).
    { unfold unstop. case_decide as E; cbn; [rewrite E|]; split_and!; done. }
    split; rewrite ?E1, ?E2, ?E5, ?E6, ?E7, ?Hsec; try done.
    + rewrite Hdom. case_decide as E; [by rewrite E, Hdm in Ka|done].
    + intros gen back Hat. destruct (Kp gen back Hat) as (H1 & H2 & H3 & H4).
      rewrite Hdm in H3. unfold released in *. rewrite Hdom, decide_True by done. cbn in *.
      split_and!; [done..|lia|lia].
    + intros Hx Hdis. destruct (Ko Hx Hdis) as [|]; [left; auto|by right].
  - exact (ck_nodup _ Hc).
  - intros id. rewrite (ck_registry _ Hc id), Hth by done. destruct (threads c !! id); cbn; [|done].
    split; eauto.
  - assert (total_depth (set_forming false (set_stopped false
      (mkCore (stopped c) (forming c) (bound c) (<[bound c := released dm]> (domains c)) th (registry c)
        (option_map (fun g => mkGate false (active_ g)) (gate c)) []))) = total_depth c) as Htot.
    { unfold total_depth. cbn [registry set_forming set_stopped]. apply sum_ext. intros id _.
      unfold depth_of. cbn [threads set_forming set_stopped]. rewrite Hth by done.
      destruct (threads c !! id); cbn; [by rewrite Hsec|done]. }
    pose proof (ck_gate _ Hc) as H. rewrite Htot. destruct (gate c) as [g|]; cbn; [|done].
    destruct H as [_ H]. by split.
  - intros id Hi. set_solver.
Qed.

(** ** The acknowledgement scan and the commit *)

Lemma external_ok c id t :
  core_ok c -> threads c !! id = Some t -> active c = true -> t_domain t = bound c ->
  debugExcluded t = false -> debugOwnership t = Idle ->
  thread_step c t (set_ack (stopEpoch (bound_domain c)) (set_ownership StoppedExternal t)).
Proof.
  intros Hc Ht Ha Hd Hx Ho. pose proof (ck_threads _ Hc id t Ht) as Hok.
  split; [|done| |done]; cbn [debugAckEpoch set_ack t_domain].
  2: { right. unfold bound_domain. by rewrite Hd. }
  destruct Hok as [Ka Kd Ke Kp Ko Kc Kh Kf].
  assert (dispatching (at_ t) -> last (t_sections t) = Some AtHost) as Hlast.
  { intros Hdis. destruct (Ko Hx Hdis) as [E|E]; [congruence|done]. }
  split; cbn [set_ack set_ownership t_domain debugAckEpoch debugOwnership debugExcluded
    dataflowEvalDepth t_sections at_]; try done.
  - unfold bound_domain. rewrite Hd. lia.
  - intros _ Hdis. right. by apply Hlast.
  - intros _ _ _ _. destruct (last (t_sections t)) as [b|] eqn:El.
    + destruct (at_ t) as [| | | |gen back] eqn:Hat.
      * specialize (Kh eq_refl). apply last_Some in El as [l' El]. rewrite El in Kh.
        apply Forall_app in Kh as [_ Kh]. by apply Forall_cons_1 in Kh as [<- _].
      * by rewrite Kc in El.
      * assert (Some b = Some AtHost) as E by (apply Hlast; by left). by injection E.
      * assert (Some b = Some AtHost) as E by (apply Hlast; by right). by injection E.
      * destruct (Kp gen back eq_refl) as [Hs _]. by rewrite Hs in El.
    + unfold quiet. cbn. destruct (place (at_ t)) as [| | | |g0 b0] eqn:Epl; try done.
      * assert (None = Some AtHost) as E by (apply Hlast; by left). done.
      * assert (None = Some AtHost) as E by (apply Hlast; by right). done.
      * destruct (at_ t) as [| | | |gen back] eqn:Hat; cbn in Epl; try done.
        destruct (Kp gen back eq_refl) as (_ & Hpl & _). by rewrite Epl in Hpl.
Qed.

(** A core that differs from another in its threads only, each still in its
    domain. *)
Definition same_but_threads (c c' : core) : Prop :=
  c' = set_threads (threads c') c /\
  forall id, option_map t_domain (threads c' !! id) = option_map t_domain (threads c !! id).

Lemma same_refl c : same_but_threads c c.
Proof. split; [by destruct c|done]. Qed.

Lemma same_trans c1 c2 c3 :
  same_but_threads c1 c2 -> same_but_threads c2 c3 -> same_but_threads c1 c3.
Proof.
  intros [E1 D1] [E2 D2]. split; [|intros id; by rewrite D2].
  rewrite E2, E1. by destruct c1.
Qed.

Lemma same_on_thread id f c :
  (forall t, t_domain (f t) = t_domain t) -> same_but_threads c (on_thread id f c).
Proof.
  intros Hf. split; [by destruct c|]. intros i. rewrite on_thread_lookup. case_decide; [|done].
  destruct (threads c !! i); cbn; [by rewrite Hf|done].
Qed.

Lemma same_fields c c' : same_but_threads c c' ->
  stopped c' = stopped c /\ forming c' = forming c /\ bound c' = bound c /\
  domains c' = domains c /\ registry c' = registry c /\ gate c' = gate c /\
  epochLeases c' = epochLeases c.
Proof. intros [E _]. rewrite E. by destruct c. Qed.

Lemma same_member c c' d id : same_but_threads c c' -> member_of c' d id = member_of c d id.
Proof.
  intros [_ D]. specialize (D id). unfold member_of.
  destruct (threads c' !! id), (threads c !! id); cbn in D; try done. by injection D as ->.
Qed.

Lemma filter_ext_bool (f g : Z -> bool) (l : list Z) :
  (forall x, f x = g x) -> base.filter f l = base.filter g l.
Proof. intros H. apply list_filter_iff. intros x. by rewrite H. Qed.

Lemma same_leases c c' d : same_but_threads c c' -> snapshotLeases c' d = snapshotLeases c d.
Proof.
  intros Hs. unfold snapshotLeases. destruct (same_fields _ _ Hs) as (_ & _ & _ & _ & -> & _).
  apply filter_ext_bool. intros x. by apply same_member.
Qed.

Lemma scan_ok (isC : Z -> thread -> bool) ids : forall c ack lag,
  core_ok c -> active c = true ->
  (forall id t, isC id t = false -> debugExcluded t = false) ->
  (forall id, id ∈ ids -> member_of c (bound c) id = true) ->
  let '(c', _, _) := fold_left (scan_one isC (stopEpoch (bound_domain c))) ids (c, ack, lag) in
  core_ok c' /\ same_but_threads c c'.
Proof.
  induction ids as [|id ids IH]; intros c ack lag Hc Ha Hx Hm; [by split; [|apply same_refl]|].
  cbn [fold_left scan_one].
  assert (forall c1 a1 l1, core_ok c1 -> same_but_threads c c1 ->
    let '(c', _, _) := fold_left (scan_one isC (stopEpoch (bound_domain c))) ids (c1, a1, l1) in
    core_ok c' /\ same_but_threads c c') as Hnext.
  { intros c1 a1 l1 Hc1 Hs. destruct (same_fields _ _ Hs) as (E1 & E2 & E3 & E4 & E5 & E6 & E7).
    assert (bound_domain c = bound_domain c1) as -> by (unfold bound_domain; by rewrite E3, E4).
    specialize (IH c1 a1 l1 Hc1). destruct (fold_left _ ids _) as [[c' a'] l'].
    destruct IH as [H1 H2]; [unfold active; by rewrite E1, E2|done| |].
    - intros i Hi. rewrite E3, (same_member c c1) by done. apply Hm. by right.
    - split; [done|by eapply same_trans]. }
  destruct (threads c !! id) as [t|] eqn:Ht; [|apply Hnext; [done|apply same_refl]].
  destruct (isC id t) eqn:Hi; [apply Hnext; [done|apply same_refl]|].
  destruct (_ <=? _); [apply Hnext; [done|apply same_refl]|].
  destruct (decide _) as [Hidle|]; [|apply Hnext; [done|apply same_refl]].
  apply Hnext; [|by apply same_on_thread].
  apply on_thread_ok; [done|]. intros t' Ht'. replace t' with t by congruence. split; [|done].
  apply (external_ok c id); [done|done|done| |by eapply Hx|done].
  specialize (Hm id ltac:(by left)). unfold member_of in Hm. rewrite Ht in Hm. lia.
Qed.

Lemma snapshot_member c d id : id ∈ snapshotLeases c d -> member_of c d id = true.
Proof.
  unfold snapshotLeases. intros [H _]%list_elem_of_filter. destruct (member_of c d id); done.
Qed.

(** New leases: acknowledged members of the stop under way. *)
Lemma leases_ok c ids :
  core_ok c -> active c = true ->
  (forall id, id ∈ ids -> exists t, threads c !! id = Some t /\ t_domain t = bound c /\
     debugAckEpoch t = stopEpoch (bound_domain c) /\ (stopped c = true -> t_sections t = [])) ->
  core_ok (set_epochLeases (epochLeases c ++ ids) c).
Proof.
  intros [H1 H2 H3 H4 H5 H6 H7 H8 H9 H10] Ha Hids. split; try done.
  - intros E. change (active c = false) in E. congruence.
  - intros id. change (id ∈ epochLeases c ++ ids -> exists t, threads c !! id = Some t /\
      t_domain t = bound c /\ debugAckEpoch t = stopEpoch (bound_domain c)).
    rewrite elem_of_app. intros [Hi|Hi]; [auto|]. destruct (Hids id Hi) as (t & ? & ? & ? & _). eauto.
  - intros E id t Hi Ht Hx. apply elem_of_app in Hi as [Hi|Hi]; [exact (H10 E id t Hi Ht Hx)|].
    destruct (Hids id Hi) as (u & Hu & _ & _ & Hs). change (threads c !! id = Some t) in Ht.
    replace t with u by congruence. by apply Hs.
Qed.

Lemma commit_core_ok c :
  core_ok c -> forming c = true -> stopped c = false -> quiesced c = true -> core_ok (commit_core c).
Proof.
  intros Hc Hf Hs Hq. assert (active (commit_core c) = active c) as Ha.
  { unfold active. cbn. by rewrite Hf, Hs. }
  assert (total_depth c = 0%nat) as H0.
  { pose proof (ck_gate _ Hc) as H. unfold quiesced in Hq. destruct (gate c) as [g|]; [|done].
    rewrite andb_true_iff, Z.eqb_eq in Hq. lia. }
  pose proof Hc as [H1 H2 H3 H4 H5 H6 H7 H8 H9 H10].
  split; rewrite ?Ha; try done.
  intros _ id t _ Ht _. by apply (total_zero c id t).
Qed.

(** ** The slow-path bit and the binding *)

(** Two states of a domain that agree on everything the protocol reads. *)
Record domain_same (dm dm' : domain) : Prop := {
  ds_epoch : stopEpoch dm' = stopEpoch dm;
  ds_gen : releaseGeneration dm' = releaseGeneration dm;
  ds_closed : admissionClosed dm' = admissionClosed dm;
  ds_bit : has_bits (word dm') IntrDebugStop = has_bits (word dm) IntrDebugStop;
}.

#[global] Instance domain_same_refl : Reflexive domain_same.
Proof. by intros ?. Qed.

Lemma default_domain_ok c d :
  core_ok c -> domain_ok (active c && (d =? bound c)) (default new_domain (domains c !! d)).
Proof.
  intros Hc. destruct (domains c !! d) as [dm|] eqn:E; [exact (ck_domains _ Hc d dm E)|].
  destruct (Z.eqb_spec d (bound c)) as [->|].
  - destruct (ck_bound _ Hc) as [dm Hdm]. congruence.
  - rewrite andb_false_r. split; cbn; done || lia.
Qed.

Lemma domains_same_ok c dms b :
  core_ok c -> is_Some (dms !! b) ->
  b = bound c \/ active c = false /\ (forall id t, threads c !! id = Some t -> plain (at_ t)) ->
  (forall d, domain_same (default new_domain (domains c !! d)) (default new_domain (dms !! d))) ->
  core_ok (set_bound b (set_domains dms c)).
Proof.
  intros Hc Hb Hba Hs. pose proof Hc as [H1 H2 H3 H4 H5 H6 H7 H8 H9 H10].
  assert (active c = true -> b = bound c) as Hab by (intros; destruct Hba as [|[? _]]; [done|congruence]).
  split; try done.
  - intros d dm Hd. change (active _) with (active c). change (bound _) with b.
    change (dms !! d = Some dm) in Hd.
    pose proof (default_domain_ok c d Hc) as [De Dg Dc Db]. specialize (Hs d) as [S1 S2 S3 S4].
    rewrite Hd in *. cbn in S1, S2, S3, S4.
    assert (active c && (d =? b) = active c && (d =? bound c)) as ->
      by (destruct (active c); [by rewrite Hab|done]).
    split; congruence.
  - intros id t Ht. change (active _) with (active c). change (bound _) with b.
    change (domains _) with dms. destruct (H4 id t Ht) as [Ka Kd Ke Kp Ko Kc Kh Kf].
    destruct (Hs (t_domain t)) as [S1 S2 _ _], (Hs b) as [S3 S4 _ _].
    split; rewrite ?S1, ?S2, ?S3, ?S4; try done.
    + intros E. destruct (Ke E). rewrite Hab; done.
    + intros gen back E. destruct Hba as [->|[_ Hpl]]; [by apply Kp|].
      specialize (Hpl id t Ht). by rewrite E in Hpl.
    + intros Hx Ha. rewrite (Hab Ha). by apply Kf.
  - intros id Hi. destruct Hba as [->|[Ha _]].
    + destruct (H9 id Hi) as (t & Ht & Hd & Hk). exists t. split_and!; [done..|].
      destruct (Hs (bound c)) as [S1 _ _ _]. unfold bound_domain in *. cbn. by rewrite S1.
    + change (id ∈ epochLeases c) in Hi. rewrite (H8 Ha) in Hi. set_solver.
Qed.

Lemma set_bound_same c : set_bound (bound c) c = c.
Proof. by destruct c. Qed.

(** The slow-path bit is not the stop bit. *)
Lemma domain_word_ok c f :
  core_ok c ->
  (forall w, has_bits (f w) IntrDebugStop = has_bits w IntrDebugStop) ->
  core_ok (on_domain (fun d => set_word (f (word d)) d) c).
Proof.
  intros Hc Hw. rewrite <- (set_bound_same (on_domain _ c)).
  apply (domains_same_ok c); [done|by rewrite lookup_insert_eq|by left|].
  intros d. destruct (decide (d = bound c)) as [->|Hne].
  - rewrite lookup_insert_eq. fold (bound_domain c). by split; cbn.
  - by rewrite lookup_insert_ne.
Qed.

Lemma rebind_ok d s :
  core_ok (s_core s) -> active (s_core s) = false ->
  (forall id t, threads (s_core s) !! id = Some t -> plain (at_ t)) ->
  core_ok (s_core (rebind d s)).
Proof.
  intros Hc Ha Hpl. unfold rebind. destruct (Z.eqb_spec d (bound (s_core s))) as [|Hne]; [done|].
  set (slow := 0 <? slowPathDemand (s_control s)).
  unfold on_control, set_s_control, set_s_core. cbn [s_core].
  apply domains_same_ok; [done|by rewrite lookup_insert_eq|by right|].
  intros d'. destruct (decide (d' = d)) as [->|Hd].
  - rewrite lookup_insert_eq. cbn. set (dm := default _ _).
    destruct slow; split; cbn; rewrite ?slow_bit_set; done.
  - rewrite lookup_insert_ne by done. destruct (decide (d' = bound (s_core s))) as [->|Hb].
    + rewrite lookup_insert_eq. fold (bound_domain (s_core s)).
      destruct slow; split; cbn; rewrite ?slow_bit_clear; done.
    + by rewrite lookup_insert_ne.
Qed.

(** ** The registry *)

(** A thread the registry does not hold yet, with no stack and no section. *)
Lemma insert_ok id t c :
  core_ok c -> threads c !! id = None ->
  thread_ok (active c) (bound c) (domains c) t -> t_sections t = [] ->
  core_ok (set_registry (registry c ++ [id]) (set_threads (<[id := t]> (threads c)) c)).
Proof.
  intros Hc Hid Hok Hs. pose proof Hc as [H1 H2 H3 H4 H5 H6 H7 H8 H9 H10].
  assert (id ∉ registry c) as Hnr by (rewrite H6, Hid; intros [? ?]; done).
  assert (id ∉ epochLeases c) as Hnl by (intros Hi; destruct (H9 _ Hi) as (? & ? & _); congruence).
  set (c' := set_registry _ _).
  assert (forall i, threads c' !! i = if decide (i = id) then Some t else threads c !! i) as Hl.
  { intros i. case_decide as E; [subst; apply lookup_insert_eq|by apply lookup_insert_ne]. }
  split; try done.
  - intros i u. rewrite Hl. case_decide; [by intros [= <-]|apply H4].
  - apply NoDup_app. split_and!; [done|set_solver|apply NoDup_singleton].
  - intros i. rewrite Hl. change (i ∈ registry c ++ [id] <-> is_Some (if decide (i = id) then Some t
      else threads c !! i)). rewrite elem_of_app, list_elem_of_singleton, H6.
    case_decide as E; split; [eauto|by right|by intros [|]|by left].
  - assert (total_depth c' = total_depth c) as ->; [|exact H7].
    unfold total_depth. change (registry c') with (registry c ++ [id]).
    rewrite sum_list_with_app. cbn. unfold depth_of at 2. rewrite Hl, decide_True, Hs by done.
    cbn. rewrite !Nat.add_0_r. apply sum_ext. intros i Hi. unfold depth_of. rewrite Hl.
    by rewrite decide_False by (intros ->; done).
  - intros i Hi. destruct (H9 i Hi) as (u & Hu & Hr). exists u. rewrite Hl.
    by rewrite decide_False by (intros ->; done).
  - intros Hst i u Hi. rewrite Hl. rewrite decide_False by (intros ->; done). by apply H10.
Qed.

Lemma unregister_ok id t c :
  core_ok c -> threads c !! id = Some t -> t_sections t = [] -> id ∉ epochLeases c ->
  core_ok (unregisterThread id c).
Proof.
  intros Hc Hid Hs Hnl. pose proof Hc as [H1 H2 H3 H4 H5 H6 H7 H8 H9 H10].
  set (c' := unregisterThread id c).
  assert (forall i u, threads c' !! i = Some u <-> i <> id /\ threads c !! i = Some u) as Hl.
  { intros i u. change (threads c') with (delete id (threads c)). rewrite lookup_delete_Some. naive_solver. }
  split; try done.
  - intros i u [_ Hu]%Hl. by apply (H4 i).
  - by apply NoDup_filter.
  - intros i. change (i ∈ registry c') with (i ∈ base.filter (fun i => i <> id) (registry c)).
    rewrite list_elem_of_filter, H6. split.
    + intros [Hne [u Hu]]. exists u. by apply Hl.
    + intros [u [Hne Hu]%Hl]. eauto.
  - assert (total_depth c' = total_depth c) as ->; [|exact H7].
    unfold total_depth. change (registry c') with (base.filter (fun i => i <> id) (registry c)).
    assert (forall l, sum_list_with (depth_of c') (base.filter (fun i => i <> id) l)
      = sum_list_with (depth_of c) l) as Hsum; [|apply Hsum].
    induction l as [|x l IH]; [done|]. rewrite filter_cons. case_decide as E; cbn.
    + rewrite IH. f_equal. unfold depth_of.
      destruct (threads c !! x) as [u|] eqn:Hu.
      * by rewrite (proj2 (Hl x u)).
      * destruct (threads c' !! x) as [u|] eqn:Hu'; [|done]. apply Hl in Hu' as [_ ?]. congruence.
    + rewrite IH. assert (x = id) as -> by (destruct (decide (x = id)); done).
      unfold depth_of. by rewrite Hid, Hs.
  - intros i Hi. destruct (H9 i Hi) as (u & Hu & Hr). exists u. rewrite Hl. split; [|done].
    split; [intros ->; done|done].
  - intros Hst i u Hi [_ Hu]%Hl. by apply (H10 Hst i u).
Qed.

(** A thread created while a stop forms or is in force starts stopped. *)
Lemma registerThread_ok id d kind c :
  core_ok c -> threads c !! id = None -> core_ok (registerThread id d kind c).
Proof.
  intros Hc Hid. unfold registerThread. pose proof (default_domain_ok c d Hc) as [De _ Dc _].
  set (dm := default new_domain (domains c !! d)) in *. rewrite Dc.
  destruct (active c && (d =? bound c)) eqn:Ha.
  - apply andb_true_iff in Ha as [Ha Hd%Z.eqb_eq].
    set (t := set_ack (stopEpoch dm) (set_ownership StoppedExternal (new_thread d kind))).
    assert (thread_ok (active c) (bound c) (domains c) t) as Hok.
    { unfold t, new_thread. split; unfold dispatching; cbn; try done. by intros _ [|]. }
    pose proof (insert_ok id t c Hc Hid Hok eq_refl) as Hins.
    destruct (coordinated dm); [|exact Hins].
    unfold addLateEpochLease. cbn [threads set_threads]. rewrite lookup_insert_eq.
    change (debugExcluded t) with false. cbn iota. change (stopped _ || forming _) with (active c).
    rewrite Ha. refine (leases_ok _ [id] Hins Ha _). intros i ->%list_elem_of_singleton. exists t.
    split; [apply lookup_insert_eq|]. split; [done|]. split; [|done].
    unfold t, bound_domain. cbn. by rewrite <- Hd.
  - refine (insert_ok id (new_thread d kind) c Hc Hid _ eq_refl).
    split; unfold dispatching; cbn; try done; [fold dm; lia|by intros _ [|]].
Qed.

(** ** The coordinator's calls *)

(** With room left in the release counter while a stop is under way. *)
Definition good (c : core) : Prop :=
  core_ok c /\ (active c = true -> releaseGeneration (bound_domain c) < 2 ^ 64 - 1).

Lemma notify_core n s : s_core (notify n s) = s_core s.
Proof. unfold notify. by destruct (hostControl _). Qed.
Lemma openHold_core e r id s : s_core (openHoldAndWake e r id s) = s_core s.
Proof. unfold openHoldAndWake. destruct (holdActive _); by rewrite notify_core. Qed.
Lemma release_hold_core s : s_core (release_hold s) = s_core s.
Proof. unfold release_hold. destruct (holdActive _); by rewrite ?notify_core. Qed.

Lemma active_core_eq c c' : stopped c' = stopped c -> forming c' = forming c -> active c' = active c.
Proof. unfold active. by intros -> ->. Qed.

Lemma on_domain_bound f c : bound_domain (on_domain f c) = f (bound_domain c).
Proof. unfold bound_domain at 1, on_domain. cbn. by rewrite lookup_insert_eq. Qed.

Lemma beginStop_good reason s :
  good (s_core s) -> stopEpoch (bound_domain (s_core s)) < 2 ^ 64 - 1 ->
  releaseGeneration (bound_domain (s_core s)) < 2 ^ 64 - 1 ->
  good (s_core (fst (beginStop reason s))).
Proof.
  intros [Hc Hr] He Hg. unfold beginStop. destruct (negb _); [done|].
  destruct (stopped (s_core s)) eqn:Hs; [done|]. destruct (forming (s_core s)) eqn:Hf; [done|].
  assert (active (s_core s) = false) as Ha by (unfold active; by rewrite Hs, Hf).
  split; [by apply publish_ok|]. intros _. cbn [fst].
  change (releaseGeneration (bound_domain (publish_stop (s_core s))) < 2 ^ 64 - 1).
  unfold publish_stop. change (bound_domain (on_gate ?f ?c)) with (bound_domain c).
  rewrite on_domain_bound. exact Hg.
Qed.

Lemma released_good c :
  core_ok c -> releaseGeneration (bound_domain c) < 2 ^ 64 - 1 -> good (idle_core (release_core c)).
Proof. intros Hc Hr. split; [by apply release_ok|done]. Qed.

Lemma rollback_core epoch why s : s_core (rollback epoch why s) = set_forming false (release_core (s_core s)).
Proof. unfold rollback. cbn. by rewrite notify_core. Qed.

Lemma idle_release c :
  stopped c = false -> set_forming false (release_core c) = idle_core (release_core c).
Proof.
  intros Hs. unfold idle_core. f_equal. rewrite release_core_eq. unfold set_stopped. cbn. by rewrite Hs.
Qed.

Lemma forming_not_stopped c : core_ok c -> forming c = true -> stopped c = false.
Proof. intros Hc Hf. destruct (stopped c) eqn:E; [|done]. rewrite (ck_phase _ Hc E) in Hf. done. Qed.

Lemma rollback_good epoch why s :
  good (s_core s) -> forming (s_core s) = true -> good (s_core (rollback epoch why s)).
Proof.
  intros [Hc Hr] Hf. rewrite rollback_core, idle_release by (by apply forming_not_stopped).
  apply released_good; [done|]. apply Hr. unfold active. rewrite Hf. apply orb_true_r.
Qed.

Lemma cancelPending_core h s :
  s_core (cancelPending h s)
  = if forming (s_core s) then set_forming false (release_core (s_core s)) else s_core s.
Proof.
  unfold cancelPending. destruct (forming (s_core s)); cbn; [|done].
  destruct h; [by rewrite release_hold_core|done].
Qed.

Lemma cancelPending_good h s : good (s_core s) -> good (s_core (cancelPending h s)).
Proof.
  intros Hg. rewrite cancelPending_core. destruct (forming (s_core s)) eqn:Hf; [|done].
  destruct Hg as [Hc Hr]. rewrite idle_release by (by apply forming_not_stopped).
  apply released_good; [done|]. apply Hr. unfold active. rewrite Hf. apply orb_true_r.
Qed.

Lemma resumeNow_core h s :
  s_core (resumeNow h s)
  = if stopped (s_core s) then release_core (set_stopped false (s_core s)) else s_core s.
Proof.
  unfold resumeNow. destruct (stopped (s_core s)); cbn; [|done].
  destruct h; [by rewrite release_hold_core|done].
Qed.

Lemma release_set_stopped c :
  forming c = false -> release_core (set_stopped false c) = idle_core (release_core c).
Proof.
  intros Hf. rewrite !release_core_eq. unfold idle_core, set_stopped, set_forming. cbn. by rewrite Hf.
Qed.

Lemma resumeNow_good h s : good (s_core s) -> good (s_core (resumeNow h s)).
Proof.
  intros [Hc Hr]. rewrite resumeNow_core. destruct (stopped (s_core s)) eqn:Hs; [|done].
  rewrite release_set_stopped by (by apply (ck_phase _ Hc)).
  apply released_good; [done|]. apply Hr. unfold active. by rewrite Hs.
Qed.

(** *** The slow dispatch path *)

(** Cores that differ in the slow-path bit and the threads' step state only. *)
Record same_protocol (c c' : core) : Prop := {
  sp_stopped : stopped c' = stopped c;
  sp_forming : forming c' = forming c;
  sp_bound : bound c' = bound c;
  sp_registry : registry c' = registry c;
  sp_gate : gate c' = gate c;
  sp_leases : epochLeases c' = epochLeases c;
  sp_domain : domain_same (bound_domain c) (bound_domain c');
  sp_threads : forall id, exists st, threads c' !! id = option_map (set_step st) (threads c !! id);
}.

#[global] Instance same_protocol_refl : Reflexive same_protocol.
Proof.
  intros c. split; try done. intros id. destruct (threads c !! id) as [t|] eqn:E.
  - exists (t_step t). cbn. by destruct t.
  - by exists (mkStepping [] 0 StepNone 0 0 (None, 0, 0)).
Qed.

#[global] Instance same_protocol_trans : Transitive same_protocol.
Proof.
  intros c1 c2 c3 [A1 A2 A3 A4 A5 A6 [D1 D2 D3 D4] A8] [B1 B2 B3 B4 B5 B6 [E1 E2 E3 E4] B8].
  split; try congruence; [split; congruence|].
  intros id. destruct (A8 id) as [st1 E], (B8 id) as [st2 E']. exists st2. rewrite E', E.
  by destruct (threads c1 !! id).
Qed.

Lemma slow_word_same f c :
  (forall w, has_bits (f w) IntrDebugStop = has_bits w IntrDebugStop) ->
  same_protocol c (on_domain (fun d => set_word (f (word d)) d) c).
Proof.
  intros Hf. split; try done; [by rewrite on_domain_bound; split; cbn|].
  intros id. by destruct (sp_threads _ _ (reflexivity c) id) as [st E]; exists st.
Qed.

Lemma step_same id f c :
  same_protocol c (on_thread id (fun t => set_step (f t) t) c).
Proof.
  split; try done. intros i. rewrite on_thread_lookup. case_decide as E.
  - destruct (threads c !! i) as [t|]; [by exists (f t)|by exists (mkStepping [] 0 StepNone 0 0 (None, 0, 0))].
  - by destruct (sp_threads _ _ (reflexivity c) i) as [st E']; exists st.
Qed.

Lemma same_good c c' : same_protocol c c' -> core_ok c' -> good c -> good c'.
Proof.
  intros [E1 E2 E3 E4 E5 E6 [D1 D2 D3 D4] E8] Hc' [Hc Hr]. split; [done|]. rewrite D2.
  by rewrite (active_core_eq c c').
Qed.

(** What a part of a coordinator call does to the core when it touches neither
    the stop nor the threads' places. *)
Definition harmless (s s' : sys) : Prop :=
  (core_ok (s_core s) -> core_ok (s_core s')) /\ same_protocol (s_core s) (s_core s').

Lemma harmless_good s s' : harmless s s' -> good (s_core s) -> good (s_core s').
Proof. intros [H1 H2] Hg. apply (same_good _ _ H2); [|done]. by apply H1, Hg. Qed.

#[global] Instance harmless_trans : Transitive harmless.
Proof. intros s1 s2 s3 [A1 A2] [B1 B2]. split; [auto|by etrans]. Qed.

Lemma harmless_core s s' : s_core s' = s_core s -> harmless s s'.
Proof. unfold harmless. by intros ->. Qed.

Lemma slow_word_harmless f s s' :
  s_core s' = on_domain (fun d => set_word (f (word d)) d) (s_core s) ->
  (forall w, has_bits (f w) IntrDebugStop = has_bits w IntrDebugStop) -> harmless s s'.
Proof.
  intros E Hf. unfold harmless. rewrite E. split; [|by apply slow_word_same].
  intros Hc. by apply domain_word_ok.
Qed.

Lemma addSlow_harmless s : harmless s (addSlowPathDemand s).
Proof.
  unfold addSlowPathDemand. case (_ =? 0); [|by apply harmless_core].
  apply (slow_word_harmless (fun w => set_bits w IntrDebugSlowPath)); [done|apply slow_bit_set].
Qed.

Lemma removeSlow_harmless s : harmless s (removeSlowPathDemand s).
Proof.
  unfold removeSlowPathDemand. case (_ =? 1); [|by apply harmless_core].
  apply (slow_word_harmless (fun w => clear_bits 32 w IntrDebugSlowPath));
    [done|apply slow_bit_clear].
Qed.

Lemma cancelStep_harmless id s : harmless s (cancelStepIfArmed id s).
Proof.
  unfold cancelStepIfArmed. destruct (threads (s_core s) !! id); [|by apply harmless_core].
  case_decide; [by apply harmless_core|]. etrans; [|apply removeSlow_harmless].
  split; [apply (set_step_ok id (fun t => disarm (t_step t)))|apply step_same].
Qed.

Lemma cancelArmed_harmless s : harmless s (cancelArmedStepsInEpoch s).
Proof.
  unfold cancelArmedStepsInEpoch. generalize (epochLeases (s_core s)) as ids. intros ids.
  revert s. induction ids as [|id ids IH]; intros s; [by apply harmless_core|]. cbn [fold_left].
  etrans; [apply cancelStep_harmless|apply IH].
Qed.

(** *** Committing *)

Lemma first_unacked_none isC epoch c ids id t :
  first_unacked isC epoch c ids = None -> id ∈ ids -> threads c !! id = Some t ->
  isC id t = false -> epoch <= debugAckEpoch t.
Proof.
  unfold first_unacked. intros H Hi Ht Hx.
  set (P := fun id => match threads c !! id with
                      | Some t => negb (isC id t) && (debugAckEpoch t <? epoch)
                      | None => false
                      end = true) in H.
  destruct (Z.ltb_spec (debugAckEpoch t) epoch) as [Hlt|]; [|done]. exfalso.
  assert (id ∈ base.filter P ids) as Hin.
  { apply list_elem_of_filter. split; [|done]. unfold P. rewrite Ht, Hx. by apply Z.ltb_lt in Hlt as ->. }
  destruct (base.filter P ids) as [|x l] eqn:E; [set_solver|].
  assert (x ∈ base.filter P ids) as [Hx' _]%list_elem_of_filter by (rewrite E; by left).
  unfold P in Hx'. destruct (threads c !! x); cbn in H; congruence.
Qed.

Lemma isController_excluded ctl s id t : isController ctl s id t = false -> debugExcluded t = false.
Proof. unfold isController. by intros [_ H]%orb_false_iff. Qed.

(** The members a commit leases. *)
Definition members (ctl : option Z) (s : sys) : list Z :=
  base.filter (fun id => controllerOf ctl s (s_core s) id = false)
    (snapshotLeases (s_core s) (bound (s_core s))).

Lemma elem_of_members ctl s id :
  core_ok (s_core s) ->
  id ∈ members ctl s <->
  exists t, threads (s_core s) !! id = Some t /\ t_domain t = bound (s_core s) /\
            isController ctl s id t = false.
Proof.
  intros Hc. unfold members, snapshotLeases, controllerOf, member_of.
  rewrite !list_elem_of_filter, (ck_registry _ Hc). split.
  - destruct (threads (s_core s) !! id) as [t|]; [|naive_solver]. intros (H1 & H2 & _).
    exists t. split; [done|]. split; [|done]. by apply Z.eqb_eq, Is_true_true.
  - intros (t & -> & Hd & Hi). rewrite Hd, Z.eqb_refl. split_and!; [done|done|eauto].
Qed.

(** The state a commit is made in: the stop forms, everybody has acknowledged
    it, the dataflow gate is quiet. *)
Record committable (ctl : option Z) (s : sys) : Prop := {
  cm_core : core_ok (s_core s);
  cm_forming : forming (s_core s) = true;
  cm_quiet : quiesced (s_core s) = true;
  cm_acked : forall id, id ∈ members ctl s -> exists t, threads (s_core s) !! id = Some t /\
    debugAckEpoch t = currentEpoch s;
}.

Definition leased (ctl : option Z) (s : sys) : sys :=
  on_core (fun c => set_epochLeases (epochLeases c ++ members ctl s) c) s.

Lemma commit_eq ctl epoch s :
  commit ctl epoch (snapshotLeases (s_core s) (bound (s_core s))) s =
  notify (DebugStopped sessionId_
            (holdGeneration (s_hold (cancelArmedStepsInEpoch (report_pause (leased ctl s))))) epoch)
    (on_control (set_pending false)
       (on_core commit_core (cancelArmedStepsInEpoch (report_pause (leased ctl s))))).
Proof. done. Qed.

(** Everything a commit does before it turns [forming] into [stopped]. *)
Lemma leased_ok ctl s : committable ctl s -> core_ok (s_core (leased ctl s)).
Proof.
  intros [Hc Hf Hq Ha]. apply leases_ok; [done|unfold active; rewrite Hf; apply orb_true_r|].
  intros id Hi. destruct (Ha id Hi) as (t & Ht & Hack).
  apply elem_of_members in Hi as (t' & Ht' & Hd & _); [|done].
  replace t' with t in * by congruence. exists t. split_and!; [done..|].
  intros Hs. by rewrite (forming_not_stopped _ Hc Hf) in Hs.
Qed.

Definition committed (ctl : option Z) (s : sys) : sys :=
  cancelArmedStepsInEpoch (report_pause (leased ctl s)).

Lemma committed_harmless ctl s : harmless (leased ctl s) (committed ctl s).
Proof. exact (cancelArmed_harmless (report_pause (leased ctl s))). Qed.

Lemma commit_core_eq ctl epoch s :
  s_core (commit ctl epoch (snapshotLeases (s_core s) (bound (s_core s))) s)
  = commit_core (s_core (committed ctl s)).
Proof. rewrite commit_eq, notify_core. done. Qed.

Lemma committed_protocol ctl s : same_protocol (s_core (leased ctl s)) (s_core (committed ctl s)).
Proof. apply committed_harmless. Qed.

Lemma commit_good ctl epoch s :
  committable ctl s -> good (s_core s) ->
  good (s_core (commit ctl epoch (snapshotLeases (s_core s) (bound (s_core s))) s)).
Proof.
  intros Hcm [_ Hr]. pose proof (leased_ok ctl s Hcm) as Hl. destruct Hcm as [Hc Hf Hq Ha].
  destruct (committed_harmless ctl s) as [Hok [E1 E2 E3 E4 E5 E6 [D1 D2 D3 D4] E8]].
  rewrite commit_core_eq. pose proof (forming_not_stopped _ Hc Hf) as Hs. split.
  - apply commit_core_ok; [by apply Hok|by rewrite E2|by rewrite E1|].
    unfold quiesced in *. by rewrite E5.
  - intros _. change (bound_domain (commit_core ?c)) with (bound_domain c). rewrite D2.
    apply Hr. unfold active. rewrite Hf. apply orb_true_r.
Qed.

(** One pass either leaves the stop forming or commits it. *)
Lemma tryCommitPass_cases ctl epoch s :
  good (s_core s) ->
  let '(s', r) := tryCommitPass ctl epoch s in
  match r with
  | inl _ => good (s_core s') /\ stopped (s_core s') = stopped (s_core s) /\
             forming (s_core s') = forming (s_core s) /\ currentEpoch s' = currentEpoch s /\
             exists c, s' = set_s_core c s
  | inr _ => exists c, committable ctl (set_s_core c s) /\ good c /\ same_but_threads (s_core s) c /\
             currentEpoch s = epoch /\
             s' = commit ctl epoch (snapshotLeases c (bound c)) (set_s_core c s)
  end.
Proof.
  intros [Hc Hr]. unfold tryCommitPass.
  destruct (negb _ || _) eqn:E.
  { split_and!; try done. exists (s_core s). by destruct s. }
  apply orb_false_iff in E as [Hf%negb_false_iff He%negb_false_iff%Z.eqb_eq]. subst epoch.
  assert (active (s_core s) = true) as Ha by (unfold active; rewrite Hf; apply orb_true_r).
  pose proof (scan_ok (isController ctl s) (snapshotLeases (s_core s) (bound (s_core s)))
    (s_core s) true "" Hc Ha (isController_excluded ctl s) (snapshot_member _ _)) as Hscan.
  unfold currentEpoch. destruct (fold_left _ _ _) as [[c acked] laggard].
  destruct Hscan as [Hc' Hs]. pose proof (same_fields _ _ Hs) as (E1 & E2 & E3 & E4 & E5 & E6 & E7).
  assert (bound_domain c = bound_domain (s_core s)) as Eb by (unfold bound_domain; by rewrite E3, E4).
  assert (good c) as Hg by (split; [done|]; rewrite Eb, (active_core_eq (s_core s) c) by done; done).
  cbn [s_core set_s_core]. destruct (negb acked || negb (quiesced c)) eqn:Hq.
  { split_and!; [done..|cbn; by rewrite Eb|by exists c]. }
  apply orb_false_iff in Hq as [_ Hq%negb_false_iff].
  destruct (first_unacked _ _ c _) as [[id t]|] eqn:Hu.
  { split_and!; [done..|cbn; by rewrite Eb|by exists c]. }
  exists c. split_and!; try done. split; [done|by rewrite <- Hf|done|].
  intros id (t & Ht & Hd & Hi)%elem_of_members; [|done]. exists t. split; [done|].
  cbn [s_core set_s_core] in Ht, Hd. unfold currentEpoch. cbn [s_core set_s_core]. rewrite Eb.
  assert (stopEpoch (bound_domain (s_core s)) <= debugAckEpoch t) as H1.
  { apply (first_unacked_none _ _ _ _ id t Hu); [|done|done].
    unfold snapshotLeases. apply list_elem_of_filter. split; [|apply (ck_registry _ Hc'); eauto].
    unfold member_of. by rewrite Ht, Hd, Z.eqb_refl. }
  pose proof (tk_ack _ _ _ _ (ck_threads _ Hc' id t Ht)) as H2. rewrite Hd in H2.
  change (default new_domain (domains c !! bound c)) with (bound_domain c) in H2. rewrite Eb in H2. lia.
Qed.

Lemma tryCommitPass_good ctl epoch s :
  good (s_core s) -> good (s_core (fst (tryCommitPass ctl epoch s))).
Proof.
  intros Hg. pose proof (tryCommitPass_cases ctl epoch s Hg) as H.
  destruct (tryCommitPass ctl epoch s) as [s' [|[]]]; cbn [fst]; [apply H|].
  destruct H as (c & Hcm & Hgc & _ & _ & ->). by apply (commit_good ctl epoch (set_s_core c s)).
Qed.

(** *** The calls *)

Definition room (s : sys) : Prop :=
  stopEpoch (bound_domain (s_core s)) < 2 ^ 64 - 1 /\
  releaseGeneration (bound_domain (s_core s)) < 2 ^ 64 - 1.

Lemma no_wrap_room s : core_ok (s_core s) -> no_wrap s -> room s.
Proof.
  intros Hc [Hw _]. destruct (ck_bound _ Hc) as [dm Hdm]. unfold room.
  rewrite (bound_domain_some _ _ Hdm). by apply (Hw _ _ Hdm).
Qed.

Lemma begin_good reason s s' b :
  good (s_core s) -> room s -> beginStop reason s = (s', b) -> good (s_core s').
Proof. intros Hg [H1 H2] E. pose proof (beginStop_good reason s Hg H1 H2) as H. by rewrite E in H. Qed.

(** Stores into the parts of the state the threads never see. *)
#[local] Ltac core_only :=
  repeat first
    [ rewrite notify_core | rewrite openHold_core | rewrite release_hold_core ];
  try assumption.

Lemma openHold_good e r id s : good (s_core s) -> good (s_core (openHoldAndWake e r id s)).
Proof. by core_only. Qed.

Lemma advance_good ctl s : good (s_core s) -> good (s_core (advancePendingStop ctl s)).
Proof.
  intros Hg. unfold advancePendingStop. destruct (negb (pending _)); [done|].
  destruct (negb (forming _)); [done|]. destruct (owners _ =? 0); [by apply cancelPending_good|].
  match goal with |- context [tryCommitPass ctl ?e ?t] => set (s1 := t) end.
  assert (good (s_core s1)) as H1 by (unfold s1; case (_ =? _); [done|by apply openHold_good]).
  pose proof (tryCommitPass_good ctl (currentEpoch s) s1 H1) as H2.
  by destruct (tryCommitPass _ _ s1) as [s2 [|]].
Qed.

Lemma giveUp_good e why w o s : good (s_core s) -> good (s_core (giveUp e why w o s)).
Proof.
  intros Hg. unfold giveUp. destruct (negb (forming (s_core s)) || _) eqn:E; [done|].
  apply orb_false_iff in E as [Hf%negb_false_iff _].
  case (has_owner _ _); [done|]. by apply rollback_good.
Qed.

Lemma run_command_good cmd s : good (s_core s) -> good (s_core (run_command cmd s)).
Proof.
  intros Hg. destruct cmd; cbn [run_command].
  - case (negb _); [done|]. destruct (stopped (s_core s)); [by apply resumeNow_good|].
    case (pending _); [by apply cancelPending_good|done].
  - destruct (stopped (s_core s)); [by apply resumeNow_good|].
    case (pending _); [by apply cancelPending_good|done].
Qed.

Lemma complete_good ctl s : good (s_core s) -> good (s_core (completeAsyncStop ctl s)).
Proof.
  intros Hg. unfold completeAsyncStop. case (negb _); [done|].
  match goal with |- context [tryCommitPass ctl ?e ?t] => set (s1 := t) end.
  assert (good (s_core s1)) as H1.
  { unfold s1. apply openHold_good. match goal with
      |- good (s_core (on_control _ (if _ then on_trap _ (on_control _ ?t) else _))) =>
        assert (good (s_core t)) as H
    end.
    - case_decide; [|done]. by apply (harmless_good _ _ (removeSlow_harmless _)).
    - by destruct (decide (trapReason (s_trap s) = Exception)). }
  match goal with |- context [tryCommitPass ctl ?e ?t] =>
    pose proof (tryCommitPass_good ctl e s1 H1) as H2 end.
  destruct (tryCommitPass _ _ s1) as [s2 [|]]; [|done]. by destruct (_ || _).
Qed.

Lemma worker_turn_good s : good (s_core s) -> good (s_core (worker_turn s)).
Proof.
  intros Hg. unfold worker_turn. destruct (worker (s_control s)) as [cmds|]; [|done].
  match goal with |- good (s_core (fold_left _ _ ?t)) => assert (good (s_core t)) as H; [|revert H; generalize t] end.
  - apply advance_good, complete_good. exact Hg.
  - clear. induction cmds as [|cmd cmds IH]; intros s Hg; [done|]. by apply IH, run_command_good.
Qed.

Lemma shutdown_good s : good (s_core s) -> good (s_core (resumeForShutdown s)).
Proof.
  intros Hg. unfold resumeForShutdown.
  match goal with |- context [resumeNow false ?t] => set (s1 := t) end.
  change (s_core s) with (s_core s1) in Hg.
  destruct (stopped (s_core s1)); [by apply resumeNow_good|].
  destruct (forming (s_core s1)) eqn:Hf; [by apply rollback_good|done].
Qed.

Lemma resume_good h s : good (s_core s) -> good (s_core (resume h s)).
Proof.
  intros Hg. unfold resume. case (has_owner _ _); [done|].
  case (_ && _); [by apply cancelPending_good|by apply resumeNow_good].
Qed.

Lemma interrupt_active s : core_ok (s_core s) -> interrupt s IntrDebugStop = active (s_core s).
Proof.
  intros Hc. unfold interrupt, bound_domain.
  rewrite (dk_bit _ _ (default_domain_ok _ (bound (s_core s)) Hc)), Z.eqb_refl. apply andb_true_r.
Qed.

Lemma endExecution_good s : good (s_core s) -> good (s_core (endExecution s)).
Proof.
  intros Hg. unfold endExecution.
  match goal with |- context [resumeNow false ?t] => set (s1 := t) end.
  change (s_core s) with (s_core s1) in Hg.
  destruct (stopped (s_core s1)) eqn:Hs; [by apply resumeNow_good|].
  rewrite (interrupt_active s1) by apply Hg. unfold active. rewrite Hs. cbn [orb].
  destruct (forming (s_core s1)) eqn:Hf; [by apply rollback_good|done].
Qed.

Lemma poll_good ctl w s : good (s_core s) -> good (s_core (fst (poll ctl w s))).
Proof.
  intros Hg. destruct w as [had dl|e dl]; cbn [poll].
  - pose proof (advance_good ctl s Hg) as H. set (s1 := advancePendingStop ctl s) in *.
    destruct (stopped (s_core s1)); [done|]. case (negb (forming (s_core s1)) || _); [|done].
    by destruct had.
  - pose proof (tryCommitPass_good ctl e s Hg) as H. destruct (tryCommitPass ctl e s) as [s1 [|]]; [|done].
    cbn [fst] in H. destruct (negb (forming (s_core s1))); [done|]. case (_ <=? _); [|done].
    by apply giveUp_good.
Qed.

Lemma record_waiter_core w : s_core (record_waiter w) = s_core (fst w).
Proof. by destruct w as [s [|]]. Qed.

(** *** The calls that begin a stop *)

Lemma requestHostPause_good s : good (s_core s) -> room s -> good (s_core (fst (requestHostPause s))).
Proof.
  intros Hg Hr. unfold requestHostPause.
  match goal with |- context [beginStop HostStop ?t] => set (s1 := t) end.
  destruct (stopped (s_core s1)); [done|]. destruct (forming (s_core s1)); [done|].
  destruct (beginStop HostStop s1) as [s2 b] eqn:E. pose proof (begin_good _ s1 s2 b Hg Hr E) as H.
  destruct b; [|done]. by apply openHold_good.
Qed.

Lemma requestDebuggerPause_good s :
  good (s_core s) -> room s -> good (s_core (fst (requestDebuggerPause s))).
Proof.
  intros Hg Hr. unfold requestDebuggerPause.
  match goal with |- context [beginStop Pause ?t] => set (s1 := t) end.
  destruct (stopped (s_core s1) || forming (s_core s1)); [done|].
  destruct (beginStop Pause s1) as [s2 b] eqn:E. pose proof (begin_good _ s1 s2 b Hg Hr E) as H.
  destruct b; [|done]. by apply openHold_good.
Qed.

Lemma requestStop_good ctl reason timeout s :
  good (s_core s) -> room s -> good (s_core (fst (requestStop ctl reason timeout s))).
Proof.
  intros Hg Hr. unfold requestStop. destruct (beginStop reason s) as [s1 b] eqn:E.
  pose proof (begin_good _ s s1 b Hg Hr E) as H. destruct b; [by apply openHold_good|].
  by destruct (_ && _).
Qed.

Lemma beginExecution_good s : good (s_core s) -> room s -> good (s_core (beginExecution s)).
Proof.
  intros Hg Hr. unfold beginExecution.
  match goal with |- context [beginStop HostStop ?t] => set (s1 := t) end.
  case (has_owner _ _); [|done]. destruct (beginStop HostStop s1) as [s2 b] eqn:E.
  pose proof (begin_good _ s1 s2 b Hg Hr E) as H. by destruct b.
Qed.

Lemma trap_good reason id ch stmt d s :
  good (s_core s) -> room s -> good (s_core (fst (tryBeginAsyncStop reason id ch stmt d s))).
Proof.
  intros Hg Hr. unfold tryBeginAsyncStop.
  match goal with |- context [if ?b then _ else _] => destruct b end; [done|].
  case (_ <? _); [done|]. destruct (beginStop reason s) as [s1 b] eqn:E.
  pose proof (begin_good _ s s1 b Hg Hr E) as H. by destruct b.
Qed.

Lemma stepAndResume_good id mode s :
  good (s_core s) -> good (s_core (fst (stepAndResume id mode s))).
Proof.
  intros Hg. unfold stepAndResume. destruct (threads (s_core s) !! id) as [t|]; [|done].
  case (_ || _); [done|]. case (has_owner _ _); [done|]. cbn zeta.
  match goal with |- context [resume false ?t] => set (s1 := t) end.
  assert (good (s_core s1)) as H1.
  { unfold s1. apply (harmless_good _ _ (addSlow_harmless _)).
    set (s2 := cancelStepIfArmed id s).
    assert (good (s_core s2)) as H2 by (by apply (harmless_good _ _ (cancelStep_harmless id s))).
    apply (same_good _ _ (step_same id (fun t => arm s2 mode (t_step t)) (s_core s2))); [|done].
    by apply set_step_ok, H2. }
  pose proof (resume_good false s1 H1) as H2. set (s2 := resume false s1) in *.
  cbn [fst]. destruct (negb _); [by core_only|done].
Qed.

(** *** Every step *)

(** A thread's move keeps the domains and the stop. *)
Record moved (c c' : core) : Prop := {
  mv_stopped : stopped c' = stopped c;
  mv_forming : forming c' = forming c;
  mv_bound : bound c' = bound c;
  mv_domains : domains c' = domains c;
}.

#[global] Instance moved_refl : Reflexive moved.
Proof. by intros c. Qed.
#[global] Instance moved_trans : Transitive moved.
Proof. intros c1 c2 c3 [] []. split; congruence. Qed.

Lemma moved_on_thread id f c : moved c (on_thread id f c).
Proof. done. Qed.
Lemma moved_enter_gate id c : moved c (enter_gate id c).
Proof. done. Qed.

#[local] Hint Resolve moved_on_thread moved_enter_gate moved_refl : moved.

(** Split every test of a thread operation, then each branch is a move. *)
#[local] Ltac by_branches :=
  repeat match goal with
    | |- context [match ?x with _ => _ end] => destruct x
    end; cbn [fst]; auto with moved.

Lemma ackAndPark_moved back id c : moved c (ackAndPark back id c).
Proof. unfold ackAndPark. by_branches. Qed.
Lemma ackNoPark_moved id c : moved c (ackNoPark id c).
Proof. unfold ackNoPark. by_branches. Qed.
#[local] Hint Resolve ackAndPark_moved ackNoPark_moved : moved.

Lemma parkIfRequested_moved id c : moved c (debugStopParkIfRequested id c).
Proof. unfold debugStopParkIfRequested. by_branches. Qed.
#[local] Hint Resolve parkIfRequested_moved : moved.

Lemma wake_moved id c : moved c (wake id c).
Proof. unfold wake. by_branches. Qed.
Lemma admitOrPark_moved b id c : moved c (fst (admitOrPark b id c)).
Proof. unfold admitOrPark. by_branches. Qed.
Lemma enter_execute_moved rt id c : moved c (enter_execute rt id c).
Proof.
  unfold enter_execute. destruct (threads c !! id) as [t|]; [|done].
  pose proof (admitOrPark_moved (negb rt) id c) as H.
  destruct (debugExecNesting t =? 0); [|by split]. destruct (negb _ && _); [by split|].
  destruct (admitOrPark (negb rt) id c) as [c' []]; [|done..]. etrans; [exact H|apply moved_on_thread].
Qed.
Lemma leave_execute_moved id c : moved c (leave_execute id c).
Proof. done. Qed.
Lemma loop_top_moved rt deferred id c : moved c (loop_top rt deferred id c).
Proof.
  unfold loop_top. destruct (threads c !! id); [|done]. destruct (_ && _); [|done].
  destruct rt; [|auto with moved]. etrans; [apply ackNoPark_moved|apply leave_execute_moved].
Qed.
Lemma pop_call_moved id c : moved c (pop_call id c).
Proof. unfold pop_call. by_branches. Qed.
Lemma claim_dispatch_moved id c : moved c (claim_dispatch id c).
Proof. unfold claim_dispatch. by_branches. Qed.
Lemma work_section_moved rt id c : moved c (work_section rt id c).
Proof. unfold work_section. by_branches. Qed.
Lemma try_section_moved id c : moved c (try_section id c).
Proof. unfold try_section. by_branches. Qed.
Lemma registerThread_moved id d kind c : moved c (registerThread id d kind c).
Proof.
  unfold registerThread, addLateEpochLease. cbn [threads set_threads]. rewrite lookup_insert_eq.
  repeat match goal with |- context [if ?b then _ else _] => destruct b end; by split.
Qed.

Lemma move_good c c' : moved c c' -> core_ok c' -> good c -> good c'.
Proof.
  intros [E1 E2 E3 E4] Hc [_ Hr]. split; [done|]. unfold bound_domain. rewrite E3, E4.
  by rewrite (active_core_eq c c').
Qed.

(** User code may change the thread's own frames. *)
Lemma instr_ok id fs c t :
  core_ok c -> threads c !! id = Some t -> at_ t = AtCode ->
  core_ok (on_thread id (fun t => set_at AtTop (set_step (mkStepping fs (nextActivationId (t_step t))
          (debugStepMode (t_step t)) (debugStepActivation (t_step t))
          (debugStepOriginIndex (t_step t)) (debugSuppress (t_step t))) t)) c).
Proof.
  intros Hc Ht Hat. pose proof (ck_threads _ Hc id t Ht) as Hok.
  apply on_thread_ok; [done|]. intros t' Ht'. replace t' with t by congruence. split; [|done].
  split; [|done|by left|done]. apply move_ok; [by apply thread_ok_step|done| |done|done|].
  - intros Hx _. apply (tk_owner _ _ _ _ Hok Hx). rewrite Hat. by right.
  - intros Hx Ha Hd Hack Hs. pose proof (tk_frozen _ _ _ _ Hok Hx Ha Hd Hack) as Hf.
    cbn in Hs. rewrite Hs in Hf. unfold quiet in Hf. by rewrite Hat in Hf.
Qed.

(** The labels of the coordinator's calls. *)
Definition thread_of (l : label) : option Z :=
  match l with
  | LRegister id _ _ | LUnregister id | LMarkExcluded id | LPark id | LWake id | LEnter _ id
  | LLeave id | LTop _ _ id | LInstr id _ | LPop id | LClaim id | LWork _ id | LTry id
  | LLeaveSection id => Some id
  | _ => None
  end.

Lemma thread_run_ok l id s :
  thread_of l = Some id -> core_ok (s_core s) -> valid l s ->
  core_ok (s_core (run l s)) /\ moved (s_core s) (s_core (run l s)).
Proof.
  intros Hl Hc Hv.
  destruct l; try done; injection Hl as ->; cbn [valid run] in *; unfold on_core, thread_is in *;
    cbn [s_core set_s_core].
  - split; [by apply registerThread_ok, Hv|apply registerThread_moved].
  - destruct Hv as (Hl & t & Ht & _ & Hs). split; [by apply (unregister_ok _ t)|done].
  - split; [by apply set_excluded_ok|done].
  - destruct Hv as (t & Ht & Hat). split; [|apply parkIfRequested_moved].
    apply (parkIfRequested_ok _ _ t); [done|done|by destruct Hat as [-> | ->]|].
    by destruct Hat as [-> | ->].
  - split; [by apply wake_ok|apply wake_moved].
  - destruct Hv as (t & Ht & Hat). split; [by apply (enter_execute_ok _ _ _ t)|apply enter_execute_moved].
  - destruct Hv as (t & Ht & Hat & Hn & Hs). split; [by apply (leave_ok _ _ t)|apply leave_execute_moved].
  - destruct Hv as (t & Ht & Hat & Hrt & _). split; [by apply (loop_top_ok _ _ _ _ t)|apply loop_top_moved].
  - destruct Hv as (t & Ht & Hat). split; [by apply (instr_ok _ _ _ t)|done].
  - destruct Hv as (t & Ht & Hat & _ & Hs). split; [by apply (pop_ok _ _ t)|apply pop_call_moved].
  - destruct Hv as (t & Ht & Hat). split; [by apply (claim_dispatch_ok _ _ t)|apply claim_dispatch_moved].
  - destruct Hv as (t & Ht & Hat). split; [by apply (work_section_ok _ _ _ t)|apply work_section_moved].
  - destruct Hv as (t & Ht & Hat). split; [by apply (try_section_ok _ _ t)|apply try_section_moved].
  - destruct Hv as (t & Ht & Hh). split; [by apply (leave_section_ok _ _ t)|done].
Qed.

Lemma run_good l s : good (s_core s) -> no_wrap s -> valid l s -> good (s_core (run l s)).
Proof.
  intros Hg Hw Hv. pose proof (no_wrap_room s (proj1 Hg) Hw) as Hr.
  destruct (thread_of l) as [id|] eqn:Hl.
  { destruct (thread_run_ok l id s Hl (proj1 Hg) Hv) as [Hc Hm]. by apply (move_good _ _ Hm). }
  destruct l; try done; cbn [run valid] in *; rewrite ?record_waiter_core;
    try (rewrite ?notify_core; exact Hg).
  - by apply requestHostPause_good.
  - by apply requestDebuggerPause_good.
  - unfold releaseHostPause. by destruct (_ || _).
  - unfold holdDropped. destruct (stopped (s_core s) || forming (s_core s)); [done|]. cbn [fst].
    by rewrite notify_core.
  - by apply shutdown_good.
  - by apply resume_good.
  - unfold joinStop. by destruct (negb _).
  - by apply beginExecution_good.
  - by apply endExecution_good.
  - destruct Hv as (Hs & Hf & _ & Hpl).
    split; [apply rebind_ok; [apply Hg|unfold active; by rewrite Hs, Hf|done]|].
    unfold rebind. case (_ =? _); [apply Hg|]. intros Ha. unfold active in Ha. cbn in Ha. by rewrite Hs, Hf in Ha.
  - unfold notifySessionEnd. by rewrite notify_core.
  - by apply requestStop_good.
  - destruct (s_waiter s); [|done]. rewrite record_waiter_core. by apply poll_good.
  - by apply trap_good.
  - by apply worker_turn_good.
  - by apply stepAndResume_good.
  - by apply (harmless_good _ _ (cancelStep_harmless id s)).
  - by apply (harmless_good _ _ (addSlow_harmless s)).
  - by apply (harmless_good _ _ (removeSlow_harmless s)).
Qed.

Lemma init_ok engine host clock : core_ok (s_core (init engine host clock)).
Proof.
  cbn. split; cbn; try done.
  - intros d dm [<- <-]%lookup_singleton_Some. by split; cbn.
  - apply NoDup_nil_2.
  - intros id. rewrite lookup_empty. split; [by intros ?%elem_of_nil|by intros [? ?]].
  - by destruct engine.
  - by intros id ?%elem_of_nil.
Qed.

(** Every reachable state satisfies the invariant. *)
Lemma reachable_good engine host clock s : reachable engine host clock s -> good (s_core s).
Proof.
  unfold reachable. intros H. remember (init engine host clock) as s0 eqn:E.
  assert (good (s_core s0)) as H0 by (rewrite E; split; [apply init_ok|done]). clear E.
  induction H as [|s1 s2 s3 (l & Hw & Hv & ->) _ IH]; [done|]. by apply IH, run_good.
Qed.

End StopInvariant.
