(* ===== verification/StopProofs.v ===== *)
(** * StopProofs: what the stop protocol guarantees

    The theorems about [StopCoordinator], on every state its coordinator, its
    worker, the embedding host and the program's threads can reach. *)

From S2P Require Import Prelude Ustring DebugHandles DebugInfo StopCoordinator StopInvariant.
From stdpp Require Import numbers pretty.

Module StopProofs.

Import StopCoordinator StopInvariant.
Local Open Scope Z_scope.

(** ** The conversation with the host

    The host's side of it: what it knows from the notices, oldest last.  A hold
    has a generation; [open] is the epoch of the stop last announced under it and
    not yet reported, failed or continued. *)

Record view := mkView { v_held : bool; v_gen : Z; v_open : option Z }.

(** The notices a host that follows the protocol accepts. *)
Definition accept (v : view) (n : notice) : option view :=
  let '(mkView held gen open) := v in
  match n with
  | HoldRequested r =>
      if negb held && (r_generation r =? gen + 1)
      then Some (mkView true (r_generation r) (Some (r_epoch r))) else None
  | HoldReasserted r =>
      if held && (r_generation r =? gen) then Some (mkView held gen (Some (r_epoch r))) else None
  | DebugStopped _ g e =>
      if held && (g =? gen) && bool_decide (open = Some e) then Some (mkView held gen None) else None
  | ContinueRequested _ g => if held && (g =? gen) then Some (mkView false gen None) else None
  | StepResumed _ g _ => if held && (g =? gen) then Some (mkView held gen None) else None
  | StopFailed _ g _ _ => if g =? gen then Some (mkView held gen None) else None
  | SessionEnded _ _ => Some v
  | HostDropped => Some (mkView false gen None)
  end.

Fixpoint replay (ns : list notice) : option view :=
  match ns with
  | [] => Some (mkView false 0 None)
  | n :: ns => match replay ns with Some v => accept v n | None => None end
  end.

(** The host knows the hold as the coordinator does. *)
Definition told (s : sys) (open : option Z) : Prop :=
  hostControl (s_hold s) = true /\
  replay (s_notices s) = Some (mkView (holdActive (s_hold s)) (holdGeneration (s_hold s)) open).

Definition woken (s : sys) : Z := pendingWokenEpoch (s_control s).

Record host_ok (s : sys) : Prop := {
  ho_gen : 0 <= holdGeneration (s_hold s) < 2 ^ 64;
  ho_told : exists open, told s open /\
    (forming (s_core s) = true -> woken s = currentEpoch s ->
     open = Some (currentEpoch s) /\ holdActive (s_hold s) = true);
  ho_stopped : stopped (s_core s) = true -> holdActive (s_hold s) = true;
  ho_woken : woken s <= currentEpoch s;
  ho_waiter : forall e dl, s_waiter s = Some (AwaitQuiescence e dl) ->
    e <= currentEpoch s /\ (forming (s_core s) = true -> e = currentEpoch s -> woken s = e);
}.

(** What [host_ok] reads of a state. *)
Record host_same (s s' : sys) : Prop := {
  hs_stopped : stopped (s_core s') = stopped (s_core s);
  hs_forming : forming (s_core s') = forming (s_core s);
  hs_epoch : currentEpoch s' = currentEpoch s;
  hs_woken : woken s' = woken s;
  hs_hold : s_hold s' = s_hold s;
  hs_notices : s_notices s' = s_notices s;
  hs_waiter : s_waiter s' = s_waiter s;
}.

#[global] Instance host_same_refl : Reflexive host_same.
Proof. by intros s. Qed.
#[global] Instance host_same_trans : Transitive host_same.
Proof. intros s1 s2 s3 [] []. split; congruence. Qed.

Lemma host_same_ok s s' : host_same s s' -> host_ok s -> host_ok s'.
Proof.
  intros [E1 E2 E3 E4 E5 E6 E7] [Hg (o & Ht & Ho) Hs Hw Hq].
  split; rewrite ?E1, ?E2, ?E3, ?E4, ?E5, ?E7; try done.
  exists o. split; [|done]. unfold told in *. by rewrite E5, E6.
Qed.

(** A notice the host accepts. *)
Lemma notify_told n s o v :
  told s o ->
  accept (mkView (holdActive (s_hold s)) (holdGeneration (s_hold s)) o) n = Some v ->
  hostControl (s_hold (notify n s)) = true /\ replay (s_notices (notify n s)) = Some v.
Proof. intros [Hc Hr] Hv. unfold notify. rewrite Hc. cbn. split; [done|]. by rewrite Hr. Qed.

Lemma notify_hold n s : s_hold (notify n s) = s_hold s.
Proof. unfold notify. by destruct (hostControl _). Qed.
Lemma notify_control n s : s_control (notify n s) = s_control s.
Proof. unfold notify. by destruct (hostControl _). Qed.
Lemma notify_waiter n s : s_waiter (notify n s) = s_waiter s.
Proof. unfold notify. by destruct (hostControl _). Qed.
Lemma notify_epoch n s : currentEpoch (notify n s) = currentEpoch s.
Proof. unfold currentEpoch. by rewrite notify_core. Qed.

(** Opening the hold for the current epoch. *)
Definition wake_epoch (s : sys) : sys := on_control (set_pendingWokenEpoch (currentEpoch s)) s.

(** A new generation is still free, should one be needed. *)
Definition hold_room (s : sys) : Prop :=
  holdActive (s_hold s) = false -> holdGeneration (s_hold s) < 2 ^ 64 - 1.

Lemma open_ok reason id s :
  host_ok s -> hold_room s ->
  host_ok (openHoldAndWake (currentEpoch s) reason id (wake_epoch s)).
Proof.
  intros [Hg (o & Ht & Ho) Hs Hw Hq] Hlt. unfold openHoldAndWake.
  change (s_hold (wake_epoch s)) with (s_hold s).
  unfold hold_room in Hlt. destruct (holdActive (s_hold s)) eqn:Ha.
  - match goal with |- host_ok (notify ?n ?t) =>
      destruct (notify_told n t o (mkView true (holdGeneration (s_hold s)) (Some (currentEpoch s))))
        as [H1 H2] end.
    { exact Ht. }
    { cbn. by rewrite Ha, Z.eqb_refl. }
    split; unfold woken; rewrite ?notify_hold, ?notify_core, ?notify_control, ?notify_epoch,
      ?notify_waiter; try done.
    + exists (Some (currentEpoch s)). split; [|done]. split; [done|]. rewrite H2, notify_hold. cbn.
      by rewrite Ha.
    + intros e dl E. destruct (Hq e dl E) as [H3 H4]. by split.
  - specialize (Hlt eq_refl).
    assert (wrapU 64 (holdGeneration (s_hold s) + 1) = holdGeneration (s_hold s) + 1) as ->
      by (apply wrapU_id; unfold inU; lia).
    match goal with |- host_ok (notify ?n ?t) => set (s1 := t); set (nt := n) end.
    assert (hostControl (s_hold (notify nt s1)) = true /\ replay (s_notices (notify nt s1))
      = Some (mkView true (holdGeneration (s_hold s) + 1) (Some (currentEpoch s)))) as [H1 H2].
    { destruct Ht as [Hc Hr]. unfold notify, s1. cbn. rewrite Hc. cbn. split; [done|].
      rewrite Hr, Ha. cbn. by rewrite Z.eqb_refl. }
    split; unfold woken; rewrite ?notify_hold, ?notify_core, ?notify_control, ?notify_epoch,
      ?notify_waiter; try done.
    + cbn. lia.
    + exists (Some (currentEpoch s)). split; [|done]. split; [done|]. by rewrite H2, notify_hold.
    + intros e dl E. destruct (Hq e dl E) as [H3 H4]. by split.
Qed.

(** The stop is over: released, given up or withdrawn. *)
Lemma over_ok s s' o :
  host_ok s -> told s' o ->
  stopped (s_core s') = false -> forming (s_core s') = false ->
  currentEpoch s' = currentEpoch s -> woken s' = woken s -> s_waiter s' = s_waiter s ->
  holdGeneration (s_hold s') = holdGeneration (s_hold s) -> host_ok s'.
Proof.
  intros [Hg _ _ Hw Hq] Ht Hs Hf He Hwk Hwt Hgn.
  split; rewrite ?Hs, ?Hf, ?He, ?Hwk, ?Hwt, ?Hgn; try done.
  - exists o. by split.
  - intros e dl E. destruct (Hq e dl E) as [H _]. by split.
Qed.

Lemma release_hold_fields s :
  s_control (release_hold s) = s_control s /\ s_waiter (release_hold s) = s_waiter s /\
  currentEpoch (release_hold s) = currentEpoch s /\
  holdGeneration (s_hold (release_hold s)) = holdGeneration (s_hold s).
Proof.
  unfold release_hold. destruct (holdActive (s_hold s)); [|done].
  by rewrite notify_control, notify_waiter, notify_epoch, notify_hold.
Qed.

Lemma release_hold_told s o : told s o -> exists o', told (release_hold s) o'.
Proof.
  unfold release_hold. destruct (holdActive (s_hold s)) eqn:Ha; [|eauto]. intros [Hc Hr].
  exists None. unfold told, notify. cbn. rewrite Hc. cbn. split; [done|].
  rewrite Hr, Ha. cbn. by rewrite Z.eqb_refl.
Qed.

Lemma release_epoch c : stopEpoch (bound_domain (release_core c)) = stopEpoch (bound_domain c).
Proof. rewrite release_core_eq. unfold bound_domain. cbn. by rewrite lookup_insert_eq. Qed.

Lemma release_stopped c : stopped (release_core c) = stopped c.
Proof. by rewrite release_core_eq. Qed.
Lemma release_forming c : forming (release_core c) = forming c.
Proof. by rewrite release_core_eq. Qed.

Lemma rollback_host epoch why s :
  core_ok (s_core s) -> forming (s_core s) = true -> host_ok s -> host_ok (rollback epoch why s).
Proof.
  intros Hc Hf Hh. pose proof (ho_told _ Hh) as (o & [Hct Hr] & _).
  pose proof (forming_not_stopped _ Hc Hf) as Hs.
  assert (forall A (P : core -> A), P (s_core (rollback epoch why s))
    = P (set_forming false (release_core (s_core s)))) as Hcore by (intros; by rewrite rollback_core).
  apply (over_ok s _ None); [done| | | | | | |].
  - unfold told, rollback, releaseAll, notify. cbn. rewrite Hct. cbn. split; [done|].
    rewrite Hr. cbn. by rewrite Z.eqb_refl.
  - rewrite Hcore, release_core_eq. exact Hs.
  - by rewrite Hcore.
  - unfold currentEpoch. rewrite Hcore. exact (release_epoch (s_core s)).
  - unfold woken, rollback. cbn. by rewrite notify_control.
  - unfold rollback. cbn. by rewrite notify_waiter.
  - unfold rollback. cbn. by rewrite notify_hold.
Qed.

Lemma cancelPending_host h s : core_ok (s_core s) -> host_ok s -> host_ok (cancelPending h s).
Proof.
  intros Hc Hh. unfold cancelPending. destruct (forming (s_core s)) eqn:Hf; cbn [negb]; [|done].
  pose proof (forming_not_stopped _ Hc Hf) as Hs. pose proof (ho_told _ Hh) as (o & Ht & _).
  match goal with |- host_ok (if h then release_hold ?t else ?t) => set (s1 := t) end.
  assert (told s1 o) as Ht1 by exact Ht.
  assert (stopped (s_core s1) = false) as Hs1 by (rewrite <- Hs; exact (release_stopped (s_core s))).
  assert (currentEpoch s1 = currentEpoch s) as He by exact (release_epoch (s_core s)).
  destruct h.
  - destruct (release_hold_told s1 o Ht1) as [o' Ht']. destruct (release_hold_fields s1) as (E1 & E2 & E3 & E4).
    apply (over_ok s _ o'); rewrite ?release_hold_core, ?E2, ?E3, ?E4; try done.
    unfold woken. by rewrite E1.
  - by apply (over_ok s _ o).
Qed.

Lemma resumeNow_host h s : core_ok (s_core s) -> host_ok s -> host_ok (resumeNow h s).
Proof.
  intros Hc Hh. unfold resumeNow. destruct (stopped (s_core s)) eqn:Hs; cbn [negb]; [|done].
  pose proof (ck_phase _ Hc Hs) as Hf. pose proof (ho_told _ Hh) as (o & Ht & _).
  match goal with |- host_ok (if h then release_hold ?t else ?t) => set (s1 := t) end.
  assert (told s1 o) as Ht1 by exact Ht.
  assert (stopped (s_core s1) = false) as Hs1 by exact (release_stopped (set_stopped false (s_core s))).
  assert (forming (s_core s1) = false) as Hf1
    by (rewrite <- Hf; exact (release_forming (set_stopped false (s_core s)))).
  assert (currentEpoch s1 = currentEpoch s) as He by exact (release_epoch (set_stopped false (s_core s))).
  destruct h.
  - destruct (release_hold_told s1 o Ht1) as [o' Ht']. destruct (release_hold_fields s1) as (E1 & E2 & E3 & E4).
    apply (over_ok s _ o'); rewrite ?release_hold_core, ?E2, ?E3, ?E4; try done.
    unfold woken. by rewrite E1.
  - by apply (over_ok s _ o).
Qed.

Lemma begin_host reason s s' b :
  good (s_core s) -> room s -> beginStop reason s = (s', b) -> host_ok s ->
  host_ok s' /\ s_hold s' = s_hold s /\
  (b = true -> forming (s_core s') = true /\ s_waiter s' = s_waiter s).
Proof.
  intros [Hc _] [Hr _] Hb Hh. unfold beginStop in Hb.
  destruct (negb _); [by injection Hb as <- <-|].
  destruct (stopped (s_core s)) eqn:Hs; [by injection Hb as <- <-|].
  destruct (forming (s_core s)) eqn:Hf; [by injection Hb as <- <-|]. injection Hb as <- <-.
  split; [|done]. destruct Hh as [Hg (o & Ht & Ho) Hst Hw Hq].
  set (s' := on_core publish_stop _).
  assert (currentEpoch s' = currentEpoch s + 1) as He.
  { unfold s', currentEpoch. cbn [on_core on_control s_core set_s_core set_s_control].
    unfold publish_stop. change (bound_domain (on_gate ?f ?c)) with (bound_domain c).
    rewrite on_domain_bound. cbn [stopEpoch]. change (bound_domain (set_forming true (s_core s)))
      with (bound_domain (s_core s)).
    apply wrapU_id. pose proof (dk_epoch _ _ (default_domain_ok _ (bound (s_core s)) Hc)) as [H _].
    change (default new_domain (domains (s_core s) !! bound (s_core s))) with (bound_domain (s_core s)) in H.
    unfold inU. lia. }
  split; rewrite ?He; try done.
  - exists o. split; [exact Ht|]. intros _ E. change (woken s') with (woken s) in E. lia.
  - change (woken s') with (woken s). lia.
  - intros e dl E. destruct (Hq e dl E) as [H _]. split; [lia|]. intros _ E'. lia.
Qed.

(** *** The slow path and the steps *)

Lemma slow_host s s' :
  same_protocol (s_core s) (s_core s') -> woken s' = woken s -> s_hold s' = s_hold s ->
  s_notices s' = s_notices s -> s_waiter s' = s_waiter s -> host_same s s'.
Proof. intros [? ? ? ? ? ? [? ? ? ?] ?] ? ? ? ?. split; try done. Qed.

Lemma ensureWorker_host s : host_same s (ensureWorker s).
Proof.
  unfold ensureWorker. split; try done. unfold woken. cbn.
  by destruct (workerRetired (s_control s)), (worker (s_control s)).
Qed.

Lemma addSlow_host s : host_same s (addSlowPathDemand s).
Proof.
  etrans; [apply ensureWorker_host|].
  apply slow_host; [exact (proj2 (addSlow_harmless s))|..]; unfold addSlowPathDemand;
    case (_ =? 0); done.
Qed.
Lemma removeSlow_host s : host_same s (removeSlowPathDemand s).
Proof. apply slow_host; [apply removeSlow_harmless|..]; unfold removeSlowPathDemand; case (_ =? 1); done. Qed.

Lemma cancelStep_host id s : host_same s (cancelStepIfArmed id s).
Proof.
  unfold cancelStepIfArmed. destruct (threads (s_core s) !! id); [|done]. case_decide; [done|].
  etrans; [|apply removeSlow_host]. by split.
Qed.

Lemma cancelArmed_host s : host_same s (cancelArmedStepsInEpoch s).
Proof.
  unfold cancelArmedStepsInEpoch. generalize (epochLeases (s_core s)) as ids. intros ids.
  revert s. induction ids as [|id ids IH]; intros s; [done|]. cbn [fold_left].
  etrans; [apply cancelStep_host|apply IH].
Qed.

(** *** The commit *)

Lemma committed_host ctl s : host_same s (committed ctl s).
Proof. etrans; [|apply cancelArmed_host]. by split. Qed.

Lemma commit_host ctl s :
  forming (s_core s) = true -> woken s = currentEpoch s -> host_ok s ->
  host_ok (commit ctl (currentEpoch s) (snapshotLeases (s_core s) (bound (s_core s))) s).
Proof.
  intros Hf Hwk Hh. rewrite commit_eq. fold (committed ctl s).
  pose proof (host_same_ok _ _ (committed_host ctl s) Hh) as Hh'.
  destruct (committed_host ctl s) as [E1 E2 E3 E4 E5 E6 E7].
  set (s1 := committed ctl s) in *.
  destruct Hh' as [Hg (o & Ht & Ho) Hs Hw Hq].
  destruct Ho as [-> Ha]; [congruence|congruence|].
  match goal with |- host_ok (notify ?n ?t) => set (s2 := t); set (nt := n) end.
  destruct (notify_told nt s2 (Some (currentEpoch s1))
    (mkView true (holdGeneration (s_hold s1)) None)) as [H1 H2]; [exact Ht| |].
  { change (s_hold s2) with (s_hold s1). cbn [accept nt]. rewrite Ha, Z.eqb_refl, E3.
    by rewrite bool_decide_eq_true_2. }
  assert (currentEpoch s2 = currentEpoch s1) as He by done.
  split; unfold woken; rewrite ?notify_hold, ?notify_core, ?notify_control, ?notify_epoch,
    ?notify_waiter; try done.
  - exists None. split; [|done]. split; [done|]. rewrite H2, notify_hold.
    change (s_hold s2) with (s_hold s1). by rewrite Ha.
  - intros e dl E. destruct (Hq e dl E) as [H _]. by split.
Qed.

Lemma tryCommit_host ctl epoch s s' r :
  tryCommitPass ctl epoch s = (s', r) -> good (s_core s) -> host_ok s ->
  (forming (s_core s) = true -> currentEpoch s = epoch -> woken s = epoch) -> host_ok s'.
Proof.
  intros E Hg Hh Hwk. pose proof (tryCommitPass_cases ctl epoch s Hg) as H. rewrite E in H.
  destruct r as [|[]].
  - destruct H as (_ & E1 & E2 & E3 & c & ->). apply (host_same_ok s); [|done]. by split.
  - destruct H as (c & [Hc Hf Hq Ha] & _ & Hs & <- & ->).
    pose proof (same_fields _ _ Hs) as (E1 & E2 & E3 & E4 & _).
    assert (currentEpoch (set_s_core c s) = currentEpoch s) as He
      by (unfold currentEpoch, bound_domain; cbn; by rewrite E3, E4).
    rewrite <- He. apply commit_host; [done| |].
    + change (woken s = currentEpoch (set_s_core c s)). rewrite He. apply Hwk; [|done]. by rewrite <- E2.
    + apply (host_same_ok s); [|done]. by split.
Qed.

(** *** The calls *)

Lemma advance_host ctl s :
  good (s_core s) -> hold_room s -> host_ok s ->
  host_ok (advancePendingStop ctl s).
Proof.
  intros Hg Hr Hh. unfold advancePendingStop. destruct (negb (pending _)); [done|].
  destruct (negb (forming _)); [apply (host_same_ok s); [by split|done]|].
  destruct (owners _ =? 0); [by apply cancelPending_host; [apply Hg|]|].
  match goal with |- context [tryCommitPass ctl ?e ?t] => set (s1 := t) end.
  assert (host_ok s1 /\ good (s_core s1) /\ currentEpoch s1 = currentEpoch s /\
          woken s1 = currentEpoch s) as (H1 & H2 & H3 & H4).
  { unfold s1. destruct (Z.eqb_spec (pendingWokenEpoch (s_control s)) (currentEpoch s)) as [E|E]; [done|].
    split_and!.
    - match goal with |- host_ok (openHoldAndWake _ _ _ (on_control _ ?t)) =>
        refine (open_ok HostStop 0 t _ Hr); apply (host_same_ok s); [by split|done] end.
    - by apply openHold_good.
    - unfold currentEpoch. by rewrite openHold_core.
    - unfold woken, openHoldAndWake. destruct (holdActive _); by rewrite notify_control. }
  destruct (tryCommitPass ctl (currentEpoch s) s1) as [s2 r] eqn:E.
  pose proof (tryCommit_host ctl _ s1 s2 r E H2 H1 (fun _ _ => H4)) as H5.
  destruct r; [|done]. apply (host_same_ok s2); [by split|done].
Qed.

Lemma giveUp_host e why w o s :
  good (s_core s) -> host_ok s -> host_ok (giveUp e why w o s).
Proof.
  intros [Hc _] Hh. unfold giveUp. destruct (negb (forming (s_core s)) || _) eqn:E; [done|].
  apply orb_false_iff in E as [Hf%negb_false_iff _].
  match goal with |- host_ok (if has_owner (owners (s_control ?t)) Host then _ else _) => set (s1 := t) end.
  assert (host_ok s1) as H1 by (apply (host_same_ok s); [by split|done]).
  case (has_owner _ _); [apply (host_same_ok s1); [by split|done]|]. by apply rollback_host.
Qed.

Lemma run_command_host cmd s : core_ok (s_core s) -> host_ok s -> host_ok (run_command cmd s).
Proof.
  intros Hc Hh. destruct cmd; cbn [run_command].
  - case (negb _); [done|]. destruct (stopped (s_core s)); [by apply resumeNow_host|].
    case (pending _); [by apply cancelPending_host|done].
  - destruct (stopped (s_core s)); [by apply resumeNow_host|].
    case (pending _); [by apply cancelPending_host|done].
Qed.

Lemma complete_host ctl s :
  good (s_core s) -> hold_room s -> host_ok s ->
  host_ok (completeAsyncStop ctl s).
Proof.
  intros Hg Hr Hh. unfold completeAsyncStop. case (negb _); [done|].
  set (clear := on_trap _ s).
  set (dem := if decide (trapReason (s_trap s) = Step) then removeSlowPathDemand clear else clear).
  set (info := on_control _ dem).
  set (st := if decide (trapReason (s_trap s) = Exception) then on_trap _ info else info).
  assert (host_same s st /\ good (s_core st)) as [Hs Hgst].
  { assert (host_same s dem /\ good (s_core dem)) as [H1 H2].
    { unfold dem. case_decide; [|done]. split; [|by apply (harmless_good _ _ (removeSlow_harmless clear))].
      etrans; [|apply removeSlow_host]. by split. }
    split; [|unfold st; by case_decide]. etrans; [exact H1|]. unfold st. by case_decide; split. }
  change (currentEpoch clear) with (currentEpoch s).
  rewrite <- (hs_epoch _ _ Hs). fold (wake_epoch st).
  set (s1 := openHoldAndWake _ _ _ (wake_epoch st)).
  assert (host_ok s1) as H1.
  { apply open_ok; [by apply (host_same_ok s)|]. unfold hold_room. by rewrite (hs_hold _ _ Hs). }
  assert (good (s_core s1)) as H2 by (by apply openHold_good).
  assert (woken s1 = currentEpoch st) as H3
    by (unfold woken, s1, openHoldAndWake; destruct (holdActive _); by rewrite notify_control).
  destruct (tryCommitPass ctl (currentEpoch st) s1) as [s2 r] eqn:E.
  pose proof (tryCommit_host ctl _ s1 s2 r E H2 H1 (fun _ _ => H3)) as H5.
  destruct r; [|done]. case (_ || _); [done|]. apply (host_same_ok s2); [by split|done].
Qed.

Lemma tryCommit_hold ctl epoch s : s_hold (fst (tryCommitPass ctl epoch s)) = s_hold s.
Proof.
  unfold tryCommitPass. destruct (_ || _); [done|].
  destruct (fold_left _ _ _) as [[c acked] laggard]. destruct (_ || _); [done|].
  destruct (first_unacked _ _ c _) as [[id t]|]; [done|]. cbn [fst].
  unfold commit. rewrite notify_hold. exact (hs_hold _ _ (cancelArmed_host _)).
Qed.

(** A completed trap leaves the host holding. *)
Lemma complete_room ctl s : hold_room s -> hold_room (completeAsyncStop ctl s).
Proof.
  intros Hr. unfold completeAsyncStop. case (negb _); [done|].
  match goal with |- context [tryCommitPass ctl ?e ?t] =>
    pose proof (tryCommit_hold ctl e t) as H; destruct (tryCommitPass ctl e t) as [s2 r] end.
  intros Hf. exfalso.
  assert (holdActive (s_hold s2) = true) as Ha.
  { cbn [fst] in H. rewrite H. unfold openHoldAndWake.
    match goal with |- context [if holdActive (s_hold ?t) then _ else _] =>
      destruct (holdActive (s_hold t)) eqn:E end; by rewrite notify_hold. }
  destruct r; [|congruence]. destruct (_ || _); cbn in Hf; congruence.
Qed.

Lemma worker_turn_host s :
  good (s_core s) -> hold_room s -> host_ok s -> host_ok (worker_turn s).
Proof.
  intros Hg Hr Hh. unfold worker_turn. destruct (worker (s_control s)) as [cmds|]; [|done].
  set (s0 := on_control _ s).
  assert (host_ok s0) as Hh0 by (apply (host_same_ok s); [by split|done]).
  set (s1 := completeAsyncStop None s0).
  assert (good (s_core s1)) as Hg1 by (by apply complete_good).
  assert (host_ok s1) as Hh1 by (by apply complete_host).
  set (s2 := advancePendingStop None s1).
  assert (good (s_core s2)) as Hg2 by (by apply advance_good).
  assert (host_ok s2) as Hh2 by (apply advance_host; [done| |done]; by apply complete_room).
  clearbody s2. revert s2 Hg2 Hh2. induction cmds as [|cmd cmds IH]; intros s2 Hg2 Hh2; [done|].
  apply IH; [by apply run_command_good|apply run_command_host; [apply Hg2|done]].
Qed.

Lemma shutdown_host s : core_ok (s_core s) -> host_ok s -> host_ok (resumeForShutdown s).
Proof.
  intros Hc Hh. unfold resumeForShutdown.
  match goal with |- context [resumeNow false ?t] => set (s1 := t) end.
  assert (host_ok s1) as H1 by (apply (host_same_ok s); [by split|done]).
  change (s_core s) with (s_core s1) in Hc.
  destruct (stopped (s_core s1)); [by apply resumeNow_host|].
  destruct (forming (s_core s1)) eqn:Hf; [by apply rollback_host|done].
Qed.

Lemma endExecution_host s : core_ok (s_core s) -> host_ok s -> host_ok (endExecution s).
Proof.
  intros Hc Hh. unfold endExecution.
  match goal with |- context [resumeNow false ?t] => set (s1 := t) end.
  assert (host_ok s1) as H1 by (apply (host_same_ok s); [by split|done]).
  change (s_core s) with (s_core s1) in Hc.
  destruct (stopped (s_core s1)) eqn:Hs; [by apply resumeNow_host|].
  rewrite (interrupt_active s1 Hc). unfold active. rewrite Hs. cbn [orb].
  destruct (forming (s_core s1)) eqn:Hf; [by apply rollback_host|done].
Qed.

Lemma resume_host h s : core_ok (s_core s) -> host_ok s -> host_ok (resume h s).
Proof.
  intros Hc Hh. unfold resume.
  match goal with |- context [resumeNow h ?t] => set (s1 := t) end.
  assert (host_ok s1) as H1 by (apply (host_same_ok s); [by split|done]).
  case (has_owner _ _); [done|].
  case (_ && _); [by apply cancelPending_host|by apply resumeNow_host].
Qed.

(** Beginning a stop and opening the hold for it at once. *)
Lemma begin_open_host reason r id s s1 f :
  good (s_core s) -> room s -> hold_room s -> host_ok s -> beginStop reason s = (s1, true) ->
  (forall s, host_same s (f s)) ->
  host_ok (openHoldAndWake (currentEpoch s1) r id (wake_epoch (f s1))).
Proof.
  intros Hg Hr Hhr Hh E Hf. destruct (begin_host reason s s1 true Hg Hr E Hh) as (H1 & H2 & _).
  rewrite <- (hs_epoch _ _ (Hf s1)). apply open_ok; [by apply (host_same_ok s1)|].
  unfold hold_room. by rewrite (hs_hold _ _ (Hf s1)), H2.
Qed.

Lemma same_room s s' : host_same s s' -> hold_room s -> hold_room s'.
Proof. intros H. unfold hold_room. by rewrite (hs_hold _ _ H). Qed.

Lemma requestHostPause_host s :
  good (s_core s) -> room s -> hold_room s -> host_ok s -> host_ok (fst (requestHostPause s)).
Proof.
  intros Hg Hr Hhr Hh. unfold requestHostPause.
  match goal with |- context [beginStop HostStop ?t] => set (s1 := t) end.
  assert (host_same s s1) as Hs by (etrans; [apply ensureWorker_host|by split]).
  assert (host_ok s1) as H1 by (by apply (host_same_ok s)).
  destruct (stopped (s_core s1)); [done|]. destruct (forming (s_core s1)); [done|].
  destruct (beginStop HostStop s1) as [s2 b] eqn:E.
  destruct b; [|by apply (begin_host HostStop s1 s2 false Hg Hr E H1)].
  refine (begin_open_host HostStop HostStop 0 s1 s2 (on_control (fun k =>
    set_pending true (set_waitingFor ""%string (set_stopInfo (Some (pause_info HostStop)) k))))
    Hg Hr (same_room s s1 Hs Hhr) H1 E _). by split.
Qed.

Lemma requestDebuggerPause_host s :
  good (s_core s) -> room s -> hold_room s -> host_ok s -> host_ok (fst (requestDebuggerPause s)).
Proof.
  intros Hg Hr Hhr Hh. unfold requestDebuggerPause.
  match goal with |- context [beginStop Pause ?t] => set (s1 := t) end.
  pose proof (ensureWorker_host s) as Hs.
  assert (host_ok s1) as H1 by (by apply (host_same_ok s)).
  destruct (stopped (s_core s1) || forming (s_core s1)); [apply (host_same_ok s1); [by split|done]|].
  destruct (beginStop Pause s1) as [s2 b] eqn:E.
  destruct b; [|by apply (begin_host Pause s1 s2 false Hg Hr E H1)].
  refine (begin_open_host Pause Pause 0 s1 s2 (on_control (fun k =>
    set_pending true (set_waitingFor ""%string (set_stopInfo (Some (pause_info Pause))
      (set_owners (add_owner (owners k) Debugger) k)))))
    Hg Hr (same_room s s1 Hs Hhr) H1 E _). by split.
Qed.

Lemma beginExecution_host s :
  good (s_core s) -> room s -> host_ok s -> host_ok (beginExecution s).
Proof.
  intros Hg Hr Hh. unfold beginExecution.
  match goal with |- context [beginStop HostStop ?t] => set (s1 := t) end.
  assert (host_ok s1) as H1 by (apply (host_same_ok s); [by split|done]).
  case (has_owner _ _); [|done]. destruct (beginStop HostStop s1) as [s2 b] eqn:E.
  destruct (begin_host HostStop s1 s2 b Hg Hr E H1) as [H2 _].
  destruct b; [|done]. apply (host_same_ok s2); [by split|done].
Qed.

Lemma trap_host reason id ch stmt d s :
  good (s_core s) -> room s -> host_ok s -> host_ok (fst (tryBeginAsyncStop reason id ch stmt d s)).
Proof.
  intros Hg Hr Hh. unfold tryBeginAsyncStop.
  match goal with |- context [if ?b then _ else _] => destruct b end; [done|].
  case (_ <? _); [done|]. destruct (beginStop reason s) as [s1 b] eqn:E.
  destruct (begin_host reason s s1 b Hg Hr E Hh) as [H2 _].
  destruct b; [|done]. apply (host_same_ok s1); [by split|done].
Qed.

Lemma set_waiter_ok w s :
  host_ok s ->
  (forall e dl, w = Some (AwaitQuiescence e dl) ->
     e <= currentEpoch s /\ (forming (s_core s) = true -> e = currentEpoch s -> woken s = e)) ->
  host_ok (set_s_waiter w s).
Proof. intros [Hg Ht Hs Hw Hq] H. by split. Qed.

Lemma requestStop_host ctl reason timeout s :
  good (s_core s) -> room s -> hold_room s -> host_ok s ->
  host_ok (record_waiter (requestStop ctl reason timeout s)).
Proof.
  intros Hg Hr Hhr Hh. unfold requestStop. destruct (beginStop reason s) as [s1 b] eqn:E. destruct b.
  - cbn [record_waiter].
    match goal with |- host_ok (set_s_waiter _ (openHoldAndWake _ reason ?i _)) =>
      pose proof (begin_open_host reason reason i s s1 (on_control (fun k =>
        set_stopInfo (Some (pause_info reason)) (set_owners (add_owner (owners k) Debugger) k)))
        Hg Hr Hhr Hh E ltac:(by split)) as H end.
    apply set_waiter_ok; [exact H|]. intros e dl [= <- <-].
    match goal with |- context [openHoldAndWake ?e ?r ?i ?t] =>
      assert (currentEpoch (openHoldAndWake e r i t) = e /\ woken (openHoldAndWake e r i t) = e)
        as [-> ->] end; [|done].
    split; [unfold currentEpoch; by rewrite openHold_core|].
    unfold woken, openHoldAndWake. destruct (holdActive _); by rewrite notify_control.
  - destruct (begin_host reason s s1 false Hg Hr E Hh) as [H2 _].
    destruct (_ && _); apply set_waiter_ok; try done. by apply (host_same_ok s1).
Qed.

Lemma poll_host ctl w s :
  good (s_core s) -> hold_room s -> host_ok s -> s_waiter s = Some w ->
  host_ok (record_waiter (poll ctl w s)).
Proof.
  intros Hg Hhr Hh Hw. destruct w as [had dl|e dl]; cbn [poll].
  - pose proof (advance_host ctl s Hg Hhr Hh) as H. set (s1 := advancePendingStop ctl s) in *.
    destruct (stopped (s_core s1)); [by apply set_waiter_ok|].
    case (negb (forming (s_core s1)) || _); [|by apply set_waiter_ok].
    destruct had; apply set_waiter_ok; try done. by apply (host_same_ok s1).
  - assert (forming (s_core s) = true -> currentEpoch s = e -> woken s = e) as Hwk.
    { intros Hf He. by apply (proj2 (ho_waiter _ Hh e dl Hw)). }
    pose proof (tryCommitPass_cases ctl e s Hg) as Hc. pose proof (tryCommitPass_good ctl e s Hg) as Hgd.
    destruct (tryCommitPass ctl e s) as [s1 r] eqn:E. cbn [fst] in Hgd.
    pose proof (tryCommit_host ctl e s s1 r E Hg Hh Hwk) as H1.
    destruct r; [|by apply set_waiter_ok]. destruct Hc as (_ & E1 & E2 & E3 & c & Es).
    destruct (negb (forming (s_core s1))); [by apply set_waiter_ok|].
    case (_ <=? _); apply set_waiter_ok; try done; [by apply giveUp_host|].
    intros e' dl' [= <- <-]. rewrite E2, E3. pose proof (ho_waiter _ Hh e dl Hw) as [H2 H3].
    split; [done|]. subst s1. exact H3.
Qed.

Lemma step_resumed_host id s s' :
  host_ok s -> core_ok (s_core s) -> stopped (s_core s) = true -> host_same s s' ->
  core_ok (s_core s') ->
  host_ok (let s := resume false s' in
           if negb (stopped (s_core s))
           then notify (StepResumed sessionId_ (holdGeneration (s_hold s)) id) s else s).
Proof.
  intros Hh Hc Hs Hsame Hc'. cbn zeta.
  pose proof (resume_host false s' Hc' (host_same_ok _ _ Hsame Hh)) as H.
  assert (s_hold (resume false s') = s_hold s) as Hhold.
  { rewrite <- (hs_hold _ _ Hsame). unfold resume, cancelPending, resumeNow.
    case (has_owner _ _); [done|]. case (_ && _).
    - by destruct (negb (forming _)).
    - by destruct (negb (stopped _)). }
  set (s1 := resume false s') in *.
  destruct (stopped (s_core s1)) eqn:Hs1; cbn [negb]; [done|].
  pose proof (ho_told _ H) as (o & Ht & _).
  assert (forming (s_core s1) = false) as Hf.
  { unfold s1, resume in *. case (has_owner _ _) in *.
    - exfalso. change (stopped (s_core s') = false) in Hs1. rewrite (hs_stopped _ _ Hsame) in Hs1. congruence.
    - assert (stopped (s_core s') = true) as Hs' by (by rewrite (hs_stopped _ _ Hsame)).
      match goal with |- forming (s_core (if negb (stopped (s_core ?t)) && _ then _ else _)) = _ =>
        change (stopped (s_core t)) with (stopped (s_core s')) end.
      rewrite Hs'. cbn [negb andb]. rewrite resumeNow_core.
      change (s_core (on_control _ s')) with (s_core s'). rewrite Hs', release_forming.
      exact (ck_phase _ Hc' Hs'). }
  match goal with |- host_ok (notify ?n s1) =>
    destruct (notify_told n s1 o (mkView true (holdGeneration (s_hold s1)) None) Ht) as [H1 H2] end.
  { cbn [accept]. rewrite Hhold, (ho_stopped _ Hh Hs), Z.eqb_refl. done. }
  apply (over_ok s1 _ None); unfold woken; rewrite ?notify_core, ?notify_epoch, ?notify_waiter,
    ?notify_control, ?notify_hold; try done.
  split; [done|]. rewrite H2, notify_hold, Hhold. by rewrite (ho_stopped _ Hh Hs).
Qed.

Lemma stepAndResume_host id mode s :
  good (s_core s) -> host_ok s -> host_ok (fst (stepAndResume id mode s)).
Proof.
  intros Hg Hh. unfold stepAndResume. destruct (threads (s_core s) !! id) as [t|]; [|done].
  destruct (stopped (s_core s)) eqn:Hs; cbn [negb orb]; [|done].
  case (bool_decide _ || bool_decide _); [done|]. case (has_owner _ _); [done|]. cbn zeta. cbn [fst].
  set (s1 := cancelStepIfArmed id s).
  set (s2 := on_core (on_thread id _) s1).
  assert (good (s_core s1)) as H1 by (by apply (harmless_good _ _ (cancelStep_harmless id s))).
  assert (good (s_core s2)) as H2.
  { apply (same_good _ _ (step_same id (fun t => arm s1 mode (t_step t)) (s_core s1))); [|done].
    by apply set_step_ok, H1. }
  apply (step_resumed_host id s (addSlowPathDemand s2) Hh (proj1 Hg) Hs).
  - etrans; [apply cancelStep_host|]. etrans; [|apply addSlow_host]. by split.
  - apply (harmless_good _ _ (addSlow_harmless s2)), H2.
Qed.

Lemma rebind_host d s :
  core_ok (s_core s) -> valid (LRebind d) s -> host_ok s -> host_ok (rebind d s).
Proof.
  intros Hc (Hs & Hf & Hw & Hpl) Hh. assert (active (s_core s) = false) as Ha by (unfold active; by rewrite Hs, Hf).
  pose proof (rebind_ok d s Hc Ha Hpl) as Hc'. unfold rebind in *.
  destruct (d =? bound (s_core s)); [done|].
  destruct Hh as [Hg (o & Ht & Ho) Hst Hwk Hq].
  match goal with |- host_ok ?t => set (s1 := t) in * end.
  pose proof (dk_epoch _ _ (default_domain_ok _ (bound (s_core s1)) Hc')) as [H _].
  split; try done.
  - exists o. split; [exact Ht|]. intros E. change (forming (s_core s) = true) in E. congruence.
  - intros e dl E. change (s_waiter s = Some (AwaitQuiescence e dl)) in E. congruence.
Qed.

Lemma postToWorker_host cmd s : host_same s (postToWorker cmd s).
Proof.
  etrans; [apply ensureWorker_host|]. unfold postToWorker. set (s1 := ensureWorker s).
  split; try done. unfold woken, on_control. cbn [s_control set_s_control].
  destruct (worker (s_control s1)) as [q|]; [|done].
  by destruct (kMaxCommands <=? List.length q)%nat.
Qed.

Lemma moved_host l id s :
  thread_of l = Some id -> moved (s_core s) (s_core (run l s)) -> host_same s (run l s).
Proof.
  intros Hl [E1 E2 E3 E4]. split; try done; [|by destruct l..].
  unfold currentEpoch, bound_domain. by rewrite E3, E4.
Qed.

Lemma run_host l s :
  good (s_core s) -> no_wrap s -> valid l s -> host_ok s -> host_ok (run l s).
Proof.
  intros Hg Hw Hv Hh. pose proof (no_wrap_room s (proj1 Hg) Hw) as Hr.
  assert (hold_room s) as Hhr by (intros _; apply Hw).
  destruct (thread_of l) as [id|] eqn:Hl.
  { destruct (thread_run_ok l id s Hl (proj1 Hg) Hv) as [_ Hm].
    by apply (host_same_ok s); [by apply (moved_host l id)|]. }
  destruct l; try done; cbn [run valid] in *.
  - by apply requestHostPause_host.
  - by apply requestDebuggerPause_host.
  - unfold releaseHostPause. destruct (_ || _); [by apply (host_same_ok s)|].
    apply (host_same_ok _ _ (postToWorker_host _ _)). by apply (host_same_ok s).
  - unfold releaseForExit.
    apply (host_same_ok _ _ (postToWorker_host _ _)). by apply (host_same_ok s).
  - unfold holdDropped. destruct (stopped (s_core s)) eqn:Hs, (forming (s_core s)) eqn:Hf; cbn [orb]; try done.
    cbn [fst]. pose proof (ho_told _ Hh) as (o & [Hc Hrp] & _).
    apply (over_ok s _ None); unfold woken; rewrite ?notify_core, ?notify_epoch, ?notify_waiter,
      ?notify_control, ?notify_hold; try done.
    unfold told, notify. cbn. rewrite Hc. cbn. split; [done|]. by rewrite Hrp.
  - by apply shutdown_host; [apply Hg|].
  - by apply resume_host; [apply Hg|].
  - unfold joinStop. destruct (negb _); [done|by apply (host_same_ok s)].
  - by apply beginExecution_host.
  - by apply endExecution_host; [apply Hg|].
  - by apply rebind_host; [apply Hg|..].
  - unfold notifySessionEnd. destruct Hh as [Hgn (o & [Hc Hrp] & Ho) Hst Hwk Hq].
    split; unfold woken; rewrite ?notify_core, ?notify_epoch, ?notify_waiter, ?notify_control,
      ?notify_hold; try done.
    exists o. split; [|done]. unfold told, notify. rewrite Hc. cbn. split; [done|]. by rewrite Hrp.
  - by apply requestStop_host.
  - destruct (s_waiter s) as [w|] eqn:E; [|done]. by apply poll_host.
  - by apply trap_host.
  - by apply worker_turn_host.
  - apply (host_same_ok s); [by split|done].
  - by apply stepAndResume_host.
  - by apply (host_same_ok s); [apply cancelStep_host|].
  - by apply (host_same_ok s); [apply addSlow_host|].
  - by apply (host_same_ok s); [apply removeSlow_host|].
  - by apply (host_same_ok s).
  - by apply (host_same_ok s).
  - by apply (host_same_ok s).
  - by apply (host_same_ok s).
  - by apply (host_same_ok s).
Qed.

Lemma reachable_host engine clock s : reachable engine true clock s -> host_ok s.
Proof.
  unfold reachable. intros H. remember (init engine true clock) as s0 eqn:E.
  assert (good (s_core s0) /\ host_ok s0) as H0.
  { rewrite E. split; [split; [apply init_ok|done]|]. split; try done. exists None. by split. }
  clear E. induction H as [|s1 s2 s3 (l & Hw & Hv & ->) _ IH]; [apply H0|].
  apply IH. destruct H0. split; [by apply run_good|by apply run_host].
Qed.

(** C35. The coordinator keeps its protocol with the embedding host: on every
    reachable state the notices sent so far, replayed from the start, are accepted
    by a host that insists on it (a hold is requested only when none is held,
    under the next generation, and re-asserted under the current one; a stop is
    reported once, for the epoch last announced under that hold; a continue or a
    step is told only of a hold that is held), the host's view of the hold is the
    coordinator's, and while a stop is in force the host is holding. *)
Theorem host_protocol engine clock s :
  reachable engine true clock s ->
  (exists open, replay (s_notices s)
     = Some (mkView (holdActive (s_hold s)) (holdGeneration (s_hold s)) open)) /\
  (stopped (s_core s) = true -> holdActive (s_hold s) = true) /\
  (forming (s_core s) = true -> pendingWokenEpoch (s_control s) = currentEpoch s ->
   holdActive (s_hold s) = true).
Proof.
  intros H. destruct (reachable_host engine clock s H) as [_ (o & [_ Hr] & Ho) Hs _ _].
  split_and!; [by exists o|done|]. intros Hf Hw. by apply Ho.
Qed.

(** ** The commit *)

Lemma set_step_quiet gen st t : quiet gen (set_step st t) <-> quiet gen t.
Proof. done. Qed.

(** C36. A stop is all or nothing: when a pass commits, the state is stopped on
    the requested epoch with the dataflow gate closed and empty, and every
    registered thread of the domain other than the controller, the in-VM
    controller and the service threads is leased, has acknowledged that very
    epoch, holds no gate section, and neither runs user code nor can start to
    before the release. *)
Theorem stop_commit_sound engine host clock s ctl epoch s' :
  reachable engine host clock s -> tryCommitPass ctl epoch s = (s', inr tt) ->
  stopped (s_core s') = true /\ forming (s_core s') = false /\ currentEpoch s' = epoch /\
  quiesced (s_core s') = true /\
  forall id t, threads (s_core s') !! id = Some t -> t_domain t = bound (s_core s') ->
    isController ctl s id t = false ->
    id ∈ epochLeases (s_core s') /\ debugAckEpoch t = epoch /\ t_sections t = [] /\
    quiet (releaseGeneration (bound_domain (s_core s'))) t.
Proof.
  intros Hreach E. pose proof (reachable_good _ _ _ _ Hreach) as Hg.
  pose proof (tryCommitPass_cases ctl epoch s Hg) as H. rewrite E in H.
  destruct H as (c & Hcm & Hgc & Hs & <- & Es'). set (s1 := set_s_core c s) in *.
  pose proof (commit_good ctl (currentEpoch s) s1 Hcm Hgc) as [Hok _].
  assert (s_core s' = commit_core (s_core (committed ctl s1))) as Ec
    by (rewrite Es'; exact (commit_core_eq ctl (currentEpoch s) s1)).
  change (commit ctl (currentEpoch s) _ s1) with (commit ctl (currentEpoch s)
    (snapshotLeases c (bound c)) s1) in Hok. rewrite <- Es' in Hok.
  destruct (committed_protocol ctl s1) as [E1 E2 E3 E4 E5 E6 [D1 D2 D3 D4] E8].
  destruct (same_fields _ _ Hs) as (S1 & S2 & S3 & S4 & _).
  assert (currentEpoch s' = currentEpoch s) as He.
  { unfold currentEpoch. rewrite Ec. change (bound_domain (commit_core ?c)) with (bound_domain c).
    rewrite D1. unfold bound_domain. cbn. by rewrite S3, S4. }
  destruct Hcm as [Hc Hf Hq Ha]. split; [by rewrite Ec|]. split; [by rewrite Ec|]. split; [done|].
  split. { rewrite Ec. unfold quiesced in *. cbn [gate commit_core set_forming set_stopped]. by rewrite E5. }
  intros id t Ht Hd Hi. rewrite Ec in Ht, Hd. destruct (E8 id) as [st Est].
  change (threads (s_core (committed ctl s1)) !! id = Some t) in Ht. rewrite Ht in Est.
  change (threads (s_core (leased ctl s1))) with (threads c) in Est.
  destruct (threads c !! id) as [u|] eqn:Hu; [|done]. injection Est as ->.
  assert (id ∈ members ctl s1) as Hm.
  { apply elem_of_members; [done|]. exists u. split; [done|]. split; [|exact Hi].
    change (t_domain u = bound (s_core (committed ctl s1))) in Hd. rewrite E3 in Hd. exact Hd. }
  assert (id ∈ epochLeases (s_core s')) as Hl.
  { rewrite Ec. change (id ∈ epochLeases (s_core (committed ctl s1))). rewrite E6.
    apply elem_of_app. by right. }
  assert (threads (s_core s') !! id = Some (set_step st u)) as Ht' by (by rewrite Ec).
  assert (debugExcluded (set_step st u) = false) as Hx by (by apply (isController_excluded ctl s id)).
  assert (t_sections (set_step st u) = []) as Hsec
    by (apply (ck_stopped _ Hok ltac:(by rewrite Ec) id _ Hl Ht' Hx)).
  split; [done|]. split.
  { destruct (Ha id Hm) as (u' & Hu' & Hack). cbn in Hu'. replace u' with u in Hack by congruence.
    cbn. rewrite Hack. unfold currentEpoch, bound_domain. cbn. by rewrite S3, S4. }
  split; [done|]. by apply (leased_frozen _ id).
Qed.

(** ** While a stop is in force *)

(** The stop goes on, with the same members and the same stacks; only step
    modes may have changed. *)
Definition keeps (s s' : sys) : Prop :=
  stopped (s_core s') = true ->
  stopped (s_core s) = true /\ epochLeases (s_core s') = epochLeases (s_core s) /\
  forall id t, threads (s_core s) !! id = Some t ->
    exists st, threads (s_core s') !! id = Some (set_step st t) /\ frames st = frames (t_step t).

#[global] Instance keeps_trans : Transitive keeps.
Proof.
  intros s1 s2 s3 H1 H2 Hs. destruct (H2 Hs) as (Hs2 & E2 & T2). destruct (H1 Hs2) as (Hs1 & E1 & T1).
  split_and!; [done|congruence|]. intros id t Ht. destruct (T1 id t Ht) as (st & Ht2 & F1).
  destruct (T2 id _ Ht2) as (st' & Ht3 & F2). exists st'. split; [exact Ht3|]. rewrite F2. exact F1.
Qed.

Lemma keeps_core s s' : s_core s' = s_core s -> keeps s s'.
Proof.
  unfold keeps. intros -> Hs. split_and!; [done..|]. intros id t Ht. exists (t_step t). by destruct t.
Qed.

Lemma keeps_released s s' : stopped (s_core s') = false -> keeps s s'.
Proof. unfold keeps. by intros ->. Qed.

Lemma keeps_threads s s' :
  stopped (s_core s') = stopped (s_core s) -> epochLeases (s_core s') = epochLeases (s_core s) ->
  threads (s_core s') = threads (s_core s) -> keeps s s'.
Proof.
  intros E1 E2 E3 Hs. split_and!; [congruence..|]. intros id t Ht. exists (t_step t). rewrite E3, Ht.
  by destruct t.
Qed.

Lemma addSlow_keeps s : keeps s (addSlowPathDemand s).
Proof. unfold addSlowPathDemand. case (_ =? 0); by apply keeps_threads. Qed.
Lemma removeSlow_keeps s : keeps s (removeSlowPathDemand s).
Proof. unfold removeSlowPathDemand. case (_ =? 1); by apply keeps_threads. Qed.

Lemma cancelStep_keeps id s : keeps s (cancelStepIfArmed id s).
Proof.
  unfold cancelStepIfArmed. destruct (threads (s_core s) !! id) as [t0|] eqn:E; [|by apply keeps_core].
  case_decide; [by apply keeps_core|]. etrans; [|apply removeSlow_keeps]. intros Hs.
  split_and!; [done..|]. intros i t Ht. unfold on_core. cbn [s_core set_s_core].
  rewrite on_thread_lookup, Ht. case_decide; cbn.
  - by exists (disarm (t_step t)).
  - exists (t_step t). by destruct t.
Qed.

Lemma resumeNow_keeps h s : keeps s (resumeNow h s).
Proof.
  destruct (stopped (s_core s)) eqn:Hs.
  - apply keeps_released. rewrite resumeNow_core, Hs. exact (release_stopped (set_stopped false (s_core s))).
  - apply keeps_core. by rewrite resumeNow_core, Hs.
Qed.

Lemma cancelPending_keeps h s : core_ok (s_core s) -> keeps s (cancelPending h s).
Proof.
  intros Hc. destruct (forming (s_core s)) eqn:Hf.
  - apply keeps_released. rewrite cancelPending_core, Hf.
    rewrite <- (forming_not_stopped _ Hc Hf). exact (release_stopped (s_core s)).
  - apply keeps_core. by rewrite cancelPending_core, Hf.
Qed.

Lemma run_command_keeps cmd s : core_ok (s_core s) -> keeps s (run_command cmd s).
Proof.
  intros Hc. destruct cmd; cbn [run_command].
  - case (negb _); [by apply keeps_core|]. case (stopped _); [apply resumeNow_keeps|].
    case (pending _); [by apply cancelPending_keeps|by apply keeps_core].
  - case (stopped _); [apply resumeNow_keeps|].
    case (pending _); [by apply cancelPending_keeps|by apply keeps_core].
Qed.

(** Nothing begins, commits or waits while a stop is in force. *)
Lemma begin_in_force reason s : stopped (s_core s) = true -> beginStop reason s = (s, false).
Proof. intros Hs. unfold beginStop. rewrite Hs. by destruct (negb _). Qed.

Lemma commit_in_force ctl e s : forming (s_core s) = false -> tryCommitPass ctl e s = (s, inl ""%string).
Proof. intros E. unfold tryCommitPass. by rewrite E. Qed.

Lemma advance_in_force ctl s :
  forming (s_core s) = false -> s_core (advancePendingStop ctl s) = s_core s.
Proof. intros E. unfold advancePendingStop. destruct (negb (pending _)); [done|]. by rewrite E. Qed.

Lemma complete_keeps ctl s :
  forming (s_core s) = false ->
  keeps s (completeAsyncStop ctl s) /\ forming (s_core (completeAsyncStop ctl s)) = false /\
  stopped (s_core (completeAsyncStop ctl s)) = stopped (s_core s).
Proof.
  intros Hf. unfold completeAsyncStop. destruct (negb _); [split; [by apply keeps_core|done]|].
  set (clear := on_trap _ s).
  set (dem := if decide (trapReason (s_trap s) = Step) then removeSlowPathDemand clear else clear).
  assert (keeps s dem /\ forming (s_core dem) = false /\ stopped (s_core dem) = stopped (s_core s))
    as (H1 & H2 & H3).
  { unfold dem. case_decide; [|split; [by apply keeps_core|done]].
    destruct (removeSlow_harmless clear) as [_ [E1 E2 _ _ _ _ _ _]].
    split; [etrans; [|apply removeSlow_keeps]; by apply keeps_core|]. by rewrite E1, E2. }
  match goal with |- context [tryCommitPass ctl ?e ?t] =>
    assert (s_core t = s_core dem) as E
      by (rewrite openHold_core; by destruct (decide (trapReason (s_trap s) = Exception)));
    rewrite (commit_in_force ctl e t) by congruence; set (s1 := t) in * end.
  rewrite E, H2. cbn [negb orb].
  rewrite E. split; [|done]. etrans; [exact H1|]. by apply keeps_core.
Qed.

Lemma worker_turn_keeps s : good (s_core s) -> stopped (s_core s) = true -> keeps s (worker_turn s).
Proof.
  intros Hg Hs. unfold worker_turn. destruct (worker (s_control s)) as [cmds|]; [|by apply keeps_core].
  set (s0 := on_control _ s).
  assert (forming (s_core s0) = false) as Hf by (by apply (ck_phase _ (proj1 Hg))).
  assert (good (s_core (completeAsyncStop None s0))) as Hg1 by (by apply complete_good).
  destruct (complete_keeps None s0 Hf) as (H1 & H2 & H3).
  set (s1 := completeAsyncStop None s0) in *. pose proof (advance_in_force None s1 H2) as H4.
  assert (good (s_core (advancePendingStop None s1))) as Hg2 by (by rewrite H4).
  assert (keeps s (advancePendingStop None s1)) as H5.
  { etrans; [by apply (keeps_core s s0)|]. etrans; [exact H1|]. by apply keeps_core. }
  revert H5 Hg2. generalize (advancePendingStop None s1) as s2. clear -cmds.
  induction cmds as [|cmd cmds IH]; intros s2 H5 Hg2; [done|]. cbn [fold_left].
  apply IH; [|by apply run_command_good]. etrans; [exact H5|]. by apply run_command_keeps, Hg2.
Qed.

Lemma resume_keeps h s : core_ok (s_core s) -> keeps s (resume h s).
Proof.
  intros Hc. unfold resume. match goal with |- context [resumeNow h ?t] => set (s1 := t) end.
  etrans; [by apply (keeps_core s s1)|]. case (has_owner _ _); [by apply keeps_core|].
  case (_ && _); [by apply cancelPending_keeps|apply resumeNow_keeps].
Qed.

Lemma addSlow_owners s : owners (s_control (addSlowPathDemand s)) = owners (s_control s).
Proof.
  assert (owners (s_control (ensureWorker s)) = owners (s_control s)) as <-.
  { cbn. by destruct (workerRetired (s_control s)), (worker (s_control s)). }
  unfold addSlowPathDemand. by case (_ =? 0).
Qed.

Lemma cancelStep_owners id s : owners (s_control (cancelStepIfArmed id s)) = owners (s_control s).
Proof.
  unfold cancelStepIfArmed. destruct (threads (s_core s) !! id) as [t|]; [|done]. case_decide; [done|].
  unfold removeSlowPathDemand. by case (_ =? 1).
Qed.

(** A step is taken only by a resume: either the stop is over, or nothing was
    armed. *)
Lemma step_keeps id mode s :
  good (s_core s) -> stopped (s_core s) = true -> keeps s (fst (stepAndResume id mode s)).
Proof.
  intros Hg Hs. unfold stepAndResume. destruct (threads (s_core s) !! id) as [t|]; [|by apply keeps_core].
  destruct (negb _ || _ || _); [by apply keeps_core|].
  destruct (has_owner (owners (s_control s)) Host) eqn:Ho; [by apply keeps_core|]. cbn zeta. cbn [fst].
  match goal with |- keeps s (if _ then notify _ (resume false ?t) else _) => set (s1 := t) end.
  assert (good (s_core s1) /\ stopped (s_core s1) = true /\ owners (s_control s1) = owners (s_control s))
    as (H1 & H2 & H3).
  { set (s2 := cancelStepIfArmed id s) in *.
    assert (good (s_core s2)) as Hg2 by (by apply (harmless_good _ _ (cancelStep_harmless id s))).
    destruct (cancelStep_harmless id s) as [_ [E1 _ _ _ _ _ _ _]].
    set (s3 := on_core (on_thread id (fun t => set_step (arm s2 mode (t_step t)) t)) s2) in *.
    assert (good (s_core s3)) as Hg3.
    { apply (same_good _ _ (step_same id (fun t => arm s2 mode (t_step t)) (s_core s2))); [|done].
      by apply set_step_ok, Hg2. }
    destruct (addSlow_harmless s3) as [_ [E2 _ _ _ _ _ _ _]]. unfold s1.
    split; [by apply (harmless_good _ _ (addSlow_harmless s3))|]. split; [by rewrite E2, <- Hs, <- E1|].
    rewrite addSlow_owners. exact (cancelStep_owners id s). }
  apply keeps_released.
  assert (stopped (s_core (resume false s1)) = false) as Hr.
  { unfold resume. set (s2 := on_control _ s1).
    assert (has_owner (owners (s_control s2)) Host = false) as ->.
    { rewrite <- Ho. unfold s2. cbn. rewrite H3. unfold has_owner, has_bits, drop_owner, clear_bits.
      rewrite <- Z.land_assoc. done. }
    change (stopped (s_core s2)) with (stopped (s_core s1)). rewrite H2. cbn [negb andb].
    rewrite resumeNow_core. change (s_core s2) with (s_core s1). rewrite H2.
    exact (release_stopped (set_stopped false (s_core s1))). }
  rewrite Hr. cbn [negb]. by rewrite notify_core.
Qed.

(** No call of the coordinator's touches the stack of a member. *)
Lemma coordinator_keeps l s :
  good (s_core s) -> stopped (s_core s) = true -> thread_of l = None -> valid l s ->
  keeps s (run l s).
Proof.
  intros Hg Hs Hl Hv. pose proof (ck_phase _ (proj1 Hg) Hs) as Hf.
  destruct l; try done; cbn [run valid] in *; try (by apply keeps_core).
  - apply keeps_core. unfold requestHostPause. cbn zeta.
    match goal with |- context [if stopped (s_core ?t) then _ else _] =>
      change (stopped (s_core t)) with (stopped (s_core s)) end. by rewrite Hs.
  - apply keeps_core. unfold requestDebuggerPause. cbn zeta.
    change (stopped (s_core (ensureWorker s))) with (stopped (s_core s)). by rewrite Hs.
  - apply keeps_core. unfold releaseHostPause. by destruct (_ || _).
  - apply keeps_core. unfold holdDropped. by rewrite Hs.
  - unfold resumeForShutdown.
    match goal with |- context [resumeNow false ?t] => set (s1 := t) end.
    change (stopped (s_core s1)) with (stopped (s_core s)). rewrite Hs.
    etrans; [by apply (keeps_core s s1)|apply resumeNow_keeps].
  - by apply resume_keeps, Hg.
  - apply keeps_core. unfold joinStop. by destruct (negb _).
  - apply keeps_core. unfold beginExecution. case (has_owner _ _); [|done].
    by rewrite begin_in_force.
  - unfold endExecution. match goal with |- context [resumeNow false ?t] => set (s1 := t) end.
    change (stopped (s_core s1)) with (stopped (s_core s)). rewrite Hs.
    etrans; [by apply (keeps_core s s1)|apply resumeNow_keeps].
  - destruct Hv as [Hv _]. congruence.
  - apply keeps_core. unfold notifySessionEnd. apply notify_core.
  - apply keeps_core. rewrite record_waiter_core. unfold requestStop. rewrite begin_in_force by done.
    by rewrite Hf.
  - destruct (s_waiter s) as [[had dl|e dl]|]; [| |by apply keeps_core];
      apply keeps_core; rewrite record_waiter_core; cbn [poll].
    + pose proof (advance_in_force controller s Hf) as E. rewrite E, Hs. exact E.
    + rewrite commit_in_force by done. by rewrite Hf.
  - apply keeps_core. unfold tryBeginAsyncStop.
    match goal with |- context [if ?b then _ else _] => destruct b end; [done|].
    case (_ <? _); [done|]. by rewrite begin_in_force.
  - by apply worker_turn_keeps.
  - by apply step_keeps.
  - apply cancelStep_keeps.
  - apply addSlow_keeps.
  - apply removeSlow_keeps.
Qed.

(** A move of one thread that leaves every stack and every exclusion alone. *)
Definition same_steps (c c' : core) : Prop :=
  forall id t, threads c !! id = Some t ->
    exists t', threads c' !! id = Some t' /\ t_step t' = t_step t /\ debugExcluded t' = debugExcluded t.

#[global] Instance same_steps_refl : Reflexive same_steps.
Proof. intros c id t Ht. by exists t. Qed.
#[global] Instance same_steps_trans : Transitive same_steps.
Proof.
  intros c1 c2 c3 H1 H2 id t Ht. destruct (H1 id t Ht) as (t2 & Ht2 & E1 & X1).
  destruct (H2 id t2 Ht2) as (t3 & Ht3 & E2 & X2). exists t3. split_and!; congruence.
Qed.

Lemma same_steps_on_thread id f c :
  (forall t, t_step (f t) = t_step t /\ debugExcluded (f t) = debugExcluded t) ->
  same_steps c (on_thread id f c).
Proof.
  intros Hf i t Ht. rewrite on_thread_lookup, Ht. case_decide; cbn; [|by exists t].
  exists (f t). split; [done|apply Hf].
Qed.

Lemma same_steps_gate f c : same_steps c (on_gate f c).
Proof. intros id t Ht. by exists t. Qed.

Lemma same_steps_enter_gate id c : same_steps c (enter_gate id c).
Proof. etrans; [apply same_steps_gate|by apply same_steps_on_thread]. Qed.

Lemma same_steps_leave_section id c : same_steps c (leave_section id c).
Proof. etrans; [apply same_steps_gate|by apply same_steps_on_thread]. Qed.

Lemma same_steps_leave id c : same_steps c (leave_execute id c).
Proof. apply same_steps_on_thread. intros t. unfold leave. by case (_ =? 0). Qed.

#[local] Ltac by_steps :=
  repeat match goal with
    | |- context [match ?x with _ => _ end] => destruct x
    end; cbn [fst];
  first [reflexivity | by apply same_steps_on_thread | by apply same_steps_enter_gate].

Lemma ackAndPark_steps back id c : same_steps c (ackAndPark back id c).
Proof. unfold ackAndPark. by_steps. Qed.
Lemma ackNoPark_steps id c : same_steps c (ackNoPark id c).
Proof. by apply same_steps_on_thread. Qed.
Lemma parkIfRequested_steps id c : same_steps c (debugStopParkIfRequested id c).
Proof.
  unfold debugStopParkIfRequested. destruct (threads c !! id); [|done].
  destruct (_ || _); [done|apply ackAndPark_steps].
Qed.
Lemma admitOrPark_steps b id c : same_steps c (fst (admitOrPark b id c)).
Proof.
  unfold admitOrPark. destruct (threads c !! id) as [t|]; [|done].
  destruct (debugExcluded t); [by apply same_steps_on_thread|].
  destruct (0 <? _); [done|]. case_decide; [destruct b; [apply ackAndPark_steps|done]|].
  destruct (admissionClosed _); [destruct b; [apply ackAndPark_steps|apply ackNoPark_steps]|].
  destruct (debugOwnership t); [by apply same_steps_on_thread|done..].
Qed.
Lemma enter_execute_steps rt id c : same_steps c (enter_execute rt id c).
Proof.
  unfold enter_execute. destruct (threads c !! id) as [t|]; [|done].
  assert (forall c', same_steps c' (on_thread id (fun t => set_at AtTop
    (set_nesting (debugExecNesting t + 1) t)) c')) as Htop by (intros; by apply same_steps_on_thread).
  destruct (debugExecNesting t =? 0); [|apply Htop].
  destruct (negb _ && _); [etrans; [|apply Htop]; by apply same_steps_on_thread|].
  pose proof (admitOrPark_steps (negb rt) id c) as H.
  destruct (admitOrPark (negb rt) id c) as [c' []]; [|done..]. etrans; [exact H|apply Htop].
Qed.
Lemma loop_top_steps rt deferred id c : same_steps c (loop_top rt deferred id c).
Proof.
  unfold loop_top. destruct (threads c !! id) as [t|]; [|done].
  destruct (_ && _); [|by apply same_steps_on_thread].
  destruct rt; [|apply ackAndPark_steps]. etrans; [apply ackNoPark_steps|apply same_steps_leave].
Qed.
Lemma claim_steps id c : same_steps c (claim_dispatch id c).
Proof.
  unfold claim_dispatch. destruct (threads c !! id) as [t|]; [|done].
  destruct (debugOwnership t); [by apply same_steps_on_thread..|apply parkIfRequested_steps].
Qed.
Lemma register_steps i d kind c :
  threads c !! i = None -> same_steps c (registerThread i d kind c).
Proof.
  intros Hi id t Ht. exists t. split; [|done]. assert (i <> id) by congruence.
  unfold registerThread, addLateEpochLease. cbn [threads set_threads]. rewrite lookup_insert_eq.
  repeat match goal with |- context [if ?b then _ else _] => destruct b end;
    cbn [threads set_threads set_registry set_epochLeases]; by rewrite lookup_insert_ne.
Qed.

(** Only an instruction, or its end, changes a thread's stack. *)
Lemma thread_run_steps l i s id t :
  thread_of l = Some i -> valid l s -> threads (s_core s) !! id = Some t ->
  (forall fs, l <> LInstr id fs) -> l <> LUnregister id -> l <> LMarkExcluded id ->
  exists t', threads (s_core (run l s)) !! id = Some t' /\ t_step t' = t_step t /\
             debugExcluded t' = debugExcluded t.
Proof.
  intros Hl Hv Ht H1 H2 H3. destruct l; try done; cbn [run valid] in *; unfold on_core in *;
    cbn [s_core set_s_core].
  - by apply (register_steps id0 d kind _ (proj2 Hv)).

  - exists t. split; [|done]. unfold unregisterThread. cbn [threads set_threads set_registry].
    rewrite lookup_delete_ne; [done|congruence].
  - exists t. rewrite on_thread_lookup, decide_False by congruence. done.
  - by apply parkIfRequested_steps.
  - assert (same_steps (s_core s) (wake id0 (s_core s))) as Hw
      by (unfold wake; by_steps). by apply Hw.
  - by apply enter_execute_steps.
  - by apply same_steps_leave.
  - by apply loop_top_steps.
  - exists t. rewrite on_thread_lookup, decide_False; [done|]. intros ->. by eapply H1.
  - assert (same_steps (s_core s) (pop_call id0 (s_core s))) as Hw
      by (unfold pop_call; by_steps). by apply Hw.
  - by apply claim_steps.
  - assert (same_steps (s_core s) (work_section rt id0 (s_core s))) as Hw
      by (unfold work_section; by_steps). by apply Hw.
  - assert (same_steps (s_core s) (try_section id0 (s_core s))) as Hw
      by (unfold try_section; by_steps). by apply Hw.
  - by apply same_steps_leave_section.
Qed.

Lemma admitOrPark_leases b id c : epochLeases (fst (admitOrPark b id c)) = epochLeases c.
Proof.
  unfold admitOrPark, ackAndPark, ackNoPark. destruct (threads c !! id) as [t|]; [|done].
  destruct (debugExcluded t); [done|]. destruct (0 <? _); [done|]. cbn [orb].
  case_decide; [destruct b; [by destruct (negb _)|done]|].
  destruct (admissionClosed _); [destruct b; [by destruct (negb _)|done]|].
  by destruct (debugOwnership t).
Qed.

(** Leases only grow while the threads move. *)
Lemma thread_run_leases l i s id :
  thread_of l = Some i -> id ∈ epochLeases (s_core s) -> id ∈ epochLeases (s_core (run l s)).
Proof.
  intros Hl Hi. destruct l; try done; cbn [run]; unfold on_core; cbn [s_core set_s_core].
  - unfold registerThread, addLateEpochLease. cbn [threads set_threads]. rewrite lookup_insert_eq.
    repeat match goal with |- context [if ?b then _ else _] => destruct b end;
      cbn [epochLeases set_threads set_registry set_epochLeases]; rewrite ?elem_of_app; auto.
  - unfold debugStopParkIfRequested, ackAndPark. by repeat case_match.
  - unfold wake. by repeat case_match.
  - unfold enter_execute. destruct (threads (s_core s) !! id0) as [t|]; [|done].
    pose proof (admitOrPark_leases (negb rt) id0 (s_core s)) as E.
    destruct (debugExecNesting t =? 0); [destruct (negb _ && _); [done|]|done].
    destruct (admitOrPark (negb rt) id0 (s_core s)) as [c' []]; cbn in E |- *; by rewrite E.
  - unfold loop_top, ackAndPark, leave_execute, ackNoPark. by repeat case_match.
  - unfold pop_call. by repeat case_match.
  - unfold claim_dispatch, debugStopParkIfRequested, ackAndPark. by repeat case_match.
  - unfold work_section. by repeat case_match.
  - unfold try_section. by repeat case_match.
Qed.

(** One step with the stop still in force, other than making the thread a
    service thread. *)
Definition during_stop (id : Z) (s s' : sys) : Prop :=
  exists l, no_wrap s /\ valid l s /\ l <> LMarkExcluded id /\ s' = run l s /\
            stopped (s_core s') = true.

(** A leased thread's stack, and that it is one. *)
Definition frozen_with (id : Z) (fs : list frame) (s : sys) : Prop :=
  good (s_core s) /\ stopped (s_core s) = true /\ id ∈ epochLeases (s_core s) /\
  exists t, threads (s_core s) !! id = Some t /\ debugExcluded t = false /\ frames (t_step t) = fs.

Lemma frozen_quiet id fs s : frozen_with id fs s ->
  exists t, threads (s_core s) !! id = Some t /\ frames (t_step t) = fs /\ t_sections t = [] /\
    quiet (releaseGeneration (bound_domain (s_core s))) t.
Proof.
  intros ([Hc _] & Hs & Hi & t & Ht & Hx & Hf). exists t.
  pose proof (ck_stopped _ Hc Hs id t Hi Ht Hx) as Hsec.
  split_and!; [done..|]. by apply (leased_frozen _ id).
Qed.

Lemma frozen_step id fs s s' : frozen_with id fs s -> during_stop id s s' -> frozen_with id fs s'.
Proof.
  intros Hfr (l & Hw & Hv & Hl & -> & Hs').
  destruct (frozen_quiet id fs s Hfr) as (t0 & Ht0 & _ & Hsec & Hq).
  destruct Hfr as (Hg & Hs & Hi & t & Ht & Hx & Hf). replace t0 with t in * by congruence.
  split; [by apply run_good|]. split; [done|].
  destruct (thread_of l) as [i|] eqn:El.
  - split; [by apply (thread_run_leases l i)|].
    destruct (thread_run_steps l i s id t El Hv Ht) as (t' & Ht' & E1 & E2).
    + intros fs' ->. destruct Hv as (u & Hu & Hat). replace u with t in * by congruence.
      unfold quiet in Hq. by rewrite Hat in Hq.
    + intros ->. by destruct Hv.
    + done.
    + exists t'. split; [done|]. by rewrite E1, E2.
  - destruct (coordinator_keeps l s Hg Hs El Hv Hs') as (_ & E & Hk). rewrite E. split; [done|].
    destruct (Hk id t Ht) as (st & Ht' & Hst). exists (set_step st t). split; [done|].
    by rewrite <- Hf, <- Hst.
Qed.

(** C37. A stop in force is a stop: along every run in which it stays in force,
    whatever the coordinator, the worker, the host and the other threads do, each
    leased thread keeps the stack it stopped with, holds no gate section, and
    stays outside user code: off the dispatch loop, or parked on the generation
    whose release has not happened. *)
Theorem stopped_threads_frozen engine host clock s id t s' :
  reachable engine host clock s -> stopped (s_core s) = true ->
  id ∈ epochLeases (s_core s) -> threads (s_core s) !! id = Some t -> debugExcluded t = false ->
  rtc (during_stop id) s s' ->
  exists t', threads (s_core s') !! id = Some t' /\ frames (t_step t') = frames (t_step t) /\
    t_sections t' = [] /\ quiet (releaseGeneration (bound_domain (s_core s'))) t'.
Proof.
  intros Hr Hs Hi Ht Hx Hrun. apply (frozen_quiet id).
  assert (frozen_with id (frames (t_step t)) s) as Hfr.
  { split; [by eapply reachable_good|]. split; [done|]. split; [done|]. by exists t. }
  clear Hr Hs Hi Ht Hx. induction Hrun as [|s1 s2 s3 Hstep _ IH]; [done|].
  by apply IH, (frozen_step _ _ s1).
Qed.

(** ** After a release *)

(** No thread is left behind: on every reachable state with no stop forming
    or in force, the interrupt bit is clear, admission and the dataflow gate are
    open, nothing is leased, no thread is held as externally stopped, and every
    parked thread's wait is over: its next turn takes it back where it parked. *)
Theorem release_complete engine host clock s :
  reachable engine host clock s -> stopped (s_core s) = false -> forming (s_core s) = false ->
  interrupt s IntrDebugStop = false /\
  admissionClosed (bound_domain (s_core s)) = false /\
  match gate (s_core s) with Some g => closed_ g = false | None => True end /\
  epochLeases (s_core s) = [] /\
  forall id t, threads (s_core s) !! id = Some t ->
    debugOwnership t <> StoppedExternal /\
    forall gen back, at_ t = AtParked gen back ->
      threads (wake id (s_core s)) !! id = Some (set_at back t).
Proof.
  intros Hr Hs Hf. destruct (reachable_good _ _ _ _ Hr) as [Hc _].
  assert (active (s_core s) = false) as Ha by (unfold active; by rewrite Hs, Hf).
  pose proof (default_domain_ok _ (bound (s_core s)) Hc) as [_ _ Hcl Hb].
  rewrite Ha in Hcl, Hb. split; [exact Hb|]. split; [exact Hcl|].
  split. { pose proof (ck_gate _ Hc) as H. destruct (gate (s_core s)); [|done].
    destruct H as [H _]. by rewrite H. }
  split; [by apply (ck_running _ Hc)|]. intros id t Ht.
  destruct (ck_threads _ Hc id t Ht) as [_ _ Ke Kp _ _ _ _]. split.
  - intros E. destruct (Ke E). congruence.
  - intros gen back Hat. destruct (Kp gen back Hat) as (_ & _ & _ & Hgen).
    unfold wake. rewrite Ht, Hat. destruct (Z.eqb_spec (releaseGeneration (bound_domain (s_core s))) gen) as [E|_].
    + exfalso. assert (active (s_core s) = true) by (by apply Hgen). congruence.
    + by rewrite on_thread_lookup, decide_True, Ht.
Qed.

(** ** A pending stop makes progress *)

(** Ready to be stopped: acknowledged, or idle. *)
Definition ready (epoch : Z) (t : thread) : Prop :=
  epoch <= debugAckEpoch t \/ debugOwnership t = Idle.

Section Scan.
Context (isC : Z -> thread -> bool) (epoch : Z).
Context (HisC : forall id t o a, isC id (set_ack a (set_ownership o t)) = isC id t).

Definition acked_at (c : core) (id : Z) : Prop :=
  forall t, threads c !! id = Some t -> isC id t = false -> epoch <= debugAckEpoch t.
Definition ready_at (c : core) (id : Z) : Prop :=
  forall t, threads c !! id = Some t -> isC id t = false -> ready epoch t.

Lemma scan_one_ready c lag x :
  ready_at c x ->
  exists c1, scan_one isC epoch (c, true, lag) x = (c1, true, lag) /\ acked_at c1 x /\
    (forall id, acked_at c id -> acked_at c1 id) /\ (forall id, ready_at c id -> ready_at c1 id).
Proof.
  intros Hrd. unfold scan_one. destruct (threads c !! x) as [t|] eqn:Ht.
  2: { exists c. split_and!; try done. intros t. congruence. }
  destruct (isC x t) eqn:Hi.
  { exists c. split_and!; try done. intros t'. congruence. }
  destruct (Z.leb_spec epoch (debugAckEpoch t)) as [Hle|Hlt].
  { exists c. split_and!; try done. intros t' Ht' _. by replace t' with t by congruence. }
  rewrite decide_True by (destruct (Hrd t Ht Hi); [lia|done]).
  eexists. split; [done|].
  assert (acked_at (on_thread x (fun t => set_ack epoch (set_ownership StoppedExternal t)) c) x) as Hx.
  { intros u. rewrite on_thread_lookup, decide_True, Ht by done. intros [= <-] _. cbn. lia. }
  split; [done|]. split; intros id H u Hu Hiu.
  - destruct (decide (id = x)) as [->|Hne]; [by apply Hx|].
    rewrite on_thread_lookup, decide_False in Hu by done. by apply H.
  - destruct (decide (id = x)) as [->|Hne]; [left; by apply Hx|].
    rewrite on_thread_lookup, decide_False in Hu by done. by apply H.
Qed.

Lemma scan_ready ids : forall c lag,
  (forall id, id ∈ ids -> ready_at c id) ->
  exists c', fold_left (scan_one isC epoch) ids (c, true, lag) = (c', true, lag) /\
    forall id, id ∈ ids \/ acked_at c id -> acked_at c' id.
Proof.
  induction ids as [|x ids IH]; intros c lag Hrd.
  - exists c. split; [done|]. intros id [H|H]; [set_solver|done].
  - destruct (scan_one_ready c lag x) as (c1 & E & Hx & Ha & Hr); [apply Hrd; by left|].
    destruct (IH c1 lag) as (c' & E' & H'); [intros id Hi; apply Hr, Hrd; by right|].
    exists c'. cbn [fold_left]. rewrite E, E'. split; [done|].
    intros id [[->|Hi]%elem_of_cons|Hi]; apply H'; auto.
Qed.

Lemma first_unacked_acked c ids :
  (forall id, id ∈ ids -> acked_at c id) -> first_unacked isC epoch c ids = None.
Proof.
  intros H. unfold first_unacked. set (P := fun id => _ = true).
  destruct (base.filter P ids) as [|x l] eqn:E; [done|]. exfalso.
  assert (x ∈ base.filter P ids) as [HP Hx]%list_elem_of_filter by (rewrite E; by left).
  unfold P in HP. destruct (threads c !! x) as [t|] eqn:Ht; [|done].
  apply andb_true_iff in HP as [Hi%negb_true_iff Hlt%Z.ltb_lt].
  pose proof (H x Hx t Ht Hi). lia.
Qed.
End Scan.

(** A pass over members that are all ready, with the dataflow gate empty,
    commits. *)
Lemma tryCommit_ready ctl s :
  core_ok (s_core s) -> forming (s_core s) = true -> quiesced (s_core s) = true ->
  (forall id t, threads (s_core s) !! id = Some t -> t_domain t = bound (s_core s) ->
     isController ctl s id t = false -> ready (currentEpoch s) t) ->
  snd (tryCommitPass ctl (currentEpoch s) s) = inr tt.
Proof.
  intros Hc Hf Hq Hrd. unfold tryCommitPass. rewrite Hf, Z.eqb_refl. cbn [negb orb].
  set (ids := snapshotLeases (s_core s) (bound (s_core s))).
  destruct (scan_ready (isController ctl s) (currentEpoch s) (fun _ _ _ _ => eq_refl) ids (s_core s) "")
    as (c' & E & Hack).
  { intros id Hi t Ht. apply Hrd; [done|]. apply snapshot_member in Hi. unfold member_of in Hi.
    rewrite Ht in Hi. lia. }
  pose proof (scan_ok (isController ctl s) ids (s_core s) true "" Hc) as Hs.
  fold (currentEpoch s) in Hs. rewrite E in Hs.
  destruct Hs as [_ Hs]; [unfold active; rewrite Hf; apply orb_true_r|apply isController_excluded|apply snapshot_member|].
  rewrite E. destruct (same_fields _ _ Hs) as (_ & _ & E3 & _ & _ & E6 & _).
  assert (quiesced c' = true) as -> by (unfold quiesced in *; by rewrite E6). cbn [negb orb].
  rewrite (same_leases _ _ _ Hs), E3. fold ids.
  rewrite (first_unacked_acked (isController ctl s) (currentEpoch s)); [done|]. auto.
Qed.

(** C38. A pending stop gets through: on every reachable state where a stop is
    forming and pending on behalf of some owner, as soon as no dataflow section
    is open and every member has acknowledged or is idle, one turn of the worker's
    scan (or of a joined requester) puts the stop in force. *)
Theorem pending_stop_commits engine host clock s ctl :
  reachable engine host clock s ->
  forming (s_core s) = true -> pending (s_control s) = true -> owners (s_control s) <> 0 ->
  (forall g, gate (s_core s) = Some g -> active_ g = 0) ->
  (forall id t, threads (s_core s) !! id = Some t -> t_domain t = bound (s_core s) ->
     isController ctl s id t = false ->
     debugAckEpoch t = currentEpoch s \/ debugOwnership t = Idle) ->
  stopped (s_core (advancePendingStop ctl s)) = true.
Proof.
  intros Hr Hf Hp Ho Hgate Hrd. pose proof (reachable_good _ _ _ _ Hr) as [Hc Hroom].
  unfold advancePendingStop. rewrite Hp, Hf. cbn [negb]. rewrite (proj2 (Z.eqb_neq _ _) Ho).
  match goal with |- context [tryCommitPass ctl ?e ?t] =>
    assert (s_core t = s_core s /\ excludedThread (s_control t) = excludedThread (s_control s))
      as [E Ex]; [|set (s1 := t) in *] end.
  { case (_ =? _); [done|]. rewrite openHold_core. split; [done|].
    unfold openHoldAndWake. destruct (holdActive _); by rewrite notify_control. }
  assert (currentEpoch s = currentEpoch s1) as He by (unfold currentEpoch; by rewrite E).
  rewrite He.
  assert (good (s_core s1)) as Hg1 by (rewrite E; by split).
  assert (snd (tryCommitPass ctl (currentEpoch s1) s1) = inr tt) as H.
  { apply tryCommit_ready; rewrite ?E; [done|done| |].
    - unfold quiesced. pose proof (ck_gate _ Hc) as Hgt. destruct (gate (s_core s)) as [g|]; [|done].
      destruct Hgt as [-> _]. rewrite (Hgate g) by done. unfold active. rewrite Hf. by rewrite orb_true_r.
    - intros id t Ht Hd Hi. unfold ready. rewrite <- He.
      assert (isController ctl s id t = false) as Hi'
        by (unfold isController in *; by rewrite Ex in Hi).
      destruct (Hrd id t Ht Hd Hi'); [left; lia|by right]. }
  pose proof (tryCommitPass_cases ctl (currentEpoch s1) s1 Hg1) as Hcases.
  destruct (tryCommitPass ctl (currentEpoch s1) s1) as [s2 r]. cbn [snd] in H. subst r.
  destruct Hcases as (c & Hcm & Hgc & _ & _ & ->). 
  change (snapshotLeases c (bound c)) with (snapshotLeases (s_core (set_s_core c s1)) (bound (s_core (set_s_core c s1)))).
  by rewrite commit_core_eq.
Qed.

(** ** Who may end a stop *)

Lemma drop_debugger_host o : has_owner (drop_owner o Debugger) Host = has_owner o Host.
Proof. unfold has_owner, has_bits, drop_owner, clear_bits. by rewrite <- Z.land_assoc. Qed.

Lemma resumeNow_over h s :
  stopped (s_core s) = true -> core_ok (s_core s) ->
  active (s_core (resumeNow h s)) = false /\
  holdActive (s_hold (resumeNow h s)) = (if h then false else holdActive (s_hold s)) /\
  owners (s_control (resumeNow h s)) = owners (s_control s).
Proof.
  intros Hs Hc. pose proof (ck_phase _ Hc Hs) as Hf. rewrite resumeNow_core, Hs.
  rewrite release_set_stopped by done. split; [done|].
  unfold resumeNow. rewrite Hs. destruct h; cbn [negb]; [|done]. unfold release_hold.
  match goal with |- context [if holdActive (s_hold ?t) then _ else _] =>
    destruct (holdActive (s_hold t)) eqn:E end; [|done].
  by rewrite notify_hold, notify_control.
Qed.

Lemma cancelPending_over h s :
  forming (s_core s) = true -> core_ok (s_core s) ->
  active (s_core (cancelPending h s)) = false /\
  (h = false -> s_hold (cancelPending h s) = s_hold s).
Proof.
  intros Hf Hc. rewrite cancelPending_core, Hf, idle_release by (by apply forming_not_stopped).
  split; [done|]. intros ->. unfold cancelPending. by rewrite Hf.
Qed.

Lemma rollback_over e why s :
  forming (s_core s) = true -> core_ok (s_core s) ->
  active (s_core (rollback e why s)) = false /\ s_hold (rollback e why s) = s_hold s.
Proof.
  intros Hf Hc. rewrite rollback_core, idle_release by (by apply forming_not_stopped).
  split; [done|]. unfold rollback. cbn. by rewrite notify_hold.
Qed.

Lemma endExecution_over s :
  core_ok (s_core s) ->
  active (s_core (endExecution s)) = false /\
  holdActive (s_hold (endExecution s)) = holdActive (s_hold s).
Proof.
  intros Hc. unfold endExecution. match goal with |- context [resumeNow false ?t] => set (s1 := t) end.
  change (s_core s) with (s_core s1) in Hc. change (s_hold s) with (s_hold s1).
  destruct (stopped (s_core s1)) eqn:Hs.
  + by destruct (resumeNow_over false s1 Hs Hc) as (H1 & H2 & _).
  + assert (active (s_core s1) = forming (s_core s1)) as Ea by (unfold active; by rewrite Hs).
    rewrite (interrupt_active s1 Hc), Ea.
    destruct (forming (s_core s1)) eqn:Hf; cbn [orb].
    * destruct (rollback_over (currentEpoch s1) "execution ended" s1 Hf Hc) as [H1 H2].
      split; [exact H1|exact (f_equal holdActive H2)].
    * by rewrite Ea.
Qed.

Lemma shutdown_over s :
  core_ok (s_core s) ->
  active (s_core (resumeForShutdown s)) = false /\
  holdActive (s_hold (resumeForShutdown s)) = holdActive (s_hold s).
Proof.
  intros Hc. unfold resumeForShutdown. match goal with |- context [resumeNow false ?t] => set (s1 := t) end.
  change (s_core s) with (s_core s1) in Hc. change (s_hold s) with (s_hold s1).
  destruct (stopped (s_core s1)) eqn:Hs.
  + by destruct (resumeNow_over false s1 Hs Hc) as (H1 & H2 & _).
  + destruct (forming (s_core s1)) eqn:Hf.
    * destruct (rollback_over (currentEpoch s1) "VM shutting down" s1 Hf Hc) as [H1 H2].
      split; [exact H1|exact (f_equal holdActive H2)].
    * unfold active. by rewrite Hs, Hf.
Qed.

(** A stop ends when its last owner lets go, or the program's execution
    does: the debugger's resume leaves everything the threads see as it is while
    the host owns the stop, and otherwise ends a stop in force, releasing the
    host's hold exactly when asked to; the host's posted release does nothing while
    anyone owns the stop; the end of the execution, the exit release and the
    shutdown end any stop at once, whoever owns it, and never release the hold. *)
Theorem stop_owned engine host clock s h :
  reachable engine host clock s ->
  (has_owner (owners (s_control s)) Host = true ->
   s_core (resume h s) = s_core s /\ s_hold (resume h s) = s_hold s /\
   has_owner (owners (s_control (resume h s))) Host = true) /\
  (has_owner (owners (s_control s)) Host = false -> stopped (s_core s) = true ->
   active (s_core (resume h s)) = false /\
   holdActive (s_hold (resume h s)) = if h then false else holdActive (s_hold s)) /\
  (owners (s_control s) <> 0 -> run_command CmdReleaseHost s = s) /\
  (owners (s_control s) = 0 -> stopped (s_core s) = true ->
   active (s_core (run_command CmdReleaseHost s)) = false /\
   holdActive (s_hold (run_command CmdReleaseHost s)) = false) /\
  (stopped (s_core s) = true ->
   active (s_core (run_command CmdReleaseExit s)) = false /\
   holdActive (s_hold (run_command CmdReleaseExit s)) = holdActive (s_hold s)) /\
  (active (s_core (endExecution s)) = false /\
   holdActive (s_hold (endExecution s)) = holdActive (s_hold s)) /\
  (active (s_core (resumeForShutdown s)) = false /\
   holdActive (s_hold (resumeForShutdown s)) = holdActive (s_hold s)).
Proof.
  intros Hr. destruct (reachable_good _ _ _ _ Hr) as [Hc _]. split_and!.
  - intros Ho. unfold resume. cbn [s_control on_control set_s_control owners set_owners].
    rewrite drop_debugger_host, Ho. cbn. by rewrite drop_debugger_host.
  - intros Ho Hs. unfold resume. cbn [s_control on_control set_s_control owners set_owners].
    rewrite drop_debugger_host, Ho. change (stopped (s_core (on_control _ s))) with (stopped (s_core s)).
    rewrite Hs. cbn [negb andb].
    match goal with |- context [resumeNow h ?t] => by destruct (resumeNow_over h t Hs Hc) as (H1 & H2 & _) end.
  - intros Ho. cbn. by rewrite (proj2 (Z.eqb_neq _ _) Ho).
  - intros Ho Hs. cbn. rewrite Ho, Hs. cbn. by destruct (resumeNow_over true s Hs Hc) as (H1 & H2 & _).
  - intros Hs. cbn. rewrite Hs. by destruct (resumeNow_over false s Hs Hc) as (H1 & H2 & _).
  - by apply endExecution_over.
  - by apply endExecution_over.
  - by apply shutdown_over.
  - by apply shutdown_over.
Qed.

(** ** Concrete runs *)

Definition no_wrapb (s : sys) : bool :=
  forallb (fun p => (stopEpoch p.2 <? 2 ^ 64 - 1) && (releaseGeneration p.2 <? 2 ^ 64 - 1))
    (map_to_list (domains (s_core s))) && (holdGeneration (s_hold s) <? 2 ^ 64 - 1).

Lemma no_wrapb_ok s : no_wrapb s = true -> no_wrap s.
Proof.
  unfold no_wrapb. rewrite andb_true_iff, forallb_forall. intros [H1 H2]. split; [|lia].
  intros d dm Hd. specialize (H1 (d, dm)).
  rewrite <- list_elem_of_In in H1. apply elem_of_map_to_list in Hd.
  specialize (H1 Hd). cbn in H1. lia.
Qed.

Definition runs (ls : list label) (s : sys) : sys := fold_left (fun s l => run l s) ls s.

(** Each label of a list is possible where it is taken. *)
Fixpoint possible (ls : list label) (s : sys) : Prop :=
  match ls with
  | [] => True
  | l :: ls => no_wrapb s = true /\ valid l s /\ possible ls (run l s)
  end.

Lemma possible_steps ls : forall s, possible ls s -> rtc step s (runs ls s).
Proof.
  induction ls as [|l ls IH]; intros s H; [constructor|]. destruct H as (Hw & Hv & H).
  eapply rtc_l; [|by apply IH]. exists l. split; [by apply no_wrapb_ok|done].
Qed.

(** One thread runs, the host asks for a pause, the thread parks, the worker
    commits the stop. *)
Definition demo_forming : list label :=
  [LRegister 1 0 Main; LEnter false 1; LClock 5; LRequestHostPause; LTop false false 1].
Definition demo_start : sys := init true true 0.
Definition demo_pending : sys := runs demo_forming demo_start.
Definition demo_stopped : sys := runs [LWorker] demo_pending.

#[local] Ltac possible_tac :=
  split; [vm_compute; reflexivity|]; split;
  [cbn [valid]; first [exact I
         | split; [lia|vm_compute; reflexivity]
         | eexists; split; [vm_compute; reflexivity|]; vm_compute; intuition congruence]|].

Lemma demo_pending_reachable : reachable true true 0 demo_pending.
Proof. apply possible_steps. do 5 possible_tac. exact I. Defined.

Lemma demo_stopped_reachable : reachable true true 0 demo_stopped.
Proof.
  unfold reachable. transitivity demo_pending; [exact demo_pending_reachable|].
  apply (possible_steps [LWorker]). possible_tac. exact I.
Defined.

Lemma host_protocol_witness :
  stopped (s_core demo_stopped) = true /\
  ((exists open, replay (s_notices demo_stopped)
     = Some (mkView (holdActive (s_hold demo_stopped)) (holdGeneration (s_hold demo_stopped)) open)) /\
   (stopped (s_core demo_stopped) = true -> holdActive (s_hold demo_stopped) = true) /\
   (forming (s_core demo_stopped) = true ->
    pendingWokenEpoch (s_control demo_stopped) = currentEpoch demo_stopped ->
    holdActive (s_hold demo_stopped) = true)).
Proof.
  split; [vm_compute; reflexivity|]. exact (host_protocol true 0 _ demo_stopped_reachable).
Defined.

Lemma stop_commit_sound_witness :
  let s' := fst (tryCommitPass None 1 demo_pending) in
  snd (tryCommitPass None 1 demo_pending) = inr tt /\ 1 ∈ epochLeases (s_core s').
Proof.
  cbn zeta. assert (snd (tryCommitPass None 1 demo_pending) = inr tt) as E by (vm_compute; reflexivity).
  split; [exact E|].
  destruct (stop_commit_sound true true 0 demo_pending None 1 (fst (tryCommitPass None 1 demo_pending))
    demo_pending_reachable) as (_ & _ & _ & _ & H).
  { rewrite <- E. apply surjective_pairing. }
  eapply H; vm_compute; reflexivity.
Defined.

(** The thread of the runs, as each of them leaves it. *)
Definition demo_thread (s : sys) : thread := default (new_thread 0 Main) (threads (s_core s) !! 1).

Lemma stopped_threads_frozen_witness :
  exists t', threads (s_core (run LReleaseHostPause demo_stopped)) !! 1 = Some t' /\
    frames (t_step t') = frames (t_step (demo_thread demo_stopped)).
Proof.
  destruct (stopped_threads_frozen true true 0 demo_stopped 1 (demo_thread demo_stopped)
    (run LReleaseHostPause demo_stopped) demo_stopped_reachable) as (t' & Ht' & Hf & _);
    [vm_compute; reflexivity| |vm_compute; reflexivity|vm_compute; reflexivity| |].
  - assert (epochLeases (s_core demo_stopped) = [1]) as E by (vm_compute; reflexivity).
    rewrite E. by left.
  - apply rtc_once. exists LReleaseHostPause. split; [apply no_wrapb_ok; vm_compute; reflexivity|].
    split; [exact I|]. split; [discriminate|]. split; [reflexivity|vm_compute; reflexivity].
  - exists t'. split; [exact Ht'|exact Hf].
Defined.

(** The host lets go and the worker releases. *)
Definition demo_released : sys := runs [LReleaseHostPause; LWorker] demo_stopped.

Lemma demo_released_reachable : reachable true true 0 demo_released.
Proof.
  unfold reachable. transitivity demo_stopped; [exact demo_stopped_reachable|].
  apply (possible_steps [LReleaseHostPause; LWorker]). do 2 possible_tac. exact I.
Defined.

Lemma release_complete_witness :
  at_ (demo_thread demo_released) = AtParked 0 AtTop /\
  threads (wake 1 (s_core demo_released)) !! 1 = Some (set_at AtTop (demo_thread demo_released)).
Proof.
  assert (at_ (demo_thread demo_released) = AtParked 0 AtTop) as Hat by (vm_compute; reflexivity).
  split; [exact Hat|].
  destruct (release_complete true true 0 demo_released demo_released_reachable)
    as (_ & _ & _ & _ & H); [vm_compute; reflexivity..|].
  assert (threads (s_core demo_released) !! 1 = Some (demo_thread demo_released)) as Ht
    by (vm_compute; reflexivity).
  exact (proj2 (H 1 _ Ht) 0 AtTop Hat).
Defined.

Lemma pending_stop_commits_witness :
  forming (s_core demo_pending) = true /\ stopped (s_core (advancePendingStop None demo_pending)) = true.
Proof.
  split; [vm_compute; reflexivity|].
  apply (pending_stop_commits true true 0 demo_pending None demo_pending_reachable);
    [vm_compute; reflexivity|vm_compute; reflexivity|vm_compute; discriminate| |].
  - intros g Hg. assert (gate (s_core demo_pending) = Some (mkGate true 0)) as E
      by (vm_compute; reflexivity).
    replace g with (mkGate true 0) by congruence. reflexivity.
  - intros id t Ht _ _. left.
    assert (threads (s_core demo_pending) = {[ 1 := default (new_thread 0 Main)
      (threads (s_core demo_pending) !! 1) ]}) as E by (vm_compute; reflexivity).
    rewrite E in Ht. apply lookup_singleton_Some in Ht as [<- <-]. vm_compute. reflexivity.
Defined.

Lemma stop_owned_witness :
  stopped (s_core demo_stopped) = true /\
  s_core (resume true demo_stopped) = s_core demo_stopped.
Proof.
  split; [vm_compute; reflexivity|].
  apply (stop_owned true true 0 demo_stopped true demo_stopped_reachable).
  vm_compute. reflexivity.
Defined.


(** ** What the program does not rule out *)

(** A trap is published and the execution ends before the worker completes it:
    the stop is rolled back, but the worker still completes the trap, opening the
    host's hold for a stop that no longer exists; and when a new stop has begun
    meanwhile, that stop is announced twice. *)
Definition stale_trap : list label :=
  [LRegister 1 0 Main; LAddDemand; LClock 300000; LTrap Breakpoint 1 None 0 ""; LEndExecution].

Lemma stale_trap_opens_hold :
  let s := runs (stale_trap ++ [LWorker]) demo_start in
  forming (s_core s) = false /\ stopped (s_core s) = false /\ holdActive (s_hold s) = true /\
  match s_notices s with
  | HoldRequested r :: StopFailed _ _ e _ :: _ => r_epoch r = e
  | _ => False
  end.
Proof. vm_compute. repeat split; reflexivity. Qed.

Lemma stale_trap_announces_twice :
  let s := runs (stale_trap ++ [LBeginExecution; LRequestHostPause; LWorker]) demo_start in
  match s_notices s with
  | DebugStopped _ _ e :: HoldReasserted r :: HoldRequested r' :: _ =>
      r_epoch r = e /\ r_epoch r' = e /\ r_reason r = Breakpoint /\ r_reason r' = HostStop
  | _ => False
  end.
Proof. vm_compute. repeat split; reflexivity. Qed.

(** A thread whose release has come but which has not left its park when the
    coordinator is pointed at a fresh domain waits on the new domain's
    generation: here for good, until that domain's own release. *)
Lemma rebind_strands_parked :
  at_ (demo_thread demo_released) = AtParked 0 AtTop /\
  threads (wake 1 (s_core (rebind 7 demo_released))) !! 1 = Some (demo_thread demo_released).
Proof. vm_compute. split; reflexivity. Qed.

End StopProofs.
