(* ===== verification/Breakpoints.v ===== *)
(** * Breakpoints: source breakpoints and steps
      (compiler/debug/ModuleDebugIndex, BreakpointManager, BreakpointRuntime,
      VM::debugStatementBoundary)

    The index holds, per source, the functions of its newest generation; the
    manager files requested lines per source, binds each to the first executable
    statement at or after it, and arms that statement's word in its chunk; a
    thread about to execute a statement consults the word and its own step state
    and publishes a stop through [StopCoordinator].

    The program's objects are stores: functions and chunks by identity.  The file
    system and [std::hash] are parameters; an [std::unordered_map] is a finite
    map whose iteration order no result depends on. *)

From S2P Require Import Prelude Ustring DebugHandles DebugInfo StopCoordinator.
From stdpp Require Import numbers pretty strings.

Module Breakpoints.

Import StopCoordinator.
Local Open Scope Z_scope.

(** ** The program's objects *)

(** A constant, or a default-argument value: a function or anything else. *)
Inductive value := VFunction (f : Z) | VOther.

(** Per-chunk breakpoint words, one per statement; [seq] is odd during an edit. *)
Record ChunkBreakpoints := mkPoints { words : list Z; seq : Z }.

Definition Enabled : Z := 1.
Definition new_points (stmtCount : nat) : ChunkBreakpoints := mkPoints (replicate stmtCount 0) 0.

(** What a chunk holds beside its debug information. *)
Record code := mkCode {
  code_size : Z;
  constants : list value;
  breakpointsRaw : option ChunkBreakpoints;
}.

Record function := mkFunction {
  f_chunk : option Z;
  paramDefaultFunc : list value;
}.

Record Meta := mkMeta { sourceName : string; sourceText : string }.

Record index := mkIndex {
  generations : gmap Z (list Z);      (* the functions, as registered *)
  meta : gmap Z Meta;
  bySource : gmap string Z;
  nextGen : Z;
}.

Record Bound := mkBound { requestedLine : Z; boundLine : Z; verified : bool }.

Record manager := mkManager {
  hooked : bool;                      (* instance() has installed the index hook *)
  listening : bool;
  requests : gmap string (list Z);
  armedBySource : gmap string (list Z);
  slowPathDemandHeld : bool;
}.

Record world := mkWorld {
  w_sys : sys;
  w_codes : gmap Z code;
  w_funs : gmap Z function;
  w_index : index;
  w_mgr : manager;
  w_told : list (string * list Bound);   (* the listener's calls, newest first *)
}.

Definition set_sys (x : sys) (w : world) : world :=
  mkWorld x (w_codes w) (w_funs w) (w_index w) (w_mgr w) (w_told w).
Definition set_codes (x : gmap Z code) (w : world) : world :=
  mkWorld (w_sys w) x (w_funs w) (w_index w) (w_mgr w) (w_told w).
Definition set_index (x : index) (w : world) : world :=
  mkWorld (w_sys w) (w_codes w) (w_funs w) x (w_mgr w) (w_told w).
Definition set_mgr (x : manager) (w : world) : world :=
  mkWorld (w_sys w) (w_codes w) (w_funs w) (w_index w) x (w_told w).
Definition set_told (x : list (string * list Bound)) (w : world) : world :=
  mkWorld (w_sys w) (w_codes w) (w_funs w) (w_index w) (w_mgr w) x.

Definition set_requests (x : gmap string (list Z)) (w : world) : world :=
  let m := w_mgr w in
  set_mgr (mkManager (hooked m) (listening m) x (armedBySource m) (slowPathDemandHeld m)) w.
Definition set_armed (x : gmap string (list Z)) (w : world) : world :=
  let m := w_mgr w in
  set_mgr (mkManager (hooked m) (listening m) (requests m) x (slowPathDemandHeld m)) w.
Definition set_held (x : bool) (w : world) : world :=
  let m := w_mgr w in
  set_mgr (mkManager (hooked m) (listening m) (requests m) (armedBySource m) x) w.
Definition set_hooked (w : world) : world :=
  let m := w_mgr w in
  set_mgr (mkManager true (listening m) (requests m) (armedBySource m) (slowPathDemandHeld m)) w.

Definition info_of (w : world) (ch : Z) : option DebugInfo.DebugInfo :=
  match s_chunks (w_sys w) !! ch with Some c => ch_debugInfo c | None => None end.
Definition points_of (w : world) (ch : Z) : option ChunkBreakpoints :=
  match w_codes w !! ch with Some c => breakpointsRaw c | None => None end.
Definition set_points (p : ChunkBreakpoints) (c : code) : code :=
  mkCode (code_size c) (constants c) (Some p).
Definition on_points (ch : Z) (f : ChunkBreakpoints -> ChunkBreakpoints) (w : world) : world :=
  match w_codes w !! ch with
  | Some c => match breakpointsRaw c with
              | Some p => set_codes (<[ch := set_points (f p) c]> (w_codes w)) w
              | None => w
              end
  | None => w
  end.

Definition string_of_bytes (bs : list Z) : string :=
  foldr (fun b s => String (Ascii.ascii_of_N (Z.to_N b)) s) ""%string bs.

(** ** The function graph *)

(** The walk's visited set and its stack, top first. *)
Definition enqueue (v : value) (st : gset Z * list Z) : gset Z * list Z :=
  match v with
  | VFunction f => if decide (f ∈ st.1) then st else ({[ f ]} ∪ st.1, f :: st.2)
  | VOther => st
  end.

Definition children (w : world) (f : Z) : list value :=
  match w_funs w !! f with
  | Some fn =>
      match f_chunk fn with
      | Some ch => match w_codes w !! ch with Some c => constants c | None => [] end
      | None => []
      end ++ paramDefaultFunc fn
  | None => []
  end.

Fixpoint walk (fuel : nat) (w : world) (st : gset Z * list Z) : option (list Z) :=
  match st.2 with
  | [] => Some []
  | f :: rest =>
      match fuel with
      | O => None
      | S fuel =>
          option_map (cons f)
            (walk fuel w (fold_left (fun st v => enqueue v st) (children w f) (st.1, rest)))
      end
  end.

(** Every function reachable from [root], in visiting order.  A function is
    pushed once, so the fuel is the number of functions. *)
Definition forEachFunctionInGraph (root : value) (w : world) : option (list Z) :=
  walk (S (size (w_funs w))) w (enqueue root (∅, [])).

(** ** The index *)

Section Sources.
Context (file_exists : string -> bool) (weakly_canonical : string -> option string).
Context (std_hash : string -> Z).

Definition canonical_file (name : string) : option string :=
  if negb (bool_decide (name = ""%string)) && file_exists name then weakly_canonical name else None.

Definition stableSourceKey (name text : string) : string :=
  match canonical_file name with
  | Some c => c
  | None => (name ++ "#" ++ pretty (std_hash text))%string
  end.

Definition requestKey (source : string) : string :=
  match canonical_file source with Some c => c | None => source end.

(** [rfind('#')] and the part before it. *)
Fixpoint before_last_hash (s : string) : option string :=
  match s with
  | EmptyString => None
  | String c s' =>
      match before_last_hash s' with
      | Some p => Some (String c p)
      | None => if bool_decide (c = Ascii.ascii_of_nat 35) then Some EmptyString else None
      end
  end.

Definition has_hash (s : string) : bool :=
  match before_last_hash s with Some _ => true | None => false end.

(** The newest generation among the registrations of a display name. *)
Definition newest_of (name : string) (bs : gmap string Z) : option Z :=
  map_fold (fun k gen best =>
    if String.prefix (name ++ "#") k
    then Some (match best with Some b => Z.max b gen | None => gen end)
    else best) None bs.

Definition generation_of (name : string) (ix : index) : option Z :=
  let found :=
    match bySource ix !! name with
    | Some g => Some g
    | None => match canonical_file name with Some c => bySource ix !! c | None => None end
    end in
  match found with
  | Some g => Some g
  | None => if has_hash name then None else newest_of name (bySource ix)
  end.

Record SourceEntry := mkEntry {
  e_generation : Z;
  e_meta : option Meta;
  e_functions : option (list Z);
}.

Definition lookupBySource (name : string) (ix : index) : option SourceEntry :=
  match generation_of name ix with
  | Some g => Some (mkEntry g (meta ix !! g) (generations ix !! g))
  | None => None
  end.

Definition retireGeneration (gen : Z) (ix : index) : index :=
  match meta ix !! gen with
  | None => ix
  | Some m =>
      mkIndex (delete gen (generations ix)) (delete gen (meta ix))
        (if decide (bySource ix !! sourceName m = Some gen)
         then delete (sourceName m) (bySource ix) else bySource ix)
        (nextGen ix)
  end.

Definition index_clearAll (ix : index) : index := mkIndex ∅ ∅ ∅ (nextGen ix).

Definition index_register (key text : string) (functions : list Z) (ix : index) : index * Z :=
  let gen := nextGen ix in
  let '(gens, ms) :=
    match bySource ix !! key with
    | Some prev => (delete prev (generations ix), delete prev (meta ix))
    | None => (generations ix, meta ix)
    end in
  (mkIndex (<[gen := functions]> gens) (<[gen := mkMeta key text]> ms) (<[key := gen]> (bySource ix))
     (wrapU 64 (gen + 1)), gen).

(** ** The manager *)

(** An edit of a chunk's words under the seqlock: odd, the stores, even. *)
Definition edit (f : list Z -> list Z) (p : ChunkBreakpoints) : ChunkBreakpoints :=
  mkPoints (f (words p)) (wrapU 32 (wrapU 32 (seq p + 1) + 1)).

Definition clear_words (ws : list Z) : list Z := map (fun _ => 0) ws.

Definition clear_armed (key : string) (w : world) : world :=
  match armedBySource (w_mgr w) !! key with
  | None => w
  | Some chunks =>
      let w := fold_left (fun w ch => on_points ch (edit clear_words) w) chunks w in
      set_armed (<[key := []]> (armedBySource (w_mgr w))) w
  end.

Record best := mkBest { bestChunk : option Z; bestIdx : Z; bestLine : Z; bestOffset : Z }.

Definition no_best : best := mkBest None 0 0x7fffffff 0.

Definition is_start (e : DebugInfo.DebugStmtEntry) : bool :=
  DebugInfo.kind e =? DebugInfo.StatementStart.

(** One statement of chunk [ch] against the best so far. *)
Definition consider (reqLine ch : Z) (starts : bool) (b : best) (p : nat * DebugInfo.DebugStmtEntry)
    : best :=
  let '(i, e) := p in
  if starts && negb (is_start e) then b
  else if DebugInfo.line e <? reqLine then b
  else if (DebugInfo.line e <? bestLine b)
          || ((DebugInfo.line e =? bestLine b) && bool_decide (bestChunk b = Some ch)
              && (DebugInfo.offset e <? bestOffset b))
  then mkBest (Some ch) (Z.of_nat i) (DebugInfo.line e) (DebugInfo.offset e)
  else b.

Definition consider_function (w : world) (reqLine : Z) (b : best) (f : Z) : best :=
  match w_funs w !! f with
  | Some fn =>
      match f_chunk fn with
      | Some ch =>
          match info_of w ch with
          | Some di =>
              let ss := DebugInfo.stmts di in
              fold_left (consider reqLine ch (existsb is_start ss)) (imap pair ss) b
          | None => b
          end
      | None => b
      end
  | None => b
  end.

Definition bind_line (w : world) (functions : option (list Z)) (reqLine : Z)
    : Bound * option (Z * Z) :=
  match functions with
  | None => (mkBound reqLine 0 false, None)
  | Some fs =>
      let b := fold_left (consider_function w reqLine) fs no_best in
      match bestChunk b with
      | Some ch => (mkBound reqLine (bestLine b) true, Some (ch, bestIdx b))
      | None => (mkBound reqLine 0 false, None)
      end
  end.

Definition ensureChunkWords (ch : Z) (w : world) : world * bool :=
  match w_codes w !! ch with
  | None => (w, false)
  | Some c =>
      match breakpointsRaw c with
      | Some _ => (w, true)
      | None =>
          match info_of w ch with
          | Some di =>
              match DebugInfo.stmts di with
              | [] => (w, false)
              | ss => (set_codes (<[ch := set_points (new_points (length ss)) c]> (w_codes w)) w, true)
              end
          | None => (w, false)
          end
      end
  end.

(** Arm one bound statement; the chunk is then known under the source. *)
Definition arm_target (key : string) (w : world) (t : Z * Z) : world :=
  let '(ch, idx) := t in
  let '(w, ok) := ensureChunkWords ch w in
  match points_of w ch with
  | Some p =>
      if negb ok || (Z.of_nat (length (words p)) <=? idx) then w
      else
        let w := on_points ch (edit (alter (fun x => Z.lor x Enabled) (Z.to_nat idx))) w in
        let armed := default [] (armedBySource (w_mgr w) !! key) in
        if decide (ch ∈ armed) then w
        else set_armed (<[key := armed ++ [ch]]> (armedBySource (w_mgr w))) w
  | None => w
  end.

Definition bindLocked (key : string) (w : world) : world * list Bound :=
  let w := clear_armed key w in
  match requests (w_mgr w) !! key with
  | None => (w, [])
  | Some lines =>
      let functions :=
        match lookupBySource key (w_index w) with Some e => e_functions e | None => None end in
      let bound := map (bind_line w functions) lines in
      let armed0 := armedBySource (w_mgr w) in
      let w := set_armed (<[key := default [] (armed0 !! key)]> armed0) w in
      (fold_left (arm_target key) (omap snd bound) w, map fst bound)
  end.

Definition any_armed (m : manager) : bool :=
  existsb (fun kv => match kv.2 with [] => false | _ => true end) (map_to_list (armedBySource m)).

Definition updateSlowPathDemand (w : world) : world :=
  let any := any_armed (w_mgr w) in
  if any && negb (slowPathDemandHeld (w_mgr w))
  then set_held true (set_sys (addSlowPathDemand (w_sys w)) w)
  else if negb any && slowPathDemandHeld (w_mgr w)
  then set_held false (set_sys (removeSlowPathDemand (w_sys w)) w)
  else w.

(** [instance()] installs the registration hook on first use. *)
Definition setBreakpoints (source : string) (lines : list Z) (w : world) : world * list Bound :=
  let w := set_hooked w in
  let key := requestKey source in
  let w := set_requests (match lines with
                         | [] => delete key (requests (w_mgr w))
                         | _ => <[key := lines]> (requests (w_mgr w))
                         end) w in
  let '(w, out) := bindLocked key w in
  (updateSlowPathDemand w, out).

Definition request_for (key : string) (w : world) : option string :=
  match requests (w_mgr w) !! key with
  | Some _ => Some key
  | None =>
      match before_last_hash key with
      | Some name => match requests (w_mgr w) !! name with Some _ => Some name | None => None end
      | None => None
      end
  end.

Definition onSourceRegistered (sourceKey : string) (w : world) : world :=
  match request_for sourceKey w with
  | None => w
  | Some key =>
      let '(w, bound) := bindLocked key w in
      let w := updateSlowPathDemand w in
      if listening (w_mgr w) then set_told ((key, bound) :: w_told w) w else w
  end.

Definition clearAllBreakpoints (w : world) : world :=
  let w := set_requests ∅ w in
  let w := map_fold (fun _ chunks w =>
             fold_left (fun w ch => on_points ch (edit clear_words) w) chunks w)
             w (armedBySource (w_mgr w)) in
  updateSlowPathDemand (set_armed ∅ w).

(** A compiled module's functions are registered, then the manager rebinds. *)
Definition registerFunctionGraph (root : value) (text : string) (w : world) : option (world * Z) :=
  match root with
  | VOther => Some (w, 0)
  | VFunction f =>
      match w_funs w !! f with
      | Some fn =>
          match f_chunk fn with
          | None => Some (w, 0)
          | Some ch =>
              let name := match s_chunks (w_sys w) !! ch with
                          | Some c => string_of_bytes (Ustring.encodeUTF8 (ch_source c))
                          | None => ""%string
                          end in
              let key := stableSourceKey name text in
              match forEachFunctionInGraph root w with
              | None => None
              | Some fs =>
                  let '(ix, gen) := index_register key text fs (w_index w) in
                  let w := set_index ix w in
                  Some (if hooked (w_mgr w) then onSourceRegistered key w else w, gen)
              end
          end
      | None => Some (w, 0)
      end
  end.

End Sources.

(** ** The boundary of a statement *)

Definition set_top (fr : frame) (st : stepping) : stepping :=
  mkStepping (take (length (frames st) - 1) (frames st) ++ [fr]) (nextActivationId st)
    (debugStepMode st) (debugStepActivation st) (debugStepOriginIndex st) (debugSuppress st).
Definition set_suppress (x : option Z * Z * Z) (st : stepping) : stepping :=
  mkStepping (frames st) (nextActivationId st) (debugStepMode st) (debugStepActivation st)
    (debugStepOriginIndex st) x.
Definition set_next (x : Z) (st : stepping) : stepping :=
  mkStepping (frames st) x (debugStepMode st) (debugStepActivation st) (debugStepOriginIndex st)
    (debugSuppress st).

(** The innermost frame's activation id, assigned on first use. *)
Definition ensureActivation (st : stepping) : stepping * Z :=
  match last_frame st with
  | None => (st, 0)
  | Some fr =>
      if activationId fr =? 0
      then (set_next (wrapU 64 (nextActivationId st + 1))
              (set_top (mkFrame (nextActivationId st) (fr_chunk fr) (fr_off fr) (isEventHandler fr)
                          (fr_window fr)) st),
            nextActivationId st)
      else (st, activationId fr)
  end.

(** A hit is claimed from a stable snapshot of the words only. *)
Definition breakpoint_at (p : ChunkBreakpoints) (idx : Z) : bool :=
  match words p !! Z.to_nat idx with
  | Some x => Z.even (seq p) && negb (Z.land x Enabled =? 0)
  | None => false
  end.

Definition originAlive (st : stepping) : bool :=
  match frames st !! Z.to_nat (debugStepOriginIndex st) with
  | Some fr => activationId fr =? debugStepActivation st
  | None => false
  end.

Definition handlerInterposed (st : stepping) : bool :=
  existsb isEventHandler
    (drop (if originAlive st then S (Z.to_nat (debugStepOriginIndex st)) else O) (frames st)).

Definition step_fires (st : stepping) : bool :=
  match debugStepMode st with
  | StepNone => false
  | StepIn => negb (handlerInterposed st)
  | StepNext =>
      if originAlive st
      then (Z.of_nat (length (frames st)) - 1 =? debugStepOriginIndex st)
      else negb (handlerInterposed st)
  | StepOut => negb (originAlive st) && negb (handlerInterposed st)
  end.

Definition on_step (id : Z) (st : stepping) (w : world) : world :=
  set_sys (on_core (on_thread id (fun t => set_step st t)) (w_sys w)) w.

(** The publication of a stop, or the decision to run on. *)
Definition publish_trap (id ch idx : Z) (hit : bool) (st : stepping) (w : world) : world * bool :=
  let fires := negb hit && step_fires st in
  if negb (hit || fires) then (on_step id st w, false)
  else
    let reason := if hit then Breakpoint else Step in
    let '(s, began) := tryBeginAsyncStop reason id (Some ch) idx ""%string (w_sys w) in
    let w := set_sys s w in
    let requested := match threads (s_core s) !! id with
                     | Some t => stop_bit (s_core s) t
                     | None => false
                     end in
    if negb began && negb requested then (on_step id st w, false)
    else
      let st := if began && fires then disarm st else st in
      let '(st, act) := ensureActivation st in
      (on_step id (set_suppress (Some ch, idx, act) st) w, true).

Definition debugStatementBoundary (id : Z) (w : world) : world * bool :=
  match threads (s_core (w_sys w)) !! id with
  | None => (w, false)
  | Some t =>
      let st := t_step t in
      match last_frame st with
      | None => (w, false)
      | Some fr =>
          match info_of w (fr_chunk fr), w_codes w !! fr_chunk fr with
          | Some di, Some c =>
              match DebugInfo.stmts di with
              | [] => (w, false)
              | _ =>
                  let '(win, at_stmt) :=
                    DebugInfo.statement_at di (code_size c) (fr_off fr) (fr_window fr) in
                  let fr := mkFrame (activationId fr) (fr_chunk fr) (fr_off fr) (isEventHandler fr) win in
                  let st := set_top fr st in
                  match at_stmt with
                  | None => (on_step id st w, false)
                  | Some idx =>
                      let '(sch, sidx, sact) := debugSuppress st in
                      let same := bool_decide (sch = Some (fr_chunk fr)) && (sidx =? idx) in
                      let '(st, act) := if same then ensureActivation st else (st, 0) in
                      if same && (sact =? act)
                      then (on_step id (set_suppress (None, 0xffffffff, 0) st) w, false)
                      else
                        let hit := match breakpointsRaw c with
                                   | Some p => breakpoint_at p idx
                                   | None => false
                                   end in
                        publish_trap id (fr_chunk fr) idx hit st w
                  end
              end
          | _, _ => (w, false)
          end
      end
  end.

(** ** The statement table, as the compiler writes it *)

Definition markStmtStart (ss : list DebugInfo.DebugStmtEntry) (offset line column : Z)
    : list DebugInfo.DebugStmtEntry :=
  match last ss with
  | Some e =>
      if (DebugInfo.offset e =? offset) && is_start e then ss
      else ss ++ [DebugInfo.mkStmt offset line column DebugInfo.StatementStart]
  | None => ss ++ [DebugInfo.mkStmt offset line column DebugInfo.StatementStart]
  end.

Definition recordFunctionEntryStmt (ss : list DebugInfo.DebugStmtEntry) (line column : Z)
    : list DebugInfo.DebugStmtEntry :=
  ss ++ [DebugInfo.mkStmt 0 line column DebugInfo.FunctionEntry].

(** The compiler's calls: at most an entry first, then statements as the code
    grows. *)
Inductive compiled : list DebugInfo.DebugStmtEntry -> Z -> Prop :=
| compiled_none : compiled [] 0
| compiled_entry line column : compiled (recordFunctionEntryStmt [] line column) 0
| compiled_mark ss size size' line column :
    compiled ss size -> size <= size' -> compiled (markStmtStart ss size' line column) size'.

(** ** The function graph *)

Definition calls (w : world) (f g : Z) : Prop := VFunction g ∈ children w f.

(** Every function a constant or a default names is there. *)
Definition closed_graph (w : world) : Prop :=
  forall f g, is_Some (w_funs w !! f) -> calls w f g -> is_Some (w_funs w !! g).

Lemma enqueue_all cs : forall vis stk,
  exists ns, fold_left (fun st v => enqueue v st) cs (vis, stk) = (vis ∪ list_to_set ns, ns ++ stk) /\
    NoDup ns /\ (forall x, x ∈ ns -> x ∉ vis /\ VFunction x ∈ cs) /\
    (forall x, VFunction x ∈ cs -> x ∈ vis \/ x ∈ ns).
Proof.
  induction cs as [|c cs IH]; intros vis stk.
  { exists []. split_and!; [cbn; f_equal; set_solver|apply NoDup_nil_2|set_solver|set_solver]. }
  cbn [fold_left]. destruct c as [f|]; cbn [enqueue fst snd]; [case_decide as Hf|].
  - destruct (IH vis stk) as (ns & E & Hnd & H1 & H2). exists ns. split_and!; [done..| |].
    + intros x Hx. destruct (H1 x Hx). split; [done|by right].
    + intros x [[= ->]|Hx]%elem_of_cons; [by left|auto].
  - destruct (IH ({[f]} ∪ vis) (f :: stk)) as (ns & E & Hnd & H1 & H2). exists (ns ++ [f]).
    rewrite E. split_and!.
    + f_equal; [set_solver|by rewrite <- app_assoc].
    + apply NoDup_app. split_and!; [done| |apply NoDup_singleton].
      intros x Hx ->%list_elem_of_singleton. destruct (H1 f Hx) as [Hn _]. set_solver.
    + intros x [Hx| ->%list_elem_of_singleton]%elem_of_app.
      * destruct (H1 x Hx). split; [set_solver|by right].
      * split; [done|by left].
    + intros x [[= ->]|Hx]%elem_of_cons; [right; set_solver|]. destruct (H2 x Hx); set_solver.
  - destruct (IH vis stk) as (ns & E & Hnd & H1 & H2). exists ns. split_and!; [done..| |].
    + intros x Hx. destruct (H1 x Hx). split; [done|by right].
    + intros x [|Hx]%elem_of_cons; [done|auto].
Qed.

Lemma walk_spec w : closed_graph w -> forall fuel vis stk,
  NoDup stk -> (forall x, x ∈ stk -> x ∈ vis) -> vis ⊆ dom (w_funs w) ->
  (size (w_funs w) + length stk <= fuel + size vis)%nat ->
  exists fs, walk fuel w (vis, stk) = Some fs /\ NoDup fs /\
    (forall x, x ∈ fs -> x ∈ stk \/ x ∉ vis) /\ (forall x, x ∈ stk -> x ∈ fs) /\
    (forall f g, f ∈ fs -> calls w f g -> g ∈ vis \/ g ∈ fs) /\
    (forall f, f ∈ fs -> exists s, s ∈ stk /\ rtc (calls w) s f).
Proof.
  intros Hcl. induction fuel as [|fuel IH]; intros vis stk Hnd Hsub Hdom Hfuel.
  - destruct stk as [|f stk].
    { exists []. split_and!; first [done|apply NoDup_nil_2|set_solver]. }
    exfalso. pose proof (subseteq_size _ _ Hdom) as Hsz. rewrite size_dom in Hsz. cbn in Hfuel. lia.
  - destruct stk as [|f stk].
    { exists []. split_and!; first [done|apply NoDup_nil_2|set_solver]. }
    cbn [walk snd fst]. destruct (enqueue_all (children w f) vis stk) as (ns & -> & Hnn & H1 & H2).
    apply NoDup_cons in Hnd as [Hf Hnd].
    assert (f ∈ dom (w_funs w)) as Hfd by (apply Hdom, Hsub; by left).
    assert (size (vis ∪ list_to_set ns : gset Z) = size vis + length ns)%nat as Hsize.
    { rewrite size_union; [by rewrite size_list_to_set|]. intros x Hx Hx'. apply elem_of_list_to_set in Hx'.
      by destruct (H1 x Hx'). }
    destruct (IH (vis ∪ list_to_set ns) (ns ++ stk)) as (fs & -> & Hfs & F1 & F2 & F3 & F4).
    { apply NoDup_app. split_and!; [done| |done]. intros x Hx Hx'. destruct (H1 x Hx) as [Hn _].
      apply Hn, Hsub. by right. }
    { intros x [Hx|Hx]%elem_of_app; [set_solver|]. apply elem_of_union_l, Hsub. by right. }
    { intros x [Hx|Hx%elem_of_list_to_set]%elem_of_union; [by apply Hdom|]. destruct (H1 x Hx) as [_ Hc].
      apply elem_of_dom. apply elem_of_dom in Hfd. exact (Hcl f x Hfd Hc). }
    { rewrite length_app, Hsize. cbn [length] in Hfuel. lia. }
    exists (f :: fs). split; [done|].
    assert (f ∉ fs) as Hnf.
    { intros Hin. destruct (F1 f Hin) as [[Hx|Hx]%elem_of_app|Hx].
      - destruct (H1 f Hx) as [Hn _]. apply Hn, Hsub. by left.
      - done.
      - apply Hx, elem_of_union_l, Hsub. by left. }
    split_and!.
    + by constructor.
    + intros x [->|Hx]%elem_of_cons; [left; by left|]. destruct (F1 x Hx) as [[Hy|Hy]%elem_of_app|Hy].
      * right. by apply H1.
      * left. by right.
      * right. set_solver.
    + intros x [->|Hx]%elem_of_cons; [by left|]. right. apply F2, elem_of_app. by right.
    + intros x g [->|Hx]%elem_of_cons Hg.
      * destruct (H2 g Hg) as [|Hn]; [by left|]. right. right. apply F2, elem_of_app. by left.
      * destruct (F3 x g Hx Hg) as [[Hv|Hv%elem_of_list_to_set]%elem_of_union|Hv]; [by left| |right; by right].
        right. right. apply F2, elem_of_app. by left.
    + intros x [->|Hx]%elem_of_cons; [exists f; split; [by left|done]|].
      destruct (F4 x Hx) as (s & [Hs|Hs]%elem_of_app & Hr); [|exists s; split; [by right|done]].
      exists f. split; [by left|]. eapply rtc_l; [|done]. by apply H1.
Qed.

(** The walk over a function graph ends and is exact: on any graph whose
    constants and default values name existing functions, cycles included, it
    visits every function reachable from the root, no other, each once. *)
Theorem function_graph_walk w root :
  closed_graph w -> is_Some (w_funs w !! root) ->
  exists fs, forEachFunctionInGraph (VFunction root) w = Some fs /\ NoDup fs /\
    forall f, f ∈ fs <-> rtc (calls w) root f.
Proof.
  intros Hcl Hroot. unfold forEachFunctionInGraph. cbn [enqueue fst snd].
  rewrite decide_False by set_solver.
  destruct (walk_spec w Hcl (S (size (w_funs w))) ({[root]} ∪ ∅) [root]) as (fs & -> & Hnd & H1 & H2 & H3 & H4).
  - apply NoDup_singleton.
  - intros x ->%list_elem_of_singleton. set_solver.
  - intros x Hx. assert (x = root) as -> by set_solver. by apply elem_of_dom.
  - assert (size ({[root]} ∪ ∅ : gset Z) = 1%nat) as -> by (rewrite union_empty_r_L; apply size_singleton).
    cbn [length]. lia.
  - exists fs. split; [done|]. split; [done|].
    assert (root ∈ fs) as Hr by (apply H2; by left).
    intros f. split.
    + intros Hf. destruct (H4 f Hf) as (s & ->%list_elem_of_singleton & Hrt). done.
    + assert (forall f g, f ∈ fs -> calls w f g -> g ∈ fs) as Hstep.
      { intros g h Hg Hc. destruct (H3 g h Hg Hc) as [Hv|]; [|done].
        assert (h = root) as -> by set_solver. done. }
      intros Hrt. clear -Hr Hrt Hstep. induction Hrt as [f|f g h Hc _ IH]; [done|].
      by apply IH, (Hstep f).
Qed.

(** ** Binding a line *)

(** A statement a line may bind to: a [StatementStart] of a function of the
    source, or the only kind its chunk has. *)
Definition eligible (w : world) (fs : list Z) (ch : Z) (i : nat) (e : DebugInfo.DebugStmtEntry) : Prop :=
  exists f fn di, f ∈ fs /\ w_funs w !! f = Some fn /\ f_chunk fn = Some ch /\
    info_of w ch = Some di /\ DebugInfo.stmts di !! i = Some e /\
    (existsb is_start (DebugInfo.stmts di) = true -> is_start e = true).

(** What [setBreakpoints] promises for one line: the nearest line at or after it
    with a statement, and the first statement of that line in its chunk. *)
Definition binds (w : world) (functions : option (list Z)) (line : Z) (r : Bound * option (Z * Z))
    : Prop :=
  match r with
  | (b, None) =>
      b = mkBound line 0 false /\
      forall fs ch i e, functions = Some fs -> eligible w fs ch i e -> DebugInfo.line e < line
  | (b, Some (ch, idx)) =>
      exists fs i e, functions = Some fs /\ idx = Z.of_nat i /\ eligible w fs ch i e /\
        b = mkBound line (DebugInfo.line e) true /\ line <= DebugInfo.line e /\
        forall ch' i' e', eligible w fs ch' i' e' -> line <= DebugInfo.line e' ->
          DebugInfo.line e <= DebugInfo.line e' /\
          (ch' = ch -> DebugInfo.line e' = DebugInfo.line e -> DebugInfo.offset e <= DebugInfo.offset e')
  end.

(** The best candidate among those seen so far. *)
Definition best_of (line : Z) (seen : Z -> nat -> DebugInfo.DebugStmtEntry -> Prop) (b : best) : Prop :=
  match bestChunk b with
  | None => b = no_best /\ forall ch i e, seen ch i e -> DebugInfo.line e < line
  | Some ch =>
      exists i e, bestIdx b = Z.of_nat i /\ seen ch i e /\ DebugInfo.line e = bestLine b /\
        DebugInfo.offset e = bestOffset b /\ line <= DebugInfo.line e /\
        forall ch' i' e', seen ch' i' e' -> line <= DebugInfo.line e' ->
          bestLine b <= DebugInfo.line e' /\
          (ch' = ch -> DebugInfo.line e' = bestLine b -> bestOffset b <= DebugInfo.offset e')
  end.

Lemma best_of_ext line (P Q : Z -> nat -> DebugInfo.DebugStmtEntry -> Prop) b :
  (forall ch i e, P ch i e <-> Q ch i e) -> best_of line P b -> best_of line Q b.
Proof.
  intros Hpq. unfold best_of. destruct (bestChunk b) as [ch|].
  - intros (i & e & H1 & H2 & H3 & H4 & H5 & H6). exists i, e.
    split_and!; [done|by apply Hpq|done..|]. intros ch' i' e' H. apply (H6 ch' i' e'). by apply Hpq.
  - intros [H1 H2]. split; [done|]. intros ch i e H. apply (H2 ch i e). by apply Hpq.
Qed.

(** One more candidate. *)
Lemma consider_best line seen ch i e b :
  DebugInfo.line e < 0x7fffffff -> best_of line seen b ->
  best_of line (fun ch' i' e' => seen ch' i' e' \/ (ch', i', e') = (ch, i, e))
    (consider line ch false b (i, e)).
Proof.
  intros Hmax Hb. unfold consider. cbn [andb].
  destruct (Z.ltb_spec (DebugInfo.line e) line) as [Hlt|Hge].
  { unfold best_of in *. destruct (bestChunk b) as [c0|].
    - destruct Hb as (i0 & e0 & H1 & H2 & H3 & H4 & H5 & H6). exists i0, e0.
      split_and!; [done|by left|done..|]. intros ch' i' e' [H|[= -> -> ->]]; [by apply (H6 ch' i')|lia].
    - destruct Hb as [H1 H2]. split; [done|]. intros ch' i' e' [H|[= -> -> ->]]; [by apply (H2 ch' i')|lia]. }
  destruct ((DebugInfo.line e <? bestLine b) || _) eqn:E.
  - unfold best_of. cbn [bestChunk bestIdx bestLine bestOffset]. exists i, e.
    split_and!; [done|by right|done..|]. intros ch' i' e' [H|[= -> -> ->]] Hl; [|split; [lia|intros; lia]].
    unfold best_of in Hb. destruct (bestChunk b) as [c0|] eqn:Ec.
    + destruct Hb as (i0 & e0 & H1 & H2 & H3 & H4 & H5 & H6). destruct (H6 ch' i' e' H Hl) as [H7 H8].
      apply orb_true_iff in E as [E|E].
      * apply Z.ltb_lt in E. split; [lia|]. intros _ Heq. lia.
      * rewrite !andb_true_iff in E. destruct E as [[E1%Z.eqb_eq E2%bool_decide_eq_true] E3%Z.ltb_lt].
        injection E2 as ->. split; [lia|]. intros -> Heq. specialize (H8 eq_refl). lia.
    + destruct Hb as [H1 H2]. pose proof (H2 ch' i' e' H). lia.
  - apply orb_false_iff in E as [E1%Z.ltb_ge E2]. unfold best_of in *.
    destruct (bestChunk b) as [c0|] eqn:Ec.
    + destruct Hb as (i0 & e0 & H1 & H2 & H3 & H4 & H5 & H6). exists i0, e0.
      split_and!; [done|by left|done..|]. intros ch' i' e' [H|[= -> -> ->]] Hl; [by apply (H6 ch' i')|].
      split; [done|]. intros -> Heq. rewrite !andb_false_iff in E2.
      destruct E2 as [[E2|E2]|E2].
      * apply Z.eqb_neq in E2. lia.
      * by rewrite bool_decide_eq_true_2 in E2.
      * by apply Z.ltb_ge in E2.
    + destruct Hb as [-> H2]. cbn in E1. lia.
Qed.

(** The statements of one chunk. *)
Lemma consider_chunk line ch starts ss : forall k seen b,
  (forall e, e ∈ ss -> DebugInfo.line e < 0x7fffffff) -> best_of line seen b ->
  best_of line
    (fun ch' i' e' => seen ch' i' e' \/
       (ch' = ch /\ exists j, i' = (k + j)%nat /\ ss !! j = Some e' /\ (starts = true -> is_start e' = true)))
    (fold_left (consider line ch starts) (imap (fun i => pair (k + i)%nat) ss) b).
Proof.
  induction ss as [|e ss IH]; intros k seen b Hmax Hb.
  { cbn. eapply best_of_ext; [|exact Hb]. intros ch' i' e'. split; [by left|].
    intros [|(_ & j & _ & H & _)]; done. }
  cbn [imap fold_left]. rewrite Nat.add_0_r.
  assert (imap ((fun i => pair (k + i)%nat) ∘ S) ss = imap (fun i => pair (S k + i)%nat) ss) as ->.
  { apply imap_ext. intros i x _. cbn. f_equal. lia. }
  destruct (starts && negb (is_start e)) eqn:Es.
  - unfold consider at 2. rewrite Es.
    eapply best_of_ext; [|apply IH; [intros e' He'; apply Hmax; by right|exact Hb]].
    intros ch' i' e'. cbn beta. split; intros [H|(-> & j & -> & H & Hs)]; [by left| |by left|].
    + right. split; [done|]. exists (S j). split; [lia|done].
    + destruct j as [|j]; [|right; split; [done|]; exists j; split; [lia|done]].
      cbn in H. injection H as ->. apply andb_true_iff in Es as [-> Es]. rewrite Hs in Es; done.
  - assert (consider line ch starts b (k, e) = consider line ch false b (k, e)) as ->
      by (unfold consider; by rewrite Es).
    eapply best_of_ext; [|apply IH; [intros e' He'; apply Hmax; by right|
      apply consider_best; [apply Hmax; by left|exact Hb]]].
    intros ch' i' e'. cbn beta. split.
    + intros [[H|[= -> -> ->]]|(-> & j & -> & H & Hs)]; [by left| |].
      * right. split; [done|]. exists 0%nat. split; [lia|]. split; [done|]. intros ->.
        by destruct (is_start e).
      * right. split; [done|]. exists (S j). split; [lia|done].
    + intros [H|(-> & j & -> & H & Hs)]; [left; by left|]. destruct j as [|j].
      * left. right. cbn in H. injection H as ->. by rewrite Nat.add_0_r.
      * right. split; [done|]. exists j. split; [lia|done].
Qed.

Lemma consider_functions w line fs : forall pre b,
  (forall f fn ch di e, f ∈ pre ++ fs -> w_funs w !! f = Some fn -> f_chunk fn = Some ch ->
     info_of w ch = Some di -> e ∈ DebugInfo.stmts di -> DebugInfo.line e < 0x7fffffff) ->
  best_of line (eligible w pre) b ->
  best_of line (eligible w (pre ++ fs)) (fold_left (consider_function w line) fs b).
Proof.
  induction fs as [|f fs IH]; intros pre b Hmax Hb; [by rewrite app_nil_r|].
  cbn [fold_left]. assert (pre ++ f :: fs = (pre ++ [f]) ++ fs) as E by (by rewrite <- app_assoc).
  rewrite E in *. apply IH; [done|]. unfold consider_function.
  destruct (w_funs w !! f) as [fn|] eqn:Hf; [destruct (f_chunk fn) as [ch|] eqn:Hch;
    [destruct (info_of w ch) as [di|] eqn:Hdi|]|].
  2,3,4: eapply best_of_ext; [|exact Hb]; intros ch' i' e'; split;
    [intros (f0 & fn0 & di0 & Hin & H); exists f0, fn0, di0; split; [apply elem_of_app; by left|done]
    |intros (f0 & fn0 & di0 & [Hin| ->%list_elem_of_singleton]%elem_of_app & H1 & H2 & H3 & H4);
      [by exists f0, fn0, di0|congruence]].
  pose proof (consider_chunk line ch (existsb is_start (DebugInfo.stmts di)) (DebugInfo.stmts di) 0
    (eligible w pre) b) as H.
  eapply best_of_ext; [|apply H; [|exact Hb]].
  - intros ch' i' e'. cbn beta. split.
    + intros [(f0 & fn0 & di0 & Hin & Hrest)|(-> & j & -> & He & Hs)].
      * exists f0, fn0, di0. split; [apply elem_of_app; by left|done].
      * exists f, fn, di. split; [apply elem_of_app; right; by left|]. by split_and!.
    + intros (f0 & fn0 & di0 & [Hin| ->%list_elem_of_singleton]%elem_of_app & H1 & H2 & H3 & H4 & H5).
      * left. by exists f0, fn0, di0.
      * right. replace fn0 with fn in * by congruence. replace ch' with ch in * by congruence.
        replace di0 with di in * by congruence. split; [done|]. by exists i'.
  - intros e He. apply (Hmax f fn ch di e); try done. apply elem_of_app. left. apply elem_of_app. right. by left.
Qed.

(** Lines of statements are below the search's starting point. *)
Definition lines_ok (w : world) : Prop :=
  forall ch di e, info_of w ch = Some di -> e ∈ DebugInfo.stmts di -> DebugInfo.line e < 0x7fffffff.

Lemma bind_line_binds w functions line :
  lines_ok w -> binds w functions line (bind_line w functions line).
Proof.
  intros Hl. unfold bind_line. destruct functions as [fs|]; [|by split].
  assert (best_of line (eligible w fs) (fold_left (consider_function w line) fs no_best)) as H.
  { apply (consider_functions w line fs [] no_best).
    - intros f fn ch di e _ _ _ Hdi He. by eapply Hl.
    - split; [done|]. intros ch i e (f & fn & di & Hf & _). set_solver. }
  unfold best_of in H. destruct (bestChunk _) as [ch|].
  - destruct H as (i & e & H1 & H2 & H3 & H4 & H5 & H6). exists fs, i, e.
    split_and!; [done..|by rewrite H3|done|]. intros ch' i' e' He' Hl'.
    rewrite H3, H4. by apply (H6 ch' i' e').
  - destruct H as [_ H]. split; [done|]. intros fs' ch i e [= <-]. apply H.
Qed.

(** ** Arming *)

Definition enabled (w : world) (ch : Z) (i : nat) : bool :=
  match points_of w ch with
  | Some p => match words p !! i with Some x => negb (Z.land x Enabled =? 0) | None => false end
  | None => false
  end.

(** The words of a chunk match its table and are at rest. *)
Record points_ok (w : world) : Prop := {
  po_codes : forall ch, is_Some (info_of w ch) -> is_Some (w_codes w !! ch);
  po_points : forall ch p, points_of w ch = Some p ->
    Z.even (seq p) = true /\
    exists di, info_of w ch = Some di /\ length (words p) = length (DebugInfo.stmts di);
}.

(** What no edit of the words touches. *)
Record same_program (w w' : world) : Prop := {
  sp_sys : w_sys w' = w_sys w;
  sp_funs : w_funs w' = w_funs w;
  sp_index : w_index w' = w_index w;
  sp_requests : requests (w_mgr w') = requests (w_mgr w);
  sp_held : slowPathDemandHeld (w_mgr w') = slowPathDemandHeld (w_mgr w);
}.

#[global] Instance same_program_refl : Reflexive same_program.
Proof. by intros w. Qed.
#[global] Instance same_program_trans : Transitive same_program.
Proof. intros w1 w2 w3 [] []. split; congruence. Qed.

Lemma same_info w w' ch : same_program w w' -> info_of w' ch = info_of w ch.
Proof. intros [E _ _ _ _]. unfold info_of. by rewrite E. Qed.

Lemma on_points_same ch f w : same_program w (on_points ch f w).
Proof. unfold on_points. by destruct (w_codes w !! ch) as [c|]; [destruct (breakpointsRaw c)|]. Qed.

Lemma on_points_mgr ch f w : w_mgr (on_points ch f w) = w_mgr w.
Proof. unfold on_points. by destruct (w_codes w !! ch) as [c|]; [destruct (breakpointsRaw c)|]. Qed.

Lemma on_points_of ch f w ch' :
  points_of (on_points ch f w) ch'
  = if decide (ch' = ch) then option_map f (points_of w ch) else points_of w ch'.
Proof.
  unfold on_points, points_of. destruct (w_codes w !! ch) as [c|] eqn:E; [destruct (breakpointsRaw c) eqn:Ep|];
    case_decide as Ed; subst; rewrite ?E, ?Ep; cbn; try done.
  - by rewrite lookup_insert_eq.
  - by rewrite lookup_insert_ne.
Qed.

Lemma on_points_codes ch f w ch' :
  is_Some (w_codes w !! ch') -> is_Some (w_codes (on_points ch f w) !! ch').
Proof.
  intros H. unfold on_points. destruct (w_codes w !! ch) as [c|]; [destruct (breakpointsRaw c)|]; [|done..].
  cbn. destruct (decide (ch' = ch)) as [->|]; [rewrite lookup_insert_eq; eauto|by rewrite lookup_insert_ne].
Qed.

Lemma even_wrap n : Z.even (wrapU 32 n) = Z.even n.
Proof.
  unfold wrapU. rewrite (Z.div_mod n (2 ^ 32)) at 2 by lia. rewrite Z.even_add, Z.even_mul.
  by destruct (Z.even (n mod 2 ^ 32)).
Qed.

Lemma edit_even f p : Z.even (seq (edit f p)) = Z.even (seq p).
Proof.
  unfold edit. cbn [seq]. rewrite even_wrap, Z.even_add, even_wrap, Z.even_add.
  by destruct (Z.even (seq p)).
Qed.

Lemma edit_ok ch f w :
  points_ok w -> (forall ws, length (f ws) = length ws) -> points_ok (on_points ch (edit f) w).
Proof.
  intros [H1 H2] Hf. split.
  - intros ch' H. rewrite (same_info w) in H by apply on_points_same. by apply on_points_codes, H1.
  - intros ch' p. rewrite on_points_of, (same_info w) by apply on_points_same. case_decide as E.
    + subst. destruct (points_of w ch) as [p0|] eqn:Ep; [|done]. intros [= <-].
      destruct (H2 ch p0 Ep) as (He & di & Hd & Hlen). rewrite edit_even. split; [done|].
      exists di. split; [done|]. unfold edit. cbn. by rewrite Hf.
    + apply H2.
Qed.

Lemma clear_enabled ch w ch' i :
  enabled (on_points ch (edit clear_words) w) ch' i
  = enabled w ch' i && negb (bool_decide (ch' = ch)).
Proof.
  unfold enabled. rewrite on_points_of. case_decide as E.
  - subst. rewrite bool_decide_eq_true_2, andb_false_r by done.
    destruct (points_of w ch) as [p|]; [|done]. cbn. unfold clear_words. rewrite list_lookup_fmap.
    by destruct (words p !! i).
  - by rewrite bool_decide_eq_false_2, andb_true_r.
Qed.

Lemma clear_all chunks : forall w, points_ok w ->
  let w' := fold_left (fun w ch => on_points ch (edit clear_words) w) chunks w in
  points_ok w' /\ same_program w w' /\ w_mgr w' = w_mgr w /\
  forall ch i, enabled w' ch i = enabled w ch i && negb (bool_decide (ch ∈ chunks)).
Proof.
  induction chunks as [|c chunks IH]; intros w Hw.
  { cbn. split_and!; try done. intros ch i. rewrite bool_decide_eq_false_2 by set_solver. by rewrite andb_true_r. }
  cbn [fold_left]. destruct (IH (on_points c (edit clear_words) w)) as (H1 & H2 & H3 & H4).
  { apply edit_ok; [done|]. intros ws. apply length_map. }
  split; [done|]. split; [etrans; [apply on_points_same|done]|].
  split; [rewrite H3; apply on_points_mgr|].
  intros ch i. rewrite H4, clear_enabled, <- andb_assoc. f_equal.
  rewrite <- negb_orb. f_equal. apply eq_true_iff_eq.
  rewrite orb_true_iff, !bool_decide_eq_true, elem_of_cons. done.
Qed.

Lemma ensure_ok ch w di :
  points_ok w -> info_of w ch = Some di -> DebugInfo.stmts di <> [] ->
  let '(w', ok) := ensureChunkWords ch w in
  ok = true /\ points_ok w' /\ same_program w w' /\ w_mgr w' = w_mgr w /\
  is_Some (points_of w' ch) /\ forall ch' i, enabled w' ch' i = enabled w ch' i.
Proof.
  intros Hw Hdi Hne. destruct (po_codes w Hw ch ltac:(eauto)) as [c Hc].
  unfold ensureChunkWords. rewrite Hc. destruct (breakpointsRaw c) as [p|] eqn:Hp.
  { split_and!; try done. unfold points_of. rewrite Hc. eauto. }
  rewrite Hdi. destruct (DebugInfo.stmts di) as [|e ss] eqn:Ess; [done|]. rewrite <- Ess.
  set (np := new_points _). set (w' := set_codes _ w).
  assert (forall ch', points_of w' ch' = if decide (ch' = ch) then Some np else points_of w ch') as Hpt.
  { intros ch'. unfold points_of, w'. cbn. case_decide as E; subst; [by rewrite lookup_insert_eq|by rewrite lookup_insert_ne]. }
  split; [done|]. split; [|split; [done|split; [done|split; [rewrite Hpt, decide_True by done; eauto|]]]].
  - split.
    + intros ch' H. unfold w'. cbn. destruct (decide (ch' = ch)) as [->|];
        [rewrite lookup_insert_eq; eauto|rewrite lookup_insert_ne by done; by apply (po_codes w Hw)].
    + intros ch' p'. rewrite Hpt. case_decide as E; [|apply (po_points w Hw)]. subst. intros [= <-].
      split; [done|]. exists di. split; [done|]. unfold np, new_points. cbn. by rewrite length_replicate.
  - intros ch' i. unfold enabled. rewrite Hpt. case_decide as E; [|done]. subst.
    assert (points_of w ch = None) as -> by (unfold points_of; by rewrite Hc).
    unfold np, new_points. cbn. destruct (replicate _ _ !! i) as [x|] eqn:Ex; [|done].
    apply lookup_replicate_1 in Ex as [-> _]. done.
Qed.

Definition armed_at (w : world) (key : string) : list Z := default [] (armedBySource (w_mgr w) !! key).

Lemma set_bit_word x : negb (Z.land (Z.lor x Enabled) Enabled =? 0) = true.
Proof.
  unfold Enabled. rewrite Z.land_lor_distr_l. apply negb_true_iff, Z.eqb_neq.
  intros [_ H]%Z.lor_eq_0_iff. discriminate.
Qed.

Lemma arm_ok key ch i w di :
  points_ok w -> info_of w ch = Some di -> (i < length (DebugInfo.stmts di))%nat ->
  let w' := arm_target key w (ch, Z.of_nat i) in
  points_ok w' /\ same_program w w' /\
  (forall ch' j, enabled w' ch' j = enabled w ch' j || bool_decide (ch' = ch) && bool_decide (j = i)) /\
  (forall key', key' <> key -> armed_at w' key' = armed_at w key') /\
  ch ∈ armed_at w' key /\ (forall c, c ∈ armed_at w key -> c ∈ armed_at w' key) /\
  (forall c, c ∈ armed_at w' key -> c ∈ armed_at w key \/ c = ch).
Proof.
  intros Hw Hdi Hi. unfold arm_target.
  assert (DebugInfo.stmts di <> []) as Hne by (intros E; rewrite E in Hi; cbn in Hi; lia).
  pose proof (ensure_ok ch w di Hw Hdi Hne) as He.
  destruct (ensureChunkWords ch w) as [w1 ok]. destruct He as (-> & H1 & H2 & H3 & [p Hp] & H4).
  rewrite Hp. destruct (po_points w1 H1 ch p Hp) as (Hev & di' & Hdi' & Hlen).
  rewrite (same_info w w1 ch H2) in Hdi'. replace di' with di in Hlen by congruence.
  cbn [negb orb]. rewrite (proj2 (Z.leb_gt _ _)) by lia. rewrite Nat2Z.id.
  set (w2 := on_points ch _ w1).
  assert (points_ok w2) as Hw2 by (apply edit_ok; [done|]; intros ws; apply length_alter).
  assert (same_program w w2) as Hs2 by (etrans; [exact H2|apply on_points_same]).
  assert (w_mgr w2 = w_mgr w) as Hm2 by (unfold w2; by rewrite on_points_mgr).
  assert (forall ch' j, enabled w2 ch' j = enabled w ch' j || bool_decide (ch' = ch) && bool_decide (j = i)) as Hen.
  { intros ch' j. rewrite <- H4. unfold enabled, w2. rewrite on_points_of. case_decide as E.
    - subst. rewrite Hp, bool_decide_eq_true_2 by done. cbn.
      destruct (decide (j = i)) as [->|Hj].
      + rewrite list_lookup_alter_eq, bool_decide_eq_true_2, orb_true_r by done.
        destruct (lookup_lt_is_Some_2 (words p) i) as [x Hx]; [lia|]. rewrite Hx. cbn. apply set_bit_word.
      + rewrite list_lookup_alter_ne, bool_decide_eq_false_2, orb_false_r by done. done.
    - by rewrite bool_decide_eq_false_2, orb_false_r. }
  fold (armed_at w2 key). assert (armed_at w2 key = armed_at w key) as Ha by (unfold armed_at; by rewrite Hm2).
  assert (forall key', armed_at w2 key' = armed_at w key') as Ha' by (intros; unfold armed_at; by rewrite Hm2).
  rewrite Ha. case_decide as Hin.
  - split; [done|]. split; [done|]. split; [done|]. split; [done|]. rewrite Ha. split; [done|]. split; [done|]. by left.
  - set (w3 := set_armed _ w2).
    assert (forall key', armed_at w3 key' = if decide (key' = key) then armed_at w key ++ [ch] else armed_at w key') as Hk.
    { intros key'. unfold armed_at at 1, w3. cbn. case_decide as E; subst.
      - by rewrite lookup_insert_eq.
      - rewrite lookup_insert_ne by done. fold (armed_at w2 key'). apply Ha'. }
    split; [by destruct Hw2; split|]. split; [etrans; [exact Hs2|done]|]. split; [exact Hen|].
    split; [intros key' Hne'; by rewrite Hk, decide_False|].
    rewrite Hk, decide_True by done. split; [apply elem_of_app; right; by left|].
    split; [intros c Hc; apply elem_of_app; by left|].
    intros c [Hc| ->%list_elem_of_singleton]%elem_of_app; auto.
Qed.

(** ** The requests *)

(** Every enabled word is listed under some source, and the slow dispatch path
    is demanded exactly while something is armed. *)
Record manager_ok (w : world) : Prop := {
  mo_points : points_ok w;
  mo_armed : forall ch i, enabled w ch i = true -> exists key, ch ∈ armed_at w key;
  mo_demand : slowPathDemandHeld (w_mgr w) = any_armed (w_mgr w);
}.

Lemma arm_all key ts : forall w, points_ok w ->
  (forall ch idx, (ch, idx) ∈ ts -> exists i di, idx = Z.of_nat i /\ info_of w ch = Some di /\
     (i < length (DebugInfo.stmts di))%nat) ->
  let w' := fold_left (arm_target key) ts w in
  points_ok w' /\ same_program w w' /\
  (forall ch j, enabled w' ch j = enabled w ch j || bool_decide ((ch, Z.of_nat j) ∈ ts)) /\
  (forall key', key' <> key -> armed_at w' key' = armed_at w key') /\
  (forall ch idx, (ch, idx) ∈ ts -> ch ∈ armed_at w' key) /\
  (forall c, c ∈ armed_at w key -> c ∈ armed_at w' key) /\
  (forall c, c ∈ armed_at w' key -> c ∈ armed_at w key \/ exists idx, (c, idx) ∈ ts).
Proof.
  induction ts as [|[ch idx] ts IH]; intros w Hw Hts.
  { cbn. split_and!; try done; [|set_solver|by left]. intros ch j.
    rewrite bool_decide_eq_false_2 by set_solver. by rewrite orb_false_r. }
  destruct (Hts ch idx ltac:(by left)) as (i & di & -> & Hdi & Hi).
  destruct (arm_ok key ch i w di Hw Hdi Hi) as (A1 & A2 & A3 & A4 & A5 & A6 & A7).
  cbn [fold_left]. set (w1 := arm_target key w (ch, Z.of_nat i)) in *.
  destruct (IH w1 A1) as (B1 & B2 & B3 & B4 & B5 & B6 & B7).
  { intros c idx Hin. rewrite (same_info w w1) by done. apply Hts. by right. }
  split; [done|]. split; [by etrans|]. split; [|split; [|split; [|split]]].
  - intros c j. rewrite B3, A3, <- orb_assoc. f_equal. apply eq_true_iff_eq.
    rewrite orb_true_iff, andb_true_iff, !bool_decide_eq_true, elem_of_cons.
    split; [intros [[-> ->]|]; auto|intros [[= -> ?%Nat2Z.inj]|]; auto].
  - intros key' Hne. rewrite B4 by done. by apply A4.
  - intros c idx [[= -> ->]|Hin]%elem_of_cons; [by apply B6|by eapply B5].
  - intros c Hc. by apply B6, A6.
  - intros c [Hc|[idx Hc]]%B7; [|right; exists idx; by right].
    destruct (A7 c Hc) as [| ->]; [by left|]. right. exists (Z.of_nat i). by left.
Qed.

Lemma clear_armed_ok key w : points_ok w ->
  let w' := clear_armed key w in
  points_ok w' /\ same_program w w' /\ armed_at w' key = [] /\
  (forall key', key' <> key -> armed_at w' key' = armed_at w key') /\
  forall ch i, enabled w' ch i = enabled w ch i && negb (bool_decide (ch ∈ armed_at w key)).
Proof.
  intros Hw. unfold clear_armed. destruct (armedBySource (w_mgr w) !! key) as [chunks|] eqn:E.
  - destruct (clear_all chunks w Hw) as (H1 & H2 & H3 & H4). set (w1 := fold_left _ _ w) in *.
    assert (armed_at w key = chunks) as -> by (unfold armed_at; by rewrite E).
    split; [by destruct H1; split|]. split; [etrans; [exact H2|done]|].
    split; [unfold armed_at; cbn; by rewrite lookup_insert_eq|]. split; [|exact H4].
    intros key' Hne. unfold armed_at. cbn. by rewrite lookup_insert_ne, H3.
  - assert (armed_at w key = []) as Ha by (unfold armed_at; by rewrite E). rewrite Ha.
    split_and!; try done. intros ch i. rewrite bool_decide_eq_false_2 by set_solver. by rewrite andb_true_r.
Qed.

Lemma eligible_same w w' fs ch i e : same_program w w' -> eligible w' fs ch i e <-> eligible w fs ch i e.
Proof.
  intros Hs. unfold eligible. setoid_rewrite (same_info w w' ch Hs). by rewrite (sp_funs _ _ Hs).
Qed.

Lemma binds_same w w' fs line r : same_program w w' -> binds w' fs line r -> binds w fs line r.
Proof.
  intros Hs. destruct r as [b [[ch idx]|]]; cbn.
  - intros (l & i & e & H1 & H2 & H3 & H4 & H5 & H6). exists l, i, e.
    split_and!; [done|done|by apply (eligible_same w w')|done|done|].
    intros ch' i' e' He. apply (H6 ch' i' e'). by apply (eligible_same w w').
  - intros [H1 H2]. split; [done|]. intros l ch i e Hl He. apply (H2 l ch i e Hl).
    by apply (eligible_same w w').
Qed.

Lemma any_armed_spec w : any_armed (w_mgr w) = true <-> exists key, armed_at w key <> [].
Proof.
  unfold any_armed, armed_at. rewrite existsb_exists. split.
  - intros ([k l] & Hin & Hl). rewrite <- list_elem_of_In in Hin. apply elem_of_map_to_list in Hin.
    exists k. rewrite Hin. by destruct l.
  - intros (k & Hk). destruct (armedBySource (w_mgr w) !! k) as [l|] eqn:E; [|done].
    exists (k, l). rewrite <- list_elem_of_In. split; [by apply elem_of_map_to_list|]. by destruct l.
Qed.

Section Requests.
Context (file_exists : string -> bool) (weakly_canonical : string -> option string).

Definition functions_of (key : string) (w : world) : option (list Z) :=
  match lookupBySource file_exists weakly_canonical key (w_index w) with
  | Some e => e_functions e
  | None => None
  end.

(** What a rebinding of one source does: [bound] is the outcome per line. *)
Record rebound (key : string) (lines : list Z) (w w' : world) (bound : list (Bound * option (Z * Z)))
    : Prop := {
  rb_points : points_ok w';
  rb_same : same_program w w';
  rb_binds : Forall2 (binds w (functions_of key w)) lines bound;
  rb_others : forall key', key' <> key -> armed_at w' key' = armed_at w key';
  rb_words : forall ch i, enabled w' ch i =
    enabled w ch i && negb (bool_decide (ch ∈ armed_at w key))
    || bool_decide (Some (ch, Z.of_nat i) ∈ map snd bound);
  rb_armed : forall ch, ch ∈ armed_at w' key <-> exists idx, Some (ch, idx) ∈ map snd bound;
}.

Lemma omap_snd (bound : list (Bound * option (Z * Z))) t :
  t ∈ omap snd bound <-> Some t ∈ map snd bound.
Proof.
  rewrite list_elem_of_omap, list_elem_of_fmap. split.
  - intros (x & Hx & E). by exists x.
  - intros (x & E & Hx). by exists x.
Qed.

Lemma bindLocked_ok key w :
  points_ok w -> lines_ok w ->
  exists bound, bindLocked file_exists weakly_canonical key w
    = (fst (bindLocked file_exists weakly_canonical key w), map fst bound) /\
  rebound key (default [] (requests (w_mgr w) !! key)) w
    (fst (bindLocked file_exists weakly_canonical key w)) bound.
Proof.
  intros Hw Hl. destruct (clear_armed_ok key w Hw) as (C1 & C2 & C3 & C4 & C5).
  unfold bindLocked. set (w1 := clear_armed key w) in *.
  rewrite (sp_requests _ _ C2). destruct (requests (w_mgr w) !! key) as [lines|]; cbn [default].
  2: { exists []. split; [done|]. cbn [fst map]. split; [done|done|by constructor|done| |].
       - intros ch i. rewrite C5. cbn [map]. rewrite (bool_decide_eq_false_2 (Some (ch, Z.of_nat i) ∈ [])) by set_solver.
         by rewrite orb_false_r.
       - intros ch. rewrite C3. split; [set_solver|intros (? & H); set_solver]. }
  rewrite (sp_index _ _ C2). fold (functions_of key w). set (fs := functions_of key w).
  set (bound := map (bind_line w1 fs) lines). exists bound. split; [done|]. cbn [fst].
  set (w2 := set_armed _ w1).
  assert (forall k, armed_at w2 k = armed_at w1 k) as Ha.
  { intros k. unfold armed_at at 1, w2. cbn. destruct (decide (k = key)) as [->|].
    - by rewrite lookup_insert_eq.
    - by rewrite lookup_insert_ne. }
  assert (lines_ok w1) as Hl1 by (intros ch di e; rewrite (same_info w w1) by done; apply Hl).
  assert (Forall2 (binds w fs) lines bound) as Hb.
  { unfold bound. clear -Hl1 C2. induction lines as [|l lines IH]; cbn; constructor; [|done].
    apply (binds_same w w1); [done|]. by apply bind_line_binds. }
  assert (points_ok w2) as Hw2 by (by destruct C1; split).
  destruct (arm_all key (omap snd bound) w2 Hw2) as (B1 & B2 & B3 & B4 & B5 & B6 & B7).
  { intros ch idx Hin%omap_snd. apply list_elem_of_fmap in Hin as ([b t] & Et & Hin). cbn in Et. subst t.
    apply list_elem_of_lookup in Hin as [n Hn].
    destruct (Forall2_lookup_r _ _ _ _ _ Hb Hn) as (line & _ & Hbd).
    destruct Hbd as (l & i & e & _ & -> & (f & fn & di & _ & _ & _ & Hdi & He & _) & _).
    exists i, di. split; [done|]. change (info_of w2 ch) with (info_of w1 ch).
    rewrite (same_info w w1) by done. split; [done|]. by eapply lookup_lt_Some. }
  split; [exact B1|etrans; [exact C2|destruct B2; by split]|exact Hb| | |].
  - intros k Hk. by rewrite B4, Ha, C4.
  - intros ch i. rewrite B3. change (enabled w2 ch i) with (enabled w1 ch i). rewrite C5. f_equal.
    apply eq_true_iff_eq. by rewrite !bool_decide_eq_true, omap_snd.
  - intros ch. split.
    + intros [Hc|[idx Hc]]%B7; [rewrite Ha, C3 in Hc; set_solver|]. exists idx. by apply omap_snd.
    + intros [idx Hc%omap_snd]. by eapply B5.
Qed.

Lemma demand_fields w :
  let w' := updateSlowPathDemand w in
  w_codes w' = w_codes w /\ w_funs w' = w_funs w /\ w_index w' = w_index w /\
  armedBySource (w_mgr w') = armedBySource (w_mgr w) /\ requests (w_mgr w') = requests (w_mgr w) /\
  s_chunks (w_sys w') = s_chunks (w_sys w) /\
  slowPathDemandHeld (w_mgr w') = any_armed (w_mgr w).
Proof.
  unfold updateSlowPathDemand. destruct (any_armed (w_mgr w)) eqn:Ea, (slowPathDemandHeld (w_mgr w)) eqn:Eh;
    cbn; rewrite ?Eh; split_and!; try done.
  - unfold addSlowPathDemand. by case (_ =? 0).
  - unfold removeSlowPathDemand. by case (_ =? 1).
Qed.

(** C39. Setting the breakpoints of a source replaces its set: each requested
    line binds to the nearest line at or after it that has an executable statement
    in any function of the source (to the first such statement of its chunk), or to
    nothing when there is none; the words enabled in a chunk that no other key
    lists are then exactly the bound statements, no stale one among them (two keys of one
    synthetic source may list the same chunk, [two_names_share_a_chunk]); another
    key's list is untouched; and the slow dispatch path is demanded exactly
    while something is armed. *)
Theorem breakpoints_bound source lines w w' out :
  manager_ok w -> lines_ok w ->
  setBreakpoints file_exists weakly_canonical source lines w = (w', out) ->
  let key := requestKey file_exists weakly_canonical source in
  manager_ok w' /\
  (forall key', key' <> key -> armed_at w' key' = armed_at w key') /\
  exists bound, out = map fst bound /\
    Forall2 (binds w (functions_of key w)) lines bound /\
    (forall ch, (forall key', key' <> key -> ch ∉ armed_at w' key') ->
     forall i, enabled w' ch i = true <-> Some (ch, Z.of_nat i) ∈ map snd bound).
Proof.
  intros [Hpts Harm Hdem] Hl E key. unfold setBreakpoints in E. fold key in E.
  set (w0 := set_requests _ _) in E.
  assert (points_ok w0) as Hp0 by (by destruct Hpts; split).
  destruct (bindLocked_ok key w0 Hp0 Hl) as (bound & Eb & [R1 R2 R3 R4 R5 R6]).
  rewrite Eb in E. set (w1 := fst _) in *. injection E as <- <-.
  destruct (demand_fields w1) as (D1 & D2 & D3 & D4 & D5 & D6 & D7).
  set (w2 := updateSlowPathDemand w1) in *.
  assert (forall ch i, enabled w2 ch i = enabled w1 ch i) as Hen
    by (intros; unfold enabled, points_of; by rewrite D1).
  assert (forall k, armed_at w2 k = armed_at w1 k) as Har by (intros; unfold armed_at; by rewrite D4).
  assert (default [] (requests (w_mgr w0) !! key) = lines) as Hlines.
  { unfold w0. cbn. destruct lines; [by rewrite lookup_delete_eq|by rewrite lookup_insert_eq]. }
  rewrite Hlines in R3. change (functions_of key w0) with (functions_of key w) in R3.
  assert (forall k, armed_at w0 k = armed_at w k) as Ha0 by done.
  assert (forall k, k <> key -> armed_at w2 k = armed_at w k) as Hothers.
  { intros k Hk. by rewrite Har, R4, Ha0. }
  split; [split|split; [exact Hothers|]].
  - split.
    + intros ch H. rewrite D1. apply (po_codes _ R1). unfold info_of in *. by rewrite <- D6.
    + intros ch p. unfold points_of, info_of. rewrite D1, D6. apply (po_points _ R1).
  - intros ch i. rewrite Hen, R5, orb_true_iff. intros [H|H%bool_decide_eq_true].
    + apply andb_true_iff in H as [H Hn]. apply negb_true_iff, bool_decide_eq_false in Hn.
      destruct (Harm ch i H) as [k Hk]. exists k. rewrite Hothers; [done|]. intros ->. by apply Hn.
    + exists key. rewrite Har. apply R6. by exists (Z.of_nat i).
  - rewrite D7. unfold any_armed. by rewrite D4.
  - exists bound. split; [done|]. split; [by eapply Forall2_impl; [exact R3|]|].
    intros ch Hch i. rewrite Hen, R5, orb_true_iff, bool_decide_eq_true. split; [|by right].
    intros [H|]; [|done]. exfalso. apply andb_true_iff in H as [H Hn].
    apply negb_true_iff, bool_decide_eq_false in Hn. destruct (Harm ch i H) as [k Hk].
    destruct (decide (k = key)) as [->|Hne]; [by apply Hn|]. apply (Hch k Hne). by rewrite Hothers.
Qed.

End Requests.

(** ** A statement is reached *)

(** The only statements at one offset are the function's entry and, after it,
    the first statement. *)
Lemma compiled_offsets ss size : compiled ss size ->
  (forall i e, ss !! i = Some e -> DebugInfo.offset e <= size) /\
  (forall i j e e', ss !! i = Some e -> ss !! j = Some e' -> (i < j)%nat ->
     DebugInfo.offset e <= DebugInfo.offset e' /\
     (DebugInfo.offset e = DebugInfo.offset e' -> is_start e = false /\ is_start e' = true)).
Proof.
  induction 1 as [|line column|ss size size' line column _ [IH1 IH2] Hle].
  - split; intros i; intros; by rewrite lookup_nil in *.
  - split.
    + intros [|i] e; cbn; [intros [= <-]; cbn; lia|done].
    + intros [|i] [|j] e e'; cbn; try lia; done.
  - unfold markStmtStart.
    set (new := DebugInfo.mkStmt size' line column DebugInfo.StatementStart).
    assert ((forall e, last ss = Some e -> DebugInfo.offset e = size' -> is_start e = false) ->
      (forall i e, (ss ++ [new]) !! i = Some e -> DebugInfo.offset e <= size') /\
      (forall i j e e', (ss ++ [new]) !! i = Some e -> (ss ++ [new]) !! j = Some e' -> (i < j)%nat ->
         DebugInfo.offset e <= DebugInfo.offset e' /\
         (DebugInfo.offset e = DebugInfo.offset e' -> is_start e = false /\ is_start e' = true))) as Happ.
    { intros Hlast. split.
      - intros i e [He|[_ [_ <-]%list_lookup_singleton_Some]]%lookup_app_Some; [|done].
        pose proof (IH1 i e He). lia.
      - intros i j e e' Hi [Hj|[Hj [Hj' <-]%list_lookup_singleton_Some]]%lookup_app_Some Hij.
        + rewrite lookup_app_l in Hi by (apply lookup_lt_Some in Hj; lia). by eapply IH2.
        + rewrite lookup_app_l in Hi by lia. pose proof (IH1 i e Hi) as Hb.
          split; [cbn; lia|]. cbn. intros Heq. split; [|done].
          destruct (decide (S i = length ss)) as [Hs|Hs].
          { apply Hlast; [|done]. rewrite last_lookup, <- Hs. done. }
          destruct (ss !! Nat.pred (length ss)) as [l|] eqn:El.
          2: { apply lookup_ge_None in El. lia. }
          destruct (IH2 i (Nat.pred (length ss)) e l Hi El ltac:(lia)) as [H1 H2].
          pose proof (IH1 _ _ El). apply H2. lia. }
    destruct (last ss) as [e|] eqn:El; [|by apply Happ].
    destruct (Z.eqb_spec (DebugInfo.offset e) size') as [Eo|Eo]; cbn [andb];
      [destruct (is_start e) eqn:Es|].
    + split; [|done]. intros i e' He'. pose proof (IH1 i e' He'). lia.
    + apply Happ. by intros ? [= <-].
    + apply Happ. by intros ? [= <-].
Qed.

(** The boundary test finds the statement a line binds to. *)
Lemma boundary_finds di code_size size i e w :
  DebugInfo.info_ok code_size di = true -> code_size < 0xfffffffe -> compiled (DebugInfo.stmts di) size ->
  DebugInfo.window_ok (DebugInfo.stmts di) w -> DebugInfo.stmts di !! i = Some e ->
  (existsb is_start (DebugInfo.stmts di) = true -> is_start e = true) ->
  snd (DebugInfo.statement_at di code_size (DebugInfo.offset e) w) = Some (Z.of_nat i).
Proof.
  intros Hok Hsz Hc Hw Hi Hel. destruct (compiled_offsets _ _ Hc) as [_ Hs].
  pose proof (DebugInfo.statement_at_spec di code_size (DebugInfo.offset e) w Hok Hsz Hw) as H.
  destruct (DebugInfo.statement_at _ _ _ _) as [w' [n|]]; cbn [snd]; destruct H as [_ H].
  - destruct H as (e' & Hn & H0 & Ho & Hmax). pose proof (Hmax i e Hi eq_refl) as Hle.
    destruct (decide (i = Z.to_nat n)) as [->|Hne]; [by rewrite Z2Nat.id|].
    destruct (Hs i (Z.to_nat n) e e' Hi Hn ltac:(lia)) as [_ [Hf Ht]]; [done|].
    rewrite Hel in Hf; [done|]. apply existsb_exists. exists e'.
    split; [|done]. apply list_elem_of_In. by eapply list_elem_of_lookup_2.
  - by destruct (H i e Hi).
Qed.

(** What the step predicate reads of a frame. *)
Definition seen (f : frame) : Z * bool := (activationId f, isEventHandler f).

Lemma step_fires_seen st st' :
  map seen (frames st') = map seen (frames st) -> debugStepMode st' = debugStepMode st ->
  debugStepActivation st' = debugStepActivation st ->
  debugStepOriginIndex st' = debugStepOriginIndex st -> step_fires st' = step_fires st.
Proof.
  intros Hf Hm Ha Ho.
  assert (originAlive st' = originAlive st) as Hal.
  { unfold originAlive. rewrite Ho, Ha. set (k := Z.to_nat _).
    assert ((map seen (frames st')) !! k = (map seen (frames st)) !! k) as H by (by rewrite Hf).
    rewrite !list_lookup_fmap in H. destruct (frames st' !! k), (frames st !! k); cbn in H; try done.
    by injection H as -> _. }
  assert (handlerInterposed st' = handlerInterposed st) as Hh.
  { unfold handlerInterposed. rewrite Hal, Ho. generalize (if originAlive st then S (Z.to_nat (debugStepOriginIndex st)) else 0%nat). intros k.
    assert (forall l : list frame, existsb isEventHandler l = existsb snd (map seen l)) as Hx
      by (intros l; induction l as [|x l IH]; cbn; [done|by rewrite IH]).
    rewrite !Hx. assert (forall l, map seen (drop k l) = drop k (map seen l)) as Hd by (intros l; apply fmap_drop).
    by rewrite !Hd, Hf. }
  assert (length (frames st') = length (frames st)) as Hl
    by (rewrite <- (length_map seen (frames st')), Hf; apply length_map).
  unfold step_fires. by rewrite Hm, Hal, Hh, Ho, Hl.
Qed.

Lemma set_top_seen fr fr' st :
  last_frame st = Some fr -> seen fr' = seen fr ->
  map seen (frames (set_top fr' st)) = map seen (frames st).
Proof.
  unfold last_frame. intros [l E]%last_Some Hs. cbn. rewrite E, length_app, Nat.add_sub, take_app_length.
  rewrite !map_app. cbn [map]. by rewrite Hs.
Qed.

(** The coordinator takes a new stop. *)
Definition may_stop (s : sys) : Prop :=
  let k := s_control s in
  acceptingStops k = true /\ stopped (s_core s) = false /\ forming (s_core s) = false /\
  (controllerPresent k = Some false -> excludedThread k <> None) /\
  stopFailureBackoff <= s_clock s - lastStopFailureUs k.

Lemma trap_published r id ch idx s :
  may_stop s ->
  let '(s', began) := tryBeginAsyncStop r id (Some ch) idx ""%string s in
  began = true /\ forming (s_core s') = true /\ s_chunks s' = s_chunks s /\
  s_trap s' = mkTrap true (Some ch) idx id r (stagedFailure (s_trap s)) /\
  has_owner (owners (s_control s')) Debugger = true.
Proof.
  intros (H1 & H2 & H3 & H4 & H5). unfold tryBeginAsyncStop. cbn zeta.
  replace (match controllerPresent (s_control s) with _ => _ end) with false.
  2: { destruct (controllerPresent (s_control s)) as [[]|], (excludedThread (s_control s)); try done.
       by destruct H4. }
  rewrite (proj2 (Z.ltb_ge _ _)) by lia. unfold beginStop. rewrite H1, H2, H3. cbn [negb].
  split_and!; try done. cbn. unfold has_owner, add_owner, has_bits, set_bits. cbn [ownerBit].
  rewrite Z.land_lor_distr_l. apply negb_true_iff, Z.eqb_neq. intros [_ H]%Z.lor_eq_0_iff. discriminate.
Qed.

(** ** The frame stack and its activations *)

Definition with_id (a : Z) (fr : frame) : frame :=
  mkFrame a (fr_chunk fr) (fr_off fr) (isEventHandler fr) (fr_window fr).
Definition set_frames (fs : list frame) (st : stepping) : stepping :=
  mkStepping fs (nextActivationId st) (debugStepMode st) (debugStepActivation st)
    (debugStepOriginIndex st) (debugSuppress st).

(** A new frame has no id and no window. *)
Definition pushFrame (ch off : Z) (handler : bool) (st : stepping) : stepping :=
  set_frames (frames st ++ [mkFrame 0 ch off handler DebugInfo.fresh_window]) st.

Definition popFrame (st : stepping) : stepping :=
  set_frames (take (length (frames st) - 1) (frames st)) st.

(** resetStack drops every frame. *)
Definition resetFrames (st : stepping) : stepping := set_frames [] st.

(** An instruction moves the innermost frame on. *)
Definition advance (off : Z) (win : DebugInfo.window) (st : stepping) : stepping :=
  match last_frame st with
  | None => st
  | Some fr => set_top (mkFrame (activationId fr) (fr_chunk fr) off (isEventHandler fr) win) st
  end.

(** The inspector names a frame of a stopped thread on first observation. *)
Definition name_frame (k : nat) (st : stepping) : stepping :=
  match frames st !! k with
  | Some fr =>
      if activationId fr =? 0
      then set_next (wrapU 64 (nextActivationId st + 1))
             (set_frames (<[k := with_id (nextActivationId st) fr]> (frames st)) st)
      else st
  | None => st
  end.

(** A frame handle names a frame by its index and its activation. *)
Definition resolveFrame (frameIndex activation : Z) (st : stepping) : bool :=
  match frames st !! Z.to_nat frameIndex with
  | Some fr => negb (activationId fr =? 0) && (activationId fr =? activation)
  | None => false
  end.

Inductive stack_op :=
| OpPush (ch off : Z) (handler : bool)
| OpPop
| OpReset
| OpAdvance (off : Z) (win : DebugInfo.window)
| OpName (k : nat)
| OpEnsure.

Definition stack_step (st : stepping) (o : stack_op) : stepping :=
  match o with
  | OpPush ch off handler => pushFrame ch off handler st
  | OpPop => popFrame st
  | OpReset => resetFrames st
  | OpAdvance off win => advance off win st
  | OpName k => name_frame k st
  | OpEnsure => fst (ensureActivation st)
  end.

Definition run_stack (os : list stack_op) (st : stepping) : stepping := fold_left stack_step os st.

(** The lowest height the stack reached over a run. *)
Fixpoint lowest (os : list stack_op) (st : stepping) : nat :=
  match os with
  | [] => length (frames st)
  | o :: os => Nat.min (length (frames st)) (lowest os (stack_step st o))
  end.

Definition ids (st : stepping) : list Z := map activationId (frames st).

(** Activation ids are given out once: those in use are below the next one and
    name one frame each. *)
Record ids_ok (st : stepping) : Prop := {
  io_next : 1 <= nextActivationId st;
  io_range : forall i a, ids st !! i = Some a -> a = 0 \/ 1 <= a < nextActivationId st;
  io_inj : forall i j a, ids st !! i = Some a -> ids st !! j = Some a -> a <> 0 -> i = j;
}.

(** What an operation does to the ids: at a place, the old id, none, or the next. *)
Lemma ids_name k st a :
  ids st !! k = Some a ->
  ids (name_frame k st) = (if a =? 0 then <[k := nextActivationId st]> (ids st) else ids st) /\
  nextActivationId (name_frame k st)
  = (if a =? 0 then wrapU 64 (nextActivationId st + 1) else nextActivationId st).
Proof.
  unfold ids, name_frame. rewrite list_lookup_fmap. destruct (frames st !! k) as [fr|] eqn:E; [|done].
  cbn. intros [= <-]. destruct (activationId fr =? 0); [|done]. cbn. split; [|done].
  apply (list_fmap_insert activationId).
Qed.

Lemma ensureActivation_names st :
  ids (fst (ensureActivation st)) = ids (name_frame (length (frames st) - 1) st) /\
  nextActivationId (fst (ensureActivation st)) = nextActivationId (name_frame (length (frames st) - 1) st) /\
  frames (fst (ensureActivation st)) = frames (name_frame (length (frames st) - 1) st).
Proof.
  unfold ensureActivation, name_frame, last_frame, ids.
  destruct (frames st) as [|fr l _] eqn:E using rev_ind; [cbn; by rewrite E|].
  rewrite last_snoc, length_app, Nat.add_sub, lookup_app_r, Nat.sub_diag by done. cbn [lookup list_lookup].
  destruct (activationId fr =? 0); [|done]. unfold set_top, set_next. cbn.
  rewrite E, length_app, Nat.add_sub, take_app_length.
  rewrite <- (Nat.add_0_r (length l)) at 1 2. rewrite insert_app_r. done.
Qed.

(** Every operation truncates the stack, pushes a frame without an id, or gives
    the next id to a frame without one. *)
Inductive id_step (st st' : stepping) : Prop :=
| id_cut n : ids st' = take n (ids st) -> nextActivationId st' = nextActivationId st -> id_step st st'
| id_push : ids st' = ids st ++ [0] -> nextActivationId st' = nextActivationId st -> id_step st st'
| id_name k : ids st !! k = Some 0 -> ids st' = <[k := nextActivationId st]> (ids st) ->
    nextActivationId st' = wrapU 64 (nextActivationId st + 1) -> id_step st st'.

Lemma id_same st st' :
  ids st' = ids st -> nextActivationId st' = nextActivationId st -> id_step st st'.
Proof. intros H1 H2. apply (id_cut _ _ (length (ids st))); [by rewrite take_ge|done]. Qed.

Lemma id_step_name k st st' :
  ids st' = ids (name_frame k st) -> nextActivationId st' = nextActivationId (name_frame k st) ->
  id_step st st'.
Proof.
  intros H1 H2. destruct (ids st !! k) as [a|] eqn:E.
  - destruct (ids_name k st a E) as [H3 H4]. rewrite H3 in H1. rewrite H4 in H2.
    destruct (Z.eqb_spec a 0) as [Ha|_]; [rewrite Ha in E; by eapply id_name|by apply id_same].
  - unfold ids in E. rewrite list_lookup_fmap in E. unfold name_frame in *.
    destruct (frames st !! k); [done|by apply id_same].
Qed.

Lemma stack_step_ids st o : id_step st (stack_step st o).
Proof.
  destruct o as [ch off handler| | |off win|k|]; cbn [stack_step].
  - apply id_push; [|done]. unfold ids, pushFrame. cbn. by rewrite map_app.
  - apply (id_cut _ _ (length (frames st) - 1)); [|done]. unfold ids. cbn. symmetry. apply firstn_map.
  - by apply (id_cut _ _ 0).
  - unfold advance. destruct (last_frame st) as [fr|] eqn:E; [|by apply id_same].
    apply id_same; [|done]. unfold ids.
    assert (forall l, map activationId l = map fst (map seen l)) as Hx
      by (intros l; rewrite map_map; done).
    by rewrite !Hx, (set_top_seen fr).
  - by apply (id_step_name k).
  - destruct (ensureActivation_names st) as (H1 & H2 & _). by eapply id_step_name.
Qed.

(** The id of a live frame stays with it; an id no frame has stays unused. *)
Lemma id_step_ok st st' :
  ids_ok st -> nextActivationId st + 1 < 2 ^ 64 -> id_step st st' ->
  ids_ok st' /\ nextActivationId st <= nextActivationId st' <= nextActivationId st + 1 /\
  (forall k a, 1 <= a < nextActivationId st ->
     ids st' !! k = Some a <-> ids st !! k = Some a /\ (k < length (ids st'))%nat).
Proof.
  intros [Hn Hr Hi] Hw [n E1 E2|E1 E2|k Ek E1 E2].
  - assert (forall i a, ids st' !! i = Some a -> ids st !! i = Some a) as Hsub
      by (intros i a; rewrite E1; intros [H _]%lookup_take_Some; done).
    split; [split; rewrite ?E2; [done|intros; eapply Hr; eauto|eauto]|]. split; [lia|].
    intros k a Ha. split; [intros H; split; [auto|by eapply lookup_lt_Some]|].
    intros [H Hl]. rewrite E1 in *. rewrite length_take in Hl. rewrite lookup_take_lt; [done|lia].
  - assert (forall i a, ids st' !! i = Some a -> a <> 0 -> ids st !! i = Some a) as Hsub.
    { intros i a. rewrite E1. intros [H|[_ [_ <-]%list_lookup_singleton_Some]]%lookup_app_Some; done. }
    split; [split; rewrite ?E2|].
    + done.
    + intros i a H. destruct (decide (a = 0)) as [|Ha]; [by left|]. eauto.
    + intros i j a H1 H2 Ha. eauto.
    + split; [lia|]. intros k a Ha. split.
      * intros H. split; [apply Hsub; [done|lia]|by eapply lookup_lt_Some].
      * intros [H _]. rewrite E1. by apply lookup_app_l_Some.
  - assert (wrapU 64 (nextActivationId st + 1) = nextActivationId st + 1) as Ew
      by (unfold wrapU; apply Z.mod_small; lia).
    rewrite Ew in E2. pose proof (lookup_lt_Some _ _ _ Ek) as Hk.
    assert (forall i a, ids st' !! i = Some a ->
      i = k /\ a = nextActivationId st \/ i <> k /\ ids st !! i = Some a) as Hcase.
    { intros i a. rewrite E1. destruct (decide (i = k)) as [->|Hne].
      - rewrite list_lookup_insert_eq by done. intros [= <-]. by left.
      - rewrite list_lookup_insert_ne by done. by right. }
    split; [split; rewrite ?E2|].
    + lia.
    + intros i a [[-> ->]|[_ H]]%Hcase; [lia|]. destruct (Hr i a H); lia.
    + intros i j a [[-> ->]|[Hi1 H1]]%Hcase [[-> Hj]|[Hj1 H2]]%Hcase Ha; try done.
      * destruct (Hr j _ H2); lia.
      * subst. destruct (Hr i _ H1); lia.
      * by eapply Hi.
    + split; [lia|]. intros i a Ha. split.
      * intros H. split; [|by eapply lookup_lt_Some]. destruct (Hcase i a H) as [[_ ->]|[_ ?]]; [lia|done].
      * intros [H _]. rewrite E1. rewrite list_lookup_insert_ne; [done|]. intros ->. rewrite Ek in H.
        injection H as <-. lia.
Qed.

Lemma id_live st os : forall k a,
  ids_ok st -> nextActivationId st + Z.of_nat (length os) < 2 ^ 64 -> 1 <= a < nextActivationId st ->
  ids (run_stack os st) !! k = Some a <-> ids st !! k = Some a /\ (k < lowest os st)%nat.
Proof.
  revert st. induction os as [|o os IH]; intros st k a Hok Hb Ha.
  - cbn. unfold ids. rewrite <- (length_map activationId). split; [|by intros [? _]].
    intros H. split; [done|by eapply lookup_lt_Some].
  - cbn [run_stack fold_left lowest length] in *.
    destruct (id_step_ok st (stack_step st o) Hok ltac:(lia) (stack_step_ids st o)) as (H1 & H2 & H3).
    change (fold_left stack_step os ?x) with (run_stack os x). rewrite IH by (try done; lia).
    rewrite H3 by done. unfold ids. rewrite length_map. split.
    + intros [[H4 H5] H6]. split; [done|]. apply lookup_lt_Some in H4. rewrite length_map in H4. lia.
    + intros [H4 H5]. assert (lowest os (stack_step st o) <= length (frames (stack_step st o)))%nat
        by (destruct os; cbn; lia). split; [split; [done|lia]|lia].
Qed.

Lemma run_stack_ok os : forall st,
  ids_ok st -> nextActivationId st + Z.of_nat (length os) < 2 ^ 64 -> ids_ok (run_stack os st).
Proof.
  induction os as [|o os IH]; intros st Hok Hb; [done|]. cbn [run_stack fold_left length] in *.
  destruct (id_step_ok st (stack_step st o) Hok ltac:(lia) (stack_step_ids st o)) as (H1 & H2 & _).
  apply IH; [done|lia].
Qed.

Lemma step_fields st o :
  debugStepActivation (stack_step st o) = debugStepActivation st /\
  debugStepOriginIndex (stack_step st o) = debugStepOriginIndex st /\
  debugStepMode (stack_step st o) = debugStepMode st.
Proof.
  destruct o; cbn; try done.
  - unfold advance. by destruct (last_frame st).
  - unfold name_frame. destruct (frames st !! k) as [fr|]; [by destruct (activationId fr =? 0)|done].
  - unfold ensureActivation. destruct (last_frame st) as [fr|]; [by destruct (activationId fr =? 0)|done].
Qed.

Lemma run_fields os : forall st,
  debugStepActivation (run_stack os st) = debugStepActivation st /\
  debugStepOriginIndex (run_stack os st) = debugStepOriginIndex st /\
  debugStepMode (run_stack os st) = debugStepMode st.
Proof.
  induction os as [|o os IH]; intros st; [done|].
  change (run_stack (o :: os) st) with (run_stack os (stack_step st o)).
  destruct (IH (stack_step st o)) as (-> & -> & ->). apply step_fields.
Qed.

(** Naming a frame that is there. *)
Lemma name_frame_id k st fr :
  ids_ok st -> nextActivationId st + 1 < 2 ^ 64 -> frames st !! k = Some fr ->
  let st' := name_frame k st in
  ids_ok st' /\ nextActivationId st' <= nextActivationId st + 1 /\
  exists a, ids st' !! k = Some a /\ 1 <= a < nextActivationId st'.
Proof.
  intros Hok Hb Hfr st'.
  destruct (id_step_ok st st' Hok Hb (id_step_name k st st' eq_refl eq_refl)) as (H1 & H2 & _).
  split; [done|]. split; [lia|].
  assert (ids st !! k = Some (activationId fr)) as Ea by (unfold ids; by rewrite list_lookup_fmap, Hfr).
  destruct (ids_name k st _ Ea) as [H3 H4].
  assert (exists a, ids st' !! k = Some a /\ a <> 0) as (a & Hx & Hne).
  { unfold st'. rewrite H3. destruct (Z.eqb_spec (activationId fr) 0) as [_|Hn]; [|by eexists].
    exists (nextActivationId st). rewrite list_lookup_insert_eq by (by eapply lookup_lt_Some).
    split; [done|]. pose proof (io_next st Hok). lia. }
  exists a. split; [done|]. destruct (io_range st' H1 k a Hx); [done|lia].
Qed.

(** Stepping arms at the innermost frame, by naming it. *)
Lemma arm_names s mode st fr :
  last_frame st = Some fr ->
  ids (arm s mode st) = ids (name_frame (length (frames st) - 1) st) /\
  nextActivationId (arm s mode st) = nextActivationId (name_frame (length (frames st) - 1) st) /\
  debugStepOriginIndex (arm s mode st) = Z.of_nat (length (frames st) - 1) /\
  ids (arm s mode st) !! (length (frames st) - 1)%nat = Some (debugStepActivation (arm s mode st)).
Proof.
  intros E. assert (frames st !! (length (frames st) - 1)%nat = Some fr) as El.
  { unfold last_frame in E. rewrite last_lookup in E. by rewrite Nat.sub_1_r. }
  pose proof (lookup_lt_Some _ _ _ El) as Hlt.
  unfold arm. rewrite E. unfold ids, name_frame. rewrite El. cbn [frames nextActivationId debugStepOriginIndex debugStepActivation].
  split_and!; [| |done|by rewrite list_lookup_fmap, list_lookup_insert_eq].
  - destruct (activationId fr =? 0); [done|]. f_equal. rewrite list_insert_id; [done|]. rewrite El. by destruct fr.
  - by destruct (activationId fr =? 0).
Qed.

Lemma lookup_ids st k a :
  ids st !! k = Some a <-> exists fr, frames st !! k = Some fr /\ activationId fr = a.
Proof.
  unfold ids. rewrite list_lookup_fmap. destruct (frames st !! k) as [fr|]; cbn; split.
  - intros [= <-]. by exists fr.
  - intros (fr' & [= ->] & <-). done.
  - done.
  - by intros (? & ? & _).
Qed.

Lemma live_frame st k a P `{Decision P} :
  (ids st !! k = Some a <-> P) ->
  match frames st !! k with Some fr => activationId fr =? a | None => false end = bool_decide P.
Proof.
  intros HP. apply eq_true_iff_eq. rewrite bool_decide_eq_true, <- HP. unfold ids.
  rewrite list_lookup_fmap. destruct (frames st !! k) as [fr|]; [|done]. cbn. rewrite Z.eqb_eq.
  split; [by intros ->|by intros [= ->]].
Qed.

(** Steps and frame handles are anchored on an activation, not on a depth.
    Whatever a thread does after a step is armed or a frame observed - calls,
    returns, unwinding, recursion back to the same depth - the origin is taken to
    be alive exactly while the stack has not dropped to its index, and a handle of
    the frame at an index resolves exactly while the stack has not dropped to that
    index; the ids stay distinct throughout. *)
Theorem step_anchor_exact s mode st0 os k :
  ids_ok st0 -> (k < length (frames st0))%nat ->
  nextActivationId st0 + Z.of_nat (length os) + 1 < 2 ^ 64 ->
  let armed := arm s mode st0 in
  let named := name_frame k st0 in
  ids_ok (run_stack os armed) /\
  originAlive (run_stack os armed) = bool_decide (length (frames st0) <= lowest os armed)%nat /\
  forall a, ids named !! k = Some a ->
    resolveFrame (Z.of_nat k) a (run_stack os named) = bool_decide (k < lowest os named)%nat.
Proof.
  intros Hok Hk Hb armed named. set (n := (length (frames st0) - 1)%nat).
  destruct (frames st0 !! n) as [fr|] eqn:Efr; [|apply lookup_ge_None in Efr; unfold n in Efr; lia].
  assert (last_frame st0 = Some fr) as El
    by (unfold last_frame; rewrite last_lookup, <- Efr; unfold n; by rewrite Nat.sub_1_r).
  destruct (arm_names s mode st0 fr El) as (A1 & A2 & A3 & A4). fold armed n in A1, A2, A3, A4.
  destruct (name_frame_id n st0 fr Hok ltac:(lia) Efr) as (N1 & N2 & a & Na & Ra).
  assert (ids_ok armed) as Harm by (destruct N1; split; rewrite ?A1, ?A2; done).
  rewrite A1, Na in A4. injection A4 as Ea.
  split; [apply run_stack_ok; [done|lia]|]. split.
  - destruct (run_fields os armed) as (F1 & F2 & _). unfold originAlive. rewrite F1, F2, A3, Nat2Z.id, <- Ea.
    rewrite (live_frame _ n a (n < lowest os armed)%nat).
    + apply bool_decide_ext. unfold n. lia.
    + rewrite id_live, A1, Na by (done || lia). by split; [intros [_ ?]|].
  - intros b Hbk. destruct (frames st0 !! k) as [fk|] eqn:Efk; [|apply lookup_ge_None in Efk; lia].
    destruct (name_frame_id k st0 fk Hok ltac:(lia) Efk) as (K1 & K2 & b' & Kb & Rb). fold named in K1, K2, Kb, Rb.
    rewrite Hbk in Kb. injection Kb as <-.
    rewrite <- (live_frame (run_stack os named) k b).
    + unfold resolveFrame. rewrite Nat2Z.id. destruct (frames (run_stack os named) !! k) as [g|]; [|done].
      destruct (Z.eqb_spec (activationId g) b) as [->|_]; [|by rewrite andb_false_r].
      rewrite andb_true_r. apply negb_true_iff, Z.eqb_neq. lia.
    + rewrite id_live, Hbk by (done || lia). by split; [intros [_ ?]|].
Qed.

(** ** What a step promises

    Told by the history of the stack since the step was armed in state [st0]: the
    operations [os] on it, and not the ids and indices that the thread keeps. *)

(** Where a step of each kind ends, at a statement reached after [os].  The frame it was
    armed in has returned or been unwound as soon as the stack has been lower than it was
    then.  A step in ends at any depth; a step over, in that frame or once it is gone; a
    step out, once it is gone; and none in an event handler that has come in between, that
    is, while a handler's frame is among those above that frame, or, when it is gone, among
    all that are left. *)
Definition step_ends (s : sys) (mode : DebugStepMode) (st0 : stepping) (os : list stack_op) : bool :=
  let armed := arm s mode st0 in
  let now := frames (run_stack os armed) in
  let origin := length (frames st0) in
  let gone := (lowest os armed <? origin)%nat in
  let in_handler := existsb isEventHandler (if gone then now else drop origin now) in
  match mode with
  | StepNone => false
  | StepIn => negb in_handler
  | StepNext => if gone then negb in_handler else (length now =? origin)%nat
  | StepOut => gone && negb in_handler
  end.

(** A thread that is not stepping, or one with an armed step and what it has done since
    (its suppression may have been spent), and whether its step ends here. *)
Inductive stepping_since (st : stepping) : bool -> Prop :=
| not_stepping : debugStepMode st = StepNone -> stepping_since st false
| armed_since s mode st0 os x :
    ids_ok st0 -> frames st0 <> [] -> nextActivationId st0 + Z.of_nat (length os) + 1 < 2 ^ 64 ->
    st = set_suppress x (run_stack os (arm s mode st0)) -> stepping_since st (step_ends s mode st0 os).

(** The thread's predicate, on ids and indices, is that. *)
Lemma step_fires_history st ends : stepping_since st ends -> step_fires st = ends.
Proof.
  destruct 1 as [Hm|s mode st0 os x Hok Hne Hb ->]; [unfold step_fires; by rewrite Hm|].
  assert (length (frames st0) <> 0%nat) as Hl by (by destruct (frames st0)).
  destruct (step_anchor_exact s mode st0 os (length (frames st0) - 1) Hok ltac:(lia) Hb) as (_ & Hal & _).
  destruct (last_frame st0) as [fr|] eqn:El.
  2: { unfold last_frame in El. by apply last_None in El. }
  destruct (arm_names s mode st0 fr El) as (_ & _ & Ho & _).
  destruct (run_fields os (arm s mode st0)) as (_ & Eo & Em).
  set (st := run_stack os (arm s mode st0)) in *. unfold step_fires.
  change (debugStepMode (set_suppress x st)) with (debugStepMode st).
  change (debugStepOriginIndex (set_suppress x st)) with (debugStepOriginIndex st).
  change (frames (set_suppress x st)) with (frames st).
  change (handlerInterposed (set_suppress x st)) with (handlerInterposed st).
  change (originAlive (set_suppress x st)) with (originAlive st).
  assert (debugStepMode st = mode) as -> by (rewrite Em; unfold arm; by rewrite El).
  assert (handlerInterposed st = existsb isEventHandler
    (if (lowest os (arm s mode st0) <? length (frames st0))%nat then frames st else drop (length (frames st0)) (frames st))) as Hh.
  { unfold handlerInterposed. rewrite Hal, Eo, Ho, Nat2Z.id. case_bool_decide as H.
    - rewrite (proj2 (Nat.ltb_ge _ _)) by lia. do 2 f_equal. lia.
    - by rewrite (proj2 (Nat.ltb_lt _ _)) by lia. }
  unfold step_ends. fold st. rewrite <- Hh. rewrite Hal, Eo, Ho.
  assert (bool_decide (length (frames st0) <= lowest os (arm s mode st0))%nat = negb (lowest os (arm s mode st0) <? length (frames st0))%nat) as ->.
  { rewrite <- Nat.leb_antisym. by case_bool_decide; symmetry; [apply Nat.leb_le|apply Nat.leb_gt; lia]. }
  destruct mode; try done; destruct (_ <? _)%nat eqn:Eg; cbn [negb andb]; try done.
  apply Bool.eq_true_iff_eq. rewrite Z.eqb_eq, Nat.eqb_eq. apply Nat.ltb_ge in Eg.
  assert (lowest os (arm s StepNext st0) <= length (frames st))%nat; [|lia].
  unfold st. generalize (arm s StepNext st0). clear. induction os as [|o os IH]; intros st; [done|].
  cbn [lowest]. specialize (IH (stack_step st o)). cbn [run_stack fold_left]. unfold run_stack in IH. lia.
Qed.


(** ** A module with two functions that name each other *)

Definition demo_info : DebugInfo.DebugInfo :=
  DebugInfo.mkInfo [DebugInfo.mkStmt 0 1 0 1; DebugInfo.mkStmt 0 1 2 0; DebugInfo.mkStmt 7 3 2 0] [] [].

(** Thread 1 is about to execute the statement of line 3. *)
Definition demo_frame : frame := mkFrame 0 5 7 false DebugInfo.fresh_window.
Definition demo_step : stepping := mkStepping [demo_frame] 1 StepNone 0 0 (None, 0xffffffff, 0).

Definition demo_sys : sys :=
  set_s_chunks {[5 := mkChunk [109] (Some demo_info)]}
    (on_core (on_thread 1 (set_step demo_step))
       (fold_left (fun s l => run l s) [LRegister 1 0 Main; LEnter false 1; LClock 300000; LTop false false 1]
          (init false true 0))).

Definition demo_world (points : option ChunkBreakpoints) : world :=
  mkWorld demo_sys
    {[5 := mkCode 9 [VFunction 2; VOther] points; 6 := mkCode 4 [VFunction 1; VFunction 2] None]}
    {[1 := mkFunction (Some 5) []; 2 := mkFunction (Some 6) [VFunction 1]]}
    (mkIndex {[1 := [1; 2]]} {[1 := mkMeta "m" ""]} {["m"%string := 1]} 2)
    (mkManager false false ∅ ∅ false) [].

Lemma demo_info_of points ch di : info_of (demo_world points) ch = Some di -> ch = 5 /\ di = demo_info.
Proof.
  unfold info_of. cbn [s_chunks w_sys demo_world demo_sys]. destruct (decide (ch = 5)) as [->|Hne].
  - intros [= <-]. done.
  - unfold demo_sys, set_s_chunks. cbn [s_chunks]. by rewrite lookup_singleton_ne.
Qed.

Lemma demo_points_of points ch :
  points_of (demo_world points) ch = if decide (ch = 5) then points else None.
Proof.
  unfold points_of. cbn [w_codes demo_world]. destruct (decide (ch = 5)) as [->|H5].
  - by rewrite lookup_insert_eq.
  - rewrite lookup_insert_ne by done. destruct (decide (ch = 6)) as [->|H6].
    + by rewrite lookup_singleton_eq.
    + by rewrite lookup_singleton_ne.
Qed.

Lemma demo_points points :
  match points with Some p => Z.even (seq p) && (length (words p) =? 3)%nat = true | None => True end ->
  points_ok (demo_world points).
Proof.
  intros Hp. split.
  - intros ch [di Hdi]. apply demo_info_of in Hdi as [-> _]. by eexists.
  - intros ch p. rewrite demo_points_of. case_decide as E; [|done]. subst. intros ->.
    apply andb_true_iff in Hp as [H1 H2%Nat.eqb_eq]. split; [done|]. by exists demo_info.
Qed.

Lemma demo_manager : manager_ok (demo_world None).
Proof.
  split; [by apply demo_points| |done].
  intros ch i. unfold enabled. rewrite demo_points_of. by case_decide.
Qed.

Lemma demo_lines points : lines_ok (demo_world points).
Proof.
  intros ch di e Hdi He. apply demo_info_of in Hdi as [-> ->]. cbn in He. set_unfold.
  destruct He as [->|[->|[->|[]]]]; cbn; lia.
Qed.

Lemma demo_closed points : closed_graph (demo_world points).
Proof.
  intros f g _. unfold calls, children. cbn [w_funs w_codes demo_world].
  assert (forall x, x = 1 \/ x = 2 ->
    is_Some (({[1 := mkFunction (Some 5) []; 2 := mkFunction (Some 6) [VFunction 1]]} : gmap Z function) !! x))
    as Hin by (intros x [-> | ->]; by eexists).
  intros H. apply Hin. destruct (decide (f = 1)) as [->|H1].
  - cbn in H. set_unfold. destruct H as [[= ->]|[|]]; auto; done.
  - rewrite lookup_insert_ne in H by done. destruct (decide (f = 2)) as [->|H2].
    + cbn in H. set_unfold. destruct H as [[= ->]|[[= ->]|[[= ->]|[]]]]; auto.
    + rewrite lookup_singleton_ne in H by done. set_solver.
Qed.

Lemma function_graph_walk_witness :
  forEachFunctionInGraph (VFunction 1) (demo_world None) = Some [1; 2] /\
  exists fs, forEachFunctionInGraph (VFunction 1) (demo_world None) = Some fs /\ NoDup fs /\
    forall f, f ∈ fs <-> rtc (calls (demo_world None)) 1 f.
Proof.
  split; [vm_compute; reflexivity|].
  apply (function_graph_walk (demo_world None) 1); [apply demo_closed|by eexists].
Defined.

(** No file is found; breakpoints at lines 2 and 4 of source [m]. *)
Definition no_file : string -> bool := fun _ => false.
Definition no_path : string -> option string := fun _ => None.
Definition demo_set : world * list Bound := setBreakpoints no_file no_path "m" [2; 4] (demo_world None).

Lemma breakpoints_bound_witness :
  snd demo_set = [mkBound 2 3 true; mkBound 4 0 false] /\
  points_of (fst demo_set) 5 = Some (mkPoints [0; 0; 1] 2) /\
  manager_ok (fst demo_set).
Proof.
  split; [vm_compute; reflexivity|]. split; [vm_compute; reflexivity|].
  apply (breakpoints_bound no_file no_path "m" [2; 4] (demo_world None) (fst demo_set) (snd demo_set)).
  - exact demo_manager.
  - apply demo_lines.
  - destruct demo_set eqn:E. unfold demo_set in E. rewrite E. reflexivity.
Defined.

(** A synthetic source has a key [m#7] and a name [m]; requests filed under the two arm the
    same chunk.  A line set under each enables two words; clearing one set clears both,
    with the other's chunk still listed and the slow path still demanded. *)
Definition synthetic_world : world :=
  set_index (mkIndex {[1 := [1; 2]]} {[1 := mkMeta "m#7" ""]} {["m#7"%string := 1]} 2) (demo_world None).

Lemma two_names_share_a_chunk :
  let set := setBreakpoints no_file no_path in
  let w1 := fst (set "m#7" [3] synthetic_world) in
  let w2 := fst (set "m" [1] w1) in
  let w3 := fst (set "m" [] w2) in
  (words <$> points_of w1 5) = Some [0; 0; 1] /\ (words <$> points_of w2 5) = Some [0; 1; 1] /\
  (words <$> points_of w3 5) = Some [0; 0; 0] /\ armed_at w3 "m#7" = [5] /\
  slowPathDemandHeld (w_mgr w3) = true.
Proof. vm_compute. split_and!; reflexivity. Qed.

Lemma demo_compiled : compiled (DebugInfo.stmts demo_info) 7.
Proof.
  apply (compiled_mark [DebugInfo.mkStmt 0 1 0 1; DebugInfo.mkStmt 0 1 2 0] 0 7 3 2); [|lia].
  apply (compiled_mark [DebugInfo.mkStmt 0 1 0 1] 0 0 1 2); [|lia].
  apply (compiled_entry 1 0).
Qed.

(** The same thread, without a breakpoint, having stepped over from the statement of
    line 1. *)
Definition demo_start : stepping :=
  mkStepping [mkFrame 0 5 0 false DebugInfo.fresh_window] 1 StepNone 0 0 (None, 0xffffffff, 0).
Definition demo_over : stepping :=
  set_suppress (None, 0xffffffff, 0) (run_stack [OpAdvance 7 DebugInfo.fresh_window] (arm demo_sys StepNext demo_start)).
Definition demo_stepping : world :=
  set_sys (on_core (on_thread 1 (set_step demo_over)) demo_sys) (demo_world None).

Lemma demo_start_ok : ids_ok demo_start.
Proof.
  split; [done| |].
  - intros [|i] a; cbn; try done; intros [= <-]; by left.
  - intros [|i] j a; cbn; try done; intros [= <-]; done.
Qed.

Lemma demo_stepping_points : points_ok demo_stepping.
Proof. destruct (demo_points None I) as [H1 H2]. split; [exact H1|exact H2]. Qed.


(** In an event handler, stepping out of a function it has called: the frame stepped from
    is gone, the handler's own frame counts as come in between, and the step does not end. *)
Lemma handler_hides_its_steps :
  let handler := mkFrame 0 5 0 true DebugInfo.fresh_window in
  let st0 := mkStepping [handler; demo_frame] 1 StepNone 0 0 (None, 0xffffffff, 0) in
  frames (run_stack [OpPop] (arm demo_sys StepOut st0)) = [handler] /\
  step_fires (run_stack [OpPop] (arm demo_sys StepOut st0)) = false /\
  step_fires (run_stack [OpPop] (arm demo_sys StepNext st0)) = false.
Proof. vm_compute. split_and!; reflexivity. Qed.

(** A caller and the frame stepped from; the call returns and the caller calls
    again: the same depth, another activation. *)
Definition demo_stack : stepping :=
  mkStepping [demo_frame; demo_frame] 1 StepNone 0 0 (None, 0xffffffff, 0).

Lemma demo_stack_ok : ids_ok demo_stack.
Proof.
  split; [done| |].
  - intros [|[|i]] a; cbn; try done; intros [= <-]; by left.
  - intros [|[|i]] j a; cbn; try done; intros [= <-]; done.
Qed.

Lemma step_anchor_exact_witness :
  let os := [OpPush 6 0 false; OpEnsure; OpPop; OpPop; OpPush 5 0 false; OpEnsure] in
  length (frames (run_stack os (arm demo_sys StepNext demo_stack))) = 2%nat /\
  originAlive (run_stack os (arm demo_sys StepNext demo_stack)) = false.
Proof.
  split; [vm_compute; reflexivity|].
  destruct (step_anchor_exact demo_sys StepNext demo_stack
    [OpPush 6 0 false; OpEnsure; OpPop; OpPop; OpPush 5 0 false; OpEnsure] 0) as (_ & H & _).
  - exact demo_stack_ok.
  - cbn. lia.
  - cbn. lia.
  - etransitivity; [exact H|vm_compute; reflexivity].
Defined.

End Breakpoints.
