(* ===== verification/IndentLexer.v ===== *)
(** * IndentLexer: [src/compiler/RoxalIndentationLexer.h], [RoxalIndentationLexer.cpp]

    The token source between the generated lexer and the parser: it drops
    NEWLINE tokens of blank and joined lines, inserts INDENT and DEDENT tokens
    from the indentation of each logical line, and tracks the suites of lambdas
    written inside a call.  The generated lexer is not under [src/]: what it
    delivers is the list of its tokens, each with the lexer position and the
    characters that follow it; past the last one it delivers EOF for ever. *)

From S2P Require Import Prelude.
From Stdlib Require Import Ascii Sorted.
From stdpp Require Import pretty.

(** ** Data *)

(** The token types the code distinguishes; [SKIP_] is the hidden-channel type
    of spaces, comments and line joinings, which the generated lexer delivers
    like any other token. *)
Inductive token_type :=
| NEWLINE | INDENT | DEDENT
| OPEN_PAREN | OPEN_BRACK | OPEN_BRACE
| CLOSE_PAREN | CLOSE_BRACK | CLOSE_BRACE
| COLON | FUNC | PROC | IDENTIFIER | THIS | SKIP_
| OTHER (n : Z)
| EOF.

#[export] Instance token_type_eq_dec : EqDecision token_type.
Proof. solve_decision. Defined.

(** [antlr4::CommonToken] as far as this class builds one. *)
Record token := Tok {
  tk_type : token_type;
  tk_text : string;
  tk_start : Z;
  tk_stop : Z;
  tk_line : Z;
  tk_col : Z
}.

(** One token of [RoxalLexer::nextToken()], and the lexer after it:
    [getLine()], [getCharPositionInLine()], [getCharIndex()] and the code points
    [_input->LA(1)], [LA(2)], ... *)
Record raw := Raw {
  r_tok : token;
  r_line : Z;
  r_col : Z;
  r_index : Z;
  r_la : list Z
}.

Record OpenerInfo := {
  oi_tokenType : token_type;
  oi_isCallContext : bool
}.

Inductive LambdaState := LNone | SawFunc | InParams | AfterParams.

#[export] Instance LambdaState_eq_dec : EqDecision LambdaState.
Proof. solve_decision. Defined.

Record LambdaSuiteInfo := {
  ls_baseIndentLevel : Z;
  ls_openedAtStart : Z
}.

(** The fields of the class; a stack has its top at the head of its list. *)
Record lexer := Lexer {
  indentLengths : list Z;
  pendingTokens : list token;
  lastAppendedTokenType : token_type;
  opened : Z;
  openers : list OpenerInfo;
  lambdaState : LambdaState;
  funcParenOpenedLevel : Z;
  lambdaSuites : list LambdaSuiteInfo;
  wasSpaceIndentation : bool;
  wasTabIndentation : bool;
  warnings : list string;
  errors : list string
}.

(** The constructor leaves [lastAppendedTokenType] uninitialised: [garbage]
    is whatever is there. *)
Definition init_lexer (garbage : token_type) : lexer :=
  Lexer [0%Z] [] garbage 0 [] LNone 0 [] false false [] [].

(** ** Field updates *)

Definition push_token (t : token) (s : lexer) : lexer :=
  Lexer (indentLengths s) (pendingTokens s ++ [t]) (lastAppendedTokenType s) (opened s)
    (openers s) (lambdaState s) (funcParenOpenedLevel s) (lambdaSuites s)
    (wasSpaceIndentation s) (wasTabIndentation s) (warnings s) (errors s).

Definition set_indents (l : list Z) (s : lexer) : lexer :=
  Lexer l (pendingTokens s) (lastAppendedTokenType s) (opened s)
    (openers s) (lambdaState s) (funcParenOpenedLevel s) (lambdaSuites s)
    (wasSpaceIndentation s) (wasTabIndentation s) (warnings s) (errors s).

Definition set_brackets (n : Z) (os : list OpenerInfo) (s : lexer) : lexer :=
  Lexer (indentLengths s) (pendingTokens s) (lastAppendedTokenType s) n
    os (lambdaState s) (funcParenOpenedLevel s) (lambdaSuites s)
    (wasSpaceIndentation s) (wasTabIndentation s) (warnings s) (errors s).

Definition set_lambda (l : LambdaState) (s : lexer) : lexer :=
  Lexer (indentLengths s) (pendingTokens s) (lastAppendedTokenType s) (opened s)
    (openers s) l (funcParenOpenedLevel s) (lambdaSuites s)
    (wasSpaceIndentation s) (wasTabIndentation s) (warnings s) (errors s).

Definition set_func_level (n : Z) (s : lexer) : lexer :=
  Lexer (indentLengths s) (pendingTokens s) (lastAppendedTokenType s) (opened s)
    (openers s) (lambdaState s) n (lambdaSuites s)
    (wasSpaceIndentation s) (wasTabIndentation s) (warnings s) (errors s).

Definition set_suites (l : list LambdaSuiteInfo) (s : lexer) : lexer :=
  Lexer (indentLengths s) (pendingTokens s) (lastAppendedTokenType s) (opened s)
    (openers s) (lambdaState s) (funcParenOpenedLevel s) l
    (wasSpaceIndentation s) (wasTabIndentation s) (warnings s) (errors s).

Definition set_ws (sp tab : bool) (s : lexer) : lexer :=
  Lexer (indentLengths s) (pendingTokens s) (lastAppendedTokenType s) (opened s)
    (openers s) (lambdaState s) (funcParenOpenedLevel s) (lambdaSuites s)
    sp tab (warnings s) (errors s).

Definition add_warning (w : string) (s : lexer) : lexer :=
  Lexer (indentLengths s) (pendingTokens s) (lastAppendedTokenType s) (opened s)
    (openers s) (lambdaState s) (funcParenOpenedLevel s) (lambdaSuites s)
    (wasSpaceIndentation s) (wasTabIndentation s) (warnings s ++ [w]) (errors s).

Definition add_errors (es : list string) (s : lexer) : lexer :=
  Lexer (indentLengths s) (pendingTokens s) (lastAppendedTokenType s) (opened s)
    (openers s) (lambdaState s) (funcParenOpenedLevel s) (lambdaSuites s)
    (wasSpaceIndentation s) (wasTabIndentation s) (warnings s) (errors s ++ es).

Definition set_pending (p : list token) (last : token_type) (s : lexer) : lexer :=
  Lexer (indentLengths s) p last (opened s)
    (openers s) (lambdaState s) (funcParenOpenedLevel s) (lambdaSuites s)
    (wasSpaceIndentation s) (wasTabIndentation s) (warnings s) (errors s).

(** ** Helpers *)

(** [insertToken(text, type)]: an empty token just after the current one. *)
Definition mk_inserted (r : raw) (text : string) (type : token_type) : token :=
  let startIndex := (tk_start (r_tok r) + Z.of_nat (String.length (tk_text (r_tok r))))%Z in
  Tok type text startIndex (startIndex - 1) (r_line r) (r_col r).

Definition insertToken (r : raw) (text : string) (type : token_type) (s : lexer) : lexer :=
  push_token (mk_inserted r text type) s.

(** Tab stops every eight columns; every other character is ignored. *)
Fixpoint indent_count (text : list ascii) (count : Z) (sp tab : bool) : Z * bool * bool :=
  match text with
  | [] => (count, sp, tab)
  | ch :: text' =>
      if decide (ch = " "%char) then indent_count text' (count + 1) true tab
      else if decide (ch = "009"%char) then indent_count text' (count + (8 - count mod 8)) sp true
      else indent_count text' count sp tab
  end.

Definition getIndentationLength (text : string) (s : lexer) : Z * lexer :=
  let '(n, sp, tab) :=
    indent_count (String.list_ascii_of_string text) 0 (wasSpaceIndentation s) (wasTabIndentation s) in
  (n, set_ws sp tab s).

Definition checkSpaceAndTabIndentation (s : lexer) : lexer :=
  if wasSpaceIndentation s && wasTabIndentation s
  then add_warning "Mixture of space and tab were used for indentation." s
  else s.

(** [insertLeadingTokens]: the first call of an input that starts with a space
    or tab, before a token that is neither NEWLINE nor EOF. *)
Definition insertLeadingTokens (atVeryFirst : bool) (type : token_type) (startIndex : Z)
    (s : lexer) : lexer :=
  if atVeryFirst && negb (bool_decide (type = NEWLINE \/ type = EOF)) then
    let s := push_token (Tok NEWLINE "NEWLINE" 0 (startIndex - 1) 1 0) s in
    let s := push_token (Tok INDENT "INDENT" startIndex (startIndex - 1) 1 startIndex) s in
    set_indents (startIndex :: indentLengths s) s
  else s.

Definition indentation_error (r : raw) : string :=
  "lexer --> line " +:+ pretty (r_line r) +:+ ":" +:+ pretty (r_col r) +:+
  String "009" " IndentationError: unindent does not match any outer indentation level".

(** The do-while of dedents: pop, compare with the new top, emit one DEDENT
    (with an error when the new top is below the current length). *)
Fixpoint dedent_loop (cur : Z) (r : raw) (stack : list Z)
    : outcome Empty_set (list Z * list token * list string) :=
  match stack with
  | [] => UB
  | _ :: rest =>
      match rest with
      | [] => UB
      | previous :: _ =>
          let ded := mk_inserted r "DEDENT" DEDENT in
          let errs := if decide (cur <= previous)%Z then [] else [indentation_error r] in
          if decide (cur < previous)%Z then
            let! res := dedent_loop cur r rest in
            let '(stack', toks, errs') := res in
            Ret (stack', ded :: toks, errs ++ errs')
          else Ret (rest, [ded], errs)
      end
  end.

Definition insertIndentDedentTokens (r : raw) (s : lexer) : outcome Empty_set lexer :=
  let '(cur, s) := getIndentationLength (tk_text (r_tok r)) s in
  match indentLengths s with
  | [] => UB
  | previous :: _ =>
      if decide (previous < cur)%Z then
        Ret (set_indents (cur :: indentLengths s) (insertToken r "INDENT" INDENT s))
      else if decide (cur < previous)%Z then
        let! res := dedent_loop cur r (indentLengths s) in
        let '(stack', toks, errs) := res in
        Ret (set_indents stack' (add_errors errs (foldl (fun s t => push_token t s) s toks)))
      else Ret s
  end.

(** The DEDENT loop at end of input leaves only the bottom length. *)
Fixpoint trailing_dedents (r : raw) (stack : list Z) (s : lexer) : lexer :=
  match stack with
  | _ :: (_ :: _) as rest => trailing_dedents r rest (insertToken r "DEDENT" DEDENT s)
  | _ => s
  end.

(** The last [pop] empties the stack. *)
Definition insertTrailingTokens (r : raw) (s : lexer) : lexer :=
  let s := if bool_decide (lastAppendedTokenType s = NEWLINE \/ lastAppendedTokenType s = DEDENT)
           then s else insertToken r "NEWLINE" NEWLINE s in
  let s := trailing_dedents r (indentLengths s) s in
  set_indents [] s.

(** The last token's type as the code looks it up: the back of the queue, or
    the token the previous call returned. *)
Definition prevType (s : lexer) : token_type :=
  match last (pendingTokens s) with
  | Some t => tk_type t
  | None => lastAppendedTokenType s
  end.

Definition callable_prev (t : token_type) : bool :=
  bool_decide (t = IDENTIFIER \/ t = CLOSE_PAREN \/ t = CLOSE_BRACK \/ t = THIS).

(** [while (!lambdaSuites.empty() && opened < lambdaSuites.top().openedAtStart) pop]. *)
Fixpoint drop_closed_suites (opened : Z) (suites : list LambdaSuiteInfo) : list LambdaSuiteInfo :=
  match suites with
  | su :: suites' =>
      if decide (opened < ls_openedAtStart su)%Z then drop_closed_suites opened suites' else suites
  | [] => []
  end.

(** [while (!lambdaSuites.empty() && indentLengths.top() <= top().baseIndentLevel) pop]. *)
Fixpoint drop_ended_suites (indent : Z) (suites : list LambdaSuiteInfo) : list LambdaSuiteInfo :=
  match suites with
  | su :: suites' =>
      if decide (indent <= ls_baseIndentLevel su)%Z
      then drop_ended_suites indent suites' else suites
  | [] => []
  end.

(** [_input->LA(k)] after the token; [None] past the end. *)
Definition LA (r : raw) (k : nat) : option Z := r_la r !! (k - 1).

Definition is_cr (c : Z) : bool := (c =? 13)%Z.
Definition is_lf (c : Z) : bool := (c =? 10)%Z.
Definition is_ff (c : Z) : bool := (c =? 12)%Z.
Definition is_hash (c : Z) : bool := (c =? 35)%Z.
Definition is_slash (c : Z) : bool := (c =? 47)%Z.

(** The switch on LA(1): a blank or comment line follows. *)
Definition blank_ahead (r : raw) : bool :=
  match LA r 1 with
  | Some c =>
      is_cr c || is_lf c || is_ff c || is_hash c ||
      (is_slash c && match LA r 2 with Some d => is_slash d | None => false end)
  | None => false
  end.

(** The peek past spaces and tabs after a lambda suite ended. *)
Fixpoint skip_ws (la : list Z) : option Z :=
  match la with
  | c :: la' => if ((c =? 32) || (c =? 9))%Z then skip_ws la' else Some c
  | [] => None
  end.

Definition separator_ahead (r : raw) : bool :=
  match skip_ws (r_la r) with
  | Some c => ((c =? 44) || (c =? 41) || (c =? 93) || (c =? 125) || (c =? 10) || (c =? 13))%Z
  | None => false
  end.

(** ** The handlers of [nextToken]: each ends in [break] or [continue] *)

Inductive flow := Break (s : lexer) | Continue (s : lexer).

(** [case OPEN_PAREN]. *)
Definition on_open_paren (r : raw) (s : lexer) : lexer :=
  let s := if decide (lambdaState s = SawFunc)
           then set_lambda InParams (set_func_level (opened s) s) else s in
  let isCall := callable_prev (prevType s) in
  let s := set_brackets (opened s + 1)
             ({| oi_tokenType := OPEN_PAREN; oi_isCallContext := isCall |} :: openers s) s in
  push_token (r_tok r) s.

(** [case OPEN_BRACK]. *)
Definition on_open_brack (r : raw) (s : lexer) : lexer :=
  let isIndexing := callable_prev (prevType s) in
  let s := set_brackets (opened s + 1)
             ({| oi_tokenType := OPEN_BRACK; oi_isCallContext := isIndexing |} :: openers s) s in
  push_token (r_tok r) s.

(** [case OPEN_BRACE]. *)
Definition on_open_brace (r : raw) (s : lexer) : lexer :=
  let s := set_brackets (opened s + 1)
             ({| oi_tokenType := OPEN_BRACE; oi_isCallContext := false |} :: openers s) s in
  push_token (r_tok r) s.

(** [case CLOSE_PAREN]. *)
Definition on_close_paren (r : raw) (s : lexer) : lexer :=
  let s := set_brackets (opened s - 1) (tail (openers s)) s in
  let s := if decide (lambdaState s = InParams /\ opened s = funcParenOpenedLevel s)
           then set_lambda AfterParams s else s in
  let s := set_suites (drop_closed_suites (opened s) (lambdaSuites s)) s in
  push_token (r_tok r) s.

(** [case CLOSE_BRACK], [case CLOSE_BRACE]. *)
Definition on_close_other (r : raw) (s : lexer) : lexer :=
  let s := set_brackets (opened s - 1) (tail (openers s)) s in
  let s := set_suites (drop_closed_suites (opened s) (lambdaSuites s)) s in
  push_token (r_tok r) s.

(** [case COLON]. *)
Definition on_colon (r : raw) (s : lexer) : outcome Empty_set lexer :=
  if decide (lambdaState s = AfterParams) then
    match indentLengths s with
    | [] => UB
    | top :: _ =>
        let info := {| ls_baseIndentLevel := top; ls_openedAtStart := opened s |} in
        Ret (push_token (r_tok r) (set_lambda LNone (set_suites (info :: lambdaSuites s) s)))
    end
  else Ret (push_token (r_tok r) s).

(** A NEWLINE that separates elements, unless a blank or comment line follows. *)
Definition separator_newline (r : raw) (s : lexer) : flow :=
  if blank_ahead r then Continue s else Break (push_token (r_tok r) s).

(** The NEWLINE at the end of a logical line, with its INDENT and DEDENTs, and
    the argument separator after a lambda suite that ended with it. *)
Definition emit_newline (r : raw) (s : lexer) : outcome Empty_set flow :=
  if blank_ahead r then Ret (Continue s)
  else
    let! s := insertIndentDedentTokens r (push_token (r_tok r) s) in
    match lambdaSuites s with
    | [] => Ret (Break s)
    | _ =>
        match indentLengths s with
        | [] => UB
        | top :: _ =>
            let suites' := drop_ended_suites top (lambdaSuites s) in
            let lambdaSuiteEnded := bool_decide (length suites' < length (lambdaSuites s)) in
            let s := set_suites suites' s in
            let call := match openers s with o :: _ => oi_isCallContext o | [] => false end in
            Ret (Break (if lambdaSuiteEnded && call && negb (separator_ahead r)
                        then insertToken r "NEWLINE" NEWLINE s else s))
        end
    end.

(** [case NEWLINE]. *)
Definition on_newline (r : raw) (s : lexer) : outcome Empty_set flow :=
  let s := set_lambda LNone s in
  if decide (0 < opened s)%Z then
    match lambdaSuites s with
    | suite :: suites' =>
        let effectiveOpened := (opened s - ls_openedAtStart suite)%Z in
        if decide (0 < effectiveOpened)%Z then
          match openers s with
          | o :: _ => Ret (if oi_isCallContext o then separator_newline r s else Continue s)
          | [] => Ret (Continue s)
          end
        else
          match indentLengths s with
          | [] => UB
          | top :: _ =>
              let prevWasColon := bool_decide (prevType s = COLON) in
              let noIndentYet := bool_decide (top <= ls_baseIndentLevel suite)%Z in
              if negb prevWasColon && noIndentYet then
                let s := set_suites suites' s in
                match openers s with
                | o :: _ => Ret (if oi_isCallContext o then separator_newline r s else Continue s)
                | [] => emit_newline r s
                end
              else emit_newline r s
          end
    | [] =>
        match openers s with
        | o :: _ =>
            if decide (oi_tokenType o = OPEN_BRACK) then
              Ret (if oi_isCallContext o then Continue s else Break (push_token (r_tok r) s))
            else if decide (oi_tokenType o = OPEN_PAREN) then
              Ret (if oi_isCallContext o then separator_newline r s else Continue s)
            else Ret (separator_newline r s)
        | [] => Ret (Continue s)
        end
    end
  else emit_newline r s.

(** [case EOF]. *)
Definition on_eof (r : raw) (s : lexer) : lexer :=
  match indentLengths s with
  | [] => s
  | _ => push_token (r_tok r) (checkSpaceAndTabIndentation (insertTrailingTokens r s))
  end.

(** [default]. *)
Definition on_other (r : raw) (s : lexer) : lexer :=
  let s := if decide (lambdaState s = SawFunc) then set_lambda LNone s else s in
  push_token (r_tok r) s.

(** One round of the loop. *)
Definition on_token (atVeryFirst : bool) (r : raw) (s : lexer) : outcome Empty_set flow :=
  let type := tk_type (r_tok r) in
  let s := insertLeadingTokens atVeryFirst type (tk_start (r_tok r)) s in
  let s := if decide (type = FUNC \/ type = PROC) then set_lambda SawFunc s else s in
  match type with
  | OPEN_PAREN => Ret (Break (on_open_paren r s))
  | OPEN_BRACK => Ret (Break (on_open_brack r s))
  | OPEN_BRACE => Ret (Break (on_open_brace r s))
  | CLOSE_PAREN => Ret (Break (on_close_paren r s))
  | CLOSE_BRACK | CLOSE_BRACE => Ret (Break (on_close_other r s))
  | COLON => let! s := on_colon r s in Ret (Break s)
  | NEWLINE => on_newline r s
  | EOF => Ret (Break (on_eof r s))
  | FUNC | PROC => Ret (Break (push_token (r_tok r) s))
  | _ => Ret (Break (on_other r s))
  end.

(** ** The input and [nextToken] *)

(** What is left of the input: the raw tokens, the EOF token repeated after
    them, the char index and the characters ahead. *)
Record input := Input {
  in_raws : list raw;
  in_eof : raw;
  in_index : Z;
  in_la : list Z
}.

(** The [while (true)] loop. *)
Fixpoint next_loop (atVeryFirst : bool) (raws : list raw) (eof : raw) (index : Z) (la : list Z)
    (s : lexer) : outcome Empty_set (input * lexer) :=
  match raws with
  | [] =>
      let! f := on_token atVeryFirst eof s in
      match f with
      | Break s => Ret (Input [] eof index la, s)
      | Continue s => UB  (* EOF never continues *)
      end
  | r :: raws' =>
      let! f := on_token atVeryFirst r s in
      match f with
      | Break s => Ret (Input raws' eof (r_index r) (r_la r), s)
      | Continue s => next_loop atVeryFirst raws' eof (r_index r) (r_la r) s
      end
  end.

Definition at_very_first (i : input) : bool :=
  (in_index i =? 0)%Z &&
  match in_la i with c :: _ => (c =? 32)%Z || (c =? 9)%Z | [] => false end.

(** [pop_front] on an empty queue is undefined: a call after the one that
    returned EOF. *)
Definition nextToken (i : input) (s : lexer) : outcome Empty_set (token * input * lexer) :=
  let! res := next_loop (at_very_first i) (in_raws i) (in_eof i) (in_index i) (in_la i) s in
  let '(i', s') := res in
  match pendingTokens s' with
  | [] => UB
  | t :: p => Ret (t, i', set_pending p (tk_type t) s')
  end.

(** The token stream the parser buffers: calls until EOF is returned. *)
Fixpoint lex_all (fuel : nat) (i : input) (s : lexer) : option (outcome Empty_set (list token * lexer)) :=
  match fuel with
  | 0 => None
  | S fuel' =>
      match nextToken i s with
      | Ret (t, i', s') =>
          if decide (tk_type t = EOF) then Some (Ret ([t], s'))
          else match lex_all fuel' i' s' with
               | Some (Ret (ts, s'')) => Some (Ret (t :: ts, s''))
               | Some (Throw e) => Some (Throw e)
               | Some UB => Some UB
               | None => None
               end
      | Throw e => Some (Throw e)
      | UB => Some UB
      end
  end.

(** ** Concrete inputs *)

(** The raw tokens of a text cut into typed pieces (every piece delivered, the
    hidden ones included), as an input for the lexer.  Line numbers count line
    feeds; columns count from the last one. *)
Definition codes (t : string) : list Z :=
  (fun c => Z.of_nat (nat_of_ascii c)) <$> String.list_ascii_of_string t.

Fixpoint cut_raws (l : list (token_type * string)) (idx line col : Z) : list raw :=
  match l with
  | [] => []
  | (ty, txt) :: l' =>
      let len := Z.of_nat (String.length txt) in
      let lf := existsb (fun c => (c =? 10)%Z) (codes txt) in
      let line' := if lf then (line + 1)%Z else line in
      let col' := if lf then (len - 1)%Z else (col + len)%Z in
      Raw (Tok ty txt idx (idx + len - 1) line col) line' col' (idx + len)
        (concat (map (fun p => codes p.2) l')) :: cut_raws l' (idx + len) line' col'
  end.

Definition input_of (l : list (token_type * string)) : input :=
  let text := concat (map (fun p => codes p.2) l) in
  let n := Z.of_nat (length text) in
  Input (cut_raws l 0 1 0) (Raw (Tok EOF "<EOF>" n (n - 1) 0 0) 0 0 n []) 0 text.

(** The types of the tokens delivered to the parser. *)
Definition lex_types (l : list (token_type * string)) : option (list token_type) :=
  match lex_all (10 + 8 * length l) (input_of l) (init_lexer EOF) with
  | Some (Ret (ts, _)) => Some (tk_type <$> ts)
  | _ => None
  end.
Definition lf : string := String "010" EmptyString.

Arguments dedent_loop : simpl never.

(** ** Lemmas: layout tokens and depth *)

Definition is_layout (t : token_type) : bool :=
  match t with NEWLINE | INDENT | DEDENT => true | _ => false end.

(** The tokens that carry program text. *)
Definition content (ts : list token) : list token :=
  List.filter (fun t => negb (is_layout (tk_type t))) ts.

(** The block depth after a token sequence; [None] when a DEDENT closes nothing. *)
Fixpoint depth_after (d : nat) (ts : list token_type) : option nat :=
  match ts with
  | [] => Some d
  | INDENT :: ts' => depth_after (S d) ts'
  | DEDENT :: ts' => match d with 0 => None | S d' => depth_after d' ts' end
  | _ :: ts' => depth_after d ts'
  end.

Lemma depth_after_app d ts ts' :
  depth_after d (ts ++ ts') = d' ← depth_after d ts; depth_after d' ts'.
Proof.
  revert d. induction ts as [|t ts IH]; intros d; [done|].
  destruct t; simpl; try apply IH. destruct d; [done|apply IH].
Qed.

Lemma content_app ts ts' : content (ts ++ ts') = content ts ++ content ts'.
Proof. apply List.filter_app. Qed.

(** A token the generated lexer may deliver before the end. *)
Definition wf_raw (r : raw) : Prop :=
  tk_type (r_tok r) <> INDENT /\ tk_type (r_tok r) <> DEDENT /\ tk_type (r_tok r) <> EOF /\
  (0 <= tk_start (r_tok r))%Z.

(** The indentation stack while input remains: bottom 0, no negative length. *)
Definition stack_ok (l : list Z) : Prop := last l = Some 0%Z /\ Forall (fun n => 0 <= n)%Z l.

(** [s'] is [s] with [ts] queued. *)
Definition queued (s : lexer) (ts : list token) (s' : lexer) : Prop :=
  pendingTokens s' = pendingTokens s ++ ts /\ lastAppendedTokenType s' = lastAppendedTokenType s.

Lemma queued_nil s : queued s [] s.
Proof. by split; rewrite ?app_nil_r. Qed.

Lemma queued_trans s1 s2 s3 ts ts' :
  queued s1 ts s2 -> queued s2 ts' s3 -> queued s1 (ts ++ ts') s3.
Proof. intros [H1 H2] [H3 H4]. split; [by rewrite H3, H1, app_assoc|congruence]. Qed.

Lemma queued_push s t : queued s [t] (push_token t s).
Proof. done. Qed.

Lemma queued_pushes s ts : queued s ts (foldl (fun s t => push_token t s) s ts).
Proof.
  revert s. induction ts as [|t ts IH]; intros s; [apply queued_nil|].
  exact (queued_trans _ _ _ [t] ts (queued_push s t) (IH _)).
Qed.

Lemma pushes_indents s ts :
  indentLengths (foldl (fun s t => push_token t s) s ts) = indentLengths s.
Proof. revert s. induction ts as [|t ts IH]; intros s; [done|]. simpl. by rewrite IH. Qed.

Lemma pushes_errors s ts :
  errors (foldl (fun s t => push_token t s) s ts) = errors s.
Proof. revert s. induction ts as [|t ts IH]; intros s; [done|]. simpl. by rewrite IH. Qed.

Lemma stack_ok_cons n l : (0 <= n)%Z -> stack_ok l -> stack_ok (n :: l).
Proof. intros Hn [Hl Hf]. split; [by destruct l|by constructor]. Qed.

Lemma stack_ok_ne l : stack_ok l -> exists n l', l = n :: l' /\ (0 <= n)%Z.
Proof. intros [Hl Hf]. destruct l; [done|]. inversion Hf; subst. eauto. Qed.

Lemma indent_count_nonneg text count sp tab :
  (0 <= count)%Z -> (0 <= (indent_count text count sp tab).1.1)%Z.
Proof.
  revert count sp tab. induction text as [|c text IH]; intros count sp tab Hc; simpl; [done|].
  repeat case_decide; apply IH; [lia| |lia].
  pose proof (Z.mod_pos_bound count 8). lia.
Qed.

Lemma dedent_loop_cons cur r n p st :
  dedent_loop cur r (n :: p :: st) =
  let ded := mk_inserted r "DEDENT" DEDENT in
  let errs := if decide (cur <= p)%Z then [] else [indentation_error r] in
  if decide (cur < p)%Z then
    let! res := dedent_loop cur r (p :: st) in
    let '(stack', toks, errs') := res in
    Ret (stack', ded :: toks, errs ++ errs')
  else Ret (p :: st, [ded], errs).
Proof. done. Qed.

(** The dedent loop pops to a length not above the current one, one DEDENT per
    popped length, and never pops the bottom. *)
Lemma dedent_loop_ok cur r stack :
  stack_ok stack -> (0 <= cur)%Z -> (exists top, head stack = Some top /\ (cur < top)%Z) ->
  exists stack' toks errs, dedent_loop cur r stack = Ret (stack', toks, errs) /\
    stack_ok stack' /\ Forall (fun t => t = mk_inserted r "DEDENT" DEDENT) toks /\
    length stack = length toks + length stack'.
Proof.
  intros Hok Hcur. induction stack as [|n stack IH]; intros (top & Htop & Hlt); [done|].
  simpl in Htop. injection Htop as ->. destruct Hok as [Hlast Hf].
  inversion Hf as [|? ? Hn Hf']; subst. destruct stack as [|p stack'].
  { simpl in Hlast. injection Hlast as ->. lia. }
  assert (stack_ok (p :: stack')) as Hok' by (split; [exact Hlast|exact Hf']).
  rewrite dedent_loop_cons. cbv zeta. destruct (decide (cur < p)%Z) as [Hcp|Hcp].
  - destruct (IH Hok') as (st & toks & errs & E & Hst & Htoks & Hlen); [eauto|].
    rewrite E. simpl. do 3 eexists. split; [done|]. split_and!; [done|by constructor|].
    simpl in *. lia.
  - do 3 eexists. split; [done|]. split_and!; [done|by repeat constructor|done].
Qed.

Lemma dedents_depth r toks d :
  Forall (fun t => t = mk_inserted r "DEDENT" DEDENT) toks ->
  depth_after (length toks + d) (tk_type <$> toks) = Some d /\ content toks = [] /\
  Forall (fun t => tk_type t <> EOF) toks.
Proof.
  induction 1 as [|t toks -> _ (IH & Hc & He)]; [done|].
  split_and!; [exact IH|exact Hc|by constructor].
Qed.

(** What one round of the loop does to a live lexer: it queues a block of
    tokens whose depth change is the change of the indentation stack. *)
Record block (s s' : lexer) (ts : list token) : Prop := {
  blk_queued : queued s ts s';
  blk_stack : stack_ok (indentLengths s');
  blk_depth : depth_after (length (indentLengths s) - 1) (tk_type <$> ts)
              = Some (length (indentLengths s') - 1);
  blk_noeof : Forall (fun t => tk_type t <> EOF) ts
}.

Lemma block_trans s1 s2 s3 ts ts' :
  block s1 s2 ts -> block s2 s3 ts' -> block s1 s3 (ts ++ ts').
Proof.
  intros [Q1 S1 D1 N1] [Q2 S2 D2 N2]. constructor; [by eapply queued_trans|done| |by apply Forall_app].
  rewrite fmap_app, depth_after_app, D1. exact D2.
Qed.

(** An update of other fields is an empty block. *)
Lemma block_refl s s' :
  pendingTokens s' = pendingTokens s -> lastAppendedTokenType s' = lastAppendedTokenType s ->
  indentLengths s' = indentLengths s -> stack_ok (indentLengths s) -> block s s' [].
Proof.
  intros Hp Hl Hi Hok. constructor; [|by rewrite Hi|by rewrite Hi|constructor].
  split; [by rewrite Hp, app_nil_r|done].
Qed.

(** Queueing one token that is no INDENT, DEDENT or EOF. *)
Lemma block_push s t :
  stack_ok (indentLengths s) -> tk_type t <> INDENT -> tk_type t <> DEDENT -> tk_type t <> EOF ->
  block s (push_token t s) [t].
Proof.
  intros Hok Hi Hd He. constructor; [apply queued_push|done| |by repeat constructor].
  simpl. by destruct (tk_type t).
Qed.

(** The state a round ends in, whichever way. *)
Definition flow_state (f : flow) : lexer := match f with Break s | Continue s => s end.
Definition breaks (f : flow) : bool := match f with Break _ => true | Continue _ => false end.

Lemma insertIndentDedent_block r s :
  stack_ok (indentLengths s) ->
  exists s' ts, insertIndentDedentTokens r s = Ret s' /\ block s s' ts /\ content ts = [] /\
    lambdaSuites s' = lambdaSuites s /\ openers s' = openers s.
Proof.
  intros Hok. unfold insertIndentDedentTokens, getIndentationLength.
  pose proof (indent_count_nonneg (String.list_ascii_of_string (tk_text (r_tok r))) 0
    (wasSpaceIndentation s) (wasTabIndentation s) ltac:(lia)) as Hcur.
  destruct (indent_count _ _ _ _) as [[cur sp] tab]. simpl in *.
  destruct (stack_ok_ne _ Hok) as (n & l & Hl & Hn). rewrite Hl.
  case_decide as H1; [|case_decide as H2].
  - eexists _, [mk_inserted r "INDENT" INDENT]. split; [done|]. split; [|done].
    constructor; [done| | |by repeat constructor].
    + simpl. rewrite <- Hl. by apply stack_ok_cons.
    + simpl. rewrite Hl. simpl. by rewrite Nat.sub_0_r.
  - rewrite Hl in Hok.
    destruct (dedent_loop_ok cur r (n :: l) Hok Hcur) as (st & toks & errs & E & Hst & Ht & Hlen);
      [simpl; eauto|]. rewrite E. simpl.
    destruct (dedents_depth r toks (length st - 1) Ht) as (Hd & Hc & He).
    eexists _, toks. split; [done|]. split; [|split; [exact Hc|]].
    + constructor; simpl; [| done| |done].
      * destruct (queued_pushes (set_ws sp tab s) toks) as [Q1 Q2]. by split.
      * rewrite Hl. assert (0 < length st) by (destruct Hst as [Hst _]; destruct st; [done|simpl; lia]).
        rewrite <- Hd. f_equal. simpl in *. lia.
    + assert (forall s0, lambdaSuites (foldl (fun s t => push_token t s) s0 toks) = lambdaSuites s0 /\
        openers (foldl (fun s t => push_token t s) s0 toks) = openers s0) as Hf
        by (clear; induction toks as [|t toks IH]; intros s0; [done|apply (IH (push_token t s0))]).
      apply (Hf (set_ws sp tab s)).
  - eexists _, []. split; [done|]. split; [|done].
    apply block_refl; simpl; done || by rewrite Hl in *.
Qed.

(** What a round does for the raw token [r]. *)
Definition round_ok (r : raw) (s : lexer) (f : flow) : Prop :=
  exists ts, block s (flow_state f) ts /\
    content ts = content [r_tok r] /\ (breaks f = true -> ts <> []).

Lemma round_push r s s0 :
  wf_raw r -> stack_ok (indentLengths s) ->
  pendingTokens s0 = pendingTokens s -> lastAppendedTokenType s0 = lastAppendedTokenType s ->
  indentLengths s0 = indentLengths s ->
  round_ok r s (Break (push_token (r_tok r) s0)).
Proof.
  intros (Hi & Hd & He & _) Hok Hp Hl Hs. exists ([] ++ [r_tok r]). split; [|done].
  eapply block_trans; [by apply block_refl|]. apply block_push; [by rewrite Hs|done..].
Qed.

Lemma round_skip r s s0 :
  tk_type (r_tok r) = NEWLINE -> stack_ok (indentLengths s) ->
  pendingTokens s0 = pendingTokens s -> lastAppendedTokenType s0 = lastAppendedTokenType s ->
  indentLengths s0 = indentLengths s -> round_ok r s (Continue s0).
Proof.
  intros Hr Hok Hp Hl Hs. exists []. split; [by apply block_refl|]. split; [|done].
  unfold content. simpl. by rewrite Hr.
Qed.

Section newline.
Context (r : raw) (Hr : tk_type (r_tok r) = NEWLINE) (Hwf : wf_raw r).

Lemma separator_round s s0 :
  stack_ok (indentLengths s) -> pendingTokens s0 = pendingTokens s ->
  lastAppendedTokenType s0 = lastAppendedTokenType s -> indentLengths s0 = indentLengths s ->
  round_ok r s (separator_newline r s0).
Proof.
  intros. unfold separator_newline. destruct (blank_ahead r); [by apply round_skip|by apply round_push].
Qed.

Lemma emit_round s s0 :
  stack_ok (indentLengths s) -> pendingTokens s0 = pendingTokens s ->
  lastAppendedTokenType s0 = lastAppendedTokenType s -> indentLengths s0 = indentLengths s ->
  exists f, emit_newline r s0 = Ret f /\ round_ok r s f.
Proof.
  intros Hok Hp Hl Hi. unfold emit_newline.
  destruct (blank_ahead r); [eexists; split; [done|by apply round_skip]|].
  destruct (round_push r s s0 Hwf Hok Hp Hl Hi) as (ts0 & B0 & C0 & _). simpl in B0.
  destruct (insertIndentDedent_block r (push_token (r_tok r) s0)) as (s' & ts & E & B & C & _);
    [apply B0|]. rewrite E. simpl.
  pose proof (block_trans _ _ _ _ _ B0 B) as B1.
  assert (content (ts0 ++ ts) = content [r_tok r]) as C1 by (by rewrite content_app, C, app_nil_r).
  assert (ts0 ++ ts <> []) as Hne.
  { destruct (blk_queued _ _ _ B0) as [Q _]. simpl in Q. rewrite Hp in Q.
    apply app_inv_head in Q. by subst ts0. }
  destruct (lambdaSuites s') as [|su sus]; [eexists; split; [done|by exists (ts0 ++ ts)]|].
  destruct (stack_ok_ne _ (blk_stack _ _ _ B)) as (top & st & Hst & _). rewrite Hst.
  eexists; split; [done|].
  assert (block s (set_suites (drop_ended_suites top (su :: sus)) s') (ts0 ++ ts)) as B2.
  { rewrite <- (app_nil_r (ts0 ++ ts)). eapply block_trans; [exact B1|].
    apply block_refl; [done..|apply B]. }
  case_match; [|by exists (ts0 ++ ts)].
  exists ((ts0 ++ ts) ++ [mk_inserted r "NEWLINE" NEWLINE]). split_and!.
  - eapply block_trans; [exact B2|]. apply block_push; [apply B2|done..].
  - by rewrite content_app, C1, app_nil_r.
  - intros _ Hnil. by apply app_nil in Hnil as [_ ?].
Qed.

Lemma newline_round s :
  stack_ok (indentLengths s) -> exists f, on_newline r s = Ret f /\ round_ok r s f.
Proof.
  intros Hok. unfold on_newline. simpl.
  destruct (stack_ok_ne _ Hok) as (top & st & Hst & _). rewrite Hst.
  repeat case_match; try discriminate;
    try (eexists; split; [reflexivity|]);
    first [ by apply emit_round | by apply separator_round | by apply round_skip
          | by apply round_push | congruence ].
Qed.
End newline.

Lemma leading_block first type start s :
  (0 <= start)%Z -> stack_ok (indentLengths s) ->
  exists ts, block s (insertLeadingTokens first type start s) ts /\ content ts = [] /\
    (type = NEWLINE \/ type = EOF -> insertLeadingTokens first type start s = s).
Proof.
  intros Hst Hok. unfold insertLeadingTokens. case_match eqn:E.
  - exists [Tok NEWLINE "NEWLINE" 0 (start - 1) 1 0;
            Tok INDENT "INDENT" start (start - 1) 1 start].
    split; [|split; [done|]].
    + constructor; simpl; [|by apply stack_ok_cons| |by repeat constructor].
      * split; [|done]. simpl. by rewrite <- app_assoc.
      * destruct (stack_ok_ne _ Hok) as (n & l & -> & _). simpl. by rewrite Nat.sub_0_r.
    + intros Ht. apply andb_prop in E as [_ E]. by rewrite bool_decide_true in E.
  - exists []. split; [by apply block_refl|done].
Qed.

(** Every raw token is handled without undefined behaviour. *)
Lemma token_round first r s :
  wf_raw r -> stack_ok (indentLengths s) ->
  exists f, on_token first r s = Ret f /\ round_ok r s f /\
    (breaks f = false -> tk_type (r_tok r) = NEWLINE).
Proof.
  intros Hwf Hok. pose proof Hwf as (Hi & Hd & He & Hst).
  destruct (leading_block first (tk_type (r_tok r)) _ s Hst Hok) as (ts0 & B0 & C0 & Hid).
  unfold on_token. set (s0 := insertLeadingTokens _ _ _ s) in *.
  set (s1 := if decide (_ \/ _) then _ else _).
  assert (indentLengths s1 = indentLengths s0 /\ pendingTokens s1 = pendingTokens s0 /\
    lastAppendedTokenType s1 = lastAppendedTokenType s0) as (Hs1 & Hs2 & Hs3)
    by (unfold s1; by case_decide).
  pose proof (blk_stack _ _ _ B0) as Hok0.
  assert (forall f, round_ok r s0 f -> round_ok r s f) as Hlift.
  { intros f (ts & B & C & N). exists (ts0 ++ ts). split_and!.
    - by eapply block_trans.
    - by rewrite content_app, C0, C.
    - intros Hb%N Hnil. by apply app_nil in Hnil as [_ ?]. }
  destruct (tk_type (r_tok r)) eqn:Ht; try done.
  1: { destruct (newline_round r Ht Hwf s1) as (f & Hf & Hr); [by rewrite Hs1|].
       exists f. split; [done|]. split; [|done]. apply Hlift.
       destruct Hr as (ts & B & C & N). exists ([] ++ ts). split_and!; [|done|done].
       eapply block_trans; [by apply block_refl|exact B]. }
  all: try (eexists; split; [reflexivity|]; split; [|done]; apply Hlift; apply round_push;
    [done|done|..]; unfold on_open_paren, on_close_paren, on_other; simpl;
    repeat case_decide; done).
  unfold on_colon. case_decide; [|eexists; split; [reflexivity|]; split; [|done]].
  - destruct (stack_ok_ne _ Hok0) as (n & l & Hl & _). rewrite Hs1, Hl.
    eexists; split; [reflexivity|]; split; [|done]. by apply Hlift, round_push.
  - by apply Hlift, round_push.
Qed.

(** EOF closes every open block and is queued last. *)
Lemma trailing_dedents_ok r stack s :
  exists ts, queued s ts (trailing_dedents r stack s) /\
    Forall (fun t => t = mk_inserted r "DEDENT" DEDENT) ts /\ length ts = length stack - 1.
Proof.
  revert s. induction stack as [|n stack IH]; intros s; [exists []; split; [apply queued_nil|done]|].
  destruct stack as [|p stack]; [exists []; split; [apply queued_nil|done]|].
  destruct (IH (insertToken r "DEDENT" DEDENT s)) as (ts & Hq & Ht & Hl).
  exists (mk_inserted r "DEDENT" DEDENT :: ts). split_and!; [|by constructor|simpl in *; lia].
  exact (queued_trans _ _ _ [_] _ (queued_push _ _) Hq).
Qed.

Lemma eof_round first r s :
  tk_type (r_tok r) = EOF -> stack_ok (indentLengths s) ->
  exists s' ts, on_token first r s = Ret (Break s') /\ queued s (ts ++ [r_tok r]) s' /\
    indentLengths s' = [] /\ content ts = [] /\
    depth_after (length (indentLengths s) - 1) (tk_type <$> ts) = Some 0 /\
    Forall (fun t => tk_type t <> EOF) ts.
Proof.
  intros Hr Hok. unfold on_token. rewrite Hr. unfold insertLeadingTokens.
  rewrite bool_decide_true by tauto. rewrite andb_false_r. simpl.
  assert (on_eof r s =
    push_token (r_tok r) (checkSpaceAndTabIndentation (insertTrailingTokens r s))) as ->.
  { unfold on_eof. by destruct (stack_ok_ne _ Hok) as (n & l & -> & _). }
  unfold insertTrailingTokens.
  set (s1 := if bool_decide _ then s else _).
  assert (exists ts0, queued s ts0 s1 /\ (ts0 = [] \/ ts0 = [mk_inserted r "NEWLINE" NEWLINE]) /\
    indentLengths s1 = indentLengths s) as (ts0 & Q0 & Hts0 & Hi).
  { unfold s1. case_bool_decide; [exists []|exists [mk_inserted r "NEWLINE" NEWLINE]].
    - split; [apply queued_nil|by auto].
    - split; [apply queued_push|by auto]. }
  destruct (trailing_dedents_ok r (indentLengths s1) s1) as (ts & Q & Hd & Hlen).
  destruct (dedents_depth r ts 0 Hd) as (Hdep & Hc & He).
  do 2 eexists. split; [done|].
  assert (queued s (ts0 ++ ts) (checkSpaceAndTabIndentation
    (set_indents [] (trailing_dedents r (indentLengths s1) s1)))) as Q1.
  { pose proof (queued_trans _ _ _ _ _ Q0 Q) as [Q1 Q2].
    unfold checkSpaceAndTabIndentation. by case_match. }
  split; [exact (queued_trans _ _ _ _ [_] Q1 (queued_push _ _))|].
  split_and!.
  - unfold checkSpaceAndTabIndentation. by case_match.
  - rewrite content_app, Hc. by destruct Hts0 as [-> | ->].
  - rewrite fmap_app, depth_after_app, <- Hi, <- Hlen, <- Hdep, Nat.add_0_r.
    by destruct Hts0 as [-> | ->].
  - apply Forall_app. split; [|done]. by destruct Hts0 as [-> | ->]; repeat constructor.
Qed.

(** The loop stops: either it queues a nonempty block of a live lexer having
    consumed raw tokens, or it reaches the end of the input. *)
Lemma next_loop_ok first raws eof idx la s :
  Forall wf_raw raws -> tk_type (r_tok eof) = EOF -> stack_ok (indentLengths s) ->
  exists i' s' ts, next_loop first raws eof idx la s = Ret (i', s') /\ in_eof i' = eof /\
  ((exists used, raws = used ++ in_raws i' /\ used <> [] /\ block s s' ts /\ ts <> [] /\
      content ts = content (r_tok <$> used)) \/
   (in_raws i' = [] /\ indentLengths s' = [] /\ queued s (ts ++ [r_tok eof]) s' /\
      depth_after (length (indentLengths s) - 1) (tk_type <$> ts) = Some 0 /\
      Forall (fun t => tk_type t <> EOF) ts /\ content ts = content (r_tok <$> raws))).
Proof.
  intros Hraws Heof. revert idx la s.
  induction Hraws as [|r raws Hr Hraws IH]; intros idx la s Hok; simpl.
  - destruct (eof_round first eof s Heof Hok) as (s' & ts & E & Q & Hi & Hc & Hd & Hn).
    rewrite E. simpl. do 3 eexists. split; [done|]. split; [done|]. right. by split_and!.
  - destruct (token_round first r s Hr Hok) as (f & E & (ts0 & B0 & C0 & N0) & _).
    rewrite E. destruct f as [s1|s1]; simpl in *.
    + do 3 eexists. split; [done|]. split; [done|]. left. exists [r]. split_and!; eauto.
    + destruct (IH (r_index r) (r_la r) s1) as (i' & s' & ts & E' & He & H); [apply B0|].
      rewrite E'. exists i', s', (ts0 ++ ts). split; [done|]. split; [done|].
      destruct H as [(used & Hu & Hne & B & Hts & C)|(Hr' & Hi & Q & D & N & C)].
      * left. exists (r :: used). split_and!; [by rewrite Hu|done|by eapply block_trans| |].
        { intros Hnil. by apply app_nil in Hnil as [_ ?]. }
        rewrite content_app, C0, C. symmetry. apply (content_app [r_tok r]).
      * right. split_and!; [done|done| | | |].
        { rewrite <- app_assoc. exact (queued_trans _ _ _ _ _ (blk_queued _ _ _ B0) Q). }
        { by rewrite fmap_app, depth_after_app, (blk_depth _ _ _ B0). }
        { apply Forall_app. split; [apply B0|done]. }
        rewrite content_app, C0, C. symmetry. apply (content_app [r_tok r]).
Qed.

(** After EOF was queued, calls only drain the queue. *)
Lemma drain_next eof idx la t p lst s :
  tk_type (r_tok eof) = EOF -> indentLengths s = [] ->
  nextToken (Input [] eof idx la) (set_pending (t :: p) lst s) =
  Ret (t, Input [] eof idx la, set_pending p (tk_type t) s).
Proof.
  intros Heof Hi. unfold nextToken, next_loop, on_token, insertLeadingTokens. simpl. rewrite Heof.
  rewrite bool_decide_true by tauto. rewrite andb_false_r. simpl. unfold on_eof. simpl.
  by rewrite Hi.
Qed.

Lemma lex_all_step n i s :
  lex_all (S n) i s =
  match nextToken i s with
  | Ret (t, i', s') =>
      if decide (tk_type t = EOF) then Some (Ret ([t], s'))
      else match lex_all n i' s' with
           | Some (Ret (ts, s'')) => Some (Ret (t :: ts, s''))
           | Some (Throw e) => Some (Throw e)
           | Some UB => Some UB
           | None => None
           end
  | Throw e => Some (Throw e)
  | UB => Some UB
  end.
Proof. done. Qed.

Lemma drain eof idx la p lst s :
  tk_type (r_tok eof) = EOF -> indentLengths s = [] ->
  Forall (fun t => tk_type t <> EOF) p ->
  exists s', (forall m, S (length p) <= m ->
    lex_all m (Input [] eof idx la) (set_pending (p ++ [r_tok eof]) lst s)
    = Some (Ret (p ++ [r_tok eof], s'))) /\ indentLengths s' = [].
Proof.
  intros Heof Hi Hp. revert lst. induction Hp as [|t p Ht Hp IH]; intros lst.
  - exists (set_pending [] (tk_type (r_tok eof)) s).
    split; [|exact Hi]. intros [|m] Hm; [simpl in Hm; lia|].
    rewrite lex_all_step. simpl app. rewrite drain_next by done. by rewrite decide_True.
  - destruct (IH (tk_type t)) as (s' & E & Hs'). exists s'. split; [|done].
    intros [|m] Hm; simpl in Hm; [lia|].
    rewrite lex_all_step. simpl app. rewrite drain_next by done. rewrite decide_False by done.
    by rewrite E by lia.
Qed.

(** A call whose loop ends in [s1] with queue [t :: p] returns [t]. *)
Lemma lex_all_pop i s i' s1 t p m :
  next_loop (at_very_first i) (in_raws i) (in_eof i) (in_index i) (in_la i) s = Ret (i', s1) ->
  pendingTokens s1 = t :: p ->
  lex_all (S m) i s =
  if decide (tk_type t = EOF) then Some (Ret ([t], set_pending p (tk_type t) s1))
  else match lex_all m i' (set_pending p (tk_type t) s1) with
       | Some (Ret (ts, s'')) => Some (Ret (t :: ts, s''))
       | Some (Throw e) => Some (Throw e)
       | Some UB => Some UB
       | None => None
       end.
Proof. intros E Hp. rewrite lex_all_step. unfold nextToken. rewrite E. simpl. by rewrite Hp. Qed.

(** A lexer in this state delivers its queue, then [ts], then EOF. *)
Definition delivers (i : input) (s : lexer) (ts : list token) : Prop :=
  exists n s', (forall m, n <= m ->
      lex_all m i s = Some (Ret (pendingTokens s ++ ts ++ [r_tok (in_eof i)], s'))) /\
    indentLengths s' = [].

Lemma delivers_at_eof i s i' s1 ts :
  next_loop (at_very_first i) (in_raws i) (in_eof i) (in_index i) (in_la i) s = Ret (i', s1) ->
  in_raws i' = [] -> in_eof i' = in_eof i -> tk_type (r_tok (in_eof i)) = EOF ->
  indentLengths s1 = [] -> pendingTokens s1 = pendingTokens s ++ ts ++ [r_tok (in_eof i)] ->
  Forall (fun t => tk_type t <> EOF) (pendingTokens s ++ ts) -> delivers i s ts.
Proof.
  intros E Hr He Heof Hi Hq HF. destruct i' as [raws' eof' idx' la']. simpl in *. subst raws' eof'.
  unfold delivers. rewrite app_assoc in Hq |- *.
  destruct (pendingTokens s ++ ts) as [|t p] eqn:Ep.
  - exists 1, (set_pending [] (tk_type (r_tok (in_eof i))) s1). split; [|exact Hi]. intros [|m] Hm; [lia|].
    rewrite (lex_all_pop _ _ _ _ _ _ _ E Hq). rewrite decide_True by done. done.
  - inversion HF as [|? ? Ht Hpne]; subst.
    destruct (drain (in_eof i) idx' la' p (tk_type t) s1 Heof Hi Hpne) as (s' & Ed & Hs').
    exists (S (S (length p))), s'. split; [|done]. intros [|m] Hm; [lia|].
    rewrite (lex_all_pop _ _ _ _ _ _ _ E Hq). rewrite decide_False by done.
    by rewrite Ed by lia.
Qed.

Lemma lex_live raws eof idx la s :
  Forall wf_raw raws -> tk_type (r_tok eof) = EOF -> stack_ok (indentLengths s) ->
  Forall (fun t => tk_type t <> EOF) (pendingTokens s) ->
  exists ts, delivers (Input raws eof idx la) s ts /\
    depth_after (length (indentLengths s) - 1) (tk_type <$> ts) = Some 0 /\
    Forall (fun t => tk_type t <> EOF) ts /\ content ts = content (r_tok <$> raws).
Proof.
  remember (length raws) as k. revert raws idx la s Heqk.
  induction (lt_wf k) as [k _ IH]. intros raws idx la s -> Hraws Heof Hok Hpend.
  destruct (next_loop_ok (at_very_first (Input raws eof idx la)) raws eof idx la s Hraws Heof Hok)
    as (i' & s1 & ts1 & E & He & [(used & Hu & Hne & B & Hts & C)|(Hr & Hi & [Q1 Q2] & D & N & C)]).
  - destruct (blk_queued _ _ _ B) as [Q _]. destruct i' as [raws' eof' idx' la']. simpl in *. subst eof'.
    pose proof (Forall_app_2 _ _ _ Hpend (blk_noeof _ _ _ B)) as HF. rewrite <- Q in HF.
    destruct (pendingTokens s1) as [|t p] eqn:Hp;
      [symmetry in Q; by apply app_nil in Q as [_ ?]|]. inversion HF as [|? ? Ht Hpne]; subst.
    apply Forall_app in Hraws as [_ Hraws].
    destruct (IH (length raws')) with (raws := raws') (idx := idx') (la := la')
      (s := set_pending p (tk_type t) s1) as (ts & (n & s' & Hn & Hs') & D & N & C'); try done.
    { rewrite length_app. destruct used; [done|simpl; lia]. }
    { apply B. }
    exists (ts1 ++ ts). split_and!; [|by rewrite fmap_app, depth_after_app, (blk_depth _ _ _ B)
      |apply Forall_app; split; [apply B|done]|by rewrite content_app, C, C', fmap_app, content_app].
    exists (S n), s'. split; [|done]. intros [|m] Hm; [lia|].
    rewrite (lex_all_pop (Input (used ++ raws') eof idx la) _ _ _ _ _ m E Hp).
    rewrite decide_False by done. rewrite Hn by lia. simpl.
    rewrite <- (app_assoc ts1 ts), (app_assoc (pendingTokens s)), <- Q. done.
  - exists ts1. split; [|done]. eapply delivers_at_eof; try done.
    by apply Forall_app_2.
Qed.

(** ** Results *)

(** C3. Lexing terminates on every input of the generated lexer, without
    undefined behaviour, and delivers a well-bracketed stream: exactly one EOF,
    at the end; every DEDENT closes an open INDENT and every INDENT is closed;
    and, layout tokens aside, exactly the tokens of the generated lexer in
    order (hidden-channel ones included). *)
Theorem lex_balanced (garbage : token_type) (i : input)
    (Hraws : Forall wf_raw (in_raws i)) (Heof : tk_type (r_tok (in_eof i)) = EOF) :
  exists n body s', (forall m, n <= m ->
      lex_all m i (init_lexer garbage) = Some (Ret (body ++ [r_tok (in_eof i)], s'))) /\
    Forall (fun t => tk_type t <> EOF) body /\
    depth_after 0 (tk_type <$> body) = Some 0 /\
    content body = content (r_tok <$> in_raws i) /\
    indentLengths s' = [].
Proof.
  destruct i as [raws eof idx la].
  destruct (lex_live raws eof idx la (init_lexer garbage) Hraws Heof) as (ts & Hd & D & N & C).
  - split; [done|]. by repeat constructor.
  - constructor.
  - destruct Hd as (n & s' & Hn & Hs'). by exists n, ts, s'.
Qed.

Lemma lex_balanced_witness :
  exists n body s', (forall m, n <= m ->
      lex_all m (input_of [(IDENTIFIER, "b"); (COLON, ":"); (NEWLINE, lf +:+ " "); (IDENTIFIER, "c")])
        (init_lexer OPEN_BRACE)
      = Some (Ret (body ++ [Tok EOF "<EOF>" 5 4 0 0], s'))) /\
    Forall (fun t => tk_type t <> EOF) body /\
    depth_after 0 (tk_type <$> body) = Some 0 /\
    content body = [Tok IDENTIFIER "b" 0 0 1 0; Tok COLON ":" 1 1 1 1; Tok IDENTIFIER "c" 4 4 2 1] /\
    indentLengths s' = [].
Proof.
  apply (lex_balanced OPEN_BRACE
    (input_of [(IDENTIFIER, "b"); (COLON, ":"); (NEWLINE, lf +:+ " "); (IDENTIFIER, "c")])).
  - repeat constructor; simpl; done || lia.
  - done.
Defined.

(** *** The off-side rule *)

(** On a strictly decreasing stack the dedent loop pops exactly the lengths
    above the current one and complains iff the current one was not open. *)
Lemma dedent_loop_spec cur r stack :
  StronglySorted Z.gt stack -> stack_ok stack -> (0 <= cur)%Z ->
  (exists top, head stack = Some top /\ (cur < top)%Z) ->
  dedent_loop cur r stack =
  Ret (filter (fun n => n <= cur)%Z stack,
       replicate (length (filter (fun n => cur < n)%Z stack)) (mk_inserted r "DEDENT" DEDENT),
       if decide (cur ∈ stack) then [] else [indentation_error r]).
Proof.
  intros Hs Hok Hcur. induction stack as [|n stack IH]; intros (top & Htop & Hlt); [done|].
  simpl in Htop. injection Htop as ->. destruct Hok as [Hlast Hf].
  apply StronglySorted_inv in Hs as [Hs Hall]. inversion Hf as [|? ? Hn Hf']; subst.
  destruct stack as [|p stack']; [simpl in Hlast; injection Hlast as ->; lia|].
  assert (stack_ok (p :: stack')) as Hok' by (split; [exact Hlast|exact Hf']).
  rewrite dedent_loop_cons. cbv zeta.
  rewrite (filter_cons_False _ top) by lia. rewrite (filter_cons_True _ top) by lia.
  destruct (decide (cur < p)%Z) as [Hcp|Hcp].
  - rewrite decide_True by lia. rewrite IH by (simpl; eauto). simpl. f_equal. f_equal.
    assert (cur ∈ top :: p :: stack' <-> cur ∈ p :: stack') as Heq
      by (rewrite (elem_of_cons _ cur top); split; [intros [->|?]; [lia|done]|by right]).
    destruct (decide (cur ∈ p :: stack')) as [Hin|Hin].
    + by rewrite decide_True by tauto.
    + by rewrite decide_False by tauto.
  - assert (Forall (fun n => n <= cur)%Z (p :: stack')) as Hle.
    { apply StronglySorted_inv in Hs as [_ Hp]. constructor; [lia|].
      eapply Forall_impl; [exact Hp|]. intros; lia. }
    assert (filter (fun n => n <= cur)%Z (p :: stack') = p :: stack') as ->
      by (by apply filter_all).
    assert (filter (fun n => cur < n)%Z (p :: stack') = []) as ->.
    { apply filter_none. eapply Forall_impl; [exact Hle|]. simpl. intros; lia. }
    simpl. f_equal. f_equal. rewrite Forall_forall in Hle.
    assert (cur ∈ top :: p :: stack' <-> cur = p) as Heq.
    { rewrite !elem_of_cons. split; [|by auto]. intros [->|[?|Hin]]; [lia|done|].
      apply StronglySorted_inv in Hs as [_ Hp]. rewrite List.Forall_forall in Hp.
      specialize (Hp cur). rewrite <- list_elem_of_In in Hp. specialize (Hp Hin). lia. }
    destruct (decide (cur = p)) as [E|E].
    + rewrite !decide_True by (tauto || lia). done.
    + rewrite !decide_False by (tauto || lia). done.
Qed.

(** C32. The off-side rule.  While the indentation stack is strictly decreasing
    down to 0, the indentation [cur] of a new logical line decides the layout
    tokens: deeper opens one block; equal changes nothing; shallower closes
    exactly the open blocks deeper than [cur], one DEDENT each, and reports an
    error iff [cur] is not the length of an open block.  The stack stays
    strictly decreasing. *)
Theorem offside_rule (r : raw) (s : lexer)
    (Hs : StronglySorted Z.gt (indentLengths s)) (Hok : stack_ok (indentLengths s)) :
  let cur := (getIndentationLength (tk_text (r_tok r)) s).1 in
  let top := default 0%Z (head (indentLengths s)) in
  exists s', insertIndentDedentTokens r s = Ret s' /\
    indentLengths s' =
      (if decide (top < cur)%Z then cur :: indentLengths s
       else filter (fun n => n <= cur)%Z (indentLengths s)) /\
    pendingTokens s' = pendingTokens s ++
      (if decide (top < cur)%Z then [mk_inserted r "INDENT" INDENT]
       else replicate (length (filter (fun n => cur < n)%Z (indentLengths s)))
              (mk_inserted r "DEDENT" DEDENT)) /\
    errors s' = errors s ++
      (if decide (top < cur \/ cur ∈ indentLengths s)%Z then [] else [indentation_error r]) /\
    StronglySorted Z.gt (indentLengths s').
Proof.
  unfold insertIndentDedentTokens, getIndentationLength.
  pose proof (indent_count_nonneg (String.list_ascii_of_string (tk_text (r_tok r))) 0
    (wasSpaceIndentation s) (wasTabIndentation s) ltac:(lia)) as Hcur.
  destruct (indent_count _ _ _ _) as [[cur sp] tab]. simpl in *.
  destruct (stack_ok_ne _ Hok) as (n & l & Hl & Hn). rewrite Hl in *. simpl.
  assert (Forall (fun m => m <= n)%Z (n :: l)) as Htop.
  { apply StronglySorted_inv in Hs as [_ Hp]. constructor; [lia|].
    eapply Forall_impl; [exact Hp|]. intros; lia. }
  assert (StronglySorted Z.gt (filter (fun m => m <= cur)%Z (n :: l))) as Hsf by (by apply StronglySorted_filter).
  destruct (decide (n < cur)%Z) as [Hlt|Hge]; [|destruct (decide (cur < n)%Z) as [Hlt|Hge']].
  - eexists. split; [done|]. simpl. rewrite decide_True, app_nil_r by tauto. split_and!; [done..|].
    constructor; [done|]. eapply Forall_impl; [exact Htop|]. intros; simpl in *; lia.
  - rewrite (dedent_loop_spec cur r (n :: l) Hs Hok Hcur) by eauto. simpl.
    eexists. split; [done|]. simpl indentLengths.
    destruct (queued_pushes (set_ws sp tab s)
      (replicate (length (filter (fun m => cur < m)%Z (n :: l))) (mk_inserted r "DEDENT" DEDENT)))
      as [Q _]. split_and!; [done|exact Q| |exact Hsf].
    simpl. rewrite pushes_errors. simpl. f_equal.
    destruct (decide (cur ∈ n :: l)) as [Hin|Hin];
      [by rewrite decide_True by tauto|by rewrite decide_False by (intros [?|?]; [lia|done])].
  - assert (cur = n) as -> by lia. eexists. split; [done|]. simpl.
    rewrite decide_True by set_solver. rewrite (filter_all _ (n :: l)) by done.
    rewrite (filter_none _ (n :: l)).
    + simpl. rewrite !app_nil_r. split_and!; try done. by rewrite Hl.
    + eapply Forall_impl; [exact Htop|]. simpl. intros; lia.
Qed.


Lemma offside_rule_witness :
  let r := Raw (Tok NEWLINE (lf +:+ "  ") 9 11 3 4) 4 2 12 [] in
  let s := set_indents [8; 4; 2; 0]%Z (init_lexer EOF) in
  StronglySorted Z.gt (indentLengths s) /\ stack_ok (indentLengths s) /\
  exists s', insertIndentDedentTokens r s = Ret s' /\
    indentLengths s' = [2; 0]%Z /\
    pendingTokens s' = [mk_inserted r "DEDENT" DEDENT; mk_inserted r "DEDENT" DEDENT] /\
    errors s' = [] /\ StronglySorted Z.gt (indentLengths s').
Proof.
  intros r s.
  assert (StronglySorted Z.gt (indentLengths s)) as Hs by (repeat constructor; lia).
  assert (stack_ok (indentLengths s)) as Hok by (split; [done|repeat constructor; lia]).
  split; [exact Hs|]. split; [exact Hok|]. exact (offside_rule r s Hs Hok).
Defined.

(** *** Behaviours of note *)

(** The trailing NEWLINE is decided by the token the previous call returned,
    not by the last token queued: once a DEDENT has put the queue one token
    behind, a last statement of one token without a line feed ends without the
    NEWLINE its grammar rule needs. *)
Lemma missing_trailing_newline :
  lex_types [(IDENTIFIER, "b"); (COLON, ":"); (NEWLINE, lf +:+ " "); (IDENTIFIER, "c");
             (NEWLINE, lf); (IDENTIFIER, "d")]
  = Some [IDENTIFIER; COLON; NEWLINE; INDENT; IDENTIFIER; NEWLINE; DEDENT; IDENTIFIER; EOF].
Proof. reflexivity. Qed.

(** The first visible token test sees hidden tokens: an input whose first line
    is an indented comment starts with NEWLINE and INDENT. *)
Lemma indented_first_comment :
  lex_types [(SKIP_, "  "); (SKIP_, "# c"); (NEWLINE, lf); (IDENTIFIER, "d"); (NEWLINE, lf)]
  = Some [NEWLINE; INDENT; SKIP_; SKIP_; NEWLINE; IDENTIFIER; NEWLINE; DEDENT; EOF].
Proof. reflexivity. Qed.

(** A space after the colon of a lambda header makes its suite a one-liner:
    [f(func(): <newline>  y <newline>)] loses the INDENT and DEDENT it has
    without the space. *)
Lemma lambda_colon_space :
  let call sp := [(IDENTIFIER, "f"); (OPEN_PAREN, "("); (FUNC, "func"); (OPEN_PAREN, "(");
                  (CLOSE_PAREN, ")"); (COLON, ":")] ++ sp ++
                 [(NEWLINE, lf +:+ "  "); (IDENTIFIER, "y"); (NEWLINE, lf); (CLOSE_PAREN, ")");
                  (NEWLINE, lf)] in
  let layout l := List.filter is_layout <$> lex_types l in
  layout (call []) = Some [NEWLINE; INDENT; NEWLINE; DEDENT; NEWLINE] /\
  layout (call [(SKIP_, " ")]) = Some [NEWLINE; NEWLINE; NEWLINE].
Proof. split; reflexivity. Qed.
