(* ===== verification/Mvcc.v ===== *)
(** * Multi-version snapshots of the object heap

    The MVCC layer of [src/compiler/Object.cpp] and [src/compiler/ObjControl.h]:
    version chains, the global write epoch, frozen snapshots, the lazy
    materialisation of a frozen object's children, and the release and trimming
    of versions.

    An object is named by its allocation ([nat], never reused), its payload is
    the list of the values in its slots (list elements, dict entries or property
    slots), and the copy-on-write sharing of payload storage is the value copy it
    implements.  [cow] records where the owning thread is inside a mutation
  method: the [CowGuard] brackets of lists, dicts and object instances are the
  steps [mut_begin], [mut_write] and [mut_end] (or [mut_abort], when the method
  throws after its [saveVersion]), so that a reader on another thread can run
  between them.  The mutators of vectors, matrices, tensors and actor instances
  take no guard; they are [bare_begin], [bare_write] and [bare_end], and an
  execution runs the three as one step ([bare_set]): with a reader between
  them isolation fails ([bare_mutation_breaks_isolation]).
  Reading a child of a frozen object is two steps: the look-up of [cloneMap]
  and of the version chain, which takes no lock, and the clone.  One thread at
  a time reads a given snapshot ([cloneMap] has no lock).
  Taking a snapshot is the sequence [snap_clone] .. [snap_count] of the source's
  atomic steps; an execution runs it as one step ([createFrozenSnapshot]): with
  a mutation between drawing the epoch and publishing it isolation fails
  ([mutation_inside_snapshot]).
  64-bit epochs are unbounded here: they are counters that only increase. *)

From S2P Require Import Prelude.
Local Open Scope Z_scope.

(** ** Data *)

Inductive val : Type :=
| VPrim (z : Z)
| VRef (o : nat) (isConst : bool).

#[export] Instance val_eq_dec : EqDecision val.
Proof. solve_decision. Defined.

(** [struct ObjVersion]; the chain is the list from [versionChain] along
    [prev], newest first. *)
Record ObjVersion := mkVersion {
  ver_epoch : Z;
  ver_snapshot : list val
}.

(** Progress of a mutation method: outside, after the guard and the save, after
    a write to the payload.  The boolean is [CowGuard::active_]. *)
Inductive cow_state : Type :=
| Idle
| Opened (active : bool)
| Dirty (active : bool).

(** The MVCC fields of [ObjControl], with the object's payload and whether its
    type overrides [shallowClone] ([Obj::shallowClone] returns null). *)
Record obj := mkObj {
  payload : list val;
  cloneable : bool;
  writeEpoch : Z;
  snapshotToken : option nat;
  versionChain : list ObjVersion;
  lastSaveEpoch : Z;
  cow : cow_state
}.

Record SnapshotToken := mkToken {
  refcount : Z;
  tok_epoch : Z;
  cloneMap : gmap nat nat
}.

(** A [resolveConstChild] call between its version look-up and its clone: the
    frozen parent and slot it reads, the child, and the version it found. *)
Record reader := mkReader {
  rd_parent : nat;
  rd_slot : nat;
  rd_token : nat;
  rd_child : nat;
  rd_version : option (list val)
}.

Record state := mkState {
  heap : gmap nat obj;
  next : nat;
  globalWriteEpoch : Z;
  activeSnapshotCount : Z;
  latestSnapshotCreationEpoch : Z;
  epochs : list Z;
  tokens : gmap nat SnapshotToken;
  next_token : nat;
  readers : list reader
}.

Definition init_state : state := mkState ∅ 0 1 0 0 [] ∅ 0 [].

Inductive error : Type :=
| CannotMutateConst
| NoVersionFound
| Blocked.

Definition with_obj (s : state) (o : nat) (ob : obj) : state :=
  mkState (<[o := ob]> (heap s)) (next s) (globalWriteEpoch s) (activeSnapshotCount s)
    (latestSnapshotCreationEpoch s) (epochs s) (tokens s) (next_token s) (readers s).
Definition with_gwe (s : state) (g : Z) : state :=
  mkState (heap s) (next s) g (activeSnapshotCount s)
    (latestSnapshotCreationEpoch s) (epochs s) (tokens s) (next_token s) (readers s).
Definition with_token (s : state) (t : nat) (tk : SnapshotToken) : state :=
  mkState (heap s) (next s) (globalWriteEpoch s) (activeSnapshotCount s)
    (latestSnapshotCreationEpoch s) (epochs s) (<[t := tk]> (tokens s)) (next_token s) (readers s).
Definition with_readers (s : state) (rs : list reader) : state :=
  mkState (heap s) (next s) (globalWriteEpoch s) (activeSnapshotCount s)
    (latestSnapshotCreationEpoch s) (epochs s) (tokens s) (next_token s) rs.
Definition alloc (s : state) (ob : obj) : state * nat :=
  (mkState (<[next s := ob]> (heap s)) (S (next s)) (globalWriteEpoch s) (activeSnapshotCount s)
     (latestSnapshotCreationEpoch s) (epochs s) (tokens s) (next_token s) (readers s), next s).

Definition set_payload (ob : obj) (p : list val) : obj :=
  mkObj p (cloneable ob) (writeEpoch ob) (snapshotToken ob) (versionChain ob)
    (lastSaveEpoch ob) (cow ob).
Definition set_writeEpoch (ob : obj) (e : Z) : obj :=
  mkObj (payload ob) (cloneable ob) e (snapshotToken ob) (versionChain ob)
    (lastSaveEpoch ob) (cow ob).
Definition set_token (ob : obj) (t : option nat) : obj :=
  mkObj (payload ob) (cloneable ob) (writeEpoch ob) t (versionChain ob)
    (lastSaveEpoch ob) (cow ob).
Definition set_chain (ob : obj) (c : list ObjVersion) (l : Z) : obj :=
  mkObj (payload ob) (cloneable ob) (writeEpoch ob) (snapshotToken ob) c l (cow ob).
Definition set_cow (ob : obj) (c : cow_state) : obj :=
  mkObj (payload ob) (cloneable ob) (writeEpoch ob) (snapshotToken ob) (versionChain ob)
    (lastSaveEpoch ob) c.

(** ** Objects and their mutation methods *)

(** The fields a control block is created with. *)
Definition new_obj (s : state) (p : list val) (cl : bool) : obj :=
  mkObj p cl 0 None [] (latestSnapshotCreationEpoch s) Idle.

Definition newObj (s : state) (p : list val) (cl : bool) : state * nat :=
  alloc s (new_obj s p cl).

Definition ensureMutable (ob : obj) : bool :=
  match snapshotToken ob with Some _ => false | None => true end.

Definition shallowClone (ob : obj) : option (list val) :=
  if cloneable ob then Some (payload ob) else None.

Definition saveVersion (s : state) (ob : obj) : obj :=
  if latestSnapshotCreationEpoch s <=? lastSaveEpoch ob then ob
  else match shallowClone ob with
       | None => ob
       | Some snap =>
         set_chain ob (mkVersion (writeEpoch ob) snap :: versionChain ob) (globalWriteEpoch s)
       end.

(** [ensureMutable(); CowGuard guard(control); if (guard.active()) saveVersion();]
    The guard spins while another holder has the lock. *)
Definition mut_begin (s : state) (o : nat) : outcome error state :=
  match heap s !! o with
  | None => UB
  | Some ob =>
    if negb (ensureMutable ob) then Throw CannotMutateConst
    else match cow ob with
         | Idle =>
           let active := 0 <? activeSnapshotCount s in
           Ret (with_obj s o (set_cow (if active then saveVersion s ob else ob) (Opened active)))
         | _ => Throw Blocked
         end
  end.

(** The method's own writes to the payload. *)
Definition mut_write (s : state) (o : nat) (p : list val) : outcome error state :=
  match heap s !! o with
  | None => UB
  | Some ob =>
    match cow ob with
    | Opened a | Dirty a => Ret (with_obj s o (set_cow (set_payload ob p) (Dirty a)))
    | Idle => UB
    end
  end.

(** [if (guard.active()) control->writeEpoch.store(globalWriteEpoch.fetch_add(1))],
    then the guard's destructor. *)
Definition mut_end (s : state) (o : nat) : outcome error state :=
  match heap s !! o with
  | None => UB
  | Some ob =>
    match cow ob with
    | Opened true | Dirty true =>
      Ret (with_gwe (with_obj s o (set_cow (set_writeEpoch ob (globalWriteEpoch s)) Idle))
             (globalWriteEpoch s + 1))
    | Opened false | Dirty false => Ret (with_obj s o (set_cow ob Idle))
    | Idle => UB
    end
  end.

(** The method throws before it writes: only the guard's destructor runs. *)
Definition mut_abort (s : state) (o : nat) : outcome error state :=
  match heap s !! o with
  | None => UB
  | Some ob =>
    match cow ob with
    | Opened _ => Ret (with_obj s o (set_cow ob Idle))
    | _ => UB
    end
  end.

(** *** Mutators without the guard

    [ObjVector::set] and the like: [saveVersion] when a snapshot is alive, the
    write, and the epoch always. *)
Definition bare_begin (s : state) (o : nat) : outcome error state :=
  match heap s !! o with
  | None => UB
  | Some ob =>
    if negb (ensureMutable ob) then Throw CannotMutateConst
    else Ret (with_obj s o (if 0 <? activeSnapshotCount s then saveVersion s ob else ob))
  end.

Definition bare_write (s : state) (o : nat) (p : list val) : outcome error state :=
  match heap s !! o with
  | None => UB
  | Some ob => Ret (with_obj s o (set_payload ob p))
  end.

Definition bare_end (s : state) (o : nat) : outcome error state :=
  match heap s !! o with
  | None => UB
  | Some ob =>
    Ret (with_gwe (with_obj s o (set_writeEpoch ob (globalWriteEpoch s))) (globalWriteEpoch s + 1))
  end.

Definition bare_set (s : state) (o : nat) (p : list val) : outcome error state :=
  let! s := bare_begin s o in
  let! s := bare_write s o p in
  bare_end s o.

(** ** Taking a snapshot *)

Definition publishSnapshotEpoch (latest epoch : Z) : Z :=
  if latest <? epoch then epoch else latest.

Definition is_obj (v : val) : bool :=
  match v with VRef _ _ => true | VPrim _ => false end.

(** The clone of the root, under its lock; [None] when its type has none. *)
Definition snap_clone (s : state) (o : nat) : outcome error (state * option nat) :=
  match heap s !! o with
  | None => UB
  | Some ob =>
    match cow ob with
    | Opened true | Dirty true => Throw Blocked
    | _ =>
      match shallowClone ob with
      | None => Ret (s, None)
      | Some p => let '(s, g) := alloc s (new_obj s p true) in Ret (s, Some g)
      end
    end
  end.

(** [globalWriteEpoch.fetch_add(1)]. *)
Definition snap_epoch (s : state) : state * Z :=
  (with_gwe s (globalWriteEpoch s + 1), globalWriteEpoch s).

(** [new SnapshotToken(epoch)], given to the clone. *)
Definition snap_token (s : state) (g : nat) (epoch : Z) : state :=
  let t := next_token s in
  mkState (alter (fun fb => set_token fb (Some t)) g (heap s)) (next s) (globalWriteEpoch s)
    (activeSnapshotCount s) (latestSnapshotCreationEpoch s) (epochs s)
    (<[t := mkToken 1 epoch ∅]> (tokens s)) (S t) (readers s).

Definition snap_publish (s : state) (epoch : Z) : state :=
  mkState (heap s) (next s) (globalWriteEpoch s) (activeSnapshotCount s)
    (publishSnapshotEpoch (latestSnapshotCreationEpoch s) epoch) (epochs s)
    (tokens s) (next_token s) (readers s).

(** [snapshotEpochTracker.add]. *)
Definition snap_track (s : state) (epoch : Z) : state :=
  mkState (heap s) (next s) (globalWriteEpoch s) (activeSnapshotCount s)
    (latestSnapshotCreationEpoch s) (epoch :: epochs s) (tokens s) (next_token s) (readers s).

(** [activeSnapshotCount.fetch_add(1)]. *)
Definition snap_count (s : state) : state :=
  mkState (heap s) (next s) (globalWriteEpoch s) (activeSnapshotCount s + 1)
    (latestSnapshotCreationEpoch s) (epochs s) (tokens s) (next_token s) (readers s).

(** [sole]: [control->strong <= 1]. *)
Definition createFrozenSnapshot (s : state) (v : val) (sole : bool) : outcome error (state * val) :=
  match v with
  | VPrim _ | VRef _ true => Ret (s, v)
  | VRef o false =>
    match heap s !! o with
    | None => UB
    | Some ob =>
      if sole && negb (existsb is_obj (payload ob)) then Ret (s, VRef o true)
      else
        let! r := snap_clone s o in
        match r with
        | (s, None) => Ret (s, VRef o true)
        | (s, Some g) =>
          let '(s, epoch) := snap_epoch s in
          let s := snap_token s g epoch in
          let s := snap_publish s epoch in
          let s := snap_track s epoch in
          Ret (snap_count s, VRef g true)
        end
    end
  end.

(** ** Reading through a snapshot *)

(** The walk of the version chain: newest first, stop at the first version
    older than the snapshot. *)
Fixpoint version_below (e : Z) (chain : list ObjVersion) : option (list val) :=
  match chain with
  | [] => None
  | ver :: prev =>
    if ver_epoch ver <? e then Some (ver_snapshot ver) else version_below e prev
  end.

Definition findVersionForEpoch (ob : obj) (e : Z) : option (list val) :=
  if writeEpoch ob <? e then None else version_below e (versionChain ob).

(** [list->index(i)] on a const list: what is left to do after reading the
    slot.  A slot that is not an unresolved reference, and any slot of an object
    without a token, is the result; otherwise the clone map is consulted (a dead
    entry is dropped) and failing that the version chain. *)
Inductive read_result : Type :=
| RDone (v : val)
| RPending.

Definition cacheElement (s : state) (f i : nat) (v : val) : state :=
  match heap s !! f with
  | Some ob => with_obj s f (set_payload ob (<[i := v]> (payload ob)))
  | None => s
  end.

Definition read_begin (s : state) (f i : nat) : outcome error (state * read_result) :=
  match heap s !! f with
  | None => UB
  | Some fb =>
    match payload fb !! i with
    | None => UB
    | Some (VRef c false) =>
      match snapshotToken fb with
      | None => Ret (s, RDone (VRef c false))
      | Some t =>
        match tokens s !! t with
        | None => UB
        | Some tk =>
          let erased := mkToken (refcount tk) (tok_epoch tk) (delete c (cloneMap tk)) in
          let look (s' : state) :=
            match heap s !! c with
            | None => UB
            | Some cb =>
              Ret (with_readers s'
                     (mkReader f i t c (findVersionForEpoch cb (tok_epoch tk)) :: readers s'),
                   RPending)
            end in
          match cloneMap tk !! c with
          | Some g =>
            match heap s !! g with
            | Some _ => Ret (cacheElement s f i (VRef g true), RDone (VRef g true))
            | None => look (with_token s t erased)
            end
          | None => look s
          end
        end
      end
    | Some v => Ret (s, RDone v)
    end
  end.

(** The payload to clone: the version found before, or the current state
    re-checked under the lock, or the version that appeared meanwhile. *)
Definition clone_source (found : option (list val)) (cb : obj) (e : Z)
    : outcome error (option (list val)) :=
  match found with
  | Some p => Ret (if cloneable cb then Some p else None)
  | None =>
    match cow cb with
    | Opened true | Dirty true => Throw Blocked
    | _ =>
      if writeEpoch cb <? e then Ret (shallowClone cb)
      else match findVersionForEpoch cb e with
           | None => Throw NoVersionFound
           | Some p => Ret (if cloneable cb then Some p else None)
           end
    end
  end.

Definition read_end (s : state) (r : reader) (rest : list reader)
    : outcome error (state * val) :=
  match heap s !! rd_child r, tokens s !! rd_token r with
  | Some cb, Some tk =>
    let! src := clone_source (rd_version r) cb (tok_epoch tk) in
    match src with
    | None =>
      let v := VRef (rd_child r) true in
      Ret (cacheElement (with_readers s rest) (rd_parent r) (rd_slot r) v, v)
    | Some p =>
      let frozen := set_token (new_obj s p true) (Some (rd_token r)) in
      let '(s1, g) := alloc (with_readers s rest) frozen in
      let s2 := with_token s1 (rd_token r)
                  (mkToken (refcount tk + 1) (tok_epoch tk)
                     (<[rd_child r := g]> (cloneMap tk))) in
      let v := VRef g true in
      Ret (cacheElement s2 (rd_parent r) (rd_slot r) v, v)
    end
  | _, _ => UB
  end.

(** Both halves at once: a const element access. *)
Definition read_const (s : state) (f i : nat) : outcome error (state * val) :=
  let! sr := read_begin s f i in
  match sr with
  | (s1, RDone v) => Ret (s1, v)
  | (s1, RPending) =>
    match readers s1 with
    | r :: rest => read_end s1 r rest
    | [] => UB
    end
  end.

(** Element accesses along a path of slots. *)
Fixpoint read_path (s : state) (v : val) (path : list nat) : outcome error (state * val) :=
  match path with
  | [] => Ret (s, v)
  | i :: path' =>
    match v with
    | VRef f _ => let! sv := read_const s f i in read_path (fst sv) (snd sv) path'
    | VPrim _ => UB
    end
  end.

(** ** Releasing *)

(** [snapshotEpochTracker.remove]: one occurrence of the epoch. *)
Definition tracker_remove (e : Z) (l : list Z) : list Z := erase_first e l.

Definition minEpoch (s : state) : option Z :=
  match epochs s with
  | [] => None
  | e :: l => Some (foldr Z.min e l)
  end.

Definition release_token (s : state) (t : nat) : state :=
  match tokens s !! t with
  | None => s
  | Some tk =>
    if refcount tk =? 1 then
      mkState (heap s) (next s) (globalWriteEpoch s) (activeSnapshotCount s - 1)
        (latestSnapshotCreationEpoch s) (tracker_remove (tok_epoch tk) (epochs s))
        (delete t (tokens s)) (next_token s) (readers s)
    else with_token s t (mkToken (refcount tk - 1) (tok_epoch tk) (cloneMap tk))
  end.

(** An object dies: [cleanupMVCC] drops its versions and its hold on its token. *)
Definition destroy (s : state) (o : nat) : state :=
  match heap s !! o with
  | None => s
  | Some ob =>
    let s1 := mkState (delete o (heap s)) (next s) (globalWriteEpoch s) (activeSnapshotCount s)
                (latestSnapshotCreationEpoch s) (epochs s) (tokens s) (next_token s) (readers s) in
    match snapshotToken ob with
    | None => s1
    | Some t => release_token s1 t
    end
  end.

Definition destroy_all (s : state) (X : list nat) : state := foldl destroy s X.

(** Keep the versions down to the first one older than every live snapshot. *)
Fixpoint keep_to_floor (m : Z) (chain : list ObjVersion) : list ObjVersion :=
  match chain with
  | [] => []
  | ver :: prev => ver :: (if ver_epoch ver <? m then [] else keep_to_floor m prev)
  end.

Definition trimVersionChain (m : option Z) (ob : obj) : obj :=
  match versionChain ob with
  | [] => ob
  | _ =>
    match m with
    | None => set_chain ob [] 0
    | Some e => set_chain ob (keep_to_floor e (versionChain ob)) (lastSaveEpoch ob)
    end
  end.

(** The collector's trimming pass over the marked objects. *)
Definition gc_trim (s : state) (marked : list nat) : state :=
  mkState (map_imap (fun o ob => Some (if decide (o ∈ marked) then trimVersionChain (minEpoch s) ob else ob))
             (heap s))
    (next s) (globalWriteEpoch s) (activeSnapshotCount s)
    (latestSnapshotCreationEpoch s) (epochs s) (tokens s) (next_token s) (readers s).

(** ** Executions

    [past] and [origin] are history: what each snapshot is a snapshot of, and
    which object each frozen clone stands for.  No operation reads them. *)

Record config := mkConfig {
  st : state;
  past : gmap nat (gmap nat (list val));
  origin : gmap nat (nat * nat)
}.

Definition init_config : config := mkConfig init_state ∅ ∅.

(** What a snapshot taken now is accountable for: every mutable-side object that
    no thread is in the middle of mutating, and whose last save is older than
    the epoch the snapshot takes. *)
Definition capturable (s : state) (ob : obj) : bool :=
  match snapshotToken ob, cow ob with
  | None, Idle => lastSaveEpoch ob <? globalWriteEpoch s
  | _, _ => false
  end.

Definition captured (s : state) : gmap nat (list val) :=
  omap (fun ob => if capturable s ob then Some (payload ob) else None) (heap s).

Definition refs_exist (s : state) (p : list val) : Prop :=
  forall o b, VRef o b ∈ p -> is_Some (heap s !! o).

(** Nothing outside [X] refers into [X], by a slot or by a saved version. *)
Definition unreferenced (s : state) (X : list nat) : Prop :=
  forall o ob x b, heap s !! o = Some ob -> o ∉ X -> x ∈ X ->
    VRef x b ∉ payload ob /\
    forall ver, ver ∈ versionChain ob -> VRef x b ∉ ver_snapshot ver.

Definition idle (ob : obj) : Prop := cow ob = Idle.

(** The label tells a mutation method that throws after its save from every
    other step. *)
Inductive label : Type := Aborts | Normal.

Inductive step : label -> config -> config -> Prop :=
| step_new c p cl :
    refs_exist (st c) p -> (cl = false -> p = []) ->
    step Normal c (mkConfig (fst (newObj (st c) p cl)) (past c) (origin c))
| step_begin c o ob s' :
    heap (st c) !! o = Some ob -> cloneable ob = true ->
    mut_begin (st c) o = Ret s' ->
    step Normal c (mkConfig s' (past c) (origin c))
| step_write c o p s' :
    refs_exist (st c) p -> mut_write (st c) o p = Ret s' ->
    step Normal c (mkConfig s' (past c) (origin c))
| step_end c o s' :
    mut_end (st c) o = Ret s' -> step Normal c (mkConfig s' (past c) (origin c))
| step_abort c o s' :
    mut_abort (st c) o = Ret s' -> step Aborts c (mkConfig s' (past c) (origin c))
| step_bare c o ob p s' :
    heap (st c) !! o = Some ob -> cloneable ob = true -> idle ob -> refs_exist (st c) p ->
    bare_set (st c) o p = Ret s' ->
    step Normal c (mkConfig s' (past c) (origin c))
| step_snapshot c o sole s' f :
    createFrozenSnapshot (st c) (VRef o false) sole = Ret (s', VRef f true) ->
    step Normal c (if decide (f = o) then mkConfig s' (past c) (origin c)
            else mkConfig s' (<[next_token (st c) := captured (st c)]> (past c))
                   (<[f := (next_token (st c), o)]> (origin c)))
| step_read_begin c f i fb s' r :
    heap (st c) !! f = Some fb ->
    (forall t rd, snapshotToken fb = Some t -> rd ∈ readers (st c) -> rd_token rd <> t) ->
    read_begin (st c) f i = Ret (s', r) ->
    step Normal c (mkConfig s' (past c) (origin c))
| step_read_end c l1 r l2 s' g :
    readers (st c) = l1 ++ r :: l2 ->
    read_end (st c) r (l1 ++ l2) = Ret (s', VRef g true) ->
    step Normal c (mkConfig s' (past c)
              (if decide (g = rd_child r) then origin c
               else <[g := (rd_token r, rd_child r)]> (origin c)))
| step_destroy c X :
    NoDup X ->
    unreferenced (st c) X ->
    (forall x ob, x ∈ X -> heap (st c) !! x = Some ob -> idle ob) ->
    (forall r, r ∈ readers (st c) -> rd_parent r ∉ X /\ rd_child r ∉ X) ->
    step Normal c (mkConfig (destroy_all (st c) X) (past c) (origin c))
| step_trim c marked :
    readers (st c) = [] ->
    map_Forall (fun _ ob => idle ob) (heap (st c)) ->
    step Normal c (mkConfig (gc_trim (st c) marked) (past c) (origin c)).

Definition any_step (c c' : config) : Prop := exists l, step l c c'.
Definition reachable : config -> Prop := rtc any_step init_config.
Definition reachable_normal : config -> Prop := rtc (step Normal) init_config.

(** ** The invariant

    [iso ob p e]: a snapshot of epoch [e] still sees [p] in [ob].  Either the
    object is as it was and the next mutation will save it, or the version older
    than [e] holds [p]; in the second case a reader that does not find the write
    epoch moved yet either finds the lock taken or the payload still [p]. *)

Definition iso (ob : obj) (p : list val) (e : Z) : Prop :=
  snapshotToken ob = None /\
  ((writeEpoch ob < e /\ payload ob = p /\ cow ob = Idle /\
    (lastSaveEpoch ob < e \/ cloneable ob = false)) \/
   (version_below e (versionChain ob) = Some p /\ cloneable ob = true /\
    (e <= writeEpoch ob \/ cow ob = Dirty true \/
     ((cow ob = Idle \/ cow ob = Opened true) /\ payload ob = p)))).

Definition past_of (c : config) (t o : nat) : option (list val) := past c !! t ≫= lookup o.

(** A frozen slot stands for the slot of the object it is a snapshot of: it
    holds the same value, or the reference has been resolved to the snapshot's
    one clone of the child, or to the child itself when it is immutable. *)
Definition represents (c : config) (t : nat) (vf vp : val) : Prop :=
  vf = vp \/
  exists ch g, vp = VRef ch false /\ vf = VRef g true /\
    ((origin c !! g = Some (t, ch) /\
      exists tk, tokens (st c) !! t = Some tk /\ cloneMap tk !! ch = Some g) \/
     (g = ch /\ exists cb, heap (st c) !! ch = Some cb /\ cloneable cb = false)).

Definition frozen_ok (c : config) (f : nat) (fb : obj) (t : nat) : Prop :=
  is_Some (tokens (st c) !! t) /\ cow fb = Idle /\
  exists o, origin c !! f = Some (t, o) /\
    forall p, past_of c t o = Some p -> Forall2 (represents c t) (payload fb) p.

Definition reader_ok (c : config) (r : reader) : Prop :=
  exists fb cb tk,
    heap (st c) !! rd_parent r = Some fb /\ snapshotToken fb = Some (rd_token r) /\
    payload fb !! rd_slot r = Some (VRef (rd_child r) false) /\
    heap (st c) !! rd_child r = Some cb /\ tokens (st c) !! rd_token r = Some tk /\
    (forall g, cloneMap tk !! rd_child r = Some g -> heap (st c) !! g = None) /\
    (forall p p', rd_version r = Some p -> past_of c (rd_token r) (rd_child r) = Some p' ->
      p = p' /\ cloneable cb = true) /\
    forall p, rd_version r = Some p ->
      exists ver, ver ∈ versionChain cb /\ ver_snapshot ver = p.

Definition leaf_ok (ob : obj) : Prop :=
  cloneable ob = false ->
  payload ob = [] /\ cow ob = Idle /\ snapshotToken ob = None /\ writeEpoch ob = 0.

Record heap_ok (c : config) : Prop := {
  ok_next : forall o, is_Some (heap (st c) !! o) -> (o < next (st c))%nat;
  ok_gwe : 0 <= latestSnapshotCreationEpoch (st c) < globalWriteEpoch (st c);
  ok_obj : forall o ob, heap (st c) !! o = Some ob ->
    0 <= writeEpoch ob < globalWriteEpoch (st c) /\
    lastSaveEpoch ob <= globalWriteEpoch (st c) /\
    leaf_ok ob /\ refs_exist (st c) (payload ob) /\
    forall ver, ver ∈ versionChain ob -> refs_exist (st c) (ver_snapshot ver)
}.

(** How many live frozen clones hold a token. *)
Definition holders (s : state) (t : nat) : nat :=
  size (filter (fun kv => kv.2 = Some t) (snapshotToken <$> heap s)).

Record tokens_ok (s : state) : Prop := {
  tok_fresh : forall t, is_Some (tokens s !! t) -> (t < next_token s)%nat;
  tok_count : activeSnapshotCount s = Z.of_nat (size (tokens s));
  tok_tracker : epochs s ≡ₚ (map_to_list (tok_epoch <$> tokens s)).*2;
  tok_refcount : forall t tk, tokens s !! t = Some tk ->
    refcount tk = Z.of_nat (holders s t) /\ 0 < refcount tk /\
    0 < tok_epoch tk <= latestSnapshotCreationEpoch s;
  tok_held : forall o ob t, heap s !! o = Some ob -> snapshotToken ob = Some t ->
    is_Some (tokens s !! t)
}.

Record history_ok (c : config) : Prop := {
  hist_past : forall t o p, past_of c t o = Some p ->
    (o < next (st c))%nat /\ (t < next_token (st c))%nat /\
    forall g b, VRef g b ∈ p -> (g < next (st c))%nat /\ forall ch, origin c !! g <> Some (t, ch);
  hist_origin : forall f t o, origin c !! f = Some (t, o) ->
    (f < next (st c))%nat /\ (t < next_token (st c))%nat;
  hist_iso : forall t tk o ob p, tokens (st c) !! t = Some tk -> past_of c t o = Some p ->
    heap (st c) !! o = Some ob -> iso ob p (tok_epoch tk);
  hist_frozen : forall f fb t, heap (st c) !! f = Some fb -> snapshotToken fb = Some t ->
    frozen_ok c f fb t;
  hist_map : forall t tk ch g, tokens (st c) !! t = Some tk -> cloneMap tk !! ch = Some g ->
    origin c !! g = Some (t, ch) /\
    forall gb, heap (st c) !! g = Some gb -> snapshotToken gb = Some t;
  hist_readers : forall r, r ∈ readers (st c) -> reader_ok c r;
  hist_distinct : NoDup (rd_token <$> readers (st c))
}.

Record Inv (c : config) : Prop := {
  inv_heap : heap_ok c;
  inv_tokens : tokens_ok (st c);
  inv_history : history_ok c
}.

(** *** Counting holders *)

Lemma tokens_ok_same s s' :
  tokens_ok s ->
  snapshotToken <$> heap s' = snapshotToken <$> heap s ->
  tokens s' = tokens s -> next_token s' = next_token s ->
  activeSnapshotCount s' = activeSnapshotCount s -> epochs s' = epochs s ->
  latestSnapshotCreationEpoch s' = latestSnapshotCreationEpoch s ->
  tokens_ok s'.
Proof.
  intros [Hf Hc Ht Hr Hh] Htm Et En Ea Ee El. split; rewrite ?Et, ?En, ?Ea, ?Ee, ?El; try done.
  - intros t tk Htk. unfold holders. rewrite Htm. by apply Hr.
  - intros o ob t Ho Hob.
    assert ((snapshotToken <$> heap s') !! o = Some (Some t)) as E
      by (rewrite lookup_fmap, Ho; simpl; congruence).
    rewrite Htm, lookup_fmap in E.
    destruct (heap s !! o) as [ob1|] eqn:E1; simpl in E; [|done].
    eapply Hh; [exact E1|congruence].
Qed.

Lemma tokmap_insert_same s o ob ob' :
  heap s !! o = Some ob -> snapshotToken ob' = snapshotToken ob ->
  snapshotToken <$> <[o := ob']> (heap s) = snapshotToken <$> heap s.
Proof.
  intros Ho E. rewrite fmap_insert, E. apply insert_id. by rewrite lookup_fmap, Ho.
Qed.

Lemma holders_insert_new s o ob t :
  heap s !! o = None ->
  size (filter (fun kv => kv.2 = Some t) (snapshotToken <$> <[o := ob]> (heap s))) =
  ((if decide (snapshotToken ob = Some t) then 1 else 0) + holders s t)%nat.
Proof.
  intros Ho. unfold holders. rewrite fmap_insert.
  assert ((snapshotToken <$> heap s) !! o = None) as E by (by rewrite lookup_fmap, Ho).
  case_decide as Ht.
  - rewrite map_filter_insert_True by done. rewrite map_size_insert_None; [done|].
    apply map_lookup_filter_None. by left.
  - rewrite map_filter_insert_not' ; [done|done|]. intros y Hy. congruence.
Qed.

Lemma holders_delete s o ob t :
  heap s !! o = Some ob ->
  holders s t =
  ((if decide (snapshotToken ob = Some t) then 1 else 0) +
   size (filter (fun kv => kv.2 = Some t) (snapshotToken <$> delete o (heap s))))%nat.
Proof.
  intros Ho. unfold holders.
  rewrite <- (insert_delete_id (heap s) o ob Ho) at 1. rewrite fmap_insert, fmap_delete.
  assert (delete o (snapshotToken <$> heap s) !! o = None) as E by apply lookup_delete_eq.
  case_decide as Ht.
  - rewrite map_filter_insert_True by done. rewrite map_size_insert_None; [done|].
    apply map_lookup_filter_None. by left.
  - rewrite map_filter_insert_not'; [done|done|]. intros y Hy. congruence.
Qed.

Lemma holders_pos s o ob t :
  heap s !! o = Some ob -> snapshotToken ob = Some t -> (0 < holders s t)%nat.
Proof. intros Ho Ht. rewrite (holders_delete s o ob t Ho), decide_True by done. lia. Qed.

(** *** Steps that change one mutable object *)

Section mutation.
Context (c : config) (o : nat) (ob ob' : obj) (g : Z).
Hypothesis Hinv : Inv c.
Hypothesis Ho : heap (st c) !! o = Some ob.
Hypothesis Htok : snapshotToken ob = None.
Hypothesis Htok' : snapshotToken ob' = None.
Hypothesis Hcl : cloneable ob' = cloneable ob.
Hypothesis Hg : globalWriteEpoch (st c) <= g.
Hypothesis Hw : 0 <= writeEpoch ob' < g.
Hypothesis Hls : lastSaveEpoch ob' <= g.
Hypothesis Hleaf : leaf_ok ob'.
Hypothesis Hrefs : refs_exist (st c) (payload ob').
Hypothesis Hvers : forall ver, ver ∈ versionChain ob' -> refs_exist (st c) (ver_snapshot ver).
Hypothesis Hgrow : forall ver, ver ∈ versionChain ob -> ver ∈ versionChain ob'.
Hypothesis Hiso : forall t tk p, tokens (st c) !! t = Some tk -> past_of c t o = Some p ->
  iso ob p (tok_epoch tk) -> iso ob' p (tok_epoch tk).

Let s' := with_gwe (with_obj (st c) o ob') g.
Let c' := mkConfig s' (past c) (origin c).

Lemma mutation_dom x : is_Some (heap (st c) !! x) <-> is_Some (heap s' !! x).
Proof.
  simpl. destruct (decide (x = o)) as [->|Hx].
  - rewrite lookup_insert_eq, Ho. split; eauto.
  - by rewrite lookup_insert_ne by congruence.
Qed.

Lemma mutation_refs p : refs_exist (st c) p -> refs_exist s' p.
Proof. intros H x b Hx. apply mutation_dom, (H x b Hx). Qed.

Lemma mutation_heap : heap_ok c'.
Proof.
  destruct Hinv as [[Hn Hl Hob] _ _]. unfold c', s'. split; simpl.
  - intros x Hx. apply Hn. by apply mutation_dom.
  - lia.
  - intros x xb Hx. destruct (decide (x = o)) as [->|Hne].
    + rewrite lookup_insert_eq in Hx. injection Hx as <-. split_and!; auto using mutation_refs; simpl in *; lia.
    + rewrite lookup_insert_ne in Hx by congruence.
      destruct (Hob x xb Hx) as (?&?&?&?&?). split_and!; auto using mutation_refs; simpl in *; lia.
Qed.

Lemma mutation_represents t vf vp : represents c t vf vp -> represents c' t vf vp.
Proof.
  intros [->|(ch & gg & -> & -> & [H|(-> & cb & Hc & Hcb)])]; [by left| |].
  - right. exists ch, gg. repeat split. by left.
  - right. exists ch, ch. repeat split. right. split; [done|]. simpl.
    destruct (decide (ch = o)) as [->|Hne].
    + exists ob'. rewrite lookup_insert_eq. split; [done|]. congruence.
    + exists cb. by rewrite lookup_insert_ne by congruence.
Qed.

Lemma mutation_history : history_ok c'.
Proof.
  destruct Hinv as [_ _ [Hp Hor Hi Hf Hm Hr Hd]]. split; simpl; try done.
  - intros t tk x xb p Ht Hpast Hx. destruct (decide (x = o)) as [->|Hne].
    + rewrite lookup_insert_eq in Hx. injection Hx as <-. eapply Hiso; eauto.
    + rewrite lookup_insert_ne in Hx by congruence. eauto.
  - intros f fb t Hx Ht. destruct (decide (f = o)) as [->|Hne].
    + rewrite lookup_insert_eq in Hx. congruence.
    + rewrite lookup_insert_ne in Hx by congruence.
      destruct (Hf f fb t Hx Ht) as (Ht' & Hc & x & Hx' & Hrep). repeat split; [done..|].
      exists x. split; [done|]. intros p Hpp. eapply Forall2_impl; [by apply Hrep|].
      intros. by apply mutation_represents.
  - intros t tk ch gg Ht Hc. destruct (Hm t tk ch gg Ht Hc) as [Ho' Hg']. split; [done|].
    intros gb Hgb. destruct (decide (gg = o)) as [->|Hne].
    + exfalso. specialize (Hg' ob Ho). congruence.
    + rewrite lookup_insert_ne in Hgb by congruence. eauto.
  - intros r Hr'. destruct (Hr r Hr') as (fb & cb & tk & H1 & H2 & H3 & H4 & H5 & H6 & H7 & H8).
    assert (rd_parent r <> o) by congruence.
    exists fb, (if decide (rd_child r = o) then ob' else cb), tk. simpl.
    rewrite lookup_insert_ne by congruence. repeat split; try done.
    + case_decide as E; [rewrite E; by rewrite lookup_insert_eq|by rewrite lookup_insert_ne by congruence].
    + intros gg Hgg. specialize (H6 gg Hgg). rewrite lookup_insert_ne; [done|congruence].
    + by destruct (H7 p p').
    + case_decide as E; destruct (H7 p p') as [_ Hcb]; try done. rewrite E in H4. congruence.
    + intros p Hp'. destruct (H8 p Hp') as (ver & Hv & <-). case_decide as E; [|by eauto].
      assert (cb = ob) as -> by (rewrite E in H4; congruence). eauto.
Qed.

Lemma mutation_inv : Inv c'.
Proof.
  split; [apply mutation_heap| |apply mutation_history].
  eapply tokens_ok_same; [apply Hinv|..]; try done.
  eapply tokmap_insert_same; [exact Ho|]. congruence.
Qed.
End mutation.

(** *** The mutation bracket *)

Lemma with_gwe_same s : with_gwe s (globalWriteEpoch s) = s.
Proof. by destruct s. Qed.

Lemma with_obj_gwe s o ob : with_gwe (with_obj s o ob) (globalWriteEpoch s) = with_obj s o ob.
Proof. done. Qed.

(** While a snapshot is alive the guard is active. *)
Lemma live_token_active s t tk :
  tokens_ok s -> tokens s !! t = Some tk -> (0 <? activeSnapshotCount s) = true.
Proof.
  intros [_ -> _ _ _] Ht. apply Z.ltb_lt.
  assert (size (tokens s) <> 0%nat); [|lia].
  intros E%map_size_empty_iff. rewrite E in Ht. by rewrite lookup_empty in Ht.
Qed.

Lemma saveVersion_fields s ob :
  payload (saveVersion s ob) = payload ob /\ cloneable (saveVersion s ob) = cloneable ob /\
  writeEpoch (saveVersion s ob) = writeEpoch ob /\
  snapshotToken (saveVersion s ob) = snapshotToken ob /\
  (lastSaveEpoch (saveVersion s ob) = lastSaveEpoch ob \/
   lastSaveEpoch (saveVersion s ob) = globalWriteEpoch s) /\
  (versionChain (saveVersion s ob) = versionChain ob \/
   versionChain (saveVersion s ob) = mkVersion (writeEpoch ob) (payload ob) :: versionChain ob).
Proof.
  unfold saveVersion, shallowClone. destruct (_ <=? _); [by auto 10|].
  destruct (cloneable ob) eqn:E; simpl; auto 10.
Qed.

Lemma iso_begin s ob p e :
  cloneable ob = true -> cow ob = Idle -> e <= latestSnapshotCreationEpoch s ->
  iso ob p e -> iso (set_cow (saveVersion s ob) (Opened true)) p e.
Proof.
  intros Hcl Hcow He [Ht H]. destruct (saveVersion_fields s ob) as (Ep & Ec & Ew & Et & _ & Hch).
  split; [by simpl; congruence|]. right. simpl. rewrite Ep, Ec, Ew.
  destruct H as [(Hw & <- & _ & [Hl|]) | (Hv & _ & Hst)]; [|congruence|].
  - assert (versionChain (saveVersion s ob) = mkVersion (writeEpoch ob) (payload ob) :: versionChain ob) as ->.
    { unfold saveVersion, shallowClone. rewrite (proj2 (Z.leb_gt _ _)) by lia. by rewrite Hcl. }
    simpl. rewrite (proj2 (Z.ltb_lt _ _)) by lia. auto 10.
  - assert (e <= writeEpoch ob \/ writeEpoch ob < e /\ payload ob = p) as Hd.
    { destruct (Z_lt_ge_dec (writeEpoch ob) e); [|left; lia]. right. split; [done|].
      destruct Hst as [?|[?|[_ ?]]]; [lia|congruence|done]. }
    split_and!; [|done|naive_solver].
    destruct Hch as [-> | ->]; [done|]. simpl. destruct Hd as [Hd|[Hd Hp]].
    + by rewrite (proj2 (Z.ltb_ge _ _)) by lia.
    + rewrite (proj2 (Z.ltb_lt _ _)) by lia. congruence.
Qed.

Lemma inv_begin c o ob s' :
  Inv c -> heap (st c) !! o = Some ob -> cloneable ob = true ->
  mut_begin (st c) o = Ret s' -> Inv (mkConfig s' (past c) (origin c)).
Proof.
  intros Hi Ho Hcl. unfold mut_begin, ensureMutable. rewrite Ho.
  destruct (snapshotToken ob) eqn:Ht; [done|]. simpl. destruct (cow ob) eqn:Hcow; try done.
  intros [= <-]. rewrite <- with_obj_gwe.
  destruct (ok_obj _ (inv_heap _ Hi) o ob Ho) as (Hw & Hl & Hleaf & Hrefs & Hver).
  pose proof (ok_gwe _ (inv_heap _ Hi)) as Hgwe.
  destruct (saveVersion_fields (st c) ob) as (Ep & Ec & Ew & Et & Els & Hch).
  set (active := 0 <? activeSnapshotCount (st c)).
  apply (mutation_inv c o ob); try done; simpl; destruct active eqn:Ha; try (by simpl; congruence);
    rewrite ?Ep, ?Ec, ?Ew; try done; try lia.
  - intros Hf. simpl in Hf. congruence.
  - intros Hf. simpl in Hf. congruence.
  - destruct Hch as [-> | ->]; [done|]. intros ver [->|Hv]%elem_of_cons; [done|by apply Hver].
  - destruct Hch as [-> | ->]; [done|]. intros ver Hv. by apply list_elem_of_further.
  - intros t tk p Htk Hp Hiso. apply iso_begin; try done.
    by apply (tok_refcount _ (inv_tokens _ Hi) t tk).
  - intros t tk p Htk _ _. pose proof (live_token_active _ _ _ (inv_tokens _ Hi) Htk). unfold active in Ha.
    congruence.
Qed.

Lemma leaf_moving ob c : leaf_ok ob -> cow ob = c -> c <> Idle -> cloneable ob = true.
Proof. intros H Hc Hn. destruct (cloneable ob) eqn:E; [done|]. destruct (H E) as (_&?&_). congruence. Qed.

(** A frozen clone is never inside a mutation. *)
Lemma moving_not_frozen c o ob :
  Inv c -> heap (st c) !! o = Some ob -> cow ob <> Idle -> snapshotToken ob = None.
Proof.
  intros Hi Ho Hc. destruct (snapshotToken ob) as [t|] eqn:E; [|done].
  by destruct (hist_frozen _ (inv_history _ Hi) o ob t Ho E) as (_ & ? & _).
Qed.

Lemma inv_write c o p s' :
  Inv c -> refs_exist (st c) p ->
  mut_write (st c) o p = Ret s' -> Inv (mkConfig s' (past c) (origin c)).
Proof.
  intros Hi Hp. unfold mut_write. destruct (heap (st c) !! o) as [ob|] eqn:Ho; [|done].
  intros H. assert (exists a, (cow ob = Opened a \/ cow ob = Dirty a) /\
    s' = with_obj (st c) o (set_cow (set_payload ob p) (Dirty a))) as (a & Hcow & ->)
    by (destruct (cow ob); naive_solver).
  destruct (ok_obj _ (inv_heap _ Hi) o ob Ho) as (Hw & Hl & Hleaf & Hrefs & Hver).
  assert (snapshotToken ob = None) as Ht
    by (eapply moving_not_frozen; [done..|]; destruct Hcow; congruence).
  assert (cloneable ob = true) as Hcl
    by (destruct Hcow; (eapply leaf_moving; [done|eassumption|done])).
  rewrite <- with_obj_gwe. apply (mutation_inv c o ob); simpl; try done; try lia.
  - intros E. simpl in E. congruence.
  - intros t tk q _ _ [_ [(_ & _ & Hid & _)|(Hv & _ & Hst)]]; (split; [done|]); [destruct Hcow; congruence|].
    right. simpl. split_and!; [done..|].
    destruct Hst as [?|[?|[[?|?] _]]]; [by left|..]; destruct Hcow; right; left; congruence.
Qed.

Lemma inv_end c o s' :
  Inv c -> mut_end (st c) o = Ret s' -> Inv (mkConfig s' (past c) (origin c)).
Proof.
  intros Hi. unfold mut_end. destruct (heap (st c) !! o) as [ob|] eqn:Ho; [|done].
  intros H. assert (exists a, (cow ob = Opened a \/ cow ob = Dirty a) /\
    s' = with_gwe (with_obj (st c) o
           (set_cow (if a then set_writeEpoch ob (globalWriteEpoch (st c)) else ob) Idle))
         (if a then globalWriteEpoch (st c) + 1 else globalWriteEpoch (st c))) as (a & Hcow & ->).
  { destruct (cow ob) as [|[]|[]]; simplify_eq; eexists; (split; [eauto|]);
      rewrite ?with_obj_gwe; done. }
  clear H. destruct (ok_obj _ (inv_heap _ Hi) o ob Ho) as (Hw & Hl & Hleaf & Hrefs & Hver).
  pose proof (ok_gwe _ (inv_heap _ Hi)) as Hgwe.
  assert (snapshotToken ob = None) as Ht
    by (eapply moving_not_frozen; [done..|]; destruct Hcow; congruence).
  assert (cloneable ob = true) as Hcl
    by (destruct Hcow; (eapply leaf_moving; [done|eassumption|done])).
  apply (mutation_inv c o ob); try done; destruct a; simpl; try done; try lia;
    try (intros E; simpl in E; congruence);
  intros t tk q Htk _ [_ [(_ & _ & Hid & _)|(Hv & _ & Hst)]]; (split; [done|]);
    try (destruct Hcow; congruence); right; simpl; split_and!; try done.
  - left. pose proof (tok_refcount _ (inv_tokens _ Hi) t tk Htk). lia.
  - left. destruct Hst as [?|[?|[[?|?] _]]]; destruct Hcow; try congruence; lia.
Qed.

Lemma bare_set_eq s o ob p s' : heap s !! o = Some ob -> bare_set s o p = Ret s' ->
  snapshotToken ob = None /\
  s' = with_gwe (with_obj s o (set_writeEpoch (set_payload
         (if 0 <? activeSnapshotCount s then saveVersion s ob else ob) p) (globalWriteEpoch s)))
       (globalWriteEpoch s + 1).
Proof.
  unfold bare_set, bare_begin, ensureMutable. intros ->. destruct (snapshotToken ob); [done|].
  unfold bare_write, bare_end, with_obj. simpl. rewrite lookup_insert_eq. simpl. rewrite lookup_insert_eq.
  intros [= <-]. split; [done|]. unfold with_gwe. simpl. by rewrite !insert_insert_eq.
Qed.

Lemma inv_bare c o ob p s' :
  Inv c -> heap (st c) !! o = Some ob -> cloneable ob = true -> idle ob -> refs_exist (st c) p ->
  bare_set (st c) o p = Ret s' -> Inv (mkConfig s' (past c) (origin c)).
Proof.
  intros Hi Ho Hcl Hid Hp Hs. destruct (bare_set_eq _ _ _ _ _ Ho Hs) as [Ht ->].
  destruct (ok_obj _ (inv_heap _ Hi) o ob Ho) as (Hw & Hl & Hleaf & Hrefs & Hver).
  pose proof (ok_gwe _ (inv_heap _ Hi)) as Hgwe.
  destruct (saveVersion_fields (st c) ob) as (_ & Ec & _ & Et & Els & Hch).
  apply (mutation_inv c o ob); try done; simpl; destruct (0 <? activeSnapshotCount (st c)) eqn:Ha;
    rewrite ?Ec; try done; try lia; try congruence.
  - intros E. simpl in E. congruence.
  - intros E. simpl in E. congruence.
  - destruct Hch as [-> | ->]; [done|]. intros ver [->|Hv]%elem_of_cons; [done|by apply Hver].
  - destruct Hch as [-> | ->]; [done|]. intros ver Hv. by apply list_elem_of_further.
  - intros t tk q Htk _ Hiso. pose proof (tok_refcount _ (inv_tokens _ Hi) t tk Htk) as (_ & _ & He).
    destruct (iso_begin (st c) ob q (tok_epoch tk)) as [Hn [(_ & _ & Hc & _)|(Hv & Hc & _)]];
      [done|done|lia|done|done|]. split; [done|]. right. split; [done|]. split; [done|]. left. simpl. lia.
  - intros t tk q Htk _ _. pose proof (live_token_active _ _ _ (inv_tokens _ Hi) Htk). congruence.
Qed.

Lemma inv_abort c o s' :
  Inv c -> mut_abort (st c) o = Ret s' -> Inv (mkConfig s' (past c) (origin c)).
Proof.
  intros Hi. unfold mut_abort. destruct (heap (st c) !! o) as [ob|] eqn:Ho; [|done].
  destruct (cow ob) as [|a|] eqn:Hcow; try done. intros [= <-].
  destruct (ok_obj _ (inv_heap _ Hi) o ob Ho) as (Hw & Hl & Hleaf & Hrefs & Hver).
  assert (snapshotToken ob = None) as Ht by (eapply moving_not_frozen; [done..|congruence]).
  assert (cloneable ob = true) as Hcl by (eapply leaf_moving; [done|eassumption|done]).
  rewrite <- with_obj_gwe. apply (mutation_inv c o ob); simpl; try done; try lia.
  - intros E. simpl in E. congruence.
  - intros t tk q _ _ [_ [(_ & _ & Hid & _)|(Hv & _ & Hst)]]; (split; [done|]); [congruence|].
    right. simpl. split_and!; [done..|]. destruct Hst as [?|[?|[_ ?]]]; [by left|congruence|by auto].
Qed.

(** *** Caching a resolved child in a frozen slot *)

Arguments cacheElement : simpl never.

Lemma cacheElement_eq s f i v fb :
  heap s !! f = Some fb ->
  cacheElement s f i v = with_obj s f (set_payload fb (<[i := v]> (payload fb))).
Proof. intros H. unfold cacheElement. by rewrite H. Qed.

Lemma elem_of_insert_list {A} (l : list A) i x y : y ∈ <[i := x]> l -> y = x \/ y ∈ l.
Proof.
  intros [j Hj]%list_elem_of_lookup. apply list_lookup_insert_Some in Hj.
  destruct Hj as [(-> & -> & _)|[_ Hj]]; [by left|right]. by eapply list_elem_of_lookup_2.
Qed.

Section caching.
Context (c : config) (f i t ch g : nat) (fb : obj).
Hypothesis Hinv : Inv c.
Hypothesis Hf : heap (st c) !! f = Some fb.
Hypothesis Ht : snapshotToken fb = Some t.
Hypothesis Hi : payload fb !! i = Some (VRef ch false).
Hypothesis Hrep : represents c t (VRef g true) (VRef ch false).
Hypothesis Hg : is_Some (heap (st c) !! g).
Hypothesis Hrd : forall r, r ∈ readers (st c) -> rd_token r <> t.

Definition cached_config : config :=
  mkConfig (cacheElement (st c) f i (VRef g true)) (past c) (origin c).

Lemma cached_heap x xb :
  heap (st cached_config) !! x = Some xb ->
  x = f /\ xb = set_payload fb (<[i := VRef g true]> (payload fb)) \/
  x <> f /\ heap (st c) !! x = Some xb.
Proof.
  unfold cached_config. rewrite (cacheElement_eq _ _ _ _ _ Hf). simpl.
  intros [[<- <-]|[? ?]]%lookup_insert_Some; auto.
Qed.

Lemma cached_heap_2 x xb :
  heap (st c) !! x = Some xb ->
  exists xb', heap (st cached_config) !! x = Some xb' /\ cloneable xb' = cloneable xb /\
    versionChain xb' = versionChain xb /\ (x <> f -> xb' = xb).
Proof.
  intros Hx. unfold cached_config. rewrite (cacheElement_eq _ _ _ _ _ Hf). simpl.
  destruct (decide (x = f)) as [->|Hne].
  - eexists. rewrite lookup_insert_eq. split; [done|]. split_and!; simpl; congruence.
  - exists xb. rewrite lookup_insert_ne by congruence. auto.
Qed.

Lemma cached_refs p : refs_exist (st c) p -> refs_exist (st cached_config) p.
Proof.
  intros H x b Hx. destruct (H x b Hx) as [xb Hxb].
  destruct (cached_heap_2 x xb Hxb) as (xb' & ? & _). eauto.
Qed.

Lemma cached_represents u vf vp : represents c u vf vp -> represents cached_config u vf vp.
Proof.
  intros [->|(x & y & -> & -> & [(Ho & tk & Htk & Hc)|(-> & cb & Hc & Hcb)])]; [by left|..];
    right; exists x.
  - exists y. split_and!; [done..|]. left. split; [done|]. exists tk. split; [|done].
    unfold cached_config. by rewrite (cacheElement_eq _ _ _ _ _ Hf).
  - exists x. split_and!; [done..|]. right. split; [done|].
    destruct (cached_heap_2 x cb Hc) as (cb' & ? & ? & _ & _). exists cb'. split; congruence.
Qed.

Lemma cached_fields :
  tokens (st cached_config) = tokens (st c) /\ next (st cached_config) = next (st c) /\
  globalWriteEpoch (st cached_config) = globalWriteEpoch (st c) /\
  latestSnapshotCreationEpoch (st cached_config) = latestSnapshotCreationEpoch (st c) /\
  readers (st cached_config) = readers (st c) /\
  next_token (st cached_config) = next_token (st c).
Proof. unfold cached_config. by rewrite (cacheElement_eq _ _ _ _ _ Hf). Qed.

Lemma cached_heap_ok : heap_ok cached_config.
Proof.
  destruct (inv_heap _ Hinv) as [Hn Hl Hob]. destruct cached_fields as (_&En&Eg&El&_&_).
  split; rewrite ?En, ?Eg, ?El; [| done |].
  - intros x [xb [[-> _]|[_ Hx]]%cached_heap]; eauto.
  - intros x xb [[-> ->]|[_ Hx]]%cached_heap.
    + destruct (Hob f fb Hf) as (?&?&Hleaf&Hr&?). simpl. split_and!; try lia; auto using cached_refs.
      * intros E. simpl in *. destruct (Hleaf E) as (_&_&?&_). congruence.
      * apply cached_refs. intros x b [[= -> ->]|Hx]%elem_of_insert_list; [done|by eapply Hr].
    + destruct (Hob x xb Hx) as (?&?&?&?&?). split_and!; try lia; auto using cached_refs.
Qed.

Lemma cached_frozen : frozen_ok cached_config f (set_payload fb (<[i := VRef g true]> (payload fb))) t.
Proof.
  destruct (hist_frozen _ (inv_history _ Hinv) f fb t Hf Ht) as (Htk & Hc & o & Ho & Hp).
  destruct cached_fields as (Et&_). split_and!; [by rewrite Et|done|].
  exists o. split; [done|]. intros p Hpp. specialize (Hp p Hpp). simpl.
  apply Forall2_same_length_lookup. apply Forall2_same_length_lookup in Hp as [Hlen Hp].
  split; [by rewrite length_insert|]. intros j vf vp Hvf Hvp.
  apply list_lookup_insert_Some in Hvf as [(<- & <- & _)|[Hne Hvf]].
  - apply cached_represents. destruct (Hp i _ _ Hi Hvp) as [<-|(x & y & _ & E & _)]; [done|].
    discriminate E.
  - apply cached_represents. by eapply Hp.
Qed.

Lemma cached_inv : Inv cached_config.
Proof.
  destruct cached_fields as (Et&En&Eg&El&Er&Ent). split; [apply cached_heap_ok|..].
  - unfold cached_config. rewrite (cacheElement_eq _ _ _ _ _ Hf).
    eapply tokens_ok_same; [apply Hinv|..]; try done. by eapply tokmap_insert_same.
  - destruct (inv_history _ Hinv) as [Hp Hor His Hfr Hm Hr Hd].
    split; rewrite ?Et, ?En, ?Er, ?Ent; try done.
    + intros u tk x xb p Hu Hpast [[-> ->]|[_ Hx]]%cached_heap; [|by eapply His].
      destruct (His u tk f fb p Hu Hpast Hf) as [E _]. congruence.
    + intros x xb u [[-> ->]|[_ Hx]]%cached_heap Hu.
      * simpl in Hu. assert (u = t) as -> by congruence. apply cached_frozen.
      * destruct (Hfr x xb u Hx Hu) as (Hs & Hc & o & Ho & Hpp).
        split_and!; [by rewrite Et|done|]. exists o. split; [done|]. intros p Hpast.
        eapply Forall2_impl; [by apply Hpp|]. intros. by apply cached_represents.
    + intros u tk x y Hu Hy. destruct (Hm u tk x y Hu Hy) as [Ho Hgb]. split; [done|].
      intros gb [[-> ->]|[_ Hx]]%cached_heap; simpl; eauto.
    + intros r Hr'. destruct (Hr r Hr') as (pb & cb & tk & H1 & H2 & H3 & H4 & H5 & H6 & H7 & H8).
      assert (rd_parent r <> f) as Hne.
      { intros E. rewrite E in H1. apply (Hrd r Hr'). congruence. }
      destruct (cached_heap_2 _ _ H1) as (pb' & H1' & _ & _ & Hpb). rewrite Hpb in H1' by done.
      destruct (cached_heap_2 _ _ H4) as (cb' & H4' & Hcb & Hch & _).
      exists pb, cb', tk. rewrite Et. split_and!; try done.
      * intros y Hy. specialize (H6 y Hy). destruct (heap (st cached_config) !! y) as [yb|] eqn:E; [|done].
        apply cached_heap in E as [[-> _]|[_ E]]; congruence.
      * intros p p' Hv Hpast. destruct (H7 p p' Hv Hpast). split; [done|congruence].
      * rewrite Hch. done.
Qed.
End caching.

(** *** The look-up half of a const read *)

Lemma Forall2_mono_l {A B} (R R' : A -> B -> Prop) l k :
  Forall2 R l k -> (forall x y, x ∈ l -> R x y -> R' x y) -> Forall2 R' l k.
Proof.
  intros H HR. apply Forall2_same_length_lookup. apply Forall2_same_length_lookup in H as [Hl H].
  split; [done|]. intros j x y Hx Hy. apply HR; [by eapply list_elem_of_lookup_2|by eapply H].
Qed.

Lemma represents_tokens c c' t vf vp :
  heap (st c') = heap (st c) ->
  (forall g ch, origin c !! g = Some (t, ch) -> origin c' !! g = Some (t, ch)) ->
  (forall g ch tk, vf = VRef g true -> tokens (st c) !! t = Some tk -> cloneMap tk !! ch = Some g ->
    exists tk', tokens (st c') !! t = Some tk' /\ cloneMap tk' !! ch = Some g) ->
  represents c t vf vp -> represents c' t vf vp.
Proof.
  intros Hh Ho Hm [->|(x & y & -> & -> & [(Hy & tk & Htk & Hc)|(-> & cb & Hc & Hcb)])]; [by left|..];
    right; exists x.
  - exists y. split_and!; [done..|]. left. split; [by apply Ho|]. by eapply Hm.
  - exists x. split_and!; [done..|]. right. split; [done|]. exists cb. by rewrite Hh.
Qed.

Lemma frozen_slot_alive c f fb t g :
  Inv c -> heap (st c) !! f = Some fb -> snapshotToken fb = Some t ->
  VRef g true ∈ payload fb -> is_Some (heap (st c) !! g).
Proof.
  intros Hi Hf _ Hg. destruct (ok_obj _ (inv_heap _ Hi) f fb Hf) as (_&_&_&Hr&_). by eapply Hr.
Qed.

(** Dropping a dead entry of a clone map. *)
Lemma inv_erase c t tk ch g :
  Inv c -> tokens (st c) !! t = Some tk -> cloneMap tk !! ch = Some g -> heap (st c) !! g = None ->
  Inv (mkConfig (with_token (st c) t
                   (mkToken (refcount tk) (tok_epoch tk) (delete ch (cloneMap tk)))) (past c) (origin c)).
Proof.
  intros Hi Ht Hc Hg. set (tk' := mkToken _ _ _).
  assert (forall u uk, <[t := tk']> (tokens (st c)) !! u = Some uk ->
    exists uk0, tokens (st c) !! u = Some uk0 /\ tok_epoch uk = tok_epoch uk0 /\
      refcount uk = refcount uk0 /\ cloneMap uk ⊆ cloneMap uk0) as Hback.
  { intros u uk [[<- <-]|[Hne Hu]]%lookup_insert_Some; [exists tk|exists uk];
      split_and!; try done. apply delete_subseteq. }
  split.
  - destruct (inv_heap _ Hi). split; done.
  - destruct (inv_tokens _ Hi) as [Hf Hn He Hr Hh]. split; simpl.
    + intros u [uk (uk0 & Hu & _)%Hback]. eauto.
    + by rewrite map_size_insert_Some by eauto.
    + rewrite fmap_insert, insert_id; [done|]. by rewrite lookup_fmap, Ht.
    + intros u uk (uk0 & Hu & -> & -> & _)%Hback. by apply Hr.
    + intros o ob u Ho Hob. destruct (Hh o ob u Ho Hob) as [uk Hu].
      destruct (decide (u = t)) as [->|Hne]; [rewrite lookup_insert_eq|rewrite lookup_insert_ne by congruence]; eauto.
  - destruct (inv_history _ Hi) as [Hp Hor His Hfr Hm Hr Hd]. split; simpl; try done.
    + intros u uk o ob p (uk0 & Hu & -> & _)%Hback. by apply His.
    + intros f fb u Hf Hu. destruct (Hfr f fb u Hf Hu) as ([uk Huk] & Hcw & o & Ho & Hpp).
      split_and!; [|done|].
      * simpl. destruct (decide (u = t)) as [->|]; [rewrite lookup_insert_eq|rewrite lookup_insert_ne by congruence]; eauto.
      * exists o. split; [done|]. intros p Hpast. eapply Forall2_mono_l; [by apply Hpp|].
        intros vf vp Hin. apply represents_tokens; [done|done|].
        intros y x yk -> Hyk Hy. simpl. destruct (decide (u = t)) as [->|Hne].
        { rewrite lookup_insert_eq. eexists; split; [done|]. simpl.
          assert (yk = tk) as -> by congruence.
          rewrite lookup_delete_ne; [done|]. intros <-. assert (y = g) as -> by congruence.
          destruct (frozen_slot_alive c f fb t g Hi Hf Hu Hin). congruence. }
        rewrite lookup_insert_ne by congruence. eauto.
    + intros u uk x y (uk0 & Hu & _ & _ & Hsub)%Hback Hy.
      eapply (Hm u uk0 x y Hu). by eapply lookup_weaken.
    + intros r Hr'. destruct (Hr r Hr') as (pb & cb & rk & H1 & H2 & H3 & H4 & H5 & H6 & H7 & H8).
      destruct (decide (rd_token r = t)) as [E|Hne].
      * exists pb, cb, tk'. simpl. rewrite E, lookup_insert_eq. split_and!; try done; [congruence| |].
        { intros y Hy. apply H6. assert (rk = tk) as -> by congruence. simpl in Hy.
          by apply lookup_delete_Some in Hy as [_ ?]. }
        { rewrite <- E. done. }
      * exists pb, cb, rk. simpl. rewrite lookup_insert_ne by congruence. split_and!; done.
Qed.

Lemma inv_push c r :
  Inv c -> reader_ok c r -> (forall r', r' ∈ readers (st c) -> rd_token r' <> rd_token r) ->
  Inv (mkConfig (with_readers (st c) (r :: readers (st c))) (past c) (origin c)).
Proof.
  intros [[] [] [Hp Hor His Hfr Hm Hr Hd]] Hok Hne. split; split; simpl; try done.
  - intros r' [->|Hr']%elem_of_cons; [exact Hok|by apply Hr].
  - constructor; [|done]. intros (r' & E & Hr')%list_elem_of_fmap. by apply (Hne r' Hr').
Qed.

Lemma version_below_in e l p :
  version_below e l = Some p -> exists ver, ver ∈ l /\ ver_snapshot ver = p.
Proof.
  induction l as [|v l IH]; simpl; [done|]. destruct (_ <? _).
  - intros [= <-]. exists v. split; [apply list_elem_of_here|done].
  - intros (ver & ? & ?)%IH. exists ver. split; [by apply list_elem_of_further|done].
Qed.

Lemma findVersion_in ob e p :
  findVersionForEpoch ob e = Some p ->
  exists ver, ver ∈ versionChain ob /\ ver_snapshot ver = p.
Proof. unfold findVersionForEpoch. destruct (_ <? _); [done|apply version_below_in]. Qed.

(** Whatever version is found for a captured object is the captured payload. *)
Lemma findVersion_sound ob p e p' :
  iso ob p e -> findVersionForEpoch ob e = Some p' -> p' = p /\ cloneable ob = true.
Proof.
  unfold findVersionForEpoch. intros [_ [(Hw & _)|(Hv & Hcl & _)]].
  - by rewrite (proj2 (Z.ltb_lt _ _)) by lia.
  - destruct (_ <? _); [done|]. split; [congruence|done].
Qed.

Lemma config_eta c : mkConfig (st c) (past c) (origin c) = c.
Proof. by destruct c. Qed.

(** The look-up of an unresolved child that misses the clone map. *)
Lemma inv_look c f i fb t tk ch cb :
  Inv c -> heap (st c) !! f = Some fb -> snapshotToken fb = Some t ->
  payload fb !! i = Some (VRef ch false) -> heap (st c) !! ch = Some cb ->
  tokens (st c) !! t = Some tk ->
  (forall g, cloneMap tk !! ch = Some g -> heap (st c) !! g = None) ->
  (forall rd, rd ∈ readers (st c) -> rd_token rd <> t) ->
  Inv (mkConfig (with_readers (st c)
        (mkReader f i t ch (findVersionForEpoch cb (tok_epoch tk)) :: readers (st c))) (past c) (origin c)).
Proof.
  intros Hi Hf Ht Hs Hc Htk Hmiss Hrd. apply inv_push; [done| |done].
  exists fb, cb, tk. simpl. split_and!; try done.
  - intros p p' Hv Hpast. pose proof (hist_iso _ (inv_history _ Hi) t tk ch cb p' Htk Hpast Hc) as H.
    by destruct (findVersion_sound _ _ _ _ H Hv).
  - intros p Hv. by apply findVersion_in in Hv.
Qed.

Lemma inv_read_begin c f i fb s' res :
  Inv c -> heap (st c) !! f = Some fb ->
  (forall t rd, snapshotToken fb = Some t -> rd ∈ readers (st c) -> rd_token rd <> t) ->
  read_begin (st c) f i = Ret (s', res) -> Inv (mkConfig s' (past c) (origin c)).
Proof.
  intros Hi Hf Hrd. unfold read_begin. rewrite Hf.
  destruct (payload fb !! i) as [[z|ch [|]]|] eqn:Hs; try done;
    try (intros [= <- <-]; by rewrite config_eta).
  destruct (snapshotToken fb) as [t|] eqn:Ht; [|intros [= <- <-]; by rewrite config_eta].
  destruct (tokens (st c) !! t) as [tk|] eqn:Htk; [|done].
  destruct (cloneMap tk !! ch) as [g|] eqn:Hg.
  - destruct (hist_map _ (inv_history _ Hi) t tk ch g Htk Hg) as [Hog Hgt].
    destruct (heap (st c) !! g) as [gb|] eqn:Hgb.
    + intros [= <- <-]. eapply (cached_inv c f i t ch g fb); eauto.
      right. exists ch, g. split_and!; [done..|]. left. eauto.
    + destruct (heap (st c) !! ch) as [cb|] eqn:Hcb; [|done]. intros [= <- <-].
      pose proof (inv_erase c t tk ch g Hi Htk Hg Hgb) as Hi'.
      apply (inv_look _ f i fb t (mkToken (refcount tk) (tok_epoch tk) (delete ch (cloneMap tk)))
               ch cb Hi'); simpl; try done.
      * by rewrite lookup_insert_eq.
      * intros y Hy. by rewrite lookup_delete_eq in Hy.
      * eauto.
  - destruct (heap (st c) !! ch) as [cb|] eqn:Hcb; [|done]. intros [= <- <-].
    eapply (inv_look c f i fb t tk ch cb); eauto. congruence.
Qed.

(** *** Steps that allocate an object: a plain object, a snapshot's root, or the
    clone of a child *)

Lemma next_fresh c : heap_ok c -> heap (st c) !! next (st c) = None.
Proof.
  intros H. destruct (heap (st c) !! next (st c)) as [ob|] eqn:E; [|done].
  assert (next (st c) < next (st c))%nat; [|lia]. apply (ok_next _ H). eauto.
Qed.

Section allocation.
Context (c c' : config) (nb : obj) (stands : option (nat * nat)).
Hypothesis Hinv : Inv c.
Hypothesis Hheap : heap (st c') = <[next (st c) := nb]> (heap (st c)).
Hypothesis Hnext : next (st c') = S (next (st c)).
Hypothesis Hgwe : globalWriteEpoch (st c) <= globalWriteEpoch (st c').
Hypothesis Hlatest : 0 <= latestSnapshotCreationEpoch (st c') < globalWriteEpoch (st c').
Hypothesis Hnb : writeEpoch nb = 0 /\ versionChain nb = [] /\ cow nb = Idle /\
  lastSaveEpoch nb <= globalWriteEpoch (st c') /\ leaf_ok nb /\ refs_exist (st c) (payload nb).
Hypothesis Hstands : snapshotToken nb = fst <$> stands.
Hypothesis Horigin : origin c' = match stands with Some k => <[next (st c) := k]> (origin c) | None => origin c end.
Hypothesis Hntok : (next_token (st c) <= next_token (st c'))%nat.
Hypothesis Hfresh : forall t o, stands = Some (t, o) -> (t < next_token (st c'))%nat.
Hypothesis Hpast : forall t o p, past_of c' t o = Some p ->
  past_of c t o = Some p /\ (t < next_token (st c))%nat \/
  (t = next_token (st c) /\ (t < next_token (st c'))%nat /\
   exists ob, heap (st c) !! o = Some ob /\ p = payload ob).
Hypothesis Hpast_old : forall t o, (t < next_token (st c))%nat -> past_of c' t o = past_of c t o.
Hypothesis Htok : forall t tk, tokens (st c) !! t = Some tk ->
  exists tk', tokens (st c') !! t = Some tk' /\ tok_epoch tk' = tok_epoch tk /\
    forall ch g, cloneMap tk !! ch = Some g -> is_Some (heap (st c) !! g) -> cloneMap tk' !! ch = Some g.
Hypothesis Htok' : forall t tk', tokens (st c') !! t = Some tk' ->
  (exists tk, tokens (st c) !! t = Some tk /\ tok_epoch tk' = tok_epoch tk /\
    forall ch g, cloneMap tk' !! ch = Some g ->
      cloneMap tk !! ch = Some g \/ (g = next (st c) /\ stands = Some (t, ch))) \/
  (t = next_token (st c) /\ cloneMap tk' = ∅ /\
   forall o ob p, past_of c' t o = Some p -> heap (st c) !! o = Some ob -> iso ob p (tok_epoch tk')).
Hypothesis Hself : forall t o, stands = Some (t, o) ->
  is_Some (tokens (st c') !! t) /\
  forall p, past_of c' t o = Some p -> Forall2 (represents c' t) (payload nb) p.
Hypothesis Hreaders : forall r, r ∈ readers (st c') -> r ∈ readers (st c) /\
  forall t ch, stands = Some (t, ch) -> rd_token r <> t.
Hypothesis Hdistinct : NoDup (rd_token <$> readers (st c')).

Lemma alloc_old x xb : heap (st c) !! x = Some xb -> heap (st c') !! x = Some xb.
Proof.
  intros Hx. rewrite Hheap, lookup_insert_ne; [done|]. intros <-. by rewrite (next_fresh c (inv_heap _ Hinv)) in Hx.
Qed.

Lemma alloc_cases x xb :
  heap (st c') !! x = Some xb -> x = next (st c) /\ xb = nb \/ heap (st c) !! x = Some xb.
Proof. rewrite Hheap. intros [[<- <-]|[_ ?]]%lookup_insert_Some; auto. Qed.

Lemma alloc_refs p : refs_exist (st c) p -> refs_exist (st c') p.
Proof. intros H x b Hx. destruct (H x b Hx) as [xb Hxb]. eauto using alloc_old. Qed.

Lemma alloc_origin f t o : origin c !! f = Some (t, o) -> origin c' !! f = Some (t, o).
Proof.
  intros Hf. rewrite Horigin. destruct stands; [|done]. rewrite lookup_insert_ne; [done|].
  intros <-. destruct (hist_origin _ (inv_history _ Hinv) _ _ _ Hf). lia.
Qed.

Lemma alloc_origin_inv f t o :
  origin c' !! f = Some (t, o) ->
  origin c !! f = Some (t, o) \/ (f = next (st c) /\ stands = Some (t, o)).
Proof.
  rewrite Horigin. destruct stands; [|auto].
  intros [[<- <-]|[_ ?]]%lookup_insert_Some; auto.
Qed.

Lemma alloc_represents f fb t vf vp :
  heap (st c) !! f = Some fb -> vf ∈ payload fb -> represents c t vf vp -> represents c' t vf vp.
Proof.
  intros Hf Hv [->|(x & y & -> & -> & [(Hy & tk & Htk & Hc)|(-> & cb & Hc & Hcb)])]; [by left|..];
    right; exists x.
  - exists y. split_and!; [done..|]. left. split; [by apply alloc_origin|].
    destruct (Htok t tk Htk) as (tk' & ? & _ & Hm). exists tk'. split; [done|]. apply Hm; [done|].
    destruct (ok_obj _ (inv_heap _ Hinv) f fb Hf) as (_&_&_&Hr&_). by eapply Hr.
  - exists x. split_and!; [done..|]. right. split; [done|]. exists cb. eauto using alloc_old.
Qed.

Lemma alloc_heap_ok : heap_ok c'.
Proof.
  destruct (inv_heap _ Hinv) as [Hn Hl Hob]. destruct Hnb as (Hw & Hch & Hcw & Hls & Hlf & Hrf).
  split; [|done|].
  - intros x [xb Hx]. rewrite Hnext. destruct (alloc_cases x xb Hx) as [[-> _]|Hx']; [lia|].
    assert (x < next (st c))%nat; [eauto|lia].
  - intros x xb Hx. destruct (alloc_cases x xb Hx) as [[-> ->]|Hx'].
    + rewrite Hw, Hch. split_and!; try done; try lia; [by apply alloc_refs|].
      intros ver Hv. by apply elem_of_nil in Hv.
    + destruct (Hob x xb Hx') as (?&?&?&?&?). split_and!; try done; try lia; auto using alloc_refs.
Qed.

Lemma alloc_frozen f fb t :
  heap (st c') !! f = Some fb -> snapshotToken fb = Some t -> frozen_ok c' f fb t.
Proof.
  intros Hf Ht. destruct (alloc_cases f fb Hf) as [[-> ->]|Hf'].
  - rewrite Hstands in Ht. apply fmap_Some in Ht as ([u o] & E & ->). simpl.
    destruct (Hself u o E) as [Htk Hp]. split_and!; [done|by destruct Hnb as (_ & _ & ? & _)|].
    exists o. split; [|done]. rewrite Horigin, E. by rewrite lookup_insert_eq.
  - destruct (hist_frozen _ (inv_history _ Hinv) f fb t Hf' Ht) as ([tk Htk] & Hc & o & Ho & Hp).
    destruct (Htok t tk Htk) as (tk' & Htk' & _ & _). split_and!; [by eauto|done|].
    exists o. split; [by apply alloc_origin|]. intros p.
    rewrite Hpast_old by (apply (tok_fresh _ (inv_tokens _ Hinv)); eauto).
    intros Hpp. eapply Forall2_mono_l; [by apply Hp|]. intros. by eapply alloc_represents.
Qed.

Lemma alloc_reader r : r ∈ readers (st c') -> reader_ok c' r.
Proof.
  intros Hr. destruct (Hreaders r Hr) as [Hr' Hne].
  destruct (hist_readers _ (inv_history _ Hinv) r Hr') as (pb & cb & tk & H1 & H2 & H3 & H4 & H5 & H6 & H7 & H8).
  destruct (Htok _ tk H5) as (tk' & Htk' & _ & _).
  exists pb, cb, tk'. split_and!; eauto using alloc_old.
  - intros g Hg. destruct (Htok' _ _ Htk') as [(tk0 & Htk0 & _ & Hm)|(E & Em & _)].
    + assert (tk0 = tk) as -> by congruence.
      destruct (Hm _ _ Hg) as [Hg'|[-> Hs]]; [|by destruct (Hne _ _ Hs)].
      rewrite Hheap, lookup_insert_ne; [by apply H6|].
      intros <-. destruct (hist_map _ (inv_history _ Hinv) _ _ _ _ H5 Hg') as [Ho _].
      destruct (hist_origin _ (inv_history _ Hinv) _ _ _ Ho). lia.
    + by rewrite Em, lookup_empty in Hg.
  - intros p p' Hv. rewrite Hpast_old by (apply (tok_fresh _ (inv_tokens _ Hinv)); eauto). by apply H7.
Qed.

Lemma alloc_past_fresh t o p :
  past_of c' t o = Some p ->
  (o < next (st c))%nat /\ (t < next_token (st c'))%nat /\
  forall g b, VRef g b ∈ p -> (g < next (st c))%nat /\ forall ch, origin c !! g <> Some (t, ch).
Proof.
  destruct (inv_heap _ Hinv) as [Hn _ Hob]. destruct (inv_history _ Hinv) as [Hp Hor _ _ _ _ _].
  intros [[Hpp Ht]|(-> & Ht & ob & Hob' & ->)]%Hpast.
  - destruct (Hp t o p Hpp) as (?&?&?). split_and!; [done|lia|done].
  - split_and!; [eauto|done|]. intros g b Hg. destruct (Hob o ob Hob') as (_&_&_&Hr&_).
    split; [apply Hn; by eapply Hr|]. intros ch E. destruct (Hor _ _ _ E). lia.
Qed.

Lemma alloc_history : history_ok c'.
Proof.
  destruct (inv_history _ Hinv) as [Hp Hor His Hfr Hm Hr Hd]. split; [..|exact alloc_reader|done].
  - intros t o p Hpp. destruct (alloc_past_fresh t o p Hpp) as (Ho & Ht & Hg).
    rewrite Hnext. split_and!; [lia|done|]. intros g b Hgb. destruct (Hg g b Hgb) as [Hgn Hgo].
    split; [lia|]. intros ch [E|[-> _]]%alloc_origin_inv; [by apply (Hgo ch)|lia].
  - intros f t o [H|[-> Hs]]%alloc_origin_inv; rewrite Hnext.
    + destruct (Hor _ _ _ H). lia.
    + specialize (Hfresh t o Hs). lia.
  - intros t tk o ob p Htk' Hpp Ho.
    destruct (alloc_past_fresh t o p Hpp) as (Hon & _).
    destruct (alloc_cases o ob Ho) as [[-> _]|Ho']; [lia|].
    destruct (Htok' t tk Htk') as [(tk0 & Htk0 & -> & _)|(-> & _ & Hi)]; [|by eapply Hi].
    rewrite Hpast_old in Hpp by (apply (tok_fresh _ (inv_tokens _ Hinv)); eauto). eauto.
  - apply alloc_frozen.
  - intros t tk ch g Htk' Hg.
    destruct (Htok' t tk Htk') as [(tk0 & Htk0 & _ & Hmm)|(-> & E & _)]; [|rewrite E in Hg; done].
    destruct (Hmm ch g Hg) as [Hg'|[-> Hs]].
    + destruct (Hm t tk0 ch g Htk0 Hg') as [Ho Hgb]. split; [by apply alloc_origin|].
      intros gb [[-> _]|Hgb']%alloc_cases; [|eauto]. destruct (Hor _ _ _ Ho). lia.
    + split; [rewrite Horigin, Hs; by rewrite lookup_insert_eq|].
      intros gb [[_ ->]|Hgb']%alloc_cases; [by rewrite Hstands, Hs|]. by rewrite (next_fresh c (inv_heap _ Hinv)) in Hgb'.
Qed.
End allocation.

Lemma holders_zero s t :
  tokens_ok s -> (next_token s <= t)%nat -> holders s t = 0%nat.
Proof.
  intros [Hf _ _ _ Hh] Ht. unfold holders. apply map_size_empty_iff, map_empty_filter_2.
  intros o x Hx E. simpl in E. subst x. rewrite lookup_fmap in Hx.
  destruct (heap s !! o) as [ob|] eqn:Ho; simplify_eq/=.
  assert (t < next_token s)%nat; [|lia]. eauto.
Qed.

Lemma inv_new c p cl :
  Inv c -> refs_exist (st c) p -> (cl = false -> p = []) ->
  Inv (mkConfig (fst (newObj (st c) p cl)) (past c) (origin c)).
Proof.
  intros Hi Hp Hcl. pose proof (ok_gwe _ (inv_heap _ Hi)) as Hgwe.
  set (nb := new_obj (st c) p cl).
  set (c' := mkConfig _ _ _).
  assert (heap (st c) !! next (st c) = None) as Hnone by apply next_fresh, Hi.
  split.
  - apply (alloc_heap_ok c c' nb); simpl; try done; try lia.
    split_and!; try done; [lia|]. intros E. simpl in *. auto.
  - unfold c'.
    destruct (inv_tokens _ Hi) as [Hf Hn He Hr Hh]. split; simpl; try done.
    + intros t tk Ht. unfold holders. simpl. rewrite holders_insert_new by done.
      rewrite decide_False by (simpl; congruence). by apply Hr.
    + intros o ob t [[_ <-]|[_ Ho]]%lookup_insert_Some; [done|eauto].
  - apply (alloc_history c c' nb None); simpl; try done; try lia.
    + split_and!; try done; [lia|]. intros E. simpl in *. auto.
    + intros t o q Hpp. left. split; [exact Hpp|].
      by destruct (hist_past _ (inv_history _ Hi) t o q Hpp) as (_&?&_).
    + intros t tk Ht. eauto.
    + intros t tk Ht. left. exists tk. eauto.
    + apply Hi.
Qed.

Lemma captured_iso s o p ob :
  heap s !! o = Some ob -> captured s !! o = Some p ->
  writeEpoch ob < globalWriteEpoch s -> payload ob = p /\ iso ob p (globalWriteEpoch s).
Proof.
  unfold captured. rewrite lookup_omap. intros -> Hc Hw. simpl in Hc.
  unfold capturable in Hc. destruct (snapshotToken ob) eqn:Et; [done|].
  destruct (cow ob) eqn:Ec; try done.
  destruct (_ <? _) eqn:El; simplify_eq. split; [done|]. split; [done|]. left.
  apply Z.ltb_lt in El. auto 10.
Qed.

Lemma captured_inv s o p :
  captured s !! o = Some p -> exists ob, heap s !! o = Some ob /\ p = payload ob.
Proof.
  unfold captured. rewrite lookup_omap. destruct (heap s !! o) as [ob|]; [|done]. simpl.
  case_match; [|done]. intros [= <-]. eauto.
Qed.

(** What the steps of taking a snapshot come to. *)
Lemma createFrozenSnapshot_eq s o sole s' f : createFrozenSnapshot s (VRef o false) sole = Ret (s', VRef f true) ->
  s' = s /\ f = o \/
  exists ob, heap s !! o = Some ob /\ cow ob <> Opened true /\ cow ob <> Dirty true /\ cloneable ob = true /\
    f = next s /\
    s' = mkState (<[next s := set_token (new_obj s (payload ob) true) (Some (next_token s))]> (heap s))
           (S (next s)) (globalWriteEpoch s + 1) (activeSnapshotCount s + 1)
           (publishSnapshotEpoch (latestSnapshotCreationEpoch s) (globalWriteEpoch s))
           (globalWriteEpoch s :: epochs s)
           (<[next_token s := mkToken 1 (globalWriteEpoch s) ∅]> (tokens s))
           (S (next_token s)) (readers s).
Proof.
  unfold createFrozenSnapshot. destruct (heap s !! o) as [ob|] eqn:Ho; [|done].
  destruct (sole && _); [intros [= <- <-]; by left|]. unfold snap_clone, shallowClone. rewrite Ho.
  assert (forall h : gmap nat obj, alter (fun fb => set_token fb (Some (next_token s))) (next s)
    (<[next s := new_obj s (payload ob) true]> h) =
    <[next s := set_token (new_obj s (payload ob) true) (Some (next_token s))]> h) as Halter
    by (intros h; by rewrite alter_insert_eq).
  destruct (cow ob) as [|[]|[]] eqn:Hc; try done; destruct (cloneable ob) eqn:Hcl; simpl; intros [= <- <-];
    (by left) || (right; exists ob; unfold snap_count, snap_track, snap_publish, snap_token; simpl;
      rewrite Halter, Hc; by split_and!).
Qed.

Lemma inv_snapshot c o sole s' f :
  Inv c -> createFrozenSnapshot (st c) (VRef o false) sole = Ret (s', VRef f true) ->
  Inv (if decide (f = o) then mkConfig s' (past c) (origin c)
       else mkConfig s' (<[next_token (st c) := captured (st c)]> (past c))
              (<[f := (next_token (st c), o)]> (origin c))).
Proof.
  intros Hi H. destruct (createFrozenSnapshot_eq _ _ _ _ _ H) as [(-> & ->)|(ob & Ho & Hc1 & Hc2 & Hcl & -> & Hs)].
  { by rewrite decide_True, config_eta. }
  pose proof (next_fresh c (inv_heap _ Hi)) as Hnone.
  rewrite decide_False by congruence.
  pose proof (ok_gwe _ (inv_heap _ Hi)) as Hgwe.
  destruct (ok_obj _ (inv_heap _ Hi) o ob Ho) as (Hw & Hl & Hleaf & Hrefs & Hver).
  set (t := next_token (st c)) in *.
  set (nb := set_token (new_obj (st c) (payload ob) true) (Some t)) in *.
  assert (publishSnapshotEpoch (latestSnapshotCreationEpoch (st c)) (globalWriteEpoch (st c))
          = globalWriteEpoch (st c)) as Hpub
    by (unfold publishSnapshotEpoch; by rewrite (proj2 (Z.ltb_lt _ _)) by lia).
  rewrite Hpub in Hs. clear Hpub. subst s'.
  set (c' := mkConfig _ _ _).
  assert (tokens (st c) !! t = None) as Htn.
  { destruct (tokens (st c) !! t) eqn:E; [|done]. exfalso.
    assert (t < next_token (st c))%nat; [|unfold t in *; lia].
    apply (tok_fresh _ (inv_tokens _ Hi)). eauto. }
  assert (writeEpoch nb = 0 /\ versionChain nb = [] /\ cow nb = Idle /\
    lastSaveEpoch nb <= globalWriteEpoch (st c') /\ leaf_ok nb /\ refs_exist (st c) (payload nb)) as Hnb
    by (split_and!; try done; simpl; lia).
  assert (forall u x p, past_of c' u x = Some p ->
    past_of c u x = Some p /\ (u < t)%nat \/ u = t /\ captured (st c) !! x = Some p) as Hpast.
  { intros u x p. unfold past_of. simpl. destruct (decide (u = t)) as [->|Hne].
    - rewrite lookup_insert_eq. auto.
    - rewrite lookup_insert_ne by congruence. intros Hp. left. split; [done|].
      by destruct (hist_past _ (inv_history _ Hi) u x p Hp) as (_&?&_). }
  split.
  - apply (alloc_heap_ok c c' nb); simpl; try done; lia.
  - destruct (inv_tokens _ Hi) as [Hf Hn He Hr Hh]. unfold c'. split; simpl.
    + intros u Hu%lookup_insert_is_Some. destruct Hu as [<-|[_ Hu]]; [unfold t; lia|].
      specialize (Hf u Hu). lia.
    + rewrite map_size_insert_None by done. lia.
    + rewrite fmap_insert, map_to_list_insert by (by rewrite lookup_fmap, Htn). simpl. by rewrite He.
    + intros u uk [[<- <-]|[Hne Hu]]%lookup_insert_Some; unfold holders; simpl; rewrite holders_insert_new by done.
      * rewrite decide_True by done. rewrite holders_zero by (done || apply Hi). simpl. lia.
      * rewrite decide_False by (simpl; congruence). destruct (Hr u uk Hu) as (?&?&?). simpl. split_and!; try done; lia.
    + intros x xb u [[<- <-]|[Hne Hx]]%lookup_insert_Some Hu.
      * simpl in Hu. injection Hu as <-. rewrite lookup_insert_eq. eauto.
      * rewrite lookup_insert_is_Some'. right. eauto.
  - apply (alloc_history c c' nb (Some (t, o))); simpl; try done; try lia.
    + intros u x [= <- <-]. unfold t; lia.
    + intros u x p Hp. destruct (Hpast u x p Hp) as [?|[-> Hcap]]; [by left|right].
      split; [done|]. split; [unfold t; lia|]. by apply captured_inv.
    + intros u x Hu. unfold past_of. simpl. rewrite lookup_insert_ne; [done|unfold t in *; lia].
    + intros u uk Hu. exists uk. rewrite lookup_insert_ne by congruence. auto.
    + intros u uk [[<- <-]|[Hne Hu]]%lookup_insert_Some; [right|left; exists uk; eauto].
      split_and!; [done..|]. intros x xb p Hp Hx.
      destruct (Hpast t x p Hp) as [[_ ?]|[_ Hcap]]; [lia|].
      apply (captured_iso _ _ _ _ Hx Hcap). by apply (ok_obj _ (inv_heap _ Hi) x).
    + intros u x [= <- <-]. split; [rewrite lookup_insert_eq; eauto|].
      intros p Hp. destruct (Hpast t o p Hp) as [[_ ?]|[_ Hcap]]; [lia|].
      destruct (captured_inv _ _ _ Hcap) as (ob' & Ho' & ->). assert (ob' = ob) as -> by congruence.
      apply Forall2_same_length_lookup. split; [done|]. intros; left; congruence.
    + intros r Hr. split; [done|]. intros u x [= <- <-] E.
      destruct (hist_readers _ (inv_history _ Hi) r Hr) as (?&?&tk&_&_&_&_&H5&_). congruence.
    + apply Hi.
Qed.

(** *** The clone half of a const read *)

Definition cow_locked (ob : obj) : bool :=
  match cow ob with Opened true | Dirty true => true | _ => false end.

Lemma clone_source_inv found cb e src :
  clone_source found cb e = Ret src ->
  match src with
  | None => cloneable cb = false
  | Some p => cloneable cb = true /\
    (found = Some p \/ p = payload cb \/
     exists ver, ver ∈ versionChain cb /\ ver_snapshot ver = p)
  end.
Proof.
  unfold clone_source, shallowClone. destruct found as [q|].
  - destruct (cloneable cb); intros [= <-]; auto.
  - intros H. destruct (cow_locked cb) eqn:El; unfold cow_locked in El.
    { destruct (cow cb) as [|[]|[]]; done. }
    assert ((if writeEpoch cb <? e then Ret (if cloneable cb then Some (payload cb) else None)
             else match findVersionForEpoch cb e with
                  | None => Throw NoVersionFound
                  | Some p => Ret (if cloneable cb then Some p else None)
                  end) = Ret src) as H'
      by (by destruct (cow cb) as [|[]|[]]).
    clear H. destruct (writeEpoch cb <? e).
    + destruct (cloneable cb); injection H' as <-; auto.
    + destruct (findVersionForEpoch cb e) eqn:E; [|done].
      apply findVersion_in in E. destruct (cloneable cb); injection H' as <-; auto.
Qed.

(** For a captured child the clone half never misses a version, and what it
    clones is the captured payload. *)
Lemma clone_source_sound found cb e p :
  iso cb p e -> (forall q, found = Some q -> q = p /\ cloneable cb = true) ->
  cow_locked cb = false ->
  clone_source found cb e = Ret (if cloneable cb then Some p else None).
Proof.
  intros [Ht H] Hf Hl. unfold clone_source, shallowClone. destruct found as [q|].
  { destruct (Hf q eq_refl) as [-> ->]. done. }
  assert ((if writeEpoch cb <? e then Ret (if cloneable cb then Some (payload cb) else None)
           else match findVersionForEpoch cb e with
                | None => Throw NoVersionFound
                | Some p => Ret (if cloneable cb then Some p else None)
                end) = (Ret (if cloneable cb then Some p else None) : outcome error _)) as ->;
    [|unfold cow_locked in Hl; by destruct (cow cb) as [|[]|[]]].
  unfold findVersionForEpoch, cow_locked in *.
  destruct H as [(Hw & <- & _)|(Hv & Hcl & Hs)]; [by rewrite (proj2 (Z.ltb_lt _ _)) by lia|].
  destruct (writeEpoch cb <? e) eqn:Ew; [|by rewrite Hv].
  apply Z.ltb_lt in Ew. destruct Hs as [?|[Hd|[_ ->]]]; [lia|by rewrite Hd in Hl|done].
Qed.

Lemma clone_source_iso found cb e p q :
  iso cb p e -> (forall q, found = Some q -> q = p /\ cloneable cb = true) ->
  clone_source found cb e = Ret (Some q) -> q = p.
Proof.
  intros Hi Hf H. destruct (cow_locked cb) eqn:El.
  - destruct found as [x|].
    + destruct (Hf x eq_refl) as [-> Hcl]. simpl in H. rewrite Hcl in H. congruence.
    + unfold clone_source, cow_locked in *. destruct (cow cb) as [|[]|[]]; done.
  - rewrite (clone_source_sound _ _ _ _ Hi Hf El) in H. destruct (cloneable cb); congruence.
Qed.

Lemma inv_pop c l1 r l2 :
  Inv c -> readers (st c) = l1 ++ r :: l2 ->
  Inv (mkConfig (with_readers (st c) (l1 ++ l2)) (past c) (origin c)) /\ reader_ok c r /\
  forall r', r' ∈ l1 ++ l2 -> rd_token r' <> rd_token r.
Proof.
  intros Hi Hr. destruct (inv_history _ Hi) as [Hp Hor His Hfr Hm Hrd Hd].
  rewrite Hr in Hrd, Hd. rewrite fmap_app, fmap_cons in Hd.
  assert (forall r', r' ∈ l1 ++ l2 -> r' ∈ l1 ++ r :: l2) as Hsub by set_solver.
  split_and!.
  - destruct Hi as [[] [] _]. split; split; simpl; try done.
    + intros r' Hr'. apply (Hrd r'). by apply Hsub.
    + rewrite fmap_app. apply NoDup_app in Hd as (H1 & H2 & H3). apply NoDup_cons in H3 as [H3 H4].
      apply NoDup_app. split_and!; [done| |done]. set_solver.
  - apply Hrd. set_solver.
  - intros r' Hr' E. assert (rd_token r' ∈ rd_token <$> l1 ++ l2) as Hin
      by (apply list_elem_of_fmap; eauto).
    rewrite fmap_app, E in Hin. apply NoDup_app in Hd as (H1 & H2 & H3). apply NoDup_cons in H3 as [H3 H4].
    apply elem_of_app in Hin as [Hin|Hin]; [|done]. apply (H2 _ Hin). set_solver.
Qed.

(** The clone of a child joins its snapshot. *)
Section materialise.
Context (c : config) (t ch : nat) (tk : SnapshotToken) (p : list val).
Hypothesis Hinv : Inv c.
Hypothesis Htk : tokens (st c) !! t = Some tk.
Hypothesis Hmiss : forall g, cloneMap tk !! ch = Some g -> heap (st c) !! g = None.
Hypothesis Hp : refs_exist (st c) p.
Hypothesis Hsound : forall p', past_of c t ch = Some p' -> p = p'.
Hypothesis Hrd : forall r, r ∈ readers (st c) -> rd_token r <> t.

Let nb := set_token (new_obj (st c) p true) (Some t).
Let tk1 := mkToken (refcount tk + 1) (tok_epoch tk) (<[ch := next (st c)]> (cloneMap tk)).

Definition materialised : config :=
  mkConfig (with_token (fst (alloc (st c) nb)) t tk1) (past c)
    (<[next (st c) := (t, ch)]> (origin c)).

Lemma materialised_inv : Inv materialised.
Proof.
  pose proof (next_fresh c (inv_heap _ Hinv)) as Hnone.
  pose proof (ok_gwe _ (inv_heap _ Hinv)) as Hgwe.
  assert (writeEpoch nb = 0 /\ versionChain nb = [] /\ cow nb = Idle /\
    lastSaveEpoch nb <= globalWriteEpoch (st materialised) /\ leaf_ok nb /\ refs_exist (st c) (payload nb)) as Hnb
    by (split_and!; try done; simpl; lia).
  assert (t < next_token (st c))%nat as Hlt by (apply (tok_fresh _ (inv_tokens _ Hinv)); eauto).
  split.
  - by apply (alloc_heap_ok c materialised nb).
  - destruct (inv_tokens _ Hinv) as [Hf Hn He Hr Hh]. unfold materialised. split; simpl.
    + intros u Hu%lookup_insert_is_Some. destruct Hu as [<-|[_ Hu]]; eauto.
    + by rewrite map_size_insert_Some by eauto.
    + rewrite fmap_insert, insert_id; [done|]. by rewrite lookup_fmap, Htk.
    + intros u uk [[<- <-]|[Hne Hu]]%lookup_insert_Some; unfold holders; simpl; rewrite holders_insert_new by done.
      * rewrite decide_True by done. destruct (Hr t tk Htk) as (?&?&?). simpl. split_and!; lia.
      * rewrite decide_False by (simpl; congruence). by apply Hr.
    + intros x xb u [[<- <-]|[Hne Hx]]%lookup_insert_Some Hu.
      * simpl in Hu. injection Hu as <-. rewrite lookup_insert_eq. eauto.
      * rewrite lookup_insert_is_Some'. right. eauto.
  - apply (alloc_history c materialised nb (Some (t, ch))); simpl; try done; try lia.
    + intros u x [= <- <-]. done.
    + intros u x q Hq. left. split; [done|].
      by destruct (hist_past _ (inv_history _ Hinv) u x q Hq) as (_&?&_).
    + intros u uk Hu. destruct (decide (u = t)) as [->|Hne].
      * rewrite lookup_insert_eq. exists tk1. split; [done|]. assert (uk = tk) as -> by congruence.
        split; [done|]. intros x g Hg [gb Hgb]. simpl. rewrite lookup_insert_ne; [done|].
        intros <-. rewrite (Hmiss g Hg) in Hgb. done.
      * rewrite lookup_insert_ne by congruence. eauto.
    + intros u uk [[<- <-]|[Hne Hu]]%lookup_insert_Some; left; [exists tk|exists uk; eauto].
      split_and!; [done..|]. simpl. intros x g [[<- <-]|[_ ?]]%lookup_insert_Some; auto.
    + intros u x [= <- <-]. split; [rewrite lookup_insert_eq; eauto|].
      intros q Hq. rewrite <- (Hsound q Hq).
      apply Forall2_same_length_lookup. split; [done|]. intros; left; congruence.
    + intros r Hr. split; [done|]. intros u x [= <- <-]. by apply Hrd.
    + apply Hinv.
Qed.
End materialise.

Lemma inv_read_end c l1 r l2 s' g :
  Inv c -> readers (st c) = l1 ++ r :: l2 ->
  read_end (st c) r (l1 ++ l2) = Ret (s', VRef g true) ->
  Inv (mkConfig s' (past c)
         (if decide (g = rd_child r) then origin c
          else <[g := (rd_token r, rd_child r)]> (origin c))).
Proof.
  intros Hi Hr. destruct (inv_pop c l1 r l2 Hi Hr) as (Hi0 & Hok & Hne).
  destruct Hok as (fb & cb & tk & Hf & Hft & Hs & Hc & Htk & Hmiss & Hpast & Hver).
  unfold read_end. rewrite Hc, Htk.
  destruct (clone_source (rd_version r) cb (tok_epoch tk)) as [src|e|] eqn:Hsrc; try done. simpl.
  pose proof (clone_source_inv _ _ _ _ Hsrc) as Hinvs.
  destruct src as [p|]; [destruct Hinvs as [Hcl Hp]|].
  - intros [= <- <-].
    assert (rd_child r < next (st c))%nat as Hcn by (apply (ok_next _ (inv_heap _ Hi)); eauto).
    rewrite decide_False by lia.
    destruct (ok_obj _ (inv_heap _ Hi) _ cb Hc) as (_&_&_&Hrp&Hrv).
    set (c0 := mkConfig (with_readers (st c) (l1 ++ l2)) (past c) (origin c)) in *.
    assert (Inv (materialised c0 (rd_token r) (rd_child r) tk p)) as Hi1.
    { apply materialised_inv; try done.
      - destruct Hp as [Hp|[->|(ver & Hv & <-)]]; [|done|by apply Hrv].
        destruct (Hver p Hp) as (ver & Hv & <-). by apply Hrv.
      - intros p' Hp'. eapply clone_source_iso; [|by intros q Hq; destruct (Hpast q p' Hq Hp')|exact Hsrc].
        by eapply (hist_iso _ (inv_history _ Hi)). }
    pose proof (next_fresh c (inv_heap _ Hi)) as Hnone.
    eapply (cached_inv _ (rd_parent r) (rd_slot r) (rd_token r) (rd_child r) (next (st c)) fb Hi1); try done.
    + simpl. rewrite lookup_insert_ne; [done|]. intros E. congruence.
    + right. exists (rd_child r), (next (st c)). split_and!; [done..|]. left. simpl.
      rewrite lookup_insert_eq. split; [done|]. eexists. rewrite lookup_insert_eq. split; [done|].
      simpl. by rewrite lookup_insert_eq.
    + simpl. rewrite lookup_insert_eq. eauto.
  - intros [= <- <-]. rewrite decide_True by done.
    eapply (cached_inv _ (rd_parent r) (rd_slot r) (rd_token r) (rd_child r) (rd_child r) fb Hi0); try done.
    + right. exists (rd_child r), (rd_child r). split_and!; [done..|]. right. eauto.
Qed.

(** *** Destruction *)

Lemma erase_first_perm {A} `{EqDecision A} (x : A) l : x ∈ l -> l ≡ₚ x :: erase_first x l.
Proof.
  induction l as [|y l IH]; [by intros ?%elem_of_nil|]. simpl. intros Hx.
  case_decide as E; [by subst|]. apply elem_of_cons in Hx as [->|Hx]; [done|].
  rewrite (IH Hx) at 1. apply Permutation_swap.
Qed.

Lemma destroy_heap s o : heap (destroy s o) = delete o (heap s).
Proof.
  unfold destroy. destruct (heap s !! o) as [ob|] eqn:Ho.
  - destruct (snapshotToken ob) as [t|]; [|done]. unfold release_token. simpl.
    destruct (tokens s !! t); [|done]. by case_match.
  - by rewrite delete_id.
Qed.

Lemma destroy_fields s o :
  next (destroy s o) = next s /\ globalWriteEpoch (destroy s o) = globalWriteEpoch s /\
  latestSnapshotCreationEpoch (destroy s o) = latestSnapshotCreationEpoch s /\
  next_token (destroy s o) = next_token s /\ readers (destroy s o) = readers s /\
  forall t tk', tokens (destroy s o) !! t = Some tk' ->
    exists tk, tokens s !! t = Some tk /\ tok_epoch tk' = tok_epoch tk /\ cloneMap tk' = cloneMap tk.
Proof.
  unfold destroy. destruct (heap s !! o) as [ob|]; [|split_and!; eauto].
  destruct (snapshotToken ob) as [t|]; [|split_and!; eauto]. unfold release_token. simpl.
  destruct (tokens s !! t) as [tk|] eqn:Ht; [|split_and!; eauto].
  case_match; simpl; split_and!; try done.
  - intros u uk [_ Hu]%lookup_delete_Some. eauto.
  - intros u uk [[<- <-]|[_ Hu]]%lookup_insert_Some; [exists tk|exists uk]; auto.
Qed.

Lemma tokens_ok_destroy s o : tokens_ok s -> tokens_ok (destroy s o).
Proof.
  intros Hok. unfold destroy. destruct (heap s !! o) as [ob|] eqn:Ho; [|done].
  pose proof (fun t => holders_delete s o ob t Ho) as Hdel.
  destruct Hok as [Hf Hn He Hr Hh].
  destruct (snapshotToken ob) as [t|] eqn:Ht.
  2:{ split; simpl; try done.
      - intros t tk Htk. unfold holders. simpl. specialize (Hdel t). rewrite decide_False in Hdel by congruence.
        destruct (Hr t tk Htk) as (?&?&?). simpl in Hdel. split_and!; try done; lia.
      - intros x xb t [_ Hx]%lookup_delete_Some. eauto. }
  unfold release_token. simpl. destruct (Hh o ob t Ho Ht) as [tk Htk]. rewrite Htk.
  destruct (Hr t tk Htk) as (Hrc & Hpos & Hep).
  pose proof (Hdel t) as Hdt. rewrite decide_True in Hdt by done.
  destruct (refcount tk =? 1) eqn:E1; [apply Z.eqb_eq in E1|apply Z.eqb_neq in E1].
  - split; simpl.
    + intros u [uk [_ Hu]%lookup_delete_Some]. eauto.
    + rewrite map_size_delete_Some by eauto.
      assert (size (tokens s) <> 0%nat); [|lia].
      intros E%map_size_empty_iff. rewrite E in Htk. done.
    + assert ((map_to_list (tok_epoch <$> tokens s)).*2 ≡ₚ
              tok_epoch tk :: (map_to_list (tok_epoch <$> delete t (tokens s))).*2) as Hp.
      { rewrite <- (insert_delete_id (tokens s) t tk Htk) at 1.
        rewrite fmap_insert, map_to_list_insert; [done|]. by rewrite lookup_fmap, lookup_delete_eq. }
      rewrite Hp in He. unfold tracker_remove. apply (Permutation_cons_inv (a := tok_epoch tk)).
      rewrite <- He. symmetry. apply erase_first_perm. rewrite He. set_solver.
    + intros u uk [Hne Hu]%lookup_delete_Some. unfold holders. simpl.
      specialize (Hdel u). rewrite decide_False in Hdel by congruence.
      destruct (Hr u uk Hu) as (?&?&?). split_and!; try done; lia.
    + intros x xb u Hx Hu. assert (Hx' := Hx). apply lookup_delete_Some in Hx' as [Hne Hx'].
      destruct (Hh x xb u Hx' Hu) as [uk Huk].
      rewrite lookup_delete_ne; [eauto|]. intros <-.
      pose proof (holders_pos (mkState (delete o (heap s)) 0 0 0 0 [] ∅ 0 []) x xb t Hx Hu) as Hpp.
      unfold holders in Hpp. simpl in Hpp. lia.
  - split; simpl.
    + intros u Hu%lookup_insert_is_Some. destruct Hu as [<-|[_ Hu]]; eauto.
    + by rewrite map_size_insert_Some by eauto.
    + rewrite fmap_insert, insert_id; [done|]. by rewrite lookup_fmap, Htk.
    + intros u uk [[<- <-]|[Hne Hu]]%lookup_insert_Some; unfold holders; simpl.
      * split_and!; try done; lia.
      * specialize (Hdel u). rewrite decide_False in Hdel by congruence.
        destruct (Hr u uk Hu) as (?&?&?). split_and!; try done; lia.
    + intros x xb u [_ Hx]%lookup_delete_Some Hu. rewrite lookup_insert_is_Some'. right. eauto.
Qed.

Lemma destroy_all_heap X : forall s x,
  heap (destroy_all s X) !! x = if decide (x ∈ X) then None else heap s !! x.
Proof.
  unfold destroy_all. induction X as [|o X IH]; intros s x.
  - rewrite decide_False; [done|by apply not_elem_of_nil].
  - cbn [foldl]. rewrite IH, destroy_heap. destruct (decide (x ∈ X)) as [Hx|Hx].
    + rewrite decide_True; [done|]. by apply list_elem_of_further.
    + destruct (decide (x = o)) as [->|Hne].
      * rewrite decide_True by apply list_elem_of_here. apply lookup_delete_eq.
      * rewrite decide_False by set_solver. by rewrite lookup_delete_ne by congruence.
Qed.

Lemma destroy_all_fields X : forall s,
  next (destroy_all s X) = next s /\ globalWriteEpoch (destroy_all s X) = globalWriteEpoch s /\
  latestSnapshotCreationEpoch (destroy_all s X) = latestSnapshotCreationEpoch s /\
  next_token (destroy_all s X) = next_token s /\ readers (destroy_all s X) = readers s /\
  forall t tk', tokens (destroy_all s X) !! t = Some tk' ->
    exists tk, tokens s !! t = Some tk /\ tok_epoch tk' = tok_epoch tk /\ cloneMap tk' = cloneMap tk.
Proof.
  unfold destroy_all. induction X as [|o X IH]; intros s; simpl; [split_and!; eauto|].
  destruct (IH (destroy s o)) as (-> & -> & -> & -> & -> & Ht).
  destruct (destroy_fields s o) as (-> & -> & -> & -> & -> & Ht').
  split_and!; try done. intros t tk' (tk1 & H1 & -> & ->)%Ht. by apply Ht'.
Qed.

Lemma tokens_ok_destroy_all X : forall s, tokens_ok s -> tokens_ok (destroy_all s X).
Proof. induction X as [|o X IH]; intros s H; [done|]. apply IH, tokens_ok_destroy, H. Qed.

Lemma inv_destroy c X :
  Inv c -> unreferenced (st c) X ->
  (forall r, r ∈ readers (st c) -> rd_parent r ∉ X /\ rd_child r ∉ X) ->
  Inv (mkConfig (destroy_all (st c) X) (past c) (origin c)).
Proof.
  intros Hi Hun Hrd.
  pose proof (destroy_all_heap X (st c)) as Hheap.
  destruct (destroy_all_fields X (st c)) as (En & Eg & El & Ent & Er & Htok).
  pose proof (tokens_ok_destroy_all X _ (inv_tokens _ Hi)) as Htk.
  set (s' := destroy_all (st c) X) in *.
  assert (forall x xb, heap s' !! x = Some xb -> x ∉ X /\ heap (st c) !! x = Some xb) as Hback.
  { intros x xb. rewrite Hheap. case_decide; [done|auto]. }
  assert (forall x xb, x ∉ X -> heap (st c) !! x = Some xb -> heap s' !! x = Some xb) as Hfwd.
  { intros x xb Hx. rewrite Hheap. by rewrite decide_False. }
  assert (forall p, (forall x b, VRef x b ∈ p -> x ∉ X) -> refs_exist (st c) p -> refs_exist s' p) as Hrefs.
  { intros p Hn H x b Hx. destruct (H x b Hx) as [xb Hxb]. eauto. }
  split; [|exact Htk|].
  - destruct (inv_heap _ Hi) as [Hn Hl Hob]. split; simpl; rewrite ?En, ?Eg, ?El; [|done|].
    + intros x [xb [_ Hx]%Hback]. eauto.
    + intros x xb [HX Hx]%Hback. destruct (Hob x xb Hx) as (?&?&?&Hr&Hv). split_and!; try done; try lia.
      * apply Hrefs; [|done]. intros y b Hy HyX. by apply (Hun x xb y b Hx HX HyX).
      * intros ver Hver. apply Hrefs; [|by apply Hv]. intros y b Hy HyX.
        by apply (Hun x xb y b Hx HX HyX) in Hver.
  - destruct (inv_history _ Hi) as [Hp Hor His Hfr Hm Hr Hd].
    split; simpl; rewrite ?En, ?Ent, ?Er; try done.
    + intros t tk' o ob p (tk & Ht & -> & _)%Htok Hpp [_ Ho]%Hback. eauto.
    + intros f fb t Hf Hft. destruct (Hback f fb Hf) as [HfX Hf'].
      destruct (Hfr f fb t Hf' Hft) as (_ & Hc & o & Ho & Hpp).
      destruct (tok_held _ Htk f fb t Hf Hft) as [tk' Htk']. split_and!; [by eauto|done|].
      exists o. split; [done|]. intros p Hpast. eapply Forall2_mono_l; [by apply Hpp|].
      intros vf vp Hin [->|(x & y & -> & -> & [(Hy & tk & Htk1 & Hc1)|(-> & cb & Hcb & Hcl)])]; [by left|..];
        right; exists x.
      * exists y. split_and!; [done..|]. left. split; [done|]. exists tk'. split; [done|].
        destruct (Htok t tk' Htk') as (tk0 & H0 & _ & ->). congruence.
      * exists x. split_and!; [done..|]. right. split; [done|]. exists cb. split; [|done].
        apply Hfwd; [|done]. intros HxX. by apply (Hun f fb x true Hf' HfX HxX) in Hin.
    + intros t tk' ch g (tk & Ht & _ & ->)%Htok Hg. destruct (Hm t tk ch g Ht Hg) as [Ho Hgb].
      split; [done|]. intros gb [_ H]%Hback. eauto.
    + intros r Hr'. destruct (Hr r Hr') as (pb & cb & tk & H1 & H2 & H3 & H4 & H5 & H6 & H7 & H8).
      destruct (Hrd r Hr') as [HP HC]. pose proof (Hfwd _ _ HP H1) as H1'.
      destruct (tok_held _ Htk _ _ _ H1' H2) as [tk' Htk'].
      destruct (Htok _ _ Htk') as (tk0 & H0 & _ & Hcm). assert (tk0 = tk) as -> by congruence.
      exists pb, cb, tk'. simpl. split_and!; eauto.
      intros g Hg. rewrite Hheap. case_decide; [done|]. apply H6. congruence.
Qed.

(** *** Trimming *)

Lemma version_below_keep m e l :
  m <= e -> version_below e (keep_to_floor m l) = version_below e l.
Proof.
  intros Hm. induction l as [|v l IH]; simpl; [done|].
  destruct (ver_epoch v <? e) eqn:E; [done|]. apply Z.ltb_ge in E.
  rewrite (proj2 (Z.ltb_ge _ _)) by lia. done.
Qed.

Lemma keep_to_floor_sub m l ver : ver ∈ keep_to_floor m l -> ver ∈ l.
Proof.
  induction l as [|v l IH]; simpl; [done|]. destruct (_ <? _); set_solver.
Qed.

Lemma minEpoch_le s t tk m :
  tokens_ok s -> minEpoch s = Some m -> tokens s !! t = Some tk -> m <= tok_epoch tk.
Proof.
  intros [_ _ He _ _] Hm Ht.
  assert (tok_epoch tk ∈ epochs s) as Hin.
  { rewrite He. apply list_elem_of_fmap. exists (t, tok_epoch tk). split; [done|].
    apply elem_of_map_to_list. by rewrite lookup_fmap, Ht. }
  clear He. unfold minEpoch in Hm. destruct (epochs s) as [|e l]; simplify_eq/=.
  revert Hin. induction l as [|x l IH]; simpl; rewrite !elem_of_cons.
  - intros [->|[]%elem_of_nil]; done.
  - intros [->|[->|Hin]]; [|lia|].
    + assert (foldr Z.min e l <= e); [|lia]. clear. induction l; simpl; lia.
    + assert (foldr Z.min e l <= tok_epoch tk); [|lia]. apply IH. set_solver.
Qed.

Lemma minEpoch_none s t tk :
  tokens_ok s -> minEpoch s = None -> tokens s !! t = Some tk -> False.
Proof.
  intros [_ _ He _ _] Hm Ht. unfold minEpoch in Hm. destruct (epochs s) eqn:E; [|done].
  assert (tok_epoch tk ∈ @nil Z) as Hin; [|by apply elem_of_nil in Hin].
  rewrite He. apply list_elem_of_fmap. exists (t, tok_epoch tk). split; [done|].
  apply elem_of_map_to_list. by rewrite lookup_fmap, Ht.
Qed.

Lemma trim_fields m ob :
  payload (trimVersionChain m ob) = payload ob /\ cloneable (trimVersionChain m ob) = cloneable ob /\
  writeEpoch (trimVersionChain m ob) = writeEpoch ob /\
  snapshotToken (trimVersionChain m ob) = snapshotToken ob /\ cow (trimVersionChain m ob) = cow ob /\
  (forall ver, ver ∈ versionChain (trimVersionChain m ob) -> ver ∈ versionChain ob) /\
  (lastSaveEpoch (trimVersionChain m ob) = lastSaveEpoch ob \/ lastSaveEpoch (trimVersionChain m ob) = 0).
Proof.
  unfold trimVersionChain. destruct (versionChain ob) as [|v l] eqn:E; [rewrite E; auto 10|].
  destruct m as [m|]; simpl; split_and!; auto.
  - intros ver. apply (keep_to_floor_sub m (v :: l)).
  - by intros ver ?%elem_of_nil.
Qed.

Lemma trim_iso m e ob p : m <= e -> iso ob p e -> iso (trimVersionChain (Some m) ob) p e.
Proof.
  intros Hm. unfold trimVersionChain. destruct (versionChain ob) as [|v l] eqn:E; [done|].
  rewrite <- E. unfold iso. simpl. by rewrite version_below_keep.
Qed.

Lemma gc_trim_lookup s marked x :
  heap (gc_trim s marked) !! x =
  (fun ob => if decide (x ∈ marked) then trimVersionChain (minEpoch s) ob else ob) <$> heap s !! x.
Proof. simpl. rewrite map_lookup_imap. by destruct (heap s !! x). Qed.

Lemma inv_trim c marked :
  Inv c -> readers (st c) = [] -> Inv (mkConfig (gc_trim (st c) marked) (past c) (origin c)).
Proof.
  intros Hi Hrd. pose proof (gc_trim_lookup (st c) marked) as Hl.
  set (s' := gc_trim (st c) marked) in *.
  assert (forall x xb, heap s' !! x = Some xb -> exists ob, heap (st c) !! x = Some ob /\
    (xb = ob \/ xb = trimVersionChain (minEpoch (st c)) ob)) as Hback.
  { intros x xb. rewrite Hl. destruct (heap (st c) !! x) as [ob|]; [|done]. simpl. intros [= <-].
    exists ob. split; [done|]. case_decide; auto. }
  assert (forall x, is_Some (heap (st c) !! x) -> is_Some (heap s' !! x)) as Hdom.
  { intros x [xb Hx]. rewrite Hl, Hx. eauto. }
  assert (snapshotToken <$> heap s' = snapshotToken <$> heap (st c)) as Htm.
  { apply map_eq. intros x. rewrite !lookup_fmap, Hl. destruct (heap (st c) !! x) as [ob|]; [|done].
    simpl. f_equal. case_decide; [|done]. by destruct (trim_fields (minEpoch (st c)) ob) as (_&_&_&?&_). }
  split.
  - destruct (inv_heap _ Hi) as [Hn Hg Hob]. split; simpl; [|done|].
    + intros x [xb (ob & Hx & _)%Hback]. eauto.
    + intros x xb (ob & Hx & Hcase)%Hback. destruct (Hob x ob Hx) as (?&?&Hlf&Hr&Hv).
      destruct (trim_fields (minEpoch (st c)) ob) as (Ep & Ec & Ew & Et & Eo & Hch & Hls).
      assert (payload xb = payload ob /\ writeEpoch xb = writeEpoch ob /\ leaf_ok xb /\
        lastSaveEpoch xb <= globalWriteEpoch (st c) /\
        (forall ver, ver ∈ versionChain xb -> ver ∈ versionChain ob)) as (-> & -> & ? & ? & Hv').
      { destruct Hcase as [->| ->]; split_and!; try done; [|lia].
        unfold leaf_ok. by rewrite Ec, Ep, Eo, Et, Ew. }
      split_and!; try done; try lia.
      * intros y b Hy. apply Hdom. by eapply Hr.
      * intros ver Hver y b Hy. apply Hdom. by eapply Hv; [apply Hv'|].
  - by eapply tokens_ok_same; [apply Hi|..].
  - destruct (inv_history _ Hi) as [Hp Hor His Hfr Hm Hr Hd]. split; simpl; try done.
    + intros t tk o xb p Ht Hpp (ob & Ho & Hcase)%Hback. pose proof (His t tk o ob p Ht Hpp Ho) as Hiso.
      destruct Hcase as [->| ->]; [done|]. destruct (minEpoch (st c)) as [m|] eqn:Em.
      * apply trim_iso; [|done]. by eapply minEpoch_le; [apply Hi|..].
      * destruct (minEpoch_none (st c) t tk); [apply Hi|done..].
    + intros f xb t (fb & Hf & Hcase)%Hback Hft.
      destruct (trim_fields (minEpoch (st c)) fb) as (Ep & Ec & Ew & Et & Eo & _).
      assert (snapshotToken fb = Some t /\ payload xb = payload fb /\ cow xb = cow fb) as (Hft' & Epx & Ecx)
        by (destruct Hcase as [->| ->]; split_and!; congruence).
      destruct (Hfr f fb t Hf Hft') as (Hs & Hc & o & Ho & Hpp). split_and!; [done|congruence|].
      exists o. split; [done|]. rewrite Epx. intros p Hpast. eapply Forall2_mono_l; [by apply Hpp|].
      intros vf vp _ [->|(x & y & -> & -> & [(Hy & tk & Htk1 & Hc1)|(-> & cb & Hcb & Hcl)])]; [by left|..];
        right; exists x; [exists y|exists x]; split_and!; try done; [left; eauto|right]. split; [done|].
      simpl. rewrite Hl, Hcb. eexists. split; [done|]. simpl. case_decide; [|done].
      by destruct (trim_fields (minEpoch (st c)) cb) as (_&->&_).
    + intros t tk ch g Ht Hg. destruct (Hm t tk ch g Ht Hg) as [Ho Hgb]. split; [done|].
      intros gb (ob & Hob & Hcase)%Hback. specialize (Hgb ob Hob).
      destruct Hcase as [->| ->]; [done|]. by destruct (trim_fields (minEpoch (st c)) ob) as (_&_&_&->&_).
    + rewrite Hrd. intros r Hr'%elem_of_nil. done.
Qed.

(** *** Every reachable configuration *)

Lemma init_inv : Inv init_config.
Proof.
  split; split; simpl; try done; try lia.
  - by intros o [ob Ho].
  - by intros t [tk Ht].
  - intros r Hr%elem_of_nil. done.
  - apply NoDup_nil_2.
Qed.

Lemma step_inv l c c' : Inv c -> step l c c' -> Inv c'.
Proof.
  intros Hi. destruct 1.
  - by apply inv_new.
  - by eapply inv_begin.
  - by eapply inv_write.
  - by eapply inv_end.
  - by eapply inv_abort.
  - by eapply inv_bare.
  - by eapply inv_snapshot.
  - by eapply inv_read_begin.
  - by eapply inv_read_end.
  - by apply inv_destroy.
  - by apply inv_trim.
Qed.

Lemma reachable_inv c : reachable c -> Inv c.
Proof.
  intros H. assert (forall a b, rtc any_step a b -> Inv a -> Inv b) as Hgen.
  { induction 1 as [|x y z [l Hs] _ IH]; eauto using step_inv. }
  exact (Hgen _ _ H init_inv).
Qed.

(** ** Reading a frozen graph *)

(** The value a path of slots leads to in the captured heap [H]. *)
Fixpoint past_walk (H : gmap nat (list val)) (v : val) (path : list nat) : option val :=
  match path with
  | [] => Some v
  | i :: path' =>
    match v with
    | VRef o false =>
      match H !! o with
      | Some p => match p !! i with Some v' => past_walk H v' path' | None => None end
      | None => None
      end
    | _ => None
    end
  end.

(** [v] is how snapshot [t] shows the captured value [vp]. *)
Definition shows (c : config) (t : nat) (v vp : val) : Prop :=
  match vp with
  | VRef o false =>
    exists g, v = VRef g true /\
      ((exists gb, heap (st c) !! g = Some gb /\ snapshotToken gb = Some t /\
          origin c !! g = Some (t, o)) \/
       (g = o /\ exists ob, heap (st c) !! o = Some ob /\ cloneable ob = false))
  | _ => v = vp
  end.

Definition quiet (c : config) (t : nat) : Prop :=
  (forall o ob, heap (st c) !! o = Some ob -> cow_locked ob = false) /\
  (forall r, r ∈ readers (st c) -> rd_token r <> t).

(** A slot of a frozen clone that is resolved shows the captured slot. *)
Lemma resolved_shows c f fb t i g ch :
  Inv c -> heap (st c) !! f = Some fb -> snapshotToken fb = Some t ->
  payload fb !! i = Some (VRef g true) -> represents c t (VRef g true) (VRef ch false) ->
  shows c t (VRef g true) (VRef ch false).
Proof.
  intros Hi Hf Ht Hg [E|(x & y & [= ->] & [= ->] & [(Ho & tk & Htk & Hc)|(-> & cb & Hcb & Hcl)])].
  - discriminate E.
  - exists y. split; [done|]. left.
    destruct (frozen_slot_alive c f fb t y Hi Hf Ht) as [gb Hgb]; [by eapply list_elem_of_lookup_2|].
    destruct (hist_map _ (inv_history _ Hi) t tk x y Htk Hc) as [_ Hgt]. eauto 10.
  - exists x. split; [done|]. right. eauto.
Qed.

Lemma read_end_steps c r rest cb tk p :
  Inv c -> readers (st c) = r :: rest ->
  heap (st c) !! rd_child r = Some cb -> tokens (st c) !! rd_token r = Some tk ->
  clone_source (rd_version r) cb (tok_epoch tk) = Ret p ->
  exists c' g, read_end (st c) r rest = Ret (st c', VRef g true) /\ Inv c' /\ past c' = past c /\
    readers (st c') = rest /\
    (forall o ob, heap (st c') !! o = Some ob -> cow_locked ob = true ->
       exists ob', heap (st c) !! o = Some ob' /\ cow_locked ob' = true) /\
    (forall o fb, heap (st c) !! o = Some fb -> snapshotToken fb = Some (rd_token r) ->
      o = rd_parent r -> rd_slot r < length (payload fb) ->
      exists fb', heap (st c') !! o = Some fb' /\ snapshotToken fb' = snapshotToken fb /\
        payload fb' !! rd_slot r = Some (VRef g true))%nat /\
    (forall o fb x, heap (st c) !! o = Some fb -> snapshotToken fb = Some (rd_token r) ->
      origin c !! o = Some x -> origin c' !! o = Some x).
Proof.
  intros Hi Hr Hch Htk Hsrc.
  pose proof (next_fresh c (inv_heap _ Hi)) as Hnone.
  pose proof (hist_readers _ (inv_history _ Hi) r) as Hok. rewrite Hr in Hok.
  destruct Hok as (pb & cb0 & tk0 & H1 & H2 & H3 & H4 & H5 & _); [apply list_elem_of_here|].
  pose proof (fun s' g => inv_read_end c [] r rest s' g Hi Hr) as Hinv.
  assert (rd_child r < next (st c))%nat as Hcn by (apply (ok_next _ (inv_heap _ Hi)); eauto).
  assert (rd_parent r < next (st c))%nat as Hpn by (apply (ok_next _ (inv_heap _ Hi)); eauto).
  simpl in Hinv. unfold read_end in *. rewrite Hch, Htk, Hsrc in *. simpl in *.
  destruct p as [p|].
  - specialize (Hinv _ _ eq_refl). rewrite decide_False in Hinv by lia.
    rewrite (cacheElement_eq _ _ _ _ pb) in * by (simpl; by rewrite lookup_insert_ne by lia).
    eexists (mkConfig _ _ _), (next (st c)). split; [reflexivity|]. split; [exact Hinv|]. simpl.
    split_and!; try done.
    + intros o ob [[<- <-]|[Hne [[<- <-]|[Hne' Ho]]%lookup_insert_Some]]%lookup_insert_Some Hl; eauto; done.
    + intros o fb Ho Hot -> Hlen. rewrite lookup_insert_eq. assert (fb = pb) as -> by congruence.
      eexists. split; [done|]. split; [done|]. simpl. by apply list_lookup_insert_eq.
    + intros o fb x Ho _ Hx. rewrite lookup_insert_ne; [done|]. intros <-. congruence.
  - specialize (Hinv _ _ eq_refl). rewrite decide_True in Hinv by done.
    rewrite (cacheElement_eq _ _ _ _ pb) in * by done.
    eexists (mkConfig _ _ _), (rd_child r). split; [reflexivity|]. split; [exact Hinv|]. simpl.
    split_and!; try done.
    + intros o ob [[<- <-]|[Hne Ho]]%lookup_insert_Some Hl; eauto.
    + intros o fb Ho Hot -> Hlen. rewrite lookup_insert_eq. assert (fb = pb) as -> by congruence.
      eexists. split; [done|]. split; [done|]. simpl. by apply list_lookup_insert_eq.
Qed.

(** The pending branch of [read_const], from the state the look-up left. *)
Lemma read_pending c f i fb t tk ch cb o p :
  Inv c -> quiet c t -> heap (st c) !! f = Some fb -> snapshotToken fb = Some t ->
  origin c !! f = Some (t, o) -> past_of c t o = Some p -> p !! i = Some (VRef ch false) ->
  payload fb !! i = Some (VRef ch false) -> heap (st c) !! ch = Some cb ->
  tokens (st c) !! t = Some tk ->
  (forall g, cloneMap tk !! ch = Some g -> heap (st c) !! g = None) ->
  (exists q, past_of c t ch = Some q) ->
  exists c' v,
    read_end (with_readers (st c)
        (mkReader f i t ch (findVersionForEpoch cb (tok_epoch tk)) :: readers (st c)))
      (mkReader f i t ch (findVersionForEpoch cb (tok_epoch tk))) (readers (st c)) = Ret (st c', v) /\
    Inv c' /\ past c' = past c /\ is_Some (tokens (st c') !! t) /\ quiet c' t /\
    shows c' t v (VRef ch false).
Proof.
  intros Hi [Hlk Hrd] Hf Ht Ho Hpo Hpi Hs Hc Htk Hmiss [q Hq].
  pose proof (inv_look c f i fb t tk ch cb Hi Hf Ht Hs Hc Htk Hmiss Hrd) as Hi2.
  set (r := mkReader _ _ _ _ _) in *. set (c2 := mkConfig _ _ _) in Hi2.
  pose proof (hist_iso _ (inv_history _ Hi) t tk ch cb q Htk Hq Hc) as Hiso.
  assert (clone_source (rd_version r) cb (tok_epoch tk) = Ret (if cloneable cb then Some q else None)) as Hsrc.
  { apply clone_source_sound; [done| |by eapply Hlk]. intros x Hx. by eapply findVersion_sound. }
  destruct (read_end_steps c2 r (readers (st c)) cb tk _ Hi2 eq_refl Hc Htk Hsrc)
    as (c' & g & Hend & Hi' & Hpast & Hread & Hlocked & Hslot & Horig).
  exists c', (VRef g true). split; [exact Hend|]. split_and!; [done|by rewrite Hpast| | |].
  - destruct (Hslot f fb Hf Ht eq_refl (lookup_lt_Some _ _ _ Hs)) as (fb' & Hf' & Ht' & _).
    apply (tok_held _ (inv_tokens _ Hi') f fb' t Hf'). congruence.
  - split.
    + intros x xb Hx. destruct (cow_locked xb) eqn:E; [|done].
      destruct (Hlocked x xb Hx E) as (ob' & Hob' & E'). by rewrite (Hlk x ob' Hob') in E'.
    + rewrite Hread. exact Hrd.
  - destruct (Hslot f fb Hf Ht eq_refl (lookup_lt_Some _ _ _ Hs)) as (fb' & Hf' & Ht' & Hp').
    rewrite Ht in Ht'. eapply resolved_shows; [done..|].
    destruct (hist_frozen _ (inv_history _ Hi') f fb' t Hf' Ht') as (_ & _ & o' & Ho' & Hrep).
    assert (o' = o) as ->.
    { pose proof (Horig f fb (t, o) Hf Ht Ho). congruence. }
    assert (past_of c' t o = Some p) as Hpo' by (unfold past_of in *; by rewrite Hpast).
    specialize (Hrep p Hpo'). apply Forall2_same_length_lookup in Hrep as [_ Hrep]. by eapply Hrep.
Qed.

Lemma read_const_shows c f i fb t o p vp :
  Inv c -> quiet c t -> heap (st c) !! f = Some fb -> snapshotToken fb = Some t ->
  origin c !! f = Some (t, o) -> past_of c t o = Some p -> p !! i = Some vp ->
  (forall ch, vp = VRef ch false -> exists q, past_of c t ch = Some q) ->
  exists c' v, read_const (st c) f i = Ret (st c', v) /\ Inv c' /\ past c' = past c /\
    is_Some (tokens (st c') !! t) /\ quiet c' t /\ shows c' t v vp.
Proof.
  intros Hi Hq Hf Ht Ho Hp Hpi Hcap.
  destruct (hist_frozen _ (inv_history _ Hi) f fb t Hf Ht) as ([tk Htk] & _ & o' & Ho' & Hrep).
  assert (o' = o) as -> by congruence. specialize (Hrep p Hp).
  apply Forall2_same_length_lookup in Hrep as [Hlen Hrep].
  destruct (payload fb !! i) as [vf|] eqn:Hvf.
  2:{ apply lookup_ge_None in Hvf. apply lookup_lt_Some in Hpi. lia. }
  specialize (Hrep i vf vp Hvf Hpi). unfold read_const, read_begin. rewrite Hf, Hvf, Ht, Htk.
  destruct vf as [z|ch [|]].
  - destruct Hrep as [<-|(?&?&_&E&_)]; [|done]. simpl. exists c, (VPrim z). split_and!; eauto.
  - simpl. exists c, (VRef ch true). split_and!; [done..|by eauto|done|].
    destruct Hrep as [<-|Hrep]; [done|]. destruct (id Hrep) as (x & y & -> & [= ->] & _).
    eapply resolved_shows; [done..|]. by right.
  - destruct Hrep as [<-|(?&?&_&E&_)]; [|done].
    destruct (ok_obj _ (inv_heap _ Hi) f fb Hf) as (_&_&_&Hr&_).
    destruct (Hr ch false) as [cb Hcb]; [by eapply list_elem_of_lookup_2|].
    destruct (cloneMap tk !! ch) as [g|] eqn:Hg; [destruct (heap (st c) !! g) as [gb|] eqn:Hgb|].
    + simpl. destruct (hist_map _ (inv_history _ Hi) t tk ch g Htk Hg) as [Hog Hgt].
      assert (represents c t (VRef g true) (VRef ch false)) as Hrg.
      { right. exists ch, g. split_and!; [done..|]. left. eauto. }
      exists (cached_config c f i g), (VRef g true). split; [done|].
      split; [by eapply cached_inv; eauto; apply Hq|]. split; [done|].
      split; [destruct (cached_fields c f i g fb Hf) as [-> _]; eauto|]. split.
      * split; [|unfold cached_config; rewrite (cacheElement_eq _ _ _ _ _ Hf); apply Hq].
        intros x xb [[-> ->]|[_ Hx]]%(cached_heap _ _ _ _ _ Hf); [exact (proj1 Hq f fb Hf)|by eapply (proj1 Hq)].
      * exists g. split; [done|]. left.
        destruct (cached_heap_2 c f i g fb Hf g gb Hgb) as (gb' & Hgb' & _).
        exists gb'. split_and!; [done| |done].
        apply (cached_heap c f i g fb Hf) in Hgb' as [[-> ->]|[_ Hx]]; [done|]. by apply Hgt.
    + rewrite Hcb. simpl.
      set (tk' := mkToken (refcount tk) (tok_epoch tk) (delete ch (cloneMap tk))).
      pose proof (inv_erase c t tk ch g Hi Htk Hg Hgb) as Hi'. fold tk' in Hi'.
      apply (read_pending (mkConfig (with_token (st c) t tk') (past c) (origin c)) f i fb t tk' ch cb o p);
        simpl; try done.
      * by rewrite lookup_insert_eq.
      * intros y Hy. by rewrite lookup_delete_eq in Hy.
      * by apply Hcap.
    + rewrite Hcb. apply (read_pending c f i fb t tk ch cb o p); try done; [congruence|by apply Hcap].
Qed.


(** Reading a path returns the captured value, whatever has happened to the live
    objects since. *)
Lemma read_path_shows path : forall c t v vp pt z,
  Inv c -> is_Some (tokens (st c) !! t) -> quiet c t -> shows c t v vp ->
  past c !! t = Some pt -> past_walk pt vp path = Some (VPrim z) ->
  exists c', read_path (st c) v path = Ret (st c', VPrim z) /\ Inv c' /\ past c' = past c.
Proof.
  induction path as [|i path IH]; intros c t v vp pt z Hi [tk Htk] Hq Hs Hpt Hw; simpl in *.
  - injection Hw as ->. simpl in Hs. subst v. eauto.
  - destruct vp as [x|o [|]]; try done. destruct (pt !! o) as [p|] eqn:Hpo; [|done].
    destruct (p !! i) as [vp'|] eqn:Hpi; [|done].
    assert (past_of c t o = Some p) as Hp by (unfold past_of; by rewrite Hpt).
    destruct Hs as (g & -> & [(gb & Hgb & Hgt & Hgo)|(-> & ob & Hob & Hcl)]).
    + destruct (read_const_shows c g i gb t o p vp' Hi Hq Hgb Hgt Hgo Hp Hpi)
        as (c' & v' & Hread & Hi' & Hpast & Htk' & Hq' & Hs').
      { intros ch ->. destruct path as [|j path']; simpl in Hw; [done|].
        unfold past_of. rewrite Hpt. simpl. destruct (pt !! ch); [eauto|done]. }
      rewrite Hread. simpl. rewrite <- Hpast in Hpt |- *. by eapply IH.
    + exfalso. destruct (ok_obj _ (inv_heap _ Hi) o ob Hob) as (_&_&Hleaf&_&_).
      destruct (Hleaf Hcl) as (Hnil & _).
      destruct (hist_iso _ (inv_history _ Hi) t tk o ob p Htk Hp Hob) as [_ [(_ & <- & _)|(_ & ? & _)]];
        [|congruence].
      by rewrite Hnil in Hpi.
Qed.

(** ** Executable traces

    A script of steps with the side conditions of [step] decided. *)

Inductive cmd : Type :=
| CNew (p : list val) (cl : bool)
| CBegin (o : nat)
| CWrite (o : nat) (p : list val)
| CEnd (o : nat)
| CAbort (o : nat)
| CBare (o : nat) (p : list val)
| CSnapshot (o : nat) (sole : bool)
| CReadBegin (f i : nat)
| CReadEnd
| CDestroy (X : list nat)
| CTrim (marked : list nat).

Definition refs_existb (s : state) (p : list val) : bool :=
  forallb (fun v => match v with VPrim _ => true | VRef o _ => bool_decide (is_Some (heap s !! o)) end) p.

Definition refers_into (X : list nat) (p : list val) : bool :=
  existsb (fun v => match v with VPrim _ => false | VRef o _ => bool_decide (o ∈ X) end) p.

Definition unreferencedb (s : state) (X : list nat) : bool :=
  forallb (fun '(o, ob) => bool_decide (o ∈ X) ||
      negb (refers_into X (payload ob)) &&
      forallb (fun ver => negb (refers_into X (ver_snapshot ver))) (versionChain ob))
    (map_to_list (heap s)).

Definition idleb (ob : obj) : bool := match cow ob with Idle => true | _ => false end.

Definition ret_state (m : outcome error state) (k : state -> option config) : option config :=
  match m with Ret s => k s | _ => None end.

Definition exec (c : config) (x : cmd) : option config :=
  let same s := Some (mkConfig s (past c) (origin c)) in
  match x with
  | CNew p cl =>
    if refs_existb (st c) p && (cl || match p with [] => true | _ => false end)
    then same (fst (newObj (st c) p cl)) else None
  | CBegin o =>
    match heap (st c) !! o with
    | Some ob => if cloneable ob then ret_state (mut_begin (st c) o) same else None
    | None => None
    end
  | CWrite o p => if refs_existb (st c) p then ret_state (mut_write (st c) o p) same else None
  | CEnd o => ret_state (mut_end (st c) o) same
  | CAbort o => ret_state (mut_abort (st c) o) same
  | CBare o p =>
    match heap (st c) !! o with
    | Some ob =>
      if cloneable ob && idleb ob && refs_existb (st c) p then ret_state (bare_set (st c) o p) same else None
    | None => None
    end
  | CSnapshot o sole =>
    match createFrozenSnapshot (st c) (VRef o false) sole with
    | Ret (s', VRef f true) =>
      if decide (f = o) then same s'
      else Some (mkConfig s' (<[next_token (st c) := captured (st c)]> (past c))
                   (<[f := (next_token (st c), o)]> (origin c)))
    | _ => None
    end
  | CReadBegin f i =>
    match heap (st c) !! f with
    | Some fb =>
      if forallb (fun rd => bool_decide (snapshotToken fb <> Some (rd_token rd))) (readers (st c))
      then match read_begin (st c) f i with Ret (s', _) => same s' | _ => None end
      else None
    | None => None
    end
  | CReadEnd =>
    match readers (st c) with
    | r :: rest =>
      match read_end (st c) r rest with
      | Ret (s', VRef g true) =>
        Some (mkConfig s' (past c)
                (if decide (g = rd_child r) then origin c
                 else <[g := (rd_token r, rd_child r)]> (origin c)))
      | _ => None
      end
    | [] => None
    end
  | CDestroy X =>
    if bool_decide (NoDup X) && unreferencedb (st c) X &&
       forallb (fun x => match heap (st c) !! x with Some ob => idleb ob | None => true end) X &&
       forallb (fun r => bool_decide (rd_parent r ∉ X) && bool_decide (rd_child r ∉ X)) (readers (st c))
    then same (destroy_all (st c) X) else None
  | CTrim marked =>
    match readers (st c) with
    | [] => if forallb (fun '(_, ob) => idleb ob) (map_to_list (heap (st c)))
            then same (gc_trim (st c) marked) else None
    | _ => None
    end
  end.

Fixpoint run (c : config) (xs : list cmd) : option config :=
  match xs with
  | [] => Some c
  | x :: xs' => match exec c x with Some c' => run c' xs' | None => None end
  end.

Definition cmd_label (x : cmd) : label :=
  match x with CAbort _ => Aborts | _ => Normal end.

Lemma refs_existb_sound s p : refs_existb s p = true -> refs_exist s p.
Proof.
  unfold refs_existb. rewrite forallb_forall. intros H o b Hin.
  apply list_elem_of_In in Hin. specialize (H _ Hin). simpl in H. by apply bool_decide_eq_true in H.
Qed.

Lemma refers_into_sound X p x b : refers_into X p = false -> x ∈ X -> VRef x b ∉ p.
Proof.
  intros H Hx Hin%list_elem_of_In. assert (refers_into X p = true) as E; [|congruence].
  apply existsb_exists. exists (VRef x b). split; [done|]. by apply bool_decide_eq_true.
Qed.

Lemma unreferencedb_sound s X : unreferencedb s X = true -> unreferenced s X.
Proof.
  unfold unreferencedb. rewrite forallb_forall. intros H o ob x b Ho HoX Hx.
  assert (In (o, ob) (map_to_list (heap s))) as Hin
    by (apply list_elem_of_In; by apply elem_of_map_to_list).
  specialize (H _ Hin). simpl in H. apply orb_prop in H as [H|H]; [by apply bool_decide_eq_true in H|].
  apply andb_prop in H as [H1 H2]. apply negb_true_iff in H1.
  split; [by eapply refers_into_sound|]. intros ver Hv.
  rewrite forallb_forall in H2. apply list_elem_of_In in Hv. specialize (H2 _ Hv).
  apply negb_true_iff in H2. by eapply refers_into_sound.
Qed.

Lemma idleb_sound ob : idleb ob = true -> idle ob.
Proof. unfold idleb, idle. by destruct (cow ob). Qed.

Lemma exec_sound c x c' : exec c x = Some c' -> step (cmd_label x) c c'.
Proof.
  destruct x as [p cl|o|o p|o|o|o p|o sole|f i| |X|marked]; cbv beta iota zeta delta [exec cmd_label ret_state].
  - destruct (_ && _) eqn:E; [|done]. apply andb_prop in E as [E1 E2]. intros [= <-].
    apply (step_new c p cl); [by apply refs_existb_sound|]. intros ->. by destruct p.
  - destruct (heap (st c) !! o) as [ob|] eqn:Ho; [|done]. destruct (cloneable ob) eqn:Hc; [|done].
    destruct (mut_begin (st c) o) eqn:E; try done. intros [= <-]. by eapply step_begin.
  - destruct (refs_existb _ _) eqn:Hr; [|done]. apply refs_existb_sound in Hr.
    destruct (mut_write (st c) o p) eqn:E; try done. intros [= <-]. by eapply step_write.
  - destruct (mut_end (st c) o) eqn:E; try done. intros [= <-]. by eapply step_end.
  - destruct (mut_abort (st c) o) eqn:E; try done. intros [= <-]. by eapply step_abort.
  - destruct (heap (st c) !! o) as [ob|] eqn:Ho; [|done]. destruct (_ && _) eqn:Hb; [|done].
    rewrite !andb_true_iff in Hb. destruct Hb as [[Hc Hid] Hr].
    destruct (bare_set (st c) o p) eqn:E; try done. intros [= <-].
    eapply step_bare; [done|done|by apply idleb_sound|by apply refs_existb_sound|done].
  - destruct (createFrozenSnapshot (st c) (VRef o false) sole) as [[s' v]| |] eqn:E; [|done|done].
    destruct v as [z|f b]; [done|]. destruct b; [|done]. intros H.
    pose proof (step_snapshot c o sole s' f E) as Hs. case_decide; congruence.
  - destruct (heap (st c) !! f) as [fb|] eqn:Hf; [|done]. destruct (forallb _ _) eqn:Hr; [|done].
    destruct (read_begin (st c) f i) as [[s' r]| |] eqn:E; try done. intros [= <-].
    eapply step_read_begin; [done| |done]. intros t rd Ht Hrd%list_elem_of_In Heq.
    rewrite forallb_forall in Hr. specialize (Hr _ Hrd). apply bool_decide_eq_true in Hr. congruence.
  - destruct (readers (st c)) as [|r rest] eqn:Hr; [done|].
    destruct (read_end (st c) r rest) as [[s' v]| |] eqn:E; [|done|done].
    destruct v as [z|g b]; [done|]. destruct b; [|done]. intros [= <-].
    by apply (step_read_end c [] r rest s' g).
  - destruct (_ && _) eqn:E; [|done]. rewrite !andb_true_iff in E. destruct E as [[[E1 E2] E3] E4].
    intros [= <-]. rewrite forallb_forall in E3, E4.
    apply step_destroy; [by apply bool_decide_eq_true in E1|by apply unreferencedb_sound|..].
    + intros x ob Hx%list_elem_of_In Hob. specialize (E3 x Hx). rewrite Hob in E3. by apply idleb_sound.
    + intros r Hr%list_elem_of_In. specialize (E4 r Hr). apply andb_prop in E4 as [E5 E6].
      by rewrite bool_decide_eq_true in E5, E6.
  - destruct (readers (st c)) eqn:Hr; [|done]. destruct (forallb _ _) eqn:Hf; [|done]. intros [= <-].
    apply step_trim; [done|]. intros o ob Ho. rewrite forallb_forall in Hf.
    apply idleb_sound. apply (Hf (o, ob)), list_elem_of_In. by apply elem_of_map_to_list.
Qed.

Lemma run_reachable xs : forall c c', reachable c -> run c xs = Some c' -> reachable c'.
Proof.
  induction xs as [|x xs IH]; intros c c' Hc; simpl; [congruence|].
  destruct (exec c x) as [c1|] eqn:E; [|done]. apply IH.
  eapply rtc_r; [exact Hc|]. exists (cmd_label x). by apply exec_sound.
Qed.

(** ** Without aborted mutations every idle object is capturable *)

Definition save_behind (s : state) (ob : obj) : Prop :=
  match cow ob with
  | Idle | Opened false | Dirty false => lastSaveEpoch ob < globalWriteEpoch s
  | _ => True
  end.

Definition saves_behind (s : state) : Prop := map_Forall (fun _ ob => save_behind s ob) (heap s).

Lemma saves_behind_obj s o ob g :
  saves_behind s -> globalWriteEpoch s <= g -> save_behind (with_gwe s g) ob ->
  saves_behind (with_gwe (with_obj s o ob) g).
Proof.
  intros H Hg Hob x xb. simpl. intros [[<- <-]|[_ Hx]]%lookup_insert_Some; [done|].
  specialize (H x xb Hx). unfold save_behind in *. simpl. destruct (cow xb) as [|[]|[]]; lia.
Qed.

Lemma saves_behind_cache s f i v : saves_behind s -> saves_behind (cacheElement s f i v).
Proof.
  intros H. unfold cacheElement. destruct (heap s !! f) as [fb|] eqn:Hf; [|done].
  rewrite <- with_obj_gwe. apply saves_behind_obj; [done|lia|]. exact (H f fb Hf).
Qed.

Lemma step_saves_behind c c' :
  Inv c -> saves_behind (st c) -> step Normal c c' -> saves_behind (st c').
Proof.
  intros Hi H Hs. pose proof (ok_gwe _ (inv_heap _ Hi)) as Hg.
  remember Normal as l eqn:El. destruct Hs as
    [c p cl _ _|c o ob s' Ho _ Hm|c o p s' _ Hm|c o s' Hm|c o s' Hm|c o ob p s' Ho _ Hid _ Hm|c o sole s' f Hm
    |c f i fb s' r _ _ Hm|c l1 r l2 s' g _ Hm|c X _ _ _ _|c marked _ _]; try discriminate El; simpl.
  - intros x xb; simpl; intros [[<- <-]|[_ Hx]]%lookup_insert_Some; [|by apply (H x)]. unfold save_behind. simpl. lia.
  - unfold mut_begin in Hm. rewrite Ho in Hm. destruct (negb _); [done|].
    destruct (cow ob) eqn:Hc; try done. injection Hm as <-. rewrite <- with_obj_gwe.
    apply saves_behind_obj; [done|lia|]. destruct (0 <? _); [done|].
    specialize (H o ob Ho). unfold save_behind in *. rewrite Hc in H. done.
  - unfold mut_write in Hm. destruct (heap (st c) !! o) as [ob|] eqn:Ho; [|done].
    specialize (H o ob Ho) as Hob. unfold save_behind in Hob.
    destruct (cow ob) as [|[]|[]]; try done; injection Hm as <-; rewrite <- with_obj_gwe;
      (apply saves_behind_obj; [done|lia|done]).
  - unfold mut_end in Hm. destruct (heap (st c) !! o) as [ob|] eqn:Ho; [|done].
    specialize (H o ob Ho) as Hob. unfold save_behind in Hob.
    destruct (ok_obj _ (inv_heap _ Hi) o ob Ho) as (_ & Hl & _).
    destruct (cow ob) as [|[]|[]]; try done; injection Hm as <-;
      first [apply saves_behind_obj|rewrite <- with_obj_gwe; apply saves_behind_obj];
      try done; unfold save_behind; simpl; lia.
  - destruct (bare_set_eq _ _ _ _ _ Ho Hm) as [_ ->]. specialize (H o ob Ho) as Hob.
    unfold save_behind in Hob. rewrite Hid in Hob. apply saves_behind_obj; [done|lia|].
    unfold save_behind. simpl. destruct (0 <? _); [|rewrite Hid; lia].
    destruct (saveVersion_fields (st c) ob) as (_ & _ & _ & _ & Hl & _).
    destruct (cow (saveVersion (st c) ob)) as [|[]|[]]; try done; destruct Hl; lia.
  - assert (saves_behind s') as Hs'; [|by case_decide].
    destruct (createFrozenSnapshot_eq _ _ _ _ _ Hm) as [(-> & _)|(ob & _ & _ & _ & _ & _ & ->)]; [done|].
    intros x xb; simpl; intros [[<- <-]|[_ Hx]]%lookup_insert_Some; [unfold save_behind; simpl; lia|].
    specialize (H x xb Hx). unfold save_behind in *; simpl; destruct (cow xb) as [|[]|[]]; lia.
  - unfold read_begin in Hm. destruct (heap (st c) !! f) as [b|] eqn:Hf; [|done].
    destruct (payload b !! i) as [[z|ch [|]]|]; try done; try (injection Hm as <- _; done).
    destruct (snapshotToken b); [|injection Hm as <- _; done].
    destruct (tokens (st c) !! n) as [tk|]; [|done].
    destruct (cloneMap tk !! ch) as [g|]; [destruct (heap (st c) !! g)|].
    + injection Hm as <- _. by apply saves_behind_cache.
    + destruct (heap (st c) !! ch); [|done]. injection Hm as <- _. done.
    + destruct (heap (st c) !! ch); [|done]. injection Hm as <- _. done.
  - unfold read_end in Hm. destruct (heap (st c) !! rd_child r) as [cb|]; [|done].
    destruct (tokens (st c) !! rd_token r) as [tk|]; [|done].
    destruct (clone_source _ _ _) as [[p|]| |]; try done; injection Hm as <- _;
      apply saves_behind_cache; [|done].
    intros x xb; simpl; intros [[<- <-]|[_ Hx]]%lookup_insert_Some; [unfold save_behind; simpl; lia|by apply (H x)].
  - intros x xb. rewrite destroy_all_heap. case_decide; [done|]. intros Hx.
    destruct (destroy_all_fields X (st c)) as (_ & Eg & _). specialize (H x xb Hx).
    unfold save_behind in *. by rewrite Eg.
  - intros x xb. rewrite gc_trim_lookup. destruct (heap (st c) !! x) as [ob|] eqn:Hx; [|done].
    simpl. intros [= <-]. specialize (H x ob Hx). case_decide; [|done].
    destruct (trim_fields (minEpoch (st c)) ob) as (_&_&_&_&Ec&_&Hl). unfold save_behind in *. rewrite Ec. simpl.
    destruct (cow ob) as [|[]|[]]; try done; lia.
Qed.

Lemma normal_reachable c : reachable_normal c -> Inv c /\ saves_behind (st c).
Proof.
  intros H. assert (forall a b, rtc (step Normal) a b ->
    Inv a /\ saves_behind (st a) -> Inv b /\ saves_behind (st b)) as Hgen.
  { induction 1 as [|x y z Hs _ IH]; [done|]. intros [Hi Hb]. apply IH.
    split; [by eapply step_inv|by eapply step_saves_behind]. }
  apply (Hgen _ _ H). split; [apply init_inv|]. intros x xb Hx. done.
Qed.

(** ** Properties *)

(** C1. Snapshot isolation.  In every configuration that guarded mutations, mutations
    in one step, snapshots, reads, destructions and trims lead to, in any
    interleaving, at a moment when no guard is held and no other read of the
    snapshot is half done: a path of slots that, in what the snapshot captured,
    led from its root to a primitive, read from the frozen root, gives that
    primitive and does not fail.  What has been mutated, dropped or trimmed since is
    invisible.  ([snapshot_captures_everything] says what is captured.) *)
Theorem snapshot_isolation c f fb t o pt path z :
  reachable c ->
  heap (st c) !! f = Some fb -> snapshotToken fb = Some t -> origin c !! f = Some (t, o) ->
  quiet c t ->
  past c !! t = Some pt -> past_walk pt (VRef o false) path = Some (VPrim z) ->
  exists s', read_path (st c) (VRef f true) path = Ret (s', VPrim z).
Proof.
  intros Hr Hf Ht Ho Hq Hpt Hw. pose proof (reachable_inv c Hr) as Hi.
  destruct (read_path_shows path c t (VRef f true) (VRef o false) pt z) as (c' & H & _); try done.
  - by eapply (tok_held _ (inv_tokens _ Hi)).
  - exists f. split; [done|]. left. eauto.
  - eauto.
Qed.

(** C2. A read in progress is safe against every interleaving of guarded mutations and
    of mutations in one step: whatever the mutating threads did since its version
    look-up, for a child the snapshot captured the clone half either has to wait for
    the lock or clones exactly the captured payload; the "no version" internal error
    cannot happen. *)
Theorem pending_read_sound c r p :
  reachable c -> r ∈ readers (st c) ->
  past_of c (rd_token r) (rd_child r) = Some p ->
  exists cb tk, heap (st c) !! rd_child r = Some cb /\ tokens (st c) !! rd_token r = Some tk /\
    clone_source (rd_version r) cb (tok_epoch tk) =
      match rd_version r with
      | None => if cow_locked cb then Throw Blocked else Ret (if cloneable cb then Some p else None)
      | Some _ => Ret (Some p)
      end.
Proof.
  intros Hr Hin Hp. pose proof (reachable_inv c Hr) as Hi.
  destruct (hist_readers _ (inv_history _ Hi) r Hin) as (fb & cb & tk & _ & _ & _ & Hc & Ht & _ & Hv & _).
  exists cb, tk. split_and!; [done..|].
  pose proof (hist_iso _ (inv_history _ Hi) _ tk _ cb p Ht Hp Hc) as Hiso.
  destruct (rd_version r) as [q|] eqn:Ev.
  - destruct (Hv q p eq_refl Hp) as [-> Hcl]. simpl. by rewrite Hcl.
  - destruct (cow_locked cb) eqn:El; [|by apply clone_source_sound].
    unfold clone_source, cow_locked in *. by destruct (cow cb) as [|[]|[]].
Qed.

(** Identity is preserved inside a snapshot: two resolved slots of clones of
    one snapshot that stood for the same child hold the same clone. *)
Theorem clone_identity c t f1 fb1 o1 p1 i1 g1 f2 fb2 o2 p2 i2 g2 ch cb :
  reachable c ->
  heap (st c) !! f1 = Some fb1 -> snapshotToken fb1 = Some t -> origin c !! f1 = Some (t, o1) ->
  heap (st c) !! f2 = Some fb2 -> snapshotToken fb2 = Some t -> origin c !! f2 = Some (t, o2) ->
  past_of c t o1 = Some p1 -> p1 !! i1 = Some (VRef ch false) -> payload fb1 !! i1 = Some (VRef g1 true) ->
  past_of c t o2 = Some p2 -> p2 !! i2 = Some (VRef ch false) -> payload fb2 !! i2 = Some (VRef g2 true) ->
  heap (st c) !! ch = Some cb -> cloneable cb = true ->
  g1 = g2.
Proof.
  intros Hr Hf1 Ht1 Ho1 Hf2 Ht2 Ho2 Hp1 Hi1 Hs1 Hp2 Hi2 Hs2 Hc Hcl.
  pose proof (reachable_inv c Hr) as Hi.
  assert (forall f fb o p i g, heap (st c) !! f = Some fb -> snapshotToken fb = Some t ->
    origin c !! f = Some (t, o) -> past_of c t o = Some p -> p !! i = Some (VRef ch false) ->
    payload fb !! i = Some (VRef g true) ->
    exists tk, tokens (st c) !! t = Some tk /\ cloneMap tk !! ch = Some g) as Hgen.
  { intros f fb o p i g Hf Ht Ho Hp Hpi Hs.
    destruct (hist_frozen _ (inv_history _ Hi) f fb t Hf Ht) as (_ & _ & o' & Ho' & Hrep).
    assert (o' = o) as -> by congruence. specialize (Hrep p Hp).
    apply Forall2_same_length_lookup in Hrep as [_ Hrep].
    destruct (Hrep i _ _ Hs Hpi) as [?|(x & y & [= ->] & [= ->] & [(_ & tk & Htk & Hm)|(-> & xb & Hx & Hxc)])];
      [done|eauto|congruence]. }
  destruct (Hgen f1 fb1 o1 p1 i1 g1) as (tk1 & Htk1 & Hm1); try done.
  destruct (Hgen f2 fb2 o2 p2 i2 g2) as (tk2 & Htk2 & Hm2); try done.
  congruence.
Qed.

(** C29. Snapshot accounting: the active count is the number of live tokens, a
    token's reference count is the number of live frozen clones that hold it (so
    it is released with the last one, and not before), and the tracker reports
    no minimum exactly when no snapshot is live. *)
Theorem snapshot_accounting c :
  reachable c ->
  activeSnapshotCount (st c) = Z.of_nat (size (tokens (st c))) /\
  (forall t tk, tokens (st c) !! t = Some tk ->
     refcount tk = Z.of_nat (holders (st c) t) /\ (0 < holders (st c) t)%nat) /\
  (forall o ob t, heap (st c) !! o = Some ob -> snapshotToken ob = Some t ->
     is_Some (tokens (st c) !! t)) /\
  (minEpoch (st c) = None <-> tokens (st c) = ∅) /\
  (forall m t tk, minEpoch (st c) = Some m -> tokens (st c) !! t = Some tk -> m <= tok_epoch tk).
Proof.
  intros Hr. pose proof (inv_tokens _ (reachable_inv c Hr)) as Hok.
  split_and!; [apply Hok| |apply Hok| |].
  - intros t tk Ht. destruct (tok_refcount _ Hok t tk Ht) as (-> & ? & _). split; [done|lia].
  - split.
    + intros Hm. apply map_empty. intros t. destruct (tokens (st c) !! t) eqn:E; [|done].
      by destruct (minEpoch_none _ _ _ Hok Hm E).
    + intros Hm. pose proof (tok_tracker _ Hok) as He. rewrite Hm, fmap_empty, map_to_list_empty in He.
      apply Permutation_nil_r in He. unfold minEpoch. by rewrite He.
  - intros m t tk Hm Ht. by eapply minEpoch_le.
Qed.

(** C30. As long as no mutation method throws between its save and its write, a
    snapshot captures the payload of every object that is not itself frozen and
    not being mutated at that moment. *)
Theorem snapshot_captures_everything c o ob :
  reachable_normal c -> heap (st c) !! o = Some ob -> snapshotToken ob = None -> cow ob = Idle ->
  captured (st c) !! o = Some (payload ob).
Proof.
  intros Hr Ho Ht Hc. destruct (normal_reachable c Hr) as [Hi Hb].
  specialize (Hb o ob Ho). unfold save_behind in Hb. rewrite Hc in Hb.
  unfold captured, capturable. rewrite lookup_omap, Ho. simpl. rewrite Ht, Hc.
  by rewrite (proj2 (Z.ltb_lt _ _)) by lia.
Qed.

(** ** Concrete executions *)

Definition config_of (xs : list cmd) : config :=
  match run init_config xs with Some c => c | None => init_config end.

Definition runs (xs : list cmd) : bool :=
  match run init_config xs with Some _ => true | None => false end.

Lemma config_of_reachable xs : runs xs = true -> reachable (config_of xs).
Proof.
  unfold runs, config_of. destruct (run init_config xs) as [c|] eqn:E; [|done]. intros _.
  eapply run_reachable; [|exact E]. apply rtc_refl.
Qed.

Fixpoint all_normal (xs : list cmd) : bool :=
  match xs with
  | [] => true
  | x :: xs' => match cmd_label x with Normal => all_normal xs' | Aborts => false end
  end.

Lemma config_of_normal xs : runs xs = true -> all_normal xs = true -> reachable_normal (config_of xs).
Proof.
  unfold runs, config_of. intros Hr Hn.
  assert (forall xs c c', reachable_normal c -> all_normal xs = true -> run c xs = Some c' ->
    reachable_normal c') as Hgen.
  { clear. induction xs as [|x xs IH]; intros c c' Hc Hn; simpl in *; [congruence|].
    destruct (exec c x) as [c1|] eqn:E; [|done]. destruct (cmd_label x) eqn:El; [done|].
    apply IH; [|done]. eapply rtc_r; [exact Hc|]. rewrite <- El. by apply exec_sound. }
  destruct (run init_config xs) as [c|] eqn:E; [|done].
  eapply Hgen; [apply rtc_refl|exact Hn|exact E].
Qed.

(** An outer object 2 holding 1 holding the leaf 0; a snapshot (clone 3) of 2;
    then the leaf is mutated twice, a second snapshot (clone 4) is taken between,
    1 is redirected to a new leaf, and the collector trims. *)
Definition demo : list cmd :=
  [CNew [VPrim 1] true; CNew [VRef 0 false; VRef 0 false] true; CNew [VRef 1 false; VPrim 9] true;
   CSnapshot 2 false;
   CBegin 0; CWrite 0 [VPrim 2]; CEnd 0;
   CSnapshot 2 false;
   CBegin 0; CWrite 0 [VPrim 3]; CEnd 0;
   CNew [VPrim 7] true;
   CBegin 1; CWrite 1 [VRef 5 false; VRef 0 false]; CEnd 1;
   CTrim [0; 1; 2]]%nat.

Definition demo_config : config := Eval vm_compute in config_of demo.

Lemma demo_config_eq : config_of demo = demo_config.
Proof. vm_compute. reflexivity. Qed.

Lemma demo_reachable : reachable demo_config.
Proof. rewrite <- demo_config_eq. apply config_of_reachable. vm_compute. reflexivity. Qed.

Definition read_value (c : config) (f : nat) (path : list nat) : option val :=
  match read_path (st c) (VRef f true) path with Ret (_, v) => Some v | _ => None end.

Example demo_reads :
  read_value demo_config 3 [0; 0; 0]%nat = Some (VPrim 1) /\
  read_value demo_config 4 [0; 0; 0]%nat = Some (VPrim 2) /\
  read_value demo_config 4 [1]%nat = Some (VPrim 9).
Proof. vm_compute. auto. Qed.

(** A saved version whose mutation then throws leaves [lastSaveEpoch] equal to
    the next snapshot's epoch.  When the object is later changed while no
    snapshot is alive (no save, no epoch), the next snapshot's first mutation
    skips its save, and the snapshot reads the stale version. *)
Definition aborted : list cmd :=
  [CNew [VPrim 1] true; CNew [VRef 0 false] true;
   CSnapshot 1 false;
   CBegin 0; CAbort 0;
   CDestroy [2];
   CBegin 0; CWrite 0 [VPrim 2]; CEnd 0;
   CSnapshot 1 false;
   CBegin 0; CWrite 0 [VPrim 3]; CEnd 0]%nat.

Lemma aborted_mutation_breaks_isolation :
  runs aborted = true /\
  (** the leaf was 2 when snapshot 3 was taken *)
  runs (take 10 aborted) = true /\
  (payload <$> heap (st (config_of (take 10 aborted))) !! 0%nat) = Some [VPrim 2] /\
  read_value (config_of aborted) 3 [0; 0]%nat = Some (VPrim 1).
Proof. vm_compute. auto. Qed.

(** A mutator without the guard, with a reader between its write and its epoch: the
    reader finds no version, and clones what the snapshot should not see. *)
Lemma bare_mutation_breaks_isolation :
  let c := config_of [CNew [VPrim 1] true; CNew [VRef 0 false] true; CSnapshot 1 false]%nat in
  past_walk (default ∅ (past c !! 0%nat)) (VRef 1 false) [0; 0]%nat = Some (VPrim 1) /\
  (let! s := bare_begin (st c) 0 in
   let! s := bare_write s 0 [VPrim 2] in
   let! r := read_path s (VRef 2 true) [0; 0]%nat in
   let! s := bare_end r.1 0 in
   Ret r.2) = Ret (VPrim 2).
Proof. vm_compute. auto. Qed.

(** A mutation between drawing a snapshot's epoch and publishing it, with an earlier
    snapshot alive for which the object has been saved already: it saves nothing, and
    the new snapshot (clone 3) reads the version saved for the earlier one, 1, though
    the leaf was 2 when it began and 3 when it was done. *)
Lemma mutation_inside_snapshot :
  let c := config_of [CNew [VPrim 1] true; CNew [VRef 0 false] true; CSnapshot 1 false;
                      CBegin 0; CWrite 0 [VPrim 2]; CEnd 0]%nat in
  (payload <$> heap (st c) !! 0%nat) = Some [VPrim 2] /\
  (let! r := snap_clone (st c) 1 in
   let '(s, epoch) := snap_epoch r.1 in
   let! s := mut_begin s 0 in
   let! s := mut_write s 0 [VPrim 3] in
   let! s := mut_end s 0 in
   let s := snap_count (snap_track (snap_publish (snap_token s 3 epoch) epoch) epoch) in
   let! r := read_path s (VRef 3 true) [0; 0]%nat in
   Ret r.2) = Ret (VPrim 1).
Proof. vm_compute. auto. Qed.

(** The root of a snapshot is not entered in its clone map: in a cycle through
    the root the way back leads to a second clone. *)
Definition cyclic : list cmd :=
  [CNew [] true; CNew [VRef 0 false] true;
   CBegin 0; CWrite 0 [VRef 1 false]; CEnd 0;
   CSnapshot 0 false]%nat.

Lemma root_identity_lost :
  runs cyclic = true /\
  past_walk (captured (st (config_of cyclic))) (VRef 0 false) [0; 0]%nat = Some (VRef 0 false) /\
  origin (config_of cyclic) !! 2%nat = Some (0, 0)%nat /\
  read_value (config_of cyclic) 2 [0; 0]%nat = Some (VRef 4 true).
Proof. vm_compute. auto. Qed.

Definition quietb (c : config) (t : nat) : bool :=
  forallb (fun '(_, ob) => negb (cow_locked ob)) (map_to_list (heap (st c))) &&
  forallb (fun r => bool_decide (rd_token r <> t)) (readers (st c)).

Lemma quietb_sound c t : quietb c t = true -> quiet c t.
Proof.
  unfold quietb. intros [H1 H2]%andb_prop. rewrite forallb_forall in H1, H2. split.
  - intros o ob Ho. apply negb_true_iff. apply (H1 (o, ob)), list_elem_of_In.
    by apply elem_of_map_to_list.
  - intros r Hr%list_elem_of_In. specialize (H2 r Hr). by apply bool_decide_eq_true in H2.
Qed.

Lemma snapshot_isolation_witness :
  exists s', read_path (st demo_config) (VRef 3 true) [0; 0; 0]%nat = Ret (s', VPrim 1).
Proof.
  eapply (snapshot_isolation demo_config 3 _ 0 2);
    [exact demo_reachable|vm_compute; reflexivity|vm_compute; reflexivity|vm_compute; reflexivity
    |apply quietb_sound; vm_compute; reflexivity|vm_compute; reflexivity|vm_compute; reflexivity].
Defined.

(** A read that looked before the leaf was mutated and has not cloned yet. *)
Definition overtaken : list cmd :=
  [CNew [VPrim 1] true; CNew [VRef 0 false] true; CSnapshot 1 false; CReadBegin 2 0;
   CBegin 0; CWrite 0 [VPrim 2]; CEnd 0]%nat.

Lemma pending_read_sound_witness :
  exists cb tk, heap (st (config_of overtaken)) !! 0%nat = Some cb /\ payload cb = [VPrim 2] /\
    clone_source None cb (tok_epoch tk) = Ret (Some [VPrim 1]).
Proof.
  destruct (pending_read_sound (config_of overtaken) (mkReader 2 0 0 0 None) [VPrim 1])
    as (cb & tk & Hc & Ht & H).
  - apply config_of_reachable. vm_compute. reflexivity.
  - vm_compute. left.
  - vm_compute. reflexivity.
  - exists cb, tk. split; [exact Hc|]. vm_compute in Hc. injection Hc as <-.
    split; [reflexivity|exact H].
Defined.

(** Both slots of the clone (3) of object 1 read. *)
Definition aliased : list cmd :=
  [CNew [VPrim 1] true; CNew [VRef 0 false; VRef 0 false] true; CSnapshot 1 false;
   CBegin 0; CWrite 0 [VPrim 2]; CEnd 0;
   CReadBegin 2 0; CReadEnd; CReadBegin 2 1]%nat.

Lemma clone_identity_witness :
  runs aliased = true /\ (3 = 3)%nat /\
  (payload <$> heap (st (config_of aliased)) !! 2%nat) = Some [VRef 3 true; VRef 3 true].
Proof.
  split; [vm_compute; reflexivity|]. split; [|vm_compute; reflexivity].
  eapply (clone_identity (config_of aliased) 0 2 _ 1 _ 0 3 2 _ 1 _ 1 3 0);
    try (vm_compute; reflexivity).
  apply config_of_reachable. vm_compute. reflexivity.
Defined.

Lemma snapshot_accounting_witness :
  activeSnapshotCount (st demo_config) = 2 /\ minEpoch (st demo_config) = Some 1.
Proof.
  destruct (snapshot_accounting demo_config demo_reachable) as (H & _).
  split; [rewrite H; vm_compute; reflexivity|vm_compute; reflexivity].
Defined.

Lemma snapshot_captures_everything_witness :
  exists ob, heap (st (config_of demo)) !! 0%nat = Some ob /\
    captured (st (config_of demo)) !! 0%nat = Some (payload ob).
Proof.
  eexists. split; [vm_compute; reflexivity|].
  apply (snapshot_captures_everything (config_of demo) 0);
    [apply config_of_normal; vm_compute; reflexivity|vm_compute; reflexivity..].
Defined.
