(* ===== verification/Value.v ===== *)
(** * NaN-boxed values

    [class Value] of [src/compiler/Value.h] and [Value.cpp]: the 64-bit word, its
    constructors and predicates, integers boxed on the heap when they do not fit
    the 32-bit payload, the scalar conversions, and the arithmetic, bitwise,
    comparison and equality operators on scalars.

    A word is a [Z] below [2^64].  The heap holds boxed primitives and the objects
    that are compared by identity; strings, containers, vectors, futures and
    signals are not in it, and the branches of the operators that handle them are
    not modelled.  Reference counts are the subject of [GcHeap].  A [double] is
    its 64 bits, computed on with the IEEE operations of [SpecFloat]; a NaN result
    is the positive quiet NaN. *)

From Stdlib Require Import SpecFloat.
From S2P Require Import Prelude.
Local Open Scope Z_scope.

(** ** Types and tags *)

Inductive ValueType : Type :=
| TNil | TBool | TByte | TInt | TReal | TDecimal | TEnum | TType
| TString | TRange | TList | TDict | TVector | TMatrix | TSignal | TTensor | TOrient
| TObject | TActor | TModule | TEvent | TFunction | TClosure | TUpvalue
| TQtObject | TJsValue | TBoxed.

#[export] Instance ValueType_eq_dec : EqDecision ValueType.
Proof. solve_decision. Defined.

Definition vt_code (t : ValueType) : Z :=
  match t with
  | TNil => 1 | TBool => 4 | TByte => 5 | TInt => 6 | TReal => 7 | TDecimal => 8
  | TEnum => 9 | TType => 10 | TString => 11 | TRange => 12 | TList => 13 | TDict => 14
  | TVector => 15 | TMatrix => 16 | TSignal => 17 | TTensor => 18 | TOrient => 19
  | TObject => 20 | TActor => 21 | TModule => 22 | TEvent => 23 | TFunction => 24
  | TClosure => 25 | TUpvalue => 26 | TQtObject => 27 | TJsValue => 28 | TBoxed => 255
  end.

Definition all_value_types : list ValueType :=
  [TNil; TBool; TByte; TInt; TReal; TDecimal; TEnum; TType; TString; TRange; TList; TDict;
   TVector; TMatrix; TSignal; TTensor; TOrient; TObject; TActor; TModule; TEvent; TFunction;
   TClosure; TUpvalue; TQtObject; TJsValue; TBoxed].

(** [ValueType(n)], where [n] is the code of an enumerator. *)
Definition vt_of_code (n : Z) : option ValueType :=
  List.find (fun t => vt_code t =? n) all_value_types.

Definition isNilAcceptableTargetType (t : ValueType) : bool :=
  match t with
  | TString | TList | TDict | TObject | TActor | TSignal | TEvent | TFunction | TClosure
  | TTensor | TModule | TJsValue => true
  | _ => false
  end.

Definition QNAN : Z := 0x7ffc000000000000.
Definition SignBit : Z := 0x8000000000000000.
Definition WeakMask : Z := 2 ^ 49.
Definition ConstMask : Z := 2 ^ 48.
Definition TypeTagOffset : Z := 46.
Definition TypeTag : Z := 15 * 2 ^ 46.
Definition tag (n : Z) : Z := n * 2 ^ 46.
Definition TagNil : Z := tag (vt_code TNil).
Definition TagFalse : Z := tag 2.
Definition TagTrue : Z := tag 3.
Definition TagByte : Z := tag (vt_code TByte).
Definition TagInt : Z := tag (vt_code TInt).
Definition TagDecimal : Z := tag (vt_code TDecimal).
Definition TagEnum : Z := tag (vt_code TEnum).
Definition TagType : Z := tag (vt_code TType).

(** The bits outside the payload: [SignBit | QNAN | TypeTag]. *)
Definition TagMask : Z := Z.lor (Z.lor SignBit QNAN) TypeTag.
Definition PtrMask : Z := Z.lor (Z.lor (Z.lor SignBit QNAN) WeakMask) ConstMask.

(** ** Inline constructors *)

Definition nilVal : Z := Z.lor QNAN TagNil.
Definition boolVal (b : bool) : Z := if b then Z.lor QNAN TagTrue else Z.lor QNAN TagFalse.
Definition byteVal (b : Z) : Z := Z.lor (Z.lor QNAN TagByte) (wrapU 8 b).
Definition int32Val (i : Z) : Z := Z.lor (Z.lor QNAN TagInt) (wrapU 32 i).
Definition realVal (bits : Z) : Z := bits.
Definition typeVal (t : ValueType) : Z := Z.lor (Z.lor QNAN TagType) (vt_code t).

(** [enumLabelValue | (uint64_t(enumTypeId) << 16)]: the label is converted to
    64 unsigned bits before the disjunction. *)
Definition enumVal (label id : Z) : Z :=
  Z.lor (Z.lor QNAN TagEnum)
    (Z.land 0xffffffff (Z.lor (wrapU 64 label) (Z.shiftl id 16))).

Definition objWord (ptr : Z) : Z := Z.lor (Z.lor SignBit QNAN) ptr.

(** ** Predicates and raw accessors *)

Definition isNil (w : Z) : bool := w =? nilVal.
Definition isBool (w : Z) : bool :=
  (Z.land w SignBit =? 0) && (Z.lor w (2 ^ TypeTagOffset) =? Z.lor QNAN TagTrue).
Definition isByte (w : Z) : bool := Z.land w TagMask =? Z.lor QNAN TagByte.
Definition isInt (w : Z) : bool := Z.land w TagMask =? Z.lor QNAN TagInt.
Definition isReal (w : Z) : bool := negb (Z.land w QNAN =? QNAN).
Definition isEnum (w : Z) : bool := Z.land w TagMask =? Z.lor QNAN TagEnum.
Definition isType (w : Z) : bool := Z.land w TagMask =? Z.lor QNAN TagType.
Definition isObj (w : Z) : bool := Z.land w (Z.lor QNAN SignBit) =? Z.lor QNAN SignBit.
Definition isWeak (w : Z) : bool :=
  negb (Z.land w WeakMask =? 0) && (Z.land w (Z.lor SignBit QNAN) =? Z.lor SignBit QNAN).
Definition isConst (w : Z) : bool :=
  negb (Z.land w ConstMask =? 0) && (Z.land w (Z.lor SignBit QNAN) =? Z.lor SignBit QNAN).
Definition isPrimitive (w : Z) : bool :=
  isNil w || isBool w || isInt w || isReal w || isType w || isByte w || isEnum w.

(** [asIntUnchecked]: the low 32 bits of the payload, as a signed integer. *)
Definition asIntUnchecked (w : Z) : Z := wrapS 32 (Z.ldiff w (Z.lor QNAN TypeTag)).
Definition asEnum (w : Z) : Z := if isEnum w then wrapS 16 (Z.land w 0xffff) else 0.
Definition enumTypeId (w : Z) : Z := wrapU 16 (Z.shiftr (Z.land w 0xffff0000) 16).
Definition ptrOf (w : Z) : Z := Z.ldiff w PtrMask.

(** [constRef] and [mutableRef] on the word (the copy's counting aside), for a
    value that is not a signal. *)
Definition constRef (w : Z) : Z :=
  if negb (isObj w) then w else if isConst w then w else Z.lor w ConstMask.
Definition mutableRef (w : Z) : Z :=
  if negb (isObj w) then w else if negb (isConst w) then w else Z.ldiff w ConstMask.

(** ** The heap *)

Inductive prim : Type :=
| PBool (b : bool)
| PInt (i : Z)
| PReal (bits : Z)
| PType (t : ValueType).

(** Objects with reference semantics. *)
Inductive ref_kind : Type := KObject | KActor | KModule | KEvent | KFunction | KClosure.

Inductive hobj : Type :=
| HPrim (p : prim)
| HRef (k : ref_kind).

Record heap := mkHeap { objs : gmap Z hobj; brk : Z }.

Definition alloc (h : heap) (o : hobj) : heap * Z :=
  (mkHeap (<[brk h := o]> (objs h)) (brk h + 16), objWord (brk h)).

Inductive error : Type :=
| InvalidArgument
| OverflowError
| ZeroDivisionError
| RuntimeError.

Definition prim_type (p : prim) : ValueType :=
  match p with PBool _ => TBool | PInt _ => TInt | PReal _ => TReal | PType _ => TType end.

Definition ref_type (k : ref_kind) : ValueType :=
  match k with
  | KObject => TObject | KActor => TActor | KModule => TModule | KEvent => TEvent
  | KFunction => TFunction | KClosure => TClosure
  end.

(** The object a (strong) word refers to. *)
Definition asObj (h : heap) (w : Z) : option hobj := objs h !! ptrOf w.

Definition boxed_prim (h : heap) (w : Z) : option prim :=
  if isObj w then match asObj h w with Some (HPrim p) => Some p | _ => None end else None.

(** [isBoxed() && isObjPrimitive(v)] *)
Definition isBoxed (h : heap) (w : Z) : bool :=
  match boxed_prim h w with Some _ => true | None => false end.

Definition fitsInInt32 (i : Z) : bool := (- 2 ^ 31 <=? i) && (i <=? 2 ^ 31 - 1).

Definition intVal (h : heap) (i : Z) : heap * Z :=
  if fitsInInt32 i then (h, int32Val i) else alloc h (HPrim (PInt i)).

(** The word after [unbox()] of a boxed primitive. *)
Definition unbox (w : Z) (p : prim) : Z :=
  match p with
  | PBool b => boolVal b
  | PInt i => if fitsInInt32 i then int32Val i else w
  | PReal bits => realVal bits
  | PType t => typeVal t
  end.

(** [Value::type]; a word with an unassigned tag has no enumerator. *)
Definition inline_type (w : Z) : option ValueType :=
  if isNil w then Some TNil
  else if isBool w then Some TBool
  else if isByte w then Some TByte
  else if isInt w then Some TInt
  else if isReal w then Some TReal
  else vt_of_code (Z.shiftr (Z.land w TypeTag) TypeTagOffset).

Definition type (h : heap) (w : Z) : option ValueType :=
  if isObj w then
    match asObj h w with
    | Some (HPrim p) => Some (prim_type p)
    | Some (HRef k) => Some (ref_type k)
    | None => None
    end
  else inline_type w.

Definition has_type (h : heap) (w : Z) (t : ValueType) : bool := bool_decide (type h w = Some t).

Definition isNumber (h : heap) (w : Z) : bool :=
  has_type h w TInt || has_type h w TReal || has_type h w TByte.
Definition isIntValue (h : heap) (w : Z) : bool := has_type h w TInt.

(** ** IEEE doubles *)

Definition prec : Z := 53.
Definition emax : Z := 1024.

Definition sf_of_bits (w : Z) : spec_float :=
  let s := Z.testbit w 63 in
  let e := Z.land (Z.shiftr w 52) 0x7ff in
  let m := Z.land w (2 ^ 52 - 1) in
  if e =? 0 then
    match m with Zpos p => S754_finite s p (-1074) | _ => S754_zero s end
  else if e =? 0x7ff then
    if m =? 0 then S754_infinity s else S754_nan
  else match m + 2 ^ 52 with Zpos p => S754_finite s p (e - 1075) | _ => S754_zero s end.

Definition sign_bits (s : bool) : Z := if s then 2 ^ 63 else 0.

Definition bits_of_sf (f : spec_float) : Z :=
  match f with
  | S754_zero s => sign_bits s
  | S754_infinity s => sign_bits s + 0x7ff * 2 ^ 52
  | S754_nan => 0x7ff8000000000000
  | S754_finite s m e =>
    if Zpos m <? 2 ^ 52 then sign_bits s + Zpos m
    else sign_bits s + (e + 1075) * 2 ^ 52 + (Zpos m - 2 ^ 52)
  end.

(** [static_cast<double>(i)] *)
Definition double_of_int (i : Z) : Z :=
  bits_of_sf (binary_normalize prec emax i 0 false).

(** [static_cast<int64_t>(d)]: undefined when the truncated value is not an
    [int64_t]. *)
Definition trunc_sf (f : spec_float) : option Z :=
  match f with
  | S754_zero _ => Some 0
  | S754_finite s m e =>
    let a := if 0 <=? e then Zpos m * 2 ^ e else Zpos m / 2 ^ (- e) in
    Some (if s then - a else a)
  | _ => None
  end.

Definition int_of_double (w : Z) (bits : Z) : outcome error Z :=
  match trunc_sf (sf_of_bits bits) with
  | Some z => if bool_decide (inS w z) then Ret z else UB
  | None => UB
  end.

Definition d_add (a b : Z) : Z := bits_of_sf (SFadd prec emax (sf_of_bits a) (sf_of_bits b)).
Definition d_sub (a b : Z) : Z := bits_of_sf (SFsub prec emax (sf_of_bits a) (sf_of_bits b)).
Definition d_mul (a b : Z) : Z := bits_of_sf (SFmul prec emax (sf_of_bits a) (sf_of_bits b)).
Definition d_div (a b : Z) : Z := bits_of_sf (SFdiv prec emax (sf_of_bits a) (sf_of_bits b)).
Definition d_neg (a : Z) : Z := Z.lxor a SignBit.
Definition d_eq (a b : Z) : bool := SFeqb (sf_of_bits a) (sf_of_bits b).
Definition d_lt (a b : Z) : bool := SFltb (sf_of_bits a) (sf_of_bits b).
Definition d_le (a b : Z) : bool := SFleb (sf_of_bits a) (sf_of_bits b).

#[export] Instance inS_decision w x : Decision (inS w x).
Proof. unfold inS. apply _. Defined.

(** ** Scalar conversions *)

Definition ref_conversion {A} (k : ref_kind) (strict : bool) (dflt : A) : outcome error A :=
  match k with
  | KObject | KActor => Throw InvalidArgument
  | _ => if strict then Throw InvalidArgument else Ret dflt
  end.

(** What a conversion looks at: the word itself when it is inline, the unboxed
    word of a boxed primitive, or the object. *)
Inductive operand : Type :=
| OInline (w : Z)
| OObject (k : ref_kind).

Definition operand_of (h : heap) (w : Z) : outcome error operand :=
  if isObj w then
    match asObj h w with
    | Some (HPrim p) => Ret (OInline (unbox w p))
    | Some (HRef k) => Ret (OObject k)
    | None => UB
    end
  else Ret (OInline w).

Definition asInt (h : heap) (w : Z) (strict : bool) : outcome error Z :=
  match boxed_prim h w with
  | Some (PInt i) => Ret i
  | _ =>
    let! o := operand_of h w in
    match o with
    | OObject k => ref_conversion k strict 0
    | OInline v =>
      if isNil v then Throw InvalidArgument
      else match inline_type v with
           | Some TEnum => Ret (asEnum v)
           | Some TByte => Ret (Z.land v 0xff)
           | Some TInt => Ret (asIntUnchecked v)
           | Some TReal => if strict then Throw InvalidArgument else int_of_double 64 v
           | Some TBool => Ret (if v =? Z.lor QNAN TagTrue then 1 else 0)
           | Some TDecimal => Throw RuntimeError
           | _ => if strict then Throw InvalidArgument else Ret 0
           end
    end
  end.

Definition asReal (h : heap) (w : Z) (strict : bool) : outcome error Z :=
  match boxed_prim h w with
  | Some (PReal bits) => Ret bits
  | Some (PInt i) => Ret (double_of_int i)
  | _ =>
    let! o := operand_of h w in
    match o with
    | OObject k => ref_conversion k strict (double_of_int 0)
    | OInline v =>
      if isNil v then Throw InvalidArgument
      else match inline_type v with
           | Some TReal => Ret v
           | Some TInt => Ret (double_of_int (asIntUnchecked v))
           | Some TByte => Ret (double_of_int (Z.land v 0xff))
           | Some TBool => Ret (double_of_int (if v =? Z.lor QNAN TagTrue then 1 else 0))
           | Some TDecimal => Throw RuntimeError
           | _ => if strict then Throw InvalidArgument else Ret (double_of_int 0)
           end
    end
  end.

Definition asByte (h : heap) (w : Z) (strict : bool) : outcome error Z :=
  match boxed_prim h w with
  | Some (PInt i) => if strict then Throw InvalidArgument else Ret (wrapU 8 i)
  | _ =>
    let! o := operand_of h w in
    match o with
    | OObject k => ref_conversion k strict 0
    | OInline v =>
      if isNil v then Throw InvalidArgument
      else match inline_type v with
           | Some TByte => Ret (Z.land v 0xff)
           | Some TInt => if strict then Throw InvalidArgument else Ret (wrapU 8 (asIntUnchecked v))
           | Some TReal =>
             if strict then Throw InvalidArgument
             else let! z := int_of_double 32 v in Ret (wrapU 8 z)
           | Some TBool => Ret (if v =? Z.lor QNAN TagTrue then 1 else 0)
           | Some TDecimal => Throw RuntimeError
           | _ => if strict then Throw InvalidArgument else Ret 0
           end
    end
  end.

Definition asBool (h : heap) (w : Z) (strict : bool) : outcome error bool :=
  match boxed_prim h w with
  | Some (PBool b) => Ret b
  | Some (PInt i) => if strict then Throw InvalidArgument else Ret (negb (i =? 0))
  | _ =>
    let! o := operand_of h w in
    match o with
    | OObject (KObject | KActor) => Throw InvalidArgument
    | OObject _ => Ret false
    | OInline v =>
      if isNil v then Throw InvalidArgument
      else match inline_type v with
           | Some TBool => Ret (v =? Z.lor QNAN TagTrue)
           | Some TByte => if strict then Throw InvalidArgument else Ret (negb (Z.land v 0xff =? 0))
           | Some TInt => if strict then Throw InvalidArgument else Ret (negb (asIntUnchecked v =? 0))
           | Some TReal =>
             if strict then Throw InvalidArgument
             else Ret (negb (d_eq v (double_of_int 0)))
           | Some TDecimal => Throw RuntimeError
           | _ => Ret false
           end
    end
  end.

Definition asType (h : heap) (w : Z) : option ValueType :=
  match boxed_prim h w with
  | Some (PType t) => Some t
  | Some _ => Some TNil
  | None =>
    match type h w with
    | Some TType => vt_of_code (Z.ldiff w (Z.lor QNAN TypeTag))
    | _ => Some TNil
    end
  end.

(** [toType] to the scalar targets (the others build strings and containers). *)
Inductive scalar_target : Type := ToBool | ToByte | ToInt | ToReal.

Definition target_type (t : scalar_target) : ValueType :=
  match t with ToBool => TBool | ToByte => TByte | ToInt => TInt | ToReal => TReal end.

Definition convert (t : scalar_target) (h : heap) (v : Z) (strict : bool) : outcome error (heap * Z) :=
  match t with
  | ToBool => let! b := asBool h v strict in Ret (h, boolVal b)
  | ToByte => let! b := asByte h v strict in Ret (h, byteVal b)
  | ToReal => let! r := asReal h v strict in Ret (h, realVal r)
  | ToInt => let! i := asInt h v strict in Ret (intVal h i)
  end.

Definition toType (t : scalar_target) (h : heap) (w : Z) (strict : bool) : outcome error (heap * Z) :=
  if isNil w then
    if isNilAcceptableTargetType (target_type t) then Ret (h, w) else Throw InvalidArgument
  else
    match boxed_prim h w with
    | None => if has_type h w (target_type t) then Ret (h, w) else convert t h w strict
    | Some p =>
      if bool_decide (prim_type p = target_type t) then
        match p with
        | PInt i => if fitsInInt32 i then Ret (intVal h i) else Ret (h, w)
        | _ => Ret (h, w)
        end
      else
        let u := unbox w p in
        if isBoxed h u then convert t h w strict
        else if has_type h u (target_type t) then Ret (h, u) else convert t h u strict
    end.

(** ** Operators *)

Definition binaryOpType (lt rt : ValueType) : ValueType :=
  match lt, rt with
  | TBool, TBool => TBool
  | TDecimal, _ | _, TDecimal => TDecimal
  | TReal, _ | _, TReal => TReal
  | _, _ => TInt
  end.

Definition op_type (h : heap) (l r : Z) : outcome error ValueType :=
  match type h l, type h r with
  | Some lt, Some rt => Ret (binaryOpType lt rt)
  | _, _ => UB
  end.

Definition isFalsey (w : Z) : bool := isNil w || (isBool w && (w =? boolVal false)).
Definition isTruthy (w : Z) : bool := isBool w && (w =? boolVal true).

(** The numeric arms of [add], [subtract] and [multiply]: the checked 64-bit
    operation, or the double one. *)
Definition numeric (f : Z -> Z -> Z) (d : Z -> Z -> Z) (h : heap) (l r : Z)
    : outcome error (heap * Z) :=
  let! t := op_type h l r in
  match t with
  | TInt =>
    let! a := asInt h l true in
    let! b := asInt h r true in
    if bool_decide (inS 64 (f a b)) then Ret (intVal h (f a b)) else Throw OverflowError
  | TReal =>
    let! a := asReal h l true in
    let! b := asReal h r true in
    Ret (h, realVal (d a b))
  | _ => Ret (h, nilVal)
  end.

Definition add (h : heap) (l r : Z) : outcome error (heap * Z) :=
  if isNumber h l && isNumber h r then numeric Z.add d_add h l r else Throw InvalidArgument.

Definition subtract (h : heap) (l r : Z) : outcome error (heap * Z) :=
  if negb (isNumber h l) then Throw InvalidArgument
  else if negb (isNumber h r) then Throw InvalidArgument
  else numeric Z.sub d_sub h l r.

Definition multiply (h : heap) (l r : Z) : outcome error (heap * Z) :=
  if negb (isNumber h l) then Throw InvalidArgument
  else if negb (isNumber h r) then Throw InvalidArgument
  else numeric Z.mul d_mul h l r.

Definition negate (h : heap) (w : Z) : outcome error (heap * Z) :=
  if isInt w || isByte w then
    let! i := asInt h w true in
    if bool_decide (inS 64 (0 - i)) then Ret (intVal h (0 - i)) else Throw OverflowError
  else if isReal w then
    let! r := asReal h w true in Ret (h, realVal (d_neg r))
  else if isBool w then
    let! b := asBool h w true in Ret (h, boolVal (negb b))
  else Throw InvalidArgument.

Definition divide (h : heap) (l r : Z) : outcome error (heap * Z) :=
  if negb (isNumber h l) then Throw InvalidArgument
  else if negb (isNumber h r) then Throw InvalidArgument
  else
    let! hr := toType ToReal h r false in
    let! d := asReal (fst hr) (snd hr) true in
    if d_eq d (double_of_int 0) then Throw ZeroDivisionError
    else
      let! t := op_type h l r in
      match t with
      | TInt =>
        let! a := asInt h l true in
        let! b := asInt h r true in
        if (a =? - 2 ^ 63) && (b =? -1) then Throw OverflowError
        else if b =? 0 then UB
        else Ret (intVal h (Z.quot a b))
      | TReal =>
        let! a := asReal h l true in
        let! b := asReal h r true in
        Ret (h, realVal (d_div a b))
      | _ => Ret (h, nilVal)
      end.

(** [lhs % rhs] on [int64_t] is undefined when the quotient overflows. *)
Definition mod_ (h : heap) (l r : Z) : outcome error (heap * Z) :=
  if negb (isNumber h l) && negb (isBool l) then Throw InvalidArgument
  else if negb (isNumber h r) && negb (isBool r) then Throw InvalidArgument
  else
    let! hl := toType ToInt h l false in
    let! a := asInt (fst hl) (snd hl) true in
    let! hr := toType ToInt (fst hl) r false in
    let! b := asInt (fst hr) (snd hr) true in
    if b =? 0 then Throw ZeroDivisionError
    else if (a =? - 2 ^ 63) && (b =? -1) then UB
    else Ret (intVal (fst hr) (Z.rem a b)).

Definition bit_operand (h : heap) (w : Z) : bool := isBool w || isByte w || isIntValue h w.

Definition bitwise (fb : bool -> bool -> bool) (fz : Z -> Z -> Z) (h : heap) (l r : Z)
    : outcome error (heap * Z) :=
  if bit_operand h l && bit_operand h r then
    if isBool l && isBool r then
      let! a := asBool h l true in
      let! b := asBool h r true in
      Ret (h, boolVal (fb a b))
    else if isByte l && isByte r then
      let! a := asByte h l false in
      let! b := asByte h r false in
      Ret (h, byteVal (fz a b))
    else
      let! hl := toType ToInt h l false in
      let! a := asInt (fst hl) (snd hl) true in
      let! hr := toType ToInt (fst hl) r false in
      let! b := asInt (fst hr) (snd hr) true in
      Ret (intVal (fst hr) (fz a b))
  else Throw InvalidArgument.

Definition band : heap -> Z -> Z -> outcome error (heap * Z) := bitwise andb Z.land.
Definition bor : heap -> Z -> Z -> outcome error (heap * Z) := bitwise orb Z.lor.
Definition bxor : heap -> Z -> Z -> outcome error (heap * Z) := bitwise xorb Z.lxor.

Definition bnot (h : heap) (w : Z) : outcome error (heap * Z) :=
  if isBool w then let! b := asBool h w true in Ret (h, boolVal (negb b))
  else if isByte w then let! b := asByte h w false in Ret (h, byteVal (Z.lnot b))
  else if isIntValue h w then let! i := asInt h w true in Ret (intVal h (Z.lnot i))
  else Throw InvalidArgument.

Definition logical (f : bool -> bool -> bool) (h : heap) (l r : Z) : outcome error Z :=
  if isBool l && isBool r then
    let! a := asBool h l true in
    let! b := asBool h r true in
    Ret (boolVal (f a b))
  else Throw InvalidArgument.

Definition land : heap -> Z -> Z -> outcome error Z := logical andb.
Definition lor : heap -> Z -> Z -> outcome error Z := logical orb.

(** The number arms of the four order operators. *)
Definition compare_op (f : Z -> Z -> bool) (d : Z -> Z -> bool) (h : heap) (l r : Z)
    : outcome error Z :=
  if isNumber h l && isNumber h r then
    let! t := op_type h l r in
    match t with
    | TInt =>
      let! a := asInt h l true in
      let! b := asInt h r true in
      Ret (boolVal (f a b))
    | TReal =>
      let! a := asReal h l true in
      let! b := asReal h r true in
      Ret (boolVal (d a b))
    | _ => Ret (boolVal false)
    end
  else Throw InvalidArgument.

Definition less := compare_op Z.ltb d_lt.
Definition greater := compare_op (fun a b => b <? a) (fun a b => d_lt b a).
Definition lessEqual := compare_op Z.leb d_le.
Definition greaterEqual := compare_op (fun a b => b <=? a) (fun a b => d_le b a).

Definition valueSemantics (h : heap) (w : Z) : bool :=
  if negb (isObj w) then true else isBoxed h w.

(** [Value::equals] *)
Definition equals (h : heap) (l r : Z) : outcome error bool :=
  if isNil l then Ret (isNil r)
  else if isNil r then Ret (isNil l)
  else if isBool l then
    if isBool r then
      let! a := asBool h l true in
      let! b := asBool h r true in
      Ret (eqb a b)
    else Ret false
  else if has_type h l TInt && has_type h r TInt then
    let! a := asInt h l true in
    let! b := asInt h r true in
    Ret (a =? b)
  else if has_type h l TReal && has_type h r TReal then
    let! a := asReal h l true in
    let! b := asReal h r true in
    Ret (d_eq a b)
  else if isType l then Ret (isType r && bool_decide (asType h l = asType h r))
  else if isEnum l then
    Ret (isEnum r && (enumTypeId l =? enumTypeId r) && (asEnum l =? asEnum r))
  else if isNumber h l && isNumber h r then
    let! t := op_type h l r in
    match t with
    | TInt =>
      let! a := asInt h l true in
      let! b := asInt h r true in
      Ret (a =? b)
    | TReal =>
      let! a := asReal h l true in
      let! b := asReal h r true in
      Ret (d_eq a b)
    | _ => Throw RuntimeError
    end
  else if negb (valueSemantics h l) || negb (valueSemantics h r) then
    if negb (negb (valueSemantics h l) && negb (valueSemantics h r)) then Ret false
    else Ret (ptrOf l =? ptrOf r)
  else Ret false.

Definition equal (h : heap) (l r : Z) : outcome error Z :=
  let! b := equals h l r in Ret (boolVal b).
Definition notEqual (h : heap) (l r : Z) : outcome error Z :=
  let! b := equals h l r in Ret (boolVal (negb b)).

(** [Value::hash] on a 64-bit target; [std::hash] of an integer is the integer. *)
Definition hash (h : heap) (w : Z) : Z :=
  match boxed_prim h w with
  | Some (PBool b) => if b then 1 else 0
  | Some (PInt i) => wrapU 64 i
  | Some (PReal bits) => bits
  | Some (PType t) => vt_code t
  | None => w
  end.

(** ** Bit-level lemmas: a tag and a payload below it *)

Lemma land_small_high u m n :
  0 <= n -> 0 <= u < 2 ^ n -> Z.land u (m * 2 ^ n) = 0.
Proof.
  intros Hn Hu. rewrite <- Z.shiftl_mul_pow2 by done. apply Z.bits_inj'. intros k Hk.
  rewrite Z.land_spec, Z.shiftl_spec, Z.bits_0 by done.
  destruct (Z_lt_ge_dec k n).
  - rewrite (Z.testbit_neg_r m) by lia. apply andb_false_r.
  - assert (Z.testbit u k = false) as ->; [|done].
    destruct (Z.eq_dec u 0) as [->|]; [apply Z.bits_0|].
    apply Z.bits_above_log2; [lia|].
    assert (Z.log2 u < n); [|lia]. apply Z.log2_lt_pow2; lia.
Qed.

(** Masking a tagged word with bits at or above 46 sees the tag alone. *)
Lemma tagged_mask c u m :
  0 <= u < 2 ^ 46 -> Z.land (Z.lor c u) (m * 2 ^ 46) = Z.land c (m * 2 ^ 46).
Proof.
  intros Hu. rewrite Z.land_lor_distr_l, (land_small_high u m 46) by lia. apply Z.lor_0_r.
Qed.

(** Clearing the tag leaves the payload. *)
Lemma tagged_clear c u m :
  Z.ldiff c m = 0 -> Z.land u m = 0 -> Z.ldiff (Z.lor c u) m = u.
Proof.
  intros Hc Hu. apply Z.bits_inj'. intros k Hk.
  assert (Z.testbit (Z.ldiff c m) k = false) as Hc' by (rewrite Hc; apply Z.bits_0).
  assert (Z.testbit (Z.land u m) k = false) as Hu' by (rewrite Hu; apply Z.bits_0).
  rewrite Z.ldiff_spec in *. rewrite Z.land_spec in Hu'. rewrite Z.lor_spec.
  destruct (Z.testbit c k), (Z.testbit u k), (Z.testbit m k); try done.
Qed.

(** Masking with low bits sees the payload. *)
Lemma tagged_low c u n :
  0 <= n -> c mod 2 ^ n = 0 -> Z.land (Z.lor c u) (Z.ones n) = u mod 2 ^ n.
Proof.
  intros Hn Hc. rewrite Z.land_lor_distr_l, !Z.land_ones, Hc by done. apply Z.lor_0_l.
Qed.

Lemma mask_weaken w m n v : Z.land w m = v -> Z.land w (Z.land m n) = Z.land v n.
Proof. intros <-. by rewrite Z.land_assoc. Qed.

(** ** Classification of words *)

Inductive kind : Type := KNil | KBool | KByte | KInt | KReal | KEnum | KType | KObj.

Definition kinds_of (w : Z) : list kind :=
  (if isNil w then [KNil] else []) ++ (if isBool w then [KBool] else []) ++
  (if isByte w then [KByte] else []) ++ (if isInt w then [KInt] else []) ++
  (if isReal w then [KReal] else []) ++ (if isEnum w then [KEnum] else []) ++
  (if isType w then [KType] else []) ++ (if isObj w then [KObj] else []).

(** Every predicate but [isReal] fixes the tag bits. *)
Lemma isNil_tag w : isNil w = true -> Z.land w TagMask = Z.lor QNAN TagNil.
Proof. intros ->%Z.eqb_eq. reflexivity. Qed.

Lemma isBool_word w : isBool w = true -> w = boolVal true \/ w = boolVal false.
Proof.
  unfold isBool. intros [H1 H2]%andb_prop. apply Z.eqb_eq in H1, H2.
  assert (w = Z.lor (Z.ldiff (Z.lor QNAN TagTrue) (2 ^ 46)) (Z.land w (2 ^ 46))) as E.
  { rewrite <- H2. apply Z.bits_inj'. intros k Hk.
    rewrite Z.lor_spec, Z.ldiff_spec, Z.lor_spec, Z.land_spec. unfold TypeTagOffset.
    destruct (Z.testbit w k), (Z.testbit (2 ^ 46) k); done. }
  destruct (Z.testbit w 46) eqn:Eb.
  - left. rewrite E.
    assert (Z.land w (2 ^ 46) = 2 ^ 46) as ->; [|reflexivity].
    apply Z.bits_inj'. intros k Hk. rewrite Z.land_spec, Z.pow2_bits_eqb by lia.
    destruct (Z.eqb_spec 46 k) as [<-|]; [by rewrite Eb|apply andb_false_r].
  - right. rewrite E.
    assert (Z.land w (2 ^ 46) = 0) as ->; [|reflexivity].
    apply Z.bits_inj'. intros k Hk. rewrite Z.land_spec, Z.pow2_bits_eqb, Z.bits_0 by lia.
    destruct (Z.eqb_spec 46 k) as [<-|]; [by rewrite Eb|apply andb_false_r].
Qed.

Lemma isBool_tag w :
  isBool w = true -> Z.land w TagMask = Z.lor QNAN TagTrue \/ Z.land w TagMask = Z.lor QNAN TagFalse.
Proof. intros [->| ->]%isBool_word; [left|right]; reflexivity. Qed.

Lemma tag_real w t : Z.land w TagMask = t -> isReal w = negb (Z.land t QNAN =? QNAN).
Proof.
  intros H. unfold isReal. change QNAN with (Z.land TagMask QNAN) at 1.
  by rewrite (mask_weaken w TagMask QNAN t H).
Qed.

Lemma tag_obj w t :
  Z.land w TagMask = t -> isObj w = (Z.land t (Z.lor QNAN SignBit) =? Z.lor QNAN SignBit).
Proof.
  intros H. unfold isObj. change (Z.lor QNAN SignBit) with (Z.land TagMask (Z.lor QNAN SignBit)) at 1.
  by rewrite (mask_weaken w TagMask (Z.lor QNAN SignBit) t H).
Qed.

(** The predicates decided by the tag bits. *)
Definition tag_kinds (w t : Z) : Prop :=
  isByte w = (t =? Z.lor QNAN TagByte) /\ isInt w = (t =? Z.lor QNAN TagInt) /\
  isEnum w = (t =? Z.lor QNAN TagEnum) /\ isType w = (t =? Z.lor QNAN TagType) /\
  isReal w = negb (Z.land t QNAN =? QNAN) /\
  isObj w = (Z.land t (Z.lor QNAN SignBit) =? Z.lor QNAN SignBit).

Lemma tag_classify w t : Z.land w TagMask = t -> tag_kinds w t.
Proof.
  intros H. unfold tag_kinds, isByte, isInt, isEnum, isType. rewrite H.
  split_and!; try done; [by apply tag_real|by apply tag_obj].
Qed.

Lemma not_nil_tag w t : Z.land w TagMask = t -> t <> Z.lor QNAN TagNil -> isNil w = false.
Proof.
  intros H Ht. destruct (isNil w) eqn:E; [|done]. apply isNil_tag in E. congruence.
Qed.

Lemma not_bool_tag w t :
  Z.land w TagMask = t -> t <> Z.lor QNAN TagTrue -> t <> Z.lor QNAN TagFalse -> isBool w = false.
Proof.
  intros H H1 H2. destruct (isBool w) eqn:E; [|done]. destruct (isBool_tag w E); congruence.
Qed.

(** An inline word of tag [t] over a payload below bit 46. *)
Lemma inline_tag t u :
  0 <= u < 2 ^ 46 -> Z.land t TagMask = t -> Z.land (Z.lor t u) TagMask = t.
Proof.
  intros Hu Ht. change TagMask with (Z.shiftr TagMask 46 * 2 ^ 46) in *. rewrite tagged_mask by done.
  exact Ht.
Qed.

(** ** Encoding and decoding *)

Inductive scalar : Type :=
| SNil
| SBool (b : bool)
| SByte (b : Z)
| SInt (i : Z)
| SReal (bits : Z)
| SEnum (label id : Z)
| SType (t : ValueType)
| SObj (ptr : Z).

Definition kind_of (s : scalar) : kind :=
  match s with
  | SNil => KNil | SBool _ => KBool | SByte _ => KByte | SInt _ => KInt | SReal _ => KReal
  | SEnum _ _ => KEnum | SType _ => KType | SObj _ => KObj
  end.

Definition encode (s : scalar) : Z :=
  match s with
  | SNil => nilVal
  | SBool b => boolVal b
  | SByte b => byteVal b
  | SInt i => int32Val i
  | SReal bits => realVal bits
  | SEnum label id => enumVal label id
  | SType t => typeVal t
  | SObj ptr => objWord ptr
  end.

Definition decode (w : Z) : option scalar :=
  match kinds_of w with
  | [KNil] => Some SNil
  | [KBool] => Some (SBool (w =? Z.lor QNAN TagTrue))
  | [KByte] => Some (SByte (Z.land w 0xff))
  | [KInt] => Some (SInt (asIntUnchecked w))
  | [KReal] => Some (SReal w)
  | [KEnum] => Some (SEnum (asEnum w) (enumTypeId w))
  | [KType] => SType <$> vt_of_code (Z.ldiff w (Z.lor QNAN TypeTag))
  | [KObj] => Some (SObj (ptrOf w))
  | _ => None
  end.

(** The values each constructor is given: a real is any double whose bits are
    not claimed by the tag space, an enum label is non-negative, a pointer has 48
    bits. *)
Definition scalar_ok (s : scalar) : Prop :=
  match s with
  | SByte b => inU 8 b
  | SInt i => inS 32 i
  | SReal bits => inU 64 bits /\ Z.land bits QNAN <> QNAN
  | SEnum label id => 0 <= label < 2 ^ 15 /\ inU 16 id
  | SObj ptr => inU 48 ptr
  | _ => True
  end.

Ltac by_tag H :=
  pose proof (tag_classify _ _ H) as (?Hby & ?Hin & ?Hen & ?Hty & ?Hre & ?Hob);
  pose proof (not_nil_tag _ _ H) as ?Hni; pose proof (not_bool_tag _ _ H) as ?Hbo.

Lemma kinds_of_tag w t k :
  Z.land w TagMask = t -> t <> Z.lor QNAN TagNil -> t <> Z.lor QNAN TagTrue ->
  t <> Z.lor QNAN TagFalse ->
  (if t =? Z.lor QNAN TagByte then [KByte] else []) ++
  (if t =? Z.lor QNAN TagInt then [KInt] else []) ++
  (if negb (Z.land t QNAN =? QNAN) then [KReal] else []) ++
  (if t =? Z.lor QNAN TagEnum then [KEnum] else []) ++
  (if t =? Z.lor QNAN TagType then [KType] else []) ++
  (if Z.land t (Z.lor QNAN SignBit) =? Z.lor QNAN SignBit then [KObj] else []) = k ->
  kinds_of w = k.
Proof.
  intros H H1 H2 H3 <-. by_tag H. unfold kinds_of.
  rewrite Hni, Hbo by done. by rewrite Hby, Hin, Hen, Hty, Hre, Hob.
Qed.

Lemma payload_tag n u :
  0 <= u < 2 ^ 46 -> 0 <= n < 16 ->
  Z.land (Z.lor (Z.lor QNAN (tag n)) u) TagMask = Z.lor QNAN (tag n).
Proof.
  intros Hu Hn. apply inline_tag; [done|].
  assert (forallb (fun k => Z.land (Z.lor QNAN (tag k)) TagMask =? Z.lor QNAN (tag k)) (seqZ 0 16) = true)
    as H by (vm_compute; reflexivity).
  rewrite forallb_forall in H. apply Z.eqb_eq, H, list_elem_of_In, elem_of_seqZ. lia.
Qed.

Lemma byte_tag b : Z.land (byteVal b) TagMask = Z.lor QNAN TagByte.
Proof.
  apply (payload_tag (vt_code TByte)); [|by vm_compute].
  pose proof (wrapU_range 8 b). unfold inU in *. lia.
Qed.

Lemma int_tag i : Z.land (int32Val i) TagMask = Z.lor QNAN TagInt.
Proof.
  apply (payload_tag (vt_code TInt)); [|by vm_compute].
  pose proof (wrapU_range 32 i). unfold inU in *. lia.
Qed.

Lemma land_range a n : 0 <= n -> 0 <= Z.land (Z.ones n) a < 2 ^ n.
Proof. intros Hn. rewrite Z.land_comm, Z.land_ones by done. apply Z.mod_pos_bound. lia. Qed.

Lemma enum_tag l i : Z.land (enumVal l i) TagMask = Z.lor QNAN TagEnum.
Proof.
  apply (payload_tag (vt_code TEnum)); [|by vm_compute].
  pose proof (land_range (Z.lor (wrapU 64 l) (Z.shiftl i 16)) 32 ltac:(lia)) as H.
  change (Z.ones 32) with 0xffffffff in H. lia.
Qed.

Lemma type_tag t : Z.land (typeVal t) TagMask = Z.lor QNAN TagType.
Proof. by destruct t. Qed.

Lemma wrapS_wrapU w x : 0 < w -> wrapS w (wrapU w x) = wrapS w x.
Proof.
  intros Hw. unfold wrapS, wrapU. f_equal.
  by rewrite Zplus_mod_idemp_l.
Qed.

Lemma int_payload i : inS 32 i -> asIntUnchecked (int32Val i) = i.
Proof.
  intros Hi. unfold asIntUnchecked, int32Val. rewrite tagged_clear.
  - rewrite wrapS_wrapU by lia. by rewrite wrapS_id.
  - reflexivity.
  - change (Z.lor QNAN TypeTag) with (Z.shiftr (Z.lor QNAN TypeTag) 46 * 2 ^ 46).
    apply land_small_high; [lia|]. pose proof (wrapU_range 32 i). unfold inU in *. lia.
Qed.

Lemma byte_payload b : inU 8 b -> Z.land (byteVal b) 0xff = b.
Proof.
  intros Hb. unfold byteVal. change 0xff with (Z.ones 8). rewrite tagged_low; [|lia|reflexivity].
  rewrite wrapU_id by done. by apply Z.mod_small.
Qed.

Lemma obj_word_obj p : isObj (objWord p) = true.
Proof.
  unfold isObj, objWord. apply Z.eqb_eq. rewrite Z.land_lor_distr_l.
  change (Z.land (Z.lor SignBit QNAN) (Z.lor QNAN SignBit)) with (Z.lor QNAN SignBit).
  apply Z.bits_inj'. intros k Hk. rewrite Z.lor_spec, Z.land_spec.
  by destruct (Z.testbit (Z.lor QNAN SignBit) k), (Z.testbit p k).
Qed.

(** A word with the object bits is nothing else. *)
Lemma obj_not_inline w :
  isObj w = true ->
  isNil w = false /\ isBool w = false /\ isByte w = false /\ isInt w = false /\
  isReal w = false /\ isEnum w = false /\ isType w = false.
Proof.
  intros Ho. set (t := Z.land w TagMask). assert (Z.land w TagMask = t) as H by done.
  clearbody t. by_tag H. rewrite Ho in Hob. symmetry in Hob. apply Z.eqb_eq in Hob.
  assert (forall c, Z.land c (Z.lor QNAN SignBit) <> Z.lor QNAN SignBit -> (t =? c) = false) as Hne.
  { intros c Hc. apply Z.eqb_neq. congruence. }
  assert (forall c, (t =? c) = false -> t <> c) as Hne' by (intros c; by apply Z.eqb_neq).
  split_and!; [apply Hni; by apply Hne', Hne|apply Hbo; by apply Hne', Hne| | | | |].
  - rewrite Hby. by apply Hne.
  - rewrite Hin. by apply Hne.
  - rewrite Hre. change QNAN with (Z.land (Z.lor QNAN SignBit) QNAN) at 1.
    rewrite (mask_weaken _ _ QNAN _ Hob). reflexivity.
  - rewrite Hen. by apply Hne.
  - rewrite Hty. by apply Hne.
Qed.

Lemma obj_kinds w : isObj w = true -> kinds_of w = [KObj].
Proof.
  intros Ho. destruct (obj_not_inline w Ho) as (H1&H2&H3&H4&H5&H6&H7). unfold kinds_of.
  by rewrite H1, H2, H3, H4, H5, H6, H7, Ho.
Qed.

Lemma obj_payload p : inU 48 p -> ptrOf (objWord p) = p.
Proof.
  intros Hp. unfold ptrOf, objWord. apply tagged_clear; [reflexivity|].
  change PtrMask with (Z.shiftr PtrMask 48 * 2 ^ 48). apply land_small_high; [lia|done].
Qed.

Lemma real_kinds w : Z.land w QNAN <> QNAN -> kinds_of w = [KReal].
Proof.
  intros Hw. set (t := Z.land w TagMask). assert (Z.land w TagMask = t) as H by done. clearbody t.
  pose proof (tag_real w t H) as Hr. unfold isReal in Hr.
  rewrite (proj2 (Z.eqb_neq _ _) Hw) in Hr. simpl in Hr. symmetry in Hr.
  apply negb_true_iff, Z.eqb_neq in Hr.
  assert (forall c, Z.land c QNAN = QNAN -> t <> c) as Hne by congruence.
  eapply kinds_of_tag; [exact H|apply Hne; reflexivity..|].
  rewrite !(proj2 (Z.eqb_neq _ _)); try done; try (apply Hne; reflexivity).
  intros E. apply Hr. change QNAN with (Z.land (Z.lor QNAN SignBit) QNAN) at 1.
  by rewrite (mask_weaken _ _ QNAN _ E).
Qed.

Lemma enum_payload l i :
  0 <= l < 2 ^ 15 -> inU 16 i -> asEnum (enumVal l i) = l /\ enumTypeId (enumVal l i) = i.
Proof.
  intros Hl Hi. unfold asEnum, isEnum. rewrite enum_tag, Z.eqb_refl.
  assert (Z.land (enumVal l i) 0xffffffff = i * 2 ^ 16 + l) as Hlow.
  { unfold enumVal. change 0xffffffff with (Z.ones 32) at 2. rewrite tagged_low; [|lia|reflexivity].
    rewrite wrapU_id by (unfold inU; lia).
    change 0xffffffff with (Z.ones 32). rewrite (Z.land_comm (Z.ones 32)), Z.land_ones by lia.
    rewrite Z.mod_mod by lia. rewrite Z.lor_comm.
    assert (Z.land (Z.shiftl i 16) l = 0) as Hd.
    { rewrite Z.land_comm, Z.shiftl_mul_pow2 by lia. apply land_small_high; lia. }
    rewrite <- Z.lxor_lor, <- Z.add_nocarry_lxor by done.
    unfold inU in Hi. rewrite Z.shiftl_mul_pow2 by lia. apply Z.mod_small. lia. }
  unfold inU in Hi. split.
  - change 0xffff with (Z.land 0xffffffff 0xffff). rewrite Z.land_assoc, Hlow.
    change 0xffff with (Z.ones 16). rewrite Z.land_ones by lia.
    rewrite Z.add_comm, Z.mod_add by lia. rewrite Z.mod_small by lia. apply wrapS_id; [lia|].
    unfold inS. lia.
  - unfold enumTypeId. change 0xffff0000 with (Z.land 0xffffffff 0xffff0000).
    rewrite Z.land_assoc, Hlow. rewrite Z.shiftr_land. change (Z.shiftr 0xffff0000 16) with (Z.ones 16).
    rewrite Z.shiftr_div_pow2, Z.land_ones by lia.
    rewrite Z.div_add_l, (Z.div_small l) by lia. rewrite Z.add_0_r, Z.mod_small by lia.
    by apply wrapU_id.
Qed.

Lemma vt_code_roundtrip t : vt_of_code (vt_code t) = Some t.
Proof. by destruct t. Qed.

Lemma scalar_kinds s : scalar_ok s -> kinds_of (encode s) = [kind_of s].
Proof.
  destruct s as [|b|b|i|r|l i|t|p]; simpl; intros Hs.
  - reflexivity.
  - by destruct b.
  - eapply kinds_of_tag; [apply byte_tag|by vm_compute..].
  - eapply kinds_of_tag; [apply int_tag|by vm_compute..].
  - destruct Hs as [_ Hs]. by apply real_kinds.
  - eapply kinds_of_tag; [apply enum_tag|by vm_compute..].
  - eapply kinds_of_tag; [apply type_tag|by vm_compute..].
  - apply obj_kinds, obj_word_obj.
Qed.

Lemma scalar_decode s : scalar_ok s -> decode (encode s) = Some s.
Proof.
  intros Hs. unfold decode. rewrite (scalar_kinds s Hs).
  destruct s as [|b|b|i|r|l i|t|p]; simpl in *; try done.
  - by destruct b.
  - by rewrite byte_payload.
  - by rewrite int_payload.
  - destruct Hs as [Hl Hi]. by destruct (enum_payload l i Hl Hi) as [-> ->].
  - by destruct t.
  - by rewrite obj_payload.
Qed.

Lemma kinds_at_most_one w : (length (kinds_of w) <= 1)%nat.
Proof.
  set (t := Z.land w TagMask). assert (Z.land w TagMask = t) as H by done. clearbody t.
  destruct (isObj w) eqn:Ho; [by rewrite (obj_kinds w Ho)|].
  destruct (decide (Z.land w QNAN = QNAN)) as [Hq|Hq]; [|by rewrite (real_kinds w Hq)].
  by_tag H. unfold kinds_of. rewrite Ho, Hby, Hin, Hen, Hty.
  assert (isReal w = false) as -> by (unfold isReal; by rewrite Hq).
  destruct (isNil w) eqn:En.
  { pose proof (isNil_tag w En) as Ht. rewrite H in Ht. rewrite Ht.
    rewrite (not_bool_tag w t H) by (rewrite Ht; by vm_compute). vm_compute. lia. }
  destruct (isBool w) eqn:Eb.
  { destruct (isBool_tag w Eb) as [Ht|Ht]; rewrite H in Ht; rewrite Ht; vm_compute; lia. }
  simpl. repeat (case_match; simpl; try lia);
    repeat match goal with E : (t =? _) = true |- _ => apply Z.eqb_eq in E end; exfalso;
    match goal with
    | E1 : t = ?a, E2 : t = ?b |- _ =>
      assert_fails (constr_eq a b); rewrite E1 in E2; vm_compute in E2; discriminate E2
    end.
Qed.

(** C27. NaN boxing is unambiguous: no 64-bit word satisfies two of the type
    predicates, and every value a constructor is given that passes [scalar_ok] (its field
    in range, a real that is not a NaN with the tag bits set, an enum label that is not
    negative) satisfies exactly its own predicate and is recovered by the accessors. *)
Theorem nan_box_roundtrip s w :
  scalar_ok s ->
  kinds_of (encode s) = [kind_of s] /\ decode (encode s) = Some s /\ (length (kinds_of w) <= 1)%nat.
Proof.
  intros Hs. split_and!; [by apply scalar_kinds|by apply scalar_decode|apply kinds_at_most_one].
Qed.

Lemma nan_box_roundtrip_witness :
  decode (encode (SInt (-7))) = Some (SInt (-7)) /\ kinds_of (encode (SReal (2 ^ 62))) = [KReal].
Proof.
  split.
  - apply (nan_box_roundtrip (SInt (-7)) 0). simpl. unfold inS. lia.
  - apply (nan_box_roundtrip (SReal (2 ^ 62)) 0). simpl. unfold inU. split; [lia|by vm_compute].
Defined.

(** A double that is a NaN with the tag bits set is taken for another type: this
    one for an object at address 0x1234. *)
Lemma tagged_nan_is_pointer :
  isObj (realVal 0xfffc000000001234) = true /\ isReal (realVal 0xfffc000000001234) = false /\
  sf_of_bits 0xfffc000000001234 = S754_nan.
Proof. by vm_compute. Qed.

(** A negative label overwrites the type id of an enum value. *)
Lemma negative_enum_label : enumTypeId (enumVal (-1) 5) = 0xffff /\ asEnum (enumVal (-1) 5) = -1.
Proof. by vm_compute. Qed.

(** ** Integers, inline and boxed *)

(** The integer a word of type int stands for. *)
Definition int_value (h : heap) (w : Z) : option Z :=
  match boxed_prim h w with
  | Some (PInt i) => Some i
  | _ => if isInt w then Some (asIntUnchecked w) else None
  end.

(** Addresses come from a 47-bit user space and are handed out upwards. *)
Definition heap_ok (h : heap) : Prop :=
  0 < brk h < 2 ^ 47 /\ forall a, is_Some (objs h !! a) -> a < brk h.

(** [h'] extends [h]: no object changed or disappeared. *)
Definition extends (h h' : heap) : Prop := objs h ⊆ objs h'.

Lemma int_facts w :
  isInt w = true ->
  isNil w = false /\ isBool w = false /\ isByte w = false /\ isReal w = false /\
  isEnum w = false /\ isType w = false /\ isObj w = false.
Proof.
  intros Hi. assert (Z.land w TagMask = Z.lor QNAN TagInt) as H by by apply Z.eqb_eq.
  by_tag H. rewrite Hby, Hen, Hty, Hre, Hob. rewrite Hni, Hbo by by vm_compute. by vm_compute.
Qed.

Lemma boxed_obj h w p : boxed_prim h w = Some p -> isObj w = true /\ asObj h w = Some (HPrim p).
Proof.
  unfold boxed_prim. destruct (isObj w); [|done]. destruct (asObj h w) as [[q|k]|]; naive_solver.
Qed.

Lemma inline_not_boxed h w : isObj w = false -> boxed_prim h w = None.
Proof. intros H. unfold boxed_prim. by rewrite H. Qed.

Lemma int_value_cases h w z :
  int_value h w = Some z ->
  boxed_prim h w = Some (PInt z) \/
  (boxed_prim h w = None /\ isInt w = true /\ asIntUnchecked w = z).
Proof.
  unfold int_value. destruct (isInt w) eqn:Hi.
  - destruct (int_facts w Hi) as (_&_&_&_&_&_&Ho). rewrite (inline_not_boxed h w Ho). naive_solver.
  - destruct (boxed_prim h w) as [[]|]; naive_solver.
Qed.

Lemma int_value_type h w z : int_value h w = Some z -> type h w = Some TInt.
Proof.
  intros [H|(H & Hi & _)]%int_value_cases; unfold type.
  - destruct (boxed_obj _ _ _ H) as [-> ->]. done.
  - destruct (int_facts w Hi) as (E1&E2&E3&_&_&_&->). unfold inline_type. by rewrite E1, E2, E3, Hi.
Qed.

Lemma int_value_asInt h w z s : int_value h w = Some z -> asInt h w s = Ret z.
Proof.
  intros [H|(H & Hi & <-)]%int_value_cases; unfold asInt; rewrite H; [done|].
  destruct (int_facts w Hi) as (E1&E2&E3&_&_&_&E7). unfold operand_of. rewrite E7. simpl.
  unfold inline_type. by rewrite E1, E2, E3, Hi.
Qed.

Lemma int_value_asReal h w z s : int_value h w = Some z -> asReal h w s = Ret (double_of_int z).
Proof.
  intros [H|(H & Hi & <-)]%int_value_cases; unfold asReal; rewrite H; [done|].
  destruct (int_facts w Hi) as (E1&E2&E3&_&_&_&E7). unfold operand_of. rewrite E7. simpl.
  unfold inline_type. by rewrite E1, E2, E3, Hi.
Qed.

Lemma int_value_number h w z : int_value h w = Some z -> isNumber h w = true /\ isIntValue h w = true.
Proof.
  intros H. unfold isNumber, isIntValue, has_type. rewrite (int_value_type h w z H). done.
Qed.

Lemma int_op_type h l r a b :
  int_value h l = Some a -> int_value h r = Some b -> op_type h l r = Ret TInt.
Proof. intros Hl Hr. unfold op_type. by rewrite (int_value_type _ _ _ Hl), (int_value_type _ _ _ Hr). Qed.

Lemma fits_inS z : fitsInInt32 z = true -> inS 32 z.
Proof. unfold fitsInInt32, inS. intros [H1 H2]%andb_prop. lia. Qed.

Lemma int32_value h z : inS 32 z -> int_value h (int32Val z) = Some z /\ isInt (int32Val z) = true.
Proof.
  intros Hz. assert (isInt (int32Val z) = true) as Hi by (unfold isInt; by rewrite int_tag, Z.eqb_refl).
  split; [|done]. unfold int_value. destruct (int_facts _ Hi) as (_&_&_&_&_&_&Ho).
  rewrite (inline_not_boxed h _ Ho), Hi. by rewrite int_payload.
Qed.

(** [intVal] is exact and canonical: inline exactly when 32 bits are enough. *)
Lemma intVal_value h z :
  heap_ok h ->
  exists h' w, intVal h z = (h', w) /\ int_value h' w = Some z /\ isInt w = fitsInInt32 z /\
    extends h h'.
Proof.
  intros [Hb Ha]. unfold intVal. destruct (fitsInInt32 z) eqn:Hf.
  - exists h, (int32Val z). destruct (int32_value h z (fits_inS z Hf)) as [-> ->]. unfold extends. auto.
  - unfold alloc. eexists _, _. split; [reflexivity|].
    pose proof (obj_word_obj (brk h)) as Ho.
    assert (ptrOf (objWord (brk h)) = brk h) as Hp by (apply obj_payload; unfold inU; lia).
    split; [|split].
    + unfold int_value, boxed_prim, asObj. rewrite Ho, Hp. cbn [objs]. by rewrite lookup_insert_eq.
    + by destruct (obj_not_inline _ Ho) as (_&_&_&->&_).
    + unfold extends. apply insert_subseteq. destruct (objs h !! brk h) eqn:E; [|done].
      assert (brk h < brk h); [|lia]. eauto.
Qed.

(** The result of an exact integer operation with value [z]. *)
Definition exactly (h : heap) (z : Z) (res : outcome error (heap * Z)) : Prop :=
  exists h' w, res = Ret (h', w) /\ int_value h' w = Some z /\ isInt w = fitsInInt32 z /\ extends h h'.

Definition checked (h : heap) (z : Z) (res : outcome error (heap * Z)) : Prop :=
  if bool_decide (inS 64 z) then exactly h z res else res = Throw OverflowError.

Lemma intVal_exactly h z : heap_ok h -> exactly h z (Ret (intVal h z)).
Proof.
  intros Hh. destruct (intVal_value h z Hh) as (h' & w & -> & ?). exists h', w. auto.
Qed.

Lemma numeric_checked f d h l r a b :
  heap_ok h -> int_value h l = Some a -> int_value h r = Some b ->
  checked h (f a b) (numeric f d h l r).
Proof.
  intros Hh Hl Hr. unfold numeric, checked. rewrite (int_op_type h l r a b Hl Hr). simpl.
  rewrite (int_value_asInt _ _ _ _ Hl), (int_value_asInt _ _ _ _ Hr). simpl.
  case_bool_decide; [by apply intVal_exactly|done].
Qed.

(** C28. Integer arithmetic is exact or overflows: on integers, inline or boxed,
    [+], [-] and [*] give the boxed or inline integer that is the mathematical
    result when it is a 64-bit one, and throw otherwise; so does unary minus on
    an inline integer.  No existing object changes. *)
Theorem int_arithmetic h l r a b :
  heap_ok h -> int_value h l = Some a -> int_value h r = Some b ->
  checked h (a + b) (add h l r) /\ checked h (a - b) (subtract h l r) /\
  checked h (a * b) (multiply h l r) /\ (isInt l = true -> checked h (- a) (negate h l)).
Proof.
  intros Hh Hl Hr. destruct (int_value_number _ _ _ Hl) as [Nl _], (int_value_number _ _ _ Hr) as [Nr _].
  unfold add, subtract, multiply. rewrite Nl, Nr. simpl. split_and!; try by apply numeric_checked.
  intros Hi. unfold negate, checked. rewrite Hi. simpl. rewrite (int_value_asInt _ _ _ _ Hl).
  cbn [obind]. change (0 - a) with (- a). case_bool_decide as E; [by apply intVal_exactly|done].
Qed.

Definition demo_heap : heap := mkHeap {[ 64 := HPrim (PInt (2 ^ 40)) ]} 128.

Lemma demo_heap_ok : heap_ok demo_heap.
Proof.
  split; [simpl; lia|]. intros a [o Ho]. simpl in *. apply lookup_singleton_Some in Ho as [<- _]. lia.
Qed.

Lemma int_arithmetic_witness :
  checked demo_heap (2 ^ 40 + 5) (add demo_heap (objWord 64) (int32Val 5)) /\
  checked demo_heap (-5) (negate demo_heap (int32Val 5)).
Proof.
  split.
  - refine (proj1 (int_arithmetic demo_heap _ _ (2 ^ 40) 5 demo_heap_ok _ _)); vm_compute; reflexivity.
  - refine (proj2 (proj2 (proj2 (int_arithmetic demo_heap _ (int32Val 0) 5 0 demo_heap_ok _ _))) _);
      vm_compute; reflexivity.
Defined.

(** Unary minus tests the inline tag only: an integer outside 32 bits is not a
    number to it. *)
Lemma negate_boxed_throws h w z :
  boxed_prim h w = Some (PInt z) -> negate h w = Throw InvalidArgument.
Proof.
  intros H. destruct (boxed_obj _ _ _ H) as [Ho _].
  destruct (obj_not_inline w Ho) as (_&H2&H3&H4&H5&_). unfold negate. by rewrite H2, H3, H4, H5.
Qed.

(** ** A non-zero integer is a non-zero double *)

Lemma shr_1_m mrs : 0 <= shr_m mrs -> shr_m (shr_1 mrs) = Z.shiftr (shr_m mrs) 1.
Proof. destruct mrs as [m r s]. simpl. intros Hm. by destruct m as [|[]|]. Qed.

Lemma iter_shr_m n : forall mrs, 0 <= shr_m mrs ->
  shr_m (SpecFloat.iter_pos shr_1 n mrs) = Z.shiftr (shr_m mrs) (Zpos n).
Proof.
  assert (forall m k, 0 <= m -> 0 <= Z.shiftr m k) as Hpos by (intros; by apply Z.shiftr_nonneg).
  induction n as [n IH|n IH|]; intros mrs Hm; cbn [SpecFloat.iter_pos].
  - assert (0 <= shr_m (shr_1 mrs)) by (rewrite shr_1_m by done; auto).
    rewrite !IH; [|done|rewrite IH by done; auto].
    rewrite shr_1_m, !Z.shiftr_shiftr by lia. f_equal. lia.
  - rewrite !IH; [|done|rewrite IH by done; auto]. rewrite Z.shiftr_shiftr by lia. f_equal. lia.
  - by apply shr_1_m.
Qed.

Lemma digits2_pos_bounds p : 2 ^ (Zpos (digits2_pos p) - 1) <= Zpos p < 2 ^ Zpos (digits2_pos p).
Proof.
  induction p as [p IH|p IH|]; cbn [digits2_pos]; [| |simpl; lia];
    rewrite Pos2Z.inj_succ, Z.pow_succ_r by lia;
    replace (Z.succ (Zpos (digits2_pos p)) - 1) with (Z.succ (Zpos (digits2_pos p) - 1)) by lia;
    rewrite Z.pow_succ_r by lia; lia.
Qed.

Lemma digits2_pos_le p k : 0 <= k -> Zpos p < 2 ^ k -> Zpos (digits2_pos p) <= k.
Proof.
  intros Hk Hp. destruct (Z_lt_ge_dec k (Zpos (digits2_pos p))) as [H|]; [|lia].
  pose proof (digits2_pos_bounds p) as [Hl _].
  assert (2 ^ k <= 2 ^ (Zpos (digits2_pos p) - 1)) by (apply Z.pow_le_mono_r; lia). lia.
Qed.

Lemma loc_record m l : shr_m (shr_record_of_loc m l) = m.
Proof. by destruct l as [|[]]. Qed.

Lemma shr_fexp_bounds p e l mrs e' :
  -1000 <= e -> shr_fexp prec emax (Zpos p) e l = (mrs, e') ->
  0 < shr_m mrs < 2 ^ 53 /\ e <= e' <= Z.max e (Zpos (digits2_pos p) + e).
Proof.
  intros He. unfold shr_fexp, shr. cbn [Zdigits2].
  pose proof (digits2_pos_bounds p) as [Hl Hu]. unfold fexp, emin, prec, emax.
  assert (Zpos (digits2_pos p) <= 53 -> Zpos p < 2 ^ 53) as Hsmall.
  { intros Hd. assert (2 ^ Zpos (digits2_pos p) <= 2 ^ 53) by (apply Z.pow_le_mono_r; lia). lia. }
  destruct (Z.max _ _ - e) as [|n|n] eqn:En.
  - intros [= <- <-]. rewrite loc_record. lia.
  - intros [= <- <-]. rewrite iter_shr_m by (rewrite loc_record; lia). rewrite loc_record.
    assert (Zpos n = Zpos (digits2_pos p) - 53) as Hn by lia.
    rewrite Z.shiftr_div_pow2 by lia. split; [split|lia].
    + apply Z.div_str_pos. split; [lia|]. etransitivity; [|exact Hl]. apply Z.pow_le_mono_r; lia.
    + apply Z.div_lt_upper_bound; [lia|]. rewrite <- Z.pow_add_r by lia.
      replace (Zpos n + 53) with (Zpos (digits2_pos p)) by lia. done.
  - intros [= <- <-]. rewrite loc_record. lia.
Qed.

Lemma round_nearest_bounds m l : 0 < m -> m <= round_nearest_even m l <= m + 1.
Proof. intros Hm. destruct l as [|[]]; simpl; [lia| |lia|lia]. destruct (Z.even m); lia. Qed.

Lemma round_aux_bounds s p e l :
  -1000 <= e <= 0 -> Zpos p < 2 ^ 64 ->
  exists m e', binary_round_aux prec emax s (Zpos p) e l = S754_finite s m e' /\
    Zpos m < 2 ^ 53 /\ -1000 <= e' <= 200.
Proof.
  intros He Hp. unfold binary_round_aux.
  pose proof (digits2_pos_le p 64 ltac:(lia) Hp) as Hd.
  destruct (shr_fexp prec emax (Zpos p) e l) as [mrs e1] eqn:E1.
  destruct (shr_fexp_bounds _ _ _ _ _ (proj1 He) E1) as [[Hm0 Hm1] He1].
  pose proof (round_nearest_bounds (shr_m mrs) (loc_of_shr_record mrs) Hm0) as Hr.
  destruct (round_nearest_even _ _) as [|q|q] eqn:Eq; [lia| |lia].
  destruct (shr_fexp prec emax (Zpos q) e1 loc_Exact) as [mrs2 e2] eqn:E2.
  pose proof (digits2_pos_le q 65 ltac:(lia) ltac:(lia)) as Hd2.
  destruct (shr_fexp_bounds q e1 loc_Exact mrs2 e2 ltac:(lia) E2) as [Hm2 He2].
  destruct (shr_m mrs2) as [|m|m]; [lia| |lia].
  rewrite (proj2 (Z.leb_le _ _)) by (unfold emax, prec; lia).
  exists m, e2. split; [done|]. lia.
Qed.

Lemma iter_xO p n : Zpos (Pos.iter xO p n) = Zpos p * 2 ^ Zpos n.
Proof.
  revert p. induction n as [|n IH] using Pos.peano_ind; intros p; [simpl; lia|].
  rewrite Pos.iter_succ, Pos2Z.inj_succ, Z.pow_succ_r by lia. rewrite Pos2Z.inj_xO, IH. lia.
Qed.

Lemma binary_round_bounds s p :
  Zpos p <= 2 ^ 63 ->
  exists m e, binary_round prec emax s p 0 = S754_finite s m e /\ Zpos m < 2 ^ 53 /\ -1000 <= e <= 200.
Proof.
  intros Hp. unfold binary_round, shl_align. rewrite Z.add_0_r, Z.sub_0_r.
  destruct (fexp prec emax (Zpos (digits2_pos p))) as [|n|n] eqn:En;
    try (apply round_aux_bounds; lia).
  unfold fexp, emin, prec, emax in En.
  apply round_aux_bounds; [lia|]. rewrite iter_xO.
  pose proof (digits2_pos_bounds p) as [_ Hu].
  assert (2 ^ Zpos (digits2_pos p) * 2 ^ Zpos n = 2 ^ 53) as E.
  { rewrite <- Z.pow_add_r by lia. f_equal. lia. }
  assert (0 < 2 ^ Zpos n) by lia. nia.
Qed.

Lemma sf_of_bits_nonzero w :
  w mod 2 ^ 63 <> 0 -> forall s, sf_of_bits w <> S754_zero s.
Proof.
  intros Hw s. unfold sf_of_bits.
  change (2 ^ 52 - 1) with (Z.ones 52). change 0x7ff with (Z.ones 11).
  rewrite !Z.land_ones, Z.shiftr_div_pow2 by lia.
  assert (0 <= w mod 2 ^ 52 < 2 ^ 52) as Hm by (apply Z.mod_pos_bound; lia).
  destruct (_ =? 0) eqn:E.
  - apply Z.eqb_eq in E. destruct (w mod 2 ^ 52) as [|q|q] eqn:Em; [|done|lia].
    exfalso. apply Hw. replace (2 ^ 63) with (2 ^ 52 * 2 ^ 11) by done.
    rewrite Z.rem_mul_r, Em, E by lia. done.
  - destruct (_ =? Z.ones 11); [by case_match|].
    by destruct (w mod 2 ^ 52 + 2 ^ 52) as [|q|q] eqn:Em; [lia| |lia].
Qed.

Lemma bits_nonzero s m e :
  Zpos m < 2 ^ 53 -> -1000 <= e <= 200 -> bits_of_sf (S754_finite s m e) mod 2 ^ 63 <> 0.
Proof.
  intros Hm He. unfold bits_of_sf.
  assert (forall x, 0 < x < 2 ^ 63 -> (sign_bits s + x) mod 2 ^ 63 <> 0) as H.
  { intros x Hx. assert ((sign_bits s + x) mod 2 ^ 63 = x) as ->; [|lia].
    unfold sign_bits. destruct s; [|by rewrite Z.mod_small by lia].
    replace (2 ^ 63 + x) with (x + 1 * 2 ^ 63) by lia.
    rewrite Z.mod_add by lia. apply Z.mod_small; lia. }
  destruct (_ <? _) eqn:E; [apply Z.ltb_lt in E; apply H; lia|]. apply Z.ltb_ge in E.
  rewrite <- Z.add_assoc. apply H. lia.
Qed.

Lemma double_of_int_zero b : inS 64 b -> d_eq (double_of_int b) (double_of_int 0) = (b =? 0).
Proof.
  intros Hb. destruct b as [|p|p]; [reflexivity| |]; unfold inS in Hb; unfold double_of_int, d_eq;
    cbn [binary_normalize].
  - destruct (binary_round_bounds false p ltac:(lia)) as (m & e & -> & Hm & He).
    pose proof (sf_of_bits_nonzero _ (bits_nonzero false m e Hm He)) as Hnz.
    change (sf_of_bits (bits_of_sf (S754_zero false))) with (S754_zero false).
    destruct (sf_of_bits _) as [s|s| |s q f] eqn:Es; [by destruct (Hnz s)|by destruct s|done|by destruct s].
  - destruct (binary_round_bounds true p ltac:(lia)) as (m & e & -> & Hm & He).
    pose proof (sf_of_bits_nonzero _ (bits_nonzero true m e Hm He)) as Hnz.
    change (sf_of_bits (bits_of_sf (S754_zero false))) with (S754_zero false).
    destruct (sf_of_bits _) as [s|s| |s q f] eqn:Es; [by destruct (Hnz s)|by destruct s|done|by destruct s].
Qed.

(** ** Conversions of integers *)

Lemma int_value_not_nil h w z : int_value h w = Some z -> isNil w = false.
Proof.
  intros [H|(_ & Hi & _)]%int_value_cases.
  - destruct (boxed_obj _ _ _ H) as [Ho _]. by destruct (obj_not_inline w Ho).
  - by destruct (int_facts w Hi).
Qed.

(** A word of type int converts to int as itself, up to an unnecessary box. *)
Lemma toInt_int h w z s :
  heap_ok h -> int_value h w = Some z ->
  exists h' w', toType ToInt h w s = Ret (h', w') /\ int_value h' w' = Some z /\
    heap_ok h' /\ h' = h.
Proof.
  intros Hh Hw. unfold toType. rewrite (int_value_not_nil h w z Hw).
  destruct (int_value_cases h w z Hw) as [H|(H & Hi & E)]; rewrite H.
  - simpl. destruct (fitsInInt32 z) eqn:Hf; [|by eauto 10].
    unfold intVal. rewrite Hf. eexists _, _. split; [done|]. split; [|done].
    by apply int32_value, fits_inS.
  - unfold has_type. rewrite (int_value_type h w z Hw). simpl. eauto 10.
Qed.

Lemma isBoxed_out_of_range h w z :
  boxed_prim h w = Some (PInt z) -> fitsInInt32 z = false -> isBoxed h (unbox w (PInt z)) = true.
Proof. intros H Hf. unfold isBoxed. simpl. by rewrite Hf, H. Qed.

Lemma real_kinds_facts w :
  Z.land w QNAN <> QNAN -> isNil w = false /\ isBool w = false /\ isByte w = false /\
  isInt w = false /\ isReal w = true /\ isObj w = false.
Proof.
  intros Hw. pose proof (real_kinds w Hw) as H. unfold kinds_of in H.
  destruct (isNil w), (isBool w), (isByte w), (isInt w), (isReal w), (isEnum w), (isType w), (isObj w);
    try discriminate H; auto 10.
Qed.

(** ** Division *)

Lemma toReal_int h w z :
  heap_ok h -> int_value h w = Some z -> Z.land (double_of_int z) QNAN <> QNAN ->
  exists h' w', toType ToReal h w false = Ret (h', w') /\ asReal h' w' true = Ret (double_of_int z).
Proof.
  intros Hh Hw Hq. unfold toType. rewrite (int_value_not_nil h w z Hw).
  assert (forall v, int_value h v = Some z -> exists h' w', convert ToReal h v false = Ret (h', w') /\
    asReal h' w' true = Ret (double_of_int z)) as Hconv.
  { intros v Hv. simpl. rewrite (int_value_asReal h v z false Hv). simpl. eexists _, _. split; [done|].
    destruct (real_kinds_facts _ Hq) as (E1&E2&E3&E4&E5&E6).
    unfold asReal, realVal. rewrite inline_not_boxed by done. unfold operand_of. rewrite E6. cbn [obind].
    unfold inline_type. by rewrite E1, E2, E3, E4, E5. }
  destruct (int_value_cases h w z Hw) as [H|(H & Hi & E)]; rewrite H.
  - rewrite bool_decide_eq_false_2 by done. destruct (fitsInInt32 z) eqn:Hf.
    + assert (int_value h (unbox w (PInt z)) = Some z /\ isInt (unbox w (PInt z)) = true) as [Hu Hui].
      { simpl. rewrite Hf. by apply int32_value, fits_inS. }
      destruct (int_facts _ Hui) as (_&_&_&_&_&_&Ho). unfold isBoxed. rewrite (inline_not_boxed h _ Ho).
      unfold has_type. rewrite (int_value_type h _ z Hu). cbn [target_type].
      rewrite bool_decide_eq_false_2 by done. auto.
    + rewrite (isBoxed_out_of_range h w z H Hf). auto.
  - unfold has_type. rewrite (int_value_type h w z Hw). cbn [target_type].
    rewrite bool_decide_eq_false_2 by done. auto.
Qed.

(** The double of an integer is not in the tag space: its exponent field is not
    all ones. *)
Lemma double_of_int_untagged z : inS 64 z -> Z.land (double_of_int z) QNAN <> QNAN.
Proof.
  intros Hz Hq.
  assert (Z.shiftr (double_of_int z) 52 mod 2 ^ 11 = 0x7ff) as He.
  { rewrite <- Z.land_ones by lia. change (Z.ones 11) with (Z.land (Z.shiftr QNAN 52) (Z.ones 11)).
    rewrite Z.land_assoc, <- Z.shiftr_land, Hq. reflexivity. }
  assert (forall s m e, Zpos m < 2 ^ 53 -> -1000 <= e <= 200 ->
    Z.shiftr (bits_of_sf (S754_finite s m e)) 52 mod 2 ^ 11 <> 0x7ff) as Hfin.
  { intros s m e Hm Hb. rewrite Z.shiftr_div_pow2 by lia. unfold bits_of_sf.
    assert (forall x, 0 <= x < 2000 * 2 ^ 52 -> (sign_bits s + x) / 2 ^ 52 mod 2 ^ 11 <> 0x7ff) as Hx.
    { intros x Hx. assert ((sign_bits s + x) / 2 ^ 52 = (if s then 2 ^ 11 else 0) + x / 2 ^ 52) as ->.
      { destruct s; simpl sign_bits; [|done]. replace (2 ^ 63) with (2 ^ 11 * 2 ^ 52) by done.
        by rewrite Z.div_add_l by lia. }
      assert (0 <= x / 2 ^ 52 < 2000) as Hd
        by (split; [apply Z.div_pos; lia|apply Z.div_lt_upper_bound; lia]).
      assert (((if s then 2 ^ 11 else 0) + x / 2 ^ 52) mod 2 ^ 11 = x / 2 ^ 52) as ->; [|lia].
      destruct s; [replace (2 ^ 11 + x / 2 ^ 52) with (x / 2 ^ 52 + 1 * 2 ^ 11) by lia;
        rewrite Z.mod_add by lia|]; apply Z.mod_small; lia. }
    destruct (_ <? _) eqn:E; [apply Z.ltb_lt in E; apply Hx; lia|]. apply Z.ltb_ge in E.
    rewrite <- Z.add_assoc. apply Hx. lia. }
  unfold double_of_int in He. unfold inS in Hz. destruct z as [|p|p]; cbn [binary_normalize] in He; [done|..].
  - destruct (binary_round_bounds false p ltac:(lia)) as (m & e & E & Hm & Hb). rewrite E in He.
    by apply (Hfin false m e).
  - destruct (binary_round_bounds true p ltac:(lia)) as (m & e & E & Hm & Hb). rewrite E in He.
    by apply (Hfin true m e).
Qed.

(** Integer division and remainder: a zero divisor throws; the quotient is
    truncated and the remainder has the dividend's sign; the one quotient that
    overflows throws in [divide] and is undefined behaviour in [mod]. *)
Theorem int_division h l r a b :
  heap_ok h -> int_value h l = Some a -> int_value h r = Some b -> inS 64 a -> inS 64 b ->
  (b = 0 -> divide h l r = Throw ZeroDivisionError /\ mod_ h l r = Throw ZeroDivisionError) /\
  (b <> 0 -> a <> - 2 ^ 63 \/ b <> -1 ->
     exactly h (Z.quot a b) (divide h l r) /\ exactly h (Z.rem a b) (mod_ h l r)) /\
  (a = - 2 ^ 63 -> b = -1 -> divide h l r = Throw OverflowError /\ mod_ h l r = UB).
Proof.
  intros Hh Hl Hr Ha Hb.
  destruct (int_value_number _ _ _ Hl) as [Nl _], (int_value_number _ _ _ Hr) as [Nr _].
  destruct (toReal_int h r b Hh Hr (double_of_int_untagged b Hb)) as (h1 & w1 & E1 & E2).
  destruct (toInt_int h l a false Hh Hl) as (h2 & w2 & E3 & E4 & _ & ->).
  destruct (toInt_int h r b false Hh Hr) as (h3 & w3 & E5 & E6 & _ & ->).
  assert (divide h l r = if b =? 0 then Throw ZeroDivisionError
    else if (a =? - 2 ^ 63) && (b =? -1) then Throw OverflowError else Ret (intVal h (Z.quot a b))) as ->.
  { unfold divide. rewrite Nl, Nr. cbn [negb]. rewrite E1. cbn [obind fst snd]. rewrite E2.
    cbn [obind]. rewrite double_of_int_zero by done. destruct (b =? 0) eqn:Eb; [done|].
    rewrite (int_op_type h l r a b Hl Hr). cbn [obind].
    rewrite (int_value_asInt _ _ _ _ Hl), (int_value_asInt _ _ _ _ Hr). cbn [obind].
    by rewrite Eb. }
  assert (mod_ h l r = if b =? 0 then Throw ZeroDivisionError
    else if (a =? - 2 ^ 63) && (b =? -1) then UB else Ret (intVal h (Z.rem a b))) as ->.
  { unfold mod_. rewrite Nl, Nr. cbn [negb andb]. rewrite E3. cbn [obind fst snd].
    rewrite (int_value_asInt _ _ _ _ E4). cbn [obind]. rewrite E5. cbn [obind fst snd].
    by rewrite (int_value_asInt _ _ _ _ E6). }
  split_and!.
  - intros ->. done.
  - intros Hne Hov. rewrite (proj2 (Z.eqb_neq b 0)) by done.
    assert ((a =? - 2 ^ 63) && (b =? -1) = false) as ->.
    { destruct Hov as [H|H]; apply Z.eqb_neq in H; rewrite H; [done|apply andb_false_r]. }
    by split; apply intVal_exactly.
  - intros -> ->. done.
Qed.

Lemma int_division_witness :
  exactly demo_heap (-3) (divide demo_heap (int32Val (-7)) (int32Val 2)) /\
  divide demo_heap (objWord 64) (int32Val 0) = Throw ZeroDivisionError.
Proof.
  split.
  - refine (proj1 (proj1 (proj2 (int_division demo_heap (int32Val (-7)) (int32Val 2) (-7) 2 demo_heap_ok
        _ _ _ _)) _ _)); try (vm_compute; reflexivity); try (unfold inS; lia).
  - refine (proj1 (proj1 (int_division demo_heap (objWord 64) (int32Val 0) (2 ^ 40) 0 demo_heap_ok
        _ _ _ _) _)); try (vm_compute; reflexivity); try (unfold inS; lia).
Defined.

(** ** Order, equality and hashing *)

Lemma compare_int f d h l r a b :
  int_value h l = Some a -> int_value h r = Some b ->
  compare_op f d h l r = Ret (boolVal (f a b)).
Proof.
  intros Hl Hr. unfold compare_op.
  destruct (int_value_number _ _ _ Hl) as [-> _], (int_value_number _ _ _ Hr) as [-> _].
  rewrite (int_op_type h l r a b Hl Hr). simpl.
  by rewrite (int_value_asInt _ _ _ _ Hl), (int_value_asInt _ _ _ _ Hr).
Qed.

Lemma int_value_not_bool h w z : int_value h w = Some z -> isBool w = false.
Proof.
  intros [H|(_ & Hi & _)]%int_value_cases.
  - destruct (boxed_obj _ _ _ H) as [Ho _]. by destruct (obj_not_inline w Ho) as (_&?&_).
  - by destruct (int_facts w Hi) as (_&?&_).
Qed.

Lemma equals_int h l r a b :
  int_value h l = Some a -> int_value h r = Some b -> equals h l r = Ret (a =? b).
Proof.
  intros Hl Hr. unfold equals.
  rewrite (int_value_not_nil _ _ _ Hl), (int_value_not_nil _ _ _ Hr), (int_value_not_bool _ _ _ Hl).
  unfold has_type. rewrite (int_value_type _ _ _ Hl), (int_value_type _ _ _ Hr). simpl.
  by rewrite (int_value_asInt _ _ _ _ Hl), (int_value_asInt _ _ _ _ Hr).
Qed.

(** The storage [intVal] chooses. *)
Definition canonical (w z : Z) : Prop :=
  isInt w = fitsInInt32 z /\ (isInt w = true -> w = int32Val z).

(** The comparison operators on integers decide the order and equality of the
    mathematical values, however each side is stored; and integers in canonical
    storage that are equal hash alike. *)
Theorem int_comparison h l r a b :
  int_value h l = Some a -> int_value h r = Some b ->
  less h l r = Ret (boolVal (a <? b)) /\ greater h l r = Ret (boolVal (b <? a)) /\
  lessEqual h l r = Ret (boolVal (a <=? b)) /\ greaterEqual h l r = Ret (boolVal (b <=? a)) /\
  equal h l r = Ret (boolVal (a =? b)) /\ notEqual h l r = Ret (boolVal (negb (a =? b))) /\
  (canonical l a -> canonical r b -> a = b -> hash h l = hash h r).
Proof.
  intros Hl Hr. unfold less, greater, lessEqual, greaterEqual, equal, notEqual.
  rewrite !(compare_int _ _ h l r a b Hl Hr), (equals_int h l r a b Hl Hr). split_and!; try done.
  intros [Hcl Hwl] [Hcr Hwr] ->. unfold hash.
  destruct (int_value_cases _ _ _ Hl) as [El|(El & Il & Vl)],
    (int_value_cases _ _ _ Hr) as [Er|(Er & Ir & Vr)]; rewrite El, Er; try done.
  - destruct (boxed_obj _ _ _ El) as [Ho _]. destruct (obj_not_inline l Ho) as (_&_&_&E&_). congruence.
  - destruct (boxed_obj _ _ _ Er) as [Ho _]. destruct (obj_not_inline r Ho) as (_&_&_&E&_). congruence.
  - by rewrite Hwl, Hwr.
Qed.

Lemma int_comparison_witness :
  less demo_heap (int32Val (-1)) (objWord 64) = Ret (boolVal true) /\
  equal demo_heap (objWord 64) (objWord 64) = Ret (boolVal true).
Proof.
  split.
  - refine (proj1 (int_comparison demo_heap (int32Val (-1)) (objWord 64) (-1) (2 ^ 40) _ _));
      vm_compute; reflexivity.
  - refine (proj1 (proj2 (proj2 (proj2 (proj2 (int_comparison demo_heap (objWord 64) (objWord 64)
        (2 ^ 40) (2 ^ 40) _ _)))))); vm_compute; reflexivity.
Defined.

(** Numbers of different types that are equal do not hash alike. *)
Lemma mixed_hash_differs :
  equals demo_heap (int32Val 1) (byteVal 1) = Ret true /\
  hash demo_heap (int32Val 1) <> hash demo_heap (byteVal 1) /\
  equals demo_heap (int32Val 1) (realVal (double_of_int 1)) = Ret true /\
  hash demo_heap (int32Val 1) <> hash demo_heap (realVal (double_of_int 1)).
Proof. by vm_compute. Qed.

(** Mixed equality goes through the double, so it is not transitive. *)
Lemma mixed_equality_not_transitive :
  let h := mkHeap {[ 64 := HPrim (PInt (2 ^ 53 + 1)); 80 := HPrim (PInt (2 ^ 53)) ]} 96 in
  let d := realVal (double_of_int (2 ^ 53)) in
  equals h (objWord 64) d = Ret true /\ equals h d (objWord 80) = Ret true /\
  equals h (objWord 64) (objWord 80) = Ret false.
Proof. by vm_compute. Qed.

(** ** Bitwise operators *)

Lemma land_inS a b w : 0 < w -> inS w a -> inS w b -> inS w (Z.land a b).
Proof.
  unfold inS. intros Hw Ha Hb.
  assert (forall x, - 2 ^ (w - 1) <= x < 2 ^ (w - 1) <-> Z.shiftr x (w - 1) = 0 \/ Z.shiftr x (w - 1) = -1) as H.
  { intros x. rewrite Z.shiftr_div_pow2 by lia. assert (0 < 2 ^ (w - 1)) as Hp by lia. split.
    - intros Hx. destruct (Z_lt_ge_dec x 0).
      + right. symmetry. apply (Z.div_unique x _ (-1) (x + 2 ^ (w - 1))); lia.
      + left. apply Z.div_small. lia.
    - pose proof (Z.div_mod x (2 ^ (w - 1)) ltac:(lia)). pose proof (Z.mod_pos_bound x (2 ^ (w - 1)) Hp).
      intros [E|E]; rewrite E in *; lia. }
  apply H in Ha, Hb. apply H. rewrite Z.shiftr_land.
  destruct Ha as [-> | ->], Hb as [-> | ->]; simpl; auto.
Qed.

Lemma bit_operand_int h w z : int_value h w = Some z -> bit_operand h w = true.
Proof.
  intros H. unfold bit_operand. destruct (int_value_number _ _ _ H) as [_ ->]. apply orb_true_r.
Qed.

Lemma int_value_not_byte h w z : int_value h w = Some z -> isByte w = false.
Proof.
  intros [H|(_ & Hi & _)]%int_value_cases.
  - destruct (boxed_obj _ _ _ H) as [Ho _]. by destruct (obj_not_inline w Ho) as (_&_&?&_).
  - by destruct (int_facts w Hi) as (_&_&?&_).
Qed.

Lemma bitwise_int fb fz h l r a b :
  heap_ok h -> int_value h l = Some a -> int_value h r = Some b ->
  exactly h (fz a b) (bitwise fb fz h l r).
Proof.
  intros Hh Hl Hr. unfold bitwise.
  rewrite (bit_operand_int _ _ _ Hl), (bit_operand_int _ _ _ Hr).
  rewrite (int_value_not_bool _ _ _ Hl), (int_value_not_byte _ _ _ Hl). cbn [andb].
  destruct (toInt_int h l a false Hh Hl) as (h2 & w2 & E3 & E4 & _ & ->).
  destruct (toInt_int h r b false Hh Hr) as (h3 & w3 & E5 & E6 & _ & ->).
  rewrite E3. cbn [obind fst snd]. rewrite (int_value_asInt _ _ _ _ E4). cbn [obind].
  rewrite E5. cbn [obind fst snd]. rewrite (int_value_asInt _ _ _ _ E6). cbn [obind].
  by apply intVal_exactly.
Qed.

(** Bitwise operators on integers act on the two's complement bits of the
    64-bit values (each result is again a 64-bit value) and complement is
    [-1 - a]. *)
Theorem int_bitwise h l r a b :
  heap_ok h -> int_value h l = Some a -> int_value h r = Some b -> inS 64 a -> inS 64 b ->
  exactly h (Z.land a b) (band h l r) /\ exactly h (Z.lor a b) (bor h l r) /\
  exactly h (Z.lxor a b) (bxor h l r) /\ exactly h (-1 - a) (bnot h l) /\
  inS 64 (Z.land a b) /\ inS 64 (Z.lor a b) /\ inS 64 (Z.lxor a b).
Proof.
  intros Hh Hl Hr Ha Hb.
  assert (forall x, inS 64 x -> inS 64 (Z.lnot x)) as Hnot by (unfold inS, Z.lnot; intros; lia).
  assert (inS 64 (Z.lor a b)) as Hor.
  { rewrite <- (Z.lnot_involutive (Z.lor a b)), Z.lnot_lor. by apply Hnot, land_inS; auto. }
  split_and!; try (by apply bitwise_int); try done.
  - unfold bnot. rewrite (int_value_not_bool _ _ _ Hl), (int_value_not_byte _ _ _ Hl).
    destruct (int_value_number _ _ _ Hl) as [_ ->]. rewrite (int_value_asInt _ _ _ _ Hl). cbn [obind].
    replace (-1 - a) with (Z.lnot a) by (unfold Z.lnot; lia). by apply intVal_exactly.
  - by apply land_inS.
  - assert (Z.lxor a b = Z.land (Z.lor a b) (Z.lnot (Z.land a b))) as ->.
    { apply Z.bits_inj'. intros k Hk. rewrite Z.lxor_spec, Z.land_spec, Z.lor_spec, Z.lnot_spec, Z.land_spec by done.
      by destruct (Z.testbit a k), (Z.testbit b k). }
    apply land_inS; [lia|done|]. by apply Hnot, land_inS.
Qed.

Lemma int_bitwise_witness :
  exactly demo_heap 4 (band demo_heap (int32Val 6) (int32Val 12)) /\
  exactly demo_heap (-1 - 2 ^ 40) (bnot demo_heap (objWord 64)).
Proof.
  split.
  - refine (proj1 (int_bitwise demo_heap (int32Val 6) (int32Val 12) 6 12 demo_heap_ok _ _ _ _));
      try (vm_compute; reflexivity); try (unfold inS; lia).
  - refine (proj1 (proj2 (proj2 (proj2 (int_bitwise demo_heap (objWord 64) (int32Val 12) (2 ^ 40) 12
        demo_heap_ok _ _ _ _))))); try (vm_compute; reflexivity); try (unfold inS; lia).
Defined.
