(* ===== verification/GcHeap.v ===== *)
(** * GcHeap: reference counts, the tracing collector and reclamation
      (compiler/Object.h, Object.cpp, Value.h, Value.cpp, SimpleMarkSweepGC,
      VM::freeObjects)

    An object dies in one of two ways: its last strong reference goes, or a
    collection does not reach it.  Either way its death is claimed once, it is
    queued, and the reclaimer drops its references, destroys it and frees its
    block when no weak reference holds it.

    The heap is a store of blocks by address; a Value is plain, a strong or a weak
    reference (their words are the subject of [Value]).  What an object holds is
    split by who releases it: [members] are reset by [dropReferences],
    [natives] only by the destructor; [trace] visits both.  Recursion through
    destructors is unfolded into a list of [task]s.  A use of a block that is gone
    has no result ([None]).

    Mutators, the collector and the reclaimer interleave at the grain of one
    operation on a Value (an assignment in one step or in its two halves), one collection (the world is stopped),
    one publication of a sweep and one round of the reclaimer. *)

From S2P Require Import Prelude.
From stdpp Require Import numbers pretty.

Module GcHeap.

Local Open Scope Z_scope.

(** ** Values, blocks, the heap *)

Inductive value := VPlain | VStrong (o : Z) | VWeak (o : Z).

#[global] Instance value_eq_dec : EqDecision value.
Proof. solve_decision. Defined.

(** A block: the ObjControl fields and what the object holds. *)
Record obj := mkObj {
  strong : Z;                    (* int32 *)
  weak : Z;                      (* int32; one for the object itself *)
  alive : bool;                  (* control->obj is not null *)
  collecting : bool;
  dropClaimed : bool;
  markEpoch : Z;
  isActor : bool;
  members : list value;
  natives : list value;
  versionChain : list (Z * Z);   (* epoch and snapshot, newest first *)
  destroyed : bool;              (* the destructor has run *)
}.

Record heap := mkHeap {
  objs : gmap Z obj;
  registry : list Z;             (* registered controls, in the collector's order *)
  roots : list value;            (* what visitRoots visits *)
  locals : list value;           (* Values in native frames *)
  swept : list Z;                (* claimed by a sweep, not yet published *)
  queue : list Z;                (* the retire queue, in arrival order *)
  finalizing : list Z;           (* actors handed to the lifecycle thread *)
  epoch : Z;
}.

Definition empty_heap : heap := mkHeap ∅ [] [] [] [] [] [] 1.

Definition set_objs (x : gmap Z obj) (h : heap) : heap :=
  mkHeap x (registry h) (roots h) (locals h) (swept h) (queue h) (finalizing h) (epoch h).
Definition set_registry (x : list Z) (h : heap) : heap :=
  mkHeap (objs h) x (roots h) (locals h) (swept h) (queue h) (finalizing h) (epoch h).
Definition set_roots (x : list value) (h : heap) : heap :=
  mkHeap (objs h) (registry h) x (locals h) (swept h) (queue h) (finalizing h) (epoch h).
Definition set_locals (x : list value) (h : heap) : heap :=
  mkHeap (objs h) (registry h) (roots h) x (swept h) (queue h) (finalizing h) (epoch h).
Definition set_swept (x : list Z) (h : heap) : heap :=
  mkHeap (objs h) (registry h) (roots h) (locals h) x (queue h) (finalizing h) (epoch h).
Definition set_queue (x : list Z) (h : heap) : heap :=
  mkHeap (objs h) (registry h) (roots h) (locals h) (swept h) x (finalizing h) (epoch h).
Definition set_finalizing (x : list Z) (h : heap) : heap :=
  mkHeap (objs h) (registry h) (roots h) (locals h) (swept h) (queue h) x (epoch h).
Definition set_epoch (x : Z) (h : heap) : heap :=
  mkHeap (objs h) (registry h) (roots h) (locals h) (swept h) (queue h) (finalizing h) x.

Definition set_strong (x : Z) (b : obj) : obj :=
  mkObj x (weak b) (alive b) (collecting b) (dropClaimed b) (markEpoch b) (isActor b) (members b)
    (natives b) (versionChain b) (destroyed b).
Definition set_weak (x : Z) (b : obj) : obj :=
  mkObj (strong b) x (alive b) (collecting b) (dropClaimed b) (markEpoch b) (isActor b) (members b)
    (natives b) (versionChain b) (destroyed b).
Definition set_alive (x : bool) (b : obj) : obj :=
  mkObj (strong b) (weak b) x (collecting b) (dropClaimed b) (markEpoch b) (isActor b) (members b)
    (natives b) (versionChain b) (destroyed b).
Definition set_collecting (x : bool) (b : obj) : obj :=
  mkObj (strong b) (weak b) (alive b) x (dropClaimed b) (markEpoch b) (isActor b) (members b)
    (natives b) (versionChain b) (destroyed b).
Definition set_mark (x : Z) (b : obj) : obj :=
  mkObj (strong b) (weak b) (alive b) (collecting b) (dropClaimed b) x (isActor b) (members b)
    (natives b) (versionChain b) (destroyed b).
Definition set_members (x : list value) (b : obj) : obj :=
  mkObj (strong b) (weak b) (alive b) (collecting b) (dropClaimed b) (markEpoch b) (isActor b) x
    (natives b) (versionChain b) (destroyed b).
Definition set_natives (x : list value) (b : obj) : obj :=
  mkObj (strong b) (weak b) (alive b) (collecting b) (dropClaimed b) (markEpoch b) (isActor b)
    (members b) x (versionChain b) (destroyed b).
Definition set_versions (x : list (Z * Z)) (b : obj) : obj :=
  mkObj (strong b) (weak b) (alive b) (collecting b) (dropClaimed b) (markEpoch b) (isActor b)
    (members b) (natives b) x (destroyed b).

(** Every edge severed; the claim stays. *)
Definition severed (b : obj) : obj :=
  mkObj (strong b) (weak b) (alive b) (collecting b) true (markEpoch b) (isActor b) []
    (natives b) [] (destroyed b).
(** The destructor has run. *)
Definition finished (b : obj) : obj :=
  mkObj (strong b) (weak b) (alive b) (collecting b) (dropClaimed b) (markEpoch b) (isActor b) [] []
    [] true.

Definition on_obj (o : Z) (f : obj -> obj) (h : heap) : heap := set_objs (alter f o (objs h)) h.

(** newObj: no strong reference yet, the implicit weak one, unmarked. *)
Definition new_obj (actor : bool) : obj := mkObj 0 1 true false false 0 actor [] [] [] false.

(** ** Counting *)

Definition incRef (b : obj) : obj := set_strong (wrapS 32 (strong b + 1)) b.
Definition incWeak (b : obj) : obj := set_weak (wrapS 32 (weak b + 1)) b.

Inductive task :=
| TDec (o : Z)        (* Obj::decRef *)
| TDecWeak (o : Z)    (* decWeak *)
| TRetire (o : Z)     (* the end of decRef: null obj, queue the object *)
| TDrop (o : Z)       (* dropReferencesOnce *)
| TDestroy (o : Z).   (* delObj *)

(** ~Value. *)
Definition release (v : value) : list task :=
  match v with VPlain => [] | VStrong o => [TDec o] | VWeak o => [TDecWeak o] end.
Definition releases (vs : list value) : list task := flat_map release vs.

(** dropReferences: the members are reset, then the version chain is freed. *)
Definition drop_tasks (b : obj) : list task :=
  releases (members b) ++ map (fun v => TDec v.2) (versionChain b).

(** One task; [coll] is whether a collection is in progress. *)
Definition run_task (coll : bool) (t : task) (h : heap) : option (list task * heap) :=
  match t with
  | TDec o =>
      match objs h !! o with
      | None => None
      | Some b =>
          let b' := set_strong (wrapS 32 (strong b - 1)) b in
          if (strong b <=? 1) && negb (collecting b) then
            let b' := set_collecting true b' in
            if coll && negb (dropClaimed b)
            then Some (drop_tasks b ++ [TRetire o], on_obj o (fun _ => severed b') h)
            else Some ([TRetire o], on_obj o (fun _ => b') h)
          else Some ([], on_obj o (fun _ => b') h)
      end
  | TDecWeak o =>
      match objs h !! o with
      | None => None
      | Some b =>
          if weak b =? 1 then Some ([], set_objs (delete o (objs h)) h)
          else Some ([], on_obj o (set_weak (wrapS 32 (weak b - 1))) h)
      end
  | TRetire o =>
      match objs h !! o with
      | None => None
      | Some _ => Some ([], set_queue (queue h ++ [o]) (on_obj o (set_alive false) h))
      end
  | TDrop o =>
      match objs h !! o with
      | None => None
      | Some b =>
          if dropClaimed b then Some ([], h)
          else Some (drop_tasks b, on_obj o severed h)
      end
  | TDestroy o =>
      match objs h !! o with
      | None => None
      | Some b =>
          Some (releases (members b ++ natives b) ++ [TDecWeak o],
                on_obj o finished (set_registry (erase_first o (registry h)) h))
      end
  end.

Fixpoint run_tasks (fuel : nat) (coll : bool) (ts : list task) (h : heap) : option heap :=
  match ts with
  | [] => Some h
  | t :: ts =>
      match fuel with
      | O => None
      | S fuel =>
          match run_task coll t h with
          | Some (more, h) => run_tasks fuel coll (more ++ ts) h
          | None => None
          end
      end
  end.

(** What is left to do: a release can at most retire, a dropped or destroyed
    object adds what it held. *)
Definition held_count (b : obj) : nat :=
  length (members b) + length (natives b) + length (versionChain b).
Definition task_cost (t : task) : nat :=
  match t with TDec _ => 2 | TDecWeak _ => 1 | TRetire _ => 1 | TDrop _ => 1 | TDestroy _ => 2 end.
Definition work (ts : list task) (h : heap) : nat :=
  (sum_list_with task_cost ts + 2 * msum held_count (objs h))%nat.

Definition run_all (coll : bool) (ts : list task) (h : heap) : option heap :=
  run_tasks (work ts h) coll ts h.

(** ** The mark phase *)

Definition strong_of (vs : list value) : list Z :=
  omap (fun v => match v with VStrong o => Some o | _ => None end) vs.
Definition weak_of (vs : list value) : list Z :=
  omap (fun v => match v with VWeak o => Some o | _ => None end) vs.

Arguments strong_of : simpl never.
Arguments weak_of : simpl never.

(** What [trace] visits and the version snapshots. *)
Definition children (b : obj) : list Z :=
  strong_of (members b ++ natives b) ++ map snd (versionChain b).

Definition markObj (ep : Z) (st : heap * list Z) (o : Z) : option (heap * list Z) :=
  match objs st.1 !! o with
  | None => None
  | Some b =>
      if collecting b then Some st
      else if markEpoch b =? ep then Some st
      else Some (on_obj o (set_mark ep) st.1, o :: st.2)
  end.

Fixpoint visit (ep : Z) (os : list Z) (st : heap * list Z) : option (heap * list Z) :=
  match os with
  | [] => Some st
  | o :: os => match markObj ep st o with Some st => visit ep os st | None => None end
  end.

Fixpoint mark_drain (fuel : nat) (ep : Z) (st : heap * list Z) : option heap :=
  match st.2 with
  | [] => Some st.1
  | o :: rest =>
      match fuel with
      | O => None
      | S fuel =>
          match objs st.1 !! o with
          | None => None
          | Some b =>
              match visit ep (children b) (st.1, rest) with
              | Some st => mark_drain fuel ep st
              | None => None
              end
          end
      end
  end.

(** Each object enters the worklist once. *)
Definition mark_from (ep : Z) (os : list Z) (h : heap) : option heap :=
  match visit ep os (h, []) with
  | Some st => mark_drain (S (size (objs h))) ep st
  | None => None
  end.

(** ** Version chains *)

(** The versions kept: all down to the newest older than every snapshot. *)
Fixpoint kept_versions (minEpoch : Z) (vs : list (Z * Z)) : list (Z * Z) :=
  match vs with
  | [] => []
  | v :: vs => if v.1 <? minEpoch then [v] else v :: kept_versions minEpoch vs
  end.

Definition UINT64_MAX : Z := 2 ^ 64 - 1.

Definition trimVersionChain (minEpoch o : Z) (h : heap) : option heap :=
  match objs h !! o with
  | None => None
  | Some b =>
      let kept := if minEpoch =? UINT64_MAX then [] else kept_versions minEpoch (versionChain b) in
      run_all true (map (fun v => TDec v.2) (drop (length kept) (versionChain b)))
        (on_obj o (set_versions kept) h)
  end.

Fixpoint trim_all (minEpoch ep : Z) (os : list Z) (h : heap) : option heap :=
  match os with
  | [] => Some h
  | o :: os =>
      match objs h !! o with
      | None => None
      | Some b =>
          if alive b && negb (collecting b) && (markEpoch b =? ep)
             && negb (bool_decide (versionChain b = []))
          then match trimVersionChain minEpoch o h with
               | Some h => trim_all minEpoch ep os h
               | None => None
               end
          else trim_all minEpoch ep os h
      end
  end.

(** ** The sweep *)

Definition sweep_one (ep : Z) (st : heap * list Z) (o : Z) : heap * list Z :=
  match objs st.1 !! o with
  | None => st
  | Some b =>
      if negb (alive b) || collecting b || (markEpoch b =? ep) then st
      else (on_obj o (fun b => set_alive false (set_collecting true b)) st.1, st.2 ++ [o])
  end.

Definition clear_marks (h : heap) : heap :=
  fold_left (fun h o => on_obj o (set_mark 0) h) (registry h) h.

(** The epoch is 64 bits wide; on its wrap the stale marks are cleared. *)
Definition next_epoch (h : heap) : heap :=
  let ep := wrapU 64 (epoch h + 1) in
  if ep =? 0 then clear_marks (set_epoch 1 h) else set_epoch ep h.

(** The scan's hits that are still objects, marked where the precise mark has not
    reached them. *)
Definition is_alive (h : heap) (o : Z) : bool :=
  match objs h !! o with Some b => alive b | None => false end.
Definition conservative (scan : list Z) (h : heap) : list Z :=
  base.filter (fun o => is_alive h o = true) scan.

Definition performCollection (minEpoch : Z) (scan : list Z) (h : heap) : option heap :=
  let h := next_epoch h in
  let ep := epoch h in
  match mark_from ep (strong_of (roots h)) h with
  | None => None
  | Some h =>
      match trim_all minEpoch ep (registry h) h with
      | None => None
      | Some h =>
          match mark_from ep (conservative scan h) h with
          | None => None
          | Some h =>
              let '(h, unreachable) := fold_left (sweep_one ep) (registry h) (h, []) in
              Some (set_swept (swept h ++ unreachable) h)
          end
      end
  end.

(** One atomic push of a whole sweep. *)
Definition retireObjects (h : heap) : heap := set_swept [] (set_queue (queue h ++ swept h) h).

(** ** The reclaimer *)

Definition hold (h : heap) (o : Z) : heap := on_obj o incWeak h.

(** An actor instance goes to the lifecycle thread instead. *)
Definition is_actor (h : heap) (o : Z) : bool :=
  match objs h !! o with Some b => isActor b | None => false end.
Definition destroys (h : heap) (os : list Z) : list Z :=
  base.filter (fun o => is_actor h o = false) os.
Definition finalizes (h : heap) (os : list Z) : list Z :=
  base.filter (fun o => is_actor h o = true) os.

(** One batch: every object's references are dropped, its block held, then it is
    destroyed; the holds go last. *)
Definition reclaim_round (h : heap) : option heap :=
  let batch := queue h in
  match run_all false (map TDrop batch) (set_queue [] h) with
  | None => None
  | Some h =>
      let h := fold_left hold batch h in
      let actors := finalizes h batch in
      match run_all false (map TDestroy (destroys h batch)) h with
      | None => None
      | Some h =>
          run_all false (map TDecWeak batch) (set_finalizing (finalizing h ++ actors) h)
      end
  end.

Fixpoint free_rounds (fuel : nat) (h : heap) : option heap :=
  match queue h with
  | [] => Some h
  | _ =>
      match fuel with
      | O => None
      | S fuel => match reclaim_round h with Some h => free_rounds fuel h | None => None end
      end
  end.

(** A round ends at least one object. *)
Definition freeObjects (h : heap) : option heap := free_rounds (S (size (objs h))) h.

(** The lifecycle thread, once the actor's worker has been joined. *)
Definition finalizeActor (h : heap) : option heap :=
  match finalizing h with
  | [] => Some h
  | o :: os => run_all false [TDestroy o] (set_finalizing os h)
  end.

(** ** Operations on Values *)

(** A Value's storage: a root, a native frame, or inside an object. *)
Inductive place := InRoot (i : nat) | InLocal (i : nat) | InMember (o : Z) (i : nat).

#[global] Instance place_eq_dec : EqDecision place.
Proof. solve_decision. Defined.

Definition read (p : place) (h : heap) : option value :=
  match p with
  | InRoot i => roots h !! i
  | InLocal i => locals h !! i
  | InMember o i => match objs h !! o with Some b => members b !! i | None => None end
  end.

Definition store (p : place) (v : value) (h : heap) : heap :=
  match p with
  | InRoot i => set_roots (<[i := v]> (roots h)) h
  | InLocal i => set_locals (<[i := v]> (locals h)) h
  | InMember o i => on_obj o (fun b => set_members (<[i := v]> (members b)) b) h
  end.

(** The count a copy takes. *)
Definition acquire (v : value) (h : heap) : option heap :=
  match v with
  | VPlain => Some h
  | VStrong o => match objs h !! o with Some _ => Some (on_obj o incRef h) | None => None end
  | VWeak o => match objs h !! o with Some _ => Some (on_obj o incWeak h) | None => None end
  end.

(** operator=: the old reference is released before the word is copied. *)
Definition assign (dst src : place) (h : heap) : option heap :=
  match read dst h with
  | None => None
  | Some old =>
      match run_all false (release old) h with
      | None => None
      | Some h =>
          match read src h with
          | None => None
          | Some v => acquire v (store dst v h)
          end
      end
  end.

(** The two halves of operator=, for what other threads do in between.  The word the
    first half leaves in place has lost its count: it is no Value until the second half
    overwrites it, and [VPlain] here. *)
Definition assign_release (dst : place) (h : heap) : option heap :=
  match read dst h with
  | None => None
  | Some old => run_all false (release old) (store dst VPlain h)
  end.

Definition assign_copy (dst src : place) (h : heap) : option heap :=
  match read src h with
  | None => None
  | Some v => acquire v (store dst v h)
  end.

(** weakRef and strongRef of a Value. *)
Definition weakRef (v : value) : value := match v with VStrong o => VWeak o | _ => v end.

Definition strongRef (v : value) (h : heap) : value :=
  match v with
  | VWeak o =>
      match objs h !! o with
      | Some b => if alive b && (0 <? strong b) then VStrong o else VPlain
      | None => VPlain
      end
  | _ => v
  end.

(** A copy into a new local, the way every temporary starts. *)
Definition push_local (v : value) (h : heap) : option heap :=
  acquire v (set_locals (locals h ++ [v]) h).
Definition push_root (v : value) (h : heap) : option heap := acquire v (set_roots (roots h ++ [v]) h).

Definition drop_last {A} (l : list A) : list A := take (length l - 1) l.

Definition pop_local (h : heap) : option heap :=
  match last (locals h) with
  | None => None
  | Some v => run_all false (release v) (set_locals (drop_last (locals h)) h)
  end.
Definition pop_root (h : heap) : option heap :=
  match last (roots h) with
  | None => None
  | Some v => run_all false (release v) (set_roots (drop_last (roots h)) h)
  end.

(** newObj and the Value that takes it. *)
Definition create (o : Z) (actor : bool) (h : heap) : option heap :=
  push_local (VStrong o)
    (set_registry (registry h ++ [o]) (set_objs (<[o := new_obj actor]> (objs h)) h)).

Definition append (o : Z) (v : value) (h : heap) : option heap :=
  acquire v (on_obj o (fun b => set_members (members b ++ [v]) b) h).
Definition append_native (o : Z) (v : value) (h : heap) : option heap :=
  acquire v (on_obj o (fun b => set_natives (natives b ++ [v]) b) h).

Definition acquires (vs : list value) (h : heap) : option heap :=
  fold_left (fun r v => match r with Some h => acquire v h | None => None end) vs (Some h).

(** saveVersion past its guard (see [Mvcc]): a shallow clone [s], owned by the
    version node. *)
Definition saveVersion (o s ep : Z) (h : heap) : option heap :=
  match objs h !! o with
  | None => None
  | Some b =>
      acquires (VStrong s :: members b)
        (on_obj o (set_versions ((ep, s) :: versionChain b))
           (set_registry (registry h ++ [s])
              (set_objs (<[s := set_members (members b) (new_obj false)]> (objs h)) h)))
  end.

(** ** Steps *)

(** What a mutator may dereference: the objects its Values name strongly. *)
Definition named (h : heap) : list Z := strong_of (roots h ++ locals h).

Inductive op :=
| OCreate (o : Z) (actor : bool)
| OCopy (src : place)
| ORoot (src : place)
| OPlain
| OAssign (dst src : place)
| ORelease (dst : place)
| OFill (dst src : place)
| OPopLocal
| OPopRoot
| OAppend (o : Z) (src : place)
| ONative (o : Z) (src : place)
| OWeakRef (src : place)
| OStrongRef (src : place)
| OSave (o s ep : Z)
| OCollect (minEpoch : Z) (scan : list Z)
| OPublish
| ORound
| OFinalize.

Definition run (p : op) (h : heap) : option heap :=
  let via src k := match read src h with Some v => k v | None => None end in
  match p with
  | OCreate o actor => create o actor h
  | OCopy src => via src (fun v => push_local v h)
  | ORoot src => via src (fun v => push_root v h)
  | OPlain => push_local VPlain h
  | OAssign dst src => assign dst src h
  | ORelease dst => assign_release dst h
  | OFill dst src => assign_copy dst src h
  | OPopLocal => pop_local h
  | OPopRoot => pop_root h
  | OAppend o src => via src (fun v => append o v h)
  | ONative o src => via src (fun v => append_native o v h)
  | OWeakRef src => via src (fun v => push_local (weakRef v) h)
  | OStrongRef src => via src (fun v => push_local (strongRef v h) h)
  | OSave o s ep => saveVersion o s ep h
  | OCollect minEpoch scan => performCollection minEpoch scan h
  | OPublish => Some (retireObjects h)
  | ORound => reclaim_round h
  | OFinalize => finalizeActor h
  end.

(** A place a mutator can reach: its own, or a member of an object it names. *)
Definition place_ok (h : heap) (p : place) : Prop :=
  is_Some (read p h) /\ match p with InMember o _ => o ∈ named h | _ => True end.

(** The references of all kinds that are held somewhere. *)
Definition refs (h : heap) : nat :=
  length (roots h) + length (locals h) + msum held_count (objs h).

(** Few enough references that no count overflows. *)
Definition room (n : nat) (h : heap) : Prop := Z.of_nat (refs h + n) < 2 ^ 31 - 4.

(** When an operation may take place.  A collection finds the Values of native
    frames by its scan of the parked stacks.  A Value is not assigned to itself.  The
    two halves of an assignment may have anything between them as long as the source is
    still in the program's reach at the second; [OAssign], both at once, also has the
    assignments whose source lies in the block that the first half gives up. *)
Definition valid (p : op) (h : heap) : Prop :=
  match p with
  | OCreate o _ => objs h !! o = None /\ room 1 h
  | OCopy src | ORoot src | OWeakRef src | OStrongRef src => place_ok h src /\ room 1 h
  | OPlain | OPublish | ORound | OFinalize => room 1 h
  | OAssign dst src => place_ok h dst /\ place_ok h src /\ dst <> src /\ room 1 h
  | ORelease dst => place_ok h dst
  | OFill dst src =>
      place_ok h dst /\ read dst h = Some VPlain /\ place_ok h src /\ dst <> src /\ room 1 h
  | OPopLocal => locals h <> []
  | OPopRoot => roots h <> []
  | OAppend o src => o ∈ named h /\ place_ok h src /\ room 1 h
  | ONative o src => o ∈ named h /\ is_actor h o = false /\ place_ok h src /\ room 1 h
  | OSave o s _ =>
      o ∈ named h /\ objs h !! s = None /\
      match objs h !! o with Some b => room (S (length (members b))) h | None => False end
  | OCollect _ scan => Forall (fun o => o ∈ scan) (strong_of (locals h))
  end.

#[global] Instance place_ok_dec h p : Decision (place_ok h p).
Proof. destruct p; unfold place_ok; apply _. Defined.
#[global] Instance valid_dec p h : Decision (valid p h).
Proof. destruct p; cbn [valid]; unfold room; try apply _. destruct (objs h !! o); apply _. Defined.

Definition step (h h' : heap) : Prop := exists p, valid p h /\ run p h = Some h'.
Definition reachable (h : heap) : Prop := rtc step empty_heap h.

End GcHeap.
