(* ===== verification/GcInvariant.v ===== *)
(** * GcInvariant: what every state of the heap satisfies

    [counts]: every count is the number of references, the pending releases and the
    reclaimer's holds included.  [shape]: claimed, queued and destroyed objects are
    where they should be, and nothing that is alive refers to an object whose
    death is claimed.  Both are kept by the tasks of a release and by a round of
    the reclaimer; the tasks and the rounds end. *)

From S2P Require Import Prelude GcHeap.
From stdpp Require Import numbers pretty.

Module GcInvariant.

Import GcHeap.
Local Open Scope Z_scope.

(** ** Counting occurrences *)

Definition occ (o : Z) (l : list Z) : nat := length (base.filter (eq o) l).
Arguments occ : simpl never.

Lemma occ_nil o : occ o [] = 0%nat.
Proof. done. Qed.

Lemma occ_cons o x l : occ o (x :: l) = ((if decide (o = x) then 1 else 0) + occ o l)%nat.
Proof. unfold occ. rewrite filter_cons. by case_decide. Qed.

Lemma occ_app o l k : occ o (l ++ k) = (occ o l + occ o k)%nat.
Proof. unfold occ. by rewrite filter_app, length_app. Qed.

Lemma occ_pos o l : (0 < occ o l)%nat <-> o ∈ l.
Proof.
  induction l as [|x l IH]; [rewrite occ_nil; split; [lia|set_solver]|].
  rewrite occ_cons, elem_of_cons. case_decide; [split; [auto|lia]|]. rewrite Nat.add_0_l, IH. naive_solver.
Qed.

Lemma occ_zero o l : occ o l = 0%nat <-> o ∉ l.
Proof. rewrite <- occ_pos. lia. Qed.

Lemma occ_le_length o l : (occ o l <= length l)%nat.
Proof. apply length_filter. Qed.

Lemma occ_NoDup o l : NoDup l -> (occ o l <= 1)%nat.
Proof.
  induction 1 as [|x l Hx Hl IH]; [rewrite occ_nil; lia|]. rewrite occ_cons. case_decide; [|lia]. subst.
  rewrite (proj2 (occ_zero x l) Hx). lia.
Qed.

(** ** Invariant *)

Definition wchildren (b : obj) : list Z := weak_of (members b ++ natives b).

(** Strong and weak references to an object. *)
Definition sref (h : heap) (o : Z) : nat :=
  (occ o (named h) + msum (fun b => occ o (children b)) (objs h))%nat.
Definition wref (h : heap) (o : Z) : nat :=
  (occ o (weak_of (roots h ++ locals h)) + msum (fun b => occ o (wchildren b)) (objs h))%nat.

Definition decs (ts : list task) : list Z :=
  omap (fun t => match t with TDec o => Some o | _ => None end) ts.
Definition wdecs (ts : list task) : list Z :=
  omap (fun t => match t with TDecWeak o => Some o | _ => None end) ts.
Definition retires (ts : list task) : list Z :=
  omap (fun t => match t with TRetire o => Some o | _ => None end) ts.
Definition drops (ts : list task) : list Z :=
  omap (fun t => match t with TDrop o => Some o | _ => None end) ts.
Definition ends (ts : list task) : list Z :=
  omap (fun t => match t with TDestroy o => Some o | _ => None end) ts.

Definition collecting_at (h : heap) (o : Z) : bool :=
  match objs h !! o with Some b => collecting b | None => false end.
Definition destroyed_at (h : heap) (o : Z) : bool :=
  match objs h !! o with Some b => destroyed b | None => false end.

(** The counts are exact: what is held, what is about to be released, and what
    the reclaimer holds; a block that is gone is not referred to at all. *)
Record counts (ts : list task) (holds : list Z) (h : heap) : Prop := {
  c_strong : forall o b, objs h !! o = Some b -> strong b = Z.of_nat (sref h o + occ o (decs ts));
  c_weak : forall o b, objs h !! o = Some b ->
    weak b = Z.of_nat (wref h o + occ o (wdecs ts) + occ o holds) + Z.b2z (negb (destroyed b));
  c_dom : forall o, objs h !! o = None ->
    (sref h o + occ o (decs ts) + wref h o + occ o (wdecs ts) + occ o holds = 0)%nat;
  c_range : forall o b, objs h !! o = Some b -> strong b < 2 ^ 31 /\ weak b < 2 ^ 31;
  c_live : forall o b, objs h !! o = Some b -> collecting b = false -> 1 <= strong b;
  c_gone : forall o, o ∉ holds ->
    destroyed_at h o = true \/ o ∈ finalizing h \/ o ∈ ends ts ->
    (sref h o + occ o (decs ts) = 0)%nat;
}.

(** The objects whose death is claimed and that are not destroyed yet: each is in
    one place. *)
Definition claimed (ts : list task) (rest : list Z) (h : heap) : list Z :=
  queue h ++ swept h ++ finalizing h ++ retires ts ++ ends ts ++ rest.

Record shape (ts : list task) (rest batch : list Z) (h : heap) : Prop := {
  s_closed : forall x b y, objs h !! x = Some b -> y ∈ children b -> collecting_at h y = true ->
    collecting b = true;
  s_named : forall y, y ∈ named h -> collecting_at h y = false;
  s_drop : forall o b, objs h !! o = Some b -> dropClaimed b = true ->
    members b = [] /\ versionChain b = [] /\ collecting b = true;
  s_dead : forall o b, objs h !! o = Some b -> destroyed b = true ->
    dropClaimed b = true /\ natives b = [];
  s_actor : forall o b, objs h !! o = Some b -> isActor b = true -> natives b = [];
  s_batch : forall x b y, objs h !! x = Some b -> y ∈ children b -> y ∈ batch -> x ∈ batch;
  s_nodup : NoDup (claimed ts rest h);
  s_class : forall o b, objs h !! o = Some b ->
    o ∈ claimed ts rest h <-> collecting b = true /\ destroyed b = false;
  s_dom : forall o, o ∈ claimed ts rest h -> is_Some (objs h !! o);
  s_alive : forall o b, objs h !! o = Some b ->
    alive b = negb (collecting b) || bool_decide (o ∈ retires ts);
  s_queue : forall x b y, objs h !! x = Some b -> y ∈ children b -> y ∈ queue h -> x ∈ queue h;
  s_retire : forall x b y, objs h !! x = Some b -> y ∈ children b -> y ∉ retires ts;
  s_ends : forall o b, objs h !! o = Some b -> o ∈ finalizing h \/ o ∈ ends ts ->
    dropClaimed b = true;
  s_fin : forall o, o ∈ finalizing h -> is_actor h o = true;
  s_drops : forall o, o ∈ drops ts -> o ∈ rest;
  s_marks : forall o b, objs h !! o = Some b -> destroyed b = false -> 0 <= markEpoch b <= epoch h;
  s_epoch : 1 <= epoch h < 2 ^ 64;
  s_nodup_reg : NoDup (registry h);
  s_reg : forall o, o ∈ registry h <-> exists b, objs h !! o = Some b /\ destroyed b = false;
}.

(** ** Effects of an update *)

Lemma on_obj_cases o f h b k b' :
  objs h !! o = Some b -> objs (on_obj o f h) !! k = Some b' ->
  k = o /\ b' = f b \/ k <> o /\ objs h !! k = Some b'.
Proof.
  intros E. unfold on_obj. cbn. destruct (decide (k = o)) as [->|Ek].
  - rewrite lookup_alter_eq, E. intros [= <-]. by left.
  - rewrite lookup_alter_ne by done. by right.
Qed.

Lemma on_obj_lookup o f h k :
  objs (on_obj o f h) !! k = if decide (k = o) then f <$> objs h !! o else objs h !! k.
Proof.
  unfold on_obj. cbn. case_decide as E; [subst; apply lookup_alter_eq|by apply lookup_alter_ne].
Qed.

Lemma on_obj_get o f h b : objs h !! o = Some b -> objs (on_obj o f h) !! o = Some (f b).
Proof. intros E. by rewrite on_obj_lookup, decide_True, E. Qed.

Lemma on_obj_is_Some o f h k : is_Some (objs (on_obj o f h) !! k) <-> is_Some (objs h !! k).
Proof. rewrite on_obj_lookup. case_decide as E; [subst|done]. by rewrite fmap_is_Some. Qed.

Lemma sref_alter o f h b y : objs h !! o = Some b ->
  (sref (on_obj o f h) y + occ y (children b))%nat = (sref h y + occ y (children (f b)))%nat.
Proof.
  intros E. unfold sref. change (named (on_obj o f h)) with (named h). cbn [on_obj objs set_objs].
  pose proof (msum_alter (fun b => occ y (children b)) f (objs h) o b E). cbn in *. lia.
Qed.

Lemma wref_alter o f h b y : objs h !! o = Some b ->
  (wref (on_obj o f h) y + occ y (wchildren b))%nat = (wref h y + occ y (wchildren (f b)))%nat.
Proof.
  intros E. unfold wref. cbn [on_obj objs set_objs roots locals].
  pose proof (msum_alter (fun b => occ y (wchildren b)) f (objs h) o b E). cbn in *. lia.
Qed.

Lemma sref_pos h x b y : objs h !! x = Some b -> y ∈ children b -> (0 < sref h y)%nat.
Proof.
  intros E Hy%occ_pos. unfold sref.
  pose proof (msum_ge (fun b => occ y (children b)) (objs h) x b E). cbn in *. lia.
Qed.

Lemma sref_named h y : y ∈ named h -> (0 < sref h y)%nat.
Proof. intros Hy%occ_pos. unfold sref. lia. Qed.

(** Two blocks that differ in their counts only. *)
Record same_state (b b' : obj) : Prop := {
  ss_alive : alive b' = alive b;
  ss_collecting : collecting b' = collecting b;
  ss_drop : dropClaimed b' = dropClaimed b;
  ss_mark : markEpoch b' = markEpoch b;
  ss_actor : isActor b' = isActor b;
  ss_members : members b' = members b;
  ss_natives : natives b' = natives b;
  ss_versions : versionChain b' = versionChain b;
  ss_destroyed : destroyed b' = destroyed b;
}.

Lemma same_children b b' : same_state b b' -> children b' = children b.
Proof. intros []. unfold children. congruence. Qed.
Lemma same_wchildren b b' : same_state b b' -> wchildren b' = wchildren b.
Proof. intros []. unfold wchildren. congruence. Qed.

(** What a step may do to a block without waking it up. *)
Record evolves (b b' : obj) : Prop := {
  ev_children : forall y, y ∈ children b' -> y ∈ children b;
  ev_collecting : collecting b' = collecting b;
  ev_mark : markEpoch b' = markEpoch b;
  ev_undead : destroyed b = true -> destroyed b' = true;
  ev_drop : dropClaimed b = true -> dropClaimed b' = true;
  ev_actor : isActor b' = isActor b;
  ev_dropped : dropClaimed b' = true -> members b' = [] /\ versionChain b' = [] /\ collecting b' = true;
  ev_dead : destroyed b' = true -> dropClaimed b' = true /\ natives b' = [];
  ev_natives : isActor b' = true -> natives b' = [];
}.

Lemma evolves_same ts rest batch h o b b' :
  shape ts rest batch h -> objs h !! o = Some b -> same_state b b' -> evolves b b'.
Proof.
  intros Hs E Hss. pose proof (same_children b b' Hss) as Hch. destruct Hss. split; try done.
  - intros y. by rewrite Hch.
  - by rewrite ss_destroyed0.
  - by rewrite ss_drop0.
  - rewrite ss_drop0, ss_members0, ss_versions0, ss_collecting0. by eapply (s_drop _ _ _ _ Hs).
  - rewrite ss_destroyed0, ss_drop0, ss_natives0. by eapply (s_dead _ _ _ _ Hs).
  - rewrite ss_actor0, ss_natives0. by eapply (s_actor _ _ _ _ Hs).
Qed.

(** The blocks evolve; the claimed objects are where they should be. *)
Lemma shape_evolves ts ts' rest rest' batch h h' :
  shape ts rest batch h ->
  (forall k b', objs h' !! k = Some b' -> exists b, objs h !! k = Some b /\ evolves b b') ->
  named h' = named h -> epoch h' = epoch h ->
  NoDup (claimed ts' rest' h') ->
  (forall k b', objs h' !! k = Some b' ->
     k ∈ claimed ts' rest' h' <-> collecting b' = true /\ destroyed b' = false) ->
  (forall k, k ∈ claimed ts' rest' h' -> is_Some (objs h' !! k)) ->
  (forall k b', objs h' !! k = Some b' -> alive b' = negb (collecting b') || bool_decide (k ∈ retires ts')) ->
  (forall k, k ∈ queue h -> k ∈ queue h') ->
  (forall k, k ∈ queue h' -> k ∈ queue h \/ k ∈ retires ts) ->
  (forall k, k ∈ retires ts' -> k ∈ retires ts) -> (forall k, k ∈ ends ts' -> k ∈ ends ts) ->
  (forall k, k ∈ drops ts' -> k ∈ rest') -> (forall k, k ∈ finalizing h' -> k ∈ finalizing h) ->
  NoDup (registry h') ->
  (forall o, o ∈ registry h' <-> exists b, objs h' !! o = Some b /\ destroyed b = false) ->
  shape ts' rest' batch h'.
Proof.
  intros Hs Hev En Ee Hnd Hcl Hdom Hal Hq1 Hq2 Hrt Hen Hdr Hfin Hnr Hreg.
  assert (forall k, collecting_at h' k = true -> collecting_at h k = true) as Hc.
  { unfold collecting_at. intros k. destruct (objs h' !! k) as [b'|] eqn:E; [|done].
    destruct (Hev k b' E) as (b & -> & Hb). by rewrite (ev_collecting _ _ Hb). }
  assert (forall x b' y, objs h' !! x = Some b' -> y ∈ children b' ->
    exists b, objs h !! x = Some b /\ y ∈ children b /\ collecting b = collecting b') as Hsub.
  { intros x b' y Hx Hy. destruct (Hev x b' Hx) as (b & E & Hb). exists b.
    split; [done|]. split; [by apply (ev_children _ _ Hb)|by rewrite (ev_collecting _ _ Hb)]. }
  split; try assumption.
  - intros x b' y Hx Hy Hcy%Hc. destruct (Hsub x b' y Hx Hy) as (b & E & Hyb & <-).
    by eapply (s_closed _ _ _ _ Hs).
  - intros y. rewrite En. intros Hy%(s_named _ _ _ _ Hs). apply not_true_is_false. intros Hcy%Hc. congruence.
  - intros k b' Hk. destruct (Hev k b' Hk) as (b & E & Hb). apply Hb.
  - intros k b' Hk. destruct (Hev k b' Hk) as (b & E & Hb). apply Hb.
  - intros k b' Hk. destruct (Hev k b' Hk) as (b & E & Hb). apply Hb.
  - intros x b' y Hx Hy. destruct (Hsub x b' y Hx Hy) as (b & E & Hyb & _). by eapply (s_batch _ _ _ _ Hs).
  - intros x b' y Hx Hy Hq. destruct (Hsub x b' y Hx Hy) as (b & E & Hyb & _).
    destruct (Hq2 y Hq) as [Hy'|Hy']; [by apply Hq1; eapply (s_queue _ _ _ _ Hs)|].
    by destruct (s_retire _ _ _ _ Hs x b y E Hyb).
  - intros x b' y Hx Hy Hr. destruct (Hsub x b' y Hx Hy) as (b & E & Hyb & _).
    by eapply (s_retire _ _ _ _ Hs), Hrt.
  - intros k b' Hk Hin. destruct (Hev k b' Hk) as (b & E & Hb). apply (ev_drop _ _ Hb).
    apply (s_ends _ _ _ _ Hs k b E). destruct Hin; auto.
  - intros k Hk. assert (is_Some (objs h' !! k)) as [b' Eb'].
    { apply Hdom. unfold claimed. set_solver. }
    destruct (Hev k b' Eb') as (b & E & Hb).
    pose proof (s_fin _ _ _ _ Hs k (Hfin k Hk)) as Ha. unfold is_actor in *. rewrite Eb'. rewrite E in Ha.
    by rewrite (ev_actor _ _ Hb).
  - intros k b' Hk Hd. destruct (Hev k b' Hk) as (b & E & Hb). rewrite Ee, (ev_mark _ _ Hb).
    eapply (s_marks _ _ _ _ Hs); [done|]. apply not_true_is_false. intros Hd'%(ev_undead _ _ Hb). congruence.
  - rewrite Ee. apply Hs.
Qed.

Lemma shape_tasks ts ts' rest batch h :
  retires ts' = retires ts -> ends ts' = ends ts -> (forall k, k ∈ drops ts' -> k ∈ drops ts) ->
  shape ts rest batch h -> shape ts' rest batch h.
Proof.
  intros E1 E2 E3 Hs. assert (claimed ts' rest h = claimed ts rest h) as Hc
    by (unfold claimed; by rewrite E1, E2).
  destruct Hs. split; rewrite ?Hc, ?E1, ?E2; try done. auto.
Qed.

(** An update of one block that leaves the lists alone. *)
Lemma shape_one ts rest batch h o b f :
  shape ts rest batch h -> objs h !! o = Some b -> evolves b (f b) ->
  alive (f b) = alive b -> destroyed (f b) = destroyed b ->
  shape ts rest batch (on_obj o f h).
Proof.
  intros Hs E Hev Hal Hde.
  assert (forall k b', objs (on_obj o f h) !! k = Some b' -> exists b0, objs h !! k = Some b0 /\
    evolves b0 b' /\ alive b' = alive b0 /\ destroyed b' = destroyed b0) as Hk.
  { intros k b' Hk. destruct (on_obj_cases o f h b k b' E Hk) as [[-> ->]|[_ Hk']]; [by exists b|].
    exists b'. split_and!; try done. by eapply evolves_same. }
  apply (shape_evolves ts ts rest rest batch h); try done; try apply Hs.
  - intros k b' (b0 & E0 & H0 & _)%Hk. eauto.
  - intros k b' (b0 & E0 & H0 & _ & ->)%Hk. rewrite (ev_collecting _ _ H0). by apply (s_class _ _ _ _ Hs).
  - intros k Hin. apply on_obj_is_Some. by apply (s_dom _ _ _ _ Hs).
  - intros k b' (b0 & E0 & H0 & -> & _)%Hk. rewrite (ev_collecting _ _ H0). by apply (s_alive _ _ _ _ Hs).
  - by left.
  - intros k. change (registry (on_obj o f h)) with (registry h). rewrite (s_reg _ _ _ _ Hs). split.
    + intros (b0 & E0 & Hd). destruct (on_obj_is_Some o f h k) as [_ H]. destruct (H ltac:(by eexists)) as [b' Eb'].
      exists b'. split; [done|]. destruct (Hk k b' Eb') as (b1 & E1 & _ & _ & ->). congruence.
    + intros (b' & (b0 & E0 & _ & _ & Hd)%Hk & Hd'). exists b0. split; [done|congruence].
Qed.

(** A change of counts only. *)
Lemma shape_count ts rest batch h o f b :
  shape ts rest batch h -> objs h !! o = Some b -> same_state b (f b) ->
  shape ts rest batch (on_obj o f h).
Proof.
  intros Hs E Hss. apply (shape_one ts rest batch h o b); [done|done|by eapply evolves_same|apply Hss..].
Qed.

Lemma sref_same o f h y :
  (forall b, objs h !! o = Some b -> children (f b) = children b) -> sref (on_obj o f h) y = sref h y.
Proof.
  intros Hf. destruct (objs h !! o) as [b|] eqn:E.
  - pose proof (sref_alter o f h b y E). rewrite (Hf b eq_refl) in H. lia.
  - unfold sref. change (named (on_obj o f h)) with (named h). cbn.
    rewrite alter_id; [done|]. intros x. by rewrite E.
Qed.

Lemma wref_same o f h y :
  (forall b, objs h !! o = Some b -> wchildren (f b) = wchildren b) -> wref (on_obj o f h) y = wref h y.
Proof.
  intros Hf. destruct (objs h !! o) as [b|] eqn:E.
  - pose proof (wref_alter o f h b y E). rewrite (Hf b eq_refl) in H. lia.
  - unfold wref. cbn. rewrite alter_id; [done|]. intros x. by rewrite E.
Qed.

(** The lists of tasks, one task at a time. *)
Lemma decs_app ts us : decs (ts ++ us) = decs ts ++ decs us.
Proof. apply omap_app. Qed.
Lemma wdecs_app ts us : wdecs (ts ++ us) = wdecs ts ++ wdecs us.
Proof. apply omap_app. Qed.
Lemma retires_app ts us : retires (ts ++ us) = retires ts ++ retires us.
Proof. apply omap_app. Qed.
Lemma drops_app ts us : drops (ts ++ us) = drops ts ++ drops us.
Proof. apply omap_app. Qed.
Lemma ends_app ts us : ends (ts ++ us) = ends ts ++ ends us.
Proof. apply omap_app. Qed.

Lemma decs_releases vs : decs (releases vs) = strong_of vs.
Proof.
  induction vs as [|[|o|o] vs IH]; [done|exact IH|..].
  - exact (f_equal (cons o) IH).
  - exact IH.
Qed.
Lemma wdecs_releases vs : wdecs (releases vs) = weak_of vs.
Proof.
  induction vs as [|[|o|o] vs IH]; [done|exact IH|..].
  - exact IH.
  - exact (f_equal (cons o) IH).
Qed.
Lemma releases_only vs : retires (releases vs) = [] /\ ends (releases vs) = [] /\ drops (releases vs) = [].
Proof.
  induction vs as [|[|o|o] vs (IH1 & IH2 & IH3)]; [done|..]; split_and!; assumption.
Qed.

Lemma versions_only (vs : list (Z * Z)) :
  let ts := map (fun v => TDec v.2) vs in
  wdecs ts = [] /\ retires ts = [] /\ ends ts = [] /\ drops ts = [] /\ decs ts = map snd vs.
Proof. induction vs as [|v vs (IH1 & IH2 & IH3 & IH4 & IH5)]; [done|].
  split_and!; [assumption..|exact (f_equal (cons v.2) IH5)]. Qed.
Lemma decs_drop b : decs (drop_tasks b) = strong_of (members b) ++ map snd (versionChain b).
Proof.
  unfold drop_tasks. rewrite decs_app, decs_releases. f_equal.
  apply (versions_only (versionChain b)).
Qed.
Lemma drop_only b :
  wdecs (drop_tasks b) = weak_of (members b) /\ retires (drop_tasks b) = [] /\
  ends (drop_tasks b) = [] /\ drops (drop_tasks b) = [].
Proof.
  unfold drop_tasks. destruct (releases_only (members b)) as (R1 & R2 & R3).
  destruct (versions_only (versionChain b)) as (V1 & V2 & V3 & V4 & _).
  rewrite wdecs_app, retires_app, ends_app, drops_app, wdecs_releases, R1, R2, R3, V1, V2, V3, V4.
  by rewrite app_nil_r.
Qed.

Lemma strong_of_app vs us : strong_of (vs ++ us) = strong_of vs ++ strong_of us.
Proof. apply omap_app. Qed.
Lemma weak_of_app vs us : weak_of (vs ++ us) = weak_of vs ++ weak_of us.
Proof. apply omap_app. Qed.

Lemma on_obj_None o f h k : objs (on_obj o f h) !! k = None <-> objs h !! k = None.
Proof. rewrite !eq_None_not_Some. by rewrite on_obj_is_Some. Qed.

Lemma collecting_alter o f h b k : objs h !! o = Some b ->
  collecting_at (on_obj o f h) k = if decide (k = o) then collecting (f b) else collecting_at h k.
Proof. intros E. unfold collecting_at. rewrite on_obj_lookup. case_decide; [by rewrite E|done]. Qed.

Lemma destroyed_alter o f h b k : objs h !! o = Some b ->
  destroyed_at (on_obj o f h) k = if decide (k = o) then destroyed (f b) else destroyed_at h k.
Proof. intros E. unfold destroyed_at. rewrite on_obj_lookup. case_decide; [by rewrite E|done]. Qed.

Lemma actor_alter o f h b k : objs h !! o = Some b -> isActor (f b) = isActor b ->
  is_actor (on_obj o f h) k = is_actor h k.
Proof.
  intros E Ef. unfold is_actor. rewrite on_obj_lookup. case_decide; [|done]. subst. rewrite E. done.
Qed.

Lemma shape_undead ts rest batch h o b :
  shape ts rest batch h -> objs h !! o = Some b -> collecting b = false ->
  dropClaimed b = false /\ destroyed b = false /\ o ∉ claimed ts rest h.
Proof.
  intros Hs E Hc.
  assert (dropClaimed b = false) as Hd.
  { destruct (dropClaimed b) eqn:Ed; [|done]. destruct (s_drop _ _ _ _ Hs o b E Ed) as (_ & _ & ?). congruence. }
  split; [done|]. split.
  - destruct (destroyed b) eqn:Ed; [|done]. destruct (s_dead _ _ _ _ Hs o b E Ed). congruence.
  - intros Hin. apply (s_class _ _ _ _ Hs o b E) in Hin as [? _]. congruence.
Qed.

(** Claiming a death that nothing refers to. *)
Lemma shape_claim ts rest batch h o b :
  shape ts rest batch h -> objs h !! o = Some b -> collecting b = false -> sref h o = 0%nat ->
  shape (TRetire o :: ts) rest batch (on_obj o (set_collecting true) h).
Proof.
  intros Hs E Hc H0. destruct (shape_undead _ _ _ _ _ _ Hs E Hc) as (Hnd & Hnx & Hncl).
  set (h' := on_obj o (set_collecting true) h).
  assert (forall x b0, objs h !! x = Some b0 -> o ∉ children b0) as Hno.
  { intros x b0 Ex Hin. pose proof (sref_pos h x b0 o Ex Hin). lia. }
  assert (forall k b', objs h' !! k = Some b' ->
    k = o /\ b' = set_collecting true b \/ k <> o /\ objs h !! k = Some b') as Hcases
    by (intros k b'; by apply on_obj_cases).
  assert (claimed (TRetire o :: ts) rest h' ≡ₚ o :: claimed ts rest h) as Hperm
    by (unfold claimed; cbn; solve_Permutation).
  assert (forall k, collecting_at h' k = if decide (k = o) then true else collecting_at h k) as Hcat
    by (intros k; by apply (collecting_alter o (set_collecting true) h b)).
  split.
  - intros x b' y Hx Hy Hcy. rewrite Hcat in Hcy. destruct (Hcases x b' Hx) as [[-> ->]|[Hne Hx']]; [done|].
    case_decide as Ey; [subst; by destruct (Hno x b' Hx')|]. by eapply (s_closed _ _ _ _ Hs).
  - intros y Hy. rewrite Hcat. case_decide as Ey; [|by apply (s_named _ _ _ _ Hs)].
    subst. pose proof (sref_named h o Hy). lia.
  - intros k b' [[-> ->]|[Hne Hx]]%Hcases; [cbn; congruence|by eapply (s_drop _ _ _ _ Hs)].
  - intros k b' [[-> ->]|[Hne Hx]]%Hcases; [cbn; congruence|by eapply (s_dead _ _ _ _ Hs)].
  - intros k b' [[-> ->]|[Hne Hx]]%Hcases; [exact (s_actor _ _ _ _ Hs o b E)|by eapply (s_actor _ _ _ _ Hs)].
  - intros x b' y [[-> ->]|[Hne Hx]]%Hcases Hy; [exact (s_batch _ _ _ _ Hs o b y E Hy)|by eapply (s_batch _ _ _ _ Hs)].
  - rewrite Hperm. constructor; [done|apply Hs].
  - intros k b' [[-> ->]|[Hne Hx]]%Hcases; rewrite Hperm, elem_of_cons.
    + cbn. split; [done|by left].
    + rewrite (s_class _ _ _ _ Hs k b' Hx). naive_solver.
  - intros k. rewrite Hperm, elem_of_cons. unfold h'. rewrite on_obj_is_Some.
    intros [->|Hk]; [by eexists|by eapply (s_dom _ _ _ _ Hs)].
  - intros k b' [[-> ->]|[Hne Hx]]%Hcases; cbn.
    + rewrite (s_alive _ _ _ _ Hs o b E), Hc. cbn. symmetry. apply bool_decide_eq_true_2. by left.
    + rewrite (s_alive _ _ _ _ Hs k b' Hx). f_equal. apply bool_decide_ext.
      change (retires (TRetire o :: ts)) with (o :: retires ts). rewrite elem_of_cons. naive_solver.
  - intros x b' y Hx Hy. destruct (Hcases x b' Hx) as [[-> ->]|[Hne Hx']];
      [exact (s_queue _ _ _ _ Hs o b y E Hy)|by eapply (s_queue _ _ _ _ Hs)].
  - intros x b' y Hx Hy. change (retires (TRetire o :: ts)) with (o :: retires ts).
    apply not_elem_of_cons. destruct (Hcases x b' Hx) as [[-> ->]|[Hne Hx']]; split.
    + intros ->. by destruct (Hno o b E).
    + exact (s_retire _ _ _ _ Hs o b y E Hy).
    + intros ->. by destruct (Hno x b' Hx').
    + by eapply (s_retire _ _ _ _ Hs).
  - intros k b' [[-> ->]|[Hne Hx]]%Hcases Hk; [exact (s_ends _ _ _ _ Hs o b E Hk)|by eapply (s_ends _ _ _ _ Hs)].
  - intros k Hk. unfold h'. rewrite (actor_alter o _ h b) by done. by apply (s_fin _ _ _ _ Hs).
  - intros k Hk. by apply (s_drops _ _ _ _ Hs).
  - intros k b' [[-> ->]|[Hne Hx]]%Hcases; [exact (s_marks _ _ _ _ Hs o b E)|by eapply (s_marks _ _ _ _ Hs)].
  - apply Hs.
  - apply Hs.
  - intros k. unfold h'. change (registry (on_obj _ _ h)) with (registry h). rewrite (s_reg _ _ _ _ Hs).
    split.
    + intros (b' & Hb & Hd). rewrite on_obj_lookup. case_decide as Ek; [|eauto]. subst.
      rewrite E. rewrite Hb in E. injection E as ->. by eexists.
    + intros (b' & Hb & Hd). destruct (Hcases k b' Hb) as [[-> ->]|[_ Hb']]; eauto.
Qed.

Lemma severed_children b y : y ∈ children (severed b) -> y ∈ children b.
Proof. unfold children. rewrite !strong_of_app. cbn. set_solver. Qed.

(** Severing the edges of a claimed object. *)
Lemma shape_sever ts rest batch h o b :
  shape ts rest batch h -> objs h !! o = Some b -> collecting b = true ->
  shape ts rest batch (on_obj o severed h).
Proof.
  intros Hs E Hc. apply (shape_one ts rest batch h o b); try done.
  split; try done.
  - apply severed_children.
  - intros Hd. split; [done|]. exact (proj2 (s_dead _ _ _ _ Hs o b E Hd)).
  - exact (s_actor _ _ _ _ Hs o b E).
Qed.

(** What the pending tasks claim. *)
Lemma retire_fresh ts rest batch h o b :
  shape (TRetire o :: ts) rest batch h -> objs h !! o = Some b ->
  o ∉ retires ts /\ collecting b = true /\ destroyed b = false.
Proof.
  intros Hs E. pose proof (s_nodup _ _ _ _ Hs) as Hnd.
  assert (claimed (TRetire o :: ts) rest h ≡ₚ o :: retires ts ++ queue h ++ swept h ++ finalizing h ++ ends ts ++ rest)
    as Hperm by (unfold claimed; cbn; solve_Permutation).
  split.
  - rewrite Hperm in Hnd. apply NoDup_cons in Hnd as [Hnd _]. set_solver.
  - apply (s_class _ _ _ _ Hs o b E). rewrite Hperm. by left.
Qed.

Lemma ends_fresh ts rest batch h o b :
  shape (TDestroy o :: ts) rest batch h -> objs h !! o = Some b ->
  NoDup (claimed ts rest h) /\ o ∉ claimed ts rest h /\ collecting b = true /\ destroyed b = false /\
  claimed (TDestroy o :: ts) rest h ≡ₚ o :: claimed ts rest h.
Proof.
  intros Hs E. pose proof (s_nodup _ _ _ _ Hs) as Hnd.
  assert (claimed (TDestroy o :: ts) rest h ≡ₚ o :: claimed ts rest h) as Hperm
    by (unfold claimed; cbn; solve_Permutation).
  rewrite Hperm in Hnd. apply NoDup_cons in Hnd as [Hnd1 Hnd2].
  destruct (proj1 (s_class _ _ _ _ Hs o b E)) as [H1 H2]; [rewrite Hperm; by left|done].
Qed.

(** The end of a claim: no Value can reach the object any more. *)
Lemma shape_retire ts rest batch h o b :
  shape (TRetire o :: ts) rest batch h -> objs h !! o = Some b ->
  shape ts rest batch (set_queue (queue h ++ [o]) (on_obj o (set_alive false) h)).
Proof.
  intros Hs E. destruct (retire_fresh ts rest batch h o b Hs E) as (Hnr & Hc & Hd).
  set (h' := set_queue _ _).
  assert (claimed ts rest h' ≡ₚ claimed (TRetire o :: ts) rest h) as Hperm
    by (unfold claimed; cbn; solve_Permutation).
  assert (forall k b', objs h' !! k = Some b' -> exists b0, objs h !! k = Some b0 /\ evolves b0 b' /\
    destroyed b' = destroyed b0 /\ alive b' = if decide (k = o) then false else alive b0) as Hk.
  { intros k b' Hk. destruct (on_obj_cases o (set_alive false) h b k b' E Hk) as [[-> ->]|[Hne Hk']].
    - exists b. rewrite decide_True by done. split_and!; try done.
      pose proof (evolves_same _ _ _ _ o b b Hs E ltac:(by split)) as []. by split.
    - exists b'. rewrite decide_False by done. split_and!; try done. by eapply evolves_same. }
  apply (shape_evolves (TRetire o :: ts) ts rest rest batch h); try done; try apply Hs.
  - intros k b' (b0 & E0 & H0 & _)%Hk. eauto.
  - rewrite Hperm. apply Hs.
  - intros k b' (b0 & E0 & H0 & -> & _)%Hk. rewrite Hperm, (ev_collecting _ _ H0).
    by apply (s_class _ _ _ _ Hs).
  - intros k Hin. apply (on_obj_is_Some o (set_alive false) h). rewrite Hperm in Hin.
    by apply (s_dom _ _ _ _ Hs).
  - intros k b' (b0 & E0 & H0 & _ & ->)%Hk. rewrite (ev_collecting _ _ H0). case_decide as Ek.
    + subst. replace b0 with b by congruence. by rewrite Hc, bool_decide_eq_false_2.
    + rewrite (s_alive _ _ _ _ Hs k b0 E0). f_equal. apply bool_decide_ext.
      change (retires (TRetire o :: ts)) with (o :: retires ts). set_solver.
  - intros k Hq. apply elem_of_app. by left.
  - cbn. intros k [Hq| ->%list_elem_of_singleton]%elem_of_app; [by left|right; by left].
  - intros k Hr. by right.
  - intros k. change (registry h') with (registry h). rewrite (s_reg _ _ _ _ Hs). split.
    + intros (b0 & E0 & Hd0). destruct (proj2 (on_obj_is_Some o (set_alive false) h k) ltac:(by eexists)) as [b' Eb'].
      exists b'. split; [done|]. destruct (Hk k b' Eb') as (b1 & E1 & _ & -> & _). congruence.
    + intros (b' & (b0 & E0 & _ & Hdd & _)%Hk & Hd'). exists b0. split; [done|congruence].
Qed.

(** The destructor has run and the object is unregistered. *)
Lemma shape_finish ts rest batch h o b :
  shape (TDestroy o :: ts) rest batch h -> objs h !! o = Some b ->
  shape ts rest batch (on_obj o finished (set_registry (erase_first o (registry h)) h)).
Proof.
  intros Hs E. destruct (ends_fresh ts rest batch h o b Hs E) as (Hnd & Hnc & Hc & Hd & Hperm).
  assert (dropClaimed b = true) as Hdr by (apply (s_ends _ _ _ _ Hs o b E); right; by left).
  set (h' := on_obj o finished _).
  assert (forall k b', objs h' !! k = Some b' -> exists b0, objs h !! k = Some b0 /\ evolves b0 b' /\
    alive b' = alive b0 /\ destroyed b' = if decide (k = o) then true else destroyed b0) as Hk.
  { intros k b' Hk. destruct (on_obj_cases o finished (set_registry (erase_first o (registry h)) h) b k b' E Hk)
      as [[-> ->]|[Hne Hk']].
    - exists b. rewrite decide_True by done. split_and!; try done. split; try done. intros y Hy. by cbn in Hy; set_solver.
    - exists b'. rewrite decide_False by done. split_and!; try done. by eapply evolves_same. }
  apply (shape_evolves (TDestroy o :: ts) ts rest rest batch h); try done; try apply Hs.
  - intros k b' (b0 & E0 & H0 & _)%Hk. eauto.
  - intros k b' (b0 & E0 & H0 & _ & ->)%Hk. rewrite (ev_collecting _ _ H0).
    change (claimed ts rest h') with (claimed ts rest h). case_decide as Ek; [subst; naive_solver|].
    rewrite <- (s_class _ _ _ _ Hs k b0 E0), Hperm, elem_of_cons. naive_solver.
  - intros k Hin. apply (on_obj_is_Some o finished (set_registry _ h)). cbn.
    apply (s_dom _ _ _ _ Hs). rewrite Hperm. by right.
  - intros k b' (b0 & E0 & H0 & -> & _)%Hk. rewrite (ev_collecting _ _ H0). by apply (s_alive _ _ _ _ Hs).
  - by left.
  - intros k Hin. by right.
  - cbn. rewrite erase_first_filter by apply Hs. apply NoDup_filter, Hs.
  - intros k. cbn. rewrite erase_first_filter by apply Hs. rewrite list_elem_of_filter, (s_reg _ _ _ _ Hs). split.
    + intros [Hne (b0 & E0 & Hd0)]. exists b0. split; [|done]. change (alter finished o (objs h)) with (objs h').
      unfold h'. rewrite on_obj_lookup. by rewrite decide_False.
    + intros (b' & Eb' & Hd'). destruct (Hk k b' Eb') as (b0 & E0 & _ & _ & Hd0). case_decide as Ek; [congruence|].
      split; [done|]. exists b0. split; [done|congruence].
Qed.

(** A block is freed when its object is destroyed. *)
Lemma shape_delete ts rest batch h o b :
  shape ts rest batch h -> objs h !! o = Some b -> destroyed b = true ->
  shape ts rest batch (set_objs (delete o (objs h)) h).
Proof.
  intros Hs E Hd. destruct (s_dead _ _ _ _ Hs o b E Hd) as [Hdr _].
  destruct (s_drop _ _ _ _ Hs o b E Hdr) as (_ & _ & Hc).
  assert (o ∉ claimed ts rest h) as Hncl.
  { intros Hin. apply (s_class _ _ _ _ Hs o b E) in Hin as [_ ?]. congruence. }
  set (h' := set_objs _ h).
  assert (forall k b', objs h' !! k = Some b' -> k <> o /\ objs h !! k = Some b') as Hk.
  { intros k b'. cbn. rewrite lookup_delete_Some. naive_solver. }
  apply (shape_evolves ts ts rest rest batch h); try done; try apply Hs.
  all: change (claimed ts rest h') with (claimed ts rest h).
  - intros k b' [_ E']%Hk. exists b'. split; [done|]. by eapply evolves_same.
  - intros k b' [_ E']%Hk. by apply (s_class _ _ _ _ Hs).
  - intros k Hin. cbn. apply lookup_delete_is_Some.
    split; [intros ->; done|by apply (s_dom _ _ _ _ Hs)].
  - intros k b' [_ E']%Hk. by apply (s_alive _ _ _ _ Hs).
  - by left.
  - intros k. change (registry h') with (registry h). rewrite (s_reg _ _ _ _ Hs). cbn. split.
    + intros (b0 & E0 & Hd0). exists b0. split; [|done]. rewrite lookup_delete_ne; [done|]. congruence.
    + intros (b' & [_ E']%Hk & Hd'). eauto.
Qed.

(** A pending release finds its block, with a count to give back. *)
Lemma counts_dec_block o ts holds h :
  counts (TDec o :: ts) holds h ->
  exists b, objs h !! o = Some b /\ 1 <= strong b /\ wrapS 32 (strong b - 1) = strong b - 1 /\
    strong b = Z.of_nat (S (sref h o + occ o (decs ts))).
Proof.
  intros Hc. assert (occ o (decs (TDec o :: ts)) = S (occ o (decs ts))) as E.
  { change (decs (TDec o :: ts)) with (o :: decs ts). by rewrite occ_cons, decide_True. }
  destruct (objs h !! o) as [b|] eqn:Eb.
  - exists b. pose proof (c_strong _ _ _ Hc o b Eb) as H. rewrite E in H.
    destruct (c_range _ _ _ Hc o b Eb). split; [done|]. split; [lia|]. split; [|rewrite H; lia].
    apply wrapS_id; [lia|]. unfold inS. lia.
  - pose proof (c_dom _ _ _ Hc o Eb). lia.
Qed.

Lemma counts_wdec_block o ts holds h :
  counts (TDecWeak o :: ts) holds h ->
  exists b, objs h !! o = Some b /\ 1 <= weak b /\ wrapS 32 (weak b - 1) = weak b - 1 /\
    weak b = Z.of_nat (S (wref h o + occ o (wdecs ts) + occ o holds)) + Z.b2z (negb (destroyed b)).
Proof.
  intros Hc. assert (occ o (wdecs (TDecWeak o :: ts)) = S (occ o (wdecs ts))) as E.
  { change (wdecs (TDecWeak o :: ts)) with (o :: wdecs ts). by rewrite occ_cons, decide_True. }
  destruct (objs h !! o) as [b|] eqn:Eb.
  - exists b. pose proof (c_weak _ _ _ Hc o b Eb) as H. rewrite E in H.
    destruct (c_range _ _ _ Hc o b Eb). split; [done|]. assert (0 <= Z.b2z (negb (destroyed b))) by (by case (destroyed b)).
    split; [lia|]. split; [|lia]. apply wrapS_id; [lia|]. unfold inS. lia.
  - pose proof (c_dom _ _ _ Hc o Eb). lia.
Qed.

(** One update of the counts: how the block and the pending tasks change. *)
Lemma counts_one ts ts' holds h o b f :
  counts ts holds h -> objs h !! o = Some b ->
  (forall y, occ y (children (f b)) + occ y (decs ts') + (if decide (y = o) then Z.to_nat (strong b - strong (f b)) else 0)
           = occ y (children b) + occ y (decs ts))%nat ->
  (forall y, occ y (wchildren (f b)) + occ y (wdecs ts')
             + (if decide (y = o) then Z.to_nat (weak b - weak (f b)) + Z.to_nat (Z.b2z (negb (destroyed (f b)))) else 0)
           = occ y (wchildren b) + occ y (wdecs ts)
             + (if decide (y = o) then Z.to_nat (Z.b2z (negb (destroyed b))) else 0))%nat ->
  0 <= strong (f b) <= strong b -> 0 <= weak (f b) <= weak b ->
  (collecting (f b) = false -> 1 <= strong (f b)) ->
  (forall y, y ∉ holds ->
     destroyed_at (on_obj o f h) y = true \/ y ∈ finalizing h \/ y ∈ ends ts' ->
     (destroyed_at h y = true \/ y ∈ finalizing h \/ y ∈ ends ts)) ->
  counts ts' holds (on_obj o f h).
Proof.
  intros Hc E Hs Hw Hrs Hrw Hl Hg.
  assert (forall y, sref (on_obj o f h) y + occ y (decs ts')
                    + (if decide (y = o) then Z.to_nat (strong b - strong (f b)) else 0)
                  = sref h y + occ y (decs ts))%nat as Hsr.
  { intros y. pose proof (sref_alter o f h b y E). specialize (Hs y). lia. }
  assert (forall y, wref (on_obj o f h) y + occ y (wdecs ts')
             + (if decide (y = o) then Z.to_nat (weak b - weak (f b)) + Z.to_nat (Z.b2z (negb (destroyed (f b)))) else 0)
           = wref h y + occ y (wdecs ts)
             + (if decide (y = o) then Z.to_nat (Z.b2z (negb (destroyed b))) else 0))%nat as Hwr.
  { intros y. pose proof (wref_alter o f h b y E). specialize (Hw y). lia. }
  split.
  - intros k b' Hk. specialize (Hsr k). destruct (on_obj_cases o f h b k b' E Hk) as [[-> ->]|[Hne Hk']].
    + rewrite decide_True in Hsr by done. pose proof (c_strong _ _ _ Hc o b E). lia.
    + rewrite decide_False in Hsr by done. rewrite (c_strong _ _ _ Hc k b' Hk'). lia.
  - intros k b' Hk. specialize (Hwr k). destruct (on_obj_cases o f h b k b' E Hk) as [[-> ->]|[Hne Hk']].
    + rewrite !decide_True in Hwr by done. pose proof (c_weak _ _ _ Hc o b E).
      destruct (destroyed b), (destroyed (f b)); cbn [Z.b2z negb] in *; lia.
    + rewrite !decide_False in Hwr by done. rewrite (c_weak _ _ _ Hc k b' Hk'). lia.
  - intros k Hk%on_obj_None. pose proof (c_dom _ _ _ Hc k Hk). specialize (Hsr k). specialize (Hwr k).
    assert (k <> o) as Hne by congruence. rewrite !decide_False in * by done. lia.
  - intros k b' Hk. destruct (on_obj_cases o f h b k b' E Hk) as [[-> ->]|[Hne Hk']].
    + pose proof (c_range _ _ _ Hc o b E). lia.
    + by apply (c_range _ _ _ Hc k).
  - intros k b' Hk. destruct (on_obj_cases o f h b k b' E Hk) as [[-> ->]|[Hne Hk']]; [done|].
    by apply (c_live _ _ _ Hc k).
  - intros k Hk Hd. pose proof (c_gone _ _ _ Hc k Hk (Hg k Hk Hd)). specialize (Hsr k). lia.
Qed.

(** ** Running tasks *)

Lemma cost_releases vs : (sum_list_with task_cost (releases vs) <= 2 * length vs)%nat.
Proof. induction vs as [|[|o|o] vs IH]; unfold releases in *; cbn in *; lia. Qed.

Lemma cost_drop b : (sum_list_with task_cost (drop_tasks b) <= 2 * length (members b) + 2 * length (versionChain b))%nat.
Proof.
  unfold drop_tasks. rewrite sum_list_with_app. pose proof (cost_releases (members b)).
  assert (sum_list_with task_cost (map (fun v : Z * Z => TDec v.2) (versionChain b)) = 2 * length (versionChain b))%nat
    as ->
    by (induction (versionChain b) as [|v vs IH]; [done|cbn [map sum_list_with task_cost length]; lia]).
  lia.
Qed.

Lemma work_one ts us h o b f : objs h !! o = Some b ->
  (sum_list_with task_cost us + 2 * held_count (f b) < sum_list_with task_cost ts + 2 * held_count b)%nat ->
  (work us (on_obj o f h) < work ts h)%nat.
Proof.
  intros E H. unfold work. pose proof (msum_alter held_count f (objs h) o b E). cbn in *. lia.
Qed.

Lemma on_obj_twice o f c h : on_obj o f (on_obj o (fun _ => c) h) = on_obj o (fun _ => f c) h.
Proof. unfold on_obj, set_objs. cbn. by rewrite alter_alter_eq. Qed.

Lemma occ_children b y :
  occ y (children b) = (occ y (strong_of (members b)) + occ y (strong_of (natives b))
                        + occ y (map snd (versionChain b)))%nat.
Proof. unfold children. by rewrite strong_of_app, !occ_app. Qed.
Lemma occ_wchildren b y :
  occ y (wchildren b) = (occ y (weak_of (members b)) + occ y (weak_of (natives b)))%nat.
Proof. unfold wchildren. by rewrite weak_of_app, !occ_app. Qed.
Lemma occ_severed b y : occ y (children (severed b)) = occ y (strong_of (natives b)).
Proof. rewrite occ_children. cbn. unfold strong_of at 1. cbn. rewrite !occ_nil. lia. Qed.
Lemma occ_wsevered b y : occ y (wchildren (severed b)) = occ y (weak_of (natives b)).
Proof. rewrite occ_wchildren. cbn. unfold weak_of at 1. cbn. by rewrite !occ_nil. Qed.

Lemma occ_finished b y : occ y (children (finished b)) = 0%nat.
Proof. apply occ_nil. Qed.
Lemma occ_wfinished b y : occ y (wchildren (finished b)) = 0%nat.
Proof. apply occ_nil. Qed.
Lemma occ_no_strong y : occ y (strong_of []) = 0%nat.
Proof. apply occ_nil. Qed.
Lemma occ_no_weak y : occ y (weak_of []) = 0%nat.
Proof. apply occ_nil. Qed.

(** Dropping what a claimed object holds. *)
Lemma counts_sever ts holds h o b :
  counts ts holds h -> objs h !! o = Some b -> collecting b = true ->
  counts (drop_tasks b ++ ts) holds (on_obj o severed h).
Proof.
  intros Hc E Hcb. destruct (drop_only b) as (D1 & D2 & D3 & D4).
  pose proof (c_strong _ _ _ Hc o b E). pose proof (c_weak _ _ _ Hc o b E).
  assert (0 <= Z.b2z (negb (destroyed b))) by (by case (destroyed b)).
  apply (counts_one ts _ holds h o b severed Hc E);
    cbn [severed strong weak destroyed collecting]; try lia.
  - intros y. rewrite decs_app, decs_drop, occ_severed, occ_children, !occ_app. case_decide; lia.
  - intros y. rewrite wdecs_app, D1, occ_wsevered, occ_wchildren, !occ_app. case_decide; lia.
  - congruence.
  - intros y Hy. rewrite ends_app, D3. cbn. rewrite (destroyed_alter o severed h b y E).
    case_decide; [|done]. subst. unfold destroyed_at. by rewrite E.
Qed.

Section run_task.
Context (coll : bool) (ts : list task) (rest batch holds : list Z) (h : heap).

Definition task_ok (t : task) : Prop :=
  exists more h', run_task coll t h = Some (more, h') /\ counts (more ++ ts) holds h' /\
    shape (more ++ ts) rest batch h' /\ (work (more ++ ts) h' < work (t :: ts) h)%nat.

Lemma run_dec o :
  counts (TDec o :: ts) holds h -> shape (TDec o :: ts) rest batch h -> task_ok (TDec o).
Proof.
  intros Hc Hs. destruct (counts_dec_block o ts holds h Hc) as (b & E & H1 & Hw & Hst).
  unfold task_ok. cbn [run_task]. rewrite E, Hw. set (b1 := set_strong (strong b - 1) b).
  pose proof (c_weak _ _ _ Hc o b E) as Hwk.
  assert (0 <= weak b) as Hwk0 by (assert (0 <= Z.b2z (negb (destroyed b))) by (by case (destroyed b)); lia).
  assert (forall us b', strong b' = strong b - 1 -> children b' = children b -> wchildren b' = wchildren b ->
    weak b' = weak b -> destroyed b' = destroyed b -> decs us = [] -> wdecs us = [] -> ends us = [] ->
    (collecting b' = false -> 1 <= strong b') -> counts (us ++ ts) holds (on_obj o (fun _ => b') h)) as Hcount.
  { intros us b' B1 B2 B3 B4 B5 U1 U2 U3 B6. apply (counts_one (TDec o :: ts) _ holds h o b _ Hc E);
      rewrite ?B1, ?B4, ?B5; try lia.
    - intros y. rewrite decs_app, U1, B2. change (decs (TDec o :: ts)) with (o :: decs ts).
      rewrite occ_cons, app_nil_l. case_decide; lia.
    - intros y. rewrite wdecs_app, U2, B3, app_nil_l. change (wdecs (TDec o :: ts)) with (wdecs ts).
      case_decide; lia.
    - intros Hcb. specialize (B6 Hcb). lia.
    - intros y Hy. rewrite ends_app, U3, (destroyed_alter o _ h b y E). case_decide; [|done]. subst.
      unfold destroyed_at. rewrite E, B5. done. }
  apply (shape_tasks (TDec o :: ts) ts) in Hs; [|done..].
  destruct ((strong b <=? 1) && negb (collecting b)) eqn:Ek.
  - apply andb_true_iff in Ek as [Ek1%Z.leb_le Ek2%negb_true_iff].
    set (b2 := set_collecting true b1).
    assert (sref h o = 0%nat) as H0 by lia.
    assert (counts ([TRetire o] ++ ts) holds (on_obj o (fun _ => b2) h)) as C1 by (by apply Hcount).
    assert (shape (TRetire o :: ts) rest batch (on_obj o (fun _ => b2) h)) as S1.
    { pose proof (shape_claim ts rest batch h o b Hs E Ek2 H0) as Hsc.
      apply (shape_count _ _ _ _ o (fun _ => b2) (set_collecting true b)) in Hsc;
        [|by apply on_obj_get|by split].
      replace (on_obj o (fun _ => b2) h) with (on_obj o (fun _ => b2) (on_obj o (set_collecting true) h)); [done|].
      unfold on_obj, set_objs. cbn. by rewrite alter_alter_eq. }
    destruct (coll && negb (dropClaimed b)) eqn:Ed.
    + eexists _, _. split; [done|]. rewrite <- (on_obj_twice o severed b2), <- app_assoc.
      assert (objs (on_obj o (fun _ => b2) h) !! o = Some b2) as E2 by (by rewrite (on_obj_get _ _ _ _ E)).
      split; [exact (counts_sever (TRetire o :: ts) holds _ o b2 C1 E2 eq_refl)|]. split.
      * destruct (drop_only b) as (D1 & D2 & D3 & D4).
        apply (shape_tasks (TRetire o :: ts)); [by rewrite retires_app, D2|by rewrite ends_app, D3| |].
        -- intros k. by rewrite drops_app, D4.
        -- by apply (shape_sever _ _ _ _ o b2).
      * rewrite on_obj_twice. eapply work_one; [exact E|]. rewrite !sum_list_with_app. cbn.
        pose proof (cost_drop b). unfold held_count. cbn. lia.
    + eexists _, _. split; [done|]. split; [exact C1|]. split; [exact S1|].
      eapply work_one; [exact E|]. cbn. unfold held_count. cbn. lia.
  - eexists [], _. split; [done|]. split.
    + apply (Hcount []); try done. cbn. intros Hcb. apply andb_false_iff in Ek as [Ek%Z.leb_gt|Ek]; [lia|].
      by rewrite Hcb in Ek.
    + split; [by apply (shape_count _ _ _ _ o (fun _ => b1) b)|]. eapply work_one; [exact E|]. cbn.
      unfold held_count. cbn. lia.
Qed.


Lemma run_wdec o :
  counts (TDecWeak o :: ts) holds h -> shape (TDecWeak o :: ts) rest batch h -> task_ok (TDecWeak o).
Proof.
  intros Hc Hs. destruct (counts_wdec_block o ts holds h Hc) as (b & E & H1 & Hw & Hwk).
  unfold task_ok. cbn [run_task]. rewrite E.
  pose proof (c_strong _ _ _ Hc o b E) as Hst.
  apply (shape_tasks (TDecWeak o :: ts) ts) in Hs; [|done..].
  destruct (Z.eqb_spec (weak b) 1) as [E1|Hne]; eexists [], _; (split; [done|]); cbn [app].
  - assert (destroyed b = true) as Hd by (destruct (destroyed b); [done|cbn in Hwk; lia]).
    rewrite Hd in Hwk. cbn [negb Z.b2z] in Hwk. assert (occ o holds = 0%nat) as Hh%occ_zero by lia.
    pose proof (c_gone _ _ _ Hc o Hh) as H0.
    assert (sref h o + occ o (decs (TDecWeak o :: ts)) = 0)%nat as Hz
      by (apply H0; left; unfold destroyed_at; by rewrite E).
    destruct (s_dead _ _ _ _ Hs o b E Hd) as [Hdr Hn]. destruct (s_drop _ _ _ _ Hs o b E Hdr) as (Hm & Hv & _).
    assert (children b = [] /\ wchildren b = []) as [Hch Hwch]
      by (unfold children, wchildren; by rewrite Hn, Hm, Hv).
    set (h' := set_objs _ h).
    assert (forall y, sref h' y = sref h y) as Hsr.
    { intros y. unfold sref. change (named h') with (named h). cbn [objs set_objs h'].
      rewrite (msum_delete _ (objs h) o b E), Hch. cbn. by rewrite occ_nil. }
    assert (forall y, wref h' y = wref h y) as Hwr.
    { intros y. unfold wref. cbn [objs set_objs h' roots locals].
      rewrite (msum_delete _ (objs h) o b E), Hwch. cbn. by rewrite occ_nil. }
    assert (forall k b', objs h' !! k = Some b' -> k <> o /\ objs h !! k = Some b') as Hk.
    { intros k b'. cbn. rewrite lookup_delete_Some. naive_solver. }
    assert (forall y, occ y (wdecs (TDecWeak o :: ts)) = (if decide (y = o) then 1 else 0) + occ y (wdecs ts))%nat
      as Hwd by (intros y; by rewrite <- occ_cons).
    split; [split|split; [by eapply shape_delete|]].
    + intros k b' [Hne E']%Hk. rewrite Hsr. by apply (c_strong _ _ _ Hc k).
    + intros k b' [Hne E']%Hk. rewrite Hwr, (c_weak _ _ _ Hc k b' E'), Hwd, decide_False by done. done.
    + intros k Hk'. rewrite Hsr, Hwr. destruct (decide (k = o)) as [->|Hne].
      * change (decs ts) with (decs (TDecWeak o :: ts)). lia.
      * cbn in Hk'. rewrite lookup_delete_ne in Hk' by done. pose proof (c_dom _ _ _ Hc k Hk') as Hz'.
        rewrite Hwd, decide_False in Hz' by done. exact Hz'.
    + intros k b' [Hne E']%Hk. by apply (c_range _ _ _ Hc k).
    + intros k b' [Hne E']%Hk. by apply (c_live _ _ _ Hc k).
    + intros k Hkh Hg. rewrite Hsr. apply (c_gone _ _ _ Hc k Hkh). destruct Hg as [Hg|Hg]; [left|by right].
      unfold destroyed_at in *. destruct (objs h' !! k) as [b'|] eqn:Eb; [|done].
      destruct (Hk k b' Eb) as [_ E']. by rewrite E'.
    + unfold work. cbn [objs set_objs]. pose proof (msum_delete held_count (objs h) o b E). cbn. lia.
  - rewrite Hw. split; [|split; [by eapply shape_count|]].
    + apply (counts_one (TDecWeak o :: ts) _ holds h o b _ Hc E);
        cbn [set_weak strong weak destroyed collecting]; try lia.
      * intros y. change (decs (TDecWeak o :: ts)) with (decs ts).
        change (children (set_weak (weak b - 1) b)) with (children b). case_decide; lia.
      * intros y. change (wdecs (TDecWeak o :: ts)) with (o :: wdecs ts). rewrite occ_cons.
        change (wchildren (set_weak (weak b - 1) b)) with (wchildren b). case_decide; lia.
      * by apply (c_live _ _ _ Hc o).
      * intros y Hy. rewrite (destroyed_alter o _ h b y E). case_decide; [|done]. subst.
        unfold destroyed_at. by rewrite E.
    + eapply work_one; [exact E|]. cbn. unfold held_count. cbn. lia.
Qed.

Lemma counts_tasks us us' :
  counts us holds h -> decs us' = decs us -> wdecs us' = wdecs us ->
  (forall k, k ∈ ends us' -> k ∈ ends us \/ k ∈ finalizing h \/ k ∈ holds) -> counts us' holds h.
Proof.
  intros Hc E1 E2 E3. destruct Hc. split; rewrite ?E1, ?E2; try done.
  intros o Ho Hd. apply c_gone0; [done|]. destruct Hd as [|[|Hd%E3]]; naive_solver.
Qed.

Lemma run_retire o :
  counts (TRetire o :: ts) holds h -> shape (TRetire o :: ts) rest batch h -> task_ok (TRetire o).
Proof.
  intros Hc Hs.
  assert (is_Some (objs h !! o)) as [b E].
  { apply (s_dom _ _ _ _ Hs). unfold claimed. change (retires (TRetire o :: ts)) with (o :: retires ts). set_solver. }
  unfold task_ok. cbn [run_task]. rewrite E. eexists [], _. split; [done|]. cbn [app].
  split; [|split; [by eapply shape_retire|]].
  - pose proof (c_strong _ _ _ Hc o b E). pose proof (c_weak _ _ _ Hc o b E) as Hwk.
    assert (0 <= weak b) as Hwk0 by (assert (0 <= Z.b2z (negb (destroyed b))) by (by case (destroyed b)); lia).
    assert (counts ts holds (on_obj o (set_alive false) h)) as H'.
    { apply (counts_one (TRetire o :: ts) _ holds h o b _ Hc E);
        cbn [set_alive strong weak destroyed collecting]; try lia.
      - intros y. change (children (set_alive false b)) with (children b).
        change (decs (TRetire o :: ts)) with (decs ts). case_decide; lia.
      - intros y. change (wchildren (set_alive false b)) with (wchildren b).
        change (wdecs (TRetire o :: ts)) with (wdecs ts). case_decide; lia.
      - by apply (c_live _ _ _ Hc o).
      - intros y Hy. rewrite (destroyed_alter o _ h b y E). case_decide; [|done]. subst.
        unfold destroyed_at. by rewrite E. }
    destruct H'. by split.
  - change (objs (set_queue ?q ?g)) with (objs g). unfold work. cbn [objs set_queue].
    pose proof (msum_alter held_count (set_alive false) (objs h) o b E). cbn in *.
    unfold held_count in *. cbn in *. lia.
Qed.

Lemma run_drop o :
  counts (TDrop o :: ts) holds h -> shape (TDrop o :: ts) rest batch h -> task_ok (TDrop o).
Proof.
  intros Hc Hs.
  assert (o ∈ claimed (TDrop o :: ts) rest h) as Hin.
  { assert (o ∈ rest) by (apply (s_drops _ _ _ _ Hs); by left). unfold claimed. set_solver. }
  destruct (s_dom _ _ _ _ Hs o Hin) as [b E].
  pose proof (proj1 (s_class _ _ _ _ Hs o b E) Hin) as [Hcb _].
  unfold task_ok. cbn [run_task]. rewrite E.
  apply (counts_tasks _ ts) in Hc; [|done|done|by left].
  apply (shape_tasks (TDrop o :: ts) ts) in Hs; [|done|done|intros k Hk; by right].
  destruct (dropClaimed b) eqn:Ed; eexists _, _; (split; [done|]).
  - split; [done|]. split; [done|]. unfold work. cbn. lia.
  - destruct (drop_only b) as (D1 & D2 & D3 & D4). split; [by apply counts_sever|]. split.
    + apply (shape_tasks ts); [by rewrite retires_app, D2|by rewrite ends_app, D3| |by eapply shape_sever].
      intros k. by rewrite drops_app, D4.
    + eapply work_one; [exact E|]. rewrite sum_list_with_app. pose proof (cost_drop b).
      unfold held_count. cbn. lia.
Qed.

Lemma run_end o :
  counts (TDestroy o :: ts) holds h -> shape (TDestroy o :: ts) rest batch h -> task_ok (TDestroy o).
Proof.
  intros Hc Hs.
  assert (is_Some (objs h !! o)) as [b E].
  { apply (s_dom _ _ _ _ Hs). unfold claimed. change (ends (TDestroy o :: ts)) with (o :: ends ts). set_solver. }
  destruct (ends_fresh ts rest batch h o b Hs E) as (_ & _ & Hcb & Hd & _).
  assert (dropClaimed b = true) as Hdr by (apply (s_ends _ _ _ _ Hs o b E); right; by left).
  destruct (s_drop _ _ _ _ Hs o b E Hdr) as (Hm & Hv & _).
  unfold task_ok. cbn [run_task]. rewrite E, Hm. cbn [app]. eexists _, _. split; [done|].
  destruct (releases_only (natives b)) as (R1 & R2 & R3). rewrite <- app_assoc.
  pose proof (c_strong _ _ _ Hc o b E) as Hst. pose proof (c_weak _ _ _ Hc o b E) as Hwk.
  rewrite Hd in Hwk. cbn [negb Z.b2z] in Hwk.
  change (on_obj o finished (set_registry ?r h)) with (set_registry r (on_obj o finished h)).
  split; [|split].
  - assert (counts (releases (natives b) ++ [TDecWeak o] ++ ts) holds (on_obj o finished h)) as H'.
    { apply (counts_one (TDestroy o :: ts) _ holds h o b _ Hc E);
        cbn [finished strong weak destroyed collecting]; try lia.
      - intros y. rewrite occ_finished, (occ_children b), Hm, Hv, decs_app, decs_releases, occ_app, occ_no_strong.
        change (decs ([TDecWeak o] ++ ts)) with (decs ts). change (decs (TDestroy o :: ts)) with (decs ts).
        change (map snd []) with (@nil Z). rewrite occ_nil. case_decide; lia.
      - intros y. rewrite occ_wfinished, (occ_wchildren b), Hm, wdecs_app, wdecs_releases, occ_app, occ_no_weak.
        change (wdecs ([TDecWeak o] ++ ts)) with (o :: wdecs ts).
        change (wdecs (TDestroy o :: ts)) with (wdecs ts). rewrite occ_cons, Hd. cbn [negb Z.b2z].
        case_decide; lia.
      - congruence.
      - intros y Hy. rewrite ends_app, R2, (destroyed_alter o finished h b y E). cbn.
        change (ends (TDecWeak o :: ts)) with (ends ts). change (ends (TDestroy o :: ts)) with (o :: ends ts).
        rewrite elem_of_cons. case_decide; naive_solver. }
    destruct H'. by split.
  - apply (shape_tasks ts); [by rewrite retires_app, R1|by rewrite ends_app, R2| |by eapply shape_finish].
    intros k. by rewrite drops_app, R3.
  - unfold work. cbn [objs set_registry on_obj]. rewrite !sum_list_with_app.
    pose proof (cost_releases (natives b)).
    pose proof (msum_alter held_count finished (objs h) o b E). unfold held_count in *. cbn in *. lia.
Qed.

Lemma run_task_ok t :
  counts (t :: ts) holds h -> shape (t :: ts) rest batch h -> task_ok t.
Proof. destruct t; [apply run_dec|apply run_wdec|apply run_retire|apply run_drop|apply run_end]. Qed.

End run_task.

Lemma run_tasks_ok coll fuel : forall ts rest batch holds h,
  counts ts holds h -> shape ts rest batch h -> (work ts h <= fuel)%nat ->
  exists h', run_tasks fuel coll ts h = Some h' /\ counts [] holds h' /\ shape [] rest batch h'.
Proof.
  induction fuel as [|fuel IH]; intros [|t ts] rest batch holds h Hc Hs Hf; try by exists h.
  - unfold work in Hf. destruct t; cbn in Hf; lia.
  - destruct (run_task_ok coll ts rest batch holds h t Hc Hs) as (more & h1 & E & Hc1 & Hs1 & Hw).
    cbn [run_tasks]. rewrite E. eapply IH; [done..|lia].
Qed.

Lemma run_all_ok coll ts rest batch holds h :
  counts ts holds h -> shape ts rest batch h ->
  exists h', run_all coll ts h = Some h' /\ counts [] holds h' /\ shape [] rest batch h'.
Proof. intros Hc Hs. by eapply run_tasks_ok. Qed.

(** ** What running tasks cannot undo *)

Record grown (b b' : obj) : Prop := {
  g_actor : isActor b' = isActor b;
  g_drop : dropClaimed b = true -> dropClaimed b' = true;
  g_destroyed : destroyed b = true -> destroyed b' = true;
  g_collecting : collecting b = true -> collecting b' = true;
  g_mark : markEpoch b' = markEpoch b;
  g_held : (held_count b' <= held_count b)%nat;
  g_children : forall y, y ∈ children b' -> y ∈ children b;
  g_intact : dropClaimed b' = false -> destroyed b' = false -> members b' = members b /\ natives b' = natives b;
}.

#[global] Instance grown_refl : Reflexive grown.
Proof. by intros b. Qed.
#[global] Instance grown_trans : Transitive grown.
Proof.
  intros b1 b2 b3 [] []. split; try congruence; eauto; [lia|]. intros Hd Hx.
  destruct (g_intact1 Hd Hx) as [-> ->]. apply g_intact0; apply not_true_is_false; intros H.
  - specialize (g_drop1 H). congruence.
  - specialize (g_destroyed1 H). congruence.
Qed.

Record later (h h' : heap) : Prop := {
  l_roots : roots h' = roots h;
  l_locals : locals h' = locals h;
  l_swept : swept h' = swept h;
  l_finalizing : finalizing h' = finalizing h;
  l_epoch : epoch h' = epoch h;
  l_objs : forall o b', objs h' !! o = Some b' -> exists b, objs h !! o = Some b /\ grown b b';
}.

#[global] Instance later_refl : Reflexive later.
Proof. intros h. split; try done. intros o b E. by exists b. Qed.
#[global] Instance later_trans : Transitive later.
Proof.
  intros h1 h2 h3 H12 H23. destruct H12, H23. split; try congruence.
  intros o b3 (b2 & (b1 & E & G1)%l_objs0 & G2)%l_objs1. exists b1. split; [done|]. by etrans.
Qed.

Lemma later_named h h' : later h h' -> named h' = named h.
Proof. intros []. unfold named. congruence. Qed.

Lemma later_one h o f :
  (forall b, objs h !! o = Some b -> grown b (f b)) -> later h (on_obj o f h).
Proof.
  intros Hf. split; try done. intros k b'. rewrite on_obj_lookup. case_decide as E.
  - subst. destruct (objs h !! o) as [b|]; [|done]. intros [= <-]. exists b. split; [done|]. by apply Hf.
  - intros Hk. by exists b'.
Qed.

Lemma severed_held b : (held_count (severed b) <= held_count b)%nat.
Proof. unfold held_count. cbn. lia. Qed.

(** The blocks a task is about. *)
Definition settled (t : task) (h' : heap) : Prop :=
  match t with
  | TDrop o => forall b', objs h' !! o = Some b' -> dropClaimed b' = true
  | TDestroy o => forall b', objs h' !! o = Some b' -> destroyed b' = true
  | _ => True
  end.

Lemma settled_later t h h' : settled t h -> later h h' -> settled t h'.
Proof.
  intros Hs Hl. destruct t; try done; cbn in *; intros b' Hb';
    destruct (l_objs _ _ Hl _ _ Hb') as (b & E & G).
  - by apply (g_drop _ _ G), Hs.
  - by apply (g_destroyed _ _ G), Hs.
Qed.

Lemma grown_evolved b b' :
  isActor b' = isActor b -> (dropClaimed b = true -> dropClaimed b' = true) ->
  (destroyed b = true -> destroyed b' = true) -> (collecting b = true -> collecting b' = true) ->
  markEpoch b' = markEpoch b -> members b' = members b -> natives b' = natives b ->
  versionChain b' = versionChain b -> grown b b'.
Proof.
  intros ????? Em En Ev. split; try done; unfold held_count, children; rewrite Em, En, Ev; [lia|done].
Qed.

Lemma grown_severed b b' :
  isActor b' = isActor b -> (destroyed b = true -> destroyed b' = true) ->
  (collecting b = true -> collecting b' = true) -> markEpoch b' = markEpoch b ->
  dropClaimed b' || destroyed b' = true -> (dropClaimed b = true -> dropClaimed b' = true) -> members b' = [] -> (natives b' = natives b \/ natives b' = []) ->
  versionChain b' = [] -> grown b b'.
Proof.
  intros ???? Hgo ? Hm Hn Hv. split; try done; unfold held_count, children.
  - rewrite Hm, Hv. destruct Hn as [-> | ->]; cbn; lia.
  - intros y. rewrite Hm, Hv. destruct Hn as [-> | ->]; cbn [app map]; rewrite app_nil_r; intros Hy.
    + apply elem_of_app. left. rewrite strong_of_app. apply elem_of_app. by right.
    + by apply elem_of_nil in Hy.
  - intros Hd Hx. by rewrite Hd, Hx in Hgo.
Qed.

Lemma run_task_later coll t h more h' :
  run_task coll t h = Some (more, h') ->
  later h h' /\ settled t h' /\
  (ends [t] = [] -> registry h' = registry h /\ ends more = []).
Proof.
  destruct t as [o|o|o|o|o]; cbn [run_task]; destruct (objs h !! o) as [b|] eqn:E; try done.
  - destruct (drop_only b) as (_ & _ & D3 & _).
    destruct (_ && negb (collecting b)); [destruct (coll && _)|]; intros [= <- <-];
      (split; [apply later_one; intros b0 E0; rewrite E in E0; injection E0 as <-|split; [done|]]).
    + by apply grown_severed; try done; left.
    + intros _. split; [done|]. by rewrite ends_app, D3.
    + by apply grown_evolved.
    + done.
    + by apply grown_evolved.
    + done.
  - destruct (weak b =? 1); intros [= <- <-]; (split; [|split; done]).
    + split; try done. intros k b'. cbn. rewrite lookup_delete_Some. intros [_ Hk]. by exists b'.
    + apply later_one. intros b0 _. by apply grown_evolved.
  - intros [= <- <-]. split; [|done].
    pose proof (later_one h o (set_alive false)) as H. destruct H; [intros; by apply grown_evolved|]. by split.
  - destruct (drop_only b) as (_ & _ & D3 & _). destruct (dropClaimed b) eqn:Ed; intros [= <- <-].
    + split; [done|]. split; [|done]. cbn. intros b'. rewrite E. by intros [= <-].
    + split; [apply later_one; intros b0 _; by apply grown_severed; try done; left|].
      split; [cbn; intros b'; rewrite lookup_alter_eq, E; by intros [= <-]|]. intros _. by rewrite D3.
  - intros [= <- <-]. split; [|split; [|done]].
    + pose proof (later_one h o finished) as H. destruct H; [intros; by apply grown_severed; try done; [apply orb_true_r|right]|].
      by split.
    + cbn. intros b'. rewrite lookup_alter_eq, E. by intros [= <-].
Qed.

Lemma run_tasks_later coll fuel : forall ts h h',
  run_tasks fuel coll ts h = Some h' ->
  later h h' /\ Forall (fun t => settled t h') ts /\ (ends ts = [] -> registry h' = registry h).
Proof.
  induction fuel as [|fuel IH]; intros [|t ts] h h'; cbn [run_tasks]; try done; try (by intros [= <-]).
  destruct (run_task coll t h) as [[more h1]|] eqn:E; [|done]. intros Hr.
  destruct (run_task_later coll t h more h1 E) as (L1 & S1 & R1).
  destruct (IH _ _ _ Hr) as (L2 & S2 & R2). apply Forall_app in S2 as [_ S2].
  split; [by etrans|]. split; [constructor; [by eapply settled_later|done]|].
  intros He. assert (ends [t] = [] /\ ends ts = []) as [He1 He2] by (by destruct t).
  destruct (R1 He1) as [R3 R4]. rewrite R2; [done|]. by rewrite ends_app, R4.
Qed.

(** ** Bounds *)

Lemma later_refs h h' : later h h' -> (refs h' <= refs h)%nat.
Proof.
  intros Hl. unfold refs. rewrite (l_roots _ _ Hl), (l_locals _ _ Hl).
  enough (msum held_count (objs h') <= msum held_count (objs h))%nat by lia.
  apply msum_mono. intros k b' Hk. destruct (l_objs _ _ Hl k b' Hk) as (b & E & G).
  exists b. split; [done|apply G].
Qed.

Lemma strong_of_length vs : (length (strong_of vs) <= length vs)%nat.
Proof. induction vs as [|[|o|o] vs IH]; cbn in *; unfold strong_of in *; cbn; lia. Qed.
Lemma weak_of_length vs : (length (weak_of vs) <= length vs)%nat.
Proof. induction vs as [|[|o|o] vs IH]; cbn in *; unfold weak_of in *; cbn; lia. Qed.

Lemma sref_le h o : (sref h o <= refs h)%nat.
Proof.
  unfold sref, refs, named. pose proof (occ_le_length o (strong_of (roots h ++ locals h))) as H1.
  pose proof (strong_of_length (roots h ++ locals h)) as H2. rewrite length_app in H2.
  enough (msum (fun b => occ o (children b)) (objs h) <= msum held_count (objs h))%nat by lia.
  apply msum_le. intros b. pose proof (occ_le_length o (children b)) as H3. unfold children in *.
  rewrite length_app, length_map in H3. pose proof (strong_of_length (members b ++ natives b)) as H4.
  rewrite length_app in H4. unfold held_count. lia.
Qed.

Lemma wref_le h o : (wref h o <= refs h)%nat.
Proof.
  unfold wref, refs. pose proof (occ_le_length o (weak_of (roots h ++ locals h))) as H1.
  pose proof (weak_of_length (roots h ++ locals h)) as H2. rewrite length_app in H2.
  enough (msum (fun b => occ o (wchildren b)) (objs h) <= msum held_count (objs h))%nat by lia.
  apply msum_le. intros b. pose proof (occ_le_length o (wchildren b)) as H3. unfold wchildren in *.
  pose proof (weak_of_length (members b ++ natives b)) as H4.
  rewrite length_app in H4. unfold held_count. lia.
Qed.

(** ** A round of the reclaimer *)

Record heap_ok (h : heap) : Prop := {
  h_counts : counts [] [] h;
  h_shape : shape [] [] [] h;
}.

Lemma holds_ok os : forall hs rest batch h,
  counts [] hs h -> shape [] rest batch h -> Z.of_nat (refs h) < 2 ^ 31 - 3 -> NoDup (os ++ hs) ->
  (forall o, o ∈ os -> is_Some (objs h !! o)) ->
  let h' := fold_left hold os h in
  counts [] (rev os ++ hs) h' /\ shape [] rest batch h' /\ later h h' /\ queue h' = queue h /\ registry h' = registry h.
Proof.
  induction os as [|o os IH]; intros hs rest batch h Hc Hs Hr Hnd Hdom; [done|].
  cbn [fold_left]. destruct (Hdom o ltac:(by left)) as [b E].
  pose proof (NoDup_cons_1_1 _ _ Hnd) as Hno. pose proof (NoDup_cons_1_2 _ _ Hnd) as Hnd'.
  pose proof (c_weak _ _ _ Hc o b E) as Hw.
  assert (occ o hs = 0%nat) as Hz by (apply occ_zero; set_solver).
  pose proof (wref_le h o) as Hle.
  change (wdecs []) with (@nil Z) in Hw. rewrite Hz, occ_nil in Hw.
  assert (0 <= Z.b2z (negb (destroyed b)) <= 1) by (by case (destroyed b)).
  assert (wrapS 32 (weak b + 1) = weak b + 1) as Ew by (apply wrapS_id; [lia|unfold inS; lia]).
  set (h1 := hold h o).
  assert (later h h1) as Hl by (apply later_one; intros b0 _; by apply grown_evolved).
  assert (forall y, sref h1 y = sref h y) as Hsr by (intros y; by apply sref_same).
  assert (forall y, wref h1 y = wref h y) as Hwr by (intros y; by apply wref_same).
  assert (counts [] (o :: hs) h1) as Hc1.
  { split.
    - intros k b' Hk. rewrite Hsr. destruct (on_obj_cases o incWeak h b k b' E Hk) as [[-> ->]|[_ Hk']];
        [exact (c_strong _ _ _ Hc o b E)|by apply (c_strong _ _ _ Hc k)].
    - intros k b' Hk. rewrite Hwr, occ_cons. destruct (on_obj_cases o incWeak h b k b' E Hk) as [[-> ->]|[Hne Hk']].
      + rewrite decide_True by done. cbn [incWeak set_weak weak destroyed wdecs]. rewrite Ew, Hz.
        change (wdecs []) with (@nil Z). rewrite occ_nil. lia.
      + rewrite decide_False by done. by apply (c_weak _ _ _ Hc k).
    - intros k Hk%on_obj_None. rewrite Hsr, Hwr, occ_cons, decide_False by congruence. by apply (c_dom _ _ _ Hc k).
    - intros k b' Hk. destruct (on_obj_cases o incWeak h b k b' E Hk) as [[-> ->]|[Hne Hk']];
        [|by apply (c_range _ _ _ Hc k)]. cbn [incWeak set_weak strong weak]. rewrite Ew.
      destruct (c_range _ _ _ Hc o b E). split; [done|lia].
    - intros k b' Hk. destruct (on_obj_cases o incWeak h b k b' E Hk) as [[-> ->]|[Hne Hk']];
        [exact (c_live _ _ _ Hc o b E)|by apply (c_live _ _ _ Hc k)].
    - intros k Hk. rewrite Hsr. unfold h1, hold. rewrite (destroyed_alter o incWeak h b k E).
      intros Hd. apply (c_gone _ _ _ Hc k); [set_solver|]. case_decide; [|done]. subst. set_solver. }
  destruct (IH (o :: hs) rest batch h1 Hc1) as (R1 & R2 & R3 & R4 & R5).
  - by apply (shape_count [] rest batch h o incWeak b).
  - pose proof (later_refs h h1 Hl). lia.
  - rewrite <- Permutation_middle. done.
  - intros k Hk. apply on_obj_is_Some, Hdom. by right.
  - split_and!; try done; [|by etrans]. cbn [rev]. by rewrite <- app_assoc.
Qed.

Lemma drops_of os : drops (map TDrop os) = os /\ decs (map TDrop os) = [] /\ wdecs (map TDrop os) = [] /\
  retires (map TDrop os) = [] /\ ends (map TDrop os) = [].
Proof. induction os as [|o os (IH & ? & ? & ? & ?)]; [done|]. split_and!; [exact (f_equal (cons o) IH)|done..]. Qed.
Lemma ends_of os : ends (map TDestroy os) = os /\ decs (map TDestroy os) = [] /\ wdecs (map TDestroy os) = [] /\
  retires (map TDestroy os) = [] /\ drops (map TDestroy os) = [].
Proof. induction os as [|o os (IH & ? & ? & ? & ?)]; [done|]. split_and!; [exact (f_equal (cons o) IH)|done..]. Qed.
Lemma wdecs_of os : wdecs (map TDecWeak os) = os /\ decs (map TDecWeak os) = [] /\ ends (map TDecWeak os) = [] /\
  retires (map TDecWeak os) = [] /\ drops (map TDecWeak os) = [].
Proof. induction os as [|o os (IH & ? & ? & ? & ?)]; [done|]. split_and!; [exact (f_equal (cons o) IH)|done..]. Qed.

(** The first phase: the batch is off the queue and its references go. *)
Lemma round_drop h : heap_ok h ->
  exists h1, run_all false (map TDrop (queue h)) (set_queue [] h) = Some h1 /\
    counts [] [] h1 /\ shape [] (queue h) (queue h) h1 /\ later h h1 /\ registry h1 = registry h /\
    forall o b, o ∈ queue h -> objs h1 !! o = Some b -> dropClaimed b = true.
Proof.
  intros [Hc Hs]. set (batch := queue h). destruct (drops_of batch) as (D1 & D2 & D3 & D4 & D5).
  assert (counts (map TDrop batch) [] (set_queue [] h)) as Hc0.
  { destruct Hc. split; rewrite ?D2, ?D3, ?D5; try done. }
  assert (claimed (map TDrop batch) batch (set_queue [] h) ≡ₚ claimed [] [] h) as Hperm.
  { unfold claimed. rewrite D4, D5. cbn. rewrite app_nil_r. unfold batch. solve_Permutation. }
  assert (shape (map TDrop batch) batch batch (set_queue [] h)) as Hs0.
  { destruct Hs. split; try done.
    - by rewrite Hperm.
    - intros o b E. rewrite Hperm. by apply s_class0.
    - intros o. rewrite Hperm. apply s_dom0.
    - intros o b E. rewrite D4. by apply s_alive0.
    - intros x b y _ _. rewrite D4. apply not_elem_of_nil.
    - intros o b E. rewrite D5. intros H. by eapply s_ends0.
    - intros o. by rewrite D1. }
  destruct (run_all_ok false _ _ _ _ _ Hc0 Hs0) as (h1 & E1 & Hc1 & Hs1). exists h1.
  destruct (run_tasks_later _ _ _ _ _ E1) as (L & Hset & Hreg).
  split; [done|]. split; [done|]. split; [done|]. split; [destruct L; by split|].
  split; [by apply Hreg|]. intros o b Ho Eb. rewrite Forall_forall in Hset.
  apply (Hset (TDrop o)); [|done]. apply list_elem_of_fmap. by exists o.
Qed.

Lemma split_actors h os : os ≡ₚ destroys h os ++ finalizes h os.
Proof.
  unfold destroys, finalizes. induction os as [|o os IH]; [done|]. rewrite !filter_cons.
  destruct (is_actor h o) eqn:E.
  - rewrite decide_False, decide_True by congruence. rewrite <- Permutation_middle. by constructor.
  - rewrite decide_True, decide_False by congruence. cbn. by constructor.
Qed.

Lemma destroys_in h os o : o ∈ destroys h os <-> o ∈ os /\ is_actor h o = false.
Proof. unfold destroys. rewrite list_elem_of_filter. naive_solver. Qed.
Lemma finalizes_in h os o : o ∈ finalizes h os <-> o ∈ os /\ is_actor h o = true.
Proof. unfold finalizes. rewrite list_elem_of_filter. naive_solver. Qed.

Lemma elem_of_rev (o : Z) os : o ∈ rev os <-> o ∈ os.
Proof. by rewrite !list_elem_of_In, <- in_rev. Qed.

Lemma occ_rev (o : Z) os : occ o (rev os) = occ o os.
Proof.
  induction os as [|x os IH]; [done|]. cbn [rev]. rewrite occ_app, IH, !occ_cons, occ_nil. lia.
Qed.

(** The third phase: the batch is held and its objects destroyed, actors aside. *)
Lemma round_destroy h1 batch :
  counts [] [] h1 -> shape [] batch batch h1 -> Z.of_nat (refs h1) < 2 ^ 31 - 3 ->
  (forall o b, o ∈ batch -> objs h1 !! o = Some b -> dropClaimed b = true) ->
  let h2 := fold_left hold batch h1 in
  exists h3, run_all false (map TDestroy (destroys h2 batch)) h2 = Some h3 /\
    counts [] (rev batch) h3 /\ shape [] (finalizes h2 batch) batch h3 /\ later h1 h3 /\
    (forall o b, o ∈ batch -> objs h3 !! o = Some b -> children b = []) /\
    (forall o b, o ∈ batch -> objs h3 !! o = Some b -> o ∈ finalizes h2 batch \/ destroyed b = true) /\
    (forall o b, o ∈ finalizes h2 batch -> objs h3 !! o = Some b -> dropClaimed b = true /\ isActor b = true).
Proof.
  intros Hc Hs Hr Hdr h2.
  pose proof (s_nodup _ _ _ _ Hs) as Hnd. unfold claimed in Hnd. cbn in Hnd.
  assert (NoDup batch) as Hndb by (do 3 apply NoDup_app in Hnd as (_ & _ & Hnd); done).
  destruct (holds_ok batch [] batch batch h1 Hc Hs Hr) as (Hc2 & Hs2 & L2 & Eq2 & Er2);
    [by rewrite app_nil_r|intros o Ho; apply (s_dom _ _ _ _ Hs); unfold claimed; cbn; set_solver|].
  fold h2 in Hc2, Hs2, L2. rewrite app_nil_r in Hc2.
  set (ds := destroys h2 batch) in *. set (acts := finalizes h2 batch).
  destruct (ends_of ds) as (D1 & D2 & D3 & D4 & D5).
  assert (claimed (map TDestroy ds) acts h2 ≡ₚ claimed [] batch h2) as Hperm.
  { unfold claimed. rewrite D1, D4. rewrite (split_actors h2 batch) at 1. fold ds acts. cbn. solve_Permutation. }
  assert (forall o b, o ∈ batch -> objs h2 !! o = Some b -> dropClaimed b = true) as Hdr2.
  { intros o b Ho Eb. destruct (l_objs _ _ L2 o b Eb) as (b0 & E0 & G). by apply (g_drop _ _ G), (Hdr o). }
  assert (counts (map TDestroy ds) (rev batch) h2) as Hc2'.
  { destruct Hc2. split; rewrite ?D2, ?D3; try done. intros o Ho [Hd|[Hd|Hd]]; [apply c_gone0; auto..|].
    rewrite D1 in Hd. apply destroys_in in Hd as [Hd _]. by destruct Ho; apply elem_of_rev. }
  assert (shape (map TDestroy ds) acts batch h2) as Hs2'.
  { destruct Hs2. split; try done.
    - by rewrite Hperm.
    - intros o b E. rewrite Hperm. by apply s_class0.
    - intros o. rewrite Hperm. apply s_dom0.
    - intros o b E. rewrite D4. by apply s_alive0.
    - intros x b y _ _. rewrite D4. apply not_elem_of_nil.
    - intros o b E [Hf|Hd]; [by apply (s_ends0 o b E); left|]. rewrite D1 in Hd.
      apply destroys_in in Hd as [Hd _]. by apply (Hdr2 o).
    - intros o. rewrite D5. by intros ?%elem_of_nil. }
  destruct (run_all_ok false _ _ _ _ _ Hc2' Hs2') as (h3 & E3 & Hc3 & Hs3).
  destruct (run_tasks_later _ _ _ _ _ E3) as (L3 & Hset & _).
  assert (forall o b, o ∈ acts -> objs h3 !! o = Some b -> dropClaimed b = true /\ isActor b = true) as Hact.
  { intros o b [Ho Ha]%finalizes_in Eb. destruct (l_objs _ _ L3 o b Eb) as (b0 & E0 & G). split.
    - by apply (g_drop _ _ G), (Hdr2 o).
    - rewrite (g_actor _ _ G). unfold is_actor in Ha. by rewrite E0 in Ha. }
  assert (forall o b, o ∈ batch -> objs h3 !! o = Some b -> o ∈ acts \/ destroyed b = true) as Hor.
  { intros o b Ho Eb. destruct (is_actor h2 o) eqn:Ea; [left; by apply finalizes_in|right].
    rewrite Forall_forall in Hset. apply (Hset (TDestroy o)); [|done]. apply list_elem_of_fmap. exists o.
    split; [done|]. by apply destroys_in. }
  exists h3. split; [done|]. split; [done|]. split; [done|]. split; [by etrans|]. split; [|done].
  intros o b Ho Eb.
  assert (dropClaimed b = true /\ natives b = []) as [Hd Hn].
  { destruct (Hor o b Ho Eb) as [Ha|Hdes]; [|by apply (s_dead _ _ _ _ Hs3 o)].
    destruct (Hact o b Ha Eb) as [Hd Ha']. split; [done|]. by apply (s_actor _ _ _ _ Hs3 o). }
  destruct (s_drop _ _ _ _ Hs3 o b Eb Hd) as (Hm & Hv & _). unfold children. by rewrite Hm, Hn, Hv.
Qed.

(** What a round of the reclaimer leaves. *)
Record rounded (h h' : heap) : Prop := {
  r_ok : heap_ok h';
  r_roots : roots h' = roots h;
  r_locals : locals h' = locals h;
  r_objs : forall o b', objs h' !! o = Some b' -> exists b, objs h !! o = Some b /\ grown b b';
  r_done : forall o, o ∈ queue h -> o ∈ finalizing h' \/ forall b, objs h' !! o = Some b -> destroyed b = true;
  r_fin : forall o, o ∈ finalizing h -> o ∈ finalizing h';
  r_swept : swept h' = swept h;
}.

Lemma reclaim_round_ok h :
  heap_ok h -> room 1 h -> exists h', reclaim_round h = Some h' /\ rounded h h'.
Proof.
  intros Hok Hroom. destruct (round_drop h Hok) as (h1 & E1 & Hc1 & Hs1 & L1 & Er1 & Hdr1).
  set (batch := queue h) in *.
  assert (Z.of_nat (refs h1) < 2 ^ 31 - 3) as Hr1 by (pose proof (later_refs _ _ L1); unfold room in Hroom; lia).
  destruct (round_destroy h1 batch Hc1 Hs1 Hr1 Hdr1) as (h3 & E3 & Hc3 & Hs3 & L3 & Hch & Hor & Hact).
  set (h2 := fold_left hold batch h1) in *. set (acts := finalizes h2 batch) in *.
  set (h3' := set_finalizing (finalizing h3 ++ acts) h3).
  destruct (wdecs_of batch) as (D1 & D2 & D3 & D4 & D5).
  assert (claimed (map TDecWeak batch) [] h3' ≡ₚ claimed [] acts h3) as Hperm.
  { unfold claimed. rewrite D3, D4. cbn. rewrite app_nil_r. solve_Permutation. }
  assert (forall o, o ∈ batch -> sref h3 o = 0%nat) as Hgone.
  { intros o Ho. unfold sref. assert (o ∉ named h3) as Hn%occ_zero.
    { rewrite (later_named _ _ L3), (later_named _ _ L1). intros Hn%(s_named _ _ _ _ (h_shape h Hok)).
      assert (o ∈ claimed [] [] h) as Hcl by (unfold claimed; set_solver).
      destruct (s_dom _ _ _ _ (h_shape h Hok) o Hcl) as [b Eb]. unfold collecting_at in Hn. rewrite Eb in Hn.
      apply (s_class _ _ _ _ (h_shape h Hok) o b Eb) in Hcl as [Hcl _]. congruence. }
    rewrite Hn. apply msum_nothing. intros x b Ex. apply occ_zero. intros Hin.
    pose proof (s_batch _ _ _ _ Hs3 x b o Ex Hin Ho) as Hxb. rewrite (Hch x b Hxb Ex) in Hin.
    by apply elem_of_nil in Hin. }
  assert (forall o b, o ∈ acts -> objs h3 !! o = Some b -> o ∈ batch) as Hab
    by (intros o b Ho _; by apply finalizes_in in Ho as [Ho _]).
  assert (counts (map TDecWeak batch) [] h3') as Hc4.
  { destruct Hc3 as [X1 X2 X3 X4 X5 X6]. split; rewrite ?D1, ?D2, ?D3.
    - intros o b Eb. rewrite (X1 o b Eb). done.
    - intros o b Eb. rewrite (X2 o b Eb). change (wdecs []) with (@nil Z). rewrite !occ_nil.
      change (wref h3' o) with (wref h3 o). rewrite occ_rev. lia.
    - intros o Eo. specialize (X3 o Eo). change (wdecs []) with (@nil Z) in X3. rewrite occ_nil, occ_rev in X3.
      change (sref h3' o) with (sref h3 o). change (wref h3' o) with (wref h3 o). rewrite !occ_nil. lia.
    - exact X4.
    - exact X5.
    - intros o _ Hd. change (sref h3' o) with (sref h3 o). destruct (decide (o ∈ batch)) as [Hb|Hb].
      { rewrite (Hgone o Hb). by rewrite occ_nil. }
      apply X6; [by rewrite elem_of_rev|]. destruct Hd as [Hd|[Hd|Hd]]; [by left| |by apply elem_of_nil in Hd].
      apply elem_of_app in Hd as [Hd|Hd]; [right; by left|]. by apply finalizes_in in Hd as [? _]. }
  assert (shape (map TDecWeak batch) [] [] h3') as Hs4.
  { destruct Hs3. split; try done.
    - intros x b y _ _ Hy. by apply elem_of_nil in Hy.
    - by rewrite Hperm.
    - intros o b Eb. rewrite Hperm. by apply s_class0.
    - intros o. rewrite Hperm. apply s_dom0.
    - intros o b Eb. rewrite D4. by apply s_alive0.
    - intros x b y _ _. rewrite D4. apply not_elem_of_nil.
    - intros o b Eb. rewrite D3. intros [Hf|Hn]; [|by apply elem_of_nil in Hn].
      apply elem_of_app in Hf as [Hf|Hf]; [by apply (s_ends0 o b Eb); left|by apply (Hact o b)].
    - intros o [Hf|Hf]%elem_of_app; [by apply s_fin0|]. change (is_actor h3' o) with (is_actor h3 o).
      unfold is_actor. destruct (s_dom0 o) as [b Eb]; [unfold claimed; set_solver|]. rewrite Eb. by apply (Hact o b).
    - intros o. rewrite D5. by intros ?%elem_of_nil. }
  destruct (run_all_ok false _ _ _ _ _ Hc4 Hs4) as (h4 & E4 & Hc5 & Hs5).
  destruct (run_tasks_later _ _ _ _ _ E4) as (L4 & _ & _).
  exists h4. split.
  { unfold reclaim_round. fold batch. rewrite E1. fold h2. by rewrite E3. }
  split; [by split| | | | | |].
  - by rewrite (l_roots _ _ L4), <- (l_roots _ _ L1), <- (l_roots _ _ L3).
  - by rewrite (l_locals _ _ L4), <- (l_locals _ _ L1), <- (l_locals _ _ L3).
  - intros o b4 (b3 & E3' & G4)%(l_objs _ _ L4). destruct (l_objs _ _ L3 o b3 E3') as (b1 & E1' & G3).
    destruct (l_objs _ _ L1 o b1 E1') as (b0 & E0 & G1). exists b0. split; [done|]. etrans; [done|by etrans].
  - intros o Ho. rewrite (l_finalizing _ _ L4). cbn. rewrite elem_of_app.
    destruct (decide (o ∈ acts)) as [Ha|Ha]; [left; by right|right].
    intros b (b3 & E3' & G4)%(l_objs _ _ L4). apply (g_destroyed _ _ G4).
    by destruct (Hor o b3 Ho E3') as [?|?].
  - intros o Ho. rewrite (l_finalizing _ _ L4). cbn. rewrite elem_of_app. left.
    by rewrite (l_finalizing _ _ L3), (l_finalizing _ _ L1).
  - rewrite (l_swept _ _ L4). cbn. by rewrite (l_swept _ _ L3), (l_swept _ _ L1).
Qed.

(** ** The reclaimer ends *)

Definition pending_objs (h : heap) : gset Z :=
  filter (fun o => destroyed_at h o = false /\ o ∉ finalizing h) (dom (objs h)).

Lemma pending_in h o :
  o ∈ pending_objs h <-> (exists b, objs h !! o = Some b /\ destroyed b = false) /\ o ∉ finalizing h.
Proof.
  unfold pending_objs. rewrite elem_of_filter, elem_of_dom. unfold destroyed_at. split.
  - intros [[Hd Hf] [b E]]. rewrite E in Hd. eauto.
  - intros [(b & E & Hd) Hf]. rewrite E. eauto.
Qed.

Lemma round_pending h h' : heap_ok h -> rounded h h' -> queue h <> [] -> pending_objs h' ⊂ pending_objs h.
Proof.
  intros Hok Hr Hq. apply strict_spec_alt.
  assert (forall o, o ∈ queue h -> o ∈ pending_objs h /\ o ∉ pending_objs h') as Hout.
  { intros o Ho. pose proof (s_nodup _ _ _ _ (h_shape h Hok)) as Hnd.
    assert (o ∈ claimed [] [] h) as Hcl by (unfold claimed; set_solver). split.
    - apply pending_in. destruct (s_dom _ _ _ _ (h_shape h Hok) o Hcl) as [b Eb].
      split; [exists b; split; [done|]; by apply (s_class _ _ _ _ (h_shape h Hok) o b Eb)|].
      unfold claimed in Hnd. apply NoDup_app in Hnd as (_ & Hnd & _). specialize (Hnd o Ho). set_solver.
    - intros [(b & Eb & Hd) Hf]%pending_in. destruct (r_done _ _ Hr o Ho) as [|Hdone]; [done|].
      specialize (Hdone b Eb). congruence. }
  split.
  - intros o [(b' & Eb & Hd) Hf]%pending_in. apply pending_in.
    destruct (r_objs _ _ Hr o b' Eb) as (b & E & G). split.
    + exists b. split; [done|]. destruct (destroyed b) eqn:Ed; [|done]. by rewrite (g_destroyed _ _ G) in Hd.
    + intros Hin. by apply Hf, (r_fin _ _ Hr).
  - destruct (queue h) as [|o q]; [done|]. destruct (Hout o ltac:(by left)) as [H1 H2].
    intros E. by rewrite E in H2.
Qed.

Lemma rounded_refs h h' : rounded h h' -> (refs h' <= refs h)%nat.
Proof.
  intros Hr. unfold refs. rewrite (r_roots _ _ Hr), (r_locals _ _ Hr).
  enough (msum held_count (objs h') <= msum held_count (objs h))%nat by lia.
  apply msum_mono. intros k b' Hk. destruct (r_objs _ _ Hr k b' Hk) as (b & E & G).
  exists b. split; [done|apply G].
Qed.

(** What any number of rounds leave. *)
Record settles (h h' : heap) : Prop := {
  st_roots : roots h' = roots h;
  st_locals : locals h' = locals h;
  st_swept : swept h' = swept h;
  st_objs : forall o b', objs h' !! o = Some b' -> exists b, objs h !! o = Some b /\ grown b b';
}.

#[global] Instance settles_refl : Reflexive settles.
Proof. intros h. split; try done. intros o b E. by exists b. Qed.
#[global] Instance settles_trans : Transitive settles.
Proof.
  intros h1 h2 h3 [] []. split; try congruence. intros o b3 (b2 & (b1 & E & G1)%st_objs0 & G2)%st_objs1.
  exists b1. split; [done|by etrans].
Qed.

Lemma free_rounds_ok fuel : forall h,
  heap_ok h -> room 1 h -> (size (pending_objs h) < fuel)%nat ->
  exists h', free_rounds fuel h = Some h' /\ heap_ok h' /\ queue h' = [] /\ settles h h'.
Proof.
  induction fuel as [|fuel IH]; intros h Hok Hroom Hf; [lia|].
  cbn [free_rounds]. destruct (queue h) as [|o q] eqn:Eq; [by exists h|].
  destruct (reclaim_round_ok h Hok Hroom) as (h1 & E1 & Hr). rewrite E1.
  pose proof (round_pending h h1 Hok Hr ltac:(by rewrite Eq)) as Hsub%subset_size.
  destruct (IH h1) as (h' & E' & Hok' & Hq' & Hst).
  - apply Hr.
  - unfold room in *. pose proof (rounded_refs h h1 Hr). lia.
  - lia.
  - exists h'. split; [done|]. split; [done|]. split; [done|]. etrans; [|done]. by destruct Hr.
Qed.

Lemma freeObjects_ok h :
  heap_ok h -> room 1 h ->
  exists h', freeObjects h = Some h' /\ heap_ok h' /\ queue h' = [] /\ settles h h'.
Proof.
  intros Hok Hroom. apply free_rounds_ok; [done..|].
  assert (size (pending_objs h) <= size (dom (objs h)))%nat as H.
  { apply subseteq_size. unfold pending_objs. set_solver. }
  rewrite size_dom in H. lia.
Qed.

Lemma finalize_ok h : heap_ok h -> exists h', finalizeActor h = Some h' /\ heap_ok h'.
Proof.
  intros [Hc Hs]. unfold finalizeActor. destruct (finalizing h) as [|o os] eqn:Ef; [by exists h|].
  set (h0 := set_finalizing os h).
  assert (claimed [TDestroy o] [] h0 ≡ₚ claimed [] [] h) as Hperm.
  { unfold claimed. rewrite Ef. cbn. solve_Permutation. }
  assert (counts [TDestroy o] [] h0) as Hc0.
  { destruct Hc. split; try done. intros k Hk Hd. apply c_gone0; [done|].
    destruct Hd as [|[Hd|Hd]]; [by left|right; left; rewrite Ef; by right|].
    right. left. rewrite Ef. apply list_elem_of_singleton in Hd as ->. by left. }
  assert (shape [TDestroy o] [] [] h0) as Hs0.
  { destruct Hs. split; try done.
    - by rewrite Hperm.
    - intros k b Eb. rewrite Hperm. by apply s_class0.
    - intros k. rewrite Hperm. apply s_dom0.
    - intros k b Eb Hk. apply (s_ends0 k b Eb). left. rewrite Ef.
      destruct Hk as [Hk|Hk]; [by right|]. apply list_elem_of_singleton in Hk as ->. by left.
    - intros k Hk. apply s_fin0. rewrite Ef. by right. }
  destruct (run_all_ok false _ _ _ _ _ Hc0 Hs0) as (h1 & E1 & Hc1 & Hs1). by exists h1.
Qed.

End GcInvariant.
