(* ===== verification/GcCollect.v ===== *)
(** * GcCollect: a collection of the heap

    The mark phase reaches what the roots reach and ends; the trims and the sweep
    keep the heap's invariant, and the sweep claims exactly the registered objects
    that were not marked. *)

From S2P Require Import Prelude GcHeap GcInvariant.
From stdpp Require Import numbers pretty.

Module GcCollect.

Import GcHeap GcInvariant.
Local Open Scope Z_scope.

(** ** Marking *)

Definition marked_at (ep : Z) (h : heap) (o : Z) : bool :=
  match objs h !! o with Some b => negb (collecting b) && (markEpoch b =? ep) | None => false end.

Definition edge (h : heap) (x y : Z) : Prop := exists b, objs h !! x = Some b /\ y ∈ children b.

(** Marks are all that changes. *)
Record remark (ep : Z) (h h' : heap) : Prop := {
  rm_objs : forall o, match objs h !! o, objs h' !! o with
                      | Some b, Some b' => b' = b \/ b' = set_mark ep b
                      | None, None => True
                      | _, _ => False
                      end;
  rm_registry : registry h' = registry h;
  rm_roots : roots h' = roots h;
  rm_locals : locals h' = locals h;
  rm_swept : swept h' = swept h;
  rm_queue : queue h' = queue h;
  rm_finalizing : finalizing h' = finalizing h;
  rm_epoch : epoch h' = epoch h;
}.

#[global] Instance remark_refl ep : Reflexive (remark ep).
Proof. intros h. split; try done. intros o. destruct (objs h !! o); [by left|done]. Qed.
#[global] Instance remark_trans ep : Transitive (remark ep).
Proof.
  intros h1 h2 h3 [A] [B]. split; try congruence. intros o. specialize (A o). specialize (B o).
  destruct (objs h1 !! o) as [b1|], (objs h2 !! o) as [b2|], (objs h3 !! o) as [b3|]; try done.
  destruct A as [->| ->], B as [->| ->]; auto.
Qed.

Lemma remark_back ep h h' o b' : remark ep h h' -> objs h' !! o = Some b' ->
  exists b, objs h !! o = Some b /\ (b' = b \/ b' = set_mark ep b).
Proof.
  intros Hm E. pose proof (rm_objs _ _ _ Hm o) as H. rewrite E in H.
  destruct (objs h !! o) as [b|]; [by exists b|done].
Qed.

Lemma remark_fwd ep h h' o b : remark ep h h' -> objs h !! o = Some b ->
  exists b', objs h' !! o = Some b' /\ (b' = b \/ b' = set_mark ep b).
Proof.
  intros Hm E. pose proof (rm_objs _ _ _ Hm o) as H. rewrite E in H.
  destruct (objs h' !! o) as [b'|]; [by exists b'|done].
Qed.

Lemma remark_edge ep h h' x y : remark ep h h' -> edge h' x y <-> edge h x y.
Proof.
  intros Hm. split; intros (b & E & Hy).
  - destruct (remark_back _ _ _ _ _ Hm E) as (b0 & E0 & [-> | ->]); by exists b0.
  - destruct (remark_fwd _ _ _ _ _ Hm E) as (b0 & E0 & [-> | ->]); [by exists b|by exists (set_mark ep b)].
Qed.

Lemma remark_collecting ep h h' o : remark ep h h' -> collecting_at h' o = collecting_at h o.
Proof.
  intros Hm. pose proof (rm_objs _ _ _ Hm o) as H. unfold collecting_at.
  destruct (objs h !! o), (objs h' !! o); try done. by destruct H as [-> | ->].
Qed.

Lemma remark_dom ep h h' o : remark ep h h' -> is_Some (objs h' !! o) <-> is_Some (objs h !! o).
Proof.
  intros Hm. pose proof (rm_objs _ _ _ Hm o) as H. destruct (objs h !! o), (objs h' !! o); try done.
Qed.

Lemma marked_collecting ep h o : marked_at ep h o = true -> collecting_at h o = false.
Proof.
  unfold marked_at, collecting_at. destruct (objs h !! o) as [b|]; [|done].
  intros [H _]%andb_true_iff. by apply negb_true_iff.
Qed.

(** One object: marked afterwards unless it is being collected. *)
Lemma markObj_ok ep h w o :
  is_Some (objs h !! o) ->
  exists h' ns, markObj ep (h, w) o = Some (h', ns ++ w) /\ remark ep h h' /\
    (forall x, marked_at ep h' x = marked_at ep h x || bool_decide (x ∈ ns)) /\
    (forall x, x ∈ ns -> x = o /\ marked_at ep h x = false /\ collecting_at h x = false) /\
    (collecting_at h o = false -> marked_at ep h' o = true) /\ NoDup ns.
Proof.
  intros [b E]. unfold markObj. cbn [fst snd]. rewrite E.
  assert (forall x, marked_at ep h x = marked_at ep h x || bool_decide (x ∈ [])) as Hnil.
  { intros x. rewrite bool_decide_eq_false_2 by apply not_elem_of_nil. by rewrite orb_false_r. }
  destruct (collecting b) eqn:Ec; [|destruct (Z.eqb_spec (markEpoch b) ep) as [Em|Em]].
  - exists h, []. split; [done|]. split; [done|]. split; [done|]. split; [by intros ? ?%elem_of_nil|].
    split; [|apply NoDup_nil_2]. unfold collecting_at. by rewrite E, Ec.
  - exists h, []. split; [done|]. split; [done|]. split; [done|]. split; [by intros ? ?%elem_of_nil|].
    split; [|apply NoDup_nil_2]. intros _. unfold marked_at. by rewrite E, Ec, Em, Z.eqb_refl.
  - exists (on_obj o (set_mark ep) h), [o]. split; [done|]. split.
    { split; try done. intros k. rewrite on_obj_lookup. case_decide as Ek.
      - subst. rewrite E. by right.
      - destruct (objs h !! k); [by left|done]. }
    assert (forall x, marked_at ep (on_obj o (set_mark ep) h) x = marked_at ep h x || bool_decide (x ∈ [o])) as Hx.
    { intros x. unfold marked_at. rewrite on_obj_lookup. case_decide as Ek.
      - subst. rewrite E. cbn. rewrite Ec, Z.eqb_refl, bool_decide_eq_true_2 by by left. by rewrite orb_true_r.
      - rewrite bool_decide_eq_false_2; [by rewrite orb_false_r|]. by intros ->%list_elem_of_singleton. }
    split; [done|]. split; [|split; [|apply NoDup_singleton]].
    + intros x ->%list_elem_of_singleton. split; [done|]. unfold marked_at, collecting_at. rewrite E, Ec.
      cbn. split; [by apply Z.eqb_neq|done].
    + intros _. rewrite Hx, bool_decide_eq_true_2 by by left. apply orb_true_r.
Qed.

Lemma visit_ok ep os : forall h w,
  (forall o, o ∈ os -> is_Some (objs h !! o)) ->
  exists h' ns, visit ep os (h, w) = Some (h', ns ++ w) /\ remark ep h h' /\
    (forall x, marked_at ep h' x = marked_at ep h x || bool_decide (x ∈ ns)) /\
    (forall x, x ∈ ns -> x ∈ os /\ marked_at ep h x = false /\ collecting_at h x = false) /\
    (forall o, o ∈ os -> collecting_at h o = false -> marked_at ep h' o = true) /\ NoDup ns.
Proof.
  induction os as [|o os IH]; intros h w Hdom.
  { exists h, []. split; [done|]. split; [done|]. split.
    { intros x. rewrite bool_decide_eq_false_2 by apply not_elem_of_nil. by rewrite orb_false_r. }
    split; [by intros ? ?%elem_of_nil|]. split; [by intros ? ?%elem_of_nil|apply NoDup_nil_2]. }
  cbn [visit]. destruct (markObj_ok ep h w o) as (h1 & n1 & -> & M1 & A1 & B1 & C1 & D1); [apply Hdom; by left|].
  destruct (IH h1 (n1 ++ w)) as (h2 & n2 & -> & M2 & A2 & B2 & C2 & D2).
  { intros k Hk. apply (remark_dom ep h h1 k M1), Hdom. by right. }
  exists h2, (n2 ++ n1). split; [by rewrite <- app_assoc|]. split; [by etrans|].
  split; [|split; [|split]].
  - intros x. rewrite A2, A1, <- orb_assoc. f_equal. apply eq_true_iff_eq.
    rewrite orb_true_iff, !bool_decide_eq_true, elem_of_app. tauto.
  - intros x [Hx|Hx]%elem_of_app.
    + destruct (B2 x Hx) as (H1 & H2 & H3). rewrite A1 in H2. apply orb_false_iff in H2 as [H2 _].
      rewrite (remark_collecting ep h h1 x M1) in H3. split; [by right|done].
    + destruct (B1 x Hx) as (-> & H2 & H3). split; [by left|done].
  - intros k [->|Hk]%elem_of_cons Hc.
    + rewrite A2, C1 by done. done.
    + apply C2; [done|]. by rewrite (remark_collecting ep h h1 k M1).
  - apply NoDup_app. split_and!; [done| |done]. intros x Hx Hx'. destruct (B2 x Hx) as (_ & H2 & _).
    rewrite A1, bool_decide_eq_true_2, orb_true_r in H2 by done. done.
Qed.


(** What is left to mark. *)
Definition unmarked (ep : Z) (h : heap) : gset Z :=
  filter (fun o => marked_at ep h o = false) (dom (objs h)).

Lemma unmarked_shrinks ep h h' ns :
  remark ep h h' -> NoDup ns ->
  (forall x, marked_at ep h' x = marked_at ep h x || bool_decide (x ∈ ns)) ->
  (forall x, x ∈ ns -> marked_at ep h x = false /\ is_Some (objs h !! x)) ->
  (size (unmarked ep h') + length ns <= size (unmarked ep h))%nat.
Proof.
  intros Hm Hnd Hx Hn. rewrite <- (size_list_to_set (C := gset Z) ns Hnd).
  rewrite <- size_union.
  - apply subseteq_size. intros x. rewrite elem_of_union, elem_of_list_to_set. unfold unmarked.
    rewrite !elem_of_filter, !elem_of_dom. intros [[H1 H2]|H].
    + split; [|by apply (remark_dom ep h h' x Hm)]. rewrite Hx in H1. by apply orb_false_iff in H1 as [? _].
    + by apply Hn.
  - intros x. rewrite elem_of_list_to_set. unfold unmarked. rewrite elem_of_filter. intros [H _] Hin.
    by rewrite Hx, bool_decide_eq_true_2, orb_true_r in H.
Qed.

(** Every reference leads to a block. *)
Definition edges_in (h : heap) : Prop := forall x y, edge h x y -> is_Some (objs h !! y).

(** The marks reach the children of marked objects, the worklist's apart. *)
Definition mark_closed (ep : Z) (h : heap) (w : list Z) : Prop :=
  forall x y, marked_at ep h x = true -> edge h x y -> collecting_at h y = false ->
  marked_at ep h y = true \/ x ∈ w.

Lemma remark_edges_in ep h h' : remark ep h h' -> edges_in h -> edges_in h'.
Proof. intros Hm H x y Hxy%(remark_edge ep h h' x y Hm). apply (remark_dom ep h h' y Hm). by eapply H. Qed.

Lemma remark_rtc ep h h' x y : remark ep h h' -> rtc (edge h') x y -> rtc (edge h) x y.
Proof.
  intros Hm. induction 1 as [|x y z Hxy _ IH]; [done|]. eapply rtc_l; [|done].
  by apply (remark_edge ep h h' x y Hm).
Qed.

Record marks_from (ep : Z) (starts : list Z) (h h' : heap) : Prop := {
  mf_remark : remark ep h h';
  mf_closed : mark_closed ep h' [];
  mf_keeps : forall x, marked_at ep h x = true -> marked_at ep h' x = true;
  mf_only : forall x, marked_at ep h' x = true ->
    marked_at ep h x = true \/ exists r, r ∈ starts /\ rtc (edge h) r x;
}.

Lemma mark_drain_ok ep fuel : forall h w,
  edges_in h -> (forall o, o ∈ w -> marked_at ep h o = true) -> mark_closed ep h w ->
  (size (unmarked ep h) + length w <= fuel)%nat ->
  exists h', mark_drain fuel ep (h, w) = Some h' /\ marks_from ep w h h'.
Proof.
  induction fuel as [|fuel IH]; intros h [|o w] Hin Hw Hcl Hf; cbn [mark_drain fst snd].
  1,3: exists h; split; [done|split; [done|done|done|by left]].
  { cbn in Hf. lia. }
  pose proof (Hw o ltac:(by left)) as Ho. unfold marked_at in Ho.
  destruct (objs h !! o) as [b|] eqn:E; [|done]. clear Ho.
  assert (forall k, k ∈ children b -> edge h o k) as Hch by (intros k Hk; by exists b).
  destruct (visit_ok ep (children b) h w) as (h1 & ns & -> & M & A & B & C & D).
  { intros k Hk%Hch. by eapply Hin. }
  assert (size (unmarked ep h1) + length ns <= size (unmarked ep h))%nat as Hsz.
  { apply unmarked_shrinks; try done. intros x Hx. destruct (B x Hx) as (Hx1 & Hx2 & _). split; [done|].
    by eapply Hin, Hch. }
  destruct (IH h1 (ns ++ w)) as (h' & E' & [M' Hcl' Hk' Ho']).
  - by eapply remark_edges_in.
  - intros k [Hk|Hk]%elem_of_app; rewrite A.
    + by rewrite bool_decide_eq_true_2, orb_true_r.
    + by rewrite Hw by (by right).
  - intros x y Hx Hxy%(remark_edge ep h h1 x y M) Hy. rewrite (remark_collecting ep h h1 y M) in Hy.
    rewrite A in Hx. apply orb_true_iff in Hx as [Hx|Hx%bool_decide_eq_true]; [|right; apply elem_of_app; by left].
    destruct (Hcl x y Hx Hxy Hy) as [H|[->|H]%elem_of_cons].
    + left. by rewrite A, H.
    + left. destruct Hxy as (b0 & E0 & Hb0). rewrite E in E0. injection E0 as <-. by apply C.
    + right. apply elem_of_app. by right.
  - rewrite length_app. cbn in Hf. lia.
  - exists h'. split; [done|]. split; [by etrans|done| |].
    + intros x Hx. apply Hk'. by rewrite A, Hx.
    + intros x [Hx|(r & Hr & Hrx%(remark_rtc ep h h1 r x M))]%Ho'.
      * rewrite A in Hx. apply orb_true_iff in Hx as [Hx|Hx%bool_decide_eq_true]; [by left|right].
        exists o. split; [by left|]. apply rtc_once, Hch. by apply B.
      * right. apply elem_of_app in Hr as [Hr|Hr].
        -- exists o. split; [by left|]. eapply rtc_l; [|done]. apply Hch. by apply B.
        -- exists r. split; [by right|done].
Qed.

Lemma mark_from_ok ep os h :
  edges_in h -> (forall o, o ∈ os -> is_Some (objs h !! o)) -> mark_closed ep h [] ->
  exists h', mark_from ep os h = Some h' /\ marks_from ep os h h' /\
    forall o, o ∈ os -> collecting_at h o = false -> marked_at ep h' o = true.
Proof.
  intros Hin Hos Hcl. unfold mark_from.
  destruct (visit_ok ep os h [] Hos) as (h1 & ns & -> & M & A & B & C & D). rewrite app_nil_r.
  assert (size (unmarked ep h1) + length ns <= size (unmarked ep h))%nat as Hsz.
  { apply unmarked_shrinks; try done. intros x Hx. destruct (B x Hx) as (Hx1 & Hx2 & _). auto. }
  destruct (mark_drain_ok ep (S (size (objs h))) h1 ns) as (h' & E' & [M' Hcl' Hk' Ho']).
  - by eapply remark_edges_in.
  - intros k Hk. by rewrite A, bool_decide_eq_true_2, orb_true_r.
  - intros x y Hx Hxy%(remark_edge ep h h1 x y M) Hy. rewrite (remark_collecting ep h h1 y M) in Hy.
    rewrite A in Hx. apply orb_true_iff in Hx as [Hx|Hx%bool_decide_eq_true]; [|by right].
    left. rewrite A. by destruct (Hcl x y Hx Hxy Hy) as [-> |?%elem_of_nil].
  - assert (size (unmarked ep h) <= size (objs h))%nat.
    { rewrite <- size_dom. apply subseteq_size. intros x. unfold unmarked. rewrite elem_of_filter. by intros [_ ?]. }
    lia.
  - exists h'. split; [done|]. split; [split; [by etrans|done| |]|].
    + intros x Hx. apply Hk'. by rewrite A, Hx.
    + intros x [Hx|(r & Hr & Hrx%(remark_rtc ep h h1 r x M))]%Ho'.
      * rewrite A in Hx. apply orb_true_iff in Hx as [Hx|Hx%bool_decide_eq_true]; [by left|right].
        exists x. split; [by apply B|done].
      * right. exists r. split; [by apply B|done].
    + intros o Ho Hc. by apply Hk', C.
Qed.

(** ** The invariant does not depend on the marks *)

Record recolored (h h' : heap) : Prop := {
  rc_objs : forall o, match objs h !! o, objs h' !! o with
                      | Some b, Some b' => exists m, b' = set_mark m b /\ (destroyed b = false -> 0 <= m <= epoch h')
                      | None, None => True
                      | _, _ => False
                      end;
  rc_registry : registry h' = registry h;
  rc_roots : roots h' = roots h;
  rc_locals : locals h' = locals h;
  rc_swept : swept h' = swept h;
  rc_queue : queue h' = queue h;
  rc_finalizing : finalizing h' = finalizing h;
  rc_epoch : 1 <= epoch h' < 2 ^ 64;
}.

Lemma rc_back h h' o b' : recolored h h' -> objs h' !! o = Some b' ->
  exists b m, objs h !! o = Some b /\ b' = set_mark m b /\ (destroyed b = false -> 0 <= m <= epoch h').
Proof.
  intros Hr E. pose proof (rc_objs _ _ Hr o) as H. rewrite E in H.
  destruct (objs h !! o) as [b|]; [|done]. destruct H as (m & H1 & H2). by exists b, m.
Qed.

Lemma rc_fmap {A} (f : obj -> A) h h' o : recolored h h' -> (forall m b, f (set_mark m b) = f b) ->
  f <$> objs h' !! o = f <$> objs h !! o.
Proof.
  intros Hr Hf. pose proof (rc_objs _ _ Hr o) as H. destruct (objs h !! o), (objs h' !! o); try done.
  destruct H as (m & -> & _). cbn. by rewrite Hf.
Qed.

Lemma rc_dom h h' o : recolored h h' -> objs h' !! o = None <-> objs h !! o = None.
Proof. intros Hr. pose proof (rc_objs _ _ Hr o) as H. by destruct (objs h !! o), (objs h' !! o). Qed.

Lemma rc_at (f : obj -> bool) h h' o : recolored h h' -> (forall m b, f (set_mark m b) = f b) ->
  (match objs h' !! o with Some b => f b | None => false end) =
  (match objs h !! o with Some b => f b | None => false end).
Proof.
  intros Hr Hf. pose proof (rc_fmap f h h' o Hr Hf) as H.
  destruct (objs h !! o), (objs h' !! o); cbn in H; try done. by injection H.
Qed.

Lemma recolored_ok h h' : recolored h h' -> heap_ok h -> heap_ok h'.
Proof.
  intros Hr [Hc Hs].
  assert (named h' = named h) as En by (unfold named; by rewrite (rc_roots _ _ Hr), (rc_locals _ _ Hr)).
  assert (forall o, sref h' o = sref h o) as Hsr.
  { intros o. unfold sref. rewrite En. f_equal. apply msum_same. intros k. by apply rc_fmap. }
  assert (forall o, wref h' o = wref h o) as Hwr.
  { intros o. unfold wref. rewrite (rc_roots _ _ Hr), (rc_locals _ _ Hr). f_equal. apply msum_same.
    intros k. by apply rc_fmap. }
  assert (forall ts rest, claimed ts rest h' = claimed ts rest h) as Hcl.
  { intros ts rest. unfold claimed. by rewrite (rc_queue _ _ Hr), (rc_swept _ _ Hr), (rc_finalizing _ _ Hr). }
  assert (forall o b', objs h' !! o = Some b' -> exists b m, objs h !! o = Some b /\ b' = set_mark m b) as Hb.
  { intros o b' E. destruct (rc_back h h' o b' Hr E) as (b & m & H1 & H2 & _). eauto. }
  assert (forall o, collecting_at h' o = collecting_at h o) as Hca by (intros o; by apply (rc_at collecting)).
  split; split.
  - intros o b' (b & m & E & ->)%Hb. rewrite Hsr. exact (c_strong _ _ _ Hc o b E).
  - intros o b' (b & m & E & ->)%Hb. rewrite Hwr. exact (c_weak _ _ _ Hc o b E).
  - intros o E%(rc_dom h h' o Hr). rewrite Hsr, Hwr. by apply (c_dom _ _ _ Hc).
  - intros o b' (b & m & E & ->)%Hb. exact (c_range _ _ _ Hc o b E).
  - intros o b' (b & m & E & ->)%Hb. exact (c_live _ _ _ Hc o b E).
  - intros o Ho. rewrite Hsr, (rc_finalizing _ _ Hr). unfold destroyed_at. rewrite (rc_at destroyed h h' o Hr) by done.
    by apply (c_gone _ _ _ Hc).
  - intros x b' y (b & m & E & ->)%Hb. rewrite Hca. exact (s_closed _ _ _ _ Hs x b y E).
  - intros y. rewrite En, Hca. apply (s_named _ _ _ _ Hs).
  - intros o b' (b & m & E & ->)%Hb. exact (s_drop _ _ _ _ Hs o b E).
  - intros o b' (b & m & E & ->)%Hb. exact (s_dead _ _ _ _ Hs o b E).
  - intros o b' (b & m & E & ->)%Hb. exact (s_actor _ _ _ _ Hs o b E).
  - intros x b' y _ _ Hy. by apply elem_of_nil in Hy.
  - rewrite Hcl. apply Hs.
  - intros o b' (b & m & E & ->)%Hb. rewrite Hcl. exact (s_class _ _ _ _ Hs o b E).
  - intros o Ho. rewrite Hcl in Ho. apply not_eq_None_Some. intros Hn%(rc_dom h h' o Hr).
    destruct (s_dom _ _ _ _ Hs o Ho). congruence.
  - intros o b' (b & m & E & ->)%Hb. exact (s_alive _ _ _ _ Hs o b E).
  - intros x b' y (b & m & E & ->)%Hb. rewrite (rc_queue _ _ Hr). exact (s_queue _ _ _ _ Hs x b y E).
  - intros x b' y (b & m & E & ->)%Hb. exact (s_retire _ _ _ _ Hs x b y E).
  - intros o b' (b & m & E & ->)%Hb. rewrite (rc_finalizing _ _ Hr). exact (s_ends _ _ _ _ Hs o b E).
  - intros o. rewrite (rc_finalizing _ _ Hr). unfold is_actor. rewrite (rc_at isActor h h' o Hr) by done.
    apply (s_fin _ _ _ _ Hs).
  - intros o Ho. by apply elem_of_nil in Ho.
  - intros o b' E. destruct (rc_back h h' o b' Hr E) as (b & m & _ & -> & Hm). exact Hm.
  - apply Hr.
  - rewrite (rc_registry _ _ Hr). apply Hs.
  - intros o. rewrite (rc_registry _ _ Hr), (s_reg _ _ _ _ Hs). split.
    + intros (b & E & Hd). pose proof (rc_objs _ _ Hr o) as H. rewrite E in H.
      destruct (objs h' !! o) as [b'|]; [|done]. destruct H as (m & -> & _). eauto.
    + intros (b' & (b & m & E & ->)%Hb & Hd). eauto.
Qed.

Lemma remark_recolored h h' : heap_ok h -> remark (epoch h) h h' -> recolored h h'.
Proof.
  intros [_ Hs] Hm. destruct Hm. split; try done; [|rewrite rm_epoch0; apply Hs]. intros o. specialize (rm_objs0 o). rewrite rm_epoch0.
  destruct (objs h !! o) as [b|] eqn:E, (objs h' !! o) as [b'|]; try done.
  pose proof (s_marks _ _ _ _ Hs o b E) as Hk.
  destruct rm_objs0 as [-> | ->]; [exists (markEpoch b)|exists (epoch h)]; (split; [by destruct b|]); intros Hd;
    specialize (Hk Hd); lia.
Qed.

(** The next epoch is not the mark of any object. *)
Lemma clear_marks_lookup os : forall h o,
  objs (fold_left (fun h o => on_obj o (set_mark 0) h) os h) !! o =
  if bool_decide (o ∈ os) then set_mark 0 <$> objs h !! o else objs h !! o.
Proof.
  induction os as [|k os IH]; intros h o; cbn [fold_left].
  { by rewrite bool_decide_eq_false_2 by apply not_elem_of_nil. }
  rewrite IH, on_obj_lookup. destruct (decide (o = k)) as [->|Hne].
  - rewrite (bool_decide_eq_true_2 (k ∈ k :: os)) by by left. case_bool_decide; [|done].
    by destruct (objs h !! k).
  - rewrite (bool_decide_ext (o ∈ k :: os) (o ∈ os)); [done|]. rewrite elem_of_cons. naive_solver.
Qed.

Lemma clear_marks_rest os : forall h,
  let h' := fold_left (fun h o => on_obj o (set_mark 0) h) os h in
  registry h' = registry h /\ roots h' = roots h /\ locals h' = locals h /\ swept h' = swept h /\
  queue h' = queue h /\ finalizing h' = finalizing h /\ epoch h' = epoch h.
Proof. induction os as [|o os IH]; intros h; [by split_and!|]. apply (IH (on_obj o (set_mark 0) h)). Qed.

Lemma next_epoch_ok h : heap_ok h ->
  recolored h (next_epoch h) /\
  forall o b, objs (next_epoch h) !! o = Some b -> destroyed b = false -> markEpoch b <> epoch (next_epoch h).
Proof.
  intros [_ Hs]. pose proof (s_epoch _ _ _ _ Hs) as He. unfold next_epoch. assert (wrapU 64 (epoch h + 1) = (epoch h + 1) mod 2 ^ 64) as -> by done.
  destruct (decide (epoch h = 2 ^ 64 - 1)) as [Eq|Hne].
  - rewrite Eq. change ((2 ^ 64 - 1 + 1) mod 2 ^ 64 =? 0) with true. cbv iota. unfold clear_marks.
    destruct (clear_marks_rest (registry h) (set_epoch 1 h)) as (R1 & R2 & R3 & R4 & R5 & R6 & R7).
    change (registry (set_epoch 1 h)) with (registry h) in *.
    assert (forall o b, objs h !! o = Some b -> o ∈ registry h \/ destroyed b = true) as Hor.
    { intros o b E. destruct (destroyed b) eqn:Ed; [by right|left]. apply (s_reg _ _ _ _ Hs). eauto. }
    rewrite R7. cbn [epoch set_epoch]. split.
    + split; try done; [|rewrite R7; cbn; lia]. intros o. rewrite R7, clear_marks_lookup. cbn [epoch set_epoch objs].
      destruct (objs h !! o) as [b|] eqn:E; [|by case_bool_decide]. case_bool_decide as Hin; cbn.
      * exists 0. split; [done|lia].
      * exists (markEpoch b). split; [by destruct b|]. intros Hd. by destruct (Hor o b E); [|congruence].
    + intros o b. rewrite clear_marks_lookup. cbn [objs set_epoch].
      destruct (objs h !! o) as [b0|] eqn:E; [|by case_bool_decide]. destruct (Hor o b0 E) as [Hin|Hd].
      * rewrite bool_decide_eq_true_2 by done. cbn. intros [= <-] _. cbn. lia.
      * case_bool_decide; cbn; intros [= <-]; cbn; congruence.
  - rewrite Z.mod_small by lia. destruct (Z.eqb_spec (epoch h + 1) 0); [lia|]. cbn [epoch set_epoch].
    split.
    + split; try done; [|cbn; lia]. intros o. cbn [objs set_epoch epoch]. destruct (objs h !! o) as [b|] eqn:E; [|done].
      exists (markEpoch b). split; [by destruct b|]. intros Hd. pose proof (s_marks _ _ _ _ Hs o b E Hd). lia.
    + intros o b E Hd. cbn in E. pose proof (s_marks _ _ _ _ Hs o b E Hd). lia.
Qed.

(** ** Trimming *)

Lemma kept_prefix e vs : kept_versions e vs = take (length (kept_versions e vs)) vs.
Proof. induction vs as [|v vs IH]; cbn; [done|]. destruct (v.1 <? e); cbn; [done|]. by rewrite <- IH. Qed.

Lemma decs_versions (vs : list (Z * Z)) : decs (map (fun v => TDec v.2) vs) = map snd vs.
Proof. apply (versions_only vs). Qed.

Lemma heap_edges_in h : heap_ok h -> edges_in h.
Proof.
  intros [Hc _] x y (b & E & Hy). apply not_eq_None_Some. intros Hn.
  pose proof (c_dom _ _ _ Hc y Hn). pose proof (sref_pos h x b y E Hy). lia.
Qed.

Lemma later_collecting h h' o :
  later h h' -> is_Some (objs h' !! o) -> collecting_at h' o = false -> collecting_at h o = false.
Proof.
  intros Hl [b' E] Hc. destruct (l_objs _ _ Hl o b' E) as (b & E0 & G). unfold collecting_at in *.
  rewrite E in Hc. rewrite E0. apply not_true_is_false. intros H%(g_collecting _ _ G). congruence.
Qed.

Lemma later_marked ep h h' o :
  later h h' -> is_Some (objs h' !! o) -> collecting_at h' o = false -> marked_at ep h' o = marked_at ep h o.
Proof.
  intros Hl Hd Hc. pose proof (later_collecting h h' o Hl Hd Hc) as Hc'. destruct Hd as [b' E].
  destruct (l_objs _ _ Hl o b' E) as (b & E0 & G). unfold collecting_at, marked_at in *.
  rewrite E in *. rewrite E0 in *. by rewrite Hc, Hc', (g_mark _ _ G).
Qed.

Lemma later_edge h h' x y : later h h' -> edge h' x y -> edge h x y.
Proof. intros Hl (b' & E & Hy). destruct (l_objs _ _ Hl x b' E) as (b & E0 & G). exists b. split; [done|by apply G]. Qed.

Lemma later_closed ep h h' : heap_ok h' -> later h h' -> mark_closed ep h [] -> mark_closed ep h' [].
Proof.
  intros Hok Hl Hcl x y Hx Hxy Hy.
  assert (is_Some (objs h' !! x)) as Hdx by (destruct Hxy as (b & E & _); by eexists).
  pose proof (heap_edges_in h' Hok x y Hxy) as Hdy.
  rewrite (later_marked ep h h' x Hl Hdx) in Hx by (by eapply marked_collecting).
  rewrite (later_marked ep h h' y Hl Hdy Hy).
  apply (Hcl x y Hx); [by eapply later_edge|by eapply later_collecting].
Qed.

Definition trimmed (h h' : heap) : Prop := heap_ok h' /\ later h h' /\ registry h' = registry h.

Lemma trim_one e o b h :
  heap_ok h -> objs h !! o = Some b -> collecting b = false ->
  exists h', trimVersionChain e o h = Some h' /\ trimmed h h'.
Proof.
  intros [Hc Hs] E Hcb. unfold trimVersionChain. rewrite E.
  set (kept := if e =? UINT64_MAX then [] else kept_versions e (versionChain b)).
  assert (versionChain b = kept ++ drop (length kept) (versionChain b)) as Hsplit.
  { unfold kept. destruct (e =? UINT64_MAX); [done|].
    rewrite <- (take_drop (length (kept_versions e (versionChain b))) (versionChain b)) at 1. by rewrite <- kept_prefix. }
  set (gone := drop (length kept) (versionChain b)) in *. set (ts := map (fun v : Z * Z => TDec v.2) gone).
  destruct (versions_only gone) as (V1 & V2 & V3 & V4 & V5). fold ts in V1, V2, V3, V4, V5.
  set (h1 := on_obj o (set_versions kept) h).
  destruct (shape_undead _ _ _ _ _ _ Hs E Hcb) as (Hnd & Hnx & _).
  assert (forall y, occ y (children b) = occ y (children (set_versions kept b)) + occ y (map snd gone))%nat as Hch.
  { intros y. rewrite !occ_children. cbn. rewrite Hsplit, map_app, occ_app. lia. }
  assert (counts ts [] h1) as Hc1.
  { pose proof (c_strong _ _ _ Hc o b E). pose proof (c_weak _ _ _ Hc o b E) as Hw.
    assert (0 <= Z.b2z (negb (destroyed b))) by (by case (destroyed b)).
    apply (counts_one [] _ [] h o b (set_versions kept) Hc E); cbn [set_versions strong weak destroyed collecting];
      try lia.
    - intros y. rewrite Hch, V5. change (decs []) with (@nil Z). rewrite occ_nil. case_decide; lia.
    - intros y. rewrite V1. change (wchildren (set_versions kept b)) with (wchildren b).
      change (wdecs []) with (@nil Z). case_decide; lia.
    - by apply (c_live _ _ _ Hc o).
    - intros y _. rewrite V3, (destroyed_alter o _ h b y E). case_decide; [|done]. subst.
      unfold destroyed_at. by rewrite E. }
  assert (shape ts [] [] h1) as Hs1.
  { apply (shape_tasks []); [done|done| |]; [intros k; by rewrite V4|].
    apply (shape_one _ _ _ _ o b); try done. split; try done; cbn.
    - intros y Hy. apply occ_pos. apply occ_pos in Hy. rewrite Hch. lia.
    - congruence.
    - congruence.
    - exact (s_actor _ _ _ _ Hs o b E). }
  destruct (run_all_ok true ts [] [] [] h1 Hc1 Hs1) as (h2 & E2 & Hc2 & Hs2). exists h2. split; [done|].
  destruct (run_tasks_later _ _ _ _ _ E2) as (L & _ & Hreg).
  split; [by split|]. split; [|by apply Hreg]. etrans; [|exact L].
  apply later_one. intros b0 E0. rewrite E in E0. injection E0 as <-. split; try done; cbn.
  - unfold held_count. cbn. rewrite Hsplit, length_app. lia.
  - intros y Hy. apply occ_pos. apply occ_pos in Hy. rewrite Hch. lia.
Qed.

Lemma trim_all_ok e ep os : forall h,
  heap_ok h -> (forall o, o ∈ os -> o ∈ registry h) ->
  exists h', trim_all e ep os h = Some h' /\ trimmed h h'.
Proof.
  induction os as [|o os IH]; intros h Hok Hin; cbn [trim_all]; [by exists h|].
  destruct Hok as [Hc Hs]. destruct (proj1 (s_reg _ _ _ _ Hs o) (Hin o ltac:(by left))) as (b & E & _).
  rewrite E. destruct (_ && negb (bool_decide _)) eqn:Ek.
  - assert (collecting b = false) as Hcb.
    { apply andb_true_iff in Ek as [[[_ Ek]%andb_true_iff _]%andb_true_iff _]. by apply negb_true_iff. }
    destruct (trim_one e o b h) as (h1 & -> & Hok1 & L1 & R1); [by split|done..|].
    destruct (IH h1 Hok1) as (h2 & -> & Hok2 & L2 & R2).
    { intros k Hk. rewrite R1. apply Hin. by right. }
    exists h2. split; [done|]. split; [done|]. split; [by etrans|congruence].
  - apply IH; [by split|]. intros k Hk. apply Hin. by right.
Qed.

(** ** The sweep *)

Definition garbage (ep : Z) (h : heap) (o : Z) : bool :=
  match objs h !! o with Some b => alive b && negb (collecting b) && negb (markEpoch b =? ep) | None => false end.
Definition reap (b : obj) : obj := set_alive false (set_collecting true b).

Lemma garbage_other ep h o f k : k <> o -> garbage ep (on_obj o f h) k = garbage ep h k.
Proof. intros Hne. unfold garbage. by rewrite on_obj_lookup, decide_False. Qed.

Lemma filter_here (f g : Z -> bool) (os : list Z) : (forall o, o ∈ os -> f o = g o) ->
  base.filter (fun o => f o = true) os = base.filter (fun o => g o = true) os.
Proof.
  induction os as [|o os IH]; intros H; [done|]. rewrite !filter_cons, (H o) by by left.
  rewrite IH; [done|]. intros k Hk. apply H. by right.
Qed.

Lemma sweep_fold ep os : forall h acc, NoDup os ->
  exists h', fold_left (sweep_one ep) os (h, acc) = (h', acc ++ base.filter (fun o => garbage ep h o = true) os) /\
    (forall o, objs h' !! o = if decide (o ∈ os) then
                                if garbage ep h o then reap <$> objs h !! o else objs h !! o
                              else objs h !! o) /\
    (roots h' = roots h /\ locals h' = locals h /\ registry h' = registry h /\ swept h' = swept h /\
     queue h' = queue h /\ finalizing h' = finalizing h /\ epoch h' = epoch h).
Proof.
  induction os as [|k os IH]; intros h acc Hnd; cbn [fold_left].
  { exists h. rewrite app_nil_r. split; [done|]. split; [|done]. intros o.
    by rewrite decide_False by apply not_elem_of_nil. }
  apply NoDup_cons in Hnd as [Hk Hnd].
  assert (sweep_one ep (h, acc) k =
          if garbage ep h k then (on_obj k reap h, acc ++ [k]) else (h, acc)) as ->.
  { unfold sweep_one, garbage. cbn [fst snd]. destruct (objs h !! k) as [b|]; [|done].
    by destruct (alive b), (collecting b), (markEpoch b =? ep). }
  rewrite filter_cons. destruct (garbage ep h k) eqn:Eg.
  - destruct (IH (on_obj k reap h) (acc ++ [k]) Hnd) as (h' & -> & Ho & Hrest). exists h'.
    rewrite decide_True by done. split; [|split; [|exact Hrest]].
    + rewrite <- app_assoc. cbn. do 3 f_equal. apply filter_here. intros j Hj.
      apply garbage_other. by intros ->.
    + intros o. rewrite Ho. destruct (decide (o = k)) as [->|Hne].
      * rewrite decide_False by done. rewrite (decide_True (P := k ∈ k :: os)) by by left.
        rewrite Eg, on_obj_lookup, decide_True by done. done.
      * rewrite garbage_other by done. rewrite on_obj_lookup, (decide_False (P := o = k)) by done.
        apply decide_ext. rewrite elem_of_cons. naive_solver.
  - destruct (IH h acc Hnd) as (h' & -> & Ho & Hrest). exists h'. rewrite decide_False by done.
    split; [done|]. split; [|exact Hrest]. intros o. rewrite Ho. destruct (decide (o = k)) as [->|Hne].
    + rewrite decide_False by done. rewrite (decide_True (P := k ∈ k :: os)) by by left. by rewrite Eg.
    + apply decide_ext. rewrite elem_of_cons. naive_solver.
Qed.

Lemma reap_same (f : obj -> obj -> Prop) ep h h' os o b' :
  (forall b, f b b) -> (forall b, collecting b = false -> f b (reap b)) ->
  (forall o, objs h' !! o = if decide (o ∈ os) then
                              if garbage ep h o then reap <$> objs h !! o else objs h !! o
                            else objs h !! o) ->
  objs h' !! o = Some b' -> exists b, objs h !! o = Some b /\ f b b'.
Proof.
  intros F1 F2 Ho E. rewrite Ho in E. unfold garbage in E. case_decide; [|by exists b'].
  destruct (objs h !! o) as [b|] eqn:Eb; [|done]. exists b. split; [done|].
  destruct (alive b && negb (collecting b) && negb (markEpoch b =? ep)) eqn:Eg; [|by injection E as <-].
  cbn in E. injection E as <-. apply F2. apply andb_true_iff in Eg as [[_ Eg]%andb_true_iff _].
  by apply negb_true_iff.
Qed.

(** What the sweep leaves: the garbage is claimed, the rest untouched. *)
Record sweeps (ep : Z) (h h' : heap) : Prop := {
  sw_objs : forall o, objs h' !! o = if garbage ep h o then reap <$> objs h !! o else objs h !! o;
  sw_roots : roots h' = roots h;
  sw_locals : locals h' = locals h;
  sw_registry : registry h' = registry h;
  sw_swept : swept h' = swept h ++ base.filter (fun o => garbage ep h o = true) (registry h);
  sw_queue : queue h' = queue h;
  sw_finalizing : finalizing h' = finalizing h;
  sw_epoch : epoch h' = epoch h;
}.

Lemma garbage_spec ts rest batch ep h o b :
  shape ts rest batch h -> objs h !! o = Some b -> retires ts = [] ->
  garbage ep h o = true <-> collecting b = false /\ marked_at ep h o = false.
Proof.
  intros Hs E Hr. unfold garbage, marked_at. rewrite E, (s_alive _ _ _ _ Hs o b E), Hr.
  rewrite bool_decide_eq_false_2 by apply not_elem_of_nil.
  destruct (collecting b), (markEpoch b =? ep); cbn; naive_solver.
Qed.

Lemma garbage_registered ep h o : heap_ok h -> garbage ep h o = true -> o ∈ registry h.
Proof.
  intros [_ Hs] Hg. assert (exists b, objs h !! o = Some b) as [b E].
  { unfold garbage in Hg. destruct (objs h !! o); [eauto|done]. }
  apply (s_reg _ _ _ _ Hs). exists b. split; [done|].
  destruct (proj1 (garbage_spec _ _ _ ep h o b Hs E eq_refl) Hg) as [Hcb _].
  by apply (shape_undead _ _ _ _ _ _ Hs E).
Qed.

Lemma sweep_spec ep h : heap_ok h ->
  exists h' us, fold_left (sweep_one ep) (registry h) (h, []) = (h', us) /\
    sweeps ep h (set_swept (swept h' ++ us) h').
Proof.
  intros Hok. pose proof Hok as [_ Hs].
  destruct (sweep_fold ep (registry h) h [] (s_nodup_reg _ _ _ _ Hs)) as (h' & -> & Ho & R1 & R2 & R3 & R4 & R5 & R6 & R7).
  eexists h', _. split; [done|]. split; cbn; rewrite ?R4; try done.
  intros o. rewrite Ho. destruct (garbage ep h o) eqn:Eg; [|by case_decide].
  by rewrite decide_True by by eapply garbage_registered.
Qed.

Lemma sweeps_back ep h h' o b' : sweeps ep h h' -> objs h' !! o = Some b' ->
  exists b, objs h !! o = Some b /\ b' = if garbage ep h o then reap b else b.
Proof.
  intros Hw. rewrite (sw_objs _ _ _ Hw). destruct (garbage ep h o), (objs h !! o) as [b|]; cbn; naive_solver.
Qed.

Lemma sweeps_at (f : obj -> bool) ep h h' o : sweeps ep h h' -> (forall b, f (reap b) = f b) ->
  (match objs h' !! o with Some b => f b | None => false end) =
  (match objs h !! o with Some b => f b | None => false end).
Proof. intros Hw Hf. rewrite (sw_objs _ _ _ Hw). by destruct (garbage ep h o), (objs h !! o); cbn. Qed.

Lemma sweeps_fmap {A} (f : obj -> A) ep h h' o : sweeps ep h h' -> (forall b, f (reap b) = f b) ->
  f <$> objs h' !! o = f <$> objs h !! o.
Proof. intros Hw Hf. rewrite (sw_objs _ _ _ Hw). destruct (garbage ep h o), (objs h !! o); cbn; by rewrite ?Hf. Qed.

Lemma sweeps_refs ep h h' o : sweeps ep h h' -> sref h' o = sref h o /\ wref h' o = wref h o.
Proof.
  intros Hw. unfold sref, wref, named. rewrite (sw_roots _ _ _ Hw), (sw_locals _ _ _ Hw).
  split; f_equal; apply msum_same; intros k; by eapply sweeps_fmap.
Qed.

Lemma sweep_counts ep h h' : heap_ok h -> sweeps ep h h' -> counts [] [] h'.
Proof.
  intros [Hc _] Hw.
  assert (forall o b', objs h' !! o = Some b' -> exists b, objs h !! o = Some b /\ strong b' = strong b /\
    weak b' = weak b /\ destroyed b' = destroyed b /\ (collecting b' = false -> collecting b = false)) as Hb.
  { intros o b' (b & E & ->)%(sweeps_back ep h h' o b' Hw). exists b. by destruct (garbage ep h o). }
  split.
  - intros o b' (b & E & -> & _)%Hb. destruct (sweeps_refs ep h h' o Hw) as [-> _]. exact (c_strong _ _ _ Hc o b E).
  - intros o b' (b & E & _ & -> & -> & _)%Hb. destruct (sweeps_refs ep h h' o Hw) as [_ ->]. exact (c_weak _ _ _ Hc o b E).
  - intros o E. destruct (sweeps_refs ep h h' o Hw) as [-> ->]. apply (c_dom _ _ _ Hc).
    rewrite (sw_objs _ _ _ Hw) in E. destruct (garbage ep h o); [|done]. by apply fmap_None in E.
  - intros o b' (b & E & -> & -> & _)%Hb. exact (c_range _ _ _ Hc o b E).
  - intros o b' (b & E & -> & _ & _ & H)%Hb Hcb. exact (c_live _ _ _ Hc o b E (H Hcb)).
  - intros o Ho. destruct (sweeps_refs ep h h' o Hw) as [-> _]. rewrite (sw_finalizing _ _ _ Hw).
    unfold destroyed_at. rewrite (sweeps_at destroyed ep h h' o Hw) by done. by apply (c_gone _ _ _ Hc).
Qed.

Lemma sweep_shape ep h h' :
  heap_ok h -> mark_closed ep h [] -> (forall y, y ∈ named h -> marked_at ep h y = true) ->
  sweeps ep h h' -> shape [] [] [] h'.
Proof.
  intros Hok Hcl Hnm Hw. pose proof Hok as [_ Hs].
  set (us := base.filter (fun o => garbage ep h o = true) (registry h)).
  assert (forall o, o ∈ us <-> garbage ep h o = true) as Hus.
  { intros o. unfold us. rewrite list_elem_of_filter. split; [by intros [? _]|]. intros Hg.
    split; [done|]. by eapply garbage_registered. }
  assert (claimed [] [] h' ≡ₚ us ++ claimed [] [] h) as Hperm.
  { unfold claimed. rewrite (sw_swept _ _ _ Hw), (sw_queue _ _ _ Hw), (sw_finalizing _ _ _ Hw). fold us.
    cbn. solve_Permutation. }
  assert (forall o b', objs h' !! o = Some b' -> exists b, objs h !! o = Some b /\
    (b' = b /\ o ∉ us \/ b' = reap b /\ o ∈ us /\ collecting b = false)) as Hb.
  { intros o b' (b & E & ->)%(sweeps_back ep h h' o b' Hw). exists b. split; [done|].
    destruct (garbage ep h o) eqn:Eg; [right|left; split; [done|]; rewrite Hus; congruence].
    split; [done|]. split; [by apply Hus|]. by apply (garbage_spec _ _ _ ep h o b Hs E). }
  assert (forall o, collecting_at h' o = collecting_at h o || bool_decide (o ∈ us)) as Hca.
  { intros o. unfold collecting_at. rewrite (sw_objs _ _ _ Hw). rewrite (bool_decide_ext _ _ (Hus o)).
    unfold garbage. destruct (objs h !! o) as [b|]; [|done].
    destruct (alive b && negb (collecting b) && negb (markEpoch b =? ep)); cbn; [by rewrite orb_true_r|by rewrite orb_false_r]. }
  assert (forall o b', objs h' !! o = Some b' -> exists b, objs h !! o = Some b /\ children b' = children b) as Hch.
  { intros o b' (b & E & [[-> _]|[-> _]])%Hb; by exists b. }
  split.
  - intros x b' y Ex Hy Hcy. destruct (Hb x b' Ex) as (b & E & [[-> Hx]|[-> _]]); [|done].
    rewrite Hca in Hcy. apply orb_true_iff in Hcy as [Hcy|Hcy%bool_decide_eq_true];
      [exact (s_closed _ _ _ _ Hs x b y E Hy Hcy)|].
    apply not_false_is_true. intros Hcx. apply Hx, Hus, (garbage_spec _ _ _ ep h x b Hs E); [done|].
    split; [done|]. apply not_true_is_false. intros Hm. apply Hus in Hcy.
    destruct (heap_edges_in h Hok x y) as [c Ec]; [by exists b|].
    destruct (proj1 (garbage_spec _ _ _ ep h y c Hs Ec eq_refl) Hcy) as [Hc1 Hc2].
    destruct (Hcl x y Hm) as [H|H%elem_of_nil]; [by exists b| |congruence|done].
    unfold collecting_at. by rewrite Ec.
  - intros y Hy. unfold named in Hy. rewrite (sw_roots _ _ _ Hw), (sw_locals _ _ _ Hw) in Hy. fold (named h) in Hy.
    rewrite Hca, (s_named _ _ _ _ Hs y Hy). cbn. apply bool_decide_eq_false_2. rewrite Hus. intros Hg.
    specialize (Hnm y Hy). unfold garbage, marked_at in *. destruct (objs h !! y) as [b|]; [|done].
    apply andb_true_iff in Hnm as [_ Hm]. by rewrite Hm, andb_false_r in Hg.
  - intros o b' (b & E & [[-> _]|(-> & _ & Hcb)])%Hb; [exact (s_drop _ _ _ _ Hs o b E)|].
    destruct (shape_undead _ _ _ _ _ _ Hs E Hcb). cbn. congruence.
  - intros o b' (b & E & [[-> _]|(-> & _ & Hcb)])%Hb; exact (s_dead _ _ _ _ Hs o b E).
  - intros o b' (b & E & [[-> _]|(-> & _ & Hcb)])%Hb; exact (s_actor _ _ _ _ Hs o b E).
  - intros x b' y _ _ Hy. by apply elem_of_nil in Hy.
  - rewrite Hperm. apply NoDup_app. split; [unfold us; apply NoDup_filter, Hs|]. split; [|apply Hs].
    intros o Ho Hin. destruct (s_dom _ _ _ _ Hs o Hin) as [b E]. apply Hus in Ho.
    destruct (proj1 (garbage_spec _ _ _ ep h o b Hs E eq_refl) Ho) as [Hcb _].
    by apply (shape_undead _ _ _ _ _ _ Hs E Hcb).
  - intros o b' (b & E & [[-> Hno]|(-> & Hin & Hcb)])%Hb; rewrite Hperm, elem_of_app.
    + rewrite (s_class _ _ _ _ Hs o b E). naive_solver.
    + destruct (shape_undead _ _ _ _ _ _ Hs E Hcb) as (_ & Hd & _). cbn. naive_solver.
  - intros o Ho. rewrite Hperm in Ho. rewrite (sw_objs _ _ _ Hw).
    assert (is_Some (objs h !! o)) as [b ->]; [|by destruct (garbage ep h o)].
    apply elem_of_app in Ho as [Ho|Ho]; [|by apply (s_dom _ _ _ _ Hs)]. apply Hus in Ho. unfold garbage in Ho.
    by destruct (objs h !! o).
  - intros o b' (b & E & [[-> _]|(-> & _ & Hcb)])%Hb; [exact (s_alive _ _ _ _ Hs o b E)|done].
  - intros x b' y (b & E & ->)%Hch. rewrite (sw_queue _ _ _ Hw). exact (s_queue _ _ _ _ Hs x b y E).
  - intros x b' y _ _. apply not_elem_of_nil.
  - intros o b' (b & E & [[-> _]|(-> & _ & Hcb)])%Hb; rewrite (sw_finalizing _ _ _ Hw); exact (s_ends _ _ _ _ Hs o b E).
  - intros o. rewrite (sw_finalizing _ _ _ Hw). unfold is_actor. rewrite (sweeps_at isActor ep h h' o Hw) by done.
    apply (s_fin _ _ _ _ Hs).
  - intros o Ho. by apply elem_of_nil in Ho.
  - intros o b' (b & E & [[-> _]|(-> & _ & Hcb)])%Hb; rewrite (sw_epoch _ _ _ Hw); exact (s_marks _ _ _ _ Hs o b E).
  - rewrite (sw_epoch _ _ _ Hw). apply Hs.
  - rewrite (sw_registry _ _ _ Hw). apply Hs.
  - intros o. rewrite (sw_registry _ _ _ Hw), (s_reg _ _ _ _ Hs). split.
    + intros (b & E & Hd). rewrite (sw_objs _ _ _ Hw), E. destruct (garbage ep h o); eauto.
    + intros (b' & (b & E & [[-> _]|(-> & _ & _)])%Hb & Hd); eauto.
Qed.

(** ** A collection *)

Lemma rtc_weaken (r s : Z -> Z -> Prop) x y : (forall x y, r x y -> s x y) -> rtc r x y -> rtc s x y.
Proof. intros H. induction 1 as [|x y z Hxy _ IH]; [done|]. eapply rtc_l; [by apply H|done]. Qed.

Lemma recolored_edge h h' x y : recolored h h' -> edge h' x y -> edge h x y.
Proof. intros Hr (b' & E & Hy). destruct (rc_back h h' x b' Hr E) as (b & m & E0 & -> & _). by exists b. Qed.

Lemma named_in h y : heap_ok h -> y ∈ named h -> is_Some (objs h !! y).
Proof.
  intros [Hc _] Hy. apply not_eq_None_Some. intros Hn. pose proof (c_dom _ _ _ Hc y Hn).
  pose proof (sref_named h y Hy). lia.
Qed.

Lemma strong_named h y : y ∈ named h <-> y ∈ strong_of (roots h) \/ y ∈ strong_of (locals h).
Proof. unfold named. by rewrite strong_of_app, elem_of_app. Qed.

Lemma conservative_in scan h o : o ∈ conservative scan h <-> o ∈ scan /\ is_alive h o = true.
Proof. unfold conservative. rewrite list_elem_of_filter. naive_solver. Qed.

(** A claim is never taken back, and a block that is not claimed holds what it
    held. *)
Definition intact (h h' : heap) : Prop :=
  forall o b', objs h' !! o = Some b' -> exists b, objs h !! o = Some b /\
    (collecting b' = false -> collecting b = false /\ members b' = members b /\ natives b' = natives b).

#[global] Instance intact_trans : Transitive intact.
Proof.
  intros h1 h2 h3 H12 H23 o b3 E3. destruct (H23 o b3 E3) as (b2 & E2 & K2).
  destruct (H12 o b2 E2) as (b1 & E1 & K1). exists b1. split; [done|]. intros Hc.
  destruct (K2 Hc) as (Hc2 & -> & ->). by destruct (K1 Hc2) as (? & -> & ->).
Qed.

Lemma grown_intact h h' : heap_ok h' ->
  (forall o b', objs h' !! o = Some b' -> exists b, objs h !! o = Some b /\ grown b b') -> intact h h'.
Proof.
  intros [_ Hs] H o b' E'. destruct (H o b' E') as (b & E & G). exists b. split; [done|]. intros Hc.
  destruct (shape_undead _ _ _ _ _ _ Hs E' Hc) as (Hd & Hx & _).
  split; [|by apply (g_intact _ _ G)]. apply not_true_is_false. intros H1%(g_collecting _ _ G). congruence.
Qed.

Lemma recolored_intact h h' : recolored h h' -> intact h h'.
Proof. intros Hr o b' E. destruct (rc_back h h' o b' Hr E) as (b & m & E0 & -> & _). by exists b. Qed.

Lemma sweeps_intact ep h h' : sweeps ep h h' -> intact h h'.
Proof.
  intros Hw o b' (b & E & ->)%(sweeps_back ep h h' o b' Hw). exists b. split; [done|]. by destruct (garbage ep h o).
Qed.

(** What a collection does. *)
Record collected (scan : list Z) (h h' : heap) : Prop := {
  cl_ok : heap_ok h';
  cl_roots : roots h' = roots h;
  cl_locals : locals h' = locals h;
  cl_registry : registry h' = registry h;
  cl_finalizing : finalizing h' = finalizing h;
  cl_only : forall o, is_Some (objs h' !! o) -> collecting_at h' o = false ->
    exists r, (r ∈ strong_of (roots h) \/ r ∈ scan) /\ rtc (edge h) r o;
  cl_scan : forall o, o ∈ scan -> o ∈ swept h' -> o ∈ swept h;
  cl_intact : intact h h';
  cl_refs : (refs h' <= refs h)%nat;
}.

Lemma same_refs h h' : roots h' = roots h -> locals h' = locals h ->
  (forall o b', objs h' !! o = Some b' -> exists b, objs h !! o = Some b /\ (held_count b' <= held_count b)%nat) ->
  (refs h' <= refs h)%nat.
Proof.
  intros Er El H. unfold refs. rewrite Er, El. pose proof (msum_mono held_count (objs h) (objs h') H). lia.
Qed.

Lemma next_epoch_closed h : heap_ok h -> mark_closed (epoch (next_epoch h)) (next_epoch h) [].
Proof.
  intros Hok x y Hx _ _. destruct (next_epoch_ok h Hok) as [Hr Hne].
  pose proof (recolored_ok h _ Hr Hok) as [_ Hs]. unfold marked_at in Hx.
  destruct (objs (next_epoch h) !! x) as [b|] eqn:E; [|done].
  apply andb_true_iff in Hx as [Hc%negb_true_iff Hm%Z.eqb_eq].
  by destruct (Hne x b E) as []; [by apply (shape_undead _ _ _ _ _ _ Hs E Hc)|].
Qed.

Lemma recolored_refs h h' : recolored h h' -> (refs h' <= refs h)%nat.
Proof.
  intros Hr. apply same_refs; [apply Hr..|]. intros o b' E.
  destruct (rc_back h h' o b' Hr E) as (b & m & E0 & -> & _). by exists b.
Qed.

Lemma is_alive_remark ep h h' o : remark ep h h' -> is_alive h' o = is_alive h o.
Proof.
  intros Hm. pose proof (rm_objs _ _ _ Hm o) as H. unfold is_alive.
  destruct (objs h !! o), (objs h' !! o); try done. by destruct H as [-> | ->].
Qed.

Lemma remark_ok ep h h' : heap_ok h -> epoch h = ep -> remark ep h h' -> heap_ok h' /\ recolored h h'.
Proof.
  intros Hok <- Hm. pose proof (remark_recolored h h' Hok Hm) as Hr. split; [by eapply recolored_ok|done].
Qed.

(** The marks of a heap whose roots and scan hits are marked. *)
Lemma collect_marks minEpoch scan h :
  heap_ok h -> (forall o, o ∈ strong_of (locals h) -> o ∈ scan) ->
  let h0 := next_epoch h in
  let ep := epoch h0 in
  exists h1 h2 h3,
    mark_from ep (strong_of (roots h0)) h0 = Some h1 /\ trim_all minEpoch ep (registry h1) h1 = Some h2 /\
    mark_from ep (conservative scan h2) h2 = Some h3 /\
    recolored h h0 /\ heap_ok h1 /\ marks_from ep (strong_of (roots h)) h0 h1 /\ trimmed h1 h2 /\
    heap_ok h3 /\ marks_from ep (conservative scan h2) h2 h3 /\
    (forall y, y ∈ named h3 -> marked_at ep h3 y = true) /\
    (forall o, o ∈ scan -> garbage ep h3 o = false).
Proof.
  intros Hok Hscan h0 ep. destruct (next_epoch_ok h Hok) as [Hr0 _].
  pose proof (recolored_ok h _ Hr0 Hok) as Hok0. fold h0 in Hr0, Hok0.
  destruct (mark_from_ok ep (strong_of (roots h0)) h0) as (h1 & E1 & M1 & T1).
  { by apply heap_edges_in. }
  { intros o Ho. apply named_in; [done|]. apply strong_named. by left. }
  { by apply next_epoch_closed. }
  rewrite (rc_roots _ _ Hr0) in M1, T1.
  destruct (remark_ok ep h0 h1 Hok0 eq_refl (mf_remark _ _ _ _ M1)) as [Hok1 Hr1].
  destruct (trim_all_ok minEpoch ep (registry h1) h1 Hok1) as (h2 & E2 & Ht); [done|].
  pose proof Ht as (Hok2 & L2 & R2).
  assert (forall o, o ∈ conservative scan h2 -> is_Some (objs h2 !! o)) as Hcs.
  { intros o [_ Ho]%conservative_in. unfold is_alive in Ho. by destruct (objs h2 !! o). }
  destruct (mark_from_ok ep (conservative scan h2) h2) as (h3 & E3 & M3 & T3).
  { by apply heap_edges_in. }
  { done. }
  { eapply later_closed; [done..|]. apply M1. }
  assert (epoch h2 = ep) as Hep.
  { rewrite (l_epoch _ _ L2). apply (rm_epoch _ _ _ (mf_remark _ _ _ _ M1)). }
  destruct (remark_ok ep h2 h3 Hok2 Hep (mf_remark _ _ _ _ M3)) as [Hok3 Hr3].
  assert (roots h3 = roots h /\ locals h3 = locals h) as [Er El].
  { rewrite (rc_roots _ _ Hr3), (rc_locals _ _ Hr3), (l_roots _ _ L2), (l_locals _ _ L2).
    by rewrite (rc_roots _ _ Hr1), (rc_locals _ _ Hr1), (rc_roots _ _ Hr0), (rc_locals _ _ Hr0). }
  exists h1, h2, h3. rewrite (rc_roots _ _ Hr0) in E1 |- *.
  split_and!; try done.
  - intros y Hy. pose proof (named_in h3 y Hok3 Hy) as Hdy. destruct Hok3 as [_ Hs3].
    pose proof (s_named _ _ _ _ Hs3 y Hy) as Hcy.
    assert (is_Some (objs h2 !! y)) as Hd2 by (by apply (remark_dom _ _ _ y (mf_remark _ _ _ _ M3))).
    rewrite (remark_collecting _ _ _ y (mf_remark _ _ _ _ M3)) in Hcy.
    apply strong_named in Hy as [Hy|Hy].
    + rewrite Er in Hy. apply (mf_keeps _ _ _ _ M3). rewrite (later_marked ep h1 h2 y L2 Hd2 Hcy).
      apply (T1 y Hy). rewrite <- (remark_collecting ep h0 h1 y (mf_remark _ _ _ _ M1)).
      by eapply later_collecting.
    + rewrite El in Hy. apply T3; [|done]. apply conservative_in. split; [by apply Hscan|].
      destruct Hd2 as [b Eb]. unfold is_alive, collecting_at in *. rewrite Eb in *.
      destruct Hok2 as [_ Hs2]. by rewrite (s_alive _ _ _ _ Hs2 y b Eb), Hcy.
  - intros o Ho. apply not_true_is_false. intros Hg.
    assert (exists b, objs h3 !! o = Some b) as [b E].
    { unfold garbage in Hg. destruct (objs h3 !! o); [eauto|done]. }
    destruct Hok3 as [_ Hs3]. destruct (proj1 (garbage_spec _ _ _ ep h3 o b Hs3 E eq_refl) Hg) as [Hcb Hm].
    rewrite T3 in Hm; [done| |].
    + apply conservative_in. split; [done|]. rewrite <- (is_alive_remark _ _ _ _ (mf_remark _ _ _ _ M3)).
      unfold is_alive. by rewrite E, (s_alive _ _ _ _ Hs3 o b E), Hcb.
    + rewrite <- (remark_collecting _ _ _ o (mf_remark _ _ _ _ M3)). unfold collecting_at. by rewrite E.
Qed.

Lemma performCollection_ok minEpoch scan h :
  heap_ok h -> (forall o, o ∈ strong_of (locals h) -> o ∈ scan) ->
  exists h', performCollection minEpoch scan h = Some h' /\ collected scan h h'.
Proof.
  intros Hok Hscan.
  destruct (collect_marks minEpoch scan h Hok Hscan) as (h1 & h2 & h3 & E1 & E2 & E3 & Hr0 & Hok1 & M1 & (Hok2 & L2 & R2) & Hok3 & M3 & Hnm & Hsc).
  set (h0 := next_epoch h) in *. set (ep := epoch h0) in *.
  destruct (sweep_spec ep h3 Hok3) as (h4 & us & E4 & Hw). set (h5 := set_swept _ h4) in *.
  destruct (remark_ok ep h2 h3 Hok2) as [_ Hr3]; [|apply M3|].
  { rewrite (l_epoch _ _ L2). apply (rm_epoch _ _ _ (mf_remark _ _ _ _ M1)). }
  pose proof (mf_remark _ _ _ _ M1) as K1. pose proof (mf_remark _ _ _ _ M3) as K3.
  assert (forall x y, edge h2 x y -> edge h x y) as Hedge.
  { intros x y Hxy%(later_edge h1 h2 x y L2)%(remark_edge ep h0 h1 x y K1). by eapply recolored_edge. }
  exists h5. split.
  { unfold performCollection. fold h0 ep. by rewrite E1, E2, E3, E4. }
  split.
  - split; [by eapply sweep_counts|]. eapply sweep_shape; try done. apply M3.
  - by rewrite (sw_roots _ _ _ Hw), (rc_roots _ _ Hr3), (l_roots _ _ L2), (rm_roots _ _ _ K1), (rc_roots _ _ Hr0).
  - by rewrite (sw_locals _ _ _ Hw), (rc_locals _ _ Hr3), (l_locals _ _ L2), (rm_locals _ _ _ K1), (rc_locals _ _ Hr0).
  - by rewrite (sw_registry _ _ _ Hw), (rc_registry _ _ Hr3), R2, (rm_registry _ _ _ K1), (rc_registry _ _ Hr0).
  - by rewrite (sw_finalizing _ _ _ Hw), (rc_finalizing _ _ Hr3), (l_finalizing _ _ L2), (rm_finalizing _ _ _ K1), (rc_finalizing _ _ Hr0).
  - intros o [b' E] Hc. destruct (sweeps_back ep h3 h5 o b' Hw E) as (b & E0 & Hb).
    unfold collecting_at in Hc. rewrite E in Hc.
    destruct (garbage ep h3 o) eqn:Eg; subst b'; [done|].
    assert (marked_at ep h3 o = true) as Hm.
    { destruct Hok3 as [_ Hs3]. apply not_false_is_true. intros Hm.
      by rewrite (proj2 (garbage_spec _ _ _ ep h3 o b Hs3 E0 eq_refl) (conj Hc Hm)) in Eg. }
    destruct (mf_only _ _ _ _ M3 o Hm) as [Hm2|(r & Hr & Hp)].
    + rewrite (later_marked ep h1 h2 o L2) in Hm2; [| |by eapply marked_collecting].
      2: { unfold marked_at in Hm2. by destruct (objs h2 !! o). }
      destruct (mf_only _ _ _ _ M1 o Hm2) as [Hm0|(r & Hr & Hp)].
      * unfold marked_at in Hm0. destruct (objs h0 !! o) as [c|] eqn:Ec; [|done].
        apply andb_true_iff in Hm0 as [Hc0%negb_true_iff Hm0%Z.eqb_eq].
        destruct (next_epoch_ok h Hok) as [_ Hne]. pose proof (recolored_ok h _ Hr0 Hok) as [_ Hs0].
        by destruct (Hne o c Ec) as []; [by apply (shape_undead _ _ _ _ _ _ Hs0 Ec Hc0)|].
      * exists r. split; [by left|]. eapply rtc_weaken; [|exact Hp]. intros x y. by apply recolored_edge.
    + exists r. split; [right; by apply conservative_in in Hr as [? _]|]. by eapply rtc_weaken.
  - intros o Ho Hin. rewrite (sw_swept _ _ _ Hw), elem_of_app, (rc_swept _ _ Hr3), (l_swept _ _ L2),
      (rm_swept _ _ _ K1), (rc_swept _ _ Hr0), list_elem_of_filter in Hin.
    destruct Hin as [Hin|[Hin _]]; [done|]. by rewrite Hsc in Hin.
  - etrans; [by apply recolored_intact|]. etrans; [apply (recolored_intact h0 h1)|].
    { by destruct (remark_ok ep h0 h1 (recolored_ok _ _ Hr0 Hok) eq_refl K1). }
    etrans; [apply (grown_intact h1 h2 Hok2), L2|]. etrans; [by apply recolored_intact|by eapply sweeps_intact].
  - assert (refs h5 <= refs h3)%nat as H5.
    { apply same_refs; [apply Hw..|]. intros o b' (b & E & ->)%(sweeps_back ep h3 h5 o b' Hw). exists b.
      by destruct (garbage ep h3 o). }
    pose proof (recolored_refs _ _ Hr3). pose proof (later_refs _ _ L2). pose proof (recolored_refs _ _ Hr0).
    assert (refs h1 <= refs h0)%nat.
    { destruct (remark_ok ep h0 h1 (recolored_ok _ _ Hr0 Hok) eq_refl K1) as [_ Hr1]. by apply recolored_refs. }
    lia.
Qed.

End GcCollect.
