(* ===== verification/GcProofs.v ===== *)
(** * GcProofs: the heap's operations and what the collector guarantees

    Every operation keeps the heap's invariant and has a result; so no object that
    something alive refers to is claimed, and a collection claims what nothing
    alive refers to. *)

From S2P Require Import Prelude GcHeap GcInvariant GcCollect.
From stdpp Require Import numbers pretty.

Module GcProofs.

Import GcHeap GcInvariant GcCollect.
Local Open Scope Z_scope.

(** ** References taken before their counts *)

(** The references [vs] are in place, their counts not yet taken. *)
Record owed (vs : list value) (h : heap) : Prop := {
  o_strong : forall o b, objs h !! o = Some b ->
    strong b + Z.of_nat (occ o (strong_of vs)) = Z.of_nat (sref h o);
  o_weak : forall o b, objs h !! o = Some b ->
    weak b + Z.of_nat (occ o (weak_of vs)) = Z.of_nat (wref h o) + Z.b2z (negb (destroyed b));
  o_dom : forall o, objs h !! o = None -> (sref h o + wref h o = 0)%nat;
  o_pos : forall o b, objs h !! o = Some b -> 0 <= strong b /\ 0 <= weak b;
  o_owed : forall v, v ∈ vs -> match v with VPlain => True | VStrong o | VWeak o => is_Some (objs h !! o) end;
  o_refs : Z.of_nat (refs h) < 2 ^ 31 - 4;
  o_live : forall o b, objs h !! o = Some b -> collecting b = false -> (1 <= sref h o)%nat;
  o_gone : forall o, destroyed_at h o = true \/ o ∈ finalizing h -> sref h o = 0%nat;
}.

Lemma owed_nil h : owed [] h -> counts [] [] h.
Proof.
  intros Ho. assert (forall o, (sref h o <= refs h)%nat /\ (wref h o <= refs h)%nat) as Hle
    by (intros o; split; [apply sref_le|apply wref_le]).
  pose proof (o_refs _ _ Ho). split; change (decs []) with (@nil Z); change (wdecs []) with (@nil Z).
  - intros o b E. pose proof (o_strong _ _ Ho o b E) as H1. rewrite occ_no_strong in H1. rewrite occ_nil. lia.
  - intros o b E. pose proof (o_weak _ _ Ho o b E) as H1. rewrite occ_no_weak in H1. rewrite !occ_nil. lia.
  - intros o E. pose proof (o_dom _ _ Ho o E). rewrite !occ_nil. lia.
  - intros o b E. pose proof (o_strong _ _ Ho o b E) as H1. rewrite occ_no_strong in H1.
    pose proof (o_weak _ _ Ho o b E) as H2. rewrite occ_no_weak in H2. destruct (Hle o).
    assert (Z.b2z (negb (destroyed b)) <= 1) by (by case (destroyed b)). lia.
  - intros o b E Hc. pose proof (o_live _ _ Ho o b E Hc).
    pose proof (o_strong _ _ Ho o b E) as H1. rewrite occ_no_strong in H1. lia.
  - intros o _ Hd. rewrite occ_nil. rewrite (o_gone _ _ Ho o); [done|].
    destruct Hd as [|[|Hd]]; [by left|by right|by apply elem_of_nil in Hd].
Qed.

Lemma strong_cons v vs y : occ y (strong_of (v :: vs)) = (occ y (strong_of [v]) + occ y (strong_of vs))%nat.
Proof. by rewrite <- occ_app, <- strong_of_app. Qed.
Lemma weak_cons v vs y : occ y (weak_of (v :: vs)) = (occ y (weak_of [v]) + occ y (weak_of vs))%nat.
Proof. by rewrite <- occ_app, <- weak_of_app. Qed.

(** Taking a count changes nothing else. *)
Lemma owed_count o f d e v vs h b :
  owed (v :: vs) h -> objs h !! o = Some b -> same_state b (f b) ->
  (forall y, occ y (strong_of [v]) = if decide (y = o) then d else 0)%nat ->
  (forall y, occ y (weak_of [v]) = if decide (y = o) then e else 0)%nat ->
  strong (f b) = strong b + Z.of_nat d -> weak (f b) = weak b + Z.of_nat e ->
  owed vs (on_obj o f h).
Proof.
  intros Ho E Hss Hd He Es Ew.
  assert (forall y, sref (on_obj o f h) y = sref h y) as Hsr.
  { intros y. apply sref_same. intros b0 E0. rewrite E in E0. injection E0 as <-. by apply same_children. }
  assert (forall y, wref (on_obj o f h) y = wref h y) as Hwr.
  { intros y. apply wref_same. intros b0 E0. rewrite E in E0. injection E0 as <-. by apply same_wchildren. }
  split.
  - intros k b' Hk. rewrite Hsr. destruct (on_obj_cases o f h b k b' E Hk) as [[-> ->]|[Hne Hk']].
    + pose proof (o_strong _ _ Ho o b E) as H. rewrite strong_cons, Hd, decide_True in H by done. lia.
    + pose proof (o_strong _ _ Ho k b' Hk') as H. rewrite strong_cons, Hd, decide_False in H by done. lia.
  - intros k b' Hk. rewrite Hwr. destruct (on_obj_cases o f h b k b' E Hk) as [[-> ->]|[Hne Hk']].
    + pose proof (o_weak _ _ Ho o b E) as H. rewrite weak_cons, He, decide_True in H by done.
      rewrite (ss_destroyed _ _ Hss). lia.
    + pose proof (o_weak _ _ Ho k b' Hk') as H. rewrite weak_cons, He, decide_False in H by done. lia.
  - intros k Hk%on_obj_None. rewrite Hsr, Hwr. by apply (o_dom _ _ Ho).
  - intros k b' Hk. destruct (on_obj_cases o f h b k b' E Hk) as [[-> ->]|[Hne Hk']];
      [pose proof (o_pos _ _ Ho o b E); lia|by eapply (o_pos _ _ Ho)].
  - intros w Hw. pose proof (o_owed _ _ Ho w ltac:(by right)). destruct w; rewrite ?on_obj_is_Some; done.
  - assert (refs (on_obj o f h) = refs h) as ->; [|apply Ho]. unfold refs. cbn.
    pose proof (msum_alter held_count f (objs h) o b E) as H. cbn in H.
    assert (held_count (f b) = held_count b).
    { unfold held_count. by rewrite (ss_members _ _ Hss), (ss_natives _ _ Hss), (ss_versions _ _ Hss). }
    lia.
  - intros k b' Hk Hc. rewrite Hsr. destruct (on_obj_cases o f h b k b' E Hk) as [[-> ->]|[Hne Hk']];
      [apply (o_live _ _ Ho o b E); by rewrite <- (ss_collecting _ _ Hss)|by apply (o_live _ _ Ho k b')].
  - intros k. rewrite Hsr. unfold destroyed_at. rewrite on_obj_lookup. intros Hg. apply (o_gone _ _ Ho).
    unfold destroyed_at. destruct Hg as [Hg|Hg]; [left|by right]. case_decide; [|done]. subst.
    rewrite E in *. cbn in Hg. by rewrite <- (ss_destroyed _ _ Hss).
Qed.

Lemma acquire_ok v vs h :
  owed (v :: vs) h -> shape [] [] [] h ->
  exists h', acquire v h = Some h' /\ owed vs h' /\ shape [] [] [] h'.
Proof.
  intros Ho Hs. pose proof (o_owed _ _ Ho v ltac:(by left)) as Hd. pose proof (o_refs _ _ Ho).
  destruct v as [|o|o]; cbn [acquire].
  - exists h. split; [done|]. split; [|done]. destruct Ho. split; try done.
    intros w Hw. apply o_owed0. by right.
  - destruct Hd as [b E]. rewrite E. eexists. split; [done|].
    assert (wrapS 32 (strong b + 1) = strong b + 1) as Ew.
    { pose proof (o_pos _ _ Ho o b E). pose proof (o_strong _ _ Ho o b E) as H1.
      change (strong_of (VStrong o :: vs)) with (o :: strong_of vs) in H1. rewrite occ_cons, decide_True in H1 by done.
      pose proof (sref_le h o). apply wrapS_id; [lia|]. unfold inS. lia. }
    split; [|by apply (shape_count _ _ _ _ o incRef b)].
    apply (owed_count o incRef 1 0 (VStrong o) vs h b); try done; cbn [incRef set_strong strong weak]; try lia.
    + intros y. change (strong_of [VStrong o]) with [o]. by rewrite occ_cons, occ_nil, Nat.add_0_r.
    + intros y. change (weak_of [VStrong o]) with (@nil Z). rewrite occ_nil. by case_decide.
  - destruct Hd as [b E]. rewrite E. eexists. split; [done|].
    assert (wrapS 32 (weak b + 1) = weak b + 1) as Ew.
    { pose proof (o_pos _ _ Ho o b E). pose proof (o_weak _ _ Ho o b E) as H1.
      change (weak_of (VWeak o :: vs)) with (o :: weak_of vs) in H1. rewrite occ_cons, decide_True in H1 by done.
      pose proof (wref_le h o). assert (Z.b2z (negb (destroyed b)) <= 1) by (by case (destroyed b)).
      apply wrapS_id; [lia|]. unfold inS. lia. }
    split; [|by apply (shape_count _ _ _ _ o incWeak b)].
    apply (owed_count o incWeak 0 1 (VWeak o) vs h b); try done; cbn [incWeak set_weak strong weak]; try lia.
    + intros y. change (strong_of [VWeak o]) with (@nil Z). rewrite occ_nil. by case_decide.
    + intros y. change (weak_of [VWeak o]) with [o]. by rewrite occ_cons, occ_nil, Nat.add_0_r.
Qed.

Lemma acquires_ok vs : forall h,
  owed vs h -> shape [] [] [] h -> exists h', acquires vs h = Some h' /\ heap_ok h'.
Proof.
  induction vs as [|v vs IH]; intros h Ho Hs.
  { exists h. split; [done|]. split; [by apply owed_nil|done]. }
  destruct (acquire_ok v vs h Ho Hs) as (h1 & E1 & Ho1 & Hs1).
  destruct (IH h1 Ho1 Hs1) as (h2 & E2 & Hok). exists h2. split; [|done].
  unfold acquires. cbn [fold_left]. by rewrite E1.
Qed.

(** ** References added to live objects *)

(** A value whose target may be referred to. *)
Definition live_value (h : heap) (v : value) : Prop :=
  match v with
  | VPlain => True
  | VStrong o => is_Some (objs h !! o) /\ collecting_at h o = false
  | VWeak o => is_Some (objs h !! o)
  end.

(** A block before and after its holder gained references: a claimed one holds
    what it held. *)
Record gains (b b' : obj) : Prop := {
  gn_strong : strong b' = strong b;
  gn_weak : weak b' = weak b;
  gn_alive : alive b' = alive b;
  gn_collecting : collecting b' = collecting b;
  gn_drop : dropClaimed b' = dropClaimed b;
  gn_mark : markEpoch b' = markEpoch b;
  gn_actor : isActor b' = isActor b;
  gn_destroyed : destroyed b' = destroyed b;
  gn_natives : isActor b = true -> natives b = [] -> natives b' = [];
  gn_claimed : collecting b = true -> members b' = members b /\ natives b' = natives b /\ versionChain b' = versionChain b;
}.

Definition fresh (b : obj) : Prop :=
  strong b = 0 /\ weak b = 1 /\ alive b = true /\ collecting b = false /\ dropClaimed b = false /\
  markEpoch b = 0 /\ destroyed b = false /\ natives b = [].

(** A heap whose live objects, roots and locals gained the references [vs], the
    blocks [news] being new. *)
Record grows (news : list Z) (vs : list value) (h h' : heap) : Prop := {
  gr_objs : forall o b', objs h' !! o = Some b' ->
    (exists b, objs h !! o = Some b /\ gains b b') \/ (objs h !! o = None /\ o ∈ news /\ fresh b');
  gr_dom : forall o, is_Some (objs h !! o) \/ o ∈ news -> is_Some (objs h' !! o);
  gr_news : forall o, o ∈ news -> objs h !! o = None /\ o ∈ strong_of vs;
  gr_sref : forall y, sref h' y = (sref h y + occ y (strong_of vs))%nat;
  gr_wref : forall y, wref h' y = (wref h y + occ y (weak_of vs))%nat;
  gr_children : forall x b' y, objs h' !! x = Some b' -> collecting b' = false -> y ∈ children b' ->
    (exists b, objs h !! x = Some b /\ y ∈ children b) \/ y ∈ strong_of vs;
  gr_named : forall y, y ∈ named h' -> y ∈ named h \/ y ∈ strong_of vs;
  gr_values : forall v, v ∈ vs -> live_value h v \/ exists o, v = VStrong o /\ o ∈ news;
  gr_registry : registry h' = registry h ++ news;
  gr_nodup : NoDup news;
  gr_swept : swept h' = swept h;
  gr_queue : queue h' = queue h;
  gr_finalizing : finalizing h' = finalizing h;
  gr_epoch : epoch h' = epoch h;
}.

Lemma in_queue_collecting h y : heap_ok h -> y ∈ queue h -> collecting_at h y = true.
Proof.
  intros [_ Hs] Hq. assert (y ∈ claimed [] [] h) as Hcl by (unfold claimed; set_solver).
  destruct (s_dom _ _ _ _ Hs y Hcl) as [b E]. unfold collecting_at. rewrite E.
  by apply (s_class _ _ _ _ Hs y b E).
Qed.

Section grows.
Context (news : list Z) (vs : list value) (h h' : heap).
Context (Hok : heap_ok h) (Hg : grows news vs h h').

Lemma grows_strong y : y ∈ strong_of vs -> objs h !! y = None /\ y ∈ news \/ is_Some (objs h !! y) /\ collecting_at h y = false.
Proof using Hg.
  intros Hy. unfold strong_of in Hy. apply list_elem_of_omap in Hy as (v & Hv & Ev).
  destruct v as [|o|o]; try done. injection Ev as ->.
  destruct (gr_values _ _ _ _ Hg _ Hv) as [Hl|(o & [= <-] & Ho)]; [by right|left].
  split; [by apply (gr_news _ _ _ _ Hg)|done].
Qed.

Lemma grows_collecting y : collecting_at h' y = collecting_at h y.
Proof using Hg.
  unfold collecting_at. destruct (objs h' !! y) as [b'|] eqn:E.
  - destruct (gr_objs _ _ _ _ Hg y b' E) as [(b & -> & G)|(-> & _ & F)]; [apply G|apply F].
  - destruct (objs h !! y) as [b|] eqn:Eb; [|done]. destruct (gr_dom _ _ _ _ Hg y); [left; by eexists|congruence].
Qed.

Lemma grows_none o : objs h' !! o = None -> objs h !! o = None /\ o ∉ news.
Proof using Hg.
  intros E. split.
  - apply eq_None_not_Some. intros H. destruct (gr_dom _ _ _ _ Hg o); [by left|congruence].
  - intros H. destruct (gr_dom _ _ _ _ Hg o); [by right|congruence].
Qed.

Lemma grows_owed : Z.of_nat (refs h') < 2 ^ 31 - 4 -> owed vs h'.
Proof using Hok Hg.
  intros Hr. destruct Hok as [Hc Hs]. split.
  - intros o b' E. rewrite (gr_sref _ _ _ _ Hg). destruct (gr_objs _ _ _ _ Hg o b' E) as [(b & Eb & G)|(Eb & _ & F)].
    + rewrite (gn_strong _ _ G), (c_strong _ _ _ Hc o b Eb). change (decs []) with (@nil Z). rewrite occ_nil. lia.
    + destruct F as (-> & _). pose proof (c_dom _ _ _ Hc o Eb). lia.
  - intros o b' E. rewrite (gr_wref _ _ _ _ Hg). destruct (gr_objs _ _ _ _ Hg o b' E) as [(b & Eb & G)|(Eb & _ & F)].
    + rewrite (gn_weak _ _ G), (gn_destroyed _ _ G), (c_weak _ _ _ Hc o b Eb).
      change (wdecs []) with (@nil Z). rewrite !occ_nil. lia.
    + destruct F as (_ & -> & _ & _ & _ & _ & -> & _). pose proof (c_dom _ _ _ Hc o Eb). cbn [negb Z.b2z]. lia.
  - intros o [E Hn]%grows_none. rewrite (gr_sref _ _ _ _ Hg), (gr_wref _ _ _ _ Hg). pose proof (c_dom _ _ _ Hc o E).
    assert (occ o (strong_of vs) = 0%nat) as ->.
    { apply occ_zero. intros [[_ H1]|[[b H1] _]]%grows_strong; [done|congruence]. }
    assert (occ o (weak_of vs) = 0%nat) as ->; [|lia].
    apply occ_zero. unfold weak_of. intros (v & Hv & Ev)%list_elem_of_omap. destruct v as [|k|k]; try done.
    injection Ev as ->. destruct (gr_values _ _ _ _ Hg _ Hv) as [[b Hl]|(k & Hk & _)]; [congruence|done].
  - intros o b' E. destruct (gr_objs _ _ _ _ Hg o b' E) as [(b & Eb & G)|(Eb & _ & F)].
    + rewrite (gn_strong _ _ G), (gn_weak _ _ G), (c_strong _ _ _ Hc o b Eb), (c_weak _ _ _ Hc o b Eb).
      assert (0 <= Z.b2z (negb (destroyed b))) by (by case (destroyed b)). lia.
    + destruct F as (-> & -> & _). lia.
  - intros v Hv. pose proof (gr_values _ _ _ _ Hg v Hv) as Hl. pose proof (gr_dom _ _ _ _ Hg) as Hd.
    destruct v as [|o|o]; [done|..]; destruct Hl as [Hl|(k & Hk & Hn)]; try done; apply Hd.
    + left. apply Hl.
    + injection Hk as <-. by right.
    + by left.
  - done.
  - intros o b' E Hcb. rewrite (gr_sref _ _ _ _ Hg). destruct (gr_objs _ _ _ _ Hg o b' E) as [(b & Eb & G)|(Eb & Hn & F)].
    + rewrite (gn_collecting _ _ G) in Hcb. pose proof (c_live _ _ _ Hc o b Eb Hcb) as H1.
      pose proof (c_strong _ _ _ Hc o b Eb) as H2. change (decs []) with (@nil Z) in H2. rewrite occ_nil in H2. lia.
    + destruct (gr_news _ _ _ _ Hg o Hn) as [_ H%occ_pos]. lia.
  - intros o Hd. rewrite (gr_sref _ _ _ _ Hg). rewrite (gr_finalizing _ _ _ _ Hg) in Hd.
    assert (destroyed_at h o = true \/ o ∈ finalizing h) as Hd'.
    { destruct Hd as [Hd|]; [left|by right]. unfold destroyed_at in *. destruct (objs h' !! o) as [b'|] eqn:E; [|done].
      destruct (gr_objs _ _ _ _ Hg o b' E) as [(b & -> & G)|(_ & _ & F)]; [by rewrite <- (gn_destroyed _ _ G)|].
      destruct F as (_ & _ & _ & _ & _ & _ & F & _). congruence. }
    assert (collecting_at h o = true) as Hcol.
    { unfold collecting_at, destroyed_at in *. destruct Hd' as [Hd'|Hf].
      - destruct (objs h !! o) as [b|] eqn:E; [|done]. destruct (s_dead _ _ _ _ Hs o b E Hd') as [H1 _].
        by destruct (s_drop _ _ _ _ Hs o b E H1) as (_ & _ & ?).
      - assert (o ∈ claimed [] [] h) as Hcl by (unfold claimed; set_solver).
        destruct (s_dom _ _ _ _ Hs o Hcl) as [b E]. rewrite E. by apply (s_class _ _ _ _ Hs o b E). }
    pose proof (c_gone _ _ _ Hc o ltac:(by apply not_elem_of_nil)) as H0.
    destruct (decide (o ∈ strong_of vs)) as [Hin|Hin%occ_zero]; [|rewrite Hin].
    + apply grows_strong in Hin as [[Hn _]|[_ Hn]]; [|congruence]. unfold collecting_at in Hcol. by rewrite Hn in Hcol.
    + assert (sref h o + occ o (decs []) = 0)%nat; [apply H0; naive_solver|lia].
Qed.

Lemma grows_claimed : claimed [] [] h' = claimed [] [] h.
Proof using Hg.
  unfold claimed. by rewrite (gr_queue _ _ _ _ Hg), (gr_swept _ _ _ _ Hg), (gr_finalizing _ _ _ _ Hg).
Qed.

(** The children of a claimed object are what they were. *)
Lemma grows_old x b' y :
  objs h' !! x = Some b' -> y ∈ children b' -> collecting_at h y = true ->
  exists b, objs h !! x = Some b /\ gains b b' /\ collecting b = true /\ y ∈ children b.
Proof using Hok Hg.
  intros E Hy Hcy. destruct Hok as [_ Hs].
  assert (collecting b' = true) as Hcb.
  { apply not_false_is_true. intros Hcb.
    destruct (gr_children _ _ _ _ Hg x b' y E Hcb Hy) as [(b & Eb & Hb)|Hv].
    - pose proof (s_closed _ _ _ _ Hs x b y Eb Hb Hcy) as H.
      destruct (gr_objs _ _ _ _ Hg x b' E) as [(b0 & E0 & G)|(E0 & _)]; [|congruence].
      rewrite (gn_collecting _ _ G) in Hcb. congruence.
    - apply grows_strong in Hv as [[Hv _]|[_ Hv]]; [unfold collecting_at in Hcy; by rewrite Hv in Hcy|congruence]. }
  destruct (gr_objs _ _ _ _ Hg x b' E) as [(b & Eb & G)|(_ & _ & F)].
  - rewrite (gn_collecting _ _ G) in Hcb. exists b. split; [done|]. split; [done|]. split; [done|].
    destruct (gn_claimed _ _ G Hcb) as (E1 & E2 & E3). unfold children in *. congruence.
  - destruct F as (_ & _ & _ & F & _). congruence.
Qed.

Lemma grows_shape : shape [] [] [] h'.
Proof using Hok Hg.
  pose proof Hok as [_ Hs].
  assert (forall o b', objs h' !! o = Some b' -> (exists b, objs h !! o = Some b /\ gains b b') \/ (objs h !! o = None /\ fresh b')) as Hb.
  { intros o b' E. destruct (gr_objs _ _ _ _ Hg o b' E) as [H|(H & _ & F)]; eauto. }
  split; rewrite ?grows_claimed.
  - intros x b' y E Hy Hcy. rewrite grows_collecting in Hcy.
    destruct (grows_old x b' y E Hy Hcy) as (b & Eb & G & Hcb & Hyb). by rewrite (gn_collecting _ _ G).
  - intros y [Hy|Hy]%(gr_named _ _ _ _ Hg); rewrite grows_collecting; [by apply (s_named _ _ _ _ Hs)|].
    apply grows_strong in Hy as [[Hy _]|[_ Hy]]; [|done]. unfold collecting_at. by rewrite Hy.
  - intros o b' [(b & E & G)|(_ & F)]%Hb Hd.
    + rewrite (gn_drop _ _ G) in Hd. destruct (s_drop _ _ _ _ Hs o b E Hd) as (H1 & H2 & H3).
      destruct (gn_claimed _ _ G H3) as (-> & _ & ->). by rewrite (gn_collecting _ _ G).
    + destruct F as (_ & _ & _ & _ & F & _). congruence.
  - intros o b' [(b & E & G)|(_ & F)]%Hb Hd.
    + rewrite (gn_destroyed _ _ G) in Hd. destruct (s_dead _ _ _ _ Hs o b E Hd) as [H1 H2].
      destruct (s_drop _ _ _ _ Hs o b E H1) as (_ & _ & H3). destruct (gn_claimed _ _ G H3) as (_ & -> & _).
      by rewrite (gn_drop _ _ G).
    + destruct F as (_ & _ & _ & _ & _ & _ & F & _). congruence.
  - intros o b' [(b & E & G)|(_ & F)]%Hb Ha; [|apply F].
    rewrite (gn_actor _ _ G) in Ha. apply (gn_natives _ _ G Ha). exact (s_actor _ _ _ _ Hs o b E Ha).
  - intros x b' y _ _ Hy. by apply elem_of_nil in Hy.
  - apply Hs.
  - intros o b' [(b & E & G)|(E & F)]%Hb.
    + rewrite (gn_collecting _ _ G), (gn_destroyed _ _ G). exact (s_class _ _ _ _ Hs o b E).
    + destruct F as (_ & _ & _ & Fc & _). split; [|intros [? _]; congruence]. intros Hin.
      destruct (s_dom _ _ _ _ Hs o Hin). congruence.
  - intros o Ho. apply (gr_dom _ _ _ _ Hg). left. by apply (s_dom _ _ _ _ Hs).
  - intros o b' [(b & E & G)|(_ & F)]%Hb.
    + rewrite (gn_collecting _ _ G), (gn_alive _ _ G). exact (s_alive _ _ _ _ Hs o b E).
    + destruct F as (_ & _ & -> & -> & _). done.
  - intros x b' y E Hy. rewrite (gr_queue _ _ _ _ Hg). intros Hq.
    destruct (grows_old x b' y E Hy (in_queue_collecting h y Hok Hq)) as (b & Eb & _ & _ & Hyb).
    exact (s_queue _ _ _ _ Hs x b y Eb Hyb Hq).
  - intros x b' y _ _. apply not_elem_of_nil.
  - intros o b' E. rewrite (gr_finalizing _ _ _ _ Hg). intros Ho.
    destruct (Hb o b' E) as [(b & Eb & G)|(Eb & F)].
    + rewrite (gn_drop _ _ G). exact (s_ends _ _ _ _ Hs o b Eb Ho).
    + destruct Ho as [Ho|Ho%elem_of_nil]; [|done].
      destruct (s_dom _ _ _ _ Hs o) as [b Eb']; [unfold claimed; set_solver|congruence].
  - intros o. rewrite (gr_finalizing _ _ _ _ Hg). intros Ho%(s_fin _ _ _ _ Hs). unfold is_actor in *.
    destruct (objs h !! o) as [b|] eqn:Eb; [|done]. destruct (gr_dom _ _ _ _ Hg o) as [b' E]; [left; by eexists|].
    rewrite E. destruct (Hb o b' E) as [(b0 & E0 & G)|(E0 & _)]; [|congruence]. rewrite (gn_actor _ _ G). congruence.
  - intros o Ho. by apply elem_of_nil in Ho.
  - intros o b' [(b & E & G)|(_ & F)]%Hb; rewrite (gr_epoch _ _ _ _ Hg).
    + rewrite (gn_destroyed _ _ G), (gn_mark _ _ G). exact (s_marks _ _ _ _ Hs o b E).
    + destruct F as (_ & _ & _ & _ & _ & -> & _). intros _. pose proof (s_epoch _ _ _ _ Hs). lia.
  - rewrite (gr_epoch _ _ _ _ Hg). apply Hs.
  - rewrite (gr_registry _ _ _ _ Hg). apply NoDup_app. split; [apply Hs|]. split; [|apply Hg].
    intros o (b & E & _)%(s_reg _ _ _ _ Hs) Hn. destruct (gr_news _ _ _ _ Hg o Hn). congruence.
  - intros o. rewrite (gr_registry _ _ _ _ Hg), elem_of_app, (s_reg _ _ _ _ Hs). split.
    + intros [(b & E & Hd)|Hn].
      * destruct (gr_dom _ _ _ _ Hg o) as [b' E']; [left; by eexists|]. exists b'. split; [done|].
        destruct (Hb o b' E') as [(b0 & E0 & G)|(E0 & _)]; [|congruence]. rewrite (gn_destroyed _ _ G). congruence.
      * destruct (gr_dom _ _ _ _ Hg o) as [b' E']; [by right|]. exists b'. split; [done|].
        destruct (gr_news _ _ _ _ Hg o Hn) as [E0 _].
        destruct (Hb o b' E') as [(b0 & E1 & _)|(_ & F)]; [congruence|]. apply F.
    + intros (b' & E & Hd). destruct (gr_objs _ _ _ _ Hg o b' E) as [(b & Eb & G)|(_ & Hn & _)]; [left|by right].
      exists b. split; [done|]. by rewrite <- (gn_destroyed _ _ G).
Qed.

Lemma grows_ok : Z.of_nat (refs h') < 2 ^ 31 - 4 -> exists h2, acquires vs h' = Some h2 /\ heap_ok h2.
Proof using Hok Hg. intros Hr. by apply acquires_ok; [apply grows_owed|apply grows_shape]. Qed.

End grows.

(** ** The operations of a mutator *)

#[global] Instance gains_refl : Reflexive gains.
Proof. by intros b. Qed.

Lemma named_live h y : heap_ok h -> y ∈ named h -> is_Some (objs h !! y) /\ collecting_at h y = false.
Proof. intros Hok Hy. split; [by apply named_in|]. destruct Hok as [_ Hs]. by apply (s_named _ _ _ _ Hs). Qed.

Lemma strong_of_in o vs : o ∈ strong_of vs <-> VStrong o ∈ vs.
Proof.
  unfold strong_of. rewrite list_elem_of_omap. split.
  - intros ([|k|k] & Hv & E); try done. by injection E as ->.
  - intros H. by exists (VStrong o).
Qed.
Lemma weak_of_in o vs : o ∈ weak_of vs <-> VWeak o ∈ vs.
Proof.
  unfold weak_of. rewrite list_elem_of_omap. split.
  - intros ([|k|k] & Hv & E); try done. by injection E as ->.
  - intros H. by exists (VWeak o).
Qed.

Lemma wref_pos h x b y : objs h !! x = Some b -> y ∈ wchildren b -> (0 < wref h y)%nat.
Proof.
  intros E Hy%occ_pos. unfold wref.
  pose proof (msum_ge (fun b => occ y (wchildren b)) (objs h) x b E). cbn in *. lia.
Qed.

Lemma wref_in h y : heap_ok h -> (0 < wref h y)%nat -> is_Some (objs h !! y).
Proof.
  intros [Hc _] Hp. apply not_eq_None_Some. intros Hn. pose proof (c_dom _ _ _ Hc y Hn). lia.
Qed.

(** What a live object holds may be referred to. *)
Lemma member_live h o b v : heap_ok h -> objs h !! o = Some b -> collecting b = false -> v ∈ members b -> live_value h v.
Proof.
  intros Hok E Hcb Hv. destruct v as [|y|y]; [done|..]; cbn.
  - assert (y ∈ children b) as Hy.
    { unfold children. rewrite strong_of_app. apply elem_of_app. left. apply elem_of_app. left. by apply strong_of_in. }
    split; [apply (heap_edges_in h Hok o); by exists b|]. apply not_true_is_false. intros Hcy.
    destruct Hok as [_ Hs]. pose proof (s_closed _ _ _ _ Hs o b y E Hy Hcy). congruence.
  - apply (wref_in h y Hok), (wref_pos h o b y E). unfold wchildren. rewrite weak_of_app.
    apply elem_of_app. left. by apply weak_of_in.
Qed.

Lemma held_live h v : heap_ok h -> v ∈ roots h ++ locals h -> live_value h v.
Proof.
  intros Hok Hv. destruct v as [|y|y]; [done|..]; cbn.
  - apply named_live; [done|]. by apply strong_of_in.
  - apply (wref_in h y Hok). unfold wref. apply weak_of_in, occ_pos in Hv. lia.
Qed.

Lemma read_live h p v : heap_ok h -> place_ok h p -> read p h = Some v -> live_value h v.
Proof.
  intros Hok [_ Hp] Hr. destruct p as [i|i|o i]; cbn in Hr.
  - apply held_live; [done|]. apply elem_of_app. left. by eapply list_elem_of_lookup_2.
  - apply held_live; [done|]. apply elem_of_app. right. by eapply list_elem_of_lookup_2.
  - destruct (named_live h o Hok Hp) as [_ Hc]. unfold collecting_at in Hc.
    destruct (objs h !! o) as [b|] eqn:E; [|done]. eapply member_live; [done..|]. by eapply list_elem_of_lookup_2.
Qed.

Lemma live_cases h v : live_value h v -> forall w, w ∈ [v] -> live_value h w \/ exists o, w = VStrong o /\ o ∈ @nil Z.
Proof. intros Hl w ->%list_elem_of_singleton. by left. Qed.

Lemma plain_strong vs us : Forall (eq VPlain) vs -> strong_of (vs ++ us) = strong_of us.
Proof. induction 1 as [|v vs <- _ IH]; [done|]. exact IH. Qed.
Lemma plain_weak vs us : Forall (eq VPlain) vs -> weak_of (vs ++ us) = weak_of us.
Proof. induction 1 as [|v vs <- _ IH]; [done|]. exact IH. Qed.

(** A new root or local, a plain Value perhaps replaced. *)
Lemma grows_places plain h h' v :
  live_value h v -> objs h' = objs h -> registry h' = registry h -> swept h' = swept h ->
  queue h' = queue h -> finalizing h' = finalizing h -> epoch h' = epoch h ->
  plain ++ roots h' ++ locals h' ≡ₚ v :: roots h ++ locals h -> Forall (eq VPlain) plain -> grows [] [v] h h'.
Proof.
  intros Hl Eo Eg Ew Eq Ef Ee Hp Hpl.
  assert (forall y, occ y (named h') = occ y (strong_of [v]) + occ y (named h))%nat as Hn.
  { intros y. unfold named. rewrite <- strong_cons, <- (plain_strong plain (roots h' ++ locals h')) by done.
    unfold occ, strong_of. by rewrite Hp. }
  assert (forall y, occ y (weak_of (roots h' ++ locals h')) = occ y (weak_of [v]) + occ y (weak_of (roots h ++ locals h)))%nat as Hw.
  { intros y. rewrite <- weak_cons, <- (plain_weak plain (roots h' ++ locals h')) by done.
    unfold occ, weak_of. by rewrite Hp. }
  split; rewrite ?Eo; try done.
  - intros o b' E. left. by exists b'.
  - intros o [H|H%elem_of_nil]; done.
  - intros o H%elem_of_nil. done.
  - intros y. unfold sref. rewrite Eo, Hn. lia.
  - intros y. unfold wref. rewrite Eo, Hw. lia.
  - intros x b' y E _ Hy. left. by exists b'.
  - intros y Hy%occ_pos. rewrite Hn in Hy. rewrite <- !occ_pos. lia.
  - by apply live_cases.
  - by rewrite app_nil_r.
  - constructor.
Qed.

Lemma acquires_one v h : acquires [v] h = acquire v h.
Proof. done. Qed.

Lemma push_local_ok h v : heap_ok h -> live_value h v -> room 1 h ->
  exists h', push_local v h = Some h' /\ heap_ok h'.
Proof.
  intros Hok Hl Hr. unfold push_local. rewrite <- acquires_one. apply (grows_ok [] [v] h); [done| |].
  - apply (grows_places []); try done. cbn. rewrite app_assoc. symmetry. apply Permutation_cons_append.
  - unfold room, refs in *. cbn. rewrite length_app. cbn. lia.
Qed.

Lemma push_root_ok h v : heap_ok h -> live_value h v -> room 1 h ->
  exists h', push_root v h = Some h' /\ heap_ok h'.
Proof.
  intros Hok Hl Hr. unfold push_root. rewrite <- acquires_one. apply (grows_ok [] [v] h); [done| |].
  - apply (grows_places []); try done. cbn. rewrite <- app_assoc. symmetry. apply Permutation_middle.
  - unfold room, refs in *. cbn. rewrite length_app. cbn. lia.
Qed.

(** A reference stored in a live object. *)
Lemma grows_in h o b f v :
  heap_ok h -> objs h !! o = Some b -> collecting b = false -> live_value h v -> gains b (f b) ->
  (forall y, occ y (children (f b)) = occ y (children b) + occ y (strong_of [v]))%nat ->
  (forall y, occ y (wchildren (f b)) = occ y (wchildren b) + occ y (weak_of [v]))%nat ->
  grows [] [v] h (on_obj o f h).
Proof.
  intros Hok E Hcb Hl G Hs Hw. split; try done.
  - intros k b' Hk. left. destruct (on_obj_cases o f h b k b' E Hk) as [[-> ->]|[_ Hk']]; eauto.
    exists b'. by split.
  - intros k [H|H%elem_of_nil]; [by apply on_obj_is_Some|done].
  - intros k H%elem_of_nil. done.
  - intros y. pose proof (sref_alter o f h b y E). specialize (Hs y). lia.
  - intros y. pose proof (wref_alter o f h b y E). specialize (Hw y). lia.
  - intros x b' y Hx _ Hy. destruct (on_obj_cases o f h b x b' E Hx) as [[-> ->]|[_ Hx']]; [|left; by exists b'].
    apply occ_pos in Hy. rewrite Hs in Hy. assert (0 < occ y (children b) \/ 0 < occ y (strong_of [v]))%nat as Hor by lia.
    rewrite !occ_pos in Hor. destruct Hor; [left; by exists b|by right].
  - intros y Hy. by left.
  - by apply live_cases.
  - cbn. by rewrite app_nil_r.
  - constructor.
Qed.

Lemma refs_on_obj o f h b n : objs h !! o = Some b -> held_count (f b) = (held_count b + n)%nat ->
  refs (on_obj o f h) = (refs h + n)%nat.
Proof.
  intros E H. unfold refs. cbn. pose proof (msum_alter held_count f (objs h) o b E) as Ht. cbn in Ht. lia.
Qed.

Lemma named_block h o : heap_ok h -> o ∈ named h -> exists b, objs h !! o = Some b /\ collecting b = false.
Proof.
  intros Hok Ho. destruct (named_live h o Hok Ho) as [[b E] Hc]. exists b. unfold collecting_at in Hc.
  by rewrite E in Hc.
Qed.

Lemma append_ok h o v : heap_ok h -> o ∈ named h -> live_value h v -> room 1 h ->
  exists h', append o v h = Some h' /\ heap_ok h'.
Proof.
  intros Hok Ho Hl Hr. destruct (named_block h o Hok Ho) as (b & E & Hcb).
  unfold append. rewrite <- acquires_one. apply (grows_ok [] [v] h); [done| |].
  - apply (grows_in h o b); try done.
    + by split; try done; cbn; rewrite Hcb.
    + intros y. rewrite !occ_children. cbn. rewrite strong_of_app, occ_app. lia.
    + intros y. rewrite !occ_wchildren. cbn. rewrite weak_of_app, occ_app. lia.
  - rewrite (refs_on_obj o _ h b 1 E); [done|]. unfold held_count. cbn. rewrite length_app. cbn. lia.
Qed.

Lemma append_native_ok h o v : heap_ok h -> o ∈ named h -> is_actor h o = false -> live_value h v -> room 1 h ->
  exists h', append_native o v h = Some h' /\ heap_ok h'.
Proof.
  intros Hok Ho Ha Hl Hr. destruct (named_block h o Hok Ho) as (b & E & Hcb).
  unfold is_actor in Ha. rewrite E in Ha.
  unfold append_native. rewrite <- acquires_one. apply (grows_ok [] [v] h); [done| |].
  - apply (grows_in h o b); try done.
    + split; try done; cbn; rewrite ?Hcb, ?Ha; done.
    + intros y. rewrite !occ_children. cbn. rewrite strong_of_app, occ_app. lia.
    + intros y. rewrite !occ_wchildren. cbn. rewrite weak_of_app, occ_app. lia.
  - rewrite (refs_on_obj o _ h b 1 E); [done|]. unfold held_count. cbn. rewrite length_app. cbn. lia.
Qed.

(** A new block, and what it holds. *)
Definition with_new (o : Z) (b : obj) (h : heap) : heap :=
  set_registry (registry h ++ [o]) (set_objs (<[o := b]> (objs h)) h).

Lemma new_sref h o b y : objs h !! o = None ->
  sref (with_new o b h) y = (sref h y + occ y (children b))%nat.
Proof.
  intros E. unfold sref. change (named (with_new o b h)) with (named h). cbn.
  rewrite msum_insert by done. lia.
Qed.

Lemma new_wref h o b y : objs h !! o = None ->
  wref (with_new o b h) y = (wref h y + occ y (wchildren b))%nat.
Proof. intros E. unfold wref. cbn. rewrite msum_insert by done. lia. Qed.

Lemma create_ok h o actor : heap_ok h -> objs h !! o = None -> room 1 h ->
  exists h', create o actor h = Some h' /\ heap_ok h'.
Proof.
  intros Hok E Hr. unfold create, push_local. fold (with_new o (new_obj actor) h).
  set (h1 := with_new o (new_obj actor) h). rewrite <- acquires_one.
  set (h' := set_locals (locals h1 ++ [VStrong o]) h1).
  assert (named h' = named h ++ [o]) as Hn.
  { unfold named. cbn. by rewrite app_assoc, strong_of_app. }
  apply (grows_ok [o] [VStrong o] h); [done| |].
  - split; try done.
    + intros k b' Hk. cbn in Hk. apply lookup_insert_Some in Hk as [[<- <-]|[_ Hk]]; [right|left; eauto].
      { split; [done|]. split; [by left|]. by split_and!. }
      exists b'. by split.
    + intros k [[b Hk]|Hk]; cbn.
      * rewrite lookup_insert_ne by congruence. eauto.
      * apply list_elem_of_singleton in Hk as ->. rewrite lookup_insert_eq. eauto.
    + intros k ->%list_elem_of_singleton. split; [done|by left].
    + intros y. pose proof (new_sref h o (new_obj actor) y E) as H. change (occ y (children (new_obj actor))) with 0%nat in H.
      unfold sref in *. change (objs h') with (objs h1). change (named (with_new o _ h)) with (named h) in H.
      fold h1 in H. rewrite Hn, occ_app. change (strong_of [VStrong o]) with [o]. lia.
    + intros y. pose proof (new_wref h o (new_obj actor) y E) as H. change (occ y (wchildren (new_obj actor))) with 0%nat in H.
      fold h1 in H. unfold wref in *. change (objs h') with (objs h1).
      change (roots h' ++ locals h') with (roots h1 ++ locals h1 ++ [VStrong o]).
      rewrite app_assoc, weak_of_app, occ_app. lia.
    + intros x b' y Hx _ Hy. cbn in Hx. apply lookup_insert_Some in Hx as [[<- <-]|[_ Hx]].
      * by apply elem_of_nil in Hy.
      * left. by exists b'.
    + intros y. rewrite Hn. intros [Hy|Hy]%elem_of_app; [by left|by right].
    + intros v ->%list_elem_of_singleton. right. exists o. split; [done|by left].
    + apply NoDup_singleton.
  - unfold room, refs in *. cbn. rewrite length_app, msum_insert by done. cbn. lia.
Qed.

(** A new version: its snapshot holds what the object holds. *)
Lemma saveVersion_ok h o s e b :
  heap_ok h -> o ∈ named h -> objs h !! o = Some b -> objs h !! s = None ->
  room (S (length (members b))) h ->
  exists h', saveVersion o s e h = Some h' /\ heap_ok h'.
Proof.
  intros Hok Ho E Es Hr. destruct (named_live h o Hok Ho) as [_ Hcb]. unfold collecting_at in Hcb. rewrite E in Hcb.
  unfold saveVersion. rewrite E. set (c := set_members (members b) (new_obj false)). fold (with_new s c h).
  set (f := set_versions ((e, s) :: versionChain b)). set (h1 := with_new s c h). set (h' := on_obj o f h1).
  assert (o <> s) as Hos by congruence.
  assert (objs h1 !! o = Some b) as E1 by (cbn; by rewrite lookup_insert_ne).
  assert (children c = strong_of (members b)) as Hcc.
  { unfold children. cbn. by rewrite !app_nil_r. }
  assert (wchildren c = weak_of (members b)) as Hcw by (unfold wchildren; cbn; by rewrite app_nil_r).
  assert (forall k b', objs h' !! k = Some b' ->
    (k = o /\ b' = f b) \/ (k = s /\ b' = c) \/ (k <> o /\ k <> s /\ objs h !! k = Some b')) as Hk.
  { intros k b' Hk. destruct (on_obj_cases o f h1 b k b' E1 Hk) as [?|[Hne Hk']]; [by left|right].
    cbn in Hk'. apply lookup_insert_Some in Hk' as [[<- <-]|[Hne' Hk']]; [by left|right]. by split_and!. }
  apply (grows_ok [s] (VStrong s :: members b) h); [done| |].
  - split; try done.
    + intros k b' [[-> ->]|[[-> ->]|(_ & _ & Hk')]]%Hk.
      * left. exists b. split; [done|]. by split; try done; cbn; rewrite Hcb.
      * right. split; [done|]. split; [by left|]. by split_and!.
      * left. by exists b'.
    + intros k Hd. apply on_obj_is_Some. cbn. destruct Hd as [[b' Hd]|Hd].
      * rewrite lookup_insert_ne by congruence. eauto.
      * apply list_elem_of_singleton in Hd as ->. rewrite lookup_insert_eq. eauto.
    + intros k ->%list_elem_of_singleton. split; [done|]. by left.
    + intros y. pose proof (sref_alter o f h1 b y E1) as H1. pose proof (new_sref h s c y Es) as H2. fold h1 in H2.
      rewrite Hcc in H2. fold h' in H1. rewrite !occ_children in H1. cbn [f set_versions members natives versionChain map snd] in H1.
      rewrite occ_cons in H1. change (strong_of (VStrong s :: members b)) with (s :: strong_of (members b)).
      rewrite occ_cons. lia.
    + intros y. pose proof (wref_alter o f h1 b y E1) as H1. pose proof (new_wref h s c y Es) as H2. fold h1 in H2.
      rewrite Hcw in H2. fold h' in H1. change (wchildren (f b)) with (wchildren b) in H1.
      change (weak_of (VStrong s :: members b)) with (weak_of (members b)). lia.
    + intros x b' y Hx _ Hy. destruct (Hk x b' Hx) as [[-> ->]|[[-> ->]|(_ & _ & Hx')]].
      * apply occ_pos in Hy. rewrite occ_children in Hy. cbn [f set_versions members natives versionChain map snd] in Hy.
        rewrite occ_cons in Hy. case_decide as Ey; [right; subst; by left|left]. exists b. split; [done|].
        apply occ_pos. rewrite occ_children. lia.
      * right. rewrite Hcc in Hy. by right.
      * left. by exists b'.
    + intros y Hy. by left.
    + intros v [->|Hv]%elem_of_cons; [right; exists s; split; [done|by left]|left]. by eapply member_live.
    + apply NoDup_singleton.
  - pose proof (refs_on_obj o f h1 b 1 E1) as H. fold h' in H. rewrite H by (unfold held_count; cbn; lia).
    assert (refs h1 = refs h + length (members b))%nat as ->; [|unfold room in Hr; lia].
    unfold refs. change (objs h1) with (<[s := c]> (objs h)). rewrite msum_insert by done.
    change (held_count c) with (length (members b) + 0 + 0)%nat.
    change (roots h1) with (roots h). change (locals h1) with (locals h). lia.
Qed.

(** ** References given back *)

Lemma release_tasks v :
  decs (release v) = strong_of [v] /\ wdecs (release v) = weak_of [v] /\ retires (release v) = [] /\
  ends (release v) = [] /\ drops (release v) = [].
Proof. by destruct v. Qed.

Lemma vacate_counts h h' v :
  counts [] [] h ->
  (forall y, sref h' y + occ y (strong_of [v]) = sref h y)%nat ->
  (forall y, wref h' y + occ y (weak_of [v]) = wref h y)%nat ->
  (forall o b', objs h' !! o = Some b' -> exists b, objs h !! o = Some b /\ strong b' = strong b /\
     weak b' = weak b /\ destroyed b' = destroyed b /\ collecting b' = collecting b) ->
  (forall o, objs h' !! o = None -> objs h !! o = None) -> finalizing h' = finalizing h ->
  counts (release v) [] h'.
Proof.
  intros Hc Hsr Hwr Hb Hn Hf. destruct (release_tasks v) as (R1 & R2 & _ & R4 & _).
  split; rewrite ?R1, ?R2, ?R4.
  - intros o b' (b & E & -> & _)%Hb. pose proof (c_strong _ _ _ Hc o b E) as H. change (decs []) with (@nil Z) in H.
    rewrite occ_nil in H. specialize (Hsr o). lia.
  - intros o b' (b & E & _ & -> & -> & _)%Hb. pose proof (c_weak _ _ _ Hc o b E) as H.
    change (wdecs []) with (@nil Z) in H. rewrite !occ_nil in *. specialize (Hwr o). lia.
  - intros o Eo%Hn. pose proof (c_dom _ _ _ Hc o Eo). specialize (Hsr o). specialize (Hwr o). rewrite !occ_nil in *. lia.
  - intros o b' (b & E & -> & -> & _)%Hb. exact (c_range _ _ _ Hc o b E).
  - intros o b' (b & E & -> & _ & _ & ->)%Hb. exact (c_live _ _ _ Hc o b E).
  - intros o Ho Hd. specialize (Hsr o). enough (sref h o = 0)%nat by lia.
    pose proof (c_gone _ _ _ Hc o Ho) as H. rewrite Hf in Hd.
    assert (sref h o + occ o (decs []) = 0)%nat; [|lia]. apply H. destruct Hd as [Hd|[Hd|Hd%elem_of_nil]]; [|by right; left|done].
    left. unfold destroyed_at in *. destruct (objs h' !! o) as [b'|] eqn:E; [|done].
    destruct (Hb o b' E) as (b & -> & _ & _ & H1 & _). by rewrite <- H1.
Qed.

Lemma shape_release v rest batch h : shape [] rest batch h -> shape (release v) rest batch h.
Proof.
  destruct (release_tasks v) as (_ & _ & R3 & R4 & R5). apply shape_tasks; [by rewrite R3|by rewrite R4|].
  intros k. by rewrite R5.
Qed.

(** A root or local goes, a plain Value perhaps in its place. *)
Lemma vacate_places plain h h' v :
  heap_ok h -> objs h' = objs h -> registry h' = registry h -> swept h' = swept h ->
  queue h' = queue h -> finalizing h' = finalizing h -> epoch h' = epoch h ->
  v :: roots h' ++ locals h' ≡ₚ plain ++ roots h ++ locals h -> Forall (eq VPlain) plain ->
  counts (release v) [] h' /\ shape (release v) [] [] h'.
Proof.
  intros [Hc Hs] Eo Eg Ew Eq Ef Ee Hp Hpl.
  assert (forall y, occ y (strong_of [v]) + occ y (named h') = occ y (named h))%nat as Hn.
  { intros y. unfold named. rewrite <- strong_cons, <- (plain_strong plain (roots h ++ locals h)) by done.
    unfold occ, strong_of. by rewrite Hp. }
  assert (forall y, occ y (weak_of [v]) + occ y (weak_of (roots h' ++ locals h')) = occ y (weak_of (roots h ++ locals h)))%nat as Hw.
  { intros y. rewrite <- weak_cons, <- (plain_weak plain (roots h ++ locals h)) by done. unfold occ, weak_of. by rewrite Hp. }
  split.
  - apply (vacate_counts h); rewrite ?Eo; try done.
    + intros y. unfold sref. rewrite Eo. specialize (Hn y). lia.
    + intros y. unfold wref. rewrite Eo. specialize (Hw y). lia.
    + intros o b' E. by exists b'.
  - apply shape_release. destruct Hs.
    assert (claimed [] [] h' = claimed [] [] h) as Hcl by (unfold claimed; congruence).
    split; try (unfold is_actor, collecting_at in *; rewrite ?Hcl, ?Eo, ?Eg, ?Eq, ?Ef, ?Ee; done).
    intros y Hy%occ_pos. unfold collecting_at. rewrite Eo. apply s_named0, occ_pos. specialize (Hn y). lia.
Qed.

Lemma last_split {A} (l : list A) v : last l = Some v -> l = drop_last l ++ [v].
Proof.
  intros (k & ->)%last_Some. unfold drop_last. rewrite length_app. cbn.
  rewrite Nat.add_sub, take_app_length. done.
Qed.

Lemma pop_local_ok h : heap_ok h -> locals h <> [] -> exists h', pop_local h = Some h' /\ heap_ok h'.
Proof.
  intros Hok Hl. unfold pop_local. destruct (last (locals h)) as [v|] eqn:E; [|by apply last_None in E].
  apply last_split in E.
  destruct (vacate_places [] h (set_locals (drop_last (locals h)) h) v) as [Hc Hs]; try done.
  { cbn. rewrite E at 2. rewrite app_assoc. apply Permutation_cons_append. }
  destruct (run_all_ok false _ _ _ _ _ Hc Hs) as (h' & E' & Hc' & Hs'). by exists h'.
Qed.

Lemma pop_root_ok h : heap_ok h -> roots h <> [] -> exists h', pop_root h = Some h' /\ heap_ok h'.
Proof.
  intros Hok Hl. unfold pop_root. destruct (last (roots h)) as [v|] eqn:E; [|by apply last_None in E].
  apply last_split in E.
  destruct (vacate_places [] h (set_roots (drop_last (roots h)) h) v) as [Hc Hs]; try done.
  { cbn. rewrite E at 2. rewrite <- app_assoc. apply Permutation_middle. }
  destruct (run_all_ok false _ _ _ _ _ Hc Hs) as (h' & E' & Hc' & Hs'). by exists h'.
Qed.

(** The swept objects are published at once. *)
Lemma retire_ok h : heap_ok h -> heap_ok (retireObjects h).
Proof.
  intros [Hc Hs].
  assert (claimed [] [] (retireObjects h) ≡ₚ claimed [] [] h) as Hperm by (unfold claimed; cbn; solve_Permutation).
  split; [destruct Hc; by split|].
  assert (forall x b y, objs h !! x = Some b -> y ∈ children b -> y ∈ queue h ++ swept h -> x ∈ queue h ++ swept h) as Hq.
  { intros x b y E Hy Hin.
    assert (collecting_at h y = true) as Hcy.
    { assert (y ∈ claimed [] [] h) as Hcl by (unfold claimed; rewrite app_assoc; apply elem_of_app; by left).
      destruct (s_dom _ _ _ _ Hs y Hcl) as [c Ec]. unfold collecting_at. rewrite Ec.
      by apply (s_class _ _ _ _ Hs y c Ec). }
    pose proof (s_closed _ _ _ _ Hs x b y E Hy Hcy) as Hcx.
    assert (forall (Hd : dropClaimed b = true) (Hn : natives b = []), False) as Hempty.
    { intros Hd Hn. destruct (s_drop _ _ _ _ Hs x b E Hd) as (Hm & Hv & _). unfold children in Hy.
      rewrite Hm, Hn, Hv in Hy. by apply elem_of_nil in Hy. }
    destruct (destroyed b) eqn:Ed; [destruct (s_dead _ _ _ _ Hs x b E Ed); by destruct Hempty|].
    assert (x ∈ claimed [] [] h) as Hcl by (apply (s_class _ _ _ _ Hs x b E); done).
    unfold claimed in Hcl. change (retires [] ++ ends [] ++ []) with (@nil Z) in Hcl. rewrite app_nil_r in Hcl.
    rewrite app_assoc in Hcl. apply elem_of_app in Hcl as [Hcl|Hf]; [done|].
    pose proof (s_ends _ _ _ _ Hs x b E (or_introl Hf)) as Hd. pose proof (s_fin _ _ _ _ Hs x Hf) as Ha.
    unfold is_actor in Ha. rewrite E in Ha. destruct Hempty; [done|]. exact (s_actor _ _ _ _ Hs x b E Ha). }
  destruct Hs. split; try done.
  - by rewrite Hperm.
  - intros o b E. rewrite Hperm. by apply s_class0.
  - intros o. rewrite Hperm. apply s_dom0.
Qed.

(** ** Assignment *)

(** What the release of one Value comes to: the reclaimer does the rest. *)
Definition decremented (b : obj) : obj := set_strong (wrapS 32 (strong b - 1)) b.
Definition release_now (v : value) (h : heap) : option heap :=
  match v with
  | VPlain => Some h
  | VStrong o =>
      match objs h !! o with
      | None => None
      | Some b =>
          if (strong b <=? 1) && negb (collecting b)
          then Some (set_queue (queue h ++ [o])
                       (on_obj o (fun b => set_alive false (set_collecting true (decremented b))) h))
          else Some (on_obj o decremented h)
      end
  | VWeak o =>
      match objs h !! o with
      | None => None
      | Some b =>
          if weak b =? 1 then Some (set_objs (delete o (objs h)) h)
          else Some (on_obj o (fun b => set_weak (wrapS 32 (weak b - 1)) b) h)
      end
  end.

Lemma on_obj_const o f h b : objs h !! o = Some b -> on_obj o (fun _ => f b) h = on_obj o f h.
Proof. intros E. unfold on_obj. f_equal. apply alter_ext. intros b0 E0. congruence. Qed.

Lemma run_none n coll h : run_tasks n coll [] h = Some h.
Proof. by destruct n. Qed.

Lemma release_run v h : run_all false (release v) h = release_now v h.
Proof.
  unfold run_all. destruct v as [|o|o]; [by destruct (work _ _)|..].
  - assert (work (release (VStrong o)) h = S (S (2 * msum held_count (objs h)))) as -> by (unfold work; cbn; lia).
    cbn [release run_tasks run_task release_now]. destruct (objs h !! o) as [b|] eqn:E; [|done].
    destruct ((strong b <=? 1) && negb (collecting b)); cbn [andb app run_tasks run_task].
    + change (set_strong (wrapS 32 (strong b - 1)) b) with (decremented b).
      rewrite (on_obj_const o (fun b => set_collecting true (decremented b)) h b E).
      rewrite (on_obj_get _ _ _ _ E), run_none. unfold on_obj, set_objs. cbn. by rewrite alter_alter_eq.
    + change (set_strong (wrapS 32 (strong b - 1)) b) with (decremented b).
      by rewrite (on_obj_const o decremented h b E).
  - assert (work (release (VWeak o)) h = S (2 * msum held_count (objs h))) as -> by (unfold work; cbn; lia).
    cbn [release run_tasks run_task release_now]. destruct (objs h !! o) as [b|] eqn:E; [|done].
    destruct (weak b =? 1); [apply run_none|]. cbn [app run_tasks].
    rewrite run_none, <- (on_obj_const o (set_weak (wrapS 32 (weak b - 1))) h b E). f_equal.
    exact (on_obj_const o (fun b => set_weak (wrapS 32 (weak b - 1)) b) h b E).
Qed.

(** A store does not interfere with a release. *)
Lemma store_on_obj p w o f h :
  (forall b, members (f b) = members b) -> (forall m b, f (set_members m b) = set_members m (f b)) ->
  on_obj o f (store p w h) = store p w (on_obj o f h).
Proof.
  intros F1 F2. destruct p as [i|i|x i]; [done|done|]. unfold store, on_obj, set_objs. cbn. f_equal.
  destruct (decide (o = x)) as [->|Hne].
  - rewrite !alter_alter_eq. apply alter_ext. intros b _. cbn. by rewrite F1, F2.
  - by apply alter_alter_ne.
Qed.

Lemma store_block p w h o :
  match objs h !! o, objs (store p w h) !! o with
  | Some b, Some b' => b' = b \/ exists i, p = InMember o i /\ b' = set_members (<[i := w]> (members b)) b
  | None, None => True
  | _, _ => False
  end.
Proof.
  destruct p as [i|i|x i]; cbn [store]; [change (objs (set_roots _ h)) with (objs h)|change (objs (set_locals _ h)) with (objs h)|].
  1,2: destruct (objs h !! o); [by left|done].
  rewrite on_obj_lookup. case_decide as E; [subst|destruct (objs h !! o); [by left|done]].
  destruct (objs h !! x); [right; by exists i|done].
Qed.

Lemma store_delete p w o h :
  set_objs (delete o (objs (store p w h))) (store p w h) = store p w (set_objs (delete o (objs h)) h).
Proof.
  destruct p as [i|i|x i]; [done|done|]. unfold store, on_obj, set_objs. cbn. f_equal.
  destruct (decide (o = x)) as [->|Hne]; [|by rewrite delete_alter_ne].
  rewrite delete_alter_eq. symmetry. apply alter_id'. by apply lookup_delete_eq.
Qed.

Lemma release_store p w v h : release_now v (store p w h) = store p w <$> release_now v h.
Proof.
  destruct v as [|o|o]; [done|..]; cbn [release_now]; pose proof (store_block p w h o) as Hb.
  - destruct (objs h !! o) as [b|] eqn:E, (objs (store p w h) !! o) as [b'|] eqn:E'; try done.
    assert (strong b' = strong b /\ collecting b' = collecting b) as [-> ->]
      by (by destruct Hb as [->|(i & _ & ->)]).
    destruct ((strong b <=? 1) && negb (collecting b)); cbn [fmap option_fmap option_map].
    + rewrite store_on_obj by done. by destruct p.
    + by rewrite store_on_obj.
  - destruct (objs h !! o) as [b|] eqn:E, (objs (store p w h) !! o) as [b'|] eqn:E'; try done.
    assert (weak b' = weak b) as -> by (by destruct Hb as [->|(i & _ & ->)]).
    destruct (weak b =? 1); cbn [fmap option_fmap option_map].
    + by rewrite store_delete.
    + by rewrite store_on_obj.
Qed.

(** A release leaves what is referred to otherwise. *)
Lemma release_effect v h h' y b :
  counts (release v) [] h -> shape (release v) [] [] h -> release_now v h = Some h' -> objs h !! y = Some b ->
  ((0 < wref h y)%nat \/ collecting b = false -> exists b', objs h' !! y = Some b' /\ members b' = members b) /\
  ((0 < sref h y)%nat -> collecting b = false -> exists b', objs h' !! y = Some b' /\ collecting b' = false).
Proof.
  intros Hc Hs Hr Ey. destruct v as [|o|o]; cbn [release_now] in Hr.
  - injection Hr as <-. split; intros; by exists b.
  - destruct (objs h !! o) as [b0|] eqn:E; [|done].
    destruct ((strong b0 <=? 1) && negb (collecting b0)) eqn:Ek; injection Hr as <-.
    + change (objs (set_queue ?q ?g)) with (objs g). rewrite on_obj_lookup. case_decide as Eo; [|split; intros; by exists b].
      subst y. rewrite E in *. injection Ey as ->. split; [intros _; by eexists|]. intros Hp _.
      pose proof (c_strong _ _ _ Hc o b E) as H. change (decs (release (VStrong o))) with [o] in H.
      rewrite occ_cons, decide_True in H by done. apply andb_true_iff in Ek as [Ek%Z.leb_le _]. lia.
    + rewrite on_obj_lookup. case_decide as Eo; [|split; intros; by exists b].
      subst y. rewrite E in *. injection Ey as ->. split; intros; by eexists.
  - destruct (objs h !! o) as [b0|] eqn:E; [|done].
    destruct (Z.eqb_spec (weak b0) 1) as [Ew|_]; injection Hr as <-.
    + cbn. destruct (decide (y = o)) as [->|Hne]; [|rewrite lookup_delete_ne by done; split; intros; by exists b].
      rewrite E in Ey. injection Ey as ->. pose proof (c_weak _ _ _ Hc o b E) as H.
      change (wdecs (release (VWeak o))) with [o] in H. rewrite occ_cons, decide_True, !occ_nil in H by done.
      assert (~ ((0 < wref h o)%nat \/ collecting b = false)) as Hn.
      { intros [Hp|Hcb]; destruct (destroyed b) eqn:Ed; cbn [negb Z.b2z] in H; try lia.
        destruct (s_dead _ _ _ _ Hs o b E Ed) as [H1 _]. destruct (s_drop _ _ _ _ Hs o b E H1) as (_ & _ & H2). congruence. }
      split; [done|]. intros _ Hcb. by destruct Hn; right.
    + rewrite on_obj_lookup. case_decide as Eo; [|split; intros; by exists b].
      subst y. rewrite E in *. injection Ey as ->. split; intros; by eexists.
Qed.

Lemma read_refs p h v : read p h = Some v ->
  match v with VPlain => True | VStrong y => (0 < sref h y)%nat | VWeak y => (0 < wref h y)%nat end.
Proof.
  intros Hr. assert (v ∈ roots h ++ locals h \/ exists o b, objs h !! o = Some b /\ v ∈ members b) as [Hv|(o & b & E & Hv)].
  { destruct p as [i|i|o i]; cbn in Hr; [left|left|right].
    - apply elem_of_app. left. by eapply list_elem_of_lookup_2.
    - apply elem_of_app. right. by eapply list_elem_of_lookup_2.
    - destruct (objs h !! o) as [b|] eqn:E; [|done]. exists o, b. split; [done|]. by eapply list_elem_of_lookup_2. }
  - destruct v as [|y|y]; [done|..].
    + apply sref_named. by apply strong_of_in.
    + unfold wref. apply weak_of_in, occ_pos in Hv. lia.
  - destruct v as [|y|y]; [done|..].
    + apply (sref_pos h o b y E). unfold children. rewrite strong_of_app. apply elem_of_app. left.
      apply elem_of_app. left. by apply strong_of_in.
    + apply (wref_pos h o b y E). unfold wchildren. rewrite weak_of_app. apply elem_of_app. left. by apply weak_of_in.
Qed.

Lemma read_store p q w h : p <> q -> read p (store q w h) = read p h.
Proof.
  intros Hne. destruct q as [j|j|x j], p as [i|i|o i]; cbn; try done.
  - apply list_lookup_insert_ne. congruence.
  - apply list_lookup_insert_ne. congruence.
  - destruct (decide (o = x)) as [->|Ho]; [|by rewrite lookup_alter_ne].
    rewrite lookup_alter_eq. destruct (objs h !! x) as [b|]; [|done]. cbn. apply list_lookup_insert_ne. congruence.
Qed.

Lemma store_twice p w v h : store p v (store p w h) = store p v h.
Proof.
  destruct p as [i|i|x i]; unfold store, set_roots, set_locals, on_obj, set_objs; cbn.
  - by rewrite list_insert_insert_eq.
  - by rewrite list_insert_insert_eq.
  - f_equal. rewrite alter_alter_eq. apply alter_ext. intros b _. cbn. unfold set_members. cbn.
    by rewrite list_insert_insert_eq.
Qed.

Lemma insert_perm (l : list value) i w old : l !! i = Some old -> old :: <[i := w]> l ≡ₚ w :: l.
Proof.
  intros E. pose proof (take_drop_middle l i old E) as Hl.
  assert (i < length l)%nat by (by eapply lookup_lt_Some).
  rewrite insert_take_drop by done. rewrite <- Hl at 3. rewrite <- !Permutation_middle. constructor.
Qed.

Lemma occ_insert l i w old y : l !! i = Some old ->
  (occ y (strong_of [old]) + occ y (strong_of (<[i := w]> l)) = occ y (strong_of [w]) + occ y (strong_of l))%nat /\
  (occ y (weak_of [old]) + occ y (weak_of (<[i := w]> l)) = occ y (weak_of [w]) + occ y (weak_of l))%nat.
Proof.
  intros E. rewrite <- !strong_cons, <- !weak_cons. pose proof (insert_perm l i w old E) as H.
  unfold occ, strong_of, weak_of. by rewrite H.
Qed.

Lemma plain_occ y : occ y (strong_of [VPlain]) = 0%nat /\ occ y (weak_of [VPlain]) = 0%nat.
Proof. done. Qed.

Lemma place_block h o i : heap_ok h -> place_ok h (InMember o i) ->
  exists b, objs h !! o = Some b /\ collecting b = false.
Proof. intros Hok [_ Ho]. by apply named_block. Qed.

Lemma vacate_store h p old : heap_ok h -> place_ok h p -> read p h = Some old ->
  counts (release old) [] (store p VPlain h) /\ shape (release old) [] [] (store p VPlain h).
Proof.
  intros Hok Hp Hr. destruct p as [i|i|o i]; cbn in Hr.
  - apply (vacate_places [VPlain] h); try done; [|by constructor]. cbn.
    by rewrite !app_comm_cons, (insert_perm _ _ _ _ Hr).
  - apply (vacate_places [VPlain] h); try done; [|by constructor]. cbn.
    rewrite !Permutation_middle. by rewrite (insert_perm _ _ _ _ Hr).
  - destruct (place_block h o i Hok Hp) as (b & E & Hcb). rewrite E in Hr. destruct Hok as [Hc Hs].
    set (f := fun b : obj => set_members (<[i := VPlain]> (members b)) b).
    change (store (InMember o i) VPlain h) with (on_obj o f h).
    destruct (shape_undead _ _ _ _ _ _ Hs E Hcb) as (Hnd & Hnx & _).
    assert (forall y, occ y (children (f b)) + occ y (strong_of [old]) = occ y (children b))%nat as H1.
    { intros y. rewrite !occ_children. cbn. destruct (occ_insert (members b) i VPlain old y Hr) as [H _].
      destruct (plain_occ y). lia. }
    assert (forall y, occ y (wchildren (f b)) + occ y (weak_of [old]) = occ y (wchildren b))%nat as H2.
    { intros y. rewrite !occ_wchildren. cbn. destruct (occ_insert (members b) i VPlain old y Hr) as [_ H].
      destruct (plain_occ y). lia. }
    split.
    + apply (vacate_counts h); try done.
      * intros y. pose proof (sref_alter o f h b y E). specialize (H1 y). lia.
      * intros y. pose proof (wref_alter o f h b y E). specialize (H2 y). lia.
      * intros k b' Hk. destruct (on_obj_cases o f h b k b' E Hk) as [[-> ->]|[_ Hk']]; [by exists b|by exists b'].
      * intros k. apply on_obj_None.
    + apply shape_release, (shape_one _ _ _ _ o b); try done. split; try done; cbn.
      * intros y Hy%occ_pos. apply occ_pos. specialize (H1 y). lia.
      * congruence.
      * congruence.
      * exact (s_actor _ _ _ _ Hs o b E).
Qed.

Lemma fill_store h p v : heap_ok h -> place_ok h p -> read p h = Some VPlain -> live_value h v ->
  grows [] [v] h (store p v h).
Proof.
  intros Hok Hp Hr Hl. destruct p as [i|i|o i]; cbn in Hr.
  - apply (grows_places [VPlain]); try done; [|by constructor]. cbn.
    by rewrite !app_comm_cons, (insert_perm _ _ _ _ Hr).
  - apply (grows_places [VPlain]); try done; [|by constructor]. cbn.
    rewrite !Permutation_middle. by rewrite (insert_perm _ _ _ _ Hr).
  - destruct (place_block h o i Hok Hp) as (b & E & Hcb). rewrite E in Hr.
    apply (grows_in h o b); try done.
    + by split; try done; cbn; rewrite Hcb.
    + intros y. rewrite !occ_children. cbn. destruct (occ_insert (members b) i v VPlain y Hr) as [H _].
      destruct (plain_occ y). lia.
    + intros y. rewrite !occ_wchildren. cbn. destruct (occ_insert (members b) i v VPlain y Hr) as [_ H].
      destruct (plain_occ y). lia.
Qed.

Lemma refs_store p w h : refs (store p w h) = refs h.
Proof.
  destruct p as [i|i|o i]; unfold refs; cbn; rewrite ?length_insert; try done.
  destruct (objs h !! o) as [b|] eqn:E; [|by rewrite alter_id'].
  pose proof (msum_alter held_count (fun b => set_members (<[i := w]> (members b)) b) (objs h) o b E) as H.
  unfold held_count at 2 4 in H. cbn in H. rewrite length_insert in H. lia.
Qed.

Lemma store_collecting p w h o : collecting_at (store p w h) o = collecting_at h o.
Proof.
  pose proof (store_block p w h o) as H. unfold collecting_at.
  destruct (objs h !! o), (objs (store p w h) !! o); try done. by destruct H as [->|(i & _ & ->)].
Qed.

Lemma read_stored p w h : is_Some (read p h) -> read p (store p w h) = Some w.
Proof.
  intros [v Hv]. destruct p as [i|i|o i]; cbn in *.
  - apply list_lookup_insert_eq. by eapply lookup_lt_Some.
  - apply list_lookup_insert_eq. by eapply lookup_lt_Some.
  - rewrite lookup_alter_eq. destruct (objs h !! o) as [b|]; [|done]. cbn. apply list_lookup_insert_eq.
    by eapply lookup_lt_Some.
Qed.

(** A release changes no Value that something alive holds. *)
Lemma release_read v h h' p w :
  counts (release v) [] h -> shape (release v) [] [] h -> release_now v h = Some h' -> later h h' ->
  read p h = Some w -> match p with InMember o _ => collecting_at h o = false | _ => True end ->
  read p h' = Some w.
Proof.
  intros Hc Hs E L Hr Hp. destruct p as [i|i|o i]; cbn in *; [by rewrite (l_roots _ _ L)|by rewrite (l_locals _ _ L)|].
  unfold collecting_at in Hp. destruct (objs h !! o) as [b|] eqn:Eb; [|done].
  destruct (proj1 (release_effect v h h' o b Hc Hs E Eb) (or_intror Hp)) as (b' & -> & ->). done.
Qed.

Lemma place_held h p : heap_ok h -> place_ok h p -> match p with InMember o _ => collecting_at h o = false | _ => True end.
Proof. intros Hok [_ Hp]. destruct p as [i|i|o i]; [done|done|]. by apply named_live. Qed.

Lemma assign_ok h dst src :
  heap_ok h -> place_ok h dst -> place_ok h src -> dst <> src -> room 1 h ->
  exists h', assign dst src h = Some h' /\ heap_ok h'.
Proof.
  intros Hok Hd Hs Hne Hr. destruct (proj1 Hd) as [old Hold]. destruct (proj1 Hs) as [v Hv].
  destruct (vacate_store h dst old Hok Hd Hold) as [Hc0 Hs0]. set (h0 := store dst VPlain h) in *.
  destruct (run_all_ok false _ _ _ _ _ Hc0 Hs0) as (h1' & E1 & Hc1 & Hs1).
  assert (heap_ok h1') as Hok1 by (by split).
  destruct (run_tasks_later _ _ _ _ _ E1) as (L1 & _ & _). rewrite release_run in E1.
  assert (forall p w, read p h0 = Some w -> match p with InMember o _ => collecting_at h o = false | _ => True end ->
    read p h1' = Some w) as Hread.
  { intros p w Hw Hp. eapply release_read; [done..|]. destruct p; try done. unfold h0. by rewrite store_collecting. }
  assert (read dst h1' = Some VPlain) as Hdst.
  { apply Hread; [|by apply place_held]. apply read_stored. by eexists. }
  assert (read src h0 = Some v) as Hv0 by (unfold h0; by rewrite read_store by congruence).
  assert (read src h1' = Some v) as Hv1 by (by apply Hread; [|apply place_held]).
  assert (live_value h1' v) as Hl.
  { pose proof (read_live h src v Hok Hs Hv) as Hl. pose proof (read_refs src h0 v Hv0) as Hp.
    assert (forall y, is_Some (objs h !! y) -> exists b0, objs h0 !! y = Some b0) as H0.
    { intros y [b E]. pose proof (store_block dst VPlain h y) as H. fold h0 in H. rewrite E in H.
      destruct (objs h0 !! y); [eauto|done]. }
    destruct v as [|y|y]; [done|..].
    - destruct Hl as [Hl Hcy]. destruct (H0 y Hl) as [b0 E0]. rewrite <- (store_collecting dst VPlain) in Hcy.
      fold h0 in Hcy. unfold collecting_at in Hcy. rewrite E0 in Hcy.
      destruct (proj2 (release_effect old h0 h1' y b0 Hc0 Hs0 E1 E0) Hp Hcy) as (b' & E' & Hcb').
      split; [by eexists|]. unfold collecting_at. by rewrite E'.
    - destruct (H0 y Hl) as [b0 E0].
      destruct (proj1 (release_effect old h0 h1' y b0 Hc0 Hs0 E1 E0) (or_introl Hp)) as (b' & E' & _). by eexists. }
  assert (place_ok h1' dst) as Hd1.
  { split; [by eexists|]. destruct Hd as [_ Hd]. destruct dst as [i|i|o i]; [done|done|].
    rewrite (later_named _ _ L1). exact Hd. }
  pose proof (fill_store h1' dst v Hok1 Hd1 Hdst Hl) as Hg.
  pose proof E1 as E1'. unfold h0 in E1'. rewrite release_store in E1'. apply fmap_Some in E1' as (h1 & E1h & ->).
  rewrite store_twice in Hg. rewrite read_store in Hv1 by congruence.
  unfold assign. rewrite Hold, release_run, E1h, Hv1, <- acquires_one.
  apply (grows_ok [] [v] (store dst VPlain h1) (store dst v h1) Hok1 Hg).
  pose proof (later_refs _ _ L1) as Hle. unfold h0 in Hle. rewrite !refs_store in *. unfold room in Hr. lia.
Qed.

(** Both halves of an assignment are the assignment. *)
Lemma assign_halves dst src h : dst <> src ->
  assign dst src h = match assign_release dst h with Some h => assign_copy dst src h | None => None end.
Proof.
  intros Hne. unfold assign, assign_release, assign_copy. destruct (read dst h) as [old|]; [|done].
  rewrite !release_run, release_store. destruct (release_now old h) as [h1|]; [|done]. simpl.
  rewrite read_store by congruence. destruct (read src h1) as [v|]; [|done]. by rewrite store_twice.
Qed.

Lemma assign_release_ok h dst : heap_ok h -> place_ok h dst ->
  exists h', assign_release dst h = Some h' /\ heap_ok h'.
Proof.
  intros Hok Hd. destruct (proj1 Hd) as [old Hold]. destruct (vacate_store h dst old Hok Hd Hold) as [Hc Hs].
  destruct (run_all_ok false _ _ _ _ _ Hc Hs) as (h' & E & Hc' & Hs'). exists h'.
  unfold assign_release. rewrite Hold. by split.
Qed.

Lemma assign_copy_ok h dst src : heap_ok h -> place_ok h dst -> read dst h = Some VPlain -> place_ok h src ->
  room 1 h -> exists h', assign_copy dst src h = Some h' /\ heap_ok h'.
Proof.
  intros Hok Hd Hold Hs Hr. destruct (proj1 Hs) as [v Hv]. unfold assign_copy. rewrite Hv, <- acquires_one.
  apply (grows_ok [] [v] h (store dst v h) Hok).
  - apply fill_store; [done..|]. by apply (read_live h src).
  - rewrite refs_store. unfold room in Hr. lia.
Qed.

(** ** Every state *)

Lemma empty_heap_ok : heap_ok empty_heap.
Proof.
  split; split; try done; try (by intros; exfalso; eapply not_elem_of_nil); try apply NoDup_nil_2.
  - intros o H. by apply elem_of_nil in H.
  - intros o H. by apply elem_of_nil in H.
  - intros o. split; [by intros ?%elem_of_nil|by intros (b & E & _)].
Qed.

Lemma weakRef_live h v : heap_ok h -> live_value h v -> live_value h (weakRef v).
Proof. intros _. destruct v; [done| |done]. by intros [? _]. Qed.

Lemma strongRef_spec h o : heap_ok h ->
  strongRef (VWeak o) h = if is_alive h o then VStrong o else VPlain.
Proof.
  intros [Hc Hs]. unfold strongRef, is_alive. destruct (objs h !! o) as [b|] eqn:E; [|done].
  destruct (alive b) eqn:Ea; [|done]. cbn. rewrite (s_alive _ _ _ _ Hs o b E) in Ea.
  change (retires []) with (@nil Z) in Ea. rewrite bool_decide_eq_false_2, orb_false_r in Ea by apply not_elem_of_nil.
  apply negb_true_iff in Ea. pose proof (c_live _ _ _ Hc o b E Ea). by destruct (Z.ltb_spec 0 (strong b)); [|lia].
Qed.

Lemma alive_collecting h o b : heap_ok h -> objs h !! o = Some b -> alive b = negb (collecting b).
Proof.
  intros [_ Hs] E. rewrite (s_alive _ _ _ _ Hs o b E). change (retires []) with (@nil Z).
  by rewrite bool_decide_eq_false_2, orb_false_r by apply not_elem_of_nil.
Qed.

Lemma strongRef_live h v : heap_ok h -> live_value h v -> live_value h (strongRef v h).
Proof.
  intros Hok Hl. destruct v as [|o|o]; [done|done|]. rewrite strongRef_spec by done. unfold is_alive.
  destruct Hl as [b E]. rewrite E. destruct (alive b) eqn:Ea; [|done]. split; [by eexists|].
  unfold collecting_at. rewrite E. rewrite (alive_collecting h o b Hok E) in Ea. by apply negb_true_iff.
Qed.

Lemma run_ok p h : heap_ok h -> valid p h -> exists h', run p h = Some h' /\ heap_ok h'.
Proof.
  intros Hok Hv. destruct p; cbn [run valid] in *.
  - destruct Hv. by apply create_ok.
  - destruct Hv as [[[v Hv] Hp] Hr]. rewrite Hv. apply push_local_ok; [done| |done].
    eapply read_live; [done| |done]. split; [by eexists|done].
  - destruct Hv as [[[v Hv] Hp] Hr]. rewrite Hv. apply push_root_ok; [done| |done].
    eapply read_live; [done| |done]. split; [by eexists|done].
  - by apply push_local_ok.
  - destruct Hv as (Hd & Hs & Hne & Hr). by apply assign_ok.
  - by apply assign_release_ok.
  - destruct Hv as (Hd & Hp & Hs & _ & Hr). by apply assign_copy_ok.
  - by apply pop_local_ok.
  - by apply pop_root_ok.
  - destruct Hv as (Ho & [[v Hv] Hp] & Hr). rewrite Hv. apply append_ok; [done|done| |done].
    eapply read_live; [done| |done]. split; [by eexists|done].
  - destruct Hv as (Ho & Ha & [[v Hv] Hp] & Hr). rewrite Hv. apply append_native_ok; [done|done|done| |done].
    eapply read_live; [done| |done]. split; [by eexists|done].
  - destruct Hv as [[[v Hv] Hp] Hr]. rewrite Hv. apply push_local_ok; [done| |done].
    apply weakRef_live; [done|]. eapply read_live; [done| |done]. split; [by eexists|done].
  - destruct Hv as [[[v Hv] Hp] Hr]. rewrite Hv. apply push_local_ok; [done| |done].
    apply strongRef_live; [done|]. eapply read_live; [done| |done]. split; [by eexists|done].
  - destruct Hv as (Ho & Hs & Hr). destruct (objs h !! o) as [b|] eqn:E; [|done]. by eapply saveVersion_ok.
  - rewrite Forall_forall in Hv. destruct (performCollection_ok minEpoch scan h Hok Hv) as (h' & E & Hcl). exists h'. split; [done|apply Hcl].
  - exists (retireObjects h). split; [done|by apply retire_ok].
  - destruct (reclaim_round_ok h Hok Hv) as (h' & E & Hr). exists h'. split; [done|apply Hr].
  - by apply finalize_ok.
Qed.

Lemma reachable_ok h : reachable h -> heap_ok h.
Proof.
  revert h. refine (rtc_ind_r heap_ok _ empty_heap_ok _). intros h1 h2 _ (p & Hv & E) IH.
  destruct (run_ok p h1 IH Hv) as (h' & E' & Hok). congruence.
Qed.

(** ** What the program may still reach *)

Definition live_from (h : heap) (o : Z) : Prop := exists r, r ∈ named h /\ rtc (edge h) r o.

(** By what it holds, version chains apart. *)
Definition holds (h : heap) (x y : Z) : Prop :=
  exists b, objs h !! x = Some b /\ y ∈ strong_of (members b ++ natives b).
Definition held_from (h : heap) (o : Z) : Prop := exists r, r ∈ named h /\ rtc (holds h) r o.

Lemma edge_live h x y : heap_ok h -> edge h x y -> collecting_at h x = false -> 
  is_Some (objs h !! y) /\ collecting_at h y = false.
Proof.
  intros Hok Hxy Hx. split; [by apply (heap_edges_in h Hok x)|]. destruct Hxy as (b & E & Hy).
  unfold collecting_at in Hx. rewrite E in Hx. destruct Hok as [_ Hs]. apply not_true_is_false. intros Hcy.
  pose proof (s_closed _ _ _ _ Hs x b y E Hy Hcy). congruence.
Qed.

Lemma live_ok h o : heap_ok h -> live_from h o -> is_Some (objs h !! o) /\ collecting_at h o = false.
Proof.
  intros Hok (r & Hr & Hp). revert o Hp.
  refine (rtc_ind_r (fun o => is_Some (objs h !! o) /\ collecting_at h o = false) r (named_live h r Hok Hr) _).
  intros x y _ Hxy [_ IH]. by eapply edge_live.
Qed.

Lemma live_block h o : heap_ok h -> live_from h o ->
  exists b, objs h !! o = Some b /\ alive b = true /\ collecting b = false /\ destroyed b = false /\
    1 <= strong b /\ strong b = Z.of_nat (sref h o) /\ o ∉ queue h ++ swept h ++ finalizing h.
Proof.
  intros Hok Hl. destruct (live_ok h o Hok Hl) as [[b E] Hcb]. unfold collecting_at in Hcb. rewrite E in Hcb.
  exists b. pose proof (alive_collecting h o b Hok E) as Ha. rewrite Hcb in Ha. destruct Hok as [Hc Hs].
  destruct (shape_undead _ _ _ _ _ _ Hs E Hcb) as (_ & Hd & Hn). pose proof (c_live _ _ _ Hc o b E Hcb).
  pose proof (c_strong _ _ _ Hc o b E) as Hst. change (decs []) with (@nil Z) in Hst. rewrite occ_nil, Nat.add_0_r in Hst.
  split_and!; try done. unfold claimed in Hn. cbn in Hn. by rewrite app_nil_r in Hn.
Qed.

(** What is held stays, as it was, when no claim reaches it. *)
Lemma held_kept h h' o : heap_ok h' -> intact h h' -> named h' = named h -> held_from h o ->
  exists b b', objs h !! o = Some b /\ objs h' !! o = Some b' /\ collecting b' = false /\
    members b' = members b /\ natives b' = natives b.
Proof.
  intros Hok Hi Hn (r & Hr & Hp).
  enough (is_Some (objs h' !! o) /\ collecting_at h' o = false) as [[b' E'] Hc'].
  { destruct (Hi o b' E') as (b & E & K). unfold collecting_at in Hc'. rewrite E' in Hc'.
    destruct (K Hc') as (_ & ? & ?). by exists b, b'. }
  rewrite <- Hn in Hr. revert o Hp.
  refine (rtc_ind_r (fun o => is_Some (objs h' !! o) /\ collecting_at h' o = false) r (named_live h' r Hok Hr) _).
  intros y z _ Hxy [[b' E'] Hc']. apply (edge_live h' y); [done| |done]. destruct (Hi y b' E') as (b & E & K).
  unfold collecting_at in Hc'. rewrite E' in Hc'. destruct (K Hc') as (_ & Em & En).
  destruct Hxy as (b0 & E0 & Hin). rewrite E in E0. injection E0 as <-. exists b'. split; [done|].
  unfold children. rewrite Em, En. apply elem_of_app. by left.
Qed.

(** ** Claims *)

(** C5. Whatever the mutators, the collector and the reclaimer have done so far by valid
    operations, any further valid one has a result (it uses no freed block).  Valid:
    it names its places through live objects, a collection's scan finds the Values of
    native frames, no count overflows, a Value is not assigned to itself; an assignment
    may be interrupted between the release of the old reference and the copy of the
    source as long as the source does not lie in a block the release gave up, and is
    one step otherwise.  Afterwards every object that a root or a local reaches through strong references and version
    chains is there, alive, in no queue of dead objects, and its count is exactly
    the number of references to it; and a weak reference in a place the program can
    read gives its object back exactly when its death is not claimed. *)
Theorem no_live_object_freed p h :
  reachable h -> valid p h ->
  exists h', run p h = Some h' /\
    (forall o, live_from h' o ->
       exists b, objs h' !! o = Some b /\ alive b = true /\ collecting b = false /\ destroyed b = false /\
         1 <= strong b /\ strong b = Z.of_nat (sref h' o) /\ o ∉ queue h' ++ swept h' ++ finalizing h') /\
    (forall src o, place_ok h' src -> read src h' = Some (VWeak o) ->
       exists b, objs h' !! o = Some b /\ strongRef (VWeak o) h' = if collecting b then VPlain else VStrong o).
Proof.
  intros Hr Hv. destruct (run_ok p h (reachable_ok h Hr) Hv) as (h' & E & Hok). exists h'. split; [done|].
  split; [intros o; by apply live_block|]. intros src o Hp Hw. destruct (read_live h' src _ Hok Hp Hw) as [b Eb].
  exists b. split; [done|]. rewrite strongRef_spec by done. unfold is_alive.
  rewrite Eb, (alive_collecting h' o b Hok Eb). by destruct (collecting b).
Qed.

(** C6. A collection and the reclamation that follows end; every object that neither
    the roots nor the scanned stacks reach is destroyed, or, being an actor, is in
    the hands of the lifecycle thread; and every object the program holds stays,
    alive, with what it held. *)
Theorem collection_exact minEpoch scan h :
  reachable h -> valid (OCollect minEpoch scan) h -> room 1 h ->
  exists h1 h2, performCollection minEpoch scan h = Some h1 /\
    freeObjects (retireObjects h1) = Some h2 /\ queue h2 = [] /\ swept h2 = [] /\
    (forall o, o ∈ registry h -> (forall r, r ∈ strong_of (roots h) ++ scan -> ~ rtc (edge h) r o) ->
       o ∉ registry h2 \/ (o ∈ finalizing h2 /\ is_actor h2 o = true)) /\
    (forall o, held_from h o -> exists b b', objs h !! o = Some b /\ objs h2 !! o = Some b' /\ alive b' = true /\
       collecting b' = false /\ members b' = members b /\ natives b' = natives b).
Proof.
  intros Hre Hv Hroom. pose proof (reachable_ok h Hre) as Hok. cbn in Hv. rewrite Forall_forall in Hv.
  destruct (performCollection_ok minEpoch scan h Hok Hv) as (h1 & E1 & Hcl).
  destruct (freeObjects_ok (retireObjects h1)) as (h2 & E2 & Hok2 & Hq2 & Hst).
  { apply retire_ok, Hcl. }
  { pose proof (cl_refs _ _ _ Hcl). unfold room in *. change (refs (retireObjects h1)) with (refs h1). lia. }
  exists h1, h2. do 3 (split; [done|]). split; [by rewrite (st_swept _ _ Hst)|].
  assert (intact h1 h2) as Hi by (apply grown_intact; [done|apply Hst]). split.
  - intros o Ho Hun. destruct (decide (o ∈ registry h2)) as [Hin|]; [right|by left].
    pose proof Hok2 as [_ Hs2]. destruct (proj1 (s_reg _ _ _ _ Hs2 o) Hin) as (b2 & Eb2 & Hd2).
    destruct (Hi o b2 Eb2) as (b1 & Eb1 & K).
    assert (collecting b2 = true) as Hc2.
    { apply not_false_is_true. intros Hc. destruct (K Hc) as (Hc1 & _).
      destruct (cl_only _ _ _ Hcl o) as (r & Hr & Hp); [by eexists|unfold collecting_at; by rewrite Eb1|].
      apply (Hun r); [|done]. apply elem_of_app. destruct Hr; auto. }
    assert (o ∈ claimed [] [] h2) as Hcm by (by apply (s_class _ _ _ _ Hs2 o b2 Eb2)).
    unfold claimed in Hcm. rewrite Hq2, (st_swept _ _ Hst) in Hcm. cbn in Hcm. rewrite app_nil_r in Hcm.
    split; [done|]. by apply (s_fin _ _ _ _ Hs2).
  - intros o Ho. destruct (held_kept h h2 o Hok2) as (b & b' & Eb & Eb' & Hc & Hm & Hn).
    + etrans; [apply Hcl|done].
    + unfold named. rewrite (st_roots _ _ Hst), (st_locals _ _ Hst). cbn.
      by rewrite (cl_roots _ _ _ Hcl), (cl_locals _ _ _ Hcl).
    + done.
    + exists b, b'. split_and!; try done. by rewrite (alive_collecting h2 o b' Hok2 Eb'), Hc.
Qed.

(** ** Examples *)

Definition run_ops (ops : list op) (h : heap) : heap := fold_left (fun h p => default h (run p h)) ops h.
Fixpoint valid_ops (ops : list op) (h : heap) : bool :=
  match ops with
  | [] => true
  | p :: ops => bool_decide (valid p h) && valid_ops ops (default h (run p h))
  end.

Lemma run_ops_reachable ops : forall h, reachable h -> valid_ops ops h = true -> reachable (run_ops ops h).
Proof.
  induction ops as [|p ops IH]; intros h Hr Hv; [done|].
  cbn [valid_ops] in Hv. apply andb_true_iff in Hv as [Hv%bool_decide_eq_true Hvs].
  destruct (run_ok p h (reachable_ok h Hr) Hv) as (h' & E & _).
  change (run_ops (p :: ops) h) with (run_ops ops (default h (run p h))). rewrite E in *. apply IH; [|done].
  eapply rtc_r; [exact Hr|]. by exists p.
Qed.

(** Two objects that hold one another, held by nothing else; and an actor, a global,
    that holds one object and refers weakly to another. *)
Definition demo_ops : list op :=
  [OCreate 1 false; OCreate 2 false; OAppend 1 (InLocal 1); OAppend 2 (InLocal 0);
   OCreate 3 true; ORoot (InLocal 2); OWeakRef (InLocal 0); OAppend 3 (InLocal 3); OPopLocal;
   OCreate 4 false; OAppend 3 (InLocal 3); OPopLocal; OPopLocal; OPopLocal; OPopLocal].
Definition demo : heap := run_ops demo_ops empty_heap.

Lemma gc_demo_reachable : reachable demo.
Proof. apply run_ops_reachable; [constructor|vm_compute; reflexivity]. Qed.

Lemma closed_reach h os r o :
  forallb (fun x => match objs h !! x with
                    | Some b => bool_decide (children b ⊆ os)
                    | None => true
                    end) os = true ->
  r ∈ os -> rtc (edge h) r o -> o ∈ os.
Proof.
  intros Hos Hr Hp. revert o Hp. refine (rtc_ind_r (fun o => o ∈ os) r Hr _).
  intros x y _ (b & E & Hy) Hx. rewrite forallb_forall in Hos. specialize (Hos x ltac:(by apply list_elem_of_In)).
  rewrite E in Hos. apply bool_decide_eq_true in Hos. by apply Hos.
Qed.

Lemma no_live_object_freed_witness :
  valid (OCollect UINT64_MAX []) demo /\ swept <$> run (OCollect UINT64_MAX []) demo = Some [1; 2] /\
  exists h', run (OCollect UINT64_MAX []) demo = Some h' /\
    forall o, live_from h' o -> exists b, objs h' !! o = Some b /\ alive b = true /\ 1 <= strong b.
Proof.
  assert (valid (OCollect UINT64_MAX []) demo) as Hv by (apply (bool_decide_unpack _); vm_compute; exact I).
  split; [exact Hv|]. split; [vm_compute; reflexivity|].
  destruct (no_live_object_freed (OCollect UINT64_MAX []) demo gc_demo_reachable Hv) as (h' & E & Hl & _).
  exists h'. split; [exact E|]. intros o Ho. destruct (Hl o Ho) as (b & H1 & H2 & _ & _ & H3 & _). eauto.
Defined.

Lemma collection_exact_witness :
  room 1 demo /\ registry demo = [1; 2; 3; 4] /\
  exists h1 h2, performCollection UINT64_MAX [] demo = Some h1 /\ freeObjects (retireObjects h1) = Some h2 /\
    queue h2 = [] /\ (1 ∉ registry h2 \/ (1 ∈ finalizing h2 /\ is_actor h2 1 = true)) .
Proof.
  assert (valid (OCollect UINT64_MAX []) demo) as Hv by (apply (bool_decide_unpack _); vm_compute; exact I).
  assert (room 1 demo) as Hr by (vm_compute; reflexivity).
  split; [exact Hr|]. split; [vm_compute; reflexivity|].
  destruct (collection_exact UINT64_MAX [] demo gc_demo_reachable Hv Hr) as (h1 & h2 & E1 & E2 & Hq & _ & Hgone & _).
  exists h1, h2. split; [exact E1|]. split; [exact E2|]. split; [exact Hq|]. apply Hgone.
  - apply (bool_decide_unpack _). vm_compute. exact I.
  - intros r Hr' Hp. apply (closed_reach demo [3; 4] r 1) in Hp; [|vm_compute; reflexivity|].
    + revert Hp. apply (bool_decide_unpack _). vm_compute. exact I.
    + assert (Forall (fun r => r ∈ [3; 4]) (strong_of (roots demo) ++ [])) as Hall
        by (apply (bool_decide_unpack _); vm_compute; exact I).
      rewrite Forall_forall in Hall. by apply Hall.
Defined.

(** A Value assigned to itself gives its object up before it takes it again: the
    object is queued while the Value still refers to it. *)
Lemma self_assignment_queues :
  let h := run_ops [OCreate 1 false] empty_heap in
  reachable h /\ exists h', assign (InLocal 0) (InLocal 0) h = Some h' /\ 1 ∈ named h' /\ queue h' = [1].
Proof.
  cbv zeta. split; [apply run_ops_reachable; [constructor|vm_compute; reflexivity]|].
  eexists. split; [vm_compute; reflexivity|]. split; [|reflexivity]. apply (bool_decide_unpack _). vm_compute. exact I.
Qed.

(** Local 0 holds object 1, the only reference to it, and object 1 holds object 2; the
    local is assigned what object 1 holds ([x = x.next]).  In one step it gets object 2;
    when the reclaimer comes between the two halves the source is gone. *)
Lemma source_in_released_block :
  let h := run_ops [OCreate 1 false; OCreate 2 false; OAppend 1 (InLocal 1); OPopLocal] empty_heap in
  reachable h /\ place_ok h (InMember 1 0) /\
  (exists h', assign (InLocal 0) (InMember 1 0) h = Some h' /\ locals h' = [VStrong 2]) /\
  exists h', assign_release (InLocal 0) h = Some h' /\
    match reclaim_round h' with Some h'' => objs h'' !! 1 = None /\ assign_copy (InLocal 0) (InMember 1 0) h'' = None | None => False end.
Proof.
  cbv zeta. split; [apply run_ops_reachable; [constructor|vm_compute; reflexivity]|].
  split; [apply (bool_decide_unpack _); vm_compute; exact I|]. split.
  - eexists. split; vm_compute; reflexivity.
  - eexists. split; [vm_compute; reflexivity|]. vm_compute. auto.
Qed.

End GcProofs.
