(* ===== verification/GcBarrier.v ===== *)
(** * GcBarrier: how a collection stops the world (compiler/SimpleMarkSweepGC)

    A collection may run only while no thread is on the heap.  Threads tell the
    collector through their MutatorContext, changed under [mutex_]; real-time
    threads through a counter, without a lock; the reclaimer through another.  A
    collection is requested without a lock, by any thread, and performed by the
    collector thread (builds with a dedicated collector) or by a thread that elects
    itself at a safepoint.

    Each code path is cut into steps at the points where other threads can come in
    between: a wait, a release of the mutex, and every access to an atomic outside
    it.  A step that needs the mutex is not enabled while someone else holds it.
    Condition variables wake spuriously here: a waiter may look again at any time.

    Shutdown ([stopCollectorThread], [collectNowForShutdown]) and the waking of
    sleeping threads are not modelled. *)

From S2P Require Import Prelude.
From stdpp Require Import numbers pretty.

Module GcBarrier.

Local Open Scope Z_scope.

(** ** State *)

(** MutatorContext::State. *)
Inductive mstate := Inactive | Running | Parked | SafeBlocked.
#[global] Instance mstate_eq_dec : EqDecision mstate.
Proof. solve_decision. Defined.

Record ctx := mkCtx { state : mstate; runningDepth : Z }.

(** Where a thread is. *)
Inductive loc :=
| AtUser
| AtEnter                 (* enterRunning, waiting at its gate *)
| AtUnblock               (* blockExit, waiting at its gate *)
| AtPoll                  (* pollContext, past the tests it makes without the lock *)
| AtWait                  (* parked; another thread collects *)
| AtElect                 (* parked; waiting at the barrier to collect itself *)
| AtRecheck               (* out of the barrier's loop; the mutex is held *)
| AtDrain                 (* admitted; waiting for the reclaimer *)
| AtCollect               (* in performCollection; the mutex is held *)
| AtCollected             (* performCollection has returned; the mutex is held *)
| AtTail (pushed : bool)  (* unlocked; the sweep is about to be published *)
| AtFree                  (* in freeObjects *)
| AtFence
| AtTry                   (* tryEnterGCSection: counted, the request not read yet *)
| AtTry2                  (* no request; collectionInProgress_ not read yet *)
| AtCall                  (* requestCollect *)
| AtRequest
| AtLatch
| AtRepeat
| AtTake
| AtPublish
| AtScope                 (* ~CollectionDeferralScope, the last one out *)
| AtDisable.              (* setEnabled(false), the request not withdrawn yet *)
#[global] Instance loc_eq_dec : EqDecision loc.
Proof. solve_decision. Defined.

Record thread := mkThread {
  at_ : loc;
  context : option ctx;      (* tlContext_ *)
  prior : mstate;            (* pollContext's local *)
  sectionDepth : Z;          (* tlGCYieldSectionDepth_ *)
  noParkDepth : Z;           (* tlGCNoParkDepth_ *)
  scopes : nat;              (* its live CollectionDeferralScopes *)
}.

(** Where the collector thread is. *)
Inductive cloc :=
| CWait | CBarrier | CRecheck | CCollect | CCollected
| CTail | CTailFree | CTailEnd | CDrain | CDrainFree | CDrainEnd.
#[global] Instance cloc_eq_dec : EqDecision cloc.
Proof. solve_decision. Defined.

Inductive who := Mutator (t : Z) | Collector.
#[global] Instance who_eq_dec : EqDecision who.
Proof. solve_decision. Defined.

Record gc := mkGc {
  gcEnabled : bool;
  requested : bool;
  inProgress : bool;
  worldStopped : bool;
  fence : bool;               (* reclaimInProgress_ *)
  external : option who;      (* externalCollectorActive_ and its thread *)
  dedicated : bool;           (* dedicatedCollectorActive_ *)
  sections : Z;               (* rtSectionCount_, uint32 *)
  draining : Z;               (* reclaimDraining_, int *)
  deferralDepth : Z;          (* int *)
  deferredPending : bool;
  mutex : option who;         (* who holds mutex_ between two steps *)
  threads : gmap Z thread;
  col : cloc;
}.

Definition set_gcEnabled (x : bool) (s : gc) : gc :=
  mkGc x (requested s) (inProgress s) (worldStopped s) (fence s) (external s) (dedicated s)
    (sections s) (draining s) (deferralDepth s) (deferredPending s) (mutex s) (threads s) (col s).
Definition set_requested (x : bool) (s : gc) : gc :=
  mkGc (gcEnabled s) x (inProgress s) (worldStopped s) (fence s) (external s) (dedicated s)
    (sections s) (draining s) (deferralDepth s) (deferredPending s) (mutex s) (threads s) (col s).
Definition set_inProgress (x : bool) (s : gc) : gc :=
  mkGc (gcEnabled s) (requested s) x (worldStopped s) (fence s) (external s) (dedicated s)
    (sections s) (draining s) (deferralDepth s) (deferredPending s) (mutex s) (threads s) (col s).
Definition set_worldStopped (x : bool) (s : gc) : gc :=
  mkGc (gcEnabled s) (requested s) (inProgress s) x (fence s) (external s) (dedicated s)
    (sections s) (draining s) (deferralDepth s) (deferredPending s) (mutex s) (threads s) (col s).
Definition set_fence (x : bool) (s : gc) : gc :=
  mkGc (gcEnabled s) (requested s) (inProgress s) (worldStopped s) x (external s) (dedicated s)
    (sections s) (draining s) (deferralDepth s) (deferredPending s) (mutex s) (threads s) (col s).
Definition set_external (x : option who) (s : gc) : gc :=
  mkGc (gcEnabled s) (requested s) (inProgress s) (worldStopped s) (fence s) x (dedicated s)
    (sections s) (draining s) (deferralDepth s) (deferredPending s) (mutex s) (threads s) (col s).
Definition set_sections (x : Z) (s : gc) : gc :=
  mkGc (gcEnabled s) (requested s) (inProgress s) (worldStopped s) (fence s) (external s)
    (dedicated s) x (draining s) (deferralDepth s) (deferredPending s) (mutex s) (threads s) (col s).
Definition set_draining (x : Z) (s : gc) : gc :=
  mkGc (gcEnabled s) (requested s) (inProgress s) (worldStopped s) (fence s) (external s)
    (dedicated s) (sections s) x (deferralDepth s) (deferredPending s) (mutex s) (threads s) (col s).
Definition set_deferralDepth (x : Z) (s : gc) : gc :=
  mkGc (gcEnabled s) (requested s) (inProgress s) (worldStopped s) (fence s) (external s)
    (dedicated s) (sections s) (draining s) x (deferredPending s) (mutex s) (threads s) (col s).
Definition set_deferredPending (x : bool) (s : gc) : gc :=
  mkGc (gcEnabled s) (requested s) (inProgress s) (worldStopped s) (fence s) (external s)
    (dedicated s) (sections s) (draining s) (deferralDepth s) x (mutex s) (threads s) (col s).
Definition set_mutex (x : option who) (s : gc) : gc :=
  mkGc (gcEnabled s) (requested s) (inProgress s) (worldStopped s) (fence s) (external s)
    (dedicated s) (sections s) (draining s) (deferralDepth s) (deferredPending s) x (threads s) (col s).
Definition set_threads (x : gmap Z thread) (s : gc) : gc :=
  mkGc (gcEnabled s) (requested s) (inProgress s) (worldStopped s) (fence s) (external s)
    (dedicated s) (sections s) (draining s) (deferralDepth s) (deferredPending s) (mutex s) x (col s).
Definition set_col (x : cloc) (s : gc) : gc :=
  mkGc (gcEnabled s) (requested s) (inProgress s) (worldStopped s) (fence s) (external s)
    (dedicated s) (sections s) (draining s) (deferralDepth s) (deferredPending s) (mutex s) (threads s) x.

Definition go (l : loc) (th : thread) : thread :=
  mkThread l (context th) (prior th) (sectionDepth th) (noParkDepth th) (scopes th).
Definition set_context (c : ctx) (th : thread) : thread :=
  mkThread (at_ th) (Some c) (prior th) (sectionDepth th) (noParkDepth th) (scopes th).
Definition set_prior (x : mstate) (th : thread) : thread :=
  mkThread (at_ th) (context th) x (sectionDepth th) (noParkDepth th) (scopes th).
Definition set_sectionDepth (x : Z) (th : thread) : thread :=
  mkThread (at_ th) (context th) (prior th) x (noParkDepth th) (scopes th).
Definition set_noPark (x : Z) (th : thread) : thread :=
  mkThread (at_ th) (context th) (prior th) (sectionDepth th) x (scopes th).
Definition set_scopes (x : nat) (th : thread) : thread :=
  mkThread (at_ th) (context th) (prior th) (sectionDepth th) (noParkDepth th) x.

Definition put (t : Z) (th : thread) (s : gc) : gc := set_threads (<[t := th]> (threads s)) s.

(** ** Contexts *)

Definition ensureContext (th : thread) : ctx := default (mkCtx Inactive 0) (context th).
Definition state_of (th : thread) : mstate := state (ensureContext th).
Definition to_state (x : mstate) (th : thread) : thread :=
  set_context (mkCtx x (runningDepth (ensureContext th))) th.

Definition anyRunning (s : gc) : bool :=
  existsb (fun p : Z * thread => bool_decide (state_of p.2 = Running)) (map_to_list (threads s)).

Definition stopped (s : gc) : bool := worldStopped s || inProgress s.

Definition enterRunning (t : Z) (th : thread) (s : gc) : gc :=
  let c := ensureContext th in
  if (runningDepth c =? 0) && stopped s then put t (go AtEnter (set_context c th)) s
  else
    let d := wrapU 32 (runningDepth c + 1) in
    put t (go AtUser (set_context (mkCtx (if d =? 1 then Running else state c) d) th)) s.

Definition exitRunning (t : Z) (th : thread) (s : gc) : gc :=
  match context th with
  | None => s
  | Some c =>
      if 0 <? runningDepth c then
        let d := runningDepth c - 1 in
        put t (set_context (mkCtx (if d =? 0 then Inactive else state c) d) th) s
      else s
  end.

Definition blockEnter (t : Z) (th : thread) (s : gc) : gc := put t (to_state SafeBlocked th) s.

Definition blockExit (t : Z) (th : thread) (s : gc) : gc :=
  if stopped s then put t (go AtUnblock th) s
  else
    match context th with
    | None => put t (go AtUser th) s
    | Some c =>
        put t (go AtUser (to_state (if 0 <? runningDepth c then Running else Inactive) th)) s
    end.

(** ** pollContext *)

(** The tests made without the lock. *)
Definition poll_unlocked (t : Z) (th : thread) (s : gc) : gc :=
  if gcEnabled s && requested s && (sectionDepth th =? 0) && (noParkDepth th =? 0)
  then put t (go AtPoll th) s else s.

Definition barrier_open (s : gc) : bool := (sections s =? 0) && negb (anyRunning s).

(** The head of the election loop, the mutex held. *)
Definition elect (t : Z) (th : thread) (s : gc) : gc :=
  if requested s then
    if dedicated s || bool_decide (external s <> None) then put t (go AtWait th) s
    else if barrier_open s then set_mutex (Some (Mutator t)) (put t (go AtRecheck th) s)
    else put t (go AtElect th) s
  else set_mutex (Some (Mutator t)) (put t (go AtRecheck th) s).

Definition poll_locked (t : Z) (th : thread) (s : gc) : gc :=
  if requested s then
    match state_of th with
    | SafeBlocked => put t (go AtUser th) s
    | x =>
        let th := set_prior x (to_state Parked th) in
        if dedicated s || bool_decide (external s <> None) then put t (go AtWait th) s
        else elect t th (put t th s)
    end
  else put t (go AtUser th) s.

(** The end of the wait for the reclaimer. *)
Definition drained (t : Z) (th : thread) (s : gc) : gc :=
  if draining s =? 0
  then set_mutex (Some (Mutator t)) (set_inProgress true (put t (go AtCollect th) s))
  else set_mutex None (put t (go AtDrain th) s).

Definition recheck (t : Z) (th : thread) (s : gc) : gc :=
  if requested s
  then drained t th (set_external (Some (Mutator t)) (set_worldStopped true s))
  else set_mutex None (put t (go (AtTail false) (to_state (prior th) th)) s).

Definition collected (t : Z) (pushed : bool) (th : thread) (s : gc) : gc :=
  set_mutex None (set_external None (set_requested false (set_fence true (set_worldStopped false
    (put t (go (AtTail pushed) (to_state (prior th) th)) s))))).

Definition wait (t : Z) (th : thread) (s : gc) : gc :=
  if requested s || fence s then s else put t (go (AtTail false) (to_state (prior th) th)) s.

(** ** Real-time sections *)

Definition tryEnterGCSection (t : Z) (th : thread) (s : gc) : gc :=
  if 0 <? sectionDepth th then put t (set_sectionDepth (wrapU 32 (sectionDepth th + 1)) th) s
  else set_sections (wrapU 32 (sections s + 1)) (put t (go AtTry th) s).

Definition back_out (t : Z) (th : thread) (s : gc) : gc :=
  set_sections (wrapU 32 (sections s - 1)) (put t (go AtUser th) s).

Definition exitGCSection (t : Z) (th : thread) (s : gc) : gc :=
  if sectionDepth th =? 0 then s
  else if 0 <? sectionDepth th - 1 then put t (set_sectionDepth (sectionDepth th - 1) th) s
  else set_sections (wrapU 32 (sections s - 1)) (put t (set_sectionDepth 0 th) s).

(** ** Requests *)

Definition open_scope (t : Z) (th : thread) (s : gc) : gc :=
  set_deferralDepth (wrapS 32 (deferralDepth s + 1)) (put t (set_scopes (S (scopes th)) th) s).

Definition close_scope (t : Z) (th : thread) (s : gc) : gc :=
  let th := set_scopes (Nat.pred (scopes th)) th in
  set_deferralDepth (wrapS 32 (deferralDepth s - 1))
    (put t (if deferralDepth s =? 1 then go AtScope th else th) s).

(** ** Steps *)

Inductive call :=
| CallEnter | CallExit | CallBlock | CallUnblock | CallPoll
| CallTry | CallLeave | CallNoPark | CallPark
| CallRequest | CallOpen | CallClose | CallSetEnabled (b : bool).

Inductive act :=
| Call (t : Z) (c : call)
| Step (t : Z) (pushed : bool)        (* [pushed]: the sweep found garbage *)
| Turn (retired : bool).              (* the collector thread; the retire queue is not empty *)

Definition locked (s : gc) (k : gc) : option gc := match mutex s with None => Some k | _ => None end.

Definition run_call (t : Z) (c : call) (th : thread) (s : gc) : option gc :=
  match c with
  | CallEnter => locked s (enterRunning t th s)
  | CallExit => locked s (exitRunning t th s)
  | CallBlock => locked s (blockEnter t th s)
  | CallUnblock => locked s (blockExit t th s)
  | CallPoll => Some (poll_unlocked t th s)
  | CallTry => Some (tryEnterGCSection t th s)
  | CallLeave => Some (exitGCSection t th s)
  | CallNoPark => Some (put t (set_noPark (wrapU 32 (noParkDepth th + 1)) th) s)
  | CallPark => Some (put t (set_noPark (Z.max 0 (noParkDepth th - 1)) th) s)
  | CallRequest => Some (put t (go AtCall th) s)
  | CallOpen => Some (open_scope t th s)
  | CallClose => Some (close_scope t th s)
  | CallSetEnabled b => Some (set_gcEnabled b (put t (go (if b then AtUser else AtDisable) th) s))
  end.

Definition run_step (t : Z) (pushed : bool) (th : thread) (s : gc) : option gc :=
  match at_ th with
  | AtUser => None
  | AtEnter => locked s (enterRunning t th s)
  | AtUnblock => locked s (blockExit t th s)
  | AtPoll => locked s (poll_locked t th s)
  | AtWait => locked s (wait t th s)
  | AtElect => locked s (elect t th s)
  | AtRecheck => Some (recheck t th s)
  | AtDrain => locked s (drained t th s)
  | AtCollect => Some (set_inProgress false (put t (go AtCollected th) s))
  | AtCollected => Some (collected t pushed th s)
  | AtTail true => Some (set_draining (wrapS 32 (draining s + 1)) (put t (go AtFree th) s))
  | AtTail false => Some (put t (go AtFence th) s)
  | AtFree => Some (set_draining (wrapS 32 (draining s - 1)) (put t (go AtFence th) s))
  | AtFence => Some (set_fence false (put t (go AtUser th) s))
  | AtTry => if requested s then Some (back_out t th s) else Some (put t (go AtTry2 th) s)
  | AtTry2 =>
      if inProgress s then Some (back_out t th s)
      else Some (put t (go AtUser (set_sectionDepth 1 th)) s)
  | AtCall => Some (put t (go (if gcEnabled s then AtRequest else AtUser) th) s)
  | AtRequest => Some (put t (go (if 0 <? deferralDepth s then AtLatch else AtPublish) th) s)
  | AtLatch => Some (set_deferredPending true (put t (go AtRepeat th) s))
  | AtRepeat => Some (put t (go (if 0 <? deferralDepth s then AtUser else AtTake) th) s)
  | AtTake =>
      Some (set_deferredPending false (put t (go (if deferredPending s then AtPublish else AtUser) th) s))
  | AtPublish => Some (set_requested true (put t (go AtUser th) s))
  | AtScope =>
      Some (set_deferredPending false (put t (go (if deferredPending s then AtCall else AtUser) th) s))
  | AtDisable => locked s (set_requested false (put t (go AtUser th) s))
  end.

(** The collector thread: the barrier's loop, the mutex held. *)
Definition col_barrier (s : gc) : gc :=
  if requested s && negb (barrier_open s) then set_col CBarrier s
  else set_mutex (Some Collector) (set_col CRecheck s).

Definition run_collector (retired : bool) (s : gc) : option gc :=
  match col s with
  | CWait =>
      locked s
        (if dedicated s && requested s then col_barrier s
         else if retired && negb (inProgress s) then set_draining (wrapS 32 (draining s + 1)) (set_col CDrain s)
         else s)
  | CBarrier => locked s (col_barrier s)
  | CRecheck =>
      Some (if requested s
            then set_inProgress true (set_external (Some Collector) (set_worldStopped true (set_col CCollect s)))
            else set_mutex None (set_col CWait s))
  | CCollect => Some (set_inProgress false (set_col CCollected s))
  | CCollected =>
      Some (set_mutex None (set_external None (set_requested false (set_fence true
             (set_worldStopped false (set_col CTail s))))))
  | CTail => Some (set_draining (wrapS 32 (draining s + 1)) (set_col CTailFree s))
  | CTailFree => Some (set_draining (wrapS 32 (draining s - 1)) (set_col CTailEnd s))
  | CTailEnd => locked s (set_fence false (set_col CWait s))
  | CDrain => Some (set_draining (wrapS 32 (draining s + 1)) (set_col CDrainFree s))
  | CDrainFree => Some (set_draining (wrapS 32 (draining s - 1)) (set_col CDrainEnd s))
  | CDrainEnd => locked s (set_draining (wrapS 32 (draining s - 1)) (set_col CWait s))
  end.

Definition run (a : act) (s : gc) : option gc :=
  match a with
  | Call t c =>
      match threads s !! t with
      | Some th => match at_ th with AtUser => run_call t c th s | _ => None end
      | None => None
      end
  | Step t pushed => match threads s !! t with Some th => run_step t pushed th s | None => None end
  | Turn retired => run_collector retired s
  end.

(** A poll comes from a thread that has entered; a scope is closed by the thread
    that opened it; the two nesting depths stay within their types. *)
Definition valid (a : act) (s : gc) : Prop :=
  match a with
  | Call t CallPoll => exists th, threads s !! t = Some th /\ state_of th = Running
  | Call t CallTry => exists th, threads s !! t = Some th /\ sectionDepth th + 1 < 2 ^ 32
  | Call _ CallOpen => deferralDepth s + 1 < 2 ^ 31
  | Call t CallClose => exists th, threads s !! t = Some th /\ (0 < scopes th)%nat
  | _ => True
  end.

(** Someone has left the barrier's loop and is about to read the request again. *)
Definition rechecking (s : gc) : bool :=
  match mutex s with
  | Some (Mutator t) =>
      match threads s !! t with Some th => bool_decide (at_ th = AtRecheck) | None => false end
  | Some Collector => bool_decide (col s = CRecheck)
  | None => false
  end.

(** The two windows the protocol leaves open: a request published between the
    barrier's last test and the one after it, and a request withdrawn while the
    collection it admitted waits for the reclaimer. *)
Definition calm (a : act) (s : gc) : Prop :=
  match a with
  | Step t _ =>
      match at_ <$> threads s !! t with
      | Some AtPublish => rechecking s = false
      | Some AtDisable => external s = None
      | _ => True
      end
  | _ => True
  end.

Definition fresh_thread : thread := mkThread AtUser None Inactive 0 0 0.

Definition start (ded : bool) (ts : list Z) : gc :=
  mkGc true false false false false None ded 0 0 0 false None
    (list_to_map (map (fun t => (t, fresh_thread)) ts)) CWait.

Definition moves (s s' : gc) : Prop := exists a, valid a s /\ run a s = Some s'.
Definition calm_moves (s s' : gc) : Prop := exists a, valid a s /\ calm a s /\ run a s = Some s'.

(** Any thread may come; there are fewer than 2^31 - 4 of them. *)
Definition started (s : gc) : Prop := exists ded ts, s = start ded ts /\ Z.of_nat (length ts) < 2 ^ 31 - 4.
Definition reachable (s : gc) : Prop := exists s0, started s0 /\ rtc moves s0 s.
Definition calmly (s : gc) : Prop := exists s0, started s0 /\ rtc calm_moves s0 s.

End GcBarrier.
