(* ===== verification/GcBarrierProofs.v ===== *)
(** * GcBarrierProofs: a collection has the world to itself

    The invariant of the barrier's states: what each thread's place says of the
    flags, who holds the mutex and the collection, what the two counters count.
    From it: no thread is on the heap while a collection is in progress, no
    real-time section is open, nobody frees, and one thread collects.  The latched
    request of a deferral scope is never stranded. *)

From S2P Require Import Prelude GcBarrier.
From stdpp Require Import numbers pretty.

Module GcBarrierProofs.

Import GcBarrier.
Local Open Scope Z_scope.

(** ** Invariant *)

Definition holding (l : loc) : bool :=
  match l with AtRecheck | AtCollect | AtCollected => true | _ => false end.
Definition in_window (l : loc) : bool :=
  match l with AtDrain | AtCollect | AtCollected => true | _ => false end.
Definition self_elected (l : loc) : bool :=
  match l with AtElect | AtRecheck | AtDrain | AtCollect | AtCollected | AtTail true | AtFree => true | _ => false end.
Definition col_holding (c : cloc) : bool :=
  match c with CRecheck | CCollect | CCollected => true | _ => false end.
Definition col_window (c : cloc) : bool := match c with CCollect | CCollected => true | _ => false end.
Definition col_drains (c : cloc) : Z :=
  match c with CTailFree | CDrain | CDrainEnd => 1 | CDrainFree => 2 | _ => 0 end.

Definition section_use (th : thread) : nat :=
  match at_ th with AtTry | AtTry2 => 1 | _ => if 0 <? sectionDepth th then 1 else 0 end.
Definition free_use (th : thread) : nat := match at_ th with AtFree => 1 | _ => 0 end.

(** Off the heap, and in no real-time section. *)
Definition at_rest (th : thread) : Prop :=
  state_of th <> Running /\ sectionDepth th = 0 /\ at_ th <> AtTry2.
Definition quiet (s : gc) : Prop := forall t th, threads s !! t = Some th -> at_rest th.

(** What a thread's place says of its context. *)
Definition placed (th : thread) : Prop :=
  match at_ th with
  | AtPoll | AtTail _ | AtFree | AtFence => state_of th = Running
  | AtWait | AtElect | AtRecheck | AtDrain | AtCollect | AtCollected =>
      state_of th = Parked /\ prior th = Running
  | AtTry | AtTry2 => sectionDepth th = 0
  | _ => True
  end.

Record thread_ok (s : gc) (t : Z) (th : thread) : Prop := {
  k_holding : holding (at_ th) = true <-> mutex s = Some (Mutator t);
  k_window : in_window (at_ th) = true <-> external s = Some (Mutator t);
  k_progress : at_ th = AtCollect -> inProgress s = true;
  k_placed : placed th;
  k_inline : dedicated s = true -> self_elected (at_ th) = false;
  k_depth : 0 <= sectionDepth th < 2 ^ 32;
  k_running : 0 <= runningDepth (ensureContext th) < 2 ^ 32;
}.

Record col_ok (s : gc) : Prop := {
  q_holding : col_holding (col s) = true <-> mutex s = Some Collector;
  q_window : col_window (col s) = true <-> external s = Some Collector;
  q_progress : col s = CCollect -> inProgress s = true;
  q_inline : dedicated s = false -> col s = CWait \/ col s = CDrain \/ col s = CDrainFree \/ col s = CDrainEnd;
}.

Record inv (s : gc) : Prop := {
  i_threads : forall t th, threads s !! t = Some th -> thread_ok s t th;
  i_col : col_ok s;
  i_size : Z.of_nat (size (threads s)) < 2 ^ 31 - 4;
  i_mutex : forall t, mutex s = Some (Mutator t) -> is_Some (threads s !! t);
  i_external : forall t, external s = Some (Mutator t) -> is_Some (threads s !! t);
  i_stopped : worldStopped s = bool_decide (external s <> None);
  i_progress : inProgress s = true ->
    (exists t th, threads s !! t = Some th /\ at_ th = AtCollect) \/ col s = CCollect;
  i_sections : sections s = Z.of_nat (msum section_use (threads s));
  i_draining : draining s = Z.of_nat (msum free_use (threads s)) + col_drains (col s);
  i_window : external s <> None -> requested s = true /\ quiet s;
  i_recheck : rechecking s = true -> external s = None /\ (requested s = true -> quiet s);
  i_idle : inProgress s = true -> draining s = 0;
}.

Lemma anyRunning_false s : anyRunning s = false <-> forall t th, threads s !! t = Some th -> state_of th <> Running.
Proof.
  unfold anyRunning. rewrite <- not_true_iff_false, existsb_exists. split.
  - intros H t th Ht Hr. apply H. exists (t, th). split; [|by apply bool_decide_eq_true].
    apply list_elem_of_In, elem_of_map_to_list, Ht.
  - intros H ([t th] & Hin & Hr%bool_decide_eq_true). apply list_elem_of_In, elem_of_map_to_list in Hin.
    by apply (H t th).
Qed.

(** An open barrier: the world is at rest, transient counts apart. *)
Lemma barrier_quiet s : inv s -> barrier_open s = true -> quiet s.
Proof.
  intros Hi Hb. unfold barrier_open in Hb. apply andb_true_iff in Hb as [H0%Z.eqb_eq Hr%negb_true_iff].
  rewrite anyRunning_false in Hr. rewrite (i_sections _ Hi) in H0. intros t th Ht.
  pose proof (msum_ge section_use (threads s) t th Ht) as Hle. assert (section_use th = 0%nat) as Hu by lia.
  split; [by apply (Hr t)|]. pose proof (k_depth _ _ _ (i_threads _ Hi t th Ht)).
  unfold section_use in Hu. destruct (at_ th); destruct (Z.ltb_spec 0 (sectionDepth th)); try done; split; try lia; done.
Qed.

(** ** Steps that leave the protocol's flags alone *)

Lemma put_cases t th' (m : gmap Z thread) u thu : <[t := th']> m !! u = Some thu ->
  u = t /\ thu = th' \/ u <> t /\ m !! u = Some thu.
Proof. intros [[<- <-]|[Hne H]]%lookup_insert_Some; [by left|right; split; [congruence|done]]. Qed.

Record same_flags (s s' : gc) : Prop := {
  f_mutex : mutex s' = mutex s;
  f_external : external s' = external s;
  f_progress : inProgress s' = inProgress s;
  f_stopped : worldStopped s' = worldStopped s;
  f_requested : requested s' = requested s;
  f_dedicated : dedicated s' = dedicated s;
}.

(** One thread moves. *)
Record light (s s' : gc) (t : Z) (th th' : thread) : Prop := {
  li_flags : same_flags s s';
  li_col : col s' = col s;
  li_threads : threads s' = <[t := th']> (threads s);
  li_holding : holding (at_ th') = holding (at_ th);
  li_window : in_window (at_ th') = in_window (at_ th);
  li_recheck : at_ th' = AtRecheck <-> at_ th = AtRecheck;
  li_collect : at_ th' = AtCollect <-> at_ th = AtCollect;
  li_placed : placed th -> placed th';
  li_inline : dedicated s = true -> self_elected (at_ th') = true -> self_elected (at_ th) = true;
  li_depth : 0 <= sectionDepth th < 2 ^ 32 -> 0 <= sectionDepth th' < 2 ^ 32;
  li_running : 0 <= runningDepth (ensureContext th) < 2 ^ 32 -> 0 <= runningDepth (ensureContext th') < 2 ^ 32;
  li_sections : sections s' + Z.of_nat (section_use th) = sections s + Z.of_nat (section_use th');
  li_draining : draining s' + Z.of_nat (free_use th) = draining s + Z.of_nat (free_use th');
  li_rest : external s <> None \/ (rechecking s = true /\ requested s = true) -> at_rest th -> at_rest th';
  li_idle : external s <> None -> at_rest th -> draining s' = draining s;
}.

Lemma window_of_progress s : inv s -> inProgress s = true -> external s <> None.
Proof.
  intros Hi Hp. destruct (i_progress _ Hi Hp) as [(t & th & Ht & Ha)|Hc].
  - rewrite (proj1 (k_window _ _ _ (i_threads _ Hi t th Ht))); [done|]. by rewrite Ha.
  - rewrite (proj1 (q_window _ (i_col _ Hi))); [done|]. by rewrite Hc.
Qed.

Lemma light_ok s s' t th th' : inv s -> threads s !! t = Some th -> light s s' t th th' -> inv s'.
Proof.
  intros Hi Ht Hl. destruct Hl as [[Fm Fe Fp Fs Fr Fd] Lc Lt Lh Lw Lr Lk Lp Li Ld Ln Ls Lg Lq Lz].
  pose proof (i_threads _ Hi t th Ht) as Hk.
  assert (forall u thu, threads s' !! u = Some thu -> u = t /\ thu = th' \/ u <> t /\ threads s !! u = Some thu) as Hu
    by (intros u thu; rewrite Lt; apply put_cases).
  assert (forall u, is_Some (threads s !! u) -> is_Some (threads s' !! u)) as Hsome.
  { intros u H. rewrite Lt. apply lookup_insert_is_Some. destruct (decide (t = u)); [by left|by right]. }
  assert (quiet s -> (external s <> None \/ (rechecking s = true /\ requested s = true)) -> quiet s') as Hq.
  { intros Hq Hor u thu [[-> ->]|[_ H]]%Hu; [by apply Lq, (Hq t)|by apply (Hq u)]. }
  assert (rechecking s' = rechecking s) as Hre.
  { unfold rechecking. rewrite Fm, Lc. destruct (mutex s) as [[u|]|]; try done. rewrite Lt.
    destruct (decide (u = t)) as [->|Hne]; [|by rewrite lookup_insert_ne].
    rewrite lookup_insert_eq, Ht. by apply bool_decide_ext. }
  split.
  - intros u thu [[-> ->]|[Hne H]]%Hu.
    + destruct Hk. split; rewrite ?Fm, ?Fe, ?Fp, ?Fd, ?Lh, ?Lw, ?Lk; auto.
      intros Hd. specialize (k_inline0 Hd). specialize (Li Hd). destruct (self_elected (at_ th')); [|done].
      by rewrite Li in k_inline0.
    + pose proof (i_threads _ Hi u thu H) as []. split; by rewrite ?Fm, ?Fe, ?Fp, ?Fd.
  - destruct (i_col _ Hi). split; by rewrite ?Lc, ?Fm, ?Fe, ?Fp, ?Fd.
  - rewrite Lt, map_size_insert_Some by by eexists. apply (i_size _ Hi).
  - intros u. rewrite Fm. intros H. by apply Hsome, (i_mutex _ Hi).
  - intros u. rewrite Fe. intros H. by apply Hsome, (i_external _ Hi).
  - rewrite Fs, (i_stopped _ Hi). apply bool_decide_ext. by rewrite Fe.
  - rewrite Fp, Lc. intros H. destruct (i_progress _ Hi H) as [(u & thu & Eu & Ha)|Hc]; [left|by right].
    exists u. rewrite Lt. destruct (decide (u = t)) as [->|Hne].
    + exists th'. rewrite lookup_insert_eq. split; [done|]. apply Lk. congruence.
    + exists thu. by rewrite lookup_insert_ne.
  - rewrite Lt. pose proof (msum_put section_use (threads s) t th th' Ht). pose proof (i_sections _ Hi). lia.
  - rewrite Lt, Lc. pose proof (msum_put free_use (threads s) t th th' Ht). pose proof (i_draining _ Hi). lia.
  - rewrite Fe, Fr. intros He. destruct (i_window _ Hi He) as [Hr Hqs]. split; [done|]. apply Hq; [done|by left].
  - rewrite Hre, Fe, Fr. intros Hx. destruct (i_recheck _ Hi Hx) as [H1 H2]. split; [done|].
    intros Hr. apply Hq; [by apply H2|by right].
  - rewrite Fp. intros Hp. pose proof (window_of_progress s Hi Hp) as He.
    rewrite Lz; [by apply (i_idle _ Hi)|done|]. destruct (i_window _ Hi He) as [_ Hqs]. by apply (Hqs t).
Qed.

Lemma mutex_free s : mutex s = None -> rechecking s = false.
Proof. unfold rechecking. by intros ->. Qed.

(** A thread that moves within the places the flags do not depend on. *)
Ltac settle := intros; destruct_and?; destruct_or?; destruct_and?; simplify_eq; try split_and!; auto with lia; try congruence.
Ltac lightly Ha :=
  split; [by split|done|done|..];
  unfold section_use, free_use, at_rest, placed, state_of; cbn;
  rewrite ?Ha; cbn; try done; try lia; try naive_solver; try (by settle).

Lemma enter_ok t th s :
  inv s -> mutex s = None -> threads s !! t = Some th -> at_ th = AtUser \/ at_ th = AtEnter ->
  inv (enterRunning t th s).
Proof.
  intros Hi Hm Ht Ha. pose proof (mutex_free s Hm) as Hre. unfold enterRunning.
  destruct ((runningDepth (ensureContext th) =? 0) && stopped s) eqn:Eg.
  - eapply (light_ok s _ t th _ Hi Ht). destruct Ha as [Ha|Ha]; lightly Ha.
  - eapply (light_ok s _ t th _ Hi Ht).
    assert (external s <> None -> runningDepth (ensureContext th) <> 0) as Hx.
    { intros He H0. unfold stopped in Eg. rewrite (i_stopped _ Hi), bool_decide_eq_true_2, H0 in Eg by done. done. }
    assert (external s <> None -> state_of th <> Running ->
      (if wrapU 32 (runningDepth (ensureContext th) + 1) =? 1 then Running else state_of th) <> Running) as Hn.
    { intros He Hr. specialize (Hx He). pose proof (k_running _ _ _ (i_threads _ Hi t th Ht)) as Hd.
      destruct (Z.eqb_spec (wrapU 32 (runningDepth (ensureContext th) + 1)) 1) as [E|E]; [|done].
      unfold wrapU in E. destruct (decide (runningDepth (ensureContext th) + 1 = 2 ^ 32)) as [E'|E'].
      - by rewrite E' in E.
      - rewrite Z.mod_small in E; lia. }
    unfold state_of in Hn.
    assert (0 <= wrapU 32 (runningDepth (ensureContext th) + 1) < 2 ^ 32) as Hw by (apply Z.mod_pos_bound; lia).
    destruct Ha as [Ha|Ha]; lightly Ha.
Qed.

Lemma exit_ok t th s :
  inv s -> threads s !! t = Some th -> at_ th = AtUser -> inv (exitRunning t th s).
Proof.
  intros Hi Ht Ha. unfold exitRunning. destruct (context th) as [c|] eqn:Ec; [|done].
  destruct (Z.ltb_spec 0 (runningDepth c)) as [Hp|]; [|done].
  destruct (Z.eqb_spec (runningDepth c - 1) 0); eapply (light_ok s _ t th _ Hi Ht); lightly Ha;
    unfold ensureContext; rewrite ?Ec; cbn; settle.
Qed.

Lemma block_ok t th s :
  inv s -> threads s !! t = Some th -> at_ th = AtUser -> inv (blockEnter t th s).
Proof. intros Hi Ht Ha. eapply (light_ok s _ t th _ Hi Ht). lightly Ha. Qed.

Lemma unblock_ok t th s :
  inv s -> mutex s = None -> threads s !! t = Some th -> at_ th = AtUser \/ at_ th = AtUnblock ->
  inv (blockExit t th s).
Proof.
  intros Hi Hm Ht Ha. pose proof (mutex_free s Hm) as Hre. unfold blockExit.
  destruct (stopped s) eqn:Es.
  - destruct Ha as [Ha|Ha]; eapply (light_ok s _ t th _ Hi Ht); lightly Ha.
  - assert (external s = None) as He.
    { unfold stopped in Es. rewrite (i_stopped _ Hi) in Es.
      destruct (external s); [|done]. by rewrite bool_decide_eq_true_2 in Es. }
    destruct (context th) as [c|] eqn:Ec.
    + destruct Ha as [Ha|Ha]; eapply (light_ok s _ t th _ Hi Ht); lightly Ha.
    + destruct Ha as [Ha|Ha]; eapply (light_ok s _ t th _ Hi Ht); lightly Ha.
Qed.

Lemma poll_ok t th s :
  inv s -> threads s !! t = Some th -> at_ th = AtUser -> state_of th = Running ->
  inv (poll_unlocked t th s).
Proof.
  intros Hi Ht Ha Hr. unfold poll_unlocked. case_match; [|done].
  eapply (light_ok s _ t th _ Hi Ht). lightly Ha.
Qed.

(** Nobody is away from a resting world while a collection is admitted. *)
Lemma window_rest t th s :
  inv s -> threads s !! t = Some th -> external s <> None -> at_rest th /\ requested s = true.
Proof. intros Hi Ht He. destruct (i_window _ Hi He) as [Hr Hq]. split; [by apply (Hq t)|done]. Qed.

Lemma wait_ok t th s :
  inv s -> mutex s = None -> threads s !! t = Some th -> at_ th = AtWait -> inv (wait t th s).
Proof.
  intros Hi Hm Ht Ha. pose proof (mutex_free s Hm) as Hre. unfold wait.
  destruct (requested s) eqn:Er; [done|]. cbn. destruct (fence s); [done|].
  assert (external s = None) as He.
  { destruct (external s) as [w|] eqn:E; [|done]. destruct (window_rest t th s Hi Ht); congruence. }
  pose proof (k_placed _ _ _ (i_threads _ Hi t th Ht)) as Hp. unfold placed in Hp. rewrite Ha in Hp.
  eapply (light_ok s _ t th _ Hi Ht). lightly Ha.
Qed.

(** ** Steps that take, pass on or give up the mutex or the collection *)

Lemma nobody_else (b : bool) (o : option who) v w :
  b = true <-> o = Some w -> w <> v -> o = None \/ o = Some v -> b = false.
Proof. intros Hb Hne Ho. destruct b; [|done]. pose proof (proj1 Hb eq_refl) as H. by destruct Ho as [E|E]; rewrite E in H; simplify_eq. Qed.

Lemma others_ok s s' t u thu :
  u <> t -> thread_ok s u thu ->
  mutex s = None \/ mutex s = Some (Mutator t) -> mutex s' = None \/ mutex s' = Some (Mutator t) ->
  external s = None \/ external s = Some (Mutator t) -> external s' = None \/ external s' = Some (Mutator t) ->
  dedicated s' = dedicated s -> thread_ok s' u thu.
Proof.
  intros Hne [] Hm Hm' He He' Hd.
  pose proof (nobody_else _ _ (Mutator t) (Mutator u) k_holding0 ltac:(congruence) Hm) as Eh.
  pose proof (nobody_else _ _ (Mutator t) (Mutator u) k_window0 ltac:(congruence) He) as Ew.
  split; try done; rewrite ?Hd; try done.
  - rewrite Eh. split; [done|]. destruct Hm' as [-> | ->]; congruence.
  - rewrite Ew. split; [done|]. destruct He' as [-> | ->]; congruence.
  - intros Ha. by rewrite Ha in Eh.
Qed.

Record heavy (s s' : gc) (t : Z) (th th' : thread) : Prop := {
  hv_threads : threads s' = <[t := th']> (threads s);
  hv_col : col s' = col s;
  hv_dedicated : dedicated s' = dedicated s;
  hv_sections : sections s' = sections s /\ section_use th' = section_use th;
  hv_draining : draining s' = draining s /\ free_use th' = free_use th;
  hv_depth : sectionDepth th' = sectionDepth th /\
    runningDepth (ensureContext th') = runningDepth (ensureContext th);
  hv_mutex : mutex s = None \/ mutex s = Some (Mutator t);
  hv_external : external s = None \/ external s = Some (Mutator t);
  hv_mutex' : mutex s' = if holding (at_ th') then Some (Mutator t) else None;
  hv_external' : external s' = if in_window (at_ th') then Some (Mutator t) else None;
  hv_stopped : worldStopped s' = in_window (at_ th');
  hv_progress : inProgress s' = bool_decide (at_ th' = AtCollect);
  hv_placed : placed th';
  hv_inline : dedicated s = true -> self_elected (at_ th') = false;
  hv_quiet : in_window (at_ th') = true -> requested s' = true;
  hv_rest : in_window (at_ th') = true \/ (at_ th' = AtRecheck /\ requested s' = true) -> quiet s';
  hv_idle : at_ th' = AtCollect -> draining s' = 0;
}.

Lemma heavy_ok s s' t th th' : inv s -> threads s !! t = Some th -> heavy s s' t th th' -> inv s'.
Proof.
  intros Hi Ht [Vt Vc Vd [Vs Vu] [Vg Vf] [Vn Vr] Vm Ve Vm' Ve' Vp Vi Vl Vx Vq Vz Vo].
  pose proof (i_threads _ Hi t th Ht) as Hk.
  assert (threads s' !! t = Some th') as Ht' by (by rewrite Vt, lookup_insert_eq).
  assert (mutex s' = None \/ mutex s' = Some (Mutator t)) as Hm' by (rewrite Vm'; destruct (holding (at_ th')); [by right|by left]).
  assert (external s' = None \/ external s' = Some (Mutator t)) as He' by (rewrite Ve'; destruct (in_window (at_ th')); [by right|by left]).
  split.
  - intros u thu. rewrite Vt. intros [[-> ->]|[Hne H]]%put_cases.
    + pose proof (k_depth _ _ _ Hk). pose proof (k_running _ _ _ Hk).
      split; rewrite ?Vn, ?Vr, ?Vd; try done.
      * rewrite Vm'. by destruct (holding (at_ th')).
      * rewrite Ve'. by destruct (in_window (at_ th')).
      * rewrite Vi. intros Ha. by apply bool_decide_eq_true_2.
    + by apply (others_ok s s' t u thu Hne (i_threads _ Hi u thu H)).
  - pose proof (i_col _ Hi) as []. split; rewrite ?Vc, ?Vd; [..|done].
    + rewrite (nobody_else _ _ (Mutator t) Collector q_holding0 ltac:(done) Vm). destruct Hm' as [-> | ->]; by split.
    + rewrite (nobody_else _ _ (Mutator t) Collector q_window0 ltac:(done) Ve). destruct He' as [-> | ->]; by split.
    + intros H. pose proof (nobody_else _ _ (Mutator t) Collector q_window0 ltac:(done) Ve) as Hf. by rewrite H in Hf.
  - rewrite Vt, map_size_insert_Some by by eexists. apply (i_size _ Hi).
  - intros u Hu. assert (u = t) as -> by (destruct Hm'; congruence). by eexists.
  - intros u Hu. assert (u = t) as -> by (destruct He'; congruence). by eexists.
  - rewrite Vp, Ve'. by destruct (in_window (at_ th')).
  - rewrite Vi. intros Ha%bool_decide_eq_true. left. by exists t, th'.
  - rewrite Vt, Vs. pose proof (msum_put section_use (threads s) t th th' Ht). pose proof (i_sections _ Hi). lia.
  - rewrite Vt, Vc, Vg. pose proof (msum_put free_use (threads s) t th th' Ht). pose proof (i_draining _ Hi). lia.
  - rewrite Ve'. destruct (in_window (at_ th')) eqn:Ew; [|done]. intros _. split; [by apply Vq|by apply Vz; left].
  - unfold rechecking. rewrite Vm'. destruct (holding (at_ th')); [|done]. rewrite Ht'.
    intros Ha%bool_decide_eq_true. rewrite Ve', Ha. split; [done|]. intros Hr. apply Vz. by right.
  - rewrite Vi. intros Ha%bool_decide_eq_true. by apply Vo.
Qed.

(** A step that moves the thread and changes its owners as [heavy] says. *)
Ltac heavily Ha :=
  split; unfold section_use, free_use, placed; cbn; rewrite ?Ha; cbn; try done; auto.

Lemma quiet_put s t th' (k : gc) :
  quiet s -> at_rest th' -> threads k = <[t := th']> (threads s) -> quiet k.
Proof.
  intros Hq Hr Hk u thu. rewrite Hk. intros [[-> ->]|[_ H]]%put_cases; [done|by apply (Hq u)].
Qed.

Lemma external_none s : inv s -> requested s = false -> external s = None.
Proof. intros Hi Hr. destruct (external s) eqn:E; [|done]. destruct (i_window _ Hi); congruence. Qed.

(** Out of the loop, holding the mutex. *)
Lemma recheck_enter t th s :
  inv s -> mutex s = None -> threads s !! t = Some th -> at_ th = AtElect ->
  external s = None -> (requested s = true -> dedicated s = false /\ quiet s) -> dedicated s = false ->
  inv (set_mutex (Some (Mutator t)) (put t (go AtRecheck th) s)).
Proof.
  intros Hi Hm Ht Ha He Hq Hd. pose proof (k_placed _ _ _ (i_threads _ Hi t th Ht)) as Hp.
  unfold placed in Hp. rewrite Ha in Hp. apply (heavy_ok s _ t th (go AtRecheck th) Hi Ht). heavily Ha.
  - rewrite (i_stopped _ Hi), He. done.
  - destruct (inProgress s) eqn:E; [|done]. by destruct (window_of_progress s Hi E).
  - congruence.
  - intros [?|[_ Hr]]; [done|]. destruct (Hq Hr) as [_ Hqs].
    apply (quiet_put s t (go AtRecheck th)); [done| |done]. destruct (Hqs t th Ht) as (?&?&?). by split_and!.
Qed.

Lemma elect_ok t th s :
  inv s -> mutex s = None -> threads s !! t = Some th -> at_ th = AtElect -> inv (elect t th s).
Proof.
  intros Hi Hm Ht Ha. pose proof (mutex_free s Hm) as Hre. unfold elect.
  pose proof (k_inline _ _ _ (i_threads _ Hi t th Ht)) as Hin. rewrite Ha in Hin.
  assert (dedicated s = false) as Hd by (destruct (dedicated s); [by discriminate Hin|done]).
  destruct (requested s) eqn:Er.
  - rewrite Hd. cbn. case_bool_decide as He.
    + eapply (light_ok s _ t th _ Hi Ht). lightly Ha.
    + destruct (barrier_open s) eqn:Eb.
      * apply recheck_enter; auto. intros _. split; [done|]. by apply barrier_quiet.
      * eapply (light_ok s _ t th _ Hi Ht). lightly Ha.
  - pose proof (external_none s Hi Er). apply recheck_enter; auto. congruence.
Qed.

Lemma put_put t th th' s : put t th (put t th' s) = put t th s.
Proof. unfold put. cbn. destruct s; unfold set_threads; cbn. by rewrite insert_insert_eq. Qed.

Lemma anyRunning_put t th th' s :
  state_of th = state_of th' -> anyRunning (put t th s) = anyRunning (put t th' s).
Proof.
  intros H. enough (anyRunning (put t th s) = false <-> anyRunning (put t th' s) = false) as Hx
    by (destruct (anyRunning (put t th s)), (anyRunning (put t th' s)); naive_solver).
  rewrite !anyRunning_false. cbn. split; intros Hn u thu [[-> ->]|[Hne E]]%put_cases.
  - rewrite <- H. apply (Hn t), lookup_insert_eq.
  - apply (Hn u). by rewrite lookup_insert_ne.
  - rewrite H. apply (Hn t), lookup_insert_eq.
  - apply (Hn u). by rewrite lookup_insert_ne.
Qed.

(** The loop is entered as it is met again. *)
Lemma elect_go t th s : elect t th (put t th s) = elect t (go AtElect th) (put t (go AtElect th) s).
Proof.
  unfold elect, barrier_open. rewrite !put_put. cbn [requested dedicated external sections put set_threads].
  by rewrite (anyRunning_put t th (go AtElect th)).
Qed.

Lemma poll_locked_ok t th s :
  inv s -> mutex s = None -> threads s !! t = Some th -> at_ th = AtPoll -> inv (poll_locked t th s).
Proof.
  intros Hi Hm Ht Ha. pose proof (mutex_free s Hm) as Hre. unfold poll_locked.
  pose proof (k_placed _ _ _ (i_threads _ Hi t th Ht)) as Hp. unfold placed in Hp. rewrite Ha in Hp.
  destruct (requested s) eqn:Er; [|eapply (light_ok s _ t th _ Hi Ht); lightly Ha].
  rewrite Hp. destruct (dedicated s) eqn:Ed; [eapply (light_ok s _ t th _ Hi Ht); lightly Ha|].
  cbn. case_bool_decide as He; [eapply (light_ok s _ t th _ Hi Ht); lightly Ha|].
  rewrite elect_go. apply elect_ok; [|done|apply lookup_insert_eq|done].
  eapply (light_ok s _ t th _ Hi Ht). lightly Ha.
Qed.

(** The holder of the mutex is where its place says. *)
Lemma recheck_facts t th s :
  inv s -> threads s !! t = Some th -> at_ th = AtRecheck ->
  mutex s = Some (Mutator t) /\ external s = None /\ inProgress s = false /\ dedicated s = false /\
  (requested s = true -> quiet s) /\ state_of th = Parked /\ prior th = Running.
Proof.
  intros Hi Ht Ha. pose proof (i_threads _ Hi t th Ht) as []. rewrite Ha in *.
  assert (mutex s = Some (Mutator t)) as Hm by (by apply k_holding0).
  assert (rechecking s = true) as Hre.
  { unfold rechecking. rewrite Hm, Ht. by apply bool_decide_eq_true_2. }
  destruct (i_recheck _ Hi Hre) as [He Hq]. unfold placed in k_placed0. rewrite Ha in k_placed0.
  split_and!; try done; try apply k_placed0.
  - destruct (inProgress s) eqn:E; [|done]. by destruct (window_of_progress s Hi E).
  - destruct (dedicated s); [by discriminate k_inline0|done].
Qed.


Lemma recheck_ok t th s :
  inv s -> threads s !! t = Some th -> at_ th = AtRecheck -> inv (recheck t th s).
Proof.
  intros Hi Ht Ha. destruct (recheck_facts t th s Hi Ht Ha) as (Hm & He & Hp & Hd & Hq & Hs & Hr).
  unfold recheck. destruct (requested s) eqn:Er.
  - specialize (Hq eq_refl). destruct (Hq t th Ht) as (Hr1 & Hr2 & Hr3). unfold drained. cbn.
    destruct (Z.eqb_spec (draining s) 0) as [H0|H0].
    + apply (heavy_ok s _ t th (go AtCollect th) Hi Ht). heavily Ha; [congruence|].
      intros _. by apply (quiet_put s t (go AtCollect th)).
    + apply (heavy_ok s _ t th (go AtDrain th) Hi Ht). heavily Ha; [congruence|].
      intros _. by apply (quiet_put s t (go AtDrain th)).
  - apply (heavy_ok s _ t th (go (AtTail false) (to_state (prior th) th)) Hi Ht). heavily Ha.
    + rewrite (i_stopped _ Hi), He. done.
    + naive_solver.
Qed.

Lemma drain_ok t th s :
  inv s -> mutex s = None -> threads s !! t = Some th -> at_ th = AtDrain -> inv (drained t th s).
Proof.
  intros Hi Hm Ht Ha. pose proof (i_threads _ Hi t th Ht) as []. rewrite Ha in *.
  assert (external s = Some (Mutator t)) as He by (by apply k_window0).
  destruct (i_window _ Hi) as [Hr Hq]; [by rewrite He|]. destruct (Hq t th Ht) as (Hr1 & Hr2 & Hr3).
  unfold placed in k_placed0. rewrite Ha in k_placed0.
  assert (worldStopped s = true) as Hs.
  { rewrite (i_stopped _ Hi), He. done. }
  assert (inProgress s = false) as Hp.
  { destruct (inProgress s) eqn:E; [|done]. destruct (i_progress _ Hi E) as [(u & thu & Hu & Hau)|Hc].
    - pose proof (k_holding _ _ _ (i_threads _ Hi u thu Hu)) as H. rewrite Hau in H.
      pose proof (proj1 H eq_refl). congruence.
    - pose proof (q_holding _ (i_col _ Hi)) as H. rewrite Hc in H. pose proof (proj1 H eq_refl). congruence. }
  unfold drained. destruct (Z.eqb_spec (draining s) 0) as [H0|H0].
  - apply (heavy_ok s _ t th (go AtCollect th) Hi Ht). heavily Ha.
    intros _. by apply (quiet_put s t (go AtCollect th)).
  - apply (heavy_ok s _ t th (go AtDrain th) Hi Ht). heavily Ha.
    intros _. by apply (quiet_put s t (go AtDrain th)).
Qed.

Lemma collect_ok t th s :
  inv s -> threads s !! t = Some th -> at_ th = AtCollect ->
  inv (set_inProgress false (put t (go AtCollected th) s)).
Proof.
  intros Hi Ht Ha. pose proof (i_threads _ Hi t th Ht) as []. rewrite Ha in *.
  assert (external s = Some (Mutator t)) as He by (by apply k_window0).
  assert (mutex s = Some (Mutator t)) as Hm by (by apply k_holding0).
  destruct (i_window _ Hi) as [Hr Hq]; [by rewrite He|]. destruct (Hq t th Ht) as (Hr1 & Hr2 & Hr3).
  unfold placed in k_placed0. rewrite Ha in k_placed0.
  apply (heavy_ok s _ t th (go AtCollected th) Hi Ht). heavily Ha.
  - rewrite (i_stopped _ Hi), He. done.
  - intros _. by apply (quiet_put s t (go AtCollected th)).
Qed.

Lemma collected_ok t pushed th s :
  inv s -> threads s !! t = Some th -> at_ th = AtCollected -> inv (collected t pushed th s).
Proof.
  intros Hi Ht Ha. pose proof (i_threads _ Hi t th Ht) as []. rewrite Ha in *.
  assert (external s = Some (Mutator t)) as He by (by apply k_window0).
  assert (mutex s = Some (Mutator t)) as Hm by (by apply k_holding0).
  unfold placed in k_placed0. rewrite Ha in k_placed0. destruct k_placed0 as [_ Hr].
  unfold collected. rewrite Hr.
  apply (heavy_ok s _ t th (go (AtTail pushed) (to_state Running th)) Hi Ht).
  heavily Ha; [..|naive_solver].
  - destruct (inProgress s) eqn:E; [|done]. destruct (i_progress _ Hi E) as [(u & thu & Hu & Hau)|Hc].
    + pose proof (k_holding _ _ _ (i_threads _ Hi u thu Hu)) as H. rewrite Hau, Hm in H.
      pose proof (proj1 H eq_refl). simplify_eq. congruence.
    + pose proof (q_holding _ (i_col _ Hi)) as H. rewrite Hc, Hm in H. by pose proof (proj1 H eq_refl).
  - intros Hd. specialize (k_inline0 Hd). discriminate.
Qed.

(** ** Real-time sections, requests, the reclaimer *)

Lemma section_use_le th : (section_use th <= 1)%nat.
Proof. unfold section_use. repeat case_match; lia. Qed.

Lemma free_use_le th : (free_use th <= 1)%nat.
Proof. unfold free_use. case_match; lia. Qed.

Lemma counters_small s : inv s -> 0 <= sections s < 2 ^ 31 - 4 /\ 0 <= draining s < 2 ^ 31 - 2.
Proof.
  intros Hi. pose proof (i_size _ Hi). rewrite (i_sections _ Hi), (i_draining _ Hi).
  pose proof (msum_size section_use 1 (threads s) section_use_le).
  pose proof (msum_size free_use 1 (threads s) free_use_le). split; [lia|].
  destruct (col s); cbn; lia.
Qed.

Lemma section_counted t th s : inv s -> threads s !! t = Some th -> section_use th = 1%nat -> 1 <= sections s.
Proof.
  intros Hi Ht Hu. rewrite (i_sections _ Hi). pose proof (msum_ge section_use (threads s) t th Ht). lia.
Qed.

Lemma wrapU32_small z : 0 <= z < 2 ^ 32 -> wrapU 32 z = z.
Proof. intros. by apply wrapU_id. Qed.

Lemma wrapS32_small z : - 2 ^ 31 <= z < 2 ^ 31 -> wrapS 32 z = z.
Proof. intros. apply wrapS_id; [lia|done]. Qed.

Lemma requested_window t th s :
  inv s -> threads s !! t = Some th -> external s <> None \/ (rechecking s = true /\ requested s = true) ->
  requested s = true.
Proof. intros Hi Ht [He|[_ Hr]]; [apply (i_window _ Hi He)|done]. Qed.

Lemma try_ok t th s :
  inv s -> threads s !! t = Some th -> at_ th = AtUser -> sectionDepth th + 1 < 2 ^ 32 ->
  inv (tryEnterGCSection t th s).
Proof.
  intros Hi Ht Ha Hd. unfold tryEnterGCSection.
  pose proof (k_depth _ _ _ (i_threads _ Hi t th Ht)). pose proof (counters_small s Hi) as [Hs _].
  destruct (Z.ltb_spec 0 (sectionDepth th)); rewrite wrapU32_small by lia;
    eapply (light_ok s _ t th _ Hi Ht).
  - lightly Ha. destruct (Z.ltb_spec 0 (sectionDepth th)), (Z.ltb_spec 0 (sectionDepth th + 1)); lia.
  - lightly Ha. destruct (Z.ltb_spec 0 (sectionDepth th)); lia.
Qed.

Lemma back_out_ok t th s :
  inv s -> threads s !! t = Some th -> at_ th = AtTry \/ at_ th = AtTry2 -> inv (back_out t th s).
Proof.
  intros Hi Ht Ha. unfold back_out.
  pose proof (k_placed _ _ _ (i_threads _ Hi t th Ht)) as Hp. unfold placed in Hp.
  pose proof (counters_small s Hi) as [Hs _].
  assert (1 <= sections s) by (apply (section_counted t th s Hi Ht); unfold section_use; by destruct Ha as [-> | ->]).
  rewrite wrapU32_small by lia.
  destruct Ha as [Ha|Ha]; rewrite Ha in Hp; eapply (light_ok s _ t th _ Hi Ht); lightly Ha;
    rewrite ?Hp; cbn; try lia.
Qed.

Lemma try_step_ok t th s :
  inv s -> threads s !! t = Some th -> at_ th = AtTry -> requested s = false -> inv (put t (go AtTry2 th) s).
Proof.
  intros Hi Ht Ha Hr. pose proof (requested_window t th s Hi Ht) as Hw.
  eapply (light_ok s _ t th _ Hi Ht). lightly Ha. intros Hx. specialize (Hw Hx). congruence.
Qed.

Lemma try_done_ok t th s :
  inv s -> threads s !! t = Some th -> at_ th = AtTry2 -> inv (put t (go AtUser (set_sectionDepth 1 th)) s).
Proof.
  intros Hi Ht Ha. eapply (light_ok s _ t th _ Hi Ht). lightly Ha.
Qed.

Lemma exit_section_ok t th s :
  inv s -> threads s !! t = Some th -> at_ th = AtUser -> inv (exitGCSection t th s).
Proof.
  intros Hi Ht Ha. unfold exitGCSection.
  pose proof (k_depth _ _ _ (i_threads _ Hi t th Ht)) as Hd. pose proof (counters_small s Hi) as [Hs _].
  destruct (Z.eqb_spec (sectionDepth th) 0); [done|].
  destruct (Z.ltb_spec 0 (sectionDepth th - 1)).
  - eapply (light_ok s _ t th _ Hi Ht). lightly Ha.
    destruct (Z.ltb_spec 0 (sectionDepth th)), (Z.ltb_spec 0 (sectionDepth th - 1)); lia.
  - assert (1 <= sections s).
    { apply (section_counted t th s Hi Ht). unfold section_use. rewrite Ha. by destruct (Z.ltb_spec 0 (sectionDepth th)); lia. }
    rewrite wrapU32_small by lia. eapply (light_ok s _ t th _ Hi Ht). lightly Ha.
    destruct (Z.ltb_spec 0 (sectionDepth th)); lia.
Qed.

(** A thread about to free has entered: no collection is admitted. *)
Lemma tail_calm t th s :
  inv s -> threads s !! t = Some th -> (at_ th = AtTail true \/ at_ th = AtFree) -> external s <> None -> at_rest th -> False.
Proof.
  intros Hi Ht Ha _ [Hr _]. pose proof (k_placed _ _ _ (i_threads _ Hi t th Ht)) as Hp. unfold placed in Hp.
  by destruct Ha as [Ha|Ha]; rewrite Ha in Hp.
Qed.

Lemma tail_ok t th s :
  inv s -> threads s !! t = Some th -> at_ th = AtTail true ->
  inv (set_draining (wrapS 32 (draining s + 1)) (put t (go AtFree th) s)).
Proof.
  intros Hi Ht Ha. pose proof (counters_small s Hi) as [_ Hs]. rewrite wrapS32_small by lia.
  pose proof (tail_calm t th s Hi Ht (or_introl Ha)) as Hx. unfold at_rest in Hx. rewrite Ha in Hx.
  eapply (light_ok s _ t th _ Hi Ht). lightly Ha.
Qed.

Lemma free_ok t th s :
  inv s -> threads s !! t = Some th -> at_ th = AtFree ->
  inv (set_draining (wrapS 32 (draining s - 1)) (put t (go AtFence th) s)).
Proof.
  intros Hi Ht Ha. pose proof (counters_small s Hi) as [_ Hs]. rewrite wrapS32_small by lia.
  pose proof (tail_calm t th s Hi Ht (or_intror Ha)) as Hx. unfold at_rest in Hx. rewrite Ha in Hx.
  eapply (light_ok s _ t th _ Hi Ht). lightly Ha.
Qed.

Lemma set_requested_ok b s :
  inv s -> (b = true -> rechecking s = false) -> (b = false -> external s = None) -> inv (set_requested b s).
Proof.
  intros [Ht Hc Hsz Hm He Hs Hp Hse Hdr Hw Hre Hid] Hb Hf.
  split; try done.
  - intros t th E. by destruct (Ht t th E).
  - by destruct Hc.
  - cbn. intros E. destruct b; [|by specialize (Hf eq_refl)]. split; [done|]. by destruct (Hw E) as [_ Hq].
  - intros E. change (rechecking s = true) in E. destruct (Hre E) as [H1 H2]. split; [done|]. cbn. intros ->.
    specialize (Hb eq_refl). congruence.
Qed.

(** ** The collector thread *)

Record col_light (s s' : gc) : Prop := {
  cl_flags : same_flags s s';
  cl_threads : threads s' = threads s;
  cl_sections : sections s' = sections s;
  cl_holding : col_holding (col s') = col_holding (col s);
  cl_window : col_window (col s') = col_window (col s);
  cl_recheck : col s' = CRecheck <-> col s = CRecheck;
  cl_collect : col s' = CCollect <-> col s = CCollect;
  cl_inline : dedicated s = false -> col s' = CWait \/ col s' = CDrain \/ col s' = CDrainFree \/ col s' = CDrainEnd;
  cl_draining : draining s' - col_drains (col s') = draining s - col_drains (col s);
  cl_idle : inProgress s = true -> draining s = 0 -> draining s' = 0;
}.

Lemma col_light_ok s s' : inv s -> col_light s s' -> inv s'.
Proof.
  intros Hi [[Fm Fe Fp Fs Fr Fd] Lt Ls Lh Lw Lr Lk Li Lg Lz].
  assert (rechecking s' = rechecking s) as Hre.
  { unfold rechecking. rewrite Fm, Lt. destruct (mutex s) as [[u|]|]; try done. by apply bool_decide_ext. }
  assert (quiet s -> quiet s') as Hq by (intros Hq u thu; rewrite Lt; apply Hq).
  destruct Hi as [It Ic Isz Im Ie Ist Ip Is Ig Iw Ir Iid]. split.
  - rewrite Lt. intros t th E. destruct (It t th E). split; by rewrite ?Fm, ?Fe, ?Fp, ?Fd.
  - destruct Ic. split; rewrite ?Fm, ?Fe, ?Fp, ?Fd, ?Lh, ?Lw, ?Lk; auto.
  - by rewrite Lt.
  - intros t. rewrite Fm, Lt. apply Im.
  - intros t. rewrite Fe, Lt. apply Ie.
  - rewrite Fs, Ist. apply bool_decide_ext. by rewrite Fe.
  - rewrite Fp, Lt, Lk. apply Ip.
  - by rewrite Ls, Lt.
  - rewrite Lt. lia.
  - rewrite Fe, Fr. intros H. destruct (Iw H). auto.
  - rewrite Hre, Fe, Fr. intros H. destruct (Ir H). auto.
  - rewrite Fp. auto.
Qed.

Record col_heavy (s s' : gc) : Prop := {
  ch_threads : threads s' = threads s;
  ch_dedicated : dedicated s' = dedicated s;
  ch_sections : sections s' = sections s;
  ch_draining : draining s' - col_drains (col s') = draining s - col_drains (col s);
  ch_mutex : mutex s = None \/ mutex s = Some Collector;
  ch_external : external s = None \/ external s = Some Collector;
  ch_mutex' : mutex s' = if col_holding (col s') then Some Collector else None;
  ch_external' : external s' = if col_window (col s') then Some Collector else None;
  ch_stopped : worldStopped s' = col_window (col s');
  ch_progress : inProgress s' = bool_decide (col s' = CCollect);
  ch_inline : dedicated s = false -> col s' = CWait \/ col s' = CDrain \/ col s' = CDrainFree \/ col s' = CDrainEnd;
  ch_quiet : col_window (col s') = true -> requested s' = true;
  ch_rest : col_window (col s') = true \/ (col s' = CRecheck /\ requested s' = true) -> quiet s;
  ch_idle : col s' = CCollect -> draining s' = 0;
}.

Lemma col_heavy_ok s s' : inv s -> col_heavy s s' -> inv s'.
Proof.
  intros Hi [Vt Vd Vs Vg Vm Ve Vm' Ve' Vp Vi Vx Vq Vz Vo].
  assert (quiet s -> quiet s') as Hq by (intros Hq u thu; rewrite Vt; apply Hq).
  assert (mutex s' = None \/ mutex s' = Some Collector) as Hm'
    by (rewrite Vm'; destruct (col_holding (col s')); [by right|by left]).
  assert (external s' = None \/ external s' = Some Collector) as He'
    by (rewrite Ve'; destruct (col_window (col s')); [by right|by left]).
  destruct Hi as [It Ic Isz Im Ie Ist Ip Is Ig Iw Ir Iid]. split.
  - rewrite Vt. intros t th E. destruct (It t th E).
    pose proof (nobody_else _ _ Collector (Mutator t) k_holding0 ltac:(done) Vm) as Eh.
    pose proof (nobody_else _ _ Collector (Mutator t) k_window0 ltac:(done) Ve) as Ew.
    split; rewrite ?Vd; try done.
    + rewrite Eh. destruct Hm' as [-> | ->]; by split.
    + rewrite Ew. destruct He' as [-> | ->]; by split.
    + intros Ha. by rewrite Ha in Eh.
  - split; rewrite ?Vd; try done.
    + rewrite Vm'. by destruct (col_holding (col s')).
    + rewrite Ve'. by destruct (col_window (col s')).
    + intros Hc. rewrite Vi. by apply bool_decide_eq_true_2.
  - by rewrite Vt.
  - intros t E. rewrite E in Hm'. by destruct Hm'.
  - intros t E. rewrite E in He'. by destruct He'.
  - rewrite Vp, Ve'. by destruct (col_window (col s')).
  - rewrite Vi. intros Hc%bool_decide_eq_true. by right.
  - by rewrite Vs, Vt.
  - rewrite Vt. lia.
  - rewrite Ve'. destruct (col_window (col s')) eqn:Ew; [|done]. intros _. split; [by apply Vq|]. apply Hq, Vz. by left.
  - unfold rechecking. rewrite Vm'. destruct (col_holding (col s')); [|done].
    intros Hc%bool_decide_eq_true. rewrite Ve', Hc. split; [done|]. intros Hr. apply Hq, Vz. by right.
  - rewrite Vi. intros Hc%bool_decide_eq_true. by apply Vo.
Qed.

(** Nothing is in progress under a mutex no collection holds. *)
Lemma progress_holder s :
  inv s -> inProgress s = true -> exists w, mutex s = Some w /\ external s = Some w /\
    match w with
    | Mutator t => exists th, threads s !! t = Some th /\ at_ th = AtCollect
    | Collector => col s = CCollect
    end.
Proof.
  intros Hi Hp. destruct (i_progress _ Hi Hp) as [(t & th & Ht & Ha)|Hc].
  - pose proof (i_threads _ Hi t th Ht) as []. rewrite Ha in *. exists (Mutator t).
    split; [by apply k_holding0|]. split; [by apply k_window0|]. by exists th.
  - pose proof (i_col _ Hi) as []. rewrite Hc in *. exists Collector.
    split; [by apply q_holding0|]. split; [by apply q_window0|done].
Qed.

(** A dedicated collector: no other thread has elected itself. *)
Lemma dedicated_external s : inv s -> dedicated s = true -> external s = None \/ external s = Some Collector.
Proof.
  intros Hi Hd. destruct (external s) as [[t|]|] eqn:E; [|by right|by left].
  destruct (i_external _ Hi t E) as [th Ht]. pose proof (i_threads _ Hi t th Ht) as [].
  specialize (k_inline0 Hd). pose proof (proj2 k_window0 E) as Hw. by destruct (at_ th) as [| | | | | | | | | |[]| | | | | | | | | | | |].
Qed.

Lemma dedicated_free s : inv s -> dedicated s = true -> msum free_use (threads s) = 0%nat.
Proof.
  intros Hi Hd. apply msum_nothing. intros t th Ht.
  pose proof (k_inline _ _ _ (i_threads _ Hi t th Ht) Hd) as H. unfold free_use. by destruct (at_ th).
Qed.

Lemma col_dedicated s : inv s ->
  dedicated s = true \/ col s = CWait \/ col s = CDrain \/ col s = CDrainFree \/ col s = CDrainEnd.
Proof. intros Hi. destruct (dedicated s) eqn:E; [by left|right; by apply (q_inline _ (i_col _ Hi))]. Qed.

Lemma col_outside s : inv s -> dedicated s = true -> col_window (col s) = false ->
  external s = None /\ worldStopped s = false /\ inProgress s = false.
Proof.
  intros Hi Hd Hc. assert (external s = None) as He.
  { destruct (dedicated_external s Hi Hd) as [He|He]; [done|].
    by rewrite (proj2 (q_window _ (i_col _ Hi)) He) in Hc. }
  split; [done|]. split; [by rewrite (i_stopped _ Hi), He|].
  destruct (inProgress s) eqn:E; [|done]. by destruct (window_of_progress s Hi E).
Qed.

Lemma col_draining s : inv s -> col_drains (col s) <= draining s.
Proof. intros Hi. rewrite (i_draining _ Hi). lia. Qed.

Ltac col_lightly E :=
  split; [by split|done|done|..]; cbn; rewrite ?E; cbn; try done; try lia; auto.
Ltac col_heavily E :=
  split; cbn; rewrite ?E; cbn; try done; try lia; auto.

Lemma col_barrier_ok s :
  inv s -> mutex s = None -> dedicated s = true -> col s = CWait \/ col s = CBarrier -> inv (col_barrier s).
Proof.
  intros Hi Hm Hd Hc. unfold col_barrier.
  destruct (col_outside s Hi Hd) as (He & Hw & Hp); [by destruct Hc as [-> | ->]|].
  destruct (requested s && negb (barrier_open s)) eqn:Eb.
  - apply (col_light_ok s); [done|].
    destruct Hc as [Hc|Hc]; col_lightly Hc; congruence.
  - apply (col_heavy_ok s); [done|]. destruct Hc as [Hc|Hc]; col_heavily Hc; try congruence.
    all: intros [?|[_ Hr]]; [done|]; rewrite Hr in Eb; cbn in Eb; apply negb_false_iff in Eb; by apply barrier_quiet.
Qed.

Lemma col_recheck_ok s : inv s -> col s = CRecheck ->
  inv (if requested s
       then set_inProgress true (set_external (Some Collector) (set_worldStopped true (set_col CCollect s)))
       else set_mutex None (set_col CWait s)).
Proof.
  intros Hi Hc. assert (mutex s = Some Collector) as Hm by (apply (q_holding _ (i_col _ Hi)); by rewrite Hc).
  assert (dedicated s = true) as Hd by (destruct (col_dedicated s Hi) as [?|H]; [done|rewrite Hc in H; naive_solver]).
  assert (rechecking s = true) as Hre.
  { unfold rechecking. rewrite Hm. by apply bool_decide_eq_true_2. }
  destruct (col_outside s Hi Hd) as (He & Hw & Hp); [by rewrite Hc|].
  destruct (i_recheck _ Hi Hre) as [_ Hq].
  destruct (requested s) eqn:Er; apply (col_heavy_ok s); try done; col_heavily Hc; try congruence.
  - intros _. rewrite (i_draining _ Hi), (dedicated_free s Hi Hd), Hc. done.
  - intros [?|[? _]]; done.
Qed.

Lemma col_collect_ok s : inv s -> col s = CCollect -> inv (set_inProgress false (set_col CCollected s)).
Proof.
  intros Hi Hc. assert (mutex s = Some Collector) as Hm by (apply (q_holding _ (i_col _ Hi)); by rewrite Hc).
  assert (external s = Some Collector) as He by (apply (q_window _ (i_col _ Hi)); by rewrite Hc).
  assert (dedicated s = true) as Hd by (destruct (col_dedicated s Hi) as [?|H]; [done|rewrite Hc in H; naive_solver]).
  destruct (i_window _ Hi) as [Hr Hq]; [by rewrite He|].
  apply (col_heavy_ok s); [done|]. col_heavily Hc; try congruence.
  by rewrite (i_stopped _ Hi), He.
Qed.

Lemma col_collected_ok s : inv s -> col s = CCollected ->
  inv (set_mutex None (set_external None (set_requested false (set_fence true
         (set_worldStopped false (set_col CTail s)))))).
Proof.
  intros Hi Hc. assert (mutex s = Some Collector) as Hm by (apply (q_holding _ (i_col _ Hi)); by rewrite Hc).
  assert (external s = Some Collector) as He by (apply (q_window _ (i_col _ Hi)); by rewrite Hc).
  assert (dedicated s = true) as Hd by (destruct (col_dedicated s Hi) as [?|H]; [done|rewrite Hc in H; naive_solver]).
  apply (col_heavy_ok s); [done|]. col_heavily Hc; try congruence.
  destruct (inProgress s) eqn:E; [|done]. destruct (progress_holder s Hi E) as (w & Hw & _ & H).
  rewrite Hm in Hw. injection Hw as <-. congruence.
Qed.

(** The collector frees while the world runs. *)
Lemma col_no_progress s : inv s -> dedicated s = true -> col s <> CCollect -> inProgress s = false.
Proof.
  intros Hi Hd Hc. destruct (inProgress s) eqn:E; [|done].
  destruct (progress_holder s Hi E) as ([t|] & _ & He & H); [|done].
  destruct (dedicated_external s Hi Hd); congruence.
Qed.

Lemma collector_ok retired s s' : inv s -> run_collector retired s = Some s' -> inv s'.
Proof.
  intros Hi. pose proof (counters_small s Hi) as [_ Hs]. pose proof (col_draining s Hi) as Hg.
  pose proof (col_dedicated s Hi) as Hd.
  unfold run_collector, locked. destruct (col s) eqn:Ec; try (match goal with |- context [match mutex s with _ => _ end] => destruct (mutex s) eqn:Em end); intros [= <-]; cbn in Hg.
  - destruct (dedicated s) eqn:Ed; cbn.
    + destruct (requested s) eqn:Er; [apply col_barrier_ok; auto|].
      destruct (retired && negb (inProgress s)) eqn:Et; [|done].
      apply andb_true_iff in Et as [_ Hp%negb_true_iff]. rewrite wrapS32_small by lia.
      apply (col_light_ok s); [done|]. col_lightly Ec. congruence.
    + destruct (retired && negb (inProgress s)) eqn:Et; [|done].
      apply andb_true_iff in Et as [_ Hp%negb_true_iff]. rewrite wrapS32_small by lia.
      apply (col_light_ok s); [done|]. col_lightly Ec. congruence.
  - apply col_barrier_ok; auto. destruct Hd as [?|Hd]; [done|naive_solver].
  - by apply col_recheck_ok.
  - by apply col_collect_ok.
  - by apply col_collected_ok.
  - assert (dedicated s = true) as Hd1 by (destruct Hd as [?|Hd]; [done|naive_solver]).
    pose proof (col_no_progress s Hi Hd1 ltac:(congruence)) as Hp. rewrite wrapS32_small by lia.
    apply (col_light_ok s); [done|]. col_lightly Ec; congruence.
  - assert (dedicated s = true) as Hd1 by (destruct Hd as [?|Hd]; [done|naive_solver]).
    rewrite wrapS32_small by lia. apply (col_light_ok s); [done|]. col_lightly Ec; congruence.
  - apply (col_light_ok s); [done|]. by col_lightly Ec.
  - rewrite wrapS32_small by lia. apply (col_light_ok s); [done|]. col_lightly Ec.
  - rewrite wrapS32_small by lia. apply (col_light_ok s); [done|]. col_lightly Ec.
  - rewrite wrapS32_small by lia. apply (col_light_ok s); [done|]. col_lightly Ec.
Qed.

(** ** Every step *)

Lemma call_ok t c th s s' :
  inv s -> threads s !! t = Some th -> at_ th = AtUser -> valid (Call t c) s ->
  run_call t c th s = Some s' -> inv s'.
Proof.
  intros Hi Ht Ha Hv. unfold run_call, locked.
  destruct c; try (match goal with |- context [match mutex s with _ => _ end] => destruct (mutex s) eqn:Em end);
    intros [= <-].
  - apply enter_ok; auto.
  - by apply exit_ok.
  - by apply block_ok.
  - apply unblock_ok; auto.
  - destruct Hv as (th' & E & Hr). simplify_eq. by apply poll_ok.
  - destruct Hv as (th' & E & Hr). simplify_eq. by apply try_ok.
  - by apply exit_section_ok.
  - eapply (light_ok s _ t th _ Hi Ht). lightly Ha.
  - eapply (light_ok s _ t th _ Hi Ht). lightly Ha.
  - eapply (light_ok s _ t th _ Hi Ht). lightly Ha.
  - eapply (light_ok s _ t th _ Hi Ht). lightly Ha.
  - unfold close_scope. destruct (deferralDepth s =? 1); eapply (light_ok s _ t th _ Hi Ht); lightly Ha.
  - destruct b; eapply (light_ok s _ t th _ Hi Ht); lightly Ha.
Qed.

Lemma step_ok t pushed th s s' :
  inv s -> threads s !! t = Some th -> calm (Step t pushed) s ->
  run_step t pushed th s = Some s' -> inv s'.
Proof.
  intros Hi Ht Hc. unfold run_step, locked. unfold calm in Hc. rewrite Ht in Hc. cbn in Hc.
  destruct (at_ th) as [| | | | | | | | | |[]| | | | | | | | | | | |] eqn:Ea;
    try (match goal with |- context [match mutex s with _ => _ end] => destruct (mutex s) eqn:Em end);
    intros Hs; simplify_eq.
  - apply enter_ok; auto.
  - apply unblock_ok; auto.
  - by apply poll_locked_ok.
  - by apply wait_ok.
  - by apply elect_ok.
  - by apply recheck_ok.
  - by apply drain_ok.
  - by apply collect_ok.
  - by apply collected_ok.
  - by apply tail_ok.
  - eapply (light_ok s _ t th _ Hi Ht). lightly Ea.
  - by apply free_ok.
  - eapply (light_ok s _ t th _ Hi Ht). lightly Ea.
  - destruct (requested s) eqn:Er; simplify_eq; [apply back_out_ok; auto|by apply try_step_ok].
  - destruct (inProgress s); simplify_eq; [apply back_out_ok; auto|by apply try_done_ok].
  - destruct (gcEnabled s); eapply (light_ok s _ t th _ Hi Ht); lightly Ea.
  - destruct (0 <? deferralDepth s); eapply (light_ok s _ t th _ Hi Ht); lightly Ea.
  - eapply (light_ok s _ t th _ Hi Ht). lightly Ea.
  - destruct (0 <? deferralDepth s); eapply (light_ok s _ t th _ Hi Ht); lightly Ea.
  - destruct (deferredPending s); eapply (light_ok s _ t th _ Hi Ht); lightly Ea.
  - apply set_requested_ok; [..|done]; [eapply (light_ok s _ t th _ Hi Ht); lightly Ea|].
    intros _. unfold rechecking in *. cbn. destruct (mutex s) as [[u|]|]; try done.
    destruct (decide (u = t)) as [->|Hne]; [by rewrite lookup_insert_eq|by rewrite lookup_insert_ne].
  - destruct (deferredPending s); eapply (light_ok s _ t th _ Hi Ht); lightly Ea.
  - apply set_requested_ok; [|done|done]. eapply (light_ok s _ t th _ Hi Ht). lightly Ea.
Qed.

Theorem barrier_run_ok a s s' : inv s -> valid a s -> calm a s -> run a s = Some s' -> inv s'.
Proof.
  intros Hi Hv Hc. destruct a as [t c|t pushed|retired]; cbn -[valid]; [..|by apply collector_ok].
  - destruct (threads s !! t) as [th|] eqn:Ht; [|done]. destruct (at_ th) eqn:Ea; try done. by apply call_ok.
  - destruct (threads s !! t) as [th|] eqn:Ht; [|done]. by apply step_ok.
Qed.

(** ** The start *)

Lemma started_threads s t th : started s -> threads s !! t = Some th -> th = fresh_thread.
Proof.
  intros (ded & ts & -> & _). cbn. intros H%elem_of_list_to_map_2.
  by apply list_elem_of_fmap in H as (u & [= _ ->] & _).
Qed.

Lemma started_sum s (f : thread -> nat) : started s -> f fresh_thread = 0%nat -> msum f (threads s) = 0%nat.
Proof. intros Hs Hf. apply msum_nothing. intros t th E. by rewrite (started_threads s t th Hs E). Qed.

Lemma list_to_map_size {A} (l : list (Z * A)) : (size (list_to_map l : gmap Z A) <= length l)%nat.
Proof.
  induction l as [|[k x] l IH]; [done|]. cbn. rewrite map_size_insert. case_match; unfold id; lia.
Qed.

Lemma started_ok s : started s -> inv s.
Proof.
  intros Hs. pose proof (started_threads s) as Ht. pose proof (started_sum s) as Hm.
  destruct Hs as (ded & ts & -> & Hlen). assert (started (start ded ts)) as Hs by (by exists ded, ts).
  split; try done.
  - intros t th ->%Ht; [|done]. by split.
  - split; try done. intros _. by left.
  - cbn. pose proof (list_to_map_size (map (fun t => (t, fresh_thread)) ts)) as Hz.
    rewrite length_map in Hz. lia.
  - by rewrite (Hm section_use).
  - by rewrite (Hm free_use).
Qed.

Lemma calmly_inv s : calmly s -> inv s.
Proof.
  intros (s0 & H0 & Hr). refine (rtc_ind_r (fun z => inv z) s0 (started_ok s0 H0) _ s Hr).
  intros x y _ (a & Hv & Hc & Ha) IH. by apply (barrier_run_ok a x).
Qed.

(** ** Requests under a deferral scope *)

(** Between latching, or closing the last scope, and taking the latch. *)
Definition latching (l : loc) : bool := match l with AtRepeat | AtTake | AtScope => true | _ => false end.

Record deferral_ok (s : gc) : Prop := {
  d_depth : deferralDepth s = Z.of_nat (msum scopes (threads s));
  d_bound : deferralDepth s < 2 ^ 31;
  d_pending : deferredPending s = true ->
    0 < deferralDepth s \/ exists t th, threads s !! t = Some th /\ latching (at_ th) = true;
}.

Record deferral_step (s s' : gc) (t : Z) (th th' : thread) : Prop := {
  ds_threads : threads s' = <[t := th']> (threads s);
  ds_depth : deferralDepth s' + Z.of_nat (scopes th) = deferralDepth s + Z.of_nat (scopes th');
  ds_bound : deferralDepth s' < 2 ^ 31;
  ds_pending : deferredPending s' = true ->
    latching (at_ th') = true \/ 0 < deferralDepth s' \/
    (deferredPending s = true /\ deferralDepth s' = deferralDepth s /\ latching (at_ th) = false);
}.

Lemma deferral_step_ok s s' t th th' :
  deferral_ok s -> threads s !! t = Some th -> deferral_step s s' t th th' -> deferral_ok s'.
Proof.
  intros [Hd Hb Hp] Ht [Lt Ld Lb Lp]. split; [|done|].
  - rewrite Lt. pose proof (msum_put scopes (threads s) t th th' Ht). lia.
  - intros E. destruct (Lp E) as [Hl|[Hl|(Hs & Hz & Hl)]]; [|by left|].
    + right. exists t, th'. by rewrite Lt, lookup_insert_eq.
    + destruct (Hp Hs) as [H|(u & thu & Hu & H)]; [left; lia|right].
      exists u, thu. rewrite Lt, lookup_insert_ne; [done|]. intros <-. congruence.
Qed.

Lemma deferral_depth_scopes t th s :
  deferral_ok s -> threads s !! t = Some th -> Z.of_nat (scopes th) <= deferralDepth s.
Proof. intros Hs Ht. rewrite (d_depth _ Hs). pose proof (msum_ge scopes (threads s) t th Ht). lia. Qed.

Lemma deferral_same s s' :
  deferral_ok s -> threads s' = threads s -> deferralDepth s' = deferralDepth s ->
  deferredPending s' = deferredPending s -> deferral_ok s'.
Proof. intros [Hd Hb Hp] E1 E2 E3. split; by rewrite ?E1, ?E2, ?E3. Qed.

(** A thread that moves and leaves the scopes as they are. *)
Ltac deferring s t th Hs Ht Ea :=
  first [ exact Hs
        | eapply (deferral_step_ok s _ t th _ Hs Ht); split; cbn; rewrite ?insert_insert_eq; try done; try (apply (d_bound _ Hs));
          rewrite ?Ea; cbn; auto ].

Lemma deferral_call_ok t c th s s' :
  deferral_ok s -> threads s !! t = Some th -> at_ th = AtUser -> valid (Call t c) s ->
  run_call t c th s = Some s' -> deferral_ok s'.
Proof.
  intros Hs Ht Ea Hv. pose proof (d_bound _ Hs) as Hb. pose proof (deferral_depth_scopes t th s Hs Ht) as Hle.
  unfold run_call, locked, enterRunning, exitRunning, blockEnter, blockExit, poll_unlocked, tryEnterGCSection, exitGCSection.
  destruct c; cbn -[valid]; repeat case_match; intros [= <-]; try (by deferring s t th Hs Ht Ea).
  - unfold open_scope. unfold valid in Hv. rewrite wrapS32_small by lia.
    deferring s t th Hs Ht Ea; lia.
  - destruct Hv as (th' & E & Hn). simplify_eq. unfold close_scope. rewrite wrapS32_small by lia.
    destruct (Z.eqb_spec (deferralDepth s) 1); deferring s t th Hs Ht Ea; lia.
Qed.

Lemma deferral_thread_ok t pushed th s s' :
  deferral_ok s -> threads s !! t = Some th -> run_step t pushed th s = Some s' -> deferral_ok s'.
Proof.
  intros Hs Ht. pose proof (d_bound _ Hs) as Hb.
  unfold run_step, locked, enterRunning, blockExit, poll_locked, elect, recheck, drained, collected, wait, back_out.
  destruct (at_ th) eqn:Ea; repeat case_match; cbn; intros Hx; try discriminate; injection Hx as <-;
    try (by deferring s t th Hs Ht Ea).
  deferring s t th Hs Ht Ea. intros _. right. left. by apply Z.ltb_lt.
Qed.

Lemma deferral_run_ok a s s' : deferral_ok s -> valid a s -> run a s = Some s' -> deferral_ok s'.
Proof.
  intros Hs Hv. destruct a as [t c|t pushed|retired]; cbn -[valid].
  - destruct (threads s !! t) as [th|] eqn:Ht; [|done]. destruct (at_ th) eqn:Ea; try done. by apply deferral_call_ok.
  - destruct (threads s !! t) as [th|] eqn:Ht; [|done]. by apply deferral_thread_ok.
  - unfold run_collector, locked, col_barrier. repeat case_match; intros Hx; try discriminate; injection Hx as <-;
      by apply (deferral_same s).
Qed.

Lemma reachable_deferral s : reachable s -> deferral_ok s.
Proof.
  intros (s0 & H0 & Hr). refine (rtc_ind_r (fun z => deferral_ok z) s0 _ _ s Hr).
  - pose proof (started_sum s0 scopes H0 eq_refl) as Hm. destruct H0 as (ded & ts & -> & _).
    by split; rewrite ?Hm.
  - intros x y _ (a & Hv & Ha) IH. by apply (deferral_run_ok a x).
Qed.

(** ** What a collection relies on *)

Definition collecting (s : gc) (w : who) : Prop :=
  match w with Mutator t => at_ <$> threads s !! t = Some AtCollect | Collector => col s = CCollect end.

(** Nobody is in [freeObjects]. *)
Definition nobody_frees (s : gc) : Prop :=
  (forall t th, threads s !! t = Some th -> at_ th <> AtFree) /\ col_drains (col s) = 0.

Lemma drained_nobody s : inv s -> draining s = 0 -> nobody_frees s.
Proof.
  intros Hi H0. rewrite (i_draining _ Hi) in H0. assert (0 <= col_drains (col s)) by (destruct (col s); cbn; lia).
  split; [|lia]. intros t th Ht Ha. pose proof (msum_ge free_use (threads s) t th Ht) as Hle.
  unfold free_use at 1 in Hle. rewrite Ha in Hle. lia.
Qed.

Lemma collecting_holds s w : inv s -> collecting s w -> mutex s = Some w.
Proof.
  intros Hi. destruct w as [t|]; cbn.
  - destruct (threads s !! t) as [th|] eqn:Ht; [|done]. cbn. intros [= Ha].
    pose proof (k_holding _ _ _ (i_threads _ Hi t th Ht)) as H. rewrite Ha in H. by apply H.
  - intros Hc. pose proof (q_holding _ (i_col _ Hi)) as H. rewrite Hc in H. by apply H.
Qed.

(** C7. The world is stopped for a collection.  In every state reached without the two
    races below: from the moment a collection has been admitted until it is over, no
    thread is on the heap (a running context), and none is in a real-time section or
    past the tests of [tryEnterGCSection]; and while objects are being marked and swept,
    nobody destroys retired objects and exactly one thread collects, the one that holds
    the mutex. *)
Theorem stop_the_world s :
  calmly s -> stopped s = true ->
  requested s = true /\
  (forall t th, threads s !! t = Some th ->
     state_of th <> Running /\ sectionDepth th = 0 /\ at_ th <> AtTry2) /\
  (inProgress s = true ->
     nobody_frees s /\ exists w, mutex s = Some w /\ external s = Some w /\ forall v, collecting s v <-> v = w).
Proof.
  intros Hs%calmly_inv Hp.
  assert (external s <> None) as He.
  { unfold stopped in Hp. apply orb_true_iff in Hp as [Hp|Hp]; [|by apply window_of_progress].
    rewrite (i_stopped _ Hs) in Hp. by apply bool_decide_eq_true in Hp. }
  destruct (i_window _ Hs He) as [Hr Hq]. split; [done|]. split; [apply Hq|]. intros Hc.
  split; [apply drained_nobody; [done|by apply (i_idle _ Hs)]|].
  destruct (progress_holder s Hs Hc) as (w & Hm & Hx & Hw). exists w. split; [done|]. split; [done|].
  intros v. split.
  - intros Hv%collecting_holds; [|done]. congruence.
  - intros ->. destruct w as [t|]; cbn; [|done]. destruct Hw as (th & -> & Ha). cbn. by rewrite Ha.
Qed.

(** Runs, for the concrete ones. *)
Fixpoint play (l : list act) (s : gc) : option gc :=
  match l with
  | [] => Some s
  | a :: l => match run a s with Some s' => play l s' | None => None end
  end.

Fixpoint allowed (P : act -> gc -> Prop) (l : list act) (s : gc) : Prop :=
  match l with
  | [] => True
  | a :: l => P a s /\ match run a s with Some s' => allowed P l s' | None => False end
  end.

Lemma play_reachable l s s' : started s -> allowed valid l s -> play l s = Some s' -> reachable s'.
Proof.
  intros H0 Hv Hp. exists s. split; [done|]. clear H0. revert s Hv Hp.
  induction l as [|a l IH]; intros s Hv Hp; cbn -[valid run] in *; [injection Hp as ->; constructor|].
  destruct Hv as [Ha Hl]. destruct (run a s) as [s1|] eqn:E; [|done].
  eapply rtc_l; [by exists a|by apply IH].
Qed.

Lemma play_calmly l s s' :
  started s -> allowed (fun a s => valid a s /\ calm a s) l s -> play l s = Some s' -> calmly s'.
Proof.
  intros H0 Hv Hp. exists s. split; [done|]. clear H0. revert s Hv Hp.
  induction l as [|a l IH]; intros s Hv Hp; cbn -[valid calm run] in *; [injection Hp as ->; constructor|].
  destruct Hv as [[Ha Hb] Hl]. destruct (run a s) as [s1|] eqn:E; [|done].
  eapply rtc_l; [by exists a|by apply IH].
Qed.

Lemma start_started ded ts : Z.of_nat (length ts) < 2 ^ 31 - 4 -> started (start ded ts).
Proof. intros H. by exists ded, ts. Qed.

Definition gather : list act :=
  [Call 1 CallEnter; Call 2 CallEnter; Call 2 CallRequest; Step 2 false; Step 2 false; Step 2 false;
   Call 1 CallPoll; Step 1 false; Call 2 CallPoll; Step 2 false; Step 2 false].

Ltac allowed_run :=
  repeat (split; [first [done | by eexists | split; first [done | by eexists]]|]); done.

Definition result (o : option gc) : gc := default (start false []) o.

Lemma stop_the_world_witness :
  let s := result (play gather (start false [1; 2])) in
  inProgress s = true /\ nobody_frees s /\
  exists w, mutex s = Some w /\ external s = Some w /\ forall v, collecting s v <-> v = w.
Proof.
  intros s. split; [vm_compute; reflexivity|].
  apply (stop_the_world s); [|vm_compute; reflexivity|vm_compute; reflexivity].
  apply (play_calmly gather (start false [1; 2])); [apply start_started; vm_compute; reflexivity| |vm_compute; reflexivity].
  vm_compute. allowed_run.
Defined.

(** Left to itself, thread [t] comes from [s] to [s']. *)
Definition alone (t : Z) : gc -> gc -> Prop := rtc (fun a b => run (Step t false) a = Some b).

Lemma alone_step t s s' th : threads s !! t = Some th -> run_step t false th s = Some s' -> forall k, alone t s' k -> alone t s k.
Proof. intros Ht Hr k Hk. eapply rtc_l; [|done]. cbn. by rewrite Ht. Qed.

Lemma publish_alone t th s :
  threads s !! t = Some th -> at_ th = AtPublish -> exists k, alone t s k /\ requested k = true.
Proof.
  intros Ht Ha. exists (set_requested true (put t (go AtUser th) s)). split; [|done].
  eapply alone_step; [done|unfold run_step; by rewrite Ha|apply rtc_refl].
Qed.

Lemma take_alone t th s :
  threads s !! t = Some th -> at_ th = AtTake -> deferredPending s = true -> exists k, alone t s k /\ requested k = true.
Proof.
  intros Ht Ha Hp. destruct (publish_alone t (go AtPublish th) (set_deferredPending false (put t (go AtPublish th) s)))
    as (k & Hk & Hr); [apply lookup_insert_eq|done|]. exists k. split; [|done].
  eapply alone_step; [done| |exact Hk]. unfold run_step. by rewrite Ha, Hp.
Qed.

Lemma repeat_alone t th s :
  threads s !! t = Some th -> at_ th = AtRepeat -> deferredPending s = true -> deferralDepth s = 0 ->
  exists k, alone t s k /\ requested k = true.
Proof.
  intros Ht Ha Hp H0. destruct (take_alone t (go AtTake th) (put t (go AtTake th) s)) as (k & Hk & Hr);
    [apply lookup_insert_eq|done|done|]. exists k. split; [|done].
  eapply alone_step; [done| |exact Hk]. unfold run_step. by rewrite Ha, H0.
Qed.

Lemma scope_alone t th s :
  threads s !! t = Some th -> at_ th = AtScope -> deferredPending s = true -> deferralDepth s = 0 ->
  gcEnabled s = true -> exists k, alone t s k /\ requested k = true.
Proof.
  intros Ht Ha Hp H0 Hg.
  set (s1 := set_deferredPending false (put t (go AtCall th) s)).
  set (s2 := put t (go AtRequest (go AtCall th)) s1).
  set (s3 := put t (go AtPublish (go AtRequest (go AtCall th))) s2).
  destruct (publish_alone t (go AtPublish (go AtRequest (go AtCall th))) s3) as (k & Hk & Hr);
    [apply lookup_insert_eq|done|]. exists k. split; [|done].
  eapply (alone_step t s s1); [done|unfold run_step; by rewrite Ha, Hp|].
  eapply (alone_step t s1 s2); [apply lookup_insert_eq|unfold run_step; cbn; by rewrite Hg|].
  eapply (alone_step t s2 s3); [apply lookup_insert_eq|unfold run_step; cbn; by rewrite H0|done].
Qed.

(** C8. A request made while a deferral scope is open is never lost, whatever the
    interleaving: the depth counts the open scopes, and while the request is latched
    either some scope is open or some thread, left to itself, publishes it. *)
Theorem deferred_request_kept s :
  reachable s -> gcEnabled s = true -> deferredPending s = true ->
  deferralDepth s = Z.of_nat (msum scopes (threads s)) /\
  (0 < deferralDepth s \/ exists t k, alone t s k /\ requested k = true).
Proof.
  intros Hs%reachable_deferral Hg Hp. split; [apply (d_depth _ Hs)|].
  destruct (decide (0 < deferralDepth s)) as [Hd|Hd]; [by left|right].
  assert (deferralDepth s = 0) as H0 by (rewrite (d_depth _ Hs) in *; lia).
  destruct (d_pending _ Hs Hp) as [?|(t & th & Ht & Hl)]; [done|]. exists t.
  destruct (at_ th) eqn:Ea; try done.
  - by apply (repeat_alone t th).
  - by apply (take_alone t th).
  - by apply (scope_alone t th).
Qed.

(** Thread 2 reads the depth and latches while thread 1 closes the scope. *)
Definition latch : list act :=
  [Call 1 CallOpen; Call 2 CallRequest; Step 2 false; Step 2 false; Call 1 CallClose; Step 1 false; Step 2 false].

Lemma deferred_request_kept_witness :
  let s := result (play latch (start false [1; 2])) in
  deferredPending s = true /\ exists t k, alone t s k /\ requested k = true.
Proof.
  intros s. split; [vm_compute; reflexivity|].
  destruct (deferred_request_kept s) as [_ [H|H]]; [|vm_compute; reflexivity|vm_compute; reflexivity| |exact H].
  - apply (play_reachable latch (start false [1; 2])); [apply start_started; vm_compute; reflexivity| |vm_compute; reflexivity].
    vm_compute. allowed_run.
  - vm_compute in H. discriminate H.
Defined.

(** ** Two races *)

(** A request made after the barrier's loop has ended without one is taken for the
    request the loop was about: the collection starts with a thread on the heap. *)
Definition late_request : list act :=
  gather ++ [Step 2 false; Step 2 false; Step 2 false; Step 2 false;
             Step 1 false; Call 2 CallRequest; Step 2 false; Step 2 false; Step 2 false; Step 1 false].

Definition running_at (t : Z) (s : gc) : Prop := state_of <$> threads s !! t = Some Running.

Lemma late_request_races :
  exists s, reachable s /\ inProgress s = true /\ running_at 2 s.
Proof.
  exists (result (play late_request (start false [1; 2]))).
  split; [|split; [vm_compute; reflexivity|unfold running_at; vm_compute; reflexivity]].
  apply (play_reachable late_request (start false [1; 2])); [apply start_started; vm_compute; reflexivity| |vm_compute; reflexivity].
  vm_compute. allowed_run.
Qed.

(** Turning the collector off while an admitted collection waits for the reclaimer
    lets the parked threads go; the collection starts all the same. *)
Definition withdrawn : list act :=
  [Call 1 CallEnter; Call 2 CallEnter; Call 3 CallRequest; Step 3 false; Step 3 false; Step 3 false;
   Call 1 CallPoll; Step 1 false; Turn true; Call 2 CallPoll; Step 2 false; Step 2 false; Step 1 false;
   Call 3 (CallSetEnabled false); Step 3 false; Step 1 false; Turn false; Turn false; Turn false; Step 2 false].

Lemma withdrawn_request_races :
  exists s, reachable s /\ inProgress s = true /\ running_at 1 s.
Proof.
  exists (result (play withdrawn (start false [1; 2; 3]))).
  split; [|split; [vm_compute; reflexivity|unfold running_at; vm_compute; reflexivity]].
  apply (play_reachable withdrawn (start false [1; 2; 3])); [apply start_started; vm_compute; reflexivity| |vm_compute; reflexivity].
  vm_compute. allowed_run.
Qed.

End GcBarrierProofs.
