(* ===== verification/SortedMap.v ===== *)
(** * SortedMap: [std::map] as an ordered list

    The container iterates in key order, and the program relies on it: a signal's
    samples are walked by time, functions by name, objects by address.  A map is the
    list of its entries, keys ascending; the order of the keys is a parameter. *)

From S2P Require Import Prelude.

Section smap.
Context {K : Type} `{EqDecision K} (R : relation K) `{!RelDecision R, !PartialOrder R, !Total R}.
Context {A : Type}.
Implicit Types (m : list (K * A)) (k j : K) (a b : A).

(** [m[k] = a]. *)
Fixpoint sset k a m : list (K * A) :=
  match m with
  | [] => [(k, a)]
  | (j, b) :: r =>
      if decide (k = j) then (k, a) :: r
      else if decide (R k j) then (k, a) :: (j, b) :: r
      else (j, b) :: sset k a r
  end.

(** [find]. *)
Fixpoint sfind k m : option A :=
  match m with
  | [] => None
  | (j, b) :: r => if decide (k = j) then Some b else sfind k r
  end.

(** [erase] by key. *)
Definition serase k m : list (K * A) := filter (fun x => x.1 <> k) m.

(** The keys strictly ascend. *)
Definition ascending m : Prop := StronglySorted (strict R) m.*1.

Lemma not_le_lt k j : ~ R k j -> strict R j k.
Proof. intros H. destruct (total R k j) as [?|?]; [done|]. by split. Qed.

Lemma le_ne_lt k j : R k j -> k <> j -> strict R k j.
Proof. intros H1 H2. split; [done|]. intros H3. by apply H2, (anti_symm R). Qed.

Lemma lt_ne k j : strict R k j -> k <> j.
Proof. intros H ->. by apply (irreflexivity (strict R) j). Qed.

Lemma sfind_sset_eq k a m : sfind k (sset k a m) = Some a.
Proof.
  induction m as [|[j b] m IH]; cbn; [by rewrite decide_True|].
  destruct (decide (k = j)) as [->|Hne]; cbn; [by rewrite decide_True|].
  destruct (decide (R k j)); cbn; [by rewrite decide_True|by rewrite decide_False].
Qed.

Lemma sfind_sset_ne k j a m : j <> k -> sfind j (sset k a m) = sfind j m.
Proof.
  intros Hj. induction m as [|[i b] m IH]; cbn; [by rewrite decide_False|].
  destruct (decide (k = i)) as [->|Hne]; cbn; [by rewrite !decide_False by done|].
  destruct (decide (R k i)); cbn; [by rewrite decide_False|]. by rewrite IH.
Qed.

Lemma elem_sset_key k a m i : i ∈ (sset k a m).*1 <-> i = k \/ i ∈ m.*1.
Proof.
  induction m as [|[j b] m IH]; cbn; [set_solver|].
  destruct (decide (k = j)) as [->|Hne]; cbn; [set_solver|].
  destruct (decide (R k j)); cbn; [set_solver|]. rewrite !elem_of_cons, IH. set_solver.
Qed.

Lemma elem_sset_value k a m x : x ∈ (sset k a m).*2 -> x = a \/ x ∈ m.*2.
Proof.
  induction m as [|[j b] m IH]; cbn; [set_solver|].
  destruct (decide (k = j)) as [->|Hne]; cbn; [set_solver|].
  destruct (decide (R k j)); cbn; [set_solver|]. rewrite !elem_of_cons. intros [->|Hx]; [right; by left|]. tauto.
Qed.

Lemma ascending_sset k a m : ascending m -> ascending (sset k a m).
Proof.
  unfold ascending. induction m as [|[j b] m IH]; cbn; intros Hm; [by repeat constructor|].
  apply StronglySorted_inv in Hm as [Hm Hj]. rewrite Forall_forall in Hj.
  destruct (decide (k = j)) as [->|Hne]; cbn; [constructor; [done|by apply Forall_forall]|].
  destruct (decide (R k j)) as [Hr|Hr]; cbn.
  - assert (strict R k j) as Hkj by (by apply le_ne_lt).
    constructor; [constructor; [done|by apply Forall_forall]|]. apply Forall_forall.
    intros i [->|Hi]%elem_of_cons; [done|]. etrans; [exact Hkj|by apply Hj].
  - constructor; [by apply IH|]. apply Forall_forall. intros i [->|Hi]%elem_sset_key; [by apply not_le_lt|by apply Hj].
Qed.

Lemma ascending_NoDup m : ascending m -> NoDup m.*1.
Proof.
  unfold ascending. generalize m.*1. clear m. induction 1 as [|k l Hl IH Hk]; constructor; [|done].
  intros Hin. rewrite Forall_forall in Hk. apply (lt_ne k k); [by apply Hk|done].
Qed.

Lemma sfind_elem k a m : ascending m -> sfind k m = Some a <-> (k, a) ∈ m.
Proof.
  intros Hm%ascending_NoDup. induction m as [|[j b] m IH]; cbn in *; [set_solver|].
  apply NoDup_cons in Hm as [Hj Hm]. destruct (decide (k = j)) as [->|Hne].
  - rewrite elem_of_cons. split; [intros [= ->]; by left|].
    intros [[= ->]|H]; [done|]. destruct Hj. apply list_elem_of_fmap. by exists (j, a).
  - rewrite (IH Hm), elem_of_cons. split; [by right|]. intros [[= -> ->]|H]; done.
Qed.

Lemma sfind_None k m : sfind k m = None <-> k ∉ m.*1.
Proof.
  induction m as [|[j b] m IH]; cbn; [set_solver|].
  destruct (decide (k = j)) as [->|Hne]; [set_solver|]. rewrite IH. set_solver.
Qed.

Lemma elem_sset k a m j b : ascending m -> (j, b) ∈ sset k a m <-> (j = k /\ b = a) \/ (j <> k /\ (j, b) ∈ m).
Proof.
  intros Hm. rewrite <- (sfind_elem j b (sset k a m)) by (by apply ascending_sset).
  destruct (decide (j = k)) as [->|Hne].
  - rewrite sfind_sset_eq. naive_solver.
  - rewrite sfind_sset_ne, sfind_elem by done. naive_solver.
Qed.

(** A key past the end is appended. *)
Lemma sset_end k a m : Forall (fun x => strict R x.1 k) m -> sset k a m = m ++ [(k, a)].
Proof.
  induction 1 as [|[j b] m Hj Hm IH]; cbn in *; [done|].
  rewrite decide_False by (intros ->; by apply (irreflexivity (strict R) j)).
  rewrite decide_False by apply Hj. by rewrite IH.
Qed.

Lemma ascending_serase k m : ascending m -> ascending (serase k m).
Proof.
  unfold ascending, serase. induction m as [|[j b] m IH]; intros Hm; [done|].
  rewrite fmap_cons in Hm. apply StronglySorted_inv in Hm as [Hm Hj]. rewrite filter_cons. case_decide; cbn; [|by apply IH].
  constructor; [by apply IH|]. rewrite Forall_forall in *. intros i Hi.
  apply Hj. apply list_elem_of_fmap in Hi as (x & -> & [_ Hx]%list_elem_of_filter).
  by apply list_elem_of_fmap_2.
Qed.

Lemma ascending_drop d m : ascending m -> ascending (drop d m).
Proof.
  revert m. induction d as [|d IH]; intros [|[j b] m] Hm; try done.
  apply IH. unfold ascending in *. cbn in Hm. by apply StronglySorted_inv in Hm as [Hm _].
Qed.

Lemma elem_serase k m x : x ∈ serase k m <-> x.1 <> k /\ x ∈ m.
Proof. unfold serase. by rewrite list_elem_of_filter. Qed.

Lemma sset_length_le k a m : (length (sset k a m) <= S (length m))%nat.
Proof.
  induction m as [|[j b] m IH]; cbn; [lia|]. repeat case_decide; cbn; lia.
Qed.
End smap.

Arguments ascending {K} R {A} m.
