(* ===== verification/Signals.v ===== *)
(** * Signals: a signal's samples and the engine's time grid
      (dataflow/Signal, DataflowEngine::nextPeriodOnPeriodBoundary)

    A signal keeps its newest samples by time, enough of them for the deepest
    delay taken from it.  Times are int64 microseconds, frequencies IEEE doubles (by
    their bits), both as in [Value]; a sample is a Value's word.  Comparing two
    Values and the snapshot taken when one is stored reach into the object heap: they
    are parameters here ([Mvcc] and [Value] model them).

    The contract is a delay line: the value [k] periods back of the whole past, read
    from the samples that were kept. *)

From Stdlib Require Import SpecFloat.
From S2P Require Import Prelude SortedMap Value.
From stdpp Require Import numbers pretty.

Module Signals.

Local Open Scope Z_scope.

(** ** Frequencies and periods *)

Definition microsecond : Z := 0x412E848000000000.  (* 1000000.0 *)
Definition one : Z := 0x3FF0000000000000.
Definition one_and_half : Z := 0x3FF8000000000000.
Definition nano : Z := 0x3E112E0BE826D695.          (* 1e-9 *)

(** [std::round]: half away from zero. *)
Definition d_round (a : Z) : Z :=
  match sf_of_bits a with
  | S754_finite s m e =>
      if 0 <=? e then a
      else
        let n := (2 * Zpos m + 2 ^ (- e)) / 2 ^ (- e + 1) in
        bits_of_sf (binary_normalize prec emax (if s then - n else n) 0 s)
  | _ => a
  end.

Definition d_abs (a : Z) : Z := Z.land a (2 ^ 63 - 1).

Definition to_int64 (a : Z) : outcome string Z :=
  match int_of_double 64 a with Ret z => Ret z | _ => UB end.

Definition not_whole : string := "clock frequency not representable as whole microseconds".

(** The constructor's period, in microseconds; zero: event-driven. *)
Definition period_of (freq : Z) : outcome string Z :=
  if d_le freq (realVal 0) then Ret 0
  else
    let us := d_div microsecond freq in
    let r := d_round us in
    if d_lt us one || d_lt nano (d_abs (d_sub us r)) then Throw not_whole else to_int64 r.

(** ** The signal *)

Record signal := mkSignal {
  frequency : Z;
  period : Z;
  eventDriven : bool;
  isSource : bool;
  isClock : bool;
  running : bool;
  tickPending : bool;
  clockCount : Z;                 (* uint64 *)
  background : bool;              (* m_domain *)
  isDerived : bool;
  baseSignal : option Z;          (* weak: the base's address *)
  baseIndex : Z;                  (* int *)
  dependents : list Z;            (* weak *)
  maxHistory : Z;                 (* int *)
  suppressInitial : bool;
  values : list (Z * Z);          (* by time *)
}.

Definition set_values (x : list (Z * Z)) (s : signal) : signal :=
  mkSignal (frequency s) (period s) (eventDriven s) (isSource s) (isClock s) (running s)
    (tickPending s) (clockCount s) (background s) (isDerived s) (baseSignal s) (baseIndex s)
    (dependents s) (maxHistory s) (suppressInitial s) x.
Definition set_suppress (x : bool) (s : signal) : signal :=
  mkSignal (frequency s) (period s) (eventDriven s) (isSource s) (isClock s) (running s)
    (tickPending s) (clockCount s) (background s) (isDerived s) (baseSignal s) (baseIndex s)
    (dependents s) (maxHistory s) x (values s).
Definition set_maxHistory (x : Z) (s : signal) : signal :=
  mkSignal (frequency s) (period s) (eventDriven s) (isSource s) (isClock s) (running s)
    (tickPending s) (clockCount s) (background s) (isDerived s) (baseSignal s) (baseIndex s)
    (dependents s) x (suppressInitial s) (values s).
Definition set_dependents (x : list Z) (s : signal) : signal :=
  mkSignal (frequency s) (period s) (eventDriven s) (isSource s) (isClock s) (running s)
    (tickPending s) (clockCount s) (background s) (isDerived s) (baseSignal s) (baseIndex s)
    x (maxHistory s) (suppressInitial s) (values s).
Definition set_ticked (pending : bool) (count : Z) (s : signal) : signal :=
  mkSignal (frequency s) (period s) (eventDriven s) (isSource s) (isClock s) (running s)
    pending count (background s) (isDerived s) (baseSignal s) (baseIndex s)
    (dependents s) (maxHistory s) (suppressInitial s) (values s).
Definition set_running (x : bool) (s : signal) : signal :=
  mkSignal (frequency s) (period s) (eventDriven s) (isSource s) (isClock s) x
    (tickPending s) (clockCount s) (background s) (isDerived s) (baseSignal s) (baseIndex s)
    (dependents s) (maxHistory s) (suppressInitial s) (values s).

Section Samples.
Context (veq : Z -> Z -> bool).   (* Value::operator== *)
Context (snapshot : Z -> Z).      (* snapshotForSignal *)

Definition new_signal (freq initial : Z) : outcome string signal :=
  match period_of freq with
  | Ret p =>
      let event := d_le freq (realVal 0) in
      Ret (mkSignal (if event then realVal 0 else freq) p event false false false false 0 false
             false None 0 [] 2 false [(0, snapshot initial)])
  | Throw e => Throw e
  | UB => UB
  end.

(** ** Samples by time *)

(** [--upper_bound(t)]: the newest sample no newer than [t]. *)
Definition at_or_before (t : Z) (m : list (Z * Z)) : option Z :=
  snd <$> last (filter (fun x => x.1 <= t) m).

(** [--lower_bound(t)] *)
Definition strictly_before (t : Z) (m : list (Z * Z)) : option Z :=
  snd <$> last (filter (fun x => x.1 < t) m).

Definition latestSampleTime (s : signal) : Z := default 0 (fst <$> last (values s)).

Definition lastValue (s : signal) : outcome string Z :=
  match last (values s) with Some x => Ret x.2 | None => Throw "Signal has no values." end.

Definition valueAt (t : Z) (s : signal) : outcome string Z :=
  match sfind t (values s) with
  | Some v => Ret v
  | None =>
      match at_or_before t (values s) with
      | Some v => Ret v
      | None => Throw "Value not available at time on signal"
      end
  end.

Definition valueIfAvailableAt (t : Z) (s : signal) : option Z :=
  match sfind t (values s) with
  | Some v => Some v
  | None =>
      if isSource s && negb (isClock s)
      then match values s with
           | (t0, _) :: _ => if t0 <=? t then at_or_before t (values s) else None
           | [] => None
           end
      else None
  end.

Definition lastValueBefore (t : Z) (s : signal) : outcome string Z :=
  match strictly_before t (values s) with
  | Some v => Ret v
  | None => match values s with x :: _ => Ret x.2 | [] => UB end
  end.

Definition mul64 (a b : Z) : outcome string Z := if bool_decide (inS 64 (a * b)) then Ret (a * b) else UB.
Definition sub64 (a b : Z) : outcome string Z := if bool_decide (inS 64 (a - b)) then Ret (a - b) else UB.

Definition valueAtIndex (index : Z) (reference : option Z) (s : signal) : outcome string Z :=
  if 0 <? index then Throw "Signal index must be 0 or negative"
  else
    match values s with
    | [] => Throw "Signal has no values."
    | (t0, v0) :: _ =>
        if eventDriven s then
          if index =? 0 then lastValue s
          else Throw "Event-driven signals do not support history indices"
        else
          if index =? - 2 ^ 31 then UB     (* -index *)
          else
          let! back := mul64 (period s) (- index) in
          let! t := sub64 (default (latestSampleTime s) reference) back in
          if t <? t0 then Ret v0 else valueAt t s
    end.

(** ** Storing a sample *)

(** The part of [setValueAt] under the signal's lock, on the value it has already
    snapshot: the new signal, and whether its observers are told. *)
Definition store (t stored : Z) (s : signal) : outcome string (signal * bool) :=
  match last (values s) with
  | None => UB
  | Some (newest, _) =>
      let! before := lastValueBefore t s in
      let kept :=
        if (newest <? t) && (wrapU 64 (maxHistory s) <=? Z.of_nat (length (values s)))
        then drop 1 (values s) else values s in
      let s := set_values (sset Z.le t stored kept) s in
      if veq before stored then Ret (s, false)
      else if suppressInitial s then Ret (set_suppress false s, false)
      else Ret (s, true)
  end.

(** [tick], before its [setValueAt]: the clock's next value, an int32. *)
Definition clock_tick (s : signal) : outcome string (signal * Z) :=
  if running s || tickPending s then
    let n := wrapU 64 (clockCount s + 1) in
    Ret (set_ticked false n s, int32Val (wrapS 32 n))
  else
    let! v := lastValue s in Ret (s, v).

End Samples.

(** ** The time grid *)

Definition period_frequency (p : Z) : Z :=
  if p =? 0 then realVal 0 else d_div microsecond (double_of_int p).

(** [int64_t(1000000ULL/freq)] *)
Definition grid_period (freq : Z) : outcome string Z := to_int64 (d_div microsecond freq).

Definition nextPeriodOnPeriodBoundary (now p : Z) : outcome string Z :=
  let! g := grid_period (period_frequency p) in
  let! half := to_int64 (d_mul one_and_half (double_of_int g)) in
  if g =? 0 then UB
  else
    let next := now + half in
    Ret (next - Z.rem next g).


(** ** The delay line *)

Section DelayLine.
Context (veq : Z -> Z -> bool).
Implicit Types (H m : list (Z * Z)) (t v r : Z) (ws : list (Z * Z)).

Fixpoint feed ws (s : signal) : outcome string signal :=
  match ws with
  | [] => Ret s
  | (t, v) :: ws => match store veq t v s with Ret (s, _) => feed ws s | Throw e => Throw e | UB => UB end
  end.

(** The whole past, and what a signal with that past carries at a time. *)
Fixpoint past ws H : list (Z * Z) :=
  match ws with [] => H | (t, v) :: ws => past ws (sset Z.le t v H) end.

Definition hold H t : option Z :=
  match at_or_before t H with Some v => Some v | None => snd <$> head H end.

(** Samples written in time order, on the grid of the period. *)
Fixpoint on_grid (p from : Z) ws : Prop :=
  match ws with [] => True | (t, v) :: ws => from <= t /\ (p | t) /\ on_grid p t ws end.

Fixpoint end_time (from : Z) ws : Z := match ws with [] => from | (t, _) :: ws => end_time t ws end.

Lemma sset_last t v x m : ascending Z.le (m ++ [(t, x)]) -> sset Z.le t v (m ++ [(t, x)]) = m ++ [(t, v)].
Proof.
  unfold ascending. induction m as [|[j b] m IH]; cbn; intros Hm; [by rewrite decide_True|].
  apply StronglySorted_inv in Hm as [Hm Hj]. rewrite Forall_forall in Hj.
  assert (strict Z.le j t) as Hlt.
  { apply Hj. rewrite fmap_app. apply elem_of_app. right. by left. }
  rewrite decide_False by (intros ->; by apply (irreflexivity (strict Z.le) j)).
  rewrite decide_False by apply Hlt. by rewrite IH.
Qed.

(** Distinct multiples of the period. *)
Lemma grid_spread p t0 v0 m t v :
  0 < p -> ascending Z.le ((t0, v0) :: m ++ [(t, v)]) -> Forall (fun x => (p | x.1)) ((t0, v0) :: m ++ [(t, v)]) ->
  t0 + p * (Z.of_nat (length m) + 1) <= t.
Proof.
  intros Hp. revert t0 v0. induction m as [|[t1 v1] m IH]; intros t0 v0 Hs Hd; cbn -[Z.mul] in *.
  - apply StronglySorted_inv in Hs as [_ Hlt]. cbn in Hlt. apply Forall_cons in Hlt as [[H1 H2] _].
    apply Forall_cons in Hd as [D1 Hd]. apply Forall_cons in Hd as [D2 _]. cbn in *.
    destruct D1 as [a ->], D2 as [b ->]. assert (a < b) by nia. nia.
  - apply StronglySorted_inv in Hs as [Hs Hlt]. cbn in Hlt. apply Forall_cons in Hlt as [[H1 H2] _].
    apply Forall_cons in Hd as [D1 Hd]. specialize (IH t1 v1 Hs Hd).
    apply Forall_cons in Hd as [D2 _]. cbn in *. destruct D1 as [a ->], D2 as [b ->]. assert (a < b) by nia. nia.
Qed.

Lemma filter_le_app t m m' : Forall (fun x => x.1 <= t) m' -> m' <> [] ->
  last (filter (fun x => x.1 <= t) (m ++ m')) = last m'.
Proof.
  intros Hm Hne. rewrite filter_app, (filter_all (fun x => x.1 <= t) m') by done.
  rewrite last_app. destruct (last m') eqn:E; [done|]. by apply last_None in E.
Qed.

(** What was kept of the past [H]: its newest samples, [M] at most, and all of it
    while it is shorter. *)
Record kept (p M : Z) H (s : signal) : Prop := {
  kp_period : period s = p /\ eventDriven s = false /\ maxHistory s = M;
  kp_past : ascending Z.le H /\ Forall (fun x => (p | x.1)) H;
  kp_suffix : exists d, values s = drop d H /\ (d < length H)%nat /\ (d = 0%nat \/ M <= Z.of_nat (length (values s)));
  kp_bound : Z.of_nat (length (values s)) <= M;
}.

Lemma ascending_le_last m t x : ascending Z.le (m ++ [(t, x)]) -> Forall (fun y => y.1 <= t) (m ++ [(t, x)]).
Proof.
  unfold ascending. induction m as [|[j b] m IH]; cbn; intros Hm; [by repeat constructor|].
  apply StronglySorted_inv in Hm as [Hm Hj]. constructor; [|by apply IH]. rewrite Forall_forall in Hj.
  cbn. apply Hj. rewrite fmap_app. apply elem_of_app. right. by left.
Qed.

Lemma lastValueBefore_some t s : values s <> [] -> exists v, lastValueBefore t s = Ret v.
Proof. intros H. unfold lastValueBefore. destruct (strictly_before t (values s)); [by eexists|]. destruct (values s); [done|by eexists]. Qed.

Lemma store_kept p M H s t v tl x H0 :
  kept p M H s -> 1 <= M < 2 ^ 31 -> H = H0 ++ [(tl, x)] -> tl <= t -> (p | t) ->
  exists s' b, store veq t v s = Ret (s', b) /\ kept p M (sset Z.le t v H) s'.
Proof.
  intros [[Hp [He HM]] [Ha Hd] (d & Hv & Hlt & Hor) Hb] HM2 -> Htl Hdiv.
  rewrite length_app in Hlt. cbn in Hlt.
  assert (drop d (H0 ++ [(tl, x)]) = drop d H0 ++ [(tl, x)]) as Hdrop by (rewrite drop_app_le by lia; done).
  destruct (lastValueBefore_some t s) as [b Eb]; [rewrite Hv, Hdrop; intros E; by destruct (drop d H0)|].
  set (old := values s) in *.
  set (m := sset Z.le t v (if (tl <? t) && (wrapU 64 (maxHistory s) <=? Z.of_nat (length old)) then drop 1 old else old)).
  assert (exists s' b', store veq t v s = Ret (s', b') /\ values s' = m /\ period s' = period s /\
    eventDriven s' = eventDriven s /\ maxHistory s' = maxHistory s) as (s' & b' & Es & Hm & Hp' & He' & HM').
  { unfold store. fold old. rewrite Hv, Hdrop, last_snoc. rewrite <- Hdrop, <- Hv. rewrite Eb. cbn.
    destruct (veq b v); [by do 2 eexists|]. destruct (suppressInitial s); by do 2 eexists. }
  exists s', b'. split; [done|].
  assert (wrapU 64 (maxHistory s) = M) as HW by (rewrite HM; apply wrapU_id; unfold inU; lia).
  unfold m in Hm. rewrite HW in Hm. clear m.
  assert (length old = (length H0 - d + 1)%nat) as Hlen by (rewrite Hv, Hdrop, length_app, length_drop; done).
  assert (ascending Z.le (sset Z.le t v (H0 ++ [(tl, x)]))) as Ha' by (apply (ascending_sset Z.le); exact Ha).
  assert (Forall (fun y => (p | y.1)) (sset Z.le t v (H0 ++ [(tl, x)]))) as Hd'.
  { rewrite Forall_forall in Hd |- *. intros [j c] [[-> _]|[_ Hj]]%(elem_sset Z.le); [done|by apply (Hd (j, c))|done]. }
  destruct (Z.ltb_spec tl t) as [Hgt|Hle].
  - assert (Forall (fun y => strict Z.le y.1 t) (H0 ++ [(tl, x)])) as Hall.
    { eapply Forall_impl; [by apply ascending_le_last|]. cbn. intros y Hy. split; lia. }
    rewrite (sset_end _ _ _ _ Hall) in *. cbn [andb] in Hm.
    destruct (Z.leb_spec M (Z.of_nat (length old))) as [Hfull|Hroom].
    + rewrite Hv, drop_drop, (sset_end _ _ _ _ (Forall_drop _ _ _ Hall)) in Hm.
      split; [naive_solver congruence|done| |].
      * exists (d + 1)%nat. rewrite drop_app_le by (rewrite length_app; cbn; lia). split; [done|].
        split; [rewrite !length_app; cbn; lia|]. right. rewrite Hm, length_app, length_drop, length_app. cbn. lia.
      * rewrite Hm, length_app, length_drop, length_app. cbn. lia.
    + rewrite Hv, (sset_end _ _ _ _ (Forall_drop _ _ _ Hall)) in Hm.
      split; [naive_solver congruence|done| |].
      * exists d. rewrite drop_app_le by (rewrite length_app; cbn; lia). split; [done|].
        split; [rewrite !length_app; cbn; lia|]. left. lia.
      * rewrite Hm, length_app, length_drop, length_app. cbn. lia.
  - assert (t = tl) as -> by lia. rewrite (sset_last tl v x H0 Ha) in *. cbn [andb] in Hm.
    rewrite Hv, Hdrop, sset_last in Hm by (rewrite <- Hdrop; by apply ascending_drop).
    split; [naive_solver congruence|done| |].
    + exists d. rewrite drop_app_le by lia. split; [done|]. rewrite length_app. cbn. split; [lia|].
      rewrite Hm, length_app, length_drop. cbn. destruct Hor; [by left|right]. lia.
    + rewrite Hm, length_app, length_drop. cbn. lia.
Qed.

Lemma feed_kept p M ws H s H0 tl x :
  kept p M H s -> 1 <= M < 2 ^ 31 -> H = H0 ++ [(tl, x)] -> on_grid p tl ws ->
  exists s', feed ws s = Ret s' /\ kept p M (past ws H) s' /\
    exists H1 y, past ws H = H1 ++ [(end_time tl ws, y)].
Proof.
  revert H s H0 tl x. induction ws as [|[t v] ws IH]; intros H s H0 tl x Hk HM HH Hg; cbn in *.
  { exists s. split; [done|]. split; [done|]. by exists H0, x. }
  destruct Hg as (Hle & Hd & Hg).
  destruct (store_kept p M H s t v tl x H0 Hk HM HH Hle Hd) as (s1 & b & Es & Hk1). rewrite Es.
  assert (exists H1 y, sset Z.le t v H = H1 ++ [(t, y)]) as (H1 & y & E1).
  { destruct Hk as [_ [Ha _] _ _]. rewrite HH in *. destruct (decide (tl = t)) as [<-|Hne].
    - exists H0, v. by apply sset_last.
    - exists (H0 ++ [(tl, x)]), v. apply sset_end. eapply Forall_impl; [by apply ascending_le_last|].
      cbn. intros z Hz. split; lia. }
  by apply (IH _ s1 H1 t y).
Qed.

Lemma at_or_before_find t v m : ascending Z.le m -> (t, v) ∈ m -> at_or_before t m = Some v.
Proof.
  unfold at_or_before, ascending. intros Ha Hin. apply list_elem_of_split in Hin as (A & B & ->).
  assert (filter (fun x => x.1 <= t) B = []) as HB.
  { apply (filter_none (fun x => x.1 <= t)). revert Ha. clear. induction A as [|a A IH]; cbn; intros [Ha Hj]%StronglySorted_inv.
    - rewrite Forall_forall in Hj. apply Forall_forall. intros y Hy Hle. destruct (Hj y.1) as [_ Hn]; [by apply list_elem_of_fmap_2|done].
    - by apply IH. }
  rewrite filter_app, filter_cons_True by (cbn; lia). rewrite HB, last_snoc. done.
Qed.

Lemma at_or_before_suffix t d H t0 v0 m : drop d H = (t0, v0) :: m -> t0 <= t -> at_or_before t (drop d H) = at_or_before t H.
Proof.
  intros Hd Ht. unfold at_or_before. rewrite <- (take_drop d H) at 2. rewrite filter_app, last_app.
  destruct (last (filter (fun x => x.1 <= t) (drop d H))) eqn:E; [done|].
  apply last_None in E. rewrite Hd, filter_cons_True in E by done. done.
Qed.

(** Reading [k] periods back from a time no sample is newer than. *)
Lemma kept_delayed p M H s k r H0 tl x :
  kept p M H s -> 0 < p -> 1 <= M < 2 ^ 31 -> H = H0 ++ [(tl, x)] -> tl <= r -> 0 <= r < 2 ^ 63 ->
  0 <= k -> k + 1 <= M -> p * k < 2 ^ 63 ->
  exists v, hold H (r - p * k) = Some v /\ valueAtIndex (- k) (Some r) s = Ret v.
Proof.
  intros [[Hp [He HM]] [Ha Hd] (d & Hv & Hlt & Hor) Hb] Hpos HMr HH Htl Hr Hk HkM Hov.
  assert (exists t0 v0 m, values s = (t0, v0) :: m) as (t0 & v0 & m & Em).
  { destruct (values s) as [|[t0 v0] m] eqn:E; [|by eexists _, _, _]. exfalso.
    assert (length (drop d H) = 0%nat) as E0 by (by rewrite <- Hv). rewrite length_drop in E0. lia. }
  rewrite Em in Hv. assert (ascending Z.le (drop d H)) as Had by (by apply ascending_drop).
  assert (0 <= p * k) by nia.
  unfold valueAtIndex. rewrite Em, Hp, He. destruct (Z.ltb_spec 0 (- k)); [lia|].
  destruct (Z.eqb_spec (- k) (- 2 ^ 31)); [lia|]. rewrite Z.opp_involutive. unfold mul64, sub64.
  rewrite bool_decide_eq_true_2 by (unfold inS; lia). cbn [obind from_option id].
  rewrite bool_decide_eq_true_2 by (unfold inS; lia). cbn [obind].
  destruct (Z.ltb_spec (r - p * k) t0) as [Hbefore|Hafter].
  - assert (d = 0%nat) as ->.
    { destruct Hor as [?|Hfull]; [done|exfalso].
      assert (drop d H = drop d H0 ++ [(tl, x)]) as Hdr.
      { subst H. rewrite length_app in Hlt. cbn in Hlt. by rewrite drop_app_le by lia. }
      rewrite Hdr in Hv. destruct (drop d H0) as [|y m0] eqn:Ed0.
      - injection Hv as -> -> ->. rewrite Em in Hfull. cbn in Hfull. nia.
      - injection Hv as <- ->. rewrite Hdr in Had. assert (Forall (fun z => (p | z.1)) (drop d H)) as Hdd by (by apply Forall_drop).
        rewrite Hdr in Hdd. pose proof (grid_spread p t0 v0 m0 tl x Hpos Had Hdd).
        rewrite Em in Hfull. cbn [length] in Hfull. rewrite length_app in Hfull. cbn in Hfull. nia. }
    exists v0. split; [|done]. unfold hold, at_or_before. rewrite drop_0 in Hv. rewrite <- Hv in *.
    rewrite (filter_none (fun y => y.1 <= r - p * k)); [done|]. rewrite drop_0 in Had.
    unfold ascending in Had. cbn in Had. apply StronglySorted_inv in Had as [_ Hj].
    constructor; [cbn; lia|]. rewrite Forall_forall in Hj. apply Forall_forall. intros y Hy Hle.
    destruct (Hj y.1) as [Hj1 _]; [by apply list_elem_of_fmap_2|]. cbn in *. lia.
  - assert (exists v, at_or_before (r - p * k) (values s) = Some v) as (v & Hab).
    { unfold at_or_before. rewrite Em, filter_cons_True by done.
      destruct (last _) eqn:El; [by eexists|]. by apply last_None in El. }
    exists v. split.
    + unfold hold. rewrite <- (at_or_before_suffix _ d H t0 v0 m) by done. by rewrite <- Hv, <- Em, Hab.
    + unfold valueAt. destruct (sfind (r - p * k) (values s)) as [w|] eqn:Ew; [|by rewrite Hab].
      apply (sfind_elem Z.le) in Ew; [|by rewrite Em, Hv]. rewrite (at_or_before_find _ w) in Hab by (rewrite Em, Hv; done || (by rewrite <- Hv, <- Em)).
      by injection Hab as ->.
Qed.

(** C20. A signal is a delay line.  Its [maxHistory] fixed from the start: whatever samples
    are written to it, in time order and on the grid of its period, it never fails, keeps at most [maxHistory] of them, and a
    delay of [k] periods it has room for, taken at a time no sample is newer than, reads
    exactly what the whole past carried [k] periods earlier (the initial value before the
    first sample). *)
Theorem delay_line p v0 ws s k r :
  values s = [(0, v0)] -> eventDriven s = false -> period s = p -> 0 < p ->
  on_grid p 0 ws -> end_time 0 ws <= r < 2 ^ 63 ->
  0 <= k -> k + 1 <= maxHistory s < 2 ^ 31 -> p * k < 2 ^ 63 ->
  exists s' v, feed ws s = Ret s' /\ Z.of_nat (length (values s')) <= maxHistory s /\
    hold (past ws [(0, v0)]) (r - p * k) = Some v /\ valueAtIndex (- k) (Some r) s' = Ret v.
Proof.
  intros Hv He Hp Hpos Hg Hr Hk HkM Hov.
  assert (kept p (maxHistory s) [(0, v0)] s) as Hk0.
  { split; rewrite ?Hv; try done.
    - split; [by repeat constructor|]. constructor; [apply Z.divide_0_r|done].
    - exists 0%nat. cbn. split; [done|]. split; [lia|by left].
    - cbn. lia. }
  destruct (feed_kept p (maxHistory s) ws [(0, v0)] s [] 0 v0) as (s' & Es & Hks & H1 & y & E1); try done; [lia|].
  destruct (kept_delayed p (maxHistory s) _ s' k r H1 (end_time 0 ws) y Hks) as (v & Hh & Hx); try done; try lia.
  { assert (forall ws f, 0 <= f -> on_grid p f ws -> 0 <= end_time f ws) as Hend; [|specialize (Hend ws 0 ltac:(lia) Hg); lia].
    clear. intros ws. induction ws as [|[t v] ws IH]; intros f Hf Hg; [done|]. cbn in *. apply IH; [lia|apply Hg]. }
  exists s', v. split; [done|]. split; [apply (kp_bound _ _ _ _ Hks)|done].
Qed.
End DelayLine.

Definition ten_us : signal :=
  mkSignal (realVal 0x40F86A0000000000) 10 false false false false false 0 false false None 0 [] 3 false [(0, 7)].

Lemma delay_line_witness :
  exists s' v, feed Z.eqb [(10, 8); (20, 9); (20, 1); (40, 2)] ten_us = Ret s' /\
    hold (past [(10, 8); (20, 9); (20, 1); (40, 2)] [(0, 7)]) (40 - 10 * 2) = Some v /\
    valueAtIndex (- 2) (Some 40) s' = Ret v.
Proof.
  assert (on_grid 10 0 [(10, 8); (20, 9); (20, 1); (40, 2)]) as Hg.
  { cbn. split_and!; first [lia | by exists 1 | by exists 2 | by exists 4 | done]. }
  assert (end_time 0 [(10, 8); (20, 9); (20, 1); (40, 2)] <= 40 < 2 ^ 63) as Hr by (cbn [end_time]; lia).
  assert (2 + 1 <= maxHistory ten_us < 2 ^ 31) as Hm by (cbn [maxHistory ten_us]; lia).
  destruct (delay_line Z.eqb 10 7 _ ten_us 2 40 eq_refl eq_refl eq_refl ltac:(lia) Hg Hr ltac:(lia) Hm ltac:(lia))
    as (s' & v & H1 & _ & H2 & H3).
  by exists s', v.
Defined.

(** A sample written ahead of the reading time takes the place of the one the delay
    needs: [set] stamps its sample one period past the tick being waited for. *)
Lemma sample_ahead_breaks_delay :
  exists s', feed Z.eqb [(10, 8); (20, 9)] (set_maxHistory 2 ten_us) = Ret s' /\
    valueAtIndex (- 1) (Some 10) s' = Ret 8 /\ hold (past [(10, 8); (20, 9)] [(0, 7)]) 0 = Some 7.
Proof. eexists. split; [vm_compute; reflexivity|]. split; vm_compute; reflexivity. Qed.

(** ** The grid *)

Lemma boundary_exact now p r :
  grid_period (period_frequency p) = Ret p -> nextPeriodOnPeriodBoundary now p = Ret r -> (p | r).
Proof.
  unfold nextPeriodOnPeriodBoundary. intros ->. cbn [obind].
  destruct (to_int64 _) as [half| |]; cbn [obind]; try done.
  destruct (Z.eqb_spec p 0) as [->|Hp]; [done|]. intros [= <-].
  pose proof (Z.quot_rem' (now + half) p). exists (Z.quot (now + half) p). lia.
Qed.

(** The period is taken through a frequency and truncated: of 30 ms 29.999 are left,
    and ticks counted from there miss every multiple of the period. *)
Lemma boundary_off_grid :
  nextPeriodOnPeriodBoundary 1000000 30000 = Ret 1019966 /\ forall n, ~ (30000 | 1019966 + 30000 * n).
Proof.
  split; [vm_compute; reflexivity|]. intros n [z Hz]. lia.
Qed.

(** Frequencies the constructor's tests let through and its conversion does not. *)
Lemma period_of_nan : period_of 0x7ff8000000000000 = UB /\ period_of 0x3d3c25c268497682 = UB.
Proof. split; vm_compute; reflexivity. Qed.
End Signals.
