(* ===== verification/Dataflow.v ===== *)
(** * Dataflow: the signal network (dataflow/DataflowEngine, FuncNode, Signal)

    Programs lift functions over signals; the engine keeps the network, prunes what
    nothing holds, and derives from it the islands, the tick period and the order in
    which an island's functions run.

    Signals and nodes are objects by address; what [std::map] keys on an address
    iterates in address order ([SortedMap]), functions are kept by name.  A
    [weak_ptr] is an address that may no longer be in the store.  Samples are those of
    [Signals]; [DataflowEval] evaluates the islands.  The engine's thread, its event
    queues and the host's budgeted ticks are not modelled. *)

From S2P Require Import Prelude SortedMap Value Signals.
From stdpp Require Import numbers pretty.

Module Dataflow.

Import Signals.
Local Open Scope Z_scope.

(** ** State *)

Record port := mkPort {
  p_signal : Z;
  p_index : Z;                    (* int; 0 or negative *)
  p_default : option Z;
  p_available : Z;                (* latestAvailableTime *)
}.

Record node := mkNode {
  n_name : string;
  n_inputs : list port;
  n_outputs : list Z;
  n_period : Z;
}.

Record island := mkIsland {
  i_signals : list Z;
  i_funcs : list Z;
  i_orders : list (Z * list Z);   (* executionOrders, by interval *)
  i_tickPeriod : Z;
  i_background : bool;
}.

Record engine := mkEngine {
  heap : gmap Z signal;           (* the live Signal objects *)
  nodes : gmap Z node;            (* the FuncNode objects *)
  signals : list Z;
  funcs : list (string * Z);      (* by name *)
  consumers : list (Z * list (Z * Z));   (* signalConsumers: function, latency *)
  wrappers : gmap Z Z;            (* signalWrapperRefs *)
  modified : bool;                (* m_networkModified *)
  islands : list island;
  tickPeriod : Z;
  fired : list (Z * Z);           (* calls of processEventDrivenSignalUpdate *)
}.

Definition set_heap (x : gmap Z signal) (e : engine) : engine :=
  mkEngine x (nodes e) (signals e) (funcs e) (consumers e) (wrappers e) (modified e) (islands e) (tickPeriod e) (fired e).
Definition set_nodes (x : gmap Z node) (e : engine) : engine :=
  mkEngine (heap e) x (signals e) (funcs e) (consumers e) (wrappers e) (modified e) (islands e) (tickPeriod e) (fired e).
Definition set_signals (x : list Z) (e : engine) : engine :=
  mkEngine (heap e) (nodes e) x (funcs e) (consumers e) (wrappers e) (modified e) (islands e) (tickPeriod e) (fired e).
Definition set_funcs (x : list (string * Z)) (e : engine) : engine :=
  mkEngine (heap e) (nodes e) (signals e) x (consumers e) (wrappers e) (modified e) (islands e) (tickPeriod e) (fired e).
Definition set_consumers (x : list (Z * list (Z * Z))) (e : engine) : engine :=
  mkEngine (heap e) (nodes e) (signals e) (funcs e) x (wrappers e) (modified e) (islands e) (tickPeriod e) (fired e).
Definition set_wrappers (x : gmap Z Z) (e : engine) : engine :=
  mkEngine (heap e) (nodes e) (signals e) (funcs e) (consumers e) x (modified e) (islands e) (tickPeriod e) (fired e).
Definition set_modified (x : bool) (e : engine) : engine :=
  mkEngine (heap e) (nodes e) (signals e) (funcs e) (consumers e) (wrappers e) x (islands e) (tickPeriod e) (fired e).
Definition set_network (x : list island) (p : Z) (e : engine) : engine :=
  mkEngine (heap e) (nodes e) (signals e) (funcs e) (consumers e) (wrappers e) false x p (fired e).
Definition set_fired (x : list (Z * Z)) (e : engine) : engine :=
  mkEngine (heap e) (nodes e) (signals e) (funcs e) (consumers e) (wrappers e) (modified e) (islands e) (tickPeriod e) x.

Definition put (a : Z) (s : signal) (e : engine) : engine := set_heap (<[a := s]> (heap e)) e.

Definition empty_engine : engine := mkEngine empty empty [] [] [] empty false [] 0 [].

Definition live (e : engine) (a : Z) : bool := bool_decide (is_Some (heap e !! a)).

(** The [FuncNode]s in name order, with their addresses. *)
Definition func_nodes (e : engine) : list (Z * node) :=
  omap (fun x => (fun n => (x.2, n)) <$> nodes e !! x.2) (funcs e).

(** ** Registration *)

Definition markNetworkModified (e : engine) : engine := set_modified true e.

Definition addSignal (a : Z) (e : engine) : engine := set_modified true (set_signals (signals e ++ [a]) e).

Definition addFunc (f : Z) (e : engine) : engine :=
  match nodes e !! f with
  | Some n => set_modified true (set_funcs (sset String.le (n_name n) f (funcs e)) e)
  | None => e
  end.

Definition wrapperRefCount (a : Z) (e : engine) : Z := default 0 (wrappers e !! a).

Definition registerSignalWrapper (a : Z) (e : engine) : engine :=
  set_wrappers (<[a := wrapU 64 (wrapperRefCount a e + 1)]> (wrappers e)) e.

Definition unregisterSignalWrapper (a : Z) (e : engine) : engine * Z :=
  match wrappers e !! a with
  | None => (e, 0)
  | Some n =>
      let n := wrapU 64 (n - 1) in
      if n =? 0 then (set_wrappers (delete a (wrappers e)) e, 0)
      else (set_wrappers (<[a := n]> (wrappers e)) e, n)
  end.

Definition consumerCount (a : Z) (e : engine) : Z :=
  match sfind a (consumers e) with Some l => Z.of_nat (length l) | None => 0 end.

(** The signals derived from [a] that still exist. *)
Definition dependents_of (a : Z) (e : engine) : list Z :=
  match heap e !! a with Some s => filter (fun d => live e d = true) (dependents s) | None => [] end.

Definition removeDependent (base d : Z) (e : engine) : engine :=
  match heap e !! base with
  | Some s => put base (set_dependents (filter (fun x => live e x = true /\ x <> d) (dependents s)) s) e
  | None => e
  end.

Definition addDependent (base d : Z) (e : engine) : engine :=
  match heap e !! base with
  | Some s => put base (set_dependents (filter (fun x => live e x = true) (dependents s) ++ [d]) s) e
  | None => e
  end.

Definition baseOf (a : Z) (e : engine) : option Z :=
  s ← heap e !! a; b ← baseSignal s; if live e b then Some b else None.

Definition zeroDelayDerived (s : signal) : bool := isDerived s && (baseIndex s =? 0).


(** ** Removal *)

Definition has_output (a : Z) (n : node) : bool := bool_decide (a ∈ n_outputs n).
Definition has_input (a : Z) (n : node) : bool := existsb (fun p => p_signal p =? a) (n_inputs n).

Definition used (a : Z) (e : engine) : bool :=
  existsb (fun x : Z * node => has_input a x.2 || has_output a x.2) (func_nodes e).

Definition producers (a : Z) (e : engine) : list Z :=
  (filter (fun x : Z * node => has_output a x.2 = true) (func_nodes e)).*1.

(** An output something holds or consumes. *)
Definition held (a : Z) (e : engine) : bool :=
  (0 <? wrapperRefCount a e) || (0 <? consumerCount a e) || bool_decide (dependents_of a e <> []).

Definition any_output_held (f : Z) (e : engine) : bool :=
  match nodes e !! f with Some n => existsb (fun o => held o e) (n_outputs n) | None => false end.

Definition orphaned (a : Z) (e : engine) : bool := (wrapperRefCount a e =? 0) && (consumerCount a e =? 0).

Definition strip_node (a : Z) (n : node) : node :=
  mkNode (n_name n) (filter (fun p => p_signal p <> a) (n_inputs n)) (filter (fun o => o <> a) (n_outputs n)) (n_period n).

(** Every registered function loses its ports on [a]. *)
Definition strip (a : Z) (e : engine) : engine :=
  set_nodes (map_imap (fun f n => Some (if decide (f ∈ (funcs e).*2) then strip_node a n else n)) (nodes e)) e.

Definition without_outputs (e : engine) : list Z :=
  (filter (fun x : Z * node => n_outputs x.2 = []) (func_nodes e)).*1.

Definition erase_func (f : Z) (n : node) (e : engine) : engine :=
  match sfind (n_name n) (funcs e) with
  | Some _ => set_funcs (serase (n_name n) (funcs e)) e
  | None => set_funcs (filter (fun x => x.2 <> f) (funcs e)) e
  end.

Definition forget_consumer (f : Z) (e : engine) : engine :=
  set_consumers (filter (fun x => x.2 <> []) (prod_map id (filter (fun c => c.1 <> f)) <$> consumers e)) e.

Fixpoint removeEach {A} (rm : A -> engine -> option engine) (l : list A) (e : engine) : option engine :=
  match l with
  | [] => Some e
  | x :: l => match rm x e with Some e => removeEach rm l e | None => None end
  end.

(** The two call each other; [None]: the calls are nested deeper than the fuel. *)
Fixpoint removeSignal (fuel : nat) (a : Z) (force : bool) (e : engine) : option engine :=
  match fuel with
  | O => None
  | S fuel =>
      if used a e && negb force then Some e
      else if bool_decide (dependents_of a e <> []) then Some e
      else if force && bool_decide (producers a e <> []) then
        if existsb (fun f => any_output_held f e) (producers a e) then Some e
        else removeEach (removeFunc fuel) (producers a e) e
      else if bool_decide (a ∈ signals e) then
        let e := set_consumers (serase a (consumers e)) (set_signals (filter (fun x => x <> a) (signals e)) e) in
        let rebased :=
          match heap e !! a, baseOf a e with
          | Some s, Some b =>
              if isDerived s then
                let e := removeDependent b a e in
                if bool_decide (dependents_of b e = []) && orphaned b e then removeSignal fuel b true e else Some e
              else Some e
          | _, _ => Some e
          end in
        match rebased with
        | None => None
        | Some e =>
            let e := strip a e in
            match removeEach (removeFunc fuel) (without_outputs e) e with
            | Some e => Some (set_modified true e)
            | None => None
            end
        end
      else Some e
  end
with removeFunc (fuel : nat) (f : Z) (e : engine) : option engine :=
  match fuel with
  | O => None
  | S fuel =>
      match nodes e !! f with
      | None => Some e
      | Some n =>
          let e := forget_consumer f (erase_func f n e) in
          let release a e := removeSignal fuel a (orphaned a e) e in
          match removeEach release (map p_signal (n_inputs n)) e with
          | None => None
          | Some e =>
              match removeEach release (n_outputs n) e with
              | None => None
              | Some e => Some (set_modified true e)
              end
          end
      end
  end.

Definition removal_fuel (e : engine) : nat := 2 * (length (signals e) + length (funcs e)) + 2.

(** A script's wrapper of a signal goes (~ObjSignal). *)
Definition drop_wrapper (a : Z) (e : engine) : option engine :=
  let '(e, remaining) := unregisterSignalWrapper a e in
  if (remaining =? 0) && (consumerCount a e =? 0) then removeSignal (removal_fuel e) a true e else Some e.


(** ** Samples through the network *)

(** The input ports fed by [a] learn how far its samples go. *)
Definition updateSignalConsumerInputAvailability (a t : Z) (e : engine) : engine :=
  let touched := map fst (default [] (sfind a (consumers e))) in
  set_nodes (map_imap (fun f n =>
    Some (if decide (f ∈ touched)
          then mkNode (n_name n)
                 (map (fun p => if p_signal p =? a then mkPort (p_signal p) (p_index p) (p_default p) t else p) (n_inputs n))
                 (n_outputs n) (n_period n)
          else n)) (nodes e)) e.

Section Samples.
Context (veq : Z -> Z -> bool) (snapshot : Z -> Z).

(** [setValueAt] and [publishSample], one inside the other: a sample goes on to the
    signals wired to this one.  No fuel: the wires form a loop and the program's
    stack overflows. *)
Fixpoint setValueAt (fuel : nat) (t v a : Z) (e : engine) : outcome string engine :=
  match fuel, heap e !! a with
  | O, _ | _, None => UB
  | S fuel, Some s =>
      let stored := snapshot v in
      let! (s, changed) := store veq t stored s in
      publish fuel t stored a (put a s e)
  end
with publish (fuel : nat) (t stored a : Z) (e : engine) : outcome string engine :=
  match fuel, heap e !! a with
  | O, _ | _, None => UB
  | S fuel, Some s =>
      let! e := fold_left (fun r d =>
        let! e := r in
        match heap e !! d with
        | Some sd =>
            if baseIndex sd =? 0 then
              let! e := setValueAt fuel t stored d e in
              Ret (if eventDriven s then e else updateSignalConsumerInputAvailability d t e)
            else Ret e
        | None => Ret e
        end) (dependents_of a e) (Ret e) in
      if eventDriven s then
        let e := updateSignalConsumerInputAvailability a t e in
        Ret (if isSource s && negb (isDerived s) then set_fired (fired e ++ [(a, t)]) e else e)
      else Ret e
  end.

Definition sample_fuel (e : engine) : nat := 2 * size (heap e) + 2.

(** [Signal::tick]: a clock advances; any other source keeps what it carries. *)
Definition tick (fuel : nat) (t a : Z) (e : engine) : outcome string engine :=
  match heap e !! a with
  | None => UB
  | Some s =>
      if isClock s then
        let! (s, v) := clock_tick s in
        setValueAt fuel t v a (put a s e)
      else Ret e
  end.

(** [Signal::set], at the current time or the start of the tick being waited for. *)
Definition set (fuel : nat) (now tickStart v a : Z) (e : engine) : outcome string engine :=
  match heap e !! a with
  | None => UB
  | Some s =>
      if eventDriven s then setValueAt fuel now v a e
      else
        let nextTick := tickStart + period s in
        let! e := setValueAt fuel nextTick v a e in
        Ret (updateSignalConsumerInputAvailability a nextTick e)
  end.

(** ** New signals and nodes *)

Definition source_signal (freq initial : Z) (bg : bool) : outcome string signal :=
  let! s := new_signal snapshot freq initial in
  Ret (mkSignal (frequency s) (period s) (eventDriven s) true false false false 0 bg
         false None 0 [] (maxHistory s) false (values s)).

Definition clock_signal (freq : Z) : outcome string signal :=
  let! s := new_signal snapshot freq (int32Val 0) in
  Ret (mkSignal (frequency s) (period s) (eventDriven s) true true false false 0 false
         false None 0 [] (maxHistory s) false (values s)).

Definition newSourceSignal (a freq initial : Z) (bg : bool) (e : engine) : outcome string engine :=
  let! s := source_signal freq initial bg in Ret (addSignal a (put a s e)).

Definition newClockSignal (a freq : Z) (e : engine) : outcome string engine :=
  let! s := clock_signal freq in Ret (addSignal a (put a s e)).

Definition freq_of (e : engine) (a : Z) : Z := match heap e !! a with Some s => frequency s | None => realVal 0 end.

(** [std::max] over the inputs' frequencies. *)
Definition maxFreq (e : engine) (ins : list Z) : Z :=
  fold_left (fun m a => if d_lt m (freq_of e a) then freq_of e a else m) ins (realVal 0).

(** The node's own output signals: address, initial value. *)
Fixpoint createOutputSignals (freq : Z) (outs : list (Z * Z)) (e : engine) : outcome string engine :=
  match outs with
  | [] => Ret e
  | (a, initial) :: outs =>
      let! s := new_signal snapshot freq initial in
      createOutputSignals freq outs (addSignal a (put a (set_suppress true s) e))
  end.

Definition addInput (e : engine) (a : Z) : port :=
  mkPort a 0 None (match heap e !! a with Some s => latestSampleTime s | None => 0 end).

(** Lifting a function: its node, its output signals, its registration. *)
Definition lift (name : string) (f : Z) (ins : list Z) (outs : list (Z * Z)) (e : engine) : outcome string engine :=
  let ports := map (addInput e) ins in
  let! e := createOutputSignals (maxFreq e ins) outs e in
  Ret (addFunc f (set_nodes (<[f := mkNode name ports (map fst outs) 0]> (nodes e)) e)).

Definition int_max (a b : Z) : Z := if a <? b then b else a.

(** [x[-k]]: [a] is the new signal's address, unused at index 0. *)
Definition indexedSignal (base index a : Z) (e : engine) : outcome string (engine * Z) :=
  match heap e !! base with
  | None => UB
  | Some s =>
      if 0 <? index then Throw "Signal index must be 0 or negative"
      else if index =? 0 then Ret (e, base)
      else if eventDriven s then Throw "Event-driven signals do not support delayed indices"
      else
        let initial := match valueAtIndex index (Some (latestSampleTime s)) s with
                       | Ret v => Ret v | Throw _ => Ret nilVal | UB => UB end in
        let! v := initial in
        let! n := new_signal snapshot (frequency s) v in
        let h := int_max (maxHistory s) (- index + 1) in
        let n := mkSignal (frequency n) (period n) (eventDriven s) false false false false 0 false
                   true (Some base) index [] h false (values n) in
        Ret (addSignal a (addDependent base a (put base (set_maxHistory h s) (put a n e))), a)
  end.

(** ** Wires *)

Fixpoint zeroDelaySource (fuel : nat) (e : engine) (a : Z) : option Z :=
  match fuel with
  | O => None
  | S fuel =>
      match heap e !! a with
      | Some s =>
          if zeroDelayDerived s
          then match baseOf a e with Some b => zeroDelaySource fuel e b | None => Some a end
          else Some a
      | None => Some a
      end
  end.

(** What [a] carries within the tick. *)
Definition zero_delay_sources (e : engine) (a : Z) : list Z :=
  match heap e !! a with
  | Some s => if zeroDelayDerived s then match baseOf a e with Some b => [b] | None => [] end else []
  | None => []
  end ++
  mjoin (map (fun x : Z * node =>
     if has_output a x.2 then map p_signal (filter (fun p => p_index p = 0) (n_inputs x.2)) else []) (func_nodes e)).

Fixpoint unvisited (visited : gset Z) (queue : list Z) : list Z :=
  match queue with
  | [] => []
  | a :: q => if decide (a ∈ visited) then unvisited visited q else a :: q
  end.

(** The breadth-first search; each round takes the first signal not yet visited. *)
Fixpoint search_upstream (fuel : nat) (e : engine) (targets visited : gset Z) (queue : list Z) : option bool :=
  match fuel with
  | O => None
  | S fuel =>
      match unvisited visited queue with
      | [] => Some false
      | a :: q =>
          if decide (a ∈ targets) then Some true
          else search_upstream fuel e targets ({[a]} ∪ visited) (q ++ zero_delay_sources e a)
      end
  end.

Definition zeroDelayUpstreamReaches (from : Z) (targets : gset Z) (e : engine) : option bool :=
  search_upstream (S (size (heap e))) e targets ∅ [from].

Definition deriveFrom (lhs base index : Z) (e : engine) : engine :=
  match heap e !! lhs, heap e !! base with
  | Some l, Some b =>
      let deep h := if index <? 0 then int_max h (- index + 1) else h in
      addDependent base lhs
        (put base (set_maxHistory (deep (maxHistory b)) b)
          (put lhs (mkSignal (frequency l) (period l) (eventDriven b) false false false false
                     (clockCount l) (background l) true (Some base) index (dependents l)
                     (deep (maxHistory l)) (suppressInitial l) (values l)) e))
  | _, _ => e
  end.

Definition at_zero_delay (e : engine) (a : Z) : bool :=
  match heap e !! a with Some s => baseIndex s =? 0 | None => false end.

Definition copyInto (lhs rhs : Z) (e : engine) : outcome string engine :=
  match heap e !! lhs, heap e !! rhs with
  | Some l, Some r =>
      if lhs =? rhs then Throw "cannot wire to itself"
      else if negb (d_eq (frequency l) (frequency r)) then Throw "both sides of '<-' must have the same frequency"
      else if negb (isSource l) then Throw "left side of '<-' is already driven"
      else
        let '(base, index) :=
          match (if isDerived r then baseOf rhs e else None) with
          | Some b => (b, baseIndex r) | None => (rhs, 0) end in
        if base =? lhs then Throw "cannot wire to a delay of itself"
        else
          let wired := filter (fun d => at_zero_delay e d = true) (dependents_of lhs e) in
          let cyclic := if index =? 0
                        then zeroDelayUpstreamReaches base (list_to_set (lhs :: wired)) e
                        else Some false in
          match cyclic with
          | None => UB
          | Some true => Throw "would create a zero-delay cycle"
          | Some false =>
              let seeds := values r in
              let before := lastValue l in
              let e := deriveFrom lhs base index e in
              let! e :=
                if existsb (fun x => negb (isNil x.2)) seeds then
                  match last seeds, before, heap e !! lhs with
                  | Some (t, v), Ret b, Some l =>
                      publish (sample_fuel e) t v lhs (put lhs (set_values seeds l) e)
                  | _, Throw x, _ => Throw x
                  | _, _, _ => UB
                  end
                else Ret e in
              Ret (set_modified true e)
          end
  | _, _ => Throw "both sides of '<-' must be valid signals"
  end.

End Samples.


(** ** The network's cached form *)

Definition push_consumer (a : Z) (c : Z * Z) (l : list (Z * list (Z * Z))) : list (Z * list (Z * Z)) :=
  sset Z.le a (default [] (sfind a l) ++ [c]) l.

Definition periodOf (e : engine) (a : Z) : Z := match heap e !! a with Some s => period s | None => 0 end.

Definition consume (f : Z) (e : engine) (p : port) : engine :=
  let a := p_signal p in
  let e := set_consumers (push_consumer a (f, periodOf e a * - p_index p) (consumers e)) e in
  match heap e !! a with
  | Some s => put a (set_maxHistory (int_max (maxHistory s) (- p_index p + 1)) s) e
  | None => e
  end.

Definition buildSignalConsumers (e : engine) : engine :=
  fold_left (fun e x => fold_left (consume x.1) (n_inputs x.2) e) (func_nodes e) (set_consumers [] e).

(** ** Islands *)

(** What is queued on visiting a signal or a function. *)
Definition signal_neighbours_f (e : engine) (a : Z) : list Z :=
  map fst (default [] (sfind a (consumers e))) ++ producers a e.

Definition signal_neighbours_s (e : engine) (a : Z) : list Z :=
  match heap e !! a with
  | Some s => (if isDerived s then match baseOf a e with Some b => [b] | None => [] end else []) ++ dependents_of a e
  | None => []
  end.

Definition func_neighbours (e : engine) (f : Z) : list Z :=
  match nodes e !! f with Some n => map p_signal (n_inputs n) ++ n_outputs n | None => [] end.

Record seen := mkSeen { v_signals : gset Z; v_funcs : gset Z }.

(** One island: signals are taken before functions.  [enqueue] drops what is visited
    already, and so does taking from a queue. *)
Fixpoint processQueues (fuel : nat) (e : engine) (v : seen) (i : island) (sq fq : list Z) : option (seen * island) :=
  match fuel with
  | O => None
  | S fuel =>
      match unvisited (v_signals v) sq with
      | a :: sq =>
          let v := mkSeen ({[a]} ∪ v_signals v) (v_funcs v) in
          let i := mkIsland (i_signals i ++ [a]) (i_funcs i) (i_orders i) (i_tickPeriod i) (i_background i) in
          processQueues fuel e v i
            (sq ++ filter (fun x => x ∉ v_signals v) (signal_neighbours_s e a))
            (fq ++ filter (fun x => x ∉ v_funcs v) (signal_neighbours_f e a))
      | [] =>
          match unvisited (v_funcs v) fq with
          | f :: fq =>
              let v := mkSeen (v_signals v) ({[f]} ∪ v_funcs v) in
              let i := mkIsland (i_signals i) (i_funcs i ++ [f]) (i_orders i) (i_tickPeriod i) (i_background i) in
              processQueues fuel e v i (filter (fun x => x ∉ v_signals v) (func_neighbours e f)) fq
          | [] => Some (v, i)
          end
      end
  end.

Definition no_island : island := mkIsland [] [] [] 0 false.
Definition island_fuel (e : engine) : nat := S (size (heap e) + size (nodes e)).

Fixpoint islands_from (e : engine) (starts : list (Z + Z)) (v : seen) (acc : list island) : option (list island) :=
  match starts with
  | [] => Some acc
  | x :: starts =>
      let '(skip, sq, fq) :=
        match x with
        | inl a => (bool_decide (a ∈ v_signals v), [a], [])
        | inr f => (bool_decide (f ∈ v_funcs v), [], [f])
        end in
      if skip then islands_from e starts v acc
      else
        match processQueues (island_fuel e) e v no_island sq fq with
        | None => None
        | Some (v, i) => islands_from e starts v (acc ++ [i])
        end
  end.

Definition computeNetworkIslands (e : engine) : option (list island) :=
  islands_from e (map inl (signals e) ++ map inr (funcs e).*2) (mkSeen ∅ ∅) [].

(** ** Periods *)

(** [periods] is a [std::set]: ascending, so that [begin] is its least. *)
Definition longestDividingPeriod (periods : list Z) : Z :=
  match periods with [] => 0 | p :: _ => fold_left Z.gcd periods p end.

Definition insert_period (p : Z) (l : list Z) : list Z := (sset Z.le p tt (map (fun x => (x, tt)) l)).*1.

Definition input_periods (e : engine) (n : node) : list Z :=
  fold_left (fun l p => let d := periodOf e (p_signal p) in if 0 <? d then insert_period d l else l) (n_inputs n) [].

Definition precomputeFuncPeriods (e : engine) : engine :=
  fold_left (fun e (x : Z * node) =>
    set_nodes (<[x.1 := mkNode (n_name x.2) (n_inputs x.2) (n_outputs x.2) (longestDividingPeriod (input_periods e x.2))]> (nodes e)) e)
    (func_nodes e) e.

(** ** Execution order *)

(** DependencyGraph: functions by address, with the set of those they depend on. *)
Definition graph : Type := list (Z * list Z).

Definition insert_dep (x : Z) (l : list Z) : list Z := insert_period x l.

Definition dependencies (e : engine) (group : list Z) (f : Z) : option (list Z) :=
  match nodes e !! f with
  | None => Some []
  | Some n =>
      fold_left (fun r p =>
        match r, zeroDelaySource (S (size (heap e))) e (p_signal p) with
        | Some l, Some src =>
            Some (fold_left (fun l g =>
              if g =? f then l
              else match nodes e !! g with
                   | Some m => if has_output src m && (p_index p =? 0) then insert_dep g l else l
                   | None => l
                   end) group l)
        | _, _ => None
        end) (n_inputs n) (Some [])
  end.

Fixpoint dependency_graph (e : engine) (group fs : list Z) (g : graph) : option graph :=
  match fs with
  | [] => Some g
  | f :: fs => match dependencies e group f with Some l => dependency_graph e group fs (sset Z.le f l g) | None => None end
  end.

Record marks := mkMarks { tempMark : gset Z; permMark : gset Z; sortedFuncs : list Z }.

Definition no_marks : marks := mkMarks ∅ ∅ [].

(** A node after what it depends on.  The fuel bounds the depth of the recursion. *)
Fixpoint visit (fuel : nat) (g : graph) (f : Z) (m : marks) : outcome string (bool * marks) :=
  match fuel with
  | O => UB
  | S fuel =>
      if decide (f ∈ permMark m) then Ret (true, m)
      else if decide (f ∈ tempMark m) then Ret (false, m)
      else
        match sfind f g with
        | None => Throw "map::at"
        | Some deps =>
            let visits := fix visits ds m :=
              match ds with
              | [] => Ret (true, m)
              | d :: ds =>
                  let! (b, m) := visit fuel g d m in
                  if b : bool then visits ds m else Ret (false, m)
              end in
            let! (b, m) := visits deps (mkMarks ({[f]} ∪ tempMark m) (permMark m) (sortedFuncs m)) in
            if b : bool
            then Ret (true, mkMarks (tempMark m ∖ {[f]}) ({[f]} ∪ permMark m) (sortedFuncs m ++ [f]))
            else Ret (false, m)
        end
  end.

Fixpoint visit_all (g : graph) (fs : list Z) (m : marks) : outcome string (bool * marks) :=
  match fs with
  | [] => Ret (true, m)
  | f :: fs =>
      if decide (f ∈ permMark m) then visit_all g fs m
      else
        let! (b, m) := visit (S (length g)) g f m in
        if b : bool then visit_all g fs m else Ret (false, m)
  end.

Definition topologicalSort (g : graph) : outcome string (bool * list Z) :=
  let! (b, m) := visit_all g g.*1 no_marks in Ret (b, sortedFuncs m).

(** The functions of an island by their period. *)
Definition executionGroups (e : engine) (fs : list Z) : list (Z * list Z) :=
  fold_left (fun gs f =>
    let p := match nodes e !! f with Some n => n_period n | None => 0 end in
    sset Z.le p (default [] (sfind p gs) ++ [f]) gs) fs [].

Definition cyclic_error : string := "Cyclic dependency detected among functions in execution group.".

Fixpoint orders (e : engine) (groups : list (Z * list Z)) : outcome string (list (Z * list Z)) :=
  match groups with
  | [] => Ret []
  | (p, fs) :: groups =>
      match dependency_graph e fs fs [] with
      | None => UB
      | Some g =>
          let! (b, sorted) := topologicalSort g in
          if b : bool then let! r := orders e groups in Ret ((p, sorted) :: r) else Throw cyclic_error
      end
  end.

Definition precomputeExecutionOrders (e : engine) (i : island) : outcome string island :=
  let! o := orders e (executionGroups e (i_funcs i)) in
  Ret (mkIsland (i_signals i) (i_funcs i) o (i_tickPeriod i) (i_background i)).

Definition is_background (e : engine) (i : island) : bool :=
  existsb (fun a => match heap e !! a with Some s => background s | None => false end) (i_signals i).

Definition signal_periods (e : engine) (l : list Z) : list Z :=
  fold_left (fun l a => let d := periodOf e a in if d =? 0 then l else insert_period d l) l [].

Fixpoint finish_islands (e : engine) (isl : list island) (globals : list Z) : outcome string (list island * list Z) :=
  match isl with
  | [] => Ret ([], globals)
  | i :: isl =>
      let bg := is_background e i in
      let ps := signal_periods e (i_signals i) in
      let! i := precomputeExecutionOrders e (mkIsland (i_signals i) (i_funcs i) [] (longestDividingPeriod ps) bg) in
      let! (isl, globals) := finish_islands e isl (if bg then globals else fold_left (fun l p => insert_period p l) ps globals) in
      Ret (i :: isl, globals)
  end.

Definition buildNetworkCacheData (e : engine) : outcome string engine :=
  let e := buildSignalConsumers e in
  match computeNetworkIslands e with
  | None => UB
  | Some isl =>
      let e := precomputeFuncPeriods e in
      let! (isl, globals) := finish_islands e isl [] in
      Ret (set_network isl (longestDividingPeriod globals) e)
  end.

(** ** The tick *)

(** Background islands are serviced on their own schedule. *)
Definition inBackgroundIsland (e : engine) (a : Z) : bool :=
  existsb (fun i => i_background i && bool_decide (a ∈ i_signals i)) (islands e).

(** A periodic source whose time has come on the engine's grid. *)
Definition due (e : engine) (t a : Z) : bool :=
  match heap e !! a with
  | Some s => isSource s && negb (period s =? 0) && negb (inBackgroundIsland e a) && (Z.rem t (period s) =? 0)
  | None => false
  end.

Section Tick.
Context (veq : Z -> Z -> bool) (snapshot : Z -> Z).

Fixpoint tick_sources (t : Z) (l : list Z) (e : engine) : outcome string engine :=
  match l with
  | [] => Ret e
  | a :: l =>
      if due e t a then
        let! e := tick veq snapshot (sample_fuel e) t a e in
        tick_sources t l (updateSignalConsumerInputAvailability a t e)
      else tick_sources t l e
  end.

(** Delayed signals pull from their base's history at the start of a tick. *)
Definition pulled (e : engine) (time : Z) (s : signal) : option (outcome string Z) :=
  if isDerived s && negb (baseIndex s =? 0) then
    match (b ← baseSignal s; heap e !! b) with
    | None => None
    | Some src =>
        let read := if period src =? 0 then lastValue src else valueAtIndex (baseIndex s) (Some time) src in
        Some (match read with Throw _ => Ret nilVal | r => r end)
    end
  else None.

Fixpoint refreshDerivedSignals (time : Z) (l : list Z) (e : engine) : outcome string engine :=
  match l with
  | [] => Ret e
  | a :: l =>
      match (s ← heap e !! a; pulled e time s) with
      | None => refreshDerivedSignals time l e
      | Some r =>
          let! v := r in
          let! e := setValueAt veq snapshot (sample_fuel e) time v a e in
          refreshDerivedSignals time l (updateSignalConsumerInputAvailability a time e)
      end
  end.

End Tick.

Definition set_background (x : bool) (s : signal) : signal :=
  mkSignal (frequency s) (period s) (eventDriven s) (isSource s) (isClock s) (running s)
    (tickPending s) (clockCount s) x (isDerived s) (baseSignal s) (baseIndex s)
    (dependents s) (maxHistory s) (suppressInitial s) (values s).

Definition setSignalDomain (a : Z) (bg : bool) (e : engine) : engine :=
  match heap e !! a with
  | Some s => markNetworkModified (put a (set_background bg s) e)
  | None => e
  end.

(** No earlier than the oldest sample every signal of the island still has. *)
Definition resolveEvaluationTime (e : engine) (i : island) (candidate : Z) : Z :=
  fold_left (fun m a =>
    match heap e !! a with
    | Some s => match values s with (t, _) :: _ => Z.max m t | [] => m end
    | None => m
    end) (i_signals i) candidate.

(** A node may run when each input without a default has its sample. *)
Definition port_ready (e : engine) (time : Z) (p : port) : outcome string bool :=
  match heap e !! p_signal p with
  | None => UB
  | Some s =>
      let! latency := mul64 (period s) (- p_index p) in
      let! needed := sub64 time latency in
      let available := Z.min needed (latestSampleTime s) in
      let upToDate := available <=? p_available p in
      let hasValue := match valueAt available s with Ret v => negb (isNil v) | _ => false end in
      Ret ((upToDate && hasValue) || bool_decide (is_Some (p_default p)))
  end.

Fixpoint ports_ready (e : engine) (time : Z) (ps : list port) : outcome string bool :=
  match ps with
  | [] => Ret true
  | p :: ps => let! b := port_ready e time p in if b : bool then ports_ready e time ps else Ret false
  end.

Definition inputsAvailableAt (e : engine) (time f : Z) : outcome string bool :=
  match nodes e !! f with Some n => ports_ready e time (n_inputs n) | None => UB end.

End Dataflow.
