(* ===== verification/DataflowSort.v ===== *)
(** * DataflowSort: the depth-first topological sort of a dependency graph
      (DataflowEngine::topologicalSort)

    The sort is proved on any graph: it ends within its fuel, which is one more than
    the number of functions; it finds a cycle exactly when there is one; and otherwise
    its order is a schedule.  [DataflowProofs] applies it to the graphs the engine
    builds. *)

From S2P Require Import Prelude SortedMap Value Signals Dataflow.
From stdpp Require Import numbers pretty.

Module DataflowSort.

Import Signals Dataflow.
Local Open Scope Z_scope.

(** ** Topological sort *)

Section Sort.
Context (g : graph) (Hasc : ascending Z.le g).

Definition depends (f d : Z) : Prop := exists l, sfind f g = Some l /\ d ∈ l.
Definition closed_graph : Prop := forall f d, depends f d -> d ∈ g.*1.

(** Each function after everything it depends on. *)
Definition in_order (l : list Z) : Prop :=
  forall l1 f l2, l = l1 ++ f :: l2 -> forall d, depends f d -> d ∈ l1.

Record good (m : marks) : Prop := {
  gm_perm : forall x, x ∈ permMark m <-> x ∈ sortedFuncs m;
  gm_nodup : NoDup (sortedFuncs m);
  gm_order : in_order (sortedFuncs m);
  gm_disjoint : tempMark m ## permMark m;
  gm_temp : forall x, x ∈ tempMark m -> x ∈ g.*1;
  gm_keys : forall x, x ∈ permMark m -> x ∈ g.*1;
}.

Lemma in_order_snoc l f : in_order l -> (forall d, depends f d -> d ∈ l) -> in_order (l ++ [f]).
Proof.
  intros Hl Hf l1 x l2 E d Hd. destruct l2 as [|y l2 _] using rev_ind.
  - apply app_inj_tail in E as [-> ->]. by apply Hf.
  - rewrite app_comm_cons, app_assoc in E. apply app_inj_tail in E as [-> ->]. by apply (Hl l1 x l2 eq_refl d).
Qed.

Lemma temp_size m : good m -> (size (tempMark m) <= length g)%nat.
Proof.
  intros Hm. assert (tempMark m ⊆ list_to_set g.*1) as Hs by (intros x Hx; apply elem_of_list_to_set, (gm_temp _ Hm x Hx)).
  apply subseteq_size in Hs. rewrite size_list_to_set, length_fmap in Hs; [done|by apply (ascending_NoDup Z.le)].
Qed.

Definition visited_ok (f : Z) (m : marks) (b : bool) (m' : marks) : Prop :=
  if b then good m' /\ tempMark m' = tempMark m /\ permMark m ⊆ permMark m' /\ f ∈ permMark m'
  else exists c, tc depends c c.

Lemma visit_sound : closed_graph -> forall fuel f m,
  good m -> f ∈ g.*1 -> (forall t, t ∈ tempMark m -> tc depends t f) ->
  (length g < fuel + size (tempMark m))%nat ->
  exists b m', visit fuel g f m = Ret (b, m') /\ visited_ok f m b m'.
Proof.
  intros Hcl. induction fuel as [|fuel IH]; intros f m Hm Hf Ht Hfuel.
  { pose proof (temp_size m Hm). lia. }
  cbn. destruct (decide (f ∈ permMark m)) as [Hp|Hp]; [by exists true, m|].
  destruct (decide (f ∈ tempMark m)) as [Htf|Htf]; [exists false, m; split; [done|]; exists f; by apply Ht|].
  destruct (sfind f g) as [deps|] eqn:Ef; [|by apply (sfind_None Z.le) in Ef].
  set (visits := fix visits ds m := match ds with [] => _ | _ => _ end).
  assert (forall ds m1, good m1 -> tempMark m1 = {[f]} ∪ tempMark m -> permMark m ⊆ permMark m1 ->
    (forall d, d ∈ ds -> d ∈ deps) ->
    exists b m', visits ds m1 = Ret (b, m') /\
      if b : bool then good m' /\ tempMark m' = {[f]} ∪ tempMark m /\ permMark m1 ⊆ permMark m' /\ (forall d, d ∈ ds -> d ∈ permMark m')
      else exists c, tc depends c c) as Hvs.
  { induction ds as [|d ds IHd]; intros m1 Hm1 Ht1 Hp1 Hds.
    { exists true, m1. split; [done|]. split_and!; try done. by intros d ?%elem_of_nil. }
    assert (depends f d) as Hd by (exists deps; split; [done|apply Hds; by left]).
    destruct (IH d m1 Hm1) as (b & m2 & E2 & Hb).
    - by apply (Hcl f).
    - intros t. rewrite Ht1. intros [->%elem_of_singleton|Htt]%elem_of_union; [by apply tc_once|].
      eapply tc_r; [by apply Ht|done].
    - rewrite Ht1, size_union, size_singleton by set_solver. lia.
    - cbn. rewrite E2. cbn. destruct b; [|by exists false, m2].
      destruct Hb as (Hg2 & Et2 & Hsub & Hdp).
      destruct (IHd m2 Hg2) as (b & m3 & E3 & Hb3); [congruence|set_solver|set_solver|].
      exists b, m3. split; [done|]. destruct b; [|done]. destruct Hb3 as (Hg3 & Et3 & Hsub3 & Hall).
      split_and!; try done; [set_solver|]. intros d' [->|Hd']%elem_of_cons; [set_solver|by apply Hall]. }
  destruct (Hvs deps (mkMarks ({[f]} ∪ tempMark m) (permMark m) (sortedFuncs m))) as (b & m' & E & Hb);
    [|done|done|done|].
  { destruct Hm. split; cbn; try done; set_solver. }
  rewrite E. cbn. destruct b; [|by exists false, m'].
  destruct Hb as ([Hpm Hnd Hor Hdj Htk Hpk] & Et & Hsub & Hall). cbn in Hsub.
  exists true. eexists. split; [done|]. unfold visited_ok. cbn.
  assert (f ∉ permMark m') as Hfp by (rewrite Et in Hdj; set_solver).
  split_and!; [split; cbn| |set_solver|set_solver].
  - intros x. rewrite elem_of_app, list_elem_of_singleton, elem_of_union, elem_of_singleton, Hpm. tauto.
  - apply NoDup_app. split; [done|]. split; [|by apply NoDup_singleton].
    intros x Hx ->%list_elem_of_singleton. by apply Hfp, Hpm.
  - apply in_order_snoc; [done|]. intros d (l & El & Hd). rewrite Ef in El. injection El as <-. by apply Hpm, Hall.
  - rewrite Et in *. set_solver.
  - rewrite Et in *. set_solver.
  - set_solver.
  - rewrite Et. apply leibniz_equiv. set_solver.
Qed.

Lemma visit_all_ok : closed_graph -> forall fs m,
  good m -> tempMark m = ∅ -> (forall f, f ∈ fs -> f ∈ g.*1) ->
  exists b m', visit_all g fs m = Ret (b, m') /\
    if b : bool then good m' /\ permMark m ⊆ permMark m' /\ (forall f, f ∈ fs -> f ∈ permMark m')
    else exists c, tc depends c c.
Proof.
  intros Hcl. induction fs as [|f fs IH]; intros m Hm Ht Hfs.
  { exists true, m. split; [done|]. split_and!; [done|done|]. by intros f ?%elem_of_nil. }
  cbn -[visit]. destruct (decide (f ∈ permMark m)) as [Hp|Hp].
  - destruct (IH m Hm Ht) as (b & m' & E & Hb); [set_solver|]. exists b, m'. split; [done|].
    destruct b; [|done]. destruct Hb as (H1 & H2 & H3). split_and!; try done.
    intros x [->|Hx]%elem_of_cons; [by apply H2|by apply H3].
  - destruct (visit_sound Hcl (S (length g)) f m Hm) as (b & m1 & E1 & Hb1); [set_solver|rewrite Ht; set_solver|lia|].
    rewrite E1. cbn [obind]. destruct b; [|by exists false, m1].
    destruct Hb1 as (Hm1 & Et1 & Hs1 & Hf1).
    destruct (IH m1 Hm1) as (b & m' & E & Hb); [congruence|set_solver|]. exists b, m'. split; [done|].
    destruct b; [|done]. destruct Hb as (H1 & H2 & H3). split_and!; [done|set_solver|].
    intros x [->|Hx]%elem_of_cons; [by apply H2|by apply H3].
Qed.

Lemma in_order_before l : in_order l -> forall f d, tc depends f d -> forall l1 l2, l = l1 ++ f :: l2 -> d ∈ l1.
Proof.
  intros Hl f d Hfd. induction Hfd as [f d Hd|f x d Hx _ IH]; intros l1 l2 E.
  - by apply (Hl l1 f l2 E).
  - pose proof (Hl l1 f l2 E x Hx) as Hin. apply list_elem_of_split in Hin as (a & b & ->).
    apply elem_of_app. left. apply (IH a (b ++ f :: l2)). by rewrite E, <- app_assoc.
Qed.

Lemma in_order_acyclic l : in_order l -> NoDup l -> (forall f d, depends f d -> f ∈ l) -> forall c, ~ tc depends c c.
Proof.
  intros Hl Hnd Hall c Hc. assert (c ∈ l) as Hin by (inversion Hc; by eapply Hall).
  apply list_elem_of_split in Hin as (l1 & l2 & E).
  pose proof (in_order_before l Hl c c Hc l1 l2 E) as H. rewrite E in Hnd.
  apply NoDup_app in Hnd as (_ & Hd & _). apply (Hd c H). by left.
Qed.

Lemma good_start : good no_marks.
Proof. split; cbn; try done; try set_solver; [by apply NoDup_nil|]. intros [|? ?] f l2 E; done. Qed.

Lemma depends_key f d : depends f d -> f ∈ g.*1.
Proof.
  intros (l & E & _). destruct (decide (f ∈ g.*1)) as [H|H]; [done|]. apply (sfind_None Z.le) in H. congruence.
Qed.

Lemma sort_spec : closed_graph ->
  exists b l, topologicalSort g = Ret (b, l) /\ (b = true <-> forall c, ~ tc depends c c) /\
    (b = true -> l ≡ₚ g.*1 /\ in_order l).
Proof.
  intros Hcl. destruct (visit_all_ok Hcl g.*1 no_marks good_start eq_refl) as (b & m & E & Hb); [done|].
  exists b, (sortedFuncs m). unfold topologicalSort. rewrite E. split; [done|]. destruct b.
  - destruct Hb as (Hg & _ & Hall).
    assert (sortedFuncs m ≡ₚ g.*1) as HP.
    { apply NoDup_Permutation; [apply (gm_nodup _ Hg)|by apply (ascending_NoDup Z.le)|].
      intros x. rewrite <- (gm_perm _ Hg). split; [apply (gm_keys _ Hg)|apply Hall]. }
    split; [|by split; [|apply (gm_order _ Hg)]]. split; [intros _|done].
    apply (in_order_acyclic (sortedFuncs m)); [apply (gm_order _ Hg)|apply (gm_nodup _ Hg)|].
    intros f d Hd. rewrite HP. by eapply depends_key.
  - split; [|done]. split; [done|]. intros Hac. destruct Hb as [c Hc]. by destruct (Hac c).
Qed.
End Sort.

(** The execution order is exact: on any dependency graph the sort ends, without a
    missing key; it succeeds exactly when no function depends on itself, however
    indirectly; and then every function is scheduled once, after everything it depends
    on. *)
Theorem topological_sort_exact g :
  ascending Z.le g -> closed_graph g ->
  exists b l, topologicalSort g = Ret (b, l) /\ (b = true <-> forall c, ~ tc (depends g) c c) /\
    (b = true -> l ≡ₚ g.*1 /\ in_order g l).
Proof. intros Ha Hc. by apply sort_spec. Qed.

Definition diamond : graph := [(1, [2; 3]); (2, [4]); (3, [4]); (4, [])].

Lemma topological_sort_exact_witness :
  topologicalSort diamond = Ret (true, [4; 2; 3; 1]) /\ [4; 2; 3; 1] ≡ₚ diamond.*1 /\ in_order diamond [4; 2; 3; 1].
Proof.
  destruct (topological_sort_exact diamond) as (b & l & E & _ & Ho).
  - repeat constructor; cbn; lia.
  - intros f d (l & El & Hd). cbn in El |- *. repeat case_decide; simplify_eq; set_solver.
  - assert (topologicalSort diamond = Ret (true, [4; 2; 3; 1])) as E1 by (vm_compute; reflexivity).
    rewrite E1 in E. injection E as <- <-. split; [done|]. by apply Ho.
Defined.

End DataflowSort.
