(* ===== verification/DataflowWires.v ===== *)
(** * DataflowWires: what feeds what within a tick, and that no step closes a loop

    [zedge] relates a signal to those it feeds at zero delay, through a wire or a
    function.  [thinner] is the relation between an engine and one with the same objects
    and no new edge: removal, pruning, sampling, ticking and rebuilding are all of that
    kind.  The steps that do add edges are the lift (into fresh signals) and the wire
    (after the search upstream, proved exact here).  [step] collects all of them; every
    reachable engine is well formed and acyclic. *)

From S2P Require Import Prelude SortedMap Value Signals Dataflow.
From stdpp Require Import numbers pretty.

Module DataflowWires.

Import Signals Dataflow.
Local Open Scope Z_scope.

(** ** What feeds what within a tick *)

Definition zedge (e : engine) (a b : Z) : Prop := a ∈ zero_delay_sources e b.
Definition acyclic (e : engine) : Prop := forall a, ~ tc (zedge e) a a.

Definition registered (e : engine) (f : Z) (n : node) : Prop := f ∈ (funcs e).*2 /\ nodes e !! f = Some n.

(** [b] carries [a]'s samples as they are written. *)
Definition wired (e : engine) (a b : Z) : Prop :=
  exists s, heap e !! b = Some s /\ zeroDelayDerived s = true /\ baseSignal s = Some a /\ is_Some (heap e !! a).

Definition computed (e : engine) (a b : Z) : Prop :=
  exists f n p, registered e f n /\ b ∈ n_outputs n /\ p ∈ n_inputs n /\ p_index p = 0 /\ p_signal p = a.

Lemma elem_func_nodes e f n : (f, n) ∈ func_nodes e <-> registered e f n.
Proof.
  unfold func_nodes, registered. rewrite list_elem_of_omap. split.
  - intros ([x g] & Hx & E). cbn in E. destruct (nodes e !! g) as [m|] eqn:Eg; [|done]. cbn in E.
    injection E as <- <-. split; [|done]. by apply (list_elem_of_fmap_2 snd (funcs e) (x, g)).
  - intros [Hf Hn]. apply list_elem_of_fmap in Hf as ([x g] & -> & Hx). exists (x, g). split; [done|].
    cbn in *. by rewrite Hn.
Qed.

Lemma live_spec e a : live e a = true <-> is_Some (heap e !! a).
Proof. unfold live. apply bool_decide_eq_true. Qed.

Lemma baseOf_spec e a b : baseOf a e = Some b <->
  exists s, heap e !! a = Some s /\ baseSignal s = Some b /\ is_Some (heap e !! b).
Proof.
  unfold baseOf. destruct (heap e !! a) as [s|]; cbn; [|naive_solver].
  destruct (baseSignal s) as [c|] eqn:Eb; cbn; [|naive_solver]. destruct (live e c) eqn:El.
  - apply live_spec in El. naive_solver.
  - assert (~ is_Some (heap e !! c)) by (rewrite <- live_spec; by rewrite El). naive_solver.
Qed.

Lemma zedge_iff e a b : zedge e a b <-> wired e a b \/ computed e a b.
Proof.
  unfold zedge, zero_delay_sources. rewrite elem_of_app. f_equiv.
  - unfold wired. destruct (heap e !! b) as [s|] eqn:Eb.
    2:{ split; [by intros ?%elem_of_nil|by intros (s0 & ? & _)]. }
    destruct (zeroDelayDerived s) eqn:Ez.
    2:{ split; [by intros ?%elem_of_nil|]. intros (s0 & [= <-] & ? & _). congruence. }
    destruct (baseOf b e) as [c|] eqn:Ec.
    + rewrite list_elem_of_singleton. apply baseOf_spec in Ec as (s' & E & Hb & Hl). assert (s' = s) as -> by congruence.
      split; [intros ->; by exists s|]. intros (s0 & [= <-] & _ & Hb0 & _). congruence.
    + split; [by intros ?%elem_of_nil|]. intros (s' & E & _ & Hb & Hl). assert (baseOf b e = Some a) as H; [|congruence].
      apply baseOf_spec. exists s'. split_and!; congruence || done.
  - unfold computed. rewrite list_elem_of_join. split.
    + intros (l & Ha & Hl). apply list_elem_of_fmap in Hl as ([f n] & -> & Hn). cbn in Ha.
      destruct (has_output b n) eqn:Eo; [|set_solver]. apply bool_decide_eq_true in Eo.
      apply list_elem_of_fmap in Ha as (p & -> & [Hi Hp]%list_elem_of_filter).
      exists f, n, p. by rewrite <- elem_func_nodes.
    + intros (f & n & p & Hr & Hb & Hp & Hi & <-). eexists. split.
      2:{ apply list_elem_of_fmap. exists (f, n). split; [reflexivity|by apply elem_func_nodes]. }
      cbn. unfold has_output. rewrite bool_decide_eq_true_2 by done.
      apply list_elem_of_fmap. exists p. split; [done|]. by apply list_elem_of_filter.
Qed.

(** Every object a registered thing refers to is there. *)
Record wf (e : engine) : Prop := {
  wf_signals : forall a, a ∈ signals e -> is_Some (heap e !! a);
  wf_funcs : forall f, f ∈ (funcs e).*2 -> is_Some (nodes e !! f);
  wf_inputs : forall f n p, registered e f n -> p ∈ n_inputs n -> is_Some (heap e !! p_signal p);
  wf_outputs : forall f n a, registered e f n -> a ∈ n_outputs n -> is_Some (heap e !! a);
}.

(** ** Steps that add no edge *)

(** What a signal is derived from does not change, it forgets dependents at most, and it
    keeps a sample. *)
Record calmer (s s' : signal) : Prop := {
  ca_derived : isDerived s' = isDerived s;
  ca_source : isSource s' = isSource s;
  ca_base : baseSignal s' = baseSignal s /\ baseIndex s' = baseIndex s;
  ca_dependents : dependents s' ⊆ dependents s;
  ca_values : values s <> [] -> values s' <> [];
}.

#[global] Instance calmer_refl : Reflexive calmer.
Proof. by intros s. Qed.
#[global] Instance calmer_trans : Transitive calmer.
Proof. intros s1 s2 s3 [D1 S1 [B1 I1] L1 V1] [D2 S2 [B2 I2] L2 V2]. split; try (split; congruence); [congruence..|by etrans|auto]. Qed.

Lemma calmer_zero_delay s s' : calmer s s' -> zeroDelayDerived s' = zeroDelayDerived s.
Proof. intros [D _ [_ I] _ _]. unfold zeroDelayDerived. by rewrite D, I. Qed.

(** Two nodes with the same ports, or fewer. *)
Record fewer_ports (n n' : node) : Prop := {
  fp_outputs : n_outputs n' ⊆ n_outputs n;
  fp_inputs : forall p', p' ∈ n_inputs n' -> exists p, p ∈ n_inputs n /\ p_signal p = p_signal p' /\ p_index p = p_index p';
  fp_distinct : NoDup (n_outputs n) -> NoDup (n_outputs n');
}.

#[global] Instance fewer_refl : Reflexive fewer_ports.
Proof. intros n. split; [done| |done]. intros p Hp. by exists p. Qed.
#[global] Instance fewer_trans : Transitive fewer_ports.
Proof.
  intros n1 n2 n3 [O1 I1 D1] [O2 I2 D2]. split; [by etrans| |auto]. intros p Hp. destruct (I2 p Hp) as (p2 & Hp2 & Es & Ei).
  destruct (I1 p2 Hp2) as (p1 & Hp1 & Es1 & Ei1). exists p1. split_and!; congruence.
Qed.

Record thinner (e e' : engine) : Prop := {
  th_live : forall a, is_Some (heap e' !! a) <-> is_Some (heap e !! a);
  th_signal : forall a s', heap e' !! a = Some s' -> exists s, heap e !! a = Some s /\ calmer s s';
  th_signals : signals e' ⊆ signals e;
  th_nodes : forall f, is_Some (nodes e' !! f) <-> is_Some (nodes e !! f);
  th_funcs : (funcs e').*2 ⊆ (funcs e).*2;
  th_ports : forall f n', nodes e' !! f = Some n' -> exists n, nodes e !! f = Some n /\ fewer_ports n n';
}.

#[global] Instance thinner_refl : Reflexive thinner.
Proof.
  intros e. split; try done.
  - intros a s Ha. by exists s.
  - intros f n Hn. by exists n.
Qed.

#[global] Instance thinner_trans : Transitive thinner.
Proof.
  intros e1 e2 e3 [L1 W1 S1 N1 F1 P1] [L2 W2 S2 N2 F2 P2]. split.
  - intros a. by rewrite L2.
  - intros a s Ha. destruct (W2 a s Ha) as (s2 & H2 & C2).
    destruct (W1 a s2 H2) as (s1 & H1 & C1). exists s1. split; [done|by etrans].
  - by etrans.
  - intros f. by rewrite N2.
  - by etrans.
  - intros f n Hn. destruct (P2 f n Hn) as (n2 & E2 & F3). destruct (P1 f n2 E2) as (n1 & E1 & F4).
    exists n1. split; [done|by etrans].
Qed.

Lemma thinner_registered e e' f n' : thinner e e' -> registered e' f n' -> exists n, registered e f n /\ fewer_ports n n'.
Proof.
  intros Ht [Hf Hn]. destruct (th_ports _ _ Ht f n' Hn) as (n & E & Hf'). exists n. split; [|done].
  split; [by apply (th_funcs _ _ Ht)|done].
Qed.

Lemma thinner_zedge e e' a b : thinner e e' -> zedge e' a b -> zedge e a b.
Proof.
  intros Ht. rewrite !zedge_iff. intros [(s' & Hb & Hz & Eb & Hl)|(f & n' & p' & Hr & Ho & Hp & Hi & Hs)].
  - left. destruct (th_signal _ _ Ht b s' Hb) as (s & E & C). exists s. rewrite (calmer_zero_delay _ _ C) in Hz.
    destruct C as [_ _ [B _] _ _]. split_and!; try congruence. by apply (th_live _ _ Ht).
  - right. destruct (thinner_registered e e' f n' Ht Hr) as (n & Hn & [Hout Hin _]).
    destruct (Hin p' Hp) as (p & Hp0 & Es & Ei). exists f, n, p. split_and!; try done; try congruence. by apply Hout.
Qed.

Lemma tc_mono {A} (R S : relation A) x y : (forall a b, R a b -> S a b) -> tc R x y -> tc S x y.
Proof. intros H. induction 1; [by apply tc_once, H|eapply tc_l; [by apply H|done]]. Qed.

Lemma thinner_acyclic e e' : thinner e e' -> acyclic e -> acyclic e'.
Proof. intros Ht Ha a Hc. apply (Ha a). by eapply tc_mono; [intros x y; by apply thinner_zedge|]. Qed.

Lemma thinner_wf e e' : thinner e e' -> wf e -> wf e'.
Proof.
  intros Ht [Ws Wf Wi Wo]. split.
  - intros a Ha. apply (th_live _ _ Ht), Ws. by apply (th_signals _ _ Ht).
  - intros f Hf. apply (th_nodes _ _ Ht), Wf. by apply (th_funcs _ _ Ht).
  - intros f n p Hr Hp. destruct (thinner_registered e e' f n Ht Hr) as (n0 & Hn & [_ Hin _]).
    destruct (Hin p Hp) as (p0 & Hp0 & Es & _). rewrite <- Es. apply (th_live _ _ Ht). by apply (Wi f n0 p0).
  - intros f n a Hr Ha. destruct (thinner_registered e e' f n Ht Hr) as (n0 & Hn & [Hout _ _]).
    apply (th_live _ _ Ht). apply (Wo f n0 a Hn). by apply Hout.
Qed.

Lemma thinner_same e e' :
  heap e' = heap e -> nodes e' = nodes e -> signals e' ⊆ signals e -> (funcs e').*2 ⊆ (funcs e).*2 -> thinner e e'.
Proof.
  intros Eh En Es Ef. split; rewrite ?Eh, ?En; try done.
  - intros a s Ha. by exists s.
  - intros f n Hn. by exists n.
Qed.

Lemma thinner_put e a s s' : heap e !! a = Some s -> calmer s s' -> thinner e (put a s' e).
Proof.
  intros Ha Hs. split; cbn; try done.
  - intros b. destruct (decide (a = b)) as [<-|Hne]; [rewrite lookup_insert_eq, Ha; by split; eexists|by rewrite lookup_insert_ne].
  - intros b sb. intros [[<- <-]|[Hne Hb]]%lookup_insert_Some; [by exists s|by exists sb].
  - intros f n Hn. by exists n.
Qed.

Lemma thinner_nodes e (m : gmap Z node) :
  (forall f, is_Some (m !! f) <-> is_Some (nodes e !! f)) ->
  (forall f n', m !! f = Some n' -> exists n, nodes e !! f = Some n /\ fewer_ports n n') ->
  thinner e (set_nodes m e).
Proof. intros Hd Hm. split; cbn; try done. intros a s Ha. by exists s. Qed.

Lemma thinner_imap e (h : Z -> node -> node) :
  (forall f n, nodes e !! f = Some n -> fewer_ports n (h f n)) -> thinner e (set_nodes (map_imap (fun f n => Some (h f n)) (nodes e)) e).
Proof.
  intros Hh. apply thinner_nodes.
  - intros f. rewrite map_lookup_imap. destruct (nodes e !! f); cbn; split; intros [? ?]; try done; by eexists.
  - intros f n'. rewrite map_lookup_imap. destruct (nodes e !! f) as [n|] eqn:En; [|done]. cbn. intros [= <-].
    exists n. split; [done|by apply Hh].
Qed.

Lemma thinner_removeDependent b d e : thinner e (removeDependent b d e).
Proof.
  unfold removeDependent. destruct (heap e !! b) as [s|] eqn:E; [|done]. apply (thinner_put e b s); [done|].
  split; cbn; try done. by intros x [_ ?]%list_elem_of_filter.
Qed.

Lemma thinner_strip a e : thinner e (strip a e).
Proof.
  apply (thinner_imap e (fun f n => if decide (f ∈ (funcs e).*2) then strip_node a n else n)).
  intros f n _. case_decide; [|done]. unfold strip_node. split; cbn.
  - by intros o [_ Ho]%list_elem_of_filter.
  - intros p [_ Hp]%list_elem_of_filter. by exists p.
  - apply NoDup_filter.
Qed.

Lemma thinner_availability a t e : thinner e (updateSignalConsumerInputAvailability a t e).
Proof.
  unfold updateSignalConsumerInputAvailability.
  apply (thinner_imap e (fun f n => if decide (f ∈ map fst (default [] (sfind a (consumers e)))) then _ else n)).
  intros f n _. case_decide; [|done]. split; cbn; [done| |done].
  intros p' (p & -> & Hp)%list_elem_of_fmap. exists p. split; [done|]. by destruct (p_signal p =? a).
Qed.

Lemma thinner_erase_func f n e : thinner e (erase_func f n e).
Proof.
  unfold erase_func. destruct (sfind (n_name n) (funcs e)); apply thinner_same; cbn; try done; intros x Hx;
    apply list_elem_of_fmap in Hx as (y & -> & [_ Hy]%list_elem_of_filter); by apply list_elem_of_fmap_2.
Qed.

Lemma thinner_each {A} (rm : A -> engine -> option engine) l e e' :
  (forall x e e', rm x e = Some e' -> thinner e e') -> removeEach rm l e = Some e' -> thinner e e'.
Proof.
  intros Hrm. revert e. induction l as [|x l IH]; intros e; cbn; [by intros [= <-]|].
  destruct (rm x e) as [e1|] eqn:E; [|done]. intros H. etrans; [by eapply Hrm|by apply IH].
Qed.

Lemma thinner_removal fuel :
  (forall a force e e', removeSignal fuel a force e = Some e' -> thinner e e') /\
  (forall f e e', removeFunc fuel f e = Some e' -> thinner e e').
Proof.
  induction fuel as [|fuel [IHs IHf]]; [by split|]. split.
  - intros a force e e'. cbn [removeSignal].
    destruct (used a e && negb force); [by intros [= <-]|]. case_bool_decide; [by intros [= <-]|].
    destruct (force && bool_decide (producers a e <> [])).
    { destruct (existsb _ _); [by intros [= <-]|]. by apply thinner_each. }
    case_bool_decide; [|by intros [= <-]].
    set (e1 := set_consumers _ _).
    assert (thinner e e1) as H1 by (apply thinner_same; cbn; try done; intros x [_ Hx]%list_elem_of_filter; done).
    intros Hr. etrans; [exact H1|]. clearbody e1. clear H1.
    destruct (match heap e1 !! a with Some s => _ | None => _ end) as [e2|] eqn:E2; [|done].
    assert (thinner e1 e2) as H2.
    { destruct (heap e1 !! a) as [s|]; [|by injection E2 as <-]. destruct (baseOf a e1) as [b|]; [|by injection E2 as <-].
      destruct (isDerived s); [|by injection E2 as <-].
      etrans; [apply (thinner_removeDependent b a)|]. destruct (_ && _); [by eapply IHs|by injection E2 as <-]. }
    etrans; [exact H2|]. etrans; [apply (thinner_strip a)|].
    destruct (removeEach _ _ _) as [e3|] eqn:E3; [|done]. injection Hr as <-.
    etrans; [by apply (thinner_each _ _ _ _ IHf E3)|by apply thinner_same].
  - intros f e e'. cbn [removeFunc]. destruct (nodes e !! f) as [n|]; [|by intros [= <-]].
    set (e1 := forget_consumer f (erase_func f n e)).
    assert (thinner e e1) as H1 by (etrans; [apply (thinner_erase_func f n)|by apply thinner_same]).
    destruct (removeEach _ (map p_signal _) _) as [e2|] eqn:E2; [|done].
    destruct (removeEach _ (n_outputs n) _) as [e3|] eqn:E3; [|done]. intros [= <-].
    assert (forall a x y, (fun a e => removeSignal fuel a (orphaned a e) e) a x = Some y -> thinner x y) as Hrel
      by (intros a x y; apply IHs).
    etrans; [exact H1|]. etrans; [by apply (thinner_each _ _ _ _ Hrel E2)|].
    etrans; [by apply (thinner_each _ _ _ _ Hrel E3)|by apply thinner_same].
Qed.
Lemma thinner_fold_out {A} (h : engine -> A -> outcome string engine) l r e' :
  (forall e x e', h e x = Ret e' -> thinner e e') ->
  fold_left (fun r x => let! e := r in h e x) l r = Ret e' -> exists e, r = Ret e /\ thinner e e'.
Proof.
  intros Hh. revert r. induction l as [|x l IH]; intros r; cbn [fold_left]; [intros ->; by exists e'|].
  intros (e1 & E1 & H1)%IH. destruct r as [e0| |]; cbn in E1; [|done|done].
  exists e0. split; [done|]. etrans; [by eapply Hh|done].
Qed.

Lemma sset_nonempty t v (m : list (Z * Z)) : sset Z.le t v m <> [].
Proof. destruct m as [|[j b] m]; cbn; [done|]. by repeat case_decide. Qed.

Lemma store_view veq t v s s' b : store veq t v s = Ret (s', b) ->
  calmer s s'.
Proof.
  unfold store. destruct (last (values s)) as [[newest w]|]; [|done].
  destruct (lastValueBefore t s) as [before| |]; cbn; [|done|done]. intros H.
  set (m := sset Z.le t v _) in H. assert (m <> []) as Hm by (apply sset_nonempty).
  destruct (veq before v); [by injection H as <- _|]. destruct (suppressInitial s); by injection H as <- _.
Qed.

Lemma thinner_samples veq snap fuel :
  (forall t v a e e', setValueAt veq snap fuel t v a e = Ret e' -> thinner e e') /\
  (forall t v a e e', publish veq snap fuel t v a e = Ret e' -> thinner e e').
Proof.
  induction fuel as [|fuel [IHs IHp]]; [by split|]. split.
  - intros t v a e e'. cbn [setValueAt]. destruct (heap e !! a) as [s|] eqn:Ea; [|done].
    destruct (store veq t (snap v) s) as [[s' b]| |] eqn:Es; cbn [obind]; [|done|done].
    intros H. etrans; [|by eapply IHp]. apply (thinner_put e a s); [done|].
    by eapply store_view.
  - intros t v a e e'. cbn [publish]. destruct (heap e !! a) as [s|] eqn:Ea; [|done].
    destruct (fold_left _ _ _) as [e1| |] eqn:E1; cbn [obind]; [|done|done].
    apply (thinner_fold_out (fun e d => match heap e !! d with Some sd => if baseIndex sd =? 0 then let! e := setValueAt veq snap fuel t v d e in Ret (if eventDriven s then e else updateSignalConsumerInputAvailability d t e) else Ret e | None => Ret e end)) in E1 as (e0 & [= <-] & H01).
    2:{ intros e2 d e3. destruct (heap e2 !! d) as [sd|]; [|by intros [= <-]].
        destruct (baseIndex sd =? 0); [|by intros [= <-]].
        destruct (setValueAt veq snap fuel t v d e2) as [e4| |] eqn:E4; cbn [obind]; [|done|done]. intros [= <-].
        etrans; [by eapply IHs|]. destruct (eventDriven s); [done|apply thinner_availability]. }
    intros H. etrans; [exact H01|].
    destruct (eventDriven s); [|by injection H as <-].
    injection H as <-. etrans; [apply (thinner_availability a t)|]. by destruct (_ && _); [apply thinner_same|].
Qed.

Lemma thinner_fold {A} (h : engine -> A -> engine) l e : (forall e x, thinner e (h e x)) -> thinner e (fold_left h l e).
Proof. intros Hh. revert e. induction l as [|x l IH]; intros e; cbn; [done|]. etrans; [apply Hh|apply IH]. Qed.

Lemma thinner_consumers e : thinner e (buildSignalConsumers e).
Proof.
  unfold buildSignalConsumers. etrans; [by apply (thinner_same e (set_consumers [] e))|].
  apply thinner_fold. intros e1 x. apply thinner_fold. intros e2 p. unfold consume.
  set (e3 := set_consumers _ e2). assert (thinner e2 e3) as H3 by (by apply thinner_same).
  destruct (heap e3 !! p_signal p) as [s|] eqn:Es; [|done]. etrans; [exact H3|]. by apply (thinner_put e3 _ s).
Qed.

Lemma thinner_setValueAt veq snap fuel t v a e e' : setValueAt veq snap fuel t v a e = Ret e' -> thinner e e'.
Proof. apply (proj1 (thinner_samples veq snap fuel)). Qed.

Lemma thinner_publish veq snap fuel t v a e e' : publish veq snap fuel t v a e = Ret e' -> thinner e e'.
Proof. apply (proj2 (thinner_samples veq snap fuel)). Qed.

Lemma thinner_nodes_insert e f n n' :
  nodes e !! f = Some n -> fewer_ports n n' -> thinner e (set_nodes (<[f := n']> (nodes e)) e).
Proof.
  intros Hn Hf. apply thinner_nodes.
  - intros g. destruct (decide (f = g)) as [<-|Hne]; [rewrite lookup_insert_eq, Hn; by split; eexists|by rewrite lookup_insert_ne].
  - intros g m. intros [[<- <-]|[Hne Hg]]%lookup_insert_Some; [by exists n|by exists m].
Qed.

Lemma clock_tick_view s s' v : clock_tick s = Ret (s', v) -> calmer s s'.
Proof.
  unfold clock_tick. destruct (running s || tickPending s); [by intros [= <- _]|].
  destruct (lastValue s); cbn; by intros [= <- _].
Qed.

Lemma thinner_tick veq snap fuel t a e e' : tick veq snap fuel t a e = Ret e' -> thinner e e'.
Proof.
  unfold tick. destruct (heap e !! a) as [s|] eqn:Ea; [|done]. destruct (isClock s); [|by intros [= <-]].
  destruct (clock_tick s) as [[s' v]| |] eqn:Ec; cbn [obind]; [|done|done].
  intros H. etrans; [|eapply thinner_setValueAt, H]. apply (thinner_put e a s); [done|].
  by eapply clock_tick_view.
Qed.

Lemma thinner_set veq snap fuel now start v a e e' : set veq snap fuel now start v a e = Ret e' -> thinner e e'.
Proof.
  unfold set. destruct (heap e !! a) as [s|]; [|done]. destruct (eventDriven s); [apply thinner_setValueAt|].
  destruct (setValueAt _ _ _ _ _ _ _) as [e1| |] eqn:E; cbn [obind]; [|done|done]. intros [= <-].
  etrans; [eapply thinner_setValueAt, E|]. apply thinner_availability.
Qed.

Lemma thinner_tick_sources veq snap t l e e' : tick_sources veq snap t l e = Ret e' -> thinner e e'.
Proof.
  revert e. induction l as [|a l IH]; intros e; cbn -[tick]; [by intros [= <-]|].
  destruct (due e t a); [|by apply IH].
  destruct (tick _ _ _ _ _ _) as [e1| |] eqn:E; cbn [obind]; [|done|done]. intros H%IH.
  etrans; [eapply thinner_tick, E|]. etrans; [apply (thinner_availability a t)|done].
Qed.

Lemma thinner_refresh veq snap t l e e' : refreshDerivedSignals veq snap t l e = Ret e' -> thinner e e'.
Proof.
  revert e. induction l as [|a l IH]; intros e; cbn -[setValueAt]; [by intros [= <-]|].
  destruct (s ← heap e !! a; pulled e t s) as [[v| |]|]; cbn [obind]; [|done|done|by apply IH].
  destruct (setValueAt _ _ _ _ _ _ _) as [e1| |] eqn:E; cbn [obind]; [|done|done]. intros H%IH.
  etrans; [eapply thinner_setValueAt, E|]. etrans; [apply (thinner_availability a t)|done].
Qed.

Lemma thinner_domain a bg e : thinner e (setSignalDomain a bg e).
Proof.
  unfold setSignalDomain. destruct (heap e !! a) as [s|] eqn:Ea; [|done].
  etrans; [apply (thinner_put e a s (set_background bg s)); done|by apply thinner_same].
Qed.

Lemma thinner_drop a e e' : drop_wrapper a e = Some e' -> thinner e e'.
Proof.
  unfold drop_wrapper. destruct (unregisterSignalWrapper a e) as [e1 r] eqn:E.
  assert (thinner e e1) as H1.
  { unfold unregisterSignalWrapper in E. destruct (wrappers e !! a) as [n|]; [|by injection E as <- _].
    destruct (_ =? 0); injection E as <- _; by apply thinner_same. }
  destruct (_ && _); [|by intros [= <-]]. intros H. etrans; [exact H1|]. eapply (proj1 (thinner_removal _)), H.
Qed.

Lemma func_nodes_fst e : (func_nodes e).*1 ⊆ (funcs e).*2.
Proof. intros f ([g n] & -> & H)%list_elem_of_fmap. by apply elem_func_nodes in H as [? _]. Qed.

Lemma thinner_periods e : thinner e (precomputeFuncPeriods e) /\ funcs (precomputeFuncPeriods e) = funcs e /\
  heap (precomputeFuncPeriods e) = heap e /\ signals (precomputeFuncPeriods e) = signals e.
Proof.
  unfold precomputeFuncPeriods.
  assert (forall l e0, (forall f n, (f, n) ∈ l -> exists m, nodes e0 !! f = Some m /\ n_inputs m = n_inputs n /\ n_outputs m = n_outputs n) ->
    let e1 := fold_left (fun e (x : Z * node) =>
      set_nodes (<[x.1 := mkNode (n_name x.2) (n_inputs x.2) (n_outputs x.2) (longestDividingPeriod (input_periods e x.2))]> (nodes e)) e) l e0 in
    thinner e0 e1 /\ funcs e1 = funcs e0 /\ heap e1 = heap e0 /\ signals e1 = signals e0) as H.
  { induction l as [|[f n] l IH]; intros e0 Hl; cbn [fold_left]; [done|].
    destruct (Hl f n) as (m & Hm & Hi & Ho); [by left|]. cbn [fst snd].
    set (n' := mkNode _ _ _ _). set (e1 := set_nodes _ _).
    assert (thinner e0 e1) as H1.
    { apply (thinner_nodes_insert e0 f m); [done|]. split; cbn; [by rewrite Ho| |by rewrite Ho]. intros p Hp. exists p. by rewrite Hi. }
    destruct (IH e1) as (H2 & F2 & P2 & S2).
    { intros g k Hgk. cbn. destruct (decide (f = g)) as [<-|Hne].
      - rewrite lookup_insert_eq. exists n'. split; [done|]. destruct (Hl f k) as (m2 & Hm2 & Hi2 & Ho2); [by right|].
        cbn. assert (m2 = m) as -> by congruence. split; congruence.
      - rewrite lookup_insert_ne by done. apply Hl. by right. }
    split_and!; [by etrans|done..]. }
  apply H. intros f n [_ Hn]%elem_func_nodes. by exists n.
Qed.

Lemma thinner_build e e' : buildNetworkCacheData e = Ret e' -> thinner e e'.
Proof.
  unfold buildNetworkCacheData. destruct (computeNetworkIslands _) as [isl|]; [|done].
  destruct (finish_islands _ _ _) as [[isl' gl]| |]; cbn [obind]; [|done|done]. intros [= <-].
  etrans; [apply thinner_consumers|]. etrans; [apply thinner_periods|]. by apply thinner_same.
Qed.

(** ** The search upstream *)

Lemma zedge_live e a b : wf e -> zedge e a b -> is_Some (heap e !! a).
Proof. intros Hw [(s & _ & _ & _ & Hl)|(f & n & p & Hr & _ & Hp & _ & <-)]%zedge_iff; [done|by eapply wf_inputs]. Qed.

Lemma unvisited_spec v q :
  match unvisited v q with
  | [] => forall x, x ∈ q -> x ∈ v
  | a :: q' => a ∉ v /\ a ∈ q /\ (forall x, x ∈ q -> x ∈ v \/ x = a \/ x ∈ q') /\ (forall x, x ∈ q' -> x ∈ q)
  end.
Proof.
  induction q as [|x q IH]; cbn; [by intros x ?%elem_of_nil|]. destruct (decide (x ∈ v)) as [Hx|Hx].
  - destruct (unvisited v q) as [|a q'].
    + intros y [->|Hy]%elem_of_cons; [done|by apply IH].
    + destruct IH as (Ha & Hin & Hall & Hsub). split_and!; [done|by right| |].
      * intros y [->|Hy]%elem_of_cons; [by left|by apply Hall].
      * intros y Hy. right. by apply Hsub.
  - split_and!; [done|by left| |].
    + intros y [->|Hy]%elem_of_cons; [right; by left|right; by right].
    + intros y Hy. by right.
Qed.

Lemma visited_size (e : engine) (v : gset Z) :
  (forall x, x ∈ v -> is_Some (heap e !! x)) -> (size v <= size (heap e))%nat.
Proof.
  intros Hv. rewrite <- (size_dom (D := gset Z) (heap e)). apply subseteq_size. intros x Hx.
  by apply elem_of_dom, Hv.
Qed.

(** Whether a target is upstream of [from]. *)
Definition reaches (e : engine) (from : Z) (targets : gset Z) (b : bool) : Prop :=
  if b then exists t, t ∈ targets /\ rtc (zedge e) t from else forall t, rtc (zedge e) t from -> t ∉ targets.

Lemma search_spec e from targets : wf e -> forall fuel v q,
  (forall x, x ∈ v \/ x ∈ q -> is_Some (heap e !! x) /\ rtc (zedge e) x from) ->
  (forall b a, b ∈ v -> zedge e a b -> a ∈ v \/ a ∈ q) -> (from ∈ v \/ from ∈ q) ->
  v ## targets -> (size (heap e) < fuel + size v)%nat ->
  exists b, search_upstream fuel e targets v q = Some b /\ reaches e from targets b.
Proof.
  intros Hw. induction fuel as [|fuel IH]; intros v q Hup Hcl Hfrom Hdj Hfuel.
  { pose proof (visited_size e v (fun x Hx => proj1 (Hup x (or_introl Hx)))). lia. }
  cbn. pose proof (unvisited_spec v q) as Hu. destruct (unvisited v q) as [|a q'].
  - exists false. split; [done|]. assert (forall t, rtc (zedge e) t from -> t ∈ v) as Hall.
    { apply rtc_ind_l.
      - by destruct Hfrom as [?|?%Hu].
      - intros x y Hxy _ Hy. destruct (Hcl y x); [done..|by apply Hu]. }
    intros t Ht%Hall. set_solver.
  - destruct Hu as (Ha & Hin & Hall & Hsub). destruct (decide (a ∈ targets)) as [Ht|Ht].
    { exists true. split; [done|]. exists a. split; [done|]. apply Hup. by right. }
    apply IH.
    + intros x [[->%elem_of_singleton|Hx]%elem_of_union|[Hx|Hx]%elem_of_app].
      * apply Hup. by right.
      * apply Hup. by left.
      * apply Hup. right. by apply Hsub.
      * split; [by eapply zedge_live|]. eapply rtc_l; [exact Hx|]. apply Hup. by right.
    + intros b x [->%elem_of_singleton|Hb]%elem_of_union Hxb.
      * right. apply elem_of_app. by right.
      * rewrite elem_of_union, elem_of_singleton, elem_of_app.
        destruct (Hcl b x Hb Hxb) as [?|Hq]; [tauto|]. apply Hall in Hq. tauto.
    + rewrite elem_of_union, elem_of_singleton, elem_of_app. destruct Hfrom as [?|Hq]; [tauto|]. apply Hall in Hq. tauto.
    + set_solver.
    + rewrite size_union, size_singleton by set_solver. lia.
Qed.

Lemma reaches_upstream e from targets : wf e -> is_Some (heap e !! from) ->
  exists b, zeroDelayUpstreamReaches from targets e = Some b /\ reaches e from targets b.
Proof.
  intros Hw Hf. unfold zeroDelayUpstreamReaches. apply search_spec; try done.
  - intros x [Hx|Hx]; [set_solver|]. apply list_elem_of_singleton in Hx as ->. by split.
  - right. by apply list_elem_of_singleton.
  - rewrite size_empty. lia.
Qed.

(** ** Steps that add an edge *)

Lemma tc_into {A} (R R' : relation A) (O : A -> Prop) x y :
  (forall a b, R' a b -> R a b \/ O b) -> (forall b c, O b -> ~ R' b c) -> (exists z, R' y z) ->
  tc R' x y -> tc R x y.
Proof.
  intros Hr Ho Hy. induction 1 as [x y Hxy|x y' y Hxy Hyy IH].
  - destruct Hy as [z Hz]. destruct (Hr _ _ Hxy) as [?|Hb]; [by apply tc_once|]. by destruct (Ho y z Hb).
  - assert (exists w, R' y' w) as [w Hw] by (inversion Hyy; by eexists).
    destruct (Hr _ _ Hxy) as [?|Hb]; [eapply tc_l; [done|by apply IH]|]. by destruct (Ho y' w Hb).
Qed.

(** New edges into signals that feed nothing yet close no loop. *)
Lemma acyclic_leaf e e' (O : Z -> Prop) :
  (forall a b, zedge e' a b -> zedge e a b \/ O b) -> (forall b c, O b -> ~ zedge e' b c) -> acyclic e -> acyclic e'.
Proof.
  intros Hr Ho Hac a Ha. apply (Hac a). apply (tc_into (zedge e) (zedge e') O); [done..| |done].
  inversion Ha; by eexists.
Qed.

Lemma tc_add {A} (R R' : relation A) b l x y :
  (forall u v, R' u v -> R u v \/ (u = b /\ v = l)) -> tc R' x y -> tc R x y \/ (rtc R x b /\ rtc R l y).
Proof.
  intros Hr. induction 1 as [x y Hxy|x w y Hxw _ IH].
  - destruct (Hr _ _ Hxy) as [?|[-> ->]]; [left; by apply tc_once|by right].
  - destruct (Hr _ _ Hxw) as [Hx|[-> ->]].
    + destruct IH as [IH|[IH1 IH2]]; [left; by eapply tc_l|right]. split; [by eapply rtc_l|done].
    + right. split; [done|]. destruct IH as [IH|[_ IH]]; [by apply tc_rtc|done].
Qed.

(** A wire from [b] to [l], where [l] is not upstream of [b]. *)
Lemma acyclic_wire e e' b l :
  (forall u v, zedge e' u v -> zedge e u v \/ (u = b /\ v = l)) -> ~ rtc (zedge e) l b -> acyclic e -> acyclic e'.
Proof.
  intros Hr Hn Hac a Ha. destruct (tc_add _ _ b l a a Hr Ha) as [Hc|[H1 H2]]; [by apply (Hac a)|].
  apply Hn. by etrans.
Qed.

(** ** New objects *)

(** An address no object has, and nothing remembers. *)
Definition fresh (e : engine) (a : Z) : Prop :=
  heap e !! a = None /\ forall b s, heap e !! b = Some s -> baseSignal s <> Some a /\ a ∉ dependents s.

(** A derived signal is no source, every signal has a sample, and those listed as
    dependents that exist are derived from this one. *)
Definition tidy (e : engine) : Prop := forall a s, heap e !! a = Some s ->
  (isDerived s = true -> isSource s = false) /\ values s <> [] /\
  (forall d sd, d ∈ dependents s -> heap e !! d = Some sd -> isDerived sd = true /\ baseSignal sd = Some a).

Lemma thinner_tidy e e' : thinner e e' -> tidy e -> tidy e'.
Proof.
  intros Ht Hi a s' Ha. destruct (th_signal _ _ Ht a s' Ha) as (s & Hs & [D S _ L V]). destruct (Hi a s Hs) as (H1 & H2 & H3).
  split; [by rewrite D, S|]. split; [auto|]. intros d sd' Hd Hsd. destruct (th_signal _ _ Ht d sd' Hsd) as (sd & Hsd0 & [D' _ [B' _] _ _]).
  rewrite D', B'. apply (H3 d); [by apply L|done].
Qed.

(** Every input reads its signal undelayed; a function's outputs are its own: distinct
    signals, neither sources nor derived, and of no other function. *)
Definition ported (e : engine) : Prop := forall f n, registered e f n ->
  (forall p, p ∈ n_inputs n -> p_index p = 0) /\ NoDup (n_outputs n) /\
  forall o, o ∈ n_outputs n -> (forall s, heap e !! o = Some s -> isDerived s = false /\ isSource s = false) /\
    forall g m, registered e g m -> o ∈ n_outputs m -> g = f.

Lemma thinner_ported e e' : thinner e e' -> ported e -> ported e'.
Proof.
  intros Ht Hp f n' Hr. destruct (thinner_registered e e' f n' Ht Hr) as (n & Hn & [Ho Hi Hd]). destruct (Hp f n Hn) as (P1 & P2 & P3).
  split_and!; [|auto|].
  - intros p' Hp'. destruct (Hi p' Hp') as (p & Hpn & _ & <-). by apply P1.
  - intros o Hoo. apply Ho in Hoo. destruct (P3 o Hoo) as [H1 H2]. split.
    + intros s' Hs'. destruct (th_signal _ _ Ht o s' Hs') as (s & Hs & [D S _ _ _]). rewrite D, S. by apply H1.
    + intros g m' Hg Hog. destruct (thinner_registered e e' g m' Ht Hg) as (m & Hm & [Hom _ _]). apply (H2 g m Hm). by apply Hom.
Qed.

Record ok (e : engine) : Prop := { ok_wf : wf e; ok_acyclic : acyclic e; ok_tidy : tidy e; ok_ported : ported e }.

Lemma thinner_ok e e' : thinner e e' -> ok e -> ok e'.
Proof. intros Ht [Hw Ha Hi Hp]. split; [by eapply thinner_wf|by eapply thinner_acyclic|by eapply thinner_tidy|by eapply thinner_ported]. Qed.

(** Changing a signal that is no function's output. *)
Lemma ported_put e a s : ported e -> (forall f n, registered e f n -> a ∉ n_outputs n) -> ported (put a s e).
Proof.
  intros Hp Ha f n Hr. destruct (Hp f n Hr) as (P1 & P2 & P3). split_and!; [done|done|]. intros o Ho. destruct (P3 o Ho) as [H1 H2].
  split; [|done]. intros so. cbn. rewrite lookup_insert_ne; [by apply H1|]. intros ->. by apply (Ha f n Hr).
Qed.

Lemma fresh_output e a : wf e -> fresh e a -> forall f n, registered e f n -> a ∉ n_outputs n.
Proof. intros Hw [Ha _] f n Hr Ho. destruct (wf_outputs _ Hw f n a Hr Ho). congruence. Qed.

Lemma unwired_put e a s x y :
  (forall b sb, heap e !! b = Some sb -> b <> a -> baseSignal sb <> Some a) -> zeroDelayDerived s = false ->
  zedge (put a s e) x y -> zedge e x y.
Proof.
  intros Hf Hs. rewrite !zedge_iff. intros [(sy & Hy & Hz & Hb & Hl)|?]; [left|by right].
  cbn in Hy. apply lookup_insert_Some in Hy as [[-> ->]|[Hne Hy]]; [congruence|]. exists sy. split_and!; try done.
  cbn in Hl. rewrite lookup_insert_ne in Hl; [done|]. intros ->. by apply (Hf y sy).
Qed.

Lemma fresh_unwired e a : fresh e a -> forall b sb, heap e !! b = Some sb -> b <> a -> baseSignal sb <> Some a.
Proof. intros [_ Hf] b sb Hb _. by apply (Hf b sb). Qed.

Lemma wf_put e a s : wf e -> wf (put a s e).
Proof.
  assert (forall b, is_Some (heap e !! b) -> is_Some (heap (put a s e) !! b)) as Hm.
  { intros b Hb. cbn. destruct (decide (a = b)) as [<-|?]; [rewrite lookup_insert_eq; by eexists|by rewrite lookup_insert_ne]. }
  intros [Ws Wf Wi Wo]. split; [by intros b ?%Ws%Hm|done| |].
  - intros f n p Hr Hp. apply Hm. by eapply Wi.
  - intros f n o Hr Hp. apply Hm. by eapply Wo.
Qed.

Lemma wf_addSignal e a : is_Some (heap e !! a) -> wf e -> wf (addSignal a e).
Proof. intros Ha [Ws Wf Wi Wo]. split; try done. intros b [?| ->%list_elem_of_singleton]%elem_of_app; [by apply Ws|done]. Qed.

(** What a new signal may be. *)
Record newborn (s : signal) : Prop := {
  nb_wire : zeroDelayDerived s = false;
  nb_source : isDerived s = true -> isSource s = false;
  nb_values : values s <> [];
  nb_dependents : dependents s = [];
}.

Lemma tidy_new e a s : fresh e a -> newborn s -> tidy e -> tidy (put a s e).
Proof.
  intros [_ Hf] [_ Hs Hv Hd] Hi b sb. cbn. intros [[<- <-]|[Hne Hb]]%lookup_insert_Some.
  - rewrite Hd. split_and!; [done|done|]. by intros d sd ?%elem_of_nil.
  - destruct (Hi b sb Hb) as (H1 & H2 & H3). split_and!; [done|done|]. intros d sd Hdb.
    intros [[<- <-]|[Hn Hsd]]%lookup_insert_Some; [by destruct (Hf b sb Hb)|by apply (H3 d)].
Qed.

Lemma ok_new e a s : fresh e a -> newborn s -> ok e -> ok (addSignal a (put a s e)).
Proof.
  intros Hf Hs [Hw Ha Hi Hp]. split.
  - apply wf_addSignal; [cbn; rewrite lookup_insert_eq; by eexists|by apply wf_put].
  - intros x Hx. apply (Ha x). eapply tc_mono; [|exact Hx]. intros u v Huv.
    apply (unwired_put e a s); [by apply fresh_unwired|apply (nb_wire _ Hs)|exact Huv].
  - by apply (tidy_new e a s).
  - intros f n Hr. apply (ported_put e a s Hp); [|exact Hr]. by apply fresh_output.
Qed.

(** A base takes note of a signal derived from it. *)
Lemma ok_addDependent b d e sd : heap e !! d = Some sd -> isDerived sd = true -> baseSignal sd = Some b -> ok e -> ok (addDependent b d e).
Proof.
  intros Hsd Hd Hb [Hw Ha Hi Hp]. unfold addDependent. destruct (heap e !! b) as [s|] eqn:Eb; [|done].
  set (s' := set_dependents _ s). split.
  - by apply wf_put.
  - intros x Hx. apply (Ha x). eapply tc_mono; [|exact Hx]. intros u v. rewrite !zedge_iff.
    intros [(sv & Hv & Hz & Hbs & Hl)|?]; [left|by right]. cbn in Hv, Hl.
    assert (is_Some (heap e !! u)) as Hlu by (destruct (decide (b = u)) as [<-|?]; [by exists s|by rewrite lookup_insert_ne in Hl]).
    apply lookup_insert_Some in Hv as [[<- <-]|[Hne Hv]]; [by exists s|by exists sv].
  - intros a sa. cbn. intros [[<- <-]|[Hne Hsa]]%lookup_insert_Some.
    + destruct (Hi b s Eb) as (H1 & H2 & H3). split_and!; [done|done|].
      intros c sc [Hc|Hc]%elem_of_app Hsc.
      * apply list_elem_of_filter in Hc as [_ Hc]. apply lookup_insert_Some in Hsc as [[<- <-]|[_ Hsc]]; [|by apply (H3 c)].
        cbn. by apply (H3 b s).
      * apply list_elem_of_singleton in Hc as ->. apply lookup_insert_Some in Hsc as [[<- <-]|[_ Hsc]]; [|by simplify_eq].
        cbn. by simplify_eq.
    + destruct (Hi a sa Hsa) as (H1 & H2 & H3). split_and!; [done|done|].
      intros c sc Hc [[<- <-]|[_ Hsc]]%lookup_insert_Some; [|by apply (H3 c)]. cbn. by apply (H3 b s).
  - intros f n Hr. destruct (Hp f n Hr) as (P1 & P2 & P3). split_and!; [done|done|]. intros o Ho. destruct (P3 o Ho) as [H1 H2].
    split; [|done]. intros so. cbn. intros [[<- <-]|[_ Hso]]%lookup_insert_Some; [by apply (H1 s)|by apply H1].
Qed.

Lemma new_signal_view snap freq v s : new_signal snap freq v = Ret s ->
  isDerived s = false /\ baseSignal s = None /\ dependents s = [] /\ values s <> [] /\ isSource s = false.
Proof.
  unfold new_signal. destruct (period_of freq) as [p| |]; [|discriminate..].
  generalize (realVal 0). intros zero. generalize (d_le freq zero). intros event E.
  assert (s = mkSignal (if event then zero else freq) p event false false false false 0 false false None 0 [] 2 false [(0, snap v)]) as -> by congruence.
  by split_and!.
Qed.

Lemma ok_source snap a freq v bg e e' : fresh e a -> newSourceSignal snap a freq v bg e = Ret e' -> ok e -> ok e'.
Proof.
  unfold newSourceSignal, source_signal. intros Hf. destruct (new_signal snap freq v) as [s| |] eqn:En; cbn [obind]; [|done|done].
  apply new_signal_view in En as (_ & _ & _ & Hv & _). intros [= <-]. by apply ok_new.
Qed.

Lemma ok_clock snap a freq e e' : fresh e a -> newClockSignal snap a freq e = Ret e' -> ok e -> ok e'.
Proof.
  unfold newClockSignal, clock_signal. intros Hf. destruct (new_signal snap freq _) as [s| |] eqn:En; cbn [obind]; [|done|done].
  apply new_signal_view in En as (_ & _ & _ & Hv & _). intros [= <-]. by apply ok_new.
Qed.

(** A delay adds no edge within the tick. *)
Lemma ok_indexed snap base index a e e' r : fresh e a -> indexedSignal snap base index a e = Ret (e', r) -> ok e -> ok e'.
Proof.
  intros Hf. unfold indexedSignal. destruct (heap e !! base) as [s|] eqn:Eb; [|done].
  destruct (0 <? index); [done|]. destruct (Z.eqb_spec index 0) as [->|Hi]; [by intros [= <- _]|].
  destruct (eventDriven s); [done|].
  destruct (match valueAtIndex _ _ _ with Ret v => _ | _ => _ end) as [v| |]; cbn [obind]; [|done|done].
  destruct (new_signal snap (frequency s) v) as [n| |] eqn:En; cbn [obind]; [|done|done].
  apply new_signal_view in En as (_ & _ & _ & Hv & _). intros [= <- _] Hok.
  set (n' := mkSignal _ _ _ _ _ _ _ _ _ _ _ _ _ _ _ _). set (s' := set_maxHistory _ s).
  assert (base <> a) as Hne by (intros ->; destruct Hf; congruence).
  assert (ok (addSignal a (put a n' e))) as H1.
  { apply ok_new; [done| |done]. split; [|done..]. unfold zeroDelayDerived. cbn. by destruct (Z.eqb_spec index 0). }
  assert (ok (put base s' (addSignal a (put a n' e)))) as H2.
  { apply (thinner_ok (addSignal a (put a n' e))); [|done].
    apply (thinner_put _ base s s'); [cbn; by rewrite lookup_insert_ne|done]. }
  apply (ok_addDependent base a _ n') in H2; [|cbn; by rewrite lookup_insert_ne, lookup_insert_eq by done|done|done].
  eapply thinner_ok; [|exact H2]. unfold addDependent. cbn. rewrite lookup_insert_eq. by apply thinner_same.
Qed.

(** ** Lifted functions *)

Lemma fresh_put e a s b : fresh e b -> a <> b -> baseSignal s <> Some b -> b ∉ dependents s -> fresh (put a s e) b.
Proof.
  intros [Hb Hf] Hne H1 H2. split; cbn; [by rewrite lookup_insert_ne|].
  intros c sc [[<- <-]|[_ Hc]]%lookup_insert_Some; [done|by apply (Hf c)].
Qed.

Lemma outputs_spec snap freq outs : forall e e',
  createOutputSignals snap freq outs e = Ret e' -> NoDup outs.*1 -> (forall o, o ∈ outs.*1 -> fresh e o) -> ok e ->
  ok e' /\ nodes e' = nodes e /\ funcs e' = funcs e /\ (forall x y, zedge e' x y -> zedge e x y) /\
  (forall o, o ∈ outs.*1 -> exists s, heap e' !! o = Some s /\ isDerived s = false /\ isSource s = false) /\
  (forall o s, heap e !! o = Some s -> heap e' !! o = Some s).
Proof.
  induction outs as [|[a v] outs IH]; intros e e' H Hnd Hfr Hok; cbn in H.
  { injection H as <-. split_and!; try done. by intros o ?%elem_of_nil. }
  destruct (new_signal snap freq v) as [s| |] eqn:En; cbn [obind] in H; [|done|done].
  apply new_signal_view in En as (Hd & Hb & Hdep & Hv & Hsrc). apply NoDup_cons in Hnd as [Hna Hnd].
  assert (fresh e a) as Hfa by (apply Hfr; by left). set (s' := set_suppress true s) in *.
  assert (zeroDelayDerived s' = false) as Hz by (unfold zeroDelayDerived; cbn; by rewrite Hd).
  assert (newborn s') as Hnb by (split; try done; cbn; by rewrite Hd).
  destruct (IH (addSignal a (put a s' e)) e' H Hnd) as (H1 & H2 & H3 & H4 & H5 & H6).
  - intros o Ho. apply (fresh_put e a s' o); [by apply Hfr; right|by intros ->|cbn; by rewrite Hb|cbn; rewrite Hdep; set_solver].
  - by apply ok_new.
  - split_and!; [done|done|done| | |].
    + intros x y ?%H4. apply (unwired_put e a s'); [by apply fresh_unwired|done..].
    + intros o [->|Ho]%elem_of_cons; [|by apply H5]. exists s'. split; [apply H6; cbn; by rewrite lookup_insert_eq|done].
    + intros o so Ho. apply H6. cbn. rewrite lookup_insert_ne; [done|]. intros ->. destruct Hfa. congruence.
Qed.

Lemma lift_registered e f n g m :
  registered (addFunc f (set_nodes (<[f := n]> (nodes e)) e)) g m -> (g = f /\ m = n) \/ (g <> f /\ registered e g m).
Proof.
  unfold addFunc. cbn. rewrite lookup_insert_eq. intros [Hg Hm]. cbn in Hg, Hm.
  apply lookup_insert_Some in Hm as [[<- <-]|[Hne Hm]]; [by left|right]. split; [done|].
  apply (elem_sset_value String.le) in Hg as [->|Hg]; [done|by split].
Qed.

Lemma ok_addFunc e f n : ok e -> nodes e !! f = None ->
  (forall p, p ∈ n_inputs n -> is_Some (heap e !! p_signal p)) ->
  (forall o, o ∈ n_outputs n -> is_Some (heap e !! o) /\ (forall p, p ∈ n_inputs n -> p_signal p <> o) /\ forall y, ~ zedge e o y) ->
  (forall p, p ∈ n_inputs n -> p_index p = 0) -> NoDup (n_outputs n) ->
  (forall o, o ∈ n_outputs n -> (exists s, heap e !! o = Some s /\ isDerived s = false /\ isSource s = false) /\
    forall g m, registered e g m -> o ∉ n_outputs m) ->
  ok (addFunc f (set_nodes (<[f := n]> (nodes e)) e)).
Proof.
  intros [Hw Ha Hti Hpo] Hf Hi Ho Hix Hnd Hown. pose proof (lift_registered e f n) as Hreg.
  set (e' := addFunc _ _) in *. assert (heap e' = heap e /\ signals e' = signals e) as [Hh Hs].
  { unfold e', addFunc. cbn. by rewrite lookup_insert_eq. }
  assert (forall x y, zedge e' x y -> zedge e x y \/ (y ∈ n_outputs n /\ exists p, p ∈ n_inputs n /\ p_signal p = x)) as Hz.
  { intros x y. rewrite !zedge_iff. intros [(s & H)|(g & m & p & Hr & Hy & Hp & Hx & Hpx)].
    - left. left. exists s. by rewrite Hh in H.
    - apply Hreg in Hr as [[-> ->]|[_ Hr]]; [right; split; [done|by exists p]|left; right; by exists g, m, p]. }
  split.
  - split; rewrite ?Hh, ?Hs.
    + apply (wf_signals _ Hw).
    + unfold e', addFunc. cbn. rewrite lookup_insert_eq. cbn. intros g [->|Hg]%(elem_sset_value String.le); [rewrite lookup_insert_eq; by eexists|].
      destruct (decide (f = g)) as [<-|?]; [rewrite lookup_insert_eq; by eexists|]. rewrite lookup_insert_ne by done. by apply (wf_funcs _ Hw).
    + intros g m p [[-> ->]|[_ Hr]]%Hreg Hp; [by apply Hi|by eapply wf_inputs].
    + intros g m o [[-> ->]|[_ Hr]]%Hreg Hp; [by apply Ho|by eapply wf_outputs].
  - apply (acyclic_leaf e e' (fun y => y ∈ n_outputs n)); [|intros b c Hb [Hbc|(_ & p & Hp & Hpx)]%Hz|done].
    + intros a b [?|[? _]]%Hz; [by left|by right].
    + by apply (proj2 (proj2 (Ho b Hb)) c).
    + by apply (proj1 (proj2 (Ho b Hb)) p Hp).
  - intros a s. rewrite Hh. apply Hti.
  - intros g m [[-> ->]|[Hne Hr]]%Hreg.
    + split_and!; [done|done|]. intros o Hoo. destruct (Hown o Hoo) as [(s & Hs1 & Hs2) Hno]. split.
      * intros s'. rewrite Hh. intros ?. by simplify_eq.
      * intros h k [[-> ->]|[_ Hk]]%Hreg Hok; [done|]. by destruct (Hno h k Hk).
    + destruct (Hpo g m Hr) as (P1 & P2 & P3). split_and!; [done|done|]. intros o Hoo. destruct (P3 o Hoo) as [H1 H2]. rewrite Hh. split; [done|].
      intros h k [[-> ->]|[_ Hk]]%Hreg Hok; [by destruct (proj2 (Hown o Hok) g m Hr)|by apply (H2 h k)].
Qed.

Lemma ok_lift snap name f ins outs e e' :
  nodes e !! f = None -> (forall a, a ∈ ins -> is_Some (heap e !! a)) ->
  NoDup outs.*1 -> (forall o, o ∈ outs.*1 -> fresh e o) ->
  lift snap name f ins outs e = Ret e' -> ok e -> ok e'.
Proof.
  intros Hf Hins Hnd Hfr. unfold lift. destruct (createOutputSignals _ _ _ _) as [e1| |] eqn:E; cbn [obind]; [|done|done].
  intros [= <-] Hok. destruct (outputs_spec _ _ _ _ _ E Hnd Hfr Hok) as (H1 & Hn & Hfu & Hz & Ho & Hm).
  assert (forall o, is_Some (heap e !! o) -> o ∉ outs.*1) as Hno by (intros o [so Hso] Hoo; destruct (Hfr o Hoo); congruence).
  apply ok_addFunc; [done|by rewrite Hn|..]; cbn.
  - intros p (a & -> & Ha)%list_elem_of_fmap. cbn. destruct (Hins a Ha) as [s Hs]. exists s. by apply Hm.
  - intros o Hoo. split; [destruct (Ho o Hoo) as (s & Hs & _); by exists s|]. split.
    + intros p (a & -> & Ha)%list_elem_of_fmap Heq. cbn in Heq. subst a. by apply (Hno o); [apply Hins|].
    + intros y Hy%Hz. apply (zedge_live e) in Hy; [|apply Hok]. by apply (Hno o).
  - by intros p (a & -> & Ha)%list_elem_of_fmap.
  - done.
  - intros o Hoo. split; [by apply Ho|]. intros g m [Hg1 Hg2] Hom. apply (Hno o); [|done].
    apply (wf_outputs _ (ok_wf _ Hok) g m); [|done]. rewrite Hfu in Hg1. rewrite Hn in Hg2. by split.
Qed.

(** ** Wires *)

Lemma ok_derive e lhs base index l b :
  heap e !! lhs = Some l -> isSource l = true -> heap e !! base = Some b -> base <> lhs ->
  (index = 0 -> ~ rtc (zedge e) lhs base) -> ok e -> ok (deriveFrom lhs base index e).
Proof.
  intros Hl Hsrc Hb Hne Hnr [Hw Ha Hti Hpo]. unfold deriveFrom. rewrite Hl, Hb.
  set (l' := mkSignal _ _ _ _ _ _ _ _ _ _ _ _ _ _ _ _). set (b' := set_maxHistory _ b).
  assert (ok (put lhs l' e)) as H1.
  { split; [by apply wf_put| | |].
    3:{ apply ported_put; [done|]. intros f n Hr Ho. destruct (Hpo f n Hr) as (_ & _ & P3). destruct (P3 lhs Ho) as [Hs _].
        destruct (Hs l Hl). congruence. }
    2:{ destruct (Hti lhs l Hl) as (D1 & V1 & L1). assert (isDerived l = false) as Hdl by (destruct (isDerived l); [by rewrite D1 in Hsrc|done]).
      intros a s. cbn. intros [[<- <-]|[Hn Hs]]%lookup_insert_Some.
      - split_and!; [done|done|]. intros d sd Hd. cbn in Hd. intros [[<- <-]|[_ Hsd]]%lookup_insert_Some; [|by apply (L1 d)].
        destruct (L1 lhs l Hd Hl) as [? _]. congruence.
      - destruct (Hti a s Hs) as (D2 & V2 & L2). split_and!; [done|done|]. intros d sd Hd [[<- <-]|[_ Hsd]]%lookup_insert_Some; [|by apply (L2 d)].
        destruct (L2 lhs l Hd Hl) as [? _]. congruence. }
    assert (forall u v, zedge (put lhs l' e) u v -> zedge e u v \/ (index = 0 /\ u = base /\ v = lhs)) as Hz.
    { intros u v. rewrite !zedge_iff. intros [(s & Hs & Hd & Hbs & Hlv)|?]; [|left; by right].
      cbn in Hs, Hlv. apply lookup_insert_Some in Hs as [[<- <-]|[Hn Hs]].
      - right. unfold zeroDelayDerived in Hd. cbn in Hd, Hbs. apply Z.eqb_eq in Hd. by simplify_eq.
      - left. left. exists s. split_and!; try done.
        destruct (decide (lhs = u)) as [<-|?]; [by exists l|by rewrite lookup_insert_ne in Hlv]. }
    destruct (decide (index = 0)) as [Hi|Hi].
    - apply (acyclic_wire e _ base lhs); [|by apply Hnr|done]. intros u v [?|(_ & ? & ?)]%Hz; [by left|by right].
    - intros a Hc. apply (Ha a). eapply tc_mono; [|exact Hc]. intros u v [?|[? _]]%Hz; done. }
  assert (ok (put base b' (put lhs l' e))) as H2.
  { apply (thinner_ok (put lhs l' e)); [|done]. apply (thinner_put _ base b b'); [cbn; by rewrite lookup_insert_ne|done]. }
  apply (ok_addDependent base lhs _ l'); [cbn; by rewrite lookup_insert_ne, lookup_insert_eq by done|done|done|done].
Qed.

Lemma wire_base e rhs r base index : heap e !! rhs = Some r ->
  match (if isDerived r then baseOf rhs e else None) with Some b => (b, baseIndex r) | None => (rhs, 0) end = (base, index) ->
  exists b, heap e !! base = Some b.
Proof.
  intros Er Eb. destruct (isDerived r); [|injection Eb as <- <-; by exists r].
  destruct (baseOf rhs e) as [c|] eqn:Ec; [|injection Eb as <- <-; by exists r].
  injection Eb as <- _. apply baseOf_spec in Ec as (_ & _ & _ & [b Hb]). by exists b.
Qed.

Definition wire_check (e : engine) (base index : Z) (targets : gset Z) : option bool :=
  if index =? 0 then zeroDelayUpstreamReaches base targets e else Some false.

Lemma ok_checked e lhs base index l b targets :
  ok e -> heap e !! lhs = Some l -> isSource l = true -> heap e !! base = Some b -> base <> lhs -> lhs ∈ targets ->
  wire_check e base index targets = Some false -> ok (deriveFrom lhs base index e).
Proof.
  intros Hok El Hsrc Hb Hne Hin Hc. apply (ok_derive e lhs base index l b); [done..| |done]. intros ->. unfold wire_check in Hc.
  destruct (reaches_upstream e base targets (ok_wf _ Hok)) as (c & Ec & Hr); [by exists b|].
  rewrite Z.eqb_refl, Ec in Hc. injection Hc as ->. cbn in Hr. intros Hup. by apply (Hr lhs Hup).
Qed.

Lemma ok_copyInto veq snap lhs rhs e e' : copyInto veq snap lhs rhs e = Ret e' -> ok e -> ok e'.
Proof.
  unfold copyInto. intros H Hok. destruct (heap e !! lhs) as [l|] eqn:El; [|done]. destruct (heap e !! rhs) as [r|] eqn:Er; [|done].
  destruct (lhs =? rhs); [done|]. destruct (negb (d_eq _ _)); [done|]. destruct (isSource l) eqn:Hsrc; [|done]. cbn [negb] in H.
  destruct (match (if isDerived r then baseOf rhs e else None) with Some b => _ | None => _ end) as [base index] eqn:Eb.
  apply wire_base in Eb as [b Hb]; [|done]. destruct (Z.eqb_spec base lhs) as [|Hne]; [done|].
  set (targets := list_to_set _) in H. assert (lhs ∈ targets) as Hin by (unfold targets; set_solver).
  fold (wire_check e base index targets) in H. destruct (wire_check e base index targets) as [[|]|] eqn:Ec; [done| |done].
  pose proof (ok_checked e lhs base index l b targets Hok El Hsrc Hb Hne Hin Ec) as Hd.
  set (e1 := deriveFrom lhs base index e) in *. clearbody e1.
  assert (forall e2, (if existsb (fun x => negb (isNil x.2)) (values r) then
      match last (values r), lastValue l, heap e1 !! lhs with
      | Some (t, v), Ret b, Some l => publish veq snap (sample_fuel e1) t v lhs (put lhs (set_values (values r) l) e1)
      | _, Throw x, _ => Throw x | _, _, _ => UB end else Ret e1) = Ret e2 -> thinner e1 e2) as Hseed.
  { intros e2. destruct (existsb _ _); [|by intros [= <-]].
    destruct (last (values r)) as [[t v]|] eqn:Elast; [|by destruct (lastValue l)].
    destruct (lastValue l); [|done|done]. destruct (heap e1 !! lhs) as [l1|] eqn:El1; [|done].
    intros Hp. etrans; [apply (thinner_put e1 lhs l1 (set_values (values r) l1)); [done|]|].
    { split; try done. intros _ Hnil. cbn in Hnil. by rewrite Hnil in Elast. }
    eapply thinner_publish, Hp. }
  destruct (if existsb _ _ then _ else _) as [e2| |]; cbn [obind] in H; [|done|done]. injection H as <-.
  eapply thinner_ok; [|exact Hd]. etrans; [by apply Hseed|]. by apply thinner_same.
Qed.

(** ** The program's steps *)

Section Program.
Context (veq : Z -> Z -> bool) (snapshot : Z -> Z).

(** Whatever uses the network, in any order.  A signal or node object goes when nothing
    refers to it, and its address may be taken again. *)
Inductive step (e : engine) : engine -> Prop :=
| step_source a freq v bg e' : fresh e a -> newSourceSignal snapshot a freq v bg e = Ret e' -> step e e'
| step_clock a freq e' : fresh e a -> newClockSignal snapshot a freq e = Ret e' -> step e e'
| step_lift name f ins outs e' :
    nodes e !! f = None -> (forall a, a ∈ ins -> is_Some (heap e !! a)) ->
    NoDup outs.*1 -> (forall o, o ∈ outs.*1 -> fresh e o) ->
    lift snapshot name f ins outs e = Ret e' -> step e e'
| step_index base index a e' r : fresh e a -> indexedSignal snapshot base index a e = Ret (e', r) -> step e e'
| step_wire lhs rhs e' : copyInto veq snapshot lhs rhs e = Ret e' -> step e e'
| step_hold a : step e (registerSignalWrapper a e)
| step_drop a e' : drop_wrapper a e = Some e' -> step e e'
| step_domain a bg : step e (setSignalDomain a bg e)
| step_set now start v a e' : set veq snapshot (sample_fuel e) now start v a e = Ret e' -> step e e'
| step_publish t v a e' : setValueAt veq snapshot (sample_fuel e) t v a e = Ret e' -> step e e'
| step_tick t e' : tick_sources veq snapshot t (signals e) e = Ret e' -> step e e'
| step_refresh t i e' : i ∈ islands e -> refreshDerivedSignals veq snapshot t (i_signals i) e = Ret e' -> step e e'
| step_retire f e' : removeFunc (removal_fuel e) f e = Some e' -> step e e'
| step_rebuild e' : buildNetworkCacheData e = Ret e' -> step e e'
| step_free_signal a :
    a ∉ signals e -> (forall f n, nodes e !! f = Some n -> has_input a n = false /\ has_output a n = false) ->
    step e (set_heap (delete a (heap e)) e)
| step_free_node f : f ∉ (funcs e).*2 -> step e (set_nodes (delete f (nodes e)) e).

Definition reachable (e : engine) : Prop := rtc step empty_engine e.

Lemma ok_free_signal e a :
  a ∉ signals e -> (forall f n, nodes e !! f = Some n -> has_input a n = false /\ has_output a n = false) ->
  ok e -> ok (set_heap (delete a (heap e)) e).
Proof.
  intros Hs Hn [[Ws Wf Wi Wo] Ha Hti Hpo]. split.
  - split; cbn.
    + intros b Hb. rewrite lookup_delete_ne by (by intros ->). by apply Ws.
    + done.
    + intros f n p Hr Hp. rewrite lookup_delete_ne; [by apply (Wi f n p)|]. intros ->.
      destruct (Hn f n (proj2 Hr)) as [Hi _]. unfold has_input in Hi.
      apply not_true_iff_false in Hi as []. apply existsb_exists. exists p. split; [by apply list_elem_of_In|by apply Z.eqb_eq].
    + intros f n o Hr Ho. rewrite lookup_delete_ne; [by apply (Wo f n o)|]. intros ->.
      destruct (Hn f n (proj2 Hr)) as [_ Hi]. unfold has_output in Hi. by apply bool_decide_eq_false in Hi.
  - intros x Hx. apply (Ha x). eapply tc_mono; [|exact Hx]. intros u v. rewrite !zedge_iff.
    intros [(s & Hy & Hz & Hb & Hl)|?]; [left|by right]. cbn in Hy, Hl. apply lookup_delete_Some in Hy as [_ Hy].
    exists s. split_and!; try done. destruct Hl as [w Hw]. apply lookup_delete_Some in Hw as [_ Hw]. by exists w.
  - intros b s. cbn. intros [_ Hb]%lookup_delete_Some. destruct (Hti b s Hb) as (H1 & H2 & H3). split_and!; [done|done|].
    intros d sd Hd [_ Hsd]%lookup_delete_Some. by apply (H3 d).
  - intros f n Hr. destruct (Hpo f n Hr) as (P1 & P2 & P3). split_and!; [done|done|]. intros o Ho. destruct (P3 o Ho) as [H1 H2].
    split; [|done]. intros s. cbn. intros [_ Hso]%lookup_delete_Some. by apply H1.
Qed.

Lemma ok_free_node e f : f ∉ (funcs e).*2 -> ok e -> ok (set_nodes (delete f (nodes e)) e).
Proof.
  intros Hf [[Ws Wf Wi Wo] Ha Hi Hpo].
  assert (forall g n, registered (set_nodes (delete f (nodes e)) e) g n -> registered e g n) as Hreg.
  { intros g n [Hg Hn]. cbn in Hg, Hn. apply lookup_delete_Some in Hn as [_ Hn]. by split. }
  split.
  - split; cbn; [done| |by intros g n p ?%Hreg; apply (Wi g)|by intros g n p ?%Hreg; apply (Wo g)].
    intros g Hg. rewrite lookup_delete_ne by (by intros ->). by apply Wf.
  - intros x Hx. apply (Ha x). eapply tc_mono; [|exact Hx]. intros u v. rewrite !zedge_iff.
    intros [?|(g & n & p & Hr & ?)]; [by left|right]. exists g, n, p. split; [by apply Hreg|done].
  - done.
  - intros g n Hr%Hreg. destruct (Hpo g n Hr) as (P1 & P2 & P3). split_and!; [done|done|]. intros o Ho. destruct (P3 o Ho) as [H1 H2].
    split; [done|]. intros h m Hm%Hreg. by apply H2.
Qed.

Lemma ok_step e e' : step e e' -> ok e -> ok e'.
Proof.
  intros [] Hok.
  - by eapply ok_source.
  - by eapply ok_clock.
  - by eapply ok_lift.
  - by eapply ok_indexed.
  - by eapply ok_copyInto.
  - apply (thinner_ok e); [by apply thinner_same|done].
  - apply (thinner_ok e); [by eapply thinner_drop|done].
  - apply (thinner_ok e); [apply thinner_domain|done].
  - apply (thinner_ok e); [by eapply thinner_set|done].
  - apply (thinner_ok e); [by eapply thinner_setValueAt|done].
  - apply (thinner_ok e); [by eapply thinner_tick_sources|done].
  - apply (thinner_ok e); [by eapply thinner_refresh|done].
  - apply (thinner_ok e); [by eapply (proj2 (thinner_removal _))|done].
  - apply (thinner_ok e); [by eapply thinner_build|done].
  - by apply ok_free_signal.
  - by apply ok_free_node.
Qed.

Lemma ok_empty : ok empty_engine.
Proof.
  split; [split; cbn; try (by intros ? ?%elem_of_nil); intros ? ? ? [? ?] ?; set_solver| |done|intros f n [Hf _]; by apply elem_of_nil in Hf].
  intros a Ha. assert (exists b, zedge empty_engine a b) as [b Hb] by (inversion Ha; by eexists).
  apply zedge_iff in Hb as [(s & Hs & _)|(f & n & p & [Hf _] & _)]; [done|by apply elem_of_nil in Hf].
Qed.

Lemma ok_reachable e : reachable e -> ok e.
Proof. revert e. unfold reachable. apply (rtc_ind_r ok); [apply ok_empty|]. intros x y _ Hxy Hx. by eapply ok_step. Qed.
End Program.

End DataflowWires.
