(* ===== verification/DataflowEnds.v ===== *)
(** * DataflowEnds: pruning the network ends, and so does every sample

    Removal recurses between signals and functions; each round takes one of them off the
    engine's lists, or is the last to look at one that is gone.  A sample goes down the
    wires, of which no loop can be made. *)

From S2P Require Import Prelude SortedMap Value Signals Dataflow DataflowWires.
From stdpp Require Import numbers pretty.

Module DataflowEnds.

Import Signals Dataflow DataflowWires.
Local Open Scope Z_scope.

(** ** Removal *)

Definition weight (e : engine) : nat := length (signals e) + length (funcs e).

(** Fuel that [removeFunc] needs on its function, [removeSignal] one more than twice the
    weight. *)
Definition func_fuel (e : engine) (f : Z) : nat :=
  if decide (f ∈ (funcs e).*2) then 2 * weight e else 2 * weight e + 2.

Lemma length_filter_le {A} (P : A -> Prop) `{forall x, Decision (P x)} (l : list A) : (length (filter P l) <= length l)%nat.
Proof. apply length_filter. Qed.

Lemma filter_shorter {A} (P : A -> Prop) `{forall x, Decision (P x)} (l : list A) x :
  x ∈ l -> ~ P x -> (length (filter P l) < length l)%nat.
Proof.
  intros Hx HP. induction l as [|y l IH]; [by apply elem_of_nil in Hx|]. rewrite filter_cons.
  apply elem_of_cons in Hx as [->|Hx]; case_decide; cbn; try done.
  - pose proof (length_filter_le P l). lia.
  - specialize (IH Hx). lia.
  - specialize (IH Hx). lia.
Qed.

Lemma erase_func_weight f n e : (weight (erase_func f n e) <= weight e)%nat /\
  (f ∈ (funcs e).*2 -> (weight (erase_func f n e) < weight e)%nat).
Proof.
  unfold erase_func, weight. destruct (sfind (n_name n) (funcs e)) as [g|] eqn:E; cbn.
  - assert ((length (serase (n_name n) (funcs e)) < length (funcs e))%nat); [|lia].
    destruct (decide (n_name n ∈ (funcs e).*1)) as [Hin|Hin]; [|apply (sfind_None String.le) in Hin; congruence].
    apply list_elem_of_fmap in Hin as (x & Ex & Hx). unfold serase. apply (filter_shorter _ _ x Hx). congruence.
  - pose proof (length_filter_le (fun x : string * Z => x.2 <> f) (funcs e)). split; [lia|].
    intros Hf. apply list_elem_of_fmap in Hf as (x & Ex & Hx). pose proof (filter_shorter (fun x : string * Z => x.2 <> f) (funcs e) x Hx). naive_solver lia.
Qed.

Lemma removeEach_weight {A} (rm : A -> engine -> option engine) l e e' :
  (forall x e e', rm x e = Some e' -> (weight e' <= weight e)%nat) -> removeEach rm l e = Some e' -> (weight e' <= weight e)%nat.
Proof.
  intros Hrm. revert e. induction l as [|x l IH]; intros e; cbn; [by intros [= <-]|].
  destruct (rm x e) as [e1|] eqn:E; [|done]. intros H%IH. apply Hrm in E. lia.
Qed.

Lemma unlisted_weight e a : (weight (set_consumers (serase a (consumers e)) (set_signals (filter (fun x => x <> a) (signals e)) e)) <= weight e)%nat /\
  (a ∈ signals e -> (weight (set_consumers (serase a (consumers e)) (set_signals (filter (fun x => x <> a) (signals e)) e)) < weight e)%nat).
Proof.
  unfold weight. cbn. pose proof (length_filter_le (fun x => x <> a) (signals e)). split; [lia|].
  intros Ha. pose proof (filter_shorter (fun x => x <> a) (signals e) a Ha). naive_solver lia.
Qed.

Lemma removeDependent_weight b a e : weight (removeDependent b a e) = weight e.
Proof. unfold removeDependent. by destruct (heap e !! b). Qed.

Lemma removal_weight fuel :
  (forall a force e e', removeSignal fuel a force e = Some e' -> (weight e' <= weight e)%nat) /\
  (forall f e e', removeFunc fuel f e = Some e' -> (weight e' <= weight e)%nat).
Proof.
  induction fuel as [|fuel [IHs IHf]]; [by split|]. split.
  - intros a force e e'. cbn [removeSignal].
    destruct (used a e && negb force); [by intros [= <-]|]. case_bool_decide; [by intros [= <-]|].
    destruct (force && bool_decide (producers a e <> [])).
    { destruct (existsb _ _); [by intros [= <-]|]. by apply removeEach_weight. }
    case_bool_decide; [|by intros [= <-]]. pose proof (proj1 (unlisted_weight e a)) as H1.
    set (e1 := set_consumers _ _) in *. intros Hr. clearbody e1.
    destruct (match heap e1 !! a with Some s => _ | None => _ end) as [e2|] eqn:E2; [|done].
    assert (weight e2 <= weight e1)%nat as H2.
    { destruct (heap e1 !! a) as [s|]; [|by injection E2 as <-]. destruct (baseOf a e1) as [b|]; [|by injection E2 as <-].
      destruct (isDerived s); [|by injection E2 as <-]. rewrite <- (removeDependent_weight b a e1).
      destruct (_ && _); [by eapply IHs|by injection E2 as <-]. }
    destruct (removeEach _ _ _) as [e3|] eqn:E3; [|done]. injection Hr as <-.
    apply removeEach_weight in E3; [|done]. change (weight (strip a e2)) with (weight e2) in E3. change (weight (set_modified true e3)) with (weight e3). lia.
  - intros f e e'. cbn [removeFunc]. destruct (nodes e !! f) as [n|]; [|by intros [= <-]].
    pose proof (proj1 (erase_func_weight f n e)) as H1.
    destruct (removeEach _ (map p_signal _) _) as [e2|] eqn:E2; [|done].
    destruct (removeEach _ (n_outputs n) _) as [e3|] eqn:E3; [|done]. intros [= <-].
    apply removeEach_weight in E2; [|intros a x y; apply IHs]. apply removeEach_weight in E3; [|intros a x y; apply IHs].
    change (weight (set_modified true e3)) with (weight e3). change (weight (forget_consumer f (erase_func f n e))) with (weight (erase_func f n e)) in E2. lia.
Qed.

Lemma removeEach_ends {A} (rm : A -> engine -> option engine) (w : nat) l : forall e,
  (forall x e e', rm x e = Some e' -> (weight e' <= weight e)%nat) ->
  (weight e <= w)%nat -> (forall x e, x ∈ l -> (weight e <= w)%nat -> exists e', rm x e = Some e') ->
  exists e', removeEach rm l e = Some e'.
Proof.
  induction l as [|x l IH]; intros e Hrm Hw Hx; cbn; [by exists e|].
  destruct (Hx x e) as [e1 E1]; [by left|done|]. rewrite E1. apply IH; [done| |].
  - apply Hrm in E1. lia.
  - intros y e2 Hy. apply Hx. by right.
Qed.

Lemma removeFunc_registered fuel f e e' : removeFunc fuel f e = Some e' -> f ∈ (funcs e).*2 -> e' = e \/ (weight e' < weight e)%nat.
Proof.
  destruct fuel as [|fuel]; [done|]. cbn [removeFunc]. destruct (nodes e !! f) as [n|]; [|intros [= <-]; by left].
  intros H Hf. right. apply (proj2 (erase_func_weight f n e)) in Hf.
  destruct (removeEach _ (map p_signal _) _) as [e2|] eqn:E2; [|done].
  destruct (removeEach _ (n_outputs n) _) as [e3|] eqn:E3; [|done]. injection H as <-.
  apply removeEach_weight in E2; [|intros a x y; apply removal_weight]. apply removeEach_weight in E3; [|intros a x y; apply removal_weight].
  change (weight (set_modified true e3)) with (weight e3). change (weight (forget_consumer f (erase_func f n e))) with (weight (erase_func f n e)) in E2. lia.
Qed.

(** The functions of [l] are registered, or something has gone already. *)
Lemma removeFuncs_end fuel w l : forall e,
  (forall f e, (func_fuel e f <= fuel)%nat -> exists e', removeFunc fuel f e = Some e') -> (2 * w <= fuel)%nat ->
  ((forall f, f ∈ l -> f ∈ (funcs e).*2) /\ (weight e <= w)%nat) \/ (weight e < w)%nat ->
  exists e', removeEach (removeFunc fuel) l e = Some e'.
Proof.
  induction l as [|f l IH]; intros e Hf Hw Hl; cbn [removeEach]; [by exists e|].
  destruct (Hf f e) as [e1 E1].
  { unfold func_fuel. case_decide as Hin; [lia|]. destruct Hl as [[Hl _]|?]; [|lia]. by destruct Hin; apply Hl; left. }
  rewrite E1. apply IH; [done|done|]. pose proof (proj2 (removal_weight fuel) f e e1 E1).
  destruct Hl as [[Hl Hle]|?]; [|right; lia].
  destruct (removeFunc_registered fuel f e e1 E1) as [->|?]; [apply Hl; by left|left|right; lia].
  split; [|done]. intros g Hg. apply Hl. by right.
Qed.

Lemma registered_weight e f : f ∈ (funcs e).*2 -> (1 <= weight e)%nat.
Proof. unfold weight. destruct (funcs e); [by intros ?%elem_of_nil|]. cbn. lia. Qed.

Lemma removal_ends_fuel : forall fuel,
  (forall a force e, (2 * weight e + 1 <= fuel)%nat -> exists e', removeSignal fuel a force e = Some e') /\
  (forall f e, (func_fuel e f <= fuel)%nat -> exists e', removeFunc fuel f e = Some e').
Proof.
  induction fuel as [|fuel [IHs IHf]].
  { split; [intros; lia|]. intros f e. unfold func_fuel. case_decide as Hf; [apply registered_weight in Hf|]; lia. }
  split.
  - intros a force e Hfuel. cbn [removeSignal].
    destruct (used a e && negb force); [by eexists|]. case_bool_decide; [by eexists|].
    destruct (force && bool_decide (producers a e <> [])).
    { destruct (existsb _ _); [by eexists|]. apply (removeFuncs_end fuel (weight e)); [done|lia|]. left. split; [|done].
      intros f Hf. apply func_nodes_fst. unfold producers in Hf. apply list_elem_of_fmap in Hf as (x & -> & [_ Hx]%list_elem_of_filter).
      by apply list_elem_of_fmap_2. }
    case_bool_decide as Ha; [|by eexists]. apply (proj2 (unlisted_weight e a)) in Ha.
    set (e1 := set_consumers _ _) in *. clearbody e1.
    assert (exists e2, (match heap e1 !! a, baseOf a e1 with
          | Some s, Some b =>
              if isDerived s then
                let e := removeDependent b a e1 in
                if bool_decide (dependents_of b e = []) && orphaned b e then removeSignal fuel b true e else Some e
              else Some e1
          | _, _ => Some e1 end) = Some e2 /\ (weight e2 <= weight e1)%nat) as (e2 & E2 & H2).
    { destruct (heap e1 !! a) as [s|]; [|by eexists]. destruct (baseOf a e1) as [b|]; [|by eexists]. destruct (isDerived s); [|by eexists].
      cbn zeta. pose proof (removeDependent_weight b a e1). destruct (_ && _); [|eexists; split; [done|lia]].
      destruct (IHs b true (removeDependent b a e1)) as [e2 E2]; [lia|]. exists e2. split; [done|].
      apply (proj1 (removal_weight fuel)) in E2. lia. }
    cbn zeta in E2. rewrite E2.
    destruct (removeFuncs_end fuel (weight e) (without_outputs (strip a e2)) (strip a e2)) as [e3 ->]; [done|lia| |by eexists].
    right. change (weight (strip a e2)) with (weight e2). lia.
  - intros f e Hfuel. cbn [removeFunc]. destruct (nodes e !! f) as [n|]; [|by eexists].
    assert (2 * weight (erase_func f n e) + 1 <= fuel)%nat as Hw.
    { unfold func_fuel in Hfuel. destruct (erase_func_weight f n e) as [H1 H2]. case_decide as Hf; [specialize (H2 Hf)|]; lia. }
    set (e1 := forget_consumer f (erase_func f n e)). change (weight (erase_func f n e)) with (weight e1) in Hw. clearbody e1.
    assert (forall x y z, (fun a e => removeSignal fuel a (orphaned a e) e) x y = Some z -> (weight z <= weight y)%nat) as Hmono
      by (intros x y z; apply removal_weight).
    destruct (removeEach_ends (fun a e => removeSignal fuel a (orphaned a e) e) (weight e1) (map p_signal (n_inputs n)) e1 Hmono) as [e2 E2];
      [done|intros x y _ Hy; apply IHs; lia|].
    rewrite E2. apply removeEach_weight in E2; [|done].
    destruct (removeEach_ends (fun a e => removeSignal fuel a (orphaned a e) e) (weight e1) (n_outputs n) e2 Hmono) as [e3 E3];
      [done|intros x y _ Hy; apply IHs; lia|].
    rewrite E3. by eexists.
Qed.

Lemma removal_ends e : (forall a force, exists e', removeSignal (removal_fuel e) a force e = Some e') /\
  forall f, exists e', removeFunc (removal_fuel e) f e = Some e'.
Proof.
  destruct (removal_ends_fuel (removal_fuel e)) as [Hs Hf]. unfold removal_fuel in *. fold (weight e) in *. split.
  - intros a force. apply Hs. lia.
  - intros f. apply Hf. unfold func_fuel. case_decide; lia.
Qed.

Lemma drop_ends a e : exists e', drop_wrapper a e = Some e'.
Proof.
  unfold drop_wrapper. destruct (unregisterSignalWrapper a e) as [e1 r]. destruct (_ && _); [|by eexists].
  apply (proj1 (removal_ends e1)).
Qed.

(** ** Samples *)

Lemma store_some veq t v s : values s <> [] -> exists s' b, store veq t v s = Ret (s', b) /\ calmer s s'.
Proof.
  intros Hv. assert (exists r, store veq t v s = Ret r) as [[s' b] E]; [|exists s', b; split; [done|by eapply store_view]].
  unfold store. destruct (last (values s)) as [[newest w]|] eqn:El; [|by apply last_None in El].
  destruct (lastValueBefore_some t s Hv) as [before Eb]. rewrite Eb. cbn [obind].
  destruct (veq before v); [by eexists|]. cbn [suppressInitial set_values]. destruct (suppressInitial s); by eexists.
Qed.

Lemma thinner_size e e' : thinner e e' -> size (heap e') = size (heap e).
Proof.
  intros Ht. rewrite <- !(size_dom (D := gset Z)). f_equal. apply leibniz_equiv. intros a.
  rewrite !elem_of_dom. apply (th_live _ _ Ht).
Qed.

(** A zero-delay dependent of [a] that exists is fed by it. *)
Lemma dependent_edge e a d sd : tidy e -> d ∈ dependents_of a e -> heap e !! d = Some sd -> baseIndex sd = 0 -> zedge e a d.
Proof.
  intros Hi Hd Hsd Hb. unfold dependents_of in Hd. destruct (heap e !! a) as [s|] eqn:Ea; [|by apply elem_of_nil in Hd].
  apply list_elem_of_filter in Hd as [_ Hd]. destruct (Hi a s Ea) as (_ & _ & H). destruct (H d sd Hd Hsd) as [H1 H2].
  apply zedge_iff. left. exists sd. unfold zeroDelayDerived. rewrite H1, Hb. split_and!; [done|done|done|by exists s].
Qed.

Record sound (e : engine) : Prop := { so_acyclic : acyclic e; so_tidy : tidy e }.

Lemma thinner_sound e e' : thinner e e' -> sound e -> sound e'.
Proof. intros Ht [Ha Hi]. split; [by eapply thinner_acyclic|by eapply thinner_tidy]. Qed.

Section Samples.
Context (veq : Z -> Z -> bool) (snap : Z -> Z) (e0 : engine) (He0 : sound e0).

(** The signals of [u] are on the way down to [a]. *)
Definition below (u : gset Z) (a : Z) : Prop :=
  is_Some (heap e0 !! a) /\ forall x, x ∈ u -> is_Some (heap e0 !! x) /\ tc (zedge e0) x a.

Lemma below_next u a d : below u a -> zedge e0 a d -> is_Some (heap e0 !! d) -> below ({[a]} ∪ u) d /\ a ∉ u.
Proof.
  intros [Ha Hu] Had Hd. split; [split; [done|]|].
  - intros x [->%elem_of_singleton|Hx]%elem_of_union; [by split; [|apply tc_once]|].
    destruct (Hu x Hx) as [? ?]. split; [done|by eapply tc_r].
  - intros Hau. destruct (Hu a Hau) as [_ Hc]. by apply (so_acyclic _ He0 a).
Qed.

Lemma below_size u a : below u a -> (size u < size (heap e0))%nat.
Proof.
  intros [Ha Hu]. assert (a ∉ u) as Hau by (intros Hau; destruct (Hu a Hau) as [_ Hc]; by apply (so_acyclic _ He0 a)).
  assert (size ({[a]} ∪ u) <= size (heap e0))%nat as H.
  { apply visited_size. intros x [->%elem_of_singleton|Hx]%elem_of_union; [done|by apply Hu]. }
  rewrite size_union, size_singleton in H by set_solver. lia.
Qed.

(** Pushing to each dependent, when storing in each ends. *)
Lemma pushes_end fuel t v a ev : forall l e,
  thinner e0 e -> (forall d sd, d ∈ l -> heap e !! d = Some sd -> baseIndex sd = 0 -> zedge e0 a d) ->
  (forall d e, thinner e0 e -> zedge e0 a d -> is_Some (heap e0 !! d) -> exists e', setValueAt veq snap fuel t v d e = Ret e') ->
  exists e', fold_left (fun r d => let! e := r in
        match heap e !! d with
        | Some sd => if baseIndex sd =? 0 then let! e := setValueAt veq snap fuel t v d e in
              Ret (if ev : bool then e else updateSignalConsumerInputAvailability d t e) else Ret e
        | None => Ret e end) l (Ret e) = Ret e' /\ thinner e0 e'.
Proof.
  induction l as [|d l IH]; intros e Ht Hd Hset; cbn [fold_left obind]; [by exists e|].
  assert (forall e', thinner e e' -> forall c sc, c ∈ l -> heap e' !! c = Some sc -> baseIndex sc = 0 -> zedge e0 a c) as Hd'.
  { intros e' Ht' c sc Hc Hsc Hb. destruct (th_signal _ _ Ht' c sc Hsc) as (s & Hs & [_ _ [_ Hi] _ _]).
    apply (Hd c s); [by right|done|congruence]. }
  destruct (heap e !! d) as [sd|] eqn:Ed; [|by apply IH; [|apply (Hd' e)|]].
  destruct (Z.eqb_spec (baseIndex sd) 0) as [Hb|]; [|by apply IH; [|apply (Hd' e)|]].
  destruct (Hset d e Ht) as [e1 E1]; [by apply (Hd d sd); [left|..]|by apply (th_live _ _ Ht); exists sd|].
  rewrite E1. cbn [obind]. set (e2 := if ev then e1 else _).
  assert (thinner e e2) as H2.
  { etrans; [by eapply thinner_setValueAt|]. unfold e2. destruct ev; [done|apply thinner_availability]. }
  apply IH; [by etrans|by apply Hd'|done].
Qed.

Lemma samples_end_fuel : forall n t a e u fuel,
  thinner e0 e -> below u a -> (size (heap e0) <= n + size u)%nat -> (2 * n <= fuel)%nat ->
  (forall v, exists e', publish veq snap fuel t v a e = Ret e') /\
  (forall v, exists e', setValueAt veq snap (S fuel) t v a e = Ret e').
Proof.
  induction n as [|n IH]; intros t a e u fuel Ht Hu Hsize Hfuel.
  { pose proof (below_size u a Hu). lia. }
  assert (forall e, thinner e0 e -> forall v, exists e', publish veq snap fuel t v a e = Ret e') as Hpub.
  { clear e Ht. intros e Ht v. destruct fuel as [|fuel]; [lia|]. cbn [publish].
    destruct (proj2 (th_live _ _ Ht a) (proj1 Hu)) as [s Ha]. rewrite Ha.
    destruct (pushes_end fuel t v a (eventDriven s) (dependents_of a e) e Ht) as (e1 & E1 & _).
    - intros d sd Hd Hsd Hb. apply (thinner_zedge e0 e); [done|]. apply (dependent_edge e a d sd); [|done..].
      by apply (thinner_tidy e0 e), He0.
    - intros d e1 Ht1 Had Hld. destruct (below_next u a d Hu Had Hld) as [Hbd Hau].
      destruct fuel as [|fuel]; [lia|]. apply (IH t d e1 ({[a]} ∪ u) fuel Ht1 Hbd); [|lia]. rewrite size_union, size_singleton by set_solver. lia.
    - match type of E1 with ?x = _ => match goal with |- context [fold_left ?f ?l ?r] => change (fold_left f l r) with x end end.
      rewrite E1. cbn [obind]. destruct (eventDriven s); by eexists. }
  split; [by apply Hpub|]. intros v. cbn [setValueAt].
  destruct (proj2 (th_live _ _ Ht a) (proj1 Hu)) as [s Ha]. rewrite Ha.
  assert (values s <> []) as Hv by (apply (thinner_tidy _ _ Ht (so_tidy _ He0) a s Ha)).
  destruct (store_some veq t (snap v) s Hv) as (s' & b & -> & Hc). cbn [obind]. apply Hpub.
  etrans; [exact Ht|]. by apply (thinner_put e a s).
Qed.

Lemma below_none a : is_Some (heap e0 !! a) -> below ∅ a.
Proof. intros Ha. split; [done|]. set_solver. Qed.

Lemma setValueAt_ends e t v a : thinner e0 e -> is_Some (heap e0 !! a) -> exists e', setValueAt veq snap (sample_fuel e) t v a e = Ret e'.
Proof.
  intros Ht Ha. unfold sample_fuel. rewrite (thinner_size _ _ Ht).
  replace (2 * size (heap e0) + 2)%nat with (S (2 * size (heap e0) + 1)) by lia.
  apply (samples_end_fuel (size (heap e0)) t a e ∅); [done|by apply below_none|rewrite size_empty; lia|lia].
Qed.

Lemma tick_ends e t a : thinner e0 e -> is_Some (heap e0 !! a) -> exists e', tick veq snap (sample_fuel e) t a e = Ret e'.
Proof.
  intros Ht Ha. unfold tick. destruct (proj2 (th_live _ _ Ht a) Ha) as [s Hs]. rewrite Hs. destruct (isClock s); [|by eexists].
  assert (values s <> []) as Hv by (apply (thinner_tidy _ _ Ht (so_tidy _ He0) a s Hs)).
  assert (exists r, clock_tick s = Ret r) as [[s' v] Ec].
  { unfold clock_tick. destruct (running s || tickPending s); [by eexists|]. unfold lastValue.
    destruct (last (values s)) as [x|] eqn:El; [by eexists|by apply last_None in El]. }
  rewrite Ec. cbn [obind]. apply clock_tick_view in Ec. pose proof (thinner_put e a s s' Hs Ec) as Hp.
  replace (sample_fuel e) with (sample_fuel (put a s' e)) by (unfold sample_fuel; by rewrite (thinner_size _ _ Hp)).
  apply setValueAt_ends; [by etrans|done].
Qed.

Lemma tick_sources_end t l : forall e, thinner e0 e -> (forall a, a ∈ l -> is_Some (heap e0 !! a)) ->
  exists e', tick_sources veq snap t l e = Ret e'.
Proof.
  induction l as [|a l IH]; intros e Ht Hl; cbn [tick_sources]; [by eexists|].
  assert (forall b, b ∈ l -> is_Some (heap e0 !! b)) as Hl' by (intros b Hb; apply Hl; by right).
  destruct (due e t a); [|by apply IH]. destruct (tick_ends e t a Ht) as [e1 E1]; [apply Hl; by left|].
  rewrite E1. cbn [obind]. apply IH; [|done]. etrans; [exact Ht|]. etrans; [eapply thinner_tick, E1|]. apply thinner_availability.
Qed.
End Samples.

Lemma copyInto_defined veq snap lhs rhs e : ok e -> copyInto veq snap lhs rhs e <> UB.
Proof.
  intros Hok. unfold copyInto. destruct (heap e !! lhs) as [l|] eqn:El; [|done]. destruct (heap e !! rhs) as [r|] eqn:Er; [|done].
  destruct (lhs =? rhs); [done|]. destruct (negb (d_eq _ _)); [done|]. destruct (isSource l) eqn:Hsrc; [|done]. cbn [negb].
  destruct (match (if isDerived r then baseOf rhs e else None) with Some b => _ | None => _ end) as [base index] eqn:Eb.
  apply wire_base in Eb as [b Hb]; [|done]. destruct (Z.eqb_spec base lhs) as [|Hne]; [done|].
  set (targets := list_to_set _). assert (lhs ∈ targets) as Hin by (unfold targets; set_solver).
  fold (wire_check e base index targets). destruct (wire_check e base index targets) as [[|]|] eqn:Ec; [done| |].
  2:{ unfold wire_check in Ec. destruct (index =? 0); [|done].
      destruct (reaches_upstream e base targets (ok_wf _ Hok)) as (c & Ec' & _); [by exists b|]. congruence. }
  destruct (ok_checked e lhs base index l b targets Hok El Hsrc Hb Hne Hin Ec) as [_ Ha Hi _].
  set (e1 := deriveFrom lhs base index e) in *.
  assert (is_Some (heap e1 !! lhs)) as [l1 El1].
  { unfold e1, deriveFrom. rewrite El, Hb. unfold addDependent. cbn. rewrite lookup_insert_eq. cbn.
    rewrite !lookup_insert_ne, lookup_insert_eq by done. by eexists. }
  clearbody e1. destruct (existsb _ _) eqn:Eseed; cbn [obind]; [|done].
  destruct (last (values r)) as [[t v]|] eqn:Elast; [|apply last_None in Elast; by rewrite Elast in Eseed].
  unfold lastValue. destruct (last (values l)) as [x|]; [|done]. rewrite El1.
  assert (thinner e1 (put lhs (set_values (values r) l1) e1)) as Hp.
  { apply (thinner_put e1 lhs l1); [done|]. split; try done. intros _ Hnil. cbn in Hnil. by rewrite Hnil in Elast. }
  destruct (samples_end_fuel veq snap e1 (Build_sound _ Ha Hi) (size (heap e1)) t lhs (put lhs (set_values (values r) l1) e1) ∅ (sample_fuel e1))
    as [Hpub _]; [done|apply (below_none e1 (Build_sound _ Ha Hi) lhs); rewrite El1; by eexists|rewrite size_empty; lia|unfold sample_fuel; lia|].
  destruct (Hpub v) as [e2 ->]. done.
Qed.

End DataflowEnds.
