(* ===== verification/DataflowIslands.v ===== *)
(** * DataflowIslands: the breadth-first split of the network
      (DataflowEngine::computeNetworkIslands, buildSignalConsumers)

    [explored] is the invariant of one island's queues, [islanded] that of the islands
    found so far.  Both are over [nbr], the neighbours the code enqueues; [adjacent] is
    the same relation in the network's own terms. *)

From S2P Require Import Prelude SortedMap Value Signals Dataflow DataflowWires.
From stdpp Require Import numbers pretty.

Module DataflowIslands.

Import Signals Dataflow DataflowWires.
Local Open Scope Z_scope.

(** ** Islands *)

(** Signals and functions together. *)
Definition thing (e : engine) (x : Z + Z) : Prop :=
  match x with inl a => is_Some (heap e !! a) | inr f => exists n, registered e f n end.

Definition nbr (e : engine) (x y : Z + Z) : Prop :=
  match x, y with
  | inl a, inl b => b ∈ signal_neighbours_s e a
  | inl a, inr f => f ∈ signal_neighbours_f e a
  | inr f, inl a => thing e (inr f) /\ a ∈ func_neighbours e f
  | inr _, inr _ => False
  end.

Definition in_seen (v : seen) (x : Z + Z) : Prop :=
  match x with inl a => a ∈ v_signals v | inr f => f ∈ v_funcs v end.
Definition in_island (i : island) (x : Z + Z) : Prop :=
  match x with inl a => a ∈ i_signals i | inr f => f ∈ i_funcs i end.
Definition queued (sq fq : list Z) (x : Z + Z) : Prop :=
  match x with inl a => a ∈ sq | inr f => f ∈ fq end.

Section Islands.
Context (e : engine) (Hthing : forall x y, thing e x -> nbr e x y -> thing e y).

(** An island in the making: [v0] is what the islands before it took. *)
Record explored (v0 : seen) (start : Z + Z) (v : seen) (i : island) (sq fq : list Z) : Prop := {
  ex_thing : forall x, in_seen v x \/ queued sq fq x -> thing e x;
  ex_seen : forall x, in_seen v x <-> in_seen v0 x \/ in_island i x;
  ex_new : forall x, in_island i x -> ~ in_seen v0 x;
  ex_from : forall x, in_island i x \/ queued sq fq x -> rtc (nbr e) start x;
  ex_nodup : NoDup (i_signals i) /\ NoDup (i_funcs i);
  ex_closed : forall x y, in_seen v x -> nbr e x y -> in_seen v y \/ queued sq fq y;
  ex_start : in_seen v start \/ queued sq fq start;
}.

Lemma explored_step v0 start v i sq fq x v' i' sq' fq' :
  explored v0 start v i sq fq -> queued sq fq x -> ~ in_seen v x ->
  (forall y, in_seen v' y <-> in_seen v y \/ y = x) -> (forall y, in_island i' y <-> in_island i y \/ y = x) ->
  NoDup (i_signals i') /\ NoDup (i_funcs i') ->
  (forall y, queued sq' fq' y -> queued sq fq y \/ nbr e x y) ->
  (forall y, queued sq fq y -> y = x \/ in_seen v y \/ queued sq' fq' y) ->
  (forall y, nbr e x y -> in_seen v' y \/ queued sq' fq' y) ->
  explored v0 start v' i' sq' fq'.
Proof.
  intros [Ht Hs Hn Hf _ Hc Hst] Hx Hxv Hv Hi Hnd Hq1 Hq2 Hq3. split.
  - intros y [[Hy| ->]%Hv|Hy]; [apply Ht; by left|apply Ht; by right|].
    destruct (Hq1 y Hy) as [Hq|Hxy]; [apply Ht; by right|]. apply (Hthing x); [apply Ht; by right|done].
  - intros y. rewrite Hv, Hi, Hs. tauto.
  - intros y [Hy| ->]%Hi; [by apply Hn|]. intros H0. apply Hxv, Hs. by left.
  - intros y [[Hy| ->]%Hi|Hy]; [apply Hf; by left|apply Hf; by right|].
    destruct (Hq1 y Hy) as [Hq|Hxy]; [apply Hf; by right|]. eapply rtc_r; [apply Hf; by right|done].
  - done.
  - intros y z [Hy| ->]%Hv Hyz; [|by apply Hq3]. rewrite Hv.
    destruct (Hc y z Hy Hyz) as [?|Hq]; [tauto|]. destruct (Hq2 z Hq); tauto.
  - rewrite Hv. destruct Hst as [?|Hq]; [tauto|]. destruct (Hq2 start Hq); tauto.
Qed.

Lemma seen_size v : (forall x, in_seen v x -> thing e x) ->
  (size (v_signals v) <= size (heap e) /\ size (v_funcs v) <= size (nodes e))%nat.
Proof.
  intros Hv. split.
  - apply visited_size. intros a Ha. by apply (Hv (inl a)).
  - rewrite <- (size_dom (D := gset Z) (nodes e)). apply subseteq_size. intros f Hf.
    destruct (Hv (inr f) Hf) as (n & _ & Hn). apply elem_of_dom. by exists n.
Qed.

Lemma processQueues_spec v0 start : forall fuel v i sq fq,
  explored v0 start v i sq fq -> (size (heap e) + size (nodes e) < fuel + size (v_signals v) + size (v_funcs v))%nat ->
  exists v' i', processQueues fuel e v i sq fq = Some (v', i') /\ explored v0 start v' i' [] [].
Proof.
  induction fuel as [|fuel IH]; intros v i sq fq Hex Hfuel.
  { destruct (seen_size v) as [H1 H2]; [intros x Hx; apply (ex_thing _ _ _ _ _ _ Hex); by left|]. lia. }
  cbn. pose proof (unvisited_spec (v_signals v) sq) as Hus. destruct (unvisited (v_signals v) sq) as [|a sq'].
  - pose proof (unvisited_spec (v_funcs v) fq) as Huf. destruct (unvisited (v_funcs v) fq) as [|f fq'].
    + exists v, i. split; [done|]. destruct Hex as [Ht Hs Hn Hf Hnd Hc Hst].
      assert (forall y, queued sq fq y -> in_seen v y) as Hq by (intros [a|f]; [apply Hus|apply Huf]).
      assert (forall y, queued [] [] y -> False) as He by (intros [a|f]; cbn; set_solver).
      split; try done.
      * intros x [Hx|Hx]; [apply Ht; by left|by apply He in Hx].
      * intros x [Hx|Hx]; [apply Hf; by left|by apply He in Hx].
      * intros x y Hx Hxy. left. destruct (Hc x y Hx Hxy); [done|by apply Hq].
      * left. destruct Hst; [done|by apply Hq].
    + destruct Huf as (Hfv & Hin & Hall & Hsub). apply IH.
      * apply (explored_step v0 start v i sq fq (inr f)); try done.
        -- intros [b|g]; cbn; [split; [by left|by intros [?|[=]]]|].
           rewrite elem_of_union, elem_of_singleton. split; [intros [->|?]; [by right|by left]|intros [?|[= ->]]; [by right|by left]].
        -- intros [b|g]; cbn; [split; [by left|by intros [?|[=]]]|].
           rewrite elem_of_app, list_elem_of_singleton. split; [intros [?| ->]; [by left|by right]|intros [?|[= ->]]; [by left|by right]].
        -- cbn. destruct (ex_nodup _ _ _ _ _ _ Hex) as [H1 H2]. split; [done|]. apply NoDup_app. split_and!; [done| |apply NoDup_singleton].
           intros y Hy ->%list_elem_of_singleton. apply Hfv. apply (ex_seen _ _ _ _ _ _ Hex (inr f)). by right.
        -- intros [b|g]; cbn; [|intros Hg; left; by apply Hsub]. intros [_ Hb]%list_elem_of_filter. right. split; [|done].
           apply (ex_thing _ _ _ _ _ _ Hex (inr f)). by right.
        -- intros [b|g]; cbn; [intros Hb; right; left; by apply Hus|]. intros [?|[->|?]]%Hall; [right; by left|by left|right; by right].
        -- intros [b|g]; [|done]. cbn. intros [_ Hb]. destruct (decide (b ∈ v_signals v)); [by left|right]. by apply list_elem_of_filter.
      * cbn. rewrite size_union, size_singleton by set_solver. lia.
  - destruct Hus as (Hav & Hin & Hall & Hsub). apply IH.
    + apply (explored_step v0 start v i sq fq (inl a)); try done.
      * intros [b|g]; cbn; [|split; [by left|by intros [?|[=]]]].
        rewrite elem_of_union, elem_of_singleton. split; [intros [->|?]; [by right|by left]|intros [?|[= ->]]; [by right|by left]].
      * intros [b|g]; cbn; [|split; [by left|by intros [?|[=]]]].
        rewrite elem_of_app, list_elem_of_singleton. split; [intros [?| ->]; [by left|by right]|intros [?|[= ->]]; [by left|by right]].
      * cbn. destruct (ex_nodup _ _ _ _ _ _ Hex) as [H1 H2]. split; [|done]. apply NoDup_app. split_and!; [done| |apply NoDup_singleton].
        intros y Hy ->%list_elem_of_singleton. apply Hav. apply (ex_seen _ _ _ _ _ _ Hex (inl a)). by right.
      * intros [b|g]; cbn; intros [Hb|Hb]%elem_of_app; try (apply list_elem_of_filter in Hb as [_ Hb]; by right).
        -- left. by apply Hsub.
        -- by left.
      * intros [b|g]; cbn; rewrite elem_of_app; [|tauto]. intros [?|[->|?]]%Hall; [tauto|by left|tauto].
      * intros [b|g]; cbn; rewrite elem_of_app; intros Hb.
        -- destruct (decide (b ∈ ({[a]} ∪ v_signals v))); [by left|right; right]. by apply list_elem_of_filter.
        -- destruct (decide (g ∈ v_funcs v)); [by left|right; right]. by apply list_elem_of_filter.
    + cbn. rewrite size_union, size_singleton by set_solver. lia.
Qed.

(** The islands found so far. *)
Record islanded (v : seen) (acc : list island) : Prop := {
  il_thing : forall x, in_seen v x -> thing e x;
  il_seen : forall x, in_seen v x <-> exists i, i ∈ acc /\ in_island i x;
  il_closed : forall x y, in_seen v x -> nbr e x y -> in_seen v y;
  il_nodup : NoDup (mjoin (map i_signals acc)) /\ NoDup (mjoin (map i_funcs acc));
  il_component : Symmetric (nbr e) -> forall i x y, i ∈ acc -> in_island i x -> in_island i y <-> rtc (nbr e) x y;
}.

Lemma rtc_sym_nbr : Symmetric (nbr e) -> Symmetric (rtc (nbr e)).
Proof. intros Hs x y. induction 1 as [x|x y z Hxy _ IH]; [done|]. eapply rtc_r; [exact IH|by apply Hs]. Qed.

Lemma closed_rtc (P : Z + Z -> Prop) : (forall x y, P x -> nbr e x y -> P y) -> forall x y, rtc (nbr e) x y -> P x -> P y.
Proof. intros Hc x y. induction 1 as [x|x y z Hxy _ IH]; [done|]. intros Hx. apply IH. by eapply Hc. Qed.

Lemma in_join {A} (f : island -> list A) acc x : x ∈ mjoin (map f acc) <-> exists i, i ∈ acc /\ x ∈ f i.
Proof.
  rewrite list_elem_of_join. split.
  - intros (l & Hx & Hl). apply list_elem_of_fmap in Hl as (i & -> & Hi). by exists i.
  - intros (i & Hi & Hx). exists (f i). split; [done|]. by apply list_elem_of_fmap_2.
Qed.

Lemma NoDup_join_snoc {A} (f : island -> list A) acc i :
  NoDup (mjoin (map f acc)) -> NoDup (f i) -> (forall j x, j ∈ acc -> x ∈ f j -> x ∉ f i) -> NoDup (mjoin (map f (acc ++ [i]))).
Proof.
  intros H1 H2 H3. rewrite map_app. cbn. rewrite join_app. cbn. rewrite app_nil_r. apply NoDup_app. split_and!; [done| |done].
  intros x (j & Hj & Hx)%in_join. by eapply H3.
Qed.

Lemma islanded_snoc v acc start v' i : islanded v acc -> ~ in_seen v start -> explored v start v' i [] [] -> islanded v' (acc ++ [i]).
Proof.
  intros [It Is Ic [In1 In2] Ip] Hst Hex. assert (forall x, ~ queued [] [] x) as Hq by (intros [a|f]; cbn; set_solver).
  destruct Hex as [Ht Hs Hn Hf [Hd1 Hd2] Hc Hst'].
  assert (in_island i start) as Hsi by (destruct Hst' as [?%Hs|?%Hq]; tauto).
  split.
  - intros x Hx. apply Ht. by left.
  - intros x. rewrite Hs, Is. setoid_rewrite elem_of_app. setoid_rewrite list_elem_of_singleton. naive_solver.
  - intros x y Hx Hxy. by destruct (Hc x y Hx Hxy) as [?|?%Hq].
  - split; (apply NoDup_join_snoc; [done|done|]).
    + intros j a Hj Ha Hai. apply (Hn (inl a)); [done|]. apply Is. by exists j.
    + intros j a Hj Ha Hai. apply (Hn (inr a)); [done|]. apply Is. by exists j.
  - intros Hsym j x y [Hj| ->%list_elem_of_singleton]%elem_of_app Hx; [by apply Ip|].
    assert (forall z, in_island i z <-> rtc (nbr e) start z) as Hcomp.
    { intros z. split; [intros Hz; apply Hf; by left|]. intros Hz.
      assert (in_seen v' z) as Hv.
      { apply (closed_rtc (in_seen v')) with start; [|done|apply Hs; by right]. intros u w Hu Huw. by destruct (Hc u w Hu Huw) as [?|?%Hq]. }
      apply Hs in Hv as [Hv|?]; [|done]. exfalso. apply Hst.
      apply (closed_rtc (in_seen v) Ic z start); [by apply rtc_sym_nbr|done]. }
    rewrite Hcomp. apply Hcomp in Hx. split; intros Hy.
    + etrans; [apply rtc_sym_nbr; [done|exact Hx]|done].
    + by etrans.
Qed.

Lemma islands_from_spec : forall starts v acc,
  islanded v acc -> (forall x, x ∈ starts -> thing e x) ->
  exists isl v', islands_from e starts v acc = Some isl /\ islanded v' isl /\
    (forall x, x ∈ starts -> in_seen v' x) /\ (forall x, in_seen v x -> in_seen v' x).
Proof.
  induction starts as [|x starts IH]; intros v acc Hacc Hst.
  { exists acc, v. split_and!; [done|done| |done]. by intros x ?%elem_of_nil. }
  assert (exists sq fq skip, (match x with inl a => (bool_decide (a ∈ v_signals v), [a], []) | inr f => (bool_decide (f ∈ v_funcs v), [], [f]) end) = (skip, sq, fq)
    /\ (skip = true <-> in_seen v x) /\ (forall y, queued sq fq y <-> y = x)) as (sq & fq & skip & Ex & Hskip & Hq).
  { destruct x as [a|f]; do 3 eexists; (split; [reflexivity|]); rewrite bool_decide_eq_true; (split; [done|]); intros [b|g]; cbn;
      rewrite ?list_elem_of_singleton; split; try congruence; try done; by intros ?%elem_of_nil. }
  cbn [islands_from]. rewrite Ex. destruct skip.
  - destruct (IH v acc Hacc) as (isl & v' & E & H1 & H2 & H3); [intros y Hy; apply Hst; by right|].
    exists isl, v'. split_and!; try done. intros y [->|Hy]%elem_of_cons; [apply H3; by apply Hskip|by apply H2].
  - assert (~ in_seen v x) as Hx by (intros ?%Hskip; done). assert (explored v x v no_island sq fq) as Hex.
    { split.
      - intros y [Hy| ->%Hq]; [by apply (il_thing _ _ Hacc)|apply Hst; by left].
      - intros y. split; [by left|]. intros [?|Hy]; [done|]. destruct y; cbn in Hy; set_solver.
      - intros [a|f]; cbn; set_solver.
      - intros y [Hy| ->%Hq]; [destruct y; cbn in Hy; set_solver|done].
      - split; apply NoDup_nil_2.
      - intros y z Hy Hyz. left. by eapply il_closed.
      - right. by apply Hq. }
    destruct (processQueues_spec v x (island_fuel e) v no_island sq fq Hex) as (v1 & i & Ep & Hex1).
    { destruct (seen_size v (il_thing _ _ Hacc)). unfold island_fuel. lia. }
    rewrite Ep. destruct (IH v1 (acc ++ [i])) as (isl & v' & E & H1 & H2 & H3);
      [by eapply islanded_snoc|intros y Hy; apply Hst; by right|].
    exists isl, v'. split_and!; try done.
    + intros y [->|Hy]%elem_of_cons; [|by apply H2]. apply H3.
      destruct (ex_start _ _ _ _ _ _ Hex1) as [?|Hqq]; [done|]. destruct x; cbn in Hqq; set_solver.
    + intros y Hy. apply H3. apply (ex_seen _ _ _ _ _ _ Hex1). by left.
Qed.
End Islands.

(** ** What the rebuild's first pass leaves *)

Definition view (s : signal) : bool * option Z * list Z * Z := (isDerived s, baseSignal s, dependents s, period s).

Record same_links (e e' : engine) : Prop := {
  sl_view : forall a, view <$> heap e' !! a = view <$> heap e !! a;
  sl_nodes : nodes e' = nodes e;
  sl_funcs : funcs e' = funcs e;
  sl_signals : signals e' = signals e;
}.

#[global] Instance same_links_refl : Reflexive same_links.
Proof. by intros e. Qed.
#[global] Instance same_links_trans : Transitive same_links.
Proof. intros e1 e2 e3 [V1 N1 F1 S1] [V2 N2 F2 S2]. split; [intros a; by rewrite V2|congruence..]. Qed.

Definition port_of (e : engine) (f a : Z) : Prop :=
  exists n, registered e f n /\ ((exists p, p ∈ n_inputs n /\ p_signal p = a) \/ a ∈ n_outputs n).

Definition consuming (e : engine) (a : Z) : list Z := map fst (default [] (sfind a (consumers e))).

Lemma consume_links f e p : same_links e (consume f e p) /\
  forall a g, g ∈ consuming (consume f e p) a <-> g ∈ consuming e a \/ (g = f /\ a = p_signal p).
Proof.
  unfold consume. set (e1 := set_consumers _ e).
  assert (forall a g, g ∈ consuming e1 a <-> g ∈ consuming e a \/ (g = f /\ a = p_signal p)) as H1.
  { intros a g. unfold consuming, e1, push_consumer. cbn. destruct (decide (a = p_signal p)) as [->|Hne].
    - rewrite (sfind_sset_eq Z.le). cbn [from_option id]. rewrite map_app, elem_of_app. cbn. rewrite list_elem_of_singleton. tauto.
    - rewrite (sfind_sset_ne Z.le) by done. tauto. }
  cbn [heap e1 set_consumers]. destruct (heap e !! p_signal p) as [s|] eqn:Es; [|by split].
  split; [|done]. split; try done. intros a. cbn. destruct (decide (p_signal p = a)) as [<-|?];
    [by rewrite lookup_insert_eq, Es|by rewrite lookup_insert_ne].
Qed.

Lemma consume_all f ps e : same_links e (fold_left (consume f) ps e) /\
  forall a g, g ∈ consuming (fold_left (consume f) ps e) a <-> g ∈ consuming e a \/ (g = f /\ exists p, p ∈ ps /\ p_signal p = a).
Proof.
  revert e. induction ps as [|p ps IH]; intros e; cbn [fold_left].
  { split; [done|]. intros a g. split; [by left|]. intros [?|[_ (p & Hp & _)]]; [done|by apply elem_of_nil in Hp]. }
  destruct (consume_links f e p) as [L1 C1], (IH (consume f e p)) as [L2 C2]. split; [by etrans|].
  intros a g. rewrite C2, C1. setoid_rewrite elem_of_cons. naive_solver.
Qed.

Lemma build_consumers e : same_links e (buildSignalConsumers e) /\
  forall a g, g ∈ consuming (buildSignalConsumers e) a <-> exists n p, registered e g n /\ p ∈ n_inputs n /\ p_signal p = a.
Proof.
  unfold buildSignalConsumers.
  assert (forall l e0, same_links e0 (fold_left (fun e x => fold_left (consume x.1) (n_inputs x.2) e) l e0) /\
    forall a g, g ∈ consuming (fold_left (fun e (x : Z * node) => fold_left (consume x.1) (n_inputs x.2) e) l e0) a <->
      g ∈ consuming e0 a \/ exists n p, (g, n) ∈ l /\ p ∈ n_inputs n /\ p_signal p = a) as H.
  { induction l as [|[f n] l IH]; intros e0; cbn [fold_left].
    { split; [done|]. intros a g. split; [by left|]. intros [?|(n & p & Hn & _)]; [done|by apply elem_of_nil in Hn]. }
    cbn [fst snd]. destruct (consume_all f (n_inputs n) e0) as [L1 C1]. destruct (IH (fold_left (consume f) (n_inputs n) e0)) as [L2 C2].
    split; [by etrans|]. intros a g. rewrite C2, C1. setoid_rewrite elem_of_cons. split.
    - intros [[?|(-> & p & Hp & <-)]|(m & p & Hm & Hp)]; [by left|right; exists n, p; by split; [left|]|right; exists m, p; by split; [right|]].
    - intros [?|(m & p & [[= -> ->]|Hm] & Hp & Ha)]; [by left; left|left; right; split; [done|by exists p]|right; by exists m, p]. }
  destruct (H (func_nodes e) (set_consumers [] e)) as [L C]. split.
  - etrans; [|exact L]. by split.
  - intros a g. rewrite C. setoid_rewrite elem_func_nodes. cbn. split; [intros [Hnil|?]; [by apply elem_of_nil in Hnil|done]|by right].
Qed.

Lemma links_live e e' a : same_links e e' -> is_Some (heap e' !! a) <-> is_Some (heap e !! a).
Proof. intros [V _ _ _]. specialize (V a). destruct (heap e' !! a), (heap e !! a); try done; split; intros _; by eexists. Qed.

Lemma links_registered e e' f n : same_links e e' -> registered e' f n <-> registered e f n.
Proof. intros [_ N F _]. unfold registered. by rewrite N, F. Qed.

Lemma producers_spec e a f : f ∈ producers a e <-> exists n, registered e f n /\ a ∈ n_outputs n.
Proof.
  unfold producers. rewrite list_elem_of_fmap. split.
  - intros ([g n] & -> & [Ho Hn]%list_elem_of_filter). exists n. split; [by apply elem_func_nodes|]. by apply bool_decide_eq_true in Ho.
  - intros (n & Hr & Ho). exists (f, n). split; [done|]. apply list_elem_of_filter. split; [by apply bool_decide_eq_true|by apply elem_func_nodes].
Qed.

(** [a] is derived from the live [b]; and [b] knows it. *)
Definition derived_from (e : engine) (a b : Z) : Prop :=
  exists s, heap e !! a = Some s /\ isDerived s = true /\ baseSignal s = Some b /\ is_Some (heap e !! b).
Definition linked (e : engine) : Prop := forall a b, derived_from e a b <-> a ∈ dependents_of b e.

Lemma links_derived e e' a b : same_links e e' -> derived_from e' a b <-> derived_from e a b.
Proof.
  intros HL. unfold derived_from. setoid_rewrite (links_live e e' b HL). pose proof (sl_view _ _ HL a) as Hv. split; intros (s & Hs & H1 & H2 & H3);
    rewrite Hs in Hv; cbn in Hv; (destruct (heap _ !! a) as [s'|]; [|done]); cbn in Hv; injection Hv as E1 E2 E3 _;
    exists s'; split_and!; congruence || done.
Qed.

Lemma links_dependents e e' a : same_links e e' -> dependents_of a e' = dependents_of a e.
Proof.
  intros HL. unfold dependents_of. pose proof (sl_view _ _ HL a) as Hv.
  destruct (heap e' !! a) as [s'|], (heap e !! a) as [s|]; try done. cbn in Hv. injection Hv as _ _ -> _.
  apply list_filter_iff. intros d. rewrite !live_spec. by apply links_live.
Qed.

(** ** Islands are the connected parts *)

Inductive adjacent (e : engine) : Z + Z -> Z + Z -> Prop :=
| adj_port f a : port_of e f a -> adjacent e (inr f) (inl a)
| adj_derived a b : derived_from e a b -> adjacent e (inl a) (inl b).

Lemma neighbours_s e a b : b ∈ signal_neighbours_s e a <-> derived_from e a b \/ b ∈ dependents_of a e.
Proof.
  unfold signal_neighbours_s. destruct (heap e !! a) as [s|] eqn:Ea.
  2:{ unfold derived_from, dependents_of. rewrite Ea. split; [by intros ?%elem_of_nil|]. intros [(s & ? & _)|?%elem_of_nil]; done. }
  rewrite elem_of_app. f_equiv. unfold derived_from. rewrite Ea. destruct (isDerived s) eqn:Ed.
  - destruct (baseOf a e) as [c|] eqn:Ec.
    + apply baseOf_spec in Ec as (s' & E & Hb & Hl). assert (s' = s) as -> by congruence. rewrite list_elem_of_singleton.
      split; [intros ->; by exists s|intros (s' & [= <-] & _ & ? & _); congruence].
    + split; [by intros ?%elem_of_nil|]. intros (s' & [= <-] & _ & Hb & Hl).
      assert (baseOf a e = Some b) as H; [|congruence]. apply baseOf_spec. by exists s.
  - split; [by intros ?%elem_of_nil|]. intros (s' & [= <-] & ? & _). congruence.
Qed.

Lemma dependents_live e a b : b ∈ dependents_of a e -> is_Some (heap e !! b).
Proof. unfold dependents_of. destruct (heap e !! a); [|by intros ?%elem_of_nil]. intros [H _]%list_elem_of_filter. by apply live_spec. Qed.

Lemma func_neighbours_spec e f n a : nodes e !! f = Some n -> a ∈ func_neighbours e f <-> (exists p, p ∈ n_inputs n /\ p_signal p = a) \/ a ∈ n_outputs n.
Proof.
  intros Hn. unfold func_neighbours. rewrite Hn, elem_of_app. f_equiv. split.
  - intros (p & -> & Hp)%list_elem_of_fmap. by exists p.
  - intros (p & Hp & <-). by apply list_elem_of_fmap_2.
Qed.

Section Connected.
Context (e : engine) (Hw : wf e).
Notation e1 := (buildSignalConsumers e).

Lemma nbr_port a f : nbr e1 (inl a) (inr f) <-> port_of e f a.
Proof.
  destruct (build_consumers e) as [HL HC]. cbn. unfold signal_neighbours_f. rewrite elem_of_app. unfold port_of.
  fold (consuming e1 a). rewrite HC, producers_spec. setoid_rewrite (links_registered e _ _ _ HL). naive_solver.
Qed.

Lemma nbr_port_back a f : nbr e1 (inr f) (inl a) <-> port_of e f a.
Proof.
  destruct (build_consumers e) as [HL HC]. cbn. split.
  - intros [[n Hr] Ha]. rewrite (links_registered e) in Hr by done. exists n. split; [done|].
    by apply (func_neighbours_spec (buildSignalConsumers e) f n); [rewrite (sl_nodes _ _ HL); apply Hr|].
  - intros (n & Hr & Ha). split; [exists n; by apply (links_registered e)|].
    apply (func_neighbours_spec e1 f n); [rewrite (sl_nodes _ _ HL); apply Hr|done].
Qed.

Lemma nbr_derived a b : nbr e1 (inl a) (inl b) <-> derived_from e a b \/ b ∈ dependents_of a e.
Proof.
  destruct (build_consumers e) as [HL _]. cbn. rewrite neighbours_s.
  by rewrite (links_derived e) , (links_dependents e).
Qed.

Lemma nbr_things x y : thing e1 x -> nbr e1 x y -> thing e1 y.
Proof.
  destruct (build_consumers e) as [HL _]. intros Hx. destruct x as [a|f], y as [b|g]; try done.
  - intros [(s & _ & _ & _ & Hb)|Hb%dependents_live]%nbr_derived; by apply (links_live e).
  - intros (n & Hr & _)%nbr_port. exists n. by apply (links_registered e).
  - intros (n & Hr & [(p & Hp & <-)|Ho])%nbr_port_back; apply (links_live e); [done|by eapply wf_inputs|done|by eapply wf_outputs].
Qed.

Lemma nbr_adjacent : linked e -> forall x y, nbr e1 x y <-> sc (adjacent e) x y.
Proof.
  intros Hl x y. unfold sc. destruct x as [a|f], y as [b|g].
  - rewrite nbr_derived, <- (Hl b a). split; [intros [?|?]; [left|right]; by constructor|]. intros [H|H]; inversion H; auto.
  - rewrite nbr_port. split; [intros ?; right; by constructor|]. intros [H|H]; by inversion H.
  - rewrite nbr_port_back. split; [intros ?; left; by constructor|]. intros [H|H]; by inversion H.
  - split; [done|]. intros [H|H]; inversion H.
Qed.

Lemma islands_found : exists isl v, computeNetworkIslands e1 = Some isl /\ islanded e1 v isl /\
  (forall a, a ∈ signals e -> in_seen v (inl a)) /\ (forall f, f ∈ (funcs e).*2 -> in_seen v (inr f)).
Proof.
  destruct (build_consumers e) as [HL _]. unfold computeNetworkIslands.
  destruct (islands_from_spec e1 nbr_things (map inl (signals e1) ++ map inr (funcs e1).*2) (mkSeen ∅ ∅) []) as (isl & v & E & H1 & H2 & _).
  - split; try done.
    + intros [a|f]; cbn; set_solver.
    + intros x. split; [destruct x; cbn; set_solver|]. intros (i & Hi & _). by apply elem_of_nil in Hi.
    + intros x y. destruct x; cbn; set_solver.
    + split; apply NoDup_nil_2.
    + intros _ i x y Hi. by apply elem_of_nil in Hi.
  - intros x [Hx|Hx]%elem_of_app; apply list_elem_of_fmap in Hx as (a & -> & Ha); cbn.
    + apply (links_live e); [done|]. apply (wf_signals _ Hw).  by rewrite <- (sl_signals _ _ HL).
    +  rewrite (sl_funcs _ _ HL) in Ha. destruct (wf_funcs _ Hw a Ha) as [n Hn].
      exists n. apply (links_registered e); [done|by split].
  - exists isl, v. split_and!; [done|done| |]; intros a Ha; apply H2, elem_of_app; [left|right]; apply list_elem_of_fmap;
      exists a; (split; [done|]); [by rewrite (sl_signals _ _ HL)|by rewrite (sl_funcs _ _ HL)].
Qed.
End Connected.

End DataflowIslands.
