(* ===== verification/DataflowProofs.v ===== *)
(** * DataflowProofs: the rebuilt network is ordered, split in its connected parts and on
      an exact grid

    The first sections follow the rebuild: the dependency graph of a group, its order,
    the groups of an island, the periods.  [Network] states the properties of every
    engine a program can reach; a small network of two sources, two functions, a wire, a
    clock and its delay witnesses them.  The last lemmas are behaviours the comments do
    not promise. *)

From S2P Require Import Prelude SortedMap Value Signals Dataflow DataflowSort DataflowWires DataflowEnds DataflowIslands.
From stdpp Require Import numbers pretty.

Module DataflowProofs.

Import Signals Dataflow DataflowSort DataflowWires DataflowEnds DataflowIslands.
Local Open Scope Z_scope.

(** ** The functions' order *)

Lemma follow_wires e : acyclic e -> forall fuel a (v : gset Z),
  (forall x, x ∈ v -> is_Some (heap e !! x) /\ tc (zedge e) a x) -> (size (heap e) < fuel + size v)%nat ->
  exists src, zeroDelaySource fuel e a = Some src /\ rtc (zedge e) src a.
Proof.
  intros Hac. induction fuel as [|fuel IH]; intros a v Hv Hfuel.
  { pose proof (visited_size e v (fun x Hx => proj1 (Hv x Hx))). lia. }
  cbn. destruct (heap e !! a) as [s|] eqn:Ea; [|by exists a]. destruct (zeroDelayDerived s) eqn:Ez; [|by exists a].
  destruct (baseOf a e) as [b|] eqn:Eb; [|by exists a].
  assert (zedge e b a) as Hba.
  { apply zedge_iff. left. apply baseOf_spec in Eb as (s' & Hs & Hb & Hl). exists s'. split_and!; congruence || done. }
  assert (a ∉ v) as Hav by (intros [_ Hc]%Hv; by apply (Hac a)).
  destruct (IH b ({[a]} ∪ v)) as (src & E & Hr).
  - intros x [->%elem_of_singleton|Hx]%elem_of_union; [split; [by exists s|by apply tc_once]|].
    destruct (Hv x Hx) as [Hl Hc]. split; [done|by eapply tc_l].
  - rewrite size_union, size_singleton by set_solver. lia.
  - exists src. split; [done|]. eapply rtc_r; [exact Hr|done].
Qed.

(** What a signal carries within the tick is written at [src]. *)
Definition carries (e : engine) (src a : Z) : Prop := zeroDelaySource (S (size (heap e))) e a = Some src.

Lemma carries_from e a : acyclic e -> exists src, carries e src a /\ rtc (zedge e) src a.
Proof. intros Hac. apply (follow_wires e Hac _ _ ∅); [set_solver|rewrite size_empty; lia]. Qed.

(** [f] reads, within the tick, what [d] writes. *)
Definition feeds (e : engine) (d f : Z) : Prop :=
  d <> f /\ exists n m p src, nodes e !! f = Some n /\ nodes e !! d = Some m /\ p ∈ n_inputs n /\ p_index p = 0 /\
    carries e src (p_signal p) /\ src ∈ n_outputs m.

Lemma elem_insert_period p l x : x ∈ insert_period p l <-> x = p \/ x ∈ l.
Proof.
  unfold insert_period. rewrite (elem_sset_key Z.le). f_equiv. rewrite map_map. cbn. by rewrite map_id.
Qed.

Lemma fold_members {A} (h : list Z -> A -> list Z) (P : Z -> A -> Prop) l acc x :
  (forall acc a, x ∈ h acc a <-> x ∈ acc \/ P x a) -> x ∈ fold_left h l acc <-> x ∈ acc \/ exists a, a ∈ l /\ P x a.
Proof.
  intros Hh. revert acc. induction l as [|a l IH]; intros acc; cbn [fold_left].
  - split; [by left|]. intros [?|(a & Ha & _)]; [done|by apply elem_of_nil in Ha].
  - rewrite IH, Hh. setoid_rewrite elem_of_cons. naive_solver.
Qed.

Lemma dependencies_spec e group f : acyclic e ->
  exists l, dependencies e group f = Some l /\ forall d, d ∈ l <-> d ∈ group /\ feeds e d f.
Proof.
  intros Hac. unfold dependencies, feeds. destruct (nodes e !! f) as [n|] eqn:Ef.
  2:{ exists []. split; [done|]. intros d. split; [by intros ?%elem_of_nil|]. intros (_ & _ & ? & _ & _ & _ & [=] & _). }
  assert (forall ps l0, exists l, fold_left (fun r p =>
        match r, zeroDelaySource (S (size (heap e))) e (p_signal p) with
        | Some l, Some src =>
            Some (fold_left (fun l g =>
              if g =? f then l
              else match nodes e !! g with
                   | Some m => if has_output src m && (p_index p =? 0) then insert_dep g l else l
                   | None => l
                   end) group l)
        | _, _ => None
        end) ps (Some l0) = Some l /\
    forall d, d ∈ l <-> d ∈ l0 \/ (d ∈ group /\ d <> f /\ exists m p src, nodes e !! d = Some m /\ p ∈ ps /\ p_index p = 0 /\
      carries e src (p_signal p) /\ src ∈ n_outputs m)) as Hps.
  { induction ps as [|p ps IH]; intros l0; cbn [fold_left].
    { exists l0. split; [done|]. intros d. split; [by left|]. intros [?|(_ & _ & m & p & src & _ & Hp & _)]; [done|by apply elem_of_nil in Hp]. }
    destruct (carries_from e (p_signal p) Hac) as (src & Hsrc & _). unfold carries in Hsrc. rewrite Hsrc.
    set (l1 := fold_left _ group l0). destruct (IH l1) as (l & E & Hl). exists l. split; [done|]. intros d. rewrite Hl.
    assert (d ∈ l1 <-> d ∈ l0 \/ exists g, g ∈ group /\ (d = g /\ g <> f /\ p_index p = 0 /\ exists m, nodes e !! g = Some m /\ src ∈ n_outputs m)) as ->.
    { apply (fold_members _ (fun d g => d = g /\ g <> f /\ p_index p = 0 /\ exists m, nodes e !! g = Some m /\ src ∈ n_outputs m)).
      intros acc g. destruct (Z.eqb_spec g f) as [->|Hg]; [naive_solver|].
      destruct (nodes e !! g) as [m|] eqn:Eg; [|naive_solver]. unfold has_output. case_bool_decide; cbn; [|naive_solver].
      destruct (Z.eqb_spec (p_index p) 0); [|naive_solver]. unfold insert_dep. rewrite elem_insert_period. naive_solver. }
    setoid_rewrite elem_of_cons. split.
    - intros [[?|(g & Hg & -> & Hne & Hi & m & Hm & Ho)]|(Hd & Hne & m & q & s & Hm & Hq & H)].
      + by left.
      + right. split; [done|]. split; [done|]. exists m, p, src. split_and!; try done. by left.
      + right. split; [done|]. split; [done|]. exists m, q, s. split; [done|]. split; [by right|done].
    - intros [?|(Hd & Hne & m & q & s & Hm & [->|Hq] & Hi & Hc & Ho)].
      + by left; left.
      + left. right. exists d. split; [done|]. split_and!; try done. exists m. split; [done|].
        unfold carries in Hc. rewrite Hsrc in Hc. by injection Hc as ->.
      + right. split; [done|]. split; [done|]. by exists m, q, s. }
  destruct (Hps (n_inputs n) []) as (l & E & Hl). exists l. split; [done|]. intros d. rewrite Hl. split.
  - intros [?%elem_of_nil|(Hd & Hne & m & p & src & Hm & Hp & H)]; [done|]. split; [done|]. split; [done|]. by exists n, m, p, src.
  - intros (Hd & Hne & n' & m & p & src & [= <-] & Hm & Hp & H). right. split; [done|]. split; [done|]. by exists m, p, src.
Qed.

Lemma dependency_graph_spec e group : acyclic e -> forall fs g0, ascending Z.le g0 ->
  exists g, dependency_graph e group fs g0 = Some g /\ ascending Z.le g /\
    (forall f, f ∈ g.*1 <-> f ∈ g0.*1 \/ f ∈ fs) /\
    (forall f d, f ∈ fs -> depends g f d <-> d ∈ group /\ feeds e d f) /\
    (forall f d, f ∉ fs -> depends g f d <-> depends g0 f d).
Proof.
  intros Hac. induction fs as [|f fs IH]; intros g0 Hg0; cbn [dependency_graph].
  { exists g0. split_and!; try done; [intros f; rewrite elem_of_nil; tauto|]. by intros f d ?%elem_of_nil. }
  destruct (dependencies_spec e group f Hac) as (l & El & Hl). rewrite El.
  destruct (IH (sset Z.le f l g0)) as (g & Eg & Ha & Hk & Hin & Hout); [by apply (ascending_sset Z.le)|].
  exists g. split_and!; try done.
  - intros h. rewrite Hk, (elem_sset_key Z.le), elem_of_cons. tauto.
  - intros h d Hh. destruct (decide (h ∈ fs)) as [Hhf|Hhf]; [by apply Hin|].
    apply elem_of_cons in Hh as [->|?]; [|done]. rewrite Hout by done. unfold depends. rewrite (sfind_sset_eq Z.le).
    rewrite <- Hl. split; [by intros (l' & [= <-] & ?)|by exists l].
  - intros h d [Hne Hhf]%not_elem_of_cons. rewrite Hout by done. unfold depends. by rewrite (sfind_sset_ne Z.le).
Qed.

Lemma feeds_edge e d f : acyclic e -> f ∈ (funcs e).*2 -> feeds e d f ->
  exists m src, nodes e !! d = Some m /\ src ∈ n_outputs m /\
    forall n o, nodes e !! f = Some n -> o ∈ n_outputs n -> tc (zedge e) src o.
Proof.
  intros Hac Hf (_ & n & m & p & src & Hn & Hm & Hp & Hi & Hc & Ho). exists m, src. split; [done|]. split; [done|].
  intros n' o Hn' Ho'. assert (n' = n) as -> by congruence.
  destruct (carries_from e (p_signal p) Hac) as (src' & Hc' & Hr). unfold carries in Hc, Hc'. rewrite Hc in Hc'. injection Hc' as <-.
  eapply tc_rtc_l; [exact Hr|]. apply tc_once, zedge_iff. right. by exists f, n, p.
Qed.

Lemma depends_acyclic e g (fs : list Z) : acyclic e -> (forall f, f ∈ fs -> f ∈ (funcs e).*2) ->
  (forall f d, depends g f d -> f ∈ fs /\ feeds e d f) -> forall c, ~ tc (depends g) c c.
Proof.
  intros Hac Hfs Hdep. assert (forall f d, tc (depends g) f d -> exists m src, nodes e !! d = Some m /\ src ∈ n_outputs m /\
    forall n o, nodes e !! f = Some n -> o ∈ n_outputs n -> tc (zedge e) src o) as H.
  { intros f d. induction 1 as [f d [Hf Hd]%Hdep|f x d [Hf Hx]%Hdep _ IH]; [by apply feeds_edge; [|apply Hfs|]|].
    destruct IH as (m & src & Hm & Hs & Ho). destruct (feeds_edge e x f Hac (Hfs f Hf) Hx) as (mx & sx & Hmx & Hsx & Hox).
    exists m, src. split; [done|]. split; [done|]. intros n o Hn Hno. etrans; [by apply (Ho mx sx)|by apply (Hox n o)]. }
  intros c (m & src & Hm & Hs & Ho)%H. apply (Hac src). by apply (Ho m src).
Qed.

(** The order of one group: everything in it once, after what feeds it. *)
Definition ordered (e : engine) (fs l : list Z) : Prop :=
  l ≡ₚ fs /\ forall l1 f l2, l = l1 ++ f :: l2 -> forall d, d ∈ fs -> feeds e d f -> d ∈ l1.

Lemma order_spec e fs : acyclic e -> (forall f, f ∈ fs -> f ∈ (funcs e).*2) -> NoDup fs ->
  exists g l, dependency_graph e fs fs [] = Some g /\ topologicalSort g = Ret (true, l) /\ ordered e fs l.
Proof.
  intros Hac Hfs Hnd. destruct (dependency_graph_spec e fs Hac fs []) as (g & Eg & Ha & Hk & Hin & Hout); [constructor|].
  assert (forall f d, depends g f d <-> f ∈ fs /\ d ∈ fs /\ feeds e d f) as Hdep.
  { intros f d. destruct (decide (f ∈ fs)) as [Hf|Hf]; [rewrite Hin by done; tauto|]. rewrite Hout by done.
    split; [by intros (l & [=] & _)|tauto]. }
  destruct (sort_spec g Ha) as (b & l & El & Hb & Ho).
  { intros f d (_ & Hd & _)%Hdep. apply Hk. by right. }
  assert (b = true) as ->.
  { apply Hb. apply (depends_acyclic e g fs Hac Hfs). intros f d (Hf & _ & Hd)%Hdep. done. }
  exists g, l. split; [done|]. split; [done|]. destruct (Ho eq_refl) as [HP Hord]. split.
  - rewrite HP. apply NoDup_Permutation; [by apply (ascending_NoDup Z.le)|done|].
    intros x. rewrite Hk. cbn. split; [by intros [?%elem_of_nil|?]|by right].
  - intros l1 f l2 E d Hd Hfd. apply (Hord l1 f l2 E). apply Hdep. split_and!; [|done|done].
    assert (f ∈ l) as Hfl by (rewrite E; apply elem_of_app; right; by left). rewrite HP in Hfl. apply Hk in Hfl as [?%elem_of_nil|?]; done.
Qed.

(** ** Groups and periods *)

Definition per (e : engine) (f : Z) : Z := match nodes e !! f with Some n => n_period n | None => 0 end.

Lemma groups_snoc e fs f : executionGroups e (fs ++ [f]) =
  sset Z.le (per e f) (default [] (sfind (per e f) (executionGroups e fs)) ++ [f]) (executionGroups e fs).
Proof. unfold executionGroups. by rewrite fold_left_app. Qed.

Lemma groups_spec e fs : ascending Z.le (executionGroups e fs) /\
  forall p, default [] (sfind p (executionGroups e fs)) = filter (fun f => per e f = p) fs /\
    (is_Some (sfind p (executionGroups e fs)) <-> exists f, f ∈ fs /\ per e f = p).
Proof.
  induction fs as [|f fs [Ha IH]] using rev_ind.
  { split; [constructor|]. intros p. split; [done|]. split; [by intros [? [=]]|]. by intros (f & ?%elem_of_nil & _). }
  rewrite groups_snoc. split; [by apply (ascending_sset Z.le)|]. intros p. rewrite filter_app.
  destruct (IH (per e f)) as [E1 _], (IH p) as [E2 Hp].
  setoid_rewrite elem_of_app. setoid_rewrite list_elem_of_singleton. destruct (decide (p = per e f)) as [->|Hne].
  - rewrite (sfind_sset_eq Z.le). cbn [default from_option id]. rewrite E1, filter_cons_True by done. split; [done|].
    split; [intros _; exists f; by split; [right|]|intros _; by eexists].
  - rewrite (sfind_sset_ne Z.le) by done. rewrite E2, filter_cons_False by done. cbn. rewrite app_nil_r. split; [done|].
    rewrite Hp. naive_solver.
Qed.

Definition orders_of (e : engine) (gs : list (Z * list Z)) (o : list (Z * list Z)) : Prop :=
  Forall2 (fun x y => y.1 = x.1 /\ ordered e x.2 y.2) gs o.

Lemma orders_spec e gs : acyclic e -> (forall p fs, (p, fs) ∈ gs -> NoDup fs /\ forall f, f ∈ fs -> f ∈ (funcs e).*2) ->
  exists o, orders e gs = Ret o /\ orders_of e gs o.
Proof.
  intros Hac. induction gs as [|[p fs] gs IH]; intros Hgs; cbn [orders]; [by exists []; split; [|constructor]|].
  destruct (Hgs p fs) as [Hnd Hfs]; [by left|]. destruct (order_spec e fs Hac Hfs Hnd) as (g & l & -> & -> & Hl). cbn [obind].
  destruct IH as (o & -> & Ho); [intros q gs' Hq; apply (Hgs q); by right|]. cbn [obind]. eexists. split; [done|].
  by constructor.
Qed.

(** Periods ascending; the functions of each, after what feeds them. *)
Definition island_ordered (e : engine) (i : island) : Prop :=
  ascending Z.le (i_orders i) /\
  (forall p l, (p, l) ∈ i_orders i -> ordered e (filter (fun f => per e f = p) (i_funcs i)) l) /\
  (forall f, f ∈ i_funcs i -> exists l, (per e f, l) ∈ i_orders i).

Lemma island_orders e i : acyclic e -> NoDup (i_funcs i) -> (forall f, f ∈ i_funcs i -> f ∈ (funcs e).*2) ->
  exists i', precomputeExecutionOrders e i = Ret i' /\ i_signals i' = i_signals i /\ i_funcs i' = i_funcs i /\
    i_tickPeriod i' = i_tickPeriod i /\ i_background i' = i_background i /\ island_ordered e i'.
Proof.
  intros Hac Hnd Hfs. destruct (groups_spec e (i_funcs i)) as [Ha Hg].
  assert (forall p fs, (p, fs) ∈ executionGroups e (i_funcs i) -> fs = filter (fun f => per e f = p) (i_funcs i)) as Hgr.
  { intros p fs Hp. apply (sfind_elem Z.le) in Hp; [|done]. destruct (Hg p) as [E _]. by rewrite Hp in E. }
  destruct (orders_spec e (executionGroups e (i_funcs i)) Hac) as (o & Eo & Ho).
  { intros p fs ->%Hgr. split; [by apply NoDup_filter|]. intros f [_ Hf]%list_elem_of_filter. by apply Hfs. }
  unfold precomputeExecutionOrders. rewrite Eo. cbn [obind]. eexists. split; [done|]. split_and!; try done.
  unfold island_ordered. cbn. split_and!.
  - unfold ascending. replace o.*1 with (executionGroups e (i_funcs i)).*1; [done|]. clear -Ho.
    induction Ho as [|x y gs o [E _] _ IH]; [done|]. cbn. by rewrite E, IH.
  - intros p l Hl. apply list_elem_of_lookup in Hl as [k Hk]. unfold orders_of in Ho. rewrite Forall2_lookup in Ho. specialize (Ho k). rewrite Hk in Ho.
    inversion Ho as [x y [E1 E2] Hx|]; subst. destruct x as [q fs]. cbn in *. subst q.
    symmetry in Hx. apply list_elem_of_lookup_2, Hgr in Hx. by subst.
  - intros f Hf. destruct (Hg (per e f)) as [_ Hs]. destruct (proj2 Hs) as [fs Hfs']; [by exists f|].
    apply (sfind_elem Z.le) in Hfs'; [|done]. apply list_elem_of_lookup in Hfs' as [k Hk].
    unfold orders_of in Ho. rewrite Forall2_lookup in Ho. specialize (Ho k). rewrite Hk in Ho. inversion Ho as [x y [E1 _] Hx Hy|]; subst.
    destruct y as [q l]. cbn in E1. subst q. symmetry in Hy. exists l. by eapply list_elem_of_lookup_2.
Qed.

Lemma longest_spec l : 0 <= longestDividingPeriod l /\ forall d, (d | longestDividingPeriod l) <-> forall p, p ∈ l -> (d | p).
Proof.
  destruct l as [|p l]; cbn [longestDividingPeriod].
  { split; [lia|]. intros d. split; [by intros _ q ?%elem_of_nil|]. intros _. apply Z.divide_0_r. }
  assert (forall l q, (forall d, (d | fold_left Z.gcd l q) <-> (d | q) /\ forall x, x ∈ l -> (d | x)) /\ (0 <= q -> 0 <= fold_left Z.gcd l q)) as H.
  { clear. induction l as [|x l IH]; intros q; cbn [fold_left].
    - split; [|done]. intros d. split; [intros ?; split; [done|by intros x ?%elem_of_nil]|tauto].
    - destruct (IH (Z.gcd q x)) as [H1 H2]. split; [|intros _; apply H2, Z.gcd_nonneg]. intros d. rewrite H1. setoid_rewrite elem_of_cons. split.
      + intros [Hd Hl]. split; [etrans; [exact Hd|apply Z.gcd_divide_l]|]. intros y [->|Hy]; [etrans; [exact Hd|apply Z.gcd_divide_r]|by apply Hl].
      + intros [Hd Hl]. split; [apply Z.gcd_greatest; [done|apply Hl; by left]|]. intros y Hy. apply Hl. by right. }
  cbn [fold_left]. destruct (H l (Z.gcd p p)) as [H1 H2]. split; [apply H2, Z.gcd_nonneg|]. intros d. rewrite H1. setoid_rewrite elem_of_cons.
  rewrite Z.gcd_diag, Z.divide_abs_r. split; [intros [? ?] x [->|?]; auto|]. intros Hl. split; [apply Hl; by left|]. intros x Hx. apply Hl. by right.
Qed.

Lemma signal_periods_spec e l p : p ∈ signal_periods e l <-> exists a, a ∈ l /\ periodOf e a = p /\ p <> 0.
Proof.
  unfold signal_periods.
  rewrite (fold_members (fun l a => let d := periodOf e a in if d =? 0 then l else insert_period d l) (fun p a => periodOf e a = p /\ p <> 0)).
  - split; [intros [?%elem_of_nil|?]; done|by right].
  - intros acc a. cbn. destruct (Z.eqb_spec (periodOf e a) 0) as [E|E]; [|rewrite elem_insert_period; naive_solver].
    rewrite E. split; [by left|]. intros [?|[<- ?]]; done.
Qed.

Lemma exists_cons {A} (P : A -> Prop) x l : (exists y, y ∈ x :: l /\ P y) <-> P x \/ exists y, y ∈ l /\ P y.
Proof.
  setoid_rewrite elem_of_cons. split; [intros (y & [->|Hy] & HP); [by left|right; by exists y]|].
  intros [HP|(y & Hy & HP)]; [exists x; by split; [left|]|exists y; by split; [right|]].
Qed.

Record finished (e : engine) (i i' : island) : Prop := {
  fi_same : i_signals i' = i_signals i /\ i_funcs i' = i_funcs i;
  fi_background : i_background i' = is_background e i;
  fi_period : i_tickPeriod i' = longestDividingPeriod (signal_periods e (i_signals i));
  fi_ordered : island_ordered e i';
}.

Lemma finish_spec e isl : acyclic e -> (forall i, i ∈ isl -> NoDup (i_funcs i) /\ forall f, f ∈ i_funcs i -> f ∈ (funcs e).*2) ->
  forall gl, exists isl' gl', finish_islands e isl gl = Ret (isl', gl') /\ Forall2 (finished e) isl isl' /\
    forall p, p ∈ gl' <-> p ∈ gl \/ exists i, i ∈ isl /\ is_background e i = false /\ p ∈ signal_periods e (i_signals i).
Proof.
  intros Hac. induction isl as [|i isl IH]; intros Hi gl; cbn [finish_islands].
  { exists [], gl. split_and!; [done|constructor|]. intros p. split; [by left|]. intros [?|(i & ?%elem_of_nil & _)]; done. }
  destruct (Hi i) as [Hnd Hfs]; [by left|].
  destruct (island_orders e (mkIsland (i_signals i) (i_funcs i) [] (longestDividingPeriod (signal_periods e (i_signals i))) (is_background e i)) Hac Hnd Hfs)
    as (i' & -> & H1 & H2 & H3 & H4 & H5). cbn [obind].
  destruct (IH (fun j Hj => Hi j (list_elem_of_further _ _ _ Hj)) (if is_background e i then gl else fold_left (fun l p => insert_period p l) (signal_periods e (i_signals i)) gl))
    as (isl' & gl' & -> & HF & Hgl). cbn [obind].
  exists (i' :: isl'), gl'. split; [done|]. split; [by constructor|]. intros p. rewrite Hgl.
  assert (p ∈ fold_left (fun l p => insert_period p l) (signal_periods e (i_signals i)) gl <-> p ∈ gl \/ p ∈ signal_periods e (i_signals i)) as Hf.
  { rewrite (fold_members (fun l p => insert_period p l) (fun p q => p = q)); [naive_solver|]. intros acc a. rewrite elem_insert_period. naive_solver. }
  rewrite (exists_cons (fun j => is_background e j = false /\ p ∈ signal_periods e (i_signals j))).
  destruct (is_background e i); [|rewrite Hf; tauto]. split; [tauto|]. intros [?|[[[=] _]|?]]; tauto.
Qed.

(** ** The rebuild *)

Record rebuilt (e e' : engine) (isl : list island) : Prop := {
  rb_found : computeNetworkIslands (buildSignalConsumers e) = Some isl;
  rb_thinner : thinner e e';
  rb_engine : exists e2, e' = set_network (islands e') (tickPeriod e') e2 /\ Forall2 (finished e2) isl (islands e') /\
     e2 = precomputeFuncPeriods (buildSignalConsumers e);
  rb_period : exists gl, tickPeriod e' = longestDividingPeriod gl /\
     forall p, p ∈ gl <-> exists i, i ∈ isl /\ is_background e' i = false /\ p ∈ signal_periods e' (i_signals i);
}.

Lemma rebuild_spec e : ok e -> exists e' isl, buildNetworkCacheData e = Ret e' /\ rebuilt e e' isl.
Proof.
  intros [Hw Hac _ _]. destruct (islands_found e Hw) as (isl & v & Ei & Hil & _ & _). unfold buildNetworkCacheData. rewrite Ei.
  set (e2 := precomputeFuncPeriods (buildSignalConsumers e)).
  destruct (thinner_periods (buildSignalConsumers e)) as (T2 & F2 & P2 & S2). fold e2 in T2, F2, P2, S2.
  assert (thinner e e2) as HT by (etrans; [apply thinner_consumers|done]).
  destruct (build_consumers e) as [HL _].
  destruct (finish_spec e2 isl (thinner_acyclic _ _ HT Hac)) with (gl := @nil Z) as (isl' & gl & E & HF & Hgl).
  { intros i Hi. destruct (il_nodup _ _ _ Hil) as [_ Hnd]. split.
    - apply list_elem_of_split in Hi as (l1 & l2 & ->). rewrite map_app in Hnd. cbn in Hnd. rewrite join_app in Hnd. cbn in Hnd.
      apply NoDup_app in Hnd as (_ & _ & Hnd). by apply NoDup_app in Hnd as (Hnd & _ & _).
    - intros f Hf. assert (in_seen v (inr f)) as Hs by (apply (il_seen _ _ _ Hil); by exists i).
      apply (il_thing _ _ _ Hil) in Hs as (n & Hr & _). by rewrite F2. }
  rewrite E. cbn [obind]. eexists _, isl. split; [done|]. split; [done| | |].
  - etrans; [exact HT|]. by apply thinner_same.
  - by exists e2.
  - exists gl. split; [done|]. intros p. rewrite Hgl. split; [intros [?%elem_of_nil|?]; done|by right].
Qed.

Lemma zeroDelaySource_ext e e' fuel a : heap e' = heap e -> zeroDelaySource fuel e' a = zeroDelaySource fuel e a.
Proof.
  intros Hh. revert a. induction fuel as [|fuel IH]; intros a; [done|]. cbn. rewrite Hh. unfold baseOf, live. rewrite Hh.
  destruct (heap e !! a) as [s|]; [|done]. destruct (zeroDelayDerived s); [|done]. by destruct (_ ≫= _).
Qed.

Lemma feeds_ext e e' d f : heap e' = heap e -> nodes e' = nodes e -> feeds e' d f <-> feeds e d f.
Proof. intros Hh Hn. unfold feeds, carries. rewrite Hn, Hh. by setoid_rewrite (zeroDelaySource_ext e e' _ _ Hh). Qed.

Lemma island_ordered_ext e e' i : heap e' = heap e -> nodes e' = nodes e -> island_ordered e i -> island_ordered e' i.
Proof.
  intros Hh Hn (H0 & H1 & H2). assert (forall f, per e' f = per e f) as Hp by (intros f; unfold per; by rewrite Hn).
  split_and!; [done|..].
  - intros p l Hl. destruct (H1 p l Hl) as [HP Ho].
    assert (filter (fun f => per e' f = p) (i_funcs i) = filter (fun f => per e f = p) (i_funcs i)) as E
      by (apply list_filter_iff; intros f; by rewrite Hp).
    split; [by rewrite E|]. intros l1 f l2 El d Hd Hf. apply (Ho l1 f l2 El); [by rewrite <- E|]. by apply (feeds_ext e e').
  - intros f Hf. rewrite Hp. by apply H2.
Qed.

Lemma island_orders_exact e e' i : ok e -> buildNetworkCacheData e = Ret e' -> i ∈ islands e' -> island_ordered e' i.
Proof.
  intros Hok E Hi. destruct (rebuild_spec e Hok) as (e'' & isl & E' & [_ _ (e2 & He2 & HF & _) _]).
  rewrite E in E'. injection E' as <-. apply list_elem_of_lookup in Hi as [k Hk].
  rewrite Forall2_lookup in HF. specialize (HF k). rewrite Hk in HF. inversion HF as [j i' Hf|]; subst.
  apply (island_ordered_ext e2); [by rewrite He2..|]. apply (fi_ordered _ _ _ Hf).
Qed.

(** ** The network of a running program *)

Section Network.
Context (veq : Z -> Z -> bool) (snapshot : Z -> Z).
Notation reachable := (reachable veq snapshot).

(** C14. A program cannot wire itself into a loop.  Whatever signals and functions it
    creates, wires, delays, holds and drops, in any order and however the engine ticks
    and prunes meanwhile, rebuilding the network's cache succeeds: the sort never meets
    a cyclic dependency. *)
Theorem wiring_never_cyclic e : reachable e -> exists e', buildNetworkCacheData e = Ret e'.
Proof. intros Hr. destruct (rebuild_spec e (ok_reachable _ _ e Hr)) as (e' & _ & E & _). by exists e'. Qed.

(** C15. Functions run after what feeds them.  In every island of a rebuilt network, each
    function stands in exactly one order, the one of its period, once, and after every
    function of that period whose output it reads within the tick, directly or through
    wires. *)
Theorem execution_order_exact e e' i : reachable e -> buildNetworkCacheData e = Ret e' -> i ∈ islands e' ->
  island_ordered e' i.
Proof. intros Hr. apply island_orders_exact. by eapply ok_reachable. Qed.

(** C18. Islands are the network's connected parts.  In a network whose bases list exactly
    the signals derived from them ([linked]; wiring makes it so, removing a derived signal
    that a script still holds can undo it, [wire_lost]): every registered signal and
    function is in exactly one island, once, and two are in the same island exactly when
    ports and derivations link them, however indirectly. *)
Theorem islands_are_components e e' : reachable e -> linked e -> buildNetworkCacheData e = Ret e' ->
  NoDup (mjoin (map i_signals (islands e'))) /\ NoDup (mjoin (map i_funcs (islands e'))) /\
  (forall a, a ∈ signals e -> exists i, i ∈ islands e' /\ a ∈ i_signals i) /\
  (forall f, f ∈ (funcs e).*2 -> exists i, i ∈ islands e' /\ f ∈ i_funcs i) /\
  (forall i x y, i ∈ islands e' -> in_island i x -> in_island i y <-> rtsc (adjacent e) x y).
Proof.
  intros Hr Hl E. pose proof (ok_reachable _ _ e Hr) as Hok.
  destruct (rebuild_spec e Hok) as (e'' & isl & E' & [Ei _ (e2 & _ & HF & _) _]).
  rewrite E in E'. injection E' as <-. destruct (islands_found e (ok_wf _ Hok)) as (isl0 & v & Ei0 & Hil & Hs & Hf).
  rewrite Ei in Ei0. injection Ei0 as <-.
  assert (map i_signals (islands e') = map i_signals isl /\ map i_funcs (islands e') = map i_funcs isl) as [H1 H2].
  { clear -HF. induction HF as [|i j l l' [[E1 E2] _ _ _] _ [IH1 IH2]]; [done|]. cbn. split; congruence. }
  assert (forall i', i' ∈ islands e' -> exists i, i ∈ isl /\ forall x, in_island i' x <-> in_island i x) as Hback.
  { intros i' [k Hk]%list_elem_of_lookup. rewrite Forall2_lookup in HF. specialize (HF k). rewrite Hk in HF.
    inversion HF as [j j' [[E1 E2] _ _ _] Hj|]; subst. exists j. split; [symmetry in Hj; by eapply list_elem_of_lookup_2|].
    intros [a|f]; cbn; [by rewrite E1|by rewrite E2]. }
  assert (Symmetric (nbr (buildSignalConsumers e))) as Hsym.
  { intros x y. rewrite !(nbr_adjacent e Hl). unfold sc. tauto. }
  destruct (il_nodup _ _ _ Hil) as [N1 N2]. rewrite H1, H2. split; [done|]. split; [done|]. split_and!.
  - intros a Ha. apply (in_join i_signals). rewrite H1. apply in_join. by apply (il_seen _ _ _ Hil (inl a)), Hs.
  - intros f Hfa. apply (in_join i_funcs). rewrite H2. apply in_join. by apply (il_seen _ _ _ Hil (inr f)), Hf.
  - intros i' x y (i & Hi & Hii)%Hback Hx. rewrite Hii. apply Hii in Hx. rewrite (il_component _ _ _ Hil Hsym i x y Hi Hx).
    unfold rtsc. split; intros H; (eapply rtc_subrel; [|exact H]); intros u w; by apply (nbr_adjacent e Hl).
Qed.

(** C19. The time grid is exact: after a rebuild the engine's tick period, and each
    island's, is the greatest one that divides the period of every periodic signal on it
    (of the foreground islands, of the island), so that each can tick at precisely its
    own period. *)
Theorem tick_grid_exact e e' : reachable e -> buildNetworkCacheData e = Ret e' ->
  0 <= tickPeriod e' /\
  (forall d, (d | tickPeriod e') <-> forall i a, i ∈ islands e' -> i_background i = false -> a ∈ i_signals i -> (d | periodOf e' a)) /\
  (forall i, i ∈ islands e' -> 0 <= i_tickPeriod i /\
     forall d, (d | i_tickPeriod i) <-> forall a, a ∈ i_signals i -> (d | periodOf e' a)).
Proof.
  intros Hr E. destruct (rebuild_spec e (ok_reachable _ _ e Hr)) as (e'' & isl & E' & [_ _ (e2 & He2 & HF & _) (gl & Et & Hgl)]).
  rewrite E in E'. injection E' as <-. assert (heap e' = heap e2) as Hh by (by rewrite He2).
  assert (forall a, periodOf e' a = periodOf e2 a) as Hp by (intros a; unfold periodOf; by rewrite Hh).
  assert (forall i', i' ∈ islands e' -> exists i, i ∈ isl /\ finished e2 i i') as Hback.
  { intros i' [k Hk]%list_elem_of_lookup. rewrite Forall2_lookup in HF. specialize (HF k). rewrite Hk in HF.
    inversion HF as [j j' Hj Hjj|]; subst. exists j. split; [symmetry in Hjj; by eapply list_elem_of_lookup_2|done]. }
  assert (forall i, i ∈ isl -> exists i', i' ∈ islands e' /\ finished e2 i i') as Hforth.
  { intros i [k Hk]%list_elem_of_lookup. rewrite Forall2_lookup in HF. specialize (HF k). rewrite Hk in HF.
    inversion HF as [j j' Hj Hjj Hjj'|]; subst. exists j'. split; [symmetry in Hjj'; by eapply list_elem_of_lookup_2|done]. }
  assert (forall e l d, (forall p, p ∈ signal_periods e l -> (d | p)) <-> forall a, a ∈ l -> (d | periodOf e a)) as Hper.
  { intros f l d. setoid_rewrite signal_periods_spec. split; [|by intros H p (a & Ha & <- & _); apply H].
    intros H a Ha. destruct (decide (periodOf f a = 0)) as [->|Hne]; [apply Z.divide_0_r|]. apply H. by exists a. }
  assert (forall l p, p ∈ signal_periods e' l <-> p ∈ signal_periods e2 l) as Hsp.
  { intros l p. rewrite !signal_periods_spec. by setoid_rewrite Hp. }
  assert (forall i, is_background e' i = is_background e2 i) as Hbg by (intros i; unfold is_background; by rewrite Hh).
  split; [rewrite Et; apply longest_spec|]. split.
  - intros d. rewrite Et, (proj2 (longest_spec gl)). split.
    + intros H i' a (i & Hi & [[E1 _] E2 _ _])%Hback Hb Ha. rewrite Hp. apply (proj1 (Hper e2 (i_signals i) d)); [|by rewrite <- E1].
      intros p Hpp. apply H, Hgl. exists i. split; [done|]. rewrite Hbg, Hsp. by split; [congruence|].
    + intros H p (i & Hi & Hb & Hpp)%Hgl. destruct (Hforth i Hi) as (i' & Hi' & [[E1 _] E2 _ _]).
      apply (proj2 (Hper e' (i_signals i) d)); [|done]. intros a Ha. apply (H i'); [done| |by rewrite E1].
      by rewrite E2, <- Hbg.
  - intros i' (i & Hi & [[E1 _] _ E3 _])%Hback. rewrite E3. split; [apply longest_spec|]. intros d.
    rewrite (proj2 (longest_spec _)), Hper, E1. by setoid_rewrite Hp.
Qed.

(** The loop check always gets its answer: on any network a program can build, the
    search of [copyInto] ends, and finds a target exactly when one feeds the signal within
    the tick, through whatever wires and functions. *)
Theorem zero_delay_search_exact e from targets : reachable e -> is_Some (heap e !! from) ->
  exists b, zeroDelayUpstreamReaches from targets e = Some b /\
    (b = true <-> exists t, t ∈ targets /\ rtc (zedge e) t from).
Proof.
  intros Hr Hf. destruct (reaches_upstream e from targets (ok_wf _ (ok_reachable _ _ e Hr)) Hf) as (b & E & Hb).
  exists b. split; [done|]. destruct b; cbn in Hb; [done|]. split; [done|]. intros (t & Ht & Ht'). by destruct (Hb t Ht').
Qed.
End Network.

(** ** A network *)

Definition freshb (e : engine) (a : Z) : bool :=
  bool_decide (heap e !! a = None /\ map_Forall (fun _ s => baseSignal s <> Some a /\ a ∉ dependents s) (heap e)).

Lemma freshb_fresh e a : freshb e a = true -> fresh e a.
Proof. intros [H1 H2]%bool_decide_eq_true. split; [done|]. intros b s Hb. by apply (H2 b s). Qed.

Definition derives (e : engine) (a b : Z) : bool :=
  match heap e !! a with Some s => isDerived s && bool_decide (baseSignal s = Some b) && live e b | None => false end.

Lemma derives_from e a b : derives e a b = true <-> derived_from e a b.
Proof.
  unfold derives, derived_from. destruct (heap e !! a) as [s|]; [|naive_solver].
  rewrite !andb_true_iff, bool_decide_eq_true, live_spec. naive_solver.
Qed.

Definition listed (e : engine) (a : Z) (s : signal) : bool :=
  match baseSignal s with Some b => negb (derives e a b) || bool_decide (a ∈ dependents_of b e) | None => true end.

Definition linkedb (e : engine) : bool :=
  bool_decide (map_Forall (fun a s => listed e a s = true) (heap e) /\
    map_Forall (fun b _ => Forall (fun a => derives e a b = true) (dependents_of b e)) (heap e)).

Lemma linkedb_linked e : linkedb e = true -> linked e.
Proof.
  intros [H1 H2]%bool_decide_eq_true a b. split.
  - intros Hd. pose proof Hd as (s & Hs & _ & Hb & _). specialize (H1 a s Hs). unfold listed in H1. rewrite Hb in H1.
    apply derives_from in Hd. rewrite Hd in H1. by apply bool_decide_eq_true in H1.
  - intros Ha. assert (exists s, heap e !! b = Some s) as [s Hs].
    { unfold dependents_of in Ha. destruct (heap e !! b) as [s|]; [by exists s|by apply elem_of_nil in Ha]. }
    specialize (H2 b s Hs). cbn in H2. rewrite Forall_forall in H2. by apply derives_from, H2.
Qed.

Definition or_empty (o : outcome string engine) : engine := match o with Ret e => e | _ => empty_engine end.
Definition hundred : Z := 0x4059000000000000.   (* 100.0 *)
Definition fifty : Z := 0x4049000000000000.     (* 50.0 *)

Definition demo1 : engine := or_empty (newSourceSignal id 1 hundred 5 false empty_engine).
Definition demo2 : engine := or_empty (newSourceSignal id 2 hundred 5 false demo1).
Definition demo3 : engine := or_empty (lift id "f" 10 [1] [(3, nilVal)] demo2).
Definition demo4 : engine := or_empty (copyInto Z.eqb id 2 3 demo3).
Definition demo5 : engine := or_empty (lift id "g" 11 [2; 1] [(4, nilVal)] demo4).
Definition demo6 : engine := or_empty (newClockSignal id 6 fifty demo5).
Definition demo : engine := match indexedSignal id 6 (-1) 7 demo6 with Ret (e, _) => e | _ => empty_engine end.

Lemma network_reachable : reachable Z.eqb id demo.
Proof.
  eapply rtc_l; [apply (step_source _ _ _ 1 hundred 5 false demo1); [apply freshb_fresh|]; vm_compute; reflexivity|].
  eapply rtc_l; [apply (step_source _ _ _ 2 hundred 5 false demo2); [apply freshb_fresh|]; vm_compute; reflexivity|].
  eapply rtc_l; [apply (step_lift _ _ _ "f" 10 [1] [(3, nilVal)] demo3); [vm_compute; reflexivity|..|vm_compute; reflexivity]|].
  { intros a ->%list_elem_of_singleton. by apply live_spec; vm_compute. }
  { apply NoDup_singleton. }
  { intros o ->%list_elem_of_singleton. apply freshb_fresh. vm_compute. reflexivity. }
  eapply rtc_l; [apply (step_wire _ _ _ 2 3 demo4); vm_compute; reflexivity|].
  eapply rtc_l; [apply (step_lift _ _ _ "g" 11 [2; 1] [(4, nilVal)] demo5); [vm_compute; reflexivity|..|vm_compute; reflexivity]|].
  { intros a [->| ->%list_elem_of_singleton]%elem_of_cons; by apply live_spec; vm_compute. }
  { apply NoDup_singleton. }
  { intros o ->%list_elem_of_singleton. apply freshb_fresh. vm_compute. reflexivity. }
  eapply rtc_l; [apply (step_clock _ _ _ 6 fifty demo6); [apply freshb_fresh|]; vm_compute; reflexivity|].
  eapply rtc_l; [apply (step_index _ _ _ 6 (-1) 7 demo 7); [apply freshb_fresh|]; vm_compute; reflexivity|].
  apply rtc_refl.
Qed.

Definition demo_built : engine := or_empty (buildNetworkCacheData demo).

Lemma demo_builds : buildNetworkCacheData demo = Ret demo_built.
Proof. vm_compute. reflexivity. Qed.

Lemma wiring_never_cyclic_witness : exists e', buildNetworkCacheData demo = Ret e'.
Proof. apply (wiring_never_cyclic Z.eqb id demo). apply network_reachable. Defined.

Definition first_island : island :=
  mkIsland [1; 3; 2; 4] [10; 11] [(10000, [10; 11])] 10000 false.

Definition second_island : island := mkIsland [6; 7] [] [] 20000 false.

Lemma demo_islands : islands demo_built = [first_island; second_island].
Proof. vm_compute. reflexivity. Qed.

Lemma execution_order_exact_witness : first_island ∈ islands demo_built /\ island_ordered demo_built first_island.
Proof.
  assert (first_island ∈ islands demo_built) as Hi by (rewrite demo_islands; left).
  split; [done|]. apply (execution_order_exact Z.eqb id demo demo_built first_island); [apply network_reachable|apply demo_builds|done].
Defined.

Lemma islands_are_components_witness :
  rtsc (adjacent demo) (inl 1) (inr 11) /\ ~ rtsc (adjacent demo) (inl 1) (inl 6).
Proof.
  destruct (islands_are_components Z.eqb id demo demo_built) as (_ & _ & _ & _ & H).
  - apply network_reachable.
  - apply linkedb_linked. vm_compute. reflexivity.
  - apply demo_builds.
  - assert (first_island ∈ islands demo_built) as Hi by (rewrite demo_islands; left).
    assert (in_island first_island (inl 1)) as H1 by left. split.
    + apply (proj1 (H first_island (inl 1) (inr 11) Hi H1)). right. left.
    + intros H6%(proj2 (H first_island (inl 1) (inl 6) Hi H1)). change (6 ∈ [1; 3; 2; 4]) in H6.
      repeat (apply elem_of_cons in H6 as [?|H6]; [lia|]). by apply elem_of_nil in H6.
Defined.

Lemma tick_grid_exact_witness : tickPeriod demo_built = 10000 /\ (10000 | periodOf demo_built 6).
Proof.
  assert (tickPeriod demo_built = 10000) as Ht by (vm_compute; reflexivity). split; [done|].
  destruct (tick_grid_exact Z.eqb id demo demo_built) as (_ & H & _); [apply network_reachable|apply demo_builds|].
  apply (proj1 (H 10000)) with (i := second_island); [by rewrite Ht| |done|left].
  rewrite demo_islands. right. left.
Defined.

Lemma zero_delay_search_exact_witness :
  zeroDelayUpstreamReaches 4 {[1]} demo = Some true /\ exists t, t ∈ ({[1]} : gset Z) /\ rtc (zedge demo) t 4.
Proof.
  destruct (zero_delay_search_exact Z.eqb id demo 4 {[1]}) as (b & E & Hb); [apply network_reachable|by apply live_spec; vm_compute|].
  assert (zeroDelayUpstreamReaches 4 {[1]} demo = Some true) as E1 by (vm_compute; reflexivity).
  split; [done|]. apply Hb. rewrite E1 in E. by injection E as <-.
Defined.

(** ** Surprises *)

(** Wiring [horn <- beacon] before [beacon <- alarm] chains the derivations. *)
Definition chained : outcome string engine :=
  let! e := newSourceSignal id 1 hundred 5 false empty_engine in
  let! e := newSourceSignal id 2 hundred 5 false e in
  let! e := newSourceSignal id 3 hundred 5 false e in
  let! e := copyInto Z.eqb id 2 1 e in
  copyInto Z.eqb id 1 3 e.

Lemma wires_chain :
  match chained with
  | Ret e => (zeroDelayDerived <$> heap e !! 1) = Some true /\ dependents_of 1 e = [2] /\ baseOf 1 e = Some 3
  | _ => False
  end.
Proof. vm_compute. split_and!; reflexivity. Qed.

(** A clock a script still holds leaves the network with its last consumer: [removeFunc]
    asks for the removal of every input, and an unforced removal looks at ports only. *)
Definition held_clock : outcome string engine :=
  let! e := newClockSignal id 1 hundred empty_engine in
  let! e := lift id "f" 10 [1] [(2, nilVal)] (registerSignalWrapper 1 e) in
  buildNetworkCacheData (registerSignalWrapper 2 e).

Lemma held_clock_removed :
  match held_clock with
  | Ret e0 =>
      signals e0 = [1; 2] /\ wrapperRefCount 1 e0 = 1 /\
      match drop_wrapper 2 e0 with Some e => signals e = [] /\ wrapperRefCount 1 e = 1 | None => False end
  | _ => False
  end.
Proof. vm_compute. split_and!; reflexivity. Qed.

(** [s2 <- s1] and [f(s2)], whose output goes: with [f] goes its input [s2], though the
    script holds it, and [s1] forgets it.  A function of [s2] made then is in an island
    without [s1], and samples of [s1] do not reach it. *)
Definition cut_off : outcome string engine :=
  let! e := newSourceSignal id 1 hundred 5 false empty_engine in
  let! e := newSourceSignal id 2 hundred 5 false e in
  let! e := copyInto Z.eqb id 2 1 e in
  let e := registerSignalWrapper 2 (registerSignalWrapper 1 e) in
  let! e := lift id "f" 10 [2] [(3, nilVal)] e in
  match drop_wrapper 3 (registerSignalWrapper 3 e) with
  | Some e => let! e := lift id "g" 11 [2] [(4, nilVal)] e in buildNetworkCacheData e
  | None => UB
  end.

Lemma wire_lost :
  match cut_off with
  | Ret e =>
      baseOf 2 e = Some 1 /\ dependents_of 1 e = [] /\ map i_signals (islands e) = [[1]; [4; 2]] /\
      match setValueAt Z.eqb id (sample_fuel e) 20000 7 1 e with
      | Ret e' => (values <$> heap e' !! 1) = Some [(0, 5); (20000, 7)] /\ (values <$> heap e' !! 2) = Some [(0, 5)]
      | _ => False
      end
  | _ => False
  end.
Proof. vm_compute. split_and!; reflexivity. Qed.

End DataflowProofs.
