(* ===== verification/DataflowEval.v ===== *)
(** * DataflowEval: evaluating an island (DataflowEngine::tick, evaluateNetwork,
      evaluateIsland; FuncNode::conditionallyExecute, finishEvaluation)

    At a tick the due sources advance, and each periodic island is evaluated: delayed
    signals are refreshed, then the functions run in their orders, again and again until
    none has new inputs.  A node remembers the inputs it last ran on.

    A node's body is a parameter: its native function, an exception included, or its
    closure run to a value.  Bodies that suspend, return futures, fail as closures or
    outlive their script, the host's budget and the collector's requests are not
    modelled; nor is time passing during an evaluation. *)

From S2P Require Import Prelude SortedMap Value Signals Dataflow.
From stdpp Require Import numbers pretty.

Module DataflowEval.

Import Signals Dataflow.
Local Open Scope Z_scope.

Record eval := mkEval {
  network : engine;
  previous : gmap Z (list Z);     (* previousInputValues, by node *)
  failed : gset Z;                (* m_failureReported *)
  trace : list (Z * list Z * list Z);   (* calls of the execution callbacks *)
}.

Definition set_network_of (e : engine) (st : eval) : eval := mkEval e (previous st) (failed st) (trace st).
Definition set_previous (f : Z) (ins : list Z) (st : eval) : eval :=
  mkEval (network st) (<[f := ins]> (previous st)) (failed st) (trace st).

Definition previousInputValues (st : eval) (f : Z) : list Z := default [] (previous st !! f).

Section Eval.
Context (veq : Z -> Z -> bool) (snapshot : Z -> Z).
Context (body : Z -> list Z -> outcome string (list Z)).

(** ** A node's inputs *)

Definition not_available : string := "not available at time".

(** The sample at or before the input's time; its default for nil or for none. *)
Definition input_value (e : engine) (time : Z) (p : port) : outcome string Z :=
  match heap e !! p_signal p with
  | None => UB
  | Some s =>
      let! latency := mul64 (period s) (- p_index p) in
      let! inputTime := sub64 time latency in
      let fallbackTime := Z.min inputTime (latestSampleTime s) in
      match valueIfAvailableAt inputTime s with
      | Some v =>
          if negb (isNil v) then Ret v
          else match p_default p with Some d => Ret d | None => valueAt fallbackTime s end
      | None =>
          if (fallbackTime <? 0) && bool_decide (p_default p = None) then Throw not_available
          else
            match valueAt fallbackTime s with
            | Ret v =>
                if negb (isNil v) then Ret v
                else match p_default p with Some d => Ret d | None => Throw not_available end
            | Throw _ => match p_default p with Some d => Ret d | None => Throw not_available end
            | UB => UB
            end
      end
  end.

Fixpoint input_values (e : engine) (time : Z) (ps : list port) : outcome string (list Z) :=
  match ps with
  | [] => Ret []
  | p :: ps =>
      let! v := input_value e time p in
      let! vs := input_values e time ps in
      Ret (v :: vs)
  end.

(** [std::vector]'s equality. *)
Fixpoint values_eq (a b : list Z) : bool :=
  match a, b with
  | [], [] => true
  | x :: a, y :: b => veq x y && values_eq a b
  | _, _ => false
  end.

(** ** A node's evaluation *)

Definition wrong_count : string := "returned values, expected values".

Fixpoint publish_outputs (time : Z) (os outs : list Z) (e : engine) : outcome string engine :=
  match os, outs with
  | o :: os, v :: outs =>
      let! e := setValueAt veq snapshot (sample_fuel e) time v o e in publish_outputs time os outs e
  | _, _ => Ret e
  end.

Definition finishEvaluation (time f : Z) (n : node) (ins outs : list Z) (st : eval) : outcome string eval :=
  if negb (Nat.eqb (length outs) (length (n_outputs n))) then Throw wrong_count
  else
    let! e := publish_outputs time (n_outputs n) outs (network st) in
    Ret (mkEval e (<[f := ins]> (previous st)) (failed st ∖ {[f]}) (trace st ++ [(f, ins, outs)])).

(** Whether the body ran. *)
Definition conditionallyExecute (time f : Z) (st : eval) : outcome string (bool * eval) :=
  match nodes (network st) !! f with
  | None => UB
  | Some n =>
      let! ins := input_values (network st) time (n_inputs n) in
      if values_eq (previousInputValues st f) ins then Ret (false, set_previous f ins st)
      else
        let! outs := body f ins in
        let! st := finishEvaluation time f n ins outs st in
        Ret (true, st)
  end.

(** ** An island's evaluation *)

Inductive tick_result := Complete | Error.

Definition outputs_of (e : engine) (f : Z) : list Z :=
  match nodes e !! f with Some n => n_outputs n | None => [] end.

Definition outputs_available (time f : Z) (st : eval) : eval :=
  set_network_of
    (fold_left (fun e o => updateSignalConsumerInputAvailability o time e) (outputs_of (network st) f) (network st)) st.

(** The functions in turn; how many ran. *)
Fixpoint run_funcs (time : Z) (fs : list Z) (st : eval) : outcome string (tick_result * nat * eval) :=
  match fs with
  | [] => Ret (Complete, O, st)
  | f :: fs =>
      let! ready := inputsAvailableAt (network st) time f in
      if ready : bool then
        match conditionallyExecute time f st with
        | Ret (ran, st) =>
            if ran : bool then
              let! (r, n, st) := run_funcs time fs (outputs_available time f st) in
              Ret (r, S n, st)
            else run_funcs time fs st
        | Throw _ =>
            if decide (f ∈ failed st) then run_funcs time fs st
            else Ret (Error, O, mkEval (network st) (previous st) ({[f]} ∪ failed st) (trace st))
        | UB => UB
        end
      else run_funcs time fs st
  end.

Definition no_end : string := "func execution didn't terminate - check for signal dependency cycles".

(** [more]: how many rounds may still follow. *)
Fixpoint rounds (more : nat) (time : Z) (fs : list Z) (st : eval) : outcome string (tick_result * eval) :=
  let! (r, n, st) := run_funcs time fs st in
  match r with
  | Error => Ret (Error, st)
  | Complete =>
      match more with
      | O => Throw no_end
      | S more => if Nat.eqb n 0 then Ret (Complete, st) else rounds more time fs st
      end
  end.

Definition in_turn (i : island) : list Z := mjoin (map snd (i_orders i)).

Definition evaluateIsland (time : Z) (i : island) (st : eval) : outcome string (tick_result * eval) :=
  let! e := refreshDerivedSignals veq snapshot time (i_signals i) (network st) in
  let st := set_network_of e st in
  match i_funcs i with
  | [] => Ret (Complete, st)
  | _ => rounds (length (i_funcs i) * 100) time (in_turn i) st
  end.

(** ** The tick *)

(** The islands without a period are evaluated when a source is set. *)
Fixpoint evaluate_islands (time : Z) (isl : list island) (st : eval) : outcome string eval :=
  match isl with
  | [] => Ret st
  | i :: isl =>
      if i_tickPeriod i =? 0 then evaluate_islands time isl st
      else
        let! (r, st) := evaluateIsland (resolveEvaluationTime (network st) i time) i st in
        evaluate_islands time isl st
  end.

Definition evaluateNetwork (time : Z) (st : eval) : outcome string eval :=
  evaluate_islands time (islands (network st)) st.

(** [tick] at the grid's time [tickStart], once the cache is current. *)
Definition tick_network (tickStart : Z) (st : eval) : outcome string eval :=
  let! e := (if modified (network st) then buildNetworkCacheData (network st) else Ret (network st)) in
  if tickPeriod e =? 0 then Ret (set_network_of e st)
  else
    let! e := tick_sources veq snapshot tickStart (signals e) e in
    evaluateNetwork tickStart (set_network_of e st).

End Eval.
End DataflowEval.
