(* ===== verification/DataflowFrame.v ===== *)
(** * DataflowFrame: what a sample leaves alone, and what a node reads

    Storing a sample changes its signal, the signals wired below it and the availability
    of the ports they feed ([frame]); a node's inputs are those of its ports' signals
    alone.  So a function changes nothing that functions before it have read, in an order
    where each comes after what feeds it. *)

From S2P Require Import Prelude SortedMap Value Signals Dataflow DataflowWires DataflowIslands DataflowEnds DataflowProofs DataflowEval.
From stdpp Require Import numbers pretty.

Module DataflowFrame.

Import Signals Dataflow DataflowWires DataflowIslands DataflowEnds DataflowProofs DataflowEval.
Local Open Scope Z_scope.

(** ** What a sample changes *)

(** Ports of one signal, as available as before unless it is in [S]. *)
Record same_port (S : Z -> Prop) (p p' : port) : Prop := {
  sp_signal : p_signal p' = p_signal p;
  sp_index : p_index p' = p_index p;
  sp_default : p_default p' = p_default p;
  sp_available : ~ S (p_signal p) -> p_available p' = p_available p;
}.

Record same_node (S : Z -> Prop) (n n' : node) : Prop := {
  sn_outputs : n_outputs n' = n_outputs n;
  sn_inputs : Forall2 (same_port S) (n_inputs n) (n_inputs n');
}.

(** Signals outside [S] are as they were. *)
Record frame (S : Z -> Prop) (e e' : engine) : Prop := {
  fr_heap : forall x, ~ S x -> heap e' !! x = heap e !! x;
  fr_nodes : forall f n, nodes e !! f = Some n -> exists n', nodes e' !! f = Some n' /\ same_node S n n';
}.

#[global] Instance same_port_refl S : Reflexive (same_port S).
Proof. by intros p. Qed.

#[global] Instance same_port_trans S : Transitive (same_port S).
Proof.
  intros p q r [A1 A2 A3 A4] [B1 B2 B3 B4]. split; [congruence..|]. intros Hs. rewrite B4, A4; [done|done|by rewrite A1].
Qed.

#[global] Instance same_node_refl S : Reflexive (same_node S).
Proof. by intros n. Qed.

#[global] Instance same_node_trans S : Transitive (same_node S).
Proof. intros n1 n2 n3 [O1 I1] [O2 I2]. split; [congruence|by etrans]. Qed.

#[global] Instance frame_refl S : Reflexive (frame S).
Proof. intros e. split; [done|]. intros f n Hn. by exists n. Qed.

#[global] Instance frame_trans S : Transitive (frame S).
Proof.
  intros e1 e2 e3 [H1 N1] [H2 N2]. split.
  - intros x Hx. by rewrite H2, H1.
  - intros f n Hn. destruct (N1 f n Hn) as (n2 & E2 & P2). destruct (N2 f n2 E2) as (n3 & E3 & P3).
    exists n3. split; [done|by etrans].
Qed.

Lemma frame_weaken (S S' : Z -> Prop) e e' : (forall x, S x -> S' x) -> frame S e e' -> frame S' e e'.
Proof.
  intros Hs [H N]. split.
  - intros x Hx. apply H. auto.
  - intros f n Hn. destruct (N f n Hn) as (n' & E & [O P]). exists n'. split; [done|]. split; [done|].
    eapply Forall2_impl; [exact P|]. intros p q [A1 A2 A3 A4]. split; auto.
Qed.

Lemma frame_put (S : Z -> Prop) a s e : S a -> frame S e (put a s e).
Proof.
  intros Ha. split.
  - intros x Hx. cbn. rewrite lookup_insert_ne; [done|]. by intros ->.
  - intros f n Hn. by exists n.
Qed.

Lemma frame_availability (S : Z -> Prop) a t e : S a -> frame S e (updateSignalConsumerInputAvailability a t e).
Proof.
  intros Ha. split; [done|]. intros f n Hn. unfold updateSignalConsumerInputAvailability. cbn. rewrite map_lookup_imap, Hn. cbn.
  eexists. split; [reflexivity|]. case_decide; [|done]. split; cbn; [done|].
  apply Forall2_fmap_r, Forall_Forall2_diag, Forall_true. intros p. cbn. destruct (Z.eqb_spec (p_signal p) a) as [<-|]; [|apply same_port_refl].
  by split.
Qed.

Section Below.
Context (veq : Z -> Z -> bool) (snap : Z -> Z) (e0 : engine) (Htidy : tidy e0) (t : Z).

Definition closed_below (S : Z -> Prop) : Prop := forall a d, S a -> wired e0 a d -> S d.

Lemma dependent_wired e a d e1 sd : thinner e0 e -> d ∈ dependents_of a e -> thinner e0 e1 ->
  heap e1 !! d = Some sd -> baseIndex sd = 0 -> wired e0 a d.
Proof.
  intros Ht Hd Ht1 Hsd Hb. unfold dependents_of in Hd. destruct (heap e !! a) as [s|] eqn:Ea; [|by apply elem_of_nil in Hd].
  apply list_elem_of_filter in Hd as [_ Hd]. destruct (th_signal _ _ Ht a s Ea) as (s0 & E0 & [_ _ _ L _]).
  destruct (th_signal _ _ Ht1 d sd Hsd) as (sd0 & Ed0 & [_ _ [_ I] _ _]).
  destruct (Htidy a s0 E0) as (_ & _ & H). destruct (H d sd0) as [H1 H2]; [by apply L|done|].
  exists sd0. unfold zeroDelayDerived. rewrite H1, <- I, Hb. split_and!; [done|done|done|by exists s0].
Qed.

Lemma fold_stuck {A B} (h : A -> B -> outcome string A) l r r' :
  fold_left (fun r x => let! e := r in h e x) l r = Ret r' -> exists e, r = Ret e.
Proof. revert r. induction l as [|x l IH]; intros r; cbn [fold_left]; [intros ->; by eexists|]. intros [e E]%IH. destruct r; [by eexists|done..]. Qed.

(** What storing a sample [good], at [t], in signals of [S] does to an engine, any number
    of times. *)
Record samples (S : Z -> Prop) (good : Z -> Prop) (R : relation engine) : Prop := {
  sa_refl : Reflexive R;
  sa_trans : Transitive R;
  sa_store : forall e a s s' b v, thinner e0 e -> S a -> good v -> heap e !! a = Some s -> store veq t v s = Ret (s', b) -> R e (put a s' e);
  sa_available : forall e a, S a -> R e (updateSignalConsumerInputAvailability a t e);
  sa_fired : forall e x, R e (set_fired x e);
}.

Lemma samples_fold R {A} (h : engine -> A -> outcome string engine) l e1 e' : Reflexive R -> Transitive R ->
  (forall e x e', x ∈ l -> thinner e0 e -> h e x = Ret e' -> R e e' /\ thinner e e') -> thinner e0 e1 ->
  fold_left (fun r x => let! e := r in h e x) l (Ret e1) = Ret e' -> R e1 e'.
Proof.
  intros HR1 HR2. revert e1. induction l as [|x l IH]; intros e1 Hh Ht; cbn [fold_left]; [by intros [= <-]|].
  intros H. destruct (fold_stuck _ _ _ _ H) as [e2 E]. rewrite E in H. cbn [obind] in E.
  destruct (Hh e1 x e2) as [Hf Ht2]; [by left|done|done|]. etrans; [exact Hf|].
  apply IH; [|by etrans|done]. intros e y e3 Hy. apply Hh. by right.
Qed.

(** A sample stays below the signal it is stored in; publishing it, below what is wired
    to that. *)
Lemma samples_kept (S good : Z -> Prop) R : closed_below S -> (forall v, good v -> good (snap v)) -> samples S good R -> forall fuel,
  (forall v a e e', setValueAt veq snap fuel t v a e = Ret e' -> thinner e0 e -> S a -> good (snap v) -> R e e') /\
  (forall v a e e', publish veq snap fuel t v a e = Ret e' -> thinner e0 e -> good (snap v) -> (forall d, wired e0 a d -> S d) ->
     (forall e, R e (updateSignalConsumerInputAvailability a t e)) -> R e e').
Proof.
  intros Hc Hg [HR1 HR2 Hst Hav Hfi]. induction fuel as [|fuel [IHs IHp]]; [by split|]. split.
  - intros v a e e'. cbn [setValueAt]. destruct (heap e !! a) as [s|] eqn:Ea; [|done].
    destruct (store veq t (snap v) s) as [[s' b]| |] eqn:Es; cbn [obind]; [|done|done].
    intros H Ht Ha Hv. assert (thinner e (put a s' e)) as Hp by (apply (thinner_put e a s); [done|by eapply store_view]).
    etrans; [by eapply (Hst e a)|]. apply (IHp _ _ _ _ H); [by etrans|by apply Hg| |by intros; apply Hav]. intros d. by apply Hc.
  - intros v a e e'. cbn [publish]. destruct (heap e !! a) as [s|] eqn:Ea; [|done]. intros H Ht Hv Hd Ha.
    destruct (fold_left _ _ _) as [e1| |] eqn:E1; cbn [obind] in H; [|done|done].
    apply (samples_fold R (fun e d => match heap e !! d with Some sd => if baseIndex sd =? 0 then let! e := setValueAt veq snap fuel t v d e in Ret (if eventDriven s then e else updateSignalConsumerInputAvailability d t e) else Ret e | None => Ret e end)) in E1; [|done|done| |done].
    + etrans; [exact E1|]. destruct (eventDriven s); [|by injection H as <-]. injection H as <-.
      etrans; [apply Ha|]. by destruct (_ && _).
    + intros e2 d e3 Hdd Ht2. destruct (heap e2 !! d) as [sd|] eqn:Ed; [|by intros [= <-]].
      destruct (Z.eqb_spec (baseIndex sd) 0) as [Hb|]; [|by intros [= <-]].
      destruct (setValueAt veq snap fuel t v d e2) as [e4| |] eqn:E4; cbn [obind]; [|done|done]. intros [= <-].
      assert (S d) as Hsd by (apply Hd; exact (dependent_wired e a d e2 sd Ht Hdd Ht2 Ed Hb)).
      split.
      * etrans; [by eapply IHs|]. destruct (eventDriven s); [done|by apply Hav].
      * etrans; [eapply thinner_setValueAt, E4|]. destruct (eventDriven s); [done|apply thinner_availability].
Qed.

Lemma samples_frame S : samples S (fun _ => True) (frame S).
Proof.
  split; [apply _..|by intros; apply frame_put|by intros; apply frame_availability|].
  intros e x. split; [done|]. intros f n Hn. by exists n.
Qed.

Lemma frame_setValueAt (S : Z -> Prop) fuel v a e e' : closed_below S ->
  setValueAt veq snap fuel t v a e = Ret e' -> thinner e0 e -> S a -> frame S e e'.
Proof. intros Hc H Ht Ha. by apply (proj1 (samples_kept S _ _ Hc (fun _ _ => I) (samples_frame S) fuel) v a). Qed.

(** And the signal then carries it. *)
Definition carried (e : engine) (a v : Z) : Prop := exists s, heap e !! a = Some s /\ sfind t (values s) = Some v.

Definition untouched (a : Z) (e e' : engine) : Prop := heap e' !! a = heap e !! a.

Lemma sample_stored fuel v a e e' : acyclic e0 -> setValueAt veq snap fuel t v a e = Ret e' -> thinner e0 e ->
  carried e' a (snap v).
Proof.
  intros Hac. destruct fuel as [|fuel]; [done|]. cbn [setValueAt]. destruct (heap e !! a) as [s|] eqn:Ea; [|done].
  destruct (store veq t (snap v) s) as [[s' b]| |] eqn:Es; cbn [obind]; [|done|done]. intros H Ht.
  assert (thinner e (put a s' e)) as Hp by (apply (thinner_put e a s); [done|by eapply store_view]).
  pose (S := tc (wired e0) a). assert (~ S a) as Ha.
  { intros Hc. apply (Hac a). eapply tc_mono; [|exact Hc]. intros x y Hxy. apply zedge_iff. by left. }
  assert (untouched a (put a s' e) e') as Hh.
  { apply (proj2 (samples_kept S (fun _ => True) (untouched a) (fun x d Hx Hd => tc_r _ _ _ Hx Hd) (fun _ _ => I) ltac:(split; try done;
      [by intros x y z Hxy Hyz; unfold untouched in *; congruence|intros e1 d sd sd' b1 v1 _ Hd _ _ _; unfold untouched; cbn; apply lookup_insert_ne; by intros ->])
      fuel) (snap v) a); [done|by etrans|done|by intros d; apply tc_once|done]. }
  exists s'. unfold untouched in Hh. rewrite Hh. cbn. rewrite lookup_insert_eq. split; [done|].
  unfold store in Es. destruct (last (values s)) as [[newest w]|]; [|done]. destruct (lastValueBefore t s) as [before| |]; cbn [obind] in Es; [|done|done].
  destruct (veq before (snap v)); [|destruct (suppressInitial _)]; injection Es as <- _; apply (sfind_sset_eq Z.le).
Qed.

(** ** How far a sample goes *)

(** [d] is listed by [a] as following it within the tick. *)
Definition follows (e : engine) (a d : Z) : Prop :=
  d ∈ dependents_of a e /\ exists s, heap e !! d = Some s /\ baseIndex s = 0.

Lemma store_keeps v s s' b : store veq t v s = Ret (s', b) ->
  sfind t (values s') = Some v /\ dependents s' = dependents s /\ baseIndex s' = baseIndex s.
Proof.
  unfold store. destruct (last (values s)) as [[newest w]|]; [|done].
  destruct (lastValueBefore t s) as [before| |]; cbn [obind]; [|done|done].
  destruct (veq before v); [|destruct (suppressInitial _)]; intros [= <- _]; split_and!; try done; apply (sfind_sset_eq Z.le).
Qed.

Lemma follows_put e a s s' : heap e !! a = Some s -> dependents s' = dependents s -> baseIndex s' = baseIndex s ->
  forall x y, follows (put a s' e) x y <-> follows e x y.
Proof.
  intros Ha Hd Hb x y. assert (forall z, live (put a s' e) z = live e z) as Hl.
  { intros z. apply Bool.eq_true_iff_eq. rewrite !live_spec. cbn. destruct (decide (a = z)) as [<-|].
    - rewrite lookup_insert_eq, Ha. split; by eexists.
    - by rewrite lookup_insert_ne. }
  unfold follows, dependents_of. f_equiv.
  - cbn. destruct (decide (a = x)) as [<-|]; [rewrite lookup_insert_eq, Ha, Hd|rewrite lookup_insert_ne by done; destruct (heap e !! x); [|done]];
      rewrite !list_elem_of_filter; by rewrite Hl.
  - cbn. destruct (decide (a = y)) as [<-|]; [|by rewrite lookup_insert_ne].
    rewrite lookup_insert_eq, Ha. split; intros (z & [= <-] & H); eexists; (split; [done|congruence]).
Qed.

(** The value and its snapshots, one for each wire it has gone down. *)
Definition copies (v w : Z) : Prop := exists n, w = Nat.iter n snap v.

Lemma copies_snap v w : copies v w -> copies v (snap w).
Proof. intros [n ->]. by exists (S n). Qed.

Definition carries (v : Z) (e : engine) (a : Z) : Prop := exists w, copies v w /\ carried e a w.

(** What samples of [v] at [t] keep: who follows whom, and who has one already. *)
Definition sends (v : Z) (e e' : engine) : Prop :=
  (forall x y, follows e' x y <-> follows e x y) /\ forall x, carries v e x -> carries v e' x.

#[local] Instance sends_refl v : Reflexive (sends v).
Proof. by intros e. Qed.
#[local] Instance sends_trans v : Transitive (sends v).
Proof. intros e1 e2 e3 [F1 C1] [F2 C2]. split; [|auto]. intros x y. by rewrite F2, F1. Qed.

Lemma sends_samples v : samples (fun _ => True) (copies v) (sends v).
Proof.
  split; [apply _..| |done|done]. intros e a s s' b w _ _ Hw Ha Hst. destruct (store_keeps w s s' b Hst) as (H1 & H2 & H3).
  split; [by eapply follows_put|]. intros x (u & Hu & sx & Hx & Hs). destruct (decide (a = x)) as [<-|].
  - exists w. split; [done|]. exists s'. cbn. by rewrite lookup_insert_eq.
  - exists u. split; [done|]. exists sx. cbn. by rewrite lookup_insert_ne.
Qed.

Lemma sends_set v fuel w a e e' : copies v w -> thinner e0 e -> setValueAt veq snap fuel t w a e = Ret e' -> sends v e e'.
Proof.
  intros Hw Ht H. apply (proj1 (samples_kept (fun _ => True) _ _ (fun _ _ _ _ => I) (copies_snap v) (sends_samples v) fuel) _ _ _ _ H);
    [done|done|by apply copies_snap].
Qed.

Lemma goes_down v fuel :
  (forall w a e e', setValueAt veq snap fuel t w a e = Ret e' -> copies v w -> thinner e0 e ->
     forall d, rtc (follows e) a d -> carries v e' d) /\
  (forall w a e e', publish veq snap fuel t w a e = Ret e' -> copies v w -> thinner e0 e ->
     sends v e e' /\ forall c d, follows e a c -> rtc (follows e) c d -> carries v e' d).
Proof.
  induction fuel as [|fuel [IHs IHp]]; [by split|]. split.
  - intros w a e e'. cbn [setValueAt]. destruct (heap e !! a) as [s|] eqn:Ea; [|done].
    destruct (store veq t (snap w) s) as [[s' b]| |] eqn:Es; cbn [obind]; [|done|done]. intros H Hw Ht d Hd.
    assert (thinner e (put a s' e)) as Hp by (apply (thinner_put e a s); [done|by eapply store_view]).
    destruct (store_keeps _ _ _ _ Es) as (H1 & H2 & H3).
    destruct (IHp _ _ _ _ H (copies_snap _ _ Hw) ltac:(by etrans)) as [Hs Hb].
    destruct Hd as [a|a c d Hc Hd].
    + apply Hs. exists (snap w). split; [by apply copies_snap|]. exists s'. cbn. by rewrite lookup_insert_eq.
    + apply (Hb c); [by apply (follows_put e a s)|]. eapply rtc_subrel; [|exact Hd]. intros x y. by apply (follows_put e a s).
  - intros w a e e'. cbn [publish]. destruct (heap e !! a) as [s|] eqn:Ea; [|done]. intros H Hw Ht.
    destruct (fold_left _ _ _) as [e1| |] eqn:E1; cbn [obind] in H; [|done|done].
    assert (sends v e1 e') as Hlast.
    { destruct (eventDriven s); [|by injection H as <-]. injection H as <-. by destruct (_ && _). }
    set (push := fun e d => match heap e !! d with Some sd => if baseIndex sd =? 0 then let! e := setValueAt veq snap fuel t w d e in Ret (if eventDriven s then e else updateSignalConsumerInputAvailability d t e) else Ret e | None => Ret e end) in E1.
    assert (forall e2 d e3, thinner e0 e2 -> push e2 d = Ret e3 -> sends v e2 e3 /\ thinner e2 e3 /\
      forall sd, heap e2 !! d = Some sd -> baseIndex sd = 0 -> forall x, rtc (follows e2) d x -> carries v e3 x) as Hpush.
    { intros e2 d e3 Ht2. unfold push. destruct (heap e2 !! d) as [sd|] eqn:Ed; [|by intros [= <-]].
      destruct (Z.eqb_spec (baseIndex sd) 0) as [Hb|]; [|by intros [= <-]; split_and!; try done; intros ? [= <-]].
      destruct (setValueAt veq snap fuel t w d e2) as [e4| |] eqn:E4; cbn [obind]; [|done|done]. intros [= <-].
      assert (forall x, carries v e4 x -> carries v (if eventDriven s then e4 else updateSignalConsumerInputAvailability d t e4) x) as Hav
        by (by destruct (eventDriven s)).
      split; [|split].
      - etrans; [by eapply sends_set|]. by destruct (eventDriven s).
      - etrans; [eapply thinner_setValueAt, E4|]. destruct (eventDriven s); [done|apply thinner_availability].
      - intros _ _ _ x Hx. apply Hav. by eapply IHs. }
    assert (forall l e2 e3, thinner e0 e2 -> fold_left (fun r d => let! e := r in push e d) l (Ret e2) = Ret e3 ->
      sends v e2 e3 /\ forall d sd x, d ∈ l -> heap e2 !! d = Some sd -> baseIndex sd = 0 -> rtc (follows e2) d x -> carries v e3 x) as Hfold.
    { induction l as [|d l IH]; intros e2 e3 Ht2; cbn [fold_left]; [intros [= <-]; split; [done|by intros d sd x ?%elem_of_nil]|].
      intros Hf. destruct (fold_stuck _ _ _ _ Hf) as [e4 E]. rewrite E in Hf. cbn [obind] in E.
      destruct (Hpush e2 d e4 Ht2 E) as (S4 & T4 & C4). destruct (IH e4 e3 ltac:(by etrans) Hf) as [S3 C3].
      split; [by etrans|]. intros y sy x [-> |Hy]%elem_of_cons Hsy Hb Hx; [apply S3; by eapply C4|].
      assert (is_Some (heap e4 !! y)) as [sy' Hsy'] by (apply (th_live _ _ T4); by eexists).
      destruct (th_signal _ _ T4 y sy' Hsy') as (z & Hz & [_ _ [_ Hi] _ _]). assert (z = sy) as -> by congruence.
      apply (C3 y sy' x); [done|done|congruence|]. eapply rtc_subrel; [|exact Hx]. intros p q. apply S4. }
    destruct (Hfold _ _ _ Ht E1) as [S1 C1]. split; [by etrans|]. intros c d (Hc & sc & Hsc & Hbc) Hd. apply Hlast. by apply (C1 c sc d).
Qed.

(** Samples from time zero on, with values [good]. *)
Definition sampled (good : Z -> Prop) (e : engine) : Prop :=
  forall a s, heap e !! a = Some s -> Forall (fun x => 0 <= x.1 /\ good x.2) (values s).

Lemma elem_sset_any k v j w (m : list (Z * Z)) : (j, w) ∈ sset Z.le k v m -> (j, w) = (k, v) \/ (j, w) ∈ m.
Proof.
  induction m as [|[i u] m IH]; cbn; [intros ?%list_elem_of_singleton; by left|].
  repeat case_decide; rewrite !elem_of_cons; [tauto..|]. intros [?|?%IH]; tauto.
Qed.

Lemma store_sampled (good : Z -> Prop) v s s' b : 0 <= t -> good v -> Forall (fun x => 0 <= x.1 /\ good x.2) (values s) ->
  store veq t v s = Ret (s', b) -> Forall (fun x => 0 <= x.1 /\ good x.2) (values s').
Proof.
  intros H0 Hv Hs. unfold store. destruct (last (values s)) as [[newest w]|]; [|done].
  destruct (lastValueBefore t s) as [before| |]; cbn [obind]; [|done|done].
  set (kept := if _ && _ then _ else _). assert (Forall (fun x => 0 <= x.1 /\ good x.2) (sset Z.le t v kept)) as Hk.
  { rewrite Forall_forall in Hs |- *. intros [j x] [[= -> ->]|Hj]%elem_sset_any; [by split|].
    apply Hs. unfold kept in Hj. destruct (_ && _); [|done]. rewrite <- (take_drop 1 (values s)), elem_of_app. by right. }
  destruct (veq before v); [by intros [= <- _]|]. destruct (suppressInitial _); by intros [= <- _].
Qed.

Lemma sampled_samples (good : Z -> Prop) : 0 <= t ->
  samples (fun _ => True) good (fun e e' => sampled good e -> sampled good e').
Proof.
  intros H0. split; [by intros x|intros x y z Hxy Hyz Hx; by apply Hyz, Hxy| |by intros e a _ H|by intros e x H].
  intros e1 d sd sd' b v1 _ _ Hv1 Hd Hst He1 x sx. cbn. intros [[<- <-]|[_ Hx]]%lookup_insert_Some; [|by apply (He1 x)].
  eapply store_sampled; [done|exact Hv1| |exact Hst]. by apply (He1 d).
Qed.

Lemma sampled_setValueAt (good : Z -> Prop) fuel v a e e' : (forall v, good v -> good (snap v)) -> 0 <= t ->
  setValueAt veq snap fuel t v a e = Ret e' -> thinner e0 e -> good v -> sampled good e -> sampled good e'.
Proof.
  intros Hg H0 H Ht Hv. apply (proj1 (samples_kept (fun _ => True) good (fun e e' => sampled good e -> sampled good e')
    (fun _ _ _ _ => I) Hg ltac:(by apply sampled_samples) fuel) v a); [done|done|done|by apply Hg].
Qed.
End Below.

(** ** A node's inputs *)

Lemma input_value_ext e e' time p p' : heap e' !! p_signal p = heap e !! p_signal p ->
  p_signal p' = p_signal p -> p_index p' = p_index p -> p_default p' = p_default p ->
  input_value e' time p' = input_value e time p.
Proof. intros Hh Es Ei Ed. unfold input_value. by rewrite Es, Ei, Ed, Hh. Qed.

Lemma port_ready_ext e e' time p p' : heap e' !! p_signal p = heap e !! p_signal p ->
  p_signal p' = p_signal p -> p_index p' = p_index p -> p_default p' = p_default p -> p_available p' = p_available p ->
  port_ready e' time p' = port_ready e time p.
Proof. intros Hh Es Ei Ed Ea. unfold port_ready. by rewrite Es, Ei, Ed, Ea, Hh. Qed.

Definition inputs_of (time : Z) (e : engine) (f : Z) : outcome string (list Z) :=
  match nodes e !! f with Some n => input_values e time (n_inputs n) | None => UB end.

(** Samples elsewhere change neither a node's inputs nor their availability. *)
Lemma inputs_frame S time e e' f n : frame S e e' -> nodes e !! f = Some n -> (forall p, p ∈ n_inputs n -> ~ S (p_signal p)) ->
  inputs_of time e' f = inputs_of time e f /\ inputsAvailableAt e' time f = inputsAvailableAt e time f.
Proof.
  intros [Hh Hn] Ef Hp. destruct (Hn f n Ef) as (n' & Ef' & [_ HF]). unfold inputs_of, inputsAvailableAt. rewrite Ef, Ef'.
  clear Ef Ef' Hn. induction HF as [|p p' ps ps' [A1 A2 A3 A4] _ IH]; [done|]. cbn [input_values ports_ready].
  assert (~ S (p_signal p)) as Hs by (apply Hp; by left). assert (heap e' !! p_signal p = heap e !! p_signal p) as E by (by apply Hh).
  destruct IH as [-> ->]; [intros q Hq; apply Hp; by right|].
  rewrite (input_value_ext e e' time p p' E A1 A2 A3). by rewrite (port_ready_ext e e' time p p' E A1 A2 A3 (A4 Hs)).
Qed.

Lemma sfind_in t v (m : list (Z * Z)) : sfind t m = Some v -> (t, v) ∈ m.
Proof. induction m as [|[j b] m IH]; cbn; [done|]. case_decide as E; [intros [= ->]; rewrite E; by left|]. intros H. right. by apply IH. Qed.

Lemma at_or_before_in t v m : at_or_before t m = Some v -> exists j, (j, v) ∈ m.
Proof.
  unfold at_or_before. destruct (last _) as [[j w]|] eqn:E; cbn; [|done]. intros [= ->]. exists j.
  apply last_Some in E as [l E]. assert ((j, v) ∈ filter (fun x => x.1 <= t) m) as H by (rewrite E; apply elem_of_app; right; by left).
  by apply list_elem_of_filter in H as [_ H].
Qed.

Section Ready.
Context (good : Z -> Prop).

Lemma value_good t s v : Forall (fun x => 0 <= x.1 /\ good x.2) (values s) -> valueAt t s = Ret v -> good v.
Proof.
  intros Hs. rewrite Forall_forall in Hs. unfold valueAt. destruct (sfind t (values s)) as [w|] eqn:E.
  - intros [= ->]. by apply sfind_in in E as [_ ?]%Hs.
  - destruct (at_or_before t (values s)) as [w|] eqn:E2; [|done]. intros [= ->]. by apply at_or_before_in in E2 as [j [_ ?]%Hs].
Qed.

Lemma available_good t s v : Forall (fun x => 0 <= x.1 /\ good x.2) (values s) -> valueIfAvailableAt t s = Some v -> good v.
Proof.
  intros Hs. pose proof Hs as Hs'. rewrite Forall_forall in Hs'. unfold valueIfAvailableAt. destruct (sfind t (values s)) as [w|] eqn:E.
  - intros [= ->]. by apply sfind_in in E as [_ ?]%Hs'.
  - destruct (_ && _); [|done]. destruct (values s) as [|[t0 x] m] eqn:Em; [done|]. destruct (t0 <=? t); [|done].
    intros [j [_ ?]%Hs']%at_or_before_in. done.
Qed.

Lemma latest_nonneg s : Forall (fun x => 0 <= x.1 /\ good x.2) (values s) -> 0 <= latestSampleTime s.
Proof.
  intros Hs. unfold latestSampleTime. destruct (last (values s)) as [[t v]|] eqn:E; [|done]. cbn.
  apply last_Some in E as [l E]. rewrite E in Hs. apply Forall_app in Hs as [_ Hs]. apply Forall_cons in Hs. by destruct Hs as [[? _] _].
Qed.

(** A port that is ready has a value, and it is one of its signal's or its default. *)
Lemma ready_value e time p s : heap e !! p_signal p = Some s -> p_index p = 0 -> 0 <= time < 2 ^ 63 ->
  Forall (fun x => 0 <= x.1 /\ good x.2) (values s) -> (forall d, p_default p = Some d -> good d) ->
  exists b, port_ready e time p = Ret b /\ (b = true -> exists v, input_value e time p = Ret v /\ good v).
Proof.
  intros Hs Hi Ht Hv Hd. unfold port_ready, input_value. rewrite Hs, Hi.
  assert (mul64 (period s) (- 0) = Ret 0) as ->.
  { unfold mul64. rewrite bool_decide_eq_true_2 by (unfold inS; lia). f_equal. lia. }
  assert (sub64 time 0 = Ret time) as E by (unfold sub64; rewrite bool_decide_eq_true_2 by (unfold inS; lia); f_equal; lia).
  cbn [obind]. rewrite E. cbn [obind]. eexists. split; [done|]. intros Hb. pose proof (latest_nonneg s Hv) as Hl.
  assert ((Z.min time (latestSampleTime s) <? 0) = false) as -> by (apply Z.ltb_ge; lia). cbn [andb].
  set (low := Z.min time (latestSampleTime s)) in *. pose proof (value_good low s) as Hg. pose proof (available_good time s) as Ha.
  destruct (valueIfAvailableAt time s) as [v|]; [destruct (isNil v) eqn:En; cbn [negb]|].
  - destruct (p_default p) as [d|]; [by eexists; split; [|by apply Hd]|]. destruct (valueAt low s) as [w| |]; cbn in Hb; rewrite ?andb_false_r in Hb; try done.
    eexists. split; [done|by apply Hg].
  - eexists. split; [done|by apply Ha].
  - destruct (p_default p) as [d|].
    + unfold valueAt in *. destruct (sfind low (values s)) as [w|]; [|destruct (at_or_before low (values s)) as [w|]].
      1,2: destruct (negb (isNil w)); eexists; (split; [done|]); first [by apply Hg|by apply Hd].
      eexists. split; [done|by apply Hd].
    + destruct (valueAt low s) as [w| |]; cbn in Hb; rewrite ?andb_false_r in Hb; try done.
      destruct (isNil w); cbn in Hb; rewrite ?andb_false_r in Hb; [done|]. cbn. eexists. split; [done|by apply Hg].
Qed.

Lemma ready_values e time ps : (forall p, p ∈ ps -> p_index p = 0 /\ is_Some (heap e !! p_signal p) /\ forall d, p_default p = Some d -> good d) ->
  0 <= time < 2 ^ 63 -> sampled good e ->
  exists b, ports_ready e time ps = Ret b /\
    (b = true -> exists vs, input_values e time ps = Ret vs /\ Forall good vs /\ length vs = length ps).
Proof.
  intros Hp Ht Hs. induction ps as [|p ps IH]; cbn [ports_ready input_values]; [exists true; split; [done|by exists []]|].
  destruct (Hp p) as (Hi & [s Hh] & Hd); [by left|].
  destruct (ready_value e time p s Hh Hi Ht (Hs _ s Hh) Hd) as (b & -> & Hb). cbn [obind].
  destruct b; [|by exists false]. destruct Hb as (v & -> & Hv); [done|]. cbn [obind].
  destruct IH as (b & Eb & Hvs); [intros q Hq; apply Hp; by right|]. exists b. split; [done|]. intros ->.
  destruct Hvs as (vs & -> & HF & Hl); [done|]. exists (v :: vs). split_and!; [done|by constructor|cbn; by rewrite Hl].
Qed.
End Ready.

(** ** What a function writes and reads *)

Section Flow.
Context (e0 : engine) (Hok : ok e0).

Definition writes (f x : Z) : Prop := exists n o, nodes e0 !! f = Some n /\ o ∈ n_outputs n /\ rtc (wired e0) o x.
Definition reads (f x : Z) : Prop := exists n p, nodes e0 !! f = Some n /\ p ∈ n_inputs n /\ p_signal p = x.

Lemma source_found o x : (forall s, heap e0 !! o = Some s -> isDerived s = false) -> rtc (wired e0) o x ->
  forall fuel src, zeroDelaySource fuel e0 x = Some src -> src = o.
Proof.
  intros Ho. revert x. apply (rtc_ind_r (fun x => forall fuel src, zeroDelaySource fuel e0 x = Some src -> src = o)).
  - intros [|fuel] src; [done|]. cbn. destruct (heap e0 !! o) as [s|]; [|congruence].
    unfold zeroDelayDerived. rewrite (Ho s eq_refl). cbn. congruence.
  - intros y x _ (s & Hs & Hz & Hb & Hl) IH [|fuel] src; [done|]. cbn. rewrite Hs, Hz.
    assert (baseOf x e0 = Some y) as -> by (apply baseOf_spec; by exists s). apply IH.
Qed.

Lemma underived f n o : registered e0 f n -> o ∈ n_outputs n -> forall s, heap e0 !! o = Some s -> isDerived s = false.
Proof. intros Hr Ho s Hs. destruct (ok_ported _ Hok f n Hr) as (_ & _ & H). by apply (proj1 (H o Ho) s). Qed.

(** Who writes what another reads feeds it; none feeds itself. *)
Lemma writes_feed f g x : f ∈ (funcs e0).*2 -> g ∈ (funcs e0).*2 -> writes f x -> reads g x -> feeds e0 f g.
Proof.
  intros Hf Hg (n & o & Hn & Ho & Hr) (m & p & Hm & Hp & <-).
  destruct (ok_ported _ Hok g m (conj Hg Hm)) as (Hi & _).
  destruct (carries_from e0 (p_signal p) (ok_acyclic _ Hok)) as (src & Hc & _).
  assert (src = o) as -> by (by eapply (source_found o (p_signal p) (underived f n o (conj Hf Hn) Ho) Hr)).
  split; [|exists m, n, p, o; split_and!; auto]. intros ->. assert (n = m) as -> by congruence.
  apply (ok_acyclic _ Hok o). eapply tc_rtc_l; [eapply rtc_subrel; [|exact Hr]; intros a b Hab; apply zedge_iff; by left|].
  apply tc_once, zedge_iff. right. exists g, m, p. split_and!; auto. by split.
Qed.

(** A function's outputs are written by it alone. *)
Lemma writes_own f g n x : f ∈ (funcs e0).*2 -> registered e0 g n -> writes f x -> x ∈ n_outputs n -> f = g.
Proof.
  intros Hf Hg (m & o & Hm & Ho & Hr) Hx. apply rtc_inv_r in Hr as [<-|(y & _ & s & Hs & Hz & _)].
  - destruct (ok_ported _ Hok g n Hg) as (_ & _ & H). by apply (proj2 (H o Hx) f m).
  - unfold zeroDelayDerived in Hz. by rewrite (underived g n x Hg Hx s Hs) in Hz.
Qed.

Lemma writes_closed f : closed_below e0 (writes f).
Proof. intros a d (n & o & Hn & Ho & Hr) Hw. exists n, o. split_and!; [done|done|]. by eapply rtc_r. Qed.

(** Each function once, after those that feed it. *)
Definition in_order (l : list Z) : Prop := NoDup l /\ (forall f, f ∈ l -> f ∈ (funcs e0).*2) /\
  forall l1 f l2, l = l1 ++ f :: l2 -> forall d, d ∈ l -> feeds e0 d f -> d ∈ l1.

Lemma order_quiet l l1 f l2 g x : in_order l -> l = l1 ++ f :: l2 -> g ∈ l1 ++ [f] -> writes f x -> ~ reads g x.
Proof.
  intros (Hnd & Hr & Ho) E Hg Hw Hx.
  assert (f ∈ l) as Hfl by (rewrite E; apply elem_of_app; right; left).
  assert (g ∈ l) as Hgl by (rewrite E; apply elem_of_app in Hg as [?| ->%list_elem_of_singleton]; apply elem_of_app; [by left|right; left]).
  pose proof (writes_feed f g x (Hr f Hfl) (Hr g Hgl) Hw Hx) as Hf. pose proof Hf as [Hne _].
  apply elem_of_app in Hg as [Hg|Hg]; [|apply list_elem_of_singleton in Hg; congruence].
  apply list_elem_of_split in Hg as (k1 & k2 & ->). rewrite <- app_assoc in E. cbn in E.
  pose proof (Ho k1 g _ E f Hfl Hf) as Hk. rewrite E in Hnd. apply NoDup_app in Hnd as (_ & Hd & _). apply (Hd f Hk).
  right. apply elem_of_app. right. left.
Qed.
End Flow.

Section Operations.
Context (veq : Z -> Z -> bool) (snapshot : Z -> Z).

End Operations.

(** Nothing outside [l] is wired to a signal of [l]. *)
Definition wiredb (e : engine) (l : list Z) : bool :=
  bool_decide (map_Forall (fun y s => zeroDelayDerived s && (if baseSignal s is Some b then bool_decide (b ∈ l) else false) = true -> y ∈ l) (heap e)).

Lemma wiredb_closed e l a d : wiredb e l = true -> a ∈ l -> rtc (wired e) a d -> d ∈ l.
Proof.
  intros H%bool_decide_eq_true Ha Hd. revert d Hd. refine (rtc_ind_r (fun d => d ∈ l) a Ha _).
  intros x y _ (s & Hs & Hz & Hb & _) Hx. apply (H y s Hs). rewrite Hz, Hb. by apply bool_decide_eq_true.
Qed.


End DataflowFrame.
