(* ===== verification/DataflowSettle.v ===== *)
(** * DataflowSettle: an island settles in one round

    The first round is the only one in which bodies run ([rounds_settle]), and at its end
    every function's outputs are those of its present inputs ([evaluation_settles]).  The
    last lemmas are the three ways out: a reader faster than what it reads runs twice, a
    NaN is always new, and a tick evaluates the background islands as well. *)

From S2P Require Import Prelude SortedMap Value Signals Dataflow DataflowWires DataflowIslands DataflowEnds DataflowProofs DataflowEval DataflowFrame.
From stdpp Require Import numbers pretty.

Module DataflowSettle.

Import Signals Dataflow DataflowWires DataflowIslands DataflowEnds DataflowProofs DataflowEval DataflowFrame.
Local Open Scope Z_scope.

(** ** Running the functions *)

Section Run.
Context (veq : Z -> Z -> bool) (snap : Z -> Z) (body : Z -> list Z -> outcome string (list Z)).
Context (e0 : engine) (Hok : ok e0) (good : Z -> Prop) (time : Z) (Htime : 0 <= time < 2 ^ 63).

(** Values equal to themselves; bodies return, as many of them as their function has
    outputs. *)
Record lawful : Prop := {
  la_equal : forall v, good v -> veq v v = true;
  la_snapshot : forall v, good v -> good (snap v);
  la_nil : good nilVal;
  la_defaults : forall f n p d, registered e0 f n -> p ∈ n_inputs n -> p_default p = Some d -> good d;
  la_bodies : forall f n ins, registered e0 f n -> Forall good ins -> length ins = length (n_inputs n) ->
    exists outs, body f ins = Ret outs /\ length outs = length (n_outputs n) /\ Forall good outs;
}.
Context (Hlaw : lawful).

(** The network as rebuilt, but for samples. *)
Record running (e : engine) : Prop := {
  ru_thinner : thinner e0 e;
  ru_frame : frame (fun _ => True) e0 e;
  ru_sampled : sampled good e;
}.

Lemma running_node e f n : running e -> nodes e0 !! f = Some n ->
  exists n', nodes e !! f = Some n' /\ same_node (fun _ => True) n n'.
Proof. intros [_ [_ H] _]. apply H. Qed.

Lemma running_outputs e f n : running e -> nodes e0 !! f = Some n -> outputs_of e f = n_outputs n.
Proof. intros Hr Hn. destruct (running_node e f n Hr Hn) as (n' & E & [Ho _]). unfold outputs_of. by rewrite E, Ho. Qed.

Lemma same_ports (S : Z -> Prop) ps ps' : Forall2 (same_port S) ps ps' -> length ps' = length ps /\
  forall p', p' ∈ ps' -> exists p, p ∈ ps /\ same_port S p p'.
Proof.
  intros HF. split; [symmetry; by eapply Forall2_length|]. intros p' [k Hk]%list_elem_of_lookup.
  rewrite Forall2_lookup in HF. specialize (HF k). rewrite Hk in HF. inversion HF as [p q Hp Hq|]; subst.
  exists p. split; [symmetry in Hq; by eapply list_elem_of_lookup_2|done].
Qed.

(** Samples keep a network running. *)
Lemma running_set e fuel v a e' : running e -> good v -> setValueAt veq snap fuel time v a e = Ret e' -> running e'.
Proof.
  intros [Ht Hf Hs] Hv H. split.
  - etrans; [exact Ht|]. by eapply thinner_setValueAt.
  - etrans; [exact Hf|]. by eapply (frame_setValueAt veq snap e0 (ok_tidy _ Hok)).
  - apply (sampled_setValueAt veq snap e0 (ok_tidy _ Hok) time good fuel v a e); [apply (la_snapshot Hlaw)|lia|done..].
Qed.

Lemma running_availability e a t : running e -> running (updateSignalConsumerInputAvailability a t e).
Proof. intros [Ht Hf Hs]. split; [etrans; [exact Ht|apply thinner_availability]|etrans; [exact Hf|by apply frame_availability]|done]. Qed.

Lemma sample_ends e v a : running e -> is_Some (heap e0 !! a) -> exists e', setValueAt veq snap (sample_fuel e) time v a e = Ret e'.
Proof. intros [Ht _ _] Ha. by apply (setValueAt_ends veq snap e0 (Build_sound _ (ok_acyclic _ Hok) (ok_tidy _ Hok))). Qed.

(** A node's inputs are there or not; there, they are its ports' many good values. *)
Lemma inputs_total e f n : running e -> registered e0 f n -> exists b, inputsAvailableAt e time f = Ret b /\
  (b = true -> exists ins, inputs_of time e f = Ret ins /\ Forall good ins /\ length ins = length (n_inputs n)).
Proof.
  intros Hr Hf. destruct (running_node e f n Hr (proj2 Hf)) as (n' & E & [_ HF]). destruct (same_ports _ _ _ HF) as [Hl Hp].
  unfold inputsAvailableAt, inputs_of. rewrite E, <- Hl. apply (ready_values good); [|done|apply (ru_sampled _ Hr)].
  intros p' Hp'. destruct (Hp p' Hp') as (p & Hpn & [Es Ei Ed _]). rewrite Es, Ei, Ed. split_and!.
  - by apply (ok_ported _ Hok f n Hf).
  - apply (th_live _ _ (ru_thinner _ Hr)). by apply (wf_inputs _ (ok_wf _ Hok) f n).
  - intros d. by apply (la_defaults Hlaw f n).
Qed.

(** Publishing writes below the outputs, and each carries its value. *)
Lemma publish_spec f n : registered e0 f n -> forall os outs e, os ⊆ n_outputs n -> NoDup os -> length outs = length os ->
  Forall good outs -> running e -> exists e', publish_outputs veq snap time os outs e = Ret e' /\ running e' /\
    frame (writes e0 f) e e' /\ Forall2 (fun o v => carried time e' o (snap v)) os outs /\
    forall o, o ∈ n_outputs n -> o ∉ os -> heap e' !! o = heap e !! o.
Proof.
  intros Hf. induction os as [|o os IH]; intros outs e Hos Hnd Hl Hg Hr.
  { destruct outs; [|done]. exists e. split_and!; [done|done|done|constructor|done]. }
  destruct outs as [|v outs]; [done|]. cbn [publish_outputs]. apply NoDup_cons in Hnd as [Ho Hnd]. apply Forall_cons in Hg as [Hv Hg].
  assert (o ∈ n_outputs n) as Hon by (apply Hos; left).
  destruct (sample_ends e v o Hr) as [e1 E1]; [by apply (wf_outputs _ (ok_wf _ Hok) f n)|]. rewrite E1. cbn [obind].
  pose proof (running_set _ _ _ _ _ Hr Hv E1) as Hr1.
  destruct (IH outs e1) as (e2 & E2 & Hr2 & Hf2 & Hc2 & Hu2); [by intros x Hx; apply Hos; right|done|cbn in Hl; lia|done|done|].
  exists e2. split_and!; [done|done| | |].
  - etrans; [|exact Hf2]. eapply (frame_setValueAt veq snap e0 (ok_tidy _ Hok)); [apply writes_closed|exact E1|apply (ru_thinner _ Hr)|].
    exists n, o. split_and!; [apply Hf|done|done].
  - constructor; [|done]. unfold carried. rewrite (Hu2 o Hon Ho).
    by apply (sample_stored veq snap e0 (ok_tidy _ Hok) time _ v o e e1 (ok_acyclic _ Hok) E1 (ru_thinner _ Hr)).
  - intros x Hx Hxo. apply not_elem_of_cons in Hxo as [Hxo Hxos]. rewrite (Hu2 x Hx Hxos).
    assert (closed_below e0 (rtc (wired e0) o)) as Hc by (intros a d Ha Hw; by eapply rtc_r).
    apply (fr_heap _ _ _ (frame_setValueAt veq snap e0 (ok_tidy _ Hok) time _ _ v o e e1 Hc E1 (ru_thinner _ Hr) (rtc_refl _ _))).
    intros [->|(y & _ & s & Hs & Hz & _)]%rtc_inv_r; [done|]. unfold zeroDelayDerived in Hz.
    by rewrite (underived e0 Hok f n x Hf Hx s Hs) in Hz.
Qed.

Lemma available_spec f n st : registered e0 f n -> running (network st) ->
  let st' := outputs_available time f st in running (network st') /\ frame (writes e0 f) (network st) (network st') /\
    heap (network st') = heap (network st) /\ previous st' = previous st /\ trace st' = trace st.
Proof.
  intros Hf Hr. unfold outputs_available. rewrite (running_outputs _ f n Hr (proj2 Hf)). cbn.
  assert (forall os e, os ⊆ n_outputs n -> running e ->
    let e' := fold_left (fun e o => updateSignalConsumerInputAvailability o time e) os e in
    running e' /\ frame (writes e0 f) e e' /\ heap e' = heap e) as H.
  { induction os as [|o os IH]; intros e Hos He; cbn [fold_left]; [done|].
    destruct (IH (updateSignalConsumerInputAvailability o time e)) as (H1 & H2 & H3);
      [by intros x Hx; apply Hos; right|by apply running_availability|]. split_and!; [done| |by rewrite H3].
    etrans; [|exact H2]. apply frame_availability. exists n, o. split_and!; [apply Hf|apply Hos; left|done]. }
  destruct (H (n_outputs n) (network st)) as (H1 & H2 & H3); [done..|]. by split_and!.
Qed.

(** ** A round *)

Definition ran (log : list (Z * list Z * list Z)) : list Z := log.*1.*1.

(** At the end of a tick: [f] lacks an input, or its last inputs are its present ones;
    if these are new it has run on them, once, and its outputs carry what the body gave. *)
Definition settled (st0 st : eval) (log : list (Z * list Z * list Z)) (f : Z) : Prop :=
  (f ∉ ran log /\ inputsAvailableAt (network st) time f = Ret false) \/
  exists ins, inputsAvailableAt (network st) time f = Ret true /\ inputs_of time (network st) f = Ret ins /\ previous st !! f = Some ins /\
    ((f ∉ ran log /\ values_eq veq (previousInputValues st0 f) ins = true) \/
     exists outs, (f, ins, outs) ∈ log /\ body f ins = Ret outs /\
       Forall2 (fun o v => carried time (network st) o (snap v)) (outputs_of (network st) f) outs).

(** What [f] writes leaves alone what [g] read. *)
Lemma inputs_kept f g n e e' : registered e0 g n -> running e -> frame (writes e0 f) e e' ->
  (forall x, writes e0 f x -> ~ reads e0 g x) ->
  inputs_of time e' g = inputs_of time e g /\ inputsAvailableAt e' time g = inputsAvailableAt e time g.
Proof.
  intros Hg Hr Hf Hq. destruct (running_node e g n Hr (proj2 Hg)) as (n' & E & [_ HF]). destruct (same_ports _ _ _ HF) as [_ Hp].
  apply (inputs_frame (writes e0 f) time e e' g n' Hf E). intros p' Hp' Hw. destruct (Hp p' Hp') as (p & Hpn & [Es _ _ _]).
  apply (Hq _ Hw). exists n, p. split_and!; [apply Hg|done|done].
Qed.

Lemma settled_kept f g n st0 st st' log more : f ∈ (funcs e0).*2 -> registered e0 g n -> g <> f -> ran more ⊆ [f] ->
  (forall x, writes e0 f x -> ~ reads e0 g x) -> running (network st) -> running (network st') ->
  frame (writes e0 f) (network st) (network st') -> previous st' !! g = previous st !! g ->
  settled st0 st log g -> settled st0 st' (log ++ more) g.
Proof.
  intros Hf Hg Hne Hm Hq Hr Hr' HF Hp. destruct (inputs_kept f g n _ _ Hg Hr HF Hq) as [E1 E2].
  assert (g ∉ ran log -> g ∉ ran (log ++ more)) as Hran.
  { unfold ran in *. rewrite !fmap_app. intros Hn [?|Hin%Hm]%elem_of_app; [done|]. by apply list_elem_of_singleton in Hin. }
  intros [[H1 H2]|(ins & H1 & H2 & H3 & H4)]; [left; rewrite E2; by split; [apply Hran|]|right]. exists ins. rewrite E1, E2, Hp. split_and!; [done..|].
  destruct H4 as [[H4 H5]|(outs & H4 & H5 & H6)]; [left; by split; [apply Hran|]|right]. exists outs. split_and!; [apply elem_of_app; by left|done|].
  rewrite (running_outputs _ g n Hr' (proj2 Hg)). rewrite (running_outputs _ g n Hr (proj2 Hg)) in H6.
  apply Forall2_same_length_lookup in H6 as [Hl H6]. apply Forall2_same_length_lookup. split; [done|]. intros k o v Ho Hv.
  specialize (H6 k o v Ho Hv). unfold carried. rewrite (fr_heap _ _ _ HF); [done|]. intros Hw.
  apply Hne. symmetry. apply (writes_own e0 Hok f g n o Hf Hg Hw). by eapply list_elem_of_lookup_2.
Qed.

(** After the functions of [ls]. *)
Record after (st0 st : eval) (log : list (Z * list Z * list Z)) (ls : list Z) : Prop := {
  af_running : running (network st);
  af_trace : trace st = trace st0 ++ log;
  af_ran : ran log `sublist_of` ls;
  af_settled : forall g, g ∈ ls -> settled st0 st log g;
  af_later : forall g, g ∉ ls -> previous st !! g = previous st0 !! g;
}.

(** One step of a round, whatever follows. *)
Lemma step_after l ls f rest st0 st log : in_order e0 l -> l = ls ++ f :: rest -> after st0 st log ls ->
  exists st' log' k, after st0 st' log' (ls ++ [f]) /\ forall r m st'', run_funcs veq snap body time rest st' = Ret (r, m, st'') ->
    run_funcs veq snap body time (f :: rest) st = Ret (r, (k + m)%nat, st'').
Proof.
  intros Hord E [Hr Htr Hran Hset Hlat]. pose proof Hord as (Hnd & Hreg & _).
  assert (forall g, g ∈ ls ++ [f] -> exists n, registered e0 g n) as Hnode.
  { intros g Hg. assert (g ∈ (funcs e0).*2) as Hg'.
    { apply Hreg. rewrite E. apply elem_of_app in Hg as [?|Hg]; apply elem_of_app; [by left|right].
      apply list_elem_of_singleton in Hg as ->. left. }
    destruct (wf_funcs _ (ok_wf _ Hok) g Hg') as [n Hn]. by exists n. }
  assert (f ∈ ls ++ [f]) as Hfin by (apply elem_of_app; right; left).
  destruct (Hnode f Hfin) as [nf Hf]. pose proof (proj1 Hf) as Hff.
  assert (f ∉ ls) as Hfls.
  { intros Hin. rewrite E in Hnd. apply NoDup_app in Hnd as (_ & Hd & _). apply (Hd f Hin). left. }
  assert (f ∉ ran log) as Hfran by (intros Hin; apply Hfls; by eapply sublist_subseteq).
  assert (forall g x, g ∈ ls ++ [f] -> writes e0 f x -> ~ reads e0 g x) as Hquiet by (intros g x; by apply (order_quiet e0 Hok l ls f rest)).
  (* what the others keep, for any outcome of [f] *)
  assert (forall st' more, running (network st') -> frame (writes e0 f) (network st) (network st') ->
    (forall g, g <> f -> previous st' !! g = previous st !! g) -> trace st' = trace st ++ more -> ran more `sublist_of` [f] ->
    settled st0 st' (log ++ more) f -> after st0 st' (log ++ more) (ls ++ [f])) as Hafter.
  { intros st' more Hr' HF Hp Ht Hm Hs. split.
    - done.
    - by rewrite Ht, Htr, app_assoc.
    - unfold ran. rewrite !fmap_app. by apply sublist_app.
    - intros g [Hg|Hg]%elem_of_app; [|apply list_elem_of_singleton in Hg; by subst].
      destruct (Hnode g) as [n Hgn]; [apply elem_of_app; by left|].
      apply (settled_kept f g n st0 st); [done|done|by intros ->|by apply sublist_subseteq| |done|done|done| |by apply Hset].
      + intros x. apply Hquiet, elem_of_app. by left.
      + apply Hp. by intros ->.
    - intros g [Hg1 Hg2]%not_elem_of_app. rewrite Hp; [by apply Hlat|]. intros ->. apply Hg2. left. }
  destruct (inputs_total _ f nf Hr Hf) as (b & Hb & Hins). destruct b.
  2:{ exists st, log, 0%nat. split.
      - rewrite <- (app_nil_r log). apply Hafter; [done|done|done|by rewrite app_nil_r|apply sublist_nil_l|].
        left. rewrite app_nil_r. by split.
      - intros r m st'' H. cbn [run_funcs]. rewrite Hb. cbn [obind]. exact H. }
  destruct Hins as (ins & Hi & Hg & Hl); [done|].
  destruct (running_node _ f nf Hr (proj2 Hf)) as (n' & En & [Hout HF]).
  assert (input_values (network st) time (n_inputs n') = Ret ins) as Hi' by (unfold inputs_of in Hi; by rewrite En in Hi).
  destruct (values_eq veq (previousInputValues st f) ins) eqn:Eq.
  - exists (set_previous f ins st), log, 0%nat. split.
    + rewrite <- (app_nil_r log). apply Hafter; [done|done| |by rewrite app_nil_r|apply sublist_nil_l|].
      { intros g Hne. cbn. by rewrite lookup_insert_ne. }
      right. exists ins. rewrite app_nil_r. split_and!; [done|done|apply lookup_insert_eq|left]. split; [done|].
      unfold previousInputValues in *. by rewrite <- (Hlat f Hfls).
    + intros r m st'' H. cbn [run_funcs]. rewrite Hb. cbn [obind]. unfold conditionallyExecute. rewrite En, Hi'. cbn [obind]. by rewrite Eq.
  - destruct (la_bodies Hlaw f nf ins Hf Hg) as (outs & Eb & Hlo & Hgo); [done|].
    destruct (publish_spec f nf Hf (n_outputs nf) outs (network st)) as (e1 & E1 & Hr1 & HF1 & Hc1 & _);
      [done|by apply (ok_ported _ Hok f nf Hf)|done|done|done|].
    set (st1 := mkEval e1 (<[f := ins]> (previous st)) (failed st ∖ {[f]}) (trace st ++ [(f, ins, outs)])).
    destruct (available_spec f nf st1 Hf Hr1) as (Hr2 & HF2 & Hh2 & Hp2 & Ht2). set (st2 := outputs_available time f st1) in *.
    assert (frame (writes e0 f) (network st) (network st2)) as HF12 by (etrans; [exact HF1|exact HF2]).
    exists st2, (log ++ [(f, ins, outs)]), 1%nat. split.
    + apply Hafter; [done|done| |by rewrite Ht2|done|].
      { intros g Hne. rewrite Hp2. cbn. by rewrite lookup_insert_ne. }
      right. exists ins. destruct (inputs_kept f f nf _ _ Hf Hr HF12) as [K1 K2]; [intros x; by apply Hquiet|].
      rewrite K1, K2, Hp2. split_and!; [done|done|apply lookup_insert_eq|right]. exists outs.
      split_and!; [apply elem_of_app; right; left|done|]. rewrite (running_outputs _ f nf Hr2 (proj2 Hf)). unfold carried. rewrite Hh2. exact Hc1.
    + intros r m st'' H. cbn [run_funcs]. rewrite Hb. cbn [obind]. unfold conditionallyExecute. rewrite En, Hi'. cbn [obind]. rewrite Eq, Eb. cbn [obind].
      unfold finishEvaluation. rewrite Hout, Hlo, Nat.eqb_refl. cbn [negb]. rewrite E1. cbn [obind]. fold st1. fold st2. by rewrite H.
Qed.

Lemma round_after l st0 : in_order e0 l -> forall rest ls st log, l = ls ++ rest -> after st0 st log ls ->
  exists st' log' m, after st0 st' log' l /\ run_funcs veq snap body time rest st = Ret (Complete, m, st').
Proof.
  intros Hord. induction rest as [|f rest IH]; intros ls st log E Ha.
  { exists st, log, 0%nat. rewrite app_nil_r in E. by subst. }
  destruct (step_after l ls f rest st0 st log Hord E Ha) as (st1 & log1 & k & Ha1 & Hk).
  destruct (IH (ls ++ [f]) st1 log1) as (st' & log' & m & Ha' & Hm); [by rewrite <- app_assoc|done|].
  exists st', log', (k + m)%nat. split; [done|]. by apply Hk.
Qed.

(** Once settled, nothing runs. *)
Lemma round_still st0 st log fs : running (network st) -> (forall f, f ∈ fs -> f ∈ (funcs e0).*2 /\ settled st0 st log f) ->
  run_funcs veq snap body time fs st = Ret (Complete, 0%nat, st).
Proof.
  intros Hr. induction fs as [|f fs IH]; intros Hs; [done|]. destruct (Hs f) as [Hf Hset]; [left|].
  assert (run_funcs veq snap body time fs st = Ret (Complete, 0%nat, st)) as H by (apply IH; intros g Hg; apply Hs; by right).
  destruct (wf_funcs _ (ok_wf _ Hok) f Hf) as [n Hn]. destruct (inputs_total _ f n Hr (conj Hf Hn)) as (b & Hb & Hins).
  cbn [run_funcs]. rewrite Hb. cbn [obind]. destruct b; [|done]. destruct Hins as (ins & Hi & Hg & _); [done|].
  destruct Hset as [[_ H2]|(ins' & _ & H2 & H3 & _)]; [congruence|]. assert (ins' = ins) as -> by congruence.
  unfold inputs_of in Hi. unfold conditionallyExecute. destruct (nodes (network st) !! f) as [n'|]; [|done]. rewrite Hi. cbn [obind].
  unfold previousInputValues. rewrite H3. cbn [default from_option id].
  assert (values_eq veq ins ins = true) as ->.
  { clear -Hg Hlaw. induction Hg as [|v vs Hv _ IH]; [done|]. cbn. by rewrite (la_equal Hlaw v Hv), IH. }
  assert (set_previous f ins st = st) as ->; [|done]. unfold set_previous. destruct st as [e p fl tr]. cbn in *. by rewrite insert_id.
Qed.

Lemma rounds_settle l st more : in_order e0 l -> running (network st) -> (2 <= more)%nat ->
  exists st' log, after st st' log l /\ rounds veq snap body more time l st = Ret (Complete, st').
Proof.
  intros Hord Hr Hm. destruct (round_after l st Hord l [] st []) as (st' & log & m & Ha & Hrun); [done| |].
  { split; [done|by rewrite app_nil_r|done|by intros g ?%elem_of_nil|done]. }
  exists st', log. split; [done|]. destruct more as [|[|more]]; [lia..|]. cbn [rounds]. rewrite Hrun. cbn [obind].
  destruct (Nat.eqb_spec m 0); [done|].
  rewrite (round_still st st' log l (af_running _ _ _ _ Ha)); [done|]. intros f Hf. split; [by apply Hord|by apply (af_settled _ _ _ _ Ha)].
Qed.

(** ** Delayed signals *)

Lemma pulled_good e s v : sampled good e -> pulled e time s = Some (Ret v) -> good v.
Proof.
  intros Hs. unfold pulled. destruct (_ && _); [|done]. destruct (b ← baseSignal s; heap e !! b) as [src|] eqn:Eb; [|done].
  assert (Forall (fun x => 0 <= x.1 /\ good x.2) (values src)) as Hv.
  { destruct (baseSignal s) as [b|]; [|done]. by apply (Hs b). }
  pose proof (la_nil Hlaw) as Hnil. pose proof Hv as Hv'. rewrite Forall_forall in Hv'.
  assert (forall w, lastValue src = Ret w -> good w) as Hlast.
  { intros w. unfold lastValue. destruct (last (values src)) as [[j x]|] eqn:El; [|done]. intros [= <-].
    apply last_Some in El as [m El]. apply (Hv' (j, x)). rewrite El. apply elem_of_app. right. left. }
  destruct (period src =? 0); [destruct (lastValue src) as [w|x|] eqn:Ew; intros [= <-]; [by apply Hlast|done]|].
  destruct (valueAtIndex _ _ _) as [w|x|] eqn:Ew; intros [= <-]; [|done]. unfold valueAtIndex in Ew.
  destruct (0 <? baseIndex s); [done|]. destruct (values src) as [|[t0 v0] m] eqn:Em; [done|].
  destruct (eventDriven src); [destruct (baseIndex s =? 0); [by apply Hlast|done]|].
  destruct (baseIndex s =? - 2 ^ 31); [done|]. destruct (mul64 _ _) as [d| |]; cbn [obind] in Ew; [|done|done].
  destruct (sub64 _ _) as [u| |]; cbn [obind] in Ew; [|done|done].
  destruct (u <? t0); [injection Ew as <-; apply (Hv' (t0, v0)); left|]. apply (value_good good u src); [by rewrite Em|done].
Qed.

Lemma running_refresh ls : forall e e', running e -> refreshDerivedSignals veq snap time ls e = Ret e' -> running e'.
Proof.
  induction ls as [|a ls IH]; intros e e' Hr; cbn -[setValueAt]; [by intros [= <-]|].
  destruct (s ← heap e !! a; pulled e time s) as [[v| |]|] eqn:Ep; cbn [obind]; [|done|done|by apply IH].
  destruct (setValueAt _ _ _ _ _ _ _) as [e1| |] eqn:E; cbn [obind]; [|done|done]. apply IH, running_availability.
  destruct (heap e !! a) as [s|]; [|done]. cbn in Ep. eapply (running_set _ _ v); [exact Hr| |exact E].
  by eapply pulled_good; [apply Hr|].
Qed.
End Run.

(** ** An island of a running program *)

Lemma turn_in_order e gs fs : ascending Z.le gs -> NoDup fs -> (forall p l, (p, l) ∈ gs -> ordered e (filter (fun f => per e f = p) fs) l) ->
  (forall d f, d ∈ fs -> f ∈ fs -> feeds e d f -> per e d <= per e f) ->
  NoDup (mjoin (map snd gs)) /\ (forall f, f ∈ mjoin (map snd gs) -> f ∈ fs /\ per e f ∈ gs.*1) /\
  forall l1 f l2, mjoin (map snd gs) = l1 ++ f :: l2 -> forall d, d ∈ mjoin (map snd gs) -> feeds e d f -> d ∈ l1.
Proof.
  intros Ha Hnd Hgs Hper. induction gs as [|[p l] gs IH]; cbn.
  { split; [apply NoDup_nil_2|]. split; [by intros f ?%elem_of_nil|]. by intros [] ? ?. }
  apply StronglySorted_inv in Ha as [Ha Hlt]. rewrite Forall_forall in Hlt.
  destruct IH as (I1 & I2 & I3); [done|intros q k Hq; apply Hgs; by right|].
  destruct (Hgs p l) as [HP Hord]; [left|].
  assert (forall f, f ∈ l <-> per e f = p /\ f ∈ fs) as Hl by (intros f; by rewrite HP, list_elem_of_filter).
  assert (forall f, f ∈ l -> f ∉ mjoin (map snd gs)) as Hdis.
  { intros f [Hf _]%Hl [_ Hin]%I2. apply Hlt in Hin. cbn in Hin. rewrite Hf in Hin. by apply (lt_ne Z.le) in Hin. }
  split_and!.
  - apply NoDup_app. split_and!; [|done|done]. rewrite HP. by apply NoDup_filter.
  - intros f [[<- Hf]%Hl|[Hf Hp]%I2]%elem_of_app; (split; [done|]); [left|by right].
  - intros l1 f l2 E d Hd Hfd. apply app_eq_inv in E as [(k & -> & E)|(k & -> & E)].
    + destruct k as [|g k]; cbn in E.
      * rewrite !app_nil_r in *. apply elem_of_app in Hd as [Hd|Hd]; [done|]. exfalso.
        pose proof (I3 [] f l2 (eq_sym E) d Hd Hfd) as H. by apply elem_of_nil in H.
      * injection E as <- ->. assert (f ∈ l1 ++ f :: k) as Hf by (apply elem_of_app; right; left).
        apply elem_of_app in Hd as [Hd|Hd].
        { apply (Hord l1 f k eq_refl d); [by rewrite <- HP|done]. }
        exfalso. apply Hl in Hf as [Hpf Hff]. apply I2 in Hd as [Hdf Hdp]. apply Hlt in Hdp. cbn in Hdp.
        pose proof (Hper d f Hdf Hff Hfd). destruct Hdp as [? []]. lia.
    + apply elem_of_app. apply elem_of_app in Hd as [Hd|Hd]; [by left|right]. by apply (I3 k f l2 E d).
Qed.

Lemma island_members e e' i : ok e -> buildNetworkCacheData e = Ret e' -> i ∈ islands e' ->
  NoDup (i_funcs i) /\ (forall f, f ∈ i_funcs i -> f ∈ (funcs e').*2).
Proof.
  intros Hok E Hi. destruct (rebuild_spec e Hok) as (e'' & isl & E' & [Ef _ (e2 & He2 & HF & He2') _]). rewrite E in E'. injection E' as <-.
  destruct (islands_found e (ok_wf _ Hok)) as (isl' & v & Ei & Hil & _). rewrite Ef in Ei. injection Ei as <-.
  apply list_elem_of_lookup in Hi as [k Hk]. rewrite Forall2_lookup in HF. specialize (HF k). rewrite Hk in HF.
  inversion HF as [j i' [[_ Efs] _ _ _] Hj|]; subst i'. symmetry in Hj. apply list_elem_of_lookup_2 in Hj. rewrite Efs.
  destruct (il_nodup _ _ _ Hil) as [_ Hnd]. split.
  - apply list_elem_of_split in Hj as (l1 & l2 & ->). rewrite map_app in Hnd. cbn in Hnd. rewrite join_app in Hnd. cbn in Hnd.
    apply NoDup_app in Hnd as (_ & _ & Hnd). by apply NoDup_app in Hnd as (Hnd & _ & _).
  - intros f Hf. assert (in_seen v (inr f)) as Hs by (apply (il_seen _ _ _ Hil); by exists j).
    apply (il_thing _ _ _ Hil) in Hs as (n & Hr & _). rewrite He2. cbn. rewrite He2'.
    destruct (thinner_periods (buildSignalConsumers e)) as (_ & -> & _). done.
Qed.

(** C16. An island settles in one round.  Suppose the values about are [lawful]: each is equal
    to itself (no NaN), a snapshot of one is one, the defaults of parameters are ones, and
    on such inputs every body returns, without an exception, one such value for each
    output.  Take any rebuilt network, after any number of such samples and evaluations
    ([running]), and an island where no function feeds one of a shorter period; its
    delayed signals refreshed without an exception, evaluating it completes.  The functions that ran did so once each, in
    their order.  In the end every function lacks an input, or has last seen exactly its
    present inputs, and if these were new to it its body ran on them and its outputs
    carry, at this time, what the body returned. *)
Theorem evaluation_settles veq snap body good e e' i time st e1 :
  reachable veq snap e -> buildNetworkCacheData e = Ret e' -> i ∈ islands e' ->
  (forall d f, d ∈ i_funcs i -> f ∈ i_funcs i -> feeds e' d f -> per e' d <= per e' f) ->
  lawful veq snap body e' good -> 0 <= time < 2 ^ 63 -> running e' good (network st) ->
  refreshDerivedSignals veq snap time (i_signals i) (network st) = Ret e1 ->
  exists st' log, evaluateIsland veq snap body time i st = Ret (Complete, st') /\ running e' good (network st') /\
    trace st' = trace st ++ log /\ ran log `sublist_of` in_turn i /\
    forall f, f ∈ i_funcs i -> settled veq snap body time st st' log f.
Proof.
  intros Hreach E Hi Hper Hlaw Ht Hr Href. pose proof (ok_reachable _ _ _ Hreach) as Hok.
  assert (ok e') as Hok' by (eapply thinner_ok; [by apply thinner_build|done]).
  destruct (island_members e e' i Hok E Hi) as [Hnd Hreg]. destruct (island_orders_exact e e' i Hok E Hi) as (Ha & Hgs & Hall).
  destruct (turn_in_order e' (i_orders i) (i_funcs i) Ha Hnd Hgs Hper) as (T1 & T2 & T3).
  pose proof (running_refresh veq snap body e' Hok' good time Ht Hlaw _ _ _ Hr Href) as Hr1.
  unfold evaluateIsland. rewrite Href. cbn [obind]. set (st1 := set_network_of e1 st).
  assert (in_order e' (in_turn i)) as Hord by (split_and!; [done|by intros f [Hf _]%T2; apply Hreg|done]).
  destruct (i_funcs i) as [|f0 fs] eqn:Ef.
  { exists st1, []. split_and!; [done|done|by rewrite app_nil_r|apply sublist_nil_l|by intros f ?%elem_of_nil]. }
  destruct (rounds_settle veq snap body e' Hok' good time Ht Hlaw (in_turn i) st1 (length (f0 :: fs) * 100) Hord Hr1) as (st' & log & [A1 A2 A3 A4 _] & ->);
    [cbn; lia|].
  exists st', log. split_and!; [done|done|done|done|]. intros f Hf. apply A4.
  destruct (Hall f Hf) as [l Hl]. unfold in_turn. apply list_elem_of_join. exists l. split; [|apply list_elem_of_fmap; by exists (per e' f, l)].
  destruct (Hgs _ _ Hl) as [-> _]. by apply list_elem_of_filter.
Qed.

(** ** The small network's first island *)

Definition demo_start : eval := mkEval demo_built ∅ ∅ [].
Definition steady (f : Z) (ins : list Z) : outcome string (list Z) := Ret [int32Val f].

Definition on_time (e : engine) : bool :=
  bool_decide (map_Forall (fun _ s => Forall (fun x : Z * Z => 0 <= x.1) (values s)) (heap e)).

Lemma on_time_sampled e : on_time e = true -> sampled (fun _ => True) e.
Proof. intros H%bool_decide_eq_true a s Hs. eapply Forall_impl; [by apply (H a s)|]. by intros x Hx. Qed.

Definition one_output (e : engine) : bool := bool_decide (map_Forall (fun _ n => length (n_outputs n) = 1%nat) (nodes e)).

Lemma running_self e good : sampled good e -> running e good e.
Proof. intros Hs. split; [apply thinner_refl|apply frame_refl|done]. Qed.

Lemma steady_lawful e : one_output e = true -> lawful Z.eqb id steady e (fun _ => True).
Proof.
  intros H%bool_decide_eq_true. split; try done; [intros v _; apply Z.eqb_refl|].
  intros f n ins [_ Hn] _ _. exists [int32Val f]. split_and!; [done| |by constructor]. symmetry. by apply (H f n).
Qed.

Lemma evaluation_settles_witness :
  exists st' log, evaluateIsland Z.eqb id steady 10000 first_island demo_start = Ret (Complete, st') /\
    trace st' = log /\ settled Z.eqb id steady 10000 demo_start st' log 11.
Proof.
  assert (first_island ∈ islands demo_built) as Hi by (rewrite demo_islands; left).
  destruct (evaluation_settles Z.eqb id steady (fun _ => True) demo demo_built first_island 10000 demo_start demo_built)
    as (st' & log & H1 & _ & H2 & _ & H3).
  - apply network_reachable.
  - apply demo_builds.
  - exact Hi.
  - assert (forall f, f ∈ [10; 11] -> per demo_built f = 10000) as Hp.
    { intros f [->| ->%list_elem_of_singleton]%elem_of_cons; vm_compute; reflexivity. }
    intros d f Hd Hf _. change (i_funcs first_island) with [10; 11] in Hd, Hf. by rewrite (Hp d Hd), (Hp f Hf).
  - apply steady_lawful. vm_compute. reflexivity.
  - lia.
  - change (network demo_start) with demo_built. apply running_self, on_time_sampled. vm_compute. reflexivity.
  - vm_compute. reflexivity.
  - exists st', log. split; [exact H1|]. split; [exact H2|]. apply H3. right. left.
Defined.

(** ** Surprises *)

Definition run_clocks (e : engine) : engine := set_heap (set_running true <$> heap e) e.

Definition ticked (body : Z -> list Z -> outcome string (list Z)) (t : Z) (st : eval) : eval :=
  match tick_network Z.eqb id body t st with Ret st => st | _ => mkEval empty_engine ∅ ∅ [] end.

(** [f] reads a 100 Hz clock and what [g] makes of a 50 Hz clock.  Its period divides
    [g]'s, so it stands first, although it depends on [g]. *)
Definition two_rates : engine := run_clocks (or_empty (
  let! e := newClockSignal id 1 hundred empty_engine in
  let! e := newClockSignal id 2 fifty e in
  let! e := lift id "g" 10 [2] [(3, nilVal)] e in
  let! e := lift id "f" 11 [1; 3] [(4, nilVal)] e in
  buildNetworkCacheData e)).

Definition last_sum (f : Z) (ins : list Z) : outcome string (list Z) :=
  Ret [int32Val (fold_left (fun n v => n + wrapS 32 v) ins 0)].

(** Where both clocks tick, [f] runs twice: on [g]'s old output, then on its new one. *)
Lemma faster_reader_runs_twice :
  (i_orders <$> islands two_rates) = [[(10000, [11]); (20000, [10])]] /\
  let st1 := ticked last_sum 20000 (mkEval two_rates ∅ ∅ []) in
  let st2 := ticked last_sum 40000 (ticked last_sum 30000 st1) in
  trace st1 = [(10, [int32Val 1], [int32Val 1]); (11, [int32Val 1; int32Val 1], [int32Val 2])] /\
  drop 3 (trace st2) = [(11, [int32Val 3; int32Val 1], [int32Val 4]); (10, [int32Val 2], [int32Val 2]);
                        (11, [int32Val 3; int32Val 2], [int32Val 5])].
Proof. vm_compute. split_and!; reflexivity. Qed.

(** A NaN is unequal to itself, hence always a new input: the island never settles, and
    the engine takes it for a cycle. *)
Definition value_eq (a b : Z) : bool := match Value.equals (Value.mkHeap empty 0) a b with Ret b => b | _ => false end.
Definition nan : Z := 0x7ff8000000000000.

Definition nan_network : engine := or_empty (
  let! e := newSourceSignal id 1 hundred nan false empty_engine in
  let! e := lift id "f" 10 [1] [(2, nilVal)] e in
  buildNetworkCacheData e).

Lemma nan_never_settles :
  Value.isReal nan = true /\ value_eq nan nan = false /\
  tick_network value_eq id steady 10000 (mkEval nan_network ∅ ∅ []) = Throw no_end.
Proof. vm_compute. split_and!; reflexivity. Qed.

(** A tick evaluates the background islands too. *)
Definition background_network : engine := run_clocks (or_empty (
  let! e := newClockSignal id 1 hundred empty_engine in
  let! e := newSourceSignal id 2 hundred (int32Val 5) true e in
  let! e := lift id "f" 10 [2] [(3, nilVal)] e in
  buildNetworkCacheData e)).

Lemma background_evaluated :
  (i_background <$> islands background_network) = [false; true] /\ due background_network 10000 2 = false /\
  trace (ticked last_sum 10000 (mkEval background_network ∅ ∅ [])) = [(10, [int32Val 5], [int32Val 5])].
Proof. vm_compute. split_and!; reflexivity. Qed.

End DataflowSettle.
