(* ===== verification/Ranges.v ===== *)
(** * Ranges: a range and its indices over a target (ObjRange)

    A range's bounds and step are Values, integers or nil; over a target of a known
    length nil bounds stand for its ends and negative ones count back from its end.
    [length_over] and [targetIndex] together enumerate it: the elements are those of
    [position] that [within] has before the stop.  Arithmetic is int64, results int32. *)

From S2P Require Import Prelude Value.
From stdpp Require Import numbers.

Module Ranges.

Local Open Scope Z_scope.

Record range := mkRange { start : Z; stop : Z; step : Z; closed : bool }.

Definition checkedInt32 (v : Z) (what : string) : outcome string Z :=
  if fitsInInt32 v then Ret v else Throw what.

(** C++'s division: towards zero; by zero, undefined. *)
Definition div64 (a b : Z) : outcome string Z := if b =? 0 then UB else Ret (Z.quot a b).

Definition int_bound (w : Z) : bool := isInt w || isNil w.
Definition int_range (r : range) : bool := int_bound (start r) && int_bound (stop r) && int_bound (step r).

Definition non_int : string := "non-int ranges unimplemented".
Definition length_overflow : string := "range length overflow".

Definition or_nil (w dflt : Z) : Z := if isNil w then dflt else asIntUnchecked w.
Definition from_end (n i : Z) : Z := if i <? 0 then n + i else i.
Definition stride (r : range) : Z := or_nil (step r) 1.

(** How many elements between [a] and [b]: ascending, descending. *)
Definition count_up (closed : bool) (a b by_ : Z) : outcome string Z :=
  if closed then
    if b <? a then Ret 0 else let! q := div64 (b + 1 - a - 1) by_ in checkedInt32 (q + 1) length_overflow
  else
    if b <=? a then Ret 0 else let! q := div64 (b - a - 1) by_ in checkedInt32 (q + 1) length_overflow.

Definition count_down (closed : bool) (a b by_ : Z) : outcome string Z :=
  let! q := div64 (if closed then a - (b - 1) - 1 else a - b - 1) (- by_) in checkedInt32 (q + 1) length_overflow.

(** The first index and the bound, over a target of [n] elements. *)
Definition first_over (r : range) (n : Z) : Z :=
  from_end n (or_nil (start r) (if 0 <? stride r then 0 else n - 1)).

Definition bound_over (r : range) (n : Z) : Z :=
  if 0 <? stride r then from_end n (or_nil (stop r) n)
  else if isNil (stop r) then (if closed r then 0 else -1) else from_end n (asIntUnchecked (stop r)).

(** [length(targetLen)] *)
Definition length_over (r : range) (n : Z) : outcome string Z :=
  if int_range r then
    (if 0 <? stride r then count_up else count_down) (closed r) (first_over r n) (bound_over r n) (stride r)
  else Throw non_int.

(** [length()]: of the range by itself; -1 when it has no end. *)
Definition length (r : range) : outcome string Z :=
  if int_range r then
    if 0 <? stride r then
      if isNil (stop r) then Ret (-1)
      else count_up (closed r) (or_nil (start r) 0) (asIntUnchecked (stop r)) (stride r)
    else
      if isNil (start r) then Ret (-1)
      else count_down (closed r) (asIntUnchecked (start r)) (or_nil (stop r) (if closed r then 0 else -1)) (stride r)
  else Throw non_int.

Definition index_overflow : string := "range index overflow".

(** The range's [index]th element; a negative [n]: not over a target. *)
Definition targetIndex (r : range) (index n : Z) : outcome string Z :=
  if int_range r then
    if 0 <=? n then checkedInt32 (first_over r n + index * stride r) index_overflow
    else if (stride r <=? 0) && isNil (start r) then Throw "Indeterminate range start"
    else checkedInt32 (or_nil (start r) (if 0 <? stride r then 0 else n - 1) + index * stride r) index_overflow
  else Throw non_int.

(** ** What a range enumerates *)

(** Not yet past the stop. *)
Definition within (closed : bool) (b by_ x : Z) : Prop :=
  if 0 <? by_ then (if closed then x <= b else x < b) else (if closed then b <= x else b < x).

#[export] Instance within_decision closed b by_ x : Decision (within closed b by_ x).
Proof. unfold within. destruct (0 <? by_), closed; apply _. Defined.

Lemma quot_count d by_ k : 0 < by_ -> 0 <= d -> 0 <= k -> k < Z.quot d by_ + 1 <-> k * by_ <= d.
Proof.
  intros Hb Hd Hk. rewrite Z.quot_div_nonneg by lia. rewrite Z.add_1_r, Z.lt_succ_r. split; intros H.
  - pose proof (Z.mul_div_le d by_ Hb). nia.
  - apply Z.div_le_lower_bound; lia.
Qed.

Lemma checked_ret v what w : checkedInt32 v what = Ret w -> w = v.
Proof. unfold checkedInt32. destruct (fitsInInt32 v); [congruence|done]. Qed.

Lemma count_up_exact c a b by_ len : 0 < by_ -> count_up c a b by_ = Ret len ->
  0 <= len /\ forall k, 0 <= k -> k < len <-> within c b by_ (a + k * by_).
Proof.
  intros Hb. unfold count_up, within, div64. destruct (Z.eqb_spec by_ 0) as [|_]; [lia|].
  assert ((0 <? by_) = true) as -> by (apply Z.ltb_lt; lia). destruct c; cbn [obind].
  - destruct (Z.ltb_spec b a) as [Hlt|Hle]; [intros [= <-]; split; [lia|]; intros k Hk; split; [lia|nia]|].
    intros ->%checked_ret. pose proof (Z.quot_pos (b + 1 - a - 1) by_). split; [lia|]. intros k Hk.
    rewrite quot_count by lia. lia.
  - destruct (Z.leb_spec b a) as [Hle|Hlt]; [intros [= <-]; split; [lia|]; intros k Hk; split; [lia|nia]|].
    intros ->%checked_ret. pose proof (Z.quot_pos (b - a - 1) by_). split; [lia|]. intros k Hk.
    rewrite quot_count by lia. lia.
Qed.

Lemma count_down_exact c a b by_ len : by_ < 0 -> within c b by_ a -> count_down c a b by_ = Ret len ->
  0 <= len /\ forall k, 0 <= k -> k < len <-> within c b by_ (a + k * by_).
Proof.
  intros Hb. unfold count_down, within, div64. assert ((0 <? by_) = false) as -> by (apply Z.ltb_ge; lia).
  destruct (Z.eqb_spec (- by_) 0) as [|_]; [lia|]. cbn [obind]. destruct c; intros Hw ->%checked_ret.
  - pose proof (Z.quot_pos (a - (b - 1) - 1) (- by_)). split; [lia|]. intros k Hk. rewrite quot_count by lia. lia.
  - pose proof (Z.quot_pos (a - b - 1) (- by_)). split; [lia|]. intros k Hk. rewrite quot_count by lia. lia.
Qed.

Lemma asIntUnchecked_range w : -2 ^ 31 <= asIntUnchecked w < 2 ^ 31.
Proof. unfold asIntUnchecked, wrapS. pose proof (Z.mod_pos_bound (Z.ldiff w (Z.lor QNAN TypeTag) + 2 ^ (32 - 1)) (2 ^ 32)). lia. Qed.

Lemma from_end_range n i : 0 <= n < 2 ^ 31 -> -2 ^ 31 <= i < 2 ^ 31 -> -2 ^ 31 <= from_end n i < 2 ^ 31.
Proof. intros Hn Hi. unfold from_end. destruct (Z.ltb_spec i 0); lia. Qed.

Lemma or_nil_range w d : -2 ^ 31 <= d < 2 ^ 31 -> -2 ^ 31 <= or_nil w d < 2 ^ 31.
Proof. intros Hd. unfold or_nil. destruct (isNil w); [done|apply asIntUnchecked_range]. Qed.

Lemma first_over_range r n : 0 <= n < 2 ^ 31 -> -2 ^ 31 <= first_over r n < 2 ^ 31.
Proof. intros Hn. apply from_end_range; [done|]. apply or_nil_range. destruct (0 <? stride r); lia. Qed.

Lemma bound_over_range r n : 0 <= n < 2 ^ 31 -> -2 ^ 31 <= bound_over r n < 2 ^ 31.
Proof.
  intros Hn. unfold bound_over. destruct (0 <? stride r); [apply from_end_range, or_nil_range; lia|].
  destruct (isNil (stop r)); [destruct (closed r); lia|]. apply from_end_range, asIntUnchecked_range. lia.
Qed.

(** Backwards, a range must not start past its stop: the count is wrong there. *)
Definition regular (r : range) (n : Z) : Prop :=
  0 < stride r \/ (stride r < 0 /\ within (closed r) (bound_over r n) (stride r) (first_over r n)).

Lemma terms_counted r n len : regular r n -> length_over r n = Ret len ->
  0 <= len /\ forall k, 0 <= k -> k < len <-> within (closed r) (bound_over r n) (stride r) (first_over r n + k * stride r).
Proof.
  unfold length_over. destruct (int_range r); [|done]. intros [Hs|[Hs Hw]] Hl.
  - assert ((0 <? stride r) = true) as E by (apply Z.ltb_lt; lia). rewrite E in Hl. by apply count_up_exact.
  - assert ((0 <? stride r) = false) as E by (apply Z.ltb_ge; lia). rewrite E in Hl. by apply count_down_exact.
Qed.

Lemma term_index r n k : 0 <= n < 2 ^ 31 -> int_range r = true -> stride r <> 0 -> 0 <= k ->
  within (closed r) (bound_over r n) (stride r) (first_over r n + k * stride r) ->
  targetIndex r k n = Ret (first_over r n + k * stride r).
Proof.
  intros Hn Hr Hs Hk Hlt. unfold targetIndex. rewrite Hr. assert ((0 <=? n) = true) as -> by (apply Z.leb_le; lia). unfold checkedInt32.
  pose proof (first_over_range r n Hn). pose proof (bound_over_range r n Hn).
  assert (fitsInInt32 (first_over r n + k * stride r) = true) as ->; [|done]. unfold fitsInInt32. apply andb_true_iff.
  rewrite !Z.leb_le. unfold within in Hlt. destruct (Z.ltb_spec 0 (stride r)), (closed r); nia.
Qed.

Lemma regular_stride r n : regular r n -> stride r <> 0.
Proof. intros [H|[H _]]; lia. Qed.

Lemma counted_term r n len k : 0 <= n < 2 ^ 31 -> regular r n -> length_over r n = Ret len -> 0 <= k < len ->
  targetIndex r k n = Ret (first_over r n + k * stride r).
Proof.
  intros Hn Hr Hl Hk. destruct (terms_counted r n len Hr Hl) as [_ H]. apply term_index; [done| |by eapply regular_stride|lia|apply H; lia].
  revert Hl. unfold length_over. by destruct (int_range r).
Qed.

(** C26. A [regular] range over a target, of positive step, or of negative step starting
    not past its stop, when its length is computed at all (32-bit bounds, no overflow),
    enumerates exactly the arithmetic progression from its start to its stop: the length
    counts the terms before the stop (up to it when closed), and the index of each is that
    term, with no overflow.  Negative bounds count back from the end, missing ones are the
    ends; the missing stop of a closed range is the target's length, one past its last
    element ([closed_to_end_miscounts]). *)
Theorem range_enumerates r n len : 0 <= n < 2 ^ 31 -> regular r n -> length_over r n = Ret len ->
  0 <= len /\ forall k, 0 <= k ->
    (k < len <-> within (closed r) (bound_over r n) (stride r) (first_over r n + k * stride r)) /\
    (k < len -> targetIndex r k n = Ret (first_over r n + k * stride r)).
Proof.
  intros Hn Hr Hl. destruct (terms_counted r n len Hr Hl) as [H0 H]. split; [done|]. intros k Hk. split; [by apply H|].
  intros Hlt. by apply (counted_term r n len).
Qed.

Definition last_two : range := mkRange (int32Val (-2)) nilVal nilVal false.
Definition every_other_back : range := mkRange (int32Val (-1)) (int32Val 0) (int32Val (-2)) true.

Lemma range_enumerates_witness :
  length_over last_two 5 = Ret 2 /\ targetIndex last_two 1 5 = Ret 4 /\
  length_over every_other_back 5 = Ret 3 /\ targetIndex every_other_back 2 5 = Ret 0.
Proof.
  assert (length_over last_two 5 = Ret 2) as H1 by reflexivity. assert (length_over every_other_back 5 = Ret 3) as H2 by reflexivity.
  destruct (range_enumerates last_two 5 2) as [_ T1]; [lia|left; by vm_compute|done|].
  destruct (range_enumerates every_other_back 5 3) as [_ T2]; [lia|right; split; [by vm_compute|by apply (bool_decide_unpack _); vm_compute]|done|].
  split; [done|]. split; [apply (T1 1); lia|]. split; [done|]. apply (T2 2); lia.
Defined.

(** ** Irregular ranges *)

(** Backwards from a start past the stop: counted as one element, or as fewer than none. *)
Lemma backwards_miscounts :
  length_over (mkRange (int32Val 3) (int32Val 3) (int32Val (-2)) false) 5 = Ret 1 /\
  length_over (mkRange (int32Val 0) (int32Val 1) (int32Val (-2)) true) 5 = Ret 1 /\
  length_over (mkRange (int32Val 0) (int32Val 4) (int32Val (-1)) false) 5 = Ret (-4).
Proof. by vm_compute. Qed.

(** Closed, and missing its stop: counted one past the end. *)
Lemma closed_to_end_miscounts n : 0 <= n < 2 ^ 31 - 1 -> length_over (mkRange nilVal nilVal nilVal true) n = Ret (n + 1).
Proof.
  intros Hn. unfold length_over, first_over, bound_over, stride, from_end. cbn [start stop step closed]. change (int_range _) with true.
  change (or_nil nilVal 1) with 1. change (0 <? 1) with true. cbv iota. change (or_nil nilVal 0) with 0. change (or_nil nilVal n) with n.
  change (0 <? 0) with false. assert ((n <? 0) = false) as -> by (apply Z.ltb_ge; lia). cbv iota. unfold count_up, div64.
  assert ((n <? 0) = false) as -> by (apply Z.ltb_ge; lia). change (1 =? 0) with false. cbn [obind].
  rewrite Z.quot_1_r. unfold checkedInt32, fitsInInt32. replace (n + 1 - 0 - 1 + 1) with (n + 1) by lia.
  assert ((- 2 ^ 31 <=? n + 1) && (n + 1 <=? 2 ^ 31 - 1) = true) as ->; [|done]. apply andb_true_iff. rewrite !Z.leb_le. lia.
Qed.

(** A zero step divides by zero. *)
Lemma zero_step r n : int_range r = true -> stride r = 0 -> length_over r n = UB.
Proof. intros Hr Hs. unfold length_over. rewrite Hr, Hs. by destruct (closed r). Qed.

End Ranges.
