(* ===== verification/Wire.v ===== *)
(** * Wire: values on a stream (writeValue, readValue)

    [writeValue] and [readValue] of [src/compiler/Value.cpp], and the two methods of
    [ObjPrimitive] they call ([src/compiler/Object.cpp]): a type byte, then the payload in
    the machine's (little-endian) order.  A boxed primitive is written once per context
    and referred to by number after that.

    What an object of any other kind (a string, a container, an instance) writes is up to
    its own virtual [write]: the section's [write_object].  Reading one (allocating it, and
    its virtual [read]) is the section's [read_object].  Nothing is assumed of either.
    Foreign pointers, futures and type objects are not among [Value]'s objects; the build
    has no compute server, and no module cache is being written. *)

From S2P Require Import Prelude Value DebugInfo.
From stdpp Require Import pretty numbers list.

Module Wire.

Import DebugInfo.
Local Open Scope Z_scope.

(** [SerializationContext], the roots it holds for the collector aside. *)
Record context := mkContext {
  objToId : gmap Z Z;
  idToObj : gmap Z Z;
  nextId : Z;
}.

Definition fresh : context := mkContext ∅ ∅ 1.

(** ** Writing *)

Definition bit (b : bool) : Z := if b then 1 else 0.

Definition prim_write (p : prim) : list Z :=
  vt_code (prim_type p) ::
  match p with
  | PBool b => [bit b]
  | PInt i => to_bytes 8 (wrapU 64 i)
  | PReal bits => to_bytes 8 (wrapU 64 bits)
  | PType t => [vt_code t]
  end.

(** [writeObjWithRef]: the object is known to the context before [body], its [write], runs.
    With no context nothing is remembered: the object is written in full under number 0,
    and what it holds in a context of its own. *)
Definition writer : Type := context -> outcome string (context * list Z).

Definition writeObjWithRef (c : option context) (o : Z) (body : writer) : outcome string (option context * list Z) :=
  match c with
  | None => let! (_, bs) := body fresh in Ret (None, 1 :: to_bytes 8 0 ++ bs)
  | Some x =>
      match objToId x !! o with
      | Some id => Ret (c, 0 :: to_bytes 8 (wrapU 64 id))
      | None =>
          let id := nextId x in
          let! (x, bs) := body (mkContext (<[o := id]> (objToId x)) (idToObj x) (wrapU 64 (id + 1))) in
          Ret (Some x, 1 :: to_bytes 8 (wrapU 64 id) ++ bs)
      end
  end.

Definition unsupported (name : string) : string := ("writeValue: unsupported type " ++ name)%string.

(** A word that is not an object.  The tags of object types would have [asObj] follow it. *)
Definition write_inline (w : Z) : outcome string (list Z) :=
  match inline_type w with
  | Some TNil => Ret [vt_code TNil]
  | Some TBool => Ret [vt_code TBool; bit (w =? Z.lor QNAN TagTrue)]
  | Some TByte => Ret [vt_code TByte; Z.land w 0xff]
  | Some TInt => Ret (vt_code TInt :: to_bytes 4 (wrapU 32 (asIntUnchecked w)))
  | Some TReal => Ret (vt_code TReal :: to_bytes 8 w)
  | Some TEnum => Ret (vt_code TEnum :: to_bytes 2 (wrapU 16 (asEnum w)) ++ to_bytes 2 (enumTypeId w))
  | Some TType => Ret [vt_code TType; 0; wrapU 8 (Z.ldiff w (Z.lor QNAN TypeTag))]
  | None | Some TDecimal => Throw (unsupported "unknown")
  | Some _ => UB
  end.

(** ** Reading *)

(** [in.read] that nobody checks: a short stream leaves the variable indeterminate. *)
Definition take_bytes (n : nat) (bs : list Z) : outcome string (list Z * list Z) :=
  if Nat.ltb (List.length bs) n then UB else Ret (take n bs, drop n bs).

Definition take_int (n : nat) (bs : list Z) : outcome string (Z * list Z) :=
  let! (b, bs) := take_bytes n bs in Ret (of_bytes b, bs).

(** [in.read] followed by [if (!in) throw]. *)
Definition take_checked (n : nat) (what : string) (bs : list Z) : outcome string (Z * list Z) :=
  if Nat.ltb (List.length bs) n then Throw what else take_int n bs.

(** A type byte that is no enumerator makes no primitive here. *)
Definition prim_read (bs : list Z) : outcome string (prim * list Z) :=
  let! (t, bs) := take_int 1 bs in
  match vt_of_code t with
  | Some TBool => let! (b, bs) := take_int 1 bs in Ret (PBool (negb (b =? 0)), bs)
  | Some TInt => let! (i, bs) := take_int 8 bs in Ret (PInt (wrapS 64 i), bs)
  | Some TReal => let! (d, bs) := take_int 8 bs in Ret (PReal d, bs)
  | Some TType =>
      let! (t, bs) := take_int 1 bs in
      match vt_of_code t with Some t => Ret (PType t, bs) | None => UB end
  | _ => Throw "ObjPrimitive deserialization unsupported type"%string
  end.

(** [readObjWithRef] for a box: the box is made first, and dropped when the stream refers
    to one read before. *)
Definition read_box (h : heap) (c : option context) (bs : list Z) : outcome string (heap * option context * Z * list Z) :=
  let a := brk h in
  let (h, w) := alloc h (HPrim (PBool false)) in
  let! (flag, bs) := take_int 1 bs in
  let! (id, bs) := take_int 8 bs in
  match c with
  | Some x =>
      if flag =? 0 then
        match idToObj x !! id with
        | Some o => Ret (h, c, objWord o, bs)
        | None => Throw "Unknown object ref id"%string
        end
      else
        let! (p, bs) := prim_read bs in
        Ret (mkHeap (<[a := HPrim p]> (objs h)) (brk h), Some (mkContext (objToId x) (<[id := a]> (idToObj x)) (nextId x)), w, bs)
  | None => let! (p, bs) := prim_read bs in Ret (mkHeap (<[a := HPrim p]> (objs h)) (brk h), None, w, bs)
  end.

Section Streams.
Context (write_object : Z -> writer) (read_object : Z -> heap -> option context -> list Z -> outcome string (heap * option context * Z * list Z)).

Definition writeValue (h : heap) (c : option context) (w : Z) : outcome string (option context * list Z) :=
  if isObj w then
    match asObj h w with
    | Some (HPrim p) =>
        let! (c, bs) := writeObjWithRef c (ptrOf w) (fun x => Ret (x, prim_write p)) in Ret (c, vt_code TBoxed :: bs)
    | Some (HRef KModule) => Throw (unsupported "module")
    | Some (HRef KEvent) => Throw (unsupported "event")
    | Some (HRef k) =>
        let! (c, bs) := writeObjWithRef c (ptrOf w) (write_object (ptrOf w)) in Ret (c, vt_code (ref_type k) :: bs)
    | None => UB
    end
  else let! bs := write_inline w in Ret (c, bs).

(** A type: by its tag, by a module's number (never, without a link table), or an object. *)
Definition read_type (h : heap) (c : option context) (bs : list Z) : outcome string (heap * option context * Z * list Z) :=
  let! (k, bs) := take_checked 1 "readValue: unable to read type object discriminator" bs in
  if k =? 0 then
    let! (t, bs) := take_checked 1 "readValue: unable to read builtin type tag" bs in
    Ret (h, c, Z.lor (Z.lor QNAN TagType) t, bs)
  else if k =? 2 then
    let! _ := take_checked 4 "readValue: unable to read module reference" bs in
    Throw "readValue: module reference outside a module cache"%string
  else read_object (vt_code TType) h c bs.

Definition readValue (h : heap) (c : option context) (bs : list Z) : outcome string (heap * option context * Z * list Z) :=
  let! (t, bs) := take_checked 1 "readValue: unable to read type" bs in
  match vt_of_code t with
  | Some TBoxed => read_box h c bs
  | Some TNil => Ret (h, c, nilVal, bs)
  | Some TBool => let! (b, bs) := take_int 1 bs in Ret (h, c, boolVal (negb (b =? 0)), bs)
  | Some TByte => let! (b, bs) := take_int 1 bs in Ret (h, c, byteVal b, bs)
  | Some TInt => let! (i, bs) := take_int 4 bs in let (h, w) := intVal h (wrapS 32 i) in Ret (h, c, w, bs)
  | Some TReal => let! (d, bs) := take_int 8 bs in Ret (h, c, realVal d, bs)
  | Some TEnum =>
      let! (label, bs) := take_int 2 bs in
      let! (id, bs) := take_int 2 bs in Ret (h, c, enumVal (wrapS 16 label) id, bs)
  | Some TType => read_type h c bs
  | Some (TString | TRange | TList | TDict | TVector | TMatrix | TTensor | TOrient | TSignal
         | TObject | TActor | TFunction | TClosure | TUpvalue) => read_object t h c bs
  | _ => Throw ("readValue: unsupported type " ++ pretty t)%string
  end.

(** Several values, one after the other: how lists and dicts write what they hold. *)
Fixpoint write_values (h : heap) (c : option context) (v : list Z) : outcome string (option context * list Z) :=
  match v with
  | [] => Ret (c, [])
  | w :: v =>
      let! (c, b) := writeValue h c w in
      let! (c, bs) := write_values h c v in Ret (c, b ++ bs)
  end.

Fixpoint read_values (n : nat) (h : heap) (c : option context) (bs : list Z) : outcome string (heap * option context * list Z * list Z) :=
  match n with
  | O => Ret (h, c, [], bs)
  | S n =>
      let! (h, c, w, bs) := readValue h c bs in
      let! (h, c, v, bs) := read_values n h c bs in Ret (h, c, w :: v, bs)
  end.
End Streams.

(** ** What is read is what was written *)

Definition prim_ok (p : prim) : Prop :=
  match p with PInt i => inS 64 i | PReal bits => inU 64 bits | _ => True end.

(** The values whose bytes are modelled in full. *)
Inductive storable (h : heap) : Z -> Prop :=
| storable_inline s : scalar_ok s -> (forall p, s <> SObj p) -> storable h (encode s)
| storable_box w p : isObj w = true -> asObj h w = Some (HPrim p) -> prim_ok p -> storable h w.

Lemma take_int_app n v rest : 0 <= v < 256 ^ Z.of_nat n -> take_int n (to_bytes n v ++ rest) = Ret (v, rest).
Proof.
  intros Hv. unfold take_int, take_bytes. rewrite length_app, length_to_bytes. rewrite (proj2 (Nat.ltb_ge _ _)) by lia. cbn [obind].
  rewrite take_app_length', drop_app_length' by by rewrite length_to_bytes. cbn [obind]. by rewrite of_to_bytes.
Qed.

Lemma take_wrapped n w v rest : 256 ^ Z.of_nat n = 2 ^ w -> 0 <= w -> take_int n (to_bytes n (wrapU w v) ++ rest) = Ret (wrapU w v, rest).
Proof. intros E Hw. apply take_int_app. rewrite E. by apply wrapU_range. Qed.

Lemma take_int_cons b rest : take_int 1 (b :: rest) = Ret (b, rest).
Proof. unfold take_int, take_bytes. cbn. by rewrite Z.add_0_r. Qed.

Lemma take_checked_cons b what rest : take_checked 1 what (b :: rest) = Ret (b, rest).
Proof. apply take_int_cons. Qed.

Lemma prim_read_write p rest : prim_ok p -> prim_read (prim_write p ++ rest) = Ret (p, rest).
Proof.
  unfold prim_read, prim_write. cbn [app]. rewrite take_int_cons. cbn [obind]. rewrite vt_code_roundtrip.
  destruct p as [b|i|d|t]; cbn [prim_type prim_ok app]; intros Hp.
  - rewrite take_int_cons. by destruct b.
  - rewrite (take_wrapped 8 64) by done. cbn [obind]. by rewrite wrapS_wrapU, wrapS_id by (done || lia).
  - rewrite (take_wrapped 8 64) by done. cbn [obind]. by rewrite wrapU_id.
  - rewrite take_int_cons. cbn [obind]. by rewrite vt_code_roundtrip.
Qed.

(** *** Words that are not objects *)

#[local] Instance kind_eq_dec : EqDecision Value.kind.
Proof. solve_decision. Defined.

Lemma kind_flags w k : kinds_of w = [k] ->
  isNil w = bool_decide (k = KNil) /\ isBool w = bool_decide (k = KBool) /\ isByte w = bool_decide (k = KByte) /\
  isInt w = bool_decide (k = KInt) /\ isReal w = bool_decide (k = KReal) /\ isObj w = bool_decide (k = KObj).
Proof.
  unfold kinds_of. destruct (isNil w), (isBool w), (isByte w), (isInt w), (isReal w), (isEnum w), (isType w), (isObj w);
    cbn; intros H; try discriminate H; injection H as <-; done.
Qed.

(** The tag bits of a word that is no double. *)
Definition tag_code (w : Z) : Z := Z.shiftr (Z.land w TypeTag) TypeTagOffset.

Lemma tag_code_mask w t : Z.land w TagMask = t -> tag_code w = Z.shiftr (Z.land t TypeTag) TypeTagOffset.
Proof. intros <-. unfold tag_code. rewrite <- Z.land_assoc. done. Qed.

Definition scalar_type (s : scalar) : ValueType :=
  match s with
  | SNil => TNil | SBool _ => TBool | SByte _ => TByte | SInt _ => TInt | SReal _ => TReal
  | SEnum _ _ => TEnum | SType _ => TType | SObj _ => TObject
  end.

Lemma inline_type_encode s : scalar_ok s -> (forall p, s <> SObj p) -> inline_type (encode s) = Some (scalar_type s) /\ isObj (encode s) = false.
Proof.
  intros Hs Hn. pose proof (kind_flags _ _ (scalar_kinds s Hs)) as (H1 & H2 & H3 & H4 & H5 & ->). unfold inline_type.
  rewrite H1, H2, H3, H4, H5. destruct s as [| | | | |l i|t|p]; cbn [kind_of scalar_type]; try done; [| |by destruct (Hn p)].
  - split; [|done]. change (Z.shiftr _ _) with (tag_code (enumVal l i)). by rewrite (tag_code_mask _ _ (enum_tag l i)).
  - split; [|done]. change (Z.shiftr _ _) with (tag_code (typeVal t)). by rewrite (tag_code_mask _ _ (type_tag t)).
Qed.

Lemma inline_roundtrip wo ro s h c : scalar_ok s -> (forall p, s <> SObj p) ->
  exists bs, writeValue wo h c (encode s) = Ret (c, bs) /\ forall h' c' rest, readValue ro h' c' (bs ++ rest) = Ret (h', c', encode s, rest).
Proof.
  intros Hs Hn. destruct (inline_type_encode s Hs Hn) as [Ht Ho]. unfold writeValue, write_inline. rewrite Ho, Ht.
  unfold readValue. destruct s as [|b|b|i|d|l i|t|p]; [..|by destruct (Hn p)]; cbn [encode scalar_type scalar_ok] in *; (eexists; split; [done|]); intros h' c' rest;
    cbn [app]; rewrite take_checked_cons; cbn [obind]; rewrite ?vt_code_roundtrip.
  - done.
  - rewrite take_int_cons. by destruct b.
  - rewrite take_int_cons. cbn [obind]. by rewrite byte_payload.
  - rewrite int_payload, (take_wrapped 4 32) by done. cbn [obind]. rewrite wrapS_wrapU, wrapS_id by (done || lia).
    unfold intVal. by assert (fitsInInt32 i = true) as -> by (unfold fitsInInt32, inS in *; lia).
  - rewrite take_int_app; [done|]. destruct Hs as [Hs _]. exact Hs.
  - destruct Hs as [Hl Hi]. destruct (enum_payload l i Hl Hi) as [-> ->]. rewrite <- app_assoc, (take_wrapped 2 16) by done. cbn [obind].
    rewrite take_int_app by exact Hi. cbn [obind]. rewrite wrapS_wrapU, wrapS_id by (unfold inS; lia). done.
  - unfold read_type. rewrite take_checked_cons. cbn [obind Z.eqb]. rewrite take_checked_cons. by destruct t.
Qed.

(** *** Boxes *)

(** The contexts at the two ends: a number the writer has given a box, the reader knows as
    a box with the same content, and as no other. *)
Record linked (h : heap) (wc : context) (h' : heap) (rc : context) : Prop := {
  l_known : forall o id, objToId wc !! o = Some id -> 1 <= id < nextId wc /\
    exists o' p, idToObj rc !! id = Some o' /\ objs h !! o = Some (HPrim p) /\ objs h' !! o' = Some (HPrim p);
  l_ids : forall o1 o2 id, objToId wc !! o1 = Some id -> objToId wc !! o2 = Some id -> o1 = o2;
  l_objs : forall id1 id2 o', idToObj rc !! id1 = Some o' -> idToObj rc !! id2 = Some o' -> id1 = id2;
  l_made : forall id o', idToObj rc !! id = Some o' -> id < nextId wc /\ 0 <= o' < brk h';
  l_brk : 0 <= brk h';
  l_next : 1 <= nextId wc;
}.

(** What one value becomes. *)
Definition copied (wc rc : context) (w w' : Z) : Prop :=
  if isObj w then exists id o', objToId wc !! ptrOf w = Some id /\ idToObj rc !! id = Some o' /\ inU 48 o' /\ w' = objWord o'
  else w' = w.

(** Contexts only grow, and so does the reader's heap. *)
Record later (wc rc : context) (h' : heap) (wc2 rc2 : context) (h2 : heap) : Prop := {
  lt_ids : objToId wc ⊆ objToId wc2;
  lt_objs : idToObj rc ⊆ idToObj rc2;
  lt_heap : forall a, a < brk h' -> objs h2 !! a = objs h' !! a;
  lt_brk : brk h' <= brk h2;
}.

Lemma later_refl wc rc h : later wc rc h wc rc h.
Proof. by split. Qed.

Lemma later_trans wc rc h wc1 rc1 h1 wc2 rc2 h2 : later wc rc h wc1 rc1 h1 -> later wc1 rc1 h1 wc2 rc2 h2 -> later wc rc h wc2 rc2 h2.
Proof.
  intros [A1 A2 A3 A4] [B1 B2 B3 B4]. split; [by etrans|by etrans| |lia].
  intros a Ha. rewrite B3 by lia. by apply A3.
Qed.

Lemma copied_later wc rc h wc2 rc2 h2 w w' : later wc rc h wc2 rc2 h2 -> copied wc rc w w' -> copied wc2 rc2 w w'.
Proof.
  intros [H1 H2 _ _]. unfold copied. destruct (isObj w); [|done]. intros (id & o' & Hi & Ho & Hr). exists id, o'.
  split; [by eapply lookup_weaken|]. split; [by eapply lookup_weaken|done].
Qed.

(** The first time a box is met. *)
Lemma new_box h wc h' rc o p id : linked h wc h' rc -> objs h !! o = Some (HPrim p) -> objToId wc !! o = None -> id = nextId wc ->
  linked h (mkContext (<[o := id]> (objToId wc)) (idToObj wc) (id + 1))
    (mkHeap (<[brk h' := HPrim p]> (objs h')) (brk h' + 16)) (mkContext (objToId rc) (<[id := brk h']> (idToObj rc)) (nextId rc)).
Proof.
  intros [K I O M B N] Ho Hn ->.
  assert (forall o' i, objToId wc !! o' = Some i -> i <> nextId wc) as Hi by (intros o' i Hi ->; apply K in Hi; lia).
  split; cbn; [| | | |lia|lia].
  - intros o1 i Ho1. apply lookup_insert_Some in Ho1 as [[<- <-]|[Hne Ho1]].
    + split; [lia|]. exists (brk h'), p. by rewrite !lookup_insert_eq.
    + destruct (K _ _ Ho1) as (Hr & o' & q & H1 & H2 & H3). split; [lia|]. exists o', q.
      pose proof (M _ _ H1). rewrite !lookup_insert_ne by (lia || by intros <-; lia). done.
  - intros o1 o2 i H1 H2. apply lookup_insert_Some in H1 as [[<- <-]|[_ H1]], H2 as [[<- E]|[_ H2]]; try done; [by apply Hi in H2|by apply Hi in H1|by eapply I].
  - intros i j o' H1 H2. apply lookup_insert_Some in H1 as [[<- <-]|[_ H1]], H2 as [[<- E]|[_ H2]]; try done; [apply M in H2; lia|apply M in H1; lia|by eapply O].
  - intros i o' H1. apply lookup_insert_Some in H1 as [[<- <-]|[_ H1]]; [lia|]. apply M in H1. lia.
Qed.

(** The reader makes a box and drops it when it has that one already. *)
Lemma spare_box h wc h' rc : linked h wc h' rc -> linked h wc (mkHeap (<[brk h' := HPrim (PBool false)]> (objs h')) (brk h' + 16)) rc.
Proof.
  intros [K I O M B N]. split; cbn; [|done|done| |lia|done].
  - intros o id Ho. destruct (K o id Ho) as (Hr & o' & p & H1 & H2 & H3). split; [done|]. exists o', p.
    pose proof (M _ _ H1). by rewrite lookup_insert_ne by lia.
  - intros id o' Ho. apply M in Ho. lia.
Qed.

Lemma box_roundtrip wo ro h wc h' rc w p : linked h wc h' rc -> isObj w = true -> asObj h w = Some (HPrim p) -> prim_ok p ->
  nextId wc + 1 < 2 ^ 64 -> brk h' + 16 <= 2 ^ 48 ->
  exists bs wc2, writeValue wo h (Some wc) w = Ret (Some wc2, bs) /\ nextId wc2 <= nextId wc + 1 /\
    exists h2 rc2 w', (forall rest, readValue ro h' (Some rc) (bs ++ rest) = Ret (h2, Some rc2, w', rest)) /\
      linked h wc2 h2 rc2 /\ copied wc2 rc2 w w' /\ later wc rc h' wc2 rc2 h2 /\ brk h2 = brk h' + 16.
Proof.
  intros Hl Hw Hp Hok Hn Hb. pose proof Hl as [K I O M B N]. unfold writeValue. rewrite Hw, Hp. unfold writeObjWithRef, copied. rewrite Hw.
  unfold readValue, read_box, alloc. destruct (objToId wc !! ptrOf w) as [id|] eqn:Ei; cbn [obind].
  - destruct (K _ _ Ei) as (Hr & o' & q & H1 & H2 & H3). eexists _, _. split; [done|]. split; [lia|]. eexists _, _, _. split; [|split; [by apply spare_box|split]].
    + intros rest. cbn [app]. rewrite take_checked_cons. cbn [obind]. rewrite vt_code_roundtrip, take_int_cons. cbn [obind].
      rewrite (take_wrapped 8 64) by done. cbn [obind Z.eqb]. rewrite wrapU_id by (unfold inU; lia). by rewrite H1.
    + exists id, o'. pose proof (M _ _ H1). split_and!; [done|done|unfold inU; lia..|done].
    + split; [|done]. split; cbn; [done|done| |lia]. intros a Ha. by rewrite lookup_insert_ne by lia.
  - rewrite (wrapU_id 64 (nextId wc + 1)) by (unfold inU; lia). eexists _, _. split; [done|]. split; [cbn; lia|].
    eexists _, _, _. split; [|split; [by apply (new_box h wc h' rc (ptrOf w) p (nextId wc))|split]].
    + intros rest. cbn [app]. rewrite take_checked_cons. cbn [obind]. rewrite vt_code_roundtrip, take_int_cons. cbn [obind].
      rewrite <- app_assoc, (take_wrapped 8 64) by done. cbn [obind Z.eqb]. rewrite wrapU_id by (unfold inU; lia).
      rewrite prim_read_write by done. cbn [obind objs Value.brk]. by rewrite insert_insert_eq.
    + exists (nextId wc), (brk h'). cbn. rewrite !lookup_insert_eq. split_and!; [done|done|unfold inU; lia..|done].
    + split; [|done]. split; cbn; [| | |lia].
      * by apply insert_subseteq.
      * apply insert_subseteq. destruct (idToObj rc !! nextId wc) eqn:E; [|done]. apply M in E. lia.
      * intros a Ha. by rewrite lookup_insert_ne by lia.
Qed.

(** *** Sequences *)

(** A box's copy is a box of the same content; any other word is itself. *)
Definition same_value (h h' : heap) (w w' : Z) : Prop :=
  if isObj w then isObj w' = true /\ asObj h' w' = asObj h w else w' = w.

(** The same values, and boxes that were one are one again, and no others. *)
Record copies (h h' : heap) (vs vs' : list Z) : Prop := {
  cp_values : Forall2 (same_value h h') vs vs';
  cp_shared : forall i j a b a' b', vs !! i = Some a -> vs !! j = Some b -> vs' !! i = Some a' -> vs' !! j = Some b' ->
    isObj a = true -> isObj b = true -> ptrOf a = ptrOf b <-> a' = b';
}.

Lemma value_roundtrip wo ro h wc h' rc w : linked h wc h' rc -> storable h w -> nextId wc + 1 < 2 ^ 64 -> brk h' + 16 <= 2 ^ 48 ->
  exists bs wc2, writeValue wo h (Some wc) w = Ret (Some wc2, bs) /\ nextId wc2 <= nextId wc + 1 /\
    exists h2 rc2 w', (forall rest, readValue ro h' (Some rc) (bs ++ rest) = Ret (h2, Some rc2, w', rest)) /\
      linked h wc2 h2 rc2 /\ copied wc2 rc2 w w' /\ later wc rc h' wc2 rc2 h2 /\ brk h2 <= brk h' + 16.
Proof.
  intros Hl [s Hs Hn|w' p Hw Hp Hok] Hid Hb.
  - destruct (inline_roundtrip wo ro s h (Some wc) Hs Hn) as (bs & -> & Hr). exists bs, wc. split; [done|]. split; [lia|].
    exists h', rc, (encode s). split; [done|]. split; [done|]. split; [|split; [apply later_refl|lia]].
    unfold copied. by destruct (inline_type_encode s Hs Hn) as [_ ->].
  - destruct (box_roundtrip wo ro h wc h' rc w' p Hl Hw Hp Hok Hid Hb) as (bs & wc2 & H1 & H2 & h2 & rc2 & w2 & H3 & H4 & H5 & H6 & H7).
    exists bs, wc2. split; [done|]. split; [done|]. exists h2, rc2, w2. split_and!; try done. lia.
Qed.

Lemma values_roundtrip wo ro h vs : Forall (storable h) vs -> forall wc h' rc, linked h wc h' rc ->
  nextId wc + Z.of_nat (List.length vs) < 2 ^ 64 -> brk h' + 16 * Z.of_nat (List.length vs) <= 2 ^ 48 ->
  exists bs wc2, write_values wo h (Some wc) vs = Ret (Some wc2, bs) /\
    exists h2 rc2 vs', (forall rest, read_values ro (List.length vs) h' (Some rc) (bs ++ rest) = Ret (h2, Some rc2, vs', rest)) /\
      linked h wc2 h2 rc2 /\ Forall2 (copied wc2 rc2) vs vs' /\ later wc rc h' wc2 rc2 h2.
Proof.
  induction 1 as [|w vs Hw _ IH]; intros wc h' rc Hl Hid Hb.
  - exists [], wc. split; [done|]. exists h', rc, []. split_and!; [done|done|constructor|apply later_refl].
  - cbn [List.length] in Hid, Hb. destruct (value_roundtrip wo ro h wc h' rc w Hl Hw) as (b & wc1 & H1 & H2 & h1 & rc1 & w' & H3 & H4 & H5 & H6 & H7); [lia..|].
    destruct (IH wc1 h1 rc1 H4) as (bs & wc2 & G1 & h2 & rc2 & vs' & G2 & G3 & G4 & G5); [lia..|].
    cbn [write_values read_values List.length]. rewrite H1. cbn [obind]. rewrite G1. exists (b ++ bs), wc2. split; [done|].
    exists h2, rc2, (w' :: vs'). split_and!; [|done| |by eapply later_trans].
    + intros rest. rewrite <- app_assoc, H3. cbn [obind]. by rewrite G2.
    + constructor; [by eapply copied_later|done].
Qed.

Lemma copied_same h wc h' rc w w' : linked h wc h' rc -> copied wc rc w w' -> same_value h h' w w'.
Proof.
  intros [K _ _ _ _ _]. unfold copied, same_value. destruct (isObj w); [|done]. intros (id & o' & Hi & Ho & Hr & ->). split; [apply obj_word_obj|].
  destruct (K _ _ Hi) as (_ & o2 & p & H1 & H2 & H3). assert (o2 = o') as -> by congruence. unfold asObj. by rewrite obj_payload, H2, H3.
Qed.

Lemma copied_copies h wc h' rc vs vs' : linked h wc h' rc -> Forall2 (copied wc rc) vs vs' -> copies h h' vs vs'.
Proof.
  intros Hl Hc. split; [eapply Forall2_impl; [exact Hc|]; intros w w'; by apply copied_same|].
  intros i j a b a' b' Ha Hb Ha' Hb' Oa Ob. pose proof (Forall2_lookup_lr _ _ _ _ _ _ Hc Ha Ha') as Ca. pose proof (Forall2_lookup_lr _ _ _ _ _ _ Hc Hb Hb') as Cb.
  unfold copied in Ca, Cb. rewrite Oa in Ca. rewrite Ob in Cb. destruct Ca as (i1 & o1 & A1 & A2 & A3 & ->), Cb as (i2 & o2 & B1 & B2 & B3 & ->).
  destruct Hl as [_ I O _ _ _]. split; intros E.
  - rewrite E in A1. congruence.
  - apply (f_equal ptrOf) in E. rewrite !obj_payload in E by done. subst o2. assert (i1 = i2) as -> by by eapply O. by eapply I.
Qed.

Lemma same_box h h' w w' p : same_value h h' w w' -> isObj w = true -> asObj h w = Some p -> asObj h' w' = Some p.
Proof. unfold same_value. intros H Ho Hp. rewrite Ho in H. destruct H as [_ ->]. exact Hp. Qed.

Lemma same_inline h h' w w' : same_value h h' w w' -> isObj w = false -> w' = w.
Proof. unfold same_value. intros H Ho. by rewrite Ho in H. Qed.

(** Two ends that have written and read nothing yet. *)
Lemma linked_fresh h h' : 0 <= brk h' -> linked h fresh h' fresh.
Proof. intros Hb. by split. Qed.
End Wire.
