(* ===== verification/Lists.v ===== *)
(** * Lists: lists and their two storages (ObjList)

    A list keeps bytes packed, one octet each, until something else is stored in it; a
    clone shares its vector, and whichever of the two is written first takes a copy.
    Lists, ranges and vectors are objects by address; what a Value refers to is read off
    its word ([Value]).  [saveVersion]'s part here is the clone it takes ([Mvcc] has the
    versions); [guard] says whether one is due.

    The contract: neither is visible.  Every operation acts as on a plain list of Values
    that nothing else shares. *)

From S2P Require Import Prelude Value DebugInfo Ranges Wire.
From stdpp Require Import numbers.

Module Lists.

Import DebugInfo Ranges Wire.
Local Open Scope Z_scope.

Inductive Repr := Boxed | PackedByte.

Record list_obj := mkList {
  repr_ : Repr;
  elts_ : option Z;               (* null, or a vector of Values *)
  packed_ : option Z;             (* null, or a vector of octets *)
  token : bool;                   (* control->snapshotToken: frozen *)
}.

Record store := mkStore {
  lists : gmap Z list_obj;
  ranges : gmap Z range;
  vecs : gmap Z (list Z);
  octets : gmap Z (list Z);
  brk : Z;                        (* addresses from here on are unused *)
}.

Definition set_list (l : Z) (o : list_obj) (s : store) : store :=
  mkStore (<[l := o]> (lists s)) (ranges s) (vecs s) (octets s) (brk s).
Definition set_vec (b : Z) (v : list Z) (s : store) : store :=
  mkStore (lists s) (ranges s) (<[b := v]> (vecs s)) (octets s) (brk s).
Definition set_octets (b : Z) (v : list Z) (s : store) : store :=
  mkStore (lists s) (ranges s) (vecs s) (<[b := v]> (octets s)) (brk s).
Definition bump (s : store) : store := mkStore (lists s) (ranges s) (vecs s) (octets s) (brk s + 1).

Definition boxed (b : Z) (o : list_obj) : list_obj := mkList Boxed (Some b) None (token o).
Definition packed (b : Z) (o : list_obj) : list_obj := mkList PackedByte None (Some b) (token o).

(** A list takes a new vector of its own. *)
Definition own_vec (l : Z) (o : list_obj) (v : list Z) (s : store) : store :=
  set_list l (boxed (brk s) o) (bump (set_vec (brk s) v s)).
Definition own_octets (l : Z) (o : list_obj) (v : list Z) (s : store) : store :=
  set_list l (packed (brk s) o) (bump (set_octets (brk s) v s)).

(** ** Reading *)

Definition deref {A} (o : option A) : outcome string A := match o with Some a => Ret a | None => UB end.

Definition get (l : Z) (s : store) : outcome string list_obj := deref (lists s !! l).
Definition get_vec (o : list_obj) (s : store) : outcome string (list Z) := deref (b ← elts_ o; vecs s !! b).
Definition get_octets (o : list_obj) (s : store) : outcome string (list Z) := deref (b ← packed_ o; octets s !! b).

(** The octets, or the Values. *)
Definition storage (l : Z) (s : store) : outcome string (list Z) :=
  let! o := get l s in match repr_ o with PackedByte => get_octets o s | Boxed => get_vec o s end.

Definition getElements (l : Z) (s : store) : outcome string (list Z) :=
  let! o := get l s in
  match repr_ o with
  | PackedByte => let! v := get_octets o s in Ret (map byteVal v)
  | Boxed => get_vec o s
  end.

Definition size (l : Z) (s : store) : outcome string Z := let! v := storage l s in Ret (Z.of_nat (List.length v)).
Definition length (l : Z) (s : store) : outcome string Z := let! n := size l s in Ret (wrapS 32 n).

Definition nth_Z {A} (v : list A) (i : Z) : option A := if i <? 0 then None else v !! Z.to_nat i.

Definition range_check : string := "vector::_M_range_check".

(** [at]: checked. *)
Definition getElement (l i : Z) (s : store) : outcome string Z :=
  let! o := get l s in
  match repr_ o with
  | PackedByte =>
      let! v := get_octets o s in match nth_Z v i with Some x => Ret (byteVal x) | None => Throw range_check end
  | Boxed => let! v := get_vec o s in match nth_Z v i with Some x => Ret x | None => Throw range_check end
  end.

Definition isRange (w : Z) (s : store) : option range := if isObj w then ranges s !! ptrOf w else None.
Definition isList (w : Z) (s : store) : option Z :=
  if isObj w then match lists s !! ptrOf w with Some _ => Some (ptrOf w) | None => None end else None.

(** ** Storage *)

(** [use_count] of a vector: the lists that hold it. *)
Definition use_count (field : list_obj -> option Z) (b : Z) (s : store) : nat :=
  base.size (filter (fun x : Z * list_obj => field x.2 = Some b) (lists s)).

Definition ensureUniqueStorage (l : Z) (s : store) : outcome string store :=
  let! o := get l s in
  match repr_ o with
  | PackedByte =>
      let! b := deref (packed_ o) in
      if bool_decide (1 < use_count packed_ b s)%nat
      then let! v := get_octets o s in Ret (own_octets l o v s) else Ret s
  | Boxed =>
      let! b := deref (elts_ o) in
      if bool_decide (1 < use_count elts_ b s)%nat
      then let! v := get_vec o s in Ret (own_vec l o v s) else Ret s
  end.

Definition unpack (l : Z) (s : store) : outcome string store :=
  let! o := get l s in
  match repr_ o with
  | Boxed => Ret s
  | PackedByte => let! v := get_octets o s in Ret (own_vec l o (map byteVal v) s)
  end.

Definition allBytes (v : list Z) : bool := forallb isByte v.

(** [asByte] of what [isByte] has accepted. *)
Definition octet (w : Z) : Z := Z.land w 0xff.

(** Storage chosen anew for [v]. *)
Definition repack (l : Z) (o : list_obj) (v : list Z) (s : store) : store :=
  if allBytes v then own_octets l o (map octet v) s else own_vec l o v s.

Definition shallowClone (l : Z) (s : store) : outcome string (store * Z) :=
  let! o := get l s in
  let c := brk s in
  Ret (set_list c (mkList (repr_ o) (elts_ o) (packed_ o) false) (bump s), c).

Definition frozen : string := "Cannot mutate const value".

Definition ensureMutable (l : Z) (s : store) : outcome string unit :=
  let! o := get l s in if token o then Throw frozen else Ret tt.

Definition saveVersion (guard : bool) (l : Z) (s : store) : outcome string store :=
  if guard then let! (s, _) := shallowClone l s in Ret s else Ret s.

(** How a mutator begins. *)
Definition prologue (guard : bool) (l : Z) (s : store) : outcome string store :=
  let! _ := ensureMutable l s in
  let! s := saveVersion guard l s in
  ensureUniqueStorage l s.

(** Writing the vectors in place. *)
Definition edit (l : Z) (f g : list Z -> list Z) (s : store) : outcome string store :=
  let! o := get l s in
  match repr_ o with
  | PackedByte => let! b := deref (packed_ o) in let! v := deref (octets s !! b) in Ret (set_octets b (f v) s)
  | Boxed => let! b := deref (elts_ o) in let! v := deref (vecs s !! b) in Ret (set_vec b (g v) s)
  end.

Definition is_packed (l : Z) (s : store) : outcome string bool :=
  let! o := get l s in Ret (match repr_ o with PackedByte => true | Boxed => false end).

(** A value that is no byte makes the list boxed. *)
Definition admit_value (l w : Z) (s : store) : outcome string store :=
  let! p := is_packed l s in
  if p && negb (isByte w) then unpack l s else Ret s.

Definition put_at {A} (i : Z) (x : A) (v : list A) : list A := <[Z.to_nat i := x]> v.

(** [operator[]]: unchecked. *)
Definition write_at (l i w : Z) (s : store) : outcome string store :=
  let! v := storage l s in
  match nth_Z v i with
  | Some _ => edit l (put_at i (octet w)) (put_at i w) s
  | None => UB
  end.

(** ** Operations *)

Section Operations.
Context (h : heap).               (* boxed numbers *)
Context (equals : bool -> Z -> Z -> outcome string bool).

Definition of_value {A} (o : outcome error A) : outcome string A :=
  match o with Ret a => Ret a | Throw _ => Throw "conversion" | UB => UB end.

Definition out_of_range : string := "List index out-of-range.".
Definition bad_subscript : string := "List indexing subscript must be a number or a range.".

(** A subscript that is a number, counted back from the end when negative. *)
Definition subscript (i n : Z) : outcome string Z :=
  let! k := of_value (asInt h i true) in
  let! k := (if k <? 0 then if k =? - 2 ^ 63 then UB else Ret (n - (- k)) else Ret k) in
  if (k <? 0) || (n <=? k) then Throw out_of_range else Ret k.

Definition too_long : string := "vector::reserve".

(** The elements of a range of [v] that it has. *)
Fixpoint slice (r : range) (v : list Z) (n : Z) (ks : list Z) : outcome string (list Z) :=
  match ks with
  | [] => Ret []
  | k :: ks =>
      let! t := targetIndex r k n in
      let! rest := slice r v n ks in
      Ret (match nth_Z v t with Some x => if t <? n then x :: rest else rest | None => rest end)
  end.

Definition index (i l : Z) (s : store) : outcome string (store * Z) :=
  if isNumber h i then
    let! n := length l s in
    let! k := subscript i n in
    let! w := getElement l k s in Ret (s, w)
  else
    match isRange i s with
    | Some r =>
        let! n := length l s in
        let! len := length_over r n in
        if len <? 0 then Throw too_long
        else
          let! p := is_packed l s in
          let! v := storage l s in
          let! sub := slice r v n (seqZ 0 len) in
          let c := brk s in
          let o := mkList PackedByte None None false in
          Ret ((if p : bool then own_octets else own_vec) c o sub (bump s), objWord c)
    | None => Throw bad_subscript
    end.

Definition setElement (guard : bool) (l i w : Z) (s : store) : outcome string store :=
  let! s := prologue guard l s in
  let! s := admit_value l w s in
  write_at l i w s.

Definition setElements (guard : bool) (l : Z) (v : list Z) (s : store) : outcome string store :=
  let! _ := ensureMutable l s in
  let! s := saveVersion guard l s in
  let! o := get l s in
  Ret (repack l o v s).

Definition needs_list : string := "Assignment to list with range requires a list on the RHS.".
Definition needs_length : string := "Assignment to list with range requires a list on RHS of same length".

Fixpoint assign (r : range) (l n rhs m : Z) (ks : list Z) (s : store) : outcome string store :=
  match ks with
  | [] => Ret s
  | k :: ks =>
      let! t := targetIndex r k n in
      let! s := (if (0 <=? t) && (t <? n) && (k <? m)
                 then let! w := getElement rhs k s in write_at l t w s else Ret s) in
      assign r l n rhs m ks s
  end.

Definition setIndex (guard : bool) (i w l : Z) (s : store) : outcome string store :=
  let! s := prologue guard l s in
  if isNumber h i then
    let! n := length l s in
    let! k := subscript i n in
    let! s := admit_value l w s in
    write_at l k w s
  else
    match isRange i s with
    | Some r =>
        match isList w s with
        | None => Throw needs_list
        | Some rhs =>
            let! m := length rhs s in
            let! n := length l s in
            let! len := length_over r n in
            if negb (m =? len) then Throw needs_length
            else
              let! p := is_packed l s in
              let! v := getElements rhs s in
              let! s := (if p && negb (allBytes v) then unpack l s else Ret s) in
              assign r l n rhs m (seqZ 0 len) s
        end
    | None => Throw bad_subscript
    end.

(** Inserting a vector's elements into itself is undefined. *)
Definition concatenate (guard : bool) (l other : Z) (s : store) : outcome string store :=
  let! s := prologue guard l s in
  let! p := is_packed l s in
  let! q := is_packed other s in
  let! v := getElements other s in
  if p : bool then
    if q : bool then if l =? other then UB else edit l (fun u => u ++ map octet v) (fun u => u) s
    else if allBytes v then edit l (fun u => u ++ map octet v) (fun u => u) s
    else let! s := unpack l s in edit l (fun u => u) (fun u => u ++ v) s
  else edit l (fun u => u) (fun u => u ++ v) s.

Definition append (guard : bool) (l w : Z) (s : store) : outcome string store :=
  let! s := prologue guard l s in
  let! s := admit_value l w s in
  edit l (fun u => u ++ [octet w]) (fun u => u ++ [w]) s.

Definition insert_before {A} (i : Z) (x : A) (v : list A) : list A := take (Z.to_nat i) v ++ x :: drop (Z.to_nat i) v.
Definition erase_at {A} (i : Z) (v : list A) : list A := take (Z.to_nat i) v ++ drop (S (Z.to_nat i)) v.

(** The place of an insertion: clamped. *)
Definition insertion (i n : Z) : Z :=
  let i := if i <? 0 then Z.max (i + n) 0 else i in if n <? i then n else i.

Definition insertAt (guard : bool) (l i w : Z) (s : store) : outcome string store :=
  let! s := prologue guard l s in
  let! s := admit_value l w s in
  let! n := length l s in
  let k := insertion i n in
  edit l (insert_before k (octet w)) (insert_before k w) s.

Definition pop_range : string := "list index out of range".

Definition removeAt (guard : bool) (l i : Z) (s : store) : outcome string (store * Z) :=
  let! _ := ensureMutable l s in
  let! n := length l s in
  let k := if i <? 0 then i + n else i in
  if (k <? 0) || (n <=? k) then Throw pop_range
  else
    let! s := saveVersion guard l s in
    let! s := ensureUniqueStorage l s in
    let! w := getElement l k s in
    let! s := edit l (erase_at k) (erase_at k) s in
    Ret (s, w).

Fixpoint find_equal (strict : bool) (w : Z) (v : list Z) (k : Z) : outcome string Z :=
  match v with
  | [] => Ret (-1)
  | x :: v => let! b := equals strict x w in if b : bool then Ret k else find_equal strict w v (k + 1)
  end.

Definition removeValue (guard : bool) (l w : Z) (strict : bool) (s : store) : outcome string (store * bool) :=
  let! _ := ensureMutable l s in
  let! v := getElements l s in
  let! k := find_equal strict w v 0 in
  if k <? 0 then Ret (s, false)
  else
    let! s := saveVersion guard l s in
    let! s := ensureUniqueStorage l s in
    let! s := edit l (erase_at k) (erase_at k) s in
    Ret (s, true).

(** [set]: the other's storage, copied. *)
Definition assign_from (guard : bool) (l other : Z) (s : store) : outcome string store :=
  let! _ := ensureMutable l s in
  let! s := saveVersion guard l s in
  let! o := get l s in
  let! q := is_packed other s in
  let! v := storage other s in
  Ret ((if q : bool then own_octets else own_vec) l o v s).

Definition adoptPackedBytes (guard : bool) (l : Z) (b : list Z) (s : store) : outcome string store :=
  let! _ := ensureMutable l s in
  let! s := saveVersion guard l s in
  let! o := get l s in Ret (own_octets l o b s).

Fixpoint as_bytes (v : list Z) : outcome string (list Z) :=
  match v with
  | [] => Ret []
  | w :: v => let! b := of_value (asByte h w true) in let! r := as_bytes v in Ret (b :: r)
  end.

(** Moved out when nothing shares it, copied otherwise. *)
Definition stealPackedBytes (guard : bool) (l : Z) (s : store) : outcome string (store * list Z) :=
  let! _ := ensureMutable l s in
  let! s := saveVersion guard l s in
  let! o := get l s in
  let! sole := (match repr_ o with
                | PackedByte => let! b := deref (packed_ o) in Ret (bool_decide (use_count packed_ b s = 1%nat))
                | Boxed => Ret false end) in
  let! out := (if sole : bool then get_octets o s else let! v := getElements l s in as_bytes v) in
  Ret (own_octets l o [] s, out).

(** Capacity is not modelled; the vector becomes the list's own. *)
Definition reserve (l : Z) (s : store) : outcome string store :=
  let! _ := ensureMutable l s in ensureUniqueStorage l s.

(** Unguarded: filling in a frozen clone. *)
Definition cacheElement (l i w : Z) (s : store) : outcome string store :=
  let! s := ensureUniqueStorage l s in
  let! s := admit_value l w s in
  write_at l i w s.

(** New lists: empty, from Values, from a range, and an unshared copy of bytes. *)
Definition newList (s : store) : store * Z :=
  let c := brk s in (own_octets c (mkList PackedByte None None false) [] (bump s), c).

Fixpoint enumerate (r : range) (ks : list Z) : outcome string (list Z) :=
  match ks with
  | [] => Ret []
  | k :: ks => let! t := targetIndex r k (-1) in let! v := enumerate r ks in Ret (int32Val t :: v)
  end.

Definition list_of_range (r : range) (s : store) : outcome string (store * Z) :=
  let! len := Ranges.length r in
  let! v := enumerate r (seqZ 0 len) in
  let c := brk s in Ret (own_vec c (mkList Boxed None None false) v (bump s), c).

Fixpoint all_equal (a b : list Z) : outcome string bool :=
  match a, b with
  | x :: a, y :: b => let! e := equals false x y in if e : bool then all_equal a b else Ret false
  | _, _ => Ret true
  end.

Definition list_equals (l other : Z) (s : store) : outcome string bool :=
  let! n := length l s in
  let! m := length other s in
  if negb (n =? m) then Ret false
  else
    let! p := is_packed l s in
    let! q := is_packed other s in
    if p && q then let! u := storage l s in let! v := storage other s in Ret (bool_decide (u = v))
    else let! u := getElements l s in let! v := getElements other s in all_equal u v.

End Operations.

(** ** Serialization *)

Section Serialization.
Context (write_object : Z -> writer) (read_object : Z -> heap -> option context -> list Z -> outcome string (heap * option context * Z * list Z)).

Definition packed_mark : Z := 2 ^ 31.

(** A packed list's count has the high bit, and its octets follow. *)
Definition write (h : heap) (c : option context) (l : Z) (s : store) : outcome string (option context * list Z) :=
  let! p := is_packed l s in
  let! v := storage l s in
  if p : bool
  then Ret (c, to_bytes 4 (Z.lor (wrapU 32 (Z.of_nat (List.length v))) packed_mark) ++ v)
  else
    let! n := length l s in
    let! (c, bs) := write_values write_object h c v in Ret (c, to_bytes 4 (wrapU 32 n) ++ bs).

(** A short stream leaves the rest of a vector's octets zero. *)
Definition fill (n : nat) (bs : list Z) : list Z * list Z :=
  (take n bs ++ repeat 0 (n - List.length bs), drop n bs).

Definition read (guard : bool) (l : Z) (h : heap) (c : option context) (bs : list Z) (s : store)
    : outcome string (store * heap * option context * list Z) :=
  let! _ := ensureMutable l s in
  let! s := saveVersion guard l s in
  let! o := get l s in
  let! (raw, bs) := take_int 4 bs in
  if negb (Z.land raw packed_mark =? 0) then
    let (b, bs) := fill (Z.to_nat (Z.land raw (packed_mark - 1))) bs in
    Ret (own_octets l o b s, h, c, bs)
  else
    let! (h, c, v, bs) := read_values read_object (Z.to_nat raw) h c bs in
    Ret (repack l o v s, h, c, bs).
End Serialization.
End Lists.
