(* ===== verification/ListStorage.v ===== *)
(** * ListStorage: what a list holds, and what may change it

    [contents] is the abstraction: a list's Values, read from whichever storage it has.
    [evolves] is what an operation on one list may do to the others: nothing.  Taking a
    vector of one's own, unpacking, cloning and editing a vector no other list has are
    all such steps. *)

From S2P Require Import Prelude Value DebugInfo Ranges Lists.
From stdpp Require Import numbers list.

Module ListStorage.

Import DebugInfo Ranges Lists.
Local Open Scope Z_scope.

(** ** Bytes *)

Definition bytes (v : list Z) : Prop := Forall (inU 8) v.

(** A byte's word is the one [byteVal] makes. *)
Definition canonical (w : Z) : Prop := isByte w = true -> w = byteVal (octet w).

Lemma isByte_byteVal b : isByte (byteVal b) = true.
Proof. unfold isByte. rewrite byte_tag. apply Z.eqb_refl. Qed.

Lemma octet_byteVal b : inU 8 b -> octet (byteVal b) = b.
Proof. apply byte_payload. Qed.

Lemma byte_canonical b : inU 8 b -> canonical (byteVal b).
Proof. intros Hb _. by rewrite octet_byteVal. Qed.

Lemma octet_range w : inU 8 (octet w).
Proof. unfold octet, inU. change 0xff with (Z.ones 8). rewrite Z.land_ones by lia. apply Z.mod_pos_bound. lia. Qed.

Lemma bytes_canonical v : bytes v -> Forall canonical (map byteVal v).
Proof. intros Hv. apply Forall_fmap. eapply Forall_impl; [exact Hv|]. intros b. apply byte_canonical. Qed.

Lemma bytes_all v : allBytes (map byteVal v) = true.
Proof. unfold allBytes. apply forallb_forall. intros w (b & <- & _)%in_map_iff. apply isByte_byteVal. Qed.

Lemma allBytes_octets v : allBytes v = true -> Forall canonical v -> map byteVal (map octet v) = v.
Proof.
  unfold allBytes. intros Hb Hc. induction Hc as [|w v Hw _ IH]; [done|]. cbn in *. apply andb_true_iff in Hb as [H1 H2].
  rewrite IH by done. f_equal. symmetry. by apply Hw.
Qed.

Lemma octets_bytes v : bytes (map octet v).
Proof. apply Forall_fmap, Forall_true. intros w. apply octet_range. Qed.

(** ** Well-formed stores *)

Definition stored (s : store) (o : list_obj) (vs : list Z) : Prop :=
  match repr_ o with
  | PackedByte => elts_ o = None /\ exists b v, packed_ o = Some b /\ b < brk s /\ octets s !! b = Some v /\ bytes v /\ vs = map byteVal v
  | Boxed => packed_ o = None /\ exists b, elts_ o = Some b /\ b < brk s /\ vecs s !! b = Some vs /\ Forall canonical vs
  end.

Definition wf (s : store) : Prop := forall l o, lists s !! l = Some o -> l < brk s /\ exists vs, stored s o vs.

(** What a list holds. *)
Definition contents (s : store) (l : Z) (vs : list Z) : Prop := exists o, lists s !! l = Some o /\ stored s o vs.

Lemma contents_fun s l vs vs' : contents s l vs -> contents s l vs' -> vs = vs'.
Proof.
  intros (o & Ho & H) (o' & Ho' & H'). assert (o' = o) as -> by congruence. unfold stored in *. destruct (repr_ o).
  - destruct H as (_ & b & Hb & _ & Hv & _), H' as (_ & b' & Hb' & _ & Hv' & _). congruence.
  - destruct H as (_ & b & v & Hb & _ & Hv & _ & ->), H' as (_ & b' & v' & Hb' & _ & Hv' & _ & ->). congruence.
Qed.

Lemma contents_canonical s l vs : contents s l vs -> Forall canonical vs.
Proof. intros (o & _ & H). unfold stored in H. destruct (repr_ o); [by destruct H as (_ & b & _ & _ & _ & H)|]. destruct H as (_ & b & v & _ & _ & _ & H & ->). by apply bytes_canonical. Qed.

(** A list that reads as [vs], by storage. *)
Inductive view (s : store) (l : Z) (vs : list Z) : Prop :=
| view_packed o b v : lists s !! l = Some o -> repr_ o = PackedByte -> elts_ o = None -> packed_ o = Some b -> b < brk s ->
    octets s !! b = Some v -> bytes v -> vs = map byteVal v -> view s l vs
| view_boxed o b : lists s !! l = Some o -> repr_ o = Boxed -> packed_ o = None -> elts_ o = Some b -> b < brk s ->
    vecs s !! b = Some vs -> Forall canonical vs -> view s l vs.

Lemma contents_view s l vs : contents s l vs <-> view s l vs.
Proof.
  split.
  - intros (o & Ho & H). unfold stored in H. destruct (repr_ o) eqn:E.
    + destruct H as (Hp & b & Hb & Hl & Hv & Hc). by eapply view_boxed.
    + destruct H as (He & b & v & Hb & Hl & Hv & Hc & Hm). by eapply view_packed.
  - intros [o b v Ho Hr He Hp Hb Hv Hc Hm|o b Ho Hr Hp He Hb Hv Hc]; exists o; (split; [done|]); unfold stored; rewrite Hr.
    + split; [done|]. by exists b, v.
    + split; [done|]. by exists b.
Qed.

(** What one list's operation may do. *)
Record evolves (l : Z) (vs : list Z) (s s' : store) : Prop := {
  ev_wf : wf s';
  ev_contents : contents s' l vs;
  ev_others : forall l' vs', l' <> l -> contents s l' vs' -> contents s' l' vs';
  ev_domain : forall l', l' < brk s -> is_Some (lists s' !! l') <-> is_Some (lists s !! l');
  ev_brk : brk s <= brk s';
  ev_ranges : ranges s' = ranges s;
  ev_token : forall o o', lists s !! l = Some o -> lists s' !! l = Some o' -> token o' = token o;
}.

Lemma evolves_refl l vs s : wf s -> contents s l vs -> evolves l vs s s.
Proof. intros Hw Hc. split; try done. intros o o' Ho Ho'. congruence. Qed.

Lemma evolves_trans l v1 v2 s1 s2 s3 : wf s1 -> is_Some (lists s1 !! l) -> evolves l v1 s1 s2 -> evolves l v2 s2 s3 -> evolves l v2 s1 s3.
Proof.
  intros Hw [o1 H1] [W2 C2 O2 D2 B2 R2 T2] [W3 C3 O3 D3 B3 R3 T3]. split; try done; [auto| |lia|congruence|].
  - intros l' Hl'. rewrite D3 by lia. by apply D2.
  - intros o o' Ho Ho'. destruct C2 as (o2 & Ho2 & _). rewrite (T3 o2 o' Ho2 Ho'). by apply T2.
Qed.

(** ** Taking a new vector *)

(** Adding vectors and lists beyond the break changes no list that is there. *)
Record grows (s s' : store) : Prop := {
  gr_brk : brk s <= brk s';
  gr_vecs : forall b, b < brk s -> vecs s' !! b = vecs s !! b;
  gr_octets : forall b, b < brk s -> octets s' !! b = octets s !! b;
}.

Lemma stored_grows s s' o vs : grows s s' -> stored s o vs -> stored s' o vs.
Proof.
  intros [B V O]. unfold stored. destruct (repr_ o).
  - intros (Hp & b & Hb & Hl & Hv & Hc). split; [done|]. exists b. rewrite V by done. split_and!; [done|lia|done|done].
  - intros (He & b & v & Hb & Hl & Hv & Hc & Hm). split; [done|]. exists b, v. rewrite O by done. split_and!; [done|lia|done|done|done].
Qed.

(** [l] is, or becomes, [o'] with the Values [vs]. *)
Lemma evolves_put s s' l o' vs : wf s -> grows s s' -> lists s' = <[l := o']> (lists s) -> ranges s' = ranges s -> l < brk s' ->
  stored s' o' vs -> (forall o, lists s !! l = Some o -> token o' = token o) -> (l < brk s -> is_Some (lists s !! l)) ->
  evolves l vs s s'.
Proof.
  intros Hw Hg El Er Hb Hs Ht Hl. split.
  - intros k ok. rewrite El. intros [[<- <-]|[Hne Hk]]%lookup_insert_Some; [split; [done|by exists vs]|].
    destruct (Hw k ok Hk) as [Hlt [v Hv]]. split; [destruct Hg; lia|]. exists v. by apply (stored_grows s).
  - exists o'. rewrite El, lookup_insert_eq. done.
  - intros k v Hne (ok & Hk & Hv). exists ok. rewrite El, lookup_insert_ne by done. split; [done|]. by apply (stored_grows s).
  - intros k Hk. rewrite El. destruct (decide (l = k)) as [<-|Hne]; [|by rewrite lookup_insert_ne].
    rewrite lookup_insert_eq. split; [intros _; by apply Hl|by eexists].
  - apply Hg.
  - done.
  - intros o o2 Ho. rewrite El, lookup_insert_eq. intros [= <-]. by apply Ht.
Qed.

Lemma grows_bump s : grows s (bump s).
Proof. split; cbn; [lia|done..]. Qed.

Lemma grows_trans s1 s2 s3 : grows s1 s2 -> grows s2 s3 -> grows s1 s3.
Proof.
  intros [B1 V1 O1] [B2 V2 O2]. split; [lia|intros b Hb; rewrite V2, V1 by lia; done|intros b Hb; rewrite O2, O1 by lia; done].
Qed.

Lemma own_vec_evolves l o o' v s s0 : wf s0 -> grows s0 s -> lists s = lists s0 -> ranges s = ranges s0 -> l < brk s + 1 -> Forall canonical v ->
  (forall o1, lists s0 !! l = Some o1 -> token o' = token o1) -> (l < brk s0 -> is_Some (lists s0 !! l)) ->
  o = o' -> evolves l v s0 (own_vec l o v s).
Proof.
  intros Hw Hg El Er Hb Hv Ht Hl ->. apply (evolves_put _ _ _ (boxed (brk s) o')); try done.
  - eapply grows_trans; [exact Hg|]. split; cbn; [lia| |done]. intros b Hlt. by rewrite lookup_insert_ne by lia.
  - cbn. by rewrite El.
  - split; [done|]. exists (brk s). cbn. rewrite lookup_insert_eq. split_and!; [done|lia|done|done].
Qed.

Lemma own_octets_evolves l o o' v s s0 : wf s0 -> grows s0 s -> lists s = lists s0 -> ranges s = ranges s0 -> l < brk s + 1 -> bytes v ->
  (forall o1, lists s0 !! l = Some o1 -> token o' = token o1) -> (l < brk s0 -> is_Some (lists s0 !! l)) ->
  o = o' -> evolves l (map byteVal v) s0 (own_octets l o v s).
Proof.
  intros Hw Hg El Er Hb Hv Ht Hl ->. apply (evolves_put _ _ _ (packed (brk s) o')); try done.
  - eapply grows_trans; [exact Hg|]. split; cbn; [lia|done|]. intros b Hlt. by rewrite lookup_insert_ne by lia.
  - cbn. by rewrite El.
  - split; [done|]. exists (brk s), v. cbn. rewrite lookup_insert_eq. split_and!; [done|lia|done|done|done].
Qed.

Lemma replace_vec l o v s : wf s -> lists s !! l = Some o -> Forall canonical v -> evolves l v s (own_vec l o v s).
Proof.
  intros Hw Ho Hv. destruct (Hw l o Ho) as [Hl _]. apply (own_vec_evolves l o o v s s); try done; [lia|].
  intros o1 ?. by simplify_eq.
Qed.

Lemma replace_octets l o v s : wf s -> lists s !! l = Some o -> bytes v -> evolves l (map byteVal v) s (own_octets l o v s).
Proof.
  intros Hw Ho Hv. destruct (Hw l o Ho) as [Hl _]. apply (own_octets_evolves l o o v s s); try done; [lia|].
  intros o1 ?. by simplify_eq.
Qed.

Lemma repack_evolves l o v s : wf s -> lists s !! l = Some o -> Forall canonical v -> evolves l v s (repack l o v s).
Proof.
  intros Hw Ho Hv. unfold repack. destruct (allBytes v) eqn:E; [|by apply replace_vec].
  rewrite <- (allBytes_octets v E Hv) at 1. apply replace_octets; [done|done|apply octets_bytes].
Qed.

(** ** Clones *)

Lemma clone_spec l s vs : wf s -> contents s l vs -> exists s' c, shallowClone l s = Ret (s', c) /\ c = brk s /\
  evolves l vs s s' /\ contents s' c vs.
Proof.
  intros Hw (o & Ho & Hs). destruct (Hw l o Ho) as [Hl _]. unfold shallowClone, get. rewrite Ho. cbn [deref obind].
  eexists _, (brk s). split; [done|]. split; [done|]. set (o' := mkList _ _ _ _). set (s' := set_list _ _ _).
  assert (grows s s') as Hg by (split; cbn; [lia|done|done]).
  assert (stored s' o' vs) as Hs' by (apply (stored_grows s s') in Hs; [|done]; exact Hs).
  destruct (evolves_put s s' (brk s) o' vs Hw Hg eq_refl eq_refl) as [W C O D B R T]; [cbn; lia|done| |lia|].
  { intros o1 H1. destruct (Hw _ _ H1). lia. }
  split; [|done]. split; try done; [apply O; [lia|by exists o]|intros k v _; by destruct (decide (k = brk s)) as [->|Hne]; [intros (o1 & H1 & _); destruct (Hw _ _ H1); lia|apply O]|].
  intros o1 o2 H1. cbn. rewrite lookup_insert_ne by lia. congruence.
Qed.

Lemma save_spec guard l s vs : wf s -> contents s l vs -> exists s', saveVersion guard l s = Ret s' /\
  evolves l vs s s' /\ (guard = true -> contents s' (brk s) vs /\ brk s < brk s').
Proof.
  intros Hw Hc. unfold saveVersion. destruct guard; [|exists s; split; [done|]; split; [by apply evolves_refl|done]].
  destruct (clone_spec l s vs Hw Hc) as (s' & c & E & -> & He & Hv). rewrite E. cbn [obind]. exists s'. split; [done|]. split; [done|]. intros _.
  split; [done|]. destruct Hv as (o & Ho & _). by destruct (ev_wf _ _ _ _ He _ _ Ho).
Qed.

(** ** Reading *)

Lemma get_elements s l vs : contents s l vs -> getElements l s = Ret vs.
Proof.
  intros [o b v Ho Hr He Hp Hb Hv Hc ->|o b Ho Hr Hp He Hb Hv Hc]%contents_view;
    unfold getElements, get, get_octets, get_vec; rewrite Ho; cbn [deref obind]; rewrite Hr, ?Hp, ?He; cbn; by rewrite Hv.
Qed.

Lemma storage_of s l vs : contents s l vs -> exists p v, is_packed l s = Ret p /\ storage l s = Ret v /\
  (p = true -> bytes v /\ vs = map byteVal v) /\ (p = false -> v = vs) /\ List.length v = List.length vs.
Proof.
  intros [o b v Ho Hr He Hp Hb Hv Hc ->|o b Ho Hr Hp He Hb Hv Hc]%contents_view;
    unfold is_packed, storage, get, get_octets, get_vec; rewrite Ho; cbn [deref obind]; rewrite Hr, ?Hp, ?He; cbn; rewrite Hv.
  - exists true, v. cbn. by rewrite length_map.
  - by exists false, vs.
Qed.

Lemma length_of s l vs : contents s l vs -> Z.of_nat (List.length vs) < 2 ^ 31 -> length l s = Ret (Z.of_nat (List.length vs)).
Proof.
  intros Hc Hn. destruct (storage_of s l vs Hc) as (p & v & _ & Hv & _ & _ & El). unfold length, size. rewrite Hv. cbn [obind].
  rewrite El. f_equal. unfold wrapS. rewrite Z.mod_small by lia. lia.
Qed.

Lemma nth_Z_map {A B} (f : A -> B) v i : nth_Z (map f v) i = option_map f (nth_Z v i).
Proof. unfold nth_Z. destruct (i <? 0); [done|]. apply list_lookup_fmap. Qed.

Lemma get_element s l vs i : contents s l vs -> getElement l i s = match nth_Z vs i with Some w => Ret w | None => Throw range_check end.
Proof.
  intros [o b v Ho Hr He Hp Hb Hv Hc ->|o b Ho Hr Hp He Hb Hv Hc]%contents_view;
    unfold getElement, get, get_octets, get_vec; rewrite Ho; cbn [deref obind]; rewrite Hr, ?Hp, ?He; cbn; rewrite Hv; cbn; [|done].
  rewrite nth_Z_map. by destruct (nth_Z v i).
Qed.

Lemma nth_Z_Some {A} (v : list A) i : 0 <= i < Z.of_nat (List.length v) -> exists x, nth_Z v i = Some x.
Proof.
  intros Hi. unfold nth_Z. assert ((i <? 0) = false) as -> by (apply Z.ltb_ge; lia). apply lookup_lt_is_Some. lia.
Qed.

Lemma nth_Z_inv {A} (v : list A) i x : nth_Z v i = Some x -> 0 <= i < Z.of_nat (List.length v).
Proof. unfold nth_Z. destruct (Z.ltb_spec i 0); [done|]. intros Hi%lookup_lt_Some. lia. Qed.

(** ** Sole owners *)

(** No other list has [l]'s vectors. *)
Definition sole (s : store) (l : Z) : Prop := forall l' o o', l' <> l -> lists s !! l = Some o -> lists s !! l' = Some o' ->
  (forall b, elts_ o = Some b -> elts_ o' <> Some b) /\ (forall b, packed_ o = Some b -> packed_ o' <> Some b).

Lemma use_count_one field b s l l' o o' : (use_count field b s <= 1)%nat -> l' <> l -> lists s !! l = Some o -> lists s !! l' = Some o' ->
  field o = Some b -> field o' <> Some b.
Proof.
  intros Hc Hne Hl Hl' Hb Hb'. unfold use_count in Hc.
  assert (base.size ({[l := o; l' := o']} : gmap Z list_obj) = 2%nat) as Hs.
  { rewrite map_size_insert_None; [by rewrite map_size_singleton|]. by rewrite lookup_singleton_ne. }
  enough (base.size ({[l := o; l' := o']} : gmap Z list_obj) <= 1)%nat by lia. etrans; [|exact Hc]. apply map_subseteq_size.
  apply insert_subseteq_l; [by apply map_lookup_filter_Some_2|]. apply map_singleton_subseteq_l. by apply map_lookup_filter_Some_2.
Qed.

(** The vectors of a well-formed store's lists precede the break. *)
Lemma stored_below s o vs b : stored s o vs -> elts_ o = Some b \/ packed_ o = Some b -> b < brk s.
Proof.
  unfold stored. destruct (repr_ o).
  - intros (Hp & b' & Hb & Hl & _) [H|H]; congruence.
  - intros (He & b' & v & Hb & Hl & _) [H|H]; congruence.
Qed.

Lemma put_sole s s' l o' : wf s -> lists s' = <[l := o']> (lists s) ->
  (forall b, elts_ o' = Some b \/ packed_ o' = Some b -> brk s <= b) -> sole s' l.
Proof.
  intros Hw El Hb k o ok Hne. rewrite El, lookup_insert_eq, lookup_insert_ne by done. intros [= <-] Hk.
  destruct (Hw k ok Hk) as [_ [vs Hs]].
  split; intros b Ho Hk'; [specialize (Hb b (or_introl Ho))|specialize (Hb b (or_intror Ho))];
    pose proof (stored_below s ok vs b Hs ltac:(auto)); lia.
Qed.

Lemma own_vec_sole l o v s : wf s -> sole (own_vec l o v s) l.
Proof. intros Hw. apply (put_sole s _ l (boxed (brk s) o)); [done|done|]. intros b [[= <-]|[=]]. lia. Qed.

Lemma own_octets_sole l o v s : wf s -> sole (own_octets l o v s) l.
Proof. intros Hw. apply (put_sole s _ l (packed (brk s) o)); [done|done|]. intros b [[=]|[= <-]]. lia. Qed.

(** [l] reads as [vs] and may be written in place. *)
Record writable (s : store) (l : Z) (vs : list Z) : Prop := { wr_wf : wf s; wr_contents : contents s l vs; wr_sole : sole s l }.

Lemma ensure_unique l s vs : wf s -> contents s l vs -> exists s', ensureUniqueStorage l s = Ret s' /\ evolves l vs s s' /\ writable s' l vs.
Proof.
  intros Hw Hc. pose proof Hc as Hc'. apply contents_view in Hc'.
  destruct Hc' as [o b v Ho Hr He Hp Hb Hv Hby ->|o b Ho Hr Hp He Hb Hv Hca]; unfold ensureUniqueStorage, get; rewrite Ho; cbn [deref obind];
    rewrite Hr, ?Hp, ?He; cbn [deref obind]; case_bool_decide as Hu.
  - unfold get_octets. rewrite Hp. cbn. rewrite Hv. cbn [obind deref]. eexists. split; [done|].
    pose proof (replace_octets l o v s Hw Ho Hby) as E. split; [exact E|]. split; [apply E|apply E|by apply own_octets_sole].
  - exists s. split; [done|]. split; [by apply evolves_refl|]. split; [done|done|]. intros l' o1 o' Hne H1 H2. assert (o1 = o) as -> by congruence.
    split; [congruence|]. intros b' Hb'. apply (use_count_one packed_ b' s l l' o o'); try done. assert (b' = b) as -> by congruence. lia.
  - unfold get_vec. rewrite He. cbn. rewrite Hv. cbn [obind deref]. eexists. split; [done|].
    pose proof (replace_vec l o vs s Hw Ho Hca) as E. split; [exact E|]. split; [apply E|apply E|by apply own_vec_sole].
  - exists s. split; [done|]. split; [by apply evolves_refl|]. split; [done|done|]. intros l' o1 o' Hne H1 H2. assert (o1 = o) as -> by congruence.
    split; [|congruence]. intros b' Hb'. apply (use_count_one elts_ b' s l l' o o'); try done. assert (b' = b) as -> by congruence. lia.
Qed.

Lemma admit_spec l w s vs : writable s l vs -> exists s', admit_value l w s = Ret s' /\ evolves l vs s s' /\ writable s' l vs /\
  (is_packed l s' = Ret true -> isByte w = true).
Proof.
  intros Hwr. pose proof Hwr as [Hw Hc Hs]. pose proof Hc as Hc'. apply contents_view in Hc'.
  unfold admit_value. destruct (isByte w) eqn:Eb.
  { destruct (storage_of s l vs Hc) as (p & _ & -> & _). cbn [obind negb]. rewrite andb_false_r. exists s. by split_and!; [|apply evolves_refl|..]. }
  destruct Hc' as [o b v Ho Hr He Hp Hb Hv Hby ->|o b Ho Hr Hp He Hb Hv Hca]; unfold is_packed, unpack, get, get_octets; rewrite Ho;
    cbn [deref obind]; rewrite Hr; cbn [negb andb].
  - rewrite Hp. cbn. rewrite Hv. cbn [obind deref]. eexists. split; [done|].
    pose proof (replace_vec l o (map byteVal v) s Hw Ho (bytes_canonical v Hby)) as E. split; [exact E|].
    split; [split; [apply E|apply E|by apply own_vec_sole]|]. cbn. by rewrite lookup_insert_eq.
  - exists s. split; [done|]. split; [by apply evolves_refl|]. split; [done|]. cbn. by rewrite Ho; cbn; rewrite Hr.
Qed.

(** ** Writing in place *)

Lemma in_place s s' l o vs' : wf s -> sole s l -> lists s !! l = Some o -> lists s' = lists s -> ranges s' = ranges s -> brk s' = brk s ->
  stored s' o vs' -> (forall k ok vk, k <> l -> lists s !! k = Some ok -> stored s ok vk -> stored s' ok vk) ->
  evolves l vs' s s' /\ writable s' l vs'.
Proof.
  intros Hw Hs Ho El Er Eb Hst Hoth.
  assert (contents s' l vs') as Hc by (exists o; by rewrite El).
  assert (wf s') as Hw'.
  { intros k ok. rewrite El, Eb. intros Hk. destruct (Hw k ok Hk) as [Hlt [vk Hvk]]. split; [done|].
    destruct (decide (k = l)) as [->|Hne]; [|exists vk; by apply (Hoth k)]. assert (ok = o) as -> by congruence. by eexists. }
  split; [|split; [done|done|unfold sole; by rewrite El]]. split; try done; [|by rewrite El|lia|rewrite El; congruence].
  intros k vk Hne (ok & Hk & Hvk). exists ok. rewrite El. split; [done|]. by apply (Hoth k).
Qed.

Lemma edit_spec l f g s vs vs' : writable s l vs -> Forall canonical vs' ->
  (is_packed l s = Ret true -> forall v, bytes v -> vs = map byteVal v -> bytes (f v) /\ vs' = map byteVal (f v)) ->
  (is_packed l s = Ret false -> g vs = vs') ->
  exists s', edit l f g s = Ret s' /\ evolves l vs' s s' /\ writable s' l vs' /\ is_packed l s' = is_packed l s.
Proof.
  intros [Hw Hc Hs] Hv' Hf Hg. pose proof Hc as Hc'. apply contents_view in Hc'. unfold is_packed, edit, get in *.
  destruct Hc' as [o b v Ho Hr He Hp Hb Hv Hby ->|o b Ho Hr Hp He Hb Hv Hca]; rewrite Ho in *; cbn [deref obind] in *; rewrite Hr in *.
  - destruct (Hf eq_refl v Hby eq_refl) as [Hfb ->]. rewrite Hp. cbn [deref obind]. rewrite Hv. cbn [deref obind]. eexists. split; [done|].
    destruct (in_place s (set_octets b (f v) s) l o (map byteVal (f v))) as [H1 H2]; try done.
    + unfold stored. rewrite Hr. split; [done|]. exists b, (f v). cbn. by rewrite lookup_insert_eq.
    + intros k ok vk Hne Hk. destruct (Hs k o ok Hne Ho Hk) as [_ Hd]. unfold stored. destruct (repr_ ok); [done|].
      intros (He' & b' & v' & Hb' & Hl & Hl' & Hx). split; [done|]. exists b', v'. cbn. rewrite lookup_insert_ne; [done|]. intros ->. by apply (Hd b').
    + split; [done|]. split; [done|]. cbn. by rewrite Ho; cbn; rewrite Hr.
  - rewrite <- (Hg eq_refl) in *. rewrite He. cbn [deref obind]. rewrite Hv. cbn [deref obind]. eexists. split; [done|].
    destruct (in_place s (set_vec b (g vs) s) l o (g vs)) as [H1 H2]; try done.
    + unfold stored. rewrite Hr. split; [done|]. exists b. cbn. by rewrite lookup_insert_eq.
    + intros k ok vk Hne Hk. destruct (Hs k o ok Hne Ho Hk) as [Hd _]. unfold stored. destruct (repr_ ok); [|done].
      intros (He' & b' & Hb' & Hl & Hl' & Hx). split; [done|]. exists b'. cbn. rewrite lookup_insert_ne; [done|]. intros ->. by apply (Hd b').
    + split; [done|]. split; [done|]. cbn. by rewrite Ho; cbn; rewrite Hr.
Qed.

(** [f] and [g] are the same edit of octets and of Values. *)
Lemma edit_both l f g s vs : writable s l vs -> Forall canonical (g vs) ->
  (is_packed l s = Ret true -> forall v, bytes v -> vs = map byteVal v -> bytes (f v) /\ g (map byteVal v) = map byteVal (f v)) ->
  exists s', edit l f g s = Ret s' /\ evolves l (g vs) s s' /\ writable s' l (g vs) /\ is_packed l s' = is_packed l s.
Proof. intros Hwr Hg Hf. apply (edit_spec l f g s vs (g vs)); try done. intros Hp v Hv ->. by apply Hf. Qed.

Lemma put_at_map {A B} (f : A -> B) i x v : put_at i (f x) (map f v) = map f (put_at i x v).
Proof. unfold put_at. symmetry. apply list_fmap_insert. Qed.

Lemma Forall_put_at {A} (P : A -> Prop) i x v : Forall P v -> P x -> Forall P (put_at i x v).
Proof. intros Hv Hx. by apply Forall_insert. Qed.

Lemma write_spec l i w s vs : writable s l vs -> canonical w -> (is_packed l s = Ret true -> isByte w = true) ->
  match nth_Z vs i with
  | Some _ => exists s', write_at l i w s = Ret s' /\ evolves l (put_at i w vs) s s' /\ writable s' l (put_at i w vs) /\ is_packed l s' = is_packed l s
  | None => write_at l i w s = UB
  end.
Proof.
  intros Hwr Hcw Hb. pose proof Hwr as [Hw Hc Hs]. destruct (storage_of s l vs Hc) as (p & v & Hp & Hv & Hpt & Hpf & El).
  unfold write_at. rewrite Hv. cbn [obind]. assert (is_Some (nth_Z v i) <-> is_Some (nth_Z vs i)) as Hn.
  { unfold nth_Z. destruct (i <? 0); [done|]. by rewrite !lookup_lt_is_Some, El. }
  destruct (nth_Z vs i) as [x|] eqn:Ex.
  - destruct (proj2 Hn) as [y ->]; [by eexists|]. apply (edit_both l (put_at i (octet w)) (put_at i w) s vs); [done|by apply Forall_put_at; [apply (contents_canonical s l)|]|].
    intros Hpk u Hu _. split; [apply Forall_put_at; [done|apply octet_range]|]. rewrite <- put_at_map. f_equal. apply Hcw. by apply Hb.
  - destruct (nth_Z v i); [|done]. destruct (proj1 Hn) as [? [=]]. by eexists.
Qed.

(** ** How a mutator begins *)

(** The operation's effect, and the old contents kept for a snapshot. *)
Definition mutates (guard : bool) (l : Z) (vs vs' : list Z) (s s' : store) : Prop :=
  evolves l vs' s s' /\ (guard = true -> contents s' (brk s) vs).

Lemma mutates_step guard l vs v1 v2 s s1 s2 : wf s -> contents s l vs -> mutates guard l vs v1 s s1 -> evolves l v2 s1 s2 -> mutates guard l vs v2 s s2.
Proof.
  intros Hw (o & Ho & _) [E1 G1] E2. split; [by eapply evolves_trans; [done|by eexists|exact E1|exact E2]|].
  intros Hg. apply E2; [|by apply G1]. destruct (Hw l o Ho) as [Hlt _]. lia.
Qed.

Lemma mutable_token l s o : lists s !! l = Some o -> ensureMutable l s = if token o then Throw frozen else Ret tt.
Proof. intros Ho. unfold ensureMutable, get. by rewrite Ho. Qed.

Lemma saves guard l s vs : wf s -> contents s l vs -> exists s', saveVersion guard l s = Ret s' /\ mutates guard l vs vs s s' /\ wf s' /\ contents s' l vs.
Proof.
  intros Hw Hc. destruct (save_spec guard l s vs Hw Hc) as (s' & E & He & Hg). exists s'. split; [done|]. split; [|split; apply He].
  split; [done|]. intros H. by apply Hg.
Qed.

Lemma saves_unique guard l s vs : wf s -> contents s l vs ->
  exists s', (let! s1 := saveVersion guard l s in ensureUniqueStorage l s1) = Ret s' /\ mutates guard l vs vs s s' /\ writable s' l vs.
Proof.
  intros Hw Hc. destruct (saves guard l s vs Hw Hc) as (s1 & -> & Hm & Hw1 & Hc1). cbn [obind].
  destruct (ensure_unique l s1 vs Hw1 Hc1) as (s2 & -> & He & Hwr). exists s2. split; [done|]. split; [|done]. by eapply mutates_step.
Qed.

End ListStorage.
