(* ===== verification/ListProofs.v ===== *)
(** * ListProofs: storage and sharing are invisible

    [effect] is the contract: what each mutating operation does to a plain list of Values.
    [run] is the operations of [Lists]; each is proved against its effect, then subscripts,
    slice assignment, equality and serialization.  The last section shows inputs the
    contract leaves out. *)

From S2P Require Import Prelude Value DebugInfo Ranges Wire Lists ListStorage.
From stdpp Require Import numbers list.

Module ListProofs.

Import DebugInfo Ranges Wire Lists ListStorage.
Local Open Scope Z_scope.

(** ** The contract *)

Section Contract.
Context (h : heap).
Context (equals : bool -> Z -> Z -> outcome string bool).

Inductive op :=
| SetElement (i w : Z) | SetElements (v : list Z) | SetIndex (i w : Z) | Concatenate (other : Z) | Append (w : Z)
| InsertAt (i w : Z) | RemoveAt (i : Z) | RemoveValue (w : Z) (strict : bool) | Assign (other : Z) | Adopt (b : list Z) | Steal.

Inductive answer := Done | Took (w : Z) | Removed (b : bool) | Octets (b : list Z).

Definition done_with {A} (x : outcome string A) : outcome string (A * answer) := let! a := x in Ret (a, Done).

Definition run (guard : bool) (l : Z) (o : op) (s : store) : outcome string (store * answer) :=
  match o with
  | SetElement i w => done_with (setElement guard l i w s)
  | SetElements v => done_with (setElements guard l v s)
  | SetIndex i w => done_with (setIndex h guard i w l s)
  | Concatenate other => done_with (concatenate guard l other s)
  | Append w => done_with (append guard l w s)
  | InsertAt i w => done_with (insertAt guard l i w s)
  | RemoveAt i => let! (s, w) := removeAt guard l i s in Ret (s, Took w)
  | RemoveValue w strict => let! (s, b) := removeValue equals guard l w strict s in Ret (s, Removed b)
  | Assign other => done_with (assign_from guard l other s)
  | Adopt b => done_with (adoptPackedBytes guard l b s)
  | Steal => let! (s, b) := stealPackedBytes h guard l s in Ret (s, Octets b)
  end.

(** The list at an address, as Values. *)
Definition listing (s : store) (l : Z) : outcome string (list Z) := getElements l s.

Definition len {A} (v : list A) : Z := Z.of_nat (List.length v).

Fixpoint splice (r : range) (src vs : list Z) (n : Z) (ks : list Z) : outcome string (list Z) :=
  match ks with
  | [] => Ret vs
  | k :: ks =>
      let! t := targetIndex r k n in
      splice r src (match nth_Z src k with Some w => if (0 <=? t) && (t <? n) then put_at t w vs else vs | None => vs end) n ks
  end.

(** What each operation does to a plain list of Values. *)
Definition effect (s : store) (o : op) (vs : list Z) : outcome string (list Z * answer) :=
  match o with
  | SetElement i w => match nth_Z vs i with Some _ => Ret (put_at i w vs, Done) | None => UB end
  | SetElements v => Ret (v, Done)
  | SetIndex i w =>
      if isNumber h i then let! k := subscript h i (len vs) in Ret (put_at k w vs, Done)
      else
        match isRange i s with
        | None => Throw bad_subscript
        | Some r =>
            match isList w s with
            | None => Throw needs_list
            | Some rhs =>
                let! src := listing s rhs in
                let! n := length_over r (len vs) in
                if len src =? n then done_with (splice r src vs (len vs) (seqZ 0 n)) else Throw needs_length
            end
        end
  | Concatenate other => let! v := listing s other in Ret (vs ++ v, Done)
  | Append w => Ret (vs ++ [w], Done)
  | InsertAt i w => Ret (insert_before (insertion i (len vs)) w vs, Done)
  | RemoveAt i =>
      let k := if i <? 0 then i + len vs else i in
      match nth_Z vs k with Some w => Ret (erase_at k vs, Took w) | None => Throw pop_range end
  | RemoveValue w strict =>
      let! k := find_equal equals strict w vs 0 in
      Ret (if k <? 0 then (vs, Removed false) else (erase_at k vs, Removed true))
  | Assign other => let! v := listing s other in Ret (v, Done)
  | Adopt b => Ret (map byteVal b, Done)
  | Steal => let! b := as_bytes h vs in Ret ([], Octets b)
  end.

(** A list of another operand: not the list itself, and already there. *)
Definition allocated (s : store) (w : Z) : Prop := isObj w = true -> ptrOf w < brk s.

Definition admissible (s : store) (l : Z) (o : op) : Prop :=
  match o with
  | SetElement _ w | Append w | InsertAt _ w => canonical w
  | SetIndex _ w => canonical w /\ allocated s w /\ isList w s <> Some l
  | SetElements v => Forall canonical v
  | Concatenate other => other <> l /\ other < brk s
  | Assign other => other < brk s
  | Adopt b => bytes b
  | RemoveAt _ | RemoveValue _ _ | Steal => True
  end.

Definition small (s : store) : Prop := forall l vs, contents s l vs -> len vs < 2 ^ 31.

(** The operation does to its list what [spec] says, and nothing to any other. *)
Definition implements (guard : bool) (l : Z) (vs : list Z) (s : store) (spec : outcome string (list Z * answer)) (impl : outcome string (store * answer)) : Prop :=
  match spec with
  | Ret (vs', a) => exists s', impl = Ret (s', a) /\ evolves l vs' s s' /\ (guard = true -> a <> Removed false -> contents s' (brk s) vs)
  | Throw e => impl = Throw e
  | UB => impl = UB
  end.

Lemma implements_mutates guard l vs vs' a s s' impl : impl = Ret (s', a) -> mutates guard l vs vs' s s' -> implements guard l vs s (Ret (vs', a)) impl.
Proof. intros -> [He Hg]. exists s'. split; [done|]. split; [done|]. auto. Qed.

(** [l] is not frozen. *)
Definition mutable (l : Z) (s : store) : Prop := ensureMutable l s = Ret tt.

Lemma prologue_spec guard l s vs : wf s -> contents s l vs -> mutable l s ->
  exists s', prologue guard l s = Ret s' /\ mutates guard l vs vs s s' /\ writable s' l vs.
Proof. intros Hw Hc Hm. unfold prologue. rewrite Hm. cbn [obind]. by apply saves_unique. Qed.

Lemma prologue_admit guard l w s vs : wf s -> contents s l vs -> mutable l s ->
  exists s', (let! s1 := prologue guard l s in admit_value l w s1) = Ret s' /\ mutates guard l vs vs s s' /\ writable s' l vs /\
    (is_packed l s' = Ret true -> isByte w = true).
Proof.
  intros Hw Hc Hm. destruct (prologue_spec guard l s vs Hw Hc Hm) as (s1 & -> & H1 & Hr1). cbn [obind].
  destruct (admit_spec l w s1 vs Hr1) as (s2 & -> & E2 & Hr2 & Hp). exists s2. split; [done|]. split; [by eapply mutates_step|done].
Qed.

(** An operation that lets [w] in and edits with it. *)
Lemma admitting guard l w f g s vs : wf s -> contents s l vs -> mutable l s -> canonical w ->
  (forall u, bytes u -> bytes (f (octet w) u)) -> (forall b u, g (byteVal b) (map byteVal u) = map byteVal (f b u)) ->
  Forall canonical (g w vs) ->
  exists s', (let! s1 := prologue guard l s in let! s2 := admit_value l w s1 in edit l (f (octet w)) (g w) s2) = Ret s' /\
    mutates guard l vs (g w vs) s s'.
Proof.
  intros Hw Hc Hm Hcw Hf Hg Hgw. destruct (prologue_admit guard l w s vs Hw Hc Hm) as (s2 & E & H2 & Hr2 & Hp).
  destruct (prologue guard l s) as [s1| |]; try done. cbn [obind] in *. rewrite E. cbn [obind].
  destruct (edit_both l (f (octet w)) (g w) s2 vs Hr2 Hgw) as (s3 & E3 & Ev & _).
  { intros Hpk v Hv _. split; [by apply Hf|]. rewrite <- Hg. f_equal. apply Hcw. by apply Hp. }
  exists s3. split; [done|]. by eapply mutates_step.
Qed.

Lemma set_element_ok guard l i w s vs : wf s -> contents s l vs -> mutable l s -> canonical w ->
  implements guard l vs s (effect s (SetElement i w) vs) (run guard l (SetElement i w) s).
Proof.
  intros Hw Hc Hm Hcw. cbn [effect run]. unfold setElement. destruct (prologue_admit guard l w s vs Hw Hc Hm) as (s2 & E & H2 & Hr2 & Hp).
  destruct (prologue guard l s) as [s1| |]; try done. cbn [obind] in *. rewrite E. cbn [obind].
  pose proof (write_spec l i w s2 vs Hr2 Hcw Hp) as Hwt. destruct (nth_Z vs i).
  - destruct Hwt as (s3 & -> & E3 & _). eapply implements_mutates; [done|]. by eapply mutates_step.
  - cbn. by rewrite Hwt.
Qed.

Lemma set_elements_ok guard l v s vs : wf s -> contents s l vs -> mutable l s -> Forall canonical v ->
  implements guard l vs s (effect s (SetElements v) vs) (run guard l (SetElements v) s).
Proof.
  intros Hw Hc Hm Hv. cbn [effect run]. unfold setElements. rewrite Hm. cbn [obind].
  destruct (saves guard l s vs Hw Hc) as (s1 & -> & H1 & Hw1 & Hc1). cbn [obind]. destruct Hc1 as (o & Ho & Hs).
  unfold get. rewrite Ho. cbn [deref obind]. eapply implements_mutates; [done|]. eapply mutates_step; [done|done|exact H1|]. by apply repack_evolves.
Qed.

Lemma list_append_ok guard l w s vs : wf s -> contents s l vs -> mutable l s -> canonical w ->
  implements guard l vs s (effect s (Append w) vs) (run guard l (Append w) s).
Proof.
  intros Hw Hc Hm Hcw. cbn [effect run]. unfold append.
  destruct (admitting guard l w (fun b u => u ++ [b]) (fun b u => u ++ [b]) s vs) as (s' & -> & H'); try done.
  - intros u Hu. apply Forall_app. split; [done|]. constructor; [apply octet_range|done].
  - intros b u. by rewrite map_app.
  - apply Forall_app. split; [by eapply contents_canonical|by constructor].
  - by eapply implements_mutates.
Qed.

Lemma insert_at_ok guard l i w s vs : wf s -> contents s l vs -> small s -> mutable l s -> canonical w ->
  implements guard l vs s (effect s (InsertAt i w) vs) (run guard l (InsertAt i w) s).
Proof.
  intros Hw Hc Hsm Hm Hcw. cbn [effect run]. unfold insertAt. pose proof (contents_canonical s l vs Hc) as Hca.
  destruct (admitting guard l w (insert_before (insertion i (len vs))) (insert_before (insertion i (len vs))) s vs) as (s' & E & H'); try done.
  - intros u Hu. unfold insert_before. apply Forall_app. split; [by apply Forall_take|]. constructor; [apply octet_range|by apply Forall_drop].
  - intros b u. unfold insert_before. by rewrite map_app, firstn_map, skipn_map.
  - unfold insert_before. apply Forall_app. split; [by apply Forall_take|]. constructor; [done|by apply Forall_drop].
  - destruct (prologue_admit guard l w s vs Hw Hc Hm) as (s2 & E2 & _ & Hr2 & _).
    destruct (prologue guard l s) as [s1| |]; try done. cbn [obind] in *. rewrite E2 in *. cbn [obind] in *.
    rewrite (length_of s2 l vs) by (apply Hr2 || by eapply Hsm). cbn [obind]. fold (len vs). rewrite E. by eapply implements_mutates.
Qed.

Lemma Forall_erase {A} (P : A -> Prop) k v : Forall P v -> Forall P (erase_at k v).
Proof. intros Hv. apply Forall_app. split; [by apply Forall_take|by apply Forall_drop]. Qed.

Lemma erase_map {A B} (f : A -> B) k v : erase_at k (map f v) = map f (erase_at k v).
Proof. unfold erase_at. by rewrite map_app, firstn_map, skipn_map. Qed.

(** Erasing the [k]th element. *)
Lemma erasing guard l k s vs : wf s -> contents s l vs ->
  exists s1, (let! s1 := saveVersion guard l s in ensureUniqueStorage l s1) = Ret s1 /\ contents s1 l vs /\
  exists s', edit l (erase_at k) (erase_at k) s1 = Ret s' /\ mutates guard l vs (erase_at k vs) s s'.
Proof.
  intros Hw Hc. destruct (saves_unique guard l s vs Hw Hc) as (s1 & E & H1 & Hr1). exists s1. split; [done|]. split; [apply Hr1|].
  destruct (edit_both l (erase_at k) (erase_at k) s1 vs Hr1) as (s2 & E2 & Ev & _).
  - apply Forall_erase. by eapply contents_canonical.
  - intros _ v Hv _. split; [by apply Forall_erase|apply erase_map].
  - exists s2. split; [done|]. by eapply mutates_step.
Qed.

Lemma nth_Z_None {A} (v : list A) k : (k <? 0) || (len v <=? k) = true <-> nth_Z v k = None.
Proof.
  unfold nth_Z, len. rewrite orb_true_iff, Z.ltb_lt, Z.leb_le. destruct (Z.ltb_spec k 0); [naive_solver|].
  rewrite lookup_ge_None. split; [intros [|]; lia|intros; right; lia].
Qed.

Lemma remove_at_ok guard l i s vs : wf s -> contents s l vs -> small s -> mutable l s ->
  implements guard l vs s (effect s (RemoveAt i) vs) (run guard l (RemoveAt i) s).
Proof.
  intros Hw Hc Hsm Hm. cbn [effect run]. unfold removeAt. rewrite Hm. cbn [obind]. rewrite (length_of s l vs Hc) by by eapply Hsm.
  cbn [obind]. fold (len vs). set (k := if i <? 0 then _ else _). pose proof (nth_Z_None vs k) as Hk.
  destruct (nth_Z vs k) as [w|] eqn:Ew; [|by rewrite (proj2 Hk eq_refl)].
  destruct ((k <? 0) || (len vs <=? k)); [discriminate (proj1 Hk eq_refl)|].
  destruct (erasing guard l k s vs Hw Hc) as (s1 & E1 & Hc1 & s2 & E2 & H2). destruct (saveVersion guard l s) as [s0| |]; try done. cbn [obind] in *.
  rewrite E1. cbn [obind]. rewrite (get_element s1 l vs k Hc1), Ew. cbn [obind]. rewrite E2. by eapply implements_mutates.
Qed.

Lemma remove_value_ok guard l w strict s vs : wf s -> contents s l vs -> mutable l s ->
  implements guard l vs s (effect s (RemoveValue w strict) vs) (run guard l (RemoveValue w strict) s).
Proof.
  intros Hw Hc Hm. cbn [effect run]. unfold removeValue. rewrite Hm. cbn [obind]. rewrite (get_elements s l vs Hc). cbn [obind].
  destruct (find_equal equals strict w vs 0) as [k|e|]; [|done|done]. cbn [obind]. destruct (k <? 0).
  - exists s. split; [done|]. split; [by apply evolves_refl|]. by intros _ [].
  - destruct (erasing guard l k s vs Hw Hc) as (s1 & E1 & Hc1 & s2 & E2 & H2). destruct (saveVersion guard l s) as [s0| |]; try done. cbn [obind] in *.
    rewrite E1. cbn [obind]. rewrite E2. by eapply implements_mutates.
Qed.

Lemma asByte_byteVal b : inU 8 b -> asByte h (byteVal b) true = Ret b.
Proof.
  intros Hb. pose proof (scalar_kinds (SByte b) Hb) as Hk. cbn [encode kind_of] in Hk.
  pose proof (byte_payload b Hb) as Hp. generalize dependent (byteVal b). intros w Hk Hp. unfold kinds_of in Hk.
  assert (isNil w = false /\ isBool w = false /\ isByte w = true /\ isObj w = false) as (H1 & H2 & H3 & H4).
  { destruct (isNil w), (isBool w), (isByte w), (isObj w); try done; destruct (isInt w), (isReal w), (isEnum w), (isType w); discriminate. }
  unfold asByte, boxed_prim, operand_of, inline_type. rewrite H4. cbn [obind]. by rewrite H1, H2, H3, Hp.
Qed.

Lemma as_bytes_packed v : bytes v -> as_bytes h (map byteVal v) = Ret v.
Proof. induction 1 as [|b v Hb _ IH]; [done|]. cbn. by rewrite asByte_byteVal, IH. Qed.

Lemma adopt_ok guard l b s vs : wf s -> contents s l vs -> mutable l s -> bytes b ->
  implements guard l vs s (effect s (Adopt b) vs) (run guard l (Adopt b) s).
Proof.
  intros Hw Hc Hm Hb. cbn [effect run]. unfold adoptPackedBytes. rewrite Hm. cbn [obind].
  destruct (saves guard l s vs Hw Hc) as (s1 & -> & H1 & Hw1 & Hc1). cbn [obind]. destruct Hc1 as (o & Ho & Hs).
  unfold get. rewrite Ho. cbn [deref obind]. eapply implements_mutates; [done|]. eapply mutates_step; [done|done|exact H1|]. by apply replace_octets.
Qed.

Lemma steal_ok guard l s vs : wf s -> contents s l vs -> mutable l s ->
  implements guard l vs s (effect s Steal vs) (run guard l Steal s).
Proof.
  intros Hw Hc Hm. cbn [effect run]. unfold stealPackedBytes. rewrite Hm. cbn [obind].
  destruct (saves guard l s vs Hw Hc) as (s1 & -> & H1 & Hw1 & Hc1). cbn [obind]. rewrite (get_elements s1 l vs Hc1).
  assert (exists o, lists s1 !! l = Some o) as [o Ho] by (destruct Hc1 as (o & Ho & _); by exists o).
  set (taken := let! o := get l s1 in _). assert (taken = let! b := as_bytes h vs in Ret (own_octets l o [] s1, b)) as ->.
  { subst taken. unfold get at 1. rewrite Ho. cbn [deref obind]. apply contents_view in Hc1.
    destruct Hc1 as [o' b v Ho' Hr He Hp Hb Hv Hby ->|o' b Ho' Hr Hp He Hb Hv Hca]; assert (o' = o) as -> by congruence; rewrite Hr; [|done].
    rewrite Hp. cbn [deref obind]. rewrite (as_bytes_packed v Hby). case_bool_decide; [|done].
    unfold get_octets. rewrite Hp. cbn. by rewrite Hv. }
  destruct (as_bytes h vs) as [b|e|]; cbn [obind]; [|done|done]. eapply implements_mutates; [done|]. eapply mutates_step; [done|done|exact H1|].
  apply (replace_octets l o [] s1); [done|done|constructor].
Qed.

(** ** Operations with another list *)

(** Another list's contents, through a step of this one. *)
Lemma other_list l vs s s' other : evolves l vs s s' -> other <> l -> other < brk s -> wf s ->
  (exists u, contents s other u /\ contents s' other u) \/ (lists s !! other = None /\ lists s' !! other = None).
Proof.
  intros He Hne Hlt Hw. destruct (lists s !! other) as [o|] eqn:Eo.
  - left. destruct (Hw other o Eo) as [_ [u Hu]]. assert (contents s other u) as Hc by (by exists o). exists u. split; [done|]. by apply (ev_others _ _ _ _ He).
  - right. split; [done|]. destruct (lists s' !! other) eqn:E'; [|done]. destruct (ev_domain _ _ _ _ He other Hlt) as [Hd _].
    rewrite E', Eo in Hd. by destruct Hd as [? [=]].
Qed.

Lemma no_list s l : lists s !! l = None -> getElements l s = UB /\ is_packed l s = UB /\ storage l s = UB.
Proof. intros Hl. unfold getElements, is_packed, storage, get. by rewrite Hl. Qed.

Lemma unpack_spec l s vs : writable s l vs -> is_packed l s = Ret true ->
  exists s', unpack l s = Ret s' /\ evolves l vs s s' /\ writable s' l vs /\ is_packed l s' = Ret false.
Proof.
  intros [Hw Hc Hs] Hpk. apply contents_view in Hc. unfold is_packed, unpack, get, get_octets in *.
  destruct Hc as [o b v Ho Hr He Hp Hb Hv Hby ->|o b Ho Hr Hp He Hb Hv Hca]; rewrite Ho in *; cbn [deref obind] in *; rewrite Hr in *; [|done].
  rewrite Hp. cbn. rewrite Hv. cbn [obind deref]. eexists. split; [done|].
  pose proof (replace_vec l o (map byteVal v) s Hw Ho (bytes_canonical v Hby)) as E. split; [exact E|].
  split; [split; [apply E|apply E|by apply own_vec_sole]|]. cbn. by rewrite lookup_insert_eq.
Qed.

(** Appending a vector: octets when all of it is bytes. *)
Lemma extending l s vs v p : writable s l vs -> Forall canonical v -> is_packed l s = Ret p -> (p = true -> allBytes v = true) -> 
  exists s', edit l (fun u => if p then u ++ map octet v else u) (fun u => if p then u else u ++ v) s = Ret s' /\ evolves l (vs ++ v) s s'.
Proof.
  intros Hwr Hv Hp Hb. destruct (edit_spec l (fun u => if p then u ++ map octet v else u) (fun u => if p then u else u ++ v) s vs (vs ++ v)) as (s' & E & Ev & _).
  - done.
  - apply Forall_app. split; [|done]. eapply contents_canonical, Hwr.
  - rewrite Hp. intros [= ->] u Hu ->. split; [apply Forall_app; split; [done|apply octets_bytes]|]. rewrite map_app. f_equal.
    symmetry. apply allBytes_octets; auto.
  - rewrite Hp. by intros [= ->].
  - by exists s'.
Qed.

Lemma concatenate_ok guard l other s vs : wf s -> contents s l vs -> mutable l s -> other <> l -> other < brk s ->
  implements guard l vs s (effect s (Concatenate other) vs) (run guard l (Concatenate other) s).
Proof.
  intros Hw Hc Hm Hne Hlt. cbn [effect run]. unfold concatenate, listing.
  destruct (prologue_spec guard l s vs Hw Hc Hm) as (s1 & -> & H1 & Hr1). cbn [obind].
  destruct (storage_of s1 l vs (wr_contents _ _ _ Hr1)) as (p & _ & Hp & _). rewrite Hp. cbn [obind].
  destruct (other_list l vs s s1 other (proj1 H1) Hne Hlt Hw) as [(v & Hv & Hv1)|[Hn Hn1]].
  2:{ destruct (no_list s other Hn) as [-> _], (no_list s1 other Hn1) as (_ & -> & _). done. }
  destruct (storage_of s1 other v Hv1) as (q & x & Hq & _ & Hqt & _). rewrite Hq. cbn [obind].
  rewrite (get_elements s other v Hv), (get_elements s1 other v Hv1). cbn [obind]. pose proof (contents_canonical s other v Hv) as Hcv.
  assert (forall s2 s3, evolves l vs s1 s2 -> evolves l (vs ++ v) s2 s3 -> implements guard l vs s (Ret (vs ++ v, Done)) (done_with (Ret s3))) as Hfin.
  { intros s2 s3 E2 E3. eapply implements_mutates; [done|]. eapply mutates_step; [done|done| |exact E3]. eapply mutates_step; [done|done|exact H1|exact E2]. }
  pose proof (evolves_refl l vs s1 (wr_wf _ _ _ Hr1) (wr_contents _ _ _ Hr1)) as Hr.
  destruct p; [destruct (allBytes v) eqn:Eb|].
  - destruct (extending l s1 vs v true Hr1 Hcv Hp) as (s3 & E3 & Ev3); [done|]. cbn in E3. destruct q; [|rewrite E3; by apply (Hfin s1)].
    destruct (Z.eqb_spec l other); [congruence|]. rewrite E3. by apply (Hfin s1).
  - destruct q; [destruct (Hqt eq_refl) as [_ ->]; by rewrite bytes_all in Eb|].
    destruct (unpack_spec l s1 vs Hr1 Hp) as (s2 & -> & E2 & Hr2 & Hp2). cbn [obind].
    destruct (extending l s2 vs v false Hr2 Hcv Hp2) as (s3 & E3 & Ev3); [done|]. cbn in E3. rewrite E3. by apply (Hfin s2).
  - destruct (extending l s1 vs v false Hr1 Hcv Hp) as (s3 & E3 & Ev3); [done|]. cbn in E3. rewrite E3. by apply (Hfin s1).
Qed.

Lemma list_assign_ok guard l other s vs : wf s -> contents s l vs -> mutable l s -> other < brk s ->
  implements guard l vs s (effect s (Assign other) vs) (run guard l (Assign other) s).
Proof.
  intros Hw Hc Hm Hlt. cbn [effect run]. unfold assign_from, listing. rewrite Hm. cbn [obind].
  destruct (saves guard l s vs Hw Hc) as (s1 & -> & H1 & Hw1 & Hc1). cbn [obind].
  assert (exists o, lists s1 !! l = Some o) as [o Ho] by (destruct Hc1 as (o & Ho & _); by exists o).
  unfold get at 1. rewrite Ho. cbn [deref obind].
  assert ((exists u, contents s other u /\ contents s1 other u) \/ (lists s !! other = None /\ lists s1 !! other = None)) as Hoth.
  { destruct (decide (other = l)) as [->|Hne]; [left; by exists vs|]. apply (other_list l vs); [apply H1|done..]. }
  destruct Hoth as [(v & Hv & Hv1)|[Hn Hn1]].
  2:{ destruct (no_list s other Hn) as [-> _], (no_list s1 other Hn1) as (_ & -> & _). done. }
  destruct (storage_of s1 other v Hv1) as (q & x & Hq & Hx & Hqt & Hqf & _). rewrite Hq, Hx. cbn [obind].
  rewrite (get_elements s other v Hv). cbn [obind]. eapply implements_mutates; [done|]. eapply mutates_step; [done|done|exact H1|].
  destruct q.
  - destruct (Hqt eq_refl) as [Hby ->]. by apply replace_octets.
  - rewrite (Hqf eq_refl). apply replace_vec; [done|done|]. by eapply contents_canonical.
Qed.

(** ** Indexed assignment *)

Lemma subscript_range i n k : subscript h i n = Ret k -> 0 <= k < n.
Proof.
  unfold subscript. destruct (of_value (asInt h i true)) as [j|e|]; [|done|done]. cbn [obind].
  destruct (j <? 0); [destruct (j =? _); [done|]|]; cbn [obind];
    (match goal with |- context[if ?b then _ else _] => destruct b eqn:E end; [done|]; intros [= <-];
     apply orb_false_iff in E as [E1%Z.ltb_ge E2%Z.leb_gt]; lia).
Qed.

Lemma len_put_at i (w : Z) vs : len (put_at i w vs) = len vs.
Proof. unfold len, put_at. by rewrite length_insert. Qed.

Lemma nth_Z_in {A} (v : list A) k : 0 <= k -> (k <? len v) = true <-> is_Some (nth_Z v k).
Proof.
  intros Hk. unfold nth_Z, len. assert ((k <? 0) = false) as -> by (apply Z.ltb_ge; lia). rewrite lookup_lt_is_Some, Z.ltb_lt. lia.
Qed.

Lemma assign_spec r rhs src ks : Forall canonical src -> Forall (Z.le 0) ks -> forall l vs s, rhs <> l -> writable s l vs -> contents s rhs src ->
  (is_packed l s = Ret true -> allBytes src = true) ->
  match splice r src vs (len vs) ks with
  | Ret vs' => exists s', assign r l (len vs) rhs (len src) ks s = Ret s' /\ evolves l vs' s s'
  | Throw e => assign r l (len vs) rhs (len src) ks s = Throw e
  | UB => assign r l (len vs) rhs (len src) ks s = UB
  end.
Proof.
  intros Hcs Hks. induction Hks as [|k ks Hk _ IH]; intros l vs s Hne Hwr Hrhs Hb; cbn [splice assign].
  { exists s. split; [done|]. apply evolves_refl; apply Hwr. }
  destruct (targetIndex r k (len vs)) as [t|e|]; [|done|done]. cbn [obind].
  pose proof (nth_Z_in src k Hk) as Hin. destruct (nth_Z src k) as [w|] eqn:Ew.
  2:{ destruct (k <? len src); [by destruct (proj1 Hin eq_refl)|]. rewrite andb_false_r. cbn [obind]. by apply IH. }
  rewrite (proj2 Hin) by done. rewrite andb_true_r. destruct ((0 <=? t) && (t <? len vs)) eqn:Et; [|cbn [obind]; by apply IH].
  apply andb_true_iff in Et as [Et1%Z.leb_le Et2%Z.ltb_lt]. rewrite (get_element s rhs src k Hrhs), Ew. cbn [obind].
  assert (canonical w) as Hcw. { unfold nth_Z in Ew. destruct (k <? 0); [done|]. by eapply Forall_lookup_1. }
  assert (is_packed l s = Ret true -> isByte w = true) as Hbw.
  { intros Hp. specialize (Hb Hp). unfold allBytes in Hb. unfold nth_Z in Ew. destruct (k <? 0); [done|].
    rewrite forallb_forall in Hb. apply Hb, list_elem_of_In. by eapply list_elem_of_lookup_2. }
  pose proof (write_spec l t w s vs Hwr Hcw Hbw) as Hwt. destruct (nth_Z_Some vs t) as [x Hx]; [unfold len in *; lia|]. rewrite Hx in Hwt.
  destruct Hwt as (s1 & -> & E1 & Hr1 & Hp1). cbn [obind]. specialize (IH l (put_at t w vs) s1 Hne Hr1). rewrite len_put_at in IH.
  assert (contents s1 rhs src) as Hrhs1 by (apply E1; done). specialize (IH Hrhs1). rewrite Hp1 in IH. specialize (IH Hb).
  destruct (splice r src (put_at t w vs) (len vs) ks) as [vs'|e|]; [|done|done]. destruct IH as (s2 & -> & E2). exists s2. split; [done|].
  destruct (wr_contents _ _ _ Hwr) as (o & Ho & _). eapply evolves_trans; [apply Hwr|by eexists|done|done].
Qed.

Lemma set_index_ok guard l i w s vs : wf s -> contents s l vs -> small s -> mutable l s ->
  canonical w -> allocated s w -> isList w s <> Some l ->
  implements guard l vs s (effect s (SetIndex i w) vs) (run guard l (SetIndex i w) s).
Proof.
  intros Hw Hc Hsm Hm Hcw Hal Hne. cbn [effect run]. unfold setIndex, listing.
  destruct (prologue_spec guard l s vs Hw Hc Hm) as (s1 & -> & H1 & Hr1). cbn [obind].
  assert (length l s1 = Ret (len vs)) as Hlen by (apply length_of; [apply Hr1|by eapply Hsm]). destruct (isNumber h i).
  { rewrite Hlen. cbn [obind]. destruct (subscript h i (len vs)) as [k|e|] eqn:Ek; [|done|done]. cbn [obind]. apply subscript_range in Ek.
    destruct (admit_spec l w s1 vs Hr1) as (s2 & -> & E2 & Hr2 & Hp). cbn [obind].
    pose proof (write_spec l k w s2 vs Hr2 Hcw Hp) as Hwt. destruct (nth_Z_Some vs k Ek) as [x Hx]. rewrite Hx in Hwt.
    destruct Hwt as (s3 & -> & E3 & _). eapply implements_mutates; [done|]. eapply mutates_step; [done|done| |exact E3]. by eapply mutates_step. }
  assert (isRange i s1 = isRange i s) as -> by (unfold isRange; by rewrite (ev_ranges _ _ _ _ (proj1 H1))).
  destruct (isRange i s) as [r|]; [|done].
  assert (isList w s1 = isList w s) as El.
  { unfold isList. destruct (isObj w) eqn:Eo; [|done]. pose proof (ev_domain _ _ _ _ (proj1 H1) (ptrOf w) (Hal Eo)) as Hd.
    destruct (lists s1 !! ptrOf w), (lists s !! ptrOf w); [done|by destruct (proj1 Hd ltac:(by eexists)) as [? [=]]|by destruct (proj2 Hd ltac:(by eexists)) as [? [=]]|done]. }
  rewrite El. destruct (isList w s) as [rhs|] eqn:Er; [|done].
  assert (rhs <> l) as Hnl by congruence. assert (exists src, contents s rhs src) as [src Hsrc].
  { unfold isList in Er. destruct (isObj w); [|done]. destruct (lists s !! ptrOf w) as [o|] eqn:Eo; [|done].
    assert (ptrOf w = rhs) as <- by congruence. destruct (Hw _ _ Eo) as [_ [src Hs]]. exists src. by exists o. }
  assert (contents s1 rhs src) as Hsrc1 by (by apply (ev_others _ _ _ _ (proj1 H1))).
  rewrite (length_of s1 rhs src Hsrc1), Hlen, (get_elements s rhs src Hsrc), (get_elements s1 rhs src Hsrc1) by by eapply Hsm.
  cbn [obind]. fold (len src). destruct (length_over r (len vs)) as [n|e|]; [|done|done]. cbn [obind].
  destruct (len src =? n); [|done]. cbn [negb]. destruct (storage_of s1 l vs (wr_contents _ _ _ Hr1)) as (p & _ & Hp & _). rewrite Hp. cbn [obind].
  assert (exists s2, (if p && negb (allBytes src) then unpack l s1 else Ret s1) = Ret s2 /\ evolves l vs s1 s2 /\ writable s2 l vs /\
    (is_packed l s2 = Ret true -> allBytes src = true)) as (s2 & -> & E2 & Hr2 & Hb2).
  { destruct p; cbn [andb]; [destruct (allBytes src) eqn:Eb; cbn [negb]|].
    - exists s1. split; [done|]. split; [by apply evolves_refl; apply Hr1|done].
    - destruct (unpack_spec l s1 vs Hr1 Hp) as (s2 & -> & E2 & Hr2 & Hp2). exists s2. rewrite Hp2. done.
    - exists s1. rewrite Hp. split; [done|]. split; [by apply evolves_refl; apply Hr1|done]. }
  cbn [obind]. assert (Forall (Z.le 0) (seqZ 0 n)) as Hks by (apply Forall_seqZ; lia).
  assert (contents s2 rhs src) as Hsrc2 by (by apply (ev_others _ _ _ _ E2)).
  pose proof (assign_spec r rhs src (seqZ 0 n) (contents_canonical _ _ _ Hsrc) Hks l vs s2 Hnl Hr2 Hsrc2 Hb2) as Ha.
  destruct (splice r src vs (len vs) (seqZ 0 n)) as [vs'|e|]; cbn; [|by rewrite Ha..].
  destruct Ha as (s3 & -> & E3). eapply implements_mutates; [done|]. eapply mutates_step; [done|done| |exact E3]. by eapply mutates_step.
Qed.

(** ** Storage is invisible *)

Lemma frozen_run guard l s vs o : contents s l vs -> ensureMutable l s = Throw frozen -> run guard l o s = Throw frozen.
Proof.
  intros Hc Hf. destruct o; cbn [run];
    unfold setElement, setElements, setIndex, concatenate, append, insertAt, removeAt, removeValue, assign_from, adoptPackedBytes, stealPackedBytes, prologue;
    by rewrite Hf.
Qed.

(** C22. How a list is stored, and with whom, cannot be observed: packed octets or boxed
    Values, a vector of its own or one shared with clones, each mutating operation on an
    [admissible] operand (canonical Values, references to what exists, and not the list
    itself to extend it or to assign to a slice of it) does to the list, all lists being
    shorter than 2^31, exactly its [effect] on a plain list of Values, with the same answer or
    the same exception, and leaves every other list as it was; when a snapshot is due,
    the version it takes keeps the old contents.  A frozen list refuses all of them. *)
Theorem storage_invisible guard l o s vs : wf s -> small s -> contents s l vs -> admissible s l o ->
  match ensureMutable l s with
  | Ret _ => implements guard l vs s (effect s o vs) (run guard l o s)
  | _ => run guard l o s = Throw frozen
  end.
Proof.
  intros Hw Hsm Hc Ha. pose proof Hc as (x & Hx & _). rewrite (mutable_token l s x Hx). destruct (token x) eqn:Et.
  { apply (frozen_run guard l s vs o Hc). by rewrite (mutable_token l s x Hx), Et. }
  assert (mutable l s) as Hm by (unfold mutable; by rewrite (mutable_token l s x Hx), Et). destruct o; cbn [admissible] in Ha.
  - by apply set_element_ok.
  - by apply set_elements_ok.
  - destruct Ha as (H1 & H2 & H3). by apply set_index_ok.
  - destruct Ha. by apply concatenate_ok.
  - by apply list_append_ok.
  - by apply insert_at_ok.
  - by apply remove_at_ok.
  - by apply remove_value_ok.
  - by apply list_assign_ok.
  - by apply adopt_ok.
  - by apply steal_ok.
Qed.

(** ** Reading slices *)

Definition terms (r : range) (n cnt : Z) : list Z := map (fun k => first_over r n + k * stride r) (seqZ 0 cnt).

Lemma slice_spec r v n cnt : (len v : Z) = n -> 0 <= n < 2 ^ 31 -> regular r n -> length_over r n = Ret cnt ->
  slice r v n (seqZ 0 cnt) = Ret (omap (nth_Z v) (terms r n cnt)).
Proof.
  intros Hv Hn Hr Hl. unfold terms. assert (Forall (fun k => 0 <= k < cnt) (seqZ 0 cnt)) as Hks by (apply Forall_seqZ; lia).
  induction Hks as [|k ks Hk _ IH]; [done|]. cbn [slice map omap list_omap]. rewrite (counted_term r n cnt k) by done. cbn [obind]. rewrite IH. cbn [obind].
  destruct (nth_Z v (first_over r n + k * stride r)) as [w|] eqn:Ew.
  - apply nth_Z_inv in Ew. destruct (Z.ltb_spec (first_over r n + k * stride r) n); [done|]. unfold len in Hv. lia.
  - by destruct (first_over r n + k * stride r <? n).
Qed.

Lemma omap_map {A B} (f : A -> B) v ps : omap (nth_Z (map f v)) ps = map f (omap (nth_Z v) ps).
Proof. induction ps as [|p ps IH]; [done|]. cbn. rewrite nth_Z_map. destruct (nth_Z v p); cbn; by rewrite IH. Qed.

Lemma Forall_omap_nth {A} (P : A -> Prop) v ps : Forall P v -> Forall P (omap (nth_Z v) ps).
Proof.
  intros Hv. apply Forall_forall. intros x (p & _ & Hp)%list_elem_of_omap. unfold nth_Z in Hp. destruct (p <? 0); [done|].
  by eapply Forall_lookup_1.
Qed.

(** A list beyond the break. *)
Lemma fresh_list s s' o' vs : wf s -> grows s s' -> lists s' = <[brk s := o']> (lists s) -> ranges s' = ranges s -> brk s < brk s' ->
  stored s' o' vs -> contents s' (brk s) vs /\ wf s' /\ forall l v, contents s l v -> contents s' l v.
Proof.
  intros Hw Hg El Er Hb Hst. destruct (evolves_put s s' (brk s) o' vs) as [W C O _ _ _ _]; try done; [|lia|].
  - intros o Ho. destruct (Hw _ _ Ho). lia.
  - split; [done|]. split; [done|]. intros l v Hl. apply O; [|done]. intros ->. destruct Hl as (o & Ho & _). destruct (Hw _ _ Ho). lia.
Qed.

(** Subscripts read the plain list of Values, however it is stored: a number the
    element it names, counted back from the end when negative, or an exception; a range
    a new list of exactly the elements of the progression that the list has, in its
    order, leaving every list as it was. *)
Theorem subscripts_read s l i vs : wf s -> small s -> contents s l vs ->
  (isNumber h i = true -> index h i l s = let! k := subscript h i (len vs) in match nth_Z vs k with Some w => Ret (s, w) | None => UB end) /\
  (forall r cnt, isNumber h i = false -> isRange i s = Some r -> regular r (len vs) -> length_over r (len vs) = Ret cnt ->
    exists s', index h i l s = Ret (s', objWord (brk s)) /\ lists s !! brk s = None /\
      contents s' (brk s) (omap (nth_Z vs) (terms r (len vs) cnt)) /\ wf s' /\ forall l' v, contents s l' v -> contents s' l' v).
Proof.
  intros Hw Hsm Hc. assert (0 <= len vs < 2 ^ 31) as Hn by (split; [unfold len; lia|by eapply Hsm]).
  assert (length l s = Ret (len vs)) as Hlen by (apply length_of; [done|unfold len in Hn; lia]). unfold index. split.
  - intros ->. rewrite Hlen. cbn [obind]. destruct (subscript h i (len vs)) as [k|e|] eqn:Ek; [|done|done]. cbn [obind].
    rewrite (get_element s l vs k Hc). apply subscript_range in Ek. destruct (nth_Z_Some vs k Ek) as [w Hx]. by rewrite Hx.
  - intros r cnt -> -> Hr Hl. rewrite Hlen. cbn [obind]. rewrite Hl. cbn [obind]. destruct (terms_counted r (len vs) cnt Hr Hl) as [H0 _].
    destruct (Z.ltb_spec cnt 0); [lia|]. destruct (storage_of s l vs Hc) as (p & v & -> & -> & Hpt & Hpf & El). cbn [obind].
    rewrite (slice_spec r v (len vs) cnt) by (unfold len in *; rewrite ?El; done). cbn [obind].
    assert (lists s !! brk s = None) as Hno by (destruct (lists s !! brk s) as [o|] eqn:Eo; [destruct (Hw _ _ Eo); lia|done]).
    destruct p.
    + destruct (Hpt eq_refl) as [Hby ->]. eexists. split; [done|]. split; [done|]. rewrite omap_map. set (v' := omap _ _).
      apply (fresh_list s _ (packed (brk s + 1) (mkList PackedByte None None false))); try done.
      * split; cbn; [lia|done|]. intros b Hb. by rewrite lookup_insert_ne by lia.
      * cbn; lia.
      * split; [done|]. exists (brk s + 1), v'. cbn. rewrite lookup_insert_eq. split_and!; [done|lia|done|by apply Forall_omap_nth|done].
    + rewrite (Hpf eq_refl) in *. eexists. split; [done|]. split; [done|]. set (v' := omap _ _).
      apply (fresh_list s _ (boxed (brk s + 1) (mkList PackedByte None None false))); try done.
      * split; cbn; [lia| |done]. intros b Hb. by rewrite lookup_insert_ne by lia.
      * cbn; lia.
      * split; [done|]. exists (brk s + 1). cbn. rewrite lookup_insert_eq. split_and!; [done|lia|done|].
        apply Forall_omap_nth. by apply (contents_canonical s l).
Qed.

(** ** Assigning to slices *)

Lemma nth_put_eq i (w : Z) (v : list Z) : 0 <= i < len v -> nth_Z (put_at i w v) i = Some w.
Proof.
  intros Hi. unfold nth_Z, put_at, len in *. assert ((i <? 0) = false) as -> by (apply Z.ltb_ge; lia).
  apply list_lookup_insert_eq. lia.
Qed.

Lemma nth_put_ne i j (w : Z) (v : list Z) : 0 <= i -> i <> j -> nth_Z (put_at i w v) j = nth_Z v j.
Proof.
  intros Hi Hj. unfold nth_Z, put_at. destruct (Z.ltb_spec j 0); [done|]. apply list_lookup_insert_ne. lia.
Qed.

Definition term (r : range) (n k : Z) : Z := first_over r n + k * stride r.

Lemma splice_spec r src n cnt ks : stride r <> 0 -> (forall k, 0 <= k < cnt -> targetIndex r k n = Ret (term r n k)) -> len src = cnt ->
  NoDup ks -> Forall (fun k => 0 <= k < cnt) ks -> forall vs, len vs = n ->
  exists vs', splice r src vs n ks = Ret vs' /\ len vs' = n /\
    (forall k, k ∈ ks -> 0 <= term r n k < n -> nth_Z vs' (term r n k) = nth_Z src k) /\
    (forall p, (forall k, k ∈ ks -> term r n k <> p) -> nth_Z vs' p = nth_Z vs p).
Proof.
  intros Hs Ht Hsrc Hnd Hks. induction Hks as [|k ks Hk _ IH]; intros vs Hvs; cbn [splice].
  { exists vs. split_and!; [done|done|by intros k ?%not_elem_of_nil|done]. }
  apply NoDup_cons in Hnd as [Hin Hnd]. rewrite Ht by done. cbn [obind].
  destruct (nth_Z_Some src k) as [w Ew]; [unfold len in Hsrc; lia|]. rewrite Ew.
  set (u := if (0 <=? term r n k) && (term r n k <? n) then put_at (term r n k) w vs else vs). assert (len u = n) as Hu by (subst u; destruct ((0 <=? term r n k) && (term r n k <? n)); [by rewrite len_put_at|done]).
  destruct (IH Hnd u Hu) as (vs' & Hv & Hl & Heq & Hne). exists vs'. split; [done|]. split; [done|]. split.
  - intros j [->|Hj]%elem_of_cons Hr; [|by apply Heq]. rewrite Hne.
    + subst u. assert ((0 <=? term r n k) && (term r n k <? n) = true) as -> by (apply andb_true_iff; rewrite Z.leb_le, Z.ltb_lt; lia).
      rewrite nth_put_eq by lia. done.
    + intros j Hj. unfold term. assert (j <> k) by (intros ->; done). nia.
  - intros p Hp. rewrite Hne by (intros j Hj; apply Hp; by right). subst u. destruct ((0 <=? term r n k) && (term r n k <? n)) eqn:E; [|done].
    apply andb_true_iff in E as [E1%Z.leb_le E2%Z.ltb_lt]. apply nth_put_ne; [done|]. apply Hp. by left.
Qed.

Lemma omap_all {A} (f : Z -> option A) ks (src : list A) : Forall2 (fun k x => f k = Some x) ks src -> omap f ks = src.
Proof. induction 1 as [|k x ks src Hk _ IH]; [done|]. cbn. by rewrite Hk, IH. Qed.

(** C24. Assigning another list, as long as the range counts, to a slice by a [regular]
    range puts its [k]th element where the range's [k]th term points, each where there is
    such a place, and changes nothing else of the list; when every term has a place, reading the slice gives back the list assigned. *)
Theorem slice_assigned guard l i w s vs r rhs src cnt : wf s -> small s -> contents s l vs -> mutable l s ->
  isNumber h i = false -> isRange i s = Some r -> isList w s = Some rhs -> rhs <> l -> contents s rhs src -> canonical w -> allocated s w ->
  regular r (len vs) -> length_over r (len vs) = Ret cnt -> len src = cnt ->
  exists s' vs', setIndex h guard i w l s = Ret s' /\ contents s' l vs' /\ len vs' = len vs /\
    (forall k, 0 <= k < cnt -> 0 <= term r (len vs) k < len vs -> nth_Z vs' (term r (len vs) k) = nth_Z src k) /\
    (forall p, (forall k, 0 <= k < cnt -> term r (len vs) k <> p) -> nth_Z vs' p = nth_Z vs p) /\
    ((forall k, 0 <= k < cnt -> 0 <= term r (len vs) k < len vs) -> omap (nth_Z vs') (terms r (len vs) cnt) = src).
Proof.
  intros Hw Hsm Hc Hm Hi Hir Hil Hne Hsrc Hcw Hal Hr Hl Hlen. assert (isList w s <> Some l) as Hwl by congruence.
  assert (0 <= len vs < 2 ^ 31) as Hn by (split; [unfold len; lia|by eapply Hsm]).
  destruct (splice_spec r src (len vs) cnt (seqZ 0 cnt)) with (vs := vs) as (vs' & Hv & Hvl & Heq & Hnq); try done.
  { by eapply regular_stride. }
  { intros k Hk. by apply (counted_term r (len vs) cnt). }
  { apply NoDup_seqZ. }
  { apply Forall_seqZ. lia. }
  pose proof (set_index_ok guard l i w s vs Hw Hc Hsm Hm Hcw Hal Hwl) as H. cbn [effect run] in H.
  rewrite Hi, Hir, Hil in H. unfold listing in H. rewrite (get_elements s rhs src Hsrc) in H. cbn [obind] in H. rewrite Hl in H. cbn [obind] in H.
  rewrite Hlen, Z.eqb_refl, Hv in H. cbn in H. destruct H as (s' & Hrun & He & _).
  destruct (setIndex h guard i w l s) as [s1|e|]; try done. cbn in Hrun. injection Hrun as ->.
  exists s', vs'. split; [done|]. split; [apply He|]. split; [done|].
  assert (forall k, 0 <= k < cnt -> 0 <= term r (len vs) k < len vs -> nth_Z vs' (term r (len vs) k) = nth_Z src k) as Hk.
  { intros k Hk. apply Heq. apply elem_of_seqZ. lia. }
  split; [done|]. split.
  { intros p Hp. apply Hnq. intros k Hkin. apply Hp. apply elem_of_seqZ in Hkin. lia. }
  intros Hall. apply omap_all. unfold terms. rewrite <- (map_id src). apply Forall2_fmap. apply Forall2_same_length_lookup_2.
  - rewrite length_seqZ. unfold len in Hlen. lia.
  - intros j k x Hj Hx. apply lookup_seqZ in Hj as [-> Hj]. change (nth_Z vs' (term r (len vs) (0 + Z.of_nat j)) = Some x).
    rewrite Hk by (first [lia|apply Hall; lia]). unfold nth_Z. assert ((0 + Z.of_nat j <? 0) = false) as -> by (apply Z.ltb_ge; lia).
    by replace (Z.to_nat (0 + Z.of_nat j)) with j by lia.
Qed.

(** ** Equality *)

Lemma all_equal_bytes u v : (forall a b, inU 8 a -> inU 8 b -> equals false (byteVal a) (byteVal b) = Ret (a =? b)) ->
  bytes u -> bytes v -> List.length u = List.length v -> all_equal equals (map byteVal u) (map byteVal v) = Ret (bool_decide (u = v)).
Proof.
  intros Heq Hu. revert v. induction Hu as [|a u Ha _ IH]; intros [|b v] Hv Hl; try done; cbn [map all_equal].
  apply Forall_cons in Hv as [Hb Hv]. rewrite Heq by done. cbn [obind]. destruct (Z.eqb_spec a b) as [->|Hne].
  - rewrite IH by (done || by injection Hl). f_equal. apply bool_decide_ext. naive_solver.
  - f_equal. symmetry. apply bool_decide_eq_false. congruence.
Qed.

(** Two lists are equal when they have the same number of elements and those are
    equal one by one, in order; comparing two packed lists by their octets is the same
    answer. *)
Theorem equality_by_value l other s us vs : (forall a b, inU 8 a -> inU 8 b -> equals false (byteVal a) (byteVal b) = Ret (a =? b)) ->
  small s -> contents s l us -> contents s other vs ->
  list_equals equals l other s = if len us =? len vs then all_equal equals us vs else Ret false.
Proof.
  intros Heq Hsm Hu Hv. unfold list_equals. rewrite (length_of s l us Hu), (length_of s other vs Hv) by by eapply Hsm. cbn [obind].
  change (Z.of_nat (List.length us)) with (len us). change (Z.of_nat (List.length vs)) with (len vs).
  destruct (Z.eqb_spec (len us) (len vs)) as [El|]; [|done]. cbn [negb].
  rewrite (get_elements s l us Hu), (get_elements s other vs Hv).
  destruct (storage_of s l us Hu) as (p & x & -> & -> & Hp & _), (storage_of s other vs Hv) as (q & y & -> & -> & Hq & _). cbn [obind].
  destruct p, q; cbn [andb obind]; try done. destruct (Hp eq_refl) as [Hx ->], (Hq eq_refl) as [Hy ->]. symmetry. apply all_equal_bytes; try done.
  unfold len in El. rewrite !length_map in El. lia.
Qed.
End Contract.

(** ** Serialization *)

Lemma marked n : 0 <= n < 2 ^ 31 -> Z.lor n packed_mark = n + 2 ^ 31.
Proof.
  intros Hn. unfold packed_mark. rewrite <- Z.lxor_lor, <- Z.add_nocarry_lxor; [done|..];
    rewrite <- (Z.shiftl_1_l 31), Z.land_comm; apply Z.bits_inj'; intros k Hk; rewrite Z.land_spec, Z.bits_0, Z.shiftl_1_l;
    (destruct (decide (k = 31)) as [->|Hne]; [|by rewrite Z.pow2_bits_false by done]);
    rewrite andb_comm; apply andb_false_iff; left; destruct (Z.eqb_spec n 0) as [->|]; [apply Z.testbit_0_l| |apply Z.testbit_0_l|];
    apply Z.bits_above_log2; try lia; apply Z.log2_lt_pow2; lia.
Qed.

Lemma mark_bit n : 0 <= n < 2 ^ 31 -> Z.land (n + 2 ^ 31) packed_mark = packed_mark /\ Z.land (n + 2 ^ 31) (packed_mark - 1) = n /\ Z.land n packed_mark = 0.
Proof.
  intros Hn. assert (Z.land n packed_mark = 0) as H0.
  { pose proof (marked n Hn) as Hm. rewrite <- Z.add_lor_land in Hm. unfold packed_mark in *. lia. }
  split_and!; [| |done].
  - rewrite <- marked by done. rewrite Z.land_lor_distr_l, H0. done.
  - change (packed_mark - 1) with (Z.ones 31). rewrite Z.land_ones by lia. rewrite <- (Z.mul_1_l (2 ^ 31)) at 1. rewrite Z.mod_add by lia. by apply Z.mod_small.
Qed.

Lemma inline_copies h h' vs : Forall (fun w => isObj w = false) vs -> copies h h' vs vs.
Proof.
  intros Hv. split.
  - apply Forall_Forall2_diag. eapply Forall_impl; [exact Hv|]. intros w Hw. unfold same_value. by rewrite Hw.
  - intros i j a b a' b' Ha _ _ _ Oa _. pose proof (Forall_lookup_1 _ _ _ _ Hv Ha). congruence.
Qed.

Lemma byteVal_inline v : Forall (fun w => isObj w = false) (map byteVal v).
Proof.
  apply Forall_forall. intros w (b & -> & _)%list_elem_of_fmap. destruct (isObj (byteVal b)) eqn:E; [|done].
  apply obj_not_inline in E as (_ & _ & E & _). by rewrite isByte_byteVal in E.
Qed.

Lemma copied_canonical wc rc vs vs' : Forall2 (copied wc rc) vs vs' -> Forall canonical vs -> Forall canonical vs'.
Proof.
  induction 1 as [|w w' vs vs' Hw _ IH]; [done|]. intros [Hc Hcs]%Forall_cons. constructor; [|by apply IH]. unfold copied in Hw.
  destruct (isObj w); [|by subst]. destruct Hw as (id & o' & _ & _ & _ & ->). intros E.
  destruct (obj_not_inline _ (obj_word_obj o')) as (_ & _ & E' & _). congruence.
Qed.

(** C25. A list written and read back into another holds the same values, whichever way
    either was stored, and exactly its own bytes are consumed; no other list is touched,
    and the version a snapshot is due keeps the old contents of the list read into.  The
    elements are words that are not objects, or boxed primitives: a box comes back as a
    box of the same content, and boxes that were one object are one again, as far back as
    the two contexts ([linked]; at first both are empty) go.  The numbers and the reader's
    addresses must not run out, and strings, containers and instances are not among the
    elements ([storable]). *)
Theorem list_roundtrip wo ro guard l l2 s s2 vs us h h2 wc rc : wf s -> contents s l vs -> len vs < 2 ^ 31 -> Forall (storable h) vs ->
  wf s2 -> contents s2 l2 us -> mutable l2 s2 ->
  linked h wc h2 rc -> nextId wc + len vs < 2 ^ 64 -> Value.brk h2 + 16 * len vs <= 2 ^ 48 ->
  exists bs wc', write wo h (Some wc) l s = Ret (Some wc', bs) /\
    exists s' h' rc' vs', (forall rest, read ro guard l2 h2 (Some rc) (bs ++ rest) s2 = Ret (s', h', Some rc', rest)) /\
      copies h h' vs vs' /\ linked h wc' h' rc' /\ evolves l2 vs' s2 s' /\ (guard = true -> contents s' (brk s2) us).
Proof.
  intros Hw Hc Hn Hst Hw2 Hc2 Hm Hl Hid Hb. destruct (storage_of s l vs Hc) as (p & v & Hp & Hv & Hpt & Hpf & El).
  assert (0 <= len vs < 2 ^ 31) as Hr by (unfold len in *; lia). destruct (mark_bit (len vs) Hr) as (M1 & M2 & M3).
  unfold write, read. rewrite Hp, Hv, Hm. cbn [obind].
  destruct (saves guard l2 s2 us Hw2 Hc2) as (s3 & -> & H3 & Hw3 & Hc3). cbn [obind].
  assert (exists o, lists s3 !! l2 = Some o) as [o Ho] by (destruct Hc3 as (o & Ho & _); by exists o).
  unfold get. rewrite Ho. cbn [deref obind]. rewrite El. fold (len vs). destruct p.
  - destruct (Hpt eq_refl) as [Hby ->]. rewrite wrapU_id by (unfold inU; lia). rewrite marked by done. eexists _, _. split; [done|].
    eexists _, _, _, _. split; [|split; [by apply inline_copies, byteVal_inline|split; [exact Hl|eapply mutates_step; [done|done|exact H3|by apply replace_octets]]]].
    intros rest. rewrite <- app_assoc. rewrite take_int_app by (split; [lia|change (256 ^ Z.of_nat 4) with (2 ^ 32); lia]). cbn [obind]. rewrite M1, M2.
    change (packed_mark =? 0) with false. cbn [negb]. unfold fill. unfold len. rewrite length_map, Nat2Z.id.
    rewrite take_app_length, drop_app_length, length_app. replace (List.length v - (List.length v + List.length rest))%nat with 0%nat by lia.
    by rewrite app_nil_r.
  - rewrite (Hpf eq_refl) in *. rewrite (length_of s l vs Hc) by done. cbn [obind].
    destruct (values_roundtrip wo ro h vs Hst wc h2 rc Hl Hid Hb) as (bs & wc' & -> & h' & rc' & vs' & Hrd & Hl' & Hcp & _). cbn [obind].
    fold (len vs). rewrite wrapU_id by (unfold inU; lia). eexists _, _. split; [done|].
    exists (repack l2 o vs' s3), h', rc', vs'. split; [|split; [by eapply copied_copies|split; [exact Hl'|]]].
    + intros rest. rewrite <- app_assoc. rewrite take_int_app by (split; [lia|change (256 ^ Z.of_nat 4) with (2 ^ 32); lia]). cbn [obind]. rewrite M3. cbn [negb Z.eqb].
      unfold len. rewrite Nat2Z.id, Hrd. done.
    + eapply mutates_step; [done|done|exact H3|]. apply repack_evolves; [done|done|]. eapply copied_canonical; [exact Hcp|]. by apply (contents_canonical s l).
Qed.

(** ** Instances *)

(** Two clones of a packed list, a boxed list, and ranges. *)
Definition pair_of_clones : list_obj := mkList PackedByte None (Some 5) false.
Definition demo : store :=
  mkStore {[1 := pair_of_clones; 2 := pair_of_clones; 3 := mkList Boxed (Some 6) None false]}
    {[4 := mkRange (int32Val 0) (int32Val 2) nilVal false; 7 := mkRange nilVal nilVal (int32Val (-1)) false; 8 := mkRange (int32Val 0) (int32Val 4) (int32Val (-1)) false]}
    {[6 := [int32Val 7; int32Val 8]]} {[5 := [1; 2; 3]]} 10.
Definition same (_ : bool) (a b : Z) : outcome string bool := Ret (a =? b).
Definition demo_heap : heap := mkHeap {[9 := HPrim (PInt (- 2 ^ 63))]} 10.

Lemma demo_lists l o : lists demo !! l = Some o -> (l = 1 \/ l = 2) /\ o = pair_of_clones \/ l = 3 /\ o = mkList Boxed (Some 6) None false.
Proof.
  unfold demo. cbn [lists]. intros [[<- <-]|[_ H]]%lookup_insert_Some; [auto|].
  apply lookup_insert_Some in H as [[<- <-]|[_ H]]; [auto|]. apply lookup_singleton_Some in H as [<- <-]. auto.
Qed.

Lemma demo_packed : stored demo pair_of_clones [byteVal 1; byteVal 2; byteVal 3].
Proof. split; [done|]. exists 5, [1; 2; 3]. split_and!; [done|done|done| |done]. repeat constructor; lia. Qed.

Lemma demo_boxed : stored demo (mkList Boxed (Some 6) None false) [int32Val 7; int32Val 8].
Proof. split; [done|]. exists 6. split_and!; [done|done|done|]. repeat constructor; by intros ?%(eq_true_false_abs _). Qed.

Lemma demo_contents l vs : contents demo l vs -> vs = [byteVal 1; byteVal 2; byteVal 3] \/ vs = [int32Val 7; int32Val 8].
Proof.
  intros Hc. pose proof Hc as (o & Ho & _). pose proof Ho as Ho'. apply demo_lists in Ho' as [[_ ->]|[_ ->]]; [left|right];
    (eapply contents_fun; [exact Hc|]; eexists; split; [exact Ho|]); [exact demo_packed|exact demo_boxed].
Qed.

Lemma demo_wf : wf demo.
Proof.
  intros l o [[[-> | ->] ->]|[-> ->]]%demo_lists; (split; [done|]); eexists; first [exact demo_packed|exact demo_boxed].
Qed.

Lemma demo_small : small demo.
Proof. intros l vs [-> | ->]%demo_contents; done. Qed.

Lemma demo_1 : contents demo 1 [byteVal 1; byteVal 2; byteVal 3].
Proof. eexists. split; [|exact demo_packed]. done. Qed.
Lemma demo_2 : contents demo 2 [byteVal 1; byteVal 2; byteVal 3].
Proof. eexists. split; [|exact demo_packed]. done. Qed.
Lemma demo_3 : contents demo 3 [int32Val 7; int32Val 8].
Proof. eexists. split; [|exact demo_boxed]. done. Qed.

Lemma int_canonical i : canonical (int32Val i).
Proof. unfold canonical, isByte. rewrite int_tag. done. Qed.

Lemma storage_invisible_witness : exists s',
  run demo_heap same true 1 (Append (int32Val 9)) demo = Ret (s', Done) /\
  contents s' 1 [byteVal 1; byteVal 2; byteVal 3; int32Val 9] /\
  contents s' 2 [byteVal 1; byteVal 2; byteVal 3] /\ contents s' 10 [byteVal 1; byteVal 2; byteVal 3].
Proof.
  destruct (storage_invisible demo_heap same true 1 (Append (int32Val 9)) demo _ demo_wf demo_small demo_1 (int_canonical 9)) as (s' & Hr & He & Hg).
  exists s'. split; [exact Hr|]. split; [exact (ev_contents _ _ _ _ He)|]. split; [apply (ev_others _ _ _ _ He); [done|exact demo_2]|].
  exact (Hg eq_refl ltac:(discriminate)).
Defined.

Lemma subscripts_read_witness :
  index demo_heap (int32Val (-1)) 1 demo = Ret (demo, byteVal 3) /\
  exists s', index demo_heap (objWord 4) 1 demo = Ret (s', objWord 10) /\ contents s' 10 [byteVal 1; byteVal 2].
Proof.
  destruct (subscripts_read demo_heap demo 1 (int32Val (-1)) _ demo_wf demo_small demo_1) as [T1 _].
  destruct (subscripts_read demo_heap demo 1 (objWord 4) _ demo_wf demo_small demo_1) as [_ T2].
  split; [rewrite T1; by vm_compute|].
  destruct (T2 (mkRange (int32Val 0) (int32Val 2) nilVal false) 2) as (s' & Hi & _ & Hc & _); [done..|left; by vm_compute|done|].
  exists s'. split; [exact Hi|]. exact Hc.
Defined.

Lemma slice_assigned_witness : exists s' vs',
  setIndex demo_heap true (objWord 4) (objWord 3) 1 demo = Ret s' /\ contents s' 1 vs' /\
  nth_Z vs' 0 = Some (int32Val 7) /\ nth_Z vs' 1 = Some (int32Val 8) /\ nth_Z vs' 2 = Some (byteVal 3).
Proof.
  destruct (slice_assigned demo_heap same true 1 (objWord 4) (objWord 3) demo [byteVal 1; byteVal 2; byteVal 3]
    (mkRange (int32Val 0) (int32Val 2) nilVal false) 3 [int32Val 7; int32Val 8] 2) as (s' & vs' & Hr & Hc & _ & Hk & Ho & _);
    [exact demo_wf|exact demo_small|exact demo_1|done|done|done|done|done|exact demo_3|done|done|left; by vm_compute|done|done|].
  exists s', vs'. split; [exact Hr|]. split; [exact Hc|]. split; [apply (Hk 0); by vm_compute|]. split; [apply (Hk 1); by vm_compute|].
  rewrite Ho; [done|]. intros k Hkr E. assert (k = 0 \/ k = 1) as [-> | ->] by lia; by vm_compute in E.
Defined.

Lemma equality_by_value_witness : list_equals same 1 2 demo = Ret true.
Proof.
  rewrite (equality_by_value same 1 2 demo [byteVal 1; byteVal 2; byteVal 3] [byteVal 1; byteVal 2; byteVal 3]); [done| |exact demo_small|exact demo_1|exact demo_2].
  intros a b Ha Hb. unfold same. f_equal. destruct (Z.eqb_spec a b) as [->|Hne]; [apply Z.eqb_refl|]. apply Z.eqb_neq. intros E. apply Hne.
  by rewrite <- (octet_byteVal a Ha), E, octet_byteVal.
Defined.

(** A list of an integer, the same boxed integer twice, and another box, with an empty
    context at either end. *)
Definition boxed_demo : store := mkStore {[3 := mkList Boxed (Some 6) None false]} ∅ {[6 := [int32Val 7; objWord 16; objWord 16; objWord 32]]} ∅ 10.
Definition boxes : heap := mkHeap {[16 := HPrim (PInt (2 ^ 40)); 32 := HPrim (PInt (2 ^ 40))]} 48.
Definition no_write (_ : Z) : writer := fun _ => Throw "no such object"%string.
Definition no_read (_ : Z) (_ : heap) (_ : option context) (_ : list Z) : outcome string (heap * option context * Z * list Z) := Throw "no such object"%string.

Lemma boxed_demo_contents : contents boxed_demo 3 [int32Val 7; objWord 16; objWord 16; objWord 32].
Proof.
  eexists. split; [done|]. split; [done|]. exists 6. split_and!; [done|done|done|]. repeat constructor; by intros ?%(eq_true_false_abs _).
Qed.

Lemma boxed_demo_wf : wf boxed_demo.
Proof.
  intros l o H. unfold boxed_demo in H. cbn in H. apply lookup_singleton_Some in H as [<- <-]. split; [done|]. exists [int32Val 7; objWord 16; objWord 16; objWord 32].
  destruct boxed_demo_contents as (o & Ho & Hs). by injection Ho as <-.
Qed.

Lemma list_roundtrip_witness : exists bs s' h' i a b, (exists wc, write no_write boxes (Some fresh) 3 boxed_demo = Ret (Some wc, bs)) /\
  (exists rc, read no_read true 1 (mkHeap ∅ 64) (Some fresh) (bs ++ [0]) demo = Ret (s', h', Some rc, [0])) /\
  contents s' 1 [i; a; a; b] /\ i = int32Val 7 /\ a <> b /\ asObj h' a = Some (HPrim (PInt (2 ^ 40))) /\ asObj h' b = Some (HPrim (PInt (2 ^ 40))) /\
  contents s' 2 [byteVal 1; byteVal 2; byteVal 3].
Proof.
  destruct (list_roundtrip no_write no_read true 3 1 boxed_demo demo _ [byteVal 1; byteVal 2; byteVal 3] boxes (mkHeap ∅ 64) fresh fresh boxed_demo_wf boxed_demo_contents)
    as (bs & wc & Hw & s' & h' & rc & vs' & Hr & [Hv Hsh] & _ & He & _); [done| |exact demo_wf|exact demo_1|done|by apply linked_fresh|done|done|].
  { apply Forall_cons; split; [by apply (storable_inline boxes (SInt 7))|]. do 3 (apply Forall_cons; split; [by eapply storable_box|]). constructor. }
  inversion Hv as [|? i ? v1 Ei Hv1]; subst. inversion Hv1 as [|? a ? v2 Ea Hv2]; subst. inversion Hv2 as [|? a2 ? v3 Ea2 Hv3]; subst.
  inversion Hv3 as [|? b ? v4 Eb Hv4]; subst. inversion Hv4; subst.
  assert (a = a2) as <- by (by apply (Hsh 1%nat 2%nat (objWord 16) (objWord 16))).
  exists bs, s', h', i, a, b. split; [by exists wc|]. split; [exists rc; apply Hr|]. split; [exact (ev_contents _ _ _ _ He)|].
  split; [by apply (same_inline _ _ _ _ Ei)|]. split; [intros E; by apply (Hsh 1%nat 3%nat (objWord 16) (objWord 32) a b) in E|].
  split; [by apply (same_box _ _ _ _ _ Ea)|]. split; [by apply (same_box _ _ _ _ _ Eb)|]. apply (ev_others _ _ _ _ He); [done|exact demo_2].
Defined.

(** ** Where the contract ends *)

Definition after (l : Z) (x : outcome string store) : outcome string (list Z) := let! s := x in getElements l s.

(** A packed list extended with itself inserts a vector into itself. *)
Lemma self_extension : concatenate false 1 1 demo = UB.
Proof. by vm_compute. Qed.

(** Assigning a list to a slice of itself reads what it has already overwritten: its
    reversal leaves 1, 2, 1. *)
Lemma self_reversal : after 1 (setIndex demo_heap false (objWord 7) (objWord 1) 1 demo) = Ret [byteVal 1; byteVal 2; byteVal 1].
Proof. by vm_compute. Qed.

(** A backwards slice that starts before its stop reserves a negative length. *)
Lemma backwards_slice : index demo_heap (objWord 8) 1 demo = Throw too_long.
Proof. by vm_compute. Qed.

(** The least integer, negated as a subscript. *)
Lemma least_subscript : index demo_heap (objWord 9) 1 demo = UB.
Proof. by vm_compute. Qed.

End ListProofs.
