(* ===== verification/Strings.v ===== *)
(** * Strings: string objects and the intern table (ObjString)

    Live strings of the same content are meant to be one object: a table from a 64-bit
    key of the content to the object, probed with successive salts on collision.  Each
    critical section of the table's lock is one step; between them threads interleave:
    creators that missed allocate and then publish, holders drop their references, the
    destructors of the dead take their own entries out, and a native call may give an
    interned string new content. *)

From S2P Require Import Prelude Value DebugInfo Ustring Ranges Wire Lists.
From stdpp Require Import numbers.

Module Strings.

Import DebugInfo Ranges.
Local Open Scope Z_scope.

Notation ustring := Ustring.ustring.

(** ** Keys *)

Definition u64 (x : Z) : Z := wrapU 64 x.

(** FNV-1a over the code units. *)
Definition fnv1a64 (s : ustring) : Z :=
  fold_left (fun hash unit => u64 (Z.lxor hash unit * 1099511628211)) s 1469598103934665603.

Definition edge (s : ustring) : Z :=
  let len := Ustring.length s in
  let c0 := if 0 <? len then Ustring.charAt s 0 else 0 in
  let c1 := if 1 <? len then Ustring.charAt s 1 else 0 in
  let c2 := if 1 <? len then Ustring.charAt s (len - 2) else 0 in
  let c3 := if 0 <? len then Ustring.charAt s (len - 1) else 0 in
  Z.lxor (Z.lxor (Z.lxor (Z.shiftl c0 48) (Z.shiftl c1 32)) (Z.shiftl c2 16)) c3.

Definition salting : Z := 0x94d049bb133111eb.

Definition computeInternKey (s : ustring) (salt : Z) : Z :=
  let base := fnv1a64 s in
  let icuHash := wrapU 32 (Ustring.hashCode s) in
  let len := wrapU 32 (Ustring.length s) in
  let mixed := Z.lxor (Z.lxor (Z.lxor base (u64 (icuHash * 0x9e3779b97f4a7c15))) (u64 (len * 0xbf58476d1ce4e5b9))) (edge s) in
  Z.lxor mixed (u64 (salt * salting)).

(** ** Objects and the table *)

(** Alive; its last reference dropped; its destructor past the table. *)
Inductive life := Alive | Dead | Torn.

Record str := mkStr { s : ustring; internKey : Z; hash : Z; strong : Z; phase_of : life }.

(** What a thread is in the middle of. *)
Inductive phase :=
| Missed (u : ustring)                  (* newObjString: not found *)
| Candidate (u : ustring) (c : Z)       (* allocated, not published *)
| Fresh (c : Z)                         (* published, its Value not made yet *)
| Reused (p : Z)                        (* found or adopted: holds a reference *)
| Detached (p : Z) (u : ustring)        (* updateInternedString: taken out *)
| Rewritten (p : Z).                    (* ... and given its content *)

Record state := mkState {
  objs : gmap Z str;
  table : gmap Z Z;                     (* strings *)
  threads : gmap nat phase;
  next : Z;
}.

Definition put (p : Z) (o : str) (st : state) : state := mkState (<[p := o]> (objs st)) (table st) (threads st) (next st).
Definition set_table (t : gmap Z Z) (st : state) : state := mkState (objs st) t (threads st) (next st).
Definition go (t : nat) (ph : phase) (st : state) : state := mkState (objs st) (table st) (<[t := ph]> (threads st)) (next st).
Definition rest (t : nat) (st : state) : state := mkState (objs st) (table st) (delete t (threads st)) (next st).

Definition with_strong (n : Z) (o : str) : str := mkStr (s o) (internKey o) (hash o) n (phase_of o).
Definition with_phase (l : life) (o : str) : str := mkStr (s o) (internKey o) (hash o) (strong o) l.
Definition with_key (k : Z) (o : str) : str := mkStr (s o) k (hash o) (strong o) (phase_of o).
Definition with_content (u : ustring) (o : str) : str := mkStr u (internKey o) (Ustring.hashCode u) (strong o) (phase_of o).

(** [ObjString(us)] in a new block, without references. *)
Definition fresh_str (u : ustring) : str := mkStr u 0 (Ustring.hashCode u) 0 Alive.

(** ** Probing *)

(** Where a probe stops: an unused key, or an entry of equal content. *)
Inductive slot := Free (k : Z) | Entry (k p : Z).

Definition next_attempt (attempt : Z) : Z := wrapU 32 (attempt + 1).

(** An entry whose object is gone would be a read of freed memory; [None]: out of fuel. *)
Fixpoint probe (fuel : nat) (u : ustring) (attempt : Z) (st : state) : outcome string (option slot) :=
  let k := computeInternKey u attempt in
  match table st !! k with
  | None => Ret (Some (Free k))
  | Some p =>
      match objs st !! p with
      | None => UB
      | Some o =>
          if bool_decide (s o = u) then Ret (Some (Entry k p))
          else match fuel with
               | O => Ret None
               | S fuel => probe fuel u (next_attempt attempt) st
               end
      end
  end.

(** The entries are fuel enough. *)
Definition search (u : ustring) (st : state) : outcome string (option slot) := probe (size (table st)) u 0 st.

(** The probe of [updateInternedString] also stops at its own entry. *)
Fixpoint probe_for (fuel : nat) (obj : Z) (u : ustring) (attempt : Z) (st : state) : outcome string (option slot) :=
  let k := computeInternKey u attempt in
  match table st !! k with
  | None => Ret (Some (Free k))
  | Some p =>
      if p =? obj then Ret (Some (Entry k p))
      else match objs st !! p with
           | None => UB
           | Some o =>
               if bool_decide (s o = u) then Ret (Some (Entry k p))
               else match fuel with
                    | O => Ret None
                    | S fuel => probe_for fuel obj u (next_attempt attempt) st
                    end
           end
  end.

Definition deref {A} (o : option A) : outcome string A := match o with Some a => Ret a | None => UB end.

(** [tryIncRef]: not once the count is zero. *)
Definition tryIncRef (p : Z) (st : state) : outcome string (option state) :=
  let! o := deref (objs st !! p) in
  Ret (if 0 <? strong o then Some (put p (with_strong (strong o + 1) o) st) else None).

(** ** The critical sections *)

(** A live entry's new reference, or nothing; a dying entry is dropped. *)
Definition lookup (u : ustring) (st : state) : outcome string (option (state * option Z)) :=
  let! r := search u st in
  match r with
  | None => Ret None
  | Some (Free _) => Ret (Some (st, None))
  | Some (Entry k p) =>
      let! t := tryIncRef p st in
      Ret (Some (match t with
                 | Some st => (st, Some p)
                 | None => (set_table (delete k (table st)) st, None)
                 end))
  end.

(** The candidate takes the slot, unless a live equal string has it. *)
Definition publish (u : ustring) (c : Z) (st : state) : outcome string (option (state * option Z)) :=
  let! r := search u st in
  let claim k := let! o := deref (objs st !! c) in
    Ret (Some (set_table (<[k := c]> (table st)) (put c (with_key k o) st), None)) in
  match r with
  | None => Ret None
  | Some (Free k) => claim k
  | Some (Entry k p) =>
      let! t := tryIncRef p st in
      match t with Some st => Ret (Some (st, Some p)) | None => claim k end
  end.

(** Its own entry only. *)
Definition self_erase (p : Z) (o : str) (st : state) : state :=
  if bool_decide (table st !! internKey o = Some p) then set_table (delete (internKey o) (table st)) st else st.

(** [~ObjString] *)
Definition destruct_str (p : Z) (o : str) (st : state) : state :=
  if negb (internKey o =? 0) || negb (Ustring.isEmpty (s o)) then self_erase p o st else st.

(** The two critical sections of [updateInternedString]. *)
Definition detach (p : Z) (o : str) (st : state) : state :=
  if internKey o =? 0 then st else self_erase p o st.

Definition attach (p : Z) (st : state) : outcome string (option state) :=
  let! o := deref (objs st !! p) in
  let! r := probe_for (size (table st)) p (s o) 0 st in
  Ret (match r with
       | None => None
       | Some (Entry k _) => Some (put p (with_key k o) st)
       | Some (Free k) => Some (set_table (<[k := p]> (table st)) (put p (with_key k o) st))
       end).

(** [purgeDeadInternedStrings], the world stopped: the entries of the dead. *)
Definition is_dead (st : state) (p : Z) : bool :=
  match objs st !! p with Some o => match phase_of o with Alive => false | _ => true end | None => true end.

Definition purge (st : state) : state := set_table (filter (fun e : Z * Z => is_dead st e.2 = false) (table st)) st.

(** ** Comparing *)

Definition objsEqual (p q : Z) (st : state) : outcome string bool :=
  if p =? q then Ret true
  else
    let! a := deref (objs st !! p) in
    let! b := deref (objs st !! q) in
    if negb (internKey a =? 0) && negb (internKey b =? 0) && negb (internKey a =? internKey b) then Ret false
    else Ret (bool_decide (s a = s b)).

(** [less] of two strings: never when their hashes are the same. *)
Definition less_str (a b : str) : outcome string bool :=
  if hash a =? hash b then Ret false
  else match Ustring.compareCodePointOrder (s a) (s b) with Some c => Ret (c <? 0) | None => UB end.

(** ** The system *)

Inductive event :=
| Intern (t : nat) (u : ustring)            (* newObjString begins: look up *)
| Allocate (t : nat)
| Publish (t : nat)
| Take (t : nat)                            (* the result becomes a Value *)
| Copy (p : Z) | Drop (p : Z)               (* the program's references *)
| Update (t : nat) (p : Z) (u : ustring)    (* updateInternedString begins: detach *)
| Rewrite (t : nat)
| Attach (t : nat)
| Destroy (p : Z) | Release (p : Z)         (* the reclaimer *)
| Collect (swept : list Z).                 (* a collection, no thread on the heap *)

Definition is_alive (o : str) : bool := match phase_of o with Alive => true | _ => false end.

Definition pinned (p : Z) (ph : phase) : bool :=
  match ph with Reused q | Detached q _ | Rewritten q => q =? p | _ => false end.
Definition updating (p : Z) (ph : phase) : bool :=
  match ph with Detached q _ | Rewritten q => q =? p | _ => false end.

(** References to [p] that threads hold. *)
Definition pins (p : Z) (st : state) : Z := Z.of_nat (size (filter (fun e : nat * phase => pinned p e.2 = true) (threads st))).
Definition under_update (p : Z) (st : state) : bool := bool_decide (filter (fun e : nat * phase => updating p e.2 = true) (threads st) <> ∅).

(** [decRef]: the last reference gone, the object is dead. *)
Definition drop_ref (o : str) : str :=
  let n := strong o - 1 in with_phase (if (n =? 0) && is_alive o then Dead else phase_of o) (with_strong n o).

Definition sweep (swept : list Z) (st : state) : state :=
  mkState (map_imap (fun p o => Some (if bool_decide (p ∈ swept) && is_alive o then with_phase Dead o else o)) (objs st))
    (table st) (threads st) (next st).

(** What an event does; [None] when it cannot happen. *)
Definition exec (e : event) (st : state) : outcome string (option state) :=
  match e with
  | Intern t u =>
      match threads st !! t with
      | Some _ => Ret None
      | None =>
          let! r := lookup u st in
          Ret (match r with
               | Some (st, Some p) => Some (go t (Reused p) st)
               | Some (st, None) => Some (go t (Missed u) st)
               | None => None
               end)
      end
  | Allocate t =>
      Ret (match threads st !! t with
           | Some (Missed u) =>
               let c := next st in
               Some (go t (Candidate u c) (mkState (<[c := fresh_str u]> (objs st)) (table st) (threads st) (c + 1)))
           | _ => None
           end)
  | Publish t =>
      match threads st !! t with
      | Some (Candidate u c) =>
          let! r := publish u c st in
          match r with
          | Some (st, None) => Ret (Some (go t (Fresh c) st))
          | Some (st, Some p) => let! o := deref (objs st !! c) in Ret (Some (go t (Reused p) (put c (with_phase Dead o) st)))
          | None => Ret None
          end
      | _ => Ret None
      end
  | Take t =>
      match threads st !! t with
      | Some (Fresh c) => let! o := deref (objs st !! c) in Ret (Some (rest t (put c (with_strong (strong o + 1) o) st)))
      | Some (Reused _) => Ret (Some (rest t st))
      | _ => Ret None
      end
  | Copy p =>
      Ret (match objs st !! p with
           | Some o => if is_alive o && (0 <? strong o) then Some (put p (with_strong (strong o + 1) o) st) else None
           | None => None
           end)
  | Drop p =>
      Ret (match objs st !! p with
           | Some o => if pins p st <? strong o then Some (put p (drop_ref o) st) else None
           | None => None
           end)
  | Update t p u =>
      Ret (match threads st !! t, objs st !! p with
           | None, Some o =>
               if is_alive o && (pins p st <? strong o) && negb (under_update p st)
               then Some (go t (Detached p u) (put p (with_strong (strong o + 1) o) (detach p o st))) else None
           | _, _ => None
           end)
  | Rewrite t =>
      match threads st !! t with
      | Some (Detached p u) => let! o := deref (objs st !! p) in Ret (Some (go t (Rewritten p) (put p (with_content u o) st)))
      | _ => Ret None
      end
  | Attach t =>
      match threads st !! t with
      | Some (Rewritten p) => let! r := attach p st in Ret (option_map (go t (Reused p)) r)
      | _ => Ret None
      end
  | Destroy p =>
      Ret (match objs st !! p with
           | Some o => match phase_of o with Dead => Some (put p (with_phase Torn o) (destruct_str p o st)) | _ => None end
           | None => None
           end)
  | Release p =>
      Ret (match objs st !! p with
           | Some o => match phase_of o with
                       | Torn => Some (mkState (delete p (objs st)) (table st) (threads st) (next st))
                       | _ => None end
           | None => None
           end)
  | Collect swept => Ret (if bool_decide (threads st = ∅) then Some (purge (sweep swept st)) else None)
  end.

Definition start_state : state := mkState ∅ ∅ ∅ 1.

Fixpoint execs (es : list event) (st : state) : outcome string (option state) :=
  match es with
  | [] => Ret (Some st)
  | e :: es => let! r := exec e st in match r with Some st => execs es st | None => Ret None end
  end.

(** ** Reading a string *)

Definition range_needed : string := "String index must be a number or a range.".
Definition str_out_of_range : string := "String index out-of-range.".

(** The units of a range of [u] that it has. *)
Fixpoint units (r : range) (u : ustring) (ks : list Z) : outcome string ustring :=
  match ks with
  | [] => Ret []
  | k :: ks =>
      let! i := targetIndex r k (Ustring.length u) in
      let! tail := units r u ks in
      Ret (if (0 <=? i) && (i <? Ustring.length u) then Ustring.charAt u i :: tail else tail)
  end.

(** The content of [index]'s new string; [rng] the range the subscript refers to. *)
Definition index (h : heap) (rng : option range) (i : Z) (u : ustring) : outcome string ustring :=
  let len := Ustring.length u in
  if isNumber h i then
    match asInt h i true with
    | Ret unit =>
        let! unit := (if unit <? 0 then if unit =? - 2 ^ 63 then UB else Ret (len - (- unit)) else Ret unit) in
        if (unit <? 0) || (len <=? unit) then Throw str_out_of_range
        else Ustring.tempSubString u (wrapS 32 unit) 1
    | Throw _ => Throw "conversion"
    | UB => UB
    end
  else
    match rng with
    | Some r => let! n := length_over r len in units r u (seqZ 0 n)
    | None => Throw range_needed
    end.

(** ** Serialization *)

Definition write (u : ustring) : list Z :=
  let ss := Ustring.encodeUTF8 u in to_bytes 4 (wrapU 32 (Z.of_nat (List.length ss))) ++ ss.

(** The new content; [updateInternedString] follows. *)
Definition read (bs : list Z) : outcome string (ustring * list Z) :=
  let! (len, bs) := Wire.take_int 4 bs in
  let (ss, bs) := Lists.fill (Z.to_nat len) bs in
  Ret (Ustring.decodeUTF8 ss, bs).

End Strings.
