(* ===== verification/StringProofs.v ===== *)
(** * StringProofs: what interning guarantees

    [inv] holds of every reachable state of the intern table, whatever the interleaving:
    entries are objects that still exist, under the key they carry.  From it: no step
    reads freed memory, probes end, and, while no two strings have the same key, comparing
    keys is comparing contents.  The last section shows what a collision, and a string
    published before it is referenced, do. *)

From S2P Require Import Prelude Value DebugInfo Ustring Ranges Wire Lists Strings.
From stdpp Require Import numbers list.

Module StringProofs.

Import Ranges Strings.
Local Open Scope Z_scope.

(** ** Salts *)

Definition attempt_ok (a : Z) : Prop := 0 <= a < 2 ^ 32.

(** The inverse of [salting] modulo 2^64. *)
Definition unsalting : Z := 0x319642b2d24d8ec3.

Lemma unsalt a : 0 <= a < 2 ^ 64 -> u64 (u64 (a * salting) * unsalting) = a.
Proof.
  intros Ha. unfold u64, wrapU. rewrite Zmult_mod_idemp_l. rewrite <- Z.mul_assoc.
  rewrite Zmult_mod. replace ((salting * unsalting) mod 2 ^ 64) with 1 by (by vm_compute).
  rewrite Z.mul_1_r, Z.mod_mod by lia. by apply Z.mod_small.
Qed.

Lemma lxor_cancel m x y : Z.lxor m x = Z.lxor m y -> x = y.
Proof. intros E%(f_equal (Z.lxor m)). by rewrite <- !Z.lxor_assoc, Z.lxor_nilpotent, !Z.lxor_0_l in E. Qed.

Lemma salts_differ u a b : attempt_ok a -> attempt_ok b -> computeInternKey u a = computeInternKey u b -> a = b.
Proof.
  unfold attempt_ok. intros Ha Hb E%lxor_cancel. rewrite <- (unsalt a), <- (unsalt b), E by lia. done.
Qed.

(** The only salt that gives the key zero. *)
Definition zero_salt (u : ustring) : Z := u64 (Z.lxor (computeInternKey u 0) 0 * unsalting).

Lemma key_nonzero u a : attempt_ok a -> 2 ^ 32 <= zero_salt u -> computeInternKey u a <> 0.
Proof.
  unfold attempt_ok, zero_salt. intros Ha Hz E. assert (u64 (a * salting) = Z.lxor (computeInternKey u 0) 0) as Es.
  { unfold computeInternKey in *. change (u64 (0 * salting)) with 0. rewrite !Z.lxor_0_r. symmetry. by apply Z.lxor_eq. }
  rewrite <- Es, unsalt in Hz by lia. lia.
Qed.

Lemma next_attempt_ok a : attempt_ok (next_attempt a).
Proof. unfold attempt_ok, next_attempt. pose proof (wrapU_range 32 (a + 1)). unfold inU in *. lia. Qed.

(** ** The invariant *)

(** [U]: the strings in play.  None has the key zero, whatever the salt. *)
Section Interning.
Context (U : ustring -> Prop).
Context (nonzero : forall u a, U u -> attempt_ok a -> computeInternKey u a <> 0).

Definition thread_ok (st : state) (ph : phase) : Prop :=
  match ph with
  | Missed u => U u
  | Candidate u c => U u /\ exists o, objs st !! c = Some o /\ s o = u /\ internKey o = 0 /\ strong o = 0 /\ phase_of o = Alive
  | Fresh c => exists o, objs st !! c = Some o /\ strong o = 0 /\ phase_of o = Alive
  | Detached p u => U u /\ exists o, objs st !! p = Some o /\ phase_of o = Alive
  | Reused p | Rewritten p => exists o, objs st !! p = Some o /\ phase_of o = Alive
  end.

Definition owns (c : Z) (ph : phase) : bool := match ph with Candidate _ q | Fresh q => q =? c | _ => false end.

Record inv (st : state) : Prop := {
  i_next : forall p o, objs st !! p = Some o -> p < next st;
  i_table : forall k p, table st !! k = Some p -> exists o, objs st !! p = Some o /\ internKey o = k /\ k <> 0 /\ (phase_of o = Alive \/ phase_of o = Dead /\ strong o = 0);
  i_content : forall p o, objs st !! p = Some o -> U (s o);
  i_threads : forall t ph, threads st !! t = Some ph -> thread_ok st ph;
  i_owner : forall t t' ph ph' c, threads st !! t = Some ph -> threads st !! t' = Some ph' -> owns c ph = true -> owns c ph' = true -> t = t';
  i_updater : forall t t' ph ph' p, threads st !! t = Some ph -> threads st !! t' = Some ph' -> updating p ph = true -> updating p ph' = true -> t = t';
  i_apart : forall t ph p k, threads st !! t = Some ph -> updating p ph = true -> table st !! k <> Some p;
  i_pins : forall p o, objs st !! p = Some o -> pins p st <= strong o;
}.

Lemma inv_start : inv start_state.
Proof. split; cbn; intros; by simplify_map_eq. Qed.

(** ** Pins *)

Lemma pins_of st st' p : threads st' = threads st -> pins p st' = pins p st.
Proof. unfold pins. by intros ->. Qed.

Lemma pins_nonneg p st : 0 <= pins p st.
Proof. unfold pins. lia. Qed.

Lemma pins_go_le p t ph st : pins p (go t ph st) <= pins p st + (if pinned p ph then 1 else 0).
Proof.
  unfold pins. cbn [threads go]. destruct (pinned p ph) eqn:E.
  - rewrite map_filter_insert_True by done. rewrite map_size_insert. destruct (_ !! t); cbn; lia.
  - rewrite map_filter_insert_False by (cbn; congruence). rewrite map_filter_delete, map_size_delete. destruct (_ !! t); cbn; lia.
Qed.

Lemma pins_swap p t old ph st : threads st !! t = Some old -> pinned p old = true -> pins p (go t ph st) <= pins p st.
Proof.
  intros Ht Ho. unfold pins. cbn [threads go].
  assert (filter (fun e : nat * phase => pinned p e.2 = true) (threads st) !! t = Some old) as Hf by by apply map_lookup_filter_Some_2.
  destruct (pinned p ph) eqn:E.
  - rewrite map_filter_insert_True by done. rewrite map_size_insert, Hf. cbn. lia.
  - rewrite map_filter_insert_False by (cbn; congruence). rewrite map_filter_delete, map_size_delete, Hf. cbn. lia.
Qed.

Lemma pins_rest_le p t st : pins p (rest t st) <= pins p st.
Proof. unfold pins. cbn [threads rest]. rewrite map_filter_delete, map_size_delete. destruct (_ !! t); cbn; lia. Qed.

Lemma pins_pos p t ph st : threads st !! t = Some ph -> pinned p ph = true -> 1 <= pins p st.
Proof.
  intros Ht Hp. unfold pins. assert (filter (fun e : nat * phase => pinned p e.2 = true) (threads st) !! t = Some ph) as Hf by by apply map_lookup_filter_Some_2.
  enough (size (filter (fun e : nat * phase => pinned p e.2 = true) (threads st)) <> 0%nat) by lia. intros E%map_size_empty_inv. by rewrite E in Hf.
Qed.

Lemma updating_pinned p ph : updating p ph = true -> pinned p ph = true.
Proof. by destruct ph. Qed.

Lemma under_update_false p st t ph : under_update p st = false -> threads st !! t = Some ph -> updating p ph = false.
Proof.
  unfold under_update. intros H%bool_decide_eq_false Ht. destruct (updating p ph) eqn:E; [|done]. destruct H. intros He.
  assert (filter (fun e : nat * phase => updating p e.2 = true) (threads st) !! t = Some ph) as Hf by by apply map_lookup_filter_Some_2.
  by rewrite He in Hf.
Qed.

(** ** Probing *)

(** The entries of the table are there to be read. *)
Definition entry (st : state) (k p : Z) (o : str) : Prop :=
  table st !! k = Some p /\ objs st !! p = Some o /\ internKey o = k /\ k <> 0 /\ (phase_of o = Alive \/ phase_of o = Dead /\ strong o = 0).

Lemma table_entry st k p : inv st -> table st !! k = Some p -> exists o, entry st k p o.
Proof. intros Hi Hk. destruct (i_table st Hi k p Hk) as (o & H). by exists o. Qed.

Definition slot_ok (st : state) (u : ustring) (r : slot) : Prop :=
  match r with
  | Free k => table st !! k = None /\ exists a, attempt_ok a /\ k = computeInternKey u a
  | Entry k p => exists o, entry st k p o /\ s o = u /\ exists a, attempt_ok a /\ k = computeInternKey u a
  end.

Lemma probe_spec st u : inv st -> forall fuel a, attempt_ok a ->
  exists r, probe fuel u a st = Ret r /\ match r with Some x => slot_ok st u x | None => True end.
Proof.
  intros Hi. induction fuel as [|fuel IH]; intros a Ha; cbn [probe];
    (destruct (table st !! computeInternKey u a) as [p|] eqn:Ek; [|exists (Some (Free (computeInternKey u a))); split; [done|]; split; [done|by exists a]]);
    destruct (table_entry st _ p Hi Ek) as (o & He); pose proof He as (_ & -> & _); (case_bool_decide as Hs; [exists (Some (Entry (computeInternKey u a) p)); split; [done|]; exists o; split; [done|]; split; [done|by exists a]|]).
  - by exists None.
  - apply IH, next_attempt_ok.
Qed.

Lemma attempt_0 : attempt_ok 0.
Proof. done. Qed.

Lemma slot_search_spec st u : inv st -> exists r, search u st = Ret r /\ match r with Some x => slot_ok st u x | None => True end.
Proof. intros Hi. apply probe_spec; [done|apply attempt_0]. Qed.

Definition not_self (obj : Z) (st : state) : Prop := forall k, table st !! k <> Some obj.

Lemma probe_for_probe st obj u : not_self obj st -> forall fuel a, probe_for fuel obj u a st = probe fuel u a st.
Proof.
  intros Hn. induction fuel as [|fuel IH]; intros a; cbn [probe probe_for]; destruct (table st !! computeInternKey u a) as [p|] eqn:Ek; try done;
    (destruct (Z.eqb_spec p obj) as [->|_]; [by destruct (Hn _ Ek)|]); destruct (objs st !! p); try done; case_bool_decide; try done.
Qed.

(** A probe out of fuel has met as many entries as it made attempts. *)
Lemma probe_met st u : forall fuel a, 0 <= a -> a + Z.of_nat fuel < 2 ^ 32 -> probe fuel u a st = Ret None ->
  forall i, 0 <= i <= Z.of_nat fuel -> is_Some (table st !! computeInternKey u (a + i)).
Proof.
  induction fuel as [|fuel IH]; intros a Ha Hf; cbn [probe]; (destruct (table st !! computeInternKey u a) as [p|] eqn:Ek; [|done]);
    (destruct (objs st !! p) as [o|]; [|done]); (case_bool_decide; [done|]).
  - intros _ i Hi. replace (a + i) with a by lia. by rewrite Ek.
  - intros Hp i Hi. destruct (decide (i = 0)) as [->|]; [by rewrite Z.add_0_r, Ek|].
    assert (next_attempt a = a + 1) as En by (apply Z.mod_small; lia). rewrite En in Hp.
    replace (a + i) with (a + 1 + (i - 1)) by lia. apply IH; [lia|lia|done|lia].
Qed.

Lemma search_ends u st : Z.of_nat (size (table st)) < 2 ^ 32 -> search u st <> Ret None.
Proof.
  intros Hn Hs. unfold search in Hs. set (n := size (table st)) in *. pose proof (probe_met st u n 0 ltac:(lia) ltac:(lia) Hs) as Hm.
  set (key := fun i : nat => computeInternKey u (Z.of_nat i)). assert (NoDup (key <$> seq 0 (S n))) as Hd.
  { apply NoDup_fmap_2_strong; [|apply NoDup_seq]. intros i j Hi%elem_of_seq Hj%elem_of_seq E.
    apply salts_differ in E; unfold attempt_ok; lia. }
  assert ((list_to_set (key <$> seq 0 (S n)) : gset Z) ⊆ dom (table st)) as Hsub.
  { intros k (i & -> & Hi%elem_of_seq)%elem_of_list_to_set%list_elem_of_fmap. apply elem_of_dom. apply (Hm (Z.of_nat i)). lia. }
  apply subseteq_size in Hsub. rewrite size_list_to_set, length_fmap, length_seq, size_dom in Hsub by done. subst n. lia.
Qed.

(** ** Changing one thing *)

Lemma thread_ok_put st p o' ph : thread_ok st ph -> owns p ph = false -> (pinned p ph = true -> phase_of o' = Alive) -> thread_ok (put p o' st) ph.
Proof.
  assert (forall q, (q =? p) = false -> objs (put p o' st) !! q = objs st !! q) as Hne.
  { intros q Hq%Z.eqb_neq. cbn. by rewrite lookup_insert_ne by congruence. }
  assert (forall q, (exists o, objs st !! q = Some o /\ phase_of o = Alive) -> ((q =? p) = true -> phase_of o' = Alive) ->
    exists o, objs (put p o' st) !! q = Some o /\ phase_of o = Alive) as Hp.
  { intros q Ho Hq. destruct (q =? p) eqn:E; [|by rewrite Hne]. apply Z.eqb_eq in E as ->. exists o'. cbn. rewrite lookup_insert_eq. auto. }
  destruct ph; cbn [thread_ok owns pinned]; intros H Hown Hpin; try done.
  - by rewrite Hne.
  - by rewrite Hne.
  - by apply Hp.
  - destruct H. split; [done|by apply Hp].
  - by apply Hp.
Qed.

Lemma not_owned st p o t ph : inv st -> objs st !! p = Some o -> 0 < strong o -> threads st !! t = Some ph -> owns p ph = false.
Proof.
  intros Hi Ho Hs Ht. pose proof (i_threads st Hi t ph Ht) as H. destruct ph; cbn in *; try done; apply Z.eqb_neq; intros ->.
  - destruct H as (_ & o1 & H1 & _ & _ & H2 & _). simplify_eq. lia.
  - destruct H as (o1 & H1 & H2 & _). simplify_eq. lia.
Qed.

Lemma not_pinned st p t ph : pins p st = 0 -> threads st !! t = Some ph -> pinned p ph = false.
Proof. intros Hp Ht. destruct (pinned p ph) eqn:E; [|done]. pose proof (pins_pos p t ph st Ht E). lia. Qed.

Lemma inv_put st p o o' : inv st -> objs st !! p = Some o -> U (s o') -> pins p st <= strong o' ->
  (forall k, table st !! k = Some p -> internKey o' = k /\ (phase_of o' = Alive \/ phase_of o' = Dead /\ strong o' = 0)) ->
  (forall t ph, threads st !! t = Some ph -> owns p ph = false /\ (pinned p ph = true -> phase_of o' = Alive)) -> inv (put p o' st).
Proof.
  intros [N T C H O P A S] Ho HU Hs Ht Hth. split; cbn.
  - intros q oq [[<- <-]|[_ Hq]]%lookup_insert_Some; eauto.
  - intros k q Hk. destruct (T k q Hk) as (oq & Hq & H1 & H2 & H3). destruct (decide (p = q)) as [<-|Hne].
    + exists o'. rewrite lookup_insert_eq. destruct (Ht k Hk) as [Hk1 Hk2]. by split_and!.
    + exists oq. by rewrite lookup_insert_ne.
  - intros q oq [[<- <-]|[_ Hq]]%lookup_insert_Some; eauto.
  - intros t ph Ht'. destruct (Hth t ph Ht') as [Hw1 Hw2]. apply thread_ok_put; [by apply (H t)|done|done].
  - done.
  - done.
  - done.
  - intros q oq [[<- <-]|[_ Hq]]%lookup_insert_Some; [done|by apply S].
Qed.

(** More references to a string that has some. *)
Lemma inv_incRef st p o n : inv st -> objs st !! p = Some o -> 0 < strong o <= n -> inv (put p (with_strong n o) st).
Proof.
  intros Hi Ho Hn. apply (inv_put st p o); cbn; try done.
  - by apply (i_content st Hi p).
  - pose proof (i_pins st Hi p o Ho). lia.
  - intros k Hk. destruct (i_table st Hi k p Hk) as (o1 & H1 & H2 & _ & H3). assert (o1 = o) as -> by congruence. split; [done|].
    destruct H3 as [|[_ H3]]; [by left|lia].
  - intros t ph Ht. split; [apply (not_owned st p o t); [done|done|lia|done]|]. intros Hp. pose proof (i_threads st Hi t ph Ht) as H.
    destruct ph; cbn in *; try done; apply Z.eqb_eq in Hp as ->.
    + destruct H as (o1 & H1 & H2). congruence.
    + destruct H as (_ & o1 & H1 & H2). congruence.
    + destruct H as (o1 & H1 & H2). congruence.
Qed.

Lemma inv_subtable st tb : inv st -> (forall k p, tb !! k = Some p -> table st !! k = Some p) -> inv (set_table tb st).
Proof.
  intros [N T C H O P A S] Hs. split; cbn; try done.
  - intros k p Hk. apply T. by apply Hs.
  - intros t ph p k Ht Hu Hk. by apply (A t ph p k Ht Hu), Hs.
Qed.

Lemma inv_enter st k p o : inv st -> objs st !! p = Some o -> internKey o = k -> k <> 0 -> phase_of o = Alive ->
  (forall t ph, threads st !! t = Some ph -> updating p ph = false) -> inv (set_table (<[k := p]> (table st)) st).
Proof.
  intros [N T C H O P A S] Ho Hk Hn Ha Hu. split; cbn; try done.
  - intros j q [[<- <-]|[_ Hj]]%lookup_insert_Some; [exists o; auto|by apply T].
  - intros t ph q j Ht Hq [[<- <-]|[_ Hj]]%lookup_insert_Some; [by rewrite (Hu t ph Ht) in Hq|by apply (A t ph q j Ht Hq)].
Qed.

Lemma inv_go st t ph : inv st -> thread_ok st ph ->
  (forall t' ph' c, t' <> t -> threads st !! t' = Some ph' -> owns c ph = true -> owns c ph' = false) ->
  (forall t' ph' p, t' <> t -> threads st !! t' = Some ph' -> updating p ph = true -> updating p ph' = false) ->
  (forall p k, updating p ph = true -> table st !! k <> Some p) ->
  (forall p o, objs st !! p = Some o -> pins p (go t ph st) <= strong o) -> inv (go t ph st).
Proof.
  intros [N T C H O P A S] Hok Hown Hupd Hap Hp. split; cbn; try done.
  - intros t' ph' [[<- <-]|[_ Ht]]%lookup_insert_Some; [done|by apply (H t')].
  - intros t1 t2 p1 p2 c [[<- <-]|[H1 Ht1]]%lookup_insert_Some [[<- <-]|[H2 Ht2]]%lookup_insert_Some E1 E2; [done| | |by apply (O t1 t2 p1 p2 c)].
    + by rewrite (Hown t2 p2 c) in E2.
    + by rewrite (Hown t1 p1 c) in E1.
  - intros t1 t2 p1 p2 c [[<- <-]|[H1 Ht1]]%lookup_insert_Some [[<- <-]|[H2 Ht2]]%lookup_insert_Some E1 E2; [done| | |by apply (P t1 t2 p1 p2 c)].
    + by rewrite (Hupd t2 p2 c) in E2.
    + by rewrite (Hupd t1 p1 c) in E1.
  - intros t' ph' p k [[<- <-]|[_ Ht]]%lookup_insert_Some Hu; [by apply Hap|by apply (A t' ph')].
Qed.

Lemma inv_rest st t : inv st -> inv (rest t st).
Proof.
  intros [N T C H O P A S]. split; cbn; try done.
  - intros t' ph [_ Ht]%lookup_delete_Some. by apply (H t').
  - intros t1 t2 p1 p2 c [_ H1]%lookup_delete_Some [_ H2]%lookup_delete_Some. by eapply O.
  - intros t1 t2 p1 p2 c [_ H1]%lookup_delete_Some [_ H2]%lookup_delete_Some. by eapply P.
  - intros t' ph p k [_ Ht]%lookup_delete_Some. by eapply A.
  - intros p o Ho. etrans; [apply pins_rest_le|by apply S].
Qed.

(** ** Every event keeps it *)

Definition good (r : outcome string (option state)) : Prop := exists x, r = Ret x /\ forall st', x = Some st' -> inv st'.

Lemma good_none : good (Ret None).
Proof. by exists None. Qed.

Lemma good_some st : inv st -> good (Ret (Some st)).
Proof. intros Hi. exists (Some st). split; [done|]. by intros st' [= <-]. Qed.

Lemma try_spec st p o : objs st !! p = Some o ->
  tryIncRef p st = Ret (if 0 <? strong o then Some (put p (with_strong (strong o + 1) o) st) else None).
Proof. intros Ho. unfold tryIncRef. by rewrite Ho. Qed.

(** A new reference, held by a thread that had none. *)
Lemma inv_reuse st t p o k : inv st -> entry st k p o -> 0 < strong o ->
  (forall ph, threads st !! t = Some ph -> forall q, pinned q ph = false) ->
  inv (go t (Reused p) (put p (with_strong (strong o + 1) o) st)).
Proof.
  intros Hi (Hk & Ho & _ & _ & Hl) Hs Ht. assert (inv (put p (with_strong (strong o + 1) o) st)) as Hi1 by (apply inv_incRef; [done|done|lia]).
  apply inv_go; try done.
  - cbn. rewrite lookup_insert_eq. eexists. split; [done|]. cbn. by destruct Hl as [|[_ ?]]; [|lia].
  - intros q oq. cbn. intros Hq. etrans; [apply pins_go_le|]. rewrite (pins_of st) by done.
    destruct (decide (p = q)) as [<-|Hne].
    + rewrite lookup_insert_eq in Hq. injection Hq as <-. cbn. pose proof (i_pins st Hi p o Ho). destruct (p =? p); lia.
    + rewrite lookup_insert_ne in Hq by done. cbn. destruct (Z.eqb_spec p q); [done|]. pose proof (i_pins st Hi q oq Hq). lia.
Qed.

(** A thread that holds nothing. *)
Lemma inv_go_free st t ph : inv st -> thread_ok st ph -> (forall c, owns c ph = false) -> (forall p, pinned p ph = false) -> inv (go t ph st).
Proof.
  intros Hi Hok Ho Hp. assert (forall p, updating p ph = false) as Hu by (intros p; destruct (updating p ph) eqn:E; [apply updating_pinned in E; by rewrite Hp in E|done]).
  apply inv_go; try done.
  - intros t' ph' c _ _ E. by rewrite Ho in E.
  - intros t' ph' p _ _ E. by rewrite Hu in E.
  - intros p k E. by rewrite Hu in E.
  - intros p o Hpo. etrans; [apply pins_go_le|]. rewrite Hp. pose proof (i_pins st Hi p o Hpo). lia.
Qed.

Lemma good_intern t u st : inv st -> U u -> good (exec (Intern t u) st).
Proof.
  intros Hi Hu. cbn [exec]. destruct (threads st !! t) as [ph|] eqn:Et; [apply good_none|]. unfold lookup.
  destruct (slot_search_spec st u Hi) as ([[k|k p]|] & -> & Hr); cbn [obind]; [..|apply good_none].
  - apply good_some. by apply inv_go_free.
  - destruct Hr as (o & He & Hs & _). pose proof He as (Hk & Ho & _). rewrite (try_spec st p o Ho). cbn [obind].
    destruct (Z.ltb_spec 0 (strong o)); apply good_some.
    + apply (inv_reuse st t p o k); try done. intros ph Hph. congruence.
    + apply inv_go_free; try done. apply inv_subtable; [done|]. intros j q [_ Hj]%lookup_delete_Some. done.
Qed.

Lemma thread_ok_mono st st' ph : (forall p o, objs st !! p = Some o -> objs st' !! p = Some o) -> thread_ok st ph -> thread_ok st' ph.
Proof.
  intros Hm. destruct ph; cbn; try done.
  - intros (Hu & o & Ho & H). split; [done|]. exists o. split; [by apply Hm|done].
  - intros (o & Ho & H). exists o. split; [by apply Hm|done].
  - intros (o & Ho & H). exists o. split; [by apply Hm|done].
  - intros (Hu & o & Ho & H). split; [done|]. exists o. split; [by apply Hm|done].
  - intros (o & Ho & H). exists o. split; [by apply Hm|done].
Qed.

Lemma thread_ok_not st c ph : objs st !! c = None -> thread_ok st ph -> owns c ph = false /\ pinned c ph = false.
Proof.
  intros Hc. destruct ph; cbn; intros H; (split; try done); apply Z.eqb_neq; intros ->;
    first [destruct H as (_ & o & Ho & _)|destruct H as (o & Ho & _)]; congruence.
Qed.

Lemma good_allocate t st : inv st -> good (exec (Allocate t) st).
Proof.
  intros Hi. cbn [exec]. destruct (threads st !! t) as [[u|?|?|?|?|?]|] eqn:Et; try apply good_none. apply good_some.
  pose proof Hi as [N T C H O P A S]. assert (objs st !! next st = None) as Hno.
  { destruct (objs st !! next st) as [o|] eqn:E; [pose proof (N _ _ E); lia|done]. }
  pose proof (H t _ Et) as Hu. cbn in Hu. set (c := next st). set (st1 := mkState _ _ _ _).
  assert (forall p o, objs st !! p = Some o -> objs st1 !! p = Some o) as Hm.
  { intros p o Hp. cbn. rewrite lookup_insert_ne; [done|]. intros <-. unfold c in Hp. congruence. }
  assert (forall ph, thread_ok st ph -> thread_ok st1 ph) as Hth by (intros ph; by apply thread_ok_mono).
  assert (forall ph, thread_ok st ph -> owns c ph = false /\ pinned c ph = false) as Hfr by (intros ph; by apply thread_ok_not).
  assert (pins c st = 0) as Hp0.
  { destruct (decide (pins c st = 0)) as [|Hne]; [done|]. exfalso. unfold pins in Hne.
    destruct (map_choose (filter (fun e : nat * phase => pinned c e.2 = true) (threads st))) as (t' & ph & [Hf Hpp]%map_lookup_filter_Some).
    { intros E. rewrite E in Hne. by rewrite map_size_empty in Hne. }
    destruct (Hfr ph (H t' ph Hf)) as [_ Hp]. cbn in Hpp. congruence. }
  assert (inv st1) as Hi1.
  { split; cbn; try done.
    - intros p o [[<- <-]|[_ Hp]]%lookup_insert_Some; [lia|]. pose proof (N p o Hp). lia.
    - intros k p Hk. destruct (T k p Hk) as (o & Ho & Hrest). exists o. split; [by apply Hm|done].
    - intros p o [[<- <-]|[_ Hp]]%lookup_insert_Some; [done|by apply (C p)].
    - intros t' ph Ht'. by apply Hth, (H t').
    - intros p o [[<- <-]|[_ Hp]]%lookup_insert_Some; [rewrite (pins_of st) by done; fold c; cbn; lia|by apply S]. }
  apply (inv_go st1 t); try done.
  - cbn. split; [done|]. exists (fresh_str u). by rewrite lookup_insert_eq.
  - intros t' ph' c' _ Ht' Hc. cbn in Hc. apply Z.eqb_eq in Hc as <-. by apply Hfr, (H t').
  - intros p o Hp. etrans; [apply pins_go_le|]. cbn [pinned]. rewrite Z.add_0_r. by apply (i_pins st1 Hi1).
Qed.

(** The candidate enters the table. *)
Lemma inv_claim st t u c k : inv st -> threads st !! t = Some (Candidate u c) -> k <> 0 ->
  exists o, objs st !! c = Some o /\ inv (go t (Fresh c) (set_table (<[k := c]> (table st)) (put c (with_key k o) st))).
Proof.
  intros Hi Ht Hk. destruct (i_threads st Hi t _ Ht) as (_ & o & Ho & Hs & Hz & Hst & Ha). exists o. split; [done|].
  assert (inv (go t (Fresh c) st)) as Hi1.
  { apply inv_go; try done.
    - exists o. done.
    - intros t' ph' c' Hne Ht' Hc. cbn in Hc. apply Z.eqb_eq in Hc as <-. destruct (owns c ph') eqn:E; [|done].
      destruct Hne. apply (i_owner st Hi t' t ph' (Candidate u c) c); try done. cbn. apply Z.eqb_refl.
    - intros p op Hp. etrans; [apply pins_go_le|]. pose proof (i_pins st Hi p op Hp). cbn. lia. }
  set (st1 := go t (Fresh c) st) in *. change (inv (set_table (<[k := c]> (table st1)) (put c (with_key k o) st1))).
  assert (forall j, table st1 !! j <> Some c) as Hno.
  { intros j Hj. destruct (i_table st Hi j c Hj) as (o1 & H1 & H2 & H3 & _). simplify_eq. }
  assert (pins c st1 = 0) as Hp0. { pose proof (i_pins st1 Hi1 c o Ho). pose proof (pins_nonneg c st1). lia. }
  assert (inv (set_table (<[k := c]> (table st1)) (put c (with_key k o) st1))) as Hfin; [|exact Hfin].
  split; cbn.
  - intros q oq [[<- <-]|[_ Hq]]%lookup_insert_Some; eapply (i_next st Hi); done.
  - intros j q [[<- <-]|[_ Hj]]%lookup_insert_Some.
    + exists (with_key k o). rewrite lookup_insert_eq. cbn. auto.
    + destruct (i_table st Hi j q Hj) as (oq & Hq & H1). exists oq. rewrite lookup_insert_ne; [done|]. intros <-. by destruct (Hno j).
  - intros q oq [[<- <-]|[_ Hq]]%lookup_insert_Some; [apply (i_content st Hi c o Ho)|by apply (i_content st Hi q)].
  - intros t' ph Ht'. pose proof (i_threads st1 Hi1 t' ph Ht') as Hok. cbn in Ht'. apply lookup_insert_Some in Ht' as [[<- <-]|[Hne Ht']].
    + cbn. exists (with_key k o). by rewrite lookup_insert_eq.
    + apply (thread_ok_put st1); [done| |done]. destruct (owns c ph) eqn:E; [|done]. destruct Hne.
      apply (i_owner st Hi t t' (Candidate u c) ph c); try done. cbn. apply Z.eqb_refl.
  - apply (i_owner st1 Hi1).
  - apply (i_updater st1 Hi1).
  - intros t' ph q j Ht' Hq [[<- <-]|[_ Hj]]%lookup_insert_Some; [|by apply (i_apart st1 Hi1 t' ph q j)].
    apply updating_pinned in Hq. pose proof (pins_pos c t' ph st1 Ht' Hq). lia.
  - intros q oq [[<- <-]|[_ Hq]]%lookup_insert_Some; [cbn; rewrite (pins_of st1) by done; lia|by apply (i_pins st1 Hi1 q)].
Qed.

Lemma good_publish t st : inv st -> good (exec (Publish t) st).
Proof.
  intros Hi. cbn [exec]. destruct (threads st !! t) as [[?|u c|?|?|?|?]|] eqn:Et; try apply good_none. unfold publish.
  destruct (i_threads st Hi t _ Et) as (Hu & oc & Hoc & Hsc & Hzc & Hstc & Hac).
  destruct (slot_search_spec st u Hi) as ([[k|k p]|] & -> & Hr); cbn [obind]; [..|apply good_none].
  - destruct Hr as (_ & a & Ha & Hk). destruct (inv_claim st t u c k Hi Et) as (o & -> & Hi1); [subst k; by apply nonzero|].
    cbn [deref obind]. by apply good_some.
  - destruct Hr as (o & He & Hs & _). pose proof He as (Hk & Ho & Hik & Hk0 & _). rewrite (try_spec st p o Ho). cbn [obind].
    destruct (Z.ltb_spec 0 (strong o)) as [Hpos|_].
    2:{ destruct (inv_claim st t u c k Hi Et Hk0) as (o' & -> & Hi1). cbn [deref obind]. by apply good_some. }
    assert (c <> p) as Hne. { intros ->. assert (o = oc) as -> by congruence. lia. }
    cbn [obind objs put]. rewrite lookup_insert_ne, Hoc by done. cbn [deref obind]. apply good_some.
    assert (inv (go t (Reused p) (put p (with_strong (strong o + 1) o) st))) as Hi1.
    { apply (inv_reuse st t p o k); try done. intros ph Hph. assert (ph = Candidate u c) as -> by congruence. done. }
    set (st1 := go t (Reused p) (put p (with_strong (strong o + 1) o) st)) in *. change (inv (put c (with_phase Dead oc) st1)).
    assert (objs st1 !! c = Some oc) as Hoc1 by (cbn; by rewrite lookup_insert_ne).
    assert (pins c st1 = 0) as Hp0. { pose proof (i_pins st1 Hi1 c oc Hoc1). pose proof (pins_nonneg c st1). lia. }
    apply (inv_put st1 c oc); try done.
    + apply (i_content st Hi c oc Hoc).
    + cbn. lia.
    + intros j Hj. destruct (i_table st1 Hi1 j c Hj) as (o1 & H1 & H2 & H3 & _). simplify_eq.
    + intros t' ph Ht'. split; [|by rewrite (not_pinned st1 c t' ph Hp0 Ht')]. cbn in Ht'. apply lookup_insert_Some in Ht' as [[<- <-]|[Hnt Ht']]; [done|].
      destruct (owns c ph) eqn:E; [|done]. destruct Hnt. apply (i_owner st Hi t t' (Candidate u c) ph c); try done. cbn. apply Z.eqb_refl.
Qed.

Lemma good_take t st : inv st -> good (exec (Take t) st).
Proof.
  intros Hi. cbn [exec]. destruct (threads st !! t) as [[?|? ?|c|p|? ?|?]|] eqn:Et; try apply good_none; [|by apply good_some, inv_rest].
  destruct (i_threads st Hi t _ Et) as (o & Ho & Hs & Ha). rewrite Ho. cbn [deref obind]. apply good_some.
  set (st1 := rest t st). change (inv (put c (with_strong (strong o + 1) o) st1)).
  assert (inv st1) as Hi1 by by apply inv_rest.
  assert (pins c st1 = 0) as Hp0. { pose proof (i_pins st1 Hi1 c o Ho). pose proof (pins_nonneg c st1). lia. }
  apply (inv_put st1 c o); try done.
  - apply (i_content st Hi c o Ho).
  - cbn. lia.
  - intros k Hk. destruct (i_table st1 Hi1 k c Hk) as (o1 & H1 & H2 & _). assert (o1 = o) as -> by (cbn in H1; congruence). split; [done|by left].
  - intros t' ph Ht'. split; [|by rewrite (not_pinned st1 c t' ph Hp0 Ht')]. cbn in Ht'. apply lookup_delete_Some in Ht' as [Hne Ht'].
    destruct (owns c ph) eqn:E; [|done]. destruct Hne. apply (i_owner st Hi t t' (Fresh c) ph c); try done. cbn. apply Z.eqb_refl.
Qed.

Lemma good_copy p st : inv st -> good (exec (Copy p) st).
Proof.
  intros Hi. cbn [exec]. destruct (objs st !! p) as [o|] eqn:Ho; [|apply good_none].
  destruct (is_alive o && (0 <? strong o)) eqn:E; [|apply good_none]. apply andb_true_iff in E as [_ E%Z.ltb_lt].
  apply good_some. apply inv_incRef; [done|done|lia].
Qed.

Lemma good_drop p st : inv st -> good (exec (Drop p) st).
Proof.
  intros Hi. cbn [exec]. destruct (objs st !! p) as [o|] eqn:Ho; [|apply good_none].
  destruct (Z.ltb_spec (pins p st) (strong o)) as [Hp|]; [|apply good_none]. apply good_some.
  pose proof (pins_nonneg p st). apply (inv_put st p o); [done|done|apply (i_content st Hi p o Ho)|cbn; lia|..].
  - intros k Hk. destruct (i_table st Hi k p Hk) as (o1 & H1 & H2 & _ & H3). assert (o1 = o) as -> by congruence. split; [done|].
    destruct H3 as [H3|[_ H3]]; [|lia]. unfold drop_ref. cbn. unfold is_alive. rewrite H3, andb_true_r. destruct (Z.eqb_spec (strong o - 1) 0); cbn; auto.
  - intros t ph Ht. split; [apply (not_owned st p o t); [done|done|lia|done]|]. intros Hpin. pose proof (pins_pos p t ph st Ht Hpin).
    unfold drop_ref. cbn. destruct (Z.eqb_spec (strong o - 1) 0); [lia|]. cbn. pose proof (i_threads st Hi t ph Ht) as H1.
    destruct ph; cbn in Hpin, H1; try done; apply Z.eqb_eq in Hpin as ->;
      first [destruct H1 as (_ & o1 & H1 & H2)|destruct H1 as (o1 & H1 & H2)]; congruence.
Qed.

(** A string's only entry is under its own key. *)
Lemma erased st p o : inv st -> objs st !! p = Some o -> not_self p (self_erase p o st).
Proof.
  intros Hi Ho k. unfold self_erase. case_bool_decide as E; cbn [table set_table].
  - intros [Hne Hk]%lookup_delete_Some. destruct (i_table st Hi k p Hk) as (o1 & H1 & H2 & _). assert (o1 = o) as -> by congruence. congruence.
  - intros Hk. destruct (i_table st Hi k p Hk) as (o1 & H1 & H2 & _). assert (o1 = o) as -> by congruence. subst k. done.
Qed.

Lemma erased_inv st p o : inv st -> inv (self_erase p o st).
Proof.
  intros Hi. unfold self_erase. case_bool_decide; [|done]. apply inv_subtable; [done|]. by intros k q [_ Hk]%lookup_delete_Some.
Qed.

Lemma keyless st p o : inv st -> objs st !! p = Some o -> internKey o = 0 -> not_self p st.
Proof. intros Hi Ho Hz k Hk. destruct (i_table st Hi k p Hk) as (o1 & H1 & H2 & H3 & _). assert (o1 = o) as -> by congruence. congruence. Qed.

Lemma detach_spec st p o : inv st -> objs st !! p = Some o ->
  inv (detach p o st) /\ not_self p (detach p o st) /\ objs (detach p o st) = objs st /\ threads (detach p o st) = threads st.
Proof.
  intros Hi Ho. unfold detach. destruct (Z.eqb_spec (internKey o) 0).
  - split; [done|]. split; [by apply (keyless st p o)|done].
  - split; [by apply erased_inv|]. split; [by apply erased|]. unfold self_erase. by case_bool_decide.
Qed.

Lemma destruct_spec st p o : inv st -> objs st !! p = Some o ->
  inv (destruct_str p o st) /\ not_self p (destruct_str p o st) /\ objs (destruct_str p o st) = objs st /\ threads (destruct_str p o st) = threads st.
Proof.
  intros Hi Ho. unfold destruct_str. destruct (Z.eqb_spec (internKey o) 0) as [Hz|]; cbn [negb orb].
  - assert (not_self p st) as Hn by by apply (keyless st p o). assert (self_erase p o st = st) as ->.
    { unfold self_erase. case_bool_decide; [|done]. by destruct (Hn (internKey o)). }
    by destruct (Ustring.isEmpty _).
  - split; [by apply erased_inv|]. split; [by apply erased|]. unfold self_erase. by case_bool_decide.
Qed.

Lemma good_update t p u st : inv st -> U u -> good (exec (Update t p u) st).
Proof.
  intros Hi Hu. cbn [exec]. destruct (threads st !! t) eqn:Et; [apply good_none|]. destruct (objs st !! p) as [o|] eqn:Ho; [|apply good_none].
  destruct (is_alive o && (pins p st <? strong o) && negb (under_update p st)) eqn:E; [|apply good_none].
  apply andb_true_iff in E as [[Ha Hp%Z.ltb_lt]%andb_true_iff Hup%negb_true_iff]. apply good_some.
  destruct (detach_spec st p o Hi Ho) as (Hi1 & Hn & Eo & Eth). set (st1 := detach p o st) in *. rewrite <- Eo in Ho.
  pose proof (pins_nonneg p st). assert (inv (put p (with_strong (strong o + 1) o) st1)) as Hi2 by (apply inv_incRef; [done|done|lia]).
  apply inv_go; [done|..].
  - cbn. split; [done|]. rewrite lookup_insert_eq. eexists. split; [done|]. cbn. unfold is_alive in Ha. by destruct (phase_of o).
  - done.
  - intros t' ph' q _ Ht' Hq. cbn in Hq, Ht'. apply Z.eqb_eq in Hq as <-. rewrite Eth in Ht'. by apply (under_update_false p st t').
  - intros q k Hq. cbn in Hq. apply Z.eqb_eq in Hq as <-. apply Hn.
  - intros q oq Hq. etrans; [apply pins_go_le|]. rewrite (pins_of st) by (cbn; done). cbn in Hq. rewrite Eo in *.
    destruct (decide (p = q)) as [<-|Hne].
    + rewrite lookup_insert_eq in Hq. injection Hq as <-. cbn. destruct (p =? p); lia.
    + rewrite lookup_insert_ne in Hq by done. cbn. destruct (Z.eqb_spec p q); [done|]. pose proof (i_pins st Hi q oq Hq). lia.
Qed.

(** A thread goes on with the string it holds. *)
Lemma inv_keep st t p old ph : inv st -> threads st !! t = Some old -> pinned p old = true -> (forall q, pinned q old = pinned q ph) ->
  thread_ok st ph -> (forall c, owns c ph = false) -> (forall q, updating q ph = true -> updating q old = true) -> inv (go t ph st).
Proof.
  intros Hi Ht Hp Hq Hok Ho Hu. apply inv_go; try done.
  - intros t' ph' c _ _ E. by rewrite Ho in E.
  - intros t' ph' q Hne Ht' E. destruct (updating q ph') eqn:E'; [|done]. destruct Hne. apply (i_updater st Hi t' t ph' old q); auto.
  - intros q k E. apply (i_apart st Hi t old); auto.
  - intros q oq Ho'. pose proof (i_pins st Hi q oq Ho') as Hle. destruct (pinned q old) eqn:E.
    + etrans; [by apply (pins_swap q t old)|done].
    + etrans; [apply pins_go_le|]. rewrite <- Hq, E. lia.
Qed.

(** The string of a thread that holds it changes, out of the table. *)
Lemma inv_held st t ph p o o' : inv st -> threads st !! t = Some ph -> pinned p ph = true -> objs st !! p = Some o -> not_self p st ->
  U (s o') -> strong o' = strong o -> phase_of o' = phase_of o -> inv (put p o' st).
Proof.
  intros Hi Ht Hp Ho Hn HU Hs Hph. pose proof (pins_pos p t ph st Ht Hp). pose proof (i_pins st Hi p o Ho).
  apply (inv_put st p o); [done|done|done|lia|..].
  - intros k Hk. by destruct (Hn k).
  - intros t' ph' Ht'. split; [apply (not_owned st p o t'); [done|done|lia|done]|]. rewrite Hph. intros Hpin. pose proof (i_threads st Hi t' ph' Ht') as H1.
    destruct ph'; cbn in Hpin, H1; try done; apply Z.eqb_eq in Hpin as ->;
      first [destruct H1 as (_ & o1 & H1 & H2)|destruct H1 as (o1 & H1 & H2)]; congruence.
Qed.

Lemma good_rewrite t st : inv st -> good (exec (Rewrite t) st).
Proof.
  intros Hi. cbn [exec]. destruct (threads st !! t) as [[?|? ?|?|?|p u|?]|] eqn:Et; try apply good_none.
  destruct (i_threads st Hi t _ Et) as (Hu & o & Ho & Ha). rewrite Ho. cbn [deref obind]. apply good_some.
  assert (pinned p (Detached p u) = true) as Hp by apply Z.eqb_refl.
  assert (not_self p st) as Hn by (intros k; by apply (i_apart st Hi t (Detached p u) p k)).
  assert (inv (put p (with_content u o) st)) as Hi1 by by apply (inv_held st t (Detached p u) p o).
  apply (inv_keep _ t p (Detached p u)); try done. exists (with_content u o). cbn. by rewrite lookup_insert_eq.
Qed.

Lemma good_attach t st : inv st -> good (exec (Attach t) st).
Proof.
  intros Hi. cbn [exec]. destruct (threads st !! t) as [[?|? ?|?|?|? ?|p]|] eqn:Et; try apply good_none.
  destruct (i_threads st Hi t _ Et) as (o & Ho & Ha). unfold attach. rewrite Ho. cbn [deref obind].
  assert (pinned p (Rewritten p) = true) as Hp by apply Z.eqb_refl.
  assert (not_self p st) as Hn by (intros k; by apply (i_apart st Hi t (Rewritten p) p k)). rewrite probe_for_probe by done. fold (search (s o) st).
  destruct (slot_search_spec st (s o) Hi) as (r & -> & Hr). cbn [obind].
  assert (forall k, inv (put p (with_key k o) (go t (Reused p) st))) as Hput.
  { intros k. assert (inv (go t (Reused p) st)) as Hi1 by (apply (inv_keep _ t p (Rewritten p)); try done; exists o; done).
    apply (inv_held (go t (Reused p) st) t (Reused p) p o); try done; [cbn; by rewrite lookup_insert_eq|apply (i_content st Hi p o Ho)]. }
  destruct r as [[k|k q]|]; cbn [option_map]; [|apply good_some, (Hput k)|apply good_none].
  apply good_some. destruct Hr as (_ & a & Ha' & ->). set (k := computeInternKey (s o) a) in *.
  apply (inv_enter (put p (with_key k o) (go t (Reused p) st)) k p (with_key k o) (Hput k)); try done.
  - cbn. by rewrite lookup_insert_eq.
  - apply nonzero; [apply (i_content st Hi p o Ho)|done].
  - cbn. intros t' ph [[<- <-]|[Hne Ht']]%lookup_insert_Some; [done|]. destruct (updating p ph) eqn:E; [|done].
    destruct Hne. apply (i_updater st Hi t t' (Rewritten p) ph p); done.
Qed.

(** What is not alive, no thread holds. *)
Lemma dead_free st p o t ph : inv st -> objs st !! p = Some o -> phase_of o <> Alive -> threads st !! t = Some ph -> owns p ph = false /\ pinned p ph = false.
Proof.
  intros Hi Ho Hd Ht. pose proof (i_threads st Hi t ph Ht) as H. destruct ph; cbn in H |- *; (split; try done); apply Z.eqb_neq; intros ->;
    first [destruct H as (_ & o1 & H1 & H2)|destruct H as (o1 & H1 & H2)]; assert (o1 = o) as -> by congruence; destruct Hd; by destruct_and?.
Qed.

Lemma good_destroy p st : inv st -> good (exec (Destroy p) st).
Proof.
  intros Hi. cbn [exec]. destruct (objs st !! p) as [o|] eqn:Ho; [|apply good_none]. destruct (phase_of o) eqn:Ed; try apply good_none. apply good_some.
  destruct (destruct_spec st p o Hi Ho) as (Hi1 & Hn & Eo & Eth). assert (pins p st <= strong o) as Hp by by apply (i_pins st Hi).
  apply (inv_put (destruct_str p o st) p o); [done|by rewrite Eo|apply (i_content st Hi p o Ho)|by rewrite (pins_of st)|..].
  - intros k Hk. by destruct (Hn k).
  - rewrite Eth. intros t ph Ht. destruct (dead_free st p o t ph Hi Ho) as [H1 H2]; [congruence|done|]. split; [done|]. by rewrite H2.
Qed.

Lemma good_release p st : inv st -> good (exec (Release p) st).
Proof.
  intros Hi. cbn [exec]. destruct (objs st !! p) as [o|] eqn:Ho; [|apply good_none]. destruct (phase_of o) eqn:Ed; try apply good_none. apply good_some.
  pose proof Hi as [N T C H O P A S]. split; cbn; try done.
  - intros q oq [_ Hq]%lookup_delete_Some. by apply (N q oq).
  - intros k q Hk. destruct (T k q Hk) as (oq & Hq & H1 & H2 & H3). exists oq. rewrite lookup_delete_ne; [done|]. intros <-.
    assert (oq = o) as -> by congruence. rewrite Ed in H3. by destruct H3 as [|[]].
  - intros q oq [_ Hq]%lookup_delete_Some. by apply (C q).
  - intros t ph Ht. destruct (dead_free st p o t ph Hi Ho ltac:(congruence) Ht) as [H1 H2]. pose proof (H t ph Ht) as H3.
    destruct ph; cbn in H1, H2, H3 |- *; try done; (try apply Z.eqb_neq in H1); (try apply Z.eqb_neq in H2); rewrite lookup_delete_ne by congruence; done.
  - intros q oq [_ Hq]%lookup_delete_Some. by apply (S q).
Qed.

Lemma good_collect swept st : inv st -> good (exec (Collect swept) st).
Proof.
  intros Hi. cbn [exec]. case_bool_decide as Eth; [|apply good_none]. apply good_some. pose proof Hi as [N T C H O P A S].
  assert (forall p o', objs (sweep swept st) !! p = Some o' -> exists o, objs st !! p = Some o /\ s o' = s o /\ internKey o' = internKey o /\ strong o' = strong o /\
    (phase_of o' = Alive -> phase_of o = Alive)) as Hsw.
  { intros p o'. cbn. rewrite map_lookup_imap. destruct (objs st !! p) as [o|] eqn:Ho; [|done]. cbn. intros [= <-]. exists o. by destruct (_ && _). }
  split; cbn [objs table threads purge set_table next] in *; rewrite ?Eth.
  - intros p o' Hp. destruct (Hsw p o' Hp) as (o & Ho & _). by apply (N p o).
  - intros k p [Hk Hd]%map_lookup_filter_Some. cbn in Hd. unfold is_dead in Hd. destruct (objs (sweep swept st) !! p) as [o'|] eqn:Ep; [|done].
    destruct (Hsw p o' Ep) as (o & Ho & E1 & E2 & E3 & E4). destruct (T k p Hk) as (o1 & H1 & H2 & H3 & _). assert (o1 = o) as -> by congruence.
    exists o'. split; [done|]. split; [congruence|]. split; [done|]. left. by destruct (phase_of o').
  - intros p o' Hp. destruct (Hsw p o' Hp) as (o & Ho & -> & _). by apply (C p).
  - intros t ph Ht. cbn in Ht. by rewrite Eth in Ht.
  - intros t t' ph ph' c Ht. cbn in Ht. by rewrite Eth in Ht.
  - intros t t' ph ph' c Ht. cbn in Ht. by rewrite Eth in Ht.
  - intros t ph p k Ht. cbn in Ht. by rewrite Eth in Ht.
  - intros p o' Hp. destruct (Hsw p o' Hp) as (o & Ho & _ & _ & -> & _). rewrite (pins_of st) by done. by apply S.
Qed.

(** The strings an event brings in. *)
Definition brings (e : event) (u : ustring) : Prop := match e with Intern _ v | Update _ _ v => u = v | _ => False end.

Lemma exec_good e st : inv st -> (forall u, brings e u -> U u) -> good (exec e st).
Proof.
  intros Hi Hu. destruct e; [apply good_intern|apply good_allocate|apply good_publish|apply good_take|apply good_copy|apply good_drop|apply good_update|
    apply good_rewrite|apply good_attach|apply good_destroy|apply good_release|apply good_collect]; try done; by apply Hu.
Qed.

Inductive reach : state -> Prop :=
| reach_start : reach start_state
| reach_step st e st' : reach st -> (forall u, brings e u -> U u) -> exec e st = Ret (Some st') -> reach st'.

Lemma reach_inv st : reach st -> inv st.
Proof.
  induction 1 as [|st e st' _ Hi Hu He]; [apply inv_start|]. destruct (exec_good e st Hi Hu) as (x & Hx & Hg). apply Hg. congruence.
Qed.

Lemma reach_execs es : forall st st', reach st -> (forall e u, e ∈ es -> brings e u -> U u) -> execs es st = Ret (Some st') -> reach st'.
Proof.
  induction es as [|e es IH]; intros st st' Hr Hu; cbn [execs]; [by intros [= <-]|].
  destruct (exec e st) as [[st1|]| |] eqn:E; cbn [obind]; try done. apply IH.
  - apply (reach_step st e); [done| |done]. intros u. apply Hu. by left.
  - intros e' u He'. apply Hu. by right.
Qed.

(** ** Keys that tell strings apart *)

Definition K (u : ustring) : Z := computeInternKey u 0.

Definition rewritten (p : Z) (st : state) : Prop := exists t, threads st !! t = Some (Rewritten p).

(** Every interned string but one mid-rewrite has its content's own key. *)
Definition keyed (st : state) : Prop := forall p o, objs st !! p = Some o -> internKey o <> 0 -> ~ rewritten p st -> internKey o = K (s o).

(** Steps that change no content and no key. *)
Record calm (st st' : state) : Prop := {
  calm_objs : forall p o', objs st' !! p = Some o' -> exists o, objs st !! p = Some o /\ s o' = s o /\ internKey o' = internKey o;
  calm_threads : forall t p, threads st !! t = Some (Rewritten p) -> threads st' !! t = Some (Rewritten p);
}.

Lemma calm_keyed st st' : calm st st' -> keyed st -> keyed st'.
Proof.
  intros [Ho Ht] Hk p o' Hp Hn Hr. destruct (Ho p o' Hp) as (o & H1 & H2 & H3). rewrite H2, H3 in *. apply (Hk p); try done.
  intros [t H]. apply Hr. exists t. by apply Ht.
Qed.

Lemma calm_refl st : calm st st.
Proof. split; [by eauto|done]. Qed.

Lemma calm_trans st1 st2 st3 : calm st1 st2 -> calm st2 st3 -> calm st1 st3.
Proof.
  intros [O1 T1] [O2 T2]. split; [|by eauto]. intros p o3 H3. destruct (O2 p o3 H3) as (o2 & H2 & E2 & F2), (O1 p o2 H2) as (o1 & H1 & E1 & F1).
  exists o1. split; [done|]. split; congruence.
Qed.

Lemma calm_put st p o o' : objs st !! p = Some o -> s o' = s o -> internKey o' = internKey o -> calm st (put p o' st).
Proof.
  intros Ho Hs Hk. split; cbn; [|done]. intros q oq [[<- <-]|[_ Hq]]%lookup_insert_Some; [by exists o|by exists oq].
Qed.

Lemma calm_table st tb : calm st (set_table tb st).
Proof. split; cbn; [by eauto|done]. Qed.

Lemma calm_go st t ph : (forall p, threads st !! t <> Some (Rewritten p)) -> calm st (go t ph st).
Proof. intros Ht. split; cbn; [by eauto|]. intros t' p Hp. rewrite lookup_insert_ne; [done|]. intros <-. by destruct (Ht p). Qed.

Lemma calm_rest st t : (forall p, threads st !! t <> Some (Rewritten p)) -> calm st (rest t st).
Proof. intros Ht. split; cbn; [by eauto|]. intros t' p Hp. rewrite lookup_delete_ne; [done|]. intros <-. by destruct (Ht p). Qed.

Lemma calm_erase st p o : calm st (self_erase p o st).
Proof. unfold self_erase. case_bool_decide; [apply calm_table|apply calm_refl]. Qed.

Section Distinct.
Context (distinct : forall u v, U u -> U v -> K u = K v -> u = v).

Lemma search_exact st u : inv st -> keyed st -> U u ->
  match table st !! K u with
  | None => search u st = Ret (Some (Free (K u)))
  | Some p => search u st = Ret (Some (Entry (K u) p)) /\ exists o, objs st !! p = Some o /\ s o = u
  end.
Proof.
  intros Hi Hk Hu. unfold search. set (n := size (table st)). clearbody n. destruct (table st !! K u) as [p|] eqn:Ep.
  - destruct (table_entry st _ p Hi Ep) as (o & _ & Ho & Hik & Hk0 & _). assert (s o = u) as Hs.
    { apply distinct; [by apply (i_content st Hi p)|done|]. rewrite <- (Hk p o Ho); [done|congruence|]. intros [t Ht].
      by apply (i_apart st Hi t (Rewritten p) p (K u) Ht (Z.eqb_refl p)). }
    split; [|by exists o]. destruct n; cbn [probe]; fold (K u); rewrite Ep, Ho, bool_decide_true by done; done.
  - destruct n; cbn [probe]; fold (K u); by rewrite Ep.
Qed.

Lemma keyed_exec e st st' : inv st -> keyed st -> (forall u, brings e u -> U u) -> exec e st = Ret (Some st') -> keyed st'.
Proof.
  intros Hi Hk Hu. destruct e as [t u|t|t|t|p|p|t p u|t|t|p|p|swept]; cbn [exec].
  - destruct (threads st !! t) eqn:Et; [done|]. unfold lookup. destruct (slot_search_spec st u Hi) as ([[k|k p]|] & -> & Hr); cbn [obind]; [..|done].
    + intros [= <-]. eapply calm_keyed; [|exact Hk]. apply calm_go. by rewrite Et.
    + destruct Hr as (o & (_ & Ho & _) & _). rewrite (try_spec st p o Ho). cbn [obind]. destruct (0 <? strong o); intros [= <-]; (eapply calm_keyed; [|exact Hk]).
      * eapply calm_trans; [by apply (calm_put st p o (with_strong (strong o + 1) o))|]. apply calm_go. cbn. by rewrite Et.
      * eapply calm_trans; [apply calm_table|]. apply calm_go. cbn. by rewrite Et.
  - destruct (threads st !! t) as [[u|?|?|?|?|?]|] eqn:Et; try done. intros [= <-]. intros q o' Hq Hn Hr. cbn in Hq.
    apply lookup_insert_Some in Hq as [[<- <-]|[_ Hq]]; [done|]. apply (Hk q o' Hq Hn). intros [t' Ht']. apply Hr. exists t'. cbn.
    rewrite lookup_insert_ne; [done|]. intros <-. congruence.
  - destruct (threads st !! t) as [[?|u c|?|?|?|?]|] eqn:Et; try done. destruct (i_threads st Hi t _ Et) as (Huu & oc & Hoc & Hsc & Hzc & Hstc & Hac).
    assert (keyed (go t (Fresh c) (set_table (<[K u := c]> (table st)) (put c (with_key (K u) oc) st)))) as Hclaim.
    { intros q o' Hq Hn Hr. cbn in Hq. apply lookup_insert_Some in Hq as [[<- <-]|[_ Hq]]; [cbn; by rewrite Hsc|].
      apply (Hk q o' Hq Hn). intros [t' Ht']. apply Hr. exists t'. cbn. rewrite lookup_insert_ne; [done|]. intros <-. congruence. }
    unfold publish. pose proof (search_exact st u Hi Hk Huu) as Hs. destruct (table st !! K u) as [p|].
    + destruct Hs as [-> (o & Ho & _)]. cbn [obind]. rewrite (try_spec st p o Ho). cbn [obind]. destruct (Z.ltb_spec 0 (strong o)).
      * cbn [obind objs put]. assert (c <> p) as Hne by (intros ->; assert (o = oc) as -> by congruence; lia). rewrite lookup_insert_ne, Hoc by done.
        cbn [deref obind]. intros [= <-]. eapply calm_keyed; [|exact Hk]. eapply calm_trans; [by apply (calm_put st p o (with_strong (strong o + 1) o))|].
        eapply calm_trans; [apply (calm_put _ c oc (with_phase Dead oc)); [cbn; by rewrite lookup_insert_ne|done|done]|]. apply calm_go. cbn. by rewrite Et.
      * rewrite Hoc. cbn [deref obind]. by intros [= <-].
    + rewrite Hs. cbn [obind]. rewrite Hoc. cbn [deref obind]. by intros [= <-].
  - destruct (threads st !! t) as [[?|? ?|c|p|? ?|?]|] eqn:Et; try done.
    + destruct (objs st !! c) as [o|] eqn:Ho; [|done]. cbn [deref obind]. intros [= <-]. eapply calm_keyed; [|exact Hk].
      eapply calm_trans; [by apply (calm_put st c o (with_strong (strong o + 1) o))|]. apply calm_rest. cbn. by rewrite Et.
    + intros [= <-]. eapply calm_keyed; [|exact Hk]. apply calm_rest. by rewrite Et.
  - destruct (objs st !! p) as [o|] eqn:Ho; [|done]. destruct (_ && _); [|done]. intros [= <-]. eapply calm_keyed; [|exact Hk]. by apply (calm_put st p o).
  - destruct (objs st !! p) as [o|] eqn:Ho; [|done]. destruct (_ <? _); [|done]. intros [= <-]. eapply calm_keyed; [|exact Hk]. by apply (calm_put st p o).
  - destruct (threads st !! t) eqn:Et; [done|]. destruct (objs st !! p) as [o|] eqn:Ho; [|done]. destruct (_ && _); [|done]. intros [= <-].
    destruct (detach_spec st p o Hi Ho) as (_ & _ & Eo & Eth). eapply calm_keyed; [|exact Hk].
    assert (calm st (detach p o st)) as Hc by (unfold detach; destruct (_ =? _); [apply calm_refl|apply calm_erase]).
    eapply calm_trans; [exact Hc|]. eapply calm_trans; [apply (calm_put _ p o (with_strong (strong o + 1) o)); [by rewrite Eo|done|done]|].
    apply calm_go. cbn. rewrite Eth. by rewrite Et.
  - destruct (threads st !! t) as [[?|? ?|?|?|p u|?]|] eqn:Et; try done. destruct (objs st !! p) as [o|] eqn:Ho; [|done]. cbn [deref obind]. intros [= <-].
    intros q o' Hq Hn Hr. cbn in Hq. apply lookup_insert_Some in Hq as [[<- <-]|[_ Hq]].
    + destruct Hr. exists t. cbn. by rewrite lookup_insert_eq.
    + apply (Hk q o' Hq Hn). intros [t' Ht']. apply Hr. exists t'. cbn. rewrite lookup_insert_ne; [done|]. intros <-. congruence.
  - destruct (threads st !! t) as [[?|? ?|?|?|? ?|p]|] eqn:Et; try done. destruct (i_threads st Hi t _ Et) as (o & Ho & Ha).
    unfold attach. rewrite Ho. cbn [deref obind].
    assert (not_self p st) as Hn by (intros k; by apply (i_apart st Hi t (Rewritten p) p k (Et) (Z.eqb_refl p))). rewrite probe_for_probe by done. fold (search (s o) st).
    pose proof (search_exact st (s o) Hi Hk (i_content st Hi p o Ho)) as Hs.
    assert (forall st1, objs st1 = <[p := with_key (K (s o)) o]> (objs st) -> threads st1 = threads st -> keyed (go t (Reused p) st1)) as Hfin.
    { intros st1 E1 E2 q o' Hq Hnz Hr. cbn in Hq. rewrite E1 in Hq. apply lookup_insert_Some in Hq as [[<- <-]|[Hne Hq]]; [done|].
      apply (Hk q o' Hq Hnz). intros [t' Ht']. apply Hr. exists t'. cbn. rewrite E2, lookup_insert_ne; [done|]. intros <-. congruence. }
    destruct (table st !! K (s o)) as [q|]; [destruct Hs as [Hs _]|]; rewrite Hs; cbn [obind option_map]; intros [= <-]; by apply Hfin.
  - destruct (objs st !! p) as [o|] eqn:Ho; [|done]. destruct (phase_of o); try done. intros [= <-].
    destruct (destruct_spec st p o Hi Ho) as (_ & _ & Eo & _). eapply calm_keyed; [|exact Hk].
    assert (calm st (destruct_str p o st)) as Hc by (unfold destruct_str; destruct (_ || _); [apply calm_erase|apply calm_refl]).
    eapply calm_trans; [exact Hc|]. apply (calm_put _ p o (with_phase Torn o)); [by rewrite Eo|done|done].
  - destruct (objs st !! p) as [o|] eqn:Ho; [|done]. destruct (phase_of o); try done. intros [= <-]. eapply calm_keyed; [|exact Hk].
    split; cbn; [|done]. intros q oq [_ Hq]%lookup_delete_Some. by exists oq.
  - case_bool_decide; [|done]. intros [= <-]. eapply calm_keyed; [|exact Hk]. split; cbn; [|done].
    intros q o'. rewrite map_lookup_imap. destruct (objs st !! q) as [o|]; [|done]. cbn. intros [= <-]. exists o. by destruct (_ && _).
Qed.

Lemma reach_keyed st : reach st -> keyed st.
Proof.
  induction 1 as [|st e st' Hr Hk Hu He]; [by intros p o; cbn; rewrite lookup_empty|]. by apply (keyed_exec e st); [apply reach_inv|..].
Qed.
End Distinct.

(** C21. However threads interleave interning, dropping, rewriting, destroying and
    collecting strings, the intern table is safe: no event reads a string that has been
    freed, every entry is an existing string under the key it carries, and, below 2^32
    entries, every probe ends, at a free key or at a string of that content.  While no two
    strings in play have the same key, comparing two strings as the program does, by
    identity, then by key, then by content, is comparing their contents.  The strings in
    play are any set of strings none of which has the key 0 under any salt: 0 is
    the mark of having no key. *)
Theorem interning_sound st : reach st ->
  (forall e, (forall u, brings e u -> U u) -> exists r, exec e st = Ret r) /\
  (forall k p, table st !! k = Some p -> exists o, objs st !! p = Some o /\ internKey o = k /\ phase_of o <> Torn) /\
  (Z.of_nat (size (table st)) < 2 ^ 32 -> forall u, exists r, search u st = Ret (Some r) /\
    match r with Free k => table st !! k = None | Entry k p => table st !! k = Some p /\ option_map s (objs st !! p) = Some u end) /\
  ((forall u v, U u -> U v -> K u = K v -> u = v) -> forall p q a b, objs st !! p = Some a -> objs st !! q = Some b ->
    ~ rewritten p st -> ~ rewritten q st -> objsEqual p q st = Ret (bool_decide (s a = s b))).
Proof.
  intros Hr. pose proof (reach_inv st Hr) as Hi. split; [|split; [|split]].
  - intros e Hu. destruct (exec_good e st Hi Hu) as (x & Hx & _). by exists x.
  - intros k p Hk. destruct (i_table st Hi k p Hk) as (o & Ho & Hik & _ & Hl). exists o. split; [done|]. split; [done|]. by destruct Hl as [->|[-> _]].
  - intros Hn u. destruct (slot_search_spec st u Hi) as ([r|] & E & Hok); [|by destruct (search_ends u st Hn)]. exists r. split; [done|].
    destruct r as [k|k p]; [by destruct Hok|]. destruct Hok as (o & (Hk & Ho & _) & Hs & _). split; [done|]. rewrite Ho. cbn. by rewrite Hs.
  - intros Hd p q a b Ha Hb Hp Hq. pose proof (reach_keyed Hd st Hr) as Hk. unfold objsEqual. destruct (Z.eqb_spec p q) as [->|Hne].
    { assert (a = b) as -> by congruence. by rewrite bool_decide_true. }
    rewrite Ha, Hb. cbn [deref obind]. destruct (Z.eqb_spec (internKey a) 0); [done|]. destruct (Z.eqb_spec (internKey b) 0); [done|].
    destruct (Z.eqb_spec (internKey a) (internKey b)) as [|Hab]; [done|]. cbn [negb andb]. f_equal. symmetry. apply bool_decide_eq_false. intros E.
    apply Hab. rewrite (Hk p a), (Hk q b) by done. by rewrite E.
Qed.
End Interning.

(** ** Reading and writing *)

Lemma nth_charAt (u : ustring) i : 0 <= i < Ustring.length u -> Lists.nth_Z u i = Some (Ustring.charAt u i).
Proof.
  intros Hi. unfold Lists.nth_Z, Ustring.charAt, Ustring.length in *.
  assert ((i <? 0) = false) as -> by (apply Z.ltb_ge; lia). assert ((Z.of_nat (List.length u) <=? i) = false) as -> by (apply Z.leb_gt; lia).
  cbn [orb]. apply nth_lookup_Some_2 || (rewrite nth_lookup; destruct (lookup_lt_is_Some_2 u (Z.to_nat i)) as [x ->]; [lia|done]).
Qed.

(** A range of a string: the units of the progression that it has. *)
Lemma string_slice h r i u cnt : isNumber h i = false -> Ustring.length u < 2 ^ 31 -> regular r (Ustring.length u) -> length_over r (Ustring.length u) = Ret cnt ->
  index h (Some r) i u = Ret (omap (fun k => Lists.nth_Z u (first_over r (Ustring.length u) + k * stride r)) (seqZ 0 cnt)).
Proof.
  intros Hi Hn Hr Hl. assert (0 <= Ustring.length u) as H0 by (unfold Ustring.length; lia). unfold index. rewrite Hi, Hl. cbn [obind].
  assert (Forall (fun k => 0 <= k < cnt) (seqZ 0 cnt)) as Hks by (apply Forall_seqZ; lia).
  induction Hks as [|k ks Hk _ IH]; [done|]. cbn [units]. rewrite (counted_term r (Ustring.length u) cnt k) by done. cbn [obind]. rewrite IH. cbn [obind omap list_omap].
  set (j := first_over r (Ustring.length u) + k * stride r). destruct ((0 <=? j) && (j <? Ustring.length u)) eqn:E.
  - apply andb_true_iff in E as [E1%Z.leb_le E2%Z.ltb_lt]. rewrite nth_charAt by done. done.
  - destruct (Lists.nth_Z u j) eqn:En; [|done]. exfalso. unfold Lists.nth_Z in En. destruct (Z.ltb_spec j 0); [done|].
    apply lookup_lt_Some in En. unfold Ustring.length in E. apply andb_false_iff in E as [E%Z.leb_gt|E%Z.ltb_ge]; lia.
Qed.

(** A string of whole characters written and read back is itself. *)
Lemma string_roundtrip cps rest : Forall (fun cp => Ustring.scalar cp = true) cps -> Z.of_nat (List.length (Ustring.utf8s cps)) < 2 ^ 32 ->
  read (write (Ustring.utf16s cps) ++ rest) = Ret (Ustring.utf16s cps, rest).
Proof.
  intros Hc Hn. unfold write, read. rewrite Ustring.encode_utf16s by done. set (bs := Ustring.utf8s cps) in *. rewrite wrapU_id by (unfold inU; lia).
  rewrite <- app_assoc. rewrite Wire.take_int_app by (split; [lia|exact Hn]). cbn [obind]. rewrite Nat2Z.id. unfold Lists.fill.
  rewrite take_app_length, drop_app_length, length_app. replace (List.length bs - (List.length bs + List.length rest))%nat with 0%nat by lia.
  rewrite app_nil_r. subst bs. by rewrite Ustring.decode_utf8s.
Qed.

(** ** Instances *)

Definition chars (x : String.string) : ustring := map (fun a => Z.of_N (Ascii.N_of_ascii a)) (String.list_ascii_of_string x).

Definition demo_strings (u : ustring) : Prop := u = chars "a" \/ u = chars "b".

Lemma demo_nonzero u a : demo_strings u -> attempt_ok a -> computeInternKey u a <> 0.
Proof. intros Hu Ha. apply key_nonzero; [done|]. by destruct Hu as [-> | ->]; apply (bool_decide_unpack _); vm_compute. Qed.

Lemma demo_distinct u v : demo_strings u -> demo_strings v -> K u = K v -> u = v.
Proof. intros [-> | ->] [-> | ->] E; try done; exfalso; vm_compute in E; discriminate. Qed.

Definition make (t : nat) (u : ustring) : list event := [Intern t u; Allocate t; Publish t; Take t].

Definition final (es : list event) : state := match execs es start_state with Ret (Some st) => st | _ => start_state end.

(** Two strings, one used twice, rewritten under the other's content. *)
Definition demo_events : list event :=
  make 0 (chars "a") ++ make 1 (chars "b") ++ [Intern 0 (chars "a"); Take 0; Update 1 2 (chars "a"); Rewrite 1; Attach 1; Take 1].
Definition demo_state : state := final demo_events.

Lemma demo_reach : reach demo_strings demo_state.
Proof.
  apply (reach_execs demo_strings demo_events start_state); [apply reach_start| |by vm_compute].
  intros e u He Hb. unfold demo_events, make in He. cbn [app] in He. rewrite !elem_of_cons in He.
  destruct_or! He; first [by apply not_elem_of_nil in He|subst e; cbn in Hb; try done; subst u; unfold demo_strings; auto].
Qed.

Lemma interning_sound_witness :
  objsEqual 1 2 demo_state = Ret true /\ exists o, objs demo_state !! 1 = Some o /\ s o = chars "a" /\ internKey o = computeInternKey (chars "a") 0.
Proof.
  destruct (interning_sound demo_strings demo_nonzero demo_state demo_reach) as (_ & Ht & _ & He). split.
  - destruct (objs demo_state !! 1) as [a|] eqn:Ea; [|by vm_compute in Ea]. destruct (objs demo_state !! 2) as [b|] eqn:Eb; [|by vm_compute in Eb].
    rewrite (He demo_distinct 1 2 a b Ea Eb).
    + vm_compute in Ea, Eb. injection Ea as <-. injection Eb as <-. by vm_compute.
    + intros [t Hr]. destruct t as [|[|t]]; by vm_compute in Hr.
    + intros [t Hr]. destruct t as [|[|t]]; by vm_compute in Hr.
  - destruct (Ht (computeInternKey (chars "a") 0) 1) as (o & Ho & Hk & _); [by vm_compute|]. exists o. split; [done|]. split; [|done].
    vm_compute in Ho. injection Ho as <-. by vm_compute.
Defined.

(** ** Where interning fails *)

(** Two strings with the same key. *)
Definition left_string : ustring := chars "tHPVsLqqHPd".
Definition right_string : ustring := chars "HwPh787YERp".

Lemma keys_collide : computeInternKey left_string 0 = computeInternKey right_string 0 /\ left_string <> right_string.
Proof. by vm_compute. Qed.

(** The second is stored under its second key; when the first is destroyed its entry
    goes, the probe for the second stops there, and a second copy is made. *)
Definition split_events : list event :=
  make 0 left_string ++ make 0 right_string ++ [Drop 1; Destroy 1; Release 1] ++ make 0 right_string.

(** Two live strings of one content that the program finds unequal. *)
Lemma equal_strings_differ :
  objsEqual 2 3 (final split_events) = Ret false /\
  option_map s (objs (final split_events) !! 2) = Some right_string /\ option_map s (objs (final split_events) !! 3) = Some right_string.
Proof. by vm_compute. Qed.

(** A string is published before anything refers to it: another thread takes it for
    dying, and makes a second one. *)
Definition newborn_events : list event :=
  [Intern 0 (chars "a"); Allocate 0; Publish 0; Intern 1 (chars "a"); Allocate 1; Publish 1; Take 0; Take 1].

Lemma newborn_duplicated :
  map (fun p => option_map (fun o => (s o, strong o, phase_of o)) (objs (final newborn_events) !! p)) [1; 2] =
    [Some (chars "a", 1, Alive); Some (chars "a", 1, Alive)] /\ threads (final newborn_events) = ∅.
Proof. by vm_compute. Qed.

(** Different strings with the same 32-bit hash. *)
Lemma hashes_collide : Ustring.hashCode (chars "af") = Ustring.hashCode (chars "bA") /\ chars "af" <> chars "bA".
Proof. by vm_compute. Qed.

End StringProofs.
