(* ===== verification/Dicts.v ===== *)
(** * Dicts: dictionaries over an ordered map (ObjDict)

    A dict has its entries in a [std::map] ordered by the language's [less], and its keys
    once more in the order they came.  Clones share the pair, and whichever is written
    first takes a copy.  The map is the list of its entries in order; it is searched from
    the front, which is what the tree does when [less] is a strict weak order on the keys
    (elsewhere what the tree does depends on its shape).

    The contract: a dict is an association list in the order of first insertion. *)

From S2P Require Import Prelude Value DebugInfo Wire Lists Strings.
From stdpp Require Import numbers.

Module Dicts.

Import DebugInfo Wire.
Local Open Scope Z_scope.

Definition entries := list (Z * Z).

Record DictData := mkData { ents : entries; m_keys : list Z }.

Definition no_data : DictData := mkData [] [].

(** ** Comparing keys *)

Definition string_at (st : Strings.state) (w : Z) : option Strings.str := if isObj w then Strings.objs st !! ptrOf w else None.

Definition incomparable : string := "Invalid arguments to less operator".

(** [less(lhs, rhs).asBool()], on numbers and strings. *)
Definition ValueComparitor (h : heap) (st : Strings.state) (l r : Z) : outcome string bool :=
  if isNumber h l && isNumber h r then
    let! w := Lists.of_value (less h l r) in Lists.of_value (asBool h w true)
  else
    match string_at st l, string_at st r with
    | Some a, Some b => Strings.less_str a b
    | _, _ => Throw incomparable
    end.

(** [Value::operator==] *)
Definition key_equals (h : heap) (st : Strings.state) (l r : Z) : outcome string bool :=
  match string_at st l, string_at st r with
  | Some _, Some _ => Strings.objsEqual (ptrOf l) (ptrOf r) st
  | Some _, None => Ret false
  | None, _ => Lists.of_value (equals h l r)
  end.

Section Data.
Context (less : Z -> Z -> outcome string bool).            (* less(l, r).asBool() *)
Context (equals : bool -> Z -> Z -> outcome string bool).

(** ** The ordered map *)

(** The entry of a key that is neither before nor after [k]. *)
Fixpoint find (k : Z) (es : entries) : outcome string (option (Z * Z)) :=
  match es with
  | [] => Ret None
  | e :: es =>
      let! before := less e.1 k in
      if before : bool then find k es
      else let! after := less k e.1 in Ret (if after : bool then None else Some e)
  end.

(** [entries[k] = v] *)
Fixpoint assign (k v : Z) (es : entries) : outcome string entries :=
  match es with
  | [] => Ret [(k, v)]
  | e :: es =>
      let! before := less e.1 k in
      if before : bool then let! es := assign k v es in Ret (e :: es)
      else let! after := less k e.1 in Ret (if after : bool then (k, v) :: e :: es else (e.1, v) :: es)
  end.

(** [erase] of what [find] found. *)
Fixpoint remove (k : Z) (es : entries) : outcome string entries :=
  match es with
  | [] => Ret []
  | e :: es =>
      let! before := less e.1 k in
      if before : bool then let! es := remove k es in Ret (e :: es)
      else let! after := less k e.1 in Ret (if after : bool then e :: es else es)
  end.

Definition at_range : string := "map::at".

(** [entries.at] *)
Definition map_at (k : Z) (es : entries) : outcome string Z :=
  let! e := find k es in match e with Some e => Ret e.2 | None => Throw at_range end.

(** ** A dict's data *)

Definition length (d : DictData) : Z := wrapS 32 (Z.of_nat (List.length (m_keys d))).

Definition contains (k : Z) (d : DictData) : outcome string bool :=
  let! e := find k (ents d) in Ret (match e with Some _ => true | None => false end).

Definition at_ (k : Z) (d : DictData) : outcome string Z :=
  let! e := find k (ents d) in Ret (match e with Some e => e.2 | None => nilVal end).

Definition keys (d : DictData) : list Z := m_keys d.

Fixpoint pairs (ks : list Z) (es : entries) : outcome string entries :=
  match ks with
  | [] => Ret []
  | k :: ks => let! v := map_at k es in let! rest := pairs ks es in Ret ((k, v) :: rest)
  end.

Definition items (d : DictData) : outcome string entries := pairs (m_keys d) (ents d).

(** A page; [size_t] sums wrap. *)
Definition itemsRange (start maxItems : Z) (d : DictData) : outcome string entries :=
  let n := Z.of_nat (List.length (m_keys d)) in
  if n <=? start then Ret []
  else
    let stop := Z.min (wrapU 64 (start + maxItems)) n in
    if stop <? start then Throw "vector::reserve"
    else pairs (take (Z.to_nat (stop - start)) (drop (Z.to_nat start) (m_keys d))) (ents d).

Definition itemsPrefix (maxItems : Z) (d : DictData) : outcome string entries := itemsRange 0 maxItems d.

Definition store_data (k v : Z) (d : DictData) : outcome string DictData :=
  let! e := find k (ents d) in
  let ks := match e with Some _ => m_keys d | None => m_keys d ++ [k] end in
  let! es := assign k v (ents d) in Ret (mkData es ks).

(** [std::remove] of the keys equal to [k]. *)
Fixpoint remove_keys (k : Z) (ks : list Z) : outcome string (list Z) :=
  match ks with
  | [] => Ret []
  | x :: ks => let! e := equals false x k in let! rest := remove_keys k ks in Ret (if e : bool then rest else x :: rest)
  end.

Definition erase_data (k : Z) (d : DictData) : outcome string DictData :=
  let! e := find k (ents d) in
  match e with
  | Some _ => let! es := remove k (ents d) in let! ks := remove_keys k (m_keys d) in Ret (mkData es ks)
  | None => Ret d
  end.

(** [it->second = val], for a key that is there. *)
Definition cache_data (k v : Z) (d : DictData) : outcome string DictData :=
  let! e := find k (ents d) in
  match e with
  | Some _ => let! es := assign k v (ents d) in Ret (mkData es (m_keys d))
  | None => Ret d
  end.

Fixpoint all_found (es other : entries) : outcome string bool :=
  match es with
  | [] => Ret true
  | e :: es =>
      let! f := find e.1 other in
      match f with
      | None => Ret false
      | Some f => let! same := equals false e.2 f.2 in if same : bool then all_found es other else Ret false
      end
  end.

Definition equals_data (a b : DictData) : outcome string bool :=
  if bool_decide (List.length (ents a) = List.length (ents b)) then all_found (ents a) (ents b) else Ret false.

(** ** Serialization *)

Section Serialization.
Context (write_object : Z -> writer) (read_object : Z -> heap -> option context -> list Z -> outcome string (heap * option context * Z * list Z)).

Fixpoint write_pairs (h : heap) (c : option context) (es : entries) : outcome string (option context * list Z) :=
  match es with
  | [] => Ret (c, [])
  | e :: es =>
      let! (c, k) := writeValue write_object h c e.1 in
      let! (c, v) := writeValue write_object h c e.2 in
      let! (c, bs) := write_pairs h c es in Ret (c, k ++ v ++ bs)
  end.

Definition write_data (h : heap) (c : option context) (d : DictData) : outcome string (option context * list Z) :=
  let! es := items d in
  let! (c, bs) := write_pairs h c es in Ret (c, to_bytes 4 (wrapU 32 (Z.of_nat (List.length es))) ++ bs).

(** No test for a key that came before. *)
Fixpoint read_pairs (n : nat) (h : heap) (c : option context) (bs : list Z) (d : DictData) : outcome string (DictData * heap * option context * list Z) :=
  match n with
  | O => Ret (d, h, c, bs)
  | S n =>
      let! (h, c, k, bs) := readValue read_object h c bs in
      let! (h, c, v, bs) := readValue read_object h c bs in
      let! es := assign k v (ents d) in
      read_pairs n h c bs (mkData es (m_keys d ++ [k]))
  end.

Definition read_data (h : heap) (c : option context) (bs : list Z) : outcome string (DictData * heap * option context * list Z) :=
  let! (len, bs) := take_int 4 bs in read_pairs (Z.to_nat len) h c bs no_data.
End Serialization.
End Data.

(** ** Dict objects and their shared data *)

Record dict_obj := mkDict { data_ : Z; token : bool }.

Record store := mkStore { dicts : gmap Z dict_obj; datas : gmap Z DictData; brk : Z }.

Definition get (d : Z) (s : store) : outcome string dict_obj := match dicts s !! d with Some o => Ret o | None => UB end.
Definition data (d : Z) (s : store) : outcome string DictData :=
  let! o := get d s in match datas s !! data_ o with Some x => Ret x | None => UB end.

(** [use_count] of a DictData. *)
Definition use_count (b : Z) (s : store) : nat := base.size (filter (fun e : Z * dict_obj => data_ e.2 = b) (dicts s)).

Definition own (d : Z) (o : dict_obj) (x : DictData) (s : store) : store :=
  mkStore (<[d := mkDict (brk s) (token o)]> (dicts s)) (<[brk s := x]> (datas s)) (brk s + 1).

Definition ensureUnique (d : Z) (s : store) : outcome string store :=
  let! o := get d s in
  if bool_decide (1 < use_count (data_ o) s)%nat then let! x := data d s in Ret (own d o x s) else Ret s.

Definition shallowClone (d : Z) (s : store) : outcome string (store * Z) :=
  let! o := get d s in
  let c := brk s in
  Ret (mkStore (<[c := mkDict (data_ o) false]> (dicts s)) (datas s) (c + 1), c).

Definition ensureMutable (d : Z) (s : store) : outcome string unit :=
  let! o := get d s in if token o then Throw Lists.frozen else Ret tt.

Definition saveVersion (guard : bool) (d : Z) (s : store) : outcome string store :=
  if guard then let! (s, _) := shallowClone d s in Ret s else Ret s.

(** Writing the data in place. *)
Definition update (d : Z) (f : DictData -> outcome string DictData) (s : store) : outcome string store :=
  let! o := get d s in
  let! x := data d s in
  let! x := f x in Ret (mkStore (dicts s) (<[data_ o := x]> (datas s)) (brk s)).

(** How every mutator goes. *)
Definition mutate (guard : bool) (d : Z) (f : DictData -> outcome string DictData) (s : store) : outcome string store :=
  let! _ := ensureMutable d s in
  let! s := saveVersion guard d s in
  let! s := ensureUnique d s in
  update d f s.

Section Operations.
Context (less : Z -> Z -> outcome string bool) (equals : bool -> Z -> Z -> outcome string bool).

Definition store_ (guard : bool) (d k v : Z) : store -> outcome string store := mutate guard d (store_data less k v).
Definition erase (guard : bool) (d k : Z) : store -> outcome string store := mutate guard d (erase_data less equals k).

(** The other's data as it is when it is copied. *)
Definition set (guard : bool) (d other : Z) (s : store) : outcome string store :=
  let! _ := ensureMutable d s in
  let! s := saveVersion guard d s in
  let! s := ensureUnique d s in
  let! x := data other s in update d (fun _ => Ret x) s.

(** Unguarded: filling in a frozen clone. *)
Definition cacheValue (d k v : Z) (s : store) : outcome string store :=
  let! s := ensureUnique d s in update d (cache_data less k v) s.

Definition dict_equals (d other : Z) (s : store) : outcome string bool :=
  if d =? other then Ret true else let! x := data d s in let! y := data other s in equals_data less equals x y.

Definition newDict (s : store) : store * Z :=
  let d := brk s in (mkStore (<[d := mkDict (d + 1) false]> (dicts s)) (<[d + 1 := no_data]> (datas s)) (d + 2), d).

Fixpoint store_each (guard : bool) (d : Z) (es : entries) (s : store) : outcome string store :=
  match es with [] => Ret s | e :: es => let! s := store_ guard d e.1 e.2 s in store_each guard d es s end.

Definition newDict_of (guard : bool) (es : entries) (s : store) : outcome string (store * Z) :=
  let (s, d) := newDict s in let! s := store_each guard d es s in Ret (s, d).

Section Serialization.
Context (write_object : Z -> writer) (read_object : Z -> heap -> option context -> list Z -> outcome string (heap * option context * Z * list Z)).

Definition write (h : heap) (c : option context) (d : Z) (s : store) : outcome string (option context * list Z) :=
  let! x := data d s in write_data less write_object h c x.

Definition read (guard : bool) (d : Z) (h : heap) (c : option context) (bs : list Z) (s : store)
    : outcome string (store * heap * option context * list Z) :=
  let! _ := ensureMutable d s in
  let! s := saveVersion guard d s in
  let! s := ensureUnique d s in
  let! (x, h, c, bs) := read_data less read_object h c bs in
  let! s := update d (fun _ => Ret x) s in Ret (s, h, c, bs).
End Serialization.
End Operations.
End Dicts.
