(* ===== verification/DictProofs.v ===== *)
(** * DictProofs: dictionaries are ordered association lists

    [KeyOrder] is what a dict asks of its keys: [less] a strict weak order, [==] its
    equivalence.  Under it the data of a dict is an association list, [abs], and each
    operation acts on that; [DictProofs] then lifts this through the sharing of data
    between clones.  Keys that are no such order end the file. *)

From S2P Require Import Prelude Value DebugInfo Ustring Wire Lists Strings Dicts.
From stdpp Require Import numbers list.

Module DictProofs.

Import Wire Dicts.
Local Open Scope Z_scope.

(** ** Keys *)

(** Neither before the other. *)
Definition same (ltb : Z -> Z -> bool) (x y : Z) : bool := negb (ltb x y) && negb (ltb y x).

Class KeyOrder (less : Z -> Z -> outcome string bool) (equals : bool -> Z -> Z -> outcome string bool) (P : Z -> Prop) (ltb : Z -> Z -> bool) : Prop := {
  ko_less : forall x y, P x -> P y -> less x y = Ret (ltb x y);
  ko_irrefl : forall x, P x -> ltb x x = false;
  ko_trans : forall x y z, P x -> P y -> P z -> ltb x y = true -> ltb y z = true -> ltb x z = true;
  ko_split : forall x y z, P x -> P y -> P z -> ltb x y = true -> ltb x z = true \/ ltb z y = true;
  ko_equals : forall x y, P x -> P y -> equals false x y = Ret (same ltb x y);
}.

Section Keys.
Context {less : Z -> Z -> outcome string bool} {equals : bool -> Z -> Z -> outcome string bool} {P : Z -> Prop} {ltb : Z -> Z -> bool}.
Context {KO : KeyOrder less equals P ltb}.

Local Notation "x ~ y" := (same ltb x y) (at level 70).

Lemma key_refl x : P x -> x ~ x = true.
Proof. intros Hx. unfold same. by rewrite (ko_irrefl x Hx). Qed.

Lemma same_sym x y : (x ~ y) = (y ~ x).
Proof. apply andb_comm. Qed.

Lemma same_iff x y : x ~ y = true <-> ltb x y = false /\ ltb y x = false.
Proof. unfold same. by rewrite andb_true_iff, !negb_true_iff. Qed.

Lemma key_trans x y z : P x -> P y -> P z -> x ~ y = true -> y ~ z = true -> x ~ z = true.
Proof.
  intros Hx Hy Hz [H1 H2]%same_iff [H3 H4]%same_iff. apply same_iff. split.
  - destruct (ltb x z) eqn:E; [|done]. destruct (ko_split x z y Hx Hz Hy E); congruence.
  - destruct (ltb z x) eqn:E; [|done]. destruct (ko_split z x y Hz Hx Hy E); congruence.
Qed.

Lemma same_cong x y z : P x -> P y -> P z -> x ~ y = true -> (x ~ z) = (y ~ z).
Proof.
  intros Hx Hy Hz H. destruct (y ~ z) eqn:E; [by apply (key_trans x y)|]. destruct (x ~ z) eqn:E'; [|done].
  rewrite <- E. symmetry. apply (key_trans y x); try done. by rewrite same_sym.
Qed.

Lemma lt_not_same x y : ltb x y = true -> x ~ y = false.
Proof. intros H. unfold same. by rewrite H. Qed.

Lemma lt_not_same' x y : ltb x y = true -> y ~ x = false.
Proof. intros H. rewrite same_sym. by apply lt_not_same. Qed.

(** Equivalent keys are before the same keys. *)
Lemma lt_same x y z : P x -> P y -> P z -> ltb x y = true -> x ~ z = true -> ltb z y = true.
Proof. intros Hx Hy Hz H [H1 H2]%same_iff. destruct (ko_split x y z Hx Hy Hz H); congruence. Qed.

(** ** Association lists *)

Definition a_entry (k : Z) (al : entries) : option (Z * Z) := List.find (fun e => k ~ e.1) al.
Definition a_find (k : Z) (al : entries) : option Z := option_map snd (a_entry k al).

Definition a_store (k v : Z) (al : entries) : entries :=
  match a_entry k al with
  | Some _ => map (fun e => if k ~ e.1 then (e.1, v) else e) al
  | None => al ++ [(k, v)]
  end.

Definition a_erase (k : Z) (al : entries) : entries := List.filter (fun e => negb (k ~ e.1)) al.

Definition a_equal (veq : Z -> Z -> bool) (al bl : entries) : bool :=
  bool_decide (List.length al = List.length bl) &&
  forallb (fun e => match a_find e.1 bl with Some w => veq e.2 w | None => false end) al.

(** In order, before [b]. *)
Definition sorted (es : entries) : Prop := StronglySorted (fun a b => ltb a.1 b.1 = true) es.
Definition keyed (es : entries) : Prop := Forall (fun e => P e.1) es.

Lemma sorted_cons e es : sorted (e :: es) <-> sorted es /\ Forall (fun b => ltb e.1 b.1 = true) es.
Proof. split; [by intros [H1 H2]%StronglySorted_inv|intros [H1 H2]; by constructor]. Qed.

(** None of the entries after a key that is before them all is the same. *)
Lemma none_after k (es : entries) : Forall (fun b => ltb k b.1 = true) es -> a_entry k es = None.
Proof.
  induction 1 as [|e es He _ IH]; [done|]. unfold a_entry in *. cbn [List.find]. by rewrite (lt_not_same k e.1 He).
Qed.

Lemma all_after k (e : Z * Z) (es : entries) : P k -> P e.1 -> keyed es -> (ltb k e.1 = true \/ k ~ e.1 = true) -> Forall (fun b => ltb e.1 b.1 = true) es -> Forall (fun b => ltb k b.1 = true) es.
Proof.
  intros Hk He Hes Hle H. apply Forall_forall. intros b Hb. pose proof (proj1 (Forall_forall _ _) H b Hb) as Hlt. cbn in Hlt.
  pose proof (proj1 (Forall_forall _ _) Hes b Hb) as Hbp. cbn in Hbp. destruct Hle as [Hl|Hs].
  - by apply (ko_trans k e.1 b.1).
  - apply (lt_same e.1 b.1 k); try done. by rewrite same_sym.
Qed.

Lemma find_spec k es : P k -> keyed es -> sorted es -> find less k es = Ret (a_entry k es).
Proof.
  intros Hk. induction es as [|e es IH]; intros Hp Hs; [done|]. apply Forall_cons in Hp as [He Hp]. apply sorted_cons in Hs as [Hs Ha].
  cbn [find]. rewrite (ko_less e.1 k He Hk). cbn [obind]. unfold a_entry. cbn [List.find]. destruct (ltb e.1 k) eqn:E1.
  - rewrite (lt_not_same' e.1 k E1). by apply IH.
  - rewrite (ko_less k e.1 Hk He). cbn [obind]. destruct (ltb k e.1) eqn:E2.
    + rewrite (lt_not_same k e.1 E2). fold (a_entry k es). rewrite (none_after k es); [done|]. apply (all_after k e); auto.
    + assert (k ~ e.1 = true) as -> by by apply same_iff. done.
Qed.

Lemma assign_Forall (Q : Z -> Prop) k v es es' : assign less k v es = Ret es' -> Q k -> Forall (fun e => Q e.1) es -> Forall (fun e => Q e.1) es'.
Proof.
  revert es'. induction es as [|e es IH]; intros es'; cbn [assign]; [intros [= <-] Hk _; by repeat constructor|].
  intros H Hk [He Hes]%Forall_cons. destruct (less e.1 k) as [[]| |]; cbn [obind] in H; try done.
  - destruct (assign less k v es) as [es1| |]; cbn [obind] in H; try done. injection H as <-. constructor; [done|]. by apply IH.
  - destruct (less k e.1) as [[]| |]; cbn [obind] in H; try done; injection H as <-; by repeat constructor.
Qed.

Lemma map_assign_spec k v es : P k -> keyed es -> sorted es -> exists es', assign less k v es = Ret es' /\ keyed es' /\ sorted es' /\
  (forall j, P j -> a_find j es' = if j ~ k then Some v else a_find j es) /\
  (match a_entry k es with Some _ => map fst es' = map fst es | None => Permutation (map fst es') (k :: map fst es) end).
Proof.
  intros Hk. induction es as [|e es IH]; intros Hp Hs.
  - exists [(k, v)]. split; [done|]. split; [by apply Forall_singleton|]. split; [apply sorted_cons; split; constructor|]. split; [|cbn; reflexivity].
    intros j Hj. unfold a_find, a_entry. cbn. by destruct (j ~ k).
  - apply Forall_cons in Hp as [He Hp]. apply sorted_cons in Hs as [Hs Ha]. cbn [assign]. rewrite (ko_less e.1 k He Hk). cbn [obind].
    unfold a_entry at 1. cbn [List.find]. destruct (ltb e.1 k) eqn:E1.
    + destruct (IH Hp Hs) as (es' & E & Hp' & Hs' & Hf & Hks). rewrite E. cbn [obind]. exists (e :: es'). split; [done|].
      split; [by constructor|]. split; [apply sorted_cons; split; [done|]; by apply (assign_Forall (fun x => ltb e.1 x = true) k v es)|].
      rewrite (lt_not_same' e.1 k E1). fold (a_entry k es). split.
      * intros j Hj. unfold a_find, a_entry. cbn [List.find]. destruct (j ~ e.1) eqn:Ej; [|by apply Hf].
        assert (j ~ k = false) as ->; [|done]. rewrite (same_cong j e.1 k) by done. by apply lt_not_same.
      * destruct (a_entry k es); cbn [map]; [by f_equal|]. etrans; [by constructor|]. constructor.
    + rewrite (ko_less k e.1 Hk He). cbn [obind]. destruct (ltb k e.1) eqn:E2.
      * exists ((k, v) :: e :: es). split; [done|]. split; [by repeat constructor|]. split.
        { apply sorted_cons. split; [by apply sorted_cons|]. constructor; [done|]. apply (all_after k e); auto. }
        split; [intros j Hj; unfold a_find, a_entry; cbn [List.find]; cbn [fst]; by destruct (j ~ k)|].
        rewrite (lt_not_same k e.1 E2). fold (a_entry k es). rewrite (none_after k es); [cbn; reflexivity|]. apply (all_after k e); auto.
      * assert (k ~ e.1 = true) as Ek by by apply same_iff. rewrite Ek. exists ((e.1, v) :: es). split; [done|]. split; [by constructor|].
        split; [by apply sorted_cons|]. split; [|done]. intros j Hj. unfold a_find, a_entry. cbn [List.find fst].
        assert ((j ~ e.1) = (j ~ k)) as ->. { rewrite (same_sym j e.1), (same_sym j k). symmetry. by apply same_cong. }
        by destruct (j ~ k).
Qed.

Lemma none_filter k (es : entries) : a_entry k es = None -> List.filter (fun x => negb (k ~ x)) (map fst es) = map fst es.
Proof.
  induction es as [|e es IH]; [done|]. unfold a_entry. cbn [List.find map List.filter]. destruct (k ~ e.1); [done|]. intros H. cbn [negb]. f_equal. by apply IH.
Qed.

Lemma remove_spec k es : P k -> keyed es -> sorted es -> exists es', remove less k es = Ret es' /\ keyed es' /\ sorted es' /\
  (forall j, P j -> a_find j es' = if j ~ k then None else a_find j es) /\
  map fst es' = List.filter (fun x => negb (k ~ x)) (map fst es) /\ (forall Q : Z * Z -> Prop, Forall Q es -> Forall Q es').
Proof.
  intros Hk. induction es as [|e es IH]; intros Hp Hs.
  - exists []. split_and!; try done. intros j Hj. by destruct (j ~ k).
  - apply Forall_cons in Hp as [He Hp]. apply sorted_cons in Hs as [Hs Ha]. cbn [remove]. rewrite (ko_less e.1 k He Hk). cbn [obind map List.filter].
    destruct (ltb e.1 k) eqn:E1.
    + destruct (IH Hp Hs) as (es' & E & Hp' & Hs' & Hf & Hks & HQ). rewrite E. cbn [obind]. exists (e :: es'). split; [done|].
      split; [by constructor|]. split; [apply sorted_cons; split; [done|by apply HQ]|].
      rewrite (lt_not_same' e.1 k E1). cbn [negb map]. split; [|split; [by rewrite Hks|intros Q [H1 H2]%Forall_cons; constructor; auto]].
      intros j Hj. unfold a_find, a_entry. cbn [List.find]. destruct (j ~ e.1) eqn:Ej; [|by apply Hf].
      assert (j ~ k = false) as ->; [|done]. rewrite (same_cong j e.1 k) by done. by apply lt_not_same.
    + rewrite (ko_less k e.1 Hk He). cbn [obind]. assert (a_entry k es = None) as Hn.
      { apply none_after, (all_after k e); auto. destruct (ltb k e.1) eqn:E2; [by left|right; by apply same_iff]. }
      destruct (ltb k e.1) eqn:E2.
      * exists (e :: es). rewrite (lt_not_same k e.1 E2), (none_filter k es Hn). split_and!; try done; [by constructor|by apply sorted_cons|].
        intros j Hj. destruct (j ~ k) eqn:Ej; [|done]. unfold a_find. rewrite none_after; [done|]. constructor.
        { apply (lt_same k e.1 j); auto. by rewrite same_sym. }
        apply (all_after j e); auto. left. apply (lt_same k e.1 j); auto. by rewrite same_sym.
      * assert (k ~ e.1 = true) as Ek by by apply same_iff. rewrite Ek, (none_filter k es Hn). exists es. split_and!; try done; [|by intros Q [_ HQ]%Forall_cons].
        intros j Hj. unfold a_find, a_entry. cbn [List.find]. assert ((j ~ e.1) = (j ~ k)) as ->.
        { rewrite (same_sym j e.1), (same_sym j k). symmetry. by apply same_cong. }
        destruct (j ~ k) eqn:Ej; [|done]. fold (a_entry j es). rewrite none_after; [done|]. apply (all_after j e); auto. right.
        rewrite (same_cong j k e.1) by done. done.
Qed.

(** ** A dict's data *)

(** No two keys the same. *)
Definition apart (ks : list Z) : Prop := ForallOrdPairs (fun x y => x ~ y = false) ks.

Lemma apart_perm ks ks' : Permutation ks ks' -> apart ks -> apart ks'.
Proof.
  induction 1 as [|x ks ks' Hp IH|x y ks|]; [done| | |auto].
  - intros H. inversion H as [|? ? H1 H2]; subst. constructor; [|by apply IH]. by rewrite <- Hp.
  - intros H. inversion H as [|? ? H1 H2]; subst. inversion H2 as [|? ? H3 H4]; subst. apply Forall_cons in H1 as [H0 H1].
    constructor; [constructor; [by rewrite same_sym|done]|]. by constructor.
Qed.

Lemma sorted_apart es : sorted es -> apart (map fst es).
Proof.
  induction es as [|e es IH]; [constructor|]. intros [Hs Ha]%sorted_cons. cbn. constructor; [|by apply IH]. apply Forall_fmap.
  eapply Forall_impl; [exact Ha|]. intros b. apply lt_not_same.
Qed.

Record wf (d : DictData) : Prop := {
  wf_keyed : keyed (ents d);
  wf_sorted : sorted (ents d);
  wf_keys : Permutation (map fst (ents d)) (m_keys d);
}.

(** The dict as it is seen: its keys in order, each with its value. *)
Definition abs (d : DictData) : entries := map (fun k => (k, default nilVal (a_find k (ents d)))) (m_keys d).

Lemma wf_empty : wf no_data.
Proof. split; [constructor|constructor|done]. Qed.

Lemma keys_P d : wf d -> Forall P (m_keys d).
Proof. intros [Hk _ Hp]. rewrite <- Hp. by apply Forall_fmap. Qed.

Lemma keys_apart d : wf d -> apart (m_keys d).
Proof. intros [_ Hs Hp]. eapply apart_perm; [exact Hp|]. by apply sorted_apart. Qed.

Lemma a_entry_some k (al : entries) : is_Some (a_entry k al) <-> exists x, x ∈ map fst al /\ k ~ x = true.
Proof.
  unfold a_entry. split.
  - intros [e He]. apply List.find_some in He as [Hin Hs]. exists e.1. split; [|done]. apply list_elem_of_fmap. exists e. split; [done|]. by apply list_elem_of_In.
  - intros (x & (e & -> & Hin)%list_elem_of_fmap & Hs). destruct (List.find _ al) as [f|] eqn:E; [by eexists|].
    apply list_elem_of_In in Hin. by rewrite (List.find_none _ _ E e Hin) in Hs.
Qed.

Lemma a_entry_perm k (al bl : entries) : Permutation (map fst al) (map fst bl) -> is_Some (a_entry k al) <-> is_Some (a_entry k bl).
Proof. intros Hp. rewrite !a_entry_some. setoid_rewrite Hp. done. Qed.

Lemma a_find_entry k al : is_Some (a_find k al) <-> is_Some (a_entry k al).
Proof. unfold a_find. destruct (a_entry k al); cbn; split; intros []; by eauto. Qed.

Lemma abs_keys d : map fst (abs d) = m_keys d.
Proof. unfold abs. rewrite map_map. cbn. apply map_id. Qed.

Lemma key_found d k : wf d -> k ∈ m_keys d -> is_Some (a_find k (ents d)).
Proof.
  intros Hw Hk. apply a_find_entry, a_entry_some. exists k. split; [by rewrite (wf_keys d Hw)|]. apply key_refl.
  pose proof (keys_P d Hw) as HP. rewrite Forall_forall in HP. by apply HP.
Qed.

Lemma a_find_same k j al : P k -> P j -> keyed al -> k ~ j = true -> a_find k al = a_find j al.
Proof.
  intros Hk Hj. induction al as [|e al IH]; [done|]. intros [He Hal]%Forall_cons Hs. unfold a_find, a_entry. cbn [List.find].
  rewrite (same_cong k j e.1) by done. destruct (j ~ e.1); [done|]. by apply IH.
Qed.

Lemma abs_find d k : wf d -> P k -> a_find k (abs d) = a_find k (ents d).
Proof.
  intros Hw Hk. assert (forall ks, Forall P ks -> (forall x, x ∈ ks -> x ∈ m_keys d) ->
    a_find k (map (fun x => (x, default nilVal (a_find x (ents d)))) ks) = if existsb (fun x => k ~ x) ks then a_find k (ents d) else None) as H.
  { induction ks as [|x ks IH]; intros HP Hin; [done|]. apply Forall_cons in HP as [Hx HP]. unfold a_find at 1, a_entry. cbn [map List.find existsb fst].
    destruct (k ~ x) eqn:E; cbn [orb option_map snd].
    - destruct (key_found d x Hw) as [v Hv]; [apply Hin; by left|]. rewrite Hv. cbn. rewrite (a_find_same k x) by (done || apply Hw). done.
    - apply IH; [done|]. intros y Hy. apply Hin. by right. }
  unfold abs. rewrite H; [|by apply keys_P|done]. destruct (existsb _ (m_keys d)) eqn:E; [done|].
  destruct (a_find k (ents d)) as [v|] eqn:Ef; [|done]. exfalso. assert (is_Some (a_find k (ents d))) as Hf by by exists v.
  apply a_find_entry, a_entry_some in Hf as (x & Hx & Hs). rewrite (wf_keys d Hw) in Hx. apply list_elem_of_In in Hx.
  rewrite <- not_true_iff_false, existsb_exists in E. apply E. by exists x.
Qed.

Lemma abs_entry d k : wf d -> is_Some (a_entry k (abs d)) <-> is_Some (a_entry k (ents d)).
Proof. intros Hw. apply a_entry_perm. rewrite abs_keys. symmetry. apply Hw. Qed.

(** *** Reading *)

Lemma map_at_found k d : wf d -> P k -> map_at less k (ents d) = match a_find k (ents d) with Some v => Ret v | None => Throw at_range end.
Proof.
  intros [Hk Hs _] HP. unfold map_at. rewrite (find_spec k (ents d) HP Hk Hs). cbn [obind]. unfold a_find. by destruct (a_entry k (ents d)).
Qed.

Lemma pairs_spec d ks : wf d -> (forall x, x ∈ ks -> x ∈ m_keys d) -> pairs less ks (ents d) = Ret (map (fun k => (k, default nilVal (a_find k (ents d)))) ks).
Proof.
  intros Hw. pose proof (keys_P d Hw) as HP. rewrite Forall_forall in HP. induction ks as [|k ks IH]; intros Hin; [done|]. cbn [pairs map].
  assert (k ∈ m_keys d) as Hk by (apply Hin; by left). rewrite map_at_found by auto. destruct (key_found d k Hw Hk) as [v Hv]. rewrite Hv. cbn [obind].
  rewrite IH by (intros x Hx; apply Hin; by right). done.
Qed.

Lemma items_spec d : wf d -> items less d = Ret (abs d).
Proof. intros Hw. by apply pairs_spec. Qed.

Lemma itemsRange_spec d start n : wf d -> 0 <= start -> 0 <= n -> start + n < 2 ^ 64 ->
  itemsRange less start n d = Ret (take (Z.to_nat n) (drop (Z.to_nat start) (abs d))).
Proof.
  intros Hw Hs Hn Hb. unfold itemsRange. set (len := Z.of_nat _). assert (Z.of_nat (List.length (abs d)) = len) as El by (unfold abs; by rewrite length_map).
  destruct (Z.leb_spec len start); [rewrite drop_ge by lia; by rewrite take_nil|]. rewrite wrapU_id by (unfold inU; lia).
  destruct (Z.ltb_spec (Z.min (start + n) len) start); [lia|]. rewrite pairs_spec; [|done|intros x (i & Hx & _)%elem_of_take; rewrite lookup_drop in Hx; by eapply list_elem_of_lookup_2].
  f_equal. unfold abs. rewrite <- firstn_map, <- skipn_map. destruct (Z.min_spec (start + n) len) as [[_ ->]|[Hle ->]]; [f_equal; lia|].
  rewrite !take_ge; [done|rewrite length_drop, length_map; lia|rewrite length_drop, length_map; lia].
Qed.

(** *** Writing *)

Lemma store_spec k v d : wf d -> P k -> exists d', store_data less k v d = Ret d' /\ wf d' /\ abs d' = a_store k v (abs d).
Proof.
  intros Hw HP. pose proof Hw as [Hk Hs Hp]. unfold store_data. rewrite (find_spec k (ents d) HP Hk Hs). cbn [obind].
  destruct (map_assign_spec k v (ents d) HP Hk Hs) as (es' & -> & Hk' & Hs' & Hf & Hks). cbn [obind]. eexists. split; [done|].
  pose proof (keys_P d Hw) as HPs. pose proof (abs_entry d k Hw) as Ha. unfold a_store. destruct (a_entry k (ents d)) as [e|] eqn:Ee.
  - destruct (a_entry k (abs d)) as [e'|]; [|by destruct (proj2 Ha ltac:(by eexists)) as [? [=]]].
    split; [split; cbn; [done|done|by rewrite Hks]|]. unfold abs. cbn [ents m_keys]. rewrite map_map. apply map_ext_in. intros x Hx.
    rewrite Forall_forall in HPs. assert (P x) as Hx' by by apply HPs, list_elem_of_In. cbn. rewrite (same_sym k x), (Hf x Hx'). by destruct (x ~ k).
  - destruct (a_entry k (abs d)) as [e'|]; [by destruct (proj1 Ha ltac:(by eexists)) as [? [=]]|].
    split; [split; cbn; [done|done|rewrite Hks, Hp; apply Permutation_cons_append]|]. unfold abs. cbn [ents m_keys]. rewrite map_app. f_equal.
    + apply map_ext_in. intros x Hx. rewrite Forall_forall in HPs. assert (P x) as Hx' by by apply HPs, list_elem_of_In. rewrite (Hf x Hx').
      destruct (x ~ k) eqn:E; [|done]. exfalso. assert (is_Some (a_entry k (ents d))) as [? H]; [|congruence]. apply a_entry_some.
      exists x. rewrite Hp, same_sym. split; [by apply list_elem_of_In|done].
    + cbn. by rewrite (Hf k HP), (key_refl k HP).
Qed.

Lemma remove_keys_spec k ks : P k -> Forall P ks -> remove_keys equals k ks = Ret (List.filter (fun x => negb (k ~ x)) ks).
Proof.
  intros Hk. induction 1 as [|x ks Hx _ IH]; [done|]. cbn. rewrite (ko_equals x k Hx Hk). cbn [obind]. rewrite IH. cbn [obind]. rewrite (same_sym k x). by destruct (x ~ k).
Qed.

Lemma filter_perm (f : Z -> bool) l l' : Permutation l l' -> Permutation (List.filter f l) (List.filter f l').
Proof.
  induction 1 as [|x l l' _ IH|x y l|]; cbn; [done| | |by etrans].
  - destruct (f x); [by constructor|done].
  - destruct (f x), (f y); try done. apply perm_swap.
Qed.

Lemma filter_map_fst (f : Z -> bool) (g : Z -> Z) ks : List.filter (fun e : Z * Z => f e.1) (map (fun k => (k, g k)) ks) = map (fun k => (k, g k)) (List.filter f ks).
Proof. induction ks as [|k ks IH]; [done|]. cbn. rewrite IH. by destruct (f k). Qed.

Lemma erase_spec k d : wf d -> P k -> exists d', erase_data less equals k d = Ret d' /\ wf d' /\ abs d' = a_erase k (abs d).
Proof.
  intros Hw HP. pose proof Hw as [Hk Hs Hp]. unfold erase_data. rewrite (find_spec k (ents d) HP Hk Hs). cbn [obind].
  pose proof (keys_P d Hw) as HPs. destruct (a_entry k (ents d)) as [e|] eqn:Ee.
  - destruct (remove_spec k (ents d) HP Hk Hs) as (es' & -> & Hk' & Hs' & Hf & Hks & _). cbn [obind]. rewrite remove_keys_spec by done. cbn [obind].
    eexists. split; [done|]. split; [split; cbn; [done|done|rewrite Hks; by apply filter_perm]|].
    unfold abs, a_erase. cbn [ents m_keys]. rewrite (filter_map_fst (fun x => negb (k ~ x)) (fun x => default nilVal (a_find x (ents d)))). apply map_ext_in. intros x [Hx Hn]%filter_In.
    rewrite Forall_forall in HPs. assert (P x) as Hx' by by apply HPs, list_elem_of_In. rewrite (Hf x Hx'), (same_sym x k). by destruct (k ~ x).
  - exists d. split; [done|]. split; [done|]. unfold a_erase. symmetry. assert (a_entry k (abs d) = None) as Hn.
    { pose proof (abs_entry d k Hw) as Ha. destruct (a_entry k (abs d)); [|done]. destruct (proj1 Ha ltac:(by eexists)) as [? E]. congruence. }
    clear - Hn. induction (abs d) as [|e al IH]; [done|]. unfold a_entry in Hn. cbn [List.find List.filter] in *. destruct (k ~ e.1); [done|]. cbn [negb]. f_equal. by apply IH.
Qed.

Lemma cache_spec k v d : wf d -> P k -> exists d', cache_data less k v d = Ret d' /\ wf d' /\
  abs d' = match a_entry k (abs d) with Some _ => a_store k v (abs d) | None => abs d end.
Proof.
  intros Hw HP. pose proof Hw as [Hk Hs Hp]. pose proof (store_spec k v d Hw HP) as Hst. unfold store_data, cache_data in *.
  rewrite (find_spec k (ents d) HP Hk Hs) in *. cbn [obind] in *. pose proof (abs_entry d k Hw) as Ha. destruct (a_entry k (ents d)) as [e|] eqn:Ee.
  - destruct (a_entry k (abs d)); [done|]. by destruct (proj2 Ha ltac:(by eexists)) as [? [=]].
  - exists d. destruct (a_entry k (abs d)); [|done]. by destruct (proj1 Ha ltac:(by eexists)) as [? [=]].
Qed.

(** *** Equality *)

Lemma self_found es : keyed es -> sorted es -> map (fun k => (k, default nilVal (a_find k es))) (map fst es) = es.
Proof.
  intros Hk Hs. assert (forall es', keyed es' -> sorted es' -> (forall e, e ∈ es' -> a_find e.1 es = Some e.2) ->
    map (fun k => (k, default nilVal (a_find k es))) (map fst es') = es') as H.
  { induction es' as [|[k v] es' IH]; intros H1 H2 H3; [done|]. apply Forall_cons in H1 as [H1 H1']. apply sorted_cons in H2 as [H2 _]. cbn.
    pose proof (H3 (k, v) ltac:(by left)) as Hf. cbn in Hf. rewrite Hf. cbn. f_equal. apply IH; [done|done|]. intros e He. apply H3. by right. }
  apply H; [done|done|]. clear H. induction es as [|e es IH]; intros f Hf; [by apply not_elem_of_nil in Hf|].
  apply Forall_cons in Hk as [He Hk]. apply sorted_cons in Hs as [Hs Ha]. unfold a_find, a_entry. cbn [List.find].
  apply elem_of_cons in Hf as [->|Hf]; [by rewrite key_refl|]. rewrite Forall_forall in Ha. rewrite (lt_not_same' e.1 f.1) by (by apply Ha).
  by apply IH.
Qed.

Lemma abs_perm d : wf d -> Permutation (ents d) (abs d).
Proof.
  intros [Hk Hs Hp]. unfold abs. rewrite <- Hp. by rewrite self_found.
Qed.

Lemma forallb_perm {A} (f : A -> bool) l l' : Permutation l l' -> forallb f l = forallb f l'.
Proof. induction 1 as [|x l l' _ IH|x y l|l1 l2 l3 _ IH1 _ IH2]; cbn; [done|by rewrite IH|by destruct (f x), (f y)|congruence]. Qed.

Lemma equals_spec veq a b : wf a -> wf b ->
  (forall v w, v ∈ map snd (ents a) -> w ∈ map snd (ents b) -> equals false v w = Ret (veq v w)) ->
  equals_data less equals a b = Ret (a_equal veq (abs a) (abs b)).
Proof.
  intros Ha Hb Hv. unfold equals_data, a_equal. assert (List.length (ents a) = List.length (abs a)) as La by (apply Permutation_length; by apply abs_perm).
  assert (List.length (ents b) = List.length (abs b)) as Lb by (apply Permutation_length; by apply abs_perm). rewrite <- La, <- Lb.
  case_bool_decide as Hlen; [|done]. clear La Lb Hlen. cbn [andb]. rewrite <- (@forallb_perm (Z * Z) _ _ _ (abs_perm a Ha)). destruct Ha as [Hk _ _].
  induction (ents a) as [|e es IH]; [done|]. apply Forall_cons in Hk as [He Hk]. cbn [all_found forallb]. pose proof Hb as [Hbk Hbs _].
  rewrite (find_spec e.1 (ents b) He Hbk Hbs). cbn [obind]. rewrite (abs_find b e.1 Hb He). unfold a_find. destruct (a_entry e.1 (ents b)) as [f|] eqn:Ef; [|done].
  cbn [option_map]. rewrite Hv; [|by left|].
  - cbn [obind]. destruct (veq e.2 f.2); [|done]. cbn [andb]. apply IH; [done|intros v w Hin; apply Hv; by right].
  - apply List.find_some in Ef as [Ef _]. apply list_elem_of_fmap. exists f. split; [done|]. by apply list_elem_of_In.
Qed.

(** *** Serialization *)

Section Serialization.
Context (wo : Z -> writer) (ro : Z -> heap -> option context -> list Z -> outcome string (heap * option context * Z * list Z)).

(** Keys and values that are not objects. *)
Definition plain (w : Z) : Prop := exists s, scalar_ok s /\ (forall p, s <> SObj p) /\ w = encode s.

Lemma plain_roundtrip w h c : plain w -> exists bs, writeValue wo h c w = Ret (c, bs) /\ forall h' c' rest, readValue ro h' c' (bs ++ rest) = Ret (h', c', w, rest).
Proof. intros (s & Hs & Hn & ->). by apply inline_roundtrip. Qed.

Lemma pairs_written h c al : Forall (fun e => P e.1 /\ plain e.1 /\ plain e.2) al -> exists bs, write_pairs wo h c al = Ret (c, bs) /\
  forall h' c' d rest, wf d -> apart (map fst (abs d ++ al)) ->
  exists d', read_pairs less ro (List.length al) h' c' (bs ++ rest) d = Ret (d', h', c', rest) /\ wf d' /\ abs d' = abs d ++ al.
Proof.
  induction 1 as [|[k v] al (HP & H1 & H2) _ (bs & Hbs & IH)].
  { exists []. split; [done|]. intros h' c' d rest Hw _. exists d. by rewrite app_nil_r. }
  cbn [fst snd] in *. destruct (plain_roundtrip k h c H1) as (bk & Ek & Rk), (plain_roundtrip v h c H2) as (bv & Ev & Rv).
  cbn [write_pairs fst snd]. rewrite Ek. cbn [obind]. rewrite Ev. cbn [obind]. rewrite Hbs. eexists. split; [done|]. intros h' c' d rest Hw Hap.
  cbn [read_pairs List.length]. rewrite <- !app_assoc, Rk. cbn [obind]. rewrite Rv. cbn [obind].
  assert (a_entry k (abs d) = None) as Hn.
  { destruct (a_entry k (abs d)) as [e|] eqn:E; [|done]. exfalso. assert (is_Some (a_entry k (abs d))) as Hs by by exists e.
    apply a_entry_some in Hs as (x & Hx & Hs). rewrite map_app in Hap. clear - Hap Hx Hs. induction (map fst (abs d)) as [|y ks IH]; [by apply not_elem_of_nil in Hx|].
    inversion Hap as [|? ? Hy Hap']; subst. apply elem_of_cons in Hx as [->|Hx]; [|by apply IH].
    apply Forall_app in Hy as [_ Hy]. apply Forall_cons in Hy as [Hy _]. cbn in Hy. rewrite same_sym in Hy. congruence. }
  destruct (store_spec k v d Hw HP) as (d1 & Hd1 & Hw1 & Ha1). unfold store_data, a_store in *. pose proof Hw as [Hk Hs _].
  rewrite (find_spec k (ents d) HP Hk Hs) in Hd1. cbn [obind] in Hd1. pose proof (abs_entry d k Hw) as Ha. rewrite Hn in *.
  destruct (a_entry k (ents d)); [by destruct (proj2 Ha ltac:(by eexists)) as [? [=]]|].
  destruct (assign less k v (ents d)) as [es| |]; cbn [obind] in *; try done. injection Hd1 as <-.
  destruct (IH h' c' (mkData es (m_keys d ++ [k])) rest Hw1) as (d' & E & Hw' & Ha'); [rewrite Ha1, <- app_assoc; exact Hap|].
  exists d'. split; [exact E|]. split; [done|]. by rewrite Ha', Ha1, <- app_assoc.
Qed.

Lemma dict_roundtrip h c d : wf d -> Forall (fun e => plain e.1 /\ plain e.2) (abs d) -> Z.of_nat (List.length (abs d)) < 2 ^ 32 ->
  exists bs, write_data less wo h c d = Ret (c, bs) /\
    forall h' c' rest, exists d', read_data less ro h' c' (bs ++ rest) = Ret (d', h', c', rest) /\ wf d' /\ abs d' = abs d.
Proof.
  intros Hw Hp Hn. unfold write_data, read_data. rewrite items_spec by done. cbn [obind]. pose proof (keys_P d Hw) as HP.
  destruct (pairs_written h c (abs d)) as (bs & -> & Hr).
  { rewrite !Forall_forall in *. intros e He. split; [|by apply Hp]. apply HP. rewrite <- abs_keys. apply list_elem_of_fmap. by exists e. }
  eexists. split; [done|]. intros h' c' rest. destruct (Hr h' c' no_data rest) as (d' & E & Hw' & Ha').
  { apply wf_empty. }
  { cbn. rewrite abs_keys. by apply keys_apart. }
  exists d'. split; [|done]. rewrite <- app_assoc, wrapU_id by (unfold inU; lia). rewrite take_int_app by (split; [lia|exact Hn]). cbn [obind].
  by rewrite Nat2Z.id.
Qed.
End Serialization.

(** ** Dicts and their clones *)

Definition holds (s : store) (d : Z) (x : DictData) : Prop := exists o, dicts s !! d = Some o /\ datas s !! data_ o = Some x /\ wf x.

(** What a dict holds, as it is seen. *)
Definition contents (s : store) (d : Z) (al : entries) : Prop := exists x, holds s d x /\ abs x = al.

Definition store_wf (s : store) : Prop :=
  forall d o, dicts s !! d = Some o -> d < brk s /\ data_ o < brk s /\ exists x, datas s !! data_ o = Some x /\ wf x.

(** What one dict's operation may do. *)
Record evolves (d : Z) (x : DictData) (s s' : store) : Prop := {
  ev_wf : store_wf s';
  ev_holds : holds s' d x;
  ev_others : forall d' y, d' <> d -> holds s d' y -> holds s' d' y;
  ev_brk : brk s <= brk s';
}.

Lemma dict_evolves_refl d x s : store_wf s -> holds s d x -> evolves d x s s.
Proof. intros Hw Hh. by split. Qed.

Lemma dict_evolves_trans d x y s1 s2 s3 : evolves d x s1 s2 -> evolves d y s2 s3 -> evolves d y s1 s3.
Proof. intros [W2 H2 O2 B2] [W3 H3 O3 B3]. split; [done|done|auto|lia]. Qed.

Lemma data_holds s d x : holds s d x -> data d s = Ret x.
Proof. intros (o & Ho & Hx & _). unfold data, get. rewrite Ho. cbn [obind]. by rewrite Hx. Qed.

Lemma below s d x : store_wf s -> holds s d x -> d < brk s.
Proof. intros Hw (o & Ho & _). by destruct (Hw d o Ho). Qed.

(** No other dict has [d]'s data. *)
Definition sole (s : store) (d : Z) : Prop := forall o d' o', dicts s !! d = Some o -> d' <> d -> dicts s !! d' = Some o' -> data_ o' <> data_ o.

Lemma dict_save_spec guard d s x : store_wf s -> holds s d x ->
  exists s', saveVersion guard d s = Ret s' /\ evolves d x s s' /\ (guard = true -> holds s' (brk s) x).
Proof.
  intros Hw Hh. unfold saveVersion. destruct guard; [|exists s; split; [done|]; split; [by apply dict_evolves_refl|done]].
  pose proof Hh as (o & Ho & Hx & Hwx). destruct (Hw d o Ho) as (Hd & Ho' & _). unfold shallowClone, get. rewrite Ho. cbn [obind]. eexists. split; [done|].
  assert (forall d' y, holds s d' y -> holds (mkStore (<[brk s := mkDict (data_ o) false]> (dicts s)) (datas s) (brk s + 1)) d' y) as Hk.
  { intros d' y (o' & H1 & H2 & H3). exists o'. cbn. destruct (Hw d' o' H1). rewrite lookup_insert_ne by lia. done. }
  split; [|intros _; exists (mkDict (data_ o) false); cbn; by rewrite lookup_insert_eq]. split; [|by apply Hk|intros d' y _; apply Hk|cbn; lia].
  intros d' o' H. cbn in *. apply lookup_insert_Some in H as [[<- <-]|[_ H]]; [split; [lia|]; split; [cbn; lia|by exists x]|].
  destruct (Hw d' o' H) as (H1 & H2 & H3). split; [lia|]. split; [lia|done].
Qed.

Lemma unique_spec d s x : store_wf s -> holds s d x -> exists s', ensureUnique d s = Ret s' /\ evolves d x s s' /\ sole s' d.
Proof.
  intros Hw Hh. pose proof Hh as (o & Ho & Hx & Hwx). destruct (Hw d o Ho) as (Hd & Ho' & _). unfold ensureUnique, get. rewrite Ho. cbn [obind]. case_bool_decide as Hc.
  - rewrite (data_holds s d x Hh). cbn [obind]. eexists. split; [done|]. split; [split|].
    + intros d' o' H. cbn in *. apply lookup_insert_Some in H as [[<- <-]|[_ H]].
      * split; [lia|]. split; [cbn; lia|]. exists x. cbn. by rewrite lookup_insert_eq.
      * destruct (Hw d' o' H) as (H1 & H2 & y & H3 & H4). split; [lia|]. split; [lia|]. exists y. rewrite lookup_insert_ne by lia. done.
    + exists (mkDict (brk s) (token o)). cbn. by rewrite !lookup_insert_eq.
    + intros d' y Hne (o' & H1 & H2 & H3). destruct (Hw d' o' H1) as (_ & H4 & _). exists o'. cbn. rewrite !lookup_insert_ne by (lia || congruence). done.
    + cbn. lia.
    + intros o1 d' o'. cbn. rewrite lookup_insert_eq. intros [= <-] Hne. rewrite lookup_insert_ne by congruence. intros H. cbn. destruct (Hw d' o' H). lia.
  - exists s. split; [done|]. split; [by apply dict_evolves_refl|]. intros o1 d' o' H1 Hne H2 E. assert (o1 = o) as -> by congruence. apply Hc.
    unfold use_count. assert (base.size ({[d := o; d' := o']} : gmap Z dict_obj) = 2%nat) as Hs.
    { rewrite map_size_insert_None; [by rewrite map_size_singleton|]. by rewrite lookup_singleton_ne. }
    enough (2 <= base.size (filter (fun e : Z * dict_obj => data_ e.2 = data_ o) (dicts s)))%nat by lia. rewrite <- Hs. apply map_subseteq_size.
    apply insert_subseteq_l; [by apply map_lookup_filter_Some_2|]. apply map_singleton_subseteq_l. by apply map_lookup_filter_Some_2.
Qed.

Lemma update_spec d f s x x' : store_wf s -> holds s d x -> sole s d -> f x = Ret x' -> wf x' ->
  exists s', update d f s = Ret s' /\ evolves d x' s s'.
Proof.
  intros Hw Hh Hs Hf Hx'. pose proof Hh as (o & Ho & Hx & Hwx). unfold update. rewrite (data_holds s d x Hh). unfold get. rewrite Ho. cbn [obind]. rewrite Hf. cbn [obind].
  eexists. split; [done|]. split; cbn.
  - intros d' o' H. cbn in *. destruct (Hw d' o' H) as (H1 & H2 & y & H3 & H4). split; [done|]. split; [done|].
    destruct (decide (data_ o' = data_ o)) as [->|Hne]; [exists x'; by rewrite lookup_insert_eq|]. exists y. by rewrite lookup_insert_ne.
  - exists o. cbn. by rewrite lookup_insert_eq.
  - intros d' y Hne (o' & H1 & H2 & H3). exists o'. cbn. rewrite lookup_insert_ne; [done|]. intros E. by apply (Hs o d' o' Ho Hne H1).
  - lia.
Qed.

Inductive dict_op := Store (k v : Z) | Erase (k : Z) | SetFrom (other : Z).

Definition run (guard : bool) (d : Z) (o : dict_op) : store -> outcome string store :=
  match o with
  | Store k v => store_ less guard d k v
  | Erase k => erase less equals guard d k
  | SetFrom other => set guard d other
  end.

(** What an operation makes of the association list. *)
Definition becomes (s : store) (o : dict_op) (al al' : entries) : Prop :=
  match o with
  | Store k v => P k /\ al' = a_store k v al
  | Erase k => P k /\ al' = a_erase k al
  | SetFrom other => contents s other al'
  end.

Lemma mutate_spec guard d f s x x' : store_wf s -> holds s d x -> ensureMutable d s = Ret tt -> f x = Ret x' -> wf x' ->
  exists s', mutate guard d f s = Ret s' /\ evolves d x' s s' /\ (guard = true -> holds s' (brk s) x).
Proof.
  intros Hw Hh Hm Hf Hx'. unfold mutate. rewrite Hm. cbn [obind]. destruct (dict_save_spec guard d s x Hw Hh) as (s1 & -> & E1 & Hg). cbn [obind].
  destruct (unique_spec d s1 x (ev_wf _ _ _ _ E1) (ev_holds _ _ _ _ E1)) as (s2 & -> & E2 & Hs). cbn [obind].
  destruct (update_spec d f s2 x x' (ev_wf _ _ _ _ E2) (ev_holds _ _ _ _ E2) Hs Hf Hx') as (s3 & -> & E3). exists s3. split; [done|].
  pose proof (below s d x Hw Hh). split; [eapply dict_evolves_trans; [exact E1|]; by eapply dict_evolves_trans|]. intros Hgt.
  apply (ev_others _ _ _ _ E3); [lia|]. apply (ev_others _ _ _ _ E2); [lia|]. by apply Hg.
Qed.

Lemma set_spec guard d other s x y : store_wf s -> holds s d x -> ensureMutable d s = Ret tt -> holds s other y ->
  exists s', set guard d other s = Ret s' /\ evolves d y s s' /\ (guard = true -> holds s' (brk s) x).
Proof.
  intros Hw Hh Hm Hy. assert (wf y) as Hwy by by destruct Hy as (? & _ & _ & ?). unfold set. rewrite Hm. cbn [obind].
  destruct (dict_save_spec guard d s x Hw Hh) as (s1 & -> & E1 & Hg). cbn [obind].
  destruct (unique_spec d s1 x (ev_wf _ _ _ _ E1) (ev_holds _ _ _ _ E1)) as (s2 & -> & E2 & Hs). cbn [obind].
  assert (holds s2 other y) as Hy2.
  { destruct (decide (other = d)) as [->|Hne]; [|by apply (ev_others _ _ _ _ E2), (ev_others _ _ _ _ E1)].
    pose proof (data_holds s d x Hh) as H1. rewrite (data_holds s d y Hy) in H1. injection H1 as ->. apply E2. }
  rewrite (data_holds s2 other y Hy2). cbn [obind].
  destruct (update_spec d (fun _ => Ret y) s2 x y (ev_wf _ _ _ _ E2) (ev_holds _ _ _ _ E2) Hs eq_refl Hwy) as (s3 & -> & E3). exists s3. split; [done|].
  pose proof (below s d x Hw Hh). split; [eapply dict_evolves_trans; [exact E1|]; by eapply dict_evolves_trans|]. intros Hgt.
  apply (ev_others _ _ _ _ E3); [lia|]. apply (ev_others _ _ _ _ E2); [lia|]. by apply Hg.
Qed.

Lemma run_spec guard d o s x al' : store_wf s -> holds s d x -> ensureMutable d s = Ret tt -> becomes s o (abs x) al' ->
  exists s' x', run guard d o s = Ret s' /\ evolves d x' s s' /\ abs x' = al' /\ (guard = true -> holds s' (brk s) x).
Proof.
  intros Hw Hh Hm Hb. assert (wf x) as Hwx by by destruct Hh as (? & _ & _ & ?). destruct o as [k v|k|other]; cbn [run becomes] in *.
  - destruct Hb as [HP ->]. destruct (store_spec k v x Hwx HP) as (x' & Hf & Hx' & Ha).
    destruct (mutate_spec guard d (store_data less k v) s x x' Hw Hh Hm Hf Hx') as (s' & Hr & E & Hg). by exists s', x'.
  - destruct Hb as [HP ->]. destruct (erase_spec k x Hwx HP) as (x' & Hf & Hx' & Ha).
    destruct (mutate_spec guard d (erase_data less equals k) s x x' Hw Hh Hm Hf Hx') as (s' & Hr & E & Hg). by exists s', x'.
  - destruct Hb as (y & Hy & Ha). destruct (set_spec guard d other s x y Hw Hh Hm Hy) as (s' & Hr & E & Hg). by exists s', y.
Qed.

(** C23. On keys that [less] orders, a dict is an association list in the order its keys
    first came, one entry to each class of equal keys: storing replaces the value and
    keeps the key, or appends; erasing takes the entry out; reading, listing and the
    length agree with the list.  No clone sees another's writes, and the version a
    snapshot is due keeps the old entries. *)
Theorem dict_is_ordered_alist guard d o s al al' : store_wf s -> contents s d al -> ensureMutable d s = Ret tt -> becomes s o al al' ->
  exists s' x, run guard d o s = Ret s' /\ store_wf s' /\ data d s' = Ret x /\ items less x = Ret al' /\
    length x = wrapS 32 (Z.of_nat (List.length al')) /\
    (forall k, P k -> at_ less k x = Ret (default nilVal (a_find k al')) /\ contains less k x = Ret (bool_decide (is_Some (a_find k al')))) /\
    (forall d' bl, d' <> d -> contents s d' bl -> contents s' d' bl) /\
    (guard = true -> contents s' (brk s) al).
Proof.
  intros Hw (x0 & Hh & Ha) Hm Hb. rewrite <- Ha in Hb. destruct (run_spec guard d o s x0 al' Hw Hh Hm Hb) as (s' & x & Hr & [W H O B] & <- & Hg).
  assert (wf x) as Hwx by by destruct H as (? & _ & _ & ?). exists s', x. split; [done|]. split; [done|]. split; [by apply data_holds|].
  split; [by apply items_spec|]. split; [unfold length, abs; by rewrite length_map|]. split; [|split].
  - intros k HP. pose proof Hwx as [Hk Hs _]. unfold at_, contains. rewrite (find_spec k (ents x) HP Hk Hs). cbn [obind]. rewrite (abs_find x k Hwx HP).
    unfold a_find. by destruct (a_entry k (ents x)).
  - intros d' bl Hne (y & Hy & Hay). exists y. split; [by apply O|done].
  - intros Hgt. exists x0. split; [by apply Hg|done].
Qed.
End Keys.

(** ** Integers as keys *)

Definition int_key (h : heap) (w : Z) : Prop := exists z, int_value h w = Some z.
Definition int_of (h : heap) (w : Z) : Z := default 0 (int_value h w).
Definition int_ltb (h : heap) (x y : Z) : bool := int_of h x <? int_of h y.

Lemma int_not_string h st w z : int_value h w = Some z -> Strings.objs st = ∅ -> string_at st w = None.
Proof. intros _ He. unfold string_at. rewrite He. by destruct (isObj w). Qed.

#[export] Instance int_keys (h : heap) (st : Strings.state) (Hst : Strings.objs st = ∅) :
  KeyOrder (ValueComparitor h st) (fun _ => key_equals h st) (int_key h) (int_ltb h).
Proof.
  split.
  - intros x y [a Ha] [b Hb]. unfold ValueComparitor, int_ltb, int_of. destruct (int_value_number h x a Ha) as [-> _], (int_value_number h y b Hb) as [-> _].
    cbn [andb]. unfold less. rewrite (compare_int _ _ h x y a b Ha Hb), Ha, Hb. cbn. by destruct (a <? b).
  - intros x _. apply Z.ltb_irrefl.
  - intros x y z _ _ _. unfold int_ltb. rewrite !Z.ltb_lt. lia.
  - intros x y z _ _ _. unfold int_ltb. rewrite !Z.ltb_lt. lia.
  - intros x y [a Ha] [b Hb]. unfold key_equals. rewrite (int_not_string h st x a Ha Hst). rewrite (equals_int h x y a b Ha Hb).
    cbn. unfold same, int_ltb, int_of. rewrite Ha, Hb. cbn. f_equal. destruct (Z.ltb_spec a b), (Z.ltb_spec b a), (Z.eqb_spec a b); lia || done.
Qed.

(** ** Instances *)

Definition plain_heap : heap := mkHeap ∅ 1.
Definition no_strings : Strings.state := Strings.start_state.

Definition two_keys : DictData := mkData [(int32Val 1, int32Val 10); (int32Val 5, int32Val 50)] [int32Val 5; int32Val 1].

(** A dict and its clone. *)
Definition demo : store := mkStore {[1 := mkDict 2 false; 3 := mkDict 2 false]} {[2 := two_keys]} 10.

Lemma two_keys_wf : wf (P := int_key plain_heap) (ltb := int_ltb plain_heap) two_keys.
Proof.
  split.
  - repeat constructor; eexists; by vm_compute.
  - repeat constructor.
  - apply perm_swap.
Qed.

Lemma clones_wf : store_wf (P := int_key plain_heap) (ltb := int_ltb plain_heap) demo.
Proof.
  intros d o Hd. assert (o = mkDict 2 false /\ d < 10) as [-> Hlt].
  { unfold demo in Hd. cbn [dicts] in Hd. apply lookup_insert_Some in Hd as [[<- <-]|[_ Hd]]; [done|]. by apply lookup_singleton_Some in Hd as [<- <-]. }
  split; [done|]. split; [done|]. exists two_keys. split; [done|]. exact two_keys_wf.
Qed.

Lemma clone_contents d : d = 1 \/ d = 3 -> contents (P := int_key plain_heap) (ltb := int_ltb plain_heap) demo d [(int32Val 5, int32Val 50); (int32Val 1, int32Val 10)].
Proof. intros Hd. exists two_keys. split; [|by vm_compute]. exists (mkDict 2 false). split; [by destruct Hd as [-> | ->]|]. split; [done|]. exact two_keys_wf. Qed.

Definition cmp := ValueComparitor plain_heap no_strings.
Definition eqs (_ : bool) := key_equals plain_heap no_strings.

Lemma dict_is_ordered_alist_witness : exists s' x,
  run (less := cmp) (equals := eqs) true 1 (Store (int32Val 1) (int32Val 11)) demo = Ret s' /\ data 1 s' = Ret x /\
  items cmp x = Ret [(int32Val 5, int32Val 50); (int32Val 1, int32Val 11)] /\
  contents (P := int_key plain_heap) (ltb := int_ltb plain_heap) s' 3 [(int32Val 5, int32Val 50); (int32Val 1, int32Val 10)].
Proof.
  destruct (dict_is_ordered_alist (KO := int_keys plain_heap no_strings eq_refl) true 1 (Store (int32Val 1) (int32Val 11)) demo
    [(int32Val 5, int32Val 50); (int32Val 1, int32Val 10)] [(int32Val 5, int32Val 50); (int32Val 1, int32Val 11)]
    clones_wf (clone_contents 1 (or_introl eq_refl)) eq_refl) as (s' & x & Hr & _ & Hd & Hi & _ & _ & Ho & _).
  - split; [eexists; by vm_compute|by vm_compute].
  - exists s', x. split; [exact Hr|]. split; [exact Hd|]. split; [exact Hi|]. apply Ho; [done|]. apply clone_contents. by right.
Defined.

(** ** Keys that are no order *)

Definition two_strings : Strings.state :=
  Strings.mkState {[1 := Strings.mkStr [97; 102] 7 (Ustring.hashCode [97; 102]) 1 Strings.Alive; 2 := Strings.mkStr [98; 65] 8 (Ustring.hashCode [98; 65]) 1 Strings.Alive]} ∅ ∅ 3.

Definition chain (less : Z -> Z -> outcome string bool) (equals : bool -> Z -> Z -> outcome string bool) (fs : list (DictData -> outcome string DictData)) : outcome string DictData :=
  fold_left (fun d f => let! d := d in f d) fs (Ret no_data).

Definition by_string := ValueComparitor plain_heap two_strings.
Definition eq_string (_ : bool) := key_equals plain_heap two_strings.

(** Different strings with the same hash, af and bA, are one key; erasing by the second
    leaves the first in the order, and listing the dict throws. *)
Lemma equal_hashes_conflated :
  key_equals plain_heap two_strings (objWord 1) (objWord 2) = Ret false /\
  (let! d := chain by_string eq_string [store_data by_string (objWord 1) (int32Val 1); store_data by_string (objWord 2) (int32Val 2)] in items by_string d) =
    Ret [(objWord 1, int32Val 2)] /\
  (let! d := chain by_string eq_string [store_data by_string (objWord 1) (int32Val 1); erase_data by_string eq_string (objWord 2)] in items by_string d) =
    Throw at_range.
Proof. by vm_compute. Qed.

(** A key that is not a number is every number: it takes another key's entry, and erasing
    by it leaves that key in the order. *)
Definition not_a_number : Z := 0x7ff8000000000000.

Lemma nan_conflated :
  (let! d := chain cmp eqs [store_data cmp (int32Val 1) (int32Val 10); store_data cmp not_a_number (int32Val 20)] in items cmp d) =
    Ret [(int32Val 1, int32Val 20)] /\
  (let! d := chain cmp eqs [store_data cmp (int32Val 1) (int32Val 10); erase_data cmp eqs not_a_number] in items cmp d) = Throw at_range.
Proof. by vm_compute. Qed.

End DictProofs.
