(* ===== verification/Chunk.v ===== *)
(** * Chunk: bytecode, and how a call site names its arguments

    [Chunk] and [CallSpec] (compiler/Chunk): the operation codes, the growing code of a
    function with its constants and its table of source positions, and the description of
    a call's arguments that follows an [OpCode::Call], with its binary form and the
    positions it gives a callee's parameters. *)

From S2P Require Import Prelude Types.
From stdpp Require Import numbers list sorting.

Module Chunk.

Local Open Scope Z_scope.

(** ** Operation codes *)

Module Op.

Inductive OpCode :=
| Nop | Constant | ConstNil | ConstTrue | ConstFalse | ConstInt0 | ConstInt1 | Equal | NotEqual
| Is | In | Greater | Less | GreaterEqual | LessEqual | Add | Subtract | Multiply | Divide
| Modulo | Negate | And | Or | BitAnd | BitOr | BitXor | BitNot | Pop | PopN | StmtAction | Dup
| DupBelow | Swap | JumpIfFalse | JumpIfTrue | Jump | Loop | Call | RemoteCall | Index
| SetIndex | Invoke | Closure | CloseUpvalue | Return | ReturnStore | ObjectType | ActorType
| InterfaceType | EnumerationType | EventType | Property | Method | EnumLabel | EventPayload
| EventExtend | Extend | Implements | DefineModuleVar | DefineModuleConst | GetModuleVar
| GetModuleVarSignal | SetModuleVar | SetNewModuleVar | ImportModuleVars | GetUpvalue
| SetUpvalue | GetLocal | SetLocal | GetPropSignal | SetProp | GetProp | SetPropCheck
| GetPropCheck | GetSuper | NewRange | NewList | NewDict | NewVector | NewMatrix | IfDictToKeys
| IfDictToItems | ToType | ToTypeStrict | ToTypeSpec | ToTypeSpecStrict | EventOn | EventOff
| SetupExcept | EndExcept | Throw | CopyInto | SetPropAccessor | MakeConst | MoveLocal
| MoveModuleVar | MoveProp | NestedType | DefineModuleOverload | GetOverloadAt
| DefineLocalOverload | GetLocalOverloadAt | InvokeOverloadAt | PopToCount | ToStringPart
| Concat | CheckReturnList | CheckDeclList | AndShortCircuit | OrShortCircuit | AssertFail
| ImportModule.

Definition opcodes : list OpCode :=
  [Nop; Constant; ConstNil; ConstTrue; ConstFalse; ConstInt0; ConstInt1; Equal; NotEqual; Is;
   In; Greater; Less; GreaterEqual; LessEqual; Add; Subtract; Multiply; Divide; Modulo;
   Negate; And; Or; BitAnd; BitOr; BitXor; BitNot; Pop; PopN; StmtAction; Dup; DupBelow; Swap;
   JumpIfFalse; JumpIfTrue; Jump; Loop; Call; RemoteCall; Index; SetIndex; Invoke; Closure;
   CloseUpvalue; Return; ReturnStore; ObjectType; ActorType; InterfaceType; EnumerationType;
   EventType; Property; Method; EnumLabel; EventPayload; EventExtend; Extend; Implements;
   DefineModuleVar; DefineModuleConst; GetModuleVar; GetModuleVarSignal; SetModuleVar;
   SetNewModuleVar; ImportModuleVars; GetUpvalue; SetUpvalue; GetLocal; SetLocal;
   GetPropSignal; SetProp; GetProp; SetPropCheck; GetPropCheck; GetSuper; NewRange; NewList;
   NewDict; NewVector; NewMatrix; IfDictToKeys; IfDictToItems; ToType; ToTypeStrict;
   ToTypeSpec; ToTypeSpecStrict; EventOn; EventOff; SetupExcept; EndExcept; Throw; CopyInto;
   SetPropAccessor; MakeConst; MoveLocal; MoveModuleVar; MoveProp; NestedType;
   DefineModuleOverload; GetOverloadAt; DefineLocalOverload; GetLocalOverloadAt;
   InvokeOverloadAt; PopToCount; ToStringPart; Concat; CheckReturnList; CheckDeclList;
   AndShortCircuit; OrShortCircuit; AssertFail; ImportModule].

Definition asByte (op : OpCode) : Z :=
  match op with
  | Nop => 0 | Constant => 1 | ConstNil => 2 | ConstTrue => 3 | ConstFalse => 4
  | ConstInt0 => 5 | ConstInt1 => 6 | Equal => 7 | NotEqual => 8 | Is => 9 | In => 10
  | Greater => 11 | Less => 12 | GreaterEqual => 13 | LessEqual => 14 | Add => 15
  | Subtract => 16 | Multiply => 17 | Divide => 18 | Modulo => 19 | Negate => 20 | And => 21
  | Or => 22 | BitAnd => 23 | BitOr => 24 | BitXor => 25 | BitNot => 26 | Pop => 27
  | PopN => 28 | StmtAction => 29 | Dup => 30 | DupBelow => 31 | Swap => 32
  | JumpIfFalse => 33 | JumpIfTrue => 34 | Jump => 35 | Loop => 36 | Call => 37
  | RemoteCall => 38 | Index => 39 | SetIndex => 40 | Invoke => 41 | Closure => 42
  | CloseUpvalue => 43 | Return => 44 | ReturnStore => 45 | ObjectType => 46
  | ActorType => 47 | InterfaceType => 48 | EnumerationType => 49 | EventType => 50
  | Property => 51 | Method => 52 | EnumLabel => 53 | EventPayload => 54 | EventExtend => 55
  | Extend => 56 | Implements => 57 | DefineModuleVar => 58 | DefineModuleConst => 59
  | GetModuleVar => 60 | GetModuleVarSignal => 61 | SetModuleVar => 62
  | SetNewModuleVar => 63 | ImportModuleVars => 64 | GetUpvalue => 65 | SetUpvalue => 66
  | GetLocal => 67 | SetLocal => 68 | GetPropSignal => 69 | SetProp => 70 | GetProp => 71
  | SetPropCheck => 72 | GetPropCheck => 73 | GetSuper => 74 | NewRange => 75 | NewList => 76
  | NewDict => 77 | NewVector => 78 | NewMatrix => 79 | IfDictToKeys => 80
  | IfDictToItems => 81 | ToType => 82 | ToTypeStrict => 83 | ToTypeSpec => 84
  | ToTypeSpecStrict => 85 | EventOn => 86 | EventOff => 87 | SetupExcept => 88
  | EndExcept => 89 | Throw => 90 | CopyInto => 91 | SetPropAccessor => 92 | MakeConst => 93
  | MoveLocal => 94 | MoveModuleVar => 95 | MoveProp => 96 | NestedType => 97
  | DefineModuleOverload => 98 | GetOverloadAt => 99 | DefineLocalOverload => 100
  | GetLocalOverloadAt => 101 | InvokeOverloadAt => 102 | PopToCount => 103
  | ToStringPart => 104 | Concat => 105 | CheckReturnList => 106 | CheckDeclList => 107
  | AndShortCircuit => 108 | OrShortCircuit => 109 | AssertFail => 110 | ImportModule => 111
  end.

End Op.

(** The top bit of an instruction says that its argument has two bytes. *)
Definition DoubleByteArg : Z := 128.

(** The dispatcher's view of an instruction byte: the operation, and whether its argument
    is a single byte. *)
Definition decode (b : Z) : option Op.OpCode * bool :=
  if Z.land b DoubleByteArg =? 0 then (Op.opcodes !! Z.to_nat b, true)
  else (Op.opcodes !! Z.to_nat (Z.land b (Z.lnot DoubleByteArg)), false).

(** ** Chunks *)

Record LineEntry := mkLine { offset : nat; line : Z; column : Z }.

Section Chunks.
Context {Val : Type}.

Record chunk := mkChunk { code : list Z; constants : list Val; lineTable : list LineEntry }.

Definition write (byte l c : Z) (k : chunk) : chunk :=
  let code' := code k ++ [byte] in
  mkChunk code' (constants k)
    (match last (lineTable k) with
     | Some e =>
         if (line e =? l) && (column e =? c) then lineTable k
         else lineTable k ++ [mkLine (length code' - 1)%nat l c]
     | None => [mkLine (length code' - 1)%nat l c]
     end).

Definition lastByte (k : chunk) : Z :=
  match last (code k) with Some b => b | None => Op.asByte Op.Nop end.

Definition addConstant (v : Val) (k : chunk) : nat * chunk :=
  let constants' := constants k ++ [v] in
  ((length constants' - 1)%nat, mkChunk (code k) constants' (lineTable k)).

Definition writeConsant (v : Val) (l c : Z) (k : chunk) : outcome string chunk :=
  let '(constant, k1) := addConstant v k in
  if (255 <? constant)%nat then Throw "maximum of 256 constants exceeded"
  else Ret (write (Z.of_nat constant) l c (write (Op.asByte Op.Constant) l c k1)).

(** The loop of [getLine] and [getColumn]. *)
Fixpoint entry_at (at_ : nat) (entry : LineEntry) (table : list LineEntry) : LineEntry :=
  match table with
  | [] => entry
  | e :: table' => if (at_ <? offset e)%nat then entry else entry_at at_ e table'
  end.

Definition getLine (at_ : nat) (k : chunk) : Z :=
  match lineTable k with
  | [] => -1
  | e :: _ => line (entry_at at_ (mkLine 0 (line e) (column e)) (lineTable k))
  end.

Definition getColumn (at_ : nat) (k : chunk) : Z :=
  match lineTable k with
  | [] => -1
  | e :: _ => column (entry_at at_ (mkLine 0 (line e) (column e)) (lineTable k))
  end.
End Chunks.
Arguments chunk : clear implicits.

(** ** Calls *)

Record ArgSpec := mkArg { positional : bool; paramNameHash : Z }.

Record CallSpec := mkSpec { argCount : Z; allPositional : bool; args : list ArgSpec }.

(** [CallSpec(uint16_t)]. *)
Definition positional_spec (n : Z) : CallSpec := mkSpec n true [].

Definition namedArgs (s : CallSpec) : bool := existsb (fun a => negb (positional a)) (args s).

(** The binary form of one argument: a zero, or the top bit and fifteen bits of hash. *)
Definition arg_bytes (a : ArgSpec) : list Z :=
  if positional a then [0]
  else let h := Z.lor 32768 (Z.land (paramNameHash a) 32767) in
       [Z.shiftr (Z.land h 65280) 8; Z.land h 255].

Definition toBytes (s : CallSpec) : outcome string (list Z) :=
  if allPositional s then
    if 127 <? argCount s then Throw "Maximum of 127 call arguments exceeded"
    else Ret [Z.land 127 (wrapU 8 (argCount s))]
  else Ret (Z.lor 128 (Z.land 127 (wrapU 8 (argCount s))) :: concat (map arg_bytes (args s))).

(** The loop of [CallSpec(Chunk::iterator&)].  The two bytes of a hash are read in one
    expression whose operands C++ does not order; they are taken from left to right, as
    they are written. *)
Fixpoint read_args (n : nat) (bytes : list Z) : option (list ArgSpec * list Z) :=
  match n with
  | O => Some ([], bytes)
  | S n' =>
      match bytes with
      | 0 :: rest =>
          '(l, rest') ← read_args n' rest; Some (mkArg true 0 :: l, rest')
      | hi :: lo :: rest =>
          '(l, rest') ← read_args n' rest;
          Some (mkArg false (Z.lor (wrapU 16 (Z.shiftl hi 8)) lo) :: l, rest')
      | _ => None
      end
  end.

Definition read_spec (bytes : list Z) : option (CallSpec * list Z) :=
  match bytes with
  | [] => None
  | b :: rest =>
      let n := Z.land b 127 in
      if Z.land b 128 =? 0 then Some (mkSpec n true [], rest)
      else '(l, rest') ← read_args (Z.to_nat n) rest; Some (mkSpec n false l, rest')
  end.

(** ** [CallSpec::paramPositions]: where each parameter finds its argument; -1 where none
    was given, -2 for a variadic parameter that collects the rest. *)

(** The lambda [checkRequiredArgumentsSpecified]. *)
Fixpoint checkRequiredArgumentsSpecified (positions : list Z) (ps : list (option param_type)) : outcome string unit :=
  match positions, ps with
  | p :: positions', param :: ps' =>
      if p =? -1 then
        match param with
        | Some q =>
            if p_variadic q then checkRequiredArgumentsSpecified positions' ps'
            else if p_hasDefault q then checkRequiredArgumentsSpecified positions' ps'
            else Throw ("Argument for parameter " +:+ p_name q +:+ " not provided.")
        | None => Throw "Argument for parameter not provided."
        end
      else checkRequiredArgumentsSpecified positions' ps'
  | _, _ => Ret tt
  end.

(** The lambda [paramIndex]; the index is an [int8_t]. *)
Fixpoint paramIndex (nameHashCode : Z) (ps : list (option param_type)) (index : Z) : Z :=
  match ps with
  | [] => -1
  | Some q :: ps' =>
      if p_variadic q then -1
      else if Z.land (p_nameHashCode q) 32767 =? Z.land nameHashCode 32767 then index
      else paramIndex nameHashCode ps' (wrapS 8 (index + 1))
  | None :: ps' => paramIndex nameHashCode ps' (wrapS 8 (index + 1))
  end.

(** First pass: the named arguments. *)
Fixpoint bind_named (ps : list (option param_type)) (ai : Z) (l : list ArgSpec) (positions : list Z) : outcome string (list Z) :=
  match l with
  | [] => Ret positions
  | a :: l' =>
      if positional a then bind_named ps (ai + 1) l' positions
      else
        let pindex := paramIndex (paramNameHash a) ps 0 in
        if 0 <=? pindex
        then bind_named ps (ai + 1) l' (<[Z.to_nat pindex := wrapS 8 ai]> positions)
        else Throw "Unknown parameter name in call"
  end.

(** The first regular parameter without an argument. *)
Fixpoint next_unfilled (regular : nat) (positions : list Z) : nat :=
  match regular, positions with
  | S regular', p :: positions' => if p =? -1 then O else S (next_unfilled regular' positions')
  | _, _ => O
  end.

(** Second pass: the positional arguments; also whether any goes to the variadic
    parameter. *)
Fixpoint bind_positional (variadic : bool) (regular : nat) (ai : Z) (seenNamed : bool) (next nth : nat)
    (started : bool) (l : list ArgSpec) (positions : list Z) : outcome string (list Z * bool) :=
  match l with
  | [] => Ret (positions, started)
  | a :: l' =>
      if negb (positional a) then
        bind_positional variadic regular (ai + 1) true next nth started l' positions
      else if variadic then
        if seenNamed then bind_positional variadic regular (ai + 1) seenNamed next (S nth) true l' positions
        else if (next <? regular)%nat then
          bind_positional variadic regular (ai + 1) seenNamed (S next) (S nth) started l'
            (<[next := wrapS 8 ai]> positions)
        else bind_positional variadic regular (ai + 1) seenNamed next (S nth) true l' positions
      else if seenNamed then Throw "Can't use positional arguments after named arguments in call"
      else if (nth <? regular)%nat then
        bind_positional variadic regular (ai + 1) seenNamed next (S nth) started l'
          (<[nth := wrapS 8 ai]> positions)
      else Throw "Too many arguments in call"
  end.

Definition paramPositions (s : CallSpec) (ft : func_type) : outcome string (list Z) :=
  let ps := params ft in
  let variadic := hasVariadic ft in
  let regular := if variadic then (length ps - 1)%nat else length ps in
  let n := Z.to_nat (argCount s) in
  let! positions :=
    if allPositional s then
      if negb variadic && (regular <? n)%nat then Throw "Too many arguments in call"
      else Ret (map (fun i => wrapS 8 (Z.of_nat i)) (seq 0 (min n regular))
                ++ replicate (regular - n) (-1)
                ++ (if variadic then [if (regular <? n)%nat then -2 else -1] else []))
    else
      let! named := bind_named ps 0 (args s) (replicate (length ps) (-1)) in
      let! r := bind_positional variadic regular 0 false (next_unfilled regular named) 0 false (args s) named in
      Ret (if variadic && r.2 then <[(length ps - 1)%nat := -2]> r.1 else r.1) in
  let! _ := checkRequiredArgumentsSpecified positions ps in
  Ret positions.

(** ** What the dispatcher makes of an operation code *)

Lemma decode_asByte op : decode (Op.asByte op) = (Some op, true).
Proof. by destruct op. Qed.

Lemma decode_double op : decode (Z.lor (Op.asByte op) DoubleByteArg) = (Some op, false).
Proof. by destruct op. Qed.

End Chunk.
