(* ===== verification/Machine.v ===== *)
(** * Machine: call frames, captured variables, jumps and exceptions

    The part of the bytecode interpreter ([VM::execute] in compiler/VM.cpp, Thread.h,
    CallFrame.h) that runs Roxal functions: the value stack, frames, closures and their
    upvalues, arguments, returns, exception handlers.

    The interpreter is written against [Store], what it asks of the place its variables
    live in, and there are three of those: [Stack] is the program's, a stack of slots with
    a list of the open upvalues that point into it; [Guarded] is the same, but undefined
    where a slot is given up while an upvalue still points to it; [Cells] is the
    specification, in which every variable is a cell of its own and a closure holds the
    cells it captured.  MachineProofs relates them.

    An instruction of another part of the interpreter stops the model ([Beyond]), as do
    operands other than the ones here: no futures, signals, events, native functions or
    typed parameters. *)

From S2P Require Import Prelude Types Chunk.
From stdpp Require Import numbers list.

Module Machine.

Import Chunk.
Local Open Scope nat_scope.

(** ** Values and objects *)

(** Functions, closures and upvalues are named by their positions in tables that only
    grow; an integer is the inline one; a fresh variadic list is a value. *)
Inductive Val :=
| Nil
| Bool (b : bool)
| Int (z : Z)
| FunctionV (f : nat)
| ClosureV (c : nat)
| ExceptionV (v : Val)
| ListV (l : list Val).

Definition isObj (v : Val) : bool :=
  match v with Nil | Bool _ | Int _ => false | _ => true end.

Definition isFalsey (v : Val) : bool :=
  match v with Nil | Bool false => true | _ => false end.

Definition isTruthy (v : Val) : bool :=
  match v with Bool true => true | _ => false end.

(** [location] is a slot of the stack, or [closed] itself. *)
Record ObjUpvalue := mkUpvalue { location : option nat; closed : Val }.

Record ObjClosure := mkClosure { function : nat; upvalues : list (option nat) }.

Record ObjFunction := mkFunction {
  fnCode : list Z;
  fnConstants : list Val;
  arity : nat;
  upvalueCount : nat;
  funcType : func_type;
  paramDefaultFunc : list (Z * nat);
  builtinStub : bool;
  strict : bool;
  ownerType : Val;
  moduleType : option nat
}.

(** What ends an instruction early: a [std::runtime_error], or an instruction that is not
    modelled here. *)
Inductive Err := Overflow | BadCall (msg : string) | Beyond.

(** ** What the interpreter asks of the place its variables live in *)

Class Store (S : Type) := {
  depth : S -> nat;
  push : Val -> S -> outcome Err S;
  pop : S -> outcome Err (Val * S);
  load : nat -> S -> outcome Err Val;
  assign : nat -> Val -> S -> outcome Err S;
  close : nat -> S -> outcome Err S;
  closureVal : nat -> nat -> S -> nat * S;
  functionOf : nat -> S -> outcome Err nat;
  upvaluesSize : nat -> S -> outcome Err nat;
  capture : nat -> nat -> nat -> S -> outcome Err S;
  inherit : nat -> nat -> nat -> nat -> S -> outcome Err S;
  getUpvalue : nat -> nat -> S -> outcome Err Val;
  setUpvalue : nat -> nat -> Val -> S -> outcome Err S;
  clear : S -> outcome Err S
}.

Definition opt {E A} (o : option A) : outcome E A :=
  match o with Some a => Ret a | None => UB end.

(** ** The program's store: [Thread]'s stack and list of open upvalues *)

Record Stack := mkStack {
  stack : list Val;
  stackTop : nat;
  openUpvalues : list nat;
  upvals : list ObjUpvalue;
  closures : list ObjClosure
}.

Module Stk.

Definition push (v : Val) (s : Stack) : outcome Err Stack :=
  let 'mkStack st top ou us cs := s in
  if top =? length st then Throw Overflow
  else Ret (mkStack (<[top := v]> st) (S top) ou us cs).

Definition pop (s : Stack) : outcome Err (Val * Stack) :=
  let 'mkStack st top ou us cs := s in
  match top with
  | 0 => UB
  | S t =>
      let! v := opt (st !! t) in
      Ret (v, mkStack (if isObj v then <[t := Nil]> st else st) t ou us cs)
  end.

Definition load (i : nat) (s : Stack) : outcome Err Val := opt (stack s !! i).

Definition assign (i : nat) (v : Val) (s : Stack) : outcome Err Stack :=
  let 'mkStack st top ou us cs := s in
  if i <? length st then Ret (mkStack (<[i := v]> st) top ou us cs) else UB.

(** The loop of [captureUpvalue]: how many open upvalues lie above the slot, and the one
    at the slot if there is one. *)
Fixpoint find_open (us : list ObjUpvalue) (slot : nat) (ou : list nat) : outcome Err (nat * option nat) :=
  match ou with
  | [] => Ret (0, None)
  | u :: ou' =>
      match us !! u with
      | Some (mkUpvalue (Some l) _) =>
          if slot <? l then
            let! r := find_open us slot ou' in Ret (S r.1, r.2)
          else Ret (0, if l =? slot then Some u else None)
      | _ => UB
      end
  end.

Definition captureUpvalue (slot : nat) (s : Stack) : outcome Err (nat * Stack) :=
  let 'mkStack st top ou us cs := s in
  let! r := find_open us slot ou in
  match r.2 with
  | Some u => Ret (u, s)
  | None =>
      let createdUpvalue := length us in
      Ret (createdUpvalue,
           mkStack st top (take r.1 ou ++ createdUpvalue :: drop r.1 ou)
                   (us ++ [mkUpvalue (Some slot) Nil]) cs)
  end.

Fixpoint close_front (st : list Val) (last : nat) (us : list ObjUpvalue) (ou : list nat) : outcome Err (list ObjUpvalue * list nat) :=
  match ou with
  | [] => Ret (us, [])
  | u :: ou' =>
      match us !! u with
      | Some (mkUpvalue (Some l) _) =>
          if last <=? l then
            let! v := opt (st !! l) in
            close_front st last (<[u := mkUpvalue None v]> us) ou'
          else Ret (us, ou)
      | _ => UB
      end
  end.

Definition closeUpvalues (last : nat) (s : Stack) : outcome Err Stack :=
  let 'mkStack st top ou us cs := s in
  let! r := close_front st last us ou in
  Ret (mkStack st top r.2 r.1 cs).

(** [ObjClosure::ObjClosure]: as many upvalues as the function has, all nil. *)
Definition closureVal (f n : nat) (s : Stack) : nat * Stack :=
  let 'mkStack st top ou us cs := s in
  (length cs, mkStack st top ou us (cs ++ [mkClosure f (replicate n None)])).

Definition functionOf (c : nat) (s : Stack) : outcome Err nat :=
  let! o := opt (closures s !! c) in Ret (function o).

Definition upvaluesSize (c : nat) (s : Stack) : outcome Err nat :=
  let! o := opt (closures s !! c) in Ret (length (upvalues o)).

(** [asClosure(c)->upvalues[i] = u]. *)
Definition setClosureUpvalue (c i : nat) (u : option nat) (s : Stack) : outcome Err Stack :=
  let 'mkStack st top ou us cs := s in
  let! o := opt (cs !! c) in
  if i <? length (upvalues o)
  then Ret (mkStack st top ou us (<[c := mkClosure (function o) (<[i := u]> (upvalues o))]> cs))
  else UB.

Definition capture (c i slot : nat) (s : Stack) : outcome Err Stack :=
  let! r := captureUpvalue slot s in
  setClosureUpvalue c i (Some r.1) r.2.

Definition upvalue_at (c j : nat) (s : Stack) : outcome Err (option nat) :=
  let! o := opt (closures s !! c) in opt (upvalues o !! j).

Definition inherit (c i p j : nat) (s : Stack) : outcome Err Stack :=
  let! u := upvalue_at p j s in
  setClosureUpvalue c i u s.

Definition getUpvalue (c j : nat) (s : Stack) : outcome Err Val :=
  let! u := upvalue_at c j s in
  let! a := opt u in
  let! o := opt (upvals s !! a) in
  match location o with
  | Some l => opt (stack s !! l)
  | None => Ret (closed o)
  end.

Definition setUpvalue (c j : nat) (v : Val) (s : Stack) : outcome Err Stack :=
  let! u := upvalue_at c j s in
  let! a := opt u in
  let! o := opt (upvals s !! a) in
  match location o with
  | Some l => assign l v s
  | None =>
      let 'mkStack st top ou us cs := s in
      Ret (mkStack st top ou (<[a := mkUpvalue None v]> us) cs)
  end.

(** [VM::resetStack] up to the frames; the stack keeps its size. *)
Definition clear_stack (s : Stack) : outcome Err Stack :=
  let! s1 :=
    if negb (bool_decide (openUpvalues s = [])) && negb (bool_decide (stack s = []))
    then closeUpvalues 0 s else Ret s in
  let 'mkStack st _ _ us cs := s1 in
  Ret (mkStack (replicate (length st) Nil) 0 [] us cs).

End Stk.

#[export] Instance stack_store : Store Stack := {
  depth := stackTop;
  push := Stk.push;
  pop := Stk.pop;
  load := Stk.load;
  assign := Stk.assign;
  close := Stk.closeUpvalues;
  closureVal := Stk.closureVal;
  functionOf := Stk.functionOf;
  upvaluesSize := Stk.upvaluesSize;
  capture := Stk.capture;
  inherit := Stk.inherit;
  getUpvalue := Stk.getUpvalue;
  setUpvalue := Stk.setUpvalue;
  clear := Stk.clear_stack
}.

(** ** The same, minding what it points to *)

Record Guarded := Guard { unguard : Stack }.

(** Some open upvalue still points to slot [i]. *)
Definition captured_at (s : Stack) (i : nat) : bool :=
  existsb (fun u => match upvals s !! u with
                    | Some o => bool_decide (location o = Some i)
                    | None => false
                    end) (openUpvalues s).

Definition guarded {A B} (ok : bool) (f : A -> B) (m : outcome Err A) : outcome Err B :=
  if ok then let! a := m in Ret (f a) else UB.

Definition guard_val : Val * Stack -> Val * Guarded := fun r => (r.1, Guard r.2).

#[export] Instance guarded_store : Store Guarded := {
  depth g := stackTop (unguard g);
  push v g := guarded true Guard (push v (unguard g));
  pop g := guarded (negb (captured_at (unguard g) (stackTop (unguard g) - 1))) guard_val (pop (unguard g));
  load i g := guarded (i <? stackTop (unguard g)) id (load i (unguard g));
  assign i v g := guarded (i <? stackTop (unguard g)) Guard (assign i v (unguard g));
  close i g := guarded true Guard (close i (unguard g));
  closureVal f n g := (fst (closureVal f n (unguard g)), Guard (snd (closureVal f n (unguard g))));
  functionOf c g := functionOf c (unguard g);
  upvaluesSize c g := upvaluesSize c (unguard g);
  capture c i l g := guarded (l <? stackTop (unguard g)) Guard (capture c i l (unguard g));
  inherit c i p j g := guarded true Guard (inherit c i p j (unguard g));
  getUpvalue c j g := getUpvalue c j (unguard g);
  setUpvalue c j v g := guarded true Guard (setUpvalue c j v (unguard g));
  clear g := guarded true Guard (clear (unguard g))
}.

(** ** The specification: every variable is a cell *)

Record Cells := mkCells {
  limit : nat;
  vars : list nat;
  cells : list Val;
  blocks : list (nat * list (option nat))
}.

Module Cel.

Definition push_cell (v : Val) (s : Cells) : outcome Err Cells :=
  let 'mkCells n vs ce bs := s in
  if length vs =? n then Throw Overflow
  else Ret (mkCells n (vs ++ [length ce]) (ce ++ [v]) bs).

Definition pop_cell (s : Cells) : outcome Err (Val * Cells) :=
  let 'mkCells n vs ce bs := s in
  let! x := opt (last vs) in
  let! v := opt (ce !! x) in
  Ret (v, mkCells n (removelast vs) ce bs).

Definition load_cell (i : nat) (s : Cells) : outcome Err Val :=
  let! x := opt (vars s !! i) in opt (cells s !! x).

Definition set_cell (x : nat) (v : Val) (s : Cells) : outcome Err Cells :=
  let 'mkCells n vs ce bs := s in
  if x <? length ce then Ret (mkCells n vs (<[x := v]> ce) bs) else UB.

Definition assign_cell (i : nat) (v : Val) (s : Cells) : outcome Err Cells :=
  let! x := opt (vars s !! i) in set_cell x v s.

Definition closureVal_cell (f k : nat) (s : Cells) : nat * Cells :=
  let 'mkCells n vs ce bs := s in
  (length bs, mkCells n vs ce (bs ++ [(f, replicate k None)])).

Definition functionOf_cell (c : nat) (s : Cells) : outcome Err nat :=
  let! b := opt (blocks s !! c) in Ret b.1.

Definition upvaluesSize_cell (c : nat) (s : Cells) : outcome Err nat :=
  let! b := opt (blocks s !! c) in Ret (length b.2).

Definition bind_cell (c i : nat) (x : option nat) (s : Cells) : outcome Err Cells :=
  let 'mkCells n vs ce bs := s in
  let! b := opt (bs !! c) in
  if i <? length b.2 then Ret (mkCells n vs ce (<[c := (b.1, <[i := x]> b.2)]> bs)) else UB.

Definition capture_cell (c i slot : nat) (s : Cells) : outcome Err Cells :=
  let! x := opt (vars s !! slot) in bind_cell c i (Some x) s.

Definition cell_at (c j : nat) (s : Cells) : outcome Err (option nat) :=
  let! b := opt (blocks s !! c) in opt (b.2 !! j).

Definition inherit_cell (c i p j : nat) (s : Cells) : outcome Err Cells :=
  let! x := cell_at p j s in bind_cell c i x s.

Definition getUpvalue_cell (c j : nat) (s : Cells) : outcome Err Val :=
  let! o := cell_at c j s in
  let! x := opt o in opt (cells s !! x).

Definition setUpvalue_cell (c j : nat) (v : Val) (s : Cells) : outcome Err Cells :=
  let! o := cell_at c j s in
  let! x := opt o in set_cell x v s.

(** Leaving the slots from [i] up: what was captured keeps its cell, the slots, while they
    last, are new variables of the same values. *)
Fixpoint renew (l : list nat) (s : Cells) : outcome Err Cells :=
  match l with
  | [] => Ret s
  | x :: l' =>
      let 'mkCells n vs ce bs := s in
      let! v := opt (ce !! x) in
      renew l' (mkCells n (vs ++ [length ce]) (ce ++ [v]) bs)
  end.

Definition close (i : nat) (s : Cells) : outcome Err Cells :=
  let 'mkCells n vs ce bs := s in
  renew (drop i vs) (mkCells n (take i vs) ce bs).

End Cel.

#[export] Instance cells_store : Store Cells := {
  depth s := length (vars s);
  push := Cel.push_cell;
  pop := Cel.pop_cell;
  load := Cel.load_cell;
  assign := Cel.assign_cell;
  close := Cel.close;
  closureVal := Cel.closureVal_cell;
  functionOf := Cel.functionOf_cell;
  upvaluesSize := Cel.upvaluesSize_cell;
  capture := Cel.capture_cell;
  inherit := Cel.inherit_cell;
  getUpvalue := Cel.getUpvalue_cell;
  setUpvalue := Cel.setUpvalue_cell;
  clear s := Ret (mkCells (limit s) [] (cells s) (blocks s))
}.

(** ** Frames and the rest of a thread *)

Record ExceptionHandler := mkHandler { handlerIp : nat; stackDepth : nat; frameDepth : nat }.

(** [parent] counts frames from the outermost. *)
Record CallFrame := mkFrame {
  closure : nat;
  ip : nat;
  slots : nat;
  parent : option nat;
  frameStrict : bool;
  callerStrict : bool;
  tailArgValues : list Val;
  reorderArgs : list Z;
  exceptionHandlers : list ExceptionHandler;
  isEventHandler : bool;
  isContinuationCallback : bool;
  isConstructorSetter : bool;
  initsModule : bool;
  unwindOnReturn : bool
}.

(** What events, native continuations and constructors leave in a thread. *)
Record Pending := mkPending {
  eventDispatchActive : bool;
  eventHandlerJustReturned : bool;
  continuationCallbackReturned : bool;
  nativeContinuationStack : list (option nat);
  closureParamConversionStack : nat;
  pendingSetterCount : nat;
  pendingConstructorInstance : Val;
  pendingConstructorFrameDepth : nat
}.

(** [frames] and the handlers of a frame have the innermost first ([back()]).
    [initialized]: the modules whose body has run. *)
Record Thread := mkThread {
  functions : list ObjFunction;
  frames : list CallFrame;
  frameStart : bool;
  pending : Pending;
  initialized : list nat;
  inActorCall : bool;
  pendingUncaughtException : option Val;
  runtimeErrorFlag : bool;
  callFrameLimit : nat
}.

Definition with_frames (f : list CallFrame -> list CallFrame) (t : Thread) : Thread :=
  let 'mkThread fn fr st pe ini act unc err lim := t in mkThread fn (f fr) st pe ini act unc err lim.
Definition with_functions (f : list ObjFunction -> list ObjFunction) (t : Thread) : Thread :=
  let 'mkThread fn fr st pe ini act unc err lim := t in mkThread (f fn) fr st pe ini act unc err lim.
Definition with_frameStart (b : bool) (t : Thread) : Thread :=
  let 'mkThread fn fr _ pe ini act unc err lim := t in mkThread fn fr b pe ini act unc err lim.
Definition with_pending (f : Pending -> Pending) (t : Thread) : Thread :=
  let 'mkThread fn fr st pe ini act unc err lim := t in mkThread fn fr st (f pe) ini act unc err lim.
Definition with_initialized (f : list nat -> list nat) (t : Thread) : Thread :=
  let 'mkThread fn fr st pe ini act unc err lim := t in mkThread fn fr st pe (f ini) act unc err lim.
Definition with_uncaught (e : Val) (t : Thread) : Thread :=
  let 'mkThread fn fr st pe ini act _ err lim := t in mkThread fn fr st pe ini act (Some e) err lim.
Definition with_error (t : Thread) : Thread :=
  let 'mkThread fn fr st pe ini act unc _ lim := t in mkThread fn fr st pe ini act unc true lim.

Definition with_ip (f : nat -> nat) (c : CallFrame) : CallFrame :=
  let 'mkFrame cl i sl pa fs cs ta re ex ev co se im un := c in mkFrame cl (f i) sl pa fs cs ta re ex ev co se im un.
Definition with_args (ta' : list Val) (re' : list Z) (c : CallFrame) : CallFrame :=
  let 'mkFrame cl i sl pa fs cs ta re ex ev co se im un := c in mkFrame cl i sl pa fs cs ta' re' ex ev co se im un.
Definition with_handlers (f : list ExceptionHandler -> list ExceptionHandler) (c : CallFrame) : CallFrame :=
  let 'mkFrame cl i sl pa fs cs ta re ex ev co se im un := c in mkFrame cl i sl pa fs cs ta re (f ex) ev co se im un.
Definition with_place (pa' : option nat) (sl' : nat) (c : CallFrame) : CallFrame :=
  let 'mkFrame cl i sl pa fs cs ta re ex ev co se im un := c in mkFrame cl i sl' pa' fs cs ta re ex ev co se im un.

Definition event_returned (p : Pending) : Pending :=
  let 'mkPending ea ej cr ns cc ps pi pd := p in mkPending ea true cr ns cc ps pi pd.
Definition callback_returned (p : Pending) : Pending :=
  let 'mkPending ea ej cr ns cc ps pi pd := p in mkPending ea ej true ns cc ps pi pd.
Definition no_event (p : Pending) : Pending :=
  let 'mkPending ea ej cr ns cc ps pi pd := p in mkPending false false cr ns cc ps pi pd.
Definition no_setters (p : Pending) : Pending :=
  let 'mkPending ea ej cr ns cc ps pi pd := p in mkPending ea ej cr ns cc 0 Nil pd.
Definition pop_continuation (p : Pending) : Pending :=
  let 'mkPending ea ej cr ns cc ps pi pd := p in mkPending ea ej cr (drop 1 ns) cc ps pi pd.
Definition pop_conversion (p : Pending) : Pending :=
  let 'mkPending ea ej cr ns cc ps pi pd := p in mkPending ea ej cr ns (cc - 1) ps pi pd.

Inductive Status := OK | RuntimeError.

(** ** The interpreter's effects: the state of the thread, undefined behaviour, and errors
    that keep the state they left. *)

Section Effects.
Context {S : Type}.

Record VM := mkVM { vars_of : S; thread : Thread }.

Definition M (A : Type) : Type := VM -> outcome (Err * VM) (A * VM).

Definition ret {A} (a : A) : M A := fun v => Ret (a, v).
Definition bind {A B} (m : M A) (k : A -> M B) : M B :=
  fun v => match m v with
           | Ret (a, v') => k a v'
           | Throw e => Throw e
           | UB => UB
           end.
Definition ub {A} : M A := fun _ => UB.
Definition throw {A} (e : Err) : M A := fun v => Throw (e, v).
Definition opt_ub {A} (o : option A) : M A := match o with Some a => ret a | None => ub end.

(** An operation of the store that reads it, and one that changes it. *)
Definition reads {A} (f : S -> outcome Err A) : M A :=
  fun v => match f (vars_of v) with
           | Ret a => Ret (a, v)
           | Throw e => Throw (e, v)
           | UB => UB
           end.
Definition writes {A} (f : S -> outcome Err (A * S)) : M A :=
  fun v => match f (vars_of v) with
           | Ret (a, s) => Ret (a, mkVM s (thread v))
           | Throw e => Throw (e, v)
           | UB => UB
           end.
Definition quiet (f : S -> outcome Err S) (s : S) : outcome Err (unit * S) :=
  let! s' := f s in Ret (tt, s').
Definition asks {A} (f : Thread -> A) : M A := fun v => Ret (f (thread v), v).
Definition alters (f : Thread -> Thread) : M unit := fun v => Ret (tt, mkVM (vars_of v) (f (thread v))).

(** [catch (const std::exception&)]; [Beyond] is none of the program's. *)
Definition catch {A} (m : M A) (h : M A) : M A :=
  fun v => match m v with
           | Throw (Beyond, v') => Throw (Beyond, v')
           | Throw (_, v') => h v'
           | r => r
           end.

Fixpoint repeat_ (n : nat) (m : M unit) : M unit :=
  match n with O => ret tt | Datatypes.S n' => bind m (fun _ => repeat_ n' m) end.

Fixpoint each {A} (f : A -> M unit) (l : list A) : M unit :=
  match l with [] => ret tt | a :: l' => bind (f a) (fun _ => each f l') end.

Fixpoint collect {A B} (f : A -> M B) (l : list A) : M (list B) :=
  match l with
  | [] => ret []
  | a :: l' => bind (f a) (fun b => bind (collect f l') (fun bs => ret (b :: bs)))
  end.

End Effects.

Arguments VM : clear implicits.
Arguments M : clear implicits.

Declare Scope machine_scope.
Delimit Scope machine_scope with machine.
Notation "x <-- m ;; k" := (bind m (fun x => k)) (at level 60, m at level 59, right associativity) : machine_scope.
Notation "m ;;; k" := (bind m (fun _ => k)) (at level 60, right associativity) : machine_scope.
Local Open Scope machine_scope.

(** ** The interpreter *)

Section Interpreter.
Context {S : Type} `{Store S}.

Implicit Types (A B : Type).

Definition depthM : M S nat := reads (fun s => Ret (depth s)).
Definition pushM (v : Val) : M S unit := writes (quiet (push v)).
Definition popM : M S Val := writes pop.
Definition loadM (i : nat) : M S Val := reads (load i).
Definition assignM (i : nat) (v : Val) : M S unit := writes (quiet (assign i v)).
Definition closeM (i : nat) : M S unit := writes (quiet (close i)).

Definition popN (n : nat) : M S unit := repeat_ n (popM ;;; ret tt).

(** [Thread::popToDepth]; also the counted loops that pop down to a place. *)
Definition popToDepth (n : nat) : M S unit :=
  top <-- depthM ;; popN (top - n).

Definition peekIndex (distance : nat) : M S nat :=
  top <-- depthM ;; if distance <? top then ret (top - 1 - distance) else ub.
Definition peek (distance : nat) : M S Val := i <-- peekIndex distance ;; loadM i.

Definition frame : M S CallFrame :=
  fs <-- asks frames ;; match fs with f :: _ => ret f | [] => ub end.
Definition framesSize : M S nat := asks (fun t => length (frames t)).
Definition set_frame (f : CallFrame -> CallFrame) : M S unit :=
  alters (with_frames (fun fs => match fs with c :: fs' => f c :: fs' | [] => [] end)).

Definition popFrame : M S unit :=
  fs <-- asks frames ;;
  match fs with _ :: _ => alters (with_frames (drop 1)) | [] => ub end.

Definition pushFrame (f : CallFrame) : M S unit :=
  n <-- framesSize ;;
  alters (with_frames (cons (with_place (match n with O => None | Datatypes.S k => Some k end) (slots f) f))).

Definition functionObj (f : nat) : M S ObjFunction :=
  fs <-- asks functions ;; opt_ub (fs !! f).
Definition closureFunction (c : nat) : M S ObjFunction :=
  f <-- reads (functionOf c) ;; functionObj f.

(** ** Reading the code *)

Definition readByte : M S Z :=
  f <-- frame ;;
  fn <-- closureFunction (closure f) ;;
  b <-- opt_ub (fnCode fn !! ip f) ;;
  set_frame (with_ip Datatypes.S) ;;;
  ret b.

Definition readShort : M S Z :=
  hi <-- readByte ;;
  lo <-- readByte ;;
  ret (Z.lor (Z.shiftl hi 8) lo).

Definition readArg (singleByteArg : bool) : M S Z :=
  if singleByteArg then readByte else readShort.

(** [(readByte() << 8) + readByte()]: C++ does not order the two calls; the first is
    taken first, as the compiler writes them. *)
Definition readConstant (singleByteArg : bool) : M S Val :=
  i <-- (if singleByteArg then readByte
         else hi <-- readByte ;; lo <-- readByte ;; ret (Z.shiftl hi 8 + lo)%Z) ;;
  f <-- frame ;;
  fn <-- closureFunction (closure f) ;;
  opt_ub (fnConstants fn !! Z.to_nat i).

(** [CallSpec(frame->ip)]. *)
Definition readCallSpec : M S CallSpec :=
  f <-- frame ;;
  fn <-- closureFunction (closure f) ;;
  r <-- opt_ub (read_spec (drop (ip f) (fnCode fn))) ;;
  set_frame (with_ip (fun _ => length (fnCode fn) - length r.2)) ;;;
  ret r.1.

(** ** Errors *)

Definition resetStack : M S unit :=
  writes (quiet clear) ;;;
  alters (with_frames (fun _ => [])) ;;;
  alters (with_pending no_setters) ;;;
  alters (with_frameStart false).

(** [runtimeError]: the message goes to the domain, and no debugger is armed. *)
Definition runtimeError : M S unit := alters with_error ;;; resetStack.
Definition reportStackOverflow : M S unit := runtimeError.

Definition errorReturn : M S (option (Status * Val)) := ret (Some (RuntimeError, Nil)).

(** ** Calls *)

Definition new_frame (c : nat) (sl : nat) (st caller : bool) (reorder : list Z) : CallFrame :=
  mkFrame c 0 sl None st caller [] reorder [] false false false false false.

(** The end of [VM::call]: the frame itself. *)
Definition enter (c : nat) (argCount : nat) (reorder : list Z) : M S bool :=
  n <-- framesSize ;;
  lim <-- asks callFrameLimit ;;
  if lim <? n then reportStackOverflow ;;; ret false
  else
    top <-- depthM ;;
    if top <? argCount + 1 then ub
    else
      fn <-- closureFunction c ;;
      fs <-- asks frames ;;
      pushFrame (new_frame c (top - argCount - 1) (strict fn)
                   (match fs with f :: _ => frameStrict f | [] => false end) reorder) ;;;
      alters (with_frameStart true) ;;;
      ret true.

(** The frame of a parameter's default: [call] it without arguments and take its frame
    off again.  Should the call fail, the stack has been reset and there is no frame to
    take.  A default is compiled as a function of no parameters. *)
Definition defaultFrame (c : nat) : M S CallFrame :=
  fn <-- closureFunction c ;;
  if hasVariadic (funcType fn) || negb (arity fn =? 0) then throw Beyond
  else
    _ <-- (if builtinStub fn then runtimeError ;;; ret false else enter c 0 []) ;;
    f <-- frame ;;
    popFrame ;;;
    ret f.

(** The loop over the parameters that were given no argument, or are to collect the rest:
    [None] where it gives up. *)
Fixpoint supply_missing (fn : ObjFunction) (variadicList : Val) (ps : list (option param_type)) (positions : list Z)
    (argCount : nat) (done : list Z) (defs : list (nat * CallFrame)) : M S (option (list Z * nat * list (nat * CallFrame))) :=
  match positions with
  | [] => ret (Some (done, argCount, defs))
  | p :: positions' =>
      if (p =? -1)%Z then
        match ps with
        | Some q :: ps' =>
            if p_variadic q then
              pushM (ListV []) ;;;
              supply_missing fn variadicList ps' positions' (argCount + 1) (done ++ [Z.of_nat argCount]) defs
            else
              match list_find (fun e => e.1 = p_nameHashCode q) (paramDefaultFunc fn) with
              | None => ub
              | Some (_, (_, d)) =>
                  df <-- functionObj d ;;
                  c <-- writes (fun s => Ret (closureVal d (upvalueCount df) s)) ;;
                  n <-- reads (upvaluesSize c) ;;
                  if 0 <? n then runtimeError ;;; ret None
                  else
                    f <-- defaultFrame c ;;
                    pushM Nil ;;;
                    supply_missing fn variadicList ps' positions' (argCount + 1)
                      (done ++ [Z.of_nat argCount]) (defs ++ [(c, f)])
              end
        | _ => ub
        end
      else if (p =? -2)%Z then
        pushM variadicList ;;;
        supply_missing fn variadicList (drop 1 ps) positions' (argCount + 1) (done ++ [Z.of_nat argCount]) defs
      else supply_missing fn variadicList (drop 1 ps) positions' argCount (done ++ [p]) defs
  end.

Definition in_order (positions : list Z) : bool :=
  bool_decide (positions = Z.of_nat <$> seq 0 (length positions)).

(** What [VM::call] does with arguments that are not simply all there, in order. *)
Definition arrange (fn : ObjFunction) (spec : CallSpec) : M S (option (list Z * nat * list (nat * CallFrame))) :=
  match paramPositions spec (funcType fn) with
  | UB => ub
  | Throw msg => throw (BadCall msg)
  | Ret positions =>
      let variadic := hasVariadic (funcType fn) in
      let n := Z.to_nat (argCount spec) in
      let assigned := length (filter (fun p => (0 <= p)%Z) (take (arity fn) positions)) in
      r <-- (if variadic && (assigned <? n) then
               top <-- depthM ;;
               if top <? n - assigned then ub
               else
                 l <-- collect loadM (seq (top - (n - assigned)) (n - assigned)) ;;
                 popN (n - assigned) ;;;
                 ret (ListV l, assigned)
             else ret (Nil, n)) ;;
      let '(variadicList, n1) := r in
      if (n1 <? arity fn) || variadic then
        o <-- supply_missing fn variadicList (params (funcType fn)) positions n1 [] [] ;;
        match o with
        | None => ret None
        | Some (positions', n2, defs) =>
            ret (Some (if in_order positions' then [] else positions', n2, defs))
        end
      else if (arity fn <? n1) && negb variadic then runtimeError ;;; ret None
      else ret (Some (positions, n1, []))
  end.

(** The default frames, above the callee's; each has the callee for its parent. *)
Definition push_default (parentIndex : nat) (d : nat * CallFrame) : M S unit :=
  pushM (ClosureV d.1) ;;;
  top <-- depthM ;;
  alters (with_frames (cons (with_place (Some parentIndex) (top - 1) d.2))) ;;;
  alters (with_frameStart true).

Definition call (c : nat) (spec : CallSpec) : M S bool :=
  fn <-- closureFunction c ;;
  if builtinStub fn then runtimeError ;;; ret false
  else
    o <-- (if hasVariadic (funcType fn)
              || negb (allPositional spec && (argCount spec =? Z.of_nat (arity fn))%Z)
           then arrange fn spec
           else ret (Some ([], Z.to_nat (argCount spec), []))) ;;
    match o with
    | None => ret false
    | Some (reorder, n, defs) =>
        ok <-- enter c n reorder ;;
        if negb ok then ret false
        else
          k <-- framesSize ;;
          each (push_default (k - 1)) (rev defs) ;;;
          k' <-- framesSize ;;
          lim <-- asks callFrameLimit ;;
          if (0 <? length defs) && (lim <? k') then reportStackOverflow ;;; ret false
          else ret true
    end.

(** What a frame does before its first instruction. *)
Definition typed_param (p : option param_type) : bool :=
  match p with Some q => match p_type q with Some _ => true | None => false end | None => false end.

Definition startFrame : M S unit :=
  f <-- frame ;;
  fn <-- closureFunction (closure f) ;;
  let tail_ := tailArgValues f in
  (if bool_decide (tail_ = []) then ret tt
   else if arity fn <? length tail_ then ub
   else each (fun e => assignM (slots f + 1 + (arity fn - length tail_) + e.1) e.2)
             (zip (seq 0 (length tail_)) tail_)) ;;;
  (if bool_decide (reorderArgs f = []) then ret tt
   else
     popped <-- collect (fun _ => popM) (reorderArgs f) ;;
     let args_ := rev popped in
     each (fun r => v <-- (if (r <? 0)%Z then ub else opt_ub (args_ !! Z.to_nat r)) ;; pushM v) (reorderArgs f)) ;;;
  set_frame (with_args [] []) ;;;
  if existsb typed_param (params (funcType fn)) then throw Beyond else ret tt.

(** ** Returns and exceptions *)

Definition opReturn : M S Val :=
  f <-- frame ;;
  (if isEventHandler f then alters (with_pending event_returned) else ret tt) ;;;
  (if isContinuationCallback f then alters (with_pending callback_returned) else ret tt) ;;;
  (if initsModule f then
     fn <-- closureFunction (closure f) ;;
     match moduleType fn with
     | Some m => alters (with_initialized (cons m))
     | None => ret tt
     end
   else ret tt) ;;;
  result <-- popM ;;
  closeM (slots f) ;;;
  popFrame ;;;
  n <-- framesSize ;;
  (if (0 <? n) || unwindOnReturn f then popToDepth (slots f) else ret tt) ;;;
  ret result.

Definition unwindFrame : M S unit :=
  f <-- frame ;;
  p <-- asks pending ;;
  (if isEventHandler f && eventDispatchActive p then alters (with_pending no_event) else ret tt) ;;;
  (if isConstructorSetter f && (0 <? pendingSetterCount p) then alters (with_pending no_setters) else ret tt) ;;;
  sl <-- (if isContinuationCallback f then
            match nativeContinuationStack p with
            | cont :: _ =>
                alters (with_pending pop_continuation) ;;;
                ret (match cont with Some resultSlotIndex => resultSlotIndex | None => slots f end)
            | [] =>
                (if 0 <? closureParamConversionStack p then alters (with_pending pop_conversion) else ret tt) ;;;
                ret (slots f)
            end
          else ret (slots f)) ;;
  closeM sl ;;;
  top <-- depthM ;;
  (if top <? sl then ub else popN (top - sl)) ;;;
  popFrame.

(** [reportUncaughtInInvocation], as far as the thread is concerned. *)
Definition reportUncaughtInInvocation : M S unit := alters with_error.

Fixpoint unwind_frames_to (fuel n : nat) : M S unit :=
  k <-- framesSize ;;
  if n <? k then
    match fuel with O => ub | Datatypes.S fuel' => unwindFrame ;;; unwind_frames_to fuel' n end
  else ret tt.

(** The loop of [unwindToExceptionHandler]. *)
Fixpoint find_handler (fuel : nat) (exc : Val) : M S bool :=
  fs <-- asks frames ;;
  match fs with
  | [] =>
      alters (with_uncaught exc) ;;;
      fwd <-- asks inActorCall ;;
      (if negb fwd then runtimeError else resetStack) ;;;
      ret false
  | cf :: _ =>
      match exceptionHandlers cf with
      | h :: _ =>
          set_frame (with_handlers (drop 1)) ;;;
          unwind_frames_to (length fs) (frameDepth h) ;;;
          _ <-- frame ;;
          set_frame (with_ip (fun _ => handlerIp h)) ;;;
          popToDepth (stackDepth h) ;;;
          pushM exc ;;;
          ret true
      | [] =>
          if unwindOnReturn cf then
            unwindFrame ;;; reportUncaughtInInvocation ;;; ret false
          else
            match fuel with O => ub | Datatypes.S fuel' => unwindFrame ;;; find_handler fuel' exc end
      end
  end.

Definition unwindToExceptionHandler (exc : Val) : M S bool :=
  n <-- framesSize ;;
  find_handler n (match exc with ExceptionV _ => exc | _ => ExceptionV exc end).

(** ** Instructions *)

(** [execute]'s view of how deep it was entered: whether inside another [execute], and
    how many frames there were. *)
Record Entry := mkEntry { nested : bool; frameDepthOnEntry : nat }.

Definition next : M S (option (Status * Val)) := ret None.

(** Whether the frame that returned was the one [execute] was started for. *)
Definition finished (e : Entry) : M S bool :=
  n <-- framesSize ;;
  ret (if nested e then n <? frameDepthOnEntry e else n =? 0).

(** A frame not yet begun, back on top, does its beginning now. *)
Definition refreshFrame : M S unit :=
  f <-- frame ;;
  if ip f =? 0 then alters (with_frameStart true) else ret tt.

Definition setParentTail (result : Val) : CallFrame -> CallFrame :=
  fun f => with_args (tailArgValues f ++ [result]) (reorderArgs f) f.

(** [parentFrame->tailArgValues.push_back(result)]; frames are counted from the outermost. *)
Definition storeInParent (p : option nat) (result : Val) : M S unit :=
  match p with
  | None => ub
  | Some i =>
      n <-- framesSize ;;
      if i <? n then alters (with_frames (alter (setParentTail result) (n - 1 - i))) else ub
  end.

(** The fast paths on two inline integers; other operands are not modelled. *)
Definition intOp (f : Z -> Z -> option Val) : M S unit :=
  i <-- peekIndex 1 ;;
  a <-- loadM i ;;
  b <-- peek 0 ;;
  match a, b with
  | Int x, Int y =>
      match f x y with
      | Some v => assignM i v ;;; popM ;;; ret tt
      | None => throw Beyond
      end
  | _, _ => throw Beyond
  end.

Definition compare (f : Z -> Z -> bool) : M S unit := intOp (fun x y => Some (Bool (f x y))).

(** [Value::intVal], as long as the result is an inline integer. *)
Definition arith (f : Z -> Z -> Z) : M S unit :=
  intOp (fun x y => let r := f x y in if wrapS 32 r =? r then Some (Int r) else None)%Z.

(** A jump forwards when the value on top says so; it stays on top. *)
Definition jump_if (test : Val -> bool) : M S unit :=
  dist <-- readShort ;;
  v <-- peek 0 ;;
  if test v then set_frame (with_ip (fun i => i + Z.to_nat dist)) else ret tt.

Definition opClosure (single : bool) : M S unit :=
  function <-- readConstant single ;;
  match function with
  | FunctionV g =>
      fn <-- functionObj g ;;
      c <-- writes (fun s => Ret (closureVal g (upvalueCount fn) s)) ;;
      f <-- frame ;;
      here <-- reads (functionOf (closure f)) ;;
      mine <-- functionObj here ;;
      (match ownerType fn, ownerType mine with
       | Nil, Nil => ret tt
       | Nil, o => alters (with_functions (alter (fun k =>
                     mkFunction (fnCode k) (fnConstants k) (arity k) (upvalueCount k) (funcType k)
                       (paramDefaultFunc k) (builtinStub k) (strict k) o (moduleType k)) g))
       | _, _ => ret tt
       end) ;;;
      pushM (ClosureV c) ;;;
      n <-- reads (upvaluesSize c) ;;
      each (fun i =>
        isLocal <-- readByte ;;
        index <-- readByte ;;
        if (isLocal =? 0)%Z
        then writes (quiet (inherit c i (closure f) (Z.to_nat index)))
        else writes (quiet (capture c i (slots f + Z.to_nat index)))) (seq 0 n)
  | _ => ub
  end.

Definition opCall : M S (option (Status * Val)) :=
  callSpec <-- readCallSpec ;;
  callee <-- peek (Z.to_nat (argCount callSpec)) ;;
  match callee with
  | ClosureV c =>
      ok <-- call c callSpec ;;
      if ok then next else errorReturn
  | _ => throw Beyond
  end.

Definition opReturnPush (e : Entry) : M S (option (Status * Val)) :=
  result <-- opReturn ;;
  pushM result ;;;
  fin <-- finished e ;;
  if fin then v <-- popM ;; ret (Some (OK, v))
  else refreshFrame ;;; next.

Definition opReturnStore (e : Entry) : M S (option (Status * Val)) :=
  f <-- frame ;;
  result <-- opReturn ;;
  fin <-- finished e ;;
  if fin then ret (Some (OK, result))
  else
    p <-- asks pending ;;
    if continuationCallbackReturned p then pushM result ;;; refreshFrame ;;; next
    else storeInParent (parent f) result ;;; refreshFrame ;;; next.

Definition opPopToCount : M S unit :=
  keep <-- readShort ;;
  f <-- frame ;;
  let target := slots f + Z.to_nat keep in
  closeM target ;;;
  popToDepth target.

Definition opSetupExcept : M S unit :=
  off <-- readShort ;;
  f <-- frame ;;
  top <-- depthM ;;
  n <-- framesSize ;;
  set_frame (with_handlers (cons (mkHandler (ip f + Z.to_nat off) top n))).

Definition opThrow : M S (option (Status * Val)) :=
  exc <-- popM ;;
  ok <-- unwindToExceptionHandler exc ;;
  if ok then _ <-- frame ;; next else errorReturn.

Definition instruction (e : Entry) (op : Op.OpCode) (single : bool) : M S (option (Status * Val)) :=
  match op with
  | Op.Nop => next
  | Op.Constant => v <-- readConstant single ;; pushM v ;;; next
  | Op.ConstNil => pushM Nil ;;; next
  | Op.ConstTrue => pushM (Bool true) ;;; next
  | Op.ConstFalse => pushM (Bool false) ;;; next
  | Op.ConstInt0 => pushM (Int 0) ;;; next
  | Op.ConstInt1 => pushM (Int 1) ;;; next
  | Op.Equal => compare Z.eqb ;;; next
  | Op.NotEqual => compare (fun x y => negb (x =? y)%Z) ;;; next
  | Op.Greater => compare Z.gtb ;;; next
  | Op.Less => compare Z.ltb ;;; next
  | Op.GreaterEqual => compare Z.geb ;;; next
  | Op.LessEqual => compare Z.leb ;;; next
  | Op.Add => arith Z.add ;;; next
  | Op.Subtract => arith Z.sub ;;; next
  | Op.Pop | Op.StmtAction => popM ;;; next
  | Op.PopN => n <-- readByte ;; popN (Z.to_nat n) ;;; next
  | Op.PopToCount => opPopToCount ;;; next
  | Op.Dup => v <-- peek 0 ;; pushM v ;;; next
  | Op.DupBelow => v <-- peek 1 ;; pushM v ;;; next
  | Op.Swap =>
      i <-- peekIndex 0 ;; j <-- peekIndex 1 ;;
      a <-- loadM i ;; b <-- loadM j ;;
      assignM i b ;;; assignM j a ;;; next
  | Op.JumpIfFalse => jump_if isFalsey ;;; next
  | Op.JumpIfTrue => jump_if isTruthy ;;; next
  | Op.AndShortCircuit => jump_if isFalsey ;;; next
  | Op.OrShortCircuit => jump_if isTruthy ;;; next
  | Op.Jump => dist <-- readShort ;; set_frame (with_ip (fun i => i + Z.to_nat dist)) ;;; next
  | Op.Loop =>
      dist <-- readShort ;;
      f <-- frame ;;
      if ip f <? Z.to_nat dist then ub
      else set_frame (with_ip (fun i => i - Z.to_nat dist)) ;;; next
  | Op.Call => opCall
  | Op.Closure => opClosure single ;;; next
  | Op.CloseUpvalue => i <-- peekIndex 0 ;; closeM i ;;; popM ;;; next
  | Op.Return => opReturnPush e
  | Op.ReturnStore => opReturnStore e
  | Op.GetLocal =>
      slot <-- readArg single ;;
      f <-- frame ;; v <-- loadM (slots f + Z.to_nat slot) ;; pushM v ;;; next
  | Op.MoveLocal =>
      slot <-- readArg single ;;
      f <-- frame ;; v <-- loadM (slots f + Z.to_nat slot) ;; pushM v ;;;
      assignM (slots f + Z.to_nat slot) Nil ;;; next
  | Op.SetLocal =>
      slot <-- readArg single ;;
      f <-- frame ;; v <-- peek 0 ;; assignM (slots f + Z.to_nat slot) v ;;; next
  | Op.GetUpvalue =>
      slot <-- readArg single ;;
      f <-- frame ;; v <-- reads (getUpvalue (closure f) (Z.to_nat slot)) ;; pushM v ;;; next
  | Op.SetUpvalue =>
      slot <-- readArg single ;;
      f <-- frame ;; v <-- peek 0 ;; writes (quiet (setUpvalue (closure f) (Z.to_nat slot) v)) ;;; next
  | Op.SetupExcept => opSetupExcept ;;; next
  | Op.EndExcept => set_frame (with_handlers (drop 1)) ;;; next
  | Op.Throw => opThrow
  | _ => throw Beyond
  end.

(** One turn of the dispatch loop.  What follows the return of an event handler or of a
    native function's callback is not modelled. *)
Definition turn (e : Entry) : M S (option (Status * Val)) :=
  err <-- asks runtimeErrorFlag ;;
  if err then errorReturn
  else
    p <-- asks pending ;;
    if eventHandlerJustReturned p || continuationCallbackReturned p then throw Beyond
    else
      n <-- framesSize ;;
      (if (0 <? pendingSetterCount p) && (n =? pendingConstructorFrameDepth p) then
         popM ;;; pushM (pendingConstructorInstance p) ;;; alters (with_pending no_setters)
       else ret tt) ;;;
      start <-- asks frameStart ;;
      (if start then startFrame else ret tt) ;;;
      b <-- readByte ;;
      alters (with_frameStart false) ;;;
      match decode b with
      | (Some op, single) => instruction e op single
      | (None, _) => errorReturn
      end.

(** An exception of C++ that reaches the loop is a runtime error. *)
Definition step (e : Entry) : M S (option (Status * Val)) :=
  catch (turn e) (runtimeError ;;; errorReturn).

Fixpoint execute (fuel : nat) (e : Entry) : M S (option (Status * Val)) :=
  match fuel with
  | O => next
  | Datatypes.S fuel' =>
      r <-- step e ;;
      match r with None => execute fuel' e | Some x => ret (Some x) end
  end.

(** ** Programs *)

Definition idle : Pending := mkPending false false false [] 0 0 Nil 0.

(** [invokeClosure] with positional arguments, up to its call of [execute]; the flag goes to the frame of the callee,
    not to those of its defaults. *)
Definition invokeClosure (c : nat) (args_ : list Val) : M S bool :=
  entryDepth <-- depthM ;;
  pushM (ClosureV c) ;;;
  each pushM args_ ;;;
  entryFrames <-- framesSize ;;
  ok <-- call c (positional_spec (Z.of_nat (length args_))) ;;
  if ok then
    n <-- framesSize ;;
    alters (with_frames (alter (fun f =>
      mkFrame (closure f) (ip f) (slots f) (parent f) (frameStrict f) (callerStrict f) (tailArgValues f)
        (reorderArgs f) (exceptionHandlers f) (isEventHandler f) (isContinuationCallback f)
        (isConstructorSetter f) (initsModule f) true) (n - 1 - entryFrames))) ;;;
    ret true
  else popToDepth entryDepth ;;; ret false.

End Interpreter.

Definition empty_stack (size : nat) : Stack := mkStack (replicate size Nil) 0 [] [] [].
Definition empty_cells (size : nat) : Cells := mkCells size [] [] [].

Definition new_thread (fns : list ObjFunction) (lim : nat) : Thread :=
  mkThread fns [] false idle [] false None false lim.

(** A program: function 0 is its body, a closure of it is invoked. *)
Definition program {S} `{Store S} (fns : list ObjFunction) (fuel : nat) : M S (option (Status * Val)) :=
  let n := match fns !! 0 with Some f => upvalueCount f | None => 0 end in
  c <-- writes (fun s => Ret (closureVal 0 n s)) ;;
  ok <-- invokeClosure c [] ;;
  if ok then execute fuel (mkEntry false 1) else errorReturn.

Definition run {S} `{Store S} (s : S) (fns : list ObjFunction) (lim fuel : nat) : outcome (Err * VM S) (option (Status * Val) * VM S) :=
  program fns fuel (mkVM s (new_thread fns lim)).

End Machine.
