(* ===== verification/MachineProofs.v ===== *)
(** * MachineProofs: captured variables behave as cells

    The interpreter of Machine does the same over any two stores one of which refines the
    other ([Refines]); the program's stack refines cells as long as no slot is given up
    with an upvalue open on it. *)

From S2P Require Import Prelude Types Chunk Machine.
From stdpp Require Import numbers list sorting.

Module MachineProofs.

Import Chunk Machine.
Local Open Scope nat_scope.
Local Open Scope machine_scope.

(** ** One store does what another does, or is undefined *)

Definition orel {A B} (R : A -> B -> Prop) (m : outcome Err A) (n : outcome Err B) : Prop :=
  match m with
  | Ret a => exists b, n = Ret b /\ R a b
  | Throw e => n = Throw e
  | UB => True
  end.

Definition with_result {A S T} (R : S -> T -> Prop) (p : A * S) (q : A * T) : Prop := p.1 = q.1 /\ R p.2 q.2.

Class Refines {S T : Type} `{Store S} `{Store T} (R : S -> T -> Prop) : Prop := {
  ref_depth s t : R s t -> depth s = depth t;
  ref_push v s t : R s t -> orel R (push v s) (push v t);
  ref_pop s t : R s t -> orel (with_result R) (pop s) (pop t);
  ref_load i s t : R s t -> orel eq (load i s) (load i t);
  ref_assign i v s t : R s t -> orel R (assign i v s) (assign i v t);
  ref_close i s t : R s t -> orel R (close i s) (close i t);
  ref_closureVal f n s t : R s t -> with_result R (closureVal f n s) (closureVal f n t);
  ref_functionOf c s t : R s t -> orel eq (functionOf c s) (functionOf c t);
  ref_upvaluesSize c s t : R s t -> orel eq (upvaluesSize c s) (upvaluesSize c t);
  ref_capture c i l s t : R s t -> orel R (capture c i l s) (capture c i l t);
  ref_inherit c i p j s t : R s t -> orel R (inherit c i p j s) (inherit c i p j t);
  ref_getUpvalue c j s t : R s t -> orel eq (getUpvalue c j s) (getUpvalue c j t);
  ref_setUpvalue c j v s t : R s t -> orel R (setUpvalue c j v s) (setUpvalue c j v t);
  ref_clear s t : R s t -> orel R (clear s) (clear t)
}.

(** ** The interpreter respects refinement *)

Section Interpreter.
Context {S T : Type} `{HS : Store S} `{HT : Store T} (R : S -> T -> Prop) `{HR : !Refines R}.

Definition vrel (v : VM S) (w : VM T) : Prop := R (vars_of v) (vars_of w) /\ thread v = thread w.

Definition mrel {A} (m : M S A) (n : M T A) : Prop :=
  forall v w, vrel v w ->
  match m v with
  | Ret (a, v') => exists w', n w = Ret (a, w') /\ vrel v' w'
  | Throw (e, v') => exists w', n w = Throw (e, w') /\ vrel v' w'
  | UB => True
  end.

Lemma mrel_ret {A} (a : A) : mrel (ret a) (ret a).
Proof. intros v w Hv. by exists w. Qed.

Lemma mrel_ub {A} (n : M T A) : mrel ub n.
Proof. by intros v w Hv. Qed.

Lemma mrel_throw {A} e : mrel (throw (A := A) e) (throw e).
Proof. intros v w Hv. by exists w. Qed.

Lemma mrel_bind {A B} (m : M S A) n (k : A -> M S B) l :
  mrel m n -> (forall a, mrel (k a) (l a)) -> mrel (bind m k) (bind n l).
Proof.
  intros Hm Hk v w Hv. unfold bind. specialize (Hm v w Hv).
  destruct (m v) as [[a v']|[e v']|]; [| |done].
  - destruct Hm as (w' & -> & Hv'). by apply Hk.
  - destruct Hm as (w' & -> & Hv'). by exists w'.
Qed.

Lemma mrel_opt {A} (o : option A) : mrel (opt_ub o) (opt_ub o).
Proof. destruct o; [apply mrel_ret|apply mrel_ub]. Qed.

Lemma mrel_asks {A} (f : Thread -> A) : mrel (asks f) (asks f).
Proof. intros v w Hv. exists w. split; [|done]. unfold asks. by rewrite (proj2 Hv). Qed.

Lemma mrel_alters f : mrel (alters f) (alters f).
Proof. intros v w [Hs Ht]. eexists. split; [done|]. split; [done|]. simpl. by rewrite Ht. Qed.

Lemma mrel_reads {A} (f : S -> outcome Err A) g :
  (forall s t, R s t -> orel eq (f s) (g t)) -> mrel (reads f) (reads g).
Proof.
  intros Hf v w Hv. unfold reads. specialize (Hf _ _ (proj1 Hv)).
  destruct (f (vars_of v)) as [a|e|]; [|by rewrite Hf; exists w|done].
  destruct Hf as (b & -> & ->). by exists w.
Qed.

Lemma mrel_writes {A} (f : S -> outcome Err (A * S)) g :
  (forall s t, R s t -> orel (with_result R) (f s) (g t)) -> mrel (writes f) (writes g).
Proof.
  intros Hf v w Hv. unfold writes. specialize (Hf _ _ (proj1 Hv)).
  destruct (f (vars_of v)) as [[a s]|e|]; [|by rewrite Hf; exists w|done].
  destruct Hf as ([b t] & -> & Hab & Hst). simpl in *. subst b.
  eexists. split; [done|]. split; [done|]. apply Hv.
Qed.

Lemma mrel_quiet (f : S -> outcome Err S) g :
  (forall s t, R s t -> orel R (f s) (g t)) -> mrel (writes (quiet f)) (writes (quiet g)).
Proof.
  intros Hf. apply mrel_writes. intros s t Hst. unfold quiet. specialize (Hf s t Hst).
  destruct (f s) as [s'|e|]; simpl in *; [|by rewrite Hf|done].
  destruct Hf as (t' & -> & Ht). by eexists.
Qed.

Lemma mrel_closureVal f n :
  mrel (writes (fun s => Ret (closureVal f n s))) (writes (fun s => Ret (closureVal f n s))).
Proof. apply mrel_writes. intros s t Hst. eexists. split; [done|]. by apply ref_closureVal. Qed.

Lemma mrel_catch {A} (m h : M S A) n k : mrel m n -> mrel h k -> mrel (catch m h) (catch n k).
Proof.
  intros Hm Hh v w Hv. unfold catch. specialize (Hm v w Hv).
  destruct (m v) as [[a v']|[e v']|]; [by destruct Hm as (w' & -> & Hv'); exists w'| |done].
  destruct Hm as (w' & -> & Hv'). destruct e; [by apply Hh..|by exists w'].
Qed.

Lemma mrel_repeat n (m : M S unit) k : mrel m k -> mrel (repeat_ n m) (repeat_ n k).
Proof. intros Hm. induction n; simpl; [apply mrel_ret|]. by apply mrel_bind. Qed.

Lemma mrel_each {A} (f : A -> M S unit) g l : (forall a, mrel (f a) (g a)) -> mrel (each f l) (each g l).
Proof. intros Hf. induction l; simpl; [apply mrel_ret|]. by apply mrel_bind. Qed.

Lemma mrel_collect {A B} (f : A -> M S B) g l : (forall a, mrel (f a) (g a)) -> mrel (collect f l) (collect g l).
Proof.
  intros Hf. induction l; simpl; [apply mrel_ret|]. apply mrel_bind; [done|]. intros b.
  apply mrel_bind; [done|]. intros bs. apply mrel_ret.
Qed.

#[local] Hint Resolve mrel_ret mrel_ub mrel_throw mrel_opt mrel_asks mrel_alters mrel_closureVal : mrel.

Lemma mrel_depth : mrel depthM depthM.
Proof. apply mrel_reads. intros s t Hst. eexists. split; [done|]. by apply ref_depth. Qed.
Lemma mrel_push v : mrel (pushM v) (pushM v).
Proof. apply mrel_quiet. apply ref_push. Qed.
Lemma mrel_pop : mrel popM popM.
Proof. apply mrel_writes. apply ref_pop. Qed.
Lemma mrel_load i : mrel (loadM i) (loadM i).
Proof. apply mrel_reads. apply ref_load. Qed.
Lemma mrel_assign i v : mrel (assignM i v) (assignM i v).
Proof. apply mrel_quiet. apply ref_assign. Qed.
Lemma mrel_close i : mrel (closeM i) (closeM i).
Proof. apply mrel_quiet. apply ref_close. Qed.
Lemma mrel_functionOf c : mrel (reads (functionOf c)) (reads (functionOf c)).
Proof. apply mrel_reads. apply ref_functionOf. Qed.
Lemma mrel_upvaluesSize c : mrel (reads (upvaluesSize c)) (reads (upvaluesSize c)).
Proof. apply mrel_reads. apply ref_upvaluesSize. Qed.
Lemma mrel_capture c i l : mrel (writes (quiet (capture c i l))) (writes (quiet (capture c i l))).
Proof. apply mrel_quiet. apply ref_capture. Qed.
Lemma mrel_inherit c i p j : mrel (writes (quiet (inherit c i p j))) (writes (quiet (inherit c i p j))).
Proof. apply mrel_quiet. apply ref_inherit. Qed.
Lemma mrel_getUpvalue c j : mrel (reads (getUpvalue c j)) (reads (getUpvalue c j)).
Proof. apply mrel_reads. apply ref_getUpvalue. Qed.
Lemma mrel_setUpvalue c j v : mrel (writes (quiet (setUpvalue c j v))) (writes (quiet (setUpvalue c j v))).
Proof. apply mrel_quiet. apply ref_setUpvalue. Qed.
Lemma mrel_clear : mrel (writes (quiet clear)) (writes (quiet clear)).
Proof. apply mrel_quiet. apply ref_clear. Qed.

#[local] Hint Resolve mrel_depth mrel_push mrel_pop mrel_load mrel_assign mrel_close mrel_functionOf mrel_upvaluesSize
  mrel_capture mrel_inherit mrel_getUpvalue mrel_setUpvalue mrel_clear : mrel.

(** Both sides are the same program. *)
Ltac mrel_step :=
  first
    [ solve [auto with mrel nocore]
    | apply mrel_bind; [|intros ?]
    | apply mrel_repeat
    | apply mrel_each; intros ?
    | apply mrel_collect; intros ?
    | apply mrel_catch
    | match goal with |- mrel (match ?x with _ => _ end) _ => destruct x end
    | match goal with |- mrel (let _ := _ in _) _ => cbv zeta end ].
Ltac mrel_go := repeat mrel_step.
Ltac mrel_unfold d := unfold d; mrel_go.

Lemma mrel_popN n : mrel (popN n) (popN n).
Proof. mrel_unfold (@popN). Qed.
#[local] Hint Resolve mrel_popN : mrel.
Lemma mrel_popToDepth n : mrel (popToDepth n) (popToDepth n).
Proof. mrel_unfold (@popToDepth). Qed.
Lemma mrel_peekIndex n : mrel (peekIndex n) (peekIndex n).
Proof. mrel_unfold (@peekIndex). Qed.
#[local] Hint Resolve mrel_popToDepth mrel_peekIndex : mrel.
Lemma mrel_peek n : mrel (peek n) (peek n).
Proof. mrel_unfold (@peek). Qed.
Lemma mrel_frame : mrel frame frame.
Proof. mrel_unfold (@frame). Qed.
Lemma mrel_framesSize : mrel framesSize framesSize.
Proof. apply mrel_asks. Qed.
Lemma mrel_set_frame f : mrel (set_frame f) (set_frame f).
Proof. apply mrel_alters. Qed.
Lemma mrel_popFrame : mrel popFrame popFrame.
Proof. mrel_unfold (@popFrame). Qed.
#[local] Hint Resolve mrel_peek mrel_frame mrel_framesSize mrel_set_frame mrel_popFrame : mrel.
Lemma mrel_pushFrame f : mrel (pushFrame f) (pushFrame f).
Proof. mrel_unfold (@pushFrame). Qed.
Lemma mrel_functionObj f : mrel (functionObj f) (functionObj f).
Proof. mrel_unfold (@functionObj). Qed.
#[local] Hint Resolve mrel_pushFrame mrel_functionObj : mrel.
Lemma mrel_closureFunction c : mrel (closureFunction c) (closureFunction c).
Proof. mrel_unfold (@closureFunction). Qed.
#[local] Hint Resolve mrel_closureFunction : mrel.
Lemma mrel_readByte : mrel readByte readByte.
Proof. mrel_unfold (@readByte). Qed.
#[local] Hint Resolve mrel_readByte : mrel.
Lemma mrel_readShort : mrel readShort readShort.
Proof. mrel_unfold (@readShort). Qed.
#[local] Hint Resolve mrel_readShort : mrel.
Lemma mrel_readArg b : mrel (readArg b) (readArg b).
Proof. mrel_unfold (@readArg). Qed.
Lemma mrel_readConstant b : mrel (readConstant b) (readConstant b).
Proof. mrel_unfold (@readConstant). Qed.
Lemma mrel_readCallSpec : mrel readCallSpec readCallSpec.
Proof. mrel_unfold (@readCallSpec). Qed.
Lemma mrel_resetStack : mrel resetStack resetStack.
Proof. mrel_unfold (@resetStack). Qed.
#[local] Hint Resolve mrel_readArg mrel_readConstant mrel_readCallSpec mrel_resetStack : mrel.
Lemma mrel_runtimeError : mrel runtimeError runtimeError.
Proof. mrel_unfold (@runtimeError). Qed.
Lemma mrel_errorReturn : mrel errorReturn errorReturn.
Proof. apply mrel_ret. Qed.
Lemma mrel_next : mrel next next.
Proof. apply mrel_ret. Qed.
#[local] Hint Resolve mrel_runtimeError mrel_errorReturn mrel_next : mrel.
Lemma mrel_reportStackOverflow : mrel reportStackOverflow reportStackOverflow.
Proof. apply mrel_runtimeError. Qed.
#[local] Hint Resolve mrel_reportStackOverflow : mrel.
Lemma mrel_enter c n r : mrel (enter c n r) (enter c n r).
Proof. mrel_unfold (@enter). Qed.
#[local] Hint Resolve mrel_enter : mrel.
Lemma mrel_defaultFrame c : mrel (defaultFrame c) (defaultFrame c).
Proof. mrel_unfold (@defaultFrame). Qed.
#[local] Hint Resolve mrel_defaultFrame : mrel.

Lemma mrel_supply_missing fn l ps positions n done defs :
  mrel (supply_missing fn l ps positions n done defs) (supply_missing fn l ps positions n done defs).
Proof.
  revert ps n done defs. induction positions as [|p positions IH]; intros; simpl; [apply mrel_ret|].
  mrel_go; apply IH.
Qed.
#[local] Hint Resolve mrel_supply_missing : mrel.
Lemma mrel_arrange fn spec : mrel (arrange fn spec) (arrange fn spec).
Proof. mrel_unfold (@arrange). Qed.
Lemma mrel_push_default i d : mrel (push_default i d) (push_default i d).
Proof. mrel_unfold (@push_default). Qed.
#[local] Hint Resolve mrel_arrange mrel_push_default : mrel.
Lemma mrel_call c spec : mrel (call c spec) (call c spec).
Proof. mrel_unfold (@call). Qed.
Lemma mrel_startFrame : mrel startFrame startFrame.
Proof. mrel_unfold (@startFrame). Qed.
Lemma mrel_opReturn : mrel opReturn opReturn.
Proof. mrel_unfold (@opReturn). Qed.
Lemma mrel_unwindFrame : mrel unwindFrame unwindFrame.
Proof. mrel_unfold (@unwindFrame). Qed.
#[local] Hint Resolve mrel_call mrel_startFrame mrel_opReturn mrel_unwindFrame : mrel.
Lemma mrel_unwind_frames_to fuel n : mrel (unwind_frames_to fuel n) (unwind_frames_to fuel n).
Proof. induction fuel; simpl; mrel_go. Qed.
#[local] Hint Resolve mrel_unwind_frames_to : mrel.
Lemma mrel_reportUncaught : mrel reportUncaughtInInvocation reportUncaughtInInvocation.
Proof. apply mrel_alters. Qed.
#[local] Hint Resolve mrel_reportUncaught : mrel.
Lemma mrel_find_handler fuel exc : mrel (find_handler fuel exc) (find_handler fuel exc).
Proof. induction fuel; simpl; mrel_go. Qed.
#[local] Hint Resolve mrel_find_handler : mrel.
Lemma mrel_unwind exc : mrel (unwindToExceptionHandler exc) (unwindToExceptionHandler exc).
Proof. mrel_unfold (@unwindToExceptionHandler). Qed.
Lemma mrel_finished e : mrel (finished e) (finished e).
Proof. mrel_unfold (@finished). Qed.
Lemma mrel_refreshFrame : mrel refreshFrame refreshFrame.
Proof. mrel_unfold (@refreshFrame). Qed.
Lemma mrel_storeInParent p v : mrel (storeInParent p v) (storeInParent p v).
Proof. mrel_unfold (@storeInParent). Qed.
Lemma mrel_intOp f : mrel (intOp f) (intOp f).
Proof. mrel_unfold (@intOp). Qed.
Lemma mrel_jump_if f : mrel (jump_if f) (jump_if f).
Proof. mrel_unfold (@jump_if). Qed.
Lemma mrel_opClosure b : mrel (opClosure b) (opClosure b).
Proof. mrel_unfold (@opClosure). Qed.
Lemma mrel_opCall : mrel opCall opCall.
Proof. mrel_unfold (@opCall). Qed.
#[local] Hint Resolve mrel_unwind mrel_finished mrel_refreshFrame mrel_storeInParent mrel_intOp mrel_jump_if
  mrel_opClosure mrel_opCall : mrel.
Lemma mrel_compare f : mrel (compare f) (compare f).
Proof. apply mrel_intOp. Qed.
Lemma mrel_arith f : mrel (arith f) (arith f).
Proof. apply mrel_intOp. Qed.
Lemma mrel_opReturnPush e : mrel (opReturnPush e) (opReturnPush e).
Proof. mrel_unfold (@opReturnPush). Qed.
Lemma mrel_opReturnStore e : mrel (opReturnStore e) (opReturnStore e).
Proof. mrel_unfold (@opReturnStore). Qed.
Lemma mrel_opPopToCount : mrel opPopToCount opPopToCount.
Proof. mrel_unfold (@opPopToCount). Qed.
Lemma mrel_opSetupExcept : mrel opSetupExcept opSetupExcept.
Proof. mrel_unfold (@opSetupExcept). Qed.
Lemma mrel_opThrow : mrel opThrow opThrow.
Proof. mrel_unfold (@opThrow). Qed.
#[local] Hint Resolve mrel_compare mrel_arith mrel_opReturnPush mrel_opReturnStore mrel_opPopToCount mrel_opSetupExcept
  mrel_opThrow : mrel.
Lemma mrel_instruction e op b : mrel (instruction e op b) (instruction e op b).
Proof. destruct op; simpl; mrel_go. Qed.
#[local] Hint Resolve mrel_instruction : mrel.
Lemma mrel_step_ e : mrel (step e) (step e).
Proof. unfold step. apply mrel_catch; [|mrel_go]. mrel_unfold (@turn). Qed.
#[local] Hint Resolve mrel_step_ : mrel.
Lemma mrel_execute fuel e : mrel (execute fuel e) (execute fuel e).
Proof. induction fuel; simpl; mrel_go. Qed.
#[local] Hint Resolve mrel_execute : mrel.
Lemma mrel_invokeClosure c l : mrel (invokeClosure c l) (invokeClosure c l).
Proof. mrel_unfold (@invokeClosure). Qed.
#[local] Hint Resolve mrel_invokeClosure : mrel.

(** Whole runs. *)
Lemma run_refines s t fns lim fuel :
  R s t ->
  match run s fns lim fuel with
  | Ret (r, v) => exists w, run t fns lim fuel = Ret (r, w) /\ vrel v w
  | Throw (e, v) => exists w, run t fns lim fuel = Throw (e, w) /\ vrel v w
  | UB => True
  end.
Proof.
  intros Hst. assert (mrel (program fns fuel) (program fns fuel)) as Hm by mrel_unfold (@program).
  by apply Hm.
Qed.

End Interpreter.

(** ** Minding changes nothing *)

Lemma orel_guarded {A B C} (Q : B -> C -> Prop) ok (f : A -> B) (m : outcome Err A) n :
  (forall a, m = Ret a -> exists c, n = Ret c /\ Q (f a) c) -> (forall e, m = Throw e -> n = Throw e) ->
  orel Q (guarded ok f m) n.
Proof. intros Hr Ht. destruct ok; [|done]. destruct m as [a|e|]; simpl; [by apply Hr|by apply Ht|done]. Qed.

Lemma orel_self {A} (m : outcome Err A) : orel eq m m.
Proof. destruct m; simpl; [by eexists|done..]. Qed.

Lemma orel_minded (m : outcome Err Stack) :
  orel (fun (g : Guarded) s => unguard g = s) (let! a := m in Ret (Guard a)) m.
Proof. destruct m; simpl; [by eexists|done..]. Qed.

#[export] Instance guarded_refines_stack : Refines (fun (g : Guarded) (s : Stack) => unguard g = s).
Proof.
  split; intros; subst; simpl; try done; try apply orel_self;
    try (apply orel_guarded; [intros a ->; eexists; split; [done|]; try done|by intros e ->]);
    apply orel_minded.
Qed.

(** ** Slots and upvalues are cells

    [theta] gives the cell of each upvalue.  A slot on the stack and a closed upvalue hold
    the value of their cells; an open upvalue has the cell of its slot; no cell is that of
    two slots, of two upvalues, or of a slot and a closed upvalue.  The open upvalues lie
    on the stack, the topmost first. *)

Definition place (us : list ObjUpvalue) (u : nat) : option nat := us !! u ≫= location.

Definition upvalue_tracks (vs : list nat) (ce : list Val) (ou : list nat) (x u : nat) (o : ObjUpvalue) : Prop :=
  match location o with
  | Some l => u ∈ ou /\ vs !! l = Some x
  | None => ce !! x = Some (closed o) /\ x ∉ vs
  end.

Record tracks (s : Stack) (c : Cells) (theta : list nat) : Prop := {
  tr_top : stackTop s = length (vars c);
  tr_size : length (stack s) = limit c;
  tr_fits : stackTop s <= length (stack s);
  tr_slots : forall i x, vars c !! i = Some x -> is_Some (cells c !! x) /\ cells c !! x = stack s !! i;
  tr_vars : NoDup (vars c);
  tr_theta : NoDup theta;
  tr_upvals : length theta = length (upvals s);
  tr_upvalue : forall u x o, theta !! u = Some x -> upvals s !! u = Some o ->
                 upvalue_tracks (vars c) (cells c) (openUpvalues s) x u o;
  tr_open : exists ls, Forall2 (fun u l => place (upvals s) u = Some l) (openUpvalues s) ls /\ StronglySorted gt ls;
  tr_closures : Forall2 (fun o b => function o = b.1 /\
                  Forall2 (fun u x => u = None /\ x = None \/ exists a y, u = Some a /\ x = Some y /\ theta !! a = Some y)
                    (upvalues o) b.2) (closures s) (blocks c)
}.

Definition represents (g : Guarded) (c : Cells) : Prop := exists theta, tracks (unguard g) c theta.

Section Tracks.
Implicit Types (st : list Val) (ou : list nat) (us : list ObjUpvalue) (cs : list ObjClosure)
  (vs : list nat) (ce : list Val) (bs : list (nat * list (option nat))) (theta : list nat).

Lemma open_place s c theta u : tracks s c theta -> u ∈ openUpvalues s ->
  exists l x, place (upvals s) u = Some l /\ l < stackTop s /\ theta !! u = Some x /\ vars c !! l = Some x.
Proof.
  intros Ht Hu. destruct (tr_open _ _ _ Ht) as (ls & Hls & _).
  apply list_elem_of_lookup in Hu as [k Hk].
  destruct (Forall2_lookup_l _ _ _ _ _ Hls Hk) as (l & _ & Hl).
  unfold place in Hl. destruct (upvals s !! u) as [o|] eqn:Eo; [|done]. simpl in Hl.
  assert (is_Some (theta !! u)) as [x Hx].
  { apply lookup_lt_is_Some. rewrite (tr_upvals _ _ _ Ht). by eapply lookup_lt_Some. }
  pose proof (tr_upvalue _ _ _ Ht u x o Hx Eo) as Hup. unfold upvalue_tracks in Hup. rewrite Hl in Hup.
  exists l, x. unfold place. rewrite Eo. simpl. split; [done|]. split; [|by split; [|apply Hup]].
  rewrite (tr_top _ _ _ Ht). eapply lookup_lt_Some, Hup.
Qed.

Lemma tracks_above st st' t ou us cs c theta :
  tracks (mkStack st t ou us cs) c theta -> length st' = length st -> (forall i, i < t -> st' !! i = st !! i) ->
  tracks (mkStack st' t ou us cs) c theta.
Proof.
  intros [] Hlen Hsame. split; simpl in *; try done; try congruence.
  intros i x Hx. rewrite Hsame; [by apply tr_slots0|]. subst t. by eapply lookup_lt_Some.
Qed.

Lemma tracks_extend st t ou us cs n vs ce bs theta v :
  tracks (mkStack st t ou us cs) (mkCells n vs ce bs) theta -> st !! t = Some v ->
  tracks (mkStack st (S t) ou us cs) (mkCells n (vs ++ [length ce]) (ce ++ [v]) bs) theta.
Proof.
  intros [] Hv. simpl in *.
  assert (length ce ∉ vs) as Hnew.
  { intros [i Hi]%list_elem_of_lookup. destruct (tr_slots0 i _ Hi) as [[w Hw] _].
    apply lookup_lt_Some in Hw. lia. }
  split; simpl; try done.
  - rewrite length_app. simpl. lia.
  - apply lookup_lt_Some in Hv. lia.
  - intros i x [Hx|[Hi Hx]]%lookup_app_Some.
    + destruct (tr_slots0 i x Hx) as [[w Hw] E]. rewrite lookup_app_l by (by eapply lookup_lt_Some). eauto.
    + assert (i = length vs) as -> by (apply list_lookup_singleton_Some in Hx; lia).
      rewrite Nat.sub_diag in Hx. injection Hx as <-.
      rewrite lookup_app_r, Nat.sub_diag by lia. subst t. simpl. rewrite Hv. eauto.
  - apply NoDup_app. split; [done|]. split; [|apply NoDup_singleton].
    intros x Hx ->%list_elem_of_singleton. done.
  - intros u x o Hx Ho. pose proof (tr_upvalue0 u x o Hx Ho) as Hup. unfold upvalue_tracks in *.
    destruct (location o) as [l|].
    + split; [apply Hup|]. apply lookup_app_l_Some, Hup.
    + destruct Hup as [Hc Hn]. apply lookup_lt_Some in Hc as Hlt. split; [by rewrite lookup_app_l|].
      rewrite not_elem_of_app, list_elem_of_singleton. split; [done|lia].
Qed.

Lemma tracks_drop st t ou us cs n vs ce bs theta i :
  tracks (mkStack st t ou us cs) (mkCells n vs ce bs) theta -> i <= t ->
  (forall u l, u ∈ ou -> place us u = Some l -> l < i) ->
  tracks (mkStack st i ou us cs) (mkCells n (take i vs) ce bs) theta.
Proof.
  intros [] Hi Hopen. simpl in *. split; simpl; try done; try lia.
  - rewrite length_take. lia.
  - intros j x [Hx Hj]%lookup_take_Some. by apply tr_slots0.
  - rewrite <- (take_drop i vs) in tr_vars0. by apply NoDup_app in tr_vars0 as [? _].
  - intros u x o Hx Ho. pose proof (tr_upvalue0 u x o Hx Ho) as Hup. unfold upvalue_tracks in *.
    destruct (location o) as [l|] eqn:El.
    + split; [apply Hup|]. apply lookup_take_Some. split; [apply Hup|]. apply (Hopen u); [apply Hup|].
      unfold place. by rewrite Ho.
    + split; [apply Hup|]. intros Hin. apply Hup.
      rewrite <- (take_drop i vs), elem_of_app. by left.
Qed.

Lemma open_below s c theta i : tracks s c theta ->
  match openUpvalues s with u :: _ => exists l, place (upvals s) u = Some l /\ l < i | [] => True end ->
  forall u l, u ∈ openUpvalues s -> place (upvals s) u = Some l -> l < i.
Proof.
  intros Ht Hhead u l Hu Hl. destruct (tr_open _ _ _ Ht) as (ls & Hls & Hsorted).
  destruct (openUpvalues s) as [|u0 ou]; [set_solver|].
  destruct Hhead as (l0 & Hl0 & Hlt). apply Forall2_cons_inv_l in Hls as (l0' & ls' & Hl0' & Hls & ->).
  apply elem_of_cons in Hu as [->|Hu]; [congruence|].
  apply list_elem_of_lookup in Hu as [k Hk]. destruct (Forall2_lookup_l _ _ _ _ _ Hls Hk) as (l' & Hk' & Hl').
  apply StronglySorted_inv in Hsorted as [_ Hgt]. rewrite Forall_lookup in Hgt. specialize (Hgt k l' Hk').
  assert (l' = l) as -> by congruence. assert (l0' = l0) as -> by congruence. lia.
Qed.

(** Closing the topmost open upvalue; its slot goes. *)
Lemma tracks_close_one st t u ou us cs n vs ce bs theta l w v :
  tracks (mkStack st t (u :: ou) us cs) (mkCells n vs ce bs) theta ->
  us !! u = Some (mkUpvalue (Some l) w) -> st !! l = Some v ->
  l < t /\ tracks (mkStack st l ou (<[u := mkUpvalue None v]> us) cs) (mkCells n (take l vs) ce bs) theta.
Proof.
  intros Ht Hu Hv.
  destruct (open_place _ _ _ u Ht ltac:(left)) as (l' & x & Hl' & Hlt & Hx & Hvx). simpl in *.
  unfold place in Hl'. rewrite Hu in Hl'. injection Hl' as <-. split; [done|].
  destruct (tr_open _ _ _ Ht) as (ls & Hls & Hsorted). simpl in *.
  apply Forall2_cons_inv_l in Hls as (l0 & ls' & Hl0 & Hls & ->).
  unfold place in Hl0. rewrite Hu in Hl0. injection Hl0 as <-.
  apply StronglySorted_inv in Hsorted as [Hsorted Hgt]. rewrite Forall_lookup in Hgt.
  assert (forall y k, y ∈ ou -> place us y = Some k -> k < l) as Hlow.
  { intros y k [i Hi]%list_elem_of_lookup Hk. destruct (Forall2_lookup_l _ _ _ _ _ Hls Hi) as (k' & Hk' & E).
    specialize (Hgt i k' Hk'). assert (k' = k) as -> by congruence. lia. }
  assert (u ∉ ou) as Hnotin.
  { intros Hin. specialize (Hlow u l Hin). unfold place in Hlow. rewrite Hu in Hlow. specialize (Hlow eq_refl). lia. }
  destruct Ht. simpl in *.
  assert (forall y, y ∈ ou -> place (<[u := mkUpvalue None v]> us) y = place us y) as Hplace.
  { intros y Hy. unfold place. rewrite list_lookup_insert_ne; [done|]. by intros ->. }
  assert (x ∉ take l vs) as Hgone.
  { intros [i Hi]%list_elem_of_lookup. apply lookup_take_Some in Hi as [Hi Hil].
    pose proof (NoDup_lookup _ _ _ _ tr_vars0 Hi Hvx). lia. }
  split; simpl; try done.
  - rewrite length_take. lia.
  - lia.
  - intros i y [Hy Hi]%lookup_take_Some. by apply tr_slots0.
  - rewrite <- (take_drop l vs) in tr_vars0. by apply NoDup_app in tr_vars0 as [? _].
  - by rewrite length_insert.
  - intros y z o Hz Ho. unfold upvalue_tracks.
    destruct (decide (y = u)) as [->|Hne].
    + rewrite list_lookup_insert_eq in Ho by (by eapply lookup_lt_Some). injection Ho as <-. simpl.
      assert (z = x) as -> by congruence. split; [|done]. destruct (tr_slots0 l x Hvx) as [_ ->]. done.
    + rewrite list_lookup_insert_ne in Ho by done.
      pose proof (tr_upvalue0 y z o Hz Ho) as Hup. unfold upvalue_tracks in Hup.
      destruct (location o) as [k|] eqn:Ek.
      * destruct Hup as [[->|Hin]%elem_of_cons Hk]; [done|]. split; [done|]. apply lookup_take_Some.
        split; [done|]. apply (Hlow y k Hin). unfold place. by rewrite Ho.
      * split; [apply Hup|]. intros Hin. apply Hup. rewrite <- (take_drop l vs), elem_of_app. by left.
  - exists ls'. split; [|done]. clear -Hls Hplace.
    induction Hls as [|y k ou ls Hy Hls IH]; constructor.
    + rewrite Hplace by left. done.
    + apply IH. intros z Hz. apply Hplace. by right.
Qed.

Lemma tracks_close st i ou us cs n ce bs theta us' ou' : forall t vs,
  tracks (mkStack st t ou us cs) (mkCells n vs ce bs) theta ->
  Stk.close_front st i us ou = Ret (us', ou') ->
  tracks (mkStack st (min i t) ou' us' cs) (mkCells n (take i vs) ce bs) theta.
Proof.
  revert us. induction ou as [|u ou IH]; simpl; intros us t vs Ht Hc.
  { injection Hc as <- <-. replace (take i vs) with (take (min i t) vs).
    - apply (tracks_drop _ t); [done|lia|]. intros u l Hu. set_solver.
    - rewrite <- take_take. f_equal. apply take_ge. pose proof (tr_top _ _ _ Ht). simpl in *. lia. }
  destruct (us !! u) as [[[l|] w]|] eqn:Eu; [|done..].
  destruct (i <=? l) eqn:Ei.
  - apply Nat.leb_le in Ei. destruct (st !! l) as [v|] eqn:Ev; simpl in Hc; [|done].
    destruct (tracks_close_one _ _ _ _ _ _ _ _ _ _ _ _ _ _ Ht Eu Ev) as [Hlt H1].
    specialize (IH _ _ _ H1 Hc). rewrite take_take in IH.
    replace (min i l) with i in IH by lia. by replace (min i t) with i by lia.
  - apply Nat.leb_gt in Ei. injection Hc as <- <-.
    destruct (open_place _ _ _ u Ht ltac:(left)) as (l' & x & Hl' & Hlt & _ & _). simpl in *.
    unfold place in Hl'. rewrite Eu in Hl'. injection Hl' as <-.
    replace (take i vs) with (take (min i t) vs).
    + apply (tracks_drop _ t); [done|lia|].
      apply (open_below _ _ _ (min i t) Ht). simpl. exists l. unfold place. rewrite Eu. split; [done|lia].
    + rewrite <- take_take. f_equal. apply take_ge. pose proof (tr_top _ _ _ Ht). simpl in *. lia.
Qed.

Lemma tracks_renew st ou us cs n bs theta l : forall k vs ce,
  tracks (mkStack st k ou us cs) (mkCells n vs ce bs) theta ->
  (forall j x, l !! j = Some x -> exists v, ce !! x = Some v /\ st !! (k + j) = Some v) ->
  exists c, Cel.renew l (mkCells n vs ce bs) = Ret c /\ tracks (mkStack st (k + length l) ou us cs) c theta.
Proof.
  induction l as [|x l IH]; intros k vs ce Ht Hv; simpl.
  { rewrite Nat.add_0_r. by eexists. }
  destruct (Hv 0 x eq_refl) as (v & Hx & Hs). rewrite Nat.add_0_r in Hs. rewrite Hx. simpl.
  destruct (IH (S k) (vs ++ [length ce]) (ce ++ [v])) as (c & Hc & Htc).
  - by apply tracks_extend.
  - intros j y Hj. destruct (Hv (S j) y Hj) as (v' & Hy & Hs'). exists v'. split; [by apply lookup_app_l_Some|].
    by replace (S k + j) with (k + S j) by lia.
  - exists c. split; [done|]. by replace (k + S (length l)) with (S k + length l) by lia.
Qed.

(** The search of [captureUpvalue]. *)
Lemma find_open_spec us slot ou : forall ls k r,
  Forall2 (fun u l => place us u = Some l) ou ls -> StronglySorted gt ls ->
  Stk.find_open us slot ou = Ret (k, r) ->
  match r with
  | Some u => u ∈ ou /\ place us u = Some slot
  | None => StronglySorted gt (take k ls ++ slot :: drop k ls) /\ k <= length ou
  end.
Proof.
  induction ou as [|u ou IH]; simpl; intros ls k r Hls Hs Hf.
  { injection Hf as <- <-. apply Forall2_nil_inv_l in Hls as ->. split; [repeat constructor|lia]. }
  apply Forall2_cons_inv_l in Hls as (l0 & ls' & Hl0 & Hls & ->).
  apply StronglySorted_inv in Hs as [Hs Hgt].
  unfold place in Hl0. destruct (us !! u) as [[[l|] w]|] eqn:Eu; [|done..]. simpl in Hl0. injection Hl0 as ->.
  destruct (slot <? l0) eqn:El.
  - apply Nat.ltb_lt in El. destruct (Stk.find_open us slot ou) as [[k' r']| |] eqn:Ef; simpl in Hf; [|done..].
    injection Hf as <- <-. specialize (IH _ _ _ Hls Hs eq_refl). destruct r' as [u'|].
    + destruct IH as [Hin Hp]. split; [by right|done].
    + destruct IH as [IH Hk]. split; [|lia]. simpl. constructor; [done|].
      rewrite Forall_app, Forall_cons. split; [by apply Forall_take|]. split; [lia|by apply Forall_drop].
  - apply Nat.ltb_ge in El. injection Hf as <- <-. destruct (l0 =? slot) eqn:E.
    + apply Nat.eqb_eq in E as ->. split; [by left|]. unfold place. by rewrite Eu.
    + apply Nat.eqb_neq in E. split; [|lia]. simpl. constructor; [by constructor|]. constructor; [lia|].
      eapply Forall_impl; [exact Hgt|]. simpl. intros. lia.
Qed.

Lemma Forall2_middle {A B} (P : A -> B -> Prop) k l l' a b :
  Forall2 P l l' -> P a b -> Forall2 P (take k l ++ a :: drop k l) (take k l' ++ b :: drop k l').
Proof. intros Hl Hab. apply Forall2_app; [by apply Forall2_take|]. constructor; [done|by apply Forall2_drop]. Qed.

Definition same_cell theta (u x : option nat) : Prop :=
  u = None /\ x = None \/ exists a y, u = Some a /\ x = Some y /\ theta !! a = Some y.

Lemma tracks_bind s c theta k i u x s' :
  tracks s c theta -> same_cell theta u x -> Stk.setClosureUpvalue k i u s = Ret s' ->
  exists c', Cel.bind_cell k i x c = Ret c' /\ tracks s' c' theta.
Proof.
  destruct s as [st t ou us cs], c as [n vs ce bs]. simpl. intros Ht Hux Hset.
  destruct (cs !! k) as [[f l]|] eqn:Ek; simpl in Hset; [|done].
  destruct (i <? length l) eqn:Ei; [|done]. injection Hset as <-.
  destruct (Forall2_lookup_l _ _ _ _ _ (tr_closures _ _ _ Ht) Ek) as ([f' l'] & Ek' & Hf & Hl). simpl in *. subst f'.
  rewrite Ek'. simpl. rewrite <- (Forall2_length _ _ _ Hl), Ei. eexists. split; [done|].
  destruct Ht. split; simpl in *; try done.
  apply Forall2_insert; [done|]. simpl. split; [done|]. by apply Forall2_insert.
Qed.

(** The upvalue that [captureUpvalue] answers has the slot's cell. *)
Lemma tracks_capture s c theta slot x u s' :
  tracks s c theta -> vars c !! slot = Some x -> Stk.captureUpvalue slot s = Ret (u, s') ->
  exists theta', tracks s' c theta' /\ theta' !! u = Some x.
Proof.
  destruct s as [st t ou us cs], c as [n vs ce bs]. simpl. intros Ht Hx Hcap.
  destruct (Stk.find_open us slot ou) as [[k r]| |] eqn:Ef; simpl in Hcap; [|done..].
  destruct (tr_open _ _ _ Ht) as (ls & Hls & Hs). simpl in *.
  pose proof (find_open_spec _ _ _ _ _ _ Hls Hs Ef) as Hspec. destruct r as [u'|].
  - injection Hcap as <- <-. exists theta. split; [done|]. destruct Hspec as [Hin Hp].
    destruct (open_place _ _ _ _ Ht Hin) as (l & y & Hl & _ & Hy & Hvy). simpl in *. congruence.
  - injection Hcap as <- <-. destruct Hspec as [Hs' Hk]. exists (theta ++ [x]).
    pose proof (tr_upvals _ _ _ Ht) as Hlen. simpl in Hlen.
    assert (x ∉ theta) as Hnew.
    { intros [w Hw]%list_elem_of_lookup.
      assert (is_Some (us !! w)) as [o Ho].
      { apply lookup_lt_is_Some. rewrite <- Hlen. by eapply lookup_lt_Some. }
      pose proof (tr_upvalue _ _ _ Ht w x o Hw Ho) as Hup. unfold upvalue_tracks in Hup. simpl in Hup.
      destruct (location o) as [l|] eqn:El.
      - destruct Hup as [Hin Hl]. assert (l = slot) as -> by (eapply NoDup_lookup; [apply (tr_vars _ _ _ Ht)|done..]).
        apply list_elem_of_lookup in Hin as [j Hj]. destruct (Forall2_lookup_l _ _ _ _ _ Hls Hj) as (l & Hlj & Hl').
        assert (l = slot) as -> by (unfold place in Hl'; rewrite Ho in Hl'; simpl in Hl'; congruence).
        assert (slot ∈ take k ls ++ drop k ls) as Hin' by (rewrite take_drop; by eapply list_elem_of_lookup_2).
        clear -Hs' Hin'. apply elem_of_app in Hin'.
        induction (take k ls) as [|a l IH]; simpl in *; apply StronglySorted_inv in Hs' as [Hs Hall].
        + destruct Hin' as [Hin|Hin]; [set_solver|]. rewrite Forall_forall in Hall. specialize (Hall _ Hin). lia.
        + destruct Hin' as [[->|Hin]%elem_of_cons|Hin]; [|by apply IH; [|left]|by apply IH; [|right]].
          rewrite Forall_forall in Hall. specialize (Hall a ltac:(set_solver)). lia.
      - apply (proj2 Hup). by eapply list_elem_of_lookup_2. }
    split; [|rewrite lookup_app_r, Hlen, Nat.sub_diag by lia; done].
    assert (forall y, y ∈ ou -> place (us ++ [mkUpvalue (Some slot) Nil]) y = place us y) as Hplace.
    { intros y [j Hj]%list_elem_of_lookup. destruct (Forall2_lookup_l _ _ _ _ _ Hls Hj) as (l & _ & Hl).
      unfold place in *. destruct (us !! y) eqn:Ey; [|done]. by rewrite (lookup_app_l_Some _ _ _ _ Ey). }
    destruct Ht. simpl in *. split; simpl; try done.
    + apply NoDup_app. split; [done|]. split; [|apply NoDup_singleton].
      intros y Hy ->%list_elem_of_singleton. done.
    + rewrite !length_app. simpl. lia.
    + intros w y o Hy Ho. unfold upvalue_tracks.
      apply lookup_app_Some in Ho as [Ho|[Hw Ho]].
      * rewrite lookup_app_l in Hy by (rewrite Hlen; by eapply lookup_lt_Some).
        pose proof (tr_upvalue0 w y o Hy Ho) as Hup. unfold upvalue_tracks in Hup.
        destruct (location o); [|done]. split; [|apply Hup]. destruct Hup as [Hup _].
        rewrite <- (take_drop k ou) in Hup. set_solver.
      * assert (w = length us) as -> by (apply list_lookup_singleton_Some in Ho; lia).
        rewrite Nat.sub_diag in Ho. injection Ho as <-. simpl.
        rewrite lookup_app_r, Hlen, Nat.sub_diag in Hy by lia. injection Hy as <-. split; [set_solver|done].
    + exists (take k ls ++ slot :: drop k ls). split; [|done]. apply Forall2_middle.
      * clear -Hls Hplace. induction Hls as [|y l ou ls Hy Hls IH]; constructor.
        -- by rewrite Hplace by left.
        -- apply IH. intros z Hz. apply Hplace. by right.
      * unfold place. by rewrite lookup_app_r, Nat.sub_diag by lia.
    + eapply Forall2_impl; [exact tr_closures0|]. intros o b [Hf Hl]. split; [done|].
      eapply Forall2_impl; [exact Hl|]. intros a b' [?|(a' & y & -> & -> & Hy)]; [by left|]. right.
      exists a', y. split_and!; [done..|]. by apply lookup_app_l_Some.
Qed.

Lemma tracks_push st t ou us cs n vs ce bs theta v :
  tracks (mkStack st t ou us cs) (mkCells n vs ce bs) theta -> t < length st ->
  tracks (mkStack (<[t := v]> st) (S t) ou us cs) (mkCells n (vs ++ [length ce]) (ce ++ [v]) bs) theta.
Proof.
  intros Ht Hlt. apply tracks_extend; [|by apply list_lookup_insert_eq].
  eapply tracks_above; [exact Ht|by rewrite length_insert|]. intros i Hi. apply list_lookup_insert_ne. lia.
Qed.

Lemma captured_at_false s i u : captured_at s i = false -> u ∈ openUpvalues s -> place (upvals s) u <> Some i.
Proof.
  unfold captured_at, place. intros Hc Hu Hp. destruct (upvals s !! u) as [o|] eqn:Eo; [|done].
  apply not_true_iff_false in Hc. apply Hc, existsb_exists. exists u.
  split; [by apply list_elem_of_In|]. rewrite Eo. by apply bool_decide_eq_true.
Qed.

Lemma tracks_pop st t ou us cs n vs ce bs theta v :
  tracks (mkStack st (S t) ou us cs) (mkCells n vs ce bs) theta ->
  captured_at (mkStack st (S t) ou us cs) t = false -> st !! t = Some v ->
  exists x, last vs = Some x /\ ce !! x = Some v /\
  tracks (mkStack (if isObj v then <[t := Nil]> st else st) t ou us cs) (mkCells n (removelast vs) ce bs) theta.
Proof.
  intros Ht Hc Hv. pose proof (tr_top _ _ _ Ht) as Htop. simpl in Htop.
  assert (is_Some (vs !! t)) as [x Hx] by (apply lookup_lt_is_Some; lia).
  exists x. split; [rewrite last_lookup, <- Htop; done|].
  destruct (tr_slots _ _ _ Ht t x Hx) as [_ E]. simpl in E. split; [congruence|].
  assert (removelast vs = take t vs) as ->.
  { rewrite removelast_firstn_len. f_equal. lia. }
  apply tracks_above with (st := st).
  - apply (tracks_drop _ (S t)); [done|lia|]. intros u l Hu Hl.
    destruct (open_place _ _ _ u Ht Hu) as (l' & y & Hl' & Hlt & _). simpl in *.
    assert (l' = l) as -> by congruence. assert (l <> t); [|lia]. intros ->.
    by apply (captured_at_false _ _ u Hc Hu).
  - destruct (isObj v); [by rewrite length_insert|done].
  - intros i Hi. destruct (isObj v); [|done]. apply list_lookup_insert_ne. lia.
Qed.

(** Writing to a variable through its slot. *)
Lemma tracks_assign st t ou us cs n vs ce bs theta i x v :
  tracks (mkStack st t ou us cs) (mkCells n vs ce bs) theta -> vs !! i = Some x ->
  x < length ce /\ tracks (mkStack (<[i := v]> st) t ou us cs) (mkCells n vs (<[x := v]> ce) bs) theta.
Proof.
  intros [] Hx. simpl in *. destruct (tr_slots0 i x Hx) as [[w Hw] _].
  apply lookup_lt_Some in Hw as Hlt. split; [done|].
  assert (i < length st) as Hi by (apply lookup_lt_Some in Hx; lia).
  split; simpl; try done; try by rewrite length_insert.
  - intros j y Hy. destruct (decide (j = i)) as [->|Hne].
    + assert (y = x) as -> by congruence. rewrite !list_lookup_insert_eq by done. eauto.
    + assert (y <> x) by (intros ->; by pose proof (NoDup_lookup _ _ _ _ tr_vars0 Hy Hx)).
      rewrite !list_lookup_insert_ne by done. by apply tr_slots0.
  - intros u y o Hy Ho. pose proof (tr_upvalue0 u y o Hy Ho) as Hup. unfold upvalue_tracks in *.
    destruct (location o); [done|]. destruct Hup as [Hup Hn]. split; [|done].
    rewrite list_lookup_insert_ne; [done|]. intros ->. apply Hn. by eapply list_elem_of_lookup_2.
Qed.

(** Writing to a captured variable that has left the stack. *)
Lemma tracks_closed st t ou us cs n vs ce bs theta u x w v :
  tracks (mkStack st t ou us cs) (mkCells n vs ce bs) theta -> theta !! u = Some x ->
  us !! u = Some (mkUpvalue None w) ->
  x < length ce /\ tracks (mkStack st t ou (<[u := mkUpvalue None v]> us) cs) (mkCells n vs (<[x := v]> ce) bs) theta.
Proof.
  intros [] Hx Hu. simpl in *. destruct (tr_upvalue0 u x _ Hx Hu) as [Hc Hn]. simpl in *.
  apply lookup_lt_Some in Hc as Hlt. apply lookup_lt_Some in Hu as Hul. split; [done|].
  split; simpl; try done; try by rewrite length_insert.
  - intros j y Hy. rewrite list_lookup_insert_ne; [by apply tr_slots0|].
    intros ->. apply Hn. by eapply list_elem_of_lookup_2.
  - intros k y o Hy Ho. unfold upvalue_tracks. destruct (decide (k = u)) as [->|Hne].
    + rewrite list_lookup_insert_eq in Ho by done. injection Ho as <-. simpl.
      assert (y = x) as -> by congruence. by rewrite list_lookup_insert_eq.
    + rewrite list_lookup_insert_ne in Ho by done. pose proof (tr_upvalue0 k y o Hy Ho) as Hup.
      unfold upvalue_tracks in Hup. destruct (location o); [done|]. destruct Hup as [Hup Hny].
      split; [|done]. rewrite list_lookup_insert_ne; [done|]. intros ->. apply Hne.
      by eapply NoDup_lookup.
  - destruct tr_open0 as (ls & Hls & Hs). exists ls. split; [|done].
    eapply Forall2_impl; [exact Hls|]. intros k l Hk. unfold place in *.
    rewrite list_lookup_insert_ne; [done|]. intros ->. rewrite Hu in Hk. done.
Qed.

(** A closure's upvalue and the cell of the specification's. *)
Lemma tracks_upvalue s c theta k j u : tracks s c theta -> Stk.upvalue_at k j s = Ret u ->
  exists x, Cel.cell_at k j c = Ret x /\ same_cell theta u x.
Proof.
  unfold Stk.upvalue_at, Cel.cell_at. intros Ht Hu.
  destruct (closures s !! k) as [o|] eqn:Ek; simpl in Hu; [|done].
  destruct (Forall2_lookup_l _ _ _ _ _ (tr_closures _ _ _ Ht) Ek) as (b & -> & _ & Hl). simpl.
  destruct (upvalues o !! j) as [u'|] eqn:Ej; simpl in Hu; [|done]. injection Hu as ->.
  destruct (Forall2_lookup_l _ _ _ _ _ Hl Ej) as (x & -> & Hx). by exists x.
Qed.
End Tracks.

Lemma close_front_throws st i us ou e : Stk.close_front st i us ou <> Throw e.
Proof.
  revert us. induction ou as [|u ou IH]; simpl; intros us; [done|].
  destruct (us !! u) as [[[l|] w]|]; [|done..]. destruct (i <=? l); [|done].
  destruct (st !! l); simpl; [apply IH|done].
Qed.

Lemma find_open_throws us slot ou e : Stk.find_open us slot ou <> Throw e.
Proof.
  induction ou as [|u ou IH]; simpl; [done|]. destruct (us !! u) as [[[l|] w]|]; [|done..].
  destruct (slot <? l); [|done]. by destruct (Stk.find_open us slot ou).
Qed.

Lemma bind_throws k i u s e : Stk.setClosureUpvalue k i u s <> Throw e.
Proof. destruct s as [st t ou us cs]. simpl. destruct (cs !! k); simpl; [|done]. by case_match. Qed.

Lemma upvalue_at_throws k j s e : Stk.upvalue_at k j s <> Throw e.
Proof. unfold Stk.upvalue_at. destruct (closures s !! k) as [o|]; simpl; [|done]. by destruct (upvalues o !! j). Qed.

Lemma represents_close i s c theta s' : tracks s c theta -> Stk.closeUpvalues i s = Ret s' ->
  exists c', Cel.close i c = Ret c' /\ tracks s' c' theta.
Proof.
  destruct s as [st t ou us cs], c as [n vs ce bs]. simpl. intros Ht Hc.
  destruct (Stk.close_front st i us ou) as [[us' ou']| |] eqn:Ec; simpl in Hc; [|done..]. injection Hc as <-.
  pose proof (tr_top _ _ _ Ht) as Htop. simpl in Htop.
  destruct (tracks_renew st ou' us' cs n bs theta (drop i vs) (min i t) (take i vs) ce) as (c' & Hr & Ht').
  - by eapply tracks_close.
  - intros j x Hj. rewrite lookup_drop in Hj. apply lookup_lt_Some in Hj as Hlt.
    destruct (tr_slots _ _ _ Ht _ _ Hj) as [[v Hv] E]. simpl in *. exists v. split; [done|].
    rewrite E in Hv. by replace (min i t) with i by lia.
  - exists c'. split; [done|]. rewrite length_drop in Ht'. by replace (min i t + (length vs - i)) with t in Ht' by lia.
Qed.

Lemma represents_clear s c theta s' : tracks s c theta -> Stk.clear_stack s = Ret s' ->
  tracks s' (mkCells (limit c) [] (cells c) (blocks c)) theta.
Proof.
  destruct s as [st t ou us cs], c as [n vs ce bs]. unfold Stk.clear_stack. simpl. intros Ht Hr.
  assert (exists ou' us', s' = mkStack (replicate (length st) Nil) 0 [] us' cs /\
          tracks (mkStack st 0 ou' us' cs) (mkCells n [] ce bs) theta) as (ou' & us' & -> & H0).
  { case_bool_decide as Eou; simpl in Hr.
    { injection Hr as <-. subst ou. exists [], us. split; [done|].
      replace [] with (take 0 vs) by done. eapply tracks_drop; [exact Ht|lia|]. intros u l Hu. set_solver. }
    case_bool_decide as Est; simpl in Hr.
    { injection Hr as <-. subst st. exists ou, us. split; [done|].
      replace [] with (take 0 vs) by done. eapply tracks_drop; [exact Ht|lia|]. intros u l Hu.
      destruct (open_place _ _ _ u Ht Hu) as (l' & _ & _ & Hlt & _). pose proof (tr_fits _ _ _ Ht). simpl in *. lia. }
    destruct (Stk.close_front st 0 us ou) as [[us' ou']| |] eqn:Ec; simpl in Hr; [|done..].
    injection Hr as <-. exists ou', us'. split; [done|]. by apply (tracks_close _ _ _ _ _ _ _ _ _ _ _ _ _ Ht Ec). }
  assert (ou' = []) as ->.
  { destruct ou' as [|u ou']; [done|]. destruct (open_place _ _ _ u H0 ltac:(left)) as (l & _ & _ & Hlt & _).
    simpl in Hlt. lia. }
  eapply tracks_above; [|by rewrite length_replicate|intros; lia]. done.
Qed.

Lemma represents_empty n : represents (Guard (empty_stack n)) (empty_cells n).
Proof.
  exists []. split; simpl; try done; try apply NoDup_nil_2; try by rewrite length_replicate.
  - lia.
  - exists []. split; [done|constructor].
Qed.

#[export] Instance guarded_refines_cells : Refines represents.
Proof.
  split.
  - intros g c [theta Ht]. apply Ht.
  - intros v [[st t ou us cs]] [n vs ce bs] [theta Ht]. simpl.
    pose proof (tr_top _ _ _ Ht) as Htop. pose proof (tr_size _ _ _ Ht) as Hsz. pose proof (tr_fits _ _ _ Ht) as Hf.
    simpl in *. rewrite <- Htop, <- Hsz. destruct (t =? length st) eqn:E; simpl; [done|]. apply Nat.eqb_neq in E.
    eexists. split; [done|]. exists theta. rewrite Hsz. apply tracks_push; [done|lia].
  - intros [[st t ou us cs]] [n vs ce bs] [theta Ht]. simpl.
    destruct t as [|t]; simpl; [by destruct (captured_at _ _)|]. rewrite Nat.sub_0_r.
    destruct (captured_at _ t) eqn:Ec; simpl; [done|]. destruct (st !! t) as [v|] eqn:Ev; simpl; [|done].
    destruct (tracks_pop _ _ _ _ _ _ _ _ _ _ _ Ht Ec Ev) as (x & -> & Hx & Ht'). simpl. rewrite Hx. simpl.
    eexists. split; [done|]. split; [done|]. by exists theta.
  - intros i [[st t ou us cs]] [n vs ce bs] [theta Ht]. simpl. unfold guarded, Stk.load, Cel.load_cell. simpl.
    destruct (i <? t) eqn:Ei; [|done]. apply Nat.ltb_lt in Ei. pose proof (tr_top _ _ _ Ht) as Htop. simpl in Htop.
    assert (is_Some (vs !! i)) as [x Hx] by (apply lookup_lt_is_Some; lia).
    destruct (tr_slots _ _ _ Ht i x Hx) as [_ E]. simpl in E. rewrite Hx. simpl. rewrite E.
    destruct (st !! i); simpl; [by eexists|done].
  - intros i v [[st t ou us cs]] [n vs ce bs] [theta Ht]. simpl. unfold guarded, Cel.assign_cell. simpl.
    destruct (i <? t) eqn:Ei; [|done]. apply Nat.ltb_lt in Ei. pose proof (tr_top _ _ _ Ht) as Htop. simpl in Htop.
    assert (is_Some (vs !! i)) as [x Hx] by (apply lookup_lt_is_Some; lia). rewrite Hx. simpl.
    destruct (tracks_assign _ _ _ _ _ _ _ _ _ _ _ _ v Ht Hx) as [Hlt Ht'].
    destruct (i <? length st); simpl; [|done]. apply Nat.ltb_lt in Hlt as ->. eexists. split; [done|]. by exists theta.
  - intros i [s] c [theta Ht]. simpl. destruct (Stk.closeUpvalues i s) as [s'|e|] eqn:Ec; simpl; [| |done].
    + destruct (represents_close i s c theta s' Ht Ec) as (c' & Hc & Ht'). exists c'. split; [done|]. by exists theta.
    + destruct s as [st t ou us cs]. simpl in Ec. destruct (Stk.close_front st i us ou) eqn:Ef; [done| |done].
      by apply close_front_throws in Ef.
  - intros f k [[st t ou us cs]] [n vs ce bs] [theta Ht]. simpl. split; simpl.
    + exact (Forall2_length _ _ _ (tr_closures _ _ _ Ht)).
    + exists theta. destruct Ht. split; simpl in *; try done. apply Forall2_app; [done|].
      constructor; [|done]. split; [done|]. simpl. apply Forall2_replicate. by left.
  - intros k [s] c [theta Ht]. simpl. unfold Stk.functionOf, Cel.functionOf_cell.
    destruct (closures s !! k) as [o|] eqn:Ek; simpl; [|done].
    destruct (Forall2_lookup_l _ _ _ _ _ (tr_closures _ _ _ Ht) Ek) as (b & -> & Hf & _). simpl. eauto.
  - intros k [s] c [theta Ht]. simpl. unfold Stk.upvaluesSize, Cel.upvaluesSize_cell.
    destruct (closures s !! k) as [o|] eqn:Ek; simpl; [|done].
    destruct (Forall2_lookup_l _ _ _ _ _ (tr_closures _ _ _ Ht) Ek) as (b & -> & _ & Hl). simpl.
    eexists. split; [done|]. by apply Forall2_length in Hl.
  - intros k i l [s] c [theta Ht]. simpl. unfold guarded, Stk.capture, Cel.capture_cell.
    destruct (l <? stackTop s) eqn:El; [|done]. apply Nat.ltb_lt in El.
    assert (is_Some (vars c !! l)) as [x Hx] by (apply lookup_lt_is_Some; rewrite <- (tr_top _ _ _ Ht); done).
    rewrite Hx. simpl. destruct (Stk.captureUpvalue l s) as [[u s1]| |] eqn:Ec; simpl; [| |done].
    + destruct (tracks_capture s c theta l x u s1 Ht Hx Ec) as (theta' & Ht' & Hu).
      destruct (Stk.setClosureUpvalue k i (Some u) s1) as [s'|e|] eqn:Es; simpl; [| |done].
      * destruct (tracks_bind s1 c theta' k i (Some u) (Some x) s' Ht') as (c' & Hc & Ht2); [|done|].
        { right. eauto. }
        exists c'. split; [done|]. by exists theta'.
      * by apply bind_throws in Es.
    + destruct s as [st t ou us cs]. simpl in Ec. destruct (Stk.find_open us l ou) as [[m [r|]]|e'|] eqn:Ef; simpl in Ec; try done.
      by apply find_open_throws in Ef.
  - intros k i q j [s] c [theta Ht]. simpl. unfold Stk.inherit, Cel.inherit_cell.
    destruct (Stk.upvalue_at q j s) as [u|e|] eqn:Eu; simpl; [|by apply upvalue_at_throws in Eu|done].
    destruct (tracks_upvalue s c theta q j u Ht Eu) as (x & -> & Hx). simpl.
    destruct (Stk.setClosureUpvalue k i u s) as [s'|e|] eqn:Es; simpl; [|by apply bind_throws in Es|done].
    destruct (tracks_bind s c theta k i u x s' Ht Hx Es) as (c' & Hc & Ht'). exists c'. split; [done|]. by exists theta.
  - intros k j [s] c [theta Ht]. simpl. unfold Stk.getUpvalue, Cel.getUpvalue_cell.
    destruct (Stk.upvalue_at k j s) as [u|e|] eqn:Eu; simpl; [|by apply upvalue_at_throws in Eu|done].
    destruct (tracks_upvalue s c theta k j u Ht Eu) as (x & -> & [[-> ->]|(a & y & -> & -> & Hy)]); simpl; [done|].
    destruct (upvals s !! a) as [o|] eqn:Eo; simpl; [|done].
    pose proof (tr_upvalue _ _ _ Ht a y o Hy Eo) as Hup. unfold upvalue_tracks in Hup.
    destruct (location o) as [l|]; simpl.
    + destruct (tr_slots _ _ _ Ht l y (proj2 Hup)) as [_ ->]. apply orel_self.
    + rewrite (proj1 Hup). simpl. eauto.
  - intros k j v [[st t ou us cs]] [n vs ce bs] [theta Ht]. simpl. unfold Stk.setUpvalue, Cel.setUpvalue_cell.
    destruct (Stk.upvalue_at k j _) as [u|e|] eqn:Eu; simpl; [|by apply upvalue_at_throws in Eu|done].
    destruct (tracks_upvalue _ _ theta k j u Ht Eu) as (x & -> & [[-> ->]|(a & y & -> & -> & Hy)]); simpl; [done|].
    destruct (us !! a) as [[[l|] w]|] eqn:Eo; simpl; [| |done].
    + destruct (tr_upvalue _ _ _ Ht a y _ Hy Eo) as [_ Hl]. simpl in Hl.
      destruct (tracks_assign _ _ _ _ _ _ _ _ _ _ _ _ v Ht Hl) as [Hlt Ht'].
      destruct (l <? length st); simpl; [|done]. apply Nat.ltb_lt in Hlt as ->. eexists. split; [done|]. by exists theta.
    + destruct (tracks_closed _ _ _ _ _ _ _ _ _ _ _ _ _ v Ht Hy Eo) as [Hlt Ht'].
      apply Nat.ltb_lt in Hlt as ->. eexists. split; [done|]. by exists theta.
  - intros [s] c [theta Ht]. simpl. destruct (Stk.clear_stack s) as [s'|e|] eqn:Er; simpl; [| |done].
    + eexists. split; [done|]. exists theta. by apply (represents_clear s).
    + unfold Stk.clear_stack in Er. destruct s as [st t ou us cs]. simpl in Er.
      repeat case_bool_decide; simpl in Er; try done.
      destruct (Stk.close_front st 0 us ou) eqn:Ef; simpl in Er; try done. by apply close_front_throws in Ef.
Qed.

(** ** Captured variables are cells *)

(** The values on the stack, from the bottom. *)
Definition live (s : Stack) : list Val := take (stackTop s) (stack s).
Definition values (c : Cells) : list Val := omap (fun x => cells c !! x) (vars c).

Lemma tracks_live s c theta : tracks s c theta -> live s = values c.
Proof.
  intros Ht. unfold live, values. destruct s as [st t ou us cs], c as [n vs ce bs]. simpl.
  pose proof (tr_slots _ _ _ Ht) as Hs. pose proof (tr_top _ _ _ Ht) as Htop. simpl in *. subst t. clear Ht.
  revert st Hs. induction vs as [|x vs IH]; intros st Hs; simpl; [done|].
  destruct (Hs 0 x eq_refl) as [[v Hv] E]. rewrite Hv in *. destruct st as [|v' st]; [done|].
  simpl in E. injection E as ->. simpl. f_equal. apply IH. intros j y Hy. by apply (Hs (S j) y).
Qed.

(** What can be seen of a run. *)
Definition agree (m : outcome (Err * VM Stack) (option (Status * Val) * VM Stack))
    (n : outcome (Err * VM Cells) (option (Status * Val) * VM Cells)) : Prop :=
  match m, n with
  | Ret (r, v), Ret (r', w) => r = r' /\ thread v = thread w /\ live (vars_of v) = values (vars_of w)
  | Throw (e, v), Throw (e', w) => e = e' /\ thread v = thread w /\ live (vars_of v) = values (vars_of w)
  | _, _ => False
  end.

(** C9. Captured variables are shared cells.  Over any program of functions, closures,
    arguments, jumps, returns and exceptions, and for any number of steps: unless a slot
    of the stack is popped while an upvalue is open on it (or the program leaves the
    defined behaviour otherwise), the interpreter with its stack, its list of open
    upvalues and their closing on the way out computes exactly what an interpreter
    computes in which each variable is a cell and closures hold the cells they captured:
    the same result or error, the same frames and the same values on the stack. *)
Theorem captured_variables_are_cells (fns : list ObjFunction) (size lim fuel : nat)
    (Hdefined : run (Guard (empty_stack size)) fns lim fuel <> UB) :
  agree (run (empty_stack size) fns lim fuel) (run (empty_cells size) fns lim fuel).
Proof.
  pose proof (run_refines _ (Guard (empty_stack size)) (empty_stack size) fns lim fuel eq_refl) as H1.
  pose proof (run_refines _ _ _ fns lim fuel (represents_empty size)) as H2.
  destruct (run (Guard _) fns lim fuel) as [[r g]|[e g]|]; [| |done].
  all: destruct H1 as (v & -> & Hv & Hvt), H2 as (w & -> & (theta & Hw) & Hwt); simpl;
    (split_and!; [done|congruence|]); rewrite <- Hv; by eapply tracks_live.
Qed.

(** A counter: [var x = 0], a closure that adds one to it, called twice. *)
Definition signature0 : func_type := FuncType false [] [].
Definition plain_function (code : list Z) (cs : list Val) (upvalueCount : nat) : ObjFunction :=
  mkFunction code cs 0 upvalueCount signature0 [] false false Nil None.
Definition assemble : list (Op.OpCode + Z) -> list Z :=
  map (fun x => match x with inl op => Op.asByte op | inr z => z end).

Definition counter : list ObjFunction := [
  plain_function (assemble [inl Op.ConstInt0; inl Op.Closure; inr 0%Z; inr 1%Z; inr 1%Z;
    inl Op.GetLocal; inr 2%Z; inl Op.Call; inr 0%Z; inl Op.Pop;
    inl Op.GetLocal; inr 2%Z; inl Op.Call; inr 0%Z; inl Op.Pop;
    inl Op.GetLocal; inr 1%Z; inl Op.Return]) [FunctionV 1] 0;
  plain_function (assemble [inl Op.GetUpvalue; inr 0%Z; inl Op.ConstInt1; inl Op.Add;
    inl Op.SetUpvalue; inr 0%Z; inl Op.Return]) [] 1].

Definition result {S} (m : outcome (Err * VM S) (option (Status * Val) * VM S)) : option (Status * Val) :=
  match m with Ret (r, _) => r | _ => None end.

Lemma captured_variables_are_cells_witness :
  agree (run (empty_stack 16) counter 8 100) (run (empty_cells 16) counter 8 100) /\
  result (run (empty_stack 16) counter 8 100) = Some (OK, Int 2).
Proof.
  split; [|vm_compute; reflexivity]. apply (captured_variables_are_cells counter 16 8 100).
  vm_compute. discriminate.
Defined.

(** [try: var x = 1; f = func(): return x; raise x], [except: return f()].  The handler
    pops the slots of the block that was left without closing the upvalues open on them,
    and its exception takes the slot of [x]: the closure answers the exception where the
    variable it captured holds 1. *)
Definition escaped : list ObjFunction := [
  plain_function (assemble [inl Op.ConstNil;
    inl Op.SetupExcept; inr 0%Z; inr 12%Z;
    inl Op.ConstInt1; inl Op.Closure; inr 0%Z; inr 1%Z; inr 2%Z;
    inl Op.SetLocal; inr 1%Z; inl Op.Pop;
    inl Op.GetLocal; inr 2%Z; inl Op.Throw; inl Op.EndExcept;
    inl Op.GetLocal; inr 1%Z; inl Op.Call; inr 0%Z; inl Op.Return]) [FunctionV 1] 0;
  plain_function (assemble [inl Op.GetUpvalue; inr 0%Z; inl Op.Return]) [] 1].

Lemma handler_leaves_upvalues_open :
  result (run (empty_stack 16) escaped 8 100) = Some (OK, ExceptionV (Int 1)) /\
  result (run (empty_cells 16) escaped 8 100) = Some (OK, Int 1) /\
  run (Guard (empty_stack 16)) escaped 8 100 = UB.
Proof. vm_compute. auto. Qed.


(** ** Where an exception goes *)

Lemma popN_stack n : forall st t ou us cs th, n <= t -> t <= length st ->
  exists st', popN n (mkVM (mkStack st t ou us cs) th) = Ret (tt, mkVM (mkStack st' (t - n) ou us cs) th) /\
  length st' = length st /\ forall i, i < t - n -> st' !! i = st !! i.
Proof.
  induction n as [|n IH]; intros st t ou us cs th Hn Ht.
  { exists st. rewrite Nat.sub_0_r. done. }
  destruct t as [|t]; [lia|]. assert (is_Some (st !! t)) as [v Hv] by (apply lookup_lt_is_Some; lia).
  set (st1 := if isObj v then <[t := Nil]> st else st).
  assert (length st1 = length st) as Hlen by (unfold st1; destruct (isObj v); by rewrite ?length_insert).
  destruct (IH st1 t ou us cs th ltac:(lia) ltac:(lia)) as (st' & Hp & Hl & Hsame).
  exists st'. split; [|split; [lia|]].
  - unfold popN in *. simpl. unfold bind, popM, writes. simpl. rewrite Hv. simpl. fold st1. apply Hp.
  - intros i Hi. rewrite Hsame by lia. unfold st1. destruct (isObj v); [|done]. apply list_lookup_insert_ne. lia.
Qed.

Lemma popToDepth_stack n st t ou us cs th : n <= t -> t <= length st ->
  exists st', popToDepth n (mkVM (mkStack st t ou us cs) th) = Ret (tt, mkVM (mkStack st' n ou us cs) th) /\
  length st' = length st /\ forall i, i < n -> st' !! i = st !! i.
Proof.
  intros Hn Ht. destruct (popN_stack (t - n) st t ou us cs th ltac:(lia) Ht) as (st' & Hp & Hl & Hsame).
  replace (t - (t - n)) with n in * by lia. exists st'. split; [|by split].
  unfold popToDepth, bind, depthM, reads. simpl. apply Hp.
Qed.

Lemma close_front_defined st i ou us cs n ce bs theta : forall t vs,
  tracks (mkStack st t ou us cs) (mkCells n vs ce bs) theta ->
  exists us' ou', Stk.close_front st i us ou = Ret (us', ou').
Proof.
  revert us. induction ou as [|u ou IH]; simpl; intros us t vs Ht; [by eexists _, _|].
  destruct (open_place _ _ _ u Ht ltac:(left)) as (l & x & Hl & Hlt & _ & Hx). simpl in *.
  unfold place in Hl. destruct (us !! u) as [[o w]|] eqn:Eu; simpl in Hl; [|done]. subst o.
  destruct (i <=? l); [|by eexists _, _].
  destruct (tr_slots _ _ _ Ht l x Hx) as [[v Hv] E]. simpl in *. rewrite Hv in E. rewrite <- E. simpl.
  destruct (tracks_close_one _ _ _ _ _ _ _ _ _ _ _ _ _ v Ht Eu ltac:(congruence)) as [_ H1]. by eapply IH.
Qed.

(** An upvalue after the slots from [i] on have been given up: on one of those it takes
    over what the slot held. *)
Definition close_at (i : nat) (st : list Val) (o : ObjUpvalue) : ObjUpvalue :=
  match location o with
  | Some l => if i <=? l then mkUpvalue None (default Nil (st !! l)) else o
  | None => o
  end.

(** Exactly the upvalues on the slots from [i] on have been closed. *)
Definition closes_from (i : nat) (s s' : Stack) : Prop := upvals s' = map (close_at i (stack s)) (upvals s).

Lemma upvalue_open s c theta u o l : tracks s c theta -> upvals s !! u = Some o -> location o = Some l ->
  u ∈ openUpvalues s /\ l < stackTop s.
Proof.
  intros Ht Ho Hl. assert (is_Some (theta !! u)) as [x Hx].
  { apply lookup_lt_is_Some. rewrite (tr_upvals _ _ _ Ht). by eapply lookup_lt_Some. }
  pose proof (tr_upvalue _ _ _ Ht u x o Hx Ho) as Hup. unfold upvalue_tracks in Hup. rewrite Hl in Hup.
  split; [apply Hup|]. rewrite (tr_top _ _ _ Ht). eapply lookup_lt_Some, Hup.
Qed.

Lemma close_at_id i st us : (forall u o l, us !! u = Some o -> location o = Some l -> l < i) ->
  map (close_at i st) us = us.
Proof.
  intros H. apply list_eq. intros u. rewrite list_lookup_fmap. destruct (us !! u) as [o|] eqn:Eo; [|done].
  simpl. f_equal. unfold close_at. destruct (location o) as [l|] eqn:El; [|done].
  specialize (H u o l Eo El). destruct (i <=? l) eqn:E; [apply Nat.leb_le in E; lia|done].
Qed.

Lemma closes_none s c theta : tracks s c theta -> closes_from (stackTop s) s s.
Proof. intros Ht. symmetry. apply close_at_id. intros u o l Ho Hl. by eapply upvalue_open. Qed.

Lemma closes_trans i j s1 s2 s3 : closes_from i s1 s2 -> closes_from j s2 s3 -> j <= i ->
  (forall l, l < i -> stack s2 !! l = stack s1 !! l) -> closes_from j s1 s3.
Proof.
  unfold closes_from. intros -> -> Hij Hsame. rewrite map_map. apply map_ext. intros o. unfold close_at.
  destruct (location o) as [l|] eqn:El; simpl; [|by rewrite El].
  destruct (i <=? l) eqn:E1; simpl; [|rewrite El; by rewrite Hsame by (by apply Nat.leb_gt)].
  apply Nat.leb_le in E1. destruct (j <=? l) eqn:E2; [done|]. apply Nat.leb_gt in E2. lia.
Qed.

Lemma close_front_closes st i ou cs n ce bs theta us' ou' : forall us t vs,
  tracks (mkStack st t ou us cs) (mkCells n vs ce bs) theta ->
  Stk.close_front st i us ou = Ret (us', ou') -> us' = map (close_at i st) us.
Proof.
  induction ou as [|u ou IH]; simpl; intros us t vs Ht Hc.
  { injection Hc as <- _. symmetry. apply close_at_id. intros u o l Ho Hl.
    destruct (upvalue_open _ _ _ u o l Ht Ho Hl) as [[]%not_elem_of_nil _]. }
  destruct (us !! u) as [[[l|] w]|] eqn:Eu; [|done..]. destruct (i <=? l) eqn:Ei.
  - destruct (st !! l) as [v|] eqn:Ev; simpl in Hc; [|done].
    destruct (tracks_close_one _ _ _ _ _ _ _ _ _ _ _ _ _ _ Ht Eu Ev) as [_ H1].
    rewrite (IH _ _ _ H1 Hc). apply list_eq. intros y. rewrite !list_lookup_fmap.
    destruct (decide (y = u)) as [->|Hne]; [|by rewrite list_lookup_insert_ne].
    rewrite list_lookup_insert_eq by (by eapply lookup_lt_Some). rewrite Eu. simpl. unfold close_at. simpl.
    by rewrite Ei, Ev.
  - apply Nat.leb_gt in Ei. injection Hc as <- _. symmetry. apply close_at_id. intros y o k Ho Hk.
    destruct (upvalue_open _ _ _ y o k Ht Ho Hk) as [Hin _].
    apply (open_below _ _ _ i Ht) with y; [|done|].
    + simpl. exists l. unfold place. by rewrite Eu.
    + unfold place. simpl in *. rewrite Ho. done.
Qed.

(** Unwinding a frame gives up its slots, closing the upvalues on them, and nothing else. *)
Lemma unwindFrame_stack s th c theta f fs :
  tracks s c theta -> frames th = f :: fs -> isContinuationCallback f = false -> slots f <= stackTop s ->
  exists s' th', unwindFrame (mkVM s th) = Ret (tt, mkVM s' th') /\ frames th' = fs /\
    tracks s' (mkCells (limit c) (take (slots f) (vars c)) (cells c) (blocks c)) theta /\
    stackTop s' = slots f /\ length (stack s') = length (stack s) /\
    (forall i, i < slots f -> stack s' !! i = stack s !! i) /\ closes_from (slots f) s s'.
Proof.
  destruct s as [st t ou us cs], c as [n vs ce bs]. intros Ht Hf Hc Hs. simpl in *.
  destruct (close_front_defined _ (slots f) _ _ _ _ _ _ _ _ _ Ht) as (us' & ou' & Hclose).
  pose proof (tracks_close _ _ _ _ _ _ _ _ _ _ _ _ _ Ht Hclose) as Ht'.
  pose proof (close_front_closes _ _ _ _ _ _ _ _ _ _ _ _ _ Ht Hclose) as Hus.
  replace (min (slots f) t) with (slots f) in Ht' by lia.
  destruct th as [fn fr fst pe ini act unc err lim]. simpl in Hf. subst fr.
  assert (exists pe', forall k : unit -> M Stack unit,
    bind (if isEventHandler f && eventDispatchActive pe then alters (with_pending no_event) else ret tt)
      (fun _ => bind (if isConstructorSetter f && (0 <? pendingSetterCount pe) then alters (with_pending no_setters) else ret tt) k)
      (mkVM (mkStack st t ou us cs) (mkThread fn (f :: fs) fst pe ini act unc err lim))
    = k tt (mkVM (mkStack st t ou us cs) (mkThread fn (f :: fs) fst pe' ini act unc err lim))) as [pe' Hpe].
  { unfold bind, alters, ret. destruct (isEventHandler f && _), (isConstructorSetter f && _); eexists; intros k; simpl; reflexivity. }
  destruct (popN_stack (t - slots f) st t ou' us' cs (mkThread fn (f :: fs) fst pe' ini act unc err lim)
              ltac:(lia) (tr_fits _ _ _ Ht)) as (st' & Hpop & Hlen & Hsame).
  replace (t - (t - slots f)) with (slots f) in * by lia.
  exists (mkStack st' (slots f) ou' us' cs), (mkThread fn fs fst pe' ini act unc err lim). split_and!; try done.
  - unfold unwindFrame. unfold bind at 1, frame, bind at 1, asks at 1, ret at 1. simpl.
    unfold bind at 1, asks at 1. simpl. rewrite Hpe, Hc.
    unfold bind, ret, closeM, writes, quiet, depthM, reads. simpl. rewrite Hclose. simpl.
    assert (t <? slots f = false) as -> by (apply Nat.ltb_ge; lia).
    unfold bind in Hpop. rewrite Hpop. done.
  - by eapply tracks_above.
Qed.

(** A frame an exception passes through. *)
Definition passed (f : CallFrame) : Prop :=
  exceptionHandlers f = [] /\ unwindOnReturn f = false /\ isContinuationCallback f = false.

(** The frames' slots go down the stack from [top], and not below [low]. *)
Fixpoint stacked (low top : nat) (l : list CallFrame) : Prop :=
  match l with
  | [] => low <= top
  | f :: l' => slots f <= top /\ stacked low (slots f) l'
  end.

Lemma stacked_le low top l : stacked low top l -> low <= top.
Proof. revert top. induction l as [|f l IH]; simpl; intros top; [done|]. intros [Hf Hl]. apply IH in Hl. lia. Qed.

(** What is left of a thread at the end of an unwinding that keeps the lowest [n] slots. *)
Definition keeps (s s' : Stack) (n : nat) : Prop :=
  length (stack s') = length (stack s) /\ forall i, i < n -> stack s' !! i = stack s !! i.

Lemma keeps_trans s1 s2 s3 n m : keeps s1 s2 n -> keeps s2 s3 m -> m <= n -> keeps s1 s3 m.
Proof. intros [L1 K1] [L2 K2] Hm. split; [congruence|]. intros i Hi. rewrite K2, K1 by lia. done. Qed.

(** Where the slots of the lowest frame of [above] start. *)
Definition base (above : list CallFrame) (top : nat) : nat :=
  match last above with Some f => slots f | None => top end.

Lemma base_cons f above top : base (f :: above) top = base above (slots f).
Proof. unfold base. rewrite last_cons. by destruct (last above). Qed.

Lemma stacked_base low top above : stacked low top above -> base above top <= top.
Proof.
  revert top. induction above as [|f above IH]; intros top; [done|]. intros [Hf Hs]. rewrite base_cons.
  specialize (IH _ Hs). lia.
Qed.

(** Unwinding [above], frame by frame, until the loop looks at [cf]. *)
Lemma find_handler_above exc cf below low c theta : forall above fuel s th vs,
  tracks s (mkCells (limit c) vs (cells c) (blocks c)) theta ->
  frames th = above ++ cf :: below -> Forall passed above -> stacked low (stackTop s) above ->
  length above <= fuel ->
  exists s' th' vs', find_handler fuel exc (mkVM s th) = find_handler (fuel - length above) exc (mkVM s' th') /\
    frames th' = cf :: below /\ tracks s' (mkCells (limit c) vs' (cells c) (blocks c)) theta /\
    low <= stackTop s' <= stackTop s /\ keeps s s' (stackTop s') /\ stackTop s' = base above (stackTop s) /\
    closes_from (base above (stackTop s)) s s'.
Proof.
  induction above as [|f above IH]; intros fuel s th vs Ht Hf Hp Hs Hfuel; simpl in *.
  { exists s, th, vs. rewrite Nat.sub_0_r. split_and!; try done. by eapply closes_none. }
  destruct fuel as [|fuel]; [lia|]. apply Forall_cons in Hp as [(Hh & Hu & Hc) Hp]. destruct Hs as [Hsf Hs].
  destruct (unwindFrame_stack _ _ _ _ _ _ Ht Hf Hc Hsf) as (s1 & th1 & E1 & Hf1 & Ht1 & Htop1 & Hlen1 & Hsame1 & Hcl1).
  simpl in Ht1. rewrite <- Htop1 in Hs.
  destruct (IH fuel s1 th1 _ Ht1 Hf1 Hp Hs ltac:(lia)) as (s' & th' & vs' & E & Hf' & Ht' & Htop & Hk & Hb & Hcl).
  exists s', th', vs'. split_and!; try done; try lia.
  - transitivity (find_handler fuel exc (mkVM s1 th1)); [|exact E].
    simpl. unfold bind at 1, asks at 1. simpl. rewrite Hf, Hh, Hu. unfold bind. rewrite E1. done.
  - apply (keeps_trans s s1 s' (stackTop s1)); [|exact Hk|lia]. split; [done|]. rewrite Htop1. done.
  - rewrite base_cons. by rewrite <- Htop1.
  - rewrite base_cons. rewrite Htop1 in Hcl, Hs. pose proof (stacked_base _ _ _ Hs).
    by apply (closes_trans (slots f) _ s s1 s').
Qed.

Definition wrapped (exc : Val) : Val := match exc with ExceptionV _ => exc | _ => ExceptionV exc end.

(** C10. Exceptions find the innermost handler.  An exception unwinds the frames above the
    first one that has a handler or was entered by a native caller.  A handler takes over
    with its frame on top and all frames below as they were, its own entry spent, at the
    code it names, and the stack cut to its height at the [try] with the exception above
    it.  A frame entered by native code without one is unwound too and the failure is
    reported; what is beneath is left to the caller.  In both cases the stack below is
    untouched, the upvalues on the slots of the unwound frames are closed, each over what
    its slot held, and all others are as they were. *)
Theorem exceptions_find_their_handler (s : Stack) (c : Cells) (th : Thread) (theta : list nat) (exc : Val)
    (above below : list CallFrame) (cf : CallFrame)
    (Hs : tracks s c theta) (Hframes : frames th = above ++ cf :: below) (Habove : Forall passed above) :
  match exceptionHandlers cf with
  | h :: hs =>
      frameDepth h = length (cf :: below) -> stacked (stackDepth h) (stackTop s) above ->
      stackDepth h < length (stack s) ->
      exists s' th', unwindToExceptionHandler exc (mkVM s th) = Ret (true, mkVM s' th') /\
        frames th' = with_ip (fun _ => handlerIp h) (with_handlers (fun _ => hs) cf) :: below /\
        stackTop s' = S (stackDepth h) /\ stack s' !! stackDepth h = Some (wrapped exc) /\
        keeps s s' (stackDepth h) /\ closes_from (base above (stackTop s)) s s'
  | [] =>
      unwindOnReturn cf = true -> isContinuationCallback cf = false -> stacked (slots cf) (stackTop s) above ->
      exists s' th', unwindToExceptionHandler exc (mkVM s th) = Ret (false, mkVM s' th') /\
        frames th' = below /\ runtimeErrorFlag th' = true /\ stackTop s' = slots cf /\ keeps s s' (slots cf) /\
        closes_from (slots cf) s s'
  end.
Proof.
  assert (forall low, stacked low (stackTop s) above ->
    exists s1 th1 vs1, unwindToExceptionHandler exc (mkVM s th)
        = find_handler (S (length below)) (wrapped exc) (mkVM s1 th1) /\
      frames th1 = cf :: below /\ tracks s1 (mkCells (limit c) vs1 (cells c) (blocks c)) theta /\
      low <= stackTop s1 /\ keeps s s1 (stackTop s1) /\ stackTop s1 = base above (stackTop s) /\
      closes_from (base above (stackTop s)) s s1) as Hgo.
  { intros low Hlow. destruct c as [n vs ce bs].
    destruct (find_handler_above (wrapped exc) cf below low (mkCells n vs ce bs) theta above (length (frames th)) s th vs
                Hs Hframes Habove Hlow) as (s1 & th1 & vs1 & E & Hf & Ht & Htop & Hk & Hb & Hcl).
    { rewrite Hframes, length_app. lia. }
    exists s1, th1, vs1. split_and!; try done; [|lia].
    replace (S (length below)) with (length (frames th) - length above); [exact E|].
    rewrite Hframes, length_app. simpl. lia. }
  destruct (exceptionHandlers cf) as [|h hs] eqn:Eh.
  - intros Hu Hc Hlow. destruct (Hgo _ Hlow) as (s1 & th1 & vs1 & E & Hf & Ht & Htop & Hk & Hb & Hcl).
    destruct (unwindFrame_stack _ _ _ _ _ _ Ht Hf Hc Htop) as (s2 & th2 & E2 & Hf2 & _ & Htop2 & Hlen2 & Hsame2 & Hcl2).
    exists s2, (with_error th2). split_and!; try done.
    + rewrite E. simpl. unfold bind at 1, asks at 1. simpl. rewrite Hf, Eh, Hu. unfold bind. rewrite E2. done.
    + by destruct th2.
    + by destruct th2.
    + by apply (keeps_trans s s1 s2 (stackTop s1)).
    + apply (closes_trans (base above (stackTop s)) _ s s1 s2); [done|done|lia|]. rewrite <- Hb. apply Hk.
  - intros Hd Hlow Hsize. destruct (Hgo _ Hlow) as (s1 & th1 & vs1 & E & Hf & Ht & Htop & Hk & Hb & Hcl).
    destruct s1 as [st t ou us cs]. simpl in *.
    pose proof (tr_fits _ _ _ Ht) as Hfits. simpl in Hfits. pose proof (proj1 Hk) as Hlen. simpl in Hlen.
    destruct th1 as [fn fr fst pe ini act unc err lim]. simpl in Hf. subst fr.
    destruct (popToDepth_stack (stackDepth h) st t ou us cs
                (mkThread fn (with_ip (fun _ => handlerIp h) (with_handlers (drop 1) cf) :: below) fst pe ini act unc err lim)
                Htop Hfits) as (st' & Hpop & Hl & Hsame).
    eexists (mkStack (<[stackDepth h := wrapped exc]> st') (S (stackDepth h)) ou us cs), _.
    split_and!; [rewrite E|..]; simpl.
    + unfold set_frame, frame, framesSize, pushM, writes, quiet, bind, asks, alters, ret. simpl.
      rewrite Eh. simpl. rewrite Hd. unfold framesSize, bind, asks. simpl.
      destruct (_ <? _) eqn:Elt; [apply Nat.ltb_lt in Elt; lia|]. unfold ret. simpl. rewrite Hpop. simpl.
      assert (stackDepth h =? length st' = false) as -> by (apply Nat.eqb_neq; lia). done.
    + destruct cf. simpl in Eh. subst. done.
    + done.
    + by rewrite list_lookup_insert_eq by lia.
    + apply (keeps_trans s (mkStack st t ou us cs) _ t); [exact Hk| |done]. split; simpl.
      * by rewrite length_insert.
      * intros i Hi. rewrite list_lookup_insert_ne by lia. by apply Hsame.
    + exact Hcl.
Qed.

(** Values on a stack, the [k]th of them captured. *)
Definition captured_stack (l : list Val) (k size : nat) : Stack :=
  mkStack (l ++ replicate (size - length l) Nil) (length l) [0] [mkUpvalue (Some k) Nil] [].
Definition plain_cells (l : list Val) (size : nat) : Cells := mkCells size (seq 0 (length l)) l [].

Lemma tracks_captured l k size : length l <= size -> k < length l -> tracks (captured_stack l k size) (plain_cells l size) [k].
Proof.
  intros Hl Hk. split; simpl; try done; try apply NoDup_singleton; try apply NoDup_seq;
    rewrite ?length_app, ?length_replicate, ?length_seq; try lia.
  - intros i x Hx. apply lookup_seq in Hx as [-> Hi]. simpl. rewrite lookup_app_l by done.
    split; [by apply lookup_lt_is_Some|done].
  - intros [|u] x o; [|done]. intros [= <-] [= <-]. split; simpl; [left|]. by apply lookup_seq.
  - exists [k]. split; [by repeat constructor|repeat constructor].
Qed.

Definition demo_frame (sl : nat) (hs : list ExceptionHandler) (un : bool) : CallFrame :=
  mkFrame 0 9 sl None false false [] [] hs false false false false un.
Definition demo_thread (fs : list CallFrame) : Thread := mkThread [] fs false idle [] false None false 8.

(** The innermost of three frames, a variable of which is captured, raises; the one
    beneath it is in a [try]. *)
Lemma exceptions_find_their_handler_witness :
  exists s' th', unwindToExceptionHandler (Int 7)
      (mkVM (captured_stack [Nil; Int 1; Int 2; Nil; Int 3; Int 4] 4 8)
         (demo_thread [demo_frame 3 [] false; demo_frame 1 [mkHandler 40 2 2] false; demo_frame 0 [] true]))
    = Ret (true, mkVM s' th') /\
    frames th' = [with_ip (fun _ => 40) (demo_frame 1 [] false); demo_frame 0 [] true] /\
    live s' = [Nil; Int 1; ExceptionV (Int 7)] /\ upvals s' = [mkUpvalue None (Int 3)].
Proof.
  pose proof (exceptions_find_their_handler _ _
    (demo_thread [demo_frame 3 [] false; demo_frame 1 [mkHandler 40 2 2] false; demo_frame 0 [] true]) _ (Int 7)
    [demo_frame 3 [] false] [demo_frame 0 [] true] (demo_frame 1 [mkHandler 40 2 2] false)
    (tracks_captured [Nil; Int 1; Int 2; Nil; Int 3; Int 4] 4 8 ltac:(simpl; lia) ltac:(simpl; lia)) eq_refl
    ltac:(repeat constructor)) as Hx.
  destruct Hx as (s' & th' & E & Hf & Htop & Hexc & Hk & Hcl); [done|simpl; lia|simpl; lia|].
  exists s', th'. split; [exact E|]. split; [exact Hf|]. split; [|exact Hcl].
  vm_compute in E. injection E as <- _. reflexivity.
Defined.

End MachineProofs.
