(* ===== verification/CallProofs.v ===== *)
(** * CallProofs: call sites, their arguments and the parameters they reach

    The binary form of a call's arguments and what a callee finds in its slots. *)

From S2P Require Import Prelude Types Ustring Chunk Machine MachineProofs.
From stdpp Require Import numbers list.

Module CallProofs.

Import Chunk Machine MachineProofs.
Local Open Scope Z_scope.

(** ** Operation codes *)

(** ** The binary form of a call *)

(** What survives the encoding of an argument: the low fifteen bits of the hash. *)
Definition canonical (a : ArgSpec) : ArgSpec :=
  if positional a then mkArg true 0 else mkArg false (32768 + paramNameHash a mod 32768).

Definition canonical_spec (s : CallSpec) : CallSpec :=
  mkSpec (argCount s) (allPositional s) (map canonical (args s)).

Definition spec_ok (s : CallSpec) : Prop :=
  0 <= argCount s <= 127 /\
  (if allPositional s then args s = [] else length (args s) = Z.to_nat (argCount s)).

Lemma named_bytes h :
  let H := Z.lor 32768 (Z.land h 32767) in
  [Z.shiftr (Z.land H 65280) 8; Z.land H 255] = [128 + h mod 32768 / 256; h mod 256].
Proof.
  assert (Z.land h 32767 = h mod 32768) as -> by (apply (Ustring.land_mask 15); lia).
  pose proof (Z.mod_pos_bound h 32768 ltac:(lia)) as Hb.
  assert (Z.lor 32768 (h mod 32768) = 32768 + h mod 32768) as -> by (by apply (Ustring.lor_add 15 1)).
  cbv zeta. f_equal; [|f_equal].
  - rewrite Z.shiftr_land, Ustring.shr by lia. change (Z.shiftr 65280 8) with 255.
    rewrite (Ustring.land_mask 8) by lia. change (2 ^ 8) with 256. rewrite Z.mod_small.
    + rewrite Z.add_comm. rewrite (Z.div_add _ 128 256) by lia. lia.
    + split; [apply Z.div_pos; lia|apply Z.div_lt_upper_bound; lia].
  - rewrite (Ustring.land_mask 8) by lia. change (2 ^ 8) with 256.
    rewrite <- Zplus_mod_idemp_l. change (32768 mod 256) with 0. rewrite Z.add_0_l.
    apply Z.mod_mod_divide. by exists 128.
Qed.

Lemma read_args_bytes l rest :
  read_args (length l) (concat (map arg_bytes l) ++ rest) = Some (map canonical l, rest).
Proof.
  induction l as [|a l IH]; [done|]. simpl. unfold arg_bytes at 1, canonical at 1.
  destruct (positional a); simpl.
  { rewrite IH. done. }
  pose proof (named_bytes (paramNameHash a)) as E. cbv zeta in E. injection E as -> ->.
  set (h := paramNameHash a).
  pose proof (Z.mod_pos_bound h 32768 ltac:(lia)). pose proof (Z.mod_pos_bound h 256 ltac:(lia)).
  assert (0 <= h mod 32768 / 256 < 128) by (split; [apply Z.div_pos; lia|apply Z.div_lt_upper_bound; lia]).
  assert (Z.lor (wrapU 16 (Z.shiftl (128 + h mod 32768 / 256) 8)) (h mod 256) = 32768 + h mod 32768) as E.
  { rewrite Ustring.shl by lia. unfold wrapU. rewrite Z.mod_small by lia. rewrite Ustring.lor_add by lia.
    change (2 ^ 8) with 256. pose proof (Z.div_mod (h mod 32768) 256 ltac:(lia)).
    rewrite (Z.mod_mod_divide h 32768 256) in * by (by exists 128). lia. }
  destruct (128 + h mod 32768 / 256) as [|p|p] eqn:Ep; [lia| |lia]. rewrite IH. simpl. by rewrite E.
Qed.

Lemma count_byte n : 0 <= n <= 127 -> Z.land 127 (wrapU 8 n) = n /\
  Z.land n 128 = 0 /\ Z.land n 127 = n /\ Z.land (Z.lor 128 n) 128 <> 0 /\ Z.land (Z.lor 128 n) 127 = n.
Proof.
  intros Hn.
  assert (Forall (fun n => Z.land 127 (wrapU 8 n) = n /\ Z.land n 128 = 0 /\ Z.land n 127 = n /\
    Z.land (Z.lor 128 n) 128 <> 0 /\ Z.land (Z.lor 128 n) 127 = n) (seqZ 0 128)) as Hall.
  { apply (bool_decide_unpack _). vm_compute. exact I. }
  rewrite Forall_forall in Hall. apply Hall, elem_of_seqZ. lia.
Qed.

Lemma paramIndex_canonical a ps i :
  positional a = false -> paramIndex (paramNameHash (canonical a)) ps i = paramIndex (paramNameHash a) ps i.
Proof.
  intros Ha. unfold canonical. rewrite Ha. simpl.
  assert (Z.land (32768 + paramNameHash a mod 32768) 32767 = Z.land (paramNameHash a) 32767) as E.
  { rewrite !(Ustring.land_mask 15) by lia. change (2 ^ 15) with 32768.
    rewrite <- Zplus_mod_idemp_l. rewrite Z.mod_same, Z.add_0_l by lia. by rewrite Z.mod_mod by lia. }
  revert i. induction ps as [|[q|] ps IH]; intros i; simpl; [done| |by rewrite IH].
  rewrite E. case_match; [done|]. case_match; [done|]. apply IH.
Qed.

Lemma positional_canonical a : positional (canonical a) = positional a.
Proof. unfold canonical. by destruct (positional a). Qed.

Lemma paramPositions_canonical s ft : paramPositions (canonical_spec s) ft = paramPositions s ft.
Proof.
  unfold paramPositions, canonical_spec. simpl. destruct (allPositional s); [done|].
  assert (forall l ai p, bind_named (params ft) ai (map canonical l) p = bind_named (params ft) ai l p) as ->.
  { induction l as [|a l IH]; intros ai p; simpl; [done|]. rewrite positional_canonical.
    destruct (positional a) eqn:Ea; [apply IH|]. rewrite paramIndex_canonical by done. by rewrite IH. }
  destruct (bind_named _ _ _ _) as [named| |]; simpl; [|done..].
  assert (forall vr rg l ai sn nx nt sd p, bind_positional vr rg ai sn nx nt sd (map canonical l) p
      = bind_positional vr rg ai sn nx nt sd l p) as ->; [|done].
  intros vr rg. induction l as [|a l IH]; intros; simpl; [done|]. rewrite positional_canonical.
  repeat (case_match; try apply IH); done.
Qed.

(** Call sites round-trip.  The bytes that follow a call instruction, for up to 127
    arguments, read back as the call they were written from, and nothing more is read;
    of the names only fifteen bits of their hashes survive, which are all that matching
    them with parameters looks at: the parameters are bound alike. *)
Theorem call_spec_roundtrip (s : CallSpec) (rest : list Z) (Hs : spec_ok s) :
  exists bytes, toBytes s = Ret bytes /\ read_spec (bytes ++ rest) = Some (canonical_spec s, rest) /\
    forall ft, paramPositions (canonical_spec s) ft = paramPositions s ft.
Proof.
  destruct Hs as [Hn Ha]. destruct (count_byte _ Hn) as (E1 & E2 & E3 & E4 & E5).
  unfold toBytes, read_spec, canonical_spec. rewrite E1. destruct (allPositional s) eqn:Eall.
  - destruct (127 <? argCount s) eqn:E; [apply Z.ltb_lt in E; lia|].
    eexists. split; [done|]. split.
    + simpl. rewrite E2, E3, Ha. done.
    + intros ft. rewrite <- Eall. apply paramPositions_canonical.
  - eexists. split; [done|]. split.
    + simpl. apply Z.eqb_neq in E4. rewrite E4, E5, <- Ha, read_args_bytes. done.
    + intros ft. rewrite <- Eall. apply paramPositions_canonical.
Qed.

Lemma call_spec_roundtrip_witness :
  exists bytes, toBytes (mkSpec 2 false [mkArg true 0; mkArg false 97]) = Ret bytes /\
    read_spec (bytes ++ [44]) = Some (mkSpec 2 false [mkArg true 0; mkArg false 32865], [44]).
Proof.
  destruct (call_spec_roundtrip (mkSpec 2 false [mkArg true 0; mkArg false 97]) [44]) as (bytes & H1 & H2 & _).
  { split; simpl; [lia|done]. }
  exists bytes. split; [exact H1|exact H2].
Defined.


(** ** Which parameter an argument is for *)

(** The [ai]-th argument: the parameter of its place, or the first one of its name. *)
Definition target (ps : list (option param_type)) (ai : nat) (a : ArgSpec) : option nat :=
  if positional a then if (ai <? length ps)%nat then Some ai else None
  else let i := paramIndex (paramNameHash a) ps 0 in
       if 0 <=? i then Some (Z.to_nat i) else None.

Lemma paramIndex_range h ps : forall i, 0 <= i -> i + Z.of_nat (length ps) <= 127 ->
  paramIndex h ps i = -1 \/ i <= paramIndex h ps i < i + Z.of_nat (length ps).
Proof.
  induction ps as [|q ps IH]; intros i Hi Hl; simpl in *; [by left|].
  assert (wrapS 8 (i + 1) = i + 1) as E by (apply wrapS_id; [lia|split; lia]).
  specialize (IH (i + 1)).
  destruct q as [q|]; repeat case_match; rewrite ?E; try lia; try (by left).
Qed.

Lemma target_lt ps ai a i : (length ps <= 127)%nat -> target ps ai a = Some i -> (i < length ps)%nat.
Proof.
  unfold target. intros Hl. destruct (positional a).
  - case_match eqn:E; [|done]. intros [= <-]. by apply Nat.ltb_lt.
  - pose proof (paramIndex_range (paramNameHash a) ps 0 ltac:(lia) ltac:(lia)) as Hr.
    case_match eqn:E; [|done]. apply Z.leb_le in E. intros [= <-]. lia.
Qed.

(** Storing each entry at its place. *)
Definition store_all (l : list (nat * Z)) (p : list Z) : list Z :=
  foldl (fun p e => <[e.1 := e.2]> p) p l.

Lemma store_all_length l : forall p, length (store_all l p) = length p.
Proof. induction l as [|e l IH]; intros p; simpl; [done|]. by rewrite IH, length_insert. Qed.

Lemma store_all_other l : forall p k, k ∉ l.*1 -> store_all l p !! k = p !! k.
Proof.
  induction l as [|e l IH]; intros p k Hk; simpl; [done|]. simpl in Hk.
  rewrite not_elem_of_cons in Hk. rewrite IH by apply Hk. apply list_lookup_insert_ne. naive_solver.
Qed.

Lemma store_all_at l : forall p k v, NoDup l.*1 -> (k, v) ∈ l -> (k < length p)%nat -> store_all l p !! k = Some v.
Proof.
  induction l as [|e l IH]; intros p k v Hd Hin Hk; simpl in *; [set_solver|].
  apply NoDup_cons in Hd as [Hn Hd]. apply elem_of_cons in Hin as [<-|Hin].
  - rewrite store_all_other by done. by rewrite list_lookup_insert_eq.
  - apply IH; [done..|]. by rewrite length_insert.
Qed.

Definition numbered (from : nat) (is_ : list nat) : list (nat * Z) :=
  zip is_ (map Z.of_nat (seq from (length is_))).

Lemma numbered_fst from is_ : (numbered from is_).*1 = is_.
Proof. apply fst_zip. by rewrite length_map, length_seq. Qed.

Lemma numbered_in from is_ k i : is_ !! k = Some i -> (i, Z.of_nat (from + k)) ∈ numbered from is_.
Proof.
  intros Hk. apply list_elem_of_lookup. exists k. apply lookup_zip_Some. split; [done|].
  apply lookup_lt_Some in Hk. rewrite list_lookup_fmap, lookup_seq_lt by done. done.
Qed.

Lemma bind_named_spec ps l : forall (ai : nat) is_ p,
  (length ps <= 127)%nat -> (ai + length l <= 127)%nat ->
  Forall (fun a => positional a = false) l -> mapM (target ps 0) l = Some is_ ->
  bind_named ps (Z.of_nat ai) l p = Ret (store_all (numbered ai is_) p).
Proof.
  induction l as [|a l IH]; intros ai is_ p Hps Hl Hn Hm; simpl in *; [by injection Hm as <-|].
  apply Forall_cons in Hn as [Ha Hn]. rewrite Ha.
  destruct (target ps 0 a) as [j|] eqn:Et; simpl in Hm; [|done]. unfold target in Et. rewrite Ha in Et.
  destruct (0 <=? paramIndex (paramNameHash a) ps 0) eqn:E; [|done]. injection Et as <-.
  destruct (mapM (target ps 0) l) as [is_'|] eqn:Em; simpl in Hm; [|done]. injection Hm as <-.
  replace (Z.of_nat ai + 1) with (Z.of_nat (S ai)) by lia.
  rewrite (IH (S ai) is_'); [|done|lia|done..].
  rewrite wrapS_id by (try lia; split; lia). done.
Qed.

Lemma bind_named_skip ps l l' p : forall ai, Forall (fun a => positional a = true) l ->
  bind_named ps ai (l ++ l') p = bind_named ps (ai + Z.of_nat (length l)) l' p.
Proof.
  induction l as [|a l IH]; intros ai Hl; simpl; [by rewrite Z.add_0_r|].
  apply Forall_cons in Hl as [-> Hl]. rewrite IH by done. f_equal. lia.
Qed.

Lemma bind_positional_named rg l p : forall ai sn nx nt,
  Forall (fun a => positional a = false) l ->
  bind_positional false rg ai sn nx nt false l p = Ret (p, false).
Proof. induction l as [|a l IH]; intros ai sn nx nt Hl; simpl; [done|]. apply Forall_cons in Hl as [-> Hl]. by apply IH. Qed.

Lemma bind_positional_spec rg l l' : forall k nx p,
  (k + length l <= rg)%nat -> (k + length l <= 127)%nat ->
  Forall (fun a => positional a = true) l -> Forall (fun a => positional a = false) l' ->
  bind_positional false rg (Z.of_nat k) false nx k false (l ++ l') p
  = Ret (store_all (numbered k (seq k (length l))) p, false).
Proof.
  induction l as [|a l IH]; intros k nx p Hr Hl Hp Hn; simpl in *; [by apply bind_positional_named|].
  apply Forall_cons in Hp as [-> Hp]. simpl.
  assert ((k <? rg)%nat = true) as -> by (apply Nat.ltb_lt; lia).
  replace (Z.of_nat k + 1) with (Z.of_nat (S k)) by lia.
  rewrite IH by (done || lia). unfold numbered. simpl. rewrite length_seq.
  rewrite wrapS_id by (try lia; split; lia). done.
Qed.

(** The arguments of a call: first those given by place, then those given by name. *)
Definition ordered (l : list ArgSpec) : Prop :=
  exists pos named, l = pos ++ named /\ Forall (fun a => positional a = true) pos /\
    Forall (fun a => positional a = false) named.

Lemma required_ok ps positions :
  length positions = length ps ->
  (forall i q, ps !! i = Some q -> positions !! i = Some (-1) -> exists p, q = Some p /\ p_hasDefault p = true) ->
  checkRequiredArgumentsSpecified positions ps = Ret tt.
Proof.
  revert ps. induction positions as [|p positions IH]; intros [|q ps] Hl Hd; simpl in *; try done.
  assert (checkRequiredArgumentsSpecified positions ps = Ret tt) as E.
  { apply IH; [lia|]. intros i q' Hq Hp. by apply (Hd (S i)). }
  destruct (p =? -1) eqn:Ep; [|done]. apply Z.eqb_eq in Ep as ->.
  destruct (Hd 0%nat q eq_refl eq_refl) as (r & -> & Hr). rewrite Hr. by destruct (p_variadic r).
Qed.

(** Where the positions come from: each argument at its target, -1 elsewhere. *)
Lemma positions_named n l ft targets :
  hasVariadic ft = false -> (length (params ft) <= 127)%nat -> (length l <= 127)%nat -> ordered l ->
  (forall k a, l !! k = Some a -> exists i, targets !! k = Some i /\ target (params ft) k a = Some i) ->
  length targets = length l -> NoDup targets ->
  (forall i q, params ft !! i = Some q -> i ∉ targets -> exists p, q = Some p /\ p_hasDefault p = true) ->
  exists positions, paramPositions (mkSpec n false l) ft = Ret positions /\
    length positions = length (params ft) /\
    (forall k i, targets !! k = Some i -> positions !! i = Some (Z.of_nat k)) /\
    (forall i, (i < length (params ft))%nat -> i ∉ targets -> positions !! i = Some (-1)).
Proof.
  intros Hv Hps Hl (pos & named & -> & Hpos & Hnamed) Ht Hlen Hdup Hdef.
  set (ps := params ft) in *. rewrite length_app in *.
  assert (forall k i, targets !! k = Some i -> (i < length ps)%nat) as Hlt.
  { intros k i Hk. assert (is_Some ((pos ++ named) !! k)) as [a Ha].
    { apply lookup_lt_is_Some. rewrite length_app, <- Hlen. by eapply lookup_lt_Some. }
    destruct (Ht k a Ha) as (j & Hj & Htj). assert (j = i) as -> by congruence. by eapply target_lt. }
  assert (take (length pos) targets = seq 0 (length pos)) as Htake.
  { apply list_eq_same_length with (n := length pos); [by rewrite length_seq|rewrite length_take; lia|].
    intros k x y Hk Hx Hy. apply lookup_take_Some in Hx as [Hx _]. apply lookup_seq in Hy as [-> _].
    apply lookup_lt_is_Some in Hk as [a Ha]. destruct (Ht k a) as (i & Hi & Hti); [by apply lookup_app_l_Some|].
    unfold target in Hti. rewrite Forall_lookup in Hpos. rewrite (Hpos k a Ha) in Hti. case_match; [|done].
    simpl. congruence. }
  assert (mapM (target ps 0) named = Some (drop (length pos) targets)) as Hm.
  { apply mapM_Some_2. apply Forall2_same_length_lookup_2; [rewrite length_drop; lia|].
    intros k a i Ha Hi. rewrite lookup_drop in Hi.
    destruct (Ht (length pos + k)%nat a) as (j & Hj & Htj); [by rewrite lookup_app_r, Nat.add_comm, Nat.add_sub by lia|].
    assert (j = i) as -> by congruence. unfold target in *. rewrite Forall_lookup in Hnamed.
    rewrite (Hnamed k a Ha) in *. done. }
  assert (length pos <= length ps)%nat as Hpl.
  { destruct (length pos) as [|m] eqn:E; [lia|]. apply (Hlt m m).
    assert (seq 0 (S m) !! m = Some m) as Hm' by (apply lookup_seq; lia).
    rewrite <- Htake in Hm'. by apply lookup_take_Some in Hm' as [? _]. }
  assert (targets = seq 0 (length pos) ++ drop (length pos) targets) as Hsplit by (rewrite <- Htake; by rewrite take_drop).
  set (empty := replicate (length ps) (-1)).
  set (positions := store_all (numbered 0 (seq 0 (length pos))) (store_all (numbered (length pos) (drop (length pos) targets)) empty)).
  assert (length positions = length ps) as Hplen.
  { unfold positions. rewrite !store_all_length. apply length_replicate. }
  rewrite Hsplit in Hdup. apply NoDup_app in Hdup as (Hd1 & Hdisj & Hd2).
  assert (forall k i, targets !! k = Some i -> positions !! i = Some (Z.of_nat k)) as Hat.
  { intros k i Hk. pose proof (Hlt k i Hk) as Hi. rewrite Hsplit in Hk. apply lookup_app_Some in Hk as [Hk|[Hge Hk]].
    - unfold positions. apply store_all_at.
      + by rewrite numbered_fst.
      + by apply (numbered_in 0).
      + rewrite store_all_length. unfold empty. by rewrite length_replicate.
    - rewrite length_seq in *. unfold positions. rewrite store_all_other.
      + apply store_all_at; [by rewrite numbered_fst| |unfold empty; by rewrite length_replicate].
        apply (numbered_in (length pos)) in Hk. by replace (length pos + (k - length pos))%nat with k in Hk by lia.
      + rewrite numbered_fst. intros Hin. apply (Hdisj i Hin). by eapply list_elem_of_lookup_2. }
  assert (forall i, (i < length ps)%nat -> i ∉ targets -> positions !! i = Some (-1)) as Hnone.
  { intros i Hi Hn. rewrite Hsplit, not_elem_of_app in Hn. unfold positions.
    rewrite !store_all_other by (rewrite numbered_fst; apply Hn). by apply lookup_replicate. }
  exists positions. split_and!; [|done..]. unfold paramPositions. simpl. rewrite Hv. fold ps.
  rewrite bind_named_skip by done. rewrite Z.add_0_l.
  rewrite (bind_named_spec ps named (length pos) (drop (length pos) targets)) by (done || lia). simpl.
  fold empty. rewrite (bind_positional_spec (length ps) pos named 0) by (done || lia). simpl.
  fold positions. rewrite required_ok; [done|done|].
  intros i q Hq Hp. apply (Hdef i q Hq). intros [k Hk]%list_elem_of_lookup.
  rewrite (Hat k i Hk) in Hp. injection Hp as Hp. lia.
Qed.


(** ** What a callee finds in its slots *)

Section Slots.
Context (ou : list nat) (us : list ObjUpvalue) (cs : list ObjClosure).

Local Notation "'STK' st top th" := (mkVM (mkStack st top ou us cs) th) (at level 10, st at level 9, top at level 9, th at level 9).
Local Open Scope nat_scope.
Local Open Scope machine_scope.

Lemma collect_pops {A} (l : list A) : forall st t th, length l <= t -> t <= length st ->
  exists st', collect (fun _ => popM) l (STK st t th)
      = Ret (rev (take (length l) (drop (t - length l) st)), STK st' (t - length l) th) /\
    length st' = length st /\ forall i, i < t - length l -> st' !! i = st !! i.
Proof.
  induction l as [|a l IH]; intros st t th Hl Ht; simpl in *.
  { exists st. rewrite Nat.sub_0_r. done. }
  destruct t as [|t]; [lia|]. assert (is_Some (st !! t)) as [v Hv] by (apply lookup_lt_is_Some; lia).
  set (st1 := if isObj v then <[t := Nil]> st else st).
  assert (length st1 = length st) as Hlen by (unfold st1; destruct (isObj v); by rewrite ?length_insert).
  assert (forall i, i <> t -> st1 !! i = st !! i) as Hne.
  { intros i Hi. unfold st1. destruct (isObj v); [|done]. by apply list_lookup_insert_ne. }
  destruct (IH st1 t th ltac:(lia) ltac:(lia)) as (st' & Hp & Hl' & Hsame).
  exists st'. replace (S t - S (length l)) with (t - length l) by lia. split; [|split; [lia|]].
  - unfold bind at 1, popM at 1, writes at 1. simpl. rewrite Hv. simpl. fold st1. unfold bind. rewrite Hp. simpl. f_equal. f_equal.
    assert (take (length l) (drop (t - length l) st1) = take (length l) (drop (t - length l) st)) as ->.
    { apply list_eq. intros i. destruct (decide (i < length l)).
      - rewrite !lookup_take_lt, !lookup_drop by done. apply Hne. lia.
      - rewrite !lookup_take_ge by lia. done. }
    rewrite (take_S_r _ _ v); [by rewrite rev_app_distr|]. rewrite lookup_drop.
    by replace (t - length l + length l) with t by lia.
  - intros i Hi. rewrite Hsame by done. apply Hne. lia.
Qed.

Lemma pushes (values_ : list Val) (l : list Z) : forall st t th,
  (forall j r, l !! j = Some r -> (0 <= r)%Z /\ is_Some (values_ !! Z.to_nat r)) -> t + length l <= length st ->
  exists st', each (fun r => v <-- (if (r <? 0)%Z then ub else opt_ub (values_ !! Z.to_nat r)) ;; pushM v) l (STK st t th)
      = Ret (tt, STK st' (t + length l) th) /\
    length st' = length st /\ (forall i, i < t -> st' !! i = st !! i) /\
    forall j r, l !! j = Some r -> st' !! (t + j) = values_ !! Z.to_nat r.
Proof.
  induction l as [|r l IH]; intros st t th Hr Ht; simpl in *.
  { exists st. rewrite Nat.add_0_r. done. }
  destruct (Hr 0 r eq_refl) as [Hpos [v Hv]].
  destruct (IH (<[t := v]> st) (S t) th) as (st' & Hp & Hl & Hsame & Hat).
  { intros j r' Hj. apply (Hr (S j) r' Hj). }
  { rewrite length_insert. lia. }
  exists st'. rewrite length_insert in Hl. split_and!.
  - unfold bind at 1. assert ((r <? 0)%Z = false) as -> by (apply Z.ltb_ge; lia). rewrite Hv. simpl.
    unfold bind at 1, ret, pushM at 1, writes, quiet. simpl.
    assert (t =? length st = false) as -> by (apply Nat.eqb_neq; lia). simpl. rewrite Hp.
    by replace (t + S (length l)) with (S t + length l) by lia.
  - done.
  - intros i Hi. rewrite Hsame by lia. apply list_lookup_insert_ne. lia.
  - intros [|j] r' Hj; simpl in Hj.
    + injection Hj as <-. rewrite Nat.add_0_r, Hsame by lia. rewrite list_lookup_insert_eq by lia. done.
    + replace (t + S j) with (S t + j) by lia. by apply Hat.
Qed.

(** The parameter of a call's [k]-th argument. *)
Definition spec_target (spec : CallSpec) (ps : list (option param_type)) (k : nat) : option nat :=
  if allPositional spec then Some k else a ← args spec !! k; target ps k a.

Lemma targets_all (targets : list nat) n : length targets = n -> NoDup targets ->
  (forall k i, targets !! k = Some i -> i < n) -> forall i, i < n -> exists k, targets !! k = Some i.
Proof.
  intros Hl Hd Hlt i Hi. apply list_elem_of_lookup.
  assert (targets ⊆+ seq 0 n) as Hs.
  { apply NoDup_submseteq; [done|]. intros x [k Hk]%list_elem_of_lookup. apply elem_of_seq.
    specialize (Hlt k x Hk). lia. }
  assert (targets ≡ₚ seq 0 n) as -> by (apply submseteq_length_Permutation; [done|rewrite length_seq; lia]).
  apply elem_of_seq. lia.
Qed.

(** [call] for a function that is given each of its parameters once. *)
Lemma call_given th o fn c spec base args_ st reorder :
  cs !! c = Some o -> functions th !! function o = Some fn -> builtinStub fn = false ->
  length (frames th) <= callFrameLimit th ->
  take (length base + 1 + length args_) st = base ++ ClosureV c :: args_ ->
  (if hasVariadic (funcType fn) || negb (allPositional spec && (argCount spec =? Z.of_nat (arity fn))%Z)
   then arrange fn spec else ret (Some ([], Z.to_nat (argCount spec), [])))
    (STK st (length base + 1 + length args_) th)
  = Ret (Some (reorder, length args_, []), STK st (length base + 1 + length args_) th) ->
  exists f th', call c spec (STK st (length base + 1 + length args_) th) = Ret (true, STK st (length base + 1 + length args_) th') /\
    frames th' = f :: frames th /\ functions th' = functions th /\ closure f = c /\ ip f = 0 /\ slots f = length base /\
    reorderArgs f = reorder /\ tailArgValues f = [].
Proof.
  intros Hc Hf Hst Hlim Htake Harr. destruct th as [fns fr fst pe ini act unc err lim]. simpl in *.
  set (T := length base + 1 + length args_) in *.
  eexists _, _.
  unfold call, closureFunction, functionObj, bind at 1, bind at 1, reads, asks, Stk.functionOf. simpl.
  unfold Stk.functionOf. simpl. rewrite Hc. simpl. unfold bind at 1. simpl. rewrite Hf. simpl. rewrite Hst.
  unfold bind at 1. rewrite Harr.
  unfold enter, framesSize, bind, asks. simpl.
  assert (lim <? length fr = false) as -> by (apply Nat.ltb_ge; lia). unfold depthM, reads. simpl.
  assert (T <? length args_ + 1 = false) as -> by (apply Nat.ltb_ge; unfold T; lia).
  unfold closureFunction, functionObj, bind, reads, asks. simpl. unfold Stk.functionOf. simpl. rewrite Hc. simpl. rewrite Hf. simpl.
  split_and!; try reflexivity. simpl. unfold T. lia.
Qed.

(** [startFrame] with arguments to put in order. *)
Lemma startFrame_reorders th f fs o fn st t reorder (args_ : list Val) :
  frames th = f :: fs -> cs !! closure f = Some o -> functions th !! function o = Some fn ->
  existsb typed_param (params (funcType fn)) = false ->
  tailArgValues f = [] -> reorderArgs f = reorder -> reorder <> [] -> length reorder = length args_ -> t <= length st ->
  length args_ <= t -> take (length args_) (drop (t - length args_) st) = args_ ->
  (forall j r, reorder !! j = Some r -> (0 <= r)%Z /\ is_Some (args_ !! Z.to_nat r)) ->
  exists st', startFrame (STK st t th)
      = Ret (tt, STK st' t (with_frames (fun _ => with_args [] [] f :: fs) th)) /\
    length st' = length st /\ (forall i, i < t - length args_ -> st' !! i = st !! i) /\
    forall j r, reorder !! j = Some r -> st' !! (t - length args_ + j) = args_ !! Z.to_nat r.
Proof.
  intros Hf Hc Hfn Hty Htail Hre Hne Hlen Ht Hn Htake Hr.
  destruct th as [fns fr fst pe ini act unc err lim]. simpl in *. subst fr.
  destruct (collect_pops (reorderArgs f) st t (mkThread fns (f :: fs) fst pe ini act unc err lim)) as (st1 & Hpop & Hl1 & Hs1);
    [rewrite Hre; lia|done|].
  rewrite Hre, Hlen, Htake in Hpop. rewrite Hre, Hlen in Hs1.
  destruct (pushes args_ reorder st1 (t - length args_) (mkThread fns (f :: fs) fst pe ini act unc err lim) Hr)
    as (st2 & Hpush & Hl2 & Hs2 & Hat); [lia|].
  rewrite Hlen in Hpush. replace (t - length args_ + length args_) with t in Hpush by lia.
  exists st2. split; [|split_and!; [congruence|intros i Hi; by rewrite Hs2, Hs1 by lia|done]].
  unfold startFrame, frame, closureFunction, functionObj. unfold bind at 1, bind at 1, asks at 1, ret at 1. simpl.
  unfold bind at 1, bind at 1, reads at 1. simpl. unfold Stk.functionOf. simpl. rewrite Hc. simpl.
  unfold bind at 1, asks at 1. simpl. rewrite Hfn. simpl. unfold ret at 1. rewrite Htail. simpl.
  unfold bind at 1, ret at 1. rewrite bool_decide_eq_false_2 by (by rewrite Hre).
  unfold bind at 1, bind at 1. rewrite Hre. rewrite Hpop, rev_involutive. rewrite Hpush.
  unfold bind, set_frame, alters. simpl. rewrite Hty. done.
Qed.

Lemma startFrame_plain th f fs o fn st t :
  frames th = f :: fs -> cs !! closure f = Some o -> functions th !! function o = Some fn ->
  existsb typed_param (params (funcType fn)) = false -> tailArgValues f = [] -> reorderArgs f = [] ->
  startFrame (STK st t th) = Ret (tt, STK st t (with_frames (fun _ => with_args [] [] f :: fs) th)).
Proof.
  intros Hf Hc Hfn Hty Htail Hre. destruct th as [fns fr fst pe ini act unc err lim]. simpl in *. subst fr.
  unfold startFrame, frame, closureFunction, functionObj, bind, asks, ret, reads. simpl. unfold Stk.functionOf. simpl.
  rewrite Hc. simpl. rewrite Hfn. simpl. rewrite Htail, Hre, Hty. done.
Qed.

(** ** A call that gives every parameter its argument *)

Section Given.
Context (th : Thread) (c : nat) (o : ObjClosure) (fn : ObjFunction) (spec : CallSpec).
Context (base args_ st : list Val) (targets : list nat).
Hypothesis Hclosure : cs !! c = Some o.
Hypothesis Hfunction : functions th !! function o = Some fn.
Hypothesis Hstub : builtinStub fn = false.
Hypothesis Hvar : hasVariadic (funcType fn) = false.
Hypothesis Hty : existsb typed_param (params (funcType fn)) = false.
Hypothesis Har : arity fn = length (params (funcType fn)).
Hypothesis Hn : argCount spec = Z.of_nat (length args_).
Hypothesis Hna : length args_ = arity fn.
Hypothesis Hle : length args_ <= 127.
Hypothesis Htl : length targets = length args_.
Hypothesis Hnd : NoDup targets.
Hypothesis Hts : forall k, k < length args_ -> spec_target spec (params (funcType fn)) k = targets !! k.
Hypothesis Hframes : length (frames th) <= callFrameLimit th.
Hypothesis Hstack : take (length base + 1 + length args_) st = base ++ ClosureV c :: args_.

Notation n := (length args_).
Notation T := (length base + 1 + length args_).

Lemma given_room : T <= length st.
Proof. apply (f_equal length) in Hstack. rewrite length_app, length_take in Hstack. simpl in Hstack. lia. Qed.

Lemma given_argument k : k < n -> st !! (length base + 1 + k) = args_ !! k.
Proof.
  intros Hk. assert (take T st !! (length base + 1 + k) = args_ !! k) as E.
  { rewrite Hstack, lookup_app_r by lia. replace (length base + 1 + k - length base) with (S k) by lia. done. }
  by rewrite lookup_take_lt in E by lia.
Qed.

Lemma given_segment : take n (drop (T - n) st) = args_.
Proof.
  rewrite take_drop_commute. replace (T - n + n) with T by lia. rewrite Hstack.
  replace (T - n) with (length base + 1) by lia. rewrite <- drop_drop, drop_app_length. done.
Qed.

Lemma given_target_lt k i : targets !! k = Some i -> i < n.
Proof.
  intros Hk. assert (k < n) as Hkn by (rewrite <- Htl; by eapply lookup_lt_Some).
  specialize (Hts k Hkn). rewrite Hk in Hts. unfold spec_target in Hts.
  destruct (allPositional spec); [injection Hts as ->; done|].
  destruct (args spec !! k); simpl in Hts; [|done]. apply target_lt in Hts; lia.
Qed.

(** The callee is at its first instruction with its arguments in place. *)
Definition arrives : Prop :=
  exists st' th' f,
    (ok <-- call c spec ;; if ok then startFrame else ub) (STK st T th) = Ret (tt, STK st' T th') /\
    frames th' = f :: frames th /\ closure f = c /\ ip f = 0 /\ slots f = length base /\
    (forall i, i <= length base -> st' !! i = st !! i) /\
    forall k i, targets !! k = Some i -> st' !! (length base + 1 + i) = args_ !! k.

(** [call] has made the frame, its start has left the stack [st']. *)
Lemma arrives_by f th1 st' :
  call c spec (STK st T th) = Ret (true, STK st T th1) ->
  startFrame (STK st T th1) = Ret (tt, STK st' T (with_frames (fun _ => with_args [] [] f :: frames th) th1)) ->
  closure f = c -> ip f = 0 -> slots f = length base ->
  (forall i, i <= length base -> st' !! i = st !! i) ->
  (forall k i, targets !! k = Some i -> st' !! (length base + 1 + i) = args_ !! k) -> arrives.
Proof.
  intros Ec Es Hcl Hip Hsl Hlow Hat.
  exists st', (with_frames (fun _ => with_args [] [] f :: frames th) th1), (with_args [] [] f).
  unfold bind. rewrite Ec. split_and!; try done; try (by destruct th1); by destruct f.
Qed.

Lemma positional_arrives : allPositional spec = true -> arrives.
Proof.
  intros Eall. destruct (call_given th o fn c spec base args_ st [] Hclosure Hfunction Hstub Hframes Hstack)
    as (f & th1 & Ec & Hf1 & Hfn1 & Hcl & Hip & Hsl & Hre & Hta).
  { rewrite Hvar, Eall, Hn, Hna, Z.eqb_refl. simpl. by rewrite <- Hna, Nat2Z.id. }
  rewrite <- Hcl in Hclosure. rewrite <- Hfn1 in Hfunction.
  pose proof (startFrame_plain th1 f (frames th) o fn st T Hf1 Hclosure Hfunction Hty Hta Hre) as Es.
  apply (arrives_by f th1 st Ec Es Hcl Hip Hsl); [done|]. intros k i Hk.
  pose proof (lookup_lt_Some _ _ _ Hk) as Hkn. rewrite Htl in Hkn. pose proof (Hts k Hkn) as Htk.
  rewrite Hk in Htk. unfold spec_target in Htk. rewrite Eall in Htk. injection Htk as ->. by apply given_argument.
Qed.

(** The table of positions is the inverse of [targets]. *)
Lemma named_positions l : spec = mkSpec (Z.of_nat n) false l -> length l = n -> ordered l ->
  exists positions, paramPositions spec (funcType fn) = Ret positions /\ length positions = n /\
    (forall k i, targets !! k = Some i -> positions !! i = Some (Z.of_nat k)) /\
    forall j r, positions !! j = Some r -> exists k, k < n /\ r = Z.of_nat k.
Proof.
  pose proof given_target_lt as Hlt. intros -> Hll Hord.
  destruct (positions_named (Z.of_nat n) l (funcType fn) targets) as (positions & Hpp & Hpl & Hpat & _);
    [done|lia|lia|done| |lia|done| |].
  { intros k a Ha. assert (k < n) as Hk by (rewrite <- Hll; by eapply lookup_lt_Some).
    specialize (Hts k Hk). unfold spec_target in Hts. simpl in Hts. rewrite Ha in Hts. simpl in Hts.
    assert (is_Some (targets !! k)) as [i Hi] by (apply lookup_lt_is_Some; lia). exists i. by rewrite Hi in *. }
  { intros i q Hq Hni. exfalso. apply Hni. apply lookup_lt_Some in Hq.
    destruct (targets_all targets n Htl Hnd Hlt i) as [k Hk]; [lia|]. by eapply list_elem_of_lookup_2. }
  exists positions. split_and!; [done|lia|done|]. intros j r Hr.
  destruct (targets_all targets n Htl Hnd Hlt j) as [k Hk]; [apply lookup_lt_Some in Hr; lia|].
  exists k. split; [rewrite <- Htl; by eapply lookup_lt_Some|]. rewrite (Hpat k j Hk) in Hr. congruence.
Qed.

Lemma named_arrives l : spec = mkSpec (Z.of_nat n) false l -> length l = n -> ordered l -> arrives.
Proof.
  intros Hspec Hll Hord. destruct (named_positions l Hspec Hll Hord) as (positions & Hpp & Hpl & Hpat & Hback).
  destruct (call_given th o fn c spec base args_ st positions Hclosure Hfunction Hstub Hframes Hstack)
    as (f & th1 & Ec & Hf1 & Hfn1 & Hcl & Hip & Hsl & Hre & Hta).
  { rewrite Hvar. unfold arrange. rewrite Hpp, Hvar, Hn, Hspec. simpl. rewrite Nat2Z.id.
    unfold bind, ret. rewrite Hna, Nat.ltb_irrefl. done. }
  rewrite <- Hcl in Hclosure. rewrite <- Hfn1 in Hfunction. pose proof given_room. pose proof given_segment.
  destruct (decide (positions = [])) as [->|Hne].
  { pose proof (startFrame_plain th1 f (frames th) o fn st T Hf1 Hclosure Hfunction Hty Hta Hre) as Es.
    apply (arrives_by f th1 st Ec Es Hcl Hip Hsl); [done|]. intros k i Hk. by specialize (Hpat k i Hk). }
  destruct (startFrame_reorders th1 f (frames th) o fn st T positions args_ Hf1 Hclosure Hfunction Hty Hta Hre Hne)
    as (st' & Es & Hl' & Hs' & Hat); [lia|done|lia|done| |].
  { intros j r Hr. destruct (Hback j r Hr) as (k & Hk & ->). split; [lia|]. rewrite Nat2Z.id. by apply lookup_lt_is_Some. }
  apply (arrives_by f th1 st' Ec Es Hcl Hip Hsl); [intros i Hi; apply Hs'; lia|].
  intros k i Hk. specialize (Hat i _ (Hpat k i Hk)). rewrite Nat2Z.id in Hat.
  by replace (T - n + i) with (length base + 1 + i) in Hat by lia.
Qed.
End Given.

(** C11. Arguments reach their parameters.  A call of a function that is not variadic with
    one argument for each parameter, by place or (after those) by name in any order:
    when the callee's first instruction runs, its frame starts at the closure, and the
    slot of each parameter holds the argument that was given for it; the caller's slots
    are untouched. *)
Theorem arguments_reach_parameters (th : Thread) (c : nat) (o : ObjClosure) (fn : ObjFunction) (spec : CallSpec)
    (base args_ st : list Val) (targets : list nat)
    (Hclosure : cs !! c = Some o) (Hfunction : functions th !! function o = Some fn)
    (Hplain : builtinStub fn = false /\ hasVariadic (funcType fn) = false /\
              existsb typed_param (params (funcType fn)) = false /\ arity fn = length (params (funcType fn)))
    (Hcount : argCount spec = Z.of_nat (length args_) /\ length args_ = arity fn /\ length args_ <= 127)
    (Hnamed : allPositional spec = false -> length (args spec) = length args_ /\ ordered (args spec))
    (Htargets : length targets = length args_ /\ NoDup targets /\
                forall k, k < length args_ -> spec_target spec (params (funcType fn)) k = targets !! k)
    (Hframes : length (frames th) <= callFrameLimit th)
    (Hstack : take (length base + 1 + length args_) st = base ++ ClosureV c :: args_) :
  exists st' th' f,
    (ok <-- call c spec ;; if ok then startFrame else ub) (STK st (length base + 1 + length args_) th)
      = Ret (tt, STK st' (length base + 1 + length args_) th') /\
    frames th' = f :: frames th /\ closure f = c /\ ip f = 0 /\ slots f = length base /\
    (forall i, i <= length base -> st' !! i = st !! i) /\
    forall k i, targets !! k = Some i -> st' !! (length base + 1 + i) = args_ !! k.
Proof.
  destruct Hplain as (Hstub & Hvar & Hty & Har), Hcount as (Hn & Hna & Hle), Htargets as (Htl & Hnd & Hts).
  destruct (allPositional spec) eqn:Eall; [by eapply positional_arrives|]. destruct (Hnamed eq_refl) as [Hll Hord].
  eapply (named_arrives th c o fn spec base args_ st targets); eauto. destruct spec. simpl in *. by subst.
Qed.
End Slots.


(** ** Examples *)

Local Open Scope machine_scope.

Definition parameter (name : string) (hash : Z) (hasDefault : bool) : option param_type :=
  Some (ParamType name hash None hasDefault false).

Definition two_params (default : bool) : func_type :=
  FuncType false [parameter "a" 97 false; parameter "b" 98 default] [].

Definition two_function (default : bool) (code : list Z) : ObjFunction :=
  mkFunction code [] 2 0 (two_params default) [(98, 2%nat)] false false Nil None.

Lemma arguments_reach_parameters_witness :
  exists st' th' f,
    (ok <-- call 0 (mkSpec 2 false [mkArg false 98; mkArg false 97]) ;; if ok then startFrame else ub)
      (mkVM (mkStack [Int 5; ClosureV 0; Int 1; Int 2; Nil] 4 [] [] [mkClosure 0 []])
         (new_thread [two_function false []] 4)) =
      Ret (tt, mkVM (mkStack st' 4 [] [] [mkClosure 0 []]) th') /\
    frames th' = [f] /\ st' !! (slots f + 1)%nat = Some (Int 2) /\ st' !! (slots f + 2)%nat = Some (Int 1).
Proof.
  destruct (arguments_reach_parameters [] [] [mkClosure 0 []] (new_thread [two_function false []] 4) 0 (mkClosure 0 [])
    (two_function false []) (mkSpec 2 false [mkArg false 98; mkArg false 97]) [Int 5] [Int 1; Int 2]
    [Int 5; ClosureV 0; Int 1; Int 2; Nil] [1%nat; 0%nat])
    as (st' & th' & f & E & Hf & _ & _ & Hs & _ & Ht).
  - reflexivity.
  - reflexivity.
  - repeat split.
  - split; [reflexivity|]. split; [reflexivity|simpl; lia].
  - intros _. split; [reflexivity|]. exists [], [mkArg false 98; mkArg false 97]. repeat constructor.
  - split; [reflexivity|]. split; [apply (bool_decide_unpack _); vm_compute; exact I|].
    intros [|[|k]] Hk; [reflexivity..|simpl in Hk; lia].
  - simpl. lia.
  - reflexivity.
  - exists st', th', f. split; [exact E|]. split; [exact Hf|]. rewrite Hs.
    split; [exact (Ht 1%nat 0%nat eq_refl)|exact (Ht 0%nat 1%nat eq_refl)].
Defined.

(** [func f(a, b = 7): return b], called as [f(3)]: the default is computed in a frame of
    its own and stored in the parameter's slot. *)
Definition defaulted (call_site : list Z) : list ObjFunction := [
  plain_function (assemble ([inl Op.Closure; inr 0] ++ map inr call_site ++ [inl Op.Return])) [FunctionV 1; Int 3; Int 4] 0;
  two_function true (assemble [inl Op.GetLocal; inr 2; inl Op.Return]);
  plain_function (assemble [inl Op.Constant; inr 0; inl Op.ReturnStore]) [Int 7] 0].

Example default_argument :
  result (run (empty_stack 16) (defaulted (assemble [inl Op.Constant; inr 1; inl Op.Call; inr 1])) 8 100) = Some (OK, Int 7).
Proof. vm_compute. reflexivity. Qed.

(** The same function called as [f(3, a = 4)]: [a] is given twice, nothing objects, the
    argument count equals the parameter count, so the default of [b] is not computed; the
    arguments are put in order by a table that says -1 for [b], and the callee's start
    reads outside the array of its arguments. *)
Lemma argument_given_twice :
  paramPositions (mkSpec 2 false [mkArg true 0; mkArg false 97]) (two_params true) = Ret [0; -1] /\
  run (empty_stack 16) (defaulted (assemble [inl Op.Constant; inr 1; inl Op.Constant; inr 2;
    inl Op.Call; inr 130; inr 0; inr 128; inr 97])) 8 100 = UB.
Proof. vm_compute. auto. Qed.

End CallProofs.
