(* ===== verification/Scopes.v ===== *)
(** * Scopes: the compiler's functions, blocks, names and jumps

    What RoxalCompiler knows of a function while it compiles it ([FunctionScope]): the
    locals and the slots they will have, the captured variables, blocks, labels and jumps,
    and the code written so far.  How a name becomes a slot or an upvalue, what leaving a
    block, a loop or a labelled region emits, and how forward jumps are patched.

    A declared local is at once defined: what an initializer contains is compiled with the
    local still uninitialized (depth -1), which [addLocal] and [defineVariable] model.
    Compile-time constants, types and [with] contexts, which can also claim a name, are
    not here, nor is debug information. *)

From S2P Require Import Prelude Types Chunk.
From stdpp Require Import numbers list strings.

Module Scopes.

Import Chunk.
Local Open Scope Z_scope.

Record Local := mkLocal { name : string; ldepth : Z; isCaptured : bool; isConst : bool; isParam : bool }.

Record Upvalue := mkUp { index : Z; isLocal : bool; upName : string }.

Record LabelInfo := mkLabel {
  labName : string;
  offset : nat;
  liveLocalCount : nat;
  labScopeDepth : Z;
  labBlockPath : list Z;
  labGuardDepth : Z
}.

Record PendingJump := mkPendingJump {
  pjName : string;
  popArgOffset : nat;
  jumpArgOffset : nat;
  liveLocalDepths : list Z;
  pjBlockPath : list Z;
  pjGuardDepth : Z
}.

(** [upvalueCount] is the [uint8_t]-bounded count of the function object. *)
Record FunctionScope := mkScope {
  locals : list Local;
  upvalues : list Upvalue;
  upvalueCount : nat;
  scopeDepth : Z;
  labels : list LabelInfo;
  pendingJumps : list PendingJump;
  guardDepth : Z;
  blockPath : list Z;
  nextBlockId : Z;
  code : list Z
}.

(** A new function: slot 0 is the closure, or [this] in a method. *)
Definition new_scope (isMethod : bool) : FunctionScope :=
  mkScope [mkLocal (if isMethod then "this" else "") 0 false false false] [] 0 0 [] [] 0 [] 0 [].

Definition with_locals (ls : list Local) (f : FunctionScope) : FunctionScope :=
  let 'mkScope _ us n d la pj g bp nb c := f in mkScope ls us n d la pj g bp nb c.
Definition with_code (c' : list Z) (f : FunctionScope) : FunctionScope :=
  let 'mkScope ls us n d la pj g bp nb _ := f in mkScope ls us n d la pj g bp nb c'.
Definition with_jumps (la' : list LabelInfo) (pj' : list PendingJump) (f : FunctionScope) : FunctionScope :=
  let 'mkScope ls us n d _ _ g bp nb c := f in mkScope ls us n d la' pj' g bp nb c.
Definition with_block (d' : Z) (bp' : list Z) (nb' : Z) (f : FunctionScope) : FunctionScope :=
  let 'mkScope ls us n _ la pj g _ _ c := f in mkScope ls us n d' la pj g bp' nb' c.
Definition with_guard (g' : Z) (f : FunctionScope) : FunctionScope :=
  let 'mkScope ls us n d la pj _ bp nb c := f in mkScope ls us n d la pj g' bp nb c.

(** ** Writing code *)

Definition emitByte (b : Z) (f : FunctionScope) : FunctionScope := with_code (code f ++ [b]) f.
Definition emitOp (op : Op.OpCode) (f : FunctionScope) : FunctionScope := emitByte (Op.asByte op) f.

Definition emitOpArgsBytes (op : Op.OpCode) (arg : Z) (f : FunctionScope) : FunctionScope :=
  if arg <=? 255 then emitByte (wrapU 8 arg) (emitOp op f)
  else emitByte (Z.land arg 255)
         (emitByte (wrapU 8 (Z.shiftr arg 8)) (emitByte (Z.lor (Op.asByte op) DoubleByteArg) f)).

(** The two bytes of a 16-bit argument. *)
Definition hi (v : Z) : Z := Z.land (Z.shiftr (wrapU 16 v) 8) 255.
Definition lo (v : Z) : Z := wrapU 8 (Z.land (wrapU 16 v) 255).

(** [emitJump]: the offset of the argument, to be patched. *)
Definition emitJump (op : Op.OpCode) (f : FunctionScope) : nat * FunctionScope :=
  let f1 := emitByte 255 (emitByte 255 (emitOp op f)) in
  ((length (code f1) - 2)%nat, f1).

Definition emitLoop (loopStart : nat) (f : FunctionScope) : outcome string FunctionScope :=
  let f1 := emitOp Op.Loop f in
  let off := Z.of_nat (length (code f1)) - Z.of_nat loopStart + 2 in
  if 65535 <? off then Throw "Loop body contains too many statements."
  else Ret (emitByte (lo off) (emitByte (hi off) f1)).

Definition patchU16At (argOffset : nat) (value : Z) (f : FunctionScope) : FunctionScope :=
  with_code (<[(argOffset + 1)%nat := wrapU 8 (Z.land value 255)]>
    (<[argOffset := Z.land (Z.shiftr value 8) 255]> (code f))) f.

Definition patchJump (jumpInstrOffset : nat) (f : FunctionScope) : outcome string FunctionScope :=
  let jumpDist := Z.of_nat (length (code f)) - Z.of_nat jumpInstrOffset - 2 in
  if 65535 <? jumpDist then Throw "Too must code in conditional block"
  else Ret (with_code (<[(jumpInstrOffset + 1)%nat := lo jumpDist]>
              (<[jumpInstrOffset := hi jumpDist]> (code f))) f).

(** [emitPopToCount]; without a count, a placeholder. *)
Definition emitPopToCount (count : option nat) (f : FunctionScope) : outcome string (nat * FunctionScope) :=
  let f1 := emitOp Op.PopToCount f in
  let! f2 :=
    match count with
    | None => Ret (emitByte 255 (emitByte 255 f1))
    | Some n =>
        if (65535 <? Z.of_nat n) then Throw "Too many locals for jump stack cleanup."
        else Ret (emitByte (lo (Z.of_nat n)) (emitByte (hi (Z.of_nat n)) f1))
    end in
  Ret ((length (code f2) - 2)%nat, f2).

(** ** Blocks *)

Definition enterLocalScope (f : FunctionScope) : FunctionScope :=
  with_block (scopeDepth f + 1) (blockPath f ++ [nextBlockId f]) (nextBlockId f + 1) f.

(** The instruction that gives up a local's slot. *)
Definition leave_op (l : Local) : Op.OpCode := if isCaptured l then Op.CloseUpvalue else Op.Pop.

(** The loop of [exitLocalScope]: from the last local on, those deeper than the block
    around; over the locals in reverse. *)
Fixpoint leave_locals (depth : Z) (rev_locals : list Local) (c : list Z) : list Local * list Z :=
  match rev_locals with
  | l :: ls =>
      if depth <? ldepth l then leave_locals depth ls (c ++ [Op.asByte (leave_op l)])
      else (rev_locals, c)
  | [] => ([], c)
  end.

Definition exitLocalScope (f : FunctionScope) : FunctionScope :=
  let d := scopeDepth f - 1 in
  let '(ls, c) := leave_locals d (rev (locals f)) (code f) in
  with_block d (removelast (blockPath f)) (nextBlockId f) (with_code c (with_locals (rev ls) f)).

(** What leaves a loop early pops the same locals, but they stay declared. *)
Fixpoint pops_for_exit (targetDepth : Z) (rev_locals : list Local) : list Z :=
  match rev_locals with
  | l :: ls =>
      if targetDepth <? ldepth l then Op.asByte (leave_op l) :: pops_for_exit targetDepth ls else []
  | [] => []
  end.

Definition emitPopsForLoopExit (targetDepth : Z) (f : FunctionScope) : FunctionScope :=
  with_code (code f ++ pops_for_exit targetDepth (rev (locals f))) f.

(** ** Declaring *)

Definition addLocal (n : string) (f : FunctionScope) : outcome string FunctionScope :=
  if (length (locals f) =? 255)%nat then Throw "Maximum of 255 local variables per function exceeded."
  else Ret (with_locals (locals f ++ [mkLocal n (-1) false false false]) f).

(** Whether a local of the block in hand has the name already; over the locals in reverse. *)
Fixpoint declared_here (depth : Z) (n : string) (rev_locals : list Local) : bool :=
  match rev_locals with
  | [] => false
  | l :: ls =>
      if negb (ldepth l =? -1) && (ldepth l <? depth) then false
      else if bool_decide (name l = n) then true
      else declared_here depth n ls
  end.

(** [declareVariable] inside a block ([scopeDepth > 0]). *)
Definition declareVariable (n : string) (f : FunctionScope) : outcome string FunctionScope :=
  if declared_here (scopeDepth f) n (rev (locals f))
  then Throw "A variable with this name already exists in this scope."
  else addLocal n f.

(** [defineVariable] inside a block: the last local is initialized. *)
Definition defineVariable (f : FunctionScope) : outcome string FunctionScope :=
  match last (locals f) with
  | Some l => Ret (with_locals (removelast (locals f)
                ++ [mkLocal (name l) (scopeDepth f) (isCaptured l) (isConst l) (isParam l)]) f)
  | None => UB
  end.

(** ** Names *)

(** The slot of the innermost initialized local of the name. *)
Fixpoint resolve_in (n : string) (rev_locals : list Local) : option nat :=
  match rev_locals with
  | [] => None
  | l :: ls =>
      if bool_decide (name l = n) && negb (ldepth l =? -1) then Some (length ls)
      else resolve_in n ls
  end.

Definition resolveLocal (f : FunctionScope) (n : string) : option nat := resolve_in n (rev (locals f)).

Fixpoint find_upvalue (i : Z) (loc : bool) (us : list Upvalue) : option nat :=
  match us with
  | [] => None
  | u :: us' =>
      if (index u =? i) && Bool.eqb (isLocal u) loc then Some O
      else S <$> find_upvalue i loc us'
  end.

Definition addUpvalue (f : FunctionScope) (i : Z) (loc : bool) (n : string) : outcome string (nat * FunctionScope) :=
  match find_upvalue i loc (take (upvalueCount f) (upvalues f)) with
  | Some k => Ret (k, f)
  | None =>
      if (upvalueCount f =? 255)%nat then Throw "Maximum closure variables exceeded in function."
      else
        let 'mkScope ls us c d la pj g bp nb co := f in
        Ret (c, mkScope ls (us ++ [mkUp i loc n]) (S c) d la pj g bp nb co)
  end.

Definition set_captured (i : nat) (f : FunctionScope) : FunctionScope :=
  with_locals (alter (fun l => mkLocal (name l) (ldepth l) true (isConst l) (isParam l)) i (locals f)) f.

(** A scope of the compiler: a function or module, or a type; innermost first. *)
Inductive LexicalScope :=
| FuncOrModule (f : FunctionScope)
| TypeScope (typeName : string).

(** [resolveUpvalue] for the function [f], inside [rest]. *)
Fixpoint resolveUpvalue (n : string) (f : FunctionScope) (rest : list LexicalScope)
    : outcome string (option nat * FunctionScope * list LexicalScope) :=
  match rest with
  | [] => Ret (None, f, [])
  | TypeScope t :: rest' =>
      let! r := resolveUpvalue n f rest' in
      let '(o, f', rest'') := r in Ret (o, f', TypeScope t :: rest'')
  | FuncOrModule g :: rest' =>
      match resolveLocal g n with
      | Some local =>
          let! a := addUpvalue f (wrapU 8 (Z.of_nat local)) true n in
          Ret (Some a.1, a.2, FuncOrModule (set_captured local g) :: rest')
      | None =>
          let! r := resolveUpvalue n g rest' in
          let '(o, g', rest'') := r in
          match o with
          | Some upvalue =>
              let! a := addUpvalue f (wrapU 8 (Z.of_nat upvalue)) false n in
              Ret (Some a.1, a.2, FuncOrModule g' :: rest'')
          | None => Ret (None, f, FuncOrModule g' :: rest'')
          end
      end
  end.

(** [namedVariable] for a name that is a local here or in an enclosing function
    ([findBinding]'s first two steps; [None] when it is neither). *)
Definition namedVariable (n : string) (assign : bool) (f : FunctionScope) (rest : list LexicalScope)
    : outcome string (option (FunctionScope * list LexicalScope)) :=
  match resolveLocal f n with
  | Some i =>
      match locals f !! i with
      | None => UB
      | Some l =>
          if assign && isConst l then Throw ("Cannot assign to constant '" +:+ n +:+ "'")
          else if assign && isParam l then Throw ("Cannot assign to parameter '" +:+ n +:+ "'.")
          else Ret (Some (emitOpArgsBytes (if assign then Op.SetLocal else Op.GetLocal) (Z.of_nat i) f, rest))
      end
  | None =>
      let! r := resolveUpvalue n f rest in
      let '(o, f', rest') := r in
      match o with
      | Some u => Ret (Some (emitOpArgsBytes (if assign then Op.SetUpvalue else Op.GetUpvalue) (Z.of_nat u) f', rest'))
      | None => Ret None
      end
  end.

(** The end of a nested function: its enclosing function makes the closure. *)
Definition closure_table (f : FunctionScope) : list Z :=
  concat (map (fun u => [if isLocal u then 1 else 0; index u]) (take (upvalueCount f) (upvalues f))).

Definition emitClosure (constIdx : Z) (f g : FunctionScope) : FunctionScope :=
  let g1 := emitOpArgsBytes Op.Closure constIdx g in
  with_code (code g1 ++ closure_table f) g1.

(** ** Labels and jumps *)

Definition encloses (outer inner : list Z) : bool :=
  (length outer <=? length inner)%nat && bool_decide (take (length outer) inner = outer).

(** One jump that waited for the label. *)
Definition resolve_one (l : LabelInfo) (j : PendingJump) (f : FunctionScope) : outcome string FunctionScope :=
  let keep := length (filter (fun d => d <= labScopeDepth l) (liveLocalDepths j)) in
  if negb (encloses (labBlockPath l) (pjBlockPath j)) then Throw "jump must target the same or an enclosing scope"
  else if negb (labGuardDepth l =? pjGuardDepth j) then Throw "jump cannot cross a try/with boundary"
  else if negb (keep =? liveLocalCount l)%nat then Throw "jump would skip a variable declaration"
  else patchJump (jumpArgOffset j) (patchU16At (popArgOffset j) (wrapU 16 (Z.of_nat (liveLocalCount l))) f).

Fixpoint resolve_jumps (l : LabelInfo) (js : list PendingJump) (f : FunctionScope) : outcome string (list PendingJump * FunctionScope) :=
  match js with
  | [] => Ret ([], f)
  | j :: js' =>
      if negb (bool_decide (pjName j = labName l)) then
        let! r := resolve_jumps l js' f in Ret (j :: r.1, r.2)
      else
        let! f1 := resolve_one l j f in resolve_jumps l js' f1
  end.

Definition resolveLabel (l : LabelInfo) (f : FunctionScope) : outcome string FunctionScope :=
  let! r := resolve_jumps l (pendingJumps f) f in
  Ret (with_jumps (labels r.2) r.1 r.2).

Definition find_label (n : string) (f : FunctionScope) : option LabelInfo :=
  snd <$> list_find (fun l => labName l = n) (labels f).

Definition visitLabel (n : string) (f : FunctionScope) : outcome string FunctionScope :=
  match find_label n f with
  | Some _ => Throw ("duplicate label '" +:+ n +:+ "'")
  | None =>
      let info := mkLabel n (length (code f)) (length (locals f)) (scopeDepth f) (blockPath f) (guardDepth f) in
      resolveLabel info (with_jumps (labels f ++ [info]) (pendingJumps f) f)
  end.

Definition visitJump (n : string) (f : FunctionScope) : outcome string FunctionScope :=
  match find_label n f with
  | Some target =>
      if negb (encloses (labBlockPath target) (blockPath f)) then
        Throw "jump must target the same or an enclosing scope"
      else if negb (labGuardDepth target =? guardDepth f) then
        Throw "jump cannot cross a try/with boundary"
      else
        let! r := emitPopToCount (Some (liveLocalCount target)) f in
        emitLoop (offset target) r.2
  | None =>
      let! r := emitPopToCount None f in
      let '(jumpArg, f2) := emitJump Op.Jump r.2 in
      let pj := mkPendingJump n r.1 jumpArg (map ldepth (locals f2)) (blockPath f2) (guardDepth f2) in
      Ret (with_jumps (labels f2) (pendingJumps f2 ++ [pj]) f2)
  end.

Definition checkUnresolvedJumps (f : FunctionScope) : outcome string FunctionScope :=
  match pendingJumps f with
  | [] => Ret f
  | j :: _ => Throw ("jump to undefined label '" +:+ pjName j +:+ "'")
  end.

End Scopes.
