(* ===== verification/ScopeProofs.v ===== *)
(** * ScopeProofs: jumps land on live locals, closures capture what names mean

    A function's scope under any sequence of the compiler's operations ([op], [run]), what
    forward and backward jumps find at their labels, and what the entries of a closure's
    table stand for when the closure is made ([binding], [denotes]). *)

From S2P Require Import Prelude Types Chunk Scopes.
From stdpp Require Import numbers list strings sorting.

Module ScopeProofs.

Import Chunk Scopes.
Local Open Scope Z_scope.

(** ** The operations on a function while its body is compiled *)

Inductive op :=
| Enter
| Exit
| Var (n : string)
| Capture (i : nat)
| AddUpvalue (i : Z) (loc : bool) (n : string)
| Label (n : string)
| Jump (n : string)
| Guard (d : Z)
| Emit (bytes : list Z)
| Patch (at_ : nat).

(** The bytes a jump to a label not seen yet is written in: six of them from the byte
    before its first argument. *)
Definition jump_start (j : PendingJump) : nat := (popArgOffset j - 1)%nat.
Definition clear_of (off : nat) (j : PendingJump) : bool :=
  ((off + 2 <=? jump_start j) || (popArgOffset j + 5 <=? off))%nat.

(** Outside every block a declaration makes a variable of the module.  [Patch]
    is an [if]'s or a loop's, which patch jumps of their own. *)
Definition apply (o : op) (f : FunctionScope) : outcome string FunctionScope :=
  match o with
  | Enter => Ret (enterLocalScope f)
  | Exit => if scopeDepth f =? 0 then UB else Ret (exitLocalScope f)
  | Var n =>
      if scopeDepth f =? 0 then Ret f
      else let! f1 := declareVariable n f in defineVariable f1
  | Capture i => Ret (set_captured i f)
  | AddUpvalue i loc n => let! r := addUpvalue f i loc n in Ret r.2
  | Label n => visitLabel n f
  | Jump n => visitJump n f
  | Guard d => Ret (with_guard (guardDepth f + d) f)
  | Emit bytes => Ret (with_code (code f ++ bytes) f)
  | Patch at_ => if forallb (clear_of at_) (pendingJumps f) then patchJump at_ f else UB
  end.

Fixpoint run (ops : list op) (f : FunctionScope) : outcome string FunctionScope :=
  match ops with
  | [] => Ret f
  | o :: ops' => let! f1 := apply o f in run ops' f1
  end.

Lemma run_app ops1 ops2 f : run (ops1 ++ ops2) f = let! f1 := run ops1 f in run ops2 f1.
Proof. revert f. induction ops1 as [|o ops1 IH]; intros f; simpl; [done|]. destruct (apply o f); simpl; auto. Qed.

(** What a slot is to the program: the variable declared there. *)
Definition variables (f : FunctionScope) : list (string * Z) := map (fun l => (name l, ldepth l)) (locals f).

Definition up_to (d : Z) (vs : list (string * Z)) : list (string * Z) := filter (fun v => v.2 <= d) vs.

Section Sorted.
Implicit Types vs : list (string * Z).

Definition ascending vs : Prop := StronglySorted (fun v w => v.2 <= w.2) vs.

Lemma up_to_take d vs : ascending vs -> up_to d vs = take (length (up_to d vs)) vs.
Proof.
  unfold up_to. induction 1 as [|v vs Hs IH Hall]; [done|]. rewrite filter_cons. case_decide as Hv.
  - simpl. by f_equal.
  - assert (filter (fun v => v.2 <= d) vs = []) as ->; [|done].
    apply filter_none. eapply Forall_impl; [exact Hall|]. simpl. intros w Hw. lia.
Qed.

Lemma up_to_all d vs : Forall (fun v => v.2 <= d) vs -> up_to d vs = vs.
Proof. apply filter_all. Qed.

Lemma up_to_mono d d' vs : ascending vs -> d <= d' -> up_to d vs `prefix_of` up_to d' vs.
Proof.
  intros Hs Hd. unfold up_to. induction Hs as [|v vs Hs IH Hall]; [done|]. rewrite !filter_cons.
  case_decide as Hv; case_decide as Hv'; [by apply prefix_cons|lia| |done].
  assert (filter (fun v => v.2 <= d) vs = []) as ->; [|apply prefix_nil].
  apply filter_none. eapply Forall_impl; [exact Hall|]. simpl. intros w Hw. lia.
Qed.

Lemma up_to_prefix d vs ws : ascending ws -> vs `prefix_of` ws -> Forall (fun v => v.2 <= d) vs -> vs `prefix_of` up_to d ws.
Proof.
  intros Hs [k ->] Hall. unfold up_to. rewrite filter_app, (filter_all _ vs) by done. by eexists.
Qed.

Lemma ascending_app vs v : ascending vs -> Forall (fun w => w.2 <= v.2) vs -> ascending (vs ++ [v]).
Proof.
  intros Hs Hall. induction Hs as [|w vs Hs IH Hw]; simpl; [repeat constructor|].
  apply Forall_cons in Hall as [Hwv Hall]. constructor; [by apply IH|]. rewrite Forall_app. auto.
Qed.
End Sorted.

(** ** What every sequence of operations keeps *)

(** How far two paths of blocks agree. *)
Fixpoint common (p q : list Z) : nat :=
  match p, q with
  | a :: p', b :: q' => if a =? b then S (common p' q') else O
  | _, _ => O
  end.

Lemma common_le p q : (common p q <= length q)%nat.
Proof. revert q. induction p as [|a p IH]; intros [|b q]; simpl; try lia. case_match; [|lia]. specialize (IH q). lia. Qed.

Lemma common_encloses p q : encloses q p = true -> common p q = length q.
Proof.
  unfold encloses. intros [Hl Ht]%andb_prop. apply bool_decide_eq_true in Ht. clear Hl. revert p Ht.
  induction q as [|b q IH]; intros [|a p]; simpl; try done. intros [= -> Ht]. rewrite Z.eqb_refl. f_equal. by apply IH.
Qed.

Lemma common_outer p q : encloses p q = true -> common p q = length p.
Proof.
  unfold encloses. intros [Hl Ht]%andb_prop. apply bool_decide_eq_true in Ht. clear Hl. revert q Ht.
  induction p as [|a p IH]; intros [|b q]; simpl; try done. intros [= -> Ht]. rewrite Z.eqb_refl. f_equal. by apply IH.
Qed.

Lemma common_refl p : common p p = length p.
Proof. induction p as [|a p IH]; simpl; [done|]. by rewrite Z.eqb_refl, IH. Qed.

Lemma common_snoc p q b : b ∉ p -> common p (q ++ [b]) = common p q.
Proof.
  revert q. induction p as [|a p IH]; intros [|c q] Hb; simpl; try done.
  - rewrite not_elem_of_cons in Hb. case_match eqn:E; [|done]. apply Z.eqb_eq in E. naive_solver.
  - rewrite not_elem_of_cons in Hb. case_match; [|done]. rewrite IH by tauto. done.
Qed.

Lemma common_removelast p q : (common p (removelast q) = min (common p q) (length q - 1))%nat.
Proof.
  revert q. induction p as [|a p IH]; intros q; [by destruct q|]. destruct q as [|b q]; [done|].
  destruct q as [|c q]; [simpl; lia|]. change (removelast (b :: c :: q)) with (b :: removelast (c :: q)).
  cbn [common]. destruct (a =? b); [|lia]. rewrite IH. simpl length. lia.
Qed.

Record scope_ok (f : FunctionScope) : Prop := {
  ok_path : Z.of_nat (length (blockPath f)) = scopeDepth f;
  ok_ids : Forall (fun b => b < nextBlockId f) (blockPath f);
  ok_depths : Forall (fun v => v.2 <= scopeDepth f) (variables f);
  ok_sorted : ascending (variables f);
  ok_count : (length (variables f) <= 255)%nat
}.

Lemma leave_locals_spec d (ls : list Local) c :
  ascending (map (fun l => (name l, ldepth l)) ls) ->
  map (fun l => (name l, ldepth l)) (rev (leave_locals d (rev ls) c).1) = up_to d (map (fun l => (name l, ldepth l)) ls).
Proof.
  revert c. induction ls as [|l ls IH] using rev_ind; intros c Hs; [done|]. rewrite rev_unit. simpl.
  rewrite map_app in *. simpl in *. unfold up_to. rewrite filter_app. fold (up_to d (map (fun l => (name l, ldepth l)) ls)).
  assert (ascending (map (fun l => (name l, ldepth l)) ls) /\ Forall (fun w => w.2 <= ldepth l) (map (fun l => (name l, ldepth l)) ls)) as [Hs' Hall].
  { clear -Hs. induction (map _ ls) as [|w vs IH]; [split; constructor|]. simpl in Hs. apply StronglySorted_inv in Hs as [Hs Hw].
    rewrite Forall_app, Forall_singleton in Hw. destruct (IH Hs). split; constructor; try done; apply Hw. }
  rewrite filter_cons. simpl. destruct (d <? ldepth l) eqn:E.
  - apply Z.ltb_lt in E. rewrite decide_False by lia. rewrite app_nil_r. by apply IH.
  - apply Z.ltb_ge in E. rewrite decide_True by lia. simpl. rewrite rev_involutive, map_app. simpl.
    rewrite up_to_all; [done|]. eapply Forall_impl; [exact Hall|]. simpl. intros w Hw. lia.
Qed.

Lemma exit_variables f : scope_ok f -> variables (exitLocalScope f) = up_to (scopeDepth f - 1) (variables f).
Proof.
  intros Hf. unfold variables, exitLocalScope.
  pose proof (leave_locals_spec (scopeDepth f - 1) (locals f) (code f) (ok_sorted _ Hf)) as H.
  destruct (leave_locals _ _ _) as [ls c]. destruct f. simpl in *. done.
Qed.

Lemma exit_block f : blockPath (exitLocalScope f) = removelast (blockPath f) /\
  scopeDepth (exitLocalScope f) = scopeDepth f - 1 /\ nextBlockId (exitLocalScope f) = nextBlockId f.
Proof. unfold exitLocalScope. destruct (leave_locals _ _ _). by destruct f. Qed.

(** ** What each operation does to blocks and variables *)

Definition view (f : FunctionScope) : list (string * Z) * list Z * Z * Z :=
  (variables f, blockPath f, scopeDepth f, nextBlockId f).

Lemma view_code c f : view (with_code c f) = view f.
Proof. by destruct f. Qed.
Lemma view_jumps la pj f : view (with_jumps la pj f) = view f.
Proof. by destruct f. Qed.

#[local] Hint Rewrite view_code view_jumps : view.

Lemma view_emitPopToCount n f r : emitPopToCount n f = Ret r -> view r.2 = view f.
Proof.
  unfold emitPopToCount, emitOp, emitByte. destruct n as [n|]; [destruct (65535 <? Z.of_nat n)|]; simpl; intros [= <-];
    simpl; by autorewrite with view.
Qed.

Lemma view_resolve_one l j f f' : resolve_one l j f = Ret f' -> view f' = view f.
Proof.
  unfold resolve_one, patchJump, patchU16At. repeat case_match; intros [= <-]. by autorewrite with view.
Qed.

Lemma view_resolve_jumps l js : forall f r, resolve_jumps l js f = Ret r -> view r.2 = view f.
Proof.
  induction js as [|j js IH]; intros f r; simpl; [by intros [= <-]|]. destruct (negb _).
  - destruct (resolve_jumps l js f) as [r'| |] eqn:E; simpl; [|done..]. intros [= <-]. simpl. by apply IH.
  - destruct (resolve_one l j f) as [f1| |] eqn:E1; simpl; [|done..]. intros E. rewrite (IH _ _ E).
    by eapply view_resolve_one.
Qed.

Lemma view_visitLabel n f f' : visitLabel n f = Ret f' -> view f' = view f.
Proof.
  unfold visitLabel, resolveLabel. destruct (find_label n f); [done|].
  destruct (resolve_jumps _ _ _) as [r| |] eqn:E; simpl; [|done..]. intros [= <-]. rewrite view_jumps.
  apply view_resolve_jumps in E. by rewrite E, view_jumps.
Qed.

Lemma view_emitLoop k f f' : emitLoop k f = Ret f' -> view f' = view f.
Proof. unfold emitLoop, emitOp, emitByte. case_match; intros [= <-]. by autorewrite with view. Qed.

Lemma view_visitJump n f f' : visitJump n f = Ret f' -> view f' = view f.
Proof.
  unfold visitJump. destruct (find_label n f) as [l|].
  - destruct (negb (encloses _ _)); [done|]. destruct (negb (_ =? _)); [done|].
    destruct (emitPopToCount _ f) as [r| |] eqn:E; simpl; [|done..]. intros H. rewrite (view_emitLoop _ _ _ H).
    by eapply view_emitPopToCount.
  - destruct (emitPopToCount _ f) as [r| |] eqn:E; simpl; [|done..]. intros [= <-].
    rewrite view_jumps. unfold emitOp, emitByte. autorewrite with view. by eapply view_emitPopToCount.
Qed.

Lemma variables_captured i f : view (set_captured i f) = view f.
Proof.
  unfold set_captured. destruct f as [ls us n d la pj g bp nb c]. unfold view, variables. simpl. f_equal. f_equal. f_equal.
  apply list_eq. intros k. rewrite !list_lookup_fmap. destruct (decide (k = i)) as [->|Hne].
  - rewrite list_lookup_alter_eq. by destruct (ls !! i).
  - by rewrite list_lookup_alter_ne.
Qed.

Lemma apply_view o f f' : apply o f = Ret f' ->
  match o with
  | Enter => view f' = (variables f, blockPath f ++ [nextBlockId f], scopeDepth f + 1, nextBlockId f + 1)
  | Exit => scopeDepth f <> 0 /\ f' = exitLocalScope f
  | Var n => view f' = view f \/ length (variables f) <> 255%nat /\
      view f' = (variables f ++ [(n, scopeDepth f)], blockPath f, scopeDepth f, nextBlockId f)
  | _ => view f' = view f
  end.
Proof.
  destruct o as [| |n|i|i loc n|n|n|d|bytes|at_]; simpl.
  - intros [= <-]. by destruct f.
  - case_match eqn:E; [done|]. intros [= <-]. split; [by apply Z.eqb_neq|done].
  - case_match; [intros [= <-]; by left|]. unfold declareVariable, addLocal, defineVariable.
    destruct (declared_here _ _ _); simpl; [done|]. destruct (length (locals f) =? 255)%nat eqn:En; simpl; [done|].
    apply Nat.eqb_neq in En. replace (length (locals f)) with (length (variables f)) in En by apply length_map.
    destruct f as [ls us k d la pj g bp nb c]. simpl in *. rewrite last_snoc, removelast_last. simpl. intros [= <-]. right.
    unfold view, variables. simpl. by rewrite map_app.
  - intros [= <-]. apply variables_captured.
  - unfold addUpvalue. destruct (find_upvalue _ _ _); simpl; [by intros [= <-]|]. case_match; simpl; [done|].
    destruct f. by intros [= <-].
  - apply view_visitLabel.
  - apply view_visitJump.
  - intros [= <-]. by destruct f.
  - intros [= <-]. apply view_code.
  - case_match; [|done]. unfold patchJump. case_match; intros [= <-]. apply view_code.
Qed.

Lemma up_to_bound d vs : Forall (fun v => v.2 <= d) (up_to d vs).
Proof. apply Forall_forall. intros v [Hv _]%list_elem_of_filter. done. Qed.

Lemma ascending_up_to d vs : ascending vs -> ascending (up_to d vs).
Proof. apply StronglySorted_filter. Qed.

Lemma view_eq f' vs bp d nb : view f' = (vs, bp, d, nb) ->
  variables f' = vs /\ blockPath f' = bp /\ scopeDepth f' = d /\ nextBlockId f' = nb.
Proof. unfold view. intros [= -> -> -> ->]. done. Qed.

Lemma scope_ok_view f f' : view f' = view f -> scope_ok f -> scope_ok f'.
Proof. intros H. apply view_eq in H as (H1 & H2 & H3 & H4). intros []. split; rewrite ?H1, ?H2, ?H3, ?H4; done. Qed.

Lemma scope_ok_apply o f f' : apply o f = Ret f' -> scope_ok f -> scope_ok f'.
Proof.
  intros Ha Hf. pose proof (apply_view o f f' Ha) as Hv. destruct o; try (by eapply scope_ok_view).
  - apply view_eq in Hv as (H1 & H2 & H3 & H4). destruct Hf. split; rewrite ?H1, ?H2, ?H3, ?H4.
    + rewrite length_app. simpl. lia.
    + rewrite Forall_app, Forall_singleton. split; [|lia]. eapply Forall_impl; [exact ok_ids0|]. simpl. lia.
    + eapply Forall_impl; [exact ok_depths0|]. simpl. intros v Hv. lia.
    + done.
    + done.
  - destruct Hv as [Hne ->]. pose proof (exit_variables f Hf) as H1. destruct (exit_block f) as (H2 & H3 & H4).
    destruct Hf. split; rewrite ?H1, ?H2, ?H3, ?H4.
    + destruct (blockPath f) as [|b bp]; [simpl in *; lia|].
      rewrite (app_removelast_last b (l := b :: bp)) in ok_path0 by done. rewrite length_app in ok_path0. simpl length in *. lia.
    + destruct (blockPath f) as [|b bp]; [done|]. rewrite (app_removelast_last b (l := b :: bp)) in ok_ids0 by done.
      by apply Forall_app in ok_ids0 as [? _].
    + apply up_to_bound.
    + by apply ascending_up_to.
    + etrans; [apply length_filter|done].
  - destruct Hv as [Hv|[Hn Hv]]; [by eapply scope_ok_view|]. apply view_eq in Hv as (H1 & H2 & H3 & H4).
    destruct Hf. split; rewrite ?H1, ?H2, ?H3, ?H4; try done.
    + rewrite Forall_app, Forall_singleton. split; [done|simpl; lia].
    + by apply ascending_app.
    + rewrite length_app. simpl. lia.
Qed.

Lemma scope_ok_run ops : forall f f', run ops f = Ret f' -> scope_ok f -> scope_ok f'.
Proof.
  induction ops as [|o ops IH]; intros f f'; simpl; [by intros [= <-]|].
  destruct (apply o f) as [f1| |] eqn:E; simpl; [|done..]. intros H Hf. eapply IH; [exact H|]. by eapply scope_ok_apply.
Qed.

(** ** A point of the past seen from later *)

(** [p], [vs]: the blocks and variables of an earlier point.  Those of its variables that
    belong to blocks not left since are still the first variables. *)
Record since (p : list Z) (vs : list (string * Z)) (f : FunctionScope) : Prop := {
  si_ids : Forall (fun b => b < nextBlockId f) p;
  si_vars : up_to (Z.of_nat (common p (blockPath f))) vs `prefix_of` variables f
}.

Lemma since_now f : scope_ok f -> since (blockPath f) (variables f) f.
Proof.
  intros []. split; [done|]. rewrite common_refl, ok_path0, up_to_all by done. done.
Qed.

Lemma since_apply p vs o f f' : ascending vs -> scope_ok f -> apply o f = Ret f' -> since p vs f ->
  since p vs f' /\ (common p (blockPath f') <= common p (blockPath f))%nat.
Proof.
  intros Hvs Hf Ha [Hids Hpre]. pose proof (apply_view o f f' Ha) as Hv.
  assert (view f' = view f -> since p vs f' /\ (common p (blockPath f') <= common p (blockPath f))%nat) as Hsame.
  { intros H. apply view_eq in H as (H1 & H2 & H3 & H4). rewrite H2. split; [|done]. split; [by rewrite H4|by rewrite H1, H2]. }
  destruct o; try (by apply Hsame).
  - apply view_eq in Hv as (H1 & H2 & H3 & H4). rewrite H2.
    assert (nextBlockId f ∉ p) as Hn. { intros Hin. rewrite Forall_forall in Hids. specialize (Hids _ Hin). lia. }
    rewrite common_snoc by done. split; [|done]. split.
    + rewrite H4. eapply Forall_impl; [exact Hids|]. simpl. lia.
    + by rewrite H1, H2, common_snoc.
  - destruct Hv as [Hne ->]. destruct (exit_block f) as (H2 & H3 & H4). rewrite H2, common_removelast.
    split; [|lia]. split; [by rewrite H4|]. rewrite (exit_variables f Hf), H2, common_removelast.
    apply up_to_prefix; [apply Hf| |].
    + etrans; [|exact Hpre]. apply up_to_mono; [done|lia].
    + eapply Forall_impl; [apply up_to_bound|]. simpl. intros v Hv.
      pose proof (ok_path _ Hf) as Hp. lia.
  - destruct Hv as [Hv|[Hn Hv]]; [by apply Hsame|]. apply view_eq in Hv as (H1 & H2 & H3 & H4). rewrite H2.
    split; [|done]. split; [by rewrite H4|]. rewrite H1, H2. etrans; [exact Hpre|]. by eexists.
Qed.

Lemma since_run p vs ops : forall f f', ascending vs -> scope_ok f -> run ops f = Ret f' -> since p vs f ->
  since p vs f' /\ (common p (blockPath f') <= common p (blockPath f))%nat.
Proof.
  induction ops as [|o ops IH]; intros f f' Hvs Hf; simpl; [intros [= <-]; done|].
  destruct (apply o f) as [f1| |] eqn:E; simpl; [|done..]. intros Hr Hs.
  destruct (since_apply p vs o f f1 Hvs Hf E Hs) as [Hs1 H1].
  destruct (IH f1 f' Hvs) as [Hs' H2]; [by eapply scope_ok_apply|done|done|]. split; [done|lia].
Qed.


(** ** The code of a jump, until its label patches it *)

Definition code_at (c : list Z) (pos : nat) (bytes : list Z) : Prop :=
  forall i, (i < length bytes)%nat -> c !! (pos + i)%nat = bytes !! i.

(** The 16-bit argument at an offset, as the interpreter reads it. *)
Definition arg16 (c : list Z) (off : nat) : option Z :=
  match c !! off, c !! S off with Some h, Some l => Some (Z.lor (Z.shiftl h 8) l) | _, _ => None end.

Lemma shifted_byte h l : (0 <= l < 256) -> Z.lor (Z.shiftl h 8) l = (h * 256 + l).
Proof.
  intros Hl. assert (Z.land (Z.shiftl h 8) l = 0) as H0.
  { apply Z.bits_inj'. intros k Hk. rewrite Z.land_spec, Z.bits_0. destruct (Z.lt_ge_cases k 8) as [Hlt|Hge].
    - by rewrite Z.shiftl_spec_low.
    - rewrite (Z.bits_above_log2 l); [apply andb_false_r|lia|]. destruct (decide (l = 0)) as [->|]; [simpl; lia|].
      apply Z.log2_lt_pow2; [lia|]. pose proof (Z.pow_le_mono_r 2 8 k). lia. }
  pose proof (Z.add_lor_land (Z.shiftl h 8) l) as E. rewrite H0, Z.shiftl_mul_pow2 in E by lia.
  change (2 ^ 8) with 256 in E. rewrite Z.shiftl_mul_pow2 by lia. change (2 ^ 8) with 256. lia.
Qed.

Lemma hi_lo v : 0 <= v <= 65535 -> Z.lor (Z.shiftl (hi v) 8) (lo v) = v.
Proof.
  intros Hv. rewrite shifted_byte by (apply Z.mod_pos_bound; lia).
  unfold hi, lo, wrapU. rewrite (Z.mod_small v (2 ^ 16)) by lia. change 255 with (Z.ones 8).
  rewrite !Z.land_ones, Z.shiftr_div_pow2 by lia. change (2 ^ 8) with 256.
  assert (0 <= v / 256 < 256) as Hq by (split; [apply Z.div_pos|apply Z.div_lt_upper_bound]; lia).
  rewrite (Z.mod_small (v / 256)), Z.mod_mod by lia. pose proof (Z.div_mod v 256 ltac:(lia)) as Hd. lia.
Qed.

Lemma patchU16_hi_lo v : 0 <= v <= 65535 -> Z.land (Z.shiftr v 8) 255 = hi v /\ wrapU 8 (Z.land v 255) = lo v.
Proof.
  intros Hv. assert (wrapU 16 v = v) as Hw by (apply Z.mod_small; lia). unfold hi, lo. by rewrite Hw.
Qed.

(** Two bytes written at [off]. *)
Definition put2 (off : nat) (a b : Z) (c : list Z) : list Z := <[(off + 1)%nat := b]> (<[off := a]> c).

Lemma put2_length off a b c : length (put2 off a b c) = length c.
Proof. unfold put2. by rewrite !length_insert. Qed.

Lemma put2_other off a b c i : i <> off -> i <> (off + 1)%nat -> put2 off a b c !! i = c !! i.
Proof. intros H1 H2. unfold put2. by rewrite !list_lookup_insert_ne by lia. Qed.

Lemma put2_arg16 off v c : 0 <= v <= 65535 -> (off + 1 < length c)%nat -> arg16 (put2 off (hi v) (lo v) c) off = Some v.
Proof.
  intros Hv Hl. unfold arg16, put2. rewrite list_lookup_insert_ne by lia.
  replace (S off) with (off + 1)%nat by lia.
  rewrite list_lookup_insert_eq by lia.
  rewrite list_lookup_insert_eq by (rewrite length_insert; lia). by rewrite hi_lo.
Qed.

Lemma put2_arg16_other off a b c o : (o + 1 < off \/ off + 1 < o)%nat -> arg16 (put2 off a b c) o = arg16 c o.
Proof. intros Ho. unfold arg16. by rewrite !put2_other by lia. Qed.

Record jump_shape (c : list Z) (j : PendingJump) : Prop := {
  js_pop : (1 <= popArgOffset j)%nat;
  js_args : jumpArgOffset j = (popArgOffset j + 3)%nat;
  js_end : (popArgOffset j + 5 <= length c)%nat;
  js_pop_op : c !! jump_start j = Some (Op.asByte Op.PopToCount);
  js_jump_op : c !! (popArgOffset j + 2)%nat = Some (Op.asByte Op.Jump)
}.

Definition before (j k : PendingJump) : Prop := (popArgOffset j + 5 <= jump_start k)%nat.

Record jumps_ok (f : FunctionScope) : Prop := {
  jo_shape : Forall (jump_shape (code f)) (pendingJumps f);
  jo_order : StronglySorted before (pendingJumps f)
}.

Lemma jump_shape_app c x j : jump_shape c j -> jump_shape (c ++ x) j.
Proof.
  intros []. split; [done|done|rewrite length_app; lia| |]; rewrite lookup_app_l; try done; unfold jump_start; lia.
Qed.

Lemma jump_shape_put2 off a b c j : jump_shape c j ->
  clear_of off j \/ off = popArgOffset j \/ off = jumpArgOffset j -> jump_shape (put2 off a b c) j.
Proof.
  intros [] Hoff. assert (off <> jump_start j /\ (off + 1)%nat <> jump_start j /\
    off <> (popArgOffset j + 2)%nat /\ (off + 1 <> popArgOffset j + 2)%nat) as (?&?&?&?).
  { unfold clear_of in Hoff. unfold jump_start in *. destruct Hoff as [Hoff|[->| ->]]; [|lia..].
    apply orb_prop_elim in Hoff as [H%Is_true_eq_true|H%Is_true_eq_true]; apply Nat.leb_le in H; lia. }
  split; [done|done|by rewrite put2_length|by rewrite put2_other|by rewrite put2_other].
Qed.

(** A jump whose label has been found. *)
Definition settled (l : LabelInfo) (c : list Z) (j : PendingJump) : Prop :=
  arg16 c (popArgOffset j) = Some (Z.of_nat (liveLocalCount l)) /\
  arg16 c (jumpArgOffset j) = Some (Z.of_nat (length c) - Z.of_nat (jumpArgOffset j) - 2).

Lemma settled_put2 l off a b c j : jumpArgOffset j = (popArgOffset j + 3)%nat -> (1 <= popArgOffset j)%nat ->
  clear_of off j -> settled l c j -> settled l (put2 off a b c) j.
Proof.
  unfold settled, clear_of, jump_start. intros Hj H1 Hoff [Ha Hb]. rewrite put2_length.
  apply orb_prop_elim in Hoff as [H%Is_true_eq_true|H%Is_true_eq_true]; apply Nat.leb_le in H.
  all: split; rewrite put2_arg16_other by lia; done.
Qed.

(** What a jump is promised when its label accepts it. *)
Definition accepted (l : LabelInfo) (j : PendingJump) : Prop :=
  encloses (labBlockPath l) (pjBlockPath j) = true /\ labGuardDepth l = pjGuardDepth j /\
  length (filter (fun d => d <= labScopeDepth l) (liveLocalDepths j)) = liveLocalCount l.

Lemma patchU16_put2 off v f : 0 <= v <= 65535 ->
  patchU16At off (wrapU 16 v) f = with_code (put2 off (hi v) (lo v) (code f)) f.
Proof.
  intros Hv. assert (wrapU 16 v = v) as Hw by (apply Z.mod_small; lia). unfold patchU16At. rewrite Hw.
  by destruct (patchU16_hi_lo v Hv) as [-> ->].
Qed.

Lemma patchJump_spec off f f' : patchJump off f = Ret f' ->
  let d := Z.of_nat (length (code f)) - Z.of_nat off - 2 in
  d <= 65535 /\ f' = with_code (put2 off (hi d) (lo d) (code f)) f.
Proof. unfold patchJump. case_match eqn:E; [done|]. apply Z.ltb_ge in E. by intros [= <-]. Qed.

Lemma resolve_one_spec l j f f' : (liveLocalCount l <= 255)%nat -> jump_shape (code f) j -> resolve_one l j f = Ret f' ->
  accepted l j /\ exists a b d e,
    code f' = put2 (jumpArgOffset j) d e (put2 (popArgOffset j) a b (code f)) /\ settled l (code f') j /\
    labels f' = labels f /\ pendingJumps f' = pendingJumps f.
Proof.
  intros Hl [H1 H2 H3 _ _]. unfold resolve_one. destruct (negb (encloses _ _)) eqn:E1; [done|].
  destruct (negb (_ =? pjGuardDepth j)) eqn:E2; [done|]. destruct (negb (_ =? liveLocalCount l)%nat) eqn:E3; [done|].
  apply negb_false_iff in E1, E2, E3. apply Z.eqb_eq in E2. apply Nat.eqb_eq in E3.
  assert (Hn : 0 <= Z.of_nat (liveLocalCount l) <= 65535) by lia. set (n := Z.of_nat (liveLocalCount l)) in *.
  rewrite patchU16_put2 by done. intros [Hd ->]%patchJump_spec. destruct f as [ls us k ? la pj g bp nb c]. simpl in *.
  rewrite put2_length in *. split; [done|]. do 4 eexists. split; [reflexivity|]. split; [|done].
  unfold settled. rewrite !put2_length. fold n. split.
  - rewrite put2_arg16_other by lia. apply put2_arg16; lia.
  - apply put2_arg16; [lia|]. rewrite put2_length. lia.
Qed.

Lemma clear_after c j k : before j k -> jump_shape c j ->
  clear_of (popArgOffset j) k /\ clear_of (jumpArgOffset j) k.
Proof.
  unfold before, clear_of. intros Hb []. split; apply Is_true_eq_left, orb_true_intro; left; apply Nat.leb_le; lia.
Qed.

Lemma clear_before c j k : before j k -> jump_shape c k ->
  clear_of (popArgOffset k) j /\ clear_of (jumpArgOffset k) j.
Proof.
  unfold before, clear_of, jump_start. intros Hb [].
  split; apply Is_true_eq_left, orb_true_intro; right; apply Nat.leb_le; lia.
Qed.

(** Settling [j] leaves a jump alone that is clear of it. *)
Lemma resolve_one_other l j f f' k : (liveLocalCount l <= 255)%nat -> jump_shape (code f) j -> resolve_one l j f = Ret f' ->
  jump_shape (code f) k -> clear_of (popArgOffset j) k /\ clear_of (jumpArgOffset j) k ->
  jump_shape (code f') k /\ (settled l (code f) k -> settled l (code f') k).
Proof.
  intros Hl Hj Hr Hk [Hc1 Hc2]. destruct (resolve_one_spec l j f f' Hl Hj Hr) as (_ & a & b & d & e & -> & _).
  assert (jump_shape (put2 (popArgOffset j) a b (code f)) k) as Hk1 by (apply jump_shape_put2; auto).
  split; [apply jump_shape_put2; auto|]. destruct Hk. intros Hs. by repeat apply settled_put2.
Qed.

Lemma resolve_jumps_spec l js : (liveLocalCount l <= 255)%nat -> forall f r,
  Forall (jump_shape (code f)) js -> StronglySorted before js -> resolve_jumps l js f = Ret r ->
  (r.1 = filter (fun j => pjName j <> labName l) js /\ labels r.2 = labels f /\ pendingJumps r.2 = pendingJumps f /\
   length (code r.2) = length (code f)) /\
  (Forall (jump_shape (code r.2)) js /\
   Forall (fun j => pjName j = labName l -> accepted l j /\ settled l (code r.2) j) js) /\
  (forall k, jump_shape (code f) k -> Forall (before k) js ->
     jump_shape (code r.2) k /\ (settled l (code f) k -> settled l (code r.2) k)).
Proof.
  intros Hl. induction js as [|j js IH]; intros f r Hsh Hso; simpl; [by intros [= <-]|].
  apply Forall_cons in Hsh as [Hj Hsh]. apply StronglySorted_inv in Hso as [Hso Hbj]. destruct (negb _) eqn:En.
  - apply negb_true_iff, bool_decide_eq_false in En. destruct (resolve_jumps l js f) as [r'| |] eqn:E; simpl; [|done..].
    intros [= <-]. simpl. destruct (IH f r' Hsh Hso E) as ((H1 & H2 & H3 & H4) & (H5 & H6) & H7).
    destruct (H7 j Hj Hbj) as [Hj' _]. split; [|split; [split|]].
    + rewrite filter_cons_True by done. by rewrite H1.
    + by constructor.
    + by constructor.
    + intros k Hk [_ Hbk]%Forall_cons. by apply H7.
  - apply negb_false_iff, bool_decide_eq_true in En. destruct (resolve_one l j f) as [f1| |] eqn:E1; simpl; [|done..].
    intros E. destruct (resolve_one_spec l j f f1 Hl Hj E1) as (Hacc & a & b & d & e & Hc & Hset & HL & HP).
    assert (Forall (jump_shape (code f1)) js) as Hsh1.
    { rewrite !Forall_forall in *. intros k Hk. eapply resolve_one_other; eauto. eapply clear_after; eauto. }
    destruct (IH f1 r Hsh1 Hso E) as ((H1 & H2 & H3 & H4) & (H5 & H6) & H7).
    assert (jump_shape (code f1) j) as Hj1. { rewrite Hc. apply jump_shape_put2; [|auto]. apply jump_shape_put2; auto. }
    destruct (H7 j Hj1 Hbj) as [Hj' Hset']. split; [|split; [split|]].
    + rewrite filter_cons_False by (by intros ?). rewrite H1, H2, HL, H3, HP, H4, Hc, !put2_length. done.
    + by constructor.
    + constructor; [|done]. intros _. split; [done|]. by apply Hset'.
    + intros k Hk [Hbk Hbks]%Forall_cons. destruct (resolve_one_other l j f f1 k Hl Hj E1 Hk) as [Hk1 Hks].
      { eapply clear_before; eauto. }
      destruct (H7 k Hk1 Hbks). auto.
Qed.

(** ** What each operation does to the code *)

Definition jump_here (n : string) (f : FunctionScope) : PendingJump :=
  mkPendingJump n (length (code f) + 1) (length (code f) + 4) (map ldepth (locals f)) (blockPath f) (guardDepth f).

Definition jump_bytes : list Z := [Op.asByte Op.PopToCount; 255; 255; Op.asByte Op.Jump; 255; 255].

Lemma visitJump_forward n f f' : find_label n f = None -> visitJump n f = Ret f' ->
  code f' = code f ++ jump_bytes /\ pendingJumps f' = pendingJumps f ++ [jump_here n f] /\ labels f' = labels f.
Proof.
  unfold visitJump, jump_here. intros ->. destruct f as [ls us k d la pj g bp nb c]. simpl.
  unfold emitPopToCount, emitJump, emitOp, emitByte. simpl. intros [= <-]. simpl. rewrite <- !app_assoc. simpl.
  rewrite !length_app. simpl. split; [done|]. split; [|done]. repeat f_equal; lia.
Qed.

Definition back_bytes (n d : Z) : list Z :=
  [Op.asByte Op.PopToCount; hi n; lo n; Op.asByte Op.Loop; hi d; lo d].

Definition back_dist (l : LabelInfo) (f : FunctionScope) : Z :=
  Z.of_nat (length (code f)) + 6 - Z.of_nat (offset l).

Lemma visitJump_backward n l f f' : find_label n f = Some l -> visitJump n f = Ret f' ->
  encloses (labBlockPath l) (blockPath f) = true /\ Z.of_nat (liveLocalCount l) <= 65535 /\ back_dist l f <= 65535 /\
  code f' = code f ++ back_bytes (Z.of_nat (liveLocalCount l)) (back_dist l f) /\
  pendingJumps f' = pendingJumps f /\ labels f' = labels f.
Proof.
  unfold visitJump. intros ->. destruct (negb (encloses _ _)) eqn:E; [done|]. apply negb_false_iff in E. case_match; [done|].
  unfold emitPopToCount. destruct (65535 <? _) eqn:E1; [done|]. apply Z.ltb_ge in E1. simpl.
  unfold emitLoop. destruct (65535 <? _) eqn:E2; [done|]. apply Z.ltb_ge in E2. intros [= <-].
  destruct f as [ls us k d la pj g bp nb c]. simpl in *. rewrite !length_app in *. simpl in *.
  unfold back_dist, back_bytes. simpl.
  split; [done|]. split; [done|]. split; [lia|]. split; [|done]. rewrite <- !app_assoc. simpl.
  repeat f_equal; lia.
Qed.

Lemma visitJump_code n f f' : visitJump n f = Ret f' -> labels f' = labels f /\
  exists x, code f' = code f ++ x /\
  (pendingJumps f' = pendingJumps f \/ x = jump_bytes /\ pendingJumps f' = pendingJumps f ++ [jump_here n f]).
Proof.
  intros H. destruct (find_label n f) as [l|] eqn:E.
  - destruct (visitJump_backward _ _ _ _ E H) as (_ & _ & _ & H1 & H2 & H3). split; [done|]. eexists. split; [done|]. by left.
  - apply (visitJump_forward _ _ _ E) in H as (H1 & H2 & H3). split; [done|]. eexists. split; [done|]. by right.
Qed.

Definition label_here (n : string) (f : FunctionScope) : LabelInfo :=
  mkLabel n (length (code f)) (length (locals f)) (scopeDepth f) (blockPath f) (guardDepth f).

Lemma with_jumps_labels la pj f : labels (with_jumps la pj f) = la.
Proof. by destruct f. Qed.
Lemma with_jumps_pending la pj f : pendingJumps (with_jumps la pj f) = pj.
Proof. by destruct f. Qed.
Lemma with_jumps_code la pj f : code (with_jumps la pj f) = code f.
Proof. by destruct f. Qed.

Lemma visitLabel_spec n f f' : scope_ok f -> jumps_ok f -> visitLabel n f = Ret f' ->
  (find_label n f = None /\ labels f' = labels f ++ [label_here n f] /\
   pendingJumps f' = filter (fun j => pjName j <> n) (pendingJumps f) /\ length (code f') = length (code f)) /\
  Forall (jump_shape (code f')) (pendingJumps f) /\
  Forall (fun j => pjName j = n -> accepted (label_here n f) j /\ settled (label_here n f) (code f') j) (pendingJumps f).
Proof.
  intros Hf [Hsh Hso]. unfold visitLabel. destruct (find_label n f) eqn:En; [done|]. unfold resolveLabel.
  destruct (resolve_jumps _ _ _) as [r| |] eqn:E; simpl; [|done..]. intros [= <-].
  apply resolve_jumps_spec in E as ((H1 & H2 & H3 & H4) & H5 & _); [| |by destruct f|by destruct f].
  - rewrite !with_jumps_labels, !with_jumps_pending, !with_jumps_code in *. by rewrite H1, H2, H4.
  - simpl. pose proof (ok_count _ Hf) as Hc. unfold variables in Hc. by rewrite length_map in Hc.
Qed.

Lemma leave_locals_code d ls c : exists x, (leave_locals d ls c).2 = c ++ x.
Proof.
  revert c. induction ls as [|l ls IH]; intros c; simpl; [exists []; by rewrite app_nil_r|]. case_match.
  - destruct (IH (c ++ [Op.asByte (leave_op l)])) as [x ->]. rewrite <- app_assoc. by eexists.
  - exists []. by rewrite app_nil_r.
Qed.

Lemma apply_code o f f' : apply o f = Ret f' ->
  match o with
  | Label _ | Jump _ => True
  | Patch a => (exists d e, code f' = put2 a d e (code f)) /\ Forall (clear_of a) (pendingJumps f) /\
               pendingJumps f' = pendingJumps f /\ labels f' = labels f
  | _ => (exists x, code f' = code f ++ x) /\ pendingJumps f' = pendingJumps f /\ labels f' = labels f
  end.
Proof.
  destruct o as [| |n|i|i loc n|n|n|d|bytes|at_]; simpl; try done.
  - intros [= <-]. destruct f. simpl. split; [exists []; by rewrite app_nil_r|done].
  - case_match; [done|]. intros [= <-]. unfold exitLocalScope.
    destruct (leave_locals_code (scopeDepth f - 1) (rev (locals f)) (code f)) as [x Hx].
    destruct (leave_locals _ _ _) as [ls c]. destruct f. simpl in *. eauto.
  - case_match; [intros [= <-]; split; [exists []; by rewrite app_nil_r|done]|].
    unfold declareVariable, addLocal, defineVariable. case_match; simpl; [done|]. case_match; simpl; [done|].
    destruct f. simpl in *. rewrite last_snoc. intros [= <-]. simpl. split; [exists []; by rewrite app_nil_r|done].
  - intros [= <-]. destruct f. simpl. split; [exists []; by rewrite app_nil_r|done].
  - unfold addUpvalue. destruct (find_upvalue _ _ _); simpl; [intros [= <-]; split; [exists []; by rewrite app_nil_r|done]|].
    case_match; simpl; [done|]. destruct f. intros [= <-]. simpl. split; [exists []; by rewrite app_nil_r|done].
  - intros [= <-]. destruct f. simpl. split; [exists []; by rewrite app_nil_r|done].
  - intros [= <-]. destruct f. simpl. eauto.
  - destruct (forallb _ _) eqn:E; [|done]. intros [_ ->]%patchJump_spec. destruct f. simpl in *.
    split; [eauto|]. split; [|done]. apply Forall_forall. intros j Hj. rewrite forallb_forall in E.
    apply Is_true_eq_left, E. by apply list_elem_of_In.
Qed.

Lemma jumps_ok_app f f' x : jumps_ok f -> code f' = code f ++ x -> pendingJumps f' = pendingJumps f -> jumps_ok f'.
Proof.
  intros [H1 H2] Hc Hp. split; rewrite Hp; [|done]. rewrite Hc. eapply Forall_impl; [exact H1|].
  intros j. apply jump_shape_app.
Qed.

Lemma jump_here_shape n f : jump_shape (code f ++ jump_bytes) (jump_here n f).
Proof.
  unfold jump_bytes. split; unfold jump_start; simpl; try lia; [rewrite length_app; simpl; lia| |].
  - rewrite Nat.add_sub. by rewrite list_lookup_middle.
  - rewrite lookup_app_r by lia. by replace (_ - _)%nat with 3%nat by lia.
Qed.

Lemma snoc_before f n : jumps_ok f -> StronglySorted before (pendingJumps f ++ [jump_here n f]).
Proof.
  intros [Hsh Hso]. induction Hso as [|j js Hso IH Hall]; simpl; [repeat constructor|].
  apply Forall_cons in Hsh as [[] Hsh]. constructor; [by apply IH|]. rewrite Forall_app, Forall_singleton. split; [done|].
  unfold before, jump_start, jump_here. simpl. lia.
Qed.

Lemma jumps_ok_apply o f f' : scope_ok f -> jumps_ok f -> apply o f = Ret f' -> jumps_ok f'.
Proof.
  intros Hf Hj Ha. pose proof (apply_code o f f' Ha) as Hc.
  destruct o as [| |n|i|i loc n|n|n|d|bytes|at_];
    try (destruct Hc as ((x & Hx) & Hp & _); by eapply jumps_ok_app).
  - simpl in Ha. destruct (visitLabel_spec n f f' Hf Hj Ha) as ((_ & _ & Hp & _) & Hsh & _).
    split; rewrite Hp; [|by apply StronglySorted_filter, Hj].
    rewrite Forall_forall in *. intros j [_ Hin]%list_elem_of_filter. auto.
  - simpl in Ha. destruct (visitJump_code n f f' Ha) as (_ & x & Hx & [Hp|[-> Hp]]); [by eapply jumps_ok_app|].
    split; rewrite Hp; [|by apply snoc_before]. rewrite Forall_app, Forall_singleton, Hx. split; [|apply jump_here_shape].
    eapply Forall_impl; [apply Hj|]. intros j. apply jump_shape_app.
  - destruct Hc as ((d & e & Hx) & Hcl & Hp & _). destruct Hj as [Hsh Hso]. split; rewrite Hp; [|done].
    rewrite Hx. rewrite Forall_forall in *. intros j Hin. apply jump_shape_put2; auto.
Qed.

Lemma apply_labels o f f' : scope_ok f -> jumps_ok f -> apply o f = Ret f' -> exists x, labels f' = labels f ++ x.
Proof.
  intros Hf Hj Ha. pose proof (apply_code o f f' Ha) as Hc. destruct o;
    try (destruct Hc as (_ & _ & ->); exists []; by rewrite app_nil_r).
  - destruct (visitLabel_spec _ f f' Hf Hj Ha) as ((_ & -> & _) & _). by eexists.
  - destruct (visitJump_code _ f f' Ha) as (-> & _). exists []. by rewrite app_nil_r.
  - destruct Hc as (_ & _ & _ & ->). exists []. by rewrite app_nil_r.
Qed.

Lemma find_label_grows n l f f' x : labels f' = labels f ++ x -> find_label n f = Some l -> find_label n f' = Some l.
Proof.
  unfold find_label. intros ->. destruct (list_find _ (labels f)) as [[i l']|] eqn:E; [|done].
  intros Hl. by rewrite (list_find_app_l _ _ x _ _ E).
Qed.

(** A jump to [n] waits until the label is there. *)
Definition waiting (n : string) (j : PendingJump) (f : FunctionScope) : Prop :=
  find_label n f <> None \/ j ∈ pendingJumps f.

Lemma waiting_apply n j o f f' : pjName j = n -> scope_ok f -> jumps_ok f -> apply o f = Ret f' ->
  waiting n j f -> waiting n j f'.
Proof.
  intros Hn Hf Hj Ha [Hl|Hin].
  - left. destruct (apply_labels o f f' Hf Hj Ha) as [x Hx]. destruct (find_label n f) as [l|] eqn:E; [|done].
    by rewrite (find_label_grows _ _ _ _ _ Hx E).
  - pose proof (apply_code o f f' Ha) as Hc. destruct o as [| |m|i|i loc m|m|m|d|bytes|at_];
      try (right; destruct Hc as (_ & Hp & _); by rewrite Hp).
    + simpl in Ha. destruct (visitLabel_spec m f f' Hf Hj Ha) as ((Hnone & HL & Hp & _) & _).
      destruct (decide (m = n)) as [->|Hne].
      * left. unfold find_label in *. rewrite HL. destruct (list_find _ (labels f)) eqn:E; [done|].
        rewrite list_find_app_r by done. simpl. by rewrite decide_True.
      * right. rewrite Hp. apply list_elem_of_filter. split; [congruence|done].
    + simpl in Ha. destruct (visitJump_code m f f' Ha) as (_ & x & _ & [Hp|[_ Hp]]); right; rewrite Hp; [done|].
      apply elem_of_app. by left.
    + right. destruct Hc as (_ & _ & Hp & _). by rewrite Hp.
Qed.

(** Everything a run keeps. *)
Lemma run_keeps n j ops : pjName j = n -> forall f f', scope_ok f -> jumps_ok f -> run ops f = Ret f' ->
  scope_ok f' /\ jumps_ok f' /\ (waiting n j f -> waiting n j f') /\ (exists x, labels f' = labels f ++ x).
Proof.
  intros Hn. induction ops as [|o ops IH]; intros f f' Hf Hj; simpl.
  - intros [= <-]. split; [done|]. split; [done|]. split; [done|]. exists []. by rewrite app_nil_r.
  - destruct (apply o f) as [f1| |] eqn:E; simpl; [|done..]. intros Hr.
    destruct (IH f1 f') as (H1 & H2 & H3 & [x Hx]); [by eapply scope_ok_apply|by eapply jumps_ok_apply|done|].
    split; [done|]. split; [done|]. split; [intros Hw; apply H3; exact (waiting_apply n j o f f1 Hn Hf Hj E Hw)|].
    destruct (apply_labels o f f1 Hf Hj E) as [y Hy]. rewrite Hx, Hy, <- app_assoc. by eexists.
Qed.

Lemma new_scope_ok m : scope_ok (new_scope m) /\ jumps_ok (new_scope m).
Proof. split; [split|split]; simpl; repeat constructor; simpl; lia. Qed.

Lemma reachable_scope_ok m ops f : run ops (new_scope m) = Ret f -> scope_ok f /\ jumps_ok f.
Proof.
  intros H. destruct (new_scope_ok m) as [H1 H2].
  destruct (run_keeps "" (mkPendingJump "" 0 0 [] [] 0) ops eq_refl _ _ H1 H2 H) as (? & ? & _). done.
Qed.

(** ** Jumps *)

(** From [f] on, wherever [ops] has got to, the first variables are [vs]. *)
Definition kept (vs : list (string * Z)) (ops : list op) (f : FunctionScope) : Prop :=
  forall ops1 ops2 g, ops = ops1 ++ ops2 -> run ops1 f = Ret g -> vs `prefix_of` variables g.

Lemma run_split ops1 ops2 f f' : run (ops1 ++ ops2) f = Ret f' -> exists g, run ops1 f = Ret g /\ run ops2 g = Ret f'.
Proof. rewrite run_app. destruct (run ops1 f) as [g| |]; simpl; eauto; done. Qed.

Lemma kept_since p vs ops f f' : ascending vs -> scope_ok f -> since p vs f -> run ops f = Ret f' ->
  kept (up_to (Z.of_nat (common p (blockPath f'))) vs) ops f.
Proof.
  intros Hvs Hf Hs Hr ops1 ops2 g -> Hg. apply run_split in Hr as (g' & Hg' & Hr). rewrite Hg in Hg'. injection Hg' as <-.
  destruct (since_run p vs ops1 f g Hvs Hf Hg Hs) as [Hsg _].
  destruct (since_run p vs ops2 g f' Hvs (scope_ok_run _ _ _ Hg Hf) Hr Hsg) as [_ Hle].
  etrans; [|apply Hsg]. apply up_to_mono; [done|lia].
Qed.

Lemma variables_depths d f : length (filter (fun x => x <= d) (map ldepth (locals f))) = length (up_to d (variables f)).
Proof.
  unfold up_to, variables. induction (locals f) as [|l ls IH]; [done|]. simpl. rewrite !filter_cons. simpl.
  case_decide; simpl; by rewrite ?IH.
Qed.

Lemma locals_variables f : length (locals f) = length (variables f).
Proof. unfold variables. by rewrite length_map. Qed.

(** What the compiler has written once the label of a forward jump is there, and which
    variables the label has. *)
Lemma forward_jump m n past f f1 ops f2 f3 :
  run past (new_scope m) = Ret f -> find_label n f = None ->
  apply (Jump n) f = Ret f1 -> run ops f1 = Ret f2 -> apply (Label n) f2 = Ret f3 ->
  let at_ := length (code f) in
  scope_ok f /\ scope_ok f1 /\ variables f1 = variables f /\ blockPath f1 = blockPath f /\
  code f3 !! at_ = Some (Op.asByte Op.PopToCount) /\
  arg16 (code f3) (at_ + 1) = Some (Z.of_nat (length (locals f3))) /\
  code f3 !! (at_ + 3)%nat = Some (Op.asByte Op.Jump) /\
  arg16 (code f3) (at_ + 4) = Some (Z.of_nat (length (code f3)) - Z.of_nat (at_ + 6)) /\
  variables f3 = up_to (Z.of_nat (common (blockPath f) (blockPath f2))) (variables f).
Proof.
  intros [Hf Hj]%reachable_scope_ok Hn H1 H2 H3 at_. subst at_. simpl in H1, H3.
  pose proof (scope_ok_apply (Jump n) f f1 H1 Hf) as Hf1. pose proof (jumps_ok_apply (Jump n) f f1 Hf Hj H1) as Hj1.
  destruct (visitJump_forward n f f1 Hn H1) as (Hc1 & Hp1 & HL1). pose proof (view_visitJump n f f1 H1) as Hv1.
  destruct (run_keeps n (jump_here n f) ops eq_refl f1 f2 Hf1 Hj1 H2) as (Hf2 & Hj2 & Hw & _).
  destruct (visitLabel_spec n f2 f3 Hf2 Hj2 H3) as ((Hn2 & _ & _ & Hlen) & Hsh & Hset).
  destruct Hw as [Hw|Hin]; [right; rewrite Hp1; apply elem_of_app; right; by left|done|].
  rewrite !Forall_forall in *. destruct (Hset _ Hin eq_refl) as [(Henc & _ & Hkeep) [Ha Hb]].
  destruct (Hsh _ Hin) as [_ _ _ Ho1 Ho2]. simpl in *. unfold jump_start in Ho1. simpl in Ho1.
  rewrite Nat.add_sub in Ho1. replace (length (code f) + 3)%nat with (length (code f) + 1 + 2)%nat by lia.
  pose proof (view_visitLabel n f2 f3 H3) as Hv3. apply view_eq in Hv1 as (E1 & E2 & _). apply view_eq in Hv3 as (E3 & _).
  split_and!; [done..|by rewrite Ha, !locals_variables, E3|done|rewrite Hb; f_equal; lia|].
  pose proof (since_run _ _ ops f1 f2 (ok_sorted _ Hf1) Hf1 H2 (since_now f1 Hf1)) as [[_ Hpre] _].
  rewrite E1, E2 in Hpre. rewrite E3. symmetry. apply prefix_length_eq; [done|].
  rewrite (common_encloses _ _ Henc), (ok_path _ Hf2), <- variables_depths, Hkeep, locals_variables. done.
Qed.

Lemma up_to_variables d f : scope_ok f -> up_to d (variables f) `prefix_of` variables f.
Proof. intros Hf. rewrite (up_to_take _ _ (ok_sorted _ Hf)). apply prefix_take. Qed.

(** C12. A jump to a label further on: when the compiler accepts it, the two instructions
    written for the jump keep exactly the locals the label has and continue at the label's
    code, and those locals are the first ones at the jump and at every point in between:
    the slots kept hold the variables the code after the label means. *)
Theorem forward_jumps_land_on_live_locals m n past f f1 ops f2 f3 :
  run past (new_scope m) = Ret f -> find_label n f = None ->
  apply (Jump n) f = Ret f1 -> run ops f1 = Ret f2 -> apply (Label n) f2 = Ret f3 ->
  let at_ := length (code f) in
  code f3 !! at_ = Some (Op.asByte Op.PopToCount) /\
  arg16 (code f3) (at_ + 1) = Some (Z.of_nat (length (locals f3))) /\
  code f3 !! (at_ + 3)%nat = Some (Op.asByte Op.Jump) /\
  arg16 (code f3) (at_ + 4) = Some (Z.of_nat (length (code f3)) - Z.of_nat (at_ + 6)) /\
  variables f3 `prefix_of` variables f /\ kept (variables f3) ops f1.
Proof.
  intros Hp Hn H1 H2 H3 at_.
  destruct (forward_jump m n past f f1 ops f2 f3 Hp Hn H1 H2 H3) as (Hf & Hf1 & E1 & E2 & C1 & C2 & C3 & C4 & Hvars).
  split_and!; [done..| |]; rewrite Hvars; [by apply up_to_variables|].
  apply kept_since; [apply Hf|done| |done]. rewrite <- E1, <- E2. by apply since_now.
Qed.

(** Where operations that succeed lead. *)
Definition ran (ops : list op) (f : FunctionScope) : FunctionScope :=
  match run ops f with Ret g => g | _ => f end.

(** [x] before a block, [y] in it before the jump, [z] after it; the label after the block. *)
Definition before_jump : FunctionScope := ran [Enter; Var "x"; Enter; Var "y"] (new_scope false).
Definition at_jump : FunctionScope := ran [Jump "done"] before_jump.
Definition at_label : FunctionScope := ran [Var "z"; Exit] at_jump.
Definition after_label : FunctionScope := ran [Label "done"] at_label.

Lemma forward_jumps_land_on_live_locals_witness :
  arg16 (code after_label) (length (code before_jump) + 1) = Some (Z.of_nat (length (locals after_label))) /\
  variables after_label `prefix_of` variables before_jump.
Proof.
  destruct (forward_jumps_land_on_live_locals false "done" [Enter; Var "x"; Enter; Var "y"]
    before_jump at_jump [Var "z"; Exit] at_label after_label) as (_ & H1 & _ & _ & H2 & _);
    [vm_compute; reflexivity..|]. split; [exact H1|exact H2].
Defined.

Example what_the_jump_keeps : variables after_label = [(""%string, 0); ("x"%string, 1)] /\
  code after_label = [Op.asByte Op.PopToCount; 0; 2; Op.asByte Op.Jump; 0; 2; Op.asByte Op.Pop; Op.asByte Op.Pop].
Proof. split; reflexivity. Qed.

(** Code only grows. *)
Lemma apply_length o f f' : scope_ok f -> jumps_ok f -> apply o f = Ret f' -> (length (code f) <= length (code f'))%nat.
Proof.
  intros Hf Hj Ha. pose proof (apply_code o f f' Ha) as Hc. destruct o;
    try (destruct Hc as ([x ->] & _); rewrite length_app; lia).
  - destruct (visitLabel_spec _ f f' Hf Hj Ha) as ((_ & _ & _ & ->) & _). done.
  - destruct (visitJump_code _ f f' Ha) as (_ & x & -> & _). rewrite length_app. lia.
  - destruct Hc as ((d & e & ->) & _). by rewrite put2_length.
Qed.

Lemma run_length ops : forall f f', scope_ok f -> jumps_ok f -> run ops f = Ret f' -> (length (code f) <= length (code f'))%nat.
Proof.
  induction ops as [|o ops IH]; intros f f' Hf Hj; simpl; [by intros [= <-]|].
  destruct (apply o f) as [f1| |] eqn:E; simpl; [|done..]. intros Hr.
  pose proof (apply_length o f f1 Hf Hj E).
  pose proof (IH f1 f' (scope_ok_apply o f f1 E Hf) (jumps_ok_apply o f f1 Hf Hj E) Hr). lia.
Qed.

(** A jump back to a label: when the compiler accepts it, it is a count and a distance
    that keep the locals the label had and lead to the label's code, and every point since
    the label has those locals first. *)
Theorem backward_jumps_land_on_live_locals m n past f f1 ops f2 f3 :
  run past (new_scope m) = Ret f -> apply (Label n) f = Ret f1 -> run ops f1 = Ret f2 -> apply (Jump n) f2 = Ret f3 ->
  exists back, 0 <= back /\ code f3 = code f2 ++ back_bytes (Z.of_nat (length (locals f))) back /\
  arg16 (code f3) (length (code f2) + 1) = Some (Z.of_nat (length (locals f))) /\
  arg16 (code f3) (length (code f2) + 4) = Some back /\
  Z.of_nat (length (code f3)) - back = Z.of_nat (length (code f)) /\
  kept (variables f) ops f1.
Proof.
  intros [Hf Hj]%reachable_scope_ok H1 H2 H3. simpl in H1, H3. destruct (visitLabel_spec n f f1 Hf Hj H1) as ((Hn & HL & _ & Hlen) & _).
  pose proof (scope_ok_apply (Label n) f f1 H1 Hf) as Hf1. pose proof (jumps_ok_apply (Label n) f f1 Hf Hj H1) as Hj1.
  destruct (run_keeps n (jump_here n f) ops eq_refl f1 f2 Hf1 Hj1 H2) as (Hf2 & Hj2 & _ & [x Hx]).
  assert (find_label n f2 = Some (label_here n f)) as Hl.
  { apply (find_label_grows n _ f1 f2 x Hx). unfold find_label in *. rewrite HL.
    destruct (list_find _ (labels f)) eqn:E; [done|]. rewrite list_find_app_r by done. simpl. by rewrite decide_True. }
  destruct (visitJump_backward n _ f2 f3 Hl H3) as (Henc & Hk & Hd & Hc & _). unfold label_here in *. simpl in *.
  pose proof (run_length ops f1 f2 Hf1 Hj1 H2) as Hlen2. unfold back_dist in *. simpl in *.
  eexists. split; [|split; [exact Hc|]]; [lia|]. rewrite Hc. split; [|split; [|split]].
  - unfold arg16. rewrite !lookup_app_r by lia. replace (_ - _)%nat with 1%nat by lia.
    replace (S _ - _)%nat with 2%nat by lia. simpl. by rewrite hi_lo by lia.
  - unfold arg16. rewrite !lookup_app_r by lia. replace (_ - _)%nat with 4%nat by lia.
    replace (S _ - _)%nat with 5%nat by lia. simpl. by rewrite hi_lo by lia.
  - rewrite length_app. simpl. lia.
  - pose proof (view_visitLabel n f f1 H1) as Hv. apply view_eq in Hv as (E1 & E2 & E3 & _).
    pose proof (kept_since _ _ ops f1 f2 (ok_sorted _ Hf1) Hf1 (since_now f1 Hf1) H2) as Hkept.
    by rewrite E1, E2, (common_outer _ _ Henc), (ok_path _ Hf), (up_to_all _ _ (ok_depths _ Hf)) in Hkept.
Qed.

Lemma backward_jumps_land_on_live_locals_witness : let f1 := ran [Label "again"] before_jump in
  let f2 := ran [Enter; Var "z"; Capture 3; Emit [0; 0]] f1 in let f3 := ran [Jump "again"] f2 in
  exists back, code f3 = code f2 ++ back_bytes (Z.of_nat (length (locals before_jump))) back.
Proof.
  intros f1 f2 f3.
  destruct (backward_jumps_land_on_live_locals false "again" [Enter; Var "x"; Enter; Var "y"]
    before_jump f1 [Enter; Var "z"; Capture 3; Emit [0; 0]] f2 f3) as (back & _ & H & _);
    [vm_compute; reflexivity..|]. exists back. exact H.
Defined.

(** ** What names mean in the functions around *)

(** A variable of an enclosing function: how many functions out, and its slot there. *)
Definition place := (nat * nat)%type.
Definition outer : option place -> option place := fmap (prod_map S id).

(** The variable a name means: the innermost of that name. *)
Fixpoint binding (n : string) (rest : list LexicalScope) : option place :=
  match rest with
  | [] => None
  | TypeScope _ :: rest' => binding n rest'
  | FuncOrModule g :: rest' =>
      match resolveLocal g n with Some i => Some (O, i) | None => outer (binding n rest') end
  end.

(** The variable an entry of a function's table stands for once the closures of the
    functions around have been made: a slot of the function that makes the closure, or what
    an entry of its own closure stands for. *)
Fixpoint denotes (k : nat) (us : list Upvalue) (rest : list LexicalScope) : option place :=
  match rest with
  | [] => None
  | TypeScope _ :: rest' => denotes k us rest'
  | FuncOrModule g :: rest' =>
      u ← us !! k;
      if isLocal u then Some (O, Z.to_nat (index u)) else outer (denotes (Z.to_nat (index u)) (upvalues g) rest')
  end.

(** Whether leaving its block will close a variable. *)
Fixpoint captured (p : place) (rest : list LexicalScope) : bool :=
  match rest with
  | [] => false
  | TypeScope _ :: rest' => captured p rest'
  | FuncOrModule g :: rest' =>
      match p with
      | (O, i) => match locals g !! i with Some l => isCaptured l | None => false end
      | (S d, i) => captured (d, i) rest'
      end
  end.

Record table_ok (f : FunctionScope) : Prop := {
  to_count : upvalueCount f = length (upvalues f);
  to_upvalues : (length (upvalues f) <= 255)%nat;
  to_locals : (length (locals f) <= 255)%nat
}.

Definition scope_table_ok (s : LexicalScope) : Prop :=
  match s with FuncOrModule f => table_ok f | TypeScope _ => True end.

Lemma find_upvalue_some i loc us k : find_upvalue i loc us = Some k ->
  exists u, us !! k = Some u /\ index u = i /\ isLocal u = loc.
Proof.
  revert k. induction us as [|u us IH]; intros k; simpl; [done|]. case_match eqn:E.
  - intros [= <-]. apply andb_prop in E as [Ei%Z.eqb_eq El%eqb_prop]. by exists u.
  - destruct (find_upvalue i loc us) as [k'|]; simpl; [|done]. intros [= <-]. by apply IH.
Qed.

Lemma addUpvalue_spec f i loc n k f' : table_ok f -> addUpvalue f i loc n = Ret (k, f') ->
  table_ok f' /\ locals f' = locals f /\ (exists x, upvalues f' = upvalues f ++ x) /\
  exists u, upvalues f' !! k = Some u /\ index u = i /\ isLocal u = loc.
Proof.
  intros [Hc Hu Hl]. unfold addUpvalue. rewrite take_ge by lia. destruct (find_upvalue i loc (upvalues f)) as [k'|] eqn:E.
  - intros [= <- <-]. split; [done|]. split; [done|]. split; [exists []; by rewrite app_nil_r|]. by apply find_upvalue_some.
  - destruct (upvalueCount f =? 255)%nat eqn:En; [done|]. apply Nat.eqb_neq in En.
    destruct f as [ls us c d la pj g bp nb co]. simpl in *. intros [= <- <-]. split; [|split; [done|split]].
    + split; simpl; rewrite ?length_app; simpl; lia.
    + by eexists.
    + simpl. rewrite Hc, list_lookup_middle by done. by eexists.
Qed.

Lemma resolve_in_lt n ls i : resolve_in n ls = Some i -> (i < length ls)%nat.
Proof. induction ls as [|l ls IH]; simpl; [done|]. case_match; [intros [= <-]; lia|]. intros Hi%IH. lia. Qed.

Lemma resolve_in_ext n ls ls' : map (fun l => (name l, ldepth l)) ls = map (fun l => (name l, ldepth l)) ls' ->
  resolve_in n ls = resolve_in n ls'.
Proof.
  revert ls'. induction ls as [|l ls IH]; intros [|l' ls']; simpl; try done. intros Heq. injection Heq as -> -> Hm.
  rewrite (IH _ Hm). apply (f_equal length) in Hm. rewrite !length_map in Hm. by rewrite Hm.
Qed.

Lemma resolveLocal_captured i g n : resolveLocal (set_captured i g) n = resolveLocal g n.
Proof.
  unfold resolveLocal. apply resolve_in_ext. rewrite !map_rev. f_equal.
  pose proof (variables_captured i g) as H. apply view_eq in H as (Hv & _). exact Hv.
Qed.

Lemma set_captured_table i g : table_ok g -> table_ok (set_captured i g) /\ upvalues (set_captured i g) = upvalues g.
Proof. destruct g. intros [H1 H2 H3]. simpl in *. split; [split; simpl in *; rewrite ?length_alter; done|done]. Qed.

Lemma wrap8_small n : (n <= 255)%nat -> wrapU 8 (Z.of_nat n) = Z.of_nat n.
Proof. intros Hn. apply Z.mod_small. lia. Qed.

(** What resolving a name has done. *)
Record resolved (n : string) (f : FunctionScope) (rest : list LexicalScope)
    (o : option nat) (f' : FunctionScope) (rest' : list LexicalScope) : Prop := {
  re_table : table_ok f';
  re_tables : Forall scope_table_ok rest';
  re_locals : locals f' = locals f;
  re_grows : exists x, upvalues f' = upvalues f ++ x;
  re_none : o = None -> binding n rest = None;
  re_some k : o = Some k -> (k < length (upvalues f'))%nat /\
    exists p, binding n rest = Some p /\ denotes k (upvalues f') rest' = Some p /\ captured p rest' = true;
  re_names m : binding m rest' = binding m rest;
  re_keeps us k p : denotes k us rest = Some p -> denotes k us rest' = Some p
}.

Lemma denotes_grows k us x rest p : denotes k us rest = Some p -> denotes k (us ++ x) rest = Some p.
Proof.
  induction rest as [|[g|t] rest IH]; simpl; [done| |done]. destruct (us !! k) as [u|] eqn:E; simpl; [|done].
  by rewrite (lookup_app_l_Some _ _ _ _ E).
Qed.

Lemma resolveUpvalue_resolved n rest : forall f r, table_ok f -> Forall scope_table_ok rest ->
  resolveUpvalue n f rest = Ret r -> resolved n f rest r.1.1 r.1.2 r.2.
Proof.
  induction rest as [|[g|t] rest IH]; intros f r Hf Hrest; simpl.
  - intros [= <-]. split; simpl; try done. exists []. by rewrite app_nil_r.
  - apply Forall_cons in Hrest as [Hg Hrest]. simpl in Hg. destruct (resolveLocal g n) as [i|] eqn:E.
    + destruct (addUpvalue _ _ _ _) as [[k f1]| |] eqn:Ea; simpl; [|done..]. intros [= <-]. simpl.
      apply addUpvalue_spec in Ea as (Hf1 & Hl & Hx & u & Hu & Hi & Hloc); [|done].
      pose proof (resolve_in_lt _ _ _ E) as Hlt. rewrite length_rev in Hlt. pose proof (to_locals _ Hg) as H255.
      rewrite wrap8_small in Hi by lia. destruct (set_captured_table i g Hg) as [Hg' Hus]. split; simpl; try done.
      * by constructor.
      * intros k' [= <-]. split; [by eapply lookup_lt_Some|]. exists (O, i). rewrite E. split; [done|].
        rewrite Hu. simpl. rewrite Hloc, Hi, Nat2Z.id. split; [done|]. destruct g. simpl in *.
        rewrite list_lookup_alter_eq. destruct (lookup_lt_is_Some_2 _ _ Hlt) as [l ->]. done.
      * intros m. by rewrite resolveLocal_captured.
      * intros us k' p. by rewrite Hus.
    + destruct (resolveUpvalue n g rest) as [[[o g'] rest']| |] eqn:Er; simpl; [|done..].
      destruct (IH g _ Hg Hrest Er) as [H1 H2 H3 [x Hx] H5 H6 H7 H8]. simpl in *.
      assert (forall (us : list Upvalue) (k : nat) (p : place), (u ← us !! k; if isLocal u then Some (O, Z.to_nat (index u))
          else outer (denotes (Z.to_nat (index u)) (upvalues g) rest)) = Some p ->
        (u ← us !! k; if isLocal u then Some (O, Z.to_nat (index u))
          else outer (denotes (Z.to_nat (index u)) (upvalues g') rest')) = Some p) as Hkeep.
      { intros us k p. destruct (us !! k) as [u|]; simpl; [|done]. destruct (isLocal u); [done|].
        destruct (denotes _ (upvalues g) rest) as [q|] eqn:Ed; simpl; [|done]. intros <-.
        apply H8, (denotes_grows _ _ x) in Ed. by rewrite Hx, Ed. }
      assert (forall m, match resolveLocal g' m with Some i => Some (O, i) | None => outer (binding m rest') end =
        match resolveLocal g m with Some i => Some (O, i) | None => outer (binding m rest) end) as Hnames.
      { intros m. unfold resolveLocal. by rewrite H3, H7. }
      destruct o as [v|]; simpl.
      * destruct (addUpvalue _ _ _ _) as [[k f1]| |] eqn:Ea; simpl; [|done..]. intros [= <-]. simpl.
        apply addUpvalue_spec in Ea as (Hf1 & Hl & Hxf & u & Hu & Hi & Hloc); [|done].
        destruct (H6 v eq_refl) as (Hv & p & Hp1 & Hp2 & Hp3). pose proof (to_upvalues _ H1) as H255.
        rewrite wrap8_small in Hi by lia. split; simpl; try done.
        -- by constructor.
        -- intros k' [= <-]. split; [by eapply lookup_lt_Some|]. exists (prod_map S id p).
           rewrite E, Hp1. split; [done|]. rewrite Hu. simpl. rewrite Hloc, Hi, Nat2Z.id, Hp2. split; [done|].
           by destruct p.
      * intros [= <-]. split; simpl; try done.
        -- by constructor.
        -- exists []. by rewrite app_nil_r.
        -- intros _. by rewrite E, H5.
  - apply Forall_cons in Hrest as [_ Hrest]. destruct (resolveUpvalue n f rest) as [[[o f'] rest']| |] eqn:Er; simpl; [|done..].
    intros [= <-]. simpl. destruct (IH f _ Hf Hrest Er) as [H1 H2 H3 H4 H5 H6 H7 H8]. split; simpl in *; try done.
    by constructor.
Qed.

(** C13. A name that is a variable of an enclosing function: the entry of the function's table
    stands for the innermost variable of that name, which will be closed when its block
    ends; the names and the entries there were mean what they meant; a name with no such
    variable gets no entry. *)
Theorem closures_capture_lexical_variables n f rest o f' rest' : table_ok f -> Forall scope_table_ok rest ->
  resolveUpvalue n f rest = Ret (o, f', rest') ->
  match o with
  | Some k => exists p, binding n rest = Some p /\ denotes k (upvalues f') rest' = Some p /\ captured p rest' = true
  | None => binding n rest = None
  end /\
  (forall m, binding m rest' = binding m rest) /\
  (forall k p, denotes k (upvalues f) rest = Some p -> denotes k (upvalues f') rest' = Some p).
Proof.
  intros Hf Hrest Hr. destruct (resolveUpvalue_resolved n rest f _ Hf Hrest Hr) as [_ _ _ [x Hx] H5 H6 H7 H8]. simpl in *.
  split; [|split; [done|]].
  - destruct o as [k|]; [by destruct (H6 k eq_refl) as (_ & p & ?); exists p|auto].
  - intros k p Hd. rewrite Hx. by apply denotes_grows, H8.
Qed.

(** [x] of a function two functions out, through one that does not use it and a type. *)
Definition nested : list LexicalScope :=
  [TypeScope "T"; FuncOrModule (new_scope true); FuncOrModule (ran [Enter; Var "x"; Var "y"] (new_scope false))].

Lemma closures_capture_lexical_variables_witness :
  match resolveUpvalue "x" (new_scope false) nested with
  | Ret (Some k, f', rest') => exists p,
      binding "x" nested = Some p /\ denotes k (upvalues f') rest' = Some p /\ captured p rest' = true
  | _ => False
  end.
Proof.
  destruct (resolveUpvalue "x" (new_scope false) nested) as [[[o f'] rest']|e|] eqn:E;
    [|vm_compute in E; discriminate..].
  destruct (closures_capture_lexical_variables "x" (new_scope false) nested o f' rest') as [H _];
    [split; simpl; lia|repeat constructor; simpl; lia|exact E|].
  destruct o as [k|]; [exact H|]. vm_compute in H. discriminate.
Defined.

End ScopeProofs.
