(* ===== verification/CompiledCode.v ===== *)
(** * CompiledCode: what the compiler's code does when the interpreter runs it

    Jumps and closures from end to end: the code that [Scopes] writes, run by [Machine] over
    cells.  MachineProofs carries what is shown here over to the program's stack. *)

From S2P Require Import Prelude Types Chunk Machine Scopes ScopeProofs.
From stdpp Require Import numbers list strings.

Module CompiledCode.

Import Chunk Machine ScopeProofs.
Local Open Scope nat_scope.
Local Open Scope machine_scope.

(** The names of enclosing functions that a function uses, in turn, each with the entry it
    was given. *)
Inductive resolves : Scopes.FunctionScope -> list Scopes.LexicalScope -> list (string * option nat) ->
    Scopes.FunctionScope -> list Scopes.LexicalScope -> Prop :=
| resolves_none f rest : resolves f rest [] f rest
| resolves_next n o uses f rest f1 rest1 f2 rest2 :
    Scopes.resolveUpvalue n f rest = Ret (o, f1, rest1) -> resolves f1 rest1 uses f2 rest2 ->
    resolves f rest ((n, o) :: uses) f2 rest2.

Lemma resolves_spec f rest uses f' rest' : resolves f rest uses f' rest' ->
  ScopeProofs.table_ok f -> Forall ScopeProofs.scope_table_ok rest ->
  ScopeProofs.table_ok f' /\
  (forall k p, ScopeProofs.denotes k (Scopes.upvalues f) rest = Some p -> ScopeProofs.denotes k (Scopes.upvalues f') rest' = Some p) /\
  (forall n k, (n, Some k) ∈ uses -> exists p, ScopeProofs.binding n rest = Some p /\
     ScopeProofs.denotes k (Scopes.upvalues f') rest' = Some p).
Proof.
  induction 1 as [f rest|n o uses f rest f1 rest1 f2 rest2 Hr Hrest IH]; intros Hf Ht.
  { split_and!; [done|done|]. intros n k []%not_elem_of_nil. }
  destruct (ScopeProofs.resolveUpvalue_resolved n rest f _ Hf Ht Hr) as [H1 H2 _ [x Hx] _ H6 H7 H8]. simpl in *.
  destruct (IH H1 H2) as (I1 & I2 & I3). split_and!; [done| |].
  - intros k p Hd. apply I2. rewrite Hx. by apply ScopeProofs.denotes_grows, H8.
  - intros m k [[= <- <-]|Hin]%elem_of_cons.
    + destruct (H6 k eq_refl) as (_ & p & Hp & Hd & _). exists p. auto.
    + destruct (I3 m k Hin) as (p & Hp & Hd). exists p. by rewrite <- H7.
Qed.

Section Running.
Context (lim : nat) (fns : list ObjFunction) (f0 : CallFrame) (fs : list CallFrame) (pe : Pending) (ini : list nat).
Context (act : bool) (unc : option Val) (flim : nat).
Context (fi : nat) (ups : list (option nat)) (fn : ObjFunction) (e : Entry).
Hypothesis Hidle : eventHandlerJustReturned pe = false /\ continuationCallbackReturned pe = false /\ pendingSetterCount pe = 0.
Hypothesis Hfn : fns !! fi = Some fn.

(** The machine with the frame [f0] on top, at a given instruction. *)
Definition V (i : nat) (vs : list nat) (ce : list Val) (bs : list (nat * list (option nat))) : VM Cells :=
  mkVM (mkCells lim vs ce bs) (mkThread fns (with_ip (fun _ => i) f0 :: fs) false pe ini act unc false flim).

Definition runs (bs : list (nat * list (option nat))) : Prop := bs !! closure f0 = Some (fi, ups).

Lemma readByte_at i vs ce bs b : runs bs -> fnCode fn !! i = Some b ->
  readByte (V i vs ce bs) = Ret (b, V (S i) vs ce bs).
Proof.
  intros Hb Hc. unfold runs in Hb. unfold V. clear Hidle. destruct f0. simpl in *.
  unfold readByte, frame, closureFunction, functionObj, bind, asks, reads, ret. simpl. unfold Cel.functionOf_cell. simpl.
  rewrite Hb. simpl. rewrite Hfn. simpl. rewrite Hc. reflexivity.
Qed.

Lemma readShort_at i vs ce bs h l : runs bs -> fnCode fn !! i = Some h -> fnCode fn !! S i = Some l ->
  readShort (V i vs ce bs) = Ret (Z.lor (Z.shiftl h 8) l, V (S (S i)) vs ce bs).
Proof.
  intros Hb Hh Hl. unfold readShort, bind. rewrite (readByte_at _ _ _ _ h) by done. by rewrite (readByte_at _ _ _ _ l) by done.
Qed.

Lemma step_at i vs ce bs b op single r : runs bs -> fnCode fn !! i = Some b -> decode b = (Some op, single) ->
  instruction e op single (V (S i) vs ce bs) = Ret r -> step e (V i vs ce bs) = Ret r.
Proof.
  intros Hb Hc Hd Hi. destruct Hidle as (H1 & H2 & H3). unfold step, catch. enough (turn e (V i vs ce bs) = Ret r) as -> by done.
  unfold turn, bind, framesSize, asks, ret, alters. simpl. rewrite H1, H2, H3. simpl.
  fold (V i vs ce bs). rewrite (readByte_at _ _ _ _ b) by done. simpl. rewrite Hd. exact Hi.
Qed.

(** ** Giving up slots *)

Definition filled (ce : list Val) (vs : list nat) : Prop := Forall (fun x => x < length ce) vs.

Lemma renew_spec l : forall n vs ce bs, filled ce l ->
  exists vs' ce', Cel.renew l (mkCells n vs ce bs) = Ret (mkCells n (vs ++ vs') (ce ++ ce') bs) /\
    length vs' = length l /\ filled (ce ++ ce') vs'.
Proof.
  induction l as [|x l IH]; intros n vs ce bs Hl; simpl.
  { exists [], []. rewrite !app_nil_r. repeat split. constructor. }
  apply Forall_cons in Hl as [Hx Hl]. destruct (lookup_lt_is_Some_2 ce x Hx) as [v Hv]. rewrite Hv. simpl.
  destruct (IH n (vs ++ [length ce]) (ce ++ [v]) bs) as (vs' & ce' & Hr & Hlen & Hf).
  { eapply Forall_impl; [exact Hl|]. simpl. intros y Hy. rewrite length_app. simpl. lia. }
  exists (length ce :: vs'), (v :: ce'). rewrite <- !app_assoc in *. simpl in *. split; [done|]. split; [lia|].
  constructor; [rewrite length_app; simpl; lia|done].
Qed.

Lemma popN_at n : forall i vs ce bs, n <= length vs -> filled ce vs ->
  popN n (V i vs ce bs) = Ret (tt, V i (take (length vs - n) vs) ce bs).
Proof.
  unfold popN. induction n as [|n IH]; intros i vs ce bs Hn Hf; simpl.
  { rewrite Nat.sub_0_r, take_ge by lia. done. }
  destruct vs as [|x vs _] using rev_ind; [simpl in Hn; lia|]. rewrite length_app in *. simpl in *.
  apply Forall_app in Hf as [Hf Hx%Forall_inv]. destruct (lookup_lt_is_Some_2 ce x Hx) as [v Hv].
  unfold bind at 1. unfold bind at 1, popM, writes, V at 1. simpl. rewrite last_snoc. simpl. rewrite Hv. simpl.
  rewrite removelast_last. unfold ret at 1. fold (V i vs ce bs). rewrite IH by (done || lia).
  replace (length vs + 1 - S n) with (length vs - n) by lia. by rewrite take_app_le by lia.
Qed.

Lemma popToCount_at i vs ce bs h l target : runs bs -> filled ce vs ->
  fnCode fn !! i = Some h -> fnCode fn !! S i = Some l ->
  target = slots f0 + Z.to_nat (Z.lor (Z.shiftl h 8) l) -> target <= length vs ->
  exists ce', opPopToCount (V i vs ce bs) = Ret (tt, V (S (S i)) (take target vs) (ce ++ ce') bs) /\ filled (ce ++ ce') (take target vs).
Proof.
  intros Hb Hf Hh Hl -> Ht. unfold opPopToCount, bind. rewrite (readShort_at _ _ _ _ h l) by done.
  unfold frame, bind, asks, ret. simpl.
  replace (slots (with_ip (fun _ => S (S i)) f0)) with (slots f0) by (by destruct f0).
  set (target := slots f0 + Z.to_nat _) in *.
  destruct (renew_spec (drop target vs) lim (take target vs) ce bs) as (vs' & ce' & Hr & Hlen & Hf').
  { by apply Forall_drop. }
  assert (filled (ce ++ ce') (take target vs)) as Hft.
  { eapply Forall_impl; [apply Forall_take, Hf|]. simpl. intros x Hx. rewrite length_app. lia. }
  exists ce'. unfold closeM, writes, quiet. simpl. unfold Cel.close. rewrite Hr. simpl.
  fold (V (S (S i)) (take target vs ++ vs') (ce ++ ce') bs).
  unfold popToDepth, bind, depthM, reads. simpl. rewrite popN_at.
  - split; [|done]. rewrite length_app, length_take, Nat.min_l by done.
    replace (target + length vs' - (target + length vs' - target)) with target by lia.
    rewrite take_app_le by (rewrite length_take; lia). rewrite take_take. by rewrite Nat.min_id.
  - rewrite length_app, length_take. lia.
  - by apply Forall_app.
Qed.


Lemma jump_at i vs ce bs h l : runs bs -> fnCode fn !! i = Some h -> fnCode fn !! S i = Some l ->
  instruction e Op.Jump true (V i vs ce bs) = Ret (None, V (S (S i) + Z.to_nat (Z.lor (Z.shiftl h 8) l)) vs ce bs).
Proof.
  intros Hb Hh Hl. simpl. unfold bind. rewrite (readShort_at _ _ _ _ h l) by done.
  unfold set_frame, alters, next, ret, V. simpl. by destruct f0.
Qed.

Lemma loop_at i vs ce bs h l : runs bs -> fnCode fn !! i = Some h -> fnCode fn !! S i = Some l ->
  Z.to_nat (Z.lor (Z.shiftl h 8) l) <= S (S i) ->
  instruction e Op.Loop true (V i vs ce bs) = Ret (None, V (S (S i) - Z.to_nat (Z.lor (Z.shiftl h 8) l)) vs ce bs).
Proof.
  intros Hb Hh Hl Hle. simpl. unfold bind. rewrite (readShort_at _ _ _ _ h l) by done. clear Hidle Hb.
  unfold V, frame, set_frame, alters, next, ret, bind, asks. destruct f0. simpl.
  destruct (_ <? _) eqn:E; [apply Nat.ltb_lt in E; simpl in E; lia|]. done.
Qed.

(** ** Jumps, compiled and run *)

(** In a function's code, a jump at one place to a label at another; the variables of the
    function at the label, and at the jump. *)
Inductive compiled_jump : list Z -> nat -> nat -> list (string * Z) -> list (string * Z) -> Prop :=
| jump_forward m n past f f1 ops f2 f3 :
    ScopeProofs.run past (Scopes.new_scope m) = Ret f -> Scopes.find_label n f = None ->
    apply (Jump n) f = Ret f1 -> ScopeProofs.run ops f1 = Ret f2 -> apply (Label n) f2 = Ret f3 ->
    compiled_jump (Scopes.code f3) (length (Scopes.code f)) (length (Scopes.code f3)) (variables f3) (variables f)
| jump_back m n past f f1 ops f2 f3 :
    ScopeProofs.run past (Scopes.new_scope m) = Ret f -> apply (Label n) f = Ret f1 ->
    ScopeProofs.run ops f1 = Ret f2 -> apply (Jump n) f2 = Ret f3 ->
    compiled_jump (Scopes.code f3) (length (Scopes.code f2)) (length (Scopes.code f)) (variables f) (variables f2).

(** The two instructions of a jump. *)
Definition jump_code (c : list Z) (at_ target keep : nat) : Prop :=
  c !! at_ = Some (Op.asByte Op.PopToCount) /\ arg16 c (at_ + 1) = Some (Z.of_nat keep) /\
  ((c !! (at_ + 3) = Some (Op.asByte Op.Jump) /\ at_ + 6 <= target /\ arg16 c (at_ + 4) = Some (Z.of_nat target - Z.of_nat (at_ + 6))%Z) \/
   (c !! (at_ + 3) = Some (Op.asByte Op.Loop) /\ target <= at_ + 6 /\ arg16 c (at_ + 4) = Some (Z.of_nat (at_ + 6) - Z.of_nat target)%Z)).

Lemma arg16_room c off v : arg16 c off = Some v -> S off < length c.
Proof.
  unfold arg16. destruct (c !! off); [|done]. destruct (c !! S off) eqn:E; [|done]. intros _. by eapply lookup_lt_Some.
Qed.

Lemma compiled_jump_code c at_ target lv jv : compiled_jump c at_ target lv jv ->
  lv `prefix_of` jv /\ jump_code c at_ target (length lv).
Proof.
  intros [m n past f f1 ops f2 f3 Hp Hn H1 H2 H3|m n past f f1 ops f2 f3 Hp H1 H2 H3].
  - destruct (forward_jump m n past f f1 ops f2 f3 Hp Hn H1 H2 H3) as (Hf & _ & _ & _ & E1 & E2 & E3 & E4 & E5).
    split; [rewrite E5; by apply up_to_variables|]. rewrite locals_variables in E2. split_and!; [done|done|]. left. split_and!; [done| |done].
    apply arg16_room in E4. lia.
  - destruct (backward_jumps_land_on_live_locals m n past f f1 ops f2 f3 Hp H1 H2 H3) as (back & E0 & E1 & E2 & E3 & E4 & E5).
    split; [by apply (E5 ops [] f2); [rewrite app_nil_r|]|]. rewrite locals_variables in E2.
    assert (length (Scopes.code f3) = length (Scopes.code f2) + 6) as Hlen by (rewrite E1, length_app; done).
    split_and!; [rewrite E1; unfold back_bytes; by rewrite list_lookup_middle|done|]. right. split_and!; [|lia|].
    + rewrite E1, lookup_app_r by lia. by replace (_ - _) with 3 by lia.
    + rewrite E3. f_equal. lia.
Qed.

(** A jump the compiler accepts, run by the interpreter: from any frame of the function
    that reaches the jump, two instructions later the frame is at the label's code with
    exactly the label's variables in its slots, which are variables of the jump's place and
    keep their cells; what lies under them is untouched. *)
Theorem jumps_reach_their_labels c at_ target lv jv (Hjump : compiled_jump c at_ target lv jv)
    (Hcode : forall i, i < 6 -> fnCode fn !! (at_ + i) = c !! (at_ + i)) vs ce bs
    (Hframe : runs bs) (Hvs : filled ce vs) (Hslots : slots f0 + length jv <= length vs) :
  lv `prefix_of` jv /\
  exists ce', (step e ;;; step e) (V at_ vs ce bs) = Ret (None, V target (take (slots f0 + length lv) vs) (ce ++ ce') bs).
Proof.
  destruct (compiled_jump_code _ _ _ _ _ Hjump) as (Hpre & Hpop & Hkeep & Hdist). split; [done|].
  pose proof (prefix_length _ _ Hpre) as Hle.
  assert (forall i z, i < 5 -> arg16 c (at_ + i) = Some z ->
    exists h l, fnCode fn !! (at_ + i) = Some h /\ fnCode fn !! S (at_ + i) = Some l /\ Z.lor (Z.shiftl h 8) l = z) as Harg.
  { intros i z Hi. unfold arg16. pose proof (Hcode i ltac:(lia)) as E1. pose proof (Hcode (S i) ltac:(lia)) as E2.
    rewrite <- plus_n_Sm in E2. rewrite E1, E2.
    destruct (c !! (at_ + i)) as [h|]; [|done]. destruct (c !! S (at_ + i)) as [l|]; [|done]. intros [= <-]. by exists h, l. }
  destruct (Harg 1 _ ltac:(lia) Hkeep) as (h & l & Hh & Hl & Hv).
  rewrite <- (Nat.add_0_r at_), <- Hcode, Nat.add_0_r in Hpop by lia.
  replace (at_ + 1) with (S at_) in * by lia.
  destruct (popToCount_at (S at_) vs ce bs h l (slots f0 + length lv)) as (ce' & Hp & Hf); [done..|rewrite Hv; lia|lia|].
  exists ce'. unfold bind at 1.
  rewrite (step_at at_ vs ce bs _ _ _ (None, V (S (S (S at_))) (take (slots f0 + length lv) vs) (ce ++ ce') bs) Hframe Hpop (decode_asByte _)).
  2: { simpl. unfold bind. rewrite Hp. done. }
  replace (S (S (S at_))) with (at_ + 3) by lia. destruct Hdist as [(Hop & Hle' & Hd)|(Hop & Hle' & Hd)].
  all: rewrite <- Hcode in Hop by lia; destruct (Harg 4 _ ltac:(lia) Hd) as (h' & l' & Hh' & Hl' & Hv').
  all: replace (at_ + 4) with (S (at_ + 3)) in * by lia.
  - apply (step_at _ _ _ _ _ _ _ _ Hframe Hop (decode_asByte _)). rewrite (jump_at _ _ _ _ h' l') by done.
    rewrite Hv'. do 3 f_equal. lia.
  - apply (step_at _ _ _ _ _ _ _ _ Hframe Hop (decode_asByte _)).
    rewrite (loop_at _ _ _ _ h' l') by (try done; rewrite Hv'; lia). rewrite Hv'. do 3 f_equal. lia.
Qed.

(** ** Closures, compiled and run *)

(** The cell an entry of the table takes from the frame and from its closure. *)
Definition taken (vs : list nat) (u : Scopes.Upvalue) : option nat :=
  if Scopes.isLocal u then vs !! (slots f0 + Z.to_nat (Scopes.index u))
  else default None (ups !! Z.to_nat (Scopes.index u)).

Definition at_hand (vs : list nat) (u : Scopes.Upvalue) : Prop :=
  if Scopes.isLocal u then slots f0 + Z.to_nat (Scopes.index u) < length vs
  else Z.to_nat (Scopes.index u) < length ups.

Definition table (us : list Scopes.Upvalue) : list Z :=
  concat (map (fun u => [(if Scopes.isLocal u then 1 else 0)%Z; Scopes.index u]) us).

(** The bytes [l] of the function's code at [i]. *)
Definition located (i : nat) (l : list Z) : Prop := forall j, j < length l -> fnCode fn !! (i + j) = l !! j.

Lemma located_app i l1 l2 : located i (l1 ++ l2) -> located i l1 /\ located (i + length l1) l2.
Proof.
  intros H. split; intros j Hj.
  - rewrite H by (rewrite length_app; lia). by rewrite lookup_app_l.
  - rewrite <- Nat.add_assoc, H by (rewrite length_app; lia). rewrite lookup_app_r by lia. f_equal. lia.
Qed.

Lemma located_cons i b l : located i (b :: l) -> fnCode fn !! i = Some b /\ located (S i) l.
Proof.
  intros H. split.
  - rewrite <- (Nat.add_0_r i). apply (H 0). simpl. lia.
  - intros j Hj. replace (S i + j) with (i + S j) by lia. apply (H (S j)). simpl. lia.
Qed.

(** What [opClosure] does for one entry. *)
Definition take_entry (c i : nat) : M Cells unit :=
  bind readByte (fun isLocal => bind readByte (fun index =>
    if (isLocal =? 0)%Z then writes (quiet (inherit c i (closure f0) (Z.to_nat index)))
    else writes (quiet (capture c i (slots f0 + Z.to_nat index))))).

Lemma take_entry_at i vs ce bs gk u before_ after : runs bs -> located i (table [u]) -> at_hand vs u ->
  take_entry (length bs) (length before_) (V i vs ce (bs ++ [(gk, before_ ++ None :: after)]))
  = Ret (tt, V (S (S i)) vs ce (bs ++ [(gk, before_ ++ taken vs u :: after)])).
Proof.
  intros Hb Hc Hu. unfold table in Hc. simpl in Hc. apply located_cons in Hc as [H1 Hc]. apply located_cons in Hc as [H2 _].
  assert (runs (bs ++ [(gk, before_ ++ None :: after)])) as Hb' by (by apply lookup_app_l_Some).
  unfold take_entry, bind at 1. rewrite (readByte_at _ _ _ _ _ Hb' H1). unfold bind. rewrite (readByte_at _ _ _ _ _ Hb' H2).
  unfold at_hand, taken in *. unfold runs in *. destruct (Scopes.isLocal u); simpl.
  - destruct (lookup_lt_is_Some_2 _ _ Hu) as [x Hx]. unfold writes, quiet, V. simpl. unfold Cel.capture_cell. simpl.
    rewrite Hx. simpl. rewrite list_lookup_middle by done. simpl.
    rewrite length_app. simpl. destruct (_ <? _) eqn:E; [|apply Nat.ltb_ge in E; lia]. simpl.
    by rewrite insert_app_r_alt, Nat.sub_diag, insert_app_r_alt, Nat.sub_diag by lia.
  - destruct (lookup_lt_is_Some_2 _ _ Hu) as [x Hx]. unfold writes, quiet, V. simpl. unfold Cel.inherit_cell, Cel.cell_at. simpl.
    rewrite Hb'. simpl. rewrite Hx. simpl. rewrite list_lookup_middle by done. simpl.
    rewrite length_app. simpl. destruct (_ <? _) eqn:E; [|apply Nat.ltb_ge in E; lia]. simpl.
    by rewrite insert_app_r_alt, Nat.sub_diag, insert_app_r_alt, Nat.sub_diag by lia.
Qed.

Lemma take_entries us : forall i vs ce bs gk before_, runs bs -> located i (table us) -> Forall (at_hand vs) us ->
  each (take_entry (length bs)) (seq (length before_) (length us))
    (V i vs ce (bs ++ [(gk, before_ ++ replicate (length us) None)]))
  = Ret (tt, V (i + length (table us)) vs ce (bs ++ [(gk, before_ ++ map (taken vs) us)])).
Proof.
  induction us as [|u us IH]; intros i vs ce bs gk before_ Hb Hc Hu; simpl.
  { by rewrite Nat.add_0_r. }
  apply Forall_cons in Hu as [Hu Hus]. change (table (u :: us)) with (table [u] ++ table us) in Hc.
  apply located_app in Hc as [Hc1 Hc2]. unfold bind. rewrite (take_entry_at _ _ _ _ _ u) by done.
  replace (before_ ++ taken vs u :: replicate (length us) None) with ((before_ ++ [taken vs u]) ++ replicate (length us) None)
    by by rewrite <- app_assoc.
  replace (S (length before_)) with (length (before_ ++ [taken vs u])) by (rewrite length_app; simpl; lia).
  replace (S (S i)) with (i + 2) by lia. rewrite IH by done. rewrite <- app_assoc. simpl.
  unfold table. rewrite <- Nat.add_assoc. done.
Qed.

(** [OpCode::Closure], once its constant has been read. *)
Lemma closure_at single i i' vs ce bs gk gfn us : runs bs -> length vs <> lim ->
  readConstant single (V i vs ce (bs)) = Ret (FunctionV gk, V i' vs ce bs) ->
  fns !! gk = Some gfn -> upvalueCount gfn = length us -> ownerType fn = Nil ->
  located i' (table us) -> Forall (at_hand (vs ++ [length ce])) us ->
  opClosure single (V i vs ce bs) =
    Ret (tt, V (i' + length (table us)) (vs ++ [length ce]) (ce ++ [ClosureV (length bs)])
               (bs ++ [(gk, map (taken (vs ++ [length ce])) us)])).
Proof.
  intros Hb Hroom Hread Hg Hcount Hown Hc Hu. unfold opClosure, bind at 1. rewrite Hread.
  unfold functionObj at 1, bind at 1, bind at 1, asks at 1. simpl. rewrite Hg. simpl.
  unfold ret at 1. unfold bind at 1, writes at 1. simpl. rewrite Hcount.
  pose proof (take_entries us i' (vs ++ [length ce]) (ce ++ [ClosureV (length bs)]) bs gk [] Hb Hc Hu) as Hloop.
  simpl in Hloop. unfold runs in Hb.
  assert (Hb' : (bs ++ [(gk, replicate (length us) None)]) !! closure f0 = Some (fi, ups)) by (by apply lookup_app_l_Some).
  assert (Hcl : closure (with_ip (fun _ => i') f0) = closure f0) by (by destruct f0).
  assert (Hsl : slots (with_ip (fun _ => i') f0) = slots f0) by (by destruct f0).
  unfold bind at 1, frame, bind at 1, asks at 1, ret at 1. simpl. rewrite Hcl, Hsl.
  unfold bind at 1, reads at 1. simpl. unfold Cel.functionOf_cell. simpl. rewrite Hb'. simpl.
  unfold functionObj, bind at 1, bind at 1, asks at 1. simpl. rewrite Hfn. simpl. unfold ret at 1. rewrite Hown.
  assert (forall m : M Cells unit, bind (match ownerType gfn with
    | Nil | Bool _ => fun v : VM Cells => Ret (tt, v) | _ => ret tt end) (fun _ => m) = m) as Hskip by (by destruct (ownerType gfn)).
  rewrite Hskip. unfold bind at 1, pushM, writes at 1, quiet at 1. simpl.
  destruct (length vs =? lim) eqn:E; [by apply Nat.eqb_eq in E|]. simpl. unfold bind at 1, reads at 1. simpl.
  unfold Cel.upvaluesSize_cell. simpl. rewrite list_lookup_middle by done. simpl. rewrite length_replicate.
  exact Hloop.
Qed.

Lemma constant_at k i vs ce bs v : runs bs -> fnConstants fn !! k = Some v ->
  (f <-- frame ;; fn' <-- closureFunction (closure f) ;; opt_ub (fnConstants fn' !! k)) (V i vs ce bs) = Ret (v, V i vs ce bs).
Proof.
  intros Hb Hk. unfold runs in Hb. unfold V. clear Hidle. destruct f0. simpl in *.
  unfold frame, closureFunction, functionObj, bind, asks, reads, ret. simpl. unfold Cel.functionOf_cell. simpl.
  rewrite Hb. simpl. rewrite Hfn. simpl. by rewrite Hk.
Qed.

(** An instruction with an argument of one byte or two, as [emitOpArgsBytes] writes it. *)
Definition op_bytes (op : Op.OpCode) (arg : Z) : list Z :=
  if (arg <=? 255)%Z then [Op.asByte op; wrapU 8 arg]
  else [Z.lor (Op.asByte op) DoubleByteArg; wrapU 8 (Z.shiftr arg 8); Z.land arg 255].

Lemma emitClosure_code constIdx f g : table_ok f ->
  Scopes.code (Scopes.emitClosure constIdx f g) = Scopes.code g ++ op_bytes Op.Closure constIdx ++ table (Scopes.upvalues f).
Proof.
  intros [Hc _ _]. unfold Scopes.emitClosure, Scopes.closure_table. rewrite Hc, take_ge by lia. fold (table (Scopes.upvalues f)).
  unfold Scopes.emitOpArgsBytes, Scopes.emitOp, Scopes.emitByte, op_bytes. destruct g. case_match; simpl; by rewrite <- !app_assoc.
Qed.

Lemma closure_step_at i constIdx vs ce bs gk gfn us : runs bs -> (0 <= constIdx <= 65535)%Z -> length vs <> lim ->
  fnConstants fn !! Z.to_nat constIdx = Some (FunctionV gk) ->
  fns !! gk = Some gfn -> upvalueCount gfn = length us -> ownerType fn = Nil ->
  located i (op_bytes Op.Closure constIdx ++ table us) -> Forall (at_hand (vs ++ [length ce])) us ->
  step e (V i vs ce bs) =
    Ret (None, V (i + length (op_bytes Op.Closure constIdx ++ table us)) (vs ++ [length ce]) (ce ++ [ClosureV (length bs)])
               (bs ++ [(gk, map (taken (vs ++ [length ce])) us)])).
Proof.
  intros Hb Hidx Hroom Hconst Hg Hcount Hown Hloc Hu. apply located_app in Hloc as [Hop Htab].
  rewrite length_app, Nat.add_assoc. unfold op_bytes in *. destruct (constIdx <=? 255)%Z eqn:E.
  - apply Z.leb_le in E. apply located_cons in Hop as [H1 Hop]. apply located_cons in Hop as [H2 _]. simpl in *.
    apply (step_at _ _ _ _ _ _ _ _ Hb H1 (decode_asByte Op.Closure)). simpl. unfold bind at 1.
    assert (wrapU 8 constIdx = constIdx) as Hw by (apply Z.mod_small; lia). rewrite Hw in H2.
    rewrite (closure_at true (S i) (i + 2) _ _ _ gk gfn us); [done|done|done| |done..].
    unfold readConstant. unfold bind at 1. rewrite (readByte_at _ _ _ _ _ Hb H2).
    replace (S (S i)) with (i + 2) by lia. by apply constant_at.
  - apply Z.leb_gt in E. apply located_cons in Hop as [H1 Hop]. apply located_cons in Hop as [H2 Hop].
    apply located_cons in Hop as [H3 _]. simpl in *.
    apply (step_at _ _ _ _ _ _ _ _ Hb H1 (decode_double Op.Closure)). simpl. unfold bind at 1.
    rewrite (closure_at false (S i) (i + 3) _ _ _ gk gfn us); [done|done|done| |done..].
    unfold readConstant. unfold bind at 1. unfold bind at 1. rewrite (readByte_at _ _ _ _ _ Hb H2).
    unfold bind at 1. rewrite (readByte_at _ _ _ _ _ Hb H3). unfold ret at 1.
    replace (S (S (S i))) with (i + 3) by lia. apply constant_at; [done|].
    rewrite <- Hconst. do 2 f_equal. unfold wrapU. change 255%Z with (Z.ones 8).
    rewrite Z.land_ones, Z.shiftl_mul_pow2, Z.shiftr_div_pow2 by lia. change (2 ^ 8)%Z with 256%Z.
    assert (0 <= constIdx / 256 < 256)%Z as Hq by (split; [apply Z.div_pos|apply Z.div_lt_upper_bound]; lia).
    rewrite (Z.mod_small (constIdx / 256)) by done. pose proof (Z.div_mod constIdx 256 ltac:(lia)). lia.
Qed.

(** The cell of a variable, given the cells of the frames around. *)
Definition cell_of (env : list (list nat)) (p : place) : option nat := env !! p.1 ≫= (.!! p.2).

(** A closure's block holds what its function's table stands for. *)
Definition holds (block : list (option nat)) (us : list Scopes.Upvalue) (rest : list Scopes.LexicalScope)
    (env : list (list nat)) : Prop :=
  forall k p, denotes k us rest = Some p -> exists x, cell_of env p = Some x /\ block !! k = Some (Some x).

Lemma taken_holds vs us g rest env : holds ups (Scopes.upvalues g) rest env -> Forall (at_hand vs) us ->
  holds (map (taken vs) us) us (Scopes.FuncOrModule g :: rest) (drop (slots f0) vs :: env).
Proof.
  intros Hmine Hu k p. simpl. destruct (us !! k) as [u|] eqn:Hk; simpl; [|done].
  rewrite Forall_lookup in Hu. specialize (Hu k u Hk). unfold at_hand in Hu. rewrite list_lookup_fmap, Hk. simpl.
  unfold taken. destruct (Scopes.isLocal u).
  - intros [= <-]. destruct (lookup_lt_is_Some_2 _ _ Hu) as [x Hx]. exists x. unfold cell_of. simpl. rewrite lookup_drop. by rewrite Hx.
  - destruct (denotes _ (Scopes.upvalues g) rest) as [q|] eqn:Hq; simpl; [|done]. intros [= <-].
    destruct (Hmine _ _ Hq) as (x & Hx & Hb). exists x. split; [by destruct q|]. by rewrite Hb.
Qed.

(** Closures hold the variables their functions name.  A function [f] was compiled
    inside the function [g], whose closure is running; each name of [f] that is a variable
    of a function around it was given an entry of its table.  The instruction that [g] ends
    up with for [f] makes a closure in whose block every such entry is the cell of the
    innermost variable of that name: a slot of the running frame, or a variable that the
    running closure holds. *)
Theorem closures_hold_lexical_variables f scopes uses f' g rest env constIdx gk gfn i vs ce bs
    (Hf : table_ok f) (Hscopes : Forall scope_table_ok scopes)
    (Huses : resolves f scopes uses f' (Scopes.FuncOrModule g :: rest))
    (Hcode : located i (drop (length (Scopes.code g)) (Scopes.code (Scopes.emitClosure constIdx f' g))))
    (Hconst : (0 <= constIdx <= 65535)%Z /\ fnConstants fn !! Z.to_nat constIdx = Some (FunctionV gk) /\ ownerType fn = Nil)
    (Hfunction : fns !! gk = Some gfn /\ upvalueCount gfn = length (Scopes.upvalues f'))
    (Hframe : runs bs) (Hmine : holds ups (Scopes.upvalues g) rest env)
    (Hroom : length vs <> lim) (Hready : Forall (at_hand (vs ++ [length ce])) (Scopes.upvalues f')) :
  exists i' block,
    step e (V i vs ce bs) = Ret (None, V i' (vs ++ [length ce]) (ce ++ [ClosureV (length bs)]) (bs ++ [(gk, block)])) /\
    forall n k, (n, Some k) ∈ uses -> exists p x,
      binding n scopes = Some p /\ cell_of (drop (slots f0) (vs ++ [length ce]) :: env) p = Some x /\ block !! k = Some (Some x).
Proof.
  destruct (resolves_spec _ _ _ _ _ Huses Hf Hscopes) as (Hf' & _ & Hnames), Hconst as (Hidx & Hk & Hown), Hfunction as [Hg Hcount].
  rewrite emitClosure_code, drop_app_length in Hcode by done.
  eexists _, _. split; [by apply (closure_step_at i constIdx vs ce bs gk gfn (Scopes.upvalues f'))|].
  intros n k Hin. destruct (Hnames n k Hin) as (p & Hp & Hd).
  destruct (taken_holds _ _ g rest env Hmine Hready k p Hd) as (x & Hx & Hb). by exists p, x.
Qed.
End Running.

(** ** Concrete runs *)

Definition demo_function (c : list Z) (constants : list Val) : ObjFunction :=
  mkFunction c constants 0 0 (FuncType false [] []) [] false false Nil None.

Lemma jumps_reach_their_labels_witness :
  exists ce', (step (mkEntry false 1) ;;; step (mkEntry false 1))
    (V 8 [demo_function (Scopes.code after_label) []] (new_frame 0 0 false false []) [] idle [] false None 4 0 [0; 1; 2; 3] [Nil; Int 1; Int 2; Int 3] [(0, [])])
  = Ret (None, V 8 [demo_function (Scopes.code after_label) []] (new_frame 0 0 false false []) [] idle [] false None 4 8 [0; 1]
           ([Nil; Int 1; Int 2; Int 3] ++ ce') [(0, [])]).
Proof.
  destruct (jumps_reach_their_labels 8 [demo_function (Scopes.code after_label) []] (new_frame 0 0 false false []) [] idle [] false None 4
    0 [] (demo_function (Scopes.code after_label) []) (mkEntry false 1) ltac:(done) eq_refl
    (Scopes.code after_label) 0 8 (variables after_label) (variables before_jump)
    (jump_forward false "done" [Enter; Var "x"; Enter; Var "y"] before_jump at_jump [Var "z"; Exit] at_label after_label
       eq_refl eq_refl eq_refl eq_refl eq_refl) ltac:(done) [0; 1; 2; 3] [Nil; Int 1; Int 2; Int 3] [(0, [])]) as (_ & ce' & H);
    [reflexivity|repeat constructor; simpl; lia|simpl; lia|]. exists ce'. exact H.
Defined.

(** [x] of a function two functions out; the function between holds its cell, 7. *)
Definition inner : Scopes.FunctionScope * Scopes.FunctionScope * list Scopes.LexicalScope :=
  match Scopes.resolveUpvalue "x" (Scopes.new_scope false) (tail nested) with
  | Ret (_, f', Scopes.FuncOrModule g :: rest) => (f', g, rest)
  | _ => (Scopes.new_scope false, Scopes.new_scope false, [])
  end.

Definition outer_function : ObjFunction :=
  demo_function (Scopes.code (Scopes.emitClosure 0 inner.1.1 inner.1.2)) [FunctionV 1].
Definition inner_function : ObjFunction := mkFunction [] [] 0 1 (FuncType false [] []) [] false false Nil None.

Lemma closures_hold_lexical_variables_witness :
  exists i' block p x,
    step (mkEntry false 1) (V 8 [outer_function; inner_function] (new_frame 0 0 false false []) [] idle [] false None 4 0 [0] (replicate 8 Nil) [(0, [Some 7])])
    = Ret (None, V 8 [outer_function; inner_function] (new_frame 0 0 false false []) [] idle [] false None 4 i' [0; 8] (replicate 8 Nil ++ [ClosureV 1])
             [(0, [Some 7]); (1, block)]) /\
    binding "x" (tail nested) = Some p /\ cell_of [[0; 8]; [5; 7; 6]] p = Some x /\ block !! 0 = Some (Some x).
Proof.
  destruct (closures_hold_lexical_variables 8 [outer_function; inner_function] (new_frame 0 0 false false []) [] idle [] false None 4
    0 [Some 7] outer_function (mkEntry false 1) ltac:(done) eq_refl
    (Scopes.new_scope false) (tail nested) [("x", Some 0)] inner.1.1 inner.1.2 inner.2 [[5; 7; 6]] 0 1 inner_function 0 [0] (replicate 8 Nil) [(0, [Some 7])])
    as (i' & block & H1 & H2); [| | |..].
  - split; simpl; lia.
  - repeat constructor; simpl; lia.
  - eapply resolves_next; [vm_compute; reflexivity|]. apply resolves_none.
  - intros j Hj. reflexivity.
  - split_and!; [lia|lia|reflexivity|reflexivity].
  - split; reflexivity.
  - reflexivity.
  - intros [|k] p Hp; [|done]. vm_compute in Hp. injection Hp as <-. exists 7. split; reflexivity.
  - simpl. lia.
  - vm_compute. repeat constructor.
  - destruct (H2 "x" 0) as (p & x & H3); [by left|]. exists i', block, p, x. split; [exact H1|exact H3].
Defined.
End CompiledCode.
